(* ===== verification/_CoqProject ===== *)
-Q . S2P
Prelude.v
Lru.v
Chunker.v
GoLib.v
Contracts.v
Manifest.v
Meta.v
GoText.v
DictionaryFamily.v
Concrete.v
Dictionary.v
ChunkStore.v
SourceIngest.v
Annotations.v
ObjectStore.v
Gc.v
Preserve.v
Projection.v
Repack.v
KeyLock.v
PackCache.v
System.v
Jobs.v
PackedShard.v
ShardFiles.v
Mbox.v
GoPath.v
ArchiveFiles.v
ArchiveState.v
ArchiveQueue.v
SourceService.v
MailMessage.v
ArchiveImport.v
ArchiveStore.v
Breaker.v
Worker.v
WorkerStore.v
RpcConvert.v
RpcFilestore.v
Scheduler.v
Broker.v
BrokerRounds.v
BrokerRoutes.v
BrokerSource.v
BrokerWorld.v
BrokerServer.v
