(* ===== verification/Prelude.v ===== *)
(** * Verification of gmeow: overview and prelude

    Gmeow keeps mail, files and contacts in a content-addressed object store
    (FILESTORE), imports them from sources, analyses every object with a pool of
    workers, and serves queries over the result.  This library models the Go
    code that decides what is stored, when it is durable, what is collected and
    which work is queued, and proves what the rest of the system relies on.

    ** Parts, files and how they correspond to the code (under src/internal/)

    - [Prelude] (this file): notation, tactics, the hint database [gm], errors
      as values ([GoError], with [errors.Is] on wrapped chains), generic lemmas.
    - [GoLib], [GoText]: the functions of Go's standard library the code uses
      (string order, TrimSpace, SliceStable, ToLower, ParseUint, ...).
    - [Lru]: cache/lru.go, cache/sized.go and scheduler/lru.go on an explicit
      heap of list nodes; a nil dereference is a result of its own.
    - [Chunker]: content-defined chunking in filestore/chunkstore.go, of a
      buffer and of a stream with short and failing reads.
    - [Contracts], [Jobs]: the structs of contracts/contracts.go, and the
      interface between the worker and the store as the class [ObjectStore]
      with its laws.
    - [Manifest]: the pure part of filestore/store.go (normalisation, merging
      and validation of manifests and provenance).
    - [Meta]: filestore/pebblestore.go and the state [Store] of a
      FilesystemStore: the metadata map, the packs (bytes, synced length,
      directory entry), the active pack, dictionaries, caches, old files, the
      clock and the faults to come.  [Ext] holds what is outside the repository
      (Pebble, BLAKE3, SHA-256, zstd, JSON) with its documented behaviour in
      [ExtLaws]; [Concrete] is an instance of both.
    - [DictionaryFamily], [Dictionary]: filestore/dictionary_family.go,
      dictionary.go (choice, bootstrap, loading and caching of dictionaries).
    - [ChunkStore]: filestore/chunkstore.go and commit_batch.go.
    - [SourceIngest]: filestore/source_ingest.go, the claim sweep of
      maintenance.go and the source rows of packed_store.go.
    - [Annotations]: filestore/object_annotations.go and the change records.
    - [ObjectStore]: the operations of filestore/store.go and
      compound_parent_refresh.go.
    - [Gc], [Repack], [Projection]: filestore/gc.go, repack.go, projection.go.
      The collector is cut at the points where it looks at the live store
      ([gcPoint], [gcResume]), with any writer's steps between them ([gcRun]).
    - [Preserve], [System]: all store operations as one transition system.
    - [Breaker], [Worker]: analysis/circuitbreaker.go, worker.go, registry.go;
      [WorkerStore] instantiates the worker's interface with the store.
    - [Scheduler]: scheduler/scheduler.go against any store and any broker.
    - [KeyLock], [PackCache]: filestore/key_lock.go and packcache.go, with
      goroutines that take one locked section at a time, in any order.
    - [PackedShard], [ShardFiles]: the files of framed records of
      filestore/packed_store.go, with their compaction (maintenance.go) and
      repair (verify.go).
    - [GoPath], [ArchiveFiles]: Go's path/filepath on Unix, and the part of
      source/archive_import.go that walks archive roots and builds identifiers
      and canonical paths of archived messages, over a tree of files.
    - [Mbox]: source/archive_mbox.go, the reader that keeps a whole archive and the one
      that hands over a message at a time, on the lines of the archive.
    - [ArchiveState]: the resume state of source/archive_import_queue.go and the
      run records of source/archive_import_runs.go, with
      their temporary files, renames and failures.
    - [ArchiveQueue]: source/archive_import_queue.go, the discovery that
      publishes one job per archived message and the workers that drain them.
    - [SourceService]: source/interfaces.go (ingest, backfill, live delivery), on
      any store that keeps the claims of [SourceIngest].
    - [MailMessage]: facets/mailmessage/mailmessage.go; Go's mail and MIME
      readers are the class [MimeLib].
    - [ArchiveImport]: the direct import of source/archive_import.go and
      archive_membership.go, against any store; [ArchiveStore] runs it on the
      FILESTORE model.
    - [Broker]: scheduler/rabbitmq/broker.go and the broker's part of
      source_import.go, against any AMQP client ([Amqp]); [BrokerRounds] has the
      proofs about its loops, [BrokerRoutes] those about its topology.
    - [BrokerSource]: analysis_source.go and the job source of source_import.go.
    - [BrokerWorld]: the broker as the one the scheduler runs on; [BrokerServer]:
      a server in memory, the instances and the faults.
    - [RpcConvert]: rpc/convert.go and operation_pb.go, both directions of every
      message; timestamps and JSON documents go through the class [Codec].
    - [RpcFilestore]: rpc/filestore_server.go, filestore_client.go and retry.go:
      the handlers, the change batcher, the upload pipe and the content cache,
      with requests and replies that the network loses.

    ** How effects are modelled

    Store operations run in the monad [M] of Meta.v: explicit state, errors as
    values, a panic as a third outcome.  Every I/O step first consumes one
    element of [faults s]: it succeeds, fails, or writes only a part; so a
    theorem over all stores covers every failure at every step, and every point
    an operation can stop at.  The clock advances at the environment's will.  A
    [crash] keeps synced bytes and linked packs, may keep any part of the rest,
    and loses the caches.  The locks of the code make its read-modify-writes
    atomic, so these are single steps; where the code runs unlocked (the
    collector, the sweep of claims) other writers' steps come in between.  The worker and the
    scheduler run in the same kind of monad over their own state, with the
    calls they make to a broker kept as a trace.

    ** What the theorems show

    - Storage: every reachable store is consistent, puts are atomic and durable
      across crashes, what is stored is read back exactly, readers never pass
      corrupt bytes off as complete, duplicate content is stored once.
    - Maintenance: the collector alone takes exactly what is unused, and with
      writers in the windows its guards are for it keeps what is in use; where
      the guards do not reach, theorems show what is lost.  Repacking keeps
      every chunk, walks show every object once and in order.
    - Ingestion: claims are exclusive and never stuck, source lookups are sound,
      the indexes hold exactly what was recorded.
    - Analysis: no delivery is lost or acknowledged before the store has held an
      analysis of the version it asks for, redelivery is free,
      the breaker refines a three-phase machine, scans and sweeps queue exactly
      the work that is due and reach every object.
    - Data structures and pure code: the caches refine recency lists, streaming
      equals buffered chunking, prefix ranges and provenance merging are exact.
    - Shards: the lines of a shard are read back whatever their length, an
      unfinished line is found and cut off, compaction keeps the last record of
      every key and replaces a file whole or not at all.
    - Concurrency: one goroutine at a time works on an object, locks are dropped
      with their last user, and no pack file is closed while it is read, closed
      twice or left open.
    - Archives: the two mbox readers agree, a discovery that is interrupted and
      resumed publishes what an undisturbed one does, a drained queue settles
      every job, state files hold an old or a new state and never a torn one;
      a direct import accounts for every message and keeps one canonical object
      per Message-ID; bodies and attachments depend on the leaves of a message
      alone.
    - Queues: a message is acknowledged only after its successor was confirmed,
      whatever fails; every routing key leads to one queue; a job that keeps
      failing is buried after its retries; the broker keeps the scheduler's
      contract.
    - RPC: the store behind a client obeys the same contract as the store
      itself, an upload is a local put of the same content, batched change notices lose and reorder nothing, the content cache
      serves what the server holds, messages survive their conversion.
    - Defects: some theorems show runs on which the code does not do what it
      means to; the findings of the manifest name them.

    ** Bounds and fuel

    Loops over data recurse on the data.  [chunkContent], [streamChunks] and the
    readers carry fuel computed from the length of the content or of the read
    script, and the theorems prove that it is enough.  Loops that wait for other
    parties (queue workers, retries) get a number of rounds; running out of
    rounds is the outcome [Panic], "still waiting", and the liveness theorems
    give a number that suffices; so is a write to a pipe that nobody reads.  64-bit words (gear hash,
    durations, attempts of a job) are kept at their width where they can wrap.
    Pack identifiers (uint64 in the code) and the counters of reports are
    unbounded: a pack is 256 MiB, so that no disk holds 2^64 of them.

    ** Not modelled, and why

    A metadata document is a typed value: encoding it and decoding it with
    encoding/json is the identity, and only a document of another type fails to
    decode.  The reader of a put is never nil (a nil one would panic).  Content is
    known by its BLAKE3 hash, and theorems that read it back assume that the
    chunks at hand do not collide.

    SQL (query/postgres), the protocol servers, process start-up and metrics are
    calls of other systems; of gRPC, what the code sees of it is modelled (calls
    that fail before or after the server ran them), not the transport.
    Embeddings are floating-point computations of a model service.  Goroutines
    are interleaved in [KeyLock] and [PackCache]; elsewhere their scheduling is
    covered as far as locks serialise it.  Log lines, metrics
    and the text of error messages beyond their kind are left out.
    The workers of a direct import take messages one after another, in any
    order: the lock on a Message-ID makes the ingestion of a message a step of
    its own only for messages that share it.  Symbolic links, progress reports and the goroutine that retries failed
    publications of an archive run are left out; so are the generated protobuf
    code and the RPCs that stream walks with a cursor. *)

From stdpp Require Export base tactics option list gmap sets strings.
From stdpp Require Import options.
From Stdlib Require Export ZArith Lia.

#[export] Set Default Goal Selector "!".

(** ** Notation of the development *)

Declare Scope gm_scope.
Delimit Scope gm_scope with gm.

Open Scope gm_scope.

(** Go's [[]byte] and [string] contents. *)
Abbreviation bytes := (list Byte.byte).

Create HintDb gm discriminated.

(** Case analysis on every match of the goal and hypotheses. *)
Ltac cases_all :=
  repeat (case_match || case_decide || case_bool_decide); simplify_eq/=.

(** ** Lists *)

(** First element of [l], or [d] when [l] is empty. *)
Definition hd_or {A} (l : list A) (d : option A) : option A :=
  match l with [] => d | x :: _ => Some x end.

(** Last element of [l], or [d] when [l] is empty. *)
Fixpoint last_or {A} (d : option A) (l : list A) : option A :=
  match l with [] => d | x :: r => last_or (Some x) r end.

Lemma hd_or_app {A} (l1 l2 : list A) d : hd_or (l1 ++ l2) d = hd_or l1 (hd_or l2 d).
Proof. by destruct l1. Qed.

Lemma last_or_app {A} (l1 l2 : list A) d : last_or d (l1 ++ l2) = last_or (last_or d l1) l2.
Proof. revert d. induction l1; simpl; auto. Qed.

Lemma last_or_snoc {A} (l : list A) x d : last_or d (l ++ [x]) = Some x.
Proof. by rewrite last_or_app. Qed.

Lemma last_or_Some {A} (l : list A) d x :
  last_or d l = Some x -> (l = [] /\ d = Some x) \/ exists l', l = l' ++ [x].
Proof.
  destruct l as [|y l _] using rev_ind; simpl; [by left|].
  rewrite last_or_snoc. intros [= ->]. right. by eexists.
Qed.

Lemma last_or_None {A} (l : list A) : last_or None l = None -> l = [].
Proof. destruct l as [|y l _] using rev_ind; [done|]. by rewrite last_or_snoc. Qed.

Lemma last_or_Some_ne {A} (l : list A) x : last_or (Some x) l <> None.
Proof. revert x. induction l; simpl; eauto. Qed.

Lemma NoDup_take {A} n (l : list A) : NoDup l -> NoDup (take n l).
Proof. intros H. eapply sublist_NoDup; [done|]. apply sublist_take. Qed.

Lemma elem_of_take_sub {A} (x : A) n l : x ∈ take n l -> x ∈ l.
Proof. intros (i & Hi & _)%elem_of_take. by apply list_elem_of_lookup_2 in Hi. Qed.

(** ** Counting *)

Section Tally.
Context {A : Type}.
Implicit Types (f g : A -> bool) (l : list A) (r : A).
Local Open Scope Z_scope.

(** How many elements pass a test. *)
Definition tally f l : Z := Z.of_nat (length (List.filter f l)).

Lemma tally_app f l1 l2 : tally f (l1 ++ l2) = tally f l1 + tally f l2.
Proof. unfold tally. rewrite List.filter_app, length_app. lia. Qed.
Lemma tally_cons f r l : tally f (r :: l) = (if f r then 1 else 0) + tally f l.
Proof. unfold tally. cbn. destruct (f r); cbn [length]; lia. Qed.
Lemma tally_pos f r l : r ∈ l -> f r = true -> 0 < tally f l.
Proof. intros Hr Hf. apply list_elem_of_split in Hr as (l1 & l2 & ->). rewrite tally_app, tally_cons, Hf. unfold tally. lia. Qed.
Lemma tally_some f l : 0 < tally f l -> exists r, r ∈ l /\ f r = true.
Proof.
  unfold tally. destruct (List.filter f l) as [|r l'] eqn:E; [done|]. exists r. rewrite list_elem_of_In.
  apply List.filter_In. rewrite E. by left.
Qed.
Lemma tally_nonneg f l : 0 <= tally f l.
Proof. unfold tally. lia. Qed.

(** One element replaced. *)
Lemma tally_swap f l1 r r' l2 : tally f (l1 ++ r' :: l2) = tally f (l1 ++ r :: l2) - (if f r then 1 else 0) + (if f r' then 1 else 0).
Proof. rewrite !tally_app, !tally_cons. lia. Qed.

Lemma tally_unused f g l : (forall r, f r = true -> g r = true) -> (forall r, r ∈ l -> g r = false) -> tally f l = 0.
Proof.
  intros Hfg Hg. induction l as [|r l IH]; [done|]. rewrite tally_cons, IH by (intros; apply Hg; by right).
  destruct (f r) eqn:E; [|done]. apply Hfg in E. rewrite Hg in E by by left. done.
Qed.

Lemma tally_unique f l i j r r' : tally f l <= 1 -> l !! i = Some r -> l !! j = Some r' -> f r = true -> f r' = true -> i = j.
Proof.
  revert i j. induction l as [|x l IH]; [done|]. intros i j Hc Hi Hj Hf Hf'. rewrite tally_cons in Hc. pose proof (tally_nonneg f l).
  destruct i as [|i], j as [|j]; cbn in Hi, Hj; [done| | |f_equal; apply IH; try done; destruct (f x); lia]; exfalso.
  - injection Hi as ->. rewrite Hf in Hc. pose proof (tally_pos f r' l (list_elem_of_lookup_2 _ _ _ Hj) Hf'). lia.
  - injection Hj as ->. rewrite Hf' in Hc. pose proof (tally_pos f r l (list_elem_of_lookup_2 _ _ _ Hi) Hf). lia.
Qed.

Lemma tally_insert f l i r r' : l !! i = Some r -> tally f (<[i := r']> l) = tally f l - (if f r then 1 else 0) + (if f r' then 1 else 0).
Proof.
  intros Hi. rewrite (insert_take_drop _ _ _ (lookup_lt_Some _ _ _ Hi)), (tally_swap _ _ r), take_drop_middle by done. lia.
Qed.

Lemma tally_lookup f l i r : l !! i = Some r -> f r = true -> 0 < tally f l.
Proof. intros Hi. eapply tally_pos, list_elem_of_lookup_2, Hi. Qed.

Lemma tally_ext f g l : (forall r, r ∈ l -> f r = g r) -> tally f l = tally g l.
Proof.
  induction l as [|r l IH]; intros H; [done|]. rewrite !tally_cons, H, IH by (intros; try apply H; set_solver). done.
Qed.
End Tally.

(** ** Go integers, slices and errors *)

(** Wrap-around of [uint64] arithmetic. *)
Definition wrap64 (z : Z) : Z := z mod 2 ^ 64.

(** [len(b)], [b[:n]] and [b[n:]] with Go's [int] lengths. *)
Definition blen {A} (b : list A) : Z := Z.of_nat (length b).
Definition ztake {A} (n : Z) (b : list A) : list A := take (Z.to_nat n) b.
Definition zdrop {A} (n : Z) (b : list A) : list A := drop (Z.to_nat n) b.

Lemma ztake_zdrop {A} n (b : list A) : ztake n b ++ zdrop n b = b.
Proof. apply take_drop. Qed.

Lemma blen_app {A} (a b : list A) : blen (a ++ b) = (blen a + blen b)%Z.
Proof. unfold blen. rewrite length_app. lia. Qed.

Lemma blen_nonneg {A} (b : list A) : (0 <= blen b)%Z.
Proof. unfold blen. lia. Qed.

Lemma blen_ztake {A} n (b : list A) : (0 <= n <= blen b)%Z -> blen (ztake n b) = n.
Proof. unfold blen, ztake. rewrite length_take. lia. Qed.

Lemma length_zdrop {A} n (b : list A) : length (zdrop n b) = length b - Z.to_nat n.
Proof. apply length_drop. Qed.

(** Go's [error] values: [os.ErrNotExist], a cancelled context, a package's
    error variable by its name, any other message,
    [fmt.Errorf("...: %w", err)], and an error that wraps two. *)
Inductive GoError :=
  | ErrNotExist
  | ErrCtx
  | ErrVar (name : string)
  | ErrMsg (msg : string)
  | ErrWrap (msg : string) (err : GoError)
  | ErrJoin (err1 err2 : GoError).

(** [errors.Is(err, os.ErrNotExist)]. *)
Fixpoint isNotExist (e : GoError) : bool :=
  match e with
  | ErrNotExist => true
  | ErrWrap _ e' => isNotExist e'
  | ErrJoin e1 e2 => isNotExist e1 || isNotExist e2
  | _ => false
  end.

(** [errors.Is(err, name)] for an error variable. *)
Fixpoint isVar (name : string) (e : GoError) : bool :=
  match e with
  | ErrVar n => bool_decide (n = name)
  | ErrWrap _ e' => isVar name e'
  | ErrJoin e1 e2 => isVar name e1 || isVar name e2
  | _ => false
  end.

#[export] Instance GoError_eq_dec : EqDecision GoError.
Proof. solve_decision. Defined.
