(* ===== verification/Lru.v ===== *)
(** * LRU caches: [cache/lru.go], [cache/sized.go], [scheduler/lru.go]

    The three caches share one intrusive doubly linked list.  The list is
    modelled on an explicit heap of nodes, with the pointer updates of the
    source one by one; a nil or dangling dereference is a panic ([None]).
    [Dll] holds the list, [Lru], [SizedLru] and [LruCache] the caches, each
    with an abstract specification (a recency-ordered association list) and a
    refinement theorem for arbitrary sequences of operations. *)

From stdpp Require Import options.
From S2P Require Import Prelude.

Module Dll.

Abbreviation loc := positive (only parsing).

Section defs.
Context {K V : Type}.

(** [type node[K, V] struct { key; value; prev, next }]. *)
Record node := Node { key : K; value : V; prev : option loc; next : option loc }.

(** The heap of nodes, the next unused address, and the list's two ends. *)
Record dll := MkDll { heap : gmap positive node; brk : loc; head : option loc; tail : option loc }.

Definition empty : dll := MkDll ∅ 1 None None.

Definition set_prev (p : option loc) (n : node) : node := Node (key n) (value n) p (next n).
Definition set_next (p : option loc) (n : node) : node := Node (key n) (value n) (prev n) p.
Definition set_value (v : V) (n : node) : node := Node (key n) v (prev n) (next n).

(** Field update through a pointer; panics when the pointer is dangling. *)
Definition upd (l : loc) (f : node -> node) (c : dll) : option dll :=
  n ← heap c !! l; Some (MkDll (<[l := f n]> (heap c)) (brk c) (head c) (tail c)).

Definition set_head (p : option loc) (c : dll) : dll := MkDll (heap c) (brk c) p (tail c).
Definition set_tail (p : option loc) (c : dll) : dll := MkDll (heap c) (brk c) (head c) p.

(** [&node[K, V]{key: key, value: value}]. *)
Definition alloc (k : K) (v : V) (c : dll) : loc * dll :=
  (brk c, MkDll (<[brk c := Node k v None None]> (heap c)) (Pos.succ (brk c)) (head c) (tail c)).

Definition pushFront (entry : loc) (c : dll) : option dll :=
  c1 ← upd entry (set_prev None) c;
  c2 ← upd entry (set_next (head c1)) c1;
  c3 ← (match head c2 with
        | Some h => upd h (set_prev (Some entry)) c2
        | None => Some c2
        end);
  let c4 := set_head (Some entry) c3 in
  Some (match tail c4 with
        | None => set_tail (Some entry) c4
        | Some _ => c4
        end).

Definition unlink (entry : loc) (c : dll) : option dll :=
  n ← heap c !! entry;
  c1 ← (match prev n with
        | Some p => upd p (set_next (next n)) c
        | None => Some (set_head (next n) c)
        end);
  n1 ← heap c1 !! entry;
  c2 ← (match next n1 with
        | Some q => upd q (set_prev (prev n1)) c1
        | None => Some (set_tail (prev n1) c1)
        end);
  c3 ← upd entry (set_prev None) c2;
  upd entry (set_next None) c3.

Definition moveToFront (entry : loc) (c : dll) : option dll :=
  if decide (head c = Some entry) then Some c
  else c1 ← unlink entry c; pushFront entry c1.

(** ** Representation: [dlseg h p xs n] says the nodes [xs] are linked in
    order in [h], the first one's [prev] is [p] and the last one's [next] [n]. *)
Abbreviation cell := (positive * (K * V))%type.

Fixpoint dlseg (h : gmap positive node) (p : option loc) (xs : list cell) (n : option loc) : Prop :=
  match xs with
  | [] => True
  | (l, (k, v)) :: r => h !! l = Some (Node k v p (hd_or r.*1 n)) /\ dlseg h (Some l) r n
  end.

(** The list [c] holds exactly the cells [xs], front first. *)
Record dll_ok (c : dll) (xs : list cell) : Prop := {
  ok_seg : dlseg (heap c) None xs None;
  ok_head : head c = hd_or xs.*1 None;
  ok_tail : tail c = last_or None xs.*1;
  ok_nodup : NoDup xs.*1;
  ok_brk : forall l n, heap c !! l = Some n -> (l < brk c)%positive }.

End defs.
Arguments node : clear implicits.
Arguments dll : clear implicits.

Section lemmas.
Context {K V : Type}.
Implicit Types (c : dll K V) (xs : list (positive * (K * V))).

Lemma dlseg_app h p xs ys n :
  @dlseg K V h p (xs ++ ys) n <->
  dlseg h p xs (hd_or ys.*1 n) /\ dlseg h (last_or p xs.*1) ys n.
Proof.
  revert p. induction xs as [|[l [k v]] xs IH]; intros p; csimpl; [naive_solver|].
  rewrite IH, fmap_app, hd_or_app. naive_solver.
Qed.

Lemma dlseg_insert_ne h p xs n l nd :
  l ∉ xs.*1 -> @dlseg K V (<[l := nd]> h) p xs n <-> dlseg h p xs n.
Proof.
  revert p. induction xs as [|[l' [k v]] xs IH]; intros p; csimpl; [done|].
  rewrite not_elem_of_cons. intros [Hne Hni].
  rewrite lookup_insert_ne by done. rewrite IH by done. done.
Qed.

Lemma dlseg_upd_last h p xs l k v n n' :
  l ∉ xs.*1 ->
  @dlseg K V h p (xs ++ [(l, (k, v))]) n ->
  dlseg (<[l := Node k v (last_or p xs.*1) n']> h) p (xs ++ [(l, (k, v))]) n'.
Proof.
  intros Hl. rewrite !dlseg_app. csimpl. intros (Hs & _ & _). split.
  - by apply dlseg_insert_ne.
  - by rewrite lookup_insert_eq.
Qed.

Lemma dlseg_lookup h p xs l k v n :
  @dlseg K V h p xs n -> (l, (k, v)) ∈ xs -> exists a b, h !! l = Some (Node k v a b).
Proof.
  revert p. induction xs as [|[l' [k' v']] xs IH]; intros p; csimpl.
  - by intros _ ?%elem_of_nil.
  - intros [Hl Hs] [[= -> -> ->]|Hin]%elem_of_cons; eauto.
Qed.

Lemma upd_Some c l f n :
  heap c !! l = Some n ->
  upd l f c = Some (MkDll (<[l := f n]> (heap c)) (brk c) (head c) (tail c)).
Proof. intros H. unfold upd. by rewrite H. Qed.

Lemma dll_ok_empty : dll_ok (@empty K V) [].
Proof. split; csimpl; try done. apply NoDup_nil_2. Qed.

Lemma pushFront_ok c xs e nd :
  dll_ok c xs -> heap c !! e = Some nd -> e ∉ xs.*1 ->
  exists c', pushFront e c = Some c' /\ dll_ok c' ((e, (key nd, value nd)) :: xs) /\
    brk c' = brk c.
Proof.
  intros [Hs Hh Ht Hn Hb] He Hni. unfold pushFront.
  rewrite (upd_Some c e (set_prev None) nd) by done; csimpl.
  erewrite upd_Some by (csimpl; apply lookup_insert_eq); csimpl.
  rewrite insert_insert_eq.
  destruct xs as [|[h [k v]] r]; csimpl in *.
  - rewrite Hh; csimpl. rewrite Ht. eexists; split; [done|]. split; [|done].
    split; csimpl.
    + split; [|done]. by rewrite lookup_insert_eq.
    + done.
    + done.
    + apply NoDup_singleton.
    + intros l n. rewrite lookup_insert_Some. naive_solver.
  - rewrite Hh; csimpl. destruct Hs as [Hhd Hs]. apply not_elem_of_cons in Hni as [Hne Hni].
    apply NoDup_cons in Hn as [Hhr Hn].
    erewrite upd_Some by (csimpl; rewrite lookup_insert_ne by done; exact Hhd); csimpl.
    rewrite Ht. destruct (last_or (Some h) r.*1) as [t|] eqn:Hl.
    2: { by apply last_or_Some_ne in Hl. }
    csimpl. eexists; split; [done|]. split; [|done]. split; csimpl.
    + rewrite lookup_insert_ne by done. rewrite lookup_insert_eq. split; [done|].
      rewrite lookup_insert_eq. split; [done|]. by rewrite !dlseg_insert_ne by done.
    + done.
    + by rewrite Hl.
    + apply NoDup_cons. rewrite not_elem_of_cons, NoDup_cons. done.
    + intros l n. rewrite !lookup_insert_Some. naive_solver.
Qed.

(** The first half of [unlink]: the predecessor (or [head]) skips the cell. *)
Lemma unlink_left c xs e ys n :
  dlseg (heap c) None xs n -> head c = hd_or (xs.*1) n ->
  NoDup (xs.*1) -> e ∉ xs.*1 -> (forall l, l ∈ xs.*1 -> l ∉ ys.*1) ->
  dlseg (heap c) (Some e) ys None ->
  exists c1, (match last_or None xs.*1 with
      | Some p => upd p (set_next (hd_or ys.*1 None)) c
      | None => Some (set_head (hd_or ys.*1 None) c) end) = Some c1 /\
    dlseg (heap c1) None xs (hd_or ys.*1 None) /\ dlseg (heap c1) (Some e) ys None /\
    heap c1 !! e = heap c !! e /\ dom (heap c1) = dom (heap c) /\ brk c1 = brk c /\
    tail c1 = tail c /\ head c1 = hd_or (xs ++ ys).*1 None.
Proof.
  intros Hxs Hh Hnx Hex Hdis Hys.
  destruct xs as [|[l [k' v']] xs' _] using rev_ind; csimpl in *.
  - eexists; split; [done|]. csimpl. naive_solver.
  - rewrite fmap_app in *; csimpl in *. rewrite last_or_snoc.
    apply NoDup_app in Hnx as (Hnx & Hdx & _).
    assert (l ∉ xs'.*1) as Hlx by (intros Hin; apply (Hdx l Hin); left).
    assert (l ≠ e) by (intros ->; apply Hex; set_solver).
    assert (l ∉ ys.*1) as Hly by (apply Hdis; set_solver).
    apply dlseg_app in Hxs as Hxs'. destruct Hxs' as [_ [Hl _]]. csimpl in Hl.
    erewrite upd_Some by exact Hl. eexists; split; [done|]. csimpl.
    split; [by eapply dlseg_upd_last; eauto|].
    split; [by rewrite dlseg_insert_ne|].
    rewrite lookup_insert_ne by done. split; [done|].
    split; [rewrite dom_insert_lookup_L; eauto|].
    split; [done|]. split; [done|].
    rewrite Hh. rewrite !fmap_app, !hd_or_app. csimpl. by destruct xs'.
Qed.

(** The second half: the successor (or [tail]) skips the cell. *)
Lemma unlink_right c xs e ys :
  dlseg (heap c) None xs (hd_or ys.*1 None) -> dlseg (heap c) (Some e) ys None ->
  tail c = last_or (Some e) ys.*1 ->
  NoDup (ys.*1) -> e ∉ ys.*1 -> (forall l, l ∈ xs.*1 -> l ∉ ys.*1) ->
  exists c2, (match hd_or ys.*1 None with
      | Some q => upd q (set_prev (last_or None xs.*1)) c
      | None => Some (set_tail (last_or None xs.*1) c) end) = Some c2 /\
    dlseg (heap c2) None (xs ++ ys) None /\ heap c2 !! e = heap c !! e /\
    dom (heap c2) = dom (heap c) /\ brk c2 = brk c /\
    head c2 = head c /\ tail c2 = last_or None (xs ++ ys).*1.
Proof.
  intros Hx Hy Ht Hny Hey Hdis.
  destruct ys as [|[q [kq vq]] ys']; csimpl in *.
  - eexists; split; [done|]. rewrite app_nil_r. csimpl. naive_solver.
  - destruct Hy as [Hq Hy]. apply not_elem_of_cons in Hey as [Hqe Hey].
    apply NoDup_cons in Hny as [Hqy Hny].
    assert (q ∉ xs.*1) by (intros Hin; apply (Hdis q Hin); left).
    erewrite upd_Some by exact Hq. eexists; split; [done|]. csimpl.
    rewrite lookup_insert_ne by done. split.
    + apply dlseg_app. rewrite dlseg_insert_ne by done. split; [done|]. csimpl.
      rewrite lookup_insert_eq. split; [done|]. by rewrite dlseg_insert_ne.
    + split; [done|]. split; [rewrite dom_insert_lookup_L; eauto|].
      by rewrite fmap_app, last_or_app, Ht.
Qed.

(** [unlink] takes a cell out of the middle and clears its pointers. *)
Lemma unlink_ok c xs e k v ys :
  dll_ok c (xs ++ (e, (k, v)) :: ys) ->
  exists c', unlink e c = Some c' /\ dll_ok c' (xs ++ ys) /\
    heap c' !! e = Some (Node k v None None) /\ brk c' = brk c.
Proof.
  intros [Hs Hh Ht Hn Hb]. rewrite fmap_app in *. csimpl in *.
  apply dlseg_app in Hs as [Hxs [He Hys]]. csimpl in Hxs.
  apply NoDup_app in Hn as (Hnx & Hxy & [Hey Hny]%NoDup_cons).
  assert (e ∉ xs.*1) as Hex by (intros Hin; apply (Hxy e Hin); left).
  assert (forall l, l ∈ xs.*1 -> l ∉ ys.*1) as Hdis
    by (intros l Hin Hin'; apply (Hxy l Hin); by right).
  rewrite last_or_app in Ht; csimpl in Ht. rewrite hd_or_app in Hh; csimpl in Hh.
  destruct (unlink_left c xs e ys (Some e)) as
    (c1 & Hc1 & Hx1 & Hy1 & He1 & Hd1 & Hb1 & Ht1 & Hh1); try done.
  rewrite Ht in Ht1.
  destruct (unlink_right c1 xs e ys) as
    (c2 & Hc2 & Hxy2 & He2 & Hd2 & Hb2 & Hh2 & Ht2); try done.
  unfold unlink. rewrite He; csimpl. rewrite Hc1; csimpl. rewrite He1, He; csimpl.
  rewrite Hc2; csimpl. rewrite He1, He in He2.
  erewrite upd_Some by exact He2; csimpl.
  erewrite upd_Some by (csimpl; apply lookup_insert_eq); csimpl. rewrite insert_insert_eq; csimpl.
  assert (e ∉ (xs ++ ys).*1) by (rewrite fmap_app, not_elem_of_app; done).
  eexists; split; [done|]. split; [|csimpl; rewrite lookup_insert_eq; naive_solver congruence].
  split; csimpl.
  - by rewrite !dlseg_insert_ne.
  - congruence.
  - done.
  - rewrite fmap_app, NoDup_app. naive_solver.
  - intros l n Hl. rewrite Hb2, Hb1.
    assert (is_Some (heap c !! l)) as [n' Hn'].
    { apply elem_of_dom. rewrite <- Hd1, <- Hd2. apply lookup_insert_Some in Hl as [[<- _]|[_ Hl]];
        apply elem_of_dom; eauto. }
    eauto.
Qed.

Lemma moveToFront_ok c xs e k v ys :
  dll_ok c (xs ++ (e, (k, v)) :: ys) ->
  exists c', moveToFront e c = Some c' /\ dll_ok c' ((e, (k, v)) :: xs ++ ys) /\ brk c' = brk c.
Proof.
  intros Hok. unfold moveToFront. case_decide as Hd.
  - exists c. split; [done|]. split; [|done].
    destruct xs as [|[l kv] xs]; [done|].
    exfalso. destruct Hok as [_ Hh _ Hn _]. csimpl in *. rewrite Hd in Hh. simplify_eq.
    apply NoDup_cons in Hn as [Hni _]. apply Hni. rewrite fmap_app. set_solver.
  - assert (e ∉ (xs ++ ys).*1) as Hni.
    { destruct Hok as [_ _ _ Hn _]. rewrite fmap_app in Hn. csimpl in Hn.
      apply NoDup_app in Hn as (_ & Hd' & [Hn _]%NoDup_cons).
      rewrite fmap_app, not_elem_of_app. split; [|done]. intros Hin. apply (Hd' e Hin). left. }
    destruct (unlink_ok _ _ _ _ _ _ Hok) as (c1 & Hc1 & Hok1 & He1 & Hb1).
    destruct (pushFront_ok _ _ _ _ Hok1 He1 Hni) as (c2 & Hc2 & Hok2 & Hb2).
    rewrite Hc1; csimpl. exists c2. csimpl in *. split; [done|]. split; [done|]. congruence.
Qed.

(** A fresh node is not yet in the list. *)
Lemma alloc_ok c xs k v :
  dll_ok c xs ->
  let '(e, c') := alloc k v c in
  dll_ok c' xs /\ heap c' !! e = Some (Node k v None None) /\ e ∉ xs.*1.
Proof.
  intros [Hs Hh Ht Hn Hb]. csimpl.
  assert (brk c ∉ xs.*1) as Hni.
  { intros ([l [k' v']] & Heq & Hin)%list_elem_of_fmap. csimpl in Heq. subst l.
    destruct (dlseg_lookup _ _ _ _ _ _ _ Hs Hin) as (a & b & Hl). apply Hb in Hl. lia. }
  split; [|split; [apply lookup_insert_eq|done]]. split; csimpl; try done.
  - by rewrite dlseg_insert_ne.
  - intros l n. rewrite lookup_insert_Some. intros [[<- _]|[_ Hl%Hb]]; lia.
Qed.

(** Writing a cell's value in place. *)
Lemma set_value_ok c xs e k v v' ys :
  dll_ok c (xs ++ (e, (k, v)) :: ys) ->
  exists c', upd e (set_value v') c = Some c' /\ dll_ok c' (xs ++ (e, (k, v')) :: ys) /\
    brk c' = brk c.
Proof.
  intros [Hs Hh Ht Hn Hb]. rewrite !fmap_app in *. csimpl in *.
  apply dlseg_app in Hs as [Hxs [He Hys]].
  apply NoDup_app in Hn as Hn'. destruct Hn' as (Hnx & Hxy & [Hey Hny]%NoDup_cons).
  assert (e ∉ xs.*1) as Hex by (intros Hin; apply (Hxy e Hin); left).
  erewrite upd_Some by exact He. eexists; split; [done|]. split; [|done].
  split; csimpl; rewrite ?fmap_app; csimpl; try done.
  - apply dlseg_app. csimpl. rewrite !dlseg_insert_ne by done. split; [done|].
    by rewrite lookup_insert_eq.
  - intros l n. rewrite lookup_insert_Some. naive_solver.
Qed.

End lemmas.
End Dll.

(** ** A list with an index: what the three caches have in common *)
Module Indexed.
Import Dll.

Section indexed.
Context {K V : Type} `{Countable K}.
Implicit Types (c : dll K V) (xs : list (positive * (K * V))) (m : gmap K positive).

(** The map [m] indexes exactly the cells [xs] of the list [c]. *)
Record index_ok m c xs : Prop := {
  ix_dll : dll_ok c xs;
  ix_map : forall k l, m !! k = Some l <-> exists v, (l, (k, v)) ∈ xs;
  ix_keys : NoDup xs.*2.*1 }.

Lemma elem_of_keys xs k : k ∈ xs.*2.*1 <-> exists l v, (l, (k, v)) ∈ xs.
Proof.
  rewrite list_elem_of_fmap. setoid_rewrite list_elem_of_fmap. split.
  - intros ([k' v] & -> & ([l kv] & Heq & Hin)). simpl in *. subst kv. eauto.
  - intros (l & v & Hin). exists (k, v). split; [done|]. exists (l, (k, v)). done.
Qed.

Lemma index_empty : index_ok ∅ Dll.empty [].
Proof.
  split; [apply dll_ok_empty| |apply NoDup_nil_2].
  intros k l. split; [by rewrite lookup_empty|]. by intros [v ?%elem_of_nil].
Qed.

Lemma index_Some m c xs k l :
  index_ok m c xs -> m !! k = Some l ->
  exists xs1 v xs2, xs = xs1 ++ (l, (k, v)) :: xs2.
Proof. intros [_ Hm _] [v Hin]%Hm. apply list_elem_of_split in Hin as (a & b & ->). eauto. Qed.

Lemma index_None m c xs k : index_ok m c xs -> m !! k = None -> k ∉ xs.*2.*1.
Proof.
  intros [_ Hm _] Hk (l & v & Hin)%elem_of_keys.
  assert (m !! k = Some l) by (apply Hm; eauto). congruence.
Qed.

Lemma index_size m c xs : index_ok m c xs -> size m = length xs.
Proof.
  intros [_ Hm Hk].
  assert (dom m = list_to_set xs.*2.*1) as Hd.
  { apply set_eq. intros k. rewrite elem_of_dom, elem_of_list_to_set. split.
    - intros [l [v Hin]%Hm]. apply elem_of_keys. eauto.
    - intros (l & v & Hin)%elem_of_keys. exists l. apply Hm. eauto. }
  rewrite <- size_dom, Hd, size_list_to_set by done. by rewrite !length_fmap.
Qed.

Lemma index_perm m c c' xs ys :
  index_ok m c xs -> dll_ok c' ys -> ys ≡ₚ xs -> index_ok m c' ys.
Proof.
  intros [_ Hm Hk] Hc Hp. split; [done| |by rewrite Hp].
  intros k l. rewrite Hm. by setoid_rewrite Hp.
Qed.

Lemma index_move m c a e k v b :
  index_ok m c (a ++ (e, (k, v)) :: b) ->
  exists c' p q, moveToFront e c = Some c' /\ index_ok m c' ((e, (k, v)) :: a ++ b) /\
    heap c' !! e = Some (Node k v p q).
Proof.
  intros Hix. destruct (moveToFront_ok _ _ _ _ _ _ (ix_dll _ _ _ Hix)) as (c' & Hc' & Hok & _).
  exists c', None, (hd_or (a ++ b).*1 None). split; [done|]. split.
  - eapply index_perm; [done..|]. by rewrite Permutation_middle.
  - apply (ok_seg _ _ Hok).
Qed.

Lemma index_insert m c xs k v :
  index_ok m c xs -> m !! k = None ->
  exists c', pushFront (alloc k v c).1 (alloc k v c).2 = Some c' /\
    index_ok (<[k := (alloc k v c).1]> m) c' (((alloc k v c).1, (k, v)) :: xs).
Proof.
  intros Hix Hk. pose proof (index_None _ _ _ _ Hix Hk) as Hni. destruct Hix as [Hc Hm Hks].
  pose proof (alloc_ok c xs k v Hc) as Ha. destruct (alloc k v c) as [e c1]. simpl.
  destruct Ha as (Hc1 & He & Hne).
  destruct (pushFront_ok _ _ _ _ Hc1 He Hne) as (c' & Hp & Hok & _). simpl in Hok.
  exists c'. split; [done|]. split; [done| |].
  - intros k' l. rewrite lookup_insert_Some. setoid_rewrite elem_of_cons.
    destruct (decide (k = k')) as [<-|Hn].
    + split.
      * intros [[_ <-]|[? _]]; [eauto|done].
      * intros [v' [[= -> ->]|Hin]]; [by left|]. exfalso. apply Hni.
        apply elem_of_keys. eauto.
    + rewrite Hm. split; [intros [[? _]|[_ [v' ?]]]; [done|eauto]|].
      intros [v' [[= -> -> ->]|Hin]]; [done|]. right. eauto.
  - csimpl. apply NoDup_cons. done.
Qed.

Lemma index_unlink m c a e k v b :
  index_ok m c (a ++ (e, (k, v)) :: b) ->
  exists c', unlink e c = Some c' /\ heap c' !! e = Some (Node k v None None) /\
    index_ok (delete k m) c' (a ++ b).
Proof.
  intros [Hc Hm Hks]. destruct (unlink_ok _ _ _ _ _ _ Hc) as (c' & Hu & Hok & He & _).
  assert (k ∉ (a ++ b).*2.*1) as Hni.
  { rewrite !fmap_app in *. csimpl in Hks. apply NoDup_app in Hks as (_ & Hd & [Hb _]%NoDup_cons).
    rewrite not_elem_of_app. split; [|done]. intros Hin. apply (Hd k Hin). left. }
  exists c'. split; [done|]. split; [done|]. split; [done| |].
  - intros k' l. rewrite lookup_delete_Some, Hm. split.
    + intros [Hn [v' Hin]]. exists v'. revert Hin.
      rewrite !elem_of_app, elem_of_cons. naive_solver.
    + intros [v' Hin]. split.
      * intros <-. apply Hni. apply elem_of_keys. eauto.
      * exists v'. revert Hin. rewrite !elem_of_app, elem_of_cons. naive_solver.
  - rewrite !fmap_app in *. csimpl in Hks. apply NoDup_app in Hks as (? & Hd & [_ ?]%NoDup_cons).
    apply NoDup_app. split; [done|]. split; [|done]. intros x Hx Hx'. apply (Hd x Hx). by right.
Qed.

Lemma index_set_value m c a e k v v' b :
  index_ok m c (a ++ (e, (k, v)) :: b) ->
  exists c', upd e (set_value v') c = Some c' /\ index_ok m c' (a ++ (e, (k, v')) :: b).
Proof.
  intros [Hc Hm Hks]. destruct (set_value_ok _ _ _ _ _ v' _ Hc) as (c' & Hu & Hok & _).
  exists c'. split; [done|]. split; [done| |].
  - intros k' l. rewrite Hm. setoid_rewrite elem_of_app. setoid_rewrite elem_of_cons.
    naive_solver.
  - rewrite !fmap_app in *. done.
Qed.

(** The tail of a non-empty list is its last cell. *)
Lemma index_tail m c xs e :
  index_ok m c xs -> tail c = Some e -> exists a k v, xs = a ++ [(e, (k, v))].
Proof.
  intros [Hc _ _] Ht. rewrite (ok_tail _ _ Hc) in Ht.
  destruct xs as [|[l [k v]] xs' _] using rev_ind; [done|].
  rewrite fmap_app, last_or_app in Ht. simplify_eq/=. eauto.
Qed.

Lemma index_tail_None m c xs : index_ok m c xs -> tail c = None -> xs = [].
Proof.
  intros [Hc _ _] Ht. rewrite (ok_tail _ _ Hc) in Ht.
  destruct xs as [|[l [k v]] xs' _] using rev_ind; [done|].
  by rewrite fmap_app, last_or_app in Ht.
Qed.

End indexed.
End Indexed.

(** ** Recency lists: the abstract state of a cache *)
Module Recency.
Section recency.
Context {K V : Type} `{EqDecision K}.
Implicit Types (l : list (K * V)).

Fixpoint alookup (k : K) l : option V :=
  match l with
  | [] => None
  | (k', v) :: r => if decide (k' = k) then Some v else alookup k r
  end.

Definition aremove (k : K) l : list (K * V) := filter (fun p => p.1 <> k) l.

Lemma alookup_app_middle a k v b : k ∉ a.*1 -> alookup k (a ++ (k, v) :: b) = Some v.
Proof.
  induction a as [|[k' v'] a IH]; csimpl; [by rewrite decide_True|].
  rewrite not_elem_of_cons. intros [Hn Hni]. rewrite decide_False by done. auto.
Qed.

Lemma alookup_None k l : k ∉ l.*1 -> alookup k l = None.
Proof.
  induction l as [|[k' v'] l IH]; csimpl; [done|].
  rewrite not_elem_of_cons. intros [Hn Hni]. rewrite decide_False by done. auto.
Qed.

Lemma alookup_None_inv k l : alookup k l = None -> k ∉ l.*1.
Proof.
  induction l as [|[k' v'] l IH]; csimpl; [set_solver|].
  case_decide; [done|]. rewrite not_elem_of_cons. auto.
Qed.

Lemma aremove_notin k l : k ∉ l.*1 -> aremove k l = l.
Proof.
  induction l as [|[k' v'] l IH]; csimpl; [done|]. unfold aremove in *.
  rewrite not_elem_of_cons. intros [Hn Hni].
  rewrite filter_cons_True by (simpl; congruence). by rewrite IH.
Qed.

Lemma aremove_app_middle a k v b :
  k ∉ a.*1 -> k ∉ b.*1 -> aremove k (a ++ (k, v) :: b) = a ++ b.
Proof.
  intros Ha Hb. unfold aremove. rewrite filter_app, filter_cons_False by (simpl; tauto).
  fold (aremove k a) (aremove k b). by rewrite !aremove_notin.
Qed.

Lemma aremove_lookup k k' l : alookup k (aremove k' l) = if decide (k = k') then None else alookup k l.
Proof.
  unfold aremove. induction l as [|[k'' v] l IH]; csimpl; [by case_decide|].
  rewrite filter_cons. csimpl. repeat case_decide; csimpl; repeat case_decide; simplify_eq; auto.
Qed.

Lemma alookup_Some_elem k v l : alookup k l = Some v -> (k, v) ∈ l.
Proof.
  induction l as [|[k' v'] l IH]; csimpl; [done|].
  case_decide; intros; simplify_eq; [left|right; auto].
Qed.

Lemma alookup_prefix k v a b : alookup k a = Some v -> alookup k (a ++ b) = Some v.
Proof. induction a as [|[k' v'] a IH]; csimpl; [done|]. case_decide; auto. Qed.

(** Splitting a list with distinct keys at one of them. *)
Lemma nodup_middle a (k : K) (v : V) b :
  NoDup ((a ++ (k, v) :: b).*1) -> (k ∉ a.*1) /\ (k ∉ b.*1).
Proof.
  rewrite fmap_app. csimpl. intros (_ & Hd & [Hb _]%NoDup_cons)%NoDup_app.
  split; [|done]. intros Hin. apply (Hd k Hin). left.
Qed.

End recency.
End Recency.

(** ** [cache.LRU], the count-bounded cache *)
Module Lru.
Import Dll Indexed Recency.

Section lru.
Context {K V : Type} `{Countable K}.

Record LRU := MkLRU { capacity : Z; items : gmap K positive; dl : dll K V }.

Definition NewLRU (cap : Z) : LRU :=
  MkLRU (if (cap <? 1)%Z then 1%Z else cap) ∅ Dll.empty.

Definition removeTail (c : LRU) : option LRU :=
  match tail (dl c) with
  | None => Some c
  | Some entry =>
      d ← unlink entry (dl c);
      n ← heap d !! entry;
      Some (MkLRU (capacity c) (delete (key n) (items c)) d)
  end.

(** [Get]: the option is Go's [(value, ok)] pair. *)
Definition Get (k : K) (c : LRU) : option (option V * LRU) :=
  match items c !! k with
  | None => Some (None, c)
  | Some entry =>
      d ← moveToFront entry (dl c);
      n ← heap d !! entry;
      Some (Some (value n), MkLRU (capacity c) (items c) d)
  end.

(** The insertion tail that [Put] and [Add] share. *)
Definition insertNew (k : K) (v : V) (c : LRU) : option LRU :=
  let '(entry, d0) := alloc k v (dl c) in
  d ← pushFront entry d0;
  let c1 := MkLRU (capacity c) (<[k := entry]> (items c)) d in
  if (capacity c1 <? Z.of_nat (size (items c1)))%Z then removeTail c1 else Some c1.

Definition Put (k : K) (v : V) (c : LRU) : option LRU :=
  match items c !! k with
  | Some entry =>
      d ← upd entry (set_value v) (dl c);
      d' ← moveToFront entry d;
      Some (MkLRU (capacity c) (items c) d')
  | None => insertNew k v c
  end.

Definition Add (k : K) (v : V) (c : LRU) : option LRU :=
  match items c !! k with
  | Some entry =>
      d' ← moveToFront entry (dl c);
      Some (MkLRU (capacity c) (items c) d')
  | None => insertNew k v c
  end.

Definition Remove (k : K) (c : LRU) : option LRU :=
  match items c !! k with
  | None => Some c
  | Some entry =>
      d ← unlink entry (dl c);
      Some (MkLRU (capacity c) (delete k (items c)) d)
  end.

Definition Len (c : LRU) : nat := size (items c).

(** *** Abstract specification: most recent first, at most [cap] entries *)
Implicit Types (l : list (K * V)).

Definition spec_get (k : K) l : option V * list (K * V) :=
  match alookup k l with
  | None => (None, l)
  | Some v => (Some v, (k, v) :: aremove k l)
  end.

Definition spec_put (cap : nat) (k : K) (v : V) l : list (K * V) :=
  take cap ((k, v) :: aremove k l).

Definition spec_add (cap : nat) (k : K) (v : V) l : list (K * V) :=
  match alookup k l with
  | Some v0 => (k, v0) :: aremove k l
  | None => take cap ((k, v) :: l)
  end.

Inductive op := OGet (k : K) | OPut (k : K) (v : V) | OAdd (k : K) (v : V) | ORemove (k : K) | OLen.
Inductive out := RGet (r : option V) | RUnit | RLen (n : nat).

Definition step (o : op) (c : LRU) : option (out * LRU) :=
  match o with
  | OGet k => '(r, c') ← Get k c; Some (RGet r, c')
  | OPut k v => c' ← Put k v c; Some (RUnit, c')
  | OAdd k v => c' ← Add k v c; Some (RUnit, c')
  | ORemove k => c' ← Remove k c; Some (RUnit, c')
  | OLen => Some (RLen (Len c), c)
  end.

Definition spec_step (cap : nat) (o : op) l : out * list (K * V) :=
  match o with
  | OGet k => let '(r, l') := spec_get k l in (RGet r, l')
  | OPut k v => (RUnit, spec_put cap k v l)
  | OAdd k v => (RUnit, spec_add cap k v l)
  | ORemove k => (RUnit, aremove k l)
  | OLen => (RLen (length l), l)
  end.

Fixpoint run (os : list op) (c : LRU) : option (list out * LRU) :=
  match os with
  | [] => Some ([], c)
  | o :: r => '(x, c1) ← step o c; '(xs, c2) ← run r c1; Some (x :: xs, c2)
  end.

Fixpoint spec_run (cap : nat) (os : list op) l : list out * list (K * V) :=
  match os with
  | [] => ([], l)
  | o :: r => let '(x, l1) := spec_step cap o l in
              let '(xs, l2) := spec_run cap r l1 in (x :: xs, l2)
  end.

(** *** Refinement *)

Record lru_ok (c : LRU) (xs : list (positive * (K * V))) : Prop := {
  lru_index : index_ok (items c) (dl c) xs;
  lru_bound : length xs <= Z.to_nat (capacity c) }.

(** [c] implements the recency list [l]. *)
Definition repr (c : LRU) l : Prop := exists xs, lru_ok c xs /\ xs.*2 = l.

Lemma repr_empty cap : repr (MkLRU cap ∅ Dll.empty) [].
Proof. exists []. split; [|done]. split; csimpl; [apply index_empty|lia]. Qed.

Lemma removeTail_ok c xs e k v :
  index_ok (items c) (dl c) (xs ++ [(e, (k, v))]) ->
  exists c', removeTail c = Some c' /\ index_ok (items c') (dl c') xs /\
    capacity c' = capacity c.
Proof.
  intros Hix. unfold removeTail.
  rewrite (ok_tail _ _ (ix_dll _ _ _ Hix)), fmap_app, last_or_app. csimpl.
  destruct (index_unlink _ _ _ _ _ _ _ Hix) as (d & -> & He & Hok). csimpl.
  rewrite He. csimpl. rewrite app_nil_r in Hok. eauto.
Qed.

Lemma insertNew_ok c xs k v :
  lru_ok c xs -> items c !! k = None ->
  exists c', insertNew k v c = Some c' /\ capacity c' = capacity c /\
    repr c' (take (Z.to_nat (capacity c)) ((k, v) :: xs.*2)).
Proof.
  intros [Hix Hb] Hk. unfold insertNew.
  destruct (index_insert _ _ _ _ v Hix Hk) as (d & Hd & Hix').
  destruct (alloc k v (dl c)) as [e d0]. csimpl in *. rewrite Hd. csimpl.
  rewrite (index_size _ _ _ Hix'). csimpl.
  destruct (Z.ltb_spec (capacity c) (Z.of_nat (S (length xs)))) as [Hlt|Hge].
  - destruct (exists_last (l := (e, (k, v)) :: xs)) as (ys & [t [kt vt]] & Hys); [done|].
    assert (length ys = length xs) as Hlen
      by (apply (f_equal length) in Hys; rewrite length_app in Hys; csimpl in *; lia).
    rewrite Hys in Hix'.
    destruct (removeTail_ok (MkLRU (capacity c) (<[k:=e]> (items c)) d) ys t kt vt Hix')
      as (c' & Hr & Hix2 & Hcap).
    rewrite Hr. exists c'. split; [done|]. split; [done|]. exists ys. split.
    + split; [done|]. rewrite Hcap. csimpl. lia.
    + apply (f_equal (fmap snd)) in Hys. csimpl in Hys. rewrite Hys, fmap_app. csimpl.
      rewrite <- (length_fmap snd) in Hlen. replace (Z.to_nat (capacity c)) with (length (ys.*2))
        by lia. by rewrite take_app_length.
  - eexists; split; [done|]. split; [done|]. exists ((e, (k, v)) :: xs). split.
    + split; csimpl; [done|lia].
    + rewrite take_ge; [done|]. csimpl. rewrite length_fmap. lia.
Qed.

(** What a present key means on both sides. *)
Lemma repr_present c xs k e :
  lru_ok c xs -> items c !! k = Some e ->
  exists a v b, xs = a ++ (e, (k, v)) :: b /\ alookup k xs.*2 = Some v /\
    aremove k xs.*2 = a.*2 ++ b.*2 /\ length xs.*2 = S (length (a.*2 ++ b.*2)).
Proof.
  intros [Hix Hb] Hk. destruct (index_Some _ _ _ _ _ Hix Hk) as (a & v & b & ->).
  pose proof (ix_keys _ _ _ Hix) as Hn. rewrite fmap_app in Hn. csimpl in Hn.
  exists a, v, b. apply nodup_middle in Hn as [Ha Hb'].
  split; [done|]. rewrite fmap_app. csimpl. rewrite alookup_app_middle, aremove_app_middle by done.
  rewrite !length_app. csimpl. split; [done|]. split; [done|]. lia.
Qed.

Lemma repr_absent c xs k :
  lru_ok c xs -> items c !! k = None ->
  alookup k xs.*2 = None /\ aremove k xs.*2 = xs.*2.
Proof.
  intros [Hix Hb] Hk. pose proof (index_None _ _ _ _ Hix Hk).
  rewrite alookup_None, aremove_notin; done.
Qed.

(** A [Get] hit or a [Put]/[Add] of a present key moves the cell to the front. *)
Lemma repr_moved c a e k v b cap d :
  lru_ok c (a ++ (e, (k, v)) :: b) -> cap = capacity c ->
  index_ok (items c) d ((e, (k, v)) :: a ++ b) ->
  repr (MkLRU cap (items c) d) ((k, v) :: a.*2 ++ b.*2).
Proof.
  intros [Hix Hb] -> Hd. exists ((e, (k, v)) :: a ++ b). split.
  - split; csimpl; [done..|]. rewrite length_app in *. csimpl in *. lia.
  - csimpl. by rewrite fmap_app.
Qed.

Lemma step_refines c l cap o :
  repr c l -> cap = Z.to_nat (capacity c) ->
  exists c', step o c = Some ((spec_step cap o l).1, c') /\
    repr c' (spec_step cap o l).2 /\ capacity c' = capacity c.
Proof.
  intros (xs & Hok & <-) ->. pose proof Hok as [Hix Hb]. destruct o as [k|k v|k v|k|]; csimpl.
  - unfold Get, spec_get. destruct (items c !! k) as [e|] eqn:Hk.
    + destruct (repr_present _ _ _ _ Hok Hk) as (a & v & b & -> & -> & -> & _).
      destruct (index_move _ _ _ _ _ _ _ Hix) as (d & p & q & -> & Hd & He). csimpl.
      rewrite He. csimpl. eexists; split; [done|]. split; [|done]. by eapply repr_moved.
    + destruct (repr_absent _ _ _ Hok Hk) as [-> _]. csimpl.
      exists c. split; [done|]. split; [|done]. by exists xs.
  - unfold Put, spec_put. destruct (items c !! k) as [e|] eqn:Hk.
    + destruct (repr_present _ _ _ _ Hok Hk) as (a & v0 & b & -> & _ & -> & Hl).
      destruct (index_set_value _ _ _ _ _ _ v _ Hix) as (d & -> & Hix'). csimpl.
      destruct (index_move _ _ _ _ _ _ _ Hix') as (d' & p & q & -> & Hd & He). csimpl.
      eexists; split; [done|]. split; [|done].
      rewrite take_ge by (csimpl; rewrite <- Hl, length_fmap; lia).
      apply (repr_moved (MkLRU (capacity c) (items c) d) a e k v b); try done.
      split; csimpl; [done..|]. rewrite length_app in *. done.
    + destruct (repr_absent _ _ _ Hok Hk) as [_ ->].
      destruct (insertNew_ok _ _ _ v Hok Hk) as (c' & -> & Hcap & Hr). csimpl. eauto.
  - unfold Add, spec_add. destruct (items c !! k) as [e|] eqn:Hk.
    + destruct (repr_present _ _ _ _ Hok Hk) as (a & v0 & b & -> & -> & -> & Hl).
      destruct (index_move _ _ _ _ _ _ _ Hix) as (d & p & q & -> & Hd & He). csimpl.
      eexists; split; [done|]. split; [|done]. by eapply repr_moved.
    + destruct (repr_absent _ _ _ Hok Hk) as [-> _].
      destruct (insertNew_ok _ _ _ v Hok Hk) as (c' & -> & Hcap & Hr). csimpl. eauto.
  - unfold Remove. destruct (items c !! k) as [e|] eqn:Hk.
    + destruct (repr_present _ _ _ _ Hok Hk) as (a & v0 & b & -> & _ & -> & Hl).
      destruct (index_unlink _ _ _ _ _ _ _ Hix) as (d & -> & _ & Hd). csimpl.
      eexists; split; [done|]. split; [|done]. exists (a ++ b). split; [|by rewrite fmap_app].
      split; csimpl; [done..|]. rewrite length_app in *. csimpl in *. lia.
    + destruct (repr_absent _ _ _ Hok Hk) as [_ ->]. csimpl.
      exists c. split; [done|]. split; [|done]. by exists xs.
  - unfold Len. rewrite (index_size _ _ _ Hix), length_fmap.
    exists c. split; [done|]. split; [|done]. by exists xs.
Qed.

Lemma run_refines os c l cap :
  repr c l -> cap = Z.to_nat (capacity c) ->
  exists c', run os c = Some ((spec_run cap os l).1, c') /\ repr c' (spec_run cap os l).2.
Proof.
  revert c l. induction os as [|o os IH]; intros c l Hr Hcap; csimpl; [eauto|].
  destruct (step_refines c l cap o Hr Hcap) as (c1 & -> & Hr1 & Hc1). csimpl.
  destruct (spec_step cap o l) as [x l1]. csimpl in *.
  destruct (IH c1 l1 Hr1) as (c2 & -> & Hr2); [congruence|]. csimpl.
  destruct (spec_run cap os l1) as [xs l2]. eauto.
Qed.

(** *** Retention: what "least recently used" promises *)

(** The keys an operation may bring to the front. *)
Definition touched (o : op) : list K :=
  match o with OGet k | OPut k _ | OAdd k _ => [k] | ORemove _ | OLen => [] end.

(** The operation neither overwrites nor removes [k]. *)
Definition keeps (k : K) (o : op) : bool :=
  match o with OPut k' _ | ORemove k' => bool_decide (k <> k') | _ => true end.

(** [k] is bound to [v] and only keys of [T] are more recent. *)
Definition held (k : K) (v : V) (T : gset K) l : Prop :=
  exists a b, l = a ++ (k, v) :: b /\ NoDup (a.*1) /\ (k ∉ a.*1) /\
    (forall k', k' ∈ a.*1 -> k' ∈ T).

Lemma held_lookup k v T l : held k v T l -> alookup k l = Some v.
Proof. intros (a & b & -> & _ & Hk & _). by apply alookup_app_middle. Qed.

Lemma held_front k v T l : held k v T ((k, v) :: l).
Proof. exists [], l. split; [done|]. split; [constructor|]. set_solver. Qed.

Lemma aremove_elem k k' l : k' ∈ (aremove k l).*1 -> k' ∈ l.*1 /\ k' <> k.
Proof.
  intros (p & -> & [Hp Hin]%list_elem_of_filter)%list_elem_of_fmap.
  split; [|done]. by apply list_elem_of_fmap_2.
Qed.

Lemma aremove_nodup k l : NoDup (l.*1) -> NoDup ((aremove k l).*1).
Proof.
  unfold aremove. induction l as [|[k' v] l IH]; csimpl; [done|].
  rewrite NoDup_cons, filter_cons. intros [Hni Hn]. case_decide; [|auto]. csimpl.
  apply NoDup_cons. split; [|auto]. by intros [? _]%aremove_elem.
Qed.

Lemma held_remove k v k0 T l : k0 <> k -> held k v T l -> held k v T (aremove k0 l).
Proof.
  intros Hn (a & b & -> & Hnd & Hka & HT). exists (aremove k0 a), (aremove k0 b).
  unfold aremove at 1. rewrite filter_app, filter_cons_True by done. split; [done|].
  split; [by apply aremove_nodup|]. split; [by intros [? _]%aremove_elem|].
  intros k' [? _]%aremove_elem. auto.
Qed.

Lemma held_cons k v k0 v0 T l :
  k0 <> k -> k0 ∈ T -> held k v T l -> held k v T ((k0, v0) :: aremove k0 l).
Proof.
  intros Hn Hk0 Hh. destruct (held_remove k v k0 T l Hn Hh) as (a & b & Heq & Hnd & Hka & HT).
  assert (k0 ∉ a.*1).
  { intros Hin. assert (k0 ∈ (aremove k0 l).*1) as [_ ?]%aremove_elem; [|done].
    rewrite Heq, fmap_app, elem_of_app. by left. }
  exists ((k0, v0) :: a), b. rewrite Heq. split; [done|]. csimpl. rewrite NoDup_cons.
  split; [done|]. rewrite not_elem_of_cons. split; [done|]. intros k'. rewrite elem_of_cons.
  intros [->|?]; auto.
Qed.

(** Few enough keys in front: eviction does not reach [k]. *)
Lemma held_take k v T cap l : k ∉ T -> size T < cap -> held k v T l -> held k v T (take cap l).
Proof.
  intros HkT Hc (a & b & -> & Hnd & Hka & HT).
  assert (length a <= size T).
  { rewrite <- (length_fmap fst), <- (size_list_to_set (C := gset K)) by done.
    apply subseteq_size. intros k'. rewrite elem_of_list_to_set. auto. }
  exists a, (take (cap - S (length a)) b). split; [|done].
  rewrite take_app, (take_ge a) by lia. f_equal.
  replace (cap - length a) with (S (cap - S (length a))) by lia. done.
Qed.

Lemma held_step k v T cap o l :
  k ∉ T -> size T < cap -> keeps k o = true ->
  (forall k', k' ∈ touched o -> k' = k \/ k' ∈ T) ->
  held k v T l -> held k v T (spec_step cap o l).2.
Proof.
  intros HkT Hc Hk HT Hh. destruct o as [k0|k0 v0|k0 v0|k0|]; csimpl in *.
  - unfold spec_get. destruct (decide (k0 = k)) as [->|Hn].
    + rewrite (held_lookup _ _ _ _ Hh). apply held_front.
    + destruct (alookup k0 l); csimpl; [|done]. apply held_cons; [done| |done].
      destruct (HT k0); [set_solver|done..].
  - apply bool_decide_eq_true in Hk. apply held_take; [done..|].
    apply held_cons; [done| |done]. destruct (HT k0); [set_solver|congruence|done].
  - unfold spec_add. destruct (decide (k0 = k)) as [->|Hn].
    + rewrite (held_lookup _ _ _ _ Hh). apply held_front.
    + assert (k0 ∈ T) by (destruct (HT k0); [set_solver|done..]).
      destruct (alookup k0 l) eqn:Hl; [by apply held_cons|]. apply held_take; [done..|].
      rewrite <- (aremove_notin k0 l) by (by apply alookup_None_inv). by apply held_cons.
  - apply bool_decide_eq_true in Hk. by apply held_remove.
  - done.
Qed.

Lemma held_run k v T cap os l :
  k ∉ T -> size T < cap -> forallb (keeps k) os = true ->
  (forall k', k' ∈ os ≫= touched -> k' = k \/ k' ∈ T) ->
  held k v T l -> held k v T (spec_run cap os l).2.
Proof.
  intros HkT Hc. revert l. induction os as [|o os IH]; intros l Hk HT Hh; csimpl; [done|].
  csimpl in *. apply andb_true_iff in Hk as [Hk Hks].
  pose proof (held_step k v T cap o l HkT Hc Hk) as Hs.
  destruct (spec_step cap o l) as [x l1]. csimpl in *.
  specialize (IH l1 Hks). destruct (spec_run cap os l1) as [xs l2]. csimpl in *.
  apply IH; [set_solver|]. apply Hs; [|done]. set_solver.
Qed.

Lemma spec_run_app cap os1 os2 l :
  spec_run cap (os1 ++ os2) l =
  let '(x1, l1) := spec_run cap os1 l in
  let '(x2, l2) := spec_run cap os2 l1 in (x1 ++ x2, l2).
Proof.
  revert l. induction os1 as [|o os1 IH]; intros l; csimpl; [by destruct (spec_run cap os2 l)|].
  destruct (spec_step cap o l) as [x l1]. rewrite IH.
  destruct (spec_run cap os1 l1) as [xs l2]. by destruct (spec_run cap os2 l2).
Qed.

(** The specification never holds more than [cap] entries, nor a key twice. *)
Definition spec_wf (cap : nat) l : Prop := length l <= cap /\ NoDup (l.*1).

Lemma aremove_len k l : length (aremove k l) <= length l.
Proof. apply length_filter. Qed.

Lemma alookup_aremove_len k v l : alookup k l = Some v -> length (aremove k l) < length l.
Proof.
  unfold aremove. induction l as [|[k' v'] l IH]; csimpl; [done|]. rewrite filter_cons.
  csimpl. destruct (decide (k' = k)) as [->|Hn].
  - rewrite decide_False by tauto. intros _. pose proof (aremove_len k l).
    unfold aremove in *. lia.
  - rewrite decide_True by done. intros Hl%IH. csimpl. lia.
Qed.

Lemma nodup_front k v l : NoDup (l.*1) -> NoDup (((k, v) :: aremove k l).*1).
Proof.
  intros Hn. csimpl. apply NoDup_cons. split; [by intros [_ ?]%aremove_elem|].
  by apply aremove_nodup.
Qed.

Lemma spec_wf_step cap o l : spec_wf cap l -> spec_wf cap (spec_step cap o l).2.
Proof.
  intros [Hl Hn]. destruct o as [k|k v|k v|k|]; csimpl.
  - unfold spec_get. destruct (alookup k l) as [v|] eqn:Hk; csimpl; [|done]. split.
    + csimpl. pose proof (alookup_aremove_len _ _ _ Hk). lia.
    + by apply nodup_front.
  - unfold spec_put. split; [rewrite length_take; lia|].
    rewrite fmap_take. apply NoDup_take. by apply nodup_front.
  - unfold spec_add. destruct (alookup k l) as [v0|] eqn:Hk; split.
    + csimpl. pose proof (alookup_aremove_len _ _ _ Hk). lia.
    + by apply nodup_front.
    + rewrite length_take. lia.
    + rewrite fmap_take. apply NoDup_take.
      rewrite <- (aremove_notin k l) by (by apply alookup_None_inv). by apply nodup_front.
  - split; [pose proof (aremove_len k l); lia|]. by apply aremove_nodup.
  - done.
Qed.

Lemma spec_wf_run cap os l : spec_wf cap l -> spec_wf cap (spec_run cap os l).2.
Proof.
  revert l. induction os as [|o os IH]; intros l Hw; csimpl; [done|].
  pose proof (spec_wf_step cap o l Hw). destruct (spec_step cap o l) as [x l1].
  specialize (IH l1). destruct (spec_run cap os l1). auto.
Qed.

Lemma NewLRU_capacity cap : capacity (NewLRU cap) = Z.max 1 cap.
Proof. unfold NewLRU. csimpl. destruct (Z.ltb_spec cap 1); lia. Qed.

Lemma repr_NewLRU cap : repr (NewLRU cap) [].
Proof. apply repr_empty. Qed.

End lru.

Arguments op : clear implicits.
Arguments out : clear implicits.
Arguments LRU _ _ {_ _}.

(** C27: the pointer-based cache refines the recency-list specification: from
    [NewLRU cap], every sequence of Get/Put/Add/Remove/Len runs without a nil
    dereference, returns exactly the specified answers, and ends in a heap
    that represents the specified recency list, which has at most
    [max 1 cap] entries and no key twice. *)
Theorem lru_refines {K V} `{Countable K} (cap : Z) (os : list (op K V)) :
  let spec := spec_run (Z.to_nat (Z.max 1 cap)) os [] in
  exists c', run os (NewLRU cap) = Some (spec.1, c') /\ repr c' spec.2 /\
    length spec.2 <= Z.to_nat (Z.max 1 cap) /\ NoDup (spec.2.*1).
Proof.
  cbv zeta. destruct (run_refines os (NewLRU (V := V) cap) [] (Z.to_nat (Z.max 1 cap)))
    as (c' & Hrun & Hr); [apply repr_NewLRU|by rewrite NewLRU_capacity|].
  exists c'. split; [done|]. split; [done|]. apply spec_wf_run.
  split; [simpl; lia|constructor].
Qed.

(** Retention.  After a [Put k v], the cache still answers [v] for [k] as
    long as the later operations neither overwrite nor remove [k] and touch
    fewer distinct other keys than the capacity, whatever happened before. *)
Theorem lru_retention {K V} `{Countable K} (cap : Z) (pre : list (op K V)) (k : K) (v : V) os :
  size (list_to_set (os ≫= touched) ∖ {[k]} : gset K) < Z.to_nat (Z.max 1 cap) ->
  forallb (keeps k) os = true ->
  exists outs c', run (pre ++ OPut k v :: os ++ [OGet k]) (NewLRU cap) =
    Some (outs ++ [RGet (Some v)], c').
Proof.
  intros Hsz Hk. set (T := list_to_set (os ≫= touched) ∖ {[k]} : gset K) in *.
  destruct (run_refines (pre ++ OPut k v :: os ++ [OGet k]) (NewLRU (V := V) cap) []
    (Z.to_nat (Z.max 1 cap))) as (c' & Hrun & _);
    [apply repr_NewLRU|by rewrite NewLRU_capacity|].
  rewrite Hrun. clear Hrun. rewrite spec_run_app.
  destruct (spec_run _ pre []) as [x1 l1]. csimpl. rewrite spec_run_app.
  assert (held k v T (spec_put (Z.to_nat (Z.max 1 cap)) k v l1)) as Hh.
  { apply held_take; [set_solver|done|]. apply held_front. }
  apply (held_run k v T (Z.to_nat (Z.max 1 cap)) os) in Hh; [|set_solver|done|done|].
  2: { intros k' Hin. destruct (decide (k' = k)); set_solver. }
  destruct (spec_run _ os _) as [x2 l2]. csimpl in *. unfold spec_get.
  rewrite (held_lookup _ _ _ _ Hh). csimpl. exists (x1 ++ RUnit :: x2), c'.
  by rewrite <- app_assoc.
Qed.

Lemma lru_retention_witness :
  exists outs c', run ([OPut 7 70] ++ OPut 1 10 :: [OPut 2 20; OGet 7; OPut 2 21] ++ [OGet 1])
    (NewLRU 3) = Some (outs ++ [RGet (Some 10)], c').
Proof. apply (lru_retention 3 [OPut 7 70] 1 10 [OPut 2 20; OGet 7; OPut 2 21]); vm_compute; [lia|done]. Defined.

End Lru.

(** ** [cache.SizedLRU], the byte-bounded cache of payloads *)
Module SizedLru.
Import Dll Indexed Recency.

Section sized.
Context {K : Type} `{Countable K}.

Record SizedLRU := MkSized {
  maxBytes : Z; curBytes : Z; sitems : gmap K positive; sdl : dll K bytes }.

Definition NewSizedLRU (max : Z) : SizedLRU :=
  MkSized (if (max <? 1)%Z then 1%Z else max) 0 ∅ Dll.empty.



Definition removeTail (c : SizedLRU) : option SizedLRU :=
  match tail (sdl c) with
  | None => Some c
  | Some entry =>
      d ← unlink entry (sdl c);
      n ← heap d !! entry;
      Some (MkSized (maxBytes c) (curBytes c - blen (value n)) (delete (key n) (sitems c)) d)
  end.

(** [for c.curBytes > c.maxBytes && c.tail != nil { c.removeTail() }]; the
    fuel is the number of entries, see [evictToFit_ok]. *)
Fixpoint evictLoop (fuel : nat) (c : SizedLRU) : option SizedLRU :=
  match fuel with
  | 0 => Some c
  | S f =>
      if (maxBytes c <? curBytes c)%Z && bool_decide (is_Some (tail (sdl c)))
      then c' ← removeTail c; evictLoop f c'
      else Some c
  end.

Definition evictToFit (c : SizedLRU) : option SizedLRU := evictLoop (size (sitems c)) c.

Definition Get (k : K) (c : SizedLRU) : option (option bytes * SizedLRU) :=
  match sitems c !! k with
  | None => Some (None, c)
  | Some entry =>
      d ← moveToFront entry (sdl c);
      n ← heap d !! entry;
      Some (Some (value n), MkSized (maxBytes c) (curBytes c) (sitems c) d)
  end.

Definition Remove (k : K) (c : SizedLRU) : option SizedLRU :=
  match sitems c !! k with
  | None => Some c
  | Some entry =>
      d ← unlink entry (sdl c);
      n ← heap d !! entry;
      Some (MkSized (maxBytes c) (curBytes c - blen (value n)) (delete k (sitems c)) d)
  end.

Definition Put (k : K) (v : bytes) (c : SizedLRU) : option SizedLRU :=
  if (maxBytes c <? blen v)%Z then
    match sitems c !! k with
    | Some entry =>
        d ← unlink entry (sdl c);
        n ← heap d !! entry;
        Some (MkSized (maxBytes c) (curBytes c - blen (value n)) (delete k (sitems c)) d)
    | None => Some c
    end
  else match sitems c !! k with
  | Some entry =>
      n ← heap (sdl c) !! entry;
      let cur := (curBytes c + (blen v - blen (value n)))%Z in
      d ← upd entry (set_value v) (sdl c);
      d' ← moveToFront entry d;
      evictToFit (MkSized (maxBytes c) cur (sitems c) d')
  | None =>
      let '(entry, d0) := alloc k v (sdl c) in
      d ← pushFront entry d0;
      evictToFit (MkSized (maxBytes c) (curBytes c + blen v) (<[k := entry]> (sitems c)) d)
  end.

Definition Bytes (c : SizedLRU) : Z := curBytes c.

(** *** Abstract specification *)
Implicit Types (l : list (K * bytes)).

Definition total l : Z := foldr (fun p z => blen p.2 + z)%Z 0%Z l.

(** The longest prefix that fits a byte budget. *)
Fixpoint fit (budget : Z) l : list (K * bytes) :=
  match l with
  | [] => []
  | (k, v) :: r => if (blen v <=? budget)%Z then (k, v) :: fit (budget - blen v) r else []
  end.

Definition spec_put (max : Z) (k : K) (v : bytes) l : list (K * bytes) :=
  if (max <? blen v)%Z then aremove k l else fit max ((k, v) :: aremove k l).

Inductive op := OGet (k : K) | OPut (k : K) (v : bytes) | ORemove (k : K) | OBytes.
Inductive out := RGet (r : option bytes) | RUnit | RBytes (n : Z).

Definition step (o : op) (c : SizedLRU) : option (out * SizedLRU) :=
  match o with
  | OGet k => '(r, c') ← Get k c; Some (RGet r, c')
  | OPut k v => c' ← Put k v c; Some (RUnit, c')
  | ORemove k => c' ← Remove k c; Some (RUnit, c')
  | OBytes => Some (RBytes (Bytes c), c)
  end.

Definition spec_step (max : Z) (o : op) l : out * list (K * bytes) :=
  match o with
  | OGet k => let '(r, l') := Lru.spec_get k l in (RGet r, l')
  | OPut k v => (RUnit, spec_put max k v l)
  | ORemove k => (RUnit, aremove k l)
  | OBytes => (RBytes (total l), l)
  end.

Fixpoint run (os : list op) (c : SizedLRU) : option (list out * SizedLRU) :=
  match os with
  | [] => Some ([], c)
  | o :: r => '(x, c1) ← step o c; '(xs, c2) ← run r c1; Some (x :: xs, c2)
  end.

Fixpoint spec_run (max : Z) (os : list op) l : list out * list (K * bytes) :=
  match os with
  | [] => ([], l)
  | o :: r => let '(x, l1) := spec_step max o l in
              let '(xs, l2) := spec_run max r l1 in (x :: xs, l2)
  end.

(** *** The eviction loop computes the longest fitting prefix *)



Lemma total_nonneg l : (0 <= total l)%Z.
Proof. induction l as [|[k v] l IH]; csimpl; [lia|]. pose proof (blen_nonneg v). lia. Qed.

Lemma total_app l1 l2 : total (l1 ++ l2) = (total l1 + total l2)%Z.
Proof. induction l1; csimpl; [done|]. lia. Qed.

Lemma fit_all max l : (total l <= max)%Z -> fit max l = l.
Proof.
  revert max. induction l as [|[k v] l IH]; intros max; csimpl; [done|]. intros Hle.
  pose proof (total_nonneg l). destruct (Z.leb_spec (blen v) max); [|lia].
  rewrite IH by lia. done.
Qed.

Lemma fit_snoc max l k v : (max < total (l ++ [(k, v)]))%Z -> fit max (l ++ [(k, v)]) = fit max l.
Proof.
  revert max. induction l as [|[k' v'] l IH]; intros max; csimpl; intros Hlt.
  - destruct (Z.leb_spec (blen v) max); [lia|done].
  - destruct (Z.leb_spec (blen v') max); [|done]. rewrite IH by lia. done.
Qed.

Lemma fit_total max l : (0 <= max)%Z -> (total (fit max l) <= max)%Z.
Proof.
  revert max. induction l as [|[k v] l IH]; intros max Hm; csimpl; [lia|].
  destruct (Z.leb_spec (blen v) max); csimpl; [|lia]. specialize (IH (max - blen v)%Z). lia.
Qed.

Lemma fit_sublist max l : fit max l `sublist_of` l.
Proof.
  revert max. induction l as [|[k v] l IH]; intros max; csimpl; [done|].
  case_match; [by apply sublist_skip|]. apply sublist_nil_l.
Qed.

(** *** Refinement *)

(** The list is indexed and the byte counter is the sum of the payloads. *)
Record sized_core (c : SizedLRU) (xs : list (positive * (K * bytes))) : Prop := {
  sz_index : index_ok (sitems c) (sdl c) xs;
  sz_cur : curBytes c = total xs.*2;
  sz_max : (0 <= maxBytes c)%Z }.

Definition repr (c : SizedLRU) l : Prop :=
  exists xs, sized_core c xs /\ xs.*2 = l /\ (total l <= maxBytes c)%Z.

Lemma sized_removeTail_ok c xs e k v :
  sized_core c (xs ++ [(e, (k, v))]) ->
  exists c', removeTail c = Some c' /\ sized_core c' xs /\ maxBytes c' = maxBytes c.
Proof.
  intros [Hix Hcur Hmax]. unfold removeTail.
  rewrite (ok_tail _ _ (ix_dll _ _ _ Hix)), fmap_app, last_or_app. csimpl.
  destruct (index_unlink _ _ _ _ _ _ _ Hix) as (d & -> & He & Hok). csimpl.
  rewrite He. csimpl. rewrite app_nil_r in Hok. eexists; split; [done|]. split; [|done].
  split; csimpl; [done| |done]. rewrite Hcur, fmap_app, total_app. csimpl. lia.
Qed.

Lemma evictLoop_ok fuel c xs :
  length xs <= fuel -> sized_core c xs ->
  exists c', evictLoop fuel c = Some c' /\ maxBytes c' = maxBytes c /\
    repr c' (fit (maxBytes c) xs.*2).
Proof.
  revert c xs. induction fuel as [|f IH]; intros c xs Hf Hc.
  - destruct xs; [|csimpl in *; lia]. exists c. split; [done|]. split; [done|].
    exists []. split; [done|]. split; [done|]. csimpl. apply (sz_max _ _ Hc).
  - csimpl. destruct (Z.ltb_spec (maxBytes c) (curBytes c)) as [Hlt|Hge]; csimpl.
    + rewrite (sz_cur _ _ Hc) in Hlt.
      destruct xs as [|[e [k v]] xs' _] using rev_ind.
      { pose proof (sz_max _ _ Hc). csimpl in *. lia. }
      rewrite bool_decide_true.
      2: { rewrite (ok_tail _ _ (ix_dll _ _ _ (sz_index _ _ Hc))), fmap_app, last_or_app. eauto. }
      destruct (sized_removeTail_ok _ _ _ _ _ Hc) as (c1 & -> & Hc1 & Hm). csimpl.
      rewrite length_app in Hf. csimpl in Hf.
      destruct (IH c1 xs') as (c' & -> & Hm' & Hr); [lia|done|].
      exists c'. split; [done|]. split; [congruence|].
      rewrite fmap_app in *. csimpl in *. rewrite fit_snoc by done. by rewrite <- Hm.
    + exists c. split; [done|]. split; [done|]. rewrite (sz_cur _ _ Hc) in Hge.
      rewrite fit_all by done. by exists xs.
Qed.

Lemma evictToFit_ok c xs :
  sized_core c xs ->
  exists c', evictToFit c = Some c' /\ maxBytes c' = maxBytes c /\
    repr c' (fit (maxBytes c) xs.*2).
Proof.
  intros Hc. apply evictLoop_ok; [|done]. by rewrite (index_size _ _ _ (sz_index _ _ Hc)).
Qed.

Lemma sized_present c xs k e :
  sized_core c xs -> sitems c !! k = Some e ->
  exists a v b, xs = a ++ (e, (k, v)) :: b /\ alookup k xs.*2 = Some v /\
    aremove k xs.*2 = a.*2 ++ b.*2 /\ total xs.*2 = (blen v + total (a.*2 ++ b.*2))%Z /\
    exists p q, heap (sdl c) !! e = Some (Node k v p q).
Proof.
  intros [Hix _ _] Hk. destruct (index_Some _ _ _ _ _ Hix Hk) as (a & v & b & ->).
  pose proof (ix_keys _ _ _ Hix) as Hn. rewrite fmap_app in Hn. csimpl in Hn.
  exists a, v, b. apply nodup_middle in Hn as [Ha Hb'].
  split; [done|]. rewrite fmap_app. csimpl.
  rewrite alookup_app_middle, aremove_app_middle by done. split; [done|]. split; [done|].
  split; [rewrite !total_app; csimpl; lia|].
  eapply dlseg_lookup; [apply (ok_seg _ _ (ix_dll _ _ _ Hix))|]. set_solver.
Qed.

Lemma sized_absent c xs k :
  sized_core c xs -> sitems c !! k = None ->
  alookup k xs.*2 = None /\ aremove k xs.*2 = xs.*2.
Proof.
  intros [Hix _ _] Hk. pose proof (index_None _ _ _ _ Hix Hk).
  rewrite alookup_None, aremove_notin; done.
Qed.

(** Removing a present key, in [Remove] and in [Put] of an oversized value. *)
Lemma unlink_repr c a e k v b :
  sized_core c (a ++ (e, (k, v)) :: b) -> (total (a ++ (e, (k, v)) :: b).*2 <= maxBytes c)%Z ->
  exists d n, unlink e (sdl c) = Some d /\ heap d !! e = Some n /\
    repr (MkSized (maxBytes c) (curBytes c - blen (value n)) (delete k (sitems c)) d)
      (a.*2 ++ b.*2).
Proof.
  intros [Hix Hcur Hmax] Hle. rewrite fmap_app, total_app in *. csimpl in *.
  destruct (index_unlink _ _ _ _ _ _ _ Hix) as (d & Hu & He & Hok).
  exists d, (Node k v None None). split; [done|]. split; [done|].
  pose proof (blen_nonneg v). exists (a ++ b). csimpl. rewrite total_app.
  split; [|split; [by rewrite fmap_app|lia]].
  split; csimpl; [done| |done]. rewrite fmap_app, total_app. lia.
Qed.

Lemma Put_refines c l k v :
  repr c l -> exists c', Put k v c = Some c' /\ repr c' (spec_put (maxBytes c) k v l) /\
    maxBytes c' = maxBytes c.
Proof.
  intros (xs & Hc & <- & Hle). pose proof Hc as [Hix Hcur Hmax].
  unfold Put, spec_put. destruct (Z.ltb_spec (maxBytes c) (blen v)) as [Hbig|Hfit];
    destruct (sitems c !! k) as [e|] eqn:Hk.
  - destruct (sized_present _ _ _ _ Hc Hk) as (a & v0 & b & -> & _ & -> & _).
    destruct (unlink_repr _ _ _ _ _ _ Hc Hle) as (d & n & -> & He & Hr). csimpl.
    rewrite He. csimpl. eauto.
  - destruct (sized_absent _ _ _ Hc Hk) as [_ ->]. exists c. split; [done|].
    split; [|done]. by exists xs.
  - destruct (sized_present _ _ _ _ Hc Hk) as (a & v0 & b & -> & _ & -> & Ht & p & q & He).
    rewrite He. csimpl.
    destruct (index_set_value _ _ _ _ _ _ v _ Hix) as (d & -> & Hix'). csimpl.
    destruct (index_move _ _ _ _ _ _ _ Hix') as (d' & p' & q' & -> & Hd & _). csimpl.
    destruct (evictToFit_ok (MkSized (maxBytes c) (curBytes c + (blen v - blen v0)) (sitems c) d')
      ((e, (k, v)) :: a ++ b)) as (c' & -> & Hm & Hr).
    { split; csimpl; [done| |done]. rewrite fmap_app. lia. }
    csimpl in *. rewrite fmap_app in Hr. eauto.
  - destruct (sized_absent _ _ _ Hc Hk) as [_ ->].
    destruct (index_insert _ _ _ _ v Hix Hk) as (d & Hd & Hix').
    destruct (alloc k v (sdl c)) as [e d0]. csimpl in *. rewrite Hd. csimpl.
    destruct (evictToFit_ok (MkSized (maxBytes c) (curBytes c + blen v) (<[k:=e]> (sitems c)) d)
      ((e, (k, v)) :: xs)) as (c' & -> & Hm & Hr); [|csimpl in *; eauto].
    split; csimpl; [done| |done]. lia.
Qed.

Lemma sized_step_refines c l o :
  repr c l ->
  exists c', step o c = Some ((spec_step (maxBytes c) o l).1, c') /\
    repr c' (spec_step (maxBytes c) o l).2 /\ maxBytes c' = maxBytes c.
Proof.
  intros Hr. pose proof Hr as (xs & Hc & <- & Hle). pose proof Hc as [Hix Hcur Hmax].
  destruct o as [k|k v|k|]; csimpl.
  - unfold Get, Lru.spec_get. destruct (sitems c !! k) as [e|] eqn:Hk.
    + destruct (sized_present _ _ _ _ Hc Hk) as (a & v & b & -> & -> & -> & Ht & _).
      destruct (index_move _ _ _ _ _ _ _ Hix) as (d & p & q & -> & Hd & He). csimpl.
      rewrite He. csimpl. eexists; split; [done|]. split; [|done].
      exists ((e, (k, v)) :: a ++ b). csimpl. rewrite fmap_app.
      split; [split; csimpl; [done| |done]; rewrite fmap_app; lia|]. split; [done|lia].
    + destruct (sized_absent _ _ _ Hc Hk) as [-> _]. csimpl. eauto.
  - destruct (Put_refines _ _ k v Hr) as (c' & -> & ? & ?). csimpl. eauto.
  - unfold Remove. destruct (sitems c !! k) as [e|] eqn:Hk.
    + destruct (sized_present _ _ _ _ Hc Hk) as (a & v0 & b & -> & _ & -> & _).
      destruct (unlink_repr _ _ _ _ _ _ Hc Hle) as (d & n & -> & He & Hr'). csimpl.
      rewrite He. csimpl. eauto.
    + destruct (sized_absent _ _ _ Hc Hk) as [_ ->]. csimpl. eauto.
  - unfold Bytes. rewrite Hcur. eauto.
Qed.

Lemma repr_new max : repr (NewSizedLRU max) [].
Proof.
  exists []. unfold NewSizedLRU. split; [split; csimpl; [apply index_empty|done|]|split; [done|csimpl]];
  destruct (Z.ltb_spec max 1); lia.
Qed.

Lemma sized_run_refines os c l :
  repr c l ->
  exists c', run os c = Some ((spec_run (maxBytes c) os l).1, c') /\
    repr c' (spec_run (maxBytes c) os l).2 /\ maxBytes c' = maxBytes c.
Proof.
  revert c l. induction os as [|o os IH]; intros c l Hr; csimpl; [eauto|].
  destruct (sized_step_refines c l o Hr) as (c1 & -> & Hr1 & Hm). csimpl.
  destruct (spec_step (maxBytes c) o l) as [x l1]. csimpl in *.
  destruct (IH c1 l1 Hr1) as (c2 & -> & Hr2 & Hm2). rewrite Hm in *. csimpl.
  destruct (spec_run (maxBytes c) os l1) as [xs l2]. eauto.
Qed.

End sized.

Arguments op : clear implicits.
Arguments SizedLRU _ {_ _}.

(** The entry of a key, without touching the recency order. *)
Definition peek {K} `{Countable K} (k : K) (c : SizedLRU K) : option bytes :=
  e ← sitems c !! k; n ← heap (sdl c) !! e; Some (value n).

(** What a user of a byte cache relies on: operations never fail, a hit returns
    what is stored for the key, and nothing appears but what was put. *)
Class ByteCache {K C : Type} (get : K -> C -> option (option bytes * C)) (put : K -> bytes -> C -> option C)
    (content : K -> C -> option bytes) (ok : C -> Prop) : Prop := {
  bc_get : forall k c, ok c -> exists c', get k c = Some (content k c, c') /\ ok c' /\
    forall k' v, content k' c' = Some v -> content k' c = Some v;
  bc_put : forall k v c, ok c -> exists c', put k v c = Some c' /\ ok c' /\
    forall k' v', content k' c' = Some v' -> content k' c = Some v' \/ (k' = k /\ v' = v) }.

Definition cache_repr {K} `{Countable K} (c : SizedLRU K) : Prop := exists l, repr c l.

Lemma peek_alookup {K} `{Countable K} (c : SizedLRU K) l k : repr c l -> peek k c = alookup k l.
Proof.
  intros (xs & Hc & <- & _). unfold peek. destruct (sitems c !! k) as [e|] eqn:Hk.
  - destruct (sized_present _ _ _ _ Hc Hk) as (a & v & b & _ & Ha & _ & _ & p & q & Hh).
    csimpl. by rewrite Hh, Ha.
  - by destruct (sized_absent _ _ _ Hc Hk) as [-> _].
Qed.

Lemma fit_lookup {K} `{Countable K} budget (l : list (K * bytes)) k v :
  alookup k (fit budget l) = Some v -> alookup k l = Some v.
Proof.
  revert budget. induction l as [|[k' v'] l IH]; intros budget; csimpl; [done|].
  destruct (blen v' <=? budget)%Z; csimpl; [|done]. case_decide; [done|apply IH].
Qed.

#[export] Instance sized_byteCache {K} `{Countable K} :
  ByteCache (K := K) Get Put peek cache_repr.
Proof.
  split.
  - intros k c [l Hr]. destruct (sized_step_refines c l (OGet k) Hr) as (c' & Hs & Hr' & _).
    csimpl in Hs. destruct (Get k c) as [[r c1]|] eqn:Hg; csimpl in Hs; [|done].
    rewrite (peek_alookup c l) by done. unfold Lru.spec_get in Hs, Hr'. csimpl in Hr'.
    unfold Lru.spec_get in Hr'.
    destruct (alookup k l) as [v|] eqn:Hk; csimpl in *; simplify_eq; exists c'; split; try done;
      (split; [by eexists|]); intros k' v'; rewrite (peek_alookup c' _ k' Hr'), (peek_alookup c l) by done;
      csimpl; [|done].
    case_decide; [by intros [= <-]; subst|]. rewrite aremove_lookup. by case_decide.
  - intros k v c [l Hr]. destruct (Put_refines c l k v Hr) as (c' & Hp & Hr' & _).
    exists c'. split; [done|]. split; [by eexists|]. intros k' v'.
    rewrite (peek_alookup c' _ k' Hr'), (peek_alookup c l) by done. unfold spec_put.
    destruct (maxBytes c <? blen v)%Z.
    + rewrite aremove_lookup. case_decide; [done|auto].
    + intros Hf%fit_lookup. csimpl in Hf. case_decide; [right; by simplify_eq|].
      rewrite aremove_lookup in Hf. case_decide; [done|auto].
Qed.

(** The byte-bounded cache refines its specification: from
    [NewSizedLRU max], any sequence of Get/Put/Remove/Bytes runs without a nil
    dereference and answers as the recency list that keeps the longest prefix
    fitting the budget (an oversized value only drops its key); the byte
    counter equals the payload sum and never exceeds [max 1 max]. *)
Theorem sized_refines {K} `{Countable K} (max : Z) (os : list (op K)) :
  let spec := spec_run (Z.max 1 max) os [] in
  exists c', run os (NewSizedLRU max) = Some (spec.1, c') /\ repr c' spec.2 /\
    Bytes c' = total spec.2 /\ (Bytes c' <= Z.max 1 max)%Z.
Proof.
  cbv zeta. destruct (sized_run_refines os (NewSizedLRU max) []) as (c' & Hrun & Hr & Hm);
    [apply repr_new|].
  assert (maxBytes (NewSizedLRU (K := K) max) = Z.max 1 max) as Hmax.
  { unfold NewSizedLRU. csimpl. destruct (Z.ltb_spec max 1); lia. }
  rewrite Hmax in *. exists c'. split; [done|]. split; [done|].
  destruct Hr as (xs & [_ Hcur _] & Hxs & Hle). unfold Bytes. rewrite Hcur, Hxs.
  split; [done|lia].
Qed.

End SizedLru.

(** ** [scheduler.lruCache], a bounded set of strings *)
Module LruCache.
Import Dll Indexed Recency Lru.

Abbreviation lruCache := (LRU string unit).

(** Unlike [NewLRU], the capacity is taken as given. *)
Definition newLRUCache (cap : Z) : lruCache := MkLRU cap ∅ Dll.empty.

Definition Contains (k : string) (c : lruCache) : option (bool * lruCache) :=
  match items c !! k with
  | None => Some (false, c)
  | Some entry =>
      d ← moveToFront entry (dl c);
      Some (true, MkLRU (capacity c) (items c) d)
  end.

Definition Add (k : string) (c : lruCache) : option lruCache := Lru.Add k tt c.
Definition Remove (k : string) (c : lruCache) : option lruCache := Lru.Remove k c.
Definition Len (c : lruCache) : nat := Lru.Len c.

Inductive op := OContains (k : string) | OAdd (k : string) | ORemove (k : string).

(** One operation; the bool is the answer of [Contains] ([true] otherwise). *)
Definition step (o : op) (c : lruCache) : option (bool * lruCache) :=
  match o with
  | OContains k => Contains k c
  | OAdd k => c' ← Add k c; Some (true, c')
  | ORemove k => c' ← Remove k c; Some (true, c')
  end.

Fixpoint run (os : list op) (c : lruCache) : option lruCache :=
  match os with
  | [] => Some c
  | o :: r => '(_, c1) ← step o c; run r c1
  end.

(** The unbounded set the cache approximates. *)
Definition ideal_step (o : op) (s : gset string) : gset string :=
  match o with
  | OContains _ => s
  | OAdd k => {[k]} ∪ s
  | ORemove k => s ∖ {[k]}
  end.

Definition ideal (os : list op) : gset string := foldl (fun s o => ideal_step o s) ∅ os.

(** The cache is well formed and holds only members of [s]. *)
Definition approximates (c : lruCache) (s : gset string) : Prop :=
  exists l, repr c l /\ (forall k, k ∈ l.*1 -> k ∈ s).

Lemma Contains_Get k c :
  Contains k c = ('(r, c') ← Lru.Get k c; Some (bool_decide (is_Some r), c')) \/
  exists e d, items c !! k = Some e /\ moveToFront e (dl c) = Some d /\ heap d !! e = None.
Proof.
  unfold Contains, Lru.Get. destruct (items c !! k) as [e|]; [|by left].
  destruct (moveToFront e (dl c)) as [d|] eqn:Hd; csimpl; [|by left].
  destruct (heap d !! e) eqn:He; csimpl; [by left|right; eauto 10].
Qed.

(** [Contains] is [Get] without the value. *)
Lemma Contains_ok k c l :
  repr c l ->
  exists c', Contains k c = Some (bool_decide (k ∈ l.*1), c') /\
    repr c' (Lru.spec_get k l).2 /\ capacity c' = capacity c.
Proof.
  intros Hr. destruct (step_refines c l _ (OGet k) Hr eq_refl) as (c' & Hs & Hr' & Hc').
  csimpl in *. destruct (Contains_Get k c) as [->|(e & d & Hk & Hm & Hn)].
  - destruct (Lru.Get k c) as [[r c1]|]; csimpl in *; [|done]. unfold spec_get in *.
    destruct (alookup k l) as [v|] eqn:Ha; csimpl in *; simplify_eq/=.
    + exists c'. split; [|done]. rewrite (bool_decide_true (k ∈ _)); [done|].
      apply alookup_Some_elem in Ha. apply list_elem_of_fmap. by exists (k, v).
    + exists c'. split; [|done]. rewrite (bool_decide_false (k ∈ _)); [done|].
      by apply alookup_None_inv.
  - exfalso. unfold Lru.Get in Hs. rewrite Hk in Hs. csimpl in Hs.
    rewrite Hm in Hs. csimpl in Hs. by rewrite Hn in Hs.
Qed.

Lemma step_ok o c s :
  approximates c s -> exists b c', step o c = Some (b, c') /\
    capacity c' = capacity c /\ approximates c' (ideal_step o s).
Proof.
  intros (l & Hr & Hs). destruct o as [k|k|k]; csimpl.
  - destruct (Contains_ok k c l Hr) as (c' & -> & Hr' & Hc').
    do 2 eexists. split; [done|]. split; [done|]. eexists; split; [done|].
    intros k'. unfold spec_get. destruct (alookup k l) as [u|] eqn:Ha; csimpl; [|by auto].
    rewrite elem_of_cons. intros [->|[? _]%aremove_elem]; [|auto].
    apply Hs. apply alookup_Some_elem in Ha. apply list_elem_of_fmap. by exists (k, u).
  - destruct (step_refines c l _ (Lru.OAdd k tt) Hr eq_refl) as (c' & Hst & Hr' & Hc').
    csimpl in *. unfold Add. destruct (Lru.Add k tt c); csimpl in *; simplify_eq/=.
    do 2 eexists. split; [done|]. split; [done|]. eexists; split; [done|].
    intros k'. unfold spec_add. destruct (alookup k l) eqn:Ha; csimpl.
    + rewrite elem_of_cons. intros [->|[? _]%aremove_elem]; set_solver.
    + rewrite fmap_take. intros Hin%elem_of_take_sub. csimpl in *. set_solver.
  - destruct (step_refines c l _ (Lru.ORemove k) Hr eq_refl) as (c' & Hst & Hr' & Hc').
    csimpl in *. unfold Remove. destruct (Lru.Remove k c); csimpl in *; simplify_eq/=.
    do 2 eexists. split; [done|]. split; [done|]. eexists; split; [done|].
    intros k' [? ?]%aremove_elem. set_solver.
Qed.

Lemma run_ok os c s :
  approximates c s -> exists c', run os c = Some c' /\ capacity c' = capacity c /\
    approximates c' (foldl (fun s o => ideal_step o s) s os).
Proof.
  revert c s. induction os as [|o os IH]; intros c s Hc; csimpl; [eauto|].
  destruct (step_ok o c s Hc) as (b & c1 & -> & Hc1 & Ha). csimpl.
  destruct (IH c1 _ Ha) as (c' & ? & ? & ?). exists c'. split; [done|]. split; [congruence|done].
Qed.

(** The scheduler's "fully annotated" cache is sound and bounded: after any
    sequence of Contains/Add/Remove it has not panicked, holds at most
    [max 0 cap] strings, and a positive [Contains k] answer means [k] was
    added and not removed since. *)
Theorem lruCache_sound (cap : Z) (os : list op) (k : string) :
  exists c b c', run os (newLRUCache cap) = Some c /\ Len c <= Z.to_nat cap /\
    Contains k c = Some (b, c') /\ (b = true -> k ∈ ideal os).
Proof.
  destruct (run_ok os (newLRUCache cap) ∅) as (c & Hrun & Hc & l & Hr & Hs).
  { exists []. split; [apply repr_empty|]. by intros k' ?%elem_of_nil. }
  destruct (Contains_ok k c l Hr) as (c' & HC & _).
  exists c, (bool_decide (k ∈ l.*1)), c'. split; [done|]. split.
  - destruct Hr as (xs & [Hix Hb] & _). unfold Len, Lru.Len.
    rewrite (index_size _ _ _ Hix). csimpl in Hc. by rewrite Hc in Hb.
  - split; [done|]. rewrite bool_decide_eq_true. apply Hs.
Qed.

End LruCache.
