(* ===== verification/Chunker.v ===== *)
(** * Content-defined chunking: [filestore/chunkstore.go]

    FastCDC with a 64-bit gear hash: [buildGearTable], [nextChunkCut],
    [chunkContent] (whole content in memory) and [streamChunks] (content read
    from an [io.Reader], bounded buffer).  64-bit words are [Z] modulo [2^64];
    loops carry fuel, and the theorems show that the fuel given suffices. *)

From Stdlib Require Import Wf_nat.
From stdpp Require Import options.
From S2P Require Import Prelude.

Local Open Scope Z_scope.

Definition chunkMinSize : Z := 2 * 1024.
Definition chunkAvgSize : Z := 8 * 1024.
Definition chunkMaxSize : Z := 64 * 1024.

(** [maskS] and [maskL], declared in both [chunkContent] and [streamChunks]. *)
Definition maskS : Z := 0x0003590703530000.
Definition maskL : Z := 0x0000d90003530000.

(** ** The gear table *)

(** One splitmix64 output. *)
Definition gearMix (state : Z) : Z :=
  let z := state in
  let z := wrap64 (Z.lxor z (Z.shiftr z 30) * 0xbf58476d1ce4e5b9) in
  let z := wrap64 (Z.lxor z (Z.shiftr z 27) * 0x94d049bb133111eb) in
  Z.lxor z (Z.shiftr z 31).

Fixpoint gearLoop (n : nat) (state : Z) : list Z :=
  match n with
  | O => []
  | S n' => let state' := wrap64 (state + 0x9e3779b97f4a7c15) in gearMix state' :: gearLoop n' state'
  end.

Definition buildGearTable : list Z := gearLoop 256 0x9e3779b97f4a7c15.

Definition gearTable : list Z := buildGearTable.

(** [gearTable[b]]: a byte always indexes a 256-entry array. *)
Definition gear (b : Byte.byte) : Z := nth (N.to_nat (Byte.to_N b)) gearTable 0.

(** ** Cut points *)

(** [for ; i < stop; i++ { hash = ...; if hash&mask == 0 { return i } }] run
    for [cnt] iterations on the bytes from index [i] on: the cut, or the hash
    and the remaining bytes for the next loop. *)
Fixpoint scanLoop (mask : Z) (cnt : nat) (data : bytes) (i hash : Z) : Z + (Z * bytes) :=
  match cnt, data with
  | O, _ => inr (hash, data)
  | S c, b :: rest =>
      let hash' := wrap64 (Z.shiftl hash 1 + gear b) in
      if Z.land hash' mask =? 0 then inl i else scanLoop mask c rest (i + 1) hash'
  | S _, [] => inr (hash, [])
  end.

Definition nextChunkCut (data : bytes) (mS mL : Z) : Z :=
  let n := blen data in
  if n <=? chunkMinSize then n
  else
    let n := Z.min n chunkMaxSize in
    let normal := Z.min chunkAvgSize n in
    match scanLoop mS (Z.to_nat (normal - chunkMinSize)) (zdrop chunkMinSize data) chunkMinSize 0 with
    | inl i => i
    | inr (hash, rest) =>
        match scanLoop mL (Z.to_nat (n - Z.max chunkMinSize normal)) rest (Z.max chunkMinSize normal) hash with
        | inl i => i
        | inr _ => n
        end
    end.

(** [for len(data) > 0]; [None] is "out of fuel". *)
Fixpoint chunkLoop (fuel : nat) (data : bytes) : option (list bytes) :=
  match data with
  | [] => Some []
  | _ =>
      match fuel with
      | O => None
      | S f =>
          let cut := nextChunkCut data maskS maskL in
          rest ← chunkLoop f (zdrop cut data);
          Some (ztake cut data :: rest)
      end
  end.

Definition chunkContent (data : bytes) : option (list bytes) := chunkLoop (length data) data.

(** ** Streaming *)

(** What one [Read] call returns: the bytes and the error. *)
Inductive readErr := NoErr | EOF | ReadErr (e : GoError).

(** An [io.Reader]: the results of its future calls; past the script it keeps
    answering [(0, io.EOF)].  [seen] is what an enclosing [io.TeeReader] has
    passed to its writers so far. *)
Record Reader := MkReader { script : list (bytes * readErr); seen : bytes }.

Definition Read (r : Reader) : bytes * readErr * Reader :=
  match script r with
  | [] => ([], EOF, r)
  | (b, e) :: rest => (b, e, MkReader rest (seen r ++ b))
  end.

(** The inner loop: fill the buffer up to [chunkMaxSize] or end of input. *)
Fixpoint fillLoop (fuel : nat) (buffer : bytes) (atEOF : bool) (r : Reader)
    : option (bytes * bool * Reader * option GoError) :=
  if (blen buffer <? chunkMaxSize) && negb atEOF then
    match fuel with
    | O => None
    | S f =>
        match Read r with
        | (b, e, r') =>
            let buffer' := buffer ++ b in
            match e with
            | EOF => fillLoop f buffer' true r'
            | ReadErr err => Some (buffer', atEOF, r', Some err)
            | NoErr => fillLoop f buffer' atEOF r'
            end
        end
    end
  else Some (buffer, atEOF, r, None).

Section stream.
Context {S : Type}.

(** The callback: it may fail, and acts on a state. *)
Variable fn : bytes -> S -> option GoError * S.

(** [streamChunks]: total length, error, and the callback's final state. *)
Fixpoint streamLoop (fuel : nat) (buffer : bytes) (atEOF : bool) (total : Z) (r : Reader) (s : S)
    : option (Z * option GoError * Reader * S) :=
  match fuel with
  | O => None
  | Datatypes.S f =>
      '(buffer, atEOF, r, err) ← fillLoop (Datatypes.S (length (script r))) buffer atEOF r;
      match err with
      | Some e => Some (total, Some e, r, s)
      | None =>
          match buffer with
          | [] => Some (total, None, r, s)
          | _ =>
              let cut := nextChunkCut buffer maskS maskL in
              match fn (ztake cut buffer) s with
              | (Some e, s') => Some (total, Some e, r, s')
              | (None, s') => streamLoop f (zdrop cut buffer) atEOF (total + cut) r s'
              end
          end
      end
  end.

(** Fuel: one round per byte that can still arrive, and a last one. *)
Definition streamFuel (r : Reader) : nat :=
  Datatypes.S (length (concat (script r).*1)).

Definition streamChunks (r : Reader) (s : S) : option (Z * option GoError * Reader * S) :=
  streamLoop (streamFuel r) [] false 0 r s.

(** Reference: apply the callback to each chunk in turn, stop at an error. *)
Fixpoint eachChunk (total : Z) (cs : list bytes) (s : S) : Z * option GoError * S :=
  match cs with
  | [] => (total, None, s)
  | c :: rest =>
      match fn c s with
      | (Some e, s') => (total, Some e, s')
      | (None, s') => eachChunk (total + blen c) rest s'
      end
  end.
End stream.

(** The content a reader delivers: everything up to the first EOF or error. *)
Fixpoint delivered (rs : list (bytes * readErr)) : bytes :=
  match rs with
  | [] => []
  | (b, NoErr) :: rest => b ++ delivered rest
  | (b, _) :: _ => b
  end.

(** The first error a reader reports before EOF, if any. *)
Fixpoint firstErr (rs : list (bytes * readErr)) : option GoError :=
  match rs with
  | [] => None
  | (_, NoErr) :: rest => firstErr rest
  | (_, EOF) :: _ => None
  | (_, ReadErr e) :: _ => Some e
  end.

(** ** Lemmas *)

Lemma scanLoop_inl mask cnt data i hash j :
  scanLoop mask cnt data i hash = inl j -> i <= j < i + Z.of_nat cnt /\ j < i + blen data.
Proof.
  revert data i hash. induction cnt as [|c IH]; intros [|b rest] i hash; csimpl; try done.
  case_match; intros Heq.
  - simplify_eq. unfold blen. csimpl. lia.
  - apply IH in Heq. unfold blen in *. csimpl. lia.
Qed.

(** The scan looks at no byte beyond the ones it counts. *)
Lemma scanLoop_app mask cnt a b i hash :
  (cnt <= length a)%nat ->
  scanLoop mask cnt (a ++ b) i hash =
  match scanLoop mask cnt a i hash with
  | inl j => inl j
  | inr (h, r) => inr (h, r ++ b)
  end.
Proof.
  revert a i hash. induction cnt as [|c IH]; intros a i hash Hl; csimpl.
  - by destruct a.
  - destruct a as [|x a]; csimpl in *; [lia|]. case_match; [done|]. apply IH. lia.
Qed.

Lemma scanLoop_inr_length mask cnt data i hash h r :
  scanLoop mask cnt data i hash = inr (h, r) -> length r = (length data - cnt)%nat.
Proof.
  revert data i hash. induction cnt as [|c IH]; intros [|b rest] i hash; csimpl;
    try (by intros; simplify_eq; csimpl; lia).
  case_match; [done|]. intros ->%IH. lia.
Qed.

Ltac unfold_sizes := unfold chunkMinSize, chunkAvgSize, chunkMaxSize in *.

Lemma nextChunkCut_bounds data mS mL :
  0 <= nextChunkCut data mS mL <= Z.min (blen data) chunkMaxSize /\
  (chunkMinSize < blen data -> chunkMinSize <= nextChunkCut data mS mL) /\
  (data <> [] -> 1 <= nextChunkCut data mS mL).
Proof.
  assert (data <> [] -> 1 <= blen data) as Hne
    by (destruct data; unfold blen; csimpl; [done|lia]).
  unfold nextChunkCut. pose proof (blen_nonneg data).
  destruct (Z.leb_spec (blen data) chunkMinSize) as [Hle|Hgt].
  - unfold_sizes. split; [lia|]. split; [lia|]. auto.
  - set (n := Z.min (blen data) chunkMaxSize). set (normal := Z.min chunkAvgSize n).
    assert (chunkMinSize < normal <= n) by (subst normal n; unfold_sizes; lia).
    destruct (scanLoop mS _ _ _ _) as [j|[h r]] eqn:E1.
    + apply scanLoop_inl in E1 as [E1 _]. rewrite Z2Nat.id in E1 by lia. unfold_sizes; lia.
    + destruct (scanLoop mL _ _ _ _) as [j|?] eqn:E2; [|unfold_sizes; lia].
      apply scanLoop_inl in E2 as [E2 _]. rewrite Z2Nat.id in E2 by lia. unfold_sizes; lia.
Qed.

(** The cut only depends on the first [chunkMaxSize] bytes. *)
Lemma nextChunkCut_prefix a b mS mL :
  chunkMaxSize <= blen a -> nextChunkCut (a ++ b) mS mL = nextChunkCut a mS mL.
Proof.
  intros Hl. unfold nextChunkCut. rewrite blen_app. pose proof (blen_nonneg b).
  destruct (Z.leb_spec (blen a + blen b) chunkMinSize); [unfold_sizes; lia|].
  destruct (Z.leb_spec (blen a) chunkMinSize); [unfold_sizes; lia|].
  rewrite (Z.min_r (blen a + blen b) chunkMaxSize), (Z.min_r (blen a) chunkMaxSize) by lia.
  cbv zeta.
  replace (zdrop chunkMinSize (a ++ b)) with (zdrop chunkMinSize a ++ b).
  2: { unfold zdrop. rewrite drop_app_le; [done|]. unfold blen in *. lia. }
  rewrite scanLoop_app by (rewrite length_zdrop; unfold blen in *; unfold_sizes; lia).
  destruct (scanLoop mS _ (zdrop chunkMinSize a) _ _) as [j|[h r]] eqn:E; [done|].
  apply scanLoop_inr_length in E. rewrite scanLoop_app.
  - by destruct (scanLoop mL _ r _ _) as [|[? ?]].
  - rewrite E, length_zdrop. unfold blen in *. unfold_sizes. lia.
Qed.

Lemma zdrop_shorter cut (data : bytes) :
  data <> [] -> 1 <= cut -> (length (zdrop cut data) < length data)%nat.
Proof. intros Hn Hc. rewrite length_zdrop. destruct data; csimpl in *; [done|lia]. Qed.

(** Enough fuel: the loop cuts at least one byte per round. *)
Lemma chunkLoop_total fuel data :
  (length data <= fuel)%nat -> exists cs, chunkLoop fuel data = Some cs.
Proof.
  revert data. induction fuel as [|f IH]; intros data Hl.
  - destruct data; [|csimpl in *; lia]. eauto.
  - destruct data as [|x data]; [by eexists|]. cbn [chunkLoop].
    destruct (nextChunkCut_bounds (x :: data) maskS maskL) as (_ & _ & Hpos).
    destruct (IH (zdrop (nextChunkCut (x :: data) maskS maskL) (x :: data))) as [cs ->].
    + enough (length (zdrop (nextChunkCut (x :: data) maskS maskL) (x :: data)) <
        length (x :: data))%nat by lia. apply zdrop_shorter; [done|]. by apply Hpos.
    + csimpl. eauto.
Qed.

(** More fuel does not change the result. *)
Lemma chunkLoop_mono f1 f2 data cs :
  (f1 <= f2)%nat -> chunkLoop f1 data = Some cs -> chunkLoop f2 data = Some cs.
Proof.
  revert f2 data cs. induction f1 as [|f1 IH]; intros f2 data cs Hle.
  - destruct data; [|done]. by destruct f2.
  - destruct data as [|x data]; [by destruct f2|]. destruct f2 as [|f2]; [lia|].
    cbn [chunkLoop]. set (cut := nextChunkCut (x :: data) maskS maskL).
    destruct (chunkLoop f1 (zdrop cut (x :: data))) as [r|] eqn:Hr; csimpl; [|done].
    intros [= <-]. rewrite (IH f2 _ r) by (done || lia). done.
Qed.

Lemma chunkLoop_S f data :
  data <> [] -> chunkLoop (S f) data =
    (rest ← chunkLoop f (zdrop (nextChunkCut data maskS maskL) data);
     Some (ztake (nextChunkCut data maskS maskL) data :: rest)).
Proof. by destruct data. Qed.

(** The unfolding equations of [chunkContent]. *)
Lemma chunkContent_nil : chunkContent [] = Some [].
Proof. done. Qed.

Lemma chunkContent_cons data :
  data <> [] ->
  let cut := nextChunkCut data maskS maskL in
  chunkContent data = (cs ← chunkContent (zdrop cut data); Some (ztake cut data :: cs)).
Proof.
  intros Hn. cbv zeta. set (cut := nextChunkCut data maskS maskL).
  destruct (nextChunkCut_bounds data maskS maskL) as (_ & _ & Hpos).
  pose proof (zdrop_shorter cut data Hn (Hpos Hn)) as Hs.
  destruct (chunkLoop_total (length (zdrop cut data)) (zdrop cut data)) as [cs Hcs]; [done|].
  unfold chunkContent. rewrite Hcs. replace (length data) with (S (length data - 1)) by lia.
  rewrite chunkLoop_S by done. fold cut. 
  rewrite (chunkLoop_mono (length (zdrop cut data)) (length data - 1) _ cs); [done|lia|done].
Qed.

(** Induction along the chunks of a content. *)
Lemma chunk_ind (P : bytes -> list bytes -> Prop) :
  P [] [] ->
  (forall data cs, data <> [] ->
     chunkContent (zdrop (nextChunkCut data maskS maskL) data) = Some cs ->
     P (zdrop (nextChunkCut data maskS maskL) data) cs ->
     P data (ztake (nextChunkCut data maskS maskL) data :: cs)) ->
  forall data, exists cs, chunkContent data = Some cs /\ P data cs.
Proof.
  intros Hnil Hcons data. induction data as [data IH] using (induction_ltof1 _ length).
  destruct (decide (data = [])) as [->|Hn]; [by eexists|].
  rewrite (chunkContent_cons data Hn).
  destruct (nextChunkCut_bounds data maskS maskL) as (_ & _ & Hpos).
  destruct (IH (zdrop (nextChunkCut data maskS maskL) data)) as (cs & Hcs & HP).
  - apply zdrop_shorter; auto.
  - rewrite Hcs. csimpl. eauto.
Qed.

(** ** The chunker is lossless and size-bounded *)

Lemma chunks_concat data : exists cs, chunkContent data = Some cs /\ concat cs = data.
Proof.
  apply (chunk_ind (fun data cs => concat cs = data)); [done|].
  intros d cs Hn _ Hc. csimpl. rewrite Hc. apply ztake_zdrop.
Qed.

(** Sizes of the chunks of one content: all within [1, chunkMaxSize], all but
    the last at least [chunkMinSize]. *)
Fixpoint chunk_sizes_ok (cs : list bytes) : bool :=
  match cs with
  | [] => true
  | [c] => (1 <=? blen c) && (blen c <=? chunkMaxSize)
  | c :: rest => (chunkMinSize <=? blen c) && (blen c <=? chunkMaxSize) && chunk_sizes_ok rest
  end.

Lemma chunks_sizes data : exists cs, chunkContent data = Some cs /\ chunk_sizes_ok cs = true.
Proof.
  apply (chunk_ind (fun _ cs => chunk_sizes_ok cs = true)); [done|].
  intros d cs Hn Hc IH. destruct (nextChunkCut_bounds d maskS maskL) as (Hb & Hmin & Hpos).
  specialize (Hpos Hn). set (cut := nextChunkCut d maskS maskL) in *.
  assert (blen (ztake cut d) = cut) as Hlen by (apply blen_ztake; lia).
  destruct cs as [|c cs].
  - csimpl. rewrite Hlen. apply andb_true_iff. split; apply Z.leb_le; lia.
  - cbn [chunk_sizes_ok]. cbn [chunk_sizes_ok] in IH. rewrite IH, Hlen.
    assert (zdrop cut d <> []) as Hr by (intros Hr; by rewrite Hr in Hc).
    assert (chunkMinSize < blen d).
    { destruct (Z.le_gt_cases (blen d) chunkMinSize) as [Hle|]; [|done]. exfalso. apply Hr.
      assert (cut = blen d) as Hcd.
      { unfold cut, nextChunkCut. destruct (Z.leb_spec (blen d) chunkMinSize); [done|lia]. }
      apply length_zero_iff_nil. rewrite length_zdrop, Hcd. unfold blen. lia. }
    rewrite andb_true_r. apply andb_true_iff. split; apply Z.leb_le; [auto|lia].
Qed.

(** C29: [chunkContent] terminates on every input (the fuel is enough), its
    chunks concatenate to the content, and every chunk has between 1 and 64 KiB,
    all but the last at least 2 KiB. *)
Theorem chunkContent_correct (data : bytes) :
  exists cs, chunkContent data = Some cs /\ concat cs = data /\ chunk_sizes_ok cs = true.
Proof.
  destruct (chunks_concat data) as (cs & Hcs & Hc).
  destruct (chunks_sizes data) as (cs' & Hcs' & Hs). simplify_eq. eauto.
Qed.

(** ** Streaming gives the same chunks as chunking in memory *)

(** What is still to come from a reader, and its first error. *)
Definition pending (atEOF : bool) (r : Reader) : bytes :=
  if atEOF then [] else delivered (script r).
Definition pendingErr (atEOF : bool) (r : Reader) : option GoError :=
  if atEOF then None else firstErr (script r).

Lemma fillLoop_eof fuel buffer r : fillLoop fuel buffer true r = Some (buffer, true, r, None).
Proof. destruct fuel; cbn [fillLoop negb]; by rewrite andb_false_r. Qed.

Lemma fillLoop_ok fuel buffer atEOF r :
  (length (script r) < fuel)%nat -> pendingErr atEOF r = None ->
  exists buffer' atEOF' r',
    fillLoop fuel buffer atEOF r = Some (buffer', atEOF', r', None) /\
    buffer' ++ pending atEOF' r' = buffer ++ pending atEOF r /\
    seen r' ++ pending atEOF' r' = seen r ++ pending atEOF r /\
    pendingErr atEOF' r' = None /\ (chunkMaxSize <= blen buffer' \/ atEOF' = true).
Proof.
  revert buffer atEOF r. induction fuel as [|f IH]; intros buffer atEOF r Hf He; [lia|].
  cbn [fillLoop]. destruct (Z.ltb_spec (blen buffer) chunkMaxSize) as [Hlt|Hge]; csimpl.
  2: { exists buffer, atEOF, r. eauto 10. }
  destruct atEOF; csimpl; [exists buffer, true, r; eauto 10|].
  destruct r as [rs sn]. unfold Read, pending, pendingErr in *. csimpl in *.
  destruct rs as [|[b e] rs]; csimpl in *.
  - rewrite fillLoop_eof, app_nil_r. do 3 eexists. split; [done|]. csimpl. rewrite ?app_nil_r. auto 10.
  - destruct e as [| |err]; [| |done].
    + destruct (IH (buffer ++ b) false (MkReader rs (sn ++ b))) as (b' & a' & r' & Hfl & H);
        [csimpl; lia|done|]. exists b', a', r'. split; [done|]. csimpl in *.
      by rewrite <- !app_assoc in H.
    + rewrite fillLoop_eof. do 3 eexists. split; [done|]. csimpl. rewrite !app_nil_r. auto 10.
Qed.

Section stream_lemmas.
Context {S : Type}.
Variable fn : bytes -> S -> option GoError * S.

(** The buffer holds enough of the content to cut it correctly. *)
Lemma buffer_cut buffer rest :
  chunkMaxSize <= blen buffer \/ rest = [] ->
  let cut := nextChunkCut buffer maskS maskL in
  nextChunkCut (buffer ++ rest) maskS maskL = cut /\
  ztake cut (buffer ++ rest) = ztake cut buffer /\
  zdrop cut (buffer ++ rest) = zdrop cut buffer ++ rest.
Proof.
  intros H. cbv zeta. destruct (nextChunkCut_bounds buffer maskS maskL) as (Hb & _).
  set (cut := nextChunkCut buffer maskS maskL) in *. split.
  - destruct H as [H| ->]; [by apply nextChunkCut_prefix|by rewrite app_nil_r].
  - unfold ztake, zdrop, blen in *. rewrite take_app_le, drop_app_le by lia. done.
Qed.

Lemma streamLoop_ok fuel buffer atEOF total r s cs :
  (length (buffer ++ pending atEOF r) < fuel)%nat -> pendingErr atEOF r = None ->
  chunkContent (buffer ++ pending atEOF r) = Some cs ->
  exists r', streamLoop fn fuel buffer atEOF total r s =
    (let '(t, e, s') := eachChunk fn total cs s in Some (t, e, r', s')) /\
    ((eachChunk fn total cs s).1.2 = None -> seen r' = seen r ++ pending atEOF r).
Proof.
  revert buffer atEOF total r s cs.
  induction fuel as [|f IH]; intros buffer atEOF total r s cs Hf He Hcs; [lia|].
  cbn [streamLoop].
  destruct (fillLoop_ok (Datatypes.S (length (script r))) buffer atEOF r)
    as (buf & eof & r1 & -> & Hbuf & Hseen & He1 & Henough); [lia|done|]. csimpl.
  assert (chunkMaxSize <= blen buf \/ pending eof r1 = []) as Hen
    by (destruct Henough as [?| ->]; auto).
  rewrite <- Hbuf in Hcs, Hf. rewrite <- Hseen.
  destruct buf as [|x buf0] eqn:Eb.
  - assert (pending eof r1 = []) as Hp.
    { destruct Hen as [Hen|Hen]; [|done]. unfold blen in Hen. csimpl in Hen. unfold_sizes. lia. }
    rewrite Hp in *. csimpl in Hcs. rewrite chunkContent_nil in Hcs. simplify_eq. csimpl.
    exists r1. rewrite app_nil_r. done.
  - rewrite <- Eb in *. destruct (buffer_cut buf (pending eof r1) Hen) as (Hcut & Htake & Hdrop).
    destruct (nextChunkCut_bounds buf maskS maskL) as (Hb & _ & Hpos).
    specialize (Hpos ltac:(by subst)).
    rewrite chunkContent_cons in Hcs by (subst; done).
    rewrite Hcut, Htake, Hdrop in Hcs. set (cut := nextChunkCut buf maskS maskL) in *.
    destruct (chunkContent (zdrop cut buf ++ pending eof r1)) as [cs'|] eqn:Hcs';
      csimpl in Hcs; [|done]. injection Hcs as <-. cbn [eachChunk].
    destruct (fn (ztake cut buf) s) as [[e|] s'] eqn:Hfn; csimpl; [by exists r1|].
    rewrite blen_ztake by lia.
    destruct (IH (zdrop cut buf) eof (total + cut) r1 s' cs') as (r' & -> & Hs'); try done.
    { rewrite <- Hdrop, length_zdrop. rewrite length_app in *. unfold blen in Hb. lia. }
    exists r'. done.
Qed.

Lemma eachChunk_total t cs s :
  (eachChunk fn t cs s).1.2 = None -> (eachChunk fn t cs s).1.1 = t + blen (concat cs).
Proof.
  revert t s. induction cs as [|c cs IH]; intros t s; cbn [eachChunk].
  - unfold blen. csimpl. lia.
  - destruct (fn c s) as [[e|] s']; csimpl; [done|]. intros ->%IH. rewrite blen_app. lia.
Qed.

Lemma delivered_length rs : (length (delivered rs) <= length (concat rs.*1))%nat.
Proof.
  induction rs as [|[b e] rs IH]; csimpl; [lia|]. rewrite length_app.
  destruct e; rewrite ?length_app; lia.
Qed.

End stream_lemmas.

Lemma streamChunks_chunks {S} (fn : bytes -> S -> option GoError * S) (r : Reader) (s : S) :
  firstErr (script r) = None ->
  exists cs r', chunkContent (delivered (script r)) = Some cs /\
    streamChunks fn r s = (let '(t, e, s') := eachChunk fn 0 cs s in Some (t, e, r', s')) /\
    ((eachChunk fn 0 cs s).1.2 = None ->
       seen r' = seen r ++ delivered (script r) /\
       (eachChunk fn 0 cs s).1.1 = blen (delivered (script r))).
Proof.
  intros He. destruct (chunks_concat (delivered (script r))) as (cs & Hcs & Hc).
  destruct (streamLoop_ok fn (streamFuel r) [] false 0 r s cs) as (r' & Hr & Hseen).
  - unfold streamFuel, pending. csimpl. pose proof (delivered_length (script r)). lia.
  - done.
  - done.
  - exists cs, r'. split; [done|]. split; [done|]. intros Hn. split; [by apply Hseen|].
    rewrite <- Hc. by apply eachChunk_total.
Qed.

(** C28: streaming equals chunking in memory.  For every reader that reaches
    EOF without an error, however its bytes are split over [Read] calls (empty
    reads and data returned together with EOF included), [streamChunks]
    terminates and makes the same callbacks, with the same early stop on a
    callback error, as iterating over [chunkContent] of the delivered content;
    when it succeeds the total is the content's length and a tee on the reader
    has seen exactly the content. *)
Theorem streamChunks_equiv {S} (fn : bytes -> S -> option GoError * S) (r : Reader) (s : S) :
  firstErr (script r) = None ->
  exists cs r', chunkContent (delivered (script r)) = Some cs /\
    streamChunks fn r s = (let '(t, e, s') := eachChunk fn 0 cs s in Some (t, e, r', s')) /\
    ((eachChunk fn 0 cs s).1.2 = None ->
       seen r' = seen r ++ delivered (script r) /\
       (eachChunk fn 0 cs s).1.1 = blen (delivered (script r))).
Proof. apply streamChunks_chunks. Qed.

Lemma streamChunks_equiv_witness :
  firstErr [([Byte.x61], NoErr); ([], NoErr); ([Byte.x62; Byte.x63], EOF)] = None /\
  exists r', streamChunks (fun c n => (None, n + blen c))
    (MkReader [([Byte.x61], NoErr); ([], NoErr); ([Byte.x62; Byte.x63], EOF)] []) 0 = Some (3, None, r', 3).
Proof.
  destruct (streamChunks_equiv (fun c n => (None, n + blen c))
    (MkReader [([Byte.x61], NoErr); ([], NoErr); ([Byte.x62; Byte.x63], EOF)] []) 0 eq_refl)
    as (cs & r' & Hcs & Hr & _).
  split; [done|]. exists r'. rewrite Hr. vm_compute in Hcs. injection Hcs as <-. done.
Defined.

(** When a reader fails, so does the stream: the error is never swallowed. *)
Lemma fillLoop_err fuel buffer atEOF r e :
  (length (script r) < fuel)%nat -> pendingErr atEOF r = Some e ->
  exists buffer' r' err, fillLoop fuel buffer atEOF r = Some (buffer', false, r', err) /\
    (err = Some e \/ err = None /\ pendingErr false r' = Some e /\ chunkMaxSize <= blen buffer' /\
       (length buffer' + length (concat (script r').*1) <=
        length buffer + length (concat (script r).*1))%nat).
Proof.
  revert buffer atEOF r. induction fuel as [|f IH]; intros buffer atEOF r Hf He; [lia|].
  cbn [fillLoop]. destruct atEOF; [done|]. rewrite andb_true_r.
  destruct (Z.ltb_spec (blen buffer) chunkMaxSize) as [Hlt|Hge].
  2: { exists buffer, r, None. auto 10. }
  destruct r as [[|[b ev] rs] sn]; unfold Read, pendingErr in *; csimpl in *; [done|].
  destruct ev as [| |err]; csimpl; simplify_eq.
  - destruct (IH (buffer ++ b) false (MkReader rs (sn ++ b))) as (b' & r' & er & Hfl & H);
      [csimpl; lia|done|]. exists b', r', er. split; [done|].
    rewrite !length_app in *. csimpl in *. destruct H as [?|(? & ? & ? & ?)]; [by left|right].
    split; [done|]. split; [done|]. split; [done|]. lia.
  - exists (buffer ++ b), (MkReader rs (sn ++ b)), (Some e). auto.
Qed.

Lemma streamLoop_err {S} (fn : bytes -> S -> option GoError * S) fuel buffer total r s e :
  (length buffer + length (concat (script r).*1) < fuel)%nat ->
  pendingErr false r = Some e ->
  exists t e' r' s', streamLoop fn fuel buffer false total r s = Some (t, Some e', r', s').
Proof.
  revert buffer total r s. induction fuel as [|f IH]; intros buffer total r s Hf He; [lia|].
  cbn [streamLoop].
  destruct (fillLoop_err (Datatypes.S (length (script r))) buffer false r e)
    as (buf & r1 & er & -> & [ ->|(-> & He1 & Hb & Hlen)]); [lia|done| |]; csimpl; [eauto 10|].
  destruct (nextChunkCut_bounds buf maskS maskL) as (Hcb & _ & Hpos).
  destruct buf as [|x buf0] eqn:Eb; [unfold blen in Hb; csimpl in Hb; unfold_sizes; lia|].
  rewrite <- Eb in *. specialize (Hpos ltac:(by subst)).
  destruct (fn _ s) as [[e'|] s']; [eauto 10|]. apply IH; [|done].
  rewrite length_zdrop. unfold blen in *. lia.
Qed.

(** Whatever the reader does, the callback's invariant holds at the end. *)
Lemma streamLoop_inv {S} (fn : bytes -> S -> option GoError * S) (I : S -> Prop) fuel buffer atEOF t r s res :
  (forall c s, I s -> I (fn c s).2) -> I s ->
  streamLoop fn fuel buffer atEOF t r s = Some res -> I res.2.
Proof.
  intros Hfn. revert buffer atEOF t r s. induction fuel as [|f IH]; intros buffer atEOF t r s HI; [done|].
  cbn [streamLoop]. destruct (fillLoop _ _ _ _) as [[[[buf eof] r1] [e|]]|]; csimpl; [|..|done].
  - by intros [= <-].
  - destruct buf as [|x buf0]; [by intros [= <-]|].
    pose proof (Hfn (ztake (nextChunkCut (x :: buf0) maskS maskL) (x :: buf0)) s HI) as HI'.
    destruct (fn _ s) as [[e|] s']; [by intros [= <-]|]. by apply IH.
Qed.

Lemma streamLoop_failed {S} (fn : bytes -> S -> option GoError * S) r s e :
  firstErr (script r) = Some e ->
  exists t e' r' s', streamChunks fn r s = Some (t, Some e', r', s').
Proof.
  intros He. apply (streamLoop_err _ _ _ _ _ _ e); [|done]. unfold streamFuel. csimpl. lia.
Qed.

(** [streamChunks] terminates and reports an error whenever the reader fails
    before EOF: a truncated read is never taken for a complete object. *)
Theorem streamChunks_read_error {S} (fn : bytes -> S -> option GoError * S) (r : Reader) (s : S) e :
  firstErr (script r) = Some e ->
  exists t e' r' s', streamChunks fn r s = Some (t, Some e', r', s').
Proof. apply streamLoop_failed. Qed.

Lemma streamChunks_read_error_witness :
  exists t e' r' s', streamChunks (fun _ n => (None, n))
    (MkReader [([Byte.x61], NoErr); ([Byte.x62], ReadErr ErrCtx)] []) tt = Some (t, Some e', r', s').
Proof. apply (streamChunks_read_error _ (MkReader [([Byte.x61], NoErr); ([Byte.x62], ReadErr ErrCtx)] []) tt ErrCtx). done. Defined.
