(* ===== verification/GoLib.v ===== *)
(** * The Go standard library functions the modelled code uses

    Byte-wise string order, [strings.TrimSpace] (Unicode white space in its
    UTF-8 encodings), [strings.HasPrefix]/[TrimPrefix], and
    [sort.SliceStable], with the facts the components need. *)

From Stdlib Require Import Sorting.Sorted Permutation.
From stdpp Require Import options.
From S2P Require Import Prelude.

(** ** Strings *)

Definition ascii_ltb (a b : Ascii.ascii) : bool := N.ltb (Ascii.N_of_ascii a) (Ascii.N_of_ascii b).

(** Go's [a < b] on strings: lexicographic on bytes. *)
Fixpoint str_ltb (a b : string) : bool :=
  match a, b with
  | _, EmptyString => false
  | EmptyString, String _ _ => true
  | String c a', String d b' => ascii_ltb c d || (Ascii.eqb c d && str_ltb a' b')
  end.

Definition HasPrefix (s p : string) : bool := String.prefix p s.

(** [strings.TrimPrefix]. *)
Definition TrimPrefix (s p : string) : string :=
  if String.prefix p s then String.substring (String.length p) (String.length s - String.length p) s else s.

Abbreviation str_bytes := String.list_ascii_of_string.
Abbreviation bytes_str := String.string_of_list_ascii.

(** The white space runes of [unicode.IsSpace], UTF-8 encoded. *)
Definition spaceEncodings : list (list Ascii.ascii) :=
  let c := Ascii.ascii_of_N in
  map (map c)
    ([[9]; [10]; [11]; [12]; [13]; [32];
      [0xc2; 0x85]; [0xc2; 0xa0]; [0xe1; 0x9a; 0x80];
      [0xe2; 0x80; 0x80]; [0xe2; 0x80; 0x81]; [0xe2; 0x80; 0x82]; [0xe2; 0x80; 0x83];
      [0xe2; 0x80; 0x84]; [0xe2; 0x80; 0x85]; [0xe2; 0x80; 0x86]; [0xe2; 0x80; 0x87];
      [0xe2; 0x80; 0x88]; [0xe2; 0x80; 0x89]; [0xe2; 0x80; 0x8a];
      [0xe2; 0x80; 0xa8]; [0xe2; 0x80; 0xa9]; [0xe2; 0x80; 0xaf];
      [0xe2; 0x81; 0x9f]; [0xe3; 0x80; 0x80]])%N.

(** Remove [p] from the front of [s]. *)
Fixpoint strip (p s : list Ascii.ascii) : option (list Ascii.ascii) :=
  match p, s with
  | [], _ => Some s
  | a :: p', b :: s' => if Ascii.eqb a b then strip p' s' else None
  | _ :: _, [] => None
  end.

(** Remove the first of [ps] that is a prefix. *)
Fixpoint stripAny (ps : list (list Ascii.ascii)) (s : list Ascii.ascii) : option (list Ascii.ascii) :=
  match ps with
  | [] => None
  | p :: ps' => match strip p s with Some r => Some r | None => stripAny ps' s end
  end.

Fixpoint trimLoop (ps : list (list Ascii.ascii)) (fuel : nat) (s : list Ascii.ascii) : list Ascii.ascii :=
  match fuel with
  | 0 => s
  | S f => match stripAny ps s with Some r => trimLoop ps f r | None => s end
  end.

Definition trimLeft (ps : list (list Ascii.ascii)) (s : list Ascii.ascii) : list Ascii.ascii :=
  trimLoop ps (length s) s.

Definition TrimSpace (s : string) : string :=
  let l := trimLeft spaceEncodings (str_bytes s) in
  bytes_str (rev (trimLeft (map (@rev _) spaceEncodings) (rev l))).

(** [strings.TrimSpace(s) == ""]. *)
Definition blank (s : string) : bool := bool_decide (TrimSpace s = EmptyString).

Definition firstNonEmpty (values : list string) : string :=
  (fix go vs := match vs with
    | [] => EmptyString
    | v :: r => if negb (blank v) then TrimSpace v else go r
    end) values.

(** ** Stable sorting *)

Section sort.
Context {A : Type} (less : A -> A -> bool).

Fixpoint insertStable (x : A) (l : list A) : list A :=
  match l with
  | [] => [x]
  | y :: r => if less y x then y :: insertStable x r else x :: y :: r
  end.

(** [sort.SliceStable(l, less)]. *)
Definition sortStable (l : list A) : list A := foldr insertStable [] l.

(** [l] is ordered: no element is strictly below an earlier one. *)
Definition ordered (l : list A) : Prop := StronglySorted (fun a b => less b a = false) l.

Lemma insertStable_perm x l : insertStable x l ≡ₚ x :: l.
Proof.
  induction l as [|y l IH]; simpl; [done|]. destruct (less y x); [|done].
  rewrite IH. apply Permutation_swap.
Qed.

Lemma sortStable_perm l : sortStable l ≡ₚ l.
Proof. induction l as [|x l IH]; simpl; [done|]. by rewrite insertStable_perm, IH. Qed.

Hypothesis less_asym : forall a b, less a b = true -> less b a = false.
Hypothesis less_ntrans : forall a b c, less b a = false -> less c b = false -> less c a = false.

Lemma insertStable_ordered x l : ordered l -> ordered (insertStable x l).
Proof using Type*.
  induction 1 as [|y l Hs IH Hy]; simpl; [repeat constructor|].
  destruct (less y x) eqn:E.
  - constructor; [done|]. rewrite insertStable_perm. constructor; auto.
  - constructor; [by constructor|]. constructor; [done|].
    eapply Forall_impl; [exact Hy|]. simpl. eauto.
Qed.

Lemma sortStable_ordered l : ordered (sortStable l).
Proof using Type*. induction l; simpl; [constructor|]. by apply insertStable_ordered. Qed.

(** Stability, in the form used here: an ordered list is left alone. *)
Lemma sortStable_id l : ordered l -> sortStable l = l.
Proof.
  induction 1 as [|x l Hs IH Hx]; simpl; [done|]. rewrite IH.
  destruct l as [|y l]; simpl; [done|]. apply Forall_cons in Hx as [-> _]. done.
Qed.

Lemma sortStable_idemp l : sortStable (sortStable l) = sortStable l.
Proof using Type*. apply sortStable_id, sortStable_ordered. Qed.

End sort.

(** ** Facts about the string order *)

Lemma ascii_ltb_trans a b c : ascii_ltb a b = true -> ascii_ltb b c = true -> ascii_ltb a c = true.
Proof. unfold ascii_ltb. rewrite !N.ltb_lt. lia. Qed.

Lemma ascii_total a b : ascii_ltb a b = false -> ascii_ltb b a = false -> a = b.
Proof.
  unfold ascii_ltb. rewrite !N.ltb_ge. intros ??.
  rewrite <- (Ascii.ascii_N_embedding a), <- (Ascii.ascii_N_embedding b). f_equal. lia.
Qed.

Lemma str_ltb_irrefl a : str_ltb a a = false.
Proof.
  induction a as [|c a IH]; simpl; [done|]. unfold ascii_ltb. rewrite N.ltb_irrefl, IH.
  by rewrite andb_false_r.
Qed.

Lemma str_ltb_trans a b c : str_ltb a b = true -> str_ltb b c = true -> str_ltb a c = true.
Proof.
  revert b c. induction a as [|x a IH]; intros [|y b] [|z c]; simpl; try done.
  rewrite !orb_true_iff, !andb_true_iff, !Ascii.eqb_eq.
  intros [Hxy|[-> Hab]] [Hyz|[-> Hbc]]; eauto using ascii_ltb_trans.
Qed.

Lemma str_ltb_total a b : str_ltb a b = false -> str_ltb b a = false -> a = b.
Proof.
  revert b. induction a as [|x a IH]; intros [|y b]; simpl; try done.
  rewrite !orb_false_iff. intros [H1 H2] [H3 H4].
  pose proof (ascii_total _ _ H1 H3) as ->. rewrite Ascii.eqb_refl in *. simpl in *.
  f_equal. auto.
Qed.

Lemma str_ltb_asym a b : str_ltb a b = true -> str_ltb b a = false.
Proof.
  intros H. destruct (str_ltb b a) eqn:E; [|done].
  pose proof (str_ltb_trans _ _ _ H E). by rewrite str_ltb_irrefl in *.
Qed.

Lemma str_ltb_ntrans a b c : str_ltb b a = false -> str_ltb c b = false -> str_ltb c a = false.
Proof.
  intros H1 H2. destruct (str_ltb c a) eqn:E; [|done].
  destruct (str_ltb b c) eqn:E2.
  - by rewrite (str_ltb_trans _ _ _ E2 E) in H1.
  - by rewrite (str_ltb_total _ _ H2 E2), H1 in E.
Qed.

(** ** Composite orders

    [less] functions of the source compare one key after another; each is a
    strict weak order when its keys are totally ordered. *)

Class TotalLess {K} (lt : K -> K -> bool) : Prop := {
  tl_irrefl : forall a, lt a a = false;
  tl_trans : forall a b c, lt a b = true -> lt b c = true -> lt a c = true;
  tl_total : forall a b, lt a b = false -> lt b a = false -> a = b }.

Class WeakLess {A} (less : A -> A -> bool) : Prop := {
  wl_asym : forall a b, less a b = true -> less b a = false;
  wl_ntrans : forall a b c, less b a = false -> less c b = false -> less c a = false }.

#[export] Instance str_total : TotalLess str_ltb.
Proof. split; [apply str_ltb_irrefl|apply str_ltb_trans|apply str_ltb_total]. Qed.

#[export] Instance Z_total : TotalLess Z.ltb.
Proof. split; intros; rewrite ?Z.ltb_lt, ?Z.ltb_ge in *; lia. Qed.

(** [f a < f b]. *)
Definition keyLess {A K} (f : A -> K) (lt : K -> K -> bool) (a b : A) : bool := lt (f a) (f b).

(** [if f a != f b { return f a < f b }; return less2 a b]. *)
Definition lexBy {A K} `{EqDecision K} (f : A -> K) (lt : K -> K -> bool)
    (less2 : A -> A -> bool) (a b : A) : bool :=
  if decide (f a = f b) then less2 a b else lt (f a) (f b).

Lemma tl_asym {K} (lt : K -> K -> bool) `{!TotalLess lt} a b : lt a b = true -> lt b a = false.
Proof.
  intros H. destruct (lt b a) eqn:E; [|done].
  pose proof (tl_trans _ _ _ H E) as H'. by rewrite tl_irrefl in H'.
Qed.

Lemma tl_ntrans {K} (lt : K -> K -> bool) `{!TotalLess lt} a b c :
  lt b a = false -> lt c b = false -> lt c a = false.
Proof.
  intros H1 H2. destruct (lt c a) eqn:E; [|done].
  destruct (lt b c) eqn:E2.
  - by rewrite (tl_trans _ _ _ E2 E) in H1.
  - by rewrite (tl_total _ _ H2 E2), H1 in E.
Qed.

#[export] Instance keyLess_weak {A K} (f : A -> K) lt `{!TotalLess lt} : WeakLess (keyLess f lt).
Proof. split; unfold keyLess; intros; [by apply (tl_asym lt)|by eapply (tl_ntrans lt)]. Qed.

#[export] Instance lexBy_weak {A K} `{EqDecision K} (f : A -> K) lt less2
  `{!TotalLess lt, !WeakLess less2} : WeakLess (lexBy f lt less2).
Proof.
  split; unfold lexBy.
  - intros a b. repeat case_decide; try congruence; [apply wl_asym|by apply (tl_asym lt)].
  - intros a b c. destruct (decide (f b = f a)) as [Hba|Hba], (decide (f c = f b)) as [Hcb|Hcb],
      (decide (f c = f a)) as [Hca|Hca]; try congruence; try apply wl_ntrans.
    + intros H1 H2. rewrite Hca in H2. by rewrite (tl_total _ _ H1 H2) in Hba.
    + by apply (tl_ntrans lt).
Qed.

Section weak_sort.
Context {A : Type} (less : A -> A -> bool) `{!WeakLess less}.

Lemma sort_ordered l : ordered less (sortStable less l).
Proof using Type*. apply sortStable_ordered; [apply wl_asym|apply wl_ntrans]. Qed.

Lemma sort_idemp l : sortStable less (sortStable less l) = sortStable less l.
Proof using Type*. apply sortStable_idemp; [apply wl_asym|apply wl_ntrans]. Qed.

Lemma insert_ordered x l : ordered less l -> ordered less (insertStable less x l).
Proof using Type*. apply insertStable_ordered; [apply wl_asym|apply wl_ntrans]. Qed.

(** Two insertions of elements with [x] strictly below [y] commute. *)
Lemma insert_comm x y l :
  less x y = true -> ordered less l ->
  insertStable less x (insertStable less y l) = insertStable less y (insertStable less x l).
Proof using Type*.
  intros Hxy. pose proof (wl_asym _ _ Hxy) as Hyx.
  induction 1 as [|z l Hs IH Hz]; simpl.
  - by rewrite Hyx, Hxy.
  - destruct (less z y) eqn:Ezy, (less z x) eqn:Ezx; simpl; rewrite ?Ezy, ?Ezx, ?Hyx, ?Hxy;
      simpl; rewrite ?Ezy, ?Ezx; try done.
    + by rewrite IH.
    + exfalso. by rewrite (wl_ntrans _ _ _ Hyx Ezy) in Ezx.
Qed.

(** A stable sort can be done one block at a time. *)
Lemma sort_app_sorted l1 l2 :
  sortStable less (sortStable less l1 ++ l2) = sortStable less (l1 ++ l2).
Proof using Type*.
  assert (forall x l, ordered less l ->
    foldr (insertStable less) (sortStable less l2) (insertStable less x l) =
    insertStable less x (foldr (insertStable less) (sortStable less l2) l)) as Hins.
  { intros x l. induction 1 as [|y l Hs IH Hy]; simpl; [done|].
    destruct (less y x) eqn:E; simpl; [|done]. rewrite IH.
    apply insert_comm; [done|]. clear -WeakLess0. induction l; simpl; [apply sort_ordered|].
    by apply insert_ordered. }
  unfold sortStable at 1 3. rewrite !foldr_app. fold (sortStable less l2).
  induction l1 as [|x l1 IH]; simpl; [done|].
  rewrite Hins by apply sort_ordered. by rewrite IH.
Qed.

Lemma insert_filter_False (P : A -> bool) x l :
  P x = false -> List.filter P (insertStable less x l) = List.filter P l.
Proof.
  intros HP. induction l as [|y l IH]; simpl; [by rewrite HP|].
  destruct (less y x); simpl; [|by rewrite HP]. by rewrite IH.
Qed.

Lemma insert_filter_True (P : A -> bool) x l :
  P x = true -> ordered less l ->
  List.filter P (insertStable less x l) = insertStable less x (List.filter P l).
Proof using Type*.
  intros HP. induction 1 as [|y l Hs IH Hy]; simpl; [by rewrite HP|].
  destruct (less y x) eqn:E; simpl.
  - destruct (P y); simpl; rewrite ?E; by rewrite IH.
  - rewrite HP. destruct (P y); simpl; [by rewrite E|].
    assert (Forall (fun z => less z x = false) (List.filter P l)) as Hf.
    { apply Forall_forall. intros z Hz. apply list_elem_of_In, filter_In in Hz as [Hz _].
      rewrite Forall_forall in Hy. specialize (Hy z ltac:(by apply list_elem_of_In)).
      by eapply wl_ntrans. }
    destruct (List.filter P l) as [|z r]; simpl; [done|].
    apply Forall_cons in Hf as [-> _]. done.
Qed.

(** Filtering commutes with sorting. *)
Lemma sort_filter (P : A -> bool) l :
  List.filter P (sortStable less l) = sortStable less (List.filter P l).
Proof using Type*.
  induction l as [|x l IH]; simpl; [done|]. destruct (P x) eqn:E; simpl.
  - by rewrite insert_filter_True, IH by (done || apply sort_ordered).
  - by rewrite insert_filter_False.
Qed.

End weak_sort.

(** ** [TrimSpace] is idempotent *)

Lemma strip_app p s r t : strip p s = Some r -> strip p (s ++ t) = Some (r ++ t).
Proof.
  revert s. induction p as [|a p IH]; intros [|b s]; simpl; intros; simplify_eq; try done.
  case_match; [|done]. auto.
Qed.

Lemma strip_suffix p s r : strip p s = Some r -> s = p ++ r.
Proof.
  revert s. induction p as [|a p IH]; intros [|b s]; simpl; intros; simplify_eq; try done.
  case_match eqn:E; [|done]. apply Ascii.eqb_eq in E as ->. f_equal. auto.
Qed.

Lemma stripAny_Some ps s r : stripAny ps s = Some r -> exists p, p ∈ ps /\ s = p ++ r.
Proof.
  induction ps as [|p ps IH]; simpl; [done|]. destruct (strip p s) eqn:E; intros Hs.
  - simplify_eq. exists p. split; [left|]. by apply strip_suffix.
  - destruct (IH Hs) as (q & Hq & ->). exists q. split; [by right|done].
Qed.

Lemma stripAny_prefix ps s t : stripAny ps (s ++ t) = None -> stripAny ps s = None.
Proof.
  induction ps as [|p ps IH]; simpl; [done|].
  destruct (strip p s) eqn:E; [by rewrite (strip_app _ _ _ t E)|].
  destruct (strip p (s ++ t)); [done|auto].
Qed.

Lemma trimLoop_suffix ps f s : exists pre, s = pre ++ trimLoop ps f s.
Proof.
  revert s. induction f as [|f IH]; intros s; simpl; [by exists []|].
  destruct (stripAny ps s) as [r|] eqn:E; [|by exists []].
  apply stripAny_Some in E as (p & _ & ->). destruct (IH r) as [pre Hpre].
  exists (p ++ pre). by rewrite <- app_assoc, <- Hpre.
Qed.

Lemma trimLoop_done ps f s :
  Forall (fun p => p <> []) ps -> length s <= f -> stripAny ps (trimLoop ps f s) = None.
Proof.
  intros Hps. revert s. induction f as [|f IH]; intros s Hl; simpl.
  - destruct s; [|simpl in *; lia]. destruct (stripAny ps []) eqn:E; [|done].
    apply stripAny_Some in E as (p & Hp & Heq). rewrite Forall_forall in Hps.
    specialize (Hps p Hp). by destruct p.
  - destruct (stripAny ps s) as [r|] eqn:E; [|done]. apply IH.
    apply stripAny_Some in E as (p & Hp & ->). rewrite Forall_forall in Hps.
    specialize (Hps p Hp). rewrite length_app in Hl. destruct p; simpl in *; [done|lia].
Qed.

Lemma trimLoop_id ps f s : stripAny ps s = None -> trimLoop ps f s = s.
Proof. intros H. destruct f; simpl; [done|]. by rewrite H. Qed.

Lemma spaces_nonempty : Forall (fun p => p <> []) spaceEncodings.
Proof. repeat constructor; done. Qed.

Lemma rev_spaces_nonempty : Forall (fun p => p <> []) (map (@rev _) spaceEncodings).
Proof. repeat constructor; done. Qed.

Lemma TrimSpace_idemp s : TrimSpace (TrimSpace s) = TrimSpace s.
Proof.
  unfold TrimSpace. cbv zeta.
  set (l := trimLeft spaceEncodings (str_bytes s)).
  set (r := trimLeft (map (@rev _) spaceEncodings) (rev l)).
  rewrite String.list_ascii_of_string_of_list_ascii. f_equal.
  assert (stripAny spaceEncodings l = None) as Hl by (apply trimLoop_done; [apply spaces_nonempty|done]).
  assert (stripAny (map (@rev _) spaceEncodings) r = None) as Hr
    by (apply trimLoop_done; [apply rev_spaces_nonempty|done]).
  assert (stripAny spaceEncodings (rev r) = None) as Hrr.
  { destruct (trimLoop_suffix (map (@rev _) spaceEncodings) (length (rev l)) (rev l)) as [pre Hpre].
    apply (f_equal (@rev _)) in Hpre. rewrite rev_involutive, rev_app_distr in Hpre.
    apply (stripAny_prefix _ _ (rev pre)). unfold r, trimLeft. by rewrite <- Hpre. }
  unfold trimLeft at 2. rewrite (trimLoop_id _ _ _ Hrr), rev_involutive.
  unfold trimLeft. by rewrite (trimLoop_id _ _ _ Hr).
Qed.

Lemma TrimSpace_blank s : blank (TrimSpace s) = blank s.
Proof. unfold blank. by rewrite TrimSpace_idemp. Qed.

Example TrimSpace_ex : TrimSpace "  a b	" = "a b".
Proof. vm_compute. reflexivity. Qed.
