(* ===== verification/Contracts.v ===== *)
(** * Data contracts: [contracts/contracts.go]

    The structs FILESTORE keeps, field by field.  [time.Time] is the instant in
    nanoseconds ([zeroTime] the zero value), [map[string]any] a [gmap] (a nil
    map is the empty one: they read and encode alike), [int] is [Z]. *)

From stdpp Require Import options.
From S2P Require Import Prelude GoLib.

(** ** Times *)

Abbreviation Time := Z (only parsing).

(** January 1, year 1, 00:00:00 UTC, as nanoseconds from the Unix epoch. *)
Definition zeroTime : Time := (-62135596800000000000)%Z.
Definition isZero (t : Time) : bool := (t =? zeroTime)%Z.
Definition Before (a b : Time) : bool := (a <? b)%Z.
Definition After (a b : Time) : bool := (b <? a)%Z.

(** [t.Sub(u)] saturates at the [time.Duration] bounds. *)
Definition Sub (t u : Time) : Z := Z.max (- 2 ^ 63) (Z.min (2 ^ 63 - 1) (t - u)).

(** ** Dynamic values: the [any] of a decoded JSON document or of Go code *)
#[warnings="-register-all"]
Inductive Any :=
  | ANil
  | ABool (b : bool)
  | AInt (z : Z)
  | AFloat (num : Z) (den : positive)
  | AStr (s : string)
  | ATime (t : Time)
  | AList (l : list Any)
  | AMap (m : list (string * Any)).

Abbreviation anyMap := (gmap string Any).

Definition stringFromAny (v : option Any) : string :=
  match v with Some (AStr s) => s | _ => "" end.

(** [int(typed)] truncates a float towards zero. *)
Definition intFromAny (v : option Any) : Z :=
  match v with
  | Some (AInt z) => z
  | Some (AFloat n d) => Z.quot n (Zpos d)
  | _ => 0
  end.

Definition boolFromAny (v : option Any) : bool :=
  match v with Some (ABool b) => b | _ => false end.

(** ** Structs *)

Record Facet := MkFacet {
  fMetadata : anyMap; fAttributes : anyMap;
  fKind : string; fName : string; fVersion : string }.

Definition FacetKind (facet : Facet) : string :=
  if bool_decide (fKind facet <> "") then fKind facet else fName facet.

Record Title := MkTitle { tValue : string; tSource : string; tConfidence : Any }.

Record Timestamps := MkTimestamps { tsCreated : Time; tsModified : Time; tsObserved : Time }.

Record Provenance := MkProvenance {
  pObservedAt : Time; pMetadata : anyMap; pAttributes : anyMap;
  pSourceName : string; pSourceKind : string;
  pExternalID : string; pExternalVersion : string;
  pCapabilitiesSeen : list string }.

Record SourceObjectRef := MkRef {
  rSourceKind : string; rSourceName : string; rExternalID : string; rExternalVersion : string }.

#[export] Instance SourceObjectRef_eq_dec : EqDecision SourceObjectRef.
Proof. solve_decision. Defined.

Record SourceIngestClaim := MkClaim {
  clAcquiredAt : Time; clSourceObject : SourceObjectRef; clClaimID : string }.

Abbreviation ObjectDigest := string (only parsing).

Record Relationship := MkRel {
  relType : string; relFrom : ObjectDigest; relTo : ObjectDigest;
  relRole : string; relSource : string; relOrder : Z }.

Record CompoundPart := MkPart {
  cpMetadata : anyMap; cpDigest : ObjectDigest; cpRole : string; cpOrder : Z; cpRequired : bool }.

Record Compound := MkCompound { cParts : list CompoundPart; cIsCompound : bool }.

Record GraphFact := MkGraph {
  gMetadata : anyMap; gSubject : string; gPredicate : string; gObject : string }.

Record EmbeddingRef := MkEmb { eModel : string; eObjectDigest : ObjectDigest; eDimensions : Z }.

Definition SchemaVersionPhase00 : Z := 1.

Record Manifest := MkManifest {
  mTimestamps : Timestamps; mUpdatedAt : Time; mCreatedAt : Time;
  mOverlays : anyMap; mAnalysis : anyMap;
  mObjectDigest : ObjectDigest; mObjectID : string; mIdentityStrategy : string;
  mMediaType : string; mCompression : string; mCompound : Compound;
  mGraph : list GraphFact; mRelationships : list Relationship; mProvenance : list Provenance;
  mTitles : list Title; mKeywords : list string; mEmbeddings : list EmbeddingRef;
  mFacets : list Facet; mContentRoles : list string; mSchemaVersion : Z; mSize : Z }.

Record Annotation := MkAnnotation {
  aGeneratedAt : Time; aData : anyMap; aObjectDigest : ObjectDigest;
  aAnalyzerName : string; aAnalyzerVer : string; aKind : string; aSchemaVersion : Z }.

(** [filestore/interfaces.go]; the display paths are left out. *)
Record ProjectionFinding := MkFinding { pfDigest : ObjectDigest; pfCode : string; pfMessage : GoError }.

Record ProjectionObject := MkProjection {
  poDigest : ObjectDigest; poManifest : Manifest; poAnnotations : list Annotation;
  poFindings : list ProjectionFinding }.

(** Struct updates of the handlers. *)
Definition withProvenance (p : list Provenance) (now : Time) (m : Manifest) : Manifest :=
  MkManifest (mTimestamps m) now (mCreatedAt m) (mOverlays m) (mAnalysis m) (mObjectDigest m)
    (mObjectID m) (mIdentityStrategy m) (mMediaType m) (mCompression m) (mCompound m) (mGraph m)
    (mRelationships m) p (mTitles m) (mKeywords m) (mEmbeddings m) (mFacets m) (mContentRoles m)
    (mSchemaVersion m) (mSize m).

Definition withOverlays (o : anyMap) (now : Time) (m : Manifest) : Manifest :=
  MkManifest (mTimestamps m) now (mCreatedAt m) o (mAnalysis m) (mObjectDigest m)
    (mObjectID m) (mIdentityStrategy m) (mMediaType m) (mCompression m) (mCompound m) (mGraph m)
    (mRelationships m) (mProvenance m) (mTitles m) (mKeywords m) (mEmbeddings m) (mFacets m)
    (mContentRoles m) (mSchemaVersion m) (mSize m).

Definition withAnalysis (a : anyMap) (now : Time) (m : Manifest) : Manifest :=
  MkManifest (mTimestamps m) now (mCreatedAt m) (mOverlays m) a (mObjectDigest m)
    (mObjectID m) (mIdentityStrategy m) (mMediaType m) (mCompression m) (mCompound m) (mGraph m)
    (mRelationships m) (mProvenance m) (mTitles m) (mKeywords m) (mEmbeddings m) (mFacets m)
    (mContentRoles m) (mSchemaVersion m) (mSize m).

Definition withSize (z : Z) (m : Manifest) : Manifest :=
  MkManifest (mTimestamps m) (mUpdatedAt m) (mCreatedAt m) (mOverlays m) (mAnalysis m)
    (mObjectDigest m) (mObjectID m) (mIdentityStrategy m) (mMediaType m) (mCompression m)
    (mCompound m) (mGraph m) (mRelationships m) (mProvenance m) (mTitles m) (mKeywords m)
    (mEmbeddings m) (mFacets m) (mContentRoles m) (mSchemaVersion m) z.

(** ** References of provenance: [filestore/source_ingest.go] *)

Definition sourceObjectRefFromProvenance (p : Provenance) : SourceObjectRef :=
  MkRef (pSourceKind p) (pSourceName p) (pExternalID p) (pExternalVersion p).

Definition validateSourceObjectRef (ref : SourceObjectRef) : option GoError :=
  if blank (rSourceKind ref) then Some (ErrMsg "source object kind is required")
  else if blank (rSourceName ref) then Some (ErrMsg "source object name is required")
  else if blank (rExternalID ref) then Some (ErrMsg "source object external_id is required")
  else None.

Definition sourceObjectRefsEqual (l r : SourceObjectRef) : bool :=
  bool_decide (rSourceKind l = rSourceKind r) && bool_decide (rSourceName l = rSourceName r) &&
  bool_decide (rExternalID l = rExternalID r) && bool_decide (rExternalVersion l = rExternalVersion r).

Definition sourceRefMatches (p : Provenance) (ref : SourceObjectRef) : bool :=
  sourceObjectRefsEqual (sourceObjectRefFromProvenance p) ref.

Lemma sourceObjectRefsEqual_eq l r : sourceObjectRefsEqual l r = true <-> l = r.
Proof.
  unfold sourceObjectRefsEqual. rewrite !andb_true_iff, !bool_decide_eq_true.
  destruct l, r; simpl. naive_solver.
Qed.

(** ** Digests: [looksLikeDigest], [validateObjectDigest] *)

Definition isHexDigit (c : Ascii.ascii) : bool :=
  let n := Ascii.N_of_ascii c in
  ((48 <=? n)%N && (n <=? 57)%N) || ((97 <=? n)%N && (n <=? 102)%N) || ((65 <=? n)%N && (n <=? 70)%N).

(** Length 64 and [hex.DecodeString] succeeds. *)
Definition looksLikeDigest (v : string) : bool :=
  (String.length v =? 64) && forallb isHexDigit (str_bytes v).

Definition validateObjectDigest (d : ObjectDigest) : option GoError :=
  if looksLikeDigest d then None else Some (ErrMsg "invalid object digest").

Lemma isHexDigit_notspace c r : isHexDigit c = true ->
  stripAny spaceEncodings (c :: r) = None /\ stripAny (map (@rev _) spaceEncodings) (c :: r) = None.
Proof.
  intros Hc. assert (forallb (fun c => negb (isHexDigit c) ||
    (forallb (fun p => match p with [] => false | a :: _ => negb (Ascii.eqb a c) end) spaceEncodings &&
     forallb (fun p => match p with [] => false | a :: _ => negb (Ascii.eqb a c) end) (map (@rev _) spaceEncodings)))
    (map (fun n => Ascii.ascii_of_N (N.of_nat n)) (seq 0 256)) = true) as Hall by (vm_compute; reflexivity).
  rewrite forallb_forall in Hall. specialize (Hall c). rewrite Hc in Hall. simpl negb in Hall.
  assert (In c (map (fun n => Ascii.ascii_of_N (N.of_nat n)) (seq 0 256))) as Hin.
  { apply in_map_iff. exists (N.to_nat (Ascii.N_of_ascii c)). rewrite N2Nat.id, Ascii.ascii_N_embedding.
    split; [done|]. apply in_seq. pose proof (Ascii.N_ascii_bounded c). lia. }
  specialize (Hall Hin). simpl orb in Hall. apply andb_true_iff in Hall as [H1 H2].
  assert (forall ps, forallb (fun p => match p with [] => false | a :: _ => negb (Ascii.eqb a c) end) ps = true ->
    stripAny ps (c :: r) = None) as Hs.
  { induction ps as [|[|a p] ps IH]; simpl; [done|done|]. intros [Ha Hr]%andb_true_iff.
    apply negb_true_iff in Ha. rewrite Ha. auto. }
  auto.
Qed.

(** A digest is never blank. *)
Lemma digest_not_blank d : looksLikeDigest d = true -> blank d = false.
Proof.
  unfold looksLikeDigest. rewrite andb_true_iff, Nat.eqb_eq. intros [Hl Hh]. unfold blank.
  apply bool_decide_eq_false. intros Ht. destruct d as [|c d]; [done|].
  change (str_bytes (String c d)) with (c :: str_bytes d) in Hh. simpl in Hh. apply andb_true_iff in Hh as [Hc Hh].
  unfold TrimSpace in Ht. change (str_bytes (String c d)) with (c :: str_bytes d) in Ht.
  unfold trimLeft in Ht at 2.
  rewrite (trimLoop_id _ _ _ (proj1 (isHexDigit_notspace c (str_bytes d) Hc))) in Ht.
  assert (exists e l, rev (c :: str_bytes d) = e :: l /\ isHexDigit e = true) as (e & l & Hrev & He).
  { destruct (rev (c :: str_bytes d)) as [|e l] eqn:Hr.
    - apply (f_equal (@rev _)) in Hr. by rewrite rev_involutive in Hr.
    - exists e, l. split; [done|]. assert (In e (c :: str_bytes d)) as Hin by (apply in_rev; rewrite Hr; by left).
      destruct Hin as [<-|Hin]; [done|]. rewrite forallb_forall in Hh. by apply Hh. }
  rewrite Hrev in Ht. unfold trimLeft in Ht.
  rewrite (trimLoop_id _ _ _ (proj2 (isHexDigit_notspace e l He))) in Ht.
  rewrite <- Hrev, rev_involutive in Ht. done.
Qed.
