(* ===== verification/Manifest.v ===== *)
(** * Manifest normalization and merging: [filestore/store.go]

    The pure part of FILESTORE's write path: how a manifest is built, how a
    re-put of an object is merged into the manifest it already has, and the
    guards on facets, parts and annotations. *)

From stdpp Require Import pretty options.
From S2P Require Import Prelude GoLib Contracts.

(** ** Normalization *)

(** Go's [seen] loops: keep the first element of every key. *)
Fixpoint dedupBy {A K} `{EqDecision K} (key : A -> K) (seen : list K) (l : list A) : list A :=
  match l with
  | [] => []
  | x :: r =>
      if bool_decide (key x ∈ seen) then dedupBy key seen r
      else x :: dedupBy key (key x :: seen) r
  end.

Definition uniqueStrings (values : list string) : list string :=
  sortStable str_ltb
    (dedupBy id [] (List.filter (fun v => bool_decide (v <> "")) (map TrimSpace values))).

(** [maps.Copy] twice: the incoming entry wins. *)
Definition mergeMaps (existing incoming : anyMap) : anyMap := incoming ∪ existing.

Definition provenanceLess : Provenance -> Provenance -> bool :=
  lexBy pSourceKind str_ltb (lexBy pSourceName str_ltb
    (lexBy pExternalID str_ltb (keyLess pExternalVersion str_ltb))).

Definition normalizeProvenance (l : list Provenance) : list Provenance := sortStable provenanceLess l.

Definition relationshipLess : Relationship -> Relationship -> bool :=
  lexBy relType str_ltb (lexBy relFrom str_ltb (keyLess relTo str_ltb)).

Definition normalizedRelationships (l : list Relationship) : list Relationship :=
  sortStable relationshipLess l.

Definition partLess : CompoundPart -> CompoundPart -> bool :=
  lexBy cpOrder Z.ltb (lexBy cpRole str_ltb (keyLess cpDigest str_ltb)).

Definition normalizedParts (l : list CompoundPart) : list CompoundPart := sortStable partLess l.

Definition facetLess : Facet -> Facet -> bool := keyLess fKind str_ltb.

(** The body of [normalizeFacets]'s loop for a kept facet. *)
Definition normalizeFacet (facet : Facet) : Facet :=
  MkFacet (mergeMaps (fAttributes facet) (fMetadata facet)) ∅
    (TrimSpace (FacetKind facet)) "" (fVersion facet).

Definition normalizeFacets (facets : list Facet) : list Facet :=
  let kind f := TrimSpace (FacetKind f) in
  sortStable facetLess
    (map normalizeFacet
      (dedupBy kind [] (List.filter (fun f => bool_decide (kind f <> "")) facets))).

(** ** Validation *)

Fixpoint validateFacetKinds (facets : list Facet) : option GoError :=
  match facets with
  | [] => None
  | f :: r => if blank (FacetKind f) then Some (ErrMsg "facet kind is required") else validateFacetKinds r
  end.

Definition validateFacets (facets : list Facet) : option GoError :=
  match facets with
  | [] => Some (ErrMsg "at least one facet is required")
  | _ => validateFacetKinds facets
  end.

Definition validateCompoundPart (part : CompoundPart) : option GoError :=
  if negb (looksLikeDigest (cpDigest part)) then
    Some (ErrMsg "compound part digest must be a 64-character hex digest")
  else if blank (cpRole part) then Some (ErrMsg "compound part role is required")
  else None.

Fixpoint validateCompoundParts (parts : list CompoundPart) : option GoError :=
  match parts with
  | [] => None
  | p :: r => match validateCompoundPart p with Some e => Some e | None => validateCompoundParts r end
  end.

(** ** Merging *)

(** The NUL byte joining the fields of a key. *)
Definition nul : string := String (Ascii.ascii_of_N 0) "".

Definition joinNul (l : list string) : string := String.concat nul l.

Definition provenanceMergeKey (p : Provenance) : string :=
  joinNul [pSourceKind p; pSourceName p; pExternalID p; pExternalVersion p].

(** Is there an incoming key that [existing] lacks? *)
Definition provenanceAddsNew (existing incoming : list Provenance) : bool :=
  existsb (fun p => negb (bool_decide (provenanceMergeKey p ∈ map provenanceMergeKey existing))) incoming.

Definition mergeProvenance (existing incoming : list Provenance) : list Provenance :=
  normalizeProvenance (dedupBy provenanceMergeKey [] (existing ++ incoming)).

Definition relationshipMergeKey (r : Relationship) : string :=
  if bool_decide (relType r = "contains") then
    joinNul [relType r; relFrom r; relRole r; pretty (relOrder r)]
  else if bool_decide (relType r = "part_of") then
    joinNul [relType r; relTo r; relRole r; pretty (relOrder r)]
  else joinNul [relType r; relFrom r; relTo r; relRole r; pretty (relOrder r)].

(** The shared shape of [mergeRelationships] and [mergeParts]: incoming entries
    replace the existing ones of the same slot. *)
Definition replaceSlots {A} (key : A -> string) (existing incoming : list A) : list A :=
  List.filter (fun x => negb (bool_decide (key x ∈ map key incoming))) existing ++ incoming.

Definition mergeRelationships (existing incoming : list Relationship) : list Relationship :=
  normalizedRelationships (replaceSlots relationshipMergeKey existing incoming).

Definition compoundPartSlotKey (p : CompoundPart) : string :=
  joinNul [cpRole p; pretty (cpOrder p)].

Definition mergeParts (existing incoming : list CompoundPart) : list CompoundPart :=
  normalizedParts (replaceSlots compoundPartSlotKey existing incoming).

Definition VersionScaleTrivial : string := "trivial".
Definition VersionScaleMinor : string := "minor".
Definition VersionScaleMajor : string := "major".
Definition MailMessageFacetKind : string := "mail_message".

Definition scaleRank (s : string) : Z :=
  if bool_decide (s = VersionScaleTrivial) then 1
  else if bool_decide (s = VersionScaleMinor) then 2
  else if bool_decide (s = VersionScaleMajor) then 3
  else 0.

Definition maxMailVersionScale (left right : string) : string :=
  if (scaleRank left <? scaleRank right)%Z then right
  else if bool_decide (left <> "") then left else right.

Definition mergeFacetMetadata (kind : string) (existing incoming : anyMap) : anyMap :=
  let merged := mergeMaps existing incoming in
  if bool_decide (kind <> MailMessageFacetKind) then merged
  else
    let ec := intFromAny (existing !! "version_count") in
    let ic := intFromAny (incoming !! "version_count") in
    let merged := <["version_count" := AInt (Z.max ec ic)]> merged in
    let merged := <["max_scale" := AStr (maxMailVersionScale
      (stringFromAny (existing !! "max_scale")) (stringFromAny (incoming !! "max_scale")))]> merged in
    let merged := <["message_id_collision" := ABool
      (boolFromAny (existing !! "message_id_collision") ||
       boolFromAny (incoming !! "message_id_collision"))]> merged in
    if (ic <? ec)%Z then
      let c := stringFromAny (existing !! "canonical_version_id") in
      if bool_decide (c <> "") then <["canonical_version_id" := AStr c]> merged else merged
    else merged.

Definition mergeFacet (existing incoming : Facet) : Facet :=
  let kind := if bool_decide (fKind incoming <> "") then fKind incoming else fKind existing in
  let name := if bool_decide (fName incoming <> "") then fName incoming else fName existing in
  let version := if bool_decide (fVersion incoming <> "") then fVersion incoming else fVersion existing in
  let existingMetadata := mergeMaps (fAttributes existing) (fMetadata existing) in
  let incomingMetadata := mergeMaps (fAttributes incoming) (fMetadata incoming) in
  MkFacet (mergeFacetMetadata (FacetKind (MkFacet ∅ ∅ kind name version)) existingMetadata incomingMetadata)
    ∅ kind name version.

(** The first loop of [mergeFacets]: the index of the last facet of each kind. *)
Fixpoint indexKinds (i : nat) (l : list Facet) (ix : gmap string nat) : gmap string nat :=
  match l with
  | [] => ix
  | f :: r =>
      let kind := TrimSpace (FacetKind f) in
      indexKinds (S i) r (if bool_decide (kind <> "") then <[kind := i]> ix else ix)
  end.

(** Its second loop, over the incoming facets. *)
Fixpoint mergeFacetsLoop (incoming result : list Facet) (ix : gmap string nat) : list Facet :=
  match incoming with
  | [] => result
  | item :: r =>
      let kind := TrimSpace (FacetKind item) in
      match ix !! kind with
      | Some i =>
          if bool_decide (kind <> "") then
            mergeFacetsLoop r (alter (fun f => mergeFacet f item) i result) ix
          else mergeFacetsLoop r (result ++ [item]) ix
      | None =>
          mergeFacetsLoop r (result ++ [item])
            (if bool_decide (kind <> "") then <[kind := length result]> ix else ix)
      end
  end.

Definition mergeFacets (existing incoming : list Facet) : list Facet :=
  normalizeFacets (mergeFacetsLoop incoming existing (indexKinds 0 existing ∅)).

(** [mergeManifest]; [now] is [time.Now().UTC()]. *)
Definition mergeManifest (now : Time) (existing incoming : Manifest) : Manifest :=
  MkManifest (mTimestamps existing) now (mCreatedAt existing) (mOverlays existing)
    (mAnalysis existing) (mObjectDigest existing) (mObjectID existing) (mIdentityStrategy existing)
    (mMediaType existing) (mCompression existing)
    (MkCompound (mergeParts (cParts (mCompound existing)) (cParts (mCompound incoming)))
       (cIsCompound (mCompound existing) || cIsCompound (mCompound incoming)))
    (mGraph existing)
    (mergeRelationships (mRelationships existing) (mRelationships incoming))
    (mergeProvenance (mProvenance existing) (mProvenance incoming))
    (mTitles existing) (mKeywords existing) (mEmbeddings existing)
    (mergeFacets (mFacets existing) (mFacets incoming))
    (uniqueStrings (mContentRoles existing ++ mContentRoles incoming))
    (mSchemaVersion existing) (mSize existing).

(** [baseManifest] of a fresh object. *)
Definition baseManifest (now : Time) (digest : ObjectDigest) (objectID strategy mediaType : string)
    (size : Z) (contentRoles : list string) (facets : list Facet) (provenance : list Provenance)
    (relationships : list Relationship) (compound : Compound) : Manifest :=
  MkManifest (MkTimestamps zeroTime zeroTime zeroTime) now now ∅ ∅ digest objectID strategy
    (firstNonEmpty [mediaType; "application/octet-stream"]) "zstd" compound []
    (normalizedRelationships relationships) (normalizeProvenance provenance) [] [] []
    (normalizeFacets facets) (uniqueStrings contentRoles) SchemaVersionPhase00 size.

Definition relationshipsWithCompoundParts (digest : ObjectDigest) (relationships : list Relationship)
    (parts : list CompoundPart) : list Relationship :=
  relationships ++ concat (map (fun p =>
    [MkRel "contains" digest (cpDigest p) (cpRole p) "filestore.compound" (cpOrder p);
     MkRel "part_of" (cpDigest p) digest (cpRole p) "filestore.compound" (cpOrder p)]) parts).

(** ** Annotations *)

Definition mergeAnnotation (existing incoming : Annotation) : Annotation :=
  MkAnnotation (if isZero (aGeneratedAt incoming) then aGeneratedAt existing else aGeneratedAt incoming)
    (mergeMaps (aData existing) (aData incoming)) (aObjectDigest incoming)
    (firstNonEmpty [aAnalyzerName incoming; aAnalyzerName existing])
    (firstNonEmpty [aAnalyzerVer incoming; aAnalyzerVer existing])
    (aKind incoming) SchemaVersionPhase00.

Definition analysisAnnotationSatisfied (a : Annotation) : bool :=
  let status := stringFromAny (aData a !! "status") in
  bool_decide (status = "complete") || bool_decide (status = "skipped").

Definition manifestContainsPart (m : Manifest) (digest : ObjectDigest) : bool :=
  existsb (fun p => bool_decide (cpDigest p = digest)) (cParts (mCompound m)).

Definition manifestHasSource (m : Manifest) (kind name : string) : bool :=
  existsb (fun p => bool_decide (pSourceKind p = kind) && bool_decide (pSourceName p = name)) (mProvenance m).

Definition facetKinds (facets : list Facet) : list string :=
  uniqueStrings (List.filter (fun k => bool_decide (k <> "")) (map FacetKind facets)).

(** ** Lemmas on deduplication *)

Section dedup.
Context {A K : Type} `{EqDecision K} (key : A -> K).

Lemma dedupBy_ext s1 s2 l : (forall k, k ∈ s1 <-> k ∈ s2) -> dedupBy key s1 l = dedupBy key s2 l.
Proof.
  revert s1 s2. induction l as [|x l IH]; intros s1 s2 Hs; simpl; [done|].
  rewrite (bool_decide_ext _ _ (Hs (key x))). case_bool_decide; [auto|]. f_equal. apply IH.
  intros k. rewrite !elem_of_cons, Hs. done.
Qed.

Lemma dedupBy_elem s l x : x ∈ dedupBy key s l -> x ∈ l /\ key x ∉ s.
Proof.
  revert s. induction l as [|y l IH]; intros s; simpl; [by intros ?%elem_of_nil|].
  case_bool_decide as Hd; rewrite !elem_of_cons.
  - intros [? ?]%IH. auto.
  - intros [->|[? Hni]%IH]; [auto|]. rewrite not_elem_of_cons in Hni. tauto.
Qed.

Lemma dedupBy_keys s l k : k ∈ map key (dedupBy key s l) <-> k ∈ map key l /\ k ∉ s.
Proof.
  revert s. induction l as [|y l IH]; intros s; simpl; [rewrite elem_of_nil; tauto|].
  case_bool_decide as Hd; simpl; rewrite ?elem_of_cons, IH, ?not_elem_of_cons.
  - split; [tauto|]. intros [[->|?] ?]; tauto.
  - destruct (decide (k = key y)) as [->|]; tauto.
Qed.

Lemma dedupBy_nodup s l : NoDup (map key (dedupBy key s l)).
Proof.
  revert s. induction l as [|y l IH]; intros s; simpl; [constructor|].
  case_bool_decide; [auto|]. simpl. constructor; [|auto].
  rewrite dedupBy_keys, not_elem_of_cons. tauto.
Qed.

Lemma dedupBy_id s l :
  NoDup (map key l) -> (forall k, k ∈ map key l -> k ∉ s) -> dedupBy key s l = l.
Proof.
  revert s. induction l as [|y l IH]; intros s Hn Hs; simpl; [done|]. simpl in Hn.
  apply NoDup_cons in Hn as [Hy Hn]. rewrite bool_decide_false by (apply Hs; simpl; left).
  f_equal. apply IH; [done|]. intros k Hk. rewrite not_elem_of_cons.
  split; [intros ->; done|]. apply Hs. simpl. by right.
Qed.

Lemma dedupBy_all s l : (forall k, k ∈ map key l -> k ∈ s) -> dedupBy key s l = [].
Proof.
  induction l as [|y l IH]; intros Hs; simpl; [done|].
  rewrite bool_decide_true by (apply Hs; simpl; left). apply IH. intros. apply Hs. simpl. by right.
Qed.

Lemma dedupBy_app s l1 l2 :
  dedupBy key s (l1 ++ l2) = dedupBy key s l1 ++ dedupBy key (map key l1 ++ s) l2.
Proof.
  revert s. induction l1 as [|x l1 IH]; intros s; simpl; [done|].
  case_bool_decide as Hd; rewrite IH; simpl.
  - f_equal. apply dedupBy_ext. intros k. rewrite elem_of_cons, !elem_of_app.
    split; [tauto|]. intros [->|?]; tauto.
  - f_equal. f_equal. apply dedupBy_ext. intros k. rewrite elem_of_cons, !elem_of_app, elem_of_cons. tauto.
Qed.

End dedup.

(** ** Ordered lists with the same elements are equal *)

Lemma ordered_unique {A} (lt : A -> A -> bool) `{!TotalLess lt} l1 l2 :
  ordered lt l1 -> ordered lt l2 -> l1 ≡ₚ l2 -> l1 = l2.
Proof.
  intros H1. revert l2. induction H1 as [|x l1 Hs IH Hx]; intros l2 H2 Hp.
  - by apply Permutation_nil_l in Hp.
  - destruct H2 as [|y l2 Hs2 Hy]; [by apply Permutation_nil_r in Hp|].
    assert (x = y) as ->.
    { assert (x ∈ y :: l2) as [->|Hx2]%elem_of_cons by (rewrite <- Hp; left); [done|].
      assert (y ∈ x :: l1) as [->|Hy1]%elem_of_cons by (rewrite Hp; left); [done|].
      rewrite Forall_forall in Hx, Hy. apply (tl_total (lt := lt)); auto. }
    f_equal. apply IH; [done|]. by apply Permutation_cons_inv in Hp.
Qed.

#[export] Instance keyLess_id_str : WeakLess str_ltb.
Proof. split; [apply str_ltb_asym|apply str_ltb_ntrans]. Qed.

Lemma uniqueStrings_elem l x : x ∈ uniqueStrings l <-> x <> "" /\ exists v, v ∈ l /\ TrimSpace v = x.
Proof.
  unfold uniqueStrings. rewrite sortStable_perm.
  transitivity (x ∈ map id (dedupBy id [] (List.filter (fun v => bool_decide (v <> "")) (map TrimSpace l)))).
  { by rewrite map_id. }
  rewrite dedupBy_keys, map_id, list_elem_of_In, filter_In, <- list_elem_of_In, bool_decide_eq_true.
  change (map TrimSpace l) with (TrimSpace <$> l). rewrite list_elem_of_fmap. set_solver.
Qed.

Lemma uniqueStrings_nodup l : NoDup (uniqueStrings l).
Proof.
  unfold uniqueStrings. rewrite sortStable_perm.
  rewrite <- (map_id (dedupBy _ _ _)). apply dedupBy_nodup.
Qed.

Lemma uniqueStrings_ext l1 l2 :
  (forall x, x ∈ uniqueStrings l1 <-> x ∈ uniqueStrings l2) -> uniqueStrings l1 = uniqueStrings l2.
Proof.
  intros H. apply (ordered_unique str_ltb).
  - apply sort_ordered, _.
  - apply sort_ordered, _.
  - apply NoDup_Permutation; auto using uniqueStrings_nodup.
Qed.

Lemma uniqueStrings_merge a b : uniqueStrings (uniqueStrings (a ++ b) ++ b) = uniqueStrings (a ++ b).
Proof.
  apply uniqueStrings_ext. intros x. rewrite (uniqueStrings_elem (_ ++ b)).
  setoid_rewrite elem_of_app. setoid_rewrite uniqueStrings_elem. setoid_rewrite elem_of_app. split.
  - intros (Hx & v & [(Hv & w & Hw & <-)|Hv] & <-); rewrite ?TrimSpace_idemp in *; split; eauto.
  - intros (Hx & v & Hv & <-). split; [done|]. exists (TrimSpace v). rewrite TrimSpace_idemp.
    split; [left|done]. eauto.
Qed.

(** ** Lemmas on merging *)

#[export] Instance provenanceLess_weak : WeakLess provenanceLess.
Proof. apply _. Qed.
#[export] Instance relationshipLess_weak : WeakLess relationshipLess.
Proof. apply _. Qed.
#[export] Instance partLess_weak : WeakLess partLess.
Proof. apply _. Qed.

(** A provenance list as every manifest keeps it: ordered, one entry per key. *)
Definition provenance_wf (l : list Provenance) : Prop :=
  ordered provenanceLess l /\ NoDup (map provenanceMergeKey l).

Lemma map_perm {A B} (f : A -> B) l1 l2 : l1 ≡ₚ l2 -> map f l1 ≡ₚ map f l2.
Proof. apply Permutation_map. Qed.

Lemma mergeProvenance_perm e i :
  mergeProvenance e i ≡ₚ dedupBy provenanceMergeKey [] (e ++ i).
Proof. apply sortStable_perm. Qed.

Lemma mergeProvenance_wf e i : provenance_wf (mergeProvenance e i).
Proof.
  split; [apply sort_ordered, _|]. rewrite (map_perm _ _ _ (mergeProvenance_perm e i)).
  apply dedupBy_nodup.
Qed.

Lemma mergeProvenance_keys e i k :
  k ∈ map provenanceMergeKey (mergeProvenance e i) <->
  k ∈ map provenanceMergeKey e \/ k ∈ map provenanceMergeKey i.
Proof.
  rewrite (map_perm _ _ _ (mergeProvenance_perm e i)), dedupBy_keys, map_app. set_solver.
Qed.

Lemma provenanceAddsNew_false e i :
  provenanceAddsNew e i = false <->
  forall k, k ∈ map provenanceMergeKey i -> k ∈ map provenanceMergeKey e.
Proof.
  unfold provenanceAddsNew. induction i as [|p i IH]; simpl; [set_solver|].
  rewrite orb_false_iff, IH, negb_false_iff, bool_decide_eq_true. set_solver.
Qed.

Lemma mergeProvenance_noop e i :
  provenance_wf e -> provenanceAddsNew e i = false -> mergeProvenance e i = e.
Proof.
  intros [Ho Hn] Hk. rewrite provenanceAddsNew_false in Hk. unfold mergeProvenance, normalizeProvenance.
  rewrite dedupBy_app, dedupBy_id, dedupBy_all, app_nil_r; [by apply sortStable_id|..];
    set_solver.
Qed.

Lemma filter_replaceSlots {A} (key : A -> string) e i :
  List.filter (fun x => negb (bool_decide (key x ∈ map key i))) (replaceSlots key e i) =
  List.filter (fun x => negb (bool_decide (key x ∈ map key i))) e.
Proof.
  unfold replaceSlots. rewrite List.filter_app.
  replace (List.filter _ i) with (@nil A).
  - rewrite app_nil_r. induction e as [|x e IH]; simpl; [done|].
    destruct (negb _) eqn:E; simpl; [by rewrite E, IH|done].
  - assert (forall l, (forall x, x ∈ l -> key x ∈ map key i) ->
      [] = List.filter (fun x => negb (bool_decide (key x ∈ map key i))) l) as Hall.
    { induction l as [|x l IH]; intros Hl; simpl; [done|].
      rewrite bool_decide_true by (apply Hl; left). simpl. apply IH. intros. apply Hl. by right. }
    apply Hall. intros x Hx. apply list_elem_of_In, in_map. by apply list_elem_of_In.
Qed.

(** Replacing the same slots again changes nothing, ordering included. *)
Lemma replaceSlots_idemp {A} (key : A -> string) (less : A -> A -> bool) `{!WeakLess less} e i :
  sortStable less (replaceSlots key (sortStable less (replaceSlots key e i)) i) =
  sortStable less (replaceSlots key e i).
Proof.
  unfold replaceSlots at 1.
  rewrite (sort_filter less), filter_replaceSlots, (sort_app_sorted less). done.
Qed.

(** ** Properties *)

(** Merging provenance never loses or rewrites history.  The merged list is
    ordered with one entry per (source, name, id, version) key, it has exactly
    the keys of both sides, and where the existing side already had a key its
    entry is kept unchanged. *)
Theorem mergeProvenance_correct (e i : list Provenance) :
  provenance_wf (mergeProvenance e i) /\
  (forall k, k ∈ map provenanceMergeKey (mergeProvenance e i) <->
     k ∈ map provenanceMergeKey e \/ k ∈ map provenanceMergeKey i) /\
  (NoDup (map provenanceMergeKey e) -> forall p, p ∈ e -> p ∈ mergeProvenance e i).
Proof.
  split; [apply mergeProvenance_wf|]. split; [apply mergeProvenance_keys|].
  intros Hn p Hp. rewrite mergeProvenance_perm, dedupBy_app, elem_of_app. left.
  rewrite dedupBy_id; [done|done|set_solver].
Qed.

(** The no-op test of [AttachProvenance] is exact: on a stored (ordered,
    duplicate-free) provenance list, [provenanceAddsNew] is false if and only
    if merging would give the same list back. *)
Theorem provenanceAddsNew_exact (e i : list Provenance) :
  provenance_wf e -> provenanceAddsNew e i = false <-> mergeProvenance e i = e.
Proof.
  intros Hwf. split; [by apply mergeProvenance_noop|]. intros Heq.
  apply provenanceAddsNew_false. intros k Hk. rewrite <- Heq. apply mergeProvenance_keys. by right.
Qed.

Lemma provenanceAddsNew_exact_witness :
  let p := MkProvenance 0 ∅ ∅ "inbox" "gmail" "m1" "" [] in
  let q := MkProvenance 5 ∅ ∅ "inbox" "gmail" "m1" "" [] in
  provenance_wf [p] /\ (provenanceAddsNew [p] [q] = false <-> mergeProvenance [p] [q] = [p]).
Proof.
  intros p q. assert (provenance_wf [p]) as Hwf by (repeat constructor; set_solver).
  split; [exact Hwf|]. apply (provenanceAddsNew_exact [p] [q] Hwf).
Defined.

(** Re-putting an object is idempotent on its manifest: merging the same
    incoming manifest twice gives the roles, provenance, relationships and
    parts that merging it once gives. *)
Theorem mergeManifest_idempotent (t1 t2 : Time) (m i : Manifest) :
  let once := mergeManifest t1 m i in
  let twice := mergeManifest t2 once i in
  mContentRoles twice = mContentRoles once /\ mProvenance twice = mProvenance once /\
  mRelationships twice = mRelationships once /\ mCompound twice = mCompound once.
Proof.
  simpl. split; [apply uniqueStrings_merge|]. split.
  - apply mergeProvenance_noop; [apply mergeProvenance_wf|].
    apply provenanceAddsNew_false. intros k Hk. apply mergeProvenance_keys. by right.
  - split; [by apply (replaceSlots_idemp relationshipMergeKey relationshipLess)|].
    f_equal; [by apply (replaceSlots_idemp compoundPartSlotKey partLess)|].
    by destruct (cIsCompound (mCompound m)), (cIsCompound (mCompound i)).
Qed.
