(* ===== verification/Meta.v ===== *)
(** * FILESTORE state and metadata access: [filestore/pebblestore.go],
    [filestore/commit_batch.go]

    [Ext] collects the code outside the repository as parameters: the Pebble
    key-value store, BLAKE3, SHA-256, zstd and the JSON encoder, with the
    documented behaviour the code relies on in [ExtLaws].  [Store] is the state
    of a [FilesystemStore]; operations run in a state-and-error monad [M] whose
    environment injects I/O faults and clock advances, so a theorem about an
    operation covers every failure point.  A fault stops an operation right
    before the faulty primitive, which is also where a crash would stop it. *)

From stdpp Require Import options.
From S2P Require Import Prelude GoLib Contracts Lru.

(** ** Records kept in the metadata store *)

Record chunkIndexEntry := MkChunkEntry {
  ceUpdatedAt : Time; ceChunkHash : string; ceDictID : string; ceDictFamily : string;
  cePackID : N; ceOffset : Z; ceLength : Z }.

Record objectRecipeEntry := MkRecipe {
  reUpdatedAt : Time; reDigest : ObjectDigest; reChunkHashes : list string; reContentBytes : Z }.

Record packedObjectAnnotationEntry := MkAnnEntry {
  anUpdatedAt : Time; anInline : option Annotation; anDigest : ObjectDigest;
  anKind : string; anAnalyzerName : string; anExternalDigest : ObjectDigest }.

Record sourceObjectIndexEntry := MkSourceIndex {
  siSourceObject : SourceObjectRef; siObjectDigest : ObjectDigest; siUpdatedAt : Time }.

Record packedSourceAliasEntry := MkAlias {
  saSourceKind : string; saSourceName : string; saExternalID : string;
  saDigest : ObjectDigest; saUpdatedAt : Time }.

Record compoundParentEdge := MkEdge {
  edParentDigest : ObjectDigest; edRole : string; edUpdatedAt : Time }.

Record packedCompoundParentIndexEntry := MkParents {
  cpiChildDigest : ObjectDigest; cpiParents : list compoundParentEdge; cpiUpdatedAt : Time }.

Record recoverySidecar := MkRecovery {
  rsSchemaVersion : string; rsDigest : string; rsObjectID : string; rsIdentityStrategy : string;
  rsSourceHint : string; rsMediaType : string; rsUncompressedSize : Z; rsCompressedSize : Z;
  rsUncompressedBlake3 : string; rsUncompressedSHA256 : string;
  rsCompressedBlake3 : string; rsCompressedSHA256 : string;
  rsCompression : string; rsCreatedAt : Time; rsFilestoreVersion : string }.

Record packedRecoveryEntry := MkRecEntry {
  prDigest : ObjectDigest; prRecovery : recoverySidecar; prUpdatedAt : Time }.

Record projectionChangeEntry := MkChange {
  pcKey : string; pcDigest : ObjectDigest; pcChangedAt : Time }.

(** A stored document.  Values are kept as the record they encode; reading a
    key as another record type is a decode error. *)
Inductive Value :=
  | VChunk (e : chunkIndexEntry)
  | VRecipe (e : objectRecipeEntry)
  | VManifest (m : Manifest)
  | VAnnotation (e : packedObjectAnnotationEntry)
  | VSource (e : sourceObjectIndexEntry)
  | VAlias (e : packedSourceAliasEntry)
  | VParents (e : packedCompoundParentIndexEntry)
  | VRecovery (e : packedRecoveryEntry)
  | VClaim (c : SourceIngestClaim)
  | VChange (e : projectionChangeEntry).

Definition asChunk v := match v with VChunk e => Some e | _ => None end.
Definition asRecipe v := match v with VRecipe e => Some e | _ => None end.
Definition asManifest v := match v with VManifest e => Some e | _ => None end.
Definition asAnnotation v := match v with VAnnotation e => Some e | _ => None end.
Definition asSource v := match v with VSource e => Some e | _ => None end.
Definition asAlias v := match v with VAlias e => Some e | _ => None end.
Definition asParents v := match v with VParents e => Some e | _ => None end.
Definition asRecovery v := match v with VRecovery e => Some e | _ => None end.
Definition asClaim v := match v with VClaim e => Some e | _ => None end.
Definition asChange v := match v with VChange e => Some e | _ => None end.

(** ** Key ranges *)

(** The loop of [prefixUpperBound], on the reversed bytes of the prefix. *)
Fixpoint upperBoundLoop (l : list Ascii.ascii) : option (list Ascii.ascii) :=
  match l with
  | [] => None
  | c :: r =>
      if bool_decide (Ascii.N_of_ascii c <> 255%N)
      then Some (Ascii.ascii_of_N (Ascii.N_of_ascii c + 1) :: r)
      else upperBoundLoop r
  end.

Definition prefixUpperBound (prefix : string) : option string :=
  l ← upperBoundLoop (rev (str_bytes prefix)); Some (bytes_str (rev l)).

(** [lower <= k < upper], an absent upper bound being infinite. *)
Definition inRange (lower : string) (upper : option string) (k : string) : bool :=
  negb (str_ltb k lower) && match upper with None => true | Some u => str_ltb k u end.

(** ** External code *)

(** One entry of a Pebble batch. *)
Inductive write := WSet (k : string) (v : Value) | WDel (k : string).

(** The effect of a batch on one key: the last write to it wins. *)
Fixpoint writesAt (ws : list write) (k : string) (old : option Value) : option Value :=
  match ws with
  | [] => old
  | WSet k' v :: r => writesAt r k (if bool_decide (k' = k) then Some v else old)
  | WDel k' :: r => writesAt r k (if bool_decide (k' = k) then None else old)
  end.

Class Ext := {
  (** github.com/cockroachdb/pebble: a committed state, point lookups, an
      atomic batch, and an ordered range scan; a snapshot is a committed state. *)
  DB : Type;
  dbGet : DB -> string -> option Value;
  dbApply : list write -> DB -> DB;
  dbRange : DB -> string -> option string -> list (string * Value);
  (** hex digests: github.com/zeebo/blake3, crypto/sha256. *)
  blake3 : bytes -> string;
  sha256 : bytes -> string;
  (** github.com/klauspost/compress/zstd, with an optional raw dictionary
      (id, content). *)
  zEncode : option (N * bytes) -> bytes -> bytes;
  zDecode : option (N * bytes) -> bytes -> option bytes;
  (** [mime.ParseMediaType], its media type; [None] on an error. *)
  parseMediaType : string -> option string;
  (** [Time.Format(time.RFC3339Nano)] on UTC times. *)
  formatTime : Time -> string;
  (** encoding/json on annotations and compound envelopes. *)
  annotationJSON : Annotation -> bytes;
  parseAnnotation : bytes -> option Annotation;
  envelopeJSON : string -> string -> list Provenance -> list CompoundPart -> bytes }.

(** Documented behaviour of the external code. *)
Class ExtLaws (E : Ext) : Prop := {
  dbGet_apply : forall ws d k, dbGet (dbApply ws d) k = writesAt ws k (dbGet d k);
  dbRange_elem : forall d lo up k v,
    (k, v) ∈ dbRange d lo up <-> dbGet d k = Some v /\ inRange lo up k = true;
  dbRange_nodup : forall d lo up, NoDup (dbRange d lo up).*1;
  dbRange_ordered : forall d lo up, ordered str_ltb (dbRange d lo up).*1;
  blake3_digest : forall b, looksLikeDigest (blake3 b) = true;
  sha256_digest : forall b, looksLikeDigest (sha256 b) = true;
  zDecode_encode : forall dict b, zDecode dict (zEncode dict b) = Some b }.

(** ** State *)

(** [chunk-packs/<id>.pack]: its bytes, how many of them are durable, and
    whether its directory entry is. *)
Record pack := MkPack { pkData : bytes; pkSynced : nat; pkLinked : bool }.

(** [dictionaryRegistryRecord] and the states of [dictionaries/registry.json]
    the code distinguishes: blank text, text that does not parse, a registry. *)
Record dictionaryRegistryRecord := MkRegRecord {
  rrID : string; rrFamily : string; rrVersion : string; rrFilename : string;
  rrDescription : string; rrInstalledAt : Time; rrSamples : Z }.

Inductive registryFile :=
  | RegBlank
  | RegBad
  | Reg (version : Z) (records : gmap string dictionaryRegistryRecord).

(** [dictionaries/current-by-family]: absent, a plain file, or a directory of
    marker files. *)
Inductive markerDir := NoDir | NotDir | Dir (files : gmap string string).

(** The dictionary files and [dictionaryCache].  A cached codec is the raw
    dictionary it was built with. *)
Record DictState := MkDicts {
  dsFiles : gmap string bytes;              (* dictionaries/dicts/<id>.dict *)
  dsLegacy : gmap string bytes;             (* dictionaries/<id>.dict *)
  dsRegistry : option registryFile;
  dsCurrent : option string;                (* dictionaries/current *)
  dsMarkers : markerDir;
  dsBootstrapped : bool;
  dsLoaded : bool;
  dsActive : gmap string (string * bytes);
  dsEncoders : gmap string (option (N * bytes));
  dsDecoders : gmap string (option (N * bytes)) }.

(** Files of the layout before the metadata store, still read as a fallback:
    by key or digest, [None] a file that does not parse. *)
Record legacyFiles := MkLegacy {
  lgLocks : gmap string (option SourceIngestClaim);        (* source-locks/ *)
  lgIndex : gmap string (option sourceObjectIndexEntry);   (* source-index/ *)
  lgParents : gmap string (option (ObjectDigest * list compoundParentEdge)); (* compound-parent-index/ *)
  lgBlobs : gmap string (option bytes) }.                  (* objects/blake3/.../blob.zstd *)

(** What the environment does to one I/O primitive: it succeeds, it fails (a
    cancelled context included), or a write stops after some bytes.  That a
    file does not exist is never injected: it follows from the state. *)
Inductive fault := FOk | FErr (msg : string) | FShort (n : nat) (msg : string).

Inductive res (A : Type) := Ok (a : A) | Err (e : GoError) | Panic.
Arguments Ok {A} _.
Arguments Err {A} _.
Arguments Panic {A}.

Section state.
Context {E : Ext}.

Record Store := MkStore {
  db : DB;
  packs : gmap N pack;
  packsDir : bool;                          (* chunk-packs/ exists *)
  activePack : option (N * Z);              (* activePackKnown, -ID, -Size *)
  dicts : DictState;
  chunkCache : SizedLru.SizedLRU string;
  legacy : legacyFiles;
  clock : Time;
  ticks : list N;                           (* future clock advances *)
  faults : list fault }.                    (* future I/O outcomes *)

Definition set_db (d : DB) (s : Store) : Store :=
  MkStore d (packs s) (packsDir s) (activePack s) (dicts s) (chunkCache s)
    (legacy s) (clock s) (ticks s) (faults s).
Definition set_packs (p : gmap N pack) (s : Store) : Store :=
  MkStore (db s) p (packsDir s) (activePack s) (dicts s) (chunkCache s)
    (legacy s) (clock s) (ticks s) (faults s).
Definition set_packsDir (b : bool) (s : Store) : Store :=
  MkStore (db s) (packs s) b (activePack s) (dicts s) (chunkCache s)
    (legacy s) (clock s) (ticks s) (faults s).
Definition set_activePack (a : option (N * Z)) (s : Store) : Store :=
  MkStore (db s) (packs s) (packsDir s) a (dicts s) (chunkCache s)
    (legacy s) (clock s) (ticks s) (faults s).
Definition set_dicts (x : DictState) (s : Store) : Store :=
  MkStore (db s) (packs s) (packsDir s) (activePack s) x (chunkCache s)
    (legacy s) (clock s) (ticks s) (faults s).
Definition set_chunkCache (c : SizedLru.SizedLRU string) (s : Store) : Store :=
  MkStore (db s) (packs s) (packsDir s) (activePack s) (dicts s) c
    (legacy s) (clock s) (ticks s) (faults s).
Definition set_legacy (l : legacyFiles) (s : Store) : Store :=
  MkStore (db s) (packs s) (packsDir s) (activePack s) (dicts s) (chunkCache s)
    l (clock s) (ticks s) (faults s).
Definition set_clock (t : Time) (ts : list N) (s : Store) : Store :=
  MkStore (db s) (packs s) (packsDir s) (activePack s) (dicts s) (chunkCache s)
    (legacy s) t ts (faults s).
Definition set_faults (f : list fault) (s : Store) : Store :=
  MkStore (db s) (packs s) (packsDir s) (activePack s) (dicts s) (chunkCache s)
    (legacy s) (clock s) (ticks s) f.

(** ** The monad of store operations *)

Definition M (A : Type) : Type := Store -> res A * Store.

#[global] Instance M_ret : MRet M := fun A a s => (Ok a, s).
#[global] Instance M_bind : MBind M := fun A B f m s =>
  match m s with
  | (Ok a, s') => f a s'
  | (Err e, s') => (Err e, s')
  | (Panic, s') => (Panic, s')
  end.

Definition fail {A} (e : GoError) : M A := fun s => (Err e, s).
Definition gets {A} (f : Store -> A) : M A := fun s => (Ok (f s), s).
Definition modify (f : Store -> Store) : M unit := fun s => (Ok tt, f s).

(** [if err := ...; err != nil { return err }]. *)
Definition check (e : option GoError) : M unit :=
  match e with None => mret tt | Some e => fail e end.

(** The caller sees the error as a value and goes on. *)
Definition try {A} (m : M A) : M (GoError + A) := fun s =>
  match m s with
  | (Ok a, s') => (Ok (inr a), s')
  | (Err e, s') => (Ok (inl e), s')
  | (Panic, s') => (Panic, s')
  end.

(** A panicking operation on a pure component. *)
Definition liftPanic {A} (o : option A) : M A := fun s =>
  match o with Some a => (Ok a, s) | None => (Panic, s) end.

(** One I/O primitive's outcome. *)
Definition io : M unit := fun s =>
  match faults s with
  | [] => (Ok tt, s)
  | FOk :: r => (Ok tt, set_faults r s)
  | FErr e :: r | FShort _ e :: r => (Err (ErrMsg e), set_faults r s)
  end.

(** [n] primitives in a row. *)
Fixpoint ios (n : nat) : M unit :=
  match n with O => mret tt | S n => _ ← io; ios n end.

(** [ctx.Err()]: a cancelled context is one more injected failure. *)
Definition ctxErr : M unit := io.

(** [time.Now().UTC()]: the clock never goes back. *)
Definition now : M Time := fun s =>
  match ticks s with
  | [] => (Ok (clock s), s)
  | d :: r => let t := (clock s + Z.of_N d)%Z in (Ok t, set_clock t r s)
  end.

(** A loop whose body may return early with an error. *)
Fixpoint forM {A B} (l : list A) (acc : B) (f : B -> A -> M B) : M B :=
  match l with
  | [] => mret acc
  | x :: r => acc' ← f acc x; forM r acc' f
  end.

(** ** Metadata access *)

(** [metaGet]: absent is [None]; another document type does not decode. *)
Definition metaGet {T} (as_ : Value -> option T) (key : string) : M (option T) :=
  _ ← io;
  d ← gets db;
  match dbGet d key with
  | None => mret None
  | Some v => match as_ v with
              | Some x => mret (Some x)
              | None => fail (ErrMsg "decode metadata record")
              end
  end.

Definition metaApply (ws : list write) : M unit :=
  _ ← io; modify (fun s => set_db (dbApply ws (db s)) s).

Definition metaPut (key : string) (v : Value) : M unit := metaApply [WSet key v].
Definition metaDelete (key : string) : M unit := metaApply [WDel key].

(** Written without an fsync: visible at once, not durable. *)
Definition metaPutNoSync (key : string) (v : Value) : M unit := metaApply [WSet key v].
Definition metaDeleteNoSync (key : string) : M unit := metaApply [WDel key].

Definition metaDeleteKeys (keys : list string) : M unit := metaApply (map WDel keys).

Definition metaSnapshot : M DB := gets db.

Definition snapshotHas (d : DB) (key : string) : M bool :=
  _ ← io; mret (bool_decide (is_Some (dbGet d key))).

Definition metaHas (key : string) : M bool := d ← gets db; snapshotHas d key.

(** [metaIterRange] on a committed state: the callback folds over the range
    (Pebble iterators do not see writes made during the iteration). *)
Definition iterRange {B} (d : DB) (lower : string) (upper : option string) (acc : B)
    (f : B -> string * Value -> M B) : M B :=
  _ ← io; acc' ← forM (dbRange d lower upper) acc f; _ ← io; mret acc'.

Definition snapshotIterPrefix {B} (d : DB) (prefix : string) (acc : B)
    (f : B -> string * Value -> M B) : M B :=
  iterRange d prefix (prefixUpperBound prefix) acc f.

Definition metaIterPrefix {B} (prefix : string) (acc : B) (f : B -> string * Value -> M B) : M B :=
  d ← gets db; snapshotIterPrefix d prefix acc f.

(** [json.Unmarshal] of an iterated value. *)
Definition unmarshal {T} (as_ : Value -> option T) (v : Value) : M T :=
  match as_ v with Some x => mret x | None => fail (ErrMsg "decode metadata record") end.

(** ** Commit batches *)

Record commitBatch := MkBatch {
  cbWrites : list write;        (* pebble.Batch *)
  cbTouched : gset N;           (* touchedPacks *)
  cbSeen : gset string }.       (* seen *)

Definition newCommitBatch : commitBatch := MkBatch [] ∅ ∅.

Definition cbSet (key : string) (v : Value) (cb : commitBatch) : commitBatch :=
  MkBatch (cbWrites cb ++ [WSet key v]) (cbTouched cb) (cbSeen cb).
Definition cbDelete (key : string) (cb : commitBatch) : commitBatch :=
  MkBatch (cbWrites cb ++ [WDel key]) (cbTouched cb) (cbSeen cb).

(** The [metaSink] interface and its two implementations. *)
Inductive metaSink := SyncSink | BatchSink (cb : commitBatch).

Definition sinkSet (sink : metaSink) (key : string) (v : Value) : M metaSink :=
  match sink with
  | SyncSink => _ ← metaPut key v; mret SyncSink
  | BatchSink cb => mret (BatchSink (cbSet key v cb))
  end.

Definition sinkDelete (sink : metaSink) (key : string) : M metaSink :=
  match sink with
  | SyncSink => _ ← metaDelete key; mret SyncSink
  | BatchSink cb => mret (BatchSink (cbDelete key cb))
  end.

End state.
Arguments M {E} A.

(** ** Keys *)

Definition chunkIndexKey (h : string) : string := "c/" +:+ h.
Definition objectRecipeKey (d : ObjectDigest) : string := "r/" +:+ d.
Definition manifestKey (d : ObjectDigest) : string := "m/" +:+ d.
Definition recoveryKey (d : ObjectDigest) : string := "rec/" +:+ d.
Definition compoundParentKey (d : ObjectDigest) : string := "cp/" +:+ d.
Definition annotationKey (d : ObjectDigest) (kind analyzer : string) : string :=
  "a/" +:+ d +:+ "/" +:+ kind +:+ "/" +:+ analyzer.
Definition annotationPrefix (d : ObjectDigest) : string := "a/" +:+ d +:+ "/".

(** ** Lemmas on key ranges *)

Lemma upperBoundLoop_snoc l c :
  upperBoundLoop (l ++ [c]) =
  match upperBoundLoop l with
  | Some x => Some (x ++ [c])
  | None => if bool_decide (Ascii.N_of_ascii c <> 255%N)
            then Some [Ascii.ascii_of_N (Ascii.N_of_ascii c + 1)] else None
  end.
Proof. induction l as [|d l IH]; simpl; [done|]. destruct (bool_decide (Ascii.N_of_ascii d <> 255%N)); [done|]. apply IH. Qed.

Lemma prefixUpperBound_cons c r :
  prefixUpperBound (String c r) =
  match prefixUpperBound r with
  | Some u => Some (String c u)
  | None => if bool_decide (Ascii.N_of_ascii c <> 255%N)
            then Some (String (Ascii.ascii_of_N (Ascii.N_of_ascii c + 1)) "") else None
  end.
Proof.
  unfold prefixUpperBound. simpl. rewrite upperBoundLoop_snoc.
  destruct (upperBoundLoop (rev (str_bytes r))) as [x|]; simpl; [by rewrite rev_app_distr|].
  by case_bool_decide.
Qed.

Lemma N_of_ascii_lt c : (Ascii.N_of_ascii c < 256)%N.
Proof. apply Ascii.N_ascii_bounded. Qed.

Lemma inRange_cons c d r k' up :
  inRange (String c r) up (String d k') =
  negb (ascii_ltb d c || (Ascii.eqb d c && str_ltb k' r)) &&
  match up with None => true | Some u => str_ltb (String d k') u end.
Proof. done. Qed.

Lemma prefix_cons c d r k' :
  HasPrefix (String d k') (String c r) = Ascii.eqb d c && HasPrefix k' r.
Proof.
  unfold HasPrefix. simpl. destruct (Ascii.ascii_dec c d) as [->|Hn].
  - by rewrite Ascii.eqb_refl.
  - destruct (Ascii.eqb_spec d c); [congruence|done].
Qed.

(** The scanned range is exactly the set of keys with the prefix. *)
Lemma inRange_prefix p k : inRange p (prefixUpperBound p) k = HasPrefix k p.
Proof.
  revert k. induction p as [|c r IH]; intros k; [by destruct k|].
  destruct k as [|d k']; [done|]. rewrite prefixUpperBound_cons, inRange_cons, prefix_cons.
  destruct (Ascii.eqb_spec d c) as [->|Hne].
  - assert (ascii_ltb c c = false) as Hcc by (unfold ascii_ltb; apply N.ltb_irrefl).
    rewrite Hcc. simpl. rewrite <- IH. unfold inRange. f_equal.
    destruct (prefixUpperBound r) as [u|]; simpl; [by rewrite Hcc, Ascii.eqb_refl|].
    case_bool_decide as H255; simpl; [|done]. unfold ascii_ltb.
    rewrite Ascii.N_ascii_embedding by (pose proof (N_of_ascii_lt c); lia).
    destruct (N.ltb_spec (Ascii.N_of_ascii c) (Ascii.N_of_ascii c + 1)); [done|lia].
  - destruct (ascii_ltb d c) eqn:Hdc; simpl; [done|].
    destruct (prefixUpperBound r) as [u|].
    + simpl. rewrite Hdc. destruct (Ascii.eqb_spec d c); [done|]. done.
    + assert (ascii_ltb c d = true) as Hlt.
      { destruct (ascii_ltb c d) eqn:E; [done|]. by pose proof (ascii_total _ _ Hdc E). }
      unfold ascii_ltb in Hlt. apply N.ltb_lt in Hlt. pose proof (N_of_ascii_lt d).
      case_bool_decide as H255; [|lia]. simpl. unfold ascii_ltb.
      rewrite Ascii.N_ascii_embedding by lia.
      destruct (N.ltb_spec (Ascii.N_of_ascii d) (Ascii.N_of_ascii c + 1)); [lia|]. simpl.
      rewrite andb_false_iff. right. by destruct k'.
Qed.

Lemma HasPrefix_spec k p : HasPrefix k p = true <-> exists r, k = p +:+ r.
Proof.
  revert k. induction p as [|c p IH]; intros k.
  - split; [by exists k|]. by destruct k.
  - destruct k as [|d k]; [split; [done|by intros [r ?]]|].
    rewrite prefix_cons, andb_true_iff, Ascii.eqb_eq, IH. split.
    + intros [-> [r ->]]. by exists r.
    + intros [r [= -> ->]]. eauto.
Qed.

(** A prefix scan visits exactly the keys with that prefix: for every
    prefix (bytes 0xff included) the half-open range from the prefix to
    [prefixUpperBound prefix] contains a key iff the key starts with it. *)
Theorem prefixUpperBound_exact (p k : string) :
  inRange p (prefixUpperBound p) k = true <-> exists r, k = p +:+ r.
Proof. rewrite inRange_prefix. apply HasPrefix_spec. Qed.

Lemma HasPrefix_app p r : HasPrefix (p +:+ r) p = true.
Proof. apply HasPrefix_spec. by exists r. Qed.

(** ** Lemmas on batches *)

Lemma writesAt_app ws1 ws2 k o : writesAt (ws1 ++ ws2) k o = writesAt ws2 k (writesAt ws1 k o).
Proof. revert o. induction ws1 as [|[k' v|k'] ws1 IH]; intros o; simpl; auto. Qed.

Lemma writesAt_dels keys k o :
  writesAt (map WDel keys) k o = if bool_decide (k ∈ keys) then None else o.
Proof.
  revert o. induction keys as [|k' keys IH]; intros o; cbn [map writesAt].
  - rewrite bool_decide_false; [done|]. by intros ?%elem_of_nil.
  - rewrite IH. rewrite (bool_decide_ext (k ∈ k' :: keys) _ (elem_of_cons _ _ _)).
    repeat case_bool_decide; naive_solver.
Qed.

(** ** Lemmas on keys *)

Lemma str_app_inj_l (p a b : string) : p +:+ a = p +:+ b -> a = b.
Proof. induction p; simpl; [done|]. intros [=]. auto. Qed.

Lemma chunkIndexKey_inj a b : chunkIndexKey a = chunkIndexKey b -> a = b.
Proof. apply str_app_inj_l. Qed.

(** Keys of different namespaces differ; [simplify_keys] discharges it. *)
Ltac simplify_keys :=
  unfold chunkIndexKey, objectRecipeKey, manifestKey, recoveryKey, compoundParentKey, annotationKey,
    annotationPrefix in *; simpl in *; simplify_eq.

Lemma substring_all r : String.substring 0 (String.length r) r = r.
Proof. induction r as [|c r IH]; simpl; [done|]. by rewrite IH. Qed.

(** [strings.TrimPrefix(key, p)] undoes the prefixing. *)
Lemma TrimPrefix_app p r : TrimPrefix (p +:+ r) p = r.
Proof.
  unfold TrimPrefix. assert (String.prefix p (p +:+ r) = true) as ->.
  { apply (proj2 (HasPrefix_spec _ _)). eauto. }
  replace (String.length (p +:+ r) - String.length p) with (String.length r).
  - induction p as [|c p IH]; simpl; [apply substring_all|done].
  - induction p as [|c p IH]; [change (String.length r = String.length r - 0); lia|exact IH].
Qed.

(** ** Reasoning about store operations

    [runs m s Inv R P]: from [s], [m] does not panic; wherever it stops, the
    invariant [Inv] holds and the relation [R] links the start to the stop; an
    error only comes from an injected fault; a normal return satisfies [P]. *)

Section logic.
Context {E : Ext}.

Definition runs {A} (m : M A) (s : Store) (Inv : Store -> Prop) (R : Store -> Store -> Prop)
    (P : A -> Store -> Prop) : Prop :=
  match m s with
  | (Ok a, s') => Inv s' /\ R s s' /\ P a s'
  | (Err _, s') => Inv s' /\ R s s' /\ faults s <> []
  | (Panic, _) => False
  end.

(** What a relation between the states of an operation has to satisfy. *)
Class StoreRel (R : Store -> Store -> Prop) : Prop := {
  srel_refl :: Reflexive R;
  srel_trans :: Transitive R;
  srel_faults : forall s s', R s s' -> faults s = [] -> faults s' = [] }.

(** The persistent and in-memory state without the environment. *)
Definition core (s : Store) := (db s, packs s, packsDir s, activePack s, dicts s, chunkCache s, legacy s).

(** Only the environment moved: faults were consumed, time passed. *)
Record same (s s' : Store) : Prop := {
  same_core : core s' = core s;
  same_clock : (clock s <= clock s')%Z;
  same_faults : faults s = [] -> faults s' = [] }.

#[export] Instance same_rel : StoreRel same.
Proof.
  split.
  - intros s. split; [done|lia|done].
  - intros a b c [H1 H2 H3] [H4 H5 H6]. split; [congruence|lia|auto].
  - by intros s s' [].
Qed.

(** An invariant or relation that does not look at the environment. *)
Class EnvInv (Inv : Store -> Prop) : Prop := env_inv s s' : same s s' -> Inv s -> Inv s'.
Class EnvRel (R : Store -> Store -> Prop) : Prop := env_rel s s' : same s s' -> R s s'.

#[export] Instance same_env : EnvRel same.
Proof. by intros s s'. Qed.

Lemma runs_bind {A B} (m : M A) (f : A -> M B) s Inv R `{!StoreRel R} P Q :
  runs m s Inv R P ->
  (forall a s', Inv s' -> R s s' -> P a s' -> runs (f a) s' Inv R Q) ->
  runs (m ≫= f) s Inv R Q.
Proof.
  unfold runs, mbind, M_bind. destruct (m s) as [[a|e|] s1]; [|done|done].
  intros (HI & HR & HP) Hf. specialize (Hf a s1 HI HR HP).
  destruct (f a s1) as [[b|e|] s2]; [..|done]; destruct Hf as (? & ? & HQ).
  - split; [done|]. split; [by etrans|done].
  - split; [done|]. split; [by etrans|]. intros Hf. apply HQ. by eapply srel_faults.
Qed.

Lemma run_eq {A} (m : M A) s r : (m s).1 = r -> m s = (r, (m s).2).
Proof. intros <-. apply surjective_pairing. Qed.

Lemma bind_ok {A B} (m : M A) (f : A -> M B) s a s' : m s = (Ok a, s') -> (m ≫= f) s = f a s'.
Proof. unfold mbind, M_bind. by intros ->. Qed.

Lemma bind_err {A B} (m : M A) (f : A -> M B) s e s' : m s = (Err e, s') -> (m ≫= f) s = (Err e, s').
Proof. unfold mbind, M_bind. by intros ->. Qed.

Lemma runs_mono {A} (m : M A) s (Inv Inv' : Store -> Prop) (R R' : Store -> Store -> Prop) (P Q : A -> Store -> Prop) :
  runs m s Inv R P -> (forall s', Inv s' -> R s s' -> Inv' s' /\ R' s s') ->
  (forall a s', Inv s' -> R s s' -> P a s' -> Q a s') -> runs m s Inv' R' Q.
Proof.
  unfold runs. destruct (m s) as [[a|e|] s1]; intros H H1 H2; [..|done];
    destruct H as (? & ? & ?); destruct (H1 s1); auto.
Qed.

Lemma runs_post {A} (m : M A) s Inv R (P Q : A -> Store -> Prop) :
  runs m s Inv R P -> (forall a s', Inv s' -> R s s' -> P a s' -> Q a s') -> runs m s Inv R Q.
Proof. intros H HQ. eapply runs_mono; [exact H|auto|exact HQ]. Qed.

Lemma runs_ret {A} (a : A) s (Inv : Store -> Prop) R `{!StoreRel R} (P : A -> Store -> Prop) :
  Inv s -> P a s -> runs (mret a) s Inv R P.
Proof. intros. unfold runs. simpl. split; [done|]. split; [reflexivity|done]. Qed.

Lemma runs_gets {A} (f : Store -> A) s (Inv : Store -> Prop) R `{!StoreRel R} :
  Inv s -> runs (gets f) s Inv R (fun a s' => s' = s /\ a = f s).
Proof. intros. unfold runs. simpl. split; [done|]. split; [reflexivity|done]. Qed.

Lemma runs_modify (f : Store -> Store) s (Inv : Store -> Prop) (R : Store -> Store -> Prop) :
  Inv (f s) -> R s (f s) -> runs (modify f) s Inv R (fun _ s' => s' = f s).
Proof. done. Qed.

Section env.
Context (Inv : Store -> Prop) (R : Store -> Store -> Prop) `{!EnvInv Inv, !EnvRel R}.

Lemma runs_same {A} (m : M A) s (P : A -> Store -> Prop) :
  Inv s -> runs m s (fun _ => True) same P -> runs m s Inv R (fun a s' => same s s' /\ P a s').
Proof using All.
  intros HI. unfold runs. destruct (m s) as [[a|e|] s1]; [..|done];
    intros (_ & Hs & ?); pose proof (env_inv _ _ Hs HI); pose proof (env_rel _ _ Hs); auto.
Qed.

Lemma same_io s : same s (set_faults (tail (faults s)) s).
Proof. split; [done|simpl; lia|]. simpl. by intros ->. Qed.

Lemma io_same s : runs io s (fun _ => True) same (fun _ _ => True).
Proof.
  unfold runs, io. pose proof (same_io s) as H. destruct (faults s) as [|[|e|n e] r] eqn:Hf.
  - split; [done|]. split; [reflexivity|done].
  - auto.
  - split; [done|]. split; [done|]. done.
  - split; [done|]. split; [done|]. done.
Qed.

Lemma runs_io s : Inv s -> runs io s Inv R (fun _ s' => same s s').
Proof using All.
  intros HI. eapply runs_post; [eapply runs_same; [done|apply io_same]|]. naive_solver.
Qed.

Lemma runs_ios n s : Inv s -> runs (ios n) s Inv R (fun _ s' => same s s').
Proof using All.
  intros HI. eapply runs_post; [apply (runs_same _ s (fun _ _ => True)); [done|]|naive_solver].
  revert s HI. induction n as [|n IH]; intros s HI; simpl.
  - by apply (runs_ret tt s (fun _ => True) same (fun _ _ => True)).
  - eapply runs_bind; [apply _|apply io_same|]. intros. apply IH. by eapply env_inv.
Qed.

Lemma runs_now s :
  Inv s -> runs now s Inv R (fun t s' => same s s' /\ t = clock s').
Proof using All.
  intros HI. apply runs_same; [done|]. unfold runs, now. destruct (ticks s) as [|d r].
  - split; [done|]. split; [reflexivity|done].
  - split; [done|]. split; [|done]. split; [done|simpl; lia|done].
Qed.

Lemma same_eq s s' : same s s' ->
  db s' = db s /\ packs s' = packs s /\ packsDir s' = packsDir s /\ activePack s' = activePack s /\
  dicts s' = dicts s /\ chunkCache s' = chunkCache s.
Proof. intros [Hc _ _]. unfold core in Hc. by simplify_eq. Qed.

Lemma same_legacy s s' : same s s' -> legacy s' = legacy s.
Proof. intros [Hc _ _]. unfold core in Hc. by simplify_eq. Qed.

End env.

Lemma metaGet_spec {T} (as_ : Value -> option T) key s Inv R `{!EnvInv Inv, !EnvRel R, !StoreRel R} :
  Inv s -> (forall v, dbGet (db s) key = Some v -> is_Some (as_ v)) ->
  runs (metaGet as_ key) s Inv R (fun r s' => same s s' /\ r = dbGet (db s) key ≫= as_).
Proof.
  intros HI Ht. unfold metaGet. eapply runs_bind; [apply _|by apply (runs_io _ _)|].
  intros [] s1 HI1 _ Hs. change (runs (match dbGet (db s1) key with None => mret None
    | Some v => match as_ v with Some x => mret (Some x) | None => fail (ErrMsg "decode metadata record") end
    end) s1 Inv R (fun r s' => same s s' /\ r = dbGet (db s) key ≫= as_)).
  destruct (same_eq _ _ Hs) as (-> & _). destruct (dbGet (db s) key) as [v|] eqn:Hv; simpl.
  - destruct (Ht v eq_refl) as [x ->]. by refine (runs_ret _ _ _ _ _ _ _).
  - by refine (runs_ret _ _ _ _ _ _ _).
Qed.

Lemma metaHas_spec key s Inv R `{!EnvInv Inv, !EnvRel R, !StoreRel R} :
  Inv s -> runs (metaHas key) s Inv R
    (fun r s' => same s s' /\ r = bool_decide (is_Some (dbGet (db s) key))).
Proof.
  intros HI. unfold metaHas. change (runs (snapshotHas (db s) key) s Inv R (fun r s' => same s s' /\
    r = bool_decide (is_Some (dbGet (db s) key)))). unfold snapshotHas.
  eapply runs_bind; [apply _|by apply (runs_io _ _)|]. intros [] s1 HI1 _ Hs.
  by refine (runs_ret _ _ _ _ _ _ _).
Qed.

Lemma runs_gets_bind {A B} (f : Store -> A) (k : A -> M B) s Inv R P :
  runs (k (f s)) s Inv R P -> runs (gets f ≫= k) s Inv R P.
Proof. done. Qed.

Lemma runs_ret_bind {A B} (a : A) (k : A -> M B) s Inv R P :
  runs (k a) s Inv R P -> runs (mret a ≫= k) s Inv R P.
Proof. done. Qed.

(** A bind whose continuation is known from the first result. *)
Lemma runs_assoc {A B C} (m : M A) (f : A -> M B) (g : B -> M C) s Inv R P :
  runs (m ≫= fun a => f a ≫= g) s Inv R P -> runs ((m ≫= f) ≫= g) s Inv R P.
Proof. unfold runs, mbind, M_bind. by destruct (m s) as [[a|e|] s1]. Qed.

(** Without faults, an operation that [runs] returns normally. *)
Lemma runs_ok {A} (m : M A) s Inv R P : runs m s Inv R P -> faults s = [] ->
  exists a s', m s = (Ok a, s') /\ Inv s' /\ R s s' /\ P a s'.
Proof.
  unfold runs. destruct (m s) as [[a|e|] s']; [intros; eauto|by intros (_ & _ & ?)|done].
Qed.

Lemma runs_check e s (Inv : Store -> Prop) R `{!StoreRel R} :
  Inv s -> e = None -> runs (check e) s Inv R (fun _ s' => s' = s).
Proof. intros HI ->. by refine (runs_ret _ _ _ _ _ _ _). Qed.

Lemma runs_try {A} (m : M A) s Inv R (P : A -> Store -> Prop) :
  runs m s Inv R P ->
  runs (try m) s Inv R (fun r s' => match r with inr a => P a s' | inl _ => faults s <> [] end).
Proof. unfold runs, try. destruct (m s) as [[a|e|] s1]; done. Qed.

(** [runs] without the cause of an error. *)
Definition stops {A} (m : M A) (s : Store) (Inv : Store -> Prop) (R : Store -> Store -> Prop)
    (P : A -> Store -> Prop) : Prop :=
  match m s with
  | (Ok a, s') => Inv s' /\ R s s' /\ P a s'
  | (Err _, s') => Inv s' /\ R s s'
  | (Panic, _) => False
  end.

Lemma runs_stops {A} (m : M A) s Inv R P : runs m s Inv R P -> stops m s Inv R P.
Proof. unfold runs, stops. destruct (m s) as [[a|e|] s']; tauto. Qed.

Lemma stops_bind {A B} (m : M A) (f : A -> M B) s Inv R `{!StoreRel R} P Q :
  stops m s Inv R P ->
  (forall a s', Inv s' -> R s s' -> P a s' -> stops (f a) s' Inv R Q) ->
  stops (m ≫= f) s Inv R Q.
Proof.
  unfold stops, mbind, M_bind. destruct (m s) as [[a|e|] s1]; [|done|done].
  intros (HI & HR & HP) Hf. specialize (Hf a s1 HI HR HP).
  destruct (f a s1) as [[b|e|] s2]; [..|done].
  - destruct Hf as (? & ? & HQ). split; [done|]. split; [by etrans|done].
  - destruct Hf as (? & ?). split; [done|by etrans].
Qed.

Lemma stops_fail {A} e s (Inv : Store -> Prop) R `{!StoreRel R} (P : A -> Store -> Prop) :
  Inv s -> stops (fail e) s Inv R P.
Proof. intros. unfold stops. simpl. split; [done|reflexivity]. Qed.

(** An error that is looked at: once there was a fault, its cause is settled. *)
Lemma runs_try_bind {A B} (m : M A) (k : GoError + A -> M B) s Inv R `{!StoreRel R} P Q :
  runs m s Inv R P ->
  (forall a s', Inv s' -> R s s' -> P a s' -> runs (k (inr a)) s' Inv R Q) ->
  (forall e s', m s = (Err e, s') -> Inv s' -> R s s' -> stops (k (inl e)) s' Inv R Q) ->
  runs (try m ≫= k) s Inv R Q.
Proof.
  unfold runs, stops, try, mbind, M_bind. destruct (m s) as [[a|e|] s1]; [| |done].
  - intros (HI & HR & HP) Hk _. specialize (Hk a s1 HI HR HP).
    destruct (k (inr a) s1) as [[b|e|] s2]; [..|done]; destruct Hk as (? & ? & HQ).
    + split; [done|]. split; [by etrans|done].
    + split; [done|]. split; [by etrans|]. intros Hf. apply HQ. by eapply srel_faults.
  - intros (HI & HR & HF) _ Hk. specialize (Hk e s1 eq_refl HI HR).
    destruct (k (inl e) s1) as [[b|e'|] s2]; [..|done].
    + destruct Hk as (? & ? & ?). split; [done|]. split; [by etrans|done].
    + destruct Hk as (? & ?). split; [done|]. split; [by etrans|done].
Qed.

Lemma runs_forM {A B} (l : list A) (acc : B) (f : B -> A -> M B) s Inv R `{!StoreRel R}
    (P : list A -> B -> Store -> Prop) :
  Inv s -> P [] acc s ->
  (forall done acc x s', done ++ [x] `prefix_of` l -> Inv s' -> R s s' -> P done acc s' ->
    runs (f acc x) s' Inv R (P (done ++ [x]))) ->
  runs (forM l acc f) s Inv R (P l).
Proof.
  intros HI HP Hf.
  cut (forall rest done acc s', l = done ++ rest -> Inv s' -> R s s' -> P done acc s' ->
    runs (forM rest acc f) s' Inv R (P l)).
  { intros H. eapply (H l []); [done..|reflexivity|done]. }
  clear HI HP acc. induction rest as [|x rest IH]; intros done acc s' -> HI HR HP; simpl.
  - rewrite app_nil_r. refine (runs_ret _ _ _ _ _ _ _); [done|]. by rewrite app_nil_r in *.
  - eapply runs_bind; [apply _|apply (Hf done acc x s')|]; [|done..|].
    { exists rest. by rewrite <- app_assoc. }
    intros acc' s1 HI1 HR1 HP1. replace (done ++ x :: rest) with ((done ++ [x]) ++ rest) in * by by rewrite <- app_assoc.
    eapply (IH (done ++ [x])); [done..|by etrans|done].
Qed.

Lemma stops_mono {A} (m : M A) s (Inv : Store -> Prop) (R : Store -> Store -> Prop) (P Q : A -> Store -> Prop) :
  stops m s Inv R P -> (forall a s', Inv s' -> R s s' -> P a s' -> Q a s') -> stops m s Inv R Q.
Proof. unfold stops. destruct (m s) as [[a|e|] s1]; [|done|done]. intros (H1 & H2 & H3) HQ. auto. Qed.

Lemma stops_rel {A} (m : M A) s Inv (R R' : Store -> Store -> Prop) P :
  stops m s Inv R P -> (forall s', R s s' -> R' s s') -> stops m s Inv R' (fun a s' => R s s' /\ P a s').
Proof. unfold stops. destruct (m s) as [[a|e|] s1]; [|intros [? ?]; auto|done]. intros (H1 & H2 & H3) HR. auto. Qed.

(** The metadata is not touched. *)
Record db_same (s s' : Store) : Prop := {
  ds_db : db s' = db s; ds_clock : (clock s <= clock s')%Z; ds_faults : faults s = [] -> faults s' = [] }.

#[export] Instance db_same_rel : StoreRel db_same.
Proof.
  split.
  - intros s. by split; [|lia|].
  - intros a b c [H1 H2 H3] [K1 K2 K3]. split; [congruence|lia|auto].
  - by intros s s' [].
Qed.

#[export] Instance db_same_env : EnvRel db_same.
Proof. intros s s' Hs. destruct (same_eq _ _ Hs) as (? & _). by destruct Hs; split. Qed.

(** Time goes on and no fault is added. *)
Record later (s s' : Store) : Prop := {
  lt_clock : (clock s <= clock s')%Z; lt_faults : faults s = [] -> faults s' = [] }.

#[export] Instance later_rel : StoreRel later.
Proof.
  split.
  - intros s. by split; [lia|].
  - intros a b c [H1 H2] [K1 K2]. split; [lia|auto].
  - by intros s s' [].
Qed.

#[export] Instance later_env : EnvRel later.
Proof. intros s s' Hs. by destruct Hs; split. Qed.

#[export] Instance true_inv : EnvInv (fun _ => True).
Proof. done. Qed.

Lemma stops_ret {A} (a : A) s (Inv : Store -> Prop) R `{!StoreRel R} (P : A -> Store -> Prop) :
  Inv s -> P a s -> stops (mret a) s Inv R P.
Proof. intros. unfold stops. simpl. split; [done|]. split; [reflexivity|done]. Qed.

Lemma stops_check e s (Inv : Store -> Prop) R `{!StoreRel R} :
  Inv s -> stops (check e) s Inv R (fun _ s' => s' = s /\ e = None).
Proof. intros. destruct e; simpl; [by apply stops_fail|by apply stops_ret]. Qed.

Lemma stops_try {A} (m : M A) s Inv R P : stops m s Inv R P ->
  stops (try m) s Inv R (fun r s' => match r with inr a => P a s' | inl _ => True end).
Proof. unfold stops, try. destruct (m s) as [[a|e|] s']; tauto. Qed.

Lemma stops_forM_inv {A B} (l : list A) (acc : B) (f : B -> A -> M B) s Inv R `{!StoreRel R}
    (P : B -> Store -> Prop) :
  Inv s -> P acc s ->
  (forall acc x s', x ∈ l -> Inv s' -> R s s' -> P acc s' -> stops (f acc x) s' Inv R P) ->
  stops (forM l acc f) s Inv R P.
Proof.
  intros HI HP Hf.
  cut (forall rest acc s', (forall x, x ∈ rest -> x ∈ l) -> Inv s' -> R s s' -> P acc s' ->
    stops (forM rest acc f) s' Inv R P).
  { intros H. apply (H l acc s); [done|done|reflexivity|done]. }
  clear HI HP acc. induction rest as [|x rest IH]; intros acc s' Hin HI HR HP; simpl.
  - by apply stops_ret.
  - eapply stops_bind; [done|apply Hf; [apply Hin; left|done..]|].
    intros acc' s1 HI1 HR1 HP1. apply IH; [|done|by etrans|done]. intros y Hy. apply Hin. by right.
Qed.

Lemma stops_forM {A B} (l : list A) (acc : B) (f : B -> A -> M B) s Inv R `{!StoreRel R}
    (P : list A -> B -> Store -> Prop) :
  Inv s -> P [] acc s ->
  (forall done acc x s', Inv s' -> R s s' -> P done acc s' -> stops (f acc x) s' Inv R (P (done ++ [x]))) ->
  stops (forM l acc f) s Inv R (P l).
Proof.
  intros HI HP Hf.
  cut (forall rest done acc s', l = done ++ rest -> Inv s' -> R s s' -> P done acc s' ->
    stops (forM rest acc f) s' Inv R (P l)).
  { intros H. eapply (H l []); [done..|reflexivity|done]. }
  clear HI HP acc. induction rest as [|x rest IH]; intros done acc s' -> HI HR HP; simpl.
  - rewrite app_nil_r in *. by apply stops_ret.
  - eapply stops_bind; [done|by apply (Hf done acc x s')|].
    intros acc' s1 HI1 HR1 HP1. eapply (IH (done ++ [x])); [by rewrite <- app_assoc|done|by etrans|done].
Qed.

(** Reading a key: another document type there is an error. *)
Lemma metaGet_stops {T} (as_ : Value -> option T) key s Inv R `{!EnvInv Inv, !EnvRel R, !StoreRel R} :
  Inv s -> stops (metaGet as_ key) s Inv R (fun r s' => same s s' /\ r = dbGet (db s) key ≫= as_).
Proof.
  intros HI. unfold metaGet. eapply stops_bind; [done|by apply runs_stops, (runs_io _ _)|].
  intros [] s1 HI1 HR1 Hs. change (stops (match dbGet (db s1) key with None => mret None
    | Some v => match as_ v with Some x => mret (Some x) | None => fail (ErrMsg "decode metadata record") end
    end) s1 Inv R (fun r s' => same s s' /\ r = dbGet (db s) key ≫= as_)).
  destruct (same_eq _ _ Hs) as (-> & _). destruct (dbGet (db s) key) as [v|] eqn:Hv; simpl.
  - destruct (as_ v) eqn:Hav; [by apply stops_ret|by apply stops_fail].
  - by apply stops_ret.
Qed.

(** A loop whose accumulator and state only need a plain loop invariant. *)
(** An operation that may also be refused: without a fault, an error means that
    the request was [Bad]. *)
Definition runs_unless {A} (Bad : Prop) (m : M A) (s : Store) (Inv : Store -> Prop) (R : Store -> Store -> Prop)
    (P : A -> Store -> Prop) : Prop :=
  match m s with
  | (Ok a, s') => Inv s' /\ R s s' /\ P a s'
  | (Err _, s') => Inv s' /\ R s s' /\ (faults s <> [] \/ Bad)
  | (Panic, _) => False
  end.

Lemma runs_unless_intro {A} Bad (m : M A) s Inv R P : runs m s Inv R P -> runs_unless Bad m s Inv R P.
Proof. unfold runs, runs_unless. destruct (m s) as [[a|e|] s']; tauto. Qed.

Lemma unless_stops {A} Bad (m : M A) s Inv R P : runs_unless Bad m s Inv R P -> stops m s Inv R P.
Proof. unfold runs_unless, stops. destruct (m s) as [[a|e|] s']; tauto. Qed.

Lemma unless_bind {A B} Bad (m : M A) (f : A -> M B) s Inv R `{!StoreRel R} P Q :
  runs_unless Bad m s Inv R P ->
  (forall a s', Inv s' -> R s s' -> P a s' -> runs_unless Bad (f a) s' Inv R Q) ->
  runs_unless Bad (m ≫= f) s Inv R Q.
Proof.
  unfold runs_unless, mbind, M_bind. destruct (m s) as [[a|e|] s1]; [|done|done].
  intros (HI & HR & HP) Hk. specialize (Hk a s1 HI HR HP).
  destruct (f a s1) as [[b|e|] s2]; [..|done]; destruct Hk as (HI' & HR' & HQ); (split; [done|split; [by etrans|]]).
  - done.
  - destruct HQ as [HQ|?]; [left|by right]. intros Hf. apply HQ. by apply (srel_faults _ _ HR).
Qed.

Lemma unless_post {A} Bad (m : M A) s Inv R (P Q : A -> Store -> Prop) :
  runs_unless Bad m s Inv R P -> (forall a s', Inv s' -> R s s' -> P a s' -> Q a s') -> runs_unless Bad m s Inv R Q.
Proof. unfold runs_unless. destruct (m s) as [[a|e|] s1]; [|done|done]. intros (H1 & H2 & H3) HQ. auto. Qed.

Lemma unless_ret {A} Bad (a : A) s (Inv : Store -> Prop) R `{!StoreRel R} (P : A -> Store -> Prop) :
  Inv s -> P a s -> runs_unless Bad (mret a) s Inv R P.
Proof. intros. by apply runs_unless_intro, runs_ret. Qed.

Lemma unless_check Bad e s (Inv : Store -> Prop) R `{!StoreRel R} :
  Inv s -> (e <> None -> Bad) -> runs_unless Bad (check e) s Inv R (fun _ s' => s' = s /\ e = None).
Proof.
  intros HI He. destruct e; unfold runs_unless; simpl; (split; [done|split; [reflexivity|]]); [right; by apply He|done].
Qed.

Lemma unless_fail {A} (Bad : Prop) e s (Inv : Store -> Prop) R `{!StoreRel R} (P : A -> Store -> Prop) :
  Inv s -> Bad -> runs_unless Bad (fail e) s Inv R P.
Proof. intros. unfold runs_unless. simpl. split; [done|]. split; [reflexivity|by right]. Qed.

Lemma unless_forM {A B} Bad (l : list A) (acc : B) (f : B -> A -> M B) s Inv R `{!StoreRel R}
    (P : list A -> B -> Store -> Prop) :
  Inv s -> P [] acc s ->
  (forall done acc x s', done ++ [x] `prefix_of` l -> Inv s' -> R s s' -> P done acc s' ->
    runs_unless Bad (f acc x) s' Inv R (P (done ++ [x]))) ->
  runs_unless Bad (forM l acc f) s Inv R (P l).
Proof.
  intros HI HP Hf.
  cut (forall rest done acc s', l = done ++ rest -> Inv s' -> R s s' -> P done acc s' ->
    runs_unless Bad (forM rest acc f) s' Inv R (P l)).
  { intros H. eapply (H l []); [done..|reflexivity|done]. }
  clear HI HP acc. induction rest as [|x rest IH]; intros done acc s' -> HI HR HP; simpl.
  - rewrite app_nil_r in *. by apply unless_ret.
  - eapply unless_bind; [done|apply (Hf done acc x s')|]; [|done..|].
    { exists rest. by rewrite <- app_assoc. }
    intros acc' s1 HI1 HR1 HP1. replace (done ++ x :: rest) with ((done ++ [x]) ++ rest) in * by by rewrite <- app_assoc.
    eapply (IH (done ++ [x])); [done..|by etrans|done].
Qed.

Lemma unless_ok {A} (Bad : Prop) (m : M A) s Inv R P : runs_unless Bad m s Inv R P -> faults s = [] -> ~ Bad ->
  exists a s', m s = (Ok a, s') /\ Inv s' /\ R s s' /\ P a s'.
Proof.
  unfold runs_unless. destruct (m s) as [[a|e|] s']; [intros; eauto|by intros (_ & _ & [?|?])|done].
Qed.

Lemma runs_forM_inv {A B} (l : list A) (acc : B) (f : B -> A -> M B) s Inv R `{!StoreRel R}
    (P : B -> Store -> Prop) :
  Inv s -> P acc s ->
  (forall acc x s', x ∈ l -> Inv s' -> R s s' -> P acc s' -> runs (f acc x) s' Inv R P) ->
  runs (forM l acc f) s Inv R P.
Proof.
  intros HI HP Hf. apply (runs_forM l acc f s Inv R (fun _ => P)); [done..|].
  intros d a x s' [r Hr] HI' HR HP'. apply Hf; [|done..].
  rewrite Hr. rewrite !elem_of_app, list_elem_of_singleton. auto.
Qed.

End logic.

(** Steps through a monadic sequence. *)
(** A scan of a key range: the callback sees exactly the documents of the
    state, in order, and leaves the store alone. *)
Lemma scan_spec {E : Ext} {B} (d : DB) lower upper (acc : B) f s Inv R `{!EnvInv Inv, !EnvRel R, !StoreRel R}
    (Q : list (string * Value) -> B -> Prop) :
  Inv s -> Q [] acc ->
  (forall done acc x s', done ++ [x] `prefix_of` dbRange d lower upper -> same s s' -> Inv s' -> Q done acc ->
    runs (f acc x) s' Inv R (fun acc' s'' => same s' s'' /\ Q (done ++ [x]) acc')) ->
  runs (iterRange d lower upper acc f) s Inv R
    (fun acc' s' => same s s' /\ Q (dbRange d lower upper) acc').
Proof.
  intros HI HQ Hf. unfold iterRange.
  eapply runs_bind; [done|by apply (runs_io _ _)|]. intros [] s1 HI1 HR1 Hs1.
  eapply runs_bind; [done|apply (runs_forM _ acc f s1 _ _ (fun done acc s' => same s s' /\ Q done acc)); [done|done|]|].
  - intros done acc' x s' Hpre HI' HR' [Hs' HQ']. eapply runs_post; [by apply Hf|].
    intros acc'' s'' _ _ [? ?]. split; [by etrans|done].
  - intros acc' s2 HI2 HR2 [Hs2 HQ2]. eapply runs_bind; [done|by apply (runs_io _ _)|]. intros [] s3 HI3 _ Hs3.
    apply runs_ret; [done|done|]. split; [by etrans|done].
Qed.

Lemma prefixRange_elem {E : Ext} `{!ExtLaws E} d p k v :
  (k, v) ∈ dbRange d p (prefixUpperBound p) <-> dbGet d k = Some v /\ HasPrefix k p = true.
Proof. by rewrite dbRange_elem, inRange_prefix. Qed.

Ltac rbind := eapply runs_bind; [apply _|..].
Ltac rgets := apply runs_gets_bind; cbn beta iota.
Ltac sbind := eapply stops_bind; [apply _|..].
Ltac sret := refine (stops_ret _ _ _ _ _ _ _).
Ltac sgets := lazymatch goal with |- stops (gets ?f ≫= ?k) ?s ?I ?R ?P => change (stops (k (f s)) s I R P); cbn beta iota end.
Ltac rret := refine (runs_ret _ _ _ _ _ _ _).
Ltac ubind := eapply unless_bind; [apply _|..].
Ltac uret := refine (unless_ret _ _ _ _ _ _ _ _).
Ltac ugets := lazymatch goal with |- runs_unless ?B (gets ?f ≫= ?k) ?s ?I ?R ?P =>
  change (runs_unless B (k (f s)) s I R P); cbn beta iota end.
