(* ===== verification/GoText.v ===== *)
(** * Text functions of the Go standard library: case mapping and decimal numbers

    [strings.ToLower] and [strings.EqualFold] as comparisons with ASCII
    constants see them, [strings.HasSuffix], [strconv.ParseUint(s, 10, 32)] and
    [strconv.FormatUint(n, 10)]. *)

From stdpp Require Import options.
From S2P Require Import Prelude GoLib.

Definition byteN (n : N) : Ascii.ascii := Ascii.ascii_of_N n.

Definition isUpper (c : Ascii.ascii) : bool := let n := Ascii.N_of_ascii c in ((65 <=? n) && (n <=? 90))%N.
Definition isLower (c : Ascii.ascii) : bool := let n := Ascii.N_of_ascii c in ((97 <=? n) && (n <=? 122))%N.
Definition isDigit (c : Ascii.ascii) : bool := let n := Ascii.N_of_ascii c in ((48 <=? n) && (n <=? 57))%N.

Definition lowerByte (c : Ascii.ascii) : Ascii.ascii :=
  if isUpper c then byteN (Ascii.N_of_ascii c + 32) else c.

(** The non-ASCII runes that lower to an ASCII letter (U+0130 to "i", U+212A
    to "k"), and those that fold to one (U+017F to "s", U+212A to "k"). *)
Definition lowerRunes : list (list Ascii.ascii * Ascii.ascii) :=
  [(map byteN [0xc4; 0xb0]%N, byteN 105); (map byteN [0xe2; 0x84; 0xaa]%N, byteN 107)].
Definition foldRunes : list (list Ascii.ascii * Ascii.ascii) :=
  [(map byteN [0xc5; 0xbf]%N, byteN 115); (map byteN [0xe2; 0x84; 0xaa]%N, byteN 107)].

Fixpoint stripRune (rs : list (list Ascii.ascii * Ascii.ascii)) (s : list Ascii.ascii) :
    option (Ascii.ascii * list Ascii.ascii) :=
  match rs with
  | [] => None
  | (enc, c) :: rs' => match strip enc s with Some r => Some (c, r) | None => stripRune rs' s end
  end.

Fixpoint mapRunes (rs : list (list Ascii.ascii * Ascii.ascii)) (fuel : nat) (s : list Ascii.ascii) :
    list Ascii.ascii :=
  match fuel, s with
  | S f, c :: r =>
      match stripRune rs s with
      | Some (d, r') => d :: mapRunes rs f r'
      | None => lowerByte c :: mapRunes rs f r
      end
  | _, _ => []
  end.

(** [strings.ToLower], leaving the runes without an ASCII lower case as they
    are: no comparison with an ASCII constant can tell the difference. *)
Definition ToLower (s : string) : string :=
  bytes_str (mapRunes lowerRunes (String.length s) (str_bytes s)).

(** [strings.EqualFold(s, t)] for an ASCII [t]. *)
Definition EqualFold (s t : string) : bool :=
  bool_decide (mapRunes foldRunes (String.length s) (str_bytes s) = map lowerByte (str_bytes t)).

Definition HasSuffix (s suffix : string) : bool :=
  bool_decide (is_Some (strip (rev (str_bytes suffix)) (rev (str_bytes s)))).

(** ** Decimal numbers *)

Definition digitVal (c : Ascii.ascii) : N := (Ascii.N_of_ascii c - 48)%N.

Fixpoint parseDigits (s : list Ascii.ascii) (acc : N) : option N :=
  match s with
  | [] => Some acc
  | c :: r => if isDigit c then parseDigits r (acc * 10 + digitVal c)%N else None
  end.

(** [strconv.ParseUint(s, 10, 32)]. *)
Definition ParseUint32 (s : string) : option N :=
  match s with
  | EmptyString => None
  | _ => n ← parseDigits (str_bytes s) 0; if (n <? 2 ^ 32)%N then Some n else None
  end.

Fixpoint formatLoop (fuel : nat) (n : N) (acc : list Ascii.ascii) : list Ascii.ascii :=
  match fuel with
  | O => acc
  | S f =>
      let acc := byteN (48 + n mod 10) :: acc in
      if (n <? 10)%N then acc else formatLoop f (n / 10) acc
  end.

(** [strconv.FormatUint(n, 10)]; a number has at most [log2 n + 1] digits. *)
Definition FormatUint (n : N) : string := bytes_str (formatLoop (S (N.size_nat n)) n []).

Lemma digit_ok d : (d < 10)%N -> isDigit (byteN (48 + d)) = true /\ digitVal (byteN (48 + d)) = d.
Proof.
  intros Hd. unfold isDigit, digitVal, byteN. rewrite Ascii.N_ascii_embedding by lia. split; [|lia].
  rewrite andb_true_iff, !N.leb_le. lia.
Qed.

Lemma formatLoop_app f n acc : formatLoop f n acc = formatLoop f n [] ++ acc.
Proof.
  revert n acc. induction f as [|f IH]; intros n acc; simpl; [done|].
  destruct (n <? 10)%N; [done|]. rewrite IH, (IH _ [_]), <- app_assoc. done.
Qed.

Lemma parseDigits_snoc l c acc :
  parseDigits (l ++ [c]) acc =
  n ← parseDigits l acc; if isDigit c then Some (n * 10 + digitVal c)%N else None.
Proof.
  revert acc. induction l as [|d l IH]; intros acc; simpl; [done|].
  destruct (isDigit d); [apply IH|done].
Qed.

Lemma parse_format f n : (n < 2 ^ N.of_nat f)%N -> parseDigits (formatLoop (S f) n []) 0 = Some n.
Proof.
  revert n. induction f as [|f IH]; intros n Hn.
  - assert (n = 0%N) as -> by (simpl in Hn; lia). reflexivity.
  - assert (n mod 10 < 10)%N as Hd by (apply N.mod_upper_bound; lia).
    destruct (digit_ok (n mod 10) Hd) as [Hd1 Hd2].
    change (formatLoop (S (S f)) n []) with
      (if (n <? 10)%N then [byteN (48 + n mod 10)] else formatLoop (S f) (n / 10) [byteN (48 + n mod 10)]).
    destruct (N.ltb_spec n 10) as [Hlt|Hge].
    + cbn [parseDigits]. rewrite Hd1, Hd2, N.mod_small by lia. f_equal; lia.
    + rewrite formatLoop_app, parseDigits_snoc, IH.
      * simpl. rewrite Hd1, Hd2. f_equal. pose proof (N.div_mod' n 10). lia.
      * replace (N.of_nat (S f)) with (N.succ (N.of_nat f)) in Hn by lia.
        rewrite N.pow_succ_r' in Hn. apply N.Div0.div_lt_upper_bound. lia.
Qed.

Lemma size_nat_bound n : (n < 2 ^ N.of_nat (N.size_nat n))%N.
Proof.
  destruct n as [|p]; [reflexivity|]. simpl N.size_nat. apply N2Z.inj_lt.
  rewrite N2Z.inj_pow. pose proof (Pos.size_nat_monotone p p) as _.
  induction p as [p IH|p IH|]; simpl Pos.size_nat in *; [..|reflexivity];
    rewrite Nat2N.inj_succ, N2Z.inj_succ, Z.pow_succ_r by lia; simpl in *; lia.
Qed.

(** Formatting then parsing a 32-bit number is the identity. *)
Lemma ParseUint32_Format n : (n < 2 ^ 32)%N -> ParseUint32 (FormatUint n) = Some n.
Proof.
  intros Hn. unfold ParseUint32, FormatUint.
  assert (formatLoop (S (N.size_nat n)) n [] <> []) as Hne.
  { simpl. destruct (n <? 10)%N; [done|]. rewrite formatLoop_app. by destruct (formatLoop _ _ []). }
  pose proof (parse_format _ _ (size_nat_bound n)) as Hp.
  destruct (formatLoop (S (N.size_nat n)) n []) as [|c r]; [done|].
  change (bytes_str (c :: r)) with (String c (bytes_str r)).
  change (str_bytes (String c (bytes_str r))) with (c :: str_bytes (bytes_str r)).
  rewrite String.list_ascii_of_string_of_list_ascii, Hp. simpl.
  apply N.ltb_lt in Hn. by rewrite Hn.
Qed.
