(* ===== verification/DictionaryFamily.v ===== *)
(** * Compression dictionary families: [filestore/dictionary_family.go]

    The family of an object's chunks, chosen from its media type and content
    roles.  [mime.ParseMediaType] is the parameter [parseMediaType] of [Ext]. *)

From stdpp Require Import options.
From S2P Require Import Prelude GoLib GoText Contracts Lru Meta.

Definition DictionaryFamilyOpaqueBinary : string := "opaque-binary".
Definition DictionaryFamilyMailHeaders : string := "mail-rfc822-headers".
Definition DictionaryFamilyMailBodyPlain : string := "mail-body-plain".
Definition DictionaryFamilyMailBodyHTML : string := "mail-body-html".
Definition DictionaryFamilyGmeowMailJSON : string := "gmeow-mail-json".
Definition DictionaryFamilyPatchText : string := "patch-text".
Definition DictionaryFamilyStructuredJSON : string := "structured-json".
Definition DictionaryFamilyStructuredXML : string := "structured-xml".
Definition DictionaryFamilyYAMLToml : string := "yaml-toml".
Definition DictionaryFamilyHTMLCSSJS : string := "html-css-js".
Definition DictionaryFamilyDocumentMarkup : string := "document-markup".
Definition DictionaryFamilySourceCode : string := "source-code".
Definition DictionaryFamilyLogsLineOriented : string := "logs-line-oriented".
Definition DictionaryFamilyCSVTSV : string := "csv-tsv".
Definition DictionaryFamilyRDFTurtle : string := "rdf-turtle".
Definition DictionaryFamilyBinarySerialization : string := "protobuf-msgpack-cbor-avro".

(** A [switch] arm: the value is one of the listed constants. *)
Definition oneOf (v : string) (cases : list string) : bool := existsb (String.eqb v) cases.

Definition hasRole (roles : list string) (target : string) : bool :=
  existsb (fun role => EqualFold (TrimSpace role) target) roles.

Definition isDictionaryIneligibleMediaType (mediaType : string) : bool :=
  if String.eqb mediaType "application/octet-stream" ||
     HasPrefix mediaType "image/" || HasPrefix mediaType "audio/" ||
     HasPrefix mediaType "video/" || HasPrefix mediaType "font/" then true
  else if oneOf mediaType
    ["application/pdf"; "application/zip"; "application/gzip"; "application/x-gzip";
     "application/x-7z-compressed"; "application/x-xz"; "application/x-bzip2";
     "application/zstd"; "application/vnd.rar"; "application/vnd.ms-cab-compressed";
     "application/vnd.openxmlformats-officedocument.wordprocessingml.document";
     "application/vnd.openxmlformats-officedocument.spreadsheetml.sheet";
     "application/vnd.openxmlformats-officedocument.presentationml.presentation";
     "application/epub+zip"; "application/jar"] then true
  else HasSuffix mediaType "+zip".

Definition isSourceCodeMediaType (mediaType : string) : bool :=
  oneOf mediaType
    ["text/x-go"; "text/x-python"; "text/x-rust"; "text/x-java-source"; "text/x-c"; "text/x-c++";
     "text/x-csharp"; "text/x-shellscript"; "text/x-sql"; "application/sql"; "application/graphql"].

Definition genericTextFamily (mediaType : string) : string :=
  if oneOf mediaType ["text/tab-separated-values"] then DictionaryFamilyCSVTSV
  else if oneOf mediaType ["text/yaml"; "text/x-yaml"; "text/toml"] then DictionaryFamilyYAMLToml
  else if oneOf mediaType ["text/markdown"; "text/x-rst"] then DictionaryFamilyDocumentMarkup
  else if oneOf mediaType ["text/x-log"] then DictionaryFamilyLogsLineOriented
  else DictionaryFamilyLogsLineOriented.

Section family.
Context {E : Ext}.

Definition normalizedMediaType (mediaType : string) : string :=
  let parsed := match parseMediaType (TrimSpace mediaType) with
    | Some p => p
    | None => TrimSpace mediaType
    end in
  ToLower parsed.

Definition dictionaryFamilyForObject (mediaType : string) (contentRoles : list string) : string :=
  let normalized := normalizedMediaType mediaType in
  if String.eqb normalized "" then DictionaryFamilyOpaqueBinary
  else if hasRole contentRoles "rfc822_headers" then DictionaryFamilyMailHeaders
  else if hasRole contentRoles "email_body" then
    (if String.eqb normalized "text/html" then DictionaryFamilyMailBodyHTML
     else DictionaryFamilyMailBodyPlain)
  else if hasRole contentRoles "patch_diff" then DictionaryFamilyPatchText
  else if hasRole contentRoles "mime_structure" || hasRole contentRoles "mail_variant" ||
          hasRole contentRoles "mail_archive_membership" || hasRole contentRoles "archive_data" ||
          hasRole contentRoles "version_record" then DictionaryFamilyGmeowMailJSON
  else if oneOf normalized ["message/rfc822"; "text/rfc822-headers"] then DictionaryFamilyMailHeaders
  else if oneOf normalized ["text/x-gmeow-patch"] then DictionaryFamilyPatchText
  else if oneOf normalized
    ["application/vnd.gmeow.mail-message+json"; "application/vnd.gmeow.gmail-message+json";
     "application/vnd.gmeow.mail-message-variant+json"; "application/vnd.gmeow.mime-structure+json";
     "application/vnd.gmeow.version-record+json";
     "application/vnd.gmeow.mail-archive-membership+json"] then DictionaryFamilyGmeowMailJSON
  else if oneOf normalized ["text/turtle"; "application/n-triples"; "application/ld+json"]
    then DictionaryFamilyRDFTurtle
  else if oneOf normalized ["application/json"] then DictionaryFamilyStructuredJSON
  else if oneOf normalized ["application/xml"; "text/xml"; "application/xhtml+xml"; "image/svg+xml"]
    then DictionaryFamilyStructuredXML
  else if oneOf normalized ["text/html"; "text/css"; "text/javascript"; "application/javascript"]
    then DictionaryFamilyHTMLCSSJS
  else if oneOf normalized ["text/csv"] then DictionaryFamilyCSVTSV
  else if oneOf normalized
    ["application/x-protobuf"; "application/protobuf"; "application/msgpack"; "application/cbor";
     "application/avro"] then DictionaryFamilyBinarySerialization
  else if HasSuffix normalized "+json" then DictionaryFamilyStructuredJSON
  else if HasSuffix normalized "+xml" then DictionaryFamilyStructuredXML
  else if HasSuffix normalized "+cbor" || HasSuffix normalized "+msgpack" ||
          HasSuffix normalized "+avro" then DictionaryFamilyBinarySerialization
  else if isDictionaryIneligibleMediaType normalized then DictionaryFamilyOpaqueBinary
  else if isSourceCodeMediaType normalized then DictionaryFamilySourceCode
  else if HasPrefix normalized "text/" then genericTextFamily normalized
  else DictionaryFamilyOpaqueBinary.

End family.

Definition defaultEnabledDictionaryFamily (family : string) : bool :=
  oneOf family
    [DictionaryFamilyMailHeaders; DictionaryFamilyMailBodyPlain; DictionaryFamilyMailBodyHTML;
     DictionaryFamilyGmeowMailJSON; DictionaryFamilyPatchText].

Definition trainableDictionaryFamilyList : list string :=
  [DictionaryFamilyMailHeaders; DictionaryFamilyMailBodyPlain; DictionaryFamilyMailBodyHTML;
   DictionaryFamilyGmeowMailJSON; DictionaryFamilyPatchText; DictionaryFamilyStructuredJSON;
   DictionaryFamilyStructuredXML; DictionaryFamilyYAMLToml; DictionaryFamilyHTMLCSSJS;
   DictionaryFamilyDocumentMarkup; DictionaryFamilySourceCode; DictionaryFamilyLogsLineOriented;
   DictionaryFamilyCSVTSV; DictionaryFamilyRDFTurtle; DictionaryFamilyBinarySerialization].

Definition dictionaryFamilyEligibleForTraining (family : string) : bool :=
  if String.eqb family "" || String.eqb family DictionaryFamilyOpaqueBinary then false
  else existsb (String.eqb family) trainableDictionaryFamilyList.

(** The runes kept by [sanitizeDictionaryFamily]; a kept rune is ASCII, so
    filtering the bytes is filtering the runes. *)
Definition familyChar (c : Ascii.ascii) : bool :=
  isLower c || isDigit c || Ascii.eqb c (byteN 45) || Ascii.eqb c (byteN 95).

Definition sanitizeDictionaryFamily (family : string) : string :=
  let family := TrimSpace (ToLower family) in
  if String.eqb family "" then ""
  else bytes_str (base.filter familyChar (str_bytes family)).

(** ** Properties *)

Lemma familyForObject_known {E : Ext} mediaType roles :
  dictionaryFamilyForObject mediaType roles = DictionaryFamilyOpaqueBinary \/
  dictionaryFamilyForObject mediaType roles ∈ trainableDictionaryFamilyList.
Proof.
  unfold dictionaryFamilyForObject, genericTextFamily.
  repeat match goal with |- context [if ?b then _ else _] => destruct b end;
    first [by left | right; apply list_elem_of_In; simpl; tauto].
Qed.

Lemma trainable_sanitized f : f ∈ trainableDictionaryFamilyList ->
  sanitizeDictionaryFamily f = f /\ dictionaryFamilyEligibleForTraining f = true /\
  f <> DictionaryFamilyOpaqueBinary.
Proof.
  intros H. apply list_elem_of_In in H. simpl in H.
  repeat destruct H as [<-|H]; [..|done]; split_and!; try reflexivity; discriminate.
Qed.

(** Whatever the media type and roles, an object's dictionary family is
    either opaque or one of the trainable families, and the name it is given is
    already in sanitized form, so the writer of its chunks looks up exactly the
    marker file that training published for the family. *)
Theorem family_names_its_marker {E : Ext} (mediaType : string) (roles : list string) :
  let family := dictionaryFamilyForObject mediaType roles in
  sanitizeDictionaryFamily family = family /\
  (family = DictionaryFamilyOpaqueBinary \/ dictionaryFamilyEligibleForTraining family = true).
Proof.
  simpl. destruct (familyForObject_known mediaType roles) as [->|H]; [by split; [|left]|].
  destruct (trainable_sanitized _ H) as (? & ? & _). auto.
Qed.
