(* ===== verification/Concrete.v ===== *)
(** * A concrete instance of the external code

    Shows that the laws of [ExtLaws] can hold together, and lets the examples
    run: the key-value store is a finite map, the digest the hexadecimal
    prefix of the content, the codec tags content with the dictionary's use. *)

From stdpp Require Import options.
From S2P Require Import Prelude GoLib GoText Contracts Lru Meta.

Definition hexDigit (n : N) : Ascii.ascii :=
  Ascii.ascii_of_N (if (n <? 10)%N then 48 + n else 87 + n)%N.
Definition hexByte (b : Byte.byte) : list Ascii.ascii :=
  [hexDigit (Byte.to_N b / 16); hexDigit (Byte.to_N b mod 16)].

(** Injective on contents of at most 31 bytes (the last byte is the length). *)
Definition toyDigest (b : bytes) : string :=
  let len := default Byte.x00 (Byte.of_N (N.of_nat (length b) mod 256)) in
  bytes_str (concat (map hexByte (take 31 (b ++ replicate 31 Byte.x00) ++ [len]))).

Definition applyWrites (ws : list write) (d : gmap string Value) : gmap string Value :=
  foldl (fun d w => match w with WSet k v => <[k := v]> d | WDel k => delete k d end) d ws.

Definition toyRange (d : gmap string Value) (lo : string) (up : option string) : list (string * Value) :=
  sortStable (keyLess fst str_ltb)
    (base.filter (fun p : string * Value => inRange lo up p.1 = true) (map_to_list d)).

Definition toyTag (d : option (N * bytes)) : Byte.byte :=
  match d with None => Byte.x00 | Some _ => Byte.x01 end.

(** Annotations of the examples carry everything in their kind. *)
Definition toyAnnotationOf (b : bytes) : Annotation :=
  MkAnnotation zeroTime ∅ EmptyString EmptyString EmptyString (String.string_of_list_byte b) 1.

#[export] Instance Toy : Ext := {|
  DB := gmap string Value;
  dbGet d k := d !! k;
  dbApply := applyWrites;
  dbRange := toyRange;
  blake3 := toyDigest;
  sha256 := toyDigest;
  zEncode d b := toyTag d :: b;
  zDecode d z := match z with t :: b => if Byte.eqb t (toyTag d) then Some b else None | [] => None end;
  parseMediaType m := Some m;
  formatTime t := if (t <? 0)%Z then "-" else FormatUint (Z.to_N t);
  annotationJSON a := String.list_byte_of_string (aKind a);
  parseAnnotation b := Some (toyAnnotationOf b);
  envelopeJSON s i p q := String.list_byte_of_string (s +:+ i) |}.

Lemma hexDigit_ok n : (n < 16)%N -> isHexDigit (hexDigit n) = true.
Proof.
  intros Hn. unfold hexDigit, isHexDigit.
  destruct (N.ltb_spec n 10); rewrite Ascii.N_ascii_embedding by lia;
    rewrite !orb_true_iff, !andb_true_iff, !N.leb_le; lia.
Qed.

Lemma hexBytes_ok l : length (concat (map hexByte l)) = 2 * length l /\
  forallb isHexDigit (concat (map hexByte l)) = true.
Proof.
  induction l as [|b l [IH1 IH2]]; [done|]. cbn [map concat hexByte app length forallb].
  rewrite IH1, IH2. split; [lia|]. pose proof (Byte.to_N_bounded b).
  rewrite !hexDigit_ok; [done|apply N.mod_upper_bound; lia|apply N.Div0.div_lt_upper_bound; lia].
Qed.

Lemma toyDigest_ok b : looksLikeDigest (toyDigest b) = true.
Proof.
  unfold looksLikeDigest, toyDigest. set (l := take 31 _ ++ _).
  assert (length l = 32) as Hl.
  { unfold l. rewrite length_app, length_take, length_app, length_replicate. cbn [length]. lia. }
  destruct (hexBytes_ok l) as [H1 H2].
  rewrite String.list_ascii_of_string_of_list_ascii, H2.
  rewrite <- (String.list_ascii_of_string_of_list_ascii (concat (map hexByte l))) in H1.
  assert (forall s, String.length s = length (str_bytes s)) as Hlen.
  { induction s; simpl; auto. }
  rewrite Hlen, H1, Hl. done.
Qed.

Lemma toyRange_elem d lo up k v :
  (k, v) ∈ toyRange d lo up <-> d !! k = Some v /\ inRange lo up k = true.
Proof.
  unfold toyRange. rewrite sortStable_perm, list_elem_of_filter, elem_of_map_to_list. naive_solver.
Qed.

Lemma toyRange_nodup d lo up : NoDup (toyRange d lo up).*1.
Proof.
  unfold toyRange. rewrite sortStable_perm.
  eapply sublist_NoDup; [apply (NoDup_fst_map_to_list d)|].
  apply fmap_sublist. apply sublist_filter.
Qed.

Lemma toyRange_ordered d lo up : ordered str_ltb (toyRange d lo up).*1.
Proof.
  unfold toyRange. generalize (sort_ordered (keyLess (@fst string Value) str_ltb) (base.filter (fun p => inRange lo up p.1 = true) (map_to_list d))).
  unfold ordered. induction 1 as [|p l Hs IH Hp]; cbn; constructor; [done|]. apply Forall_fmap. exact Hp.
Qed.

Lemma applyWrites_get ws (d : gmap string Value) k :
  applyWrites ws d !! k = writesAt ws k (d !! k).
Proof.
  unfold applyWrites. revert d. induction ws as [|[k' v|k'] ws IH]; intros d; simpl; [done|..];
    rewrite IH; f_equal; case_bool_decide; subst; by simplify_map_eq.
Qed.

#[export] Instance Toy_laws : ExtLaws Toy.
Proof.
  split; simpl.
  - apply applyWrites_get.
  - apply toyRange_elem.
  - apply toyRange_nodup.
  - apply toyRange_ordered.
  - apply toyDigest_ok.
  - apply toyDigest_ok.
  - intros d b. by destruct d.
Qed.

(** A store with no object and no dictionary yet. *)
Definition emptyDicts : DictState := MkDicts ∅ ∅ None None NoDir false false ∅ ∅ ∅.
Definition emptyStore : Store :=
  @MkStore Toy ∅ ∅ false None emptyDicts (SizedLru.NewSizedLRU 1024) (MkLegacy ∅ ∅ ∅ ∅) 1000 [] [].
