(* ===== verification/Dictionary.v ===== *)
(** * Compression dictionaries: [filestore/dictionary.go]

    Bootstrap of the default dictionaries, the registry and the per-family
    markers, the lazily loaded table of active dictionaries, the codec caches,
    and (de)compression of one chunk.  [dict_ok] is the invariant of the
    dictionary files and caches; [dict_extends] says that no registered
    dictionary ever changes. *)

From stdpp Require Import options.
From S2P Require Import Prelude GoLib GoText Contracts Lru Meta Concrete DictionaryFamily.

(** ** Default dictionaries *)

Record defaultDictionary := MkSeed {
  ddId : string; ddFamily : string; ddVersion : string; ddDescription : string; ddBytes : bytes }.

(** Source text of a seed: a quote is written ['], CR [^] and LF [|]. *)
Definition seedText (t : string) : bytes :=
  map (fun b => match b with
    | Byte.x27 => Byte.x22 | Byte.x5e => Byte.x0d | Byte.x7c => Byte.x0a | _ => b end)
    (String.list_byte_of_string t).

Definition defaultDictionarySeeds : list defaultDictionary :=
  [MkSeed "1001" DictionaryFamilyMailHeaders "bootstrap-v1"
     "Bootstrap dictionary seed for RFC 822-style mail headers."
     (seedText ("From: To: Cc: Bcc: Date: Subject: Message-ID: In-Reply-To: References:^|" +:+
                "Content-Type: text/plain; charset=utf-8^|MIME-Version: 1.0^|"));
   MkSeed "1002" DictionaryFamilyMailBodyPlain "bootstrap-v1"
     "Bootstrap dictionary seed for plain-text mail bodies."
     (seedText ("hello thanks regards wrote forwarded message original message " +:+
                "unsubscribe mailing list attachment meeting update^|^|"));
   MkSeed "1003" DictionaryFamilyMailBodyHTML "bootstrap-v1"
     "Bootstrap dictionary seed for HTML mail bodies."
     (seedText ("<html><body><div><p><br><table><tr><td><span style='font-family'>" +:+
                "</span></td></tr></table></div></body></html>"));
   MkSeed "1004" DictionaryFamilyGmeowMailJSON "bootstrap-v1"
     "Bootstrap dictionary seed for Gmeow mail JSON records."
     (seedText ("{'schema_version':0,'message_id':'','thread_id':'','labels':[],'headers':{}," +:+
                "'body_media_type':'text/plain','attachments':[],'parts':[]}"));
   MkSeed "1005" DictionaryFamilyPatchText "bootstrap-v1"
     "Bootstrap dictionary seed for patch/diff text."
     (seedText "diff --git a/ b/|index --- +++ @@ -1,1 +1,1 @@|")].

(** ** State updates *)

Definition ds_files f d := MkDicts (f (dsFiles d)) (dsLegacy d) (dsRegistry d) (dsCurrent d) (dsMarkers d)
  (dsBootstrapped d) (dsLoaded d) (dsActive d) (dsEncoders d) (dsDecoders d).
Definition ds_registry r d := MkDicts (dsFiles d) (dsLegacy d) r (dsCurrent d) (dsMarkers d)
  (dsBootstrapped d) (dsLoaded d) (dsActive d) (dsEncoders d) (dsDecoders d).
Definition ds_markers m d := MkDicts (dsFiles d) (dsLegacy d) (dsRegistry d) (dsCurrent d) m
  (dsBootstrapped d) (dsLoaded d) (dsActive d) (dsEncoders d) (dsDecoders d).
Definition ds_bootstrapped b d := MkDicts (dsFiles d) (dsLegacy d) (dsRegistry d) (dsCurrent d) (dsMarkers d)
  b (dsLoaded d) (dsActive d) (dsEncoders d) (dsDecoders d).
Definition ds_active l a d := MkDicts (dsFiles d) (dsLegacy d) (dsRegistry d) (dsCurrent d) (dsMarkers d)
  (dsBootstrapped d) l a (dsEncoders d) (dsDecoders d).
Definition ds_encoders e d := MkDicts (dsFiles d) (dsLegacy d) (dsRegistry d) (dsCurrent d) (dsMarkers d)
  (dsBootstrapped d) (dsLoaded d) (dsActive d) e (dsDecoders d).
Definition ds_decoders x d := MkDicts (dsFiles d) (dsLegacy d) (dsRegistry d) (dsCurrent d) (dsMarkers d)
  (dsBootstrapped d) (dsLoaded d) (dsActive d) (dsEncoders d) x.

Section dictionary.
Context {E : Ext}.

Definition modDicts (f : DictState -> DictState) : M unit :=
  modify (fun s => set_dicts (f (dicts s)) s).

(** [atomicWriteFile]: temporary file, write, chmod, sync, close, rename; the
    new content appears at the rename, then the directory is synced. *)
Definition atomicWriteFile (effect : DictState -> DictState) : M unit :=
  _ ← ios 7; _ ← modDicts effect; ios 2.

(** ** Registry and bootstrap *)

Definition registryHasDictionaryState : M bool :=
  r ← try io;
  match r with
  | inl e => mret (negb (isNotExist e))
  | inr _ =>
      d ← gets dicts;
      mret (match dsRegistry d with
            | None | Some RegBlank => false
            | Some RegBad => true
            | Some (Reg _ m) => negb (bool_decide (m = ∅))
            end)
  end.

(** [fileHasTrimmedContent] and [directoryHasEntries]: read errors mean no. *)
Definition fileHasTrimmedContent (content : DictState -> option string) : M bool :=
  r ← try io;
  match r with
  | inl _ => mret false
  | inr _ => d ← gets dicts; mret (match content d with Some t => negb (blank t) | None => false end)
  end.

Definition directoryHasEntries (nonempty : DictState -> bool) : M bool :=
  r ← try io;
  match r with inl _ => mret false | inr _ => d ← gets dicts; mret (nonempty d) end.

Definition hasDictionaryState : M bool :=
  a ← registryHasDictionaryState;
  if a : bool then mret true else
  b ← fileHasTrimmedContent dsCurrent;
  if b : bool then mret true else
  c ← directoryHasEntries (fun d => match dsMarkers d with Dir m => negb (bool_decide (m = ∅)) | _ => false end);
  if c : bool then mret true else
  directoryHasEntries (fun d => negb (bool_decide (dsFiles d = ∅))).

Definition readDictionaryRegistry : M (Z * gmap string dictionaryRegistryRecord) :=
  _ ← io;
  d ← gets dicts;
  match dsRegistry d with
  | None => mret (1%Z, ∅)
  | Some (Reg v m) => mret (v, m)
  | Some RegBlank | Some RegBad => fail (ErrMsg "decode dictionary registry")
  end.

Definition writeDictionaryRegistry (version : Z) (records : gmap string dictionaryRegistryRecord) : M unit :=
  let version := if bool_decide (version = 0%Z) then 1%Z else version in
  atomicWriteFile (ds_registry (Some (Reg version records))).

(** Writing [current-by-family/<family>]: the directory is created first. *)
Definition writeMarker (family id : string) : M unit :=
  _ ← io;
  d ← gets dicts;
  match dsMarkers d with
  | NotDir => fail (ErrMsg "not a directory")
  | NoDir => _ ← modDicts (ds_markers (Dir ∅));
      _ ← ios 6; _ ← modDicts (ds_markers (Dir {[sanitizeDictionaryFamily family := id]})); ios 2
  | Dir m => _ ← ios 6; _ ← modDicts (ds_markers (Dir (<[sanitizeDictionaryFamily family := id]> m))); ios 2
  end.

Definition seedRecord (t : Time) (dictionary : defaultDictionary) : dictionaryRegistryRecord :=
  let filename := "dicts/" +:+ ddId dictionary +:+ ".dict" in
  MkRegRecord (ddId dictionary) (ddFamily dictionary) (ddVersion dictionary) filename
    (ddDescription dictionary) t 0.

Definition bootstrapDefaultDictionaries : M unit :=
  has ← hasDictionaryState;
  if has : bool then mret tt else
  t ← now;
  registry ← forM defaultDictionarySeeds ∅ (fun (registry : gmap string dictionaryRegistryRecord) dictionary =>
    if negb (defaultEnabledDictionaryFamily (ddFamily dictionary)) then mret registry else
    _ ← io;
    _ ← atomicWriteFile (ds_files (<[ddId dictionary := ddBytes dictionary]>));
    mret (<[ddId dictionary := seedRecord t dictionary]> registry));
  _ ← writeDictionaryRegistry 1 registry;
  forM defaultDictionarySeeds tt (fun _ dictionary =>
    if negb (defaultEnabledDictionaryFamily (ddFamily dictionary)) then mret tt else
    writeMarker (ddFamily dictionary) (ddId dictionary)).

Definition ensureDictionaryBootstrap : M unit :=
  d ← gets dicts;
  if dsBootstrapped d then mret tt else
  _ ← bootstrapDefaultDictionaries;
  modDicts (ds_bootstrapped true).

(** ** Active dictionaries *)

Definition readDictionaryBytes (id : string) : M bytes :=
  _ ← io;
  d ← gets dicts;
  match dsFiles d !! id with
  | Some b => mret b
  | None => _ ← io; match dsLegacy d !! id with Some b => mret b | None => fail ErrNotExist end
  end.

Definition loadActiveDictionaryMarker (records : gmap string dictionaryRegistryRecord)
    (marker : string) (family : string) : M (option (string * bytes)) :=
  _ ← io;
  let id := TrimSpace marker in
  if String.eqb id "" then mret None else
  match records !! id with
  | None => fail (ErrMsg "dictionary has no registry record")
  | Some record =>
      if negb (String.eqb (rrFamily record) family)
      then fail (ErrMsg "dictionary registry family does not match marker family") else
      dictBytes ← readDictionaryBytes id;
      match dictBytes with
      | [] => fail (ErrMsg "dictionary is empty")
      | _ => mret (Some (id, dictBytes))
      end
  end.

(** [os.ReadDir(currentDir)] with the case analysis on its error: [None] when
    there is no marker directory. *)
Definition readMarkerDir : M (option (gmap string string)) := fun s =>
  match io s, dsMarkers (dicts s) with
  | (Ok _, s1), Dir m => (Ok (Some m), s1)
  | (Ok _, s1), NoDir => (Ok None, s1)
  | (Ok _, s1), NotDir =>
      match io s1 with
      | (Ok _, s2) => (Ok None, s2)
      | (_, s2) => (Err (ErrMsg "not a directory"), s2)
      end
  | (Err e, s1), NotDir =>
      match io s1 with (Ok _, s2) => (Ok None, s2) | (_, s2) => (Err e, s2) end
  | (Err e, s1), _ => (Err e, snd (io s1))
  | (Panic, s1), _ => (Panic, s1)
  end.

(** Directory entries come sorted by name. *)
Definition sortedEntries (m : gmap string string) : list (string * string) :=
  sortStable (keyLess fst str_ltb) (map_to_list m).

Definition loadActiveDictionariesLocked : M (gmap string (string * bytes)) :=
  registry ← readDictionaryRegistry;
  entries ← readMarkerDir;
  match entries with
  | None => mret ∅
  | Some m =>
      forM (sortedEntries m) (∅ : gmap string (string * bytes)) (fun active entry =>
        let family := sanitizeDictionaryFamily entry.1 in
        if String.eqb family "" then mret active else
        dictionary ← loadActiveDictionaryMarker registry.2 entry.2 family;
        match dictionary with
        | None => mret active
        | Some x => mret (<[family := x]> active)
        end)
  end.

Definition activeDictionary (family : string) : M (string * bytes) :=
  let family := sanitizeDictionaryFamily family in
  if String.eqb family "" || String.eqb family DictionaryFamilyOpaqueBinary then mret (EmptyString, []) else
  _ ← ensureDictionaryBootstrap;
  d ← gets dicts;
  _ ← (if dsLoaded d then mret tt else
       active ← loadActiveDictionariesLocked; modDicts (ds_active true active));
  d ← gets dicts;
  mret (default (EmptyString, []) (dsActive d !! family)).

Definition reloadDictionaries : M unit :=
  modDicts (fun d => ds_decoders ∅ (ds_encoders ∅ (ds_active false ∅ d))).

(** ** Codecs *)

Definition dictEncoder (id : string) (dict : bytes) : M (option (N * bytes)) :=
  d ← gets dicts;
  match dsEncoders d !! id with
  | Some encoder => mret encoder
  | None =>
      encoder ← match dict with
        | [] => mret None
        | _ => match ParseUint32 id with
               | None => fail (ErrMsg "invalid dictionary id")
               | Some rawID => mret (Some (rawID, dict))
               end
        end;
      _ ← modDicts (fun d => ds_encoders (<[id := encoder]> (dsEncoders d)) d);
      mret encoder
  end.

Definition dictDecoder (id : string) : M (option (N * bytes)) :=
  d ← gets dicts;
  match dsDecoders d !! id with
  | Some decoder => mret decoder
  | None =>
      decoder ← (if negb (String.eqb id "") then
          dict ← readDictionaryBytes id;
          match ParseUint32 id with
          | None => fail (ErrMsg "invalid dictionary id")
          | Some rawID => mret (Some (rawID, dict))
          end
        else mret None);
      _ ← modDicts (fun d => ds_decoders (<[id := decoder]> (dsDecoders d)) d);
      mret decoder
  end.

(** Compressed bytes, dictionary id and recorded family of a chunk. *)
Definition compressChunkContent (chunk : bytes) (family : string) : M (bytes * string * string) :=
  p ← activeDictionary family;
  encoder ← dictEncoder p.1 p.2;
  let family := sanitizeDictionaryFamily family in
  let selectedFamily :=
    if negb (String.eqb family "") && negb (String.eqb family DictionaryFamilyOpaqueBinary)
    then family else EmptyString in
  mret (zEncode encoder chunk, p.1, selectedFamily).

Definition decompressChunkContent (compressed : bytes) (dictID : string) : M bytes :=
  decoder ← dictDecoder dictID;
  match zDecode decoder compressed with
  | Some chunk => mret chunk
  | None => fail (ErrMsg "zstd: decode")
  end.

End dictionary.

(** ** Invariant *)

Definition registered (d : DictState) (id : string) : Prop :=
  exists v m, dsRegistry d = Some (Reg v m) /\ is_Some (m !! id).

Definition dictBytesOf (d : DictState) (id : string) : option bytes :=
  match dsFiles d !! id with Some b => Some b | None => dsLegacy d !! id end.

(** The codec of a dictionary id; the empty id is plain zstd. *)
Definition dictOf (d : DictState) (id : string) : option (option (N * bytes)) :=
  if String.eqb id "" then Some None
  else b ← dictBytesOf d id; n ← ParseUint32 id; Some (Some (n, b)).

(** A dictionary id chunks may refer to. *)
Definition usable (d : DictState) (id : string) : Prop := id = EmptyString \/ registered d id.

Record dict_ok (d : DictState) : Prop := {
  dk_reg : dsRegistry d = None \/ exists v m, dsRegistry d = Some (Reg v m);
  dk_dir : dsMarkers d <> NotDir;
  dk_files : forall id, registered d id ->
    id <> EmptyString /\ (exists b, dictBytesOf d id = Some b /\ b <> []) /\ is_Some (ParseUint32 id);
  dk_markers : forall files name text, dsMarkers d = Dir files -> files !! name = Some text ->
    TrimSpace text = EmptyString \/ sanitizeDictionaryFamily name = EmptyString \/
    exists v m rec, dsRegistry d = Some (Reg v m) /\ m !! TrimSpace text = Some rec /\
      rrFamily rec = sanitizeDictionaryFamily name;
  dk_active : forall family id b, dsActive d !! family = Some (id, b) ->
    registered d id /\ dictBytesOf d id = Some b;
  dk_enc : forall id e, dsEncoders d !! id = Some e -> usable d id /\ dictOf d id = Some e;
  dk_dec : forall id e, dsDecoders d !! id = Some e -> usable d id /\ dictOf d id = Some e }.

(** No registered dictionary is lost or changed. *)
Definition dict_extends (d d' : DictState) : Prop :=
  forall id, registered d id -> registered d' id /\ dictBytesOf d' id = dictBytesOf d id.

#[export] Instance dict_extends_pre : PreOrder dict_extends.
Proof.
  split; [by intros d id|]. intros a b c H1 H2 id Hr. destruct (H1 id Hr) as [Hb Eb].
  destruct (H2 id Hb) as [Hc Ec]. split; [done|congruence].
Qed.

Lemma usable_extends d d' id : dict_extends d d' -> usable d id ->
  usable d' id /\ dictOf d' id = dictOf d id.
Proof.
  intros Hx [->|Hr]; [by split; [left|]|]. destruct (Hx _ Hr) as [? E].
  split; [by right|]. unfold dictOf. by rewrite E.
Qed.

Lemma dictOf_registered d id b : dict_ok d -> registered d id -> dictBytesOf d id = Some b ->
  exists n, ParseUint32 id = Some n /\ dictOf d id = Some (Some (n, b)).
Proof.
  intros Hd Hr Hb. destruct (dk_files d Hd id Hr) as (Hne & _ & [n Hn]). exists n. split; [done|].
  unfold dictOf. destruct (String.eqb_spec id ""); [done|]. by rewrite Hb, Hn.
Qed.

Section dictionary_spec.
Context {E : Ext}.

Definition dict_inv (s : Store) : Prop := dict_ok (dicts s).

(** Only the dictionary state changed, and no registered dictionary did. *)
Record dict_rel (s s' : Store) : Prop := {
  dr_core : (db s', packs s', packsDir s', activePack s', chunkCache s') =
            (db s, packs s, packsDir s, activePack s, chunkCache s);
  dr_dicts : dict_extends (dicts s) (dicts s');
  dr_clock : (clock s <= clock s')%Z;
  dr_faults : faults s = [] -> faults s' = [] }.

#[export] Instance dict_inv_env : EnvInv dict_inv.
Proof. intros s s' Hs. unfold dict_inv. by destruct (same_eq _ _ Hs) as (_ & _ & _ & _ & -> & _). Qed.

#[export] Instance dict_rel_env : EnvRel dict_rel.
Proof.
  intros s s' Hs. destruct (same_eq _ _ Hs) as (? & ? & ? & ? & Hd & ?). destruct Hs as [_ ? ?].
  split; [congruence| |done..]. by rewrite Hd.
Qed.

#[export] Instance dict_rel_rel : StoreRel dict_rel.
Proof.
  split.
  - intros s. split; [done..|lia|done].
  - intros a b c [H1 H2 H3 H4] [H5 H6 H7 H8]. split; [congruence|by etrans|lia|auto].
  - by intros s s' [].
Qed.

Lemma same_dicts s s' : same s s' -> dicts s' = dicts s.
Proof. intros Hs. by destruct (same_eq _ _ Hs) as (_ & _ & _ & _ & -> & _). Qed.

Lemma runs_modDicts f s :
  dict_ok (f (dicts s)) -> dict_extends (dicts s) (f (dicts s)) ->
  runs (modDicts f) s dict_inv dict_rel (fun _ s' => dicts s' = f (dicts s)).
Proof.
  intros H1 H2. unfold runs, modDicts, modify. split; [done|]. split; [|done].
  split; [done..|simpl; lia|done].
Qed.

Lemma runs_io_d s : dict_inv s -> runs io s dict_inv dict_rel (fun _ s' => dicts s' = dicts s).
Proof. intros H. eapply runs_post; [by apply (runs_io _ _)|]. simpl. intros. by apply same_dicts. Qed.

Lemma runs_ios_d n s : dict_inv s -> runs (ios n) s dict_inv dict_rel (fun _ s' => dicts s' = dicts s).
Proof. intros H. eapply runs_post; [by apply (runs_ios _ _)|]. simpl. intros. by apply same_dicts. Qed.

(** A write that becomes visible between [n] and [k] fallible primitives. *)
Lemma runs_write n k f s :
  dict_inv s -> dict_ok (f (dicts s)) -> dict_extends (dicts s) (f (dicts s)) ->
  runs (_ ← ios n; _ ← modDicts f; ios k) s dict_inv dict_rel (fun _ s' => dicts s' = f (dicts s)).
Proof.
  intros HI H1 H2. rbind; [by apply runs_ios_d|]. intros [] s1 HI1 _ Hd1.
  rbind; [apply runs_modDicts; by rewrite Hd1|]. intros [] s2 HI2 _ Hd2.
  eapply runs_post; [by apply runs_ios_d|]. simpl. intros [] s3 _ _ Hd3. congruence.
Qed.

(** ** Bootstrap *)

Lemma runs_try_io s : dict_inv s -> runs (try io) s dict_inv dict_rel
  (fun r s' => dicts s' = dicts s /\ match r with inl e => isNotExist e = false | inr _ => True end).
Proof.
  intros HI. pose proof (runs_io_d s HI) as Hr. revert Hr. unfold runs, try, io.
  destruct (faults s) as [|[|e|n e] r] eqn:Hf; try naive_solver;
    intros (H1 & H2 & H3); split_and!; done.
Qed.

Lemma registryHas_spec s :
  dict_inv s -> runs registryHasDictionaryState s dict_inv dict_rel
    (fun b s' => dicts s' = dicts s /\ (b = false -> forall id, ~ registered (dicts s) id)).
Proof.
  intros HI. unfold registryHasDictionaryState.
  rbind; [by apply runs_try_io|]. intros [e|[]] s1 HI1 _ [Hd1 He]; cbn beta iota.
  - rret; [done|]. by rewrite He.
  - rgets. rret; [done|]. rewrite Hd1. split; [done|]. intros Hb id (v & m & Hm & Hin). rewrite Hm in Hb.
    apply negb_false_iff, bool_decide_eq_true in Hb. subst m. rewrite lookup_empty in Hin.
    by destruct Hin.
Qed.

Lemma probe_spec (f : DictState -> bool) s :
  dict_inv s -> runs (directoryHasEntries f) s dict_inv dict_rel (fun _ s' => dicts s' = dicts s).
Proof.
  intros HI. rbind; [by apply runs_try_io|]. intros [e|[]] s1 HI1 _ [Hd1 _]; cbn beta iota.
  - by rret.
  - rgets. by rret.
Qed.

Lemma hasDictionaryState_spec s :
  dict_inv s -> runs hasDictionaryState s dict_inv dict_rel
    (fun b s' => dicts s' = dicts s /\ (b = false -> forall id, ~ registered (dicts s) id)).
Proof.
  intros HI. unfold hasDictionaryState. rbind; [by apply registryHas_spec|].
  intros [] s1 HI1 _ [Hd1 Hn]; [by rret|].
  rbind. { apply (probe_spec (fun d => match dsCurrent d with Some t => negb (blank t) | None => false end)). done. }
  intros [] s2 HI2 _ Hd2; [rret; [done|]; split; [congruence|done]|].
  rbind; [by apply probe_spec|].
  intros [] s3 HI3 _ Hd3; [rret; [done|]; split; [congruence|done]|].
  eapply runs_post; [by apply probe_spec|]. intros b s4 _ _ Hd4. split; [congruence|auto].
Qed.

Definition unregistered (d : DictState) : Prop := forall id, ~ registered d id.

Lemma dict_ok_files d f : dict_ok d -> unregistered d -> dict_ok (ds_files f d).
Proof.
  intros [H0 Hdir H1 H2 H3 H4 H5] Hn. split; [done|done|..].
  - intros id Hr. by destruct (Hn id).
  - exact H2.
  - intros fam id b Ha. destruct (H3 _ _ _ Ha) as [Hr _]. by destruct (Hn id).
  - intros id e He. destruct (H4 _ _ He) as [[->|Hr] Hd]; [|by destruct (Hn id)]. by split; [left|].
  - intros id e He. destruct (H5 _ _ He) as [[->|Hr] Hd]; [|by destruct (Hn id)]. by split; [left|].
Qed.

Lemma extends_unregistered d d' : unregistered d -> dict_extends d d'.
Proof. intros Hn id Hr. by destruct (Hn id). Qed.

Lemma dict_ok_registry d v m : dict_ok d -> unregistered d ->
  (forall id, is_Some (m !! id) -> id <> EmptyString /\
    (exists b, dictBytesOf d id = Some b /\ b <> []) /\ is_Some (ParseUint32 id)) ->
  dict_ok (ds_registry (Some (Reg v m)) d).
Proof.
  intros [H0 Hdir H1 H2 H3 H4 H5] Hn Hm. split; [eauto|done|..].
  - intros id (v' & m' & [= <- <-] & Hin). by apply Hm.
  - intros files name text Hf Hl. destruct (H2 _ _ _ Hf Hl) as [?|[?|(v' & m' & rec & Hr & Hl' & _)]]; [auto..|].
    destruct (Hn (TrimSpace text)). exists v', m'. eauto.
  - intros fam id b Ha. destruct (H3 _ _ _ Ha) as [Hr _]. by destruct (Hn id).
  - intros id e He. destruct (H4 _ _ He) as [[->|Hr] Hd]; [|by destruct (Hn id)]. by split; [left|].
  - intros id e He. destruct (H5 _ _ He) as [[->|Hr] Hd]; [|by destruct (Hn id)]. by split; [left|].
Qed.

Lemma dict_ok_markers d files : dict_ok d ->
  (forall name text, files !! name = Some text ->
    TrimSpace text = EmptyString \/ sanitizeDictionaryFamily name = EmptyString \/
    exists v m rec, dsRegistry d = Some (Reg v m) /\ m !! TrimSpace text = Some rec /\
      rrFamily rec = sanitizeDictionaryFamily name) ->
  dict_ok (ds_markers (Dir files) d).
Proof. intros [H0 Hdir H1 H2 H3 H4 H5] Hf. split; try done. intros f' name text [= <-]. apply Hf. Qed.

Lemma extends_markers d m : dict_extends d (ds_markers m d).
Proof. by intros id. Qed.

Lemma writeMarker_spec s family id v m rec :
  dict_inv s -> dsRegistry (dicts s) = Some (Reg v m) -> m !! TrimSpace id = Some rec ->
  rrFamily rec = sanitizeDictionaryFamily (sanitizeDictionaryFamily family) ->
  runs (writeMarker family id) s dict_inv dict_rel
    (fun _ s' => dsRegistry (dicts s') = Some (Reg v m)).
Proof.
  intros HI Hreg Hm Hf. unfold writeMarker. rbind; [by apply runs_io_d|]. intros [] s1 HI1 _ Hd1. rgets.
  assert (forall files, (dsMarkers (dicts s) = Dir files \/ files = ∅) ->
    dict_ok (ds_markers (Dir (<[sanitizeDictionaryFamily family := id]> files)) (dicts s))) as Hok.
  { intros files Hfs. apply dict_ok_markers; [done|]. intros name text.
    rewrite lookup_insert_Some. intros [[<- <-]|[_ Hl]]; [eauto 10|].
    destruct Hfs as [Hfs| ->]; [by eapply dk_markers|]. by rewrite lookup_empty in Hl. }
  rewrite Hd1. destruct (dsMarkers (dicts s)) as [| |files] eqn:Hdir.
  - rbind. { apply runs_modDicts; rewrite Hd1; [|apply extends_markers]. by apply dict_ok_markers. }
    intros [] s2 HI2 _ Hd2. eapply runs_post; [apply runs_write; [done|..]|].
    + rewrite Hd2, Hd1. apply (Hok ∅). auto.
    + apply extends_markers.
    + intros [] s3 _ _ ->. simpl. by rewrite Hd2, Hd1.
  - by destruct (dk_dir _ HI).
  - eapply runs_post; [apply runs_write; [done|..]|].
    + rewrite Hd1. apply Hok. auto.
    + apply extends_markers.
    + intros [] s3 _ _ ->. simpl. by rewrite Hd1.
Qed.

(** What the first bootstrap loop has built after the seeds [l]. *)
Definition seedFiles (l : list defaultDictionary) (f : gmap string bytes) : gmap string bytes :=
  foldl (fun f d => <[ddId d := ddBytes d]> f) f l.
Definition seedRecords (t : Time) (l : list defaultDictionary) : gmap string dictionaryRegistryRecord :=
  foldl (fun m d => <[ddId d := seedRecord t d]> m) ∅ l.

Lemma seeds_enabled d : d ∈ defaultDictionarySeeds -> defaultEnabledDictionaryFamily (ddFamily d) = true.
Proof.
  intros H. apply list_elem_of_In in H. simpl in H. by repeat destruct H as [<-|H].
Qed.

Lemma prefix_elem {A} (l r : list A) x : r ++ [x] `prefix_of` l -> x ∈ l.
Proof. intros [k ->]. rewrite !elem_of_app, list_elem_of_singleton. auto. Qed.

Lemma seedRecords_lookup t id : is_Some (seedRecords t defaultDictionarySeeds !! id) ->
  exists d, d ∈ defaultDictionarySeeds /\ id = ddId d.
Proof.
  intros [r Hr]. unfold seedRecords in Hr. cbn [foldl defaultDictionarySeeds] in Hr.
  repeat (apply lookup_insert_Some in Hr as [[<- _]|[_ Hr]];
    [eexists; (split; [|reflexivity]); apply list_elem_of_In; simpl; tauto|]).
  by rewrite lookup_empty in Hr.
Qed.

Lemma seed_ok t d f : d ∈ defaultDictionarySeeds ->
  seedRecords t defaultDictionarySeeds !! ddId d = Some (seedRecord t d) /\
  seedFiles defaultDictionarySeeds f !! ddId d = Some (ddBytes d) /\
  ddId d <> EmptyString /\ ddBytes d <> [] /\ is_Some (ParseUint32 (ddId d)) /\
  TrimSpace (ddId d) = ddId d /\
  ddFamily d = sanitizeDictionaryFamily (sanitizeDictionaryFamily (ddFamily d)).
Proof.
  intros H. apply list_elem_of_In in H. simpl in H.
  repeat destruct H as [<-|H]; [..|done]; (split_and!;
    [reflexivity|unfold seedFiles; cbn [foldl defaultDictionarySeeds ddId ddBytes];
      repeat (rewrite lookup_insert_eq || rewrite lookup_insert_ne by done); reflexivity
    |discriminate|discriminate|by eexists; reflexivity|reflexivity|reflexivity]).
Qed.

Lemma bootstrap_spec s : dict_inv s ->
  runs bootstrapDefaultDictionaries s dict_inv dict_rel (fun _ _ => True).
Proof.
  intros HI. unfold bootstrapDefaultDictionaries.
  rbind; [by apply hasDictionaryState_spec|]. intros [] s1 HI1 _ [Hd1 Hn]; [by rret|].
  specialize (Hn eq_refl). rewrite <- Hd1 in Hn. clear Hd1.
  rbind; [by apply (runs_now _ _)|]. intros t s2 HI2 _ [Hs2 _].
  assert (unregistered (dicts s2)) as Hn2 by by rewrite (same_dicts _ _ Hs2).
  rbind.
  { apply (runs_forM _ _ _ _ _ _ (fun done reg s' => reg = seedRecords t done /\
      dicts s' = ds_files (fun _ => seedFiles done (dsFiles (dicts s2))) (dicts s2))).
    - done.
    - split; [done|]. by destruct (dicts s2).
    - intros done reg d s' Hp HI' _ [-> Hd'].
      rewrite seeds_enabled by (by eapply prefix_elem). cbn [negb].
      rbind; [by apply runs_io_d|]. intros [] s3 HI3 _ Hd3.
      assert (unregistered (dicts s3)) as Hn3 by by rewrite Hd3, Hd'.
      rbind. { apply runs_write; [done|by apply dict_ok_files|by apply extends_unregistered]. }
      intros [] s4 HI4 _ Hd4. rret; [done|].
      unfold seedRecords, seedFiles. rewrite !foldl_snoc. split; [done|].
      rewrite Hd4, Hd3, Hd'. done. }
  intros reg s3 HI3 _ [-> Hd3].
  assert (unregistered (dicts s3)) as Hn3 by by rewrite Hd3.
  rbind.
  { apply runs_write; [done| |by apply extends_unregistered].
    apply dict_ok_registry; [done|done|]. intros id Hid.
    destruct (seedRecords_lookup _ _ Hid) as (d & Hd & ->).
    destruct (seed_ok t d (dsFiles (dicts s2)) Hd) as (_ & Hf & ? & ? & ? & _).
    split; [done|]. split; [|done]. exists (ddBytes d). split; [|done].
    rewrite Hd3. unfold dictBytesOf, ds_files. cbn [dsFiles]. by rewrite Hf. }
  intros [] s4 HI4 _ Hd4.
  eapply runs_post; [apply (runs_forM_inv _ _ _ _ _ _ (fun _ s' =>
    dsRegistry (dicts s') = Some (Reg 1 (seedRecords t defaultDictionarySeeds))))|done].
  - done.
  - by rewrite Hd4.
  - intros [] d s5 Hd HI5 _ Hreg. rewrite seeds_enabled by done. cbn [negb].
    destruct (seed_ok t d ∅ Hd) as (Hr & _ & _ & _ & _ & Htr & Hsan).
    apply (writeMarker_spec _ _ _ _ _ (seedRecord t d)); [done|done|by rewrite Htr|done].
Qed.

Lemma dict_ok_flag d b : dict_ok d -> dict_ok (ds_bootstrapped b d).
Proof. by intros []. Qed.

Lemma extends_eq d d' : dsRegistry d' = dsRegistry d -> dsFiles d' = dsFiles d -> dsLegacy d' = dsLegacy d ->
  dict_extends d d'.
Proof. intros H1 H2 H3 id. unfold registered, dictBytesOf. by rewrite H1, H2, H3. Qed.

Lemma ensureBootstrap_spec s : dict_inv s ->
  runs ensureDictionaryBootstrap s dict_inv dict_rel (fun _ _ => True).
Proof.
  intros HI. unfold ensureDictionaryBootstrap. rgets. destruct (dsBootstrapped (dicts s)); [by rret|].
  rbind; [by apply bootstrap_spec|]. intros [] s1 HI1 _ _.
  eapply runs_post; [apply runs_modDicts; [by apply dict_ok_flag|by apply extends_eq]|done].
Qed.

(** ** Active dictionaries *)

Lemma readDictionaryBytes_spec s id b : dict_inv s -> dictBytesOf (dicts s) id = Some b ->
  runs (readDictionaryBytes id) s dict_inv dict_rel (fun r s' => dicts s' = dicts s /\ r = b).
Proof.
  intros HI Hb. unfold readDictionaryBytes. rbind; [by apply runs_io_d|]. intros [] s1 HI1 _ Hd1. rgets.
  rewrite Hd1. unfold dictBytesOf in Hb. destruct (dsFiles (dicts s) !! id) as [x|]; simplify_eq.
  - by rret.
  - rbind; [by apply runs_io_d|]. intros [] s2 HI2 _ Hd2. rewrite Hb. rret; [done|]. split; [congruence|done].
Qed.

Lemma readMarkerDir_spec s : dict_inv s -> runs readMarkerDir s dict_inv dict_rel
  (fun r s' => dicts s' = dicts s /\ forall m, r = Some m -> dsMarkers (dicts s) = Dir m).
Proof.
  intros HI. unfold runs, readMarkerDir. pose proof (runs_io_d s HI) as H1. unfold runs in H1.
  destruct (io s) as [[u|e|] s1]; [..|done]; destruct H1 as (HI1 & HR1 & Hd1);
    pose proof (runs_io_d s1 HI1) as H2; unfold runs in H2;
    destruct (dsMarkers (dicts s)) as [| |m] eqn:Hm; try (by destruct (dk_dir _ HI));
    try (split_and!; [done..|naive_solver]);
    destruct (io s1) as [[u'|e'|] s2]; try done; destruct H2 as (HI2 & HR2 & Hd2); simpl;
    split_and!; try done; by etrans.
Qed.

Lemma loadMarker_spec s v records marker family : dict_inv s ->
  dsRegistry (dicts s) = Some (Reg v records) \/ records = ∅ ->
  (TrimSpace marker = EmptyString \/ exists rec, records !! TrimSpace marker = Some rec /\ rrFamily rec = family) ->
  runs (loadActiveDictionaryMarker records marker family) s dict_inv dict_rel
    (fun r s' => dicts s' = dicts s /\ forall id b, r = Some (id, b) ->
      registered (dicts s) id /\ dictBytesOf (dicts s) id = Some b).
Proof.
  intros HI Hreg Hm. unfold loadActiveDictionaryMarker.
  rbind; [by apply runs_io_d|]. intros [] s1 HI1 _ Hd1.
  destruct (String.eqb_spec (TrimSpace marker) "") as [|Hne]; [by rret|].
  destruct Hm as [?|(rec & Hrec & <-)]; [done|]. rewrite Hrec, String.eqb_refl. cbn [negb].
  destruct Hreg as [Hreg| ->]; [|by rewrite lookup_empty in Hrec].
  assert (registered (dicts s) (TrimSpace marker)) as Hr by (exists v, records; eauto).
  destruct (dk_files _ HI _ Hr) as (_ & (b & Hb & Hb0) & _).
  rbind; [apply (readDictionaryBytes_spec _ _ b); [done|by rewrite Hd1]|].
  intros r s2 HI2 _ [Hd2 ->]. destruct b; [done|]. rret; [done|]. split; [congruence|naive_solver].
Qed.

Lemma loadActive_spec s : dict_inv s -> runs loadActiveDictionariesLocked s dict_inv dict_rel
  (fun active s' => dicts s' = dicts s /\ forall family id b, active !! family = Some (id, b) ->
      registered (dicts s) id /\ dictBytesOf (dicts s) id = Some b).
Proof.
  intros HI. unfold loadActiveDictionariesLocked.
  rbind.
  { instantiate (1 := fun p s' => dicts s' = dicts s /\
      (dsRegistry (dicts s) = Some (Reg p.1 p.2) \/ dsRegistry (dicts s) = None /\ p.2 = ∅)).
    unfold readDictionaryRegistry. rbind; [by apply runs_io_d|]. intros [] s1 HI1 _ Hd1. rgets.
    rewrite Hd1. destruct (dk_reg _ HI) as [->|(v & m & ->)]; rret; auto. }
  intros [v records] s1 HI1 _ [Hd1 Hreg]. simpl in Hreg.
  rbind; [by apply readMarkerDir_spec|]. intros [m|] s2 HI2 _ [Hd2 Hm]; cbn beta iota.
  2: { rret; [done|]. split; [congruence|]. intros family id b. by rewrite lookup_empty. }
  specialize (Hm m eq_refl). rewrite Hd1 in *.
  apply (runs_forM_inv _ _ _ _ _ _ (fun active s' => dicts s' = dicts s /\
    forall family id b, active !! family = Some (id, b) ->
      registered (dicts s) id /\ dictBytesOf (dicts s) id = Some b)).
  - done.
  - split; [congruence|]. intros family id b. by rewrite lookup_empty.
  - intros active [name text] s3 Hin HI3 _ [Hd3 Ha]. cbn [fst snd].
    destruct (String.eqb_spec (sanitizeDictionaryFamily name) "") as [|Hne]; [by rret|].
    rbind.
    { apply (loadMarker_spec _ v); [done|rewrite Hd3; naive_solver|].
      unfold sortedEntries in Hin. rewrite sortStable_perm in Hin. apply elem_of_map_to_list in Hin.
      destruct (dk_markers _ HI _ _ _ Hm Hin) as [?|[?|(v' & m' & rec & Hr & ? & ?)]]; [auto|done|].
      right. exists rec. destruct Hreg as [Hreg|[Hreg _]]; [|congruence]. rewrite Hreg in Hr.
      by simplify_eq. }
    intros [[id b]|] s4 HI4 _ [Hd4 Hr]; cbn beta iota; (rret; [done|]; split; [congruence|]); [|done].
    intros fam' id' b'. rewrite lookup_insert_Some. intros [[_ [= <- <-]]|[_ ?]]; [|eauto].
    rewrite <- Hd3. auto.
Qed.

Lemma dict_ok_active d l a : dict_ok d ->
  (forall family id b, a !! family = Some (id, b) -> registered d id /\ dictBytesOf d id = Some b) ->
  dict_ok (ds_active l a d).
Proof. by intros []. Qed.

Lemma activeDictionary_spec s family : dict_inv s -> runs (activeDictionary family) s dict_inv dict_rel
  (fun p s' => p = (EmptyString, []) \/ (registered (dicts s') p.1 /\ dictBytesOf (dicts s') p.1 = Some p.2)).
Proof.
  intros HI. unfold activeDictionary. destruct (_ || _); [by rret; [|left]|].
  rbind; [by apply ensureBootstrap_spec|]. intros [] s1 HI1 _ _. rgets.
  rbind.
  { instantiate (1 := fun _ _ => True). destruct (dsLoaded (dicts s1)); [by rret|].
    rbind; [by apply loadActive_spec|]. intros active s2 HI2 _ [Hd2 Ha].
    eapply runs_post; [apply runs_modDicts; [|by apply extends_eq]|done].
    apply dict_ok_active; [done|]. by rewrite Hd2. }
  intros [] s2 HI2 _ _. rgets. rret; [done|].
  destruct (dsActive (dicts s2) !! _) as [[id b]|] eqn:Ha; [right|by left].
  by apply (dk_active _ HI2) in Ha.
Qed.

(** ** Codecs *)

Lemma dict_ok_enc d id e : dict_ok d -> usable d id -> dictOf d id = Some e ->
  dict_ok (ds_encoders (<[id := e]> (dsEncoders d)) d).
Proof.
  intros [] Hu He. split; try done. intros id' e'. simpl. rewrite lookup_insert_Some.
  intros [[<- <-]|[_ ?]]; [done|]. apply dk_enc0. done.
Qed.

Lemma dict_ok_dec d id e : dict_ok d -> usable d id -> dictOf d id = Some e ->
  dict_ok (ds_decoders (<[id := e]> (dsDecoders d)) d).
Proof.
  intros [] Hu He. split; try done. intros id' e'. simpl. rewrite lookup_insert_Some.
  intros [[<- <-]|[_ ?]]; [done|]. apply dk_dec0. done.
Qed.

Lemma compress_spec s chunk family : dict_inv s ->
  runs (compressChunkContent chunk family) s dict_inv dict_rel
    (fun r s' => usable (dicts s') r.1.2 /\
      exists e, dictOf (dicts s') r.1.2 = Some e /\ r.1.1 = zEncode e chunk).
Proof.
  intros HI. unfold compressChunkContent.
  rbind; [by apply activeDictionary_spec|]. intros [id b] s1 HI1 _ Hp. cbn [fst snd] in *.
  assert (usable (dicts s1) id) as Hu by (destruct Hp as [[= -> ->]|[? _]]; [by left|by right]).
  rbind.
  { instantiate (1 := fun e s' => usable (dicts s') id /\ dictOf (dicts s') id = Some e).
    unfold dictEncoder. rgets. destruct (dsEncoders (dicts s1) !! id) as [e|] eqn:He.
    { rret; [done|]. by apply (dk_enc _ HI1). }
    assert (exists e, dictOf (dicts s1) id = Some e /\ match b with [] => @mret M _ _ None
      | _ => match ParseUint32 id with None => fail (ErrMsg "invalid dictionary id")
             | Some rawID => mret (Some (rawID, b)) end end = mret e) as (e & Hdo & ->).
    { destruct Hp as [[= -> ->]|[Hr Hb]]; [by exists None|].
      destruct (dictOf_registered _ _ _ HI1 Hr Hb) as (n & Hn & Hdo).
      destruct (dk_files _ HI1 _ Hr) as (_ & (b' & Hb' & Hne) & _).
      exists (Some (n, b)). split; [done|]. destruct b; [congruence|]. by rewrite Hn. }
    apply runs_ret_bind. rbind. { apply runs_modDicts; [by apply dict_ok_enc|by apply extends_eq]. }
    intros [] s2 HI2 _ Hd2. rret; [done|]. rewrite Hd2. done. }
  intros e s2 HI2 _ [Hu2 He]. rret; [done|]. simpl. eauto.
Qed.

Lemma decompress_spec s compressed id e chunk : dict_inv s ->
  usable (dicts s) id -> dictOf (dicts s) id = Some e -> zDecode e compressed = Some chunk ->
  runs (decompressChunkContent compressed id) s dict_inv dict_rel (fun r _ => r = chunk).
Proof.
  intros HI Hu He Hz. unfold decompressChunkContent.
  rbind.
  { instantiate (1 := fun d _ => d = e). unfold dictDecoder. rgets.
    destruct (dsDecoders (dicts s) !! id) as [d|] eqn:Hd.
    { rret; [done|]. destruct (dk_dec _ HI _ _ Hd). congruence. }
    rbind.
    { instantiate (1 := fun d s' => d = e /\ dicts s' = dicts s).
      unfold dictOf in He. destruct (String.eqb_spec id "") as [->|Hne]; cbn [negb]; [rret; naive_solver|].
      destruct (dictBytesOf (dicts s) id) as [b|] eqn:Hb; [|done]. simpl in He.
      rbind; [by apply readDictionaryBytes_spec|]. intros r s1 HI1 _ [Hd1 ->].
      destruct (ParseUint32 id); [|done]. rret; naive_solver. }
    intros d s1 HI1 _ [-> Hd1].
    rbind. { apply runs_modDicts; [|by apply extends_eq]. rewrite Hd1. by apply dict_ok_dec. }
    intros [] s2 HI2 _ _. by rret. }
  intros d s1 HI1 _ ->. rewrite Hz. by rret.
Qed.

End dictionary_spec.

(** Dictionary compression round-trips for good: when [compressChunkContent]
    has returned bytes and a dictionary id (in any dictionary state the
    invariant allows, whatever I/O failed on the way), decompressing them under
    that id gives the chunk back in every later state that kept the registered
    dictionaries, even if another dictionary has become active since. *)
Theorem dictionary_roundtrip {E : Ext} `{!ExtLaws E} (s s1 s2 : Store) (chunk z : bytes) (family id fam : string) :
  dict_ok (dicts s) ->
  compressChunkContent chunk family s = (Ok (z, id, fam), s1) ->
  dict_ok (dicts s2) -> dict_extends (dicts s1) (dicts s2) -> faults s2 = [] ->
  exists s3, decompressChunkContent z id s2 = (Ok chunk, s3).
Proof.
  intros HI Hc HI2 Hx Hf. pose proof (compress_spec s chunk family HI) as H.
  unfold runs in H. rewrite Hc in H. destruct H as (_ & _ & Hu & e & He & Hz). simpl in *. subst z.
  destruct (usable_extends _ _ _ Hx Hu) as [Hu2 He2]. rewrite He in He2.
  pose proof (decompress_spec s2 _ _ e chunk HI2 Hu2 He2 (zDecode_encode e chunk)) as H.
  unfold runs in H. destruct (decompressChunkContent _ id s2) as [[r|err|] s3]; [..|done].
  - destruct H as (_ & _ & ->). eauto.
  - by destruct H as (_ & _ & ?).
Qed.

(** ** Example: a fresh store bootstraps its default dictionaries *)

Lemma emptyDicts_ok : dict_ok emptyDicts.
Proof.
  split; try done; [by left|..].
  - by intros id (v & m & ? & _).
Qed.

Definition helloBytes : bytes := String.list_byte_of_string "Subject: hi".
Definition helloState : Store := (compressChunkContent helloBytes DictionaryFamilyMailHeaders emptyStore).2.

Lemma helloCompressed : compressChunkContent helloBytes DictionaryFamilyMailHeaders emptyStore =
  (Ok (Byte.x01 :: helloBytes, "1001", "mail-rfc822-headers"), helloState).
Proof.
  unfold helloState.
  assert ((compressChunkContent helloBytes DictionaryFamilyMailHeaders emptyStore).1 =
    Ok (Byte.x01 :: helloBytes, "1001", "mail-rfc822-headers")) as H by (vm_compute; reflexivity).
  exact (run_eq _ _ _ H).
Qed.

Lemma dictionary_roundtrip_witness :
  exists s3, decompressChunkContent (Byte.x01 :: helloBytes) "1001" helloState = (Ok helloBytes, s3).
Proof.
  apply (dictionary_roundtrip emptyStore helloState helloState helloBytes _
    DictionaryFamilyMailHeaders "1001" "mail-rfc822-headers").
  - exact emptyDicts_ok.
  - exact helloCompressed.
  - pose proof (compress_spec emptyStore helloBytes DictionaryFamilyMailHeaders emptyDicts_ok) as H.
    unfold runs in H. unfold helloState.
    destruct (compressChunkContent helloBytes DictionaryFamilyMailHeaders emptyStore) as [[r|e|] s];
      [by destruct H..|done].
  - reflexivity.
  - vm_compute. reflexivity.
Defined.
