(* ===== verification/ChunkStore.v ===== *)
(** * The chunk store: [filestore/chunkstore.go], [filestore/commit_batch.go]

    Content-addressed storage of chunks in append-only packs: appending to the
    active pack, fsync of touched packs, storing chunks and whole objects (one
    write at a time, or buffered in a commit batch), reading them back, and the
    streaming reader.  Pack handles are opened on each read: a handle kept by
    [packCache] reads the same bytes, since a pack only grows. *)

From stdpp Require Import options.
From S2P Require Import Prelude GoLib GoText Contracts Lru Chunker Meta Concrete DictionaryFamily Dictionary.

Open Scope Z_scope.

#[local] Existing Instance SizedLru.sized_byteCache.

Definition packTargetBytes : Z := 256 * 1024 * 1024.

(** [buf[offset : offset+length]] of a file. *)
Definition slice (offset length : Z) (data : bytes) : bytes := ztake length (zdrop offset data).

Section chunkstore.
Context {E : Ext}.

(** ** Packs *)

(** The loop over directory entries that finds the highest pack id. *)
Definition maxPackId (ids : list N) : option N :=
  foldl (fun found id => match found with
    | None => Some id
    | Some maxID => if (maxID <? id)%N then Some id else found
    end) None ids.

Definition packIds (s : Store) : list N := (map_to_list (packs s)).*1.

Definition readActivePack : M (N * Z) :=
  _ ← io;
  dir ← gets packsDir;
  if negb dir then fail ErrNotExist else
  ids ← gets packIds;
  match maxPackId ids with
  | None => mret (0%N, 0)
  | Some maxID =>
      _ ← io;
      ps ← gets packs;
      match ps !! maxID with
      | None => fail ErrNotExist
      | Some pk => mret (maxID, blen (pkData pk))
      end
  end.

Definition cachedActivePack : M (N * Z) :=
  known ← gets activePack;
  match known with
  | Some p => mret p
  | None => p ← readActivePack; _ ← modify (set_activePack (Some p)); mret p
  end.

Definition openEffect (id : N) (s : Store) : Store :=
  set_packs (match packs s !! id with
    | Some _ => packs s
    | None => <[id := MkPack [] 0 false]> (packs s)
    end) s.

(** [os.OpenFile(path, O_CREATE|O_APPEND|O_WRONLY)]. *)
Definition openPackAppend (id : N) : M unit :=
  _ ← io; modify (openEffect id).

Definition appendBytes (id : N) (b : bytes) (s : Store) : Store :=
  set_packs (alter (fun pk => MkPack (pkData pk ++ b) (pkSynced pk) (pkLinked pk)) id (packs s)) s.

(** [file.Write(b)]: a failing write may have appended some of the bytes. *)
Definition writePack (id : N) (b : bytes) : M unit := fun s =>
  match faults s with
  | [] => (Ok tt, appendBytes id b s)
  | FOk :: r => (Ok tt, appendBytes id b (set_faults r s))
  | FErr e :: r => (Err (ErrMsg e), set_faults r s)
  | FShort n e :: r => (Err (ErrMsg e), appendBytes id (take n b) (set_faults r s))
  end.

(** On an error, run [h] and return the error. *)
Definition onError {A} (m : M A) (h : Store -> Store) : M A := fun s =>
  match m s with (Err e, s') => (Err e, h s') | other => other end.

Definition appendToActivePackNoSync (compressed : bytes) : M (N * Z) :=
  _ ← io;
  _ ← modify (set_packsDir true);
  p ← cachedActivePack;
  let '(id, size) := if packTargetBytes <=? p.2 then ((p.1 + 1)%N, 0) else p in
  _ ← openPackAppend id;
  _ ← onError (writePack id compressed) (set_activePack None);
  _ ← modify (set_activePack (Some (id, size + blen compressed)));
  mret (id, size).

(** fsync of one pack and of the pack directory. *)
Definition syncPack (id : N) : M unit :=
  _ ← io;
  ps ← gets packs;
  match ps !! id with
  | None => fail ErrNotExist
  | Some _ =>
      _ ← io;
      _ ← modify (fun s => set_packs (alter (fun pk =>
            MkPack (pkData pk) (length (pkData pk)) (pkLinked pk)) id (packs s)) s);
      io
  end.

Definition fsyncPacksDir : M unit :=
  _ ← io;
  dir ← gets packsDir;
  if negb dir then fail ErrNotExist else
  _ ← io;
  modify (fun s => set_packs ((fun pk => MkPack (pkData pk) (pkSynced pk) true) <$> packs s) s).

Definition syncTouchedPacks (ids : gset N) : M unit :=
  if bool_decide (ids = ∅) then mret tt else
  _ ← forM (elements ids) tt (fun _ id => syncPack id);
  fsyncPacksDir.

Definition appendToActivePack (compressed : bytes) : M (N * Z) :=
  p ← appendToActivePackNoSync compressed;
  _ ← onError (syncTouchedPacks {[p.1]}) (set_activePack None);
  mret p.

(** [commitBatch.commit]. *)
Definition commit (cb : commitBatch) : M unit :=
  _ ← syncTouchedPacks (cbTouched cb);
  metaApply (cbWrites cb).

(** ** Storing *)

Definition lookupChunk (hash : string) : M (option chunkIndexEntry) := metaGet asChunk (chunkIndexKey hash).

Definition storeChunk (chunk : bytes) (family : string) : M string :=
  _ ← ctxErr;
  let hash := blake3 chunk in
  found ← lookupChunk hash;
  match found with
  | Some _ => mret hash
  | None =>
      c ← compressChunkContent chunk family;
      let '(compressed, dictID, dictFamily) := c in
      again ← lookupChunk hash;
      match again with
      | Some _ => mret hash
      | None =>
          p ← appendToActivePack compressed;
          t ← now;
          _ ← metaPut (chunkIndexKey hash)
                (VChunk (MkChunkEntry t hash dictID dictFamily p.1 p.2 (blen compressed)));
          mret hash
      end
  end.

Definition cbSee (hash : string) (cb : commitBatch) : commitBatch :=
  MkBatch (cbWrites cb) (cbTouched cb) ({[hash]} ∪ cbSeen cb).
Definition cbTouch (id : N) (cb : commitBatch) : commitBatch :=
  MkBatch (cbWrites cb) ({[id]} ∪ cbTouched cb) (cbSeen cb).

(** The batch is threaded through: the caller's [*commitBatch]. *)
Definition storeChunkBatched (cb : commitBatch) (chunk : bytes) (family : string) : M (string * commitBatch) :=
  _ ← ctxErr;
  let hash := blake3 chunk in
  if bool_decide (hash ∈ cbSeen cb) then mret (hash, cb) else
  found ← lookupChunk hash;
  match found with
  | Some _ => mret (hash, cbSee hash cb)
  | None =>
      c ← compressChunkContent chunk family;
      let '(compressed, dictID, dictFamily) := c in
      again ← lookupChunk hash;
      match again with
      | Some _ => mret (hash, cbSee hash cb)
      | None =>
          p ← appendToActivePackNoSync compressed;
          t ← now;
          let cb := cbSet (chunkIndexKey hash)
            (VChunk (MkChunkEntry t hash dictID dictFamily p.1 p.2 (blen compressed))) cb in
          mret (hash, cbSee hash (cbTouch p.1 cb))
      end
  end.

Definition storeBlobContent (digest : ObjectDigest) (content : bytes) (mediaType : string)
    (contentRoles : list string) : M unit :=
  _ ← ctxErr;
  t ← now;
  let family := dictionaryFamilyForObject mediaType contentRoles in
  chunks ← liftPanic (chunkContent content);
  hashes ← forM chunks [] (fun hashes chunk => h ← storeChunk chunk family; mret (hashes ++ [h]));
  metaPut (objectRecipeKey digest) (VRecipe (MkRecipe t digest hashes (blen content))).

Definition storeBlobContentBatched (cb : commitBatch) (digest : ObjectDigest) (content : bytes)
    (mediaType : string) (contentRoles : list string) : M commitBatch :=
  _ ← ctxErr;
  t ← now;
  let family := dictionaryFamilyForObject mediaType contentRoles in
  chunks ← liftPanic (chunkContent content);
  r ← forM chunks ([], cb) (fun acc chunk =>
        p ← storeChunkBatched acc.2 chunk family; mret (acc.1 ++ [p.1], p.2));
  mret (cbSet (objectRecipeKey digest) (VRecipe (MkRecipe t digest r.1 (blen content))) r.2).

(** [streamChunks] with a callback on the store: its callback state is the
    store, an accumulator, and whether the callback panicked. *)
Definition streamCallback {B} (fn : B -> bytes -> M B) (chunk : bytes) (st : Store * B * bool) :
    option GoError * (Store * B * bool) :=
  let '(s, acc, _) := st in
  match fn acc chunk s with
  | (Ok acc', s') => (None, (s', acc', false))
  | (Err e, s') => (Some e, (s', acc, false))
  | (Panic, s') => (Some (ErrMsg "panic"), (s', acc, true))
  end.

Definition streamM {B} (r : Reader) (acc : B) (fn : B -> bytes -> M B) : M (Z * Reader * B) := fun s =>
  match streamChunks (streamCallback fn) r (s, acc, false) with
  | None => (Panic, s)
  | Some (t, None, r', (s', acc', _)) => (Ok (t, r', acc'), s')
  | Some (t, Some e, r', (s', acc', panicked)) => (if panicked then Panic else Err e, s')
  end.

(** Digest, SHA-256 and length of a stored object. *)
Definition storeBlobReader (reader : Reader) (mediaType : string) (contentRoles : list string) :
    M (ObjectDigest * string * Z) :=
  _ ← ctxErr;
  let family := dictionaryFamilyForObject mediaType contentRoles in
  r ← streamM (MkReader (script reader) []) [] (fun hashes chunk =>
        h ← storeChunk chunk family; mret (hashes ++ [h]));
  let '(contentBytes, teed, chunkHashes) := r in
  let digest := blake3 (seen teed) in
  t ← now;
  _ ← metaPut (objectRecipeKey digest) (VRecipe (MkRecipe t digest chunkHashes contentBytes));
  mret (digest, sha256 (seen teed), contentBytes).

Definition storeBlobReaderBatched (cb : commitBatch) (reader : Reader) (mediaType : string)
    (contentRoles : list string) : M (ObjectDigest * string * Z * commitBatch) :=
  _ ← ctxErr;
  let family := dictionaryFamilyForObject mediaType contentRoles in
  r ← streamM (MkReader (script reader) []) ([], cb) (fun acc chunk =>
        p ← storeChunkBatched acc.2 chunk family; mret (acc.1 ++ [p.1], p.2));
  let '(contentBytes, teed, (chunkHashes, cb)) := r in
  let digest := blake3 (seen teed) in
  t ← now;
  let cb := cbSet (objectRecipeKey digest) (VRecipe (MkRecipe t digest chunkHashes contentBytes)) cb in
  mret (digest, sha256 (seen teed), contentBytes, cb).

(** ** Reading *)

Definition openPack (id : N) : M bytes :=
  _ ← io;
  ps ← gets packs;
  match ps !! id with None => fail ErrNotExist | Some pk => mret (pkData pk) end.

(** [file.ReadAt(make([]byte, length), offset)]: a negative length panics, a
    negative offset or a short file is an error. *)
Definition readAt (data : bytes) (offset length : Z) : M bytes :=
  if length <? 0 then liftPanic None else
  _ ← io;
  if (offset <? 0) || ((0 <? length) && (blen data <? offset + length)) then fail (ErrMsg "EOF")
  else mret (slice offset length data).

(** [fmt.Errorf("...: %w", err)] around the error of an operation. *)
Definition wrapErr {A} (msg : string) (m : M A) : M A := fun s =>
  match m s with (Err e, s') => (Err (ErrWrap msg e), s') | other => other end.

Definition readChunkAt (hash : string) (entry : chunkIndexEntry) : M bytes :=
  data ← openPack (cePackID entry);
  compressed ← wrapErr "read chunk from pack" (readAt data (ceOffset entry) (ceLength entry));
  chunk ← wrapErr "decompress chunk" (decompressChunkContent compressed (ceDictID entry));
  if bool_decide (blake3 chunk = hash) then mret chunk
  else fail (ErrMsg "chunk failed content verification").

Definition readPackBytes (packID : N) (offset length : Z) : M bytes :=
  data ← openPack packID;
  wrapErr "read bytes from pack" (readAt data offset length).

Definition cacheGet (hash : string) : M (option bytes) :=
  c ← gets chunkCache;
  r ← liftPanic (SizedLru.Get hash c);
  _ ← modify (set_chunkCache r.2);
  mret r.1.

Definition cachePut (hash : string) (chunk : bytes) : M unit :=
  c ← gets chunkCache;
  r ← liftPanic (SizedLru.Put hash chunk c);
  modify (set_chunkCache r).

Definition readChunk (hash : string) : M bytes :=
  cached ← cacheGet hash;
  match cached with
  | Some chunk => mret chunk
  | None =>
      found ← lookupChunk hash;
      match found with
      | None => fail (ErrMsg "chunk not found in index")
      | Some entry =>
          r ← try (readChunkAt hash entry);
          match r with
          | inr chunk => _ ← cachePut hash chunk; mret chunk
          | inl err =>
              if negb (isNotExist err) then fail err else
              fresh ← lookupChunk hash;
              match fresh with
              | None => fail (ErrMsg "chunk not found in index")
              | Some fresh => chunk ← readChunkAt hash fresh; _ ← cachePut hash chunk; mret chunk
              end
          end
      end
  end.

Definition hasRecipe (digest : ObjectDigest) : M bool := metaHas (objectRecipeKey digest).

Definition readRecipe (digest : ObjectDigest) : M (option objectRecipeEntry) :=
  metaGet asRecipe (objectRecipeKey digest).

Definition readBlobContent (digest : ObjectDigest) : M (option bytes) :=
  recipe ← readRecipe digest;
  match recipe with
  | None => mret None
  | Some recipe =>
      content ← forM (reChunkHashes recipe) [] (fun content hash =>
        chunk ← readChunk hash; mret (content ++ chunk));
      mret (Some content)
  end.

(** ** The streaming reader *)

(** [chunkRecipeReader]; the hasher is what it has been fed. *)
Record chunkRecipeReader := MkCRR {
  crHasher : bytes; crPending : bytes; crHashes : list string; crVerifyDigest : string;
  crIndex : nat; crVerified : bool }.

Definition openBlobReader (digest verifyDigest : ObjectDigest) : M (option chunkRecipeReader) :=
  recipe ← readRecipe digest;
  mret (match recipe with
        | None => None
        | Some recipe => Some (MkCRR [] [] (reChunkHashes recipe) verifyDigest 0 false)
        end).

(** The [for len(reader.pending) == 0] loop: [inl] is the early return. *)
Fixpoint crFill (fuel : nat) (r : chunkRecipeReader) : M (readErr * chunkRecipeReader + chunkRecipeReader) :=
  match crPending r with
  | _ :: _ => mret (inr r)
  | [] =>
      match crHashes r !! crIndex r with
      | None =>
          if negb (String.eqb (crVerifyDigest r) "") && negb (crVerified r) then
            let r := MkCRR (crHasher r) (crPending r) (crHashes r) (crVerifyDigest r) (crIndex r) true in
            if negb (String.eqb (blake3 (crHasher r)) (crVerifyDigest r))
            then mret (inl (ReadErr (ErrMsg "CAS digest mismatch"), r))
            else mret (inl (EOF, r))
          else mret (inl (EOF, r))
      | Some hash =>
          match fuel with
          | O => liftPanic None
          | S f =>
              c ← try (readChunk hash);
              match c with
              | inl err => mret (inl (ReadErr err, r))
              | inr chunk =>
                  let hasher := if negb (String.eqb (crVerifyDigest r) "")
                                then crHasher r ++ chunk else crHasher r in
                  crFill f (MkCRR hasher chunk (crHashes r) (crVerifyDigest r) (S (crIndex r)) (crVerified r))
              end
          end
      end
  end.

(** [Read(out)] for a buffer of [n] bytes; one round per remaining chunk. *)
Definition crRead (n : nat) (r : chunkRecipeReader) : M (bytes * readErr * chunkRecipeReader) :=
  x ← crFill (length (crHashes r) - crIndex r) r;
  match x with
  | inl (e, r) => mret ([], e, r)
  | inr r =>
      mret (take n (crPending r), NoErr,
            MkCRR (crHasher r) (drop n (crPending r)) (crHashes r) (crVerifyDigest r) (crIndex r) (crVerified r))
  end.

(** [io.ReadAll] with a script of buffer sizes. *)
Fixpoint crReadAll (sizes : list nat) (r : chunkRecipeReader) (acc : bytes) : M (bytes * readErr) :=
  match sizes with
  | [] => mret (acc, NoErr)
  | n :: sizes =>
      x ← crRead n r;
      let '(b, e, r) := x in
      match e with
      | NoErr => crReadAll sizes r (acc ++ b)
      | _ => mret (acc ++ b, e)
      end
  end.

End chunkstore.

(** ** Invariants *)

(** The namespace a document type lives in. *)
Definition prefixOf (v : Value) : string :=
  match v with
  | VChunk _ => "c/" | VRecipe _ => "r/" | VManifest _ => "m/" | VAnnotation _ => "a/"
  | VSource _ => "si/" | VAlias _ => "sa/" | VParents _ => "cp/" | VRecovery _ => "rec/"
  | VClaim _ => "lk/" | VChange _ => "pc"
  end.

(** A document in its namespace; a change record points into the change index. *)
Definition typed (k : string) (v : Value) : bool :=
  HasPrefix k (prefixOf v) && match v with VChange e => HasPrefix (pcKey e) "pc/" | _ => true end.

Section chunkstore_spec.
Context {E : Ext}.

(** The index entry [e] locates the content [c]: the pack slice decodes to it
    under the recorded dictionary, and it hashes to the chunk's name. *)
Definition entry_at (s : Store) (e : chunkIndexEntry) (c : bytes) : Prop :=
  exists pk d, packs s !! cePackID e = Some pk /\
    0 <= ceOffset e /\ 0 <= ceLength e /\ ceOffset e + ceLength e <= blen (pkData pk) /\
    usable (dicts s) (ceDictID e) /\ dictOf (dicts s) (ceDictID e) = Some d /\
    zDecode d (slice (ceOffset e) (ceLength e) (pkData pk)) = Some c /\ blake3 c = ceChunkHash e.

(** The bytes of the entry survive a crash. *)
Definition durable (s : Store) (e : chunkIndexEntry) : Prop :=
  exists pk, packs s !! cePackID e = Some pk /\
    ceOffset e + ceLength e <= Z.of_nat (pkSynced pk) /\ pkLinked pk = true.

(** A metadata view (the committed state, or a state with a batch applied):
    documents are in their namespaces, chunk entries locate content that is
    durable (or in a pack that is about to be synced), and recipes only name
    chunks that exist. *)
Record db_ok (s : Store) (get : string -> option Value) (touched : gset N) : Prop := {
  do_typed : forall k v, get k = Some v -> typed k v = true;
  do_chunks : forall h e, get (chunkIndexKey h) = Some (VChunk e) ->
    ceChunkHash e = h /\ (exists c, entry_at s e c) /\ (durable s e \/ cePackID e ∈ touched);
  do_recipes : forall d e, get (objectRecipeKey d) = Some (VRecipe e) ->
    Forall (fun h => is_Some (get (chunkIndexKey h))) (reChunkHashes e) }.

Definition cache_ok (c : SizedLru.SizedLRU string) : Prop :=
  SizedLru.cache_repr c /\ forall h v, SizedLru.peek h c = Some v -> blake3 v = h.

Record phys_ok (s : Store) : Prop := {
  po_packs : forall id pk, packs s !! id = Some pk -> (pkSynced pk <= length (pkData pk))%nat;
  po_dir : packs s <> ∅ -> packsDir s = true;
  po_active : forall id size, activePack s = Some (id, size) ->
    (exists pk, packs s !! id = Some pk /\ size = blen (pkData pk) /\
       forall id', is_Some (packs s !! id') -> (id' <= id)%N) \/
    (packs s = ∅ /\ size = 0);
  po_cache : cache_ok (chunkCache s);
  po_dicts : dict_ok (dicts s) }.

Definition store_ok (s : Store) : Prop := phys_ok s /\ db_ok s (dbGet (db s)) ∅.

(** Packs only grow, and what is durable stays durable. *)
Record grows (s s' : Store) : Prop := {
  gr_packs : forall id pk, packs s !! id = Some pk -> exists pk', packs s' !! id = Some pk' /\
    pkData pk `prefix_of` pkData pk' /\ (pkSynced pk <= pkSynced pk')%nat /\
    (pkLinked pk = true -> pkLinked pk' = true);
  gr_dicts : dict_extends (dicts s) (dicts s');
  gr_clock : clock s <= clock s';
  gr_faults : faults s = [] -> faults s' = [];
  gr_cache : chunkCache s' = chunkCache s }.

(** The metadata was not touched. *)
Definition quiet (s s' : Store) : Prop := grows s s' /\ db s' = db s.

(** Chunk index entries are never lost or changed. *)
Definition extends (s s' : Store) : Prop :=
  grows s s' /\ forall h v, dbGet (db s) (chunkIndexKey h) = Some v ->
    dbGet (db s') (chunkIndexKey h) = Some v.

#[export] Instance grows_pre : PreOrder grows.
Proof.
  split.
  - intros s. split; [|done|lia|done|done]. intros id pk Hp. exists pk. auto.
  - intros a b c [H1 H2 H3 H4 H5] [K1 K2 K3 K4 K5]. split; [|by etrans|lia|auto|congruence].
    intros id pk Hp. destruct (H1 _ _ Hp) as (pk1 & Hp1 & ? & ? & ?).
    destruct (K1 _ _ Hp1) as (pk2 & Hp2 & ? & ? & ?). exists pk2. split; [done|].
    split; [by etrans|]. split; [lia|auto].
Qed.

#[export] Instance quiet_rel : StoreRel quiet.
Proof.
  split.
  - by intros s.
  - intros a b c [? ?] [? ?]. split; [by etrans|congruence].
  - by intros s s' [[] _].
Qed.

#[export] Instance extends_rel : StoreRel extends.
Proof.
  split.
  - by intros s.
  - intros a b c [? ?] [? ?]. split; [by etrans|auto].
  - by intros s s' [[] _].
Qed.

Lemma quiet_extends s s' : quiet s s' -> extends s s'.
Proof. intros [? Hd]. split; [done|]. by rewrite Hd. Qed.

Lemma same_grows s s' : same s s' -> grows s s'.
Proof.
  intros Hs. destruct (same_eq _ _ Hs) as (_ & Hp & _ & _ & Hd & Hc). destruct Hs as [_ ? ?].
  split; [|by rewrite Hd|done|done|done]. rewrite Hp. intros id pk ?. exists pk. auto.
Qed.

#[export] Instance quiet_env : EnvRel quiet.
Proof. intros s s' Hs. split; [by apply same_grows|]. by destruct (same_eq _ _ Hs). Qed.

#[export] Instance extends_env : EnvRel extends.
Proof. intros s s' Hs. by apply quiet_extends, quiet_env. Qed.

(** [phys_ok] only depends on the packs, dictionaries and caches. *)
Lemma phys_ok_eq s s' : packs s' = packs s -> packsDir s' = packsDir s -> activePack s' = activePack s ->
  dicts s' = dicts s -> chunkCache s' = chunkCache s -> phys_ok s -> phys_ok s'.
Proof. intros H1 H2 H3 H4 H5 []. by split; rewrite ?H1, ?H2, ?H3, ?H4, ?H5. Qed.

#[export] Instance phys_ok_env : EnvInv phys_ok.
Proof. intros s s' Hs. destruct (same_eq _ _ Hs) as (? & ? & ? & ? & ? & ?). by apply phys_ok_eq. Qed.

Lemma prefix_slice off len (a b : bytes) : a `prefix_of` b -> 0 <= off -> 0 <= len -> off + len <= blen a ->
  slice off len b = slice off len a.
Proof.
  intros [k ->] H1 H2 H3. unfold slice, ztake, zdrop, blen in *.
  rewrite drop_app_le by lia. rewrite take_app_le; [done|]. rewrite length_drop. lia.
Qed.

Lemma entry_at_grows s s' e c : grows s s' -> entry_at s e c -> entry_at s' e c.
Proof.
  intros [Hp Hd _ _ _] (pk & d & H1 & H2 & H3 & H4 & H5 & H6 & H7 & H8).
  destruct (Hp _ _ H1) as (pk' & Hp' & Hpre & _). destruct (usable_extends _ _ _ Hd H5) as [? Hdo].
  exists pk', d. split_and!; try done.
  - destruct Hpre as [k ->]. rewrite blen_app. pose proof (blen_nonneg k). lia.
  - congruence.
  - by rewrite (prefix_slice _ _ (pkData pk)).
Qed.

Lemma durable_grows s s' e : grows s s' -> durable s e -> durable s' e.
Proof.
  intros [Hp _ _ _ _] (pk & H1 & H2 & H3). destruct (Hp _ _ H1) as (pk' & ? & _ & ? & ?).
  exists pk'. split; [done|]. split; [lia|auto].
Qed.

Lemma db_ok_grows s s' get t : grows s s' -> db_ok s get t -> db_ok s' get t.
Proof.
  intros Hg [H1 H2 H3]. split; [done| |done]. intros h e He. destruct (H2 h e He) as (? & [c Hc] & Hd).
  split; [done|]. split; [exists c; by eapply entry_at_grows|].
  destruct Hd; [left; by eapply durable_grows|by right].
Qed.

Lemma store_ok_quiet s s' : store_ok s -> phys_ok s' -> quiet s s' -> store_ok s'.
Proof. intros [_ H] Hp [Hg Hd]. split; [done|]. rewrite Hd. by eapply db_ok_grows. Qed.

#[export] Instance store_ok_env : EnvInv store_ok.
Proof.
  intros s s' Hs [Hp Hd]. eapply (store_ok_quiet s); [by split|by eapply phys_ok_env|by apply quiet_env].
Qed.

(** An operation on packs, dictionaries and caches, seen from the whole store. *)
Lemma runs_phys {A} (m : M A) s P : store_ok s -> runs m s phys_ok quiet P ->
  runs m s store_ok extends (fun a s' => quiet s s' /\ P a s').
Proof.
  intros Hs. unfold runs. destruct (m s) as [[a|e|] s1]; [..|done]; intros (Hp & Hq & HP);
    pose proof (store_ok_quiet _ _ Hs Hp Hq); pose proof (quiet_extends _ _ Hq); auto.
Qed.

(** An operation on the dictionaries, seen from the packs and caches. *)
Lemma runs_dict {A} (m : M A) s P : phys_ok s -> runs m s dict_inv dict_rel P -> runs m s phys_ok quiet P.
Proof.
  intros Hs H. eapply runs_mono; [exact H| |done]. intros s' Hd [Hc Hx Ht Hf].
  injection Hc as Hc0 Hc1 Hc2 Hc3 Hc4.
  destruct Hs as [H1 H2 H3 H4 H5]. split.
  - split; [by rewrite Hc1|by rewrite Hc1, Hc2|by rewrite Hc1, Hc3|by rewrite Hc4|done].
  - split; [split; [|done..]|done]. rewrite Hc1. intros id pk ?. exists pk. auto.
Qed.

End chunkstore_spec.

(** ** Appending to packs *)

Lemma maxPackId_spec l : match maxPackId l with
  | None => l = []
  | Some m => m ∈ l /\ forall x, x ∈ l -> (x <= m)%N
  end.
Proof.
  unfold maxPackId. induction l as [|x l IH] using rev_ind; [done|]. rewrite foldl_snoc.
  destruct (foldl _ None l) as [m|]; [|subst l; by split; [apply list_elem_of_singleton|intros y ->%list_elem_of_singleton]].
  destruct IH as [Hin Hle]. destruct (N.ltb_spec m x).
  - split; [apply elem_of_app; right; by apply list_elem_of_singleton|].
    intros y [Hy|Hy%list_elem_of_singleton]%elem_of_app; [apply Hle in Hy; lia|lia].
  - split; [apply elem_of_app; by left|].
    intros y [Hy|Hy%list_elem_of_singleton]%elem_of_app; [by apply Hle|lia].
Qed.

Lemma elem_of_packIds {E : Ext} s id : id ∈ packIds s <-> is_Some (packs s !! id).
Proof.
  unfold packIds. rewrite list_elem_of_fmap. split.
  - intros ([i pk] & -> & Hin%elem_of_map_to_list). by exists pk.
  - intros [pk Hp]. exists (id, pk). split; [done|]. by apply elem_of_map_to_list.
Qed.

Section packs_spec.
Context {E : Ext}.

(** What an append needs to know of the active pack. *)
Definition active_at (s : Store) (p : N * Z) : Prop :=
  (exists pk, packs s !! p.1 = Some pk /\ p.2 = blen (pkData pk) /\
     forall id', is_Some (packs s !! id') -> (id' <= p.1)%N) \/
  (packs s = ∅ /\ p.2 = 0).

Lemma phys_active s a : phys_ok s -> (forall p, a = Some p -> active_at s p) -> phys_ok (set_activePack a s).
Proof.
  intros [H1 H2 H3 H4 H5] Ha. split; [done|done| |done|done].
  intros id size Hi. exact (Ha (id, size) Hi).
Qed.

Lemma quiet_active s a : quiet s (set_activePack a s).
Proof. split; [|done]. split; [|done|simpl; lia|done|done]. intros id pk ?. exists pk. auto. Qed.

Lemma readActivePack_spec s : phys_ok s -> packsDir s = true ->
  runs readActivePack s phys_ok quiet (fun p s' => same s s' /\ active_at s p).
Proof.
  intros HI Hdir. unfold readActivePack. rbind; [by apply (runs_io _ _)|]. intros [] s1 HI1 _ Hs1.
  destruct (same_eq _ _ Hs1) as (_ & Hp & Hpd & _). rgets. rewrite Hpd, Hdir. cbn [negb]. rgets.
  pose proof (maxPackId_spec (packIds s1)) as Hm. destruct (maxPackId (packIds s1)) as [m|].
  - destruct Hm as [Hin Hle]. rbind; [by apply (runs_io _ _)|]. intros [] s2 HI2 _ Hs2.
    destruct (same_eq _ _ Hs2) as (_ & Hp2 & _). rgets. rewrite Hp2, Hp.
    apply elem_of_packIds in Hin. rewrite Hp in Hin. destruct Hin as [pk Hpk]. rewrite Hpk.
    rret; [done|]. split; [by etrans|]. left. exists pk. split; [done|]. split; [done|].
    intros id' Hid'. apply Hle, elem_of_packIds. by rewrite Hp.
  - rret; [done|]. split; [done|]. right. split; [|done].
    rewrite <- Hp. apply map_empty. intros id. apply eq_None_not_Some.
    rewrite <- elem_of_packIds, Hm. by intros ?%elem_of_nil.
Qed.

Lemma cachedActivePack_spec s : phys_ok s -> packsDir s = true ->
  runs cachedActivePack s phys_ok quiet (fun p s' => packs s' = packs s /\ active_at s' p).
Proof.
  intros HI Hdir. unfold cachedActivePack. rgets. destruct (activePack s) as [[id size]|] eqn:Ha.
  - rret; [done|]. split; [done|]. by apply (po_active s HI id size).
  - rbind; [by apply readActivePack_spec|]. intros p s1 HI1 _ [Hs1 Hact].
    destruct (same_eq _ _ Hs1) as (_ & Hp & _).
    assert (active_at s1 p) as Hact1 by (unfold active_at; by rewrite Hp).
    rbind. { apply runs_modify; [|apply quiet_active]. apply phys_active; [done|]. by intros ? [= <-]. }
    intros [] s2 HI2 _ ->. rret; [done|]. done.
Qed.

(** A pack operation that only replaces packs by longer or safer ones. *)
Lemma phys_packs s ps : phys_ok s -> activePack s = None \/
    (forall id, is_Some (ps !! id) -> is_Some (packs s !! id)) /\
    (forall id pk, packs s !! id = Some pk -> exists pk', ps !! id = Some pk' /\ blen (pkData pk') = blen (pkData pk)) ->
  (forall id pk, ps !! id = Some pk -> (pkSynced pk <= length (pkData pk))%nat) ->
  packsDir s = true -> phys_ok (set_packs ps s).
Proof.
  intros [H1 H2 H3 H4 H5] Ha Hps Hdir. split; [done|done| |done|done].
  intros id size Hi. simpl in Hi. destruct Ha as [Ha|[Ha1 Ha2]]; [congruence|].
  destruct (H3 id size Hi) as [(pk & Hp & -> & Hle)|[He Hz]].
  - left. destruct (Ha2 id pk Hp) as (pk' & ? & ?). exists pk'. split; [done|]. split; [congruence|].
    intros id' Hid'. apply Hle. by apply Ha1.
  - right. split; [|done]. simpl. apply map_empty. intros i. apply eq_None_not_Some. intros Hi'%Ha1.
    rewrite He, lookup_empty in Hi'. by destruct Hi'.
Qed.

(** The pack an append finds or creates. *)
Definition packAt (s : Store) (id : N) : pack := default (MkPack [] 0 false) (packs s !! id).

Definition extendPack (pk : pack) (b : bytes) : pack := MkPack (pkData pk ++ b) (pkSynced pk) (pkLinked pk).

Lemma append_state s t id x :
  phys_ok s -> packsDir s = true -> (forall id', is_Some (packs s !! id') -> (id' <= id)%N) ->
  packs t = <[id := extendPack (packAt s id) x]> (packs s) ->
  activePack t = None \/ activePack t = Some (id, blen (pkData (packAt s id)) + blen x) ->
  (db t, packsDir t, dicts t, chunkCache t, clock t) = (db s, packsDir s, dicts s, chunkCache s, clock s) ->
  (faults s = [] -> faults t = []) -> phys_ok t /\ quiet s t.
Proof.
  intros [H1 H2 H3 H4 H5] Hdir Hmax Hp Ha Heq Hf. injection Heq as E1 E2 E3 E4 E5.
  assert (pkSynced (packAt s id) <= length (pkData (packAt s id)))%nat as Hsy.
  { unfold packAt. destruct (packs s !! id) as [pk|] eqn:Hpk; simpl; [by eapply H1|lia]. }
  split.
  - split; rewrite ?E2, ?E3, ?E4; try done.
    + intros id' pk'. rewrite Hp, lookup_insert_Some. intros [[<- <-]|[_ ?]]; [|eauto].
      simpl. rewrite length_app. lia.
    + intros id' size Hi. left. destruct Ha as [Ha|Ha]; rewrite Ha in Hi; [done|]. injection Hi as <- <-.
      exists (extendPack (packAt s id) x). rewrite Hp, lookup_insert_eq. split; [done|].
      split; [simpl; by rewrite blen_app|]. intros id'. destruct (decide (id' = id)) as [->|Hne]; [lia|].
      rewrite lookup_insert_ne by done. apply Hmax.
  - split; [|done]. split; [|by rewrite E3|rewrite E5; lia|done|done]. intros id' pk' Hpk'.
    rewrite Hp. destruct (decide (id' = id)) as [->|Hne].
    + rewrite lookup_insert_eq. unfold packAt. rewrite Hpk'. eexists. split; [done|]. simpl.
      split; [by apply prefix_app_r|]. auto.
    + rewrite lookup_insert_ne by done. exists pk'. auto.
Qed.

Lemma openEffect_packs id s b : packs (appendBytes id b (openEffect id s)) =
  <[id := extendPack (packAt s id) b]> (packs s).
Proof.
  unfold appendBytes, openEffect, packAt, extendPack. simpl. apply map_eq. intros i.
  destruct (packs s !! id) as [pk|] eqn:Hp; simpl;
    (destruct (decide (i = id)) as [->|Hne];
      [rewrite lookup_alter_eq|rewrite lookup_alter_ne by done]); simplify_map_eq; done.
Qed.

Lemma openEffect_nil id s : packs (openEffect id s) = <[id := extendPack (packAt s id) []]> (packs s).
Proof.
  unfold openEffect, packAt, extendPack. simpl. apply map_eq. intros i.
  destruct (packs s !! id) as [[pd py pl]|] eqn:Hp; simpl; rewrite ?app_nil_r.
  - destruct (decide (i = id)) as [->|Hne]; by simplify_map_eq.
  - done.
Qed.

Lemma appendTail_spec id size b s :
  phys_ok s -> packsDir s = true -> (forall id', is_Some (packs s !! id') -> (id' <= id)%N) ->
  size = blen (pkData (packAt s id)) ->
  runs (_ ← modify (openEffect id);
        _ ← onError (writePack id b) (set_activePack None);
        _ ← modify (set_activePack (Some (id, size + blen b)));
        mret (id, size)) s phys_ok quiet
    (fun p s' => p = (id, size) /\ packs s' !! id = Some (extendPack (packAt s id) b)).
Proof.
  intros HI Hdir Hmax ->. unfold runs, mbind, M_bind, modify, onError, writePack, mret, M_ret.
  cbv beta iota. change (faults (openEffect id s)) with (faults s).
  assert (forall r x, packs (appendBytes id x (set_faults r (openEffect id s))) =
    <[id := extendPack (packAt s id) x]> (packs s)) as Hx by (intros; apply openEffect_packs).
  destruct (faults s) as [|[|e|n e] r] eqn:Hf; cbv beta iota.
  - match goal with |- phys_ok ?t /\ _ => destruct (append_state s t id b) as [? ?] end;
      try done; [apply openEffect_packs|by right|].
    split; [done|]. split; [done|]. split; [done|].
    refine (eq_trans (f_equal (lookup id) (openEffect_packs id s b)) _). apply lookup_insert_eq.
  - match goal with |- phys_ok ?t /\ _ => destruct (append_state s t id b) as [? ?] end;
      try done; [apply Hx|by right|by rewrite Hf|].
    split; [done|]. split; [done|]. split; [done|].
    refine (eq_trans (f_equal (lookup id) (Hx r b)) _). apply lookup_insert_eq.
  - match goal with |- phys_ok ?t /\ _ => destruct (append_state s t id []) as [? ?] end;
      try done; [apply openEffect_nil|by left|by rewrite Hf].
  - match goal with |- phys_ok ?t /\ _ => destruct (append_state s t id (take n b)) as [? ?] end;
      try done; [apply Hx|by left|by rewrite Hf].
Qed.

Lemma io_dir s : packsDir (io s).2 = packsDir s.
Proof. unfold io. by destruct (faults s) as [|[] ?]. Qed.

Lemma cachedActivePack_dir s : packsDir (cachedActivePack s).2 = packsDir s.
Proof.
  unfold cachedActivePack, readActivePack, mbind, M_bind, gets, modify, mret, M_ret, fail. cbv beta iota.
  destruct (activePack s); [done|]. pose proof (io_dir s) as H1. destruct (io s) as [[[]|e|] s1]; [|done..].
  simpl in H1. destruct (packsDir s1) eqn:Hd; simpl; [|congruence].
  destruct (maxPackId (packIds s1)); simpl; [|congruence].
  pose proof (io_dir s1) as H2. destruct (io s1) as [[[]|e|] s2]; simpl in *; [|congruence..].
  destruct (packs s2 !! _); simpl; congruence.
Qed.

Lemma appendNoSync_spec s b : phys_ok s ->
  runs (appendToActivePackNoSync b) s phys_ok quiet (fun p s' =>
    exists pk, packs s' !! p.1 = Some pk /\ 0 <= p.2 /\ p.2 + blen b <= blen (pkData pk) /\
      slice p.2 (blen b) (pkData pk) = b).
Proof.
  intros HI. unfold appendToActivePackNoSync. rbind; [by apply (runs_io _ _)|]. intros [] s1 HI1 _ _.
  rbind.
  { apply (runs_modify (set_packsDir true)); [|split; [|done]; split; [|done|simpl; lia|done|done]].
    - by destruct HI1; split.
    - intros id pk ?. exists pk. auto. }
  intros [] s2 HI2 _ Hs2. assert (packsDir s2 = true) as Hdir by by rewrite Hs2. clear Hs2.
  rbind.
  { eapply (runs_post _ _ _ _ _ (fun p s' => active_at s' p /\ packsDir s' = true)).
    - instantiate (1 := fun p s' => (packs s' = packs s2 /\ active_at s' p) /\ packsDir s' = true).
      unfold runs. pose proof (cachedActivePack_spec s2 HI2 Hdir) as H. unfold runs in H.
      assert (packsDir (cachedActivePack s2).2 = true) as Hd'.
      { rewrite cachedActivePack_dir. done. }
      destruct (cachedActivePack s2) as [[p|e|] s3]; tauto.
    - naive_solver. }
  intros [id size] s3 HI3 _ [Hact Hdir3]. cbn [fst snd].
  assert (exists id' size', (if packTargetBytes <=? size then ((id + 1)%N, 0) else (id, size)) = (id', size') /\
    (forall i, is_Some (packs s3 !! i) -> (i <= id')%N) /\ size' = blen (pkData (packAt s3 id')))
    as (id' & size' & -> & Hmax & Hsize).
  { unfold packAt. destruct Hact as [(pk & Hp & Hs & Hle)|[Hp Hz]]; simpl in *.
    - destruct (packTargetBytes <=? size).
      + exists (id + 1)%N, 0. split; [done|]. split; [intros i Hi; specialize (Hle i Hi); lia|].
        destruct (packs s3 !! (id + 1)%N) eqn:Hn; [|done]. specialize (Hle (id + 1)%N). rewrite Hn in Hle.
        pose proof (Hle (mk_is_Some _ _ eq_refl)). lia.
      + exists id, size. split; [done|]. split; [done|]. by rewrite Hp.
    - exists (if packTargetBytes <=? size then (id + 1)%N else id), 0. subst size.
      split; [done|]. rewrite Hp. split; [|by rewrite lookup_empty].
      intros i. rewrite lookup_empty. by intros []. }
  cbv beta iota. unfold openPackAppend. apply runs_assoc.
  rbind; [by apply (runs_io _ _)|]. intros [] s4 HI4 _ Hs4.
  destruct (same_eq _ _ Hs4) as (_ & Hp4 & Hd4 & _).
  eapply runs_post; [apply appendTail_spec|].
  - done.
  - by rewrite Hd4.
  - by rewrite Hp4.
  - unfold packAt. by rewrite Hp4.
  - intros p s5 _ _ [-> Hpk]. simpl. eexists. split; [exact Hpk|].
    assert (packAt s4 id' = packAt s3 id') as -> by (unfold packAt; by rewrite Hp4).
    simpl. rewrite Hsize, blen_app. split; [apply blen_nonneg|]. split; [lia|].
    unfold slice, zdrop, ztake, blen. rewrite !Nat2Z.id, drop_app_length, take_ge; [done|lia].
Qed.

End packs_spec.

(** ** fsync and commit *)

Section sync_spec.
Context {E : Ext}.

Lemma flags_state s ps : phys_ok s ->
  (forall id, match packs s !! id, ps !! id with
    | None, None => True
    | Some pk, Some pk' => pkData pk' = pkData pk /\ (pkSynced pk <= pkSynced pk' <= length (pkData pk))%nat /\
        (pkLinked pk = true -> pkLinked pk' = true)
    | _, _ => False
    end) ->
  phys_ok (set_packs ps s) /\ quiet s (set_packs ps s).
Proof.
  intros [H1 H2 H3 H4 H5] Hf.
  assert (forall id pk, packs s !! id = Some pk -> exists pk', ps !! id = Some pk' /\ pkData pk' = pkData pk /\
    (pkSynced pk <= pkSynced pk' <= length (pkData pk))%nat /\ (pkLinked pk = true -> pkLinked pk' = true)) as Hfw.
  { intros id pk Hp. specialize (Hf id). rewrite Hp in Hf. destruct (ps !! id) as [pk'|]; [|done]. eauto. }
  assert (forall id pk', ps !! id = Some pk' -> exists pk, packs s !! id = Some pk /\ pkData pk' = pkData pk /\
    (pkSynced pk' <= length (pkData pk))%nat) as Hbw.
  { intros id pk' Hp. specialize (Hf id). rewrite Hp in Hf. destruct (packs s !! id) as [pk|]; [|done].
    exists pk. naive_solver. }
  assert (ps = ∅ <-> packs s = ∅) as Hemp.
  { split; intros He; apply map_empty; intros id; apply eq_None_not_Some; intros [pk Hp];
      [apply Hfw in Hp as (? & Hp & _)|apply Hbw in Hp as (? & Hp & _)];
      by rewrite He, lookup_empty in Hp. }
  split.
  - split; simpl; try done.
    + intros id pk' (pk & _ & -> & ?)%Hbw. done.
    + intros Hne. apply H2. by rewrite <- Hemp.
    + intros id size Ha. destruct (H3 id size Ha) as [(pk & Hp & -> & Hle)|[He Hz]].
      * left. destruct (Hfw _ _ Hp) as (pk' & ? & Hd & _). exists pk'. rewrite Hd. split; [done|]. split; [done|].
        intros id' [pk2 Hp2]. apply Hbw in Hp2 as (pk3 & ? & _). by apply Hle.
      * right. by rewrite Hemp.
  - split; [|done]. split; [|done|simpl; lia|done|done]. intros id pk Hp. simpl.
    destruct (Hfw _ _ Hp) as (pk' & ? & Hd & ? & ?). exists pk'. rewrite Hd. split; [done|]. split; [done|].
    split; [lia|done].
Qed.

(** Everything appended to the pack so far is synced. *)
Definition syncedUpTo (s : Store) (id : N) (n : nat) : Prop :=
  exists pk, packs s !! id = Some pk /\ (n <= pkSynced pk)%nat.

Lemma syncedUpTo_quiet s s' id n : quiet s s' -> syncedUpTo s id n -> syncedUpTo s' id n.
Proof.
  intros [[Hp _ _ _ _] _] (pk & Hpk & ?). destruct (Hp _ _ Hpk) as (pk' & ? & _ & ? & _). exists pk'. split; [done|lia].
Qed.

Lemma syncPack_spec s id pk : phys_ok s -> packs s !! id = Some pk ->
  runs (syncPack id) s phys_ok quiet (fun _ s' => syncedUpTo s' id (length (pkData pk))).
Proof.
  intros HI Hp. unfold syncPack. rbind; [by apply (runs_io _ _)|]. intros [] s1 HI1 _ Hs1.
  destruct (same_eq _ _ Hs1) as (_ & Hp1 & _). rgets. rewrite Hp1, Hp.
  rbind; [by apply (runs_io _ _)|]. intros [] s2 HI2 _ Hs2.
  destruct (same_eq _ _ Hs2) as (_ & Hp2 & _).
  assert (packs s2 !! id = Some pk) as Hpk by congruence.
  rbind.
  { match goal with |- runs (modify ?f) _ _ _ _ => pose proof (flags_state s2 (packs (f s2))) as Hf end.
    destruct Hf as [? ?]; [done| |by apply runs_modify].
    intros i. simpl. destruct (decide (i = id)) as [->|Hne].
    - rewrite lookup_alter_eq, Hpk. simpl. pose proof (po_packs _ HI2 _ _ Hpk). split_and!; try done.
    - rewrite lookup_alter_ne by done. destruct (packs s2 !! i) as [pk'|] eqn:Hi; [|done].
      pose proof (po_packs _ HI2 _ _ Hi). split_and!; try done. }
  intros [] s3 HI3 _ ->. eapply runs_post; [by apply (runs_io _ _)|]. intros [] s4 _ HR _.
  eapply syncedUpTo_quiet; [exact HR|]. eexists. split; [simpl; by rewrite lookup_alter_eq, Hpk|]. done.
Qed.

Lemma fsyncPacksDir_spec s : phys_ok s -> packsDir s = true ->
  runs fsyncPacksDir s phys_ok quiet (fun _ s' => forall id pk, packs s !! id = Some pk ->
    exists pk', packs s' !! id = Some pk' /\ pkLinked pk' = true).
Proof.
  intros HI Hdir. unfold fsyncPacksDir. rbind; [by apply (runs_io _ _)|]. intros [] s1 HI1 _ Hs1.
  destruct (same_eq _ _ Hs1) as (_ & Hp1 & Hd1 & _). rgets. rewrite Hd1, Hdir. cbn [negb].
  rbind; [by apply (runs_io _ _)|]. intros [] s2 HI2 _ Hs2.
  destruct (same_eq _ _ Hs2) as (_ & Hp2 & _).
  match goal with |- runs (modify ?f) _ _ _ _ => pose proof (flags_state s2 (packs (f s2))) as Hf end.
  destruct Hf as [H1 H2]; [done| |].
  - intros i. simpl. rewrite lookup_fmap. destruct (packs s2 !! i) as [pk'|] eqn:Hi; simpl; [|done].
    pose proof (po_packs _ HI2 _ _ Hi). split_and!; try done.
  - eapply runs_post; [by apply runs_modify|]. intros [] s3 _ _ -> id pk Hp. simpl.
    rewrite lookup_fmap, Hp2, Hp1, Hp. simpl. eauto.
Qed.

Lemma syncTouchedPacks_spec s ids : phys_ok s -> (forall id, id ∈ ids -> is_Some (packs s !! id)) ->
  runs (syncTouchedPacks ids) s phys_ok quiet (fun _ s' => forall id pk, id ∈ ids -> packs s !! id = Some pk ->
    exists pk', packs s' !! id = Some pk' /\ (length (pkData pk) <= pkSynced pk')%nat /\ pkLinked pk' = true).
Proof.
  intros HI Hin. unfold syncTouchedPacks. case_bool_decide as He.
  { rret; [done|]. subst ids. intros id pk Hid. by apply not_elem_of_empty in Hid. }
  assert (packsDir s = true) as Hdir.
  { apply (po_dir _ HI). intros Hp. apply set_choose_L in He as [id Hid]. destruct (Hin id Hid) as [pk Hpk].
    by rewrite Hp, lookup_empty in Hpk. }
  rbind.
  { apply (runs_forM _ _ _ _ _ _ (fun done _ s' => packsDir s' = true /\
      forall id pk, id ∈ done -> packs s !! id = Some pk -> syncedUpTo s' id (length (pkData pk)))).
    - done.
    - split; [done|]. by intros id pk ?%elem_of_nil.
    - intros done [] id s' Hp HI' HR [Hd' Hdone].
      assert (id ∈ ids) as Hid by (apply prefix_elem in Hp; by apply elem_of_elements).
      destruct (Hin id Hid) as [pk Hpk]. destruct HR as [[Hgr _ _ _ _] _].
      destruct (Hgr id pk Hpk) as (pk' & Hpk' & [k Hk] & _).
      eapply runs_post; [by apply (syncPack_spec _ _ pk')|]. intros [] s1 HI1 HR1 Hs1.
      split; [apply (po_dir _ HI1); intros He1; destruct Hs1 as (pk1 & Hp1 & _); by rewrite He1, lookup_empty in Hp1|].
      intros id0 pk0 [Hid0| ->%list_elem_of_singleton]%elem_of_app Hpk0; [by eapply syncedUpTo_quiet, Hdone|].
      assert (pk0 = pk) as -> by congruence. destruct Hs1 as (pk1 & ? & Hle). exists pk1. split; [done|].
      rewrite Hk, length_app in Hle. lia. }
  intros [] s1 HI1 HR1 [Hd1 Hs1]. eapply runs_post; [by apply fsyncPacksDir_spec|].
  intros [] s2 _ HR2 Hl id pk Hid Hpk.
  destruct (Hs1 id pk) as (pk1 & Hp1 & Hle); [by apply elem_of_elements|done|].
  destruct (Hl id pk1 Hp1) as (pk2 & Hp2 & Hlk). exists pk2. split; [done|]. split; [|done].
  destruct HR2 as [[Hgr _ _ _ _] _]. destruct (Hgr id pk1 Hp1) as (pk3 & Hp3 & _ & ? & _).
  assert (pk3 = pk2) as -> by congruence. lia.
Qed.

(** A failing operation whose handler forgets the active pack. *)
Lemma onError_spec {A} (m : M A) s P : runs m s phys_ok quiet P ->
  runs (onError m (set_activePack None)) s phys_ok quiet P.
Proof.
  unfold runs, onError. destruct (m s) as [[a|e|] s1]; [done| |done]. intros (? & ? & ?).
  split; [by apply phys_active|]. split; [|done]. etrans; [done|]. apply quiet_active.
Qed.

Lemma appendToActivePack_spec s b : phys_ok s ->
  runs (appendToActivePack b) s phys_ok quiet (fun p s' =>
    exists pk, packs s' !! p.1 = Some pk /\ 0 <= p.2 /\ p.2 + blen b <= Z.of_nat (pkSynced pk) /\
      pkLinked pk = true /\ p.2 + blen b <= blen (pkData pk) /\ slice p.2 (blen b) (pkData pk) = b).
Proof.
  intros HI. unfold appendToActivePack. rbind; [by apply appendNoSync_spec|].
  intros [id off] s1 HI1 _ (pk & Hp & H0 & Hle & Hsl). cbn [fst snd] in *.
  rbind.
  { apply onError_spec, syncTouchedPacks_spec; [done|]. intros i ->%elem_of_singleton. eauto. }
  intros [] s2 HI2 [[Hgr _ _ _ _] _] Hsy. rret; [done|]. cbn [fst snd].
  destruct (Hsy id pk) as (pk2 & Hp2 & Hlen & Hlk); [by apply elem_of_singleton|done|].
  destruct (Hgr id pk Hp) as (pk3 & Hp3 & Hpre & _). assert (pk3 = pk2) as -> by congruence.
  exists pk2. split; [done|]. split; [done|]. unfold blen in *. split; [lia|]. split; [done|].
  pose proof (po_packs _ HI2 _ _ Hp2). split; [lia|].
  rewrite (prefix_slice _ _ (pkData pk)); [done|done|done|lia|unfold blen; lia].
Qed.

End sync_spec.

(** ** Metadata views *)

(** One write on a view. *)
Definition upd (get : string -> option Value) (k : string) (ov : option Value) : string -> option Value :=
  fun k' => if bool_decide (k = k') then ov else get k'.

Lemma HasPrefix_chunk h : HasPrefix (chunkIndexKey h) "c/" = true.
Proof. apply HasPrefix_spec. by exists h. Qed.

Lemma prefix_upd_ne get k ov h : HasPrefix k "c/" = false -> upd get k ov (chunkIndexKey h) = get (chunkIndexKey h).
Proof. intros Hk. unfold upd. case_bool_decide; [|done]. subst k. by rewrite HasPrefix_chunk in Hk. Qed.

(** The document type found at a key follows from its prefix. *)
Lemma typed_chunk h v : typed (chunkIndexKey h) v = true -> exists e, v = VChunk e.
Proof. destruct v; try done; eauto. Qed.
Lemma typed_recipe d v : typed (objectRecipeKey d) v = true -> exists e, v = VRecipe e.
Proof. destruct v; try done; eauto. Qed.

Section views.
Context {E : Ext}.

(** The view serves content [c] under the hash [h]. *)
Definition holds (s : Store) (get : string -> option Value) (h : string) (c : bytes) : Prop :=
  exists e, get (chunkIndexKey h) = Some (VChunk e) /\ entry_at s e c.

Lemma entry_at_fun s e c c' : entry_at s e c -> entry_at s e c' -> c = c'.
Proof.
  intros (pk & d & H1 & _ & _ & _ & _ & H2 & H3 & _) (pk' & d' & K1 & _ & _ & _ & _ & K2 & K3 & _).
  congruence.
Qed.

Lemma holds_fun s get h c c' : holds s get h c -> holds s get h c' -> c = c'.
Proof. intros (e & H1 & H2) (e' & K1 & K2). assert (e' = e) as -> by congruence. by eapply entry_at_fun. Qed.

Lemma db_ok_holds s get t h : db_ok s get t -> is_Some (get (chunkIndexKey h)) ->
  exists c, holds s get h c /\ blake3 c = h.
Proof.
  intros Hd [v Hv]. destruct (typed_chunk h v) as [e ->]; [by eapply do_typed|].
  destruct (do_chunks _ _ _ Hd h e Hv) as (Hh & [c Hc] & _). exists c. split; [by exists e|].
  destruct Hc as (? & ? & _ & _ & _ & _ & _ & _ & _ & Hb). congruence.
Qed.

Lemma db_ok_ext s get get' t : (forall k, get' k = get k) -> db_ok s get t -> db_ok s get' t.
Proof.
  intros Hk [H1 H2 H3]. split.
  - intros k v. rewrite Hk. apply H1.
  - intros h e. rewrite Hk. apply H2.
  - intros d e. rewrite Hk. intros He. eapply Forall_impl; [by eapply H3|]. intros h. simpl. by rewrite Hk.
Qed.

(** From view [get] in state [s] to view [get'] in state [s'], only the chunks
    [news] were added. *)
Record added (s : Store) get (s' : Store) get' (news : list bytes) : Prop := {
  ad_keep : forall h v, get (chunkIndexKey h) = Some v -> get' (chunkIndexKey h) = Some v;
  ad_other : forall k, HasPrefix k "c/" = false -> get' k = get k;
  ad_new : forall h c, holds s' get' h c -> holds s get h c \/ (c ∈ news /\ h = blake3 c) }.

Lemma added_refl s s' get t : grows s s' -> db_ok s get t -> added s get s' get [].
Proof.
  intros Hg Hd. split; [done|done|]. intros h c (e & He & Hc). left. exists e. split; [done|].
  destruct (do_chunks _ _ _ Hd h e He) as (_ & [c0 Hc0] & _).
  by rewrite <- (entry_at_fun s' e c0 c); [|eapply entry_at_grows|].
Qed.

Lemma added_trans s get s1 get1 s2 get2 n1 n2 :
  added s get s1 get1 n1 -> added s1 get1 s2 get2 n2 -> added s get s2 get2 (n1 ++ n2).
Proof.
  intros [A1 A2 A3] [B1 B2 B3]. split; [auto|intros k Hk; by rewrite B2, A2|].
  intros h c Hh. destruct (B3 _ _ Hh) as [H|[? ?]]; [|right; split; [apply elem_of_app; by right|done]].
  destruct (A3 _ _ H) as [?|[? ?]]; [by left|right; split; [apply elem_of_app; by left|done]].
Qed.

Lemma added_ext s get s' get' get'' n : (forall k, get'' k = get' k) ->
  added s get s' get' n -> added s get s' get'' n.
Proof.
  intros Hk [A1 A2 A3]. split.
  - intros h v. rewrite Hk. apply A1.
  - intros k. rewrite Hk. apply A2.
  - intros h c (e & He & Hc). rewrite Hk in He. apply A3. by exists e.
Qed.

Lemma db_ok_chunk s get t t' h e c :
  db_ok s get t -> get (chunkIndexKey h) = None -> ceChunkHash e = h -> entry_at s e c ->
  durable s e \/ cePackID e ∈ t' -> t ⊆ t' ->
  let get' := upd get (chunkIndexKey h) (Some (VChunk e)) in
  db_ok s get' t' /\ added s get s get' [c].
Proof.
  intros [H1 H2 H3] Hn Hh Hc Hd Ht. cbv zeta.
  assert (forall k v, get k = Some v -> upd get (chunkIndexKey h) (Some (VChunk e)) k = Some v) as Hkeep.
  { intros k v Hv. unfold upd. case_bool_decide; [subst; congruence|done]. }
  split.
  - split.
    + intros k v. unfold upd. case_bool_decide as Hk; [|apply H1]. intros [= <-]. subst k. unfold typed. cbn [prefixOf]. by rewrite HasPrefix_chunk.
    + intros h' e'. unfold upd. case_bool_decide as Hk.
      * apply chunkIndexKey_inj in Hk as ->. intros [= <-]. split; [done|]. split; [by exists c|done].
      * intros He'. destruct (H2 _ _ He') as (? & ? & [?|?]); split_and!; try done; [by left|right; by apply Ht].
    + intros d e'. unfold upd at 1. case_bool_decide as Hk; [done|]. intros He'.
      eapply Forall_impl; [by eapply H3|]. intros h' [v Hv]. exists v. by apply Hkeep.
  - split; [intros; by apply Hkeep|..].
    + intros k Hk. unfold upd. case_bool_decide; [|done]. subst k. by rewrite HasPrefix_chunk in Hk.
    + intros h' c' (e' & He' & Hc'). unfold upd in He'. case_bool_decide as Hk.
      * apply chunkIndexKey_inj in Hk as ->. injection He' as <-. right.
        rewrite (entry_at_fun s e c' c Hc' Hc). split; [by apply list_elem_of_singleton|].
        destruct Hc as (? & ? & _ & _ & _ & _ & _ & _ & _ & ?). congruence.
      * left. by exists e'.
Qed.

Lemma db_ok_recipe s get t d e :
  db_ok s get t -> Forall (fun h => is_Some (get (chunkIndexKey h))) (reChunkHashes e) ->
  db_ok s (upd get (objectRecipeKey d) (Some (VRecipe e))) t.
Proof.
  intros [H1 H2 H3] Hf. split.
  - intros k v. unfold upd. case_bool_decide as Hk; [|apply H1]. intros [= <-]. subst k. apply andb_true_iff. split; [|done].
    apply HasPrefix_spec. by exists d.
  - intros h e'. rewrite prefix_upd_ne by done. apply H2.
  - intros d' e'. unfold upd at 1. case_bool_decide as Hk.
    + intros [= <-]. eapply Forall_impl; [done|]. intros h. simpl. by rewrite prefix_upd_ne.
    + intros He'. eapply Forall_impl; [by eapply H3|]. intros h. simpl. by rewrite prefix_upd_ne.
Qed.

(** A write outside the chunk and recipe namespaces. *)
Lemma db_ok_other s get t k ov :
  db_ok s get t -> HasPrefix k "c/" = false -> HasPrefix k "r/" = false ->
  (forall v, ov = Some v -> typed k v = true) -> db_ok s (upd get k ov) t.
Proof.
  intros [H1 H2 H3] Hc Hr Hv. split.
  - intros k' v. unfold upd. case_bool_decide as Hk; [subst; apply Hv|apply H1].
  - intros h e. rewrite prefix_upd_ne by done. apply H2.
  - intros d e. unfold upd at 1. case_bool_decide as Hk.
    { subst k. assert (HasPrefix (objectRecipeKey d) "r/" = true) by (apply HasPrefix_spec; by exists d). congruence. }
    intros He. eapply Forall_impl; [by eapply H3|]. intros h. simpl. by rewrite prefix_upd_ne.
Qed.

End views.

(** ** Batches *)

Section batches.
Context {E : Ext}.

(** The state the batch will commit. *)
Definition vget (s : Store) (cb : commitBatch) (k : string) : option Value :=
  writesAt (cbWrites cb) k (dbGet (db s) k).

Record batch_ok (s : Store) (cb : commitBatch) : Prop := {
  bo_store : store_ok s;
  bo_view : db_ok s (vget s cb) (cbTouched cb);
  bo_seen : forall h, h ∈ cbSeen cb -> is_Some (vget s cb (chunkIndexKey h));
  bo_keep : forall h v, dbGet (db s) (chunkIndexKey h) = Some v -> vget s cb (chunkIndexKey h) = Some v;
  bo_new : forall h, is_Some (vget s cb (chunkIndexKey h)) -> dbGet (db s) (chunkIndexKey h) = None ->
    h ∈ cbSeen cb;
  bo_touched : forall id, id ∈ cbTouched cb -> is_Some (packs s !! id) }.

Lemma vget_set s cb k v k' : vget s (cbSet k v cb) k' = upd (vget s cb) k (Some v) k'.
Proof. unfold vget, upd. simpl. rewrite writesAt_app. simpl. by case_bool_decide. Qed.

Lemma vget_delete s cb k k' : vget s (cbDelete k cb) k' = upd (vget s cb) k None k'.
Proof. unfold vget, upd. simpl. rewrite writesAt_app. simpl. by case_bool_decide. Qed.

Lemma vget_quiet s s' cb k : quiet s s' -> vget s' cb k = vget s cb k.
Proof. intros [_ Hd]. unfold vget. by rewrite Hd. Qed.

Lemma newCommitBatch_ok s : store_ok s -> batch_ok s newCommitBatch.
Proof. intros [Hp Hd]. split; try done. intros h [v Hv] Hn. unfold vget in Hv. simpl in Hv. congruence. Qed.

Lemma batch_ok_quiet s s' cb : quiet s s' -> phys_ok s' -> batch_ok s cb -> batch_ok s' cb.
Proof.
  intros Hq Hp [H1 H2 H3 H4 H6 H5]. pose proof (fun k => vget_quiet s s' cb k Hq) as Hv. destruct Hq as [Hg Hd].
  split.
  - by eapply store_ok_quiet.
  - eapply db_ok_ext; [exact Hv|]. by eapply db_ok_grows.
  - intros h. rewrite Hv. apply H3.
  - intros h v. rewrite Hd, Hv. apply H4.
  - intros h. rewrite Hd, Hv. apply H6.
  - intros id [pk Hpk]%H5. destruct (gr_packs _ _ Hg _ _ Hpk) as (pk' & ? & _). by exists pk'.
Qed.

(** A buffered write outside the chunk namespace. *)
Lemma batch_ok_set s cb k v : batch_ok s cb -> HasPrefix k "c/" = false ->
  db_ok s (upd (vget s cb) k (Some v)) (cbTouched cb) -> batch_ok s (cbSet k v cb).
Proof.
  intros [H1 H2 H3 H4 H6 H5] Hk Hd. split; [done|eapply db_ok_ext; [apply vget_set|done]|..]; [| | |done].
  - intros h Hh. rewrite vget_set, prefix_upd_ne by done. by apply H3.
  - intros h v' Hv. rewrite vget_set, prefix_upd_ne by done. by apply H4.
  - intros h. rewrite vget_set, prefix_upd_ne by done. apply H6.
Qed.

Lemma batch_ok_delete s cb k : batch_ok s cb -> HasPrefix k "c/" = false -> HasPrefix k "r/" = false ->
  batch_ok s (cbDelete k cb).
Proof.
  intros [H1 H2 H3 H4 H6 H5] Hk Hr. split; [done|eapply db_ok_ext; [apply vget_delete|by apply db_ok_other]|..]; [| | |done].
  - intros h Hh. rewrite vget_delete, prefix_upd_ne by done. by apply H3.
  - intros h v' Hv. rewrite vget_delete, prefix_upd_ne by done. by apply H4.
  - intros h. rewrite vget_delete, prefix_upd_ne by done. apply H6.
Qed.

Lemma batch_ok_see s cb h : batch_ok s cb -> is_Some (vget s cb (chunkIndexKey h)) -> batch_ok s (cbSee h cb).
Proof.
  intros [H1 H2 H3 H4 H6 H5] Hh. split; try done.
  - intros h' [->%elem_of_singleton|?]%elem_of_union; [done|by apply H3].
  - intros h' Hs Hn. apply elem_of_union. right. by apply H6.
Qed.

Lemma grows_db s d : grows s (set_db d s).
Proof. split; [|done|simpl; lia|done|done]. intros id pk ?. exists pk. auto. Qed.

(** The single commit: packs first, then the whole batch at once. *)
Lemma commit_spec `{!ExtLaws E} s cb : batch_ok s cb ->
  runs (commit cb) s store_ok extends
    (fun _ s' => grows s s' /\ forall k, dbGet (db s') k = vget s cb k).
Proof.
  intros Hb. destruct (bo_store _ _ Hb) as [Hp Hd]. unfold commit.
  rbind; [apply runs_phys; [by split|apply syncTouchedPacks_spec; [done|apply (bo_touched _ _ Hb)]]|].
  intros [] s1 [Hp1 Hd1] HR1 [Hq Hsy]. unfold metaApply.
  rbind; [by apply (runs_io _ _)|]. intros [] s2 HI2 _ Hs2.
  assert (quiet s s2) as Hq2 by (etrans; [exact Hq|by apply quiet_env]).
  assert (forall k, dbGet (dbApply (cbWrites cb) (db s2)) k = vget s cb k) as Hk.
  { intros k. rewrite dbGet_apply. destruct Hq2 as [_ ->]. done. }
  assert (db_ok s2 (vget s cb) ∅) as Hok.
  { pose proof (db_ok_grows _ _ _ _ (proj1 Hq2) (bo_view _ _ Hb)) as [K1 K2 K3]. split; [done| |done].
    intros h e He. destruct (K2 h e He) as (? & [c Hc] & Hdur). split; [done|]. split; [by exists c|]. left.
    destruct Hdur as [?|Hin]; [done|]. destruct (bo_touched _ _ Hb _ Hin) as [pk Hpk].
    destruct (do_chunks _ _ _ (bo_view _ _ Hb) h e He) as (_ & [c0 Hc0] & _).
    destruct (Hsy _ _ Hin Hpk) as (pk1 & Hp1' & Hlen & Hlk).
    destruct Hc0 as (pk0 & d0 & Hpk0 & _ & _ & Hle & _). assert (pk0 = pk) as -> by congruence.
    destruct (same_eq _ _ Hs2) as (_ & Hp2 & _). exists pk1. rewrite Hp2. split; [done|]. split; [|done].
    unfold blen in Hle. lia. }
  unfold runs, modify. split_and!.
  - split; [by apply (phys_ok_eq s2), (proj1 HI2)|]. eapply db_ok_ext; [exact Hk|].
    destruct Hok as [K1 K2 K3]. by split.
  - split; [apply grows_db|]. intros h v Hv. simpl. rewrite Hk.
    apply (bo_keep _ _ Hb). destruct Hq2 as [_ Hdb]. by rewrite Hdb in Hv.
  - destruct Hq2 as [[] _]. by split.
  - exact Hk.
Qed.

End batches.

(** ** Storing chunks *)

Section storing.
Context {E : Ext} `{!ExtLaws E}.

Lemma added_weaken s get s' get' n n' : n ⊆ n' -> added s get s' get' n -> added s get s' get' n'.
Proof. intros Hn [A1 A2 A3]. split; [done|done|]. intros h c [?|[? ?]]%A3; [by left|right; split; [by apply Hn|done]]. Qed.

Lemma store_chunk_typed s h v : store_ok s -> dbGet (db s) (chunkIndexKey h) = Some v -> is_Some (asChunk v).
Proof. intros [_ Hd] Hv. destruct (typed_chunk h v) as [e ->]; [by eapply do_typed|by eexists]. Qed.

(** A committed chunk is reused. *)
Lemma batch_hit s s' cb chunk : batch_ok s cb -> same s s' \/ quiet s s' -> phys_ok s' ->
  is_Some (vget s cb (chunkIndexKey (blake3 chunk))) ->
  forall cb', cb' = cb \/ cb' = cbSee (blake3 chunk) cb ->
  batch_ok s' cb' /\ is_Some (vget s' cb' (chunkIndexKey (blake3 chunk))) /\
  added s (vget s cb) s' (vget s' cb') [chunk].
Proof.
  intros Hb Hq Hp Hs cb' Hcb. assert (quiet s s') as Hq' by (destruct Hq; [by apply quiet_env|done]).
  assert (forall k, vget s' cb' k = vget s cb k) as Hv.
  { intros k. rewrite <- (vget_quiet s s' cb k Hq'). by destruct Hcb as [->| ->]. }
  pose proof (batch_ok_quiet _ _ _ Hq' Hp Hb) as Hb'.
  split; [|split; [by rewrite Hv|]].
  - destruct Hcb as [->| ->]; [done|]. apply batch_ok_see; [done|]. by rewrite (vget_quiet s s').
  - eapply added_ext; [exact Hv|]. eapply added_weaken, added_refl; [|apply Hq'|apply (bo_view _ _ Hb)].
    by intros x ?%elem_of_nil.
Qed.

(** Compressed bytes that were appended make a valid entry. *)
Lemma entry_written s s' t chunk id fam pid off z d pk :
  grows s s' -> usable (dicts s) id -> dictOf (dicts s) id = Some d -> z = zEncode d chunk ->
  packs s' !! pid = Some pk -> 0 <= off -> off + blen z <= blen (pkData pk) ->
  slice off (blen z) (pkData pk) = z ->
  entry_at s' (MkChunkEntry t (blake3 chunk) id fam pid off (blen z)) chunk.
Proof using Type*.
  intros Hg Hu Hd -> Hp H0 Hle Hsl. destruct (usable_extends _ _ _ (gr_dicts _ _ Hg) Hu) as [Hu' Hd'].
  exists pk, d. simpl. split_and!; try done; [apply blen_nonneg|congruence|].
  rewrite Hsl. apply zDecode_encode.
Qed.

(** A chunk neither seen nor committed is not in the batch's view. *)
Lemma batch_none s s' cb h : batch_ok s cb -> quiet s s' -> phys_ok s' ->
  None = dbGet (db s) (chunkIndexKey h) ≫= asChunk -> h ∉ cbSeen cb -> vget s' cb (chunkIndexKey h) = None.
Proof.
  intros Hb Hq Hp Hn Hseen. rewrite (vget_quiet s) by done.
  destruct (vget s cb (chunkIndexKey h)) as [v|] eqn:Hv; [|done]. exfalso. apply Hseen.
  apply (bo_new _ _ Hb); [by rewrite Hv|]. destruct (dbGet (db s) _) as [v'|] eqn:Hv'; [|done].
  destruct (store_chunk_typed s _ _ (bo_store _ _ Hb) Hv') as [x Hx]. simpl in Hn. congruence.
Qed.

(** Buffering the index entry of a new chunk. *)
Lemma batch_add s cb e chunk : batch_ok s cb ->
  vget s cb (chunkIndexKey (blake3 chunk)) = None -> ceChunkHash e = blake3 chunk -> entry_at s e chunk ->
  let cb' := cbSee (blake3 chunk) (cbTouch (cePackID e) (cbSet (chunkIndexKey (blake3 chunk)) (VChunk e) cb)) in
  batch_ok s cb' /\ is_Some (vget s cb' (chunkIndexKey (blake3 chunk))) /\
  added s (vget s cb) s (vget s cb') [chunk].
Proof.
  intros Hb Hnone Hh Hent cb'.
  destruct (db_ok_chunk s (vget s cb) (cbTouched cb) ({[cePackID e]} ∪ cbTouched cb) (blake3 chunk) e chunk)
    as [Hview Hadd]; [apply Hb|done|done|done|right; apply elem_of_union; left; by apply elem_of_singleton
      |by apply union_subseteq_r|].
  assert (forall k, vget s cb' k = upd (vget s cb) (chunkIndexKey (blake3 chunk)) (Some (VChunk e)) k) as Hv
    by (intros k; by rewrite <- vget_set).
  split; [|split].
  - destruct Hb as [K1 K2 K3 K4 K6 K5]. split.
    + done.
    + eapply db_ok_ext; [exact Hv|done].
    + intros h. rewrite Hv. unfold upd. case_bool_decide; [by eexists|]. simpl.
      intros [->%elem_of_singleton|?]%elem_of_union; [done|by apply K3].
    + intros h v Hhv. rewrite Hv. by apply (ad_keep _ _ _ _ _ Hadd), K4.
    + intros h. rewrite Hv. unfold upd. simpl. case_bool_decide as Hk; intros Hs Hn; apply elem_of_union.
      * apply chunkIndexKey_inj in Hk as ->. left. by apply elem_of_singleton.
      * right. by apply K6.
    + intros i [->%elem_of_singleton|?]%elem_of_union; [|by apply K5].
      destruct Hent as (pk & _ & -> & _). by eexists.
  - rewrite Hv. unfold upd. rewrite bool_decide_true by done. by eexists.
  - eapply added_ext; [exact Hv|done].
Qed.

Lemma storeChunkBatched_spec s cb chunk family : batch_ok s cb ->
  runs (storeChunkBatched cb chunk family) s phys_ok quiet (fun r s' =>
    r.1 = blake3 chunk /\ batch_ok s' r.2 /\ is_Some (vget s' r.2 (chunkIndexKey r.1)) /\
    added s (vget s cb) s' (vget s' r.2) [chunk]).
Proof using Type*.
  intros Hb. destruct (bo_store _ _ Hb) as [HI _]. unfold storeChunkBatched, ctxErr.
  rbind; [by apply (runs_io _ _)|]. intros [] s1 HI1 HR1 Hs1.
  case_bool_decide as Hseen.
  { rret; [done|]. split; [done|]. cbn [fst snd]. eapply batch_hit; eauto. by apply (bo_seen _ _ Hb). }
  pose proof (batch_ok_quiet _ _ _ HR1 HI1 Hb) as Hb1.
  rbind; [apply (metaGet_spec _ _ _ _ _); [done|intros v; apply store_chunk_typed, Hb1]|].
  intros [e|] s2 HI2 HR2 [Hs2 He]; cbn beta iota.
  { rret; [done|]. split; [done|]. cbn [fst snd].
    eapply batch_hit; [done|right; by etrans|done| |by right].
    destruct (dbGet (db s1) _) as [v|] eqn:Hv; [|done]. rewrite <- (vget_quiet s s1) by done.
    exists v. by apply (bo_keep _ _ Hb1). }
  assert (quiet s s2) as Hq2 by by etrans.
  rbind; [by apply runs_dict, compress_spec, (po_dicts _ HI2)|].
  intros [[z id] fam] s3 HI3 HR3 (Hu & d & Hdo & Hz). cbn [fst snd] in *. cbv beta iota.
  assert (quiet s s3) as Hq3 by by etrans. pose proof (batch_ok_quiet _ _ _ Hq3 HI3 Hb) as Hb3.
  rbind; [apply (metaGet_spec _ _ _ _ _); [done|intros v; apply store_chunk_typed, Hb3]|].
  intros [e|] s4 HI4 HR4 [Hs4 He4]; cbn beta iota.
  { rret; [done|]. split; [done|]. cbn [fst snd].
    eapply batch_hit; [done|right; by etrans|done| |by right].
    destruct (dbGet (db s3) _) as [v|] eqn:Hv; [|done]. rewrite <- (vget_quiet s s3) by done.
    exists v. by apply (bo_keep _ _ Hb3). }
  assert (quiet s s4) as Hq4 by by etrans.
  rbind; [by apply appendNoSync_spec|].
  intros [pid off] s5 HI5 HR5 (pk & Hpk & H0 & Hle & Hsl). cbn [fst snd] in *.
  rbind; [by apply (runs_now _ _)|]. intros t s6 HI6 HR6 [Hs6 _].
  assert (quiet s3 s6) as Hq36 by (etrans; [|by apply quiet_env]; by etrans).
  assert (quiet s s6) as Hq6 by (etrans; [exact Hq3|exact Hq36]).
  pose proof (batch_ok_quiet _ _ _ Hq6 HI6 Hb) as Hb6.
  assert (entry_at s6 (MkChunkEntry t (blake3 chunk) id fam pid off (blen z)) chunk) as Hent.
  { apply (entry_written s3 s6 t chunk id fam pid off z d pk); try done; [apply Hq36|].
    by destruct (same_eq _ _ Hs6) as (_ & -> & _). }
  rret; [done|]. split; [done|]. cbn [fst snd].
  destruct (batch_add s6 cb (MkChunkEntry t (blake3 chunk) id fam pid off (blen z)) chunk) as (K1 & K2 & K3);
    [done| |done|done|].
  { eapply batch_none; [exact Hb3|exact Hq36|done|exact He4|exact Hseen]. }
  split; [done|]. split; [done|]. change [chunk] with ([] ++ [chunk]). eapply added_trans; [|exact K3].
  eapply added_ext; [intros k; by apply vget_quiet|]. eapply added_refl; [apply Hq6|apply (bo_view _ _ Hb)].
Qed.

(** A batch of metadata writes that keeps the invariant and the chunk index. *)
Lemma metaApply_spec s ws : store_ok s ->
  db_ok s (fun k => writesAt ws k (dbGet (db s) k)) ∅ ->
  (forall h v, dbGet (db s) (chunkIndexKey h) = Some v ->
     writesAt ws (chunkIndexKey h) (dbGet (db s) (chunkIndexKey h)) = Some v) ->
  runs (metaApply ws) s store_ok extends
    (fun _ s' => grows s s' /\ forall k, dbGet (db s') k = writesAt ws k (dbGet (db s) k)).
Proof using Type*.
  intros [Hp Hd] Hok Hkeep. unfold metaApply. rbind; [apply (runs_io _ _); by split|]. intros [] s1 HI1 _ Hs1.
  destruct (same_eq _ _ Hs1) as (Hdb & _).
  assert (forall k, dbGet (dbApply ws (db s1)) k = writesAt ws k (dbGet (db s) k)) as Hk.
  { intros k. by rewrite dbGet_apply, Hdb. }
  unfold runs, modify. split_and!.
  - split; [by apply (phys_ok_eq s1), (proj1 HI1)|]. eapply db_ok_ext; [exact Hk|].
    eapply (db_ok_grows s1); [apply grows_db|]. eapply db_ok_grows; [by apply same_grows|done].
  - split; [apply grows_db|]. intros h v Hv. simpl. rewrite Hk. apply Hkeep. by rewrite <- Hdb.
  - etrans; [by apply same_grows|apply grows_db].
  - exact Hk.
Qed.

Lemma metaPut_spec s k v : store_ok s -> db_ok s (upd (dbGet (db s)) k (Some v)) ∅ ->
  HasPrefix k "c/" = false \/ dbGet (db s) k = None ->
  runs (metaPut k v) s store_ok extends
    (fun _ s' => grows s s' /\ forall k', dbGet (db s') k' = upd (dbGet (db s)) k (Some v) k').
Proof using Type*.
  intros HI Hok Hk. unfold metaPut. apply metaApply_spec; [done|exact Hok|]. intros h v' Hv. simpl.
  case_bool_decide as Hh; [|done]. subst k. destruct Hk as [Hk|Hk]; [by rewrite HasPrefix_chunk in Hk|congruence].
Qed.

Lemma storeChunk_spec s chunk family : store_ok s ->
  runs (storeChunk chunk family) s store_ok extends (fun r s' =>
    r = blake3 chunk /\ is_Some (dbGet (db s') (chunkIndexKey r)) /\
    added s (dbGet (db s)) s' (dbGet (db s')) [chunk]).
Proof using Type*.
  intros HI. unfold storeChunk, ctxErr.
  assert (forall s', quiet s s' -> is_Some (dbGet (db s) (chunkIndexKey (blake3 chunk)) ≫= asChunk) ->
    blake3 chunk = blake3 chunk /\ is_Some (dbGet (db s') (chunkIndexKey (blake3 chunk))) /\
    added s (dbGet (db s)) s' (dbGet (db s')) [chunk]) as Hhit.
  { intros s' [Hg Hd] Hs. rewrite Hd. split; [done|]. split.
    - destruct (dbGet (db s) _); [by eexists|by destruct Hs].
    - eapply added_weaken, added_refl; [by intros x ?%elem_of_nil|done|apply HI]. }
  rbind; [by apply (runs_io _ _)|]. intros [] s1 HI1 _ Hs1. destruct (same_eq _ _ Hs1) as (Hd1 & _).
  rbind; [apply (metaGet_spec _ _ _ _ _); [done|intros v; by apply store_chunk_typed]|].
  intros [e|] s2 HI2 _ [Hs2 He]; cbn beta iota; rewrite Hd1 in He.
  { rret; [done|]. apply Hhit; [apply quiet_env; by etrans|by rewrite <- He]. }
  assert (quiet s s2) as Hq2 by (apply quiet_env; by etrans).
  rbind; [apply runs_phys; [done|apply runs_dict; [apply HI2|apply compress_spec, HI2]]|].
  intros [[z id] fam] s3 HI3 _ (HR3 & Hu & d & Hdo & Hz). cbn [fst snd] in *. cbv beta iota.
  assert (quiet s s3) as Hq3 by by etrans.
  rbind; [apply (metaGet_spec _ _ _ _ _); [done|intros v; by apply store_chunk_typed]|].
  intros [e|] s4 HI4 _ [Hs4 He4]; cbn beta iota; destruct Hq3 as [Hg3 Hd3]; rewrite Hd3 in He4.
  { rret; [done|]. apply Hhit; [|by rewrite <- He4]. etrans; [by split|by apply quiet_env]. }
  rbind; [apply runs_phys; [done|apply appendToActivePack_spec, HI4]|].
  intros [pid off] s5 HI5 _ (HR5 & pk & Hpk & H0 & Hsy & Hlk & Hle & Hsl). cbn [fst snd] in *.
  rbind; [by apply (runs_now _ _)|]. intros t s6 HI6 _ [Hs6 _].
  assert (quiet s3 s6) as Hq36.
  { etrans; [by apply quiet_env|]. etrans; [exact HR5|]. by apply quiet_env. }
  assert (quiet s s6) as [Hg6 Hd6] by (etrans; [split; [exact Hg3|exact Hd3]|exact Hq36]).
  set (e := MkChunkEntry t (blake3 chunk) id fam pid off (blen z)).
  destruct (same_eq _ _ Hs6) as (_ & Hp6 & _).
  assert (entry_at s6 e chunk) as Hent.
  { apply (entry_written s3 s6 t chunk id fam pid off z d pk); try done; [apply Hq36|]. by rewrite Hp6. }
  destruct (db_ok_chunk s6 (dbGet (db s6)) ∅ ∅ (blake3 chunk) e chunk) as [Hview Hadd]; try done.
  { apply HI6. }
  { rewrite Hd6. destruct (dbGet (db s) _) as [v|] eqn:Hv; [|done].
    destruct (store_chunk_typed s _ v HI Hv) as [x Hx]. simpl in He4. congruence. }
  { left. exists pk. by rewrite Hp6. }
  rbind; [apply metaPut_spec; [done|done|right]|].
  { rewrite Hd6. destruct (dbGet (db s) _) as [v|] eqn:Hv; [|done].
    destruct (store_chunk_typed s _ v HI Hv) as [x Hx]. simpl in He4. congruence. }
  intros [] s7 HI7 _ [Hg7 Hk7]. rret; [done|]. split; [done|]. split.
  { rewrite Hk7. unfold upd. rewrite bool_decide_true by done. by eexists. }
  change [chunk] with (([] ++ [chunk]) ++ []). eapply added_trans; [eapply added_trans; [|exact Hadd]|].
  - rewrite Hd6. eapply added_refl; [exact Hg6|apply HI].
  - eapply added_ext; [exact Hk7|]. eapply added_refl; [exact Hg7|exact Hview].
Qed.

Lemma storeChunksBatched_spec s cb chunks family : batch_ok s cb ->
  runs (forM chunks ([], cb) (fun acc chunk =>
      p ← storeChunkBatched acc.2 chunk family; mret (acc.1 ++ [p.1], p.2))) s phys_ok quiet
    (fun r s' => r.1 = map blake3 chunks /\ batch_ok s' r.2 /\
      Forall (fun h => is_Some (vget s' r.2 (chunkIndexKey h))) r.1 /\
      added s (vget s cb) s' (vget s' r.2) chunks).
Proof using Type*.
  intros Hb. apply (runs_forM _ _ _ _ _ _ (fun done r s' => r.1 = map blake3 done /\ batch_ok s' r.2 /\
      Forall (fun h => is_Some (vget s' r.2 (chunkIndexKey h))) r.1 /\
      added s (vget s cb) s' (vget s' r.2) done)).
  - apply Hb.
  - cbn [fst snd]. split; [done|]. split; [done|]. split; [done|]. eapply added_refl; [reflexivity|apply Hb].
  - intros done [hs cb1] chunk s1 _ HI1 _ (-> & Hb1 & Hf & Ha). cbn [fst snd] in *.
    rbind; [by apply storeChunkBatched_spec|]. intros [h cb2] s2 HI2 _ (-> & Hb2 & Hs2 & Ha2). cbn [fst snd] in *.
    rret; [done|]. cbn [fst snd]. split; [by rewrite map_app|]. split; [done|]. split.
    + apply Forall_app. split; [|by apply Forall_singleton].
      eapply Forall_impl; [exact Hf|]. intros h' [v Hv]. exists v. by apply (ad_keep _ _ _ _ _ Ha2).
    + by eapply added_trans.
Qed.

Lemma storeChunks_spec s chunks family : store_ok s ->
  runs (forM chunks [] (fun hashes chunk => h ← storeChunk chunk family; mret (hashes ++ [h]))) s store_ok extends
    (fun r s' => r = map blake3 chunks /\
      Forall (fun h => is_Some (dbGet (db s') (chunkIndexKey h))) r /\
      added s (dbGet (db s)) s' (dbGet (db s')) chunks).
Proof using Type*.
  intros HI. apply (runs_forM _ _ _ _ _ _ (fun done r s' => r = map blake3 done /\
      Forall (fun h => is_Some (dbGet (db s') (chunkIndexKey h))) r /\
      added s (dbGet (db s)) s' (dbGet (db s')) done)).
  - done.
  - split; [done|]. split; [done|]. eapply added_refl; [reflexivity|apply HI].
  - intros done hs chunk s1 _ HI1 _ (-> & Hf & Ha).
    rbind; [by apply storeChunk_spec|]. intros h s2 HI2 _ (-> & Hs2 & Ha2).
    rret; [done|]. split; [by rewrite map_app|]. split.
    + apply Forall_app. split; [|by apply Forall_singleton].
      eapply Forall_impl; [exact Hf|]. intros h' [v Hv]. exists v. by apply (ad_keep _ _ _ _ _ Ha2).
    + by eapply added_trans.
Qed.

End storing.

(** ** Reading chunks *)

Section reading.
Context {E : Ext} `{!ExtLaws E}.

(** Content the store can answer for a hash: indexed, or still cached. *)
Definition known (s : Store) (h : string) (c : bytes) : Prop :=
  holds s (dbGet (db s)) h c \/ SizedLru.peek h (chunkCache s) = Some c.

(** A read: packs and metadata are untouched, the cache holds nothing new. *)
Record reading (s s' : Store) : Prop := {
  rd_core : (db s', packs s', packsDir s', activePack s') = (db s, packs s, packsDir s, activePack s);
  rd_dicts : dict_extends (dicts s) (dicts s');
  rd_known : forall h c, known s' h c -> known s h c;
  rd_clock : clock s <= clock s';
  rd_faults : faults s = [] -> faults s' = [] }.

#[export] Instance reading_rel : StoreRel reading.
Proof.
  split.
  - intros s. split; [done|done|done|lia|done].
  - intros a b c [H1 H2 H3 H4 H5] [K1 K2 K3 K4 K5].
    split; [congruence|by etrans|auto|lia|auto].
  - by intros s s' [].
Qed.

#[export] Instance reading_env : EnvRel reading.
Proof.
  intros s s' Hs. destruct (same_eq _ _ Hs) as (Hd & Hp & Hpd & Ha & Hx & Hc). destruct Hs as [_ ? ?].
  split; [congruence|by rewrite Hx| |done|done].
  intros h c [(e & He & Hat)|Hk]; [left|right; by rewrite <- Hc]. exists e. rewrite <- Hd. split; [done|].
  unfold entry_at in *. by rewrite Hp, Hx in Hat.
Qed.

Lemma reading_grows s s' : reading s s' -> grows s (set_chunkCache (chunkCache s) s').
Proof.
  intros [Hc Hd _ Ht Hf]. injection Hc as _ Hp _ _. split; simpl; [|done..]. rewrite Hp.
  intros id pk ?. exists pk. auto.
Qed.

Lemma store_ok_reading s s' : store_ok s -> reading s s' -> dict_ok (dicts s') -> cache_ok (chunkCache s') ->
  store_ok s'.
Proof.
  intros [Hp Hdb] Hr Hd Hc. pose proof (reading_grows _ _ Hr) as Hg. destruct Hr as [Heq _ _ _ _].
  injection Heq as E1 E2 E3 E4. split.
  - destruct Hp as [H1 H2 H3 _ _]. split; rewrite ?E2, ?E3, ?E4; done.
  - rewrite E1. destruct (db_ok_grows _ _ _ _ Hg Hdb) as [K1 K2 K3]. by split.
Qed.

Lemma entry_at_reading s s' e c : reading s s' -> entry_at s e c -> entry_at s' e c.
Proof. intros Hr. exact (entry_at_grows _ _ e c (reading_grows _ _ Hr)). Qed.

(** The reverse direction holds for valid entries: content is determined. *)
Lemma holds_back s s' h c : store_ok s -> reading s s' -> holds s' (dbGet (db s)) h c -> holds s (dbGet (db s)) h c.
Proof.
  intros [_ Hd] Hr (e & He & Hc). exists e. split; [done|].
  destruct (do_chunks _ _ _ Hd h e He) as (_ & [c0 Hc0] & _).
  by rewrite <- (entry_at_fun s' e c0 c); [|eapply entry_at_reading|].
Qed.

(** Dictionary operations are reads. *)
Lemma runs_dict_reading {A} (m : M A) s P : store_ok s -> runs m s dict_inv dict_rel P ->
  runs m s store_ok reading P.
Proof.
  intros Hs H. eapply runs_mono; [exact H| |done]. intros s' Hd [Hc Hx Ht Hf].
  injection Hc as H0 H1 H2 H3 H4.
  assert (reading s s') as Hr.
  { split; [congruence|done| |done|done]. intros h c [(e & He & Hat)|Hk]; [left|right; by rewrite <- H4].
    rewrite H0 in He. destruct (do_chunks _ _ _ (proj2 Hs) h e He) as (_ & [c0 Hc0] & _). exists e. split; [done|].
    assert (grows s s') as Hg by (split; [rewrite H1; intros id pk ?; exists pk; auto|done..]).
    by rewrite <- (entry_at_fun s' e c0 c); [|eapply entry_at_grows|]. }
  split; [|done]. eapply store_ok_reading; [exact Hs|done|done|]. rewrite H4. apply Hs.
Qed.

Lemma cacheGet_spec s h : store_ok s ->
  runs (cacheGet h) s store_ok reading (fun r s' => forall c, r = Some c -> known s h c).
Proof.
  intros Hs. destruct (SizedLru.bc_get (get := SizedLru.Get) h (chunkCache s)) as (c' & Hg & Hok & Hin); [apply Hs|].
  unfold cacheGet. rgets. unfold liftPanic. rewrite Hg.
  assert (reading s (set_chunkCache c' s)) as Hr.
  { split; [done|done| |simpl; lia|done]. intros h' c [?|Hk]; [by left|right; by apply Hin]. }
  unfold runs. simpl. split; [|split; [done|]].
  - eapply store_ok_reading; [exact Hs|done|apply Hs|]. split; [done|]. intros h' v Hv.
    destruct (po_cache _ (proj1 Hs)) as [_ Hh]. apply Hh. by apply Hin.
  - intros c Hc. by right.
Qed.

Lemma cachePut_spec s h c : store_ok s -> known s h c -> blake3 c = h ->
  runs (cachePut h c) s store_ok reading (fun _ _ => True).
Proof.
  intros Hs Hk Hb. destruct (SizedLru.bc_put (put := SizedLru.Put) h c (chunkCache s)) as (c' & Hg & Hok & Hin); [apply Hs|].
  unfold cachePut. rgets. unfold liftPanic. rewrite Hg.
  assert (reading s (set_chunkCache c' s)) as Hr.
  { split; [done|done| |simpl; lia|done].
    intros h' c0 [?|Hk0]; [by left|]. destruct (Hin _ _ Hk0) as [?|[-> ->]]; [by right|done]. }
  unfold runs. simpl. split; [|by split].
  eapply store_ok_reading; [exact Hs|done|apply Hs|]. split; [done|]. intros h' v Hv.
  destruct (po_cache _ (proj1 Hs)) as [_ Hh]. destruct (Hin _ _ Hv) as [?|[-> ->]]; [by apply Hh|done].
Qed.

Lemma wrapErr_spec {A} msg (m : M A) s Inv R P : runs m s Inv R P -> runs (wrapErr msg m) s Inv R P.
Proof. unfold runs, wrapErr. by destruct (m s) as [[a|e|] s']. Qed.

Lemma openPack_spec s id pk : store_ok s -> packs s !! id = Some pk ->
  runs (openPack id) s store_ok reading (fun r s' => r = pkData pk /\ same s s').
Proof.
  intros Hs Hp. unfold openPack. rbind; [by apply (runs_io _ _)|]. intros [] s1 HI1 _ Hs1. rgets.
  destruct (same_eq _ _ Hs1) as (_ & -> & _). rewrite Hp. by rret.
Qed.

Lemma readAt_spec s data off len : store_ok s -> 0 <= off -> 0 <= len -> off + len <= blen data ->
  runs (readAt data off len) s store_ok reading (fun r s' => r = slice off len data /\ same s s').
Proof.
  intros Hs H1 H2 H3. unfold readAt. destruct (Z.ltb_spec len 0); [lia|].
  rbind; [by apply (runs_io _ _)|]. intros [] s1 HI1 _ Hs1.
  destruct (Z.ltb_spec off 0); [lia|]. destruct (Z.ltb_spec (blen data) (off + len)); [lia|].
  rewrite andb_false_r. by rret.
Qed.

(** Reading an entry the invariant covers returns its content. *)
Lemma readChunkAt_spec s h e c : store_ok s -> entry_at s e c -> ceChunkHash e = h ->
  runs (readChunkAt h e) s store_ok reading (fun r _ => r = c).
Proof.
  intros Hs Hat Hh. pose proof Hat as (pk & d & Hp & H0 & H1 & Hle & Hu & Hd & Hz & Hb). unfold readChunkAt.
  rbind; [by apply openPack_spec|]. intros data s1 HI1 HR1 [-> Hs1].
  rbind; [by apply wrapErr_spec, readAt_spec|]. intros z s2 HI2 HR2 [-> Hs2].
  assert (dicts s2 = dicts s) as Hds.
  { destruct (same_eq _ _ Hs1) as (_ & _ & _ & _ & <- & _). by apply same_dicts. }
  rbind. { apply wrapErr_spec, runs_dict_reading; [done|].
    apply (decompress_spec _ _ _ d c); [apply HI2|by rewrite Hds..|done]. }
  intros r s3 HI3 _ ->. rewrite bool_decide_true by congruence. by rret.
Qed.

(** [readChunk] never returns content that does not hash to the name, and fails
    only on an I/O error when the chunk is indexed. *)
Lemma readChunk_spec s h : store_ok s -> is_Some (dbGet (db s) (chunkIndexKey h)) ->
  runs (readChunk h) s store_ok reading (fun r s' => known s h r /\ blake3 r = h).
Proof.
  intros Hs Hin. unfold readChunk. rbind; [by apply cacheGet_spec|].
  intros [c|] s1 HI1 HR1 Hc; cbn beta iota.
  { rret; [done|]. specialize (Hc c eq_refl). split; [done|]. destruct Hc as [Hh|Hk].
    - destruct Hh as (e & He & Hat). destruct (do_chunks _ _ _ (proj2 Hs) h e He) as (<- & _).
      by destruct Hat as (? & ? & _ & _ & _ & _ & _ & _ & _ & ?).
    - by apply (po_cache _ (proj1 Hs)). }
  assert (db s1 = db s) as Hd1 by (destruct HR1 as [Heq _ _ _ _]; congruence).
  destruct (db_ok_holds s1 (dbGet (db s1)) ∅ h) as (c & (e & He & Hat) & Hb); [apply HI1|by rewrite Hd1|].
  destruct (do_chunks _ _ _ (proj2 HI1) h e He) as (Hh & _).
  assert (forall s2, reading s1 s2 -> known s2 h c) as Hkn.
  { intros s2 Hr. left. exists e. destruct Hr as [Heq ? ? ? ?]. injection Heq as E1 E2 E3 E4.
    rewrite E1. split; [done|]. eapply entry_at_reading; [|exact Hat]. by split; [congruence|..]. }
  assert (known s h c) as Hks by (apply (rd_known _ _ HR1), Hkn; reflexivity).
  assert (forall v, dbGet (db s1) (chunkIndexKey h) = Some v -> is_Some (asChunk v)) as Hty.
  { intros v Hv. rewrite He in Hv. injection Hv as <-. by eexists. }
  rbind; [by apply (metaGet_spec _ _ _ _ _)|]. intros r s2 HI2 HR2 [Hs2 ->]. rewrite He. cbn [mbind option_bind asChunk].
  assert (forall s3, store_ok s3 -> reading s1 s3 -> runs (_ ← cachePut h c; mret c) s3 store_ok reading
    (fun r _ => known s h r /\ blake3 r = h)) as Hput.
  { intros s3 HI3 HR3. rbind; [apply cachePut_spec; [done|by apply Hkn|done]|]. intros [] s4 HI4 _ _. by rret. }
  eapply runs_try_bind; [apply _|apply (readChunkAt_spec _ _ _ c); [done|by eapply entry_at_reading|done]|..].
  - intros r s3 HI3 HR3 ->. apply Hput; [done|by etrans].
  - intros err s3 _ HI3 HR3. destruct (isNotExist err); cbn [negb]; [|by apply stops_fail; [apply _|]].
    assert (reading s1 s3) as HR13 by by etrans.
    assert (db s3 = db s1) as Hd3 by (destruct HR13 as [Heq _ _ _ _]; congruence).
    apply runs_stops. rbind; [apply (metaGet_spec _ _ _ _ _); [done|by rewrite Hd3]|].
    intros r s4 HI4 HR4 [Hs4 ->]. rewrite Hd3, He. cbn [mbind option_bind asChunk].
    rbind. { apply (readChunkAt_spec _ _ _ c); [done| |done].
      eapply entry_at_reading; [|exact Hat]. etrans; [exact HR13|done]. }
    intros r s5 HI5 HR5 ->. apply Hput; [done|]. etrans; [exact HR13|]. by etrans.
Qed.

End reading.

(** ** Whole objects *)

Section blobs.
Context {E : Ext} `{!ExtLaws E}.

(** [streamM] over a reader is the loop over the chunks of its content. *)
Lemma eachChunk_forM {B} (fn : B -> bytes -> M B) cs t s acc b :
  match forM cs acc fn s with
  | (Ok a, s') => exists b', (eachChunk (streamCallback fn) t cs (s, acc, b)).1.2 = None /\
      (eachChunk (streamCallback fn) t cs (s, acc, b)).2 = (s', a, b')
  | (Err e, s') => exists a, (eachChunk (streamCallback fn) t cs (s, acc, b)).1.2 = Some e /\
      (eachChunk (streamCallback fn) t cs (s, acc, b)).2 = (s', a, false)
  | (Panic, s') => exists a e, (eachChunk (streamCallback fn) t cs (s, acc, b)).1.2 = Some e /\
      (eachChunk (streamCallback fn) t cs (s, acc, b)).2 = (s', a, true)
  end.
Proof.
  revert t s acc b. induction cs as [|c cs IH]; intros t s acc b; simpl; [eauto|].
  unfold mbind, M_bind. destruct (fn acc c s) as [[a|e|] s1]; simpl; [apply IH|eauto|eauto].
Qed.

Lemma streamM_spec {B} r (acc : B) fn s Inv R P cs :
  firstErr (script r) = None -> chunkContent (delivered (script r)) = Some cs ->
  runs (forM cs acc fn) s Inv R P ->
  runs (streamM r acc fn) s Inv R (fun x s' => x.1.1 = blen (delivered (script r)) /\
    seen x.1.2 = seen r ++ delivered (script r) /\ P x.2 s').
Proof.
  intros He Hcs Hr.
  destruct (streamChunks_chunks (streamCallback fn) r (s, acc, false) He) as (cs' & r' & Hcs' & Hst & Hok).
  assert (cs' = cs) as -> by congruence. unfold runs, streamM in *. rewrite Hst.
  pose proof (eachChunk_forM fn cs 0 s acc false) as He'.
  destruct (eachChunk (streamCallback fn) 0 cs (s, acc, false)) as [[t e] st]. csimpl in *.
  destruct (forM cs acc fn s) as [[a|err|] s']; [..|done].
  - destruct He' as (b' & -> & ->). destruct Hr as (? & ? & ?). specialize (Hok eq_refl). simpl. tauto.
  - destruct He' as (a & -> & ->). done.
Qed.

(** A failing reader: the callback's invariant holds where it stopped. *)
Lemma streamM_failed {B} r (acc : B) fn s e (J : B -> Store -> Prop) :
  firstErr (script r) = Some e -> J acc s ->
  (forall acc c s, J acc s -> match fn acc c s with
    | (Ok a, s') => J a s' | (Err _, s') => J acc s' | (Panic, _) => False end) ->
  exists e' acc' s', streamM r acc fn s = (Err e', s') /\ J acc' s'.
Proof.
  intros He HJ Hfn.
  destruct (streamLoop_failed (streamCallback fn) r (s, acc, false) e He) as (t & e' & r' & [[s' acc'] p] & Hst).
  assert (p = false /\ J acc' s') as [-> HJ'].
  { refine (streamLoop_inv (streamCallback fn) (fun st => st.2 = false /\ J st.1.2 st.1.1) _ _ _ _ _ _ _ _ _ Hst);
      [|done]. intros c [[s0 a0] p0] [_ H0]. simpl in H0. specialize (Hfn a0 c s0 H0). unfold streamCallback.
    destruct (fn a0 c s0) as [[?|?|] ?]; [done..|by destruct Hfn]. }
  exists e', acc', s'. unfold streamM. by rewrite Hst.
Qed.

(** What storing an object adds to a view: its chunks and its recipe. *)
Record stored_object (s : Store) get (s' : Store) get' (digest : ObjectDigest) (content : bytes) : Prop := {
  st_keep : forall h v, get (chunkIndexKey h) = Some v -> get' (chunkIndexKey h) = Some v;
  st_other : forall k, HasPrefix k "c/" = false -> k <> objectRecipeKey digest -> get' k = get k;
  st_new : forall h c, holds s' get' h c -> holds s get h c \/
    exists cs, chunkContent content = Some cs /\ c ∈ cs /\ h = blake3 c;
  st_recipe : exists t cs, chunkContent content = Some cs /\
    get' (objectRecipeKey digest) = Some (VRecipe (MkRecipe t digest (map blake3 cs) (blen content)));
  st_time : forall e, get' (objectRecipeKey digest) = Some (VRecipe e) -> clock s <= reUpdatedAt e }.

Lemma holds_upd_recipe s get d v h c :
  holds s (upd get (objectRecipeKey d) v) h c <-> holds s get h c.
Proof. unfold holds. by rewrite prefix_upd_ne. Qed.

Lemma added_object s get s' get' get'' t digest content cs :
  chunkContent content = Some cs -> clock s <= t -> added s get s' get' cs ->
  (forall k, get'' k = upd get' (objectRecipeKey digest)
      (Some (VRecipe (MkRecipe t digest (map blake3 cs) (blen content)))) k) ->
  stored_object s get s' get'' digest content.
Proof.
  intros Hcs Ht [A1 A2 A3] Hk. split.
  - intros h v Hv. rewrite Hk, prefix_upd_ne by done. by apply A1.
  - intros k Hc Hne. rewrite Hk. unfold upd. rewrite bool_decide_false by congruence. by apply A2.
  - intros h c (e & He & Hat). rewrite Hk, prefix_upd_ne in He by done.
    destruct (A3 h c) as [?|[? ?]]; [by exists e|by left|right; eauto].
  - exists t, cs. split; [done|]. rewrite Hk. unfold upd. by rewrite bool_decide_true.
  - intros e. rewrite Hk. unfold upd. rewrite bool_decide_true by done. by intros [= <-].
Qed.

(** Buffering the recipe of chunks the batch already holds. *)
Lemma batch_recipe s0 get0 s cb t digest content cs :
  batch_ok s cb -> chunkContent content = Some cs -> clock s0 <= t ->
  Forall (fun h => is_Some (vget s cb (chunkIndexKey h))) (map blake3 cs) ->
  added s0 get0 s (vget s cb) cs ->
  let cb' := cbSet (objectRecipeKey digest) (VRecipe (MkRecipe t digest (map blake3 cs) (blen content))) cb in
  batch_ok s cb' /\ stored_object s0 get0 s (vget s cb') digest content.
Proof.
  intros Hb Hcs Ht Hf Ha cb'. split.
  - apply batch_ok_set; [done|done|]. by apply db_ok_recipe; [apply Hb|].
  - eapply (added_object _ _ _ (vget s cb)); [done|done|done|]. intros k. apply vget_set.
Qed.

Lemma chunkContent_total content : exists cs, chunkContent content = Some cs.
Proof. destruct (chunks_concat content) as (cs & ? & _). eauto. Qed.

Lemma storeBlobContentBatched_spec s cb digest content mediaType roles : batch_ok s cb ->
  runs (storeBlobContentBatched cb digest content mediaType roles) s phys_ok quiet
    (fun cb' s' => batch_ok s' cb' /\ stored_object s (vget s cb) s' (vget s' cb') digest content).
Proof using Type*.
  intros Hb. unfold storeBlobContentBatched, ctxErr.
  rbind; [apply (runs_io _ _); apply Hb|]. intros [] s1 HI1 HR1 _.
  rbind; [by apply (runs_now _ _)|]. intros t s2 HI2 HR2 [_ ->].
  assert (quiet s s2) as Hq by by etrans. pose proof (gr_clock _ _ (proj1 Hq)) as Hclk. pose proof (batch_ok_quiet _ _ _ Hq HI2 Hb) as Hb2.
  destruct (chunkContent_total content) as [cs Hcs]. rewrite Hcs. cbn [liftPanic].
  change (runs (r ← forM cs ([], cb) (fun acc chunk =>
        p ← storeChunkBatched acc.2 chunk (dictionaryFamilyForObject mediaType roles); mret (acc.1 ++ [p.1], p.2));
      mret (cbSet (objectRecipeKey digest) (VRecipe (MkRecipe (clock s2) digest r.1 (blen content))) r.2)) s2 phys_ok quiet
    (fun cb' s' => batch_ok s' cb' /\ stored_object s (vget s cb) s' (vget s' cb') digest content)).
  rbind; [by apply storeChunksBatched_spec|]. intros [hs cb3] s3 HI3 HR3 (-> & Hb3 & Hf & Ha). cbn [fst snd] in *.
  rret; [done|]. apply (batch_recipe s (vget s cb)); [done|done|done|done|].
  rewrite <- (app_nil_l cs). eapply added_trans; [|exact Ha].
  eapply added_ext; [intros k; by apply vget_quiet|]. eapply added_refl; [apply Hq|apply Hb].
Qed.

Lemma storeBlobReaderBatched_spec s cb reader mediaType roles : batch_ok s cb ->
  firstErr (script reader) = None ->
  let content := delivered (script reader) in
  runs (storeBlobReaderBatched cb reader mediaType roles) s phys_ok quiet
    (fun r s' => r.1 = (blake3 content, sha256 content, blen content) /\ batch_ok s' r.2 /\
       stored_object s (vget s cb) s' (vget s' r.2) (blake3 content) content).
Proof using Type*.
  intros Hb He content. unfold storeBlobReaderBatched, ctxErr.
  rbind; [apply (runs_io _ _); apply Hb|]. intros [] s1 HI1 HR1 _.
  pose proof (batch_ok_quiet _ _ _ HR1 HI1 Hb) as Hb1.
  destruct (chunkContent_total content) as [cs Hcs].
  rbind; [eapply (streamM_spec (MkReader (script reader) [])); [done|exact Hcs|by apply storeChunksBatched_spec]|].
  intros [[n teed] [hs cb2]] s2 HI2 HR2 (Hn & Hseen & Hhs & Hb2 & Hf & Ha). cbn [fst snd script seen] in *.
  rewrite app_nil_l in Hseen. cbv beta iota.
  rbind; [by apply (runs_now _ _)|]. intros t s3 HI3 HR3 [_ ->].
  assert (quiet s s3) as Hq by (etrans; [exact HR1|]; by etrans).
  pose proof (batch_ok_quiet _ _ _ HR3 HI3 Hb2) as Hb3.
  rret; [done|]. cbn [fst snd]. subst n hs. rewrite Hseen.
  change (delivered (script reader)) with content. split; [done|].
  apply (batch_recipe s (vget s cb)); [done|done|apply (gr_clock _ _ (proj1 Hq))|..].
  - eapply Forall_impl; [exact Hf|]. intros h. simpl. by rewrite (vget_quiet s2 s3).
  - rewrite <- (app_nil_r cs), <- (app_nil_l cs). eapply added_trans; [eapply added_trans; [|exact Ha]|].
    + eapply added_ext; [intros k; by apply vget_quiet|]. eapply added_refl; [apply HR1|apply Hb].
    + eapply added_ext; [intros k; exact (vget_quiet s2 s3 cb2 k HR3)|].
      eapply added_refl; [apply HR3|apply Hb2].
Qed.

(** A reader that fails leaves a consistent store and an error. *)
Lemma storeBlobReaderBatched_failed s cb reader mediaType roles e : batch_ok s cb ->
  firstErr (script reader) = Some e ->
  exists e' s', storeBlobReaderBatched cb reader mediaType roles s = (Err e', s') /\ store_ok s' /\ quiet s s'.
Proof using Type*.
  intros Hb He. unfold storeBlobReaderBatched, ctxErr.
  pose proof (runs_io phys_ok quiet s (proj1 (bo_store _ _ Hb))) as Hio. unfold runs in Hio.
  destruct (io s) as [[[]|err|] s1] eqn:Hi; [..|done].
  2: { destruct Hio as (Hp & Hq & _). exists err, s1. split; [by apply bind_err|]. split; [|done].
       eapply store_ok_quiet; [apply Hb|done|done]. }
  destruct Hio as (Hp & Hq & _). pose proof (batch_ok_quiet _ _ _ Hq Hp Hb) as Hb1.
  rewrite (bind_ok _ _ _ _ _ Hi).
  edestruct (streamM_failed (MkReader (script reader) []) ([] : list string, cb)
    (fun acc chunk => p ← storeChunkBatched acc.2 chunk (dictionaryFamilyForObject mediaType roles); mret (acc.1 ++ [p.1], p.2))
    s1 e (fun acc s' => batch_ok s' acc.2 /\ quiet s s')) as (e' & acc' & s' & Hst & Hb' & Hq').
  - done.
  - done.
  - intros [hs cb1] chunk s2 [Hb2 Hq2]. cbn [fst snd] in *.
    pose proof (storeChunkBatched_spec s2 cb1 chunk (dictionaryFamilyForObject mediaType roles) Hb2) as Hr.
    unfold runs in Hr. unfold mbind, M_bind.
    destruct (storeChunkBatched _ _ _ s2) as [[r|err|] s3]; [..|done]; destruct Hr as (Hp3 & Hq3 & Hr); simpl.
    + split; [apply Hr|by etrans].
    + split; [by eapply batch_ok_quiet|by etrans].
  - exists e', s'. split; [by apply bind_err|]. split; [apply Hb'|done].
Qed.

Lemma storeBlobContent_spec s digest content mediaType roles : store_ok s ->
  runs (storeBlobContent digest content mediaType roles) s store_ok extends
    (fun _ s' => stored_object s (dbGet (db s)) s' (dbGet (db s')) digest content).
Proof using Type*.
  intros HI. unfold storeBlobContent, ctxErr.
  rbind; [by apply (runs_io _ _)|]. intros [] s1 HI1 _ Hs1.
  rbind; [by apply (runs_now _ _)|]. intros t s2 HI2 _ [Hs2 ->].
  assert (same s s2) as Hs by by etrans. destruct (same_eq _ _ Hs) as (Hd & _).
  destruct (chunkContent_total content) as [cs Hcs]. rewrite Hcs.
  change (runs (hashes ← forM cs [] (fun hashes chunk =>
        h ← storeChunk chunk (dictionaryFamilyForObject mediaType roles); mret (hashes ++ [h]));
      metaPut (objectRecipeKey digest) (VRecipe (MkRecipe (clock s2) digest hashes (blen content)))) s2 store_ok extends
    (fun _ s' => stored_object s (dbGet (db s)) s' (dbGet (db s')) digest content)).
  rbind; [by apply storeChunks_spec|]. intros hs s3 HI3 HR3 (-> & Hf & Ha).
  eapply runs_post; [apply metaPut_spec; [done|apply db_ok_recipe; [apply HI3|done]|by left]|].
  intros [] s4 HI4 _ [Hg4 Hk]. eapply (added_object _ _ _ (dbGet (db s3))); [exact Hcs|apply Hs| |exact Hk].
  rewrite <- (app_nil_r cs), <- (app_nil_l cs). eapply added_trans; [eapply added_trans; [|exact Ha]|].
  - rewrite Hd. eapply added_refl; [by apply same_grows|apply HI].
  - eapply added_refl; [exact Hg4|apply HI3].
Qed.

Lemma storeBlobReader_spec s reader mediaType roles : store_ok s -> firstErr (script reader) = None ->
  let content := delivered (script reader) in
  runs (storeBlobReader reader mediaType roles) s store_ok extends
    (fun r s' => r = (blake3 content, sha256 content, blen content) /\
       stored_object s (dbGet (db s)) s' (dbGet (db s')) (blake3 content) content).
Proof using Type*.
  intros HI He content. unfold storeBlobReader, ctxErr.
  rbind; [by apply (runs_io _ _)|]. intros [] s1 HI1 _ Hs1. destruct (same_eq _ _ Hs1) as (Hd & _).
  destruct (chunkContent_total content) as [cs Hcs].
  rbind; [eapply (streamM_spec (MkReader (script reader) [])); [done|exact Hcs|by apply storeChunks_spec]|].
  intros [[n teed] hs] s2 HI2 HR2 (Hn & Hseen & Hhs & Hf & Ha). cbn [fst snd script seen] in *. subst n hs.
  rewrite app_nil_l in Hseen. rewrite Hseen. change (delivered (script reader)) with content. cbv beta iota.
  rbind; [by apply (runs_now _ _)|]. intros t s3 HI3 _ [Hs3 ->]. destruct (same_eq _ _ Hs3) as (Hd3 & _).
  rbind. { apply metaPut_spec; [done| |by left]. apply db_ok_recipe; [apply HI3|]. simpl. by rewrite Hd3. }
  intros [] s4 HI4 _ [Hg4 Hk]. rret; [done|]. split; [done|].
  eapply (added_object _ _ _ (dbGet (db s3))); [exact Hcs| | |exact Hk].
  { pose proof (gr_clock _ _ (proj1 HR2)). pose proof (same_clock _ _ Hs1). pose proof (same_clock _ _ Hs3). lia. }
  rewrite <- (app_nil_r cs), <- (app_nil_l cs). eapply added_trans; [eapply added_trans; [|exact Ha]|].
  - rewrite Hd. eapply added_refl; [by apply same_grows|apply HI].
  - rewrite Hd3. eapply added_refl; [|apply HI2]. etrans; [by apply same_grows|done].
Qed.

End blobs.

(** ** Reading whole objects *)

Section read_objects.
Context {E : Ext}.

(** Among the chunks of an object and the contents the store can answer for
    their hashes, equal hashes mean equal contents. *)
Definition collision_free (s : Store) (cs : list bytes) : Prop :=
  forall c c', c ∈ cs -> blake3 c' = blake3 c -> known s (blake3 c) c' \/ c' ∈ cs -> c' = c.

Lemma readBlobContent_spec s digest e : store_ok s ->
  dbGet (db s) (objectRecipeKey digest) = Some (VRecipe e) ->
  runs (readBlobContent digest) s store_ok reading (fun r s' => exists cs, r = Some (concat cs) /\
    Forall2 (fun h c => known s h c /\ blake3 c = h) (reChunkHashes e) cs).
Proof.
  intros Hs He. unfold readBlobContent, readRecipe.
  rbind; [apply (metaGet_spec _ _ _ _ _); [done|rewrite He; intros v [= <-]; by eexists]|].
  intros r s1 HI1 HR1 [Hs1 ->]. rewrite He. cbn [mbind option_bind asRecipe].
  pose proof (do_recipes _ _ _ (proj2 Hs) digest e He) as Hf.
  rbind.
  { apply (runs_forM _ _ _ _ _ _ (fun done content s' => exists cs, content = concat cs /\
      Forall2 (fun h c => known s h c /\ blake3 c = h) done cs)).
    - done.
    - by exists [].
    - intros done content h s2 Hp HI2 HR2 (cs & -> & Hcs).
      assert (reading s s2) as HR by (etrans; [exact HR1|done]).
      rbind; [apply readChunk_spec; [done|]|].
      { destruct HR as [Heq _ _ _ _]. injection Heq as -> _ _ _. rewrite Forall_forall in Hf.
        apply Hf. by eapply prefix_elem. }
      intros c s3 HI3 _ [Hk Hb]. rret; [done|]. exists (cs ++ [c]). split.
      { rewrite concat_app. simpl. by rewrite app_nil_r. }
      apply Forall2_app; [done|]. constructor; [|constructor]. split; [by apply (rd_known _ _ HR)|done]. }
  intros content s2 HI2 _ (cs & -> & Hcs). rret; [done|]. eauto.
Qed.

Lemma known_unique s cs cs' : collision_free s cs ->
  Forall2 (fun h c => known s h c /\ blake3 c = h) (map blake3 cs) cs' -> cs' = cs.
Proof.
  intros Hc Hf. assert (forall l l', (forall c, c ∈ l -> c ∈ cs) ->
    Forall2 (fun h c => known s h c /\ blake3 c = h) (map blake3 l) l' -> l' = l) as H; [|by apply (H cs)].
  induction l as [|c l IH]; intros l' Hin H; apply Forall2_cons_inv_l in H || apply Forall2_nil_inv_l in H; [done|].
  destruct H as (c' & l1 & [Hk Hb] & Hr & ->). f_equal.
  - apply Hc; [apply Hin; left|done|by left].
  - apply IH; [|done]. intros x Hx. apply Hin. by right.
Qed.

(** After an object was added to a collision-free store, its content is what
    its chunks' names stand for. *)
Lemma new_collision_free s s' content cs : chunkContent content = Some cs -> collision_free s cs -> grows s s' ->
  (forall h c, holds s' (dbGet (db s')) h c -> holds s (dbGet (db s)) h c \/
     exists cs, chunkContent content = Some cs /\ c ∈ cs /\ h = blake3 c) ->
  collision_free s' cs.
Proof.
  intros Hcs Hc Hg Hst c c' Hin Hb [[Hh|Hk]|Hin']; [|..].
  - destruct (Hst _ _ Hh) as [Hh'|(cs' & Hcs' & Hin' & _)].
    + apply Hc; [done|done|]. left. by left.
    + apply Hc; [done|done|]. right. congruence.
  - apply Hc; [done|done|]. left. right. by rewrite <- (gr_cache _ _ Hg).
  - apply Hc; [done|done|by right].
Qed.

Lemma stored_collision_free s s' digest content cs : chunkContent content = Some cs ->
  collision_free s cs -> grows s s' -> stored_object s (dbGet (db s)) s' (dbGet (db s')) digest content ->
  collision_free s' cs.
Proof. intros Hcs Hc Hg Hst. eapply new_collision_free; [done..|]. apply (st_new _ _ _ _ _ _ Hst). Qed.

Lemma readBlobContent_stored s s0 s' digest content : store_ok s' ->
  stored_object s0 (dbGet (db s0)) s (dbGet (db s)) digest content -> same s s' ->
  (forall cs, chunkContent content = Some cs -> collision_free s' cs) ->
  runs (readBlobContent digest) s' store_ok reading (fun r _ => r = Some content).
Proof.
  intros Hs Hst Hsm Hc. destruct (st_recipe _ _ _ _ _ _ Hst) as (t & cs & Hcs & Hr).
  destruct (same_eq _ _ Hsm) as (Hd & _).
  eapply runs_post; [eapply readBlobContent_spec; [done|by rewrite Hd]|].
  intros r s1 _ _ (cs' & -> & Hf). simpl in Hf. rewrite (known_unique s' cs cs'); [|by apply Hc|done].
  destruct (chunks_concat content) as (cs0 & Hcs0 & <-). congruence.
Qed.

(** ** The streaming reader *)

(** The content a reader still has to deliver, given its chunks' contents. *)
Definition crRest (cs : list bytes) (r : chunkRecipeReader) : bytes := crPending r ++ concat (drop (crIndex r) cs).

Lemma crFill_hashed fuel r s x s' acc :
  crVerifyDigest r <> EmptyString -> crVerified r = false -> crHasher r = acc ++ crPending r ->
  crFill fuel r s = (Ok x, s') ->
  match x with
  | inl (EOF, r') => blake3 acc = crVerifyDigest r
  | inl (ReadErr _, _) => True
  | inl (NoErr, _) => False
  | inr r' => crVerifyDigest r' = crVerifyDigest r /\ crVerified r' = false /\ crHasher r' = acc ++ crPending r'
  end.
Proof.
  revert r s. induction fuel as [|f IH]; intros r s Hv Hn Hh.
  - cbn [crFill]. destruct (crPending r) as [|b p] eqn:Hp; [|by intros [= <- <-]; rewrite Hp].
    rewrite app_nil_r in Hh. destruct (crHashes r !! crIndex r); [done|]. rewrite Hn.
    destruct (String.eqb_spec (crVerifyDigest r) ""); [done|]. cbn [negb andb crHasher crVerifyDigest].
    destruct (String.eqb_spec (blake3 (crHasher r)) (crVerifyDigest r)); by intros [= <- <-]; congruence || done.
  - cbn [crFill]. destruct (crPending r) as [|b p] eqn:Hp; [|by intros [= <- <-]; rewrite Hp].
    rewrite app_nil_r in Hh. destruct (crHashes r !! crIndex r) as [h|].
    + unfold mbind, M_bind, try. destruct (readChunk h s) as [[c|err|] s1]; [|by intros [= <- <-]|done].
      destruct (String.eqb_spec (crVerifyDigest r) ""); [done|]. cbn [negb]. intros Hf.
      apply IH in Hf; [exact Hf|done|done|]. cbn [crHasher crPending]. by rewrite Hh.
    + rewrite Hn. destruct (String.eqb_spec (crVerifyDigest r) ""); [done|]. cbn [negb andb crHasher crVerifyDigest].
      destruct (String.eqb_spec (blake3 (crHasher r)) (crVerifyDigest r)); by intros [= <- <-]; congruence || done.
Qed.

Lemma crReadAll_hashed sizes r acc s b e s' :
  crVerifyDigest r <> EmptyString -> crVerified r = false -> crHasher r = acc ++ crPending r ->
  crReadAll sizes r acc s = (Ok (b, e), s') -> e = EOF -> blake3 b = crVerifyDigest r.
Proof.
  revert r acc s. induction sizes as [|n sizes IH]; intros r acc s Hv Hn Hh; cbn [crReadAll].
  { by intros [= <- <- <-]. }
  unfold mbind, M_bind. destruct (crRead n r s) as [[[[b1 e1] r1]|err|] s1] eqn:Hr; [|done|done].
  unfold crRead, mbind, M_bind in Hr.
  destruct (crFill (length (crHashes r) - crIndex r) r s) as [[x|err|] s2] eqn:Hf; [|done|done].
  pose proof (crFill_hashed _ _ _ _ _ acc Hv Hn Hh Hf) as Hx.
  destruct x as [[ex rx]|rx]; injection Hr as <- <- <- <-.
  - rewrite app_nil_r. destruct ex; [done|by intros [= <- <- <-]|by intros [= <- <- <-]].
  - intros Hra He. destruct Hx as (Hv' & Hn' & Hh'). rewrite <- Hv'.
    apply (IH _ _ _) in Hra; [done|simpl; congruence|done| |done]. simpl.
    by rewrite Hh', <- app_assoc, take_drop.
Qed.

(** *** Completeness *)

Section complete.
Context (s0 : Store) (hashes : list string) (cs : list bytes) (vd : string).
Hypothesis Hcs : Forall2 (fun h c => is_Some (dbGet (db s0) (chunkIndexKey h)) /\
  forall c', known s0 h c' -> c' = c) hashes cs.
Hypothesis Hvd : vd = EmptyString \/ blake3 (concat cs) = vd.

(** A reader over the recipe that has delivered [acc]. *)
Record cr_ok (acc : bytes) (r : chunkRecipeReader) : Prop := {
  co_hashes : crHashes r = hashes;
  co_digest : crVerifyDigest r = vd;
  co_index : (crIndex r <= length hashes)%nat;
  co_hasher : vd <> EmptyString -> crHasher r = acc ++ crPending r;
  co_content : acc ++ crRest cs r = concat cs }.

Lemma crFill_ok fuel r s acc :
  store_ok s -> reading s0 s -> faults s = [] -> cr_ok acc r -> (length hashes - crIndex r <= fuel)%nat ->
  exists x s', crFill fuel r s = (Ok x, s') /\ store_ok s' /\ reading s0 s' /\ faults s' = [] /\
    match x with
    | inl (e, r') => e = EOF /\ acc = concat cs
    | inr r' => crPending r' <> [] /\ cr_ok acc r' /\ crRest cs r' = crRest cs r
    end.
Proof using Hcs Hvd.
  revert r s. induction fuel as [|f IH]; intros r s HI HR Hf Hok Hfuel; cbn [crFill];
    pose proof Hok as [H1 H2 H3 H4 H5];
    (destruct (crPending r) as [|b p] eqn:Hp; [|exists (inr r), s; split_and!; try done; by rewrite Hp]);
    rewrite H1, H2; destruct (hashes !! crIndex r) as [h|] eqn:Hh.
  - apply lookup_lt_Some in Hh. lia.
  - apply lookup_ge_None in Hh. assert (acc = concat cs) as Hacc.
    { unfold crRest in H5. rewrite Hp, drop_ge in H5; [by rewrite app_nil_r in H5|].
      by rewrite <- (Forall2_length _ _ _ Hcs). }
    destruct (negb (String.eqb vd "") && negb (crVerified r)) eqn:Hb; [|by eexists _, s].
    apply andb_true_iff in Hb as [Hv _]. apply negb_true_iff, String.eqb_neq in Hv.
    cbn [crHasher crVerifyDigest]. rewrite H4, app_nil_r by done.
    destruct Hvd as [?|Hvd']; [done|]. rewrite Hacc, Hvd', String.eqb_refl. by eexists _, s.
  - destruct (Forall2_lookup_l _ _ _ _ _ Hcs Hh) as (c & Hc & Hin & Hu).
    assert (db s = db s0) as Hd by (destruct HR as [Heq _ _ _ _]; congruence).
    pose proof (readChunk_spec s h HI ltac:(by rewrite Hd)) as Hr. unfold runs in Hr.
    unfold mbind, M_bind, try. destruct (readChunk h s) as [[c'|err|] s1]; [|by destruct Hr as (_ & _ & ?)|done].
    destruct Hr as (HI1 & HR1 & Hk & _). rewrite (Hu c') by (by apply (rd_known _ _ HR)).
    destruct (IH (MkCRR (if negb (String.eqb vd "") then crHasher r ++ c else crHasher r) c hashes vd
      (S (crIndex r)) (crVerified r)) s1) as (x & s2 & Hx & HI2 & HR2 & Hf2 & Hm).
    + done.
    + by etrans.
    + by eapply srel_faults.
    + apply lookup_lt_Some in Hh. split; cbn [crHashes crVerifyDigest crIndex crHasher crPending]; try done.
      * intros Hv. rewrite (proj2 (String.eqb_neq vd "") Hv). cbn [negb]. rewrite H4 by done.
        by rewrite app_nil_r.
      * unfold crRest in *. cbn [crPending crIndex]. rewrite <- H5, Hp, (drop_S _ _ _ Hc). done.
    + cbn [crIndex]. lia.
    + exists x, s2. split; [exact Hx|]. split_and!; try done. destruct x as [[e r']|r']; [done|].
      destruct Hm as (? & ? & Hrest). split_and!; try done. rewrite Hrest. unfold crRest. cbn [crPending crIndex].
      by rewrite Hp, (drop_S _ _ _ Hc).
  - apply lookup_ge_None in Hh. assert (acc = concat cs) as Hacc.
    { unfold crRest in H5. rewrite Hp, drop_ge in H5; [by rewrite app_nil_r in H5|].
      by rewrite <- (Forall2_length _ _ _ Hcs). }
    destruct (negb (String.eqb vd "") && negb (crVerified r)) eqn:Hb; [|by eexists _, s].
    apply andb_true_iff in Hb as [Hv _]. apply negb_true_iff, String.eqb_neq in Hv.
    cbn [crHasher crVerifyDigest]. rewrite H4, app_nil_r by done.
    destruct Hvd as [?|Hvd']; [done|]. rewrite Hacc, Hvd', String.eqb_refl. by eexists _, s.
Qed.

Lemma crReadAll_ok sizes r acc s :
  store_ok s -> reading s0 s -> faults s = [] -> cr_ok acc r ->
  Forall (fun n => (0 < n)%nat) sizes -> (length (crRest cs r) < length sizes)%nat ->
  exists s', crReadAll sizes r acc s = (Ok (concat cs, EOF), s').
Proof using Hcs Hvd.
  revert r acc s. induction sizes as [|n sizes IH]; intros r acc s HI HR Hf Hok Hpos Hlen; [simpl in Hlen; lia|].
  apply Forall_cons in Hpos as [Hn Hpos].
  destruct (crFill_ok (length (crHashes r) - crIndex r) r s acc) as (x & s1 & Hx & HI1 & HR1 & Hf1 & Hm);
    [done..|by rewrite (co_hashes _ _ Hok)|].
  cbn [crReadAll]. unfold crRead, mbind, M_bind. rewrite Hx. destruct x as [[e r1]|r1].
  - destruct Hm as [-> ->]. exists s1. simpl. by rewrite app_nil_r.
  - destruct Hm as (Hne & [H1 H2 H3 H4 H5] & Hrest). simpl.
    apply IH; [done|done|done| |done|].
    + split; simpl; try done.
      * intros Hv. rewrite H4, <- app_assoc, take_drop by done. done.
      * rewrite <- H5. unfold crRest. cbn [crPending crIndex]. rewrite <- app_assoc. f_equal.
        rewrite app_assoc, take_drop. done.
    + rewrite <- Hrest in Hlen. unfold crRest in *. cbn [crPending crIndex] in *.
      rewrite length_app in *. rewrite length_drop. simpl in Hlen.
      destruct (crPending r1) as [|b p]; [done|]. simpl in *. lia.
Qed.
End complete.

End read_objects.

(** ** Crashes

    After a crash the synced metadata is there (ingest claims, written without
    a sync, may be lost or stale), every linked pack keeps at least its synced
    bytes, an unlinked pack may be gone, and the in-memory state starts over. *)

Section crashes.
Context {E : Ext}.

Definition forgetDicts (d : DictState) : DictState :=
  ds_bootstrapped false (ds_active false ∅ (ds_encoders ∅ (ds_decoders ∅ d))).

Record crash (s s' : Store) : Prop := {
  ch_db : forall k, HasPrefix k "lk/" = false -> dbGet (db s') k = dbGet (db s) k;
  ch_claims : forall k v, HasPrefix k "lk/" = true -> dbGet (db s') k = Some v -> typed k v = true;
  ch_linked : forall id pk, packs s !! id = Some pk -> pkLinked pk = true -> is_Some (packs s' !! id);
  ch_packs : forall id pk', packs s' !! id = Some pk' -> exists pk, packs s !! id = Some pk /\
    pkData pk' `prefix_of` pkData pk /\ (pkSynced pk <= length (pkData pk'))%nat /\
    pkSynced pk' = length (pkData pk') /\ pkLinked pk' = true;
  ch_dir : packs s' <> ∅ -> packsDir s' = true;
  ch_active : activePack s' = None;
  ch_dicts : dicts s' = forgetDicts (dicts s);
  ch_cache : chunkCache s' = SizedLru.NewSizedLRU (256 * 2 ^ 20) }.

Lemma forgetDicts_ok d : dict_ok d -> dict_ok (forgetDicts d).
Proof. intros []. by split. Qed.

Lemma NewSizedLRU_ok max : cache_ok (SizedLru.NewSizedLRU max).
Proof.
  split; [eexists; apply SizedLru.repr_new|]. intros h v. unfold SizedLru.peek, SizedLru.NewSizedLRU.
  simpl. by rewrite lookup_empty.
Qed.

(** A durable entry keeps its content through a crash. *)
Lemma entry_crash s s' e c : crash s s' -> durable s e -> entry_at s e c -> entry_at s' e c /\ durable s' e.
Proof.
  intros Hc (pk & Hp & Hsy & Hl) (pk0 & d & Hp0 & H1 & H2 & _ & H4 & H5 & H6 & H7).
  assert (pk0 = pk) as -> by congruence.
  destruct (ch_linked _ _ Hc _ _ Hp Hl) as [pk' Hp'].
  destruct (ch_packs _ _ Hc _ _ Hp') as (pk1 & Hpk1 & Hpre & Hle & Hs' & Hl').
  assert (pk1 = pk) as -> by congruence.
  assert (ceOffset e + ceLength e <= blen (pkData pk')) as Hb by (unfold blen; lia).
  split; [|exists pk'; split; [done|]; split; [unfold blen in Hb; lia|done]].
  exists pk', d. rewrite (ch_dicts _ _ Hc). split_and!; try done. by rewrite <- (prefix_slice _ _ _ _ Hpre).
Qed.

Lemma crash_store_ok s s' : store_ok s -> crash s s' -> store_ok s'.
Proof.
  intros [Hp Hd] Hc. split.
  - split.
    + intros id pk' (pk & _ & _ & _ & -> & _)%(ch_packs _ _ Hc). done.
    + apply (ch_dir _ _ Hc).
    + intros id size Ha. by rewrite (ch_active _ _ Hc) in Ha.
    + rewrite (ch_cache _ _ Hc). apply NewSizedLRU_ok.
    + rewrite (ch_dicts _ _ Hc). apply forgetDicts_ok, Hp.
  - assert (forall h, dbGet (db s') (chunkIndexKey h) = dbGet (db s) (chunkIndexKey h)) as Hck
      by (intros; by apply (ch_db _ _ Hc)).
    split.
    + intros k v Hv. destruct (HasPrefix k "lk/") eqn:Hk; [by eapply ch_claims|].
      rewrite (ch_db _ _ Hc) in Hv by done. by eapply do_typed.
    + intros h e He. rewrite Hck in He. destruct (do_chunks _ _ _ Hd h e He) as (? & [c Hat] & Hdu).
      destruct Hdu as [Hdu|[]%not_elem_of_empty]. destruct (entry_crash _ _ _ _ Hc Hdu Hat).
      split; [done|]. split; [by exists c|by left].
    + intros d e He. rewrite (ch_db _ _ Hc) in He by done.
      eapply Forall_impl; [by eapply (do_recipes _ _ _ Hd)|]. intros h. simpl. by rewrite Hck.
Qed.

Lemma crash_holds s s' h c : store_ok s -> crash s s' -> holds s (dbGet (db s)) h c -> holds s' (dbGet (db s')) h c.
Proof.
  intros [_ Hd] Hc (e & He & Hat). exists e. split; [by rewrite (ch_db _ _ Hc)|].
  destruct (do_chunks _ _ _ Hd h e He) as (_ & _ & [Hdu|[]%not_elem_of_empty]).
  by apply (entry_crash s).
Qed.

(** A crash makes no chunk known that was not. *)
Lemma crash_collision_free s s' cs : store_ok s -> crash s s' -> collision_free s cs -> collision_free s' cs.
Proof.
  intros HI Hc Hcf c c' Hin Hb [[Hh|Hk]|Hin']; [| |by apply Hcf; auto].
  - apply Hcf; [done|done|]. left. left. destruct (db_ok_holds s (dbGet (db s)) ∅ (blake3 c) (proj2 HI)) as (c0 & H0 & _).
    { rewrite <- (ch_db _ _ Hc) by done. destruct Hh as (e & He & _). by eexists. }
    by rewrite (holds_fun _ _ _ _ _ Hh (crash_holds _ _ _ _ HI Hc H0)).
  - rewrite (ch_cache _ _ Hc) in Hk. unfold SizedLru.peek, SizedLru.NewSizedLRU in Hk. cbn in Hk. by rewrite lookup_empty in Hk.
Qed.

End crashes.

(** Reading an opened object to the end. *)
Lemma opened_complete {E : Ext} (s s1 : Store) (digest vd : ObjectDigest) (e : objectRecipeEntry)
    (r : chunkRecipeReader) (cs : list bytes) (sizes : list nat) :
  store_ok s -> faults s = [] ->
  dbGet (db s) (objectRecipeKey digest) = Some (VRecipe e) -> reChunkHashes e = map blake3 cs ->
  collision_free s cs -> vd = EmptyString \/ blake3 (concat cs) = vd ->
  openBlobReader digest vd s = (Ok (Some r), s1) ->
  Forall (fun n => (0 < n)%nat) sizes -> (length (concat cs) < length sizes)%nat ->
  exists s2, crReadAll sizes r [] s1 = (Ok (concat cs, EOF), s2).
Proof.
  intros Hs Hf He Hh Hc Hvd Ho Hpos Hlen.
  assert (Forall2 (fun h c => is_Some (dbGet (db s) (chunkIndexKey h)) /\ forall c', known s h c' -> c' = c)
    (map blake3 cs) cs) as Hcs.
  { pose proof (do_recipes _ _ _ (proj2 Hs) digest e He) as Hi. rewrite Hh, Forall_map in Hi.
    rewrite Forall2_fmap_l. apply Forall_Forall2_diag, Forall_forall. intros c Hin.
    rewrite Forall_forall in Hi. split; [by apply Hi|]. intros c' Hk. apply Hc; [done| |by left].
    destruct Hk as [(e' & He' & Hat)|Hk]; [|by apply (po_cache _ (proj1 Hs))].
    destruct (do_chunks _ _ _ (proj2 Hs) _ _ He') as (Hhash & _).
    destruct Hat as (? & ? & _ & _ & _ & _ & _ & _ & _ & ?). congruence. }
  unfold openBlobReader, mbind, M_bind in Ho.
  pose proof (metaGet_spec asRecipe (objectRecipeKey digest) s store_ok reading Hs
    ltac:(rewrite He; intros v [= <-]; by eexists)) as Hg.
  unfold readRecipe in Ho. unfold runs in Hg.
  destruct (metaGet asRecipe (objectRecipeKey digest) s) as [[o|err|] s']; [|done|done].
  destruct Hg as (Hs1 & HR & Hsame & ->). rewrite He in Ho. simpl in Ho. injection Ho as <- <-.
  apply (crReadAll_ok s (map blake3 cs) cs vd Hcs Hvd); [done|done|by eapply same_faults| |done|].
  - split; simpl; try done. lia.
  - unfold crRest. simpl. done.
Qed.

(** ** Main properties *)

(** C30: writing then reading an object gives it back.  From any consistent
    store, storing a readable stream without I/O faults returns the content's
    BLAKE3, SHA-256 and length, and [readBlobContent] of that digest then
    returns exactly the content; only BLAKE3 collisions with chunks the store
    already answers for are excluded. *)
Theorem storeBlobReader_roundtrip {E : Ext} `{!ExtLaws E} (s : Store) (reader : Reader) (mediaType : string)
    (roles : list string) :
  let content := delivered (script reader) in
  store_ok s -> faults s = [] -> firstErr (script reader) = None ->
  (forall cs, chunkContent content = Some cs -> collision_free s cs) ->
  exists s1 s2, storeBlobReader reader mediaType roles s = (Ok (blake3 content, sha256 content, blen content), s1) /\
    readBlobContent (blake3 content) s1 = (Ok (Some content), s2) /\ store_ok s2.
Proof.
  intros content Hs Hf He Hc. pose proof (storeBlobReader_spec s reader mediaType roles Hs He) as H.
  unfold runs in H. destruct (storeBlobReader reader mediaType roles s) as [[r|e|] s1]; [|by destruct H as (_ & _ & ?)|done].
  destruct H as (Hs1 & [Hg Hk] & -> & Hst). fold content in Hst.
  assert (faults s1 = []) as Hf1 by by apply (gr_faults _ _ Hg).
  pose proof (readBlobContent_stored s1 s s1 (blake3 content) content Hs1 Hst ltac:(reflexivity)) as H.
  unfold runs in H. destruct (readBlobContent (blake3 content) s1) as [[r|e|] s2] eqn:Hr.
  - exists s1, s2. destruct H as (? & _ & ->); [|done]. intros cs Hcs. eapply stored_collision_free; eauto.
  - destruct H as (_ & _ & ?); [|done]. intros cs Hcs. eapply stored_collision_free; eauto.
  - destruct H. intros cs Hcs. eapply stored_collision_free; eauto.
Qed.

(** C31: the streaming reader never passes corrupted content off as complete.
    Whatever the store, the packs and the I/O faults are, if a reader opened
    with a digest to verify reports end of file, the bytes it delivered, over any
    sequence of buffer sizes, hash to that digest. *)
Theorem reader_integrity {E : Ext} (s s1 s2 : Store) (digest : ObjectDigest) (r : chunkRecipeReader)
    (sizes : list nat) (b : bytes) :
  digest <> EmptyString ->
  openBlobReader digest digest s = (Ok (Some r), s1) ->
  crReadAll sizes r [] s1 = (Ok (b, EOF), s2) ->
  blake3 b = digest.
Proof.
  intros Hd Ho Hr. unfold openBlobReader, mbind, M_bind in Ho.
  destruct (readRecipe digest s) as [[[e|]|err|] s']; [injection Ho as <- <-|done..].
  exact (crReadAll_hashed sizes (MkCRR [] [] (reChunkHashes e) digest 0 false) [] s' b EOF s2
    Hd eq_refl eq_refl Hr eq_refl).
Qed.

(** And it delivers everything: for an object of a consistent store whose
    chunks' names are unambiguous and whose digest is its content's hash (or
    that has no digest to verify), reading to the end with any sequence of
    non-empty buffers gives the content followed by end of file. *)
Theorem reader_complete {E : Ext} (s s1 : Store) (digest vd : ObjectDigest) (e : objectRecipeEntry)
    (r : chunkRecipeReader) (cs : list bytes) (sizes : list nat) :
  store_ok s -> faults s = [] ->
  dbGet (db s) (objectRecipeKey digest) = Some (VRecipe e) -> reChunkHashes e = map blake3 cs ->
  collision_free s cs -> vd = EmptyString \/ blake3 (concat cs) = vd ->
  openBlobReader digest vd s = (Ok (Some r), s1) ->
  Forall (fun n => (0 < n)%nat) sizes -> (length (concat cs) < length sizes)%nat ->
  exists s2, crReadAll sizes r [] s1 = (Ok (concat cs, EOF), s2).
Proof. apply opened_complete. Qed.

(** ** Examples on the concrete instance *)

(** The worst crash: every unsynced byte is lost. *)
Definition restart {E : Ext} (s : Store) : Store :=
  MkStore (db s) ((fun pk => MkPack (take (pkSynced pk) (pkData pk)) (pkSynced pk) true) <$> packs s)
    (packsDir s) None (forgetDicts (dicts s)) (SizedLru.NewSizedLRU (256 * 2 ^ 20)) (legacy s) (clock s) [] [].

Lemma restart_crash {E : Ext} s : store_ok s -> crash s (restart s).
Proof.
  intros [Hp Hd]. split; simpl; try done.
  - intros k v _ Hv. by eapply do_typed.
  - intros id pk Hpk _. by rewrite lookup_fmap, Hpk.
  - intros id pk'. rewrite lookup_fmap. destruct (packs s !! id) as [pk|] eqn:Hpk; [|done]. simpl.
    intros [= <-]. exists pk. pose proof (po_packs _ Hp _ _ Hpk). simpl. rewrite length_take.
    split_and!; [done|apply prefix_take|lia|lia|done].
  - intros Hne. apply (po_dir _ Hp). intros He. apply Hne. by rewrite He, fmap_empty.
Qed.

Lemma emptyStore_ok : store_ok emptyStore.
Proof. split; split; simpl; try done; [apply NewSizedLRU_ok|apply emptyDicts_ok]. Qed.

Lemma emptyStore_known h c : ~ known emptyStore h c.
Proof. by intros [(e & He & _)|Hk]. Qed.

Definition helloReader : Reader :=
  MkReader [(take 4 helloBytes, NoErr); ([], NoErr); (drop 4 helloBytes, EOF)] [].
Definition helloStored : Store := (storeBlobReader helloReader "text/plain" [] emptyStore).2.

Lemma hello_chunks cs : chunkContent helloBytes = Some cs -> cs = [helloBytes].
Proof. intros H. vm_compute in H. by injection H as <-. Qed.

Lemma hello_collision_free cs : chunkContent helloBytes = Some cs -> collision_free emptyStore cs.
Proof.
  intros ->%hello_chunks c c' ->%list_elem_of_singleton _ [Hk|Hin]; [by apply emptyStore_known in Hk|].
  by apply list_elem_of_singleton in Hin.
Qed.

Lemma storeBlobReader_roundtrip_witness :
  exists s1 s2, storeBlobReader helloReader "text/plain" [] emptyStore =
      (Ok (blake3 helloBytes, sha256 helloBytes, 11), s1) /\
    readBlobContent (blake3 helloBytes) s1 = (Ok (Some helloBytes), s2) /\ store_ok s2.
Proof.
  apply (storeBlobReader_roundtrip emptyStore helloReader "text/plain" []).
  - exact emptyStore_ok.
  - reflexivity.
  - reflexivity.
  - exact hello_collision_free.
Defined.

Lemma helloStored_ok : store_ok helloStored.
Proof.
  pose proof (storeBlobReader_spec emptyStore helloReader "text/plain" [] emptyStore_ok eq_refl) as H.
  unfold runs in H. unfold helloStored. destruct (storeBlobReader _ _ _ _) as [[r|e|] s]; [by destruct H..|done].
Qed.

Definition helloCRR : chunkRecipeReader := MkCRR [] [] [blake3 helloBytes] (blake3 helloBytes) 0 false.

Lemma helloOpen : openBlobReader (blake3 helloBytes) (blake3 helloBytes) helloStored =
  (Ok (Some helloCRR), (openBlobReader (blake3 helloBytes) (blake3 helloBytes) helloStored).2).
Proof.
  assert ((openBlobReader (blake3 helloBytes) (blake3 helloBytes) helloStored).1 = Ok (Some helloCRR)) as H
    by (vm_compute; reflexivity).
  exact (run_eq _ _ _ H).
Qed.

Definition helloOpened : Store := (openBlobReader (blake3 helloBytes) (blake3 helloBytes) helloStored).2.

Lemma helloRead : crReadAll [7; 7; 7]%nat helloCRR [] helloOpened =
  (Ok (helloBytes, EOF), (crReadAll [7; 7; 7]%nat helloCRR [] helloOpened).2).
Proof.
  assert ((crReadAll [7; 7; 7]%nat helloCRR [] helloOpened).1 = Ok (helloBytes, EOF)) as H
    by (vm_compute; reflexivity).
  exact (run_eq _ _ _ H).
Qed.

Lemma reader_integrity_witness : blake3 helloBytes <> EmptyString /\ blake3 helloBytes = blake3 helloBytes.
Proof.
  assert (blake3 helloBytes <> EmptyString) as Hne by by vm_compute.
  split; [exact Hne|].
  exact (reader_integrity helloStored helloOpened _ (blake3 helloBytes) helloCRR [7; 7; 7]%nat helloBytes
    Hne helloOpen helloRead).
Defined.

Lemma hello_stored_object : grows emptyStore helloStored /\
  stored_object emptyStore (dbGet (db emptyStore)) helloStored (dbGet (db helloStored)) (blake3 helloBytes) helloBytes.
Proof.
  pose proof (storeBlobReader_spec emptyStore helloReader "text/plain" [] emptyStore_ok eq_refl) as H.
  unfold runs in H. unfold helloStored.
  destruct (storeBlobReader _ _ _ _) as [[r|e|] s]; [|by destruct H as (_ & _ & ?)|done].
  destruct H as (_ & [Hg _] & _ & Hst). by split.
Qed.

Lemma helloStored_collision_free : collision_free helloStored [helloBytes].
Proof.
  destruct hello_stored_object as [Hg Hst].
  apply (stored_collision_free emptyStore helloStored (blake3 helloBytes) helloBytes); [|apply hello_collision_free|done|done];
    vm_compute; reflexivity.
Qed.

Lemma reader_complete_witness :
  exists s2, crReadAll (replicate 12 1%nat) helloCRR [] helloOpened = (Ok (concat [helloBytes], EOF), s2).
Proof.
  destruct hello_stored_object as [_ Hst]. destruct (st_recipe _ _ _ _ _ _ Hst) as (t & cs & Hcs%hello_chunks & Hr).
  subst cs.
  apply (reader_complete helloStored helloOpened (blake3 helloBytes) (blake3 helloBytes)
    (MkRecipe t (blake3 helloBytes) (map blake3 [helloBytes]) (blen helloBytes)) helloCRR [helloBytes]
    (replicate 12 1%nat)).
  - exact helloStored_ok.
  - vm_compute. reflexivity.
  - exact Hr.
  - reflexivity.
  - exact helloStored_collision_free.
  - right. reflexivity.
  - exact helloOpen.
  - apply Forall_replicate. lia.
  - rewrite length_replicate. simpl. lia.
Defined.

(** ** Deduplication *)

Section dedup.
Context {E : Ext}.

(** A read-only step that does not touch the packs either. *)
Lemma storeChunk_hit s chunk family : store_ok s -> faults s = [] ->
  is_Some (dbGet (db s) (chunkIndexKey (blake3 chunk))) ->
  exists s', storeChunk chunk family s = (Ok (blake3 chunk), s') /\ same s s' /\ store_ok s'.
Proof.
  intros Hs Hf [v Hv]. assert (runs (storeChunk chunk family) s store_ok same (fun r s' => r = blake3 chunk)) as H.
  { unfold storeChunk, ctxErr. rbind; [by apply (runs_io _ _)|]. intros [] s1 HI1 _ Hs1.
    destruct (same_eq _ _ Hs1) as (Hd & _).
    rbind; [apply (metaGet_spec _ _ _ _ _); [done|intros v'; by apply store_chunk_typed]|].
    intros o s2 HI2 _ [_ ->]. rewrite Hd, Hv. cbn [mbind option_bind].
    destruct (store_chunk_typed s _ _ Hs Hv) as [e ->]. by rret. }
  unfold runs in H. destruct (storeChunk chunk family s) as [[r|e|] s']; [|by destruct H as (_ & _ & ?)|done].
  destruct H as (? & ? & ->). eauto.
Qed.

Lemma storeChunks_hit s cs family acc : store_ok s -> faults s = [] ->
  Forall (fun c => is_Some (dbGet (db s) (chunkIndexKey (blake3 c)))) cs ->
  exists s', forM cs acc (fun hashes chunk => h ← storeChunk chunk family; mret (hashes ++ [h])) s =
      (Ok (acc ++ map blake3 cs), s') /\ same s s' /\ store_ok s'.
Proof.
  revert s acc. induction cs as [|c cs IH]; intros s acc Hs Hf Hin; cbn [forM map].
  - exists s. rewrite app_nil_r. by split; [|split; [reflexivity|]].
  - apply Forall_cons in Hin as [Hc Hcs]. destruct (storeChunk_hit s c family Hs Hf Hc) as (s1 & H1 & Hs1 & HI1).
    destruct (same_eq _ _ Hs1) as (Hd & _).
    destruct (IH s1 (acc ++ [blake3 c])) as (s2 & H2 & Hs2 & HI2); [done|by eapply same_faults|by rewrite Hd|].
    exists s2. rewrite <- app_assoc in H2. split; [|split; [by etrans|done]].
    erewrite bind_ok; [exact H2|]. erewrite bind_ok; [|exact H1]. done.
Qed.

End dedup.

(** Identical content is stored once: when every chunk of an object is
    already indexed, storing the object again succeeds, writes no pack byte and
    no chunk entry, and only (re)writes its recipe. *)
Theorem storeBlobContent_dedup {E : Ext} `{!ExtLaws E} (s : Store) (digest : ObjectDigest) (content : bytes)
    (mediaType : string) (roles : list string) (cs : list bytes) :
  store_ok s -> faults s = [] -> chunkContent content = Some cs ->
  Forall (fun c => is_Some (dbGet (db s) (chunkIndexKey (blake3 c)))) cs ->
  exists s', storeBlobContent digest content mediaType roles s = (Ok tt, s') /\ packs s' = packs s /\
    (forall k, k <> objectRecipeKey digest -> dbGet (db s') k = dbGet (db s) k) /\
    exists t, dbGet (db s') (objectRecipeKey digest) =
      Some (VRecipe (MkRecipe t digest (map blake3 cs) (blen content))).
Proof.
  intros Hs Hf Hcs Hin. pose proof (storeBlobContent_spec s digest content mediaType roles Hs) as Hsp.
  assert (exists t s1, storeBlobContent digest content mediaType roles s =
    metaPut (objectRecipeKey digest) (VRecipe (MkRecipe t digest (map blake3 cs) (blen content))) s1 /\ same s s1)
    as (t & s1 & Heq & Hsm).
  { unfold storeBlobContent, ctxErr. erewrite bind_ok; [|unfold io; rewrite Hf; reflexivity].
    assert (runs now s store_ok same (fun t s' => same s s')) as Hn.
    { eapply runs_post; [by apply (runs_now _ _)|]. naive_solver. }
    unfold runs in Hn. destruct (now s) as [[t|e|] s2] eqn:Hnow; [|by destruct Hn as (_ & _ & ?)|done].
    destruct Hn as (HI2 & _ & Hs2). erewrite bind_ok; [|exact Hnow]. rewrite Hcs.
    erewrite bind_ok; [|reflexivity]. destruct (same_eq _ _ Hs2) as (Hd & _).
    destruct (storeChunks_hit s2 cs (dictionaryFamilyForObject mediaType roles) []) as (s3 & H3 & Hs3 & HI3);
      [done|by eapply same_faults|by rewrite Hd|].
    exists t, s3. split; [by erewrite bind_ok; [|exact H3]|by etrans]. }
  assert (faults s1 = []) as Hf1 by by eapply same_faults.
  unfold metaPut, metaApply in Heq. erewrite bind_ok in Heq; [|unfold io; rewrite Hf1; reflexivity].
  unfold modify in Heq. rewrite Heq. eexists. split; [done|].
  destruct (same_eq _ _ Hsm) as (Hd & Hp & _). split; [done|]. split.
  - intros k Hk. simpl. rewrite dbGet_apply, Hd. simpl. by rewrite bool_decide_false.
  - exists t. simpl. rewrite dbGet_apply. simpl. by rewrite bool_decide_true.
Qed.

Lemma storeBlobContent_dedup_witness :
  exists s', storeBlobContent (blake3 helloBytes) helloBytes "text/plain" [] helloStored = (Ok tt, s') /\
    packs s' = packs helloStored.
Proof.
  destruct (storeBlobContent_dedup helloStored (blake3 helloBytes) helloBytes "text/plain" [] [helloBytes])
    as (s' & H & Hp & _).
  - exact helloStored_ok.
  - vm_compute. reflexivity.
  - vm_compute. reflexivity.
  - apply Forall_singleton. eexists. vm_compute. reflexivity.
  - exists s'. by split.
Defined.
