(* ===== verification/SourceIngest.v ===== *)
(** * Source ingest: [filestore/source_ingest.go], [filestore/packed_store.go],
    [filestore/maintenance.go]

    The source and alias indexes, ingest claims with their time to live, the
    compound-parent index, and the sweep of expired claims.  [lockKey] makes each
    read-modify-write below atomic, so an operation is one step on the store. *)

From stdpp Require Import options.
From S2P Require Import Prelude GoLib GoText Contracts Lru Chunker Manifest Meta Concrete DictionaryFamily Dictionary ChunkStore.

Open Scope Z_scope.

(** The separator of [strings.Join(..., "\x00")]. *)
Definition nul : string := String (byteN 0) "".

Definition sourceIngestClaimTTL : Z := 15 * 60 * 10 ^ 9.

Section source_ingest.
Context {E : Ext}.

Definition hashStrings (l : list string) : string :=
  sha256 (String.list_byte_of_string (String.concat nul l)).

Definition sourceObjectRefKey (ref : SourceObjectRef) : string :=
  hashStrings [rSourceKind ref; rSourceName ref; rExternalID ref; rExternalVersion ref].

Definition sourceAliasKey (ref : SourceObjectRef) : string :=
  hashStrings [rSourceKind ref; rSourceName ref; rExternalID ref].

Definition sourceLockKey (ref : SourceObjectRef) : string := "lk/" +:+ sourceObjectRefKey ref.

Definition sourceObjectLockID (ref : SourceObjectRef) (acquiredAt : Time) : string :=
  hashStrings [sourceObjectRefKey ref; formatTime acquiredAt].

Definition sourceClaimLive (claim : SourceIngestClaim) (now : Time) : bool :=
  if isZero (clAcquiredAt claim) then true else Sub now (clAcquiredAt claim) <=? sourceIngestClaimTTL.

(** ** Manifests *)

Definition ReadManifest (digest : ObjectDigest) : M Manifest :=
  _ ← ctxErr;
  _ ← check (validateObjectDigest digest);
  m ← metaGet asManifest (manifestKey digest);
  match m with
  | Some m => mret m
  | None => fail (ErrWrap "read manifest" ErrNotExist)
  end.

(** ** Index records *)

Definition readPackedSourceObjectIndex (ref : SourceObjectRef) : M (option sourceObjectIndexEntry) :=
  _ ← ctxErr; metaGet asSource ("si/" +:+ sourceObjectRefKey ref).

Definition writePackedSourceObjectIndexTo (sink : metaSink) (entry : sourceObjectIndexEntry) : M metaSink :=
  _ ← ctxErr; sinkSet sink ("si/" +:+ sourceObjectRefKey (siSourceObject entry)) (VSource entry).

Definition readPackedSourceAlias (ref : SourceObjectRef) : M (option ObjectDigest) :=
  _ ← ctxErr;
  e ← metaGet asAlias ("sa/" +:+ sourceAliasKey ref);
  mret (saDigest <$> e).

Definition writePackedSourceAliasTo (sink : metaSink) (ref : SourceObjectRef) (digest : ObjectDigest) : M metaSink :=
  _ ← ctxErr;
  t ← now;
  sinkSet sink ("sa/" +:+ sourceAliasKey ref)
    (VAlias (MkAlias (rSourceKind ref) (rSourceName ref) (rExternalID ref) digest t)).

Definition recordSourceObjectIndexesTo (sink : metaSink) (digest : ObjectDigest) (provenance : list Provenance) :
    M metaSink :=
  _ ← ctxErr;
  match provenance with
  | [] => mret sink
  | _ =>
      _ ← check (validateObjectDigest digest);
      updatedAt ← now;
      forM provenance sink (fun sink item =>
        let ref := sourceObjectRefFromProvenance item in
        if String.eqb (rSourceKind ref) "" || String.eqb (rSourceName ref) "" || String.eqb (rExternalID ref) ""
        then mret sink else
        _ ← check (validateSourceObjectRef ref);
        sink ← writePackedSourceObjectIndexTo sink (MkSourceIndex ref digest updatedAt);
        writePackedSourceAliasTo sink ref digest)
  end.

Definition recordSourceObjectIndexes (digest : ObjectDigest) (provenance : list Provenance) : M unit :=
  _ ← recordSourceObjectIndexesTo SyncSink digest provenance; mret tt.

(** ** Lookup *)

Definition aliasMatches (ref : SourceObjectRef) (prov : Provenance) : bool :=
  String.eqb (pSourceKind prov) (rSourceKind ref) && String.eqb (pSourceName prov) (rSourceName ref) &&
  String.eqb (pExternalID prov) (rExternalID ref).

(** The manifest read whose absence means "not found". *)
Definition readManifestOr {A} (digest : ObjectDigest) (absent : A) (k : Manifest -> M A) : M A :=
  r ← try (ReadManifest digest);
  match r with
  | inl e => if isNotExist e then mret absent else fail e
  | inr m => k m
  end.

Definition lookupSourceObjectViaAlias (ref : SourceObjectRef) : M (option ObjectDigest) :=
  found ← readPackedSourceAlias ref;
  match found with
  | None => mret None
  | Some aliasDigest =>
      _ ← check (validateObjectDigest aliasDigest);
      readManifestOr aliasDigest None (fun manifest =>
        mret (if existsb (aliasMatches ref) (mProvenance manifest) then Some aliasDigest else None))
  end.

Definition LookupSourceObject (ref : SourceObjectRef) : M (option ObjectDigest) :=
  _ ← ctxErr;
  _ ← check (validateSourceObjectRef ref);
  found ← readPackedSourceObjectIndex ref;
  entry ← match found with
    | Some entry => mret (Some entry)
    | None =>
        _ ← io;
        lg ← gets legacy;
        match lgIndex lg !! sourceObjectRefKey ref with
        | None => mret None
        | Some None => fail (ErrMsg "decode source index")
        | Some (Some entry) => mret (Some entry)
        end
    end;
  match entry with
  | None => lookupSourceObjectViaAlias ref
  | Some entry =>
      if negb (sourceObjectRefsEqual (siSourceObject entry) ref)
      then fail (ErrMsg "source object index key does not match payload") else
      _ ← check (validateObjectDigest (siObjectDigest entry));
      readManifestOr (siObjectDigest entry) None (fun manifest =>
        mret (if existsb (fun p => sourceRefMatches p ref) (mProvenance manifest)
              then Some (siObjectDigest entry) else None))
  end.

(** ** Ingest claims *)

Definition legacyClaimHeld (ref : SourceObjectRef) (t : Time) : M bool :=
  _ ← io;
  lg ← gets legacy;
  match lgLocks lg !! sourceObjectRefKey ref with
  | None => mret false
  | Some None => fail (ErrMsg "read legacy source lock")
  | Some (Some existing) =>
      if sourceClaimLive existing t then mret true else
      _ ← try (_ ← io; modify (fun s =>
            set_legacy (MkLegacy (delete (sourceObjectRefKey ref) (lgLocks (legacy s))) (lgIndex (legacy s))
              (lgParents (legacy s)) (lgBlobs (legacy s))) s));
      mret false
  end.

Definition TryAcquireSourceIngest (ref : SourceObjectRef) : M (option SourceIngestClaim) :=
  _ ← ctxErr;
  _ ← check (validateSourceObjectRef ref);
  acquiredAt ← now;
  let claim := MkClaim acquiredAt ref (sourceObjectLockID ref acquiredAt) in
  let key := sourceLockKey ref in
  found ← metaGet asClaim key;
  let held := match found with Some existing => sourceClaimLive existing acquiredAt | None => false end in
  if held then mret None else
  legacyHeld ← match found with
    | Some _ => mret false
    | None => legacyClaimHeld ref acquiredAt
    end;
  if legacyHeld : bool then mret None else
  _ ← metaPutNoSync key (VClaim claim);
  mret (Some claim).

Definition ReleaseSourceIngest (claim : SourceIngestClaim) : M unit :=
  _ ← ctxErr;
  _ ← check (validateSourceObjectRef (clSourceObject claim));
  if blank (clClaimID claim) then fail (ErrMsg "source ingest claim_id is required") else
  let key := sourceLockKey (clSourceObject claim) in
  found ← metaGet asClaim key;
  match found with
  | Some existing =>
      if negb (String.eqb (clClaimID existing) (clClaimID claim))
      then fail (ErrMsg "source ingest claim is owned by another writer") else
      metaDeleteNoSync key
  | None =>
      _ ← io;
      lg ← gets legacy;
      match lgLocks lg !! sourceObjectRefKey (clSourceObject claim) with
      | None => mret tt
      | Some None => fail (ErrMsg "decode legacy source lock")
      | Some (Some existing) =>
          if negb (String.eqb (clClaimID existing) (clClaimID claim))
          then fail (ErrMsg "source ingest claim is owned by another writer") else
          _ ← io;
          _ ← modify (fun s =>
            set_legacy (MkLegacy (delete (sourceObjectRefKey (clSourceObject claim)) (lgLocks (legacy s)))
              (lgIndex (legacy s)) (lgParents (legacy s)) (lgBlobs (legacy s))) s);
          ios 2
      end
  end.

(** ** Sweep of expired claims *)

Definition deleteExpiredLockKey (key : string) : M bool :=
  present ← metaHas key;
  if negb present then mret false else
  r ← try (metaGet asClaim key);
  t ← (match r with inr (Some _) => t ← now; mret (Some t) | _ => mret None end);
  let live := match r, t with inr (Some claim), Some t => sourceClaimLive claim t | _, _ => false end in
  if live then mret false else
  _ ← metaDelete key; mret true.

Definition cleanupSourceLockKeys : M Z :=
  t ← now;
  expired ← metaIterPrefix "lk/" [] (fun expired kv =>
    _ ← ctxErr;
    mret (match asClaim kv.2 with
          | None => expired ++ [kv.1]
          | Some claim => if sourceClaimLive claim t then expired else expired ++ [kv.1]
          end));
  forM expired 0 (fun removed key =>
    r ← deleteExpiredLockKey key;
    mret (if r : bool then removed + 1 else removed)).

(** ** Compound parents *)

Definition compoundParentEdgeKey (edge : compoundParentEdge) : string := edParentDigest edge +:+ nul +:+ edRole edge.

Definition edgeLess : compoundParentEdge -> compoundParentEdge -> bool :=
  lexBy edParentDigest str_ltb (keyLess edRole str_ltb).

Definition sortCompoundParentEdges (edges : list compoundParentEdge) : list compoundParentEdge :=
  sortStable edgeLess edges.

Definition readPackedCompoundParentIndex (child : ObjectDigest) : M (option (ObjectDigest * list compoundParentEdge)) :=
  _ ← ctxErr;
  e ← metaGet asParents (compoundParentKey child);
  mret ((fun e => (cpiChildDigest e, cpiParents e)) <$> e).

Definition writePackedCompoundParentIndex (record : ObjectDigest * list compoundParentEdge) : M unit :=
  _ ← ctxErr;
  t ← now;
  metaPut (compoundParentKey record.1) (VParents (MkParents record.1 record.2 t)).

(** [readJSON] of the old index file: absent is [None]. *)
Definition readLegacyParents (child : ObjectDigest) : M (option (ObjectDigest * list compoundParentEdge)) :=
  _ ← io;
  lg ← gets legacy;
  match lgParents lg !! child with
  | None => mret None
  | Some None => fail (ErrMsg "decode compound parent index")
  | Some (Some r) => mret (Some r)
  end.

(** The edges kept from the stored record, overwritten by the new ones. *)
Definition mergeEdges (old new : list compoundParentEdge) : gmap string compoundParentEdge :=
  let kept := foldl (fun m parent => if looksLikeDigest (edParentDigest parent)
    then <[compoundParentEdgeKey parent := parent]> m else m) ∅ old in
  foldl (fun m edge => <[compoundParentEdgeKey edge := edge]> m) kept new.

Definition mergeCompoundParentIndex (child : ObjectDigest) (edges : list compoundParentEdge) : M unit :=
  _ ← ctxErr;
  _ ← check (validateObjectDigest child);
  packed ← readPackedCompoundParentIndex child;
  record ← match packed with
    | Some r => mret r
    | None => r ← readLegacyParents child; mret (default (child, []) r)
    end;
  if negb (String.eqb record.1 "") && negb (String.eqb record.1 child)
  then fail (ErrMsg "compound parent index key does not match payload") else
  _ ← forM edges tt (fun _ edge => check (validateObjectDigest (edParentDigest edge)));
  writePackedCompoundParentIndex
    (child, sortCompoundParentEdges (map_to_list (mergeEdges record.2 edges)).*2).

Definition recordCompoundParentIndexes (parentDigest : ObjectDigest) (parts : list CompoundPart) : M unit :=
  _ ← ctxErr;
  match parts with
  | [] => mret tt
  | _ =>
      _ ← check (validateObjectDigest parentDigest);
      updatedAt ← now;
      byChild ← forM parts (∅ : gmap string (list compoundParentEdge)) (fun byChild part =>
        _ ← check (validateCompoundPart part);
        mret (<[cpDigest part := default [] (byChild !! cpDigest part) ++
                 [MkEdge parentDigest (cpRole part) updatedAt]]> byChild));
      forM (map_to_list byChild) tt (fun _ p => mergeCompoundParentIndex p.1 p.2)
  end.

Definition compoundParentsForChild (child : ObjectDigest) : M (list compoundParentEdge) :=
  _ ← ctxErr;
  _ ← check (validateObjectDigest child);
  packed ← readPackedCompoundParentIndex child;
  record ← match packed with
    | Some r => mret (Some r)
    | None => readLegacyParents child
    end;
  match record with
  | None => mret []
  | Some r =>
      if negb (String.eqb r.1 child) then fail (ErrMsg "compound parent index key does not match payload")
      else mret r.2
  end.

End source_ingest.

(** ** Exclusion of ingest claims *)

(** The operations on claims, each under the lock of its key, in any order, each to
    success or failure.  A sweep of expired claims ([cleanupSourceLockKeys]) scans
    without a lock, which changes nothing, and then deletes key after key, others
    running in between: its part in an interleaving is [OpSweep] of some keys at
    some times. *)
Inductive claimOp := OpAcquire (ref : SourceObjectRef) | OpRelease (c : SourceIngestClaim) | OpSweep (key : string).
Inductive claimOut := OutAcquire (c : option SourceIngestClaim) | OutDone | OutFail (e : GoError).

Section claims.
Context {E : Ext}.

Definition runClaimOp (o : claimOp) : M claimOut :=
  match o with
  | OpAcquire ref => r ← try (TryAcquireSourceIngest ref);
      mret (match r with inl e => OutFail e | inr c => OutAcquire c end)
  | OpRelease c => r ← try (ReleaseSourceIngest c);
      mret (match r with inl e => OutFail e | inr _ => OutDone end)
  | OpSweep key => r ← try (deleteExpiredLockKey key);
      mret (match r with inl e => OutFail e | inr _ => OutDone end)
  end.

Fixpoint runClaimOps (os : list claimOp) : M (list claimOut) :=
  match os with
  | [] => mret []
  | o :: r => x ← runClaimOp o; xs ← runClaimOps r; mret (x :: xs)
  end.

(** The read with which a sweep looks at a claim again, its second I/O step, does
    not fail. *)
Definition recheck_reads (s : Store) : Prop := match faults s with _ :: f :: _ => f = FOk | _ => True end.

(** ... whenever [key] is swept in a run of [os] from [s]. *)
Fixpoint sweeps_read (key : string) (os : list claimOp) (s : Store) : Prop :=
  match os with
  | [] => True
  | o :: r => (o = OpSweep key -> recheck_reads s) /\ sweeps_read key r (runClaimOp o s).2
  end.

Context `{!ExtLaws E} (key : string) (c : SourceIngestClaim).

Definition claimed (s : Store) : Prop := dbGet (db s) key = Some (VClaim c).

(** The claim stays as long as its time to live lasts. *)
Record claim_rel (s s' : Store) : Prop := {
  cl_clock : clock s <= clock s';
  cl_faults : faults s = [] -> faults s' = [];
  cl_keep : clAcquiredAt c <= clock s -> clock s' - clAcquiredAt c <= sourceIngestClaimTTL ->
    claimed s -> claimed s' }.

#[export] Instance claim_rel_rel : StoreRel claim_rel.
Proof.
  split.
  - intros s. by split; [lia|..].
  - intros s1 s2 s3 [H1 H2 H3] [K1 K2 K3]. split; [lia|auto|].
    intros Ha Ht Hc. apply K3; [lia|lia|]. apply H3; [lia|lia|done].
  - by intros s s' [].
Qed.

#[export] Instance claim_rel_env : EnvRel claim_rel.
Proof.
  intros s s' Hs. destruct (same_eq _ _ Hs) as (Hd & _). destruct Hs as [_ ? ?].
  split; [done|done|]. intros _ _. unfold claimed. by rewrite Hd.
Qed.

Abbreviation safe m s P := (stops m s (fun _ => True) claim_rel P) (only parsing).

Lemma live_within t : clAcquiredAt c <= t -> t - clAcquiredAt c <= sourceIngestClaimTTL ->
  sourceClaimLive c t = true.
Proof using Type.
  intros H1 H2. unfold sourceClaimLive. destruct (isZero _); [done|]. apply Z.leb_le. unfold Sub.
  unfold sourceIngestClaimTTL in *. lia.
Qed.

Lemma io_safe s : safe io s (fun _ s' => same s s').
Proof. by apply runs_stops, (runs_io _ _). Qed.

Lemma not_live t : sourceClaimLive c t = false -> sourceIngestClaimTTL < t - clAcquiredAt c.
Proof using Type.
  unfold sourceClaimLive. destruct (isZero _); [done|]. intros Hl%Z.leb_gt. unfold Sub in Hl.
  unfold sourceIngestClaimTTL in *. lia.
Qed.

(** Deleting a key: another key, or the claim has run out. *)
Lemma metaDelete_safe s k :
  (k = key -> claimed s -> sourceIngestClaimTTL < clock s - clAcquiredAt c) ->
  safe (metaApply [WDel k]) s (fun _ s' => claimed s' -> claimed s).
Proof using Type*.
  intros Hk. unfold metaApply. sbind; [apply io_safe|]. intros [] s1 _ _ Hs1.
  destruct (same_eq _ _ Hs1) as (Hd & _). pose proof (same_clock _ _ Hs1).
  unfold stops, modify, claimed in *. simpl. rewrite dbGet_apply, Hd. simpl. split; [done|]. split.
  - split; [simpl; lia|done|]. intros Ha Ht Hc. unfold claimed in *. simpl in *. rewrite dbGet_apply. simpl.
    rewrite Hd in *. case_bool_decide as Hne; [|done]. specialize (Hk Hne Hc). lia.
  - by case_bool_decide.
Qed.

Lemma claim_db_same s s' : db_same s s' -> claim_rel s s'.
Proof using Type. intros [Hd ? ?]. split; [done|done|]. intros _ _. unfold claimed. by rewrite Hd. Qed.

Lemma legacyClaimHeld_safe s ref t : stops (legacyClaimHeld ref t) s (fun _ => True) db_same (fun _ _ => True).
Proof using Type.
  unfold legacyClaimHeld. sbind; [by apply runs_stops, (runs_io _ _)|]. intros [] s1 _ _ _. sgets.
  destruct (lgLocks _ !! _) as [[e|]|]; [|by apply (stops_fail _ _ _ _)|by sret].
  destruct (sourceClaimLive e _); [by sret|].
  sbind.
  { apply stops_try. instantiate (1 := fun _ _ => True). sbind; [by apply runs_stops, (runs_io _ _)|].
    intros [] s2 _ _ _. unfold stops, modify. by split; [|split; [split; simpl; [done|lia|done]|]]. }
  intros r s2 _ _ _. by sret.
Qed.

Lemma acquire_safe s ref : safe (TryAcquireSourceIngest ref) s (fun r s' =>
  forall claim, r = Some claim ->
    (sourceLockKey ref = key -> claimed s -> sourceIngestClaimTTL < clock s' - clAcquiredAt c) /\
    dbGet (db s') (sourceLockKey ref) = Some (VClaim claim) /\ clAcquiredAt claim <= clock s').
Proof using Type*.
  unfold TryAcquireSourceIngest, ctxErr. sbind; [apply io_safe|]. intros [] s1 _ _ Hs1.
  sbind; [by apply (stops_check _ _ _ _)|]. intros [] s2 _ _ [-> _].
  sbind; [by apply runs_stops, (runs_now _ _)|]. intros t s3 _ _ [Hs3 ->].
  assert (same s s3) as Hs03 by by etrans. destruct (same_eq _ _ Hs03) as (Hd3 & _).
  sbind; [by apply (metaGet_stops _ _ _ _ _)|]. intros found s4 _ _ [Hs4 ->]. rewrite Hd3.
  destruct (same_eq _ _ Hs4) as (Hd4 & _). pose proof (same_clock _ _ Hs4).
  set (found := dbGet (db s) (sourceLockKey ref) ≫= asClaim).
  destruct (match found with Some existing => sourceClaimLive existing (clock s3) | None => false end) eqn:Hheld;
    [by sret|].
  assert (sourceLockKey ref = key -> claimed s -> sourceIngestClaimTTL < clock s3 - clAcquiredAt c) as Hout.
  { intros Hkey Hc. apply not_live. unfold found in Hheld. rewrite Hkey, Hc in Hheld. exact Hheld. }
  sbind.
  { eapply stops_rel; [|intros s'; apply claim_db_same].
    instantiate (1 := fun _ _ => True). destruct found; [by sret|apply legacyClaimHeld_safe]. }
  intros [] s5 _ _ [[Hd5 Hc5 _] _]; [by sret|].
  unfold metaPutNoSync, metaApply. set (claim := MkClaim (clock s3) ref (sourceObjectLockID ref (clock s3))).
  sbind; [instantiate (1 := fun _ s' =>
    (sourceLockKey ref = key -> claimed s -> sourceIngestClaimTTL < clock s' - clAcquiredAt c) /\
    dbGet (db s') (sourceLockKey ref) = Some (VClaim claim) /\ clAcquiredAt claim <= clock s')
    |intros [] s6 _ _ Hp; sret; [done|by intros claim' [= <-]]].
  sbind; [apply io_safe|]. intros [] s6 _ _ Hs6.
  destruct (same_eq _ _ Hs6) as (Hd6 & _). pose proof (same_clock _ _ Hs6).
  unfold stops, modify. split; [done|]. split.
  - split; [simpl; lia|done|]. intros Ha Ht Hc. unfold claimed in *. simpl in *. rewrite dbGet_apply. simpl.
    case_bool_decide as Hkey; [|done]. assert (sourceIngestClaimTTL < clock s3 - clAcquiredAt c); [|lia].
    apply Hout; [done|]. unfold claimed. congruence.
  - simpl. rewrite dbGet_apply. simpl. rewrite bool_decide_true by done.
    split_and!; [intros; assert (sourceIngestClaimTTL < clock s3 - clAcquiredAt c) by auto; lia|done|lia].
Qed.

Lemma release_safe s claim :
  ~ (sourceLockKey (clSourceObject claim) = key /\ clClaimID claim = clClaimID c) ->
  safe (ReleaseSourceIngest claim) s (fun _ _ => True).
Proof using Type*.
  intros Hno. unfold ReleaseSourceIngest, ctxErr. sbind; [apply io_safe|]. intros [] s1 _ _ _.
  sbind; [by apply (stops_check _ _ _ _)|]. intros [] s2 _ _ _.
  destruct (blank _); [by apply (stops_fail _ _ _ _)|].
  sbind; [by apply (metaGet_stops _ _ _ _ _)|]. intros found s3 _ _ [Hs3 ->].
  destruct (same_eq _ _ Hs3) as (Hd3 & _).
  destruct (dbGet (db s2) _ ≫= asClaim) as [e|] eqn:He.
  - destruct (String.eqb_spec (clClaimID e) (clClaimID claim)) as [Heq|]; cbn [negb]; [|by apply (stops_fail _ _ _ _)].
    unfold metaDeleteNoSync. eapply stops_mono; [apply metaDelete_safe|done]. intros Hkey Hc. exfalso. apply Hno. split; [done|].
    unfold claimed in Hc. rewrite Hd3 in Hc. rewrite Hkey, Hc in He. simpl in He. congruence.
  - sbind; [apply io_safe|]. intros [] s4 _ _ _. sgets.
    destruct (lgLocks _ !! _) as [[e|]|]; [|by apply (stops_fail _ _ _ _)|by sret].
    destruct (String.eqb_spec (clClaimID e) (clClaimID claim)); cbn [negb]; [|by apply (stops_fail _ _ _ _)].
    sbind; [apply io_safe|]. intros [] s5 _ _ _.
    sbind. { instantiate (1 := fun _ _ => True). unfold stops, modify.
      by split; [|split; [apply claim_db_same; split; simpl; [done|lia|done]|]]. }
    intros [] s6 _ _ _. eapply stops_mono; [by apply runs_stops, (runs_ios _ _)|done].
Qed.

Lemma metaHas_reads s k : safe (metaHas k) s (fun _ s' => same s s' /\ faults s' = tail (faults s)).
Proof using Type.
  unfold stops, metaHas, gets, mbind, M_bind, snapshotHas, mbind, M_bind, io. pose proof (same_io s) as Hs.
  destruct (faults s) as [|[] l] eqn:Hf; cbn [tail] in Hs |- *; [|split_and!; [done|by apply claim_rel_env|done|done]|
    split; [done|by apply claim_rel_env]..].
  split_and!; [done|by apply claim_rel_env|done|done].
Qed.

(** A read that does not fail finds the claim. *)
Lemma recheck_claim s k : stops (try (metaGet asClaim k)) s (fun _ => True) db_same (fun r s' => same s s' /\
  (match faults s with f :: _ => f = FOk | [] => True end -> dbGet (db s) k = Some (VClaim c) -> r = inr (Some c))).
Proof using Type.
  unfold stops, try, metaGet, gets, mbind, M_bind, io. pose proof (same_io s) as Hs.
  destruct (faults s) as [|[] l] eqn:Hf; cbn [tail] in Hs.
  - destruct (dbGet (db s) k) as [v|]; [destruct (asClaim v) eqn:Hv|]; (split; [done|]; split; [done|]; split; [done|]); intros _ Hc; (injection Hc as -> || done); (by injection Hv as <- || done).
  - change (db (set_faults l s)) with (db s). destruct (dbGet (db s) k) as [v|]; [destruct (asClaim v) eqn:Hv|];
      (split; [done|]; split; [by apply db_same_env|]; split; [done|]); intros _ Hc; (injection Hc as -> || done); (by injection Hv as <- || done).
  - split; [done|]. split; [by apply db_same_env|]. by split.
  - split; [done|]. split; [by apply db_same_env|]. by split.
Qed.

(** The second look keeps a claim that is alive. *)
Lemma deleteExpired_safe s k : (k = key -> recheck_reads s) -> safe (deleteExpiredLockKey k) s (fun _ _ => True).
Proof using Type*.
  intros Hrd. unfold deleteExpiredLockKey.
  sbind; [apply metaHas_reads|]. intros present s1 _ _ [Hs1 Hf1]. destruct present; cbn [negb]; [|by sret].
  destruct (same_eq _ _ Hs1) as (Hd1 & _).
  sbind. { eapply stops_rel; [|intros s'; apply claim_db_same]. apply recheck_claim. }
  intros r s2 _ _ [_ [Hs2 Hr]]. destruct (same_eq _ _ Hs2) as (Hd2 & _).
  sbind.
  { eapply stops_rel; [|intros s'; apply claim_db_same].
    instantiate (1 := fun t s' => db_same s2 s' /\ match r, t with
      | inr (Some _), Some t => t = clock s' | inr (Some _), None => False | _, _ => True end).
    destruct r as [|[|]]; [by sret| |by sret].
    sbind; [by apply runs_stops, (runs_now _ _)|]. intros t s3 _ _ [Hs3 Ht]. sret; [done|]. split; [by apply db_same_env|done]. }
  intros t s3 _ _ [_ [Hs3 Ht]]. destruct Hs3 as [Hd3 _ _].
  destruct (match r with inr (Some claim) => _ | _ => _ end) eqn:Hl; [by sret|].
  sbind; [apply metaDelete_safe|by intros [] s4 _ _ _; sret]. intros Hk Hc. subst k. unfold claimed in Hc. rewrite Hd3, Hd2 in Hc.
  assert (match faults s1 with f :: _ => f = FOk | [] => True end) as Hok.
  { specialize (Hrd eq_refl). unfold recheck_reads in Hrd. rewrite Hf1. by destruct (faults s) as [|? []]. }
  rewrite (Hr Hok Hc) in Hl, Ht. destruct t as [t|]; [|done]. subst t. by apply not_live.
Qed.

Lemma runClaimOp_safe s o :
  (forall claim, o = OpRelease claim ->
    ~ (sourceLockKey (clSourceObject claim) = key /\ clClaimID claim = clClaimID c)) ->
  (o = OpSweep key -> recheck_reads s) ->
  safe (runClaimOp o) s (fun r s' => forall ref claim, o = OpAcquire ref -> r = OutAcquire (Some claim) ->
    sourceLockKey ref = key -> claimed s -> sourceIngestClaimTTL < clock s' - clAcquiredAt c).
Proof using Type*.
  intros Ho Hrd. destruct o as [ref|claim|k]; cbn [runClaimOp].
  - sbind; [apply stops_try, acquire_safe|]. intros [e|r] s1 _ _ Hr; (sret; [done|]); intros ref' claim [= <-]; [done|].
    intros [= ->] Hk Hc. by apply (Hr claim).
  - sbind; [by apply stops_try, release_safe, Ho|]. intros r s1 _ _ _. by sret.
  - sbind; [apply stops_try, deleteExpired_safe; intros ->; auto|]. intros r s1 _ _ _. by sret.
Qed.

(** Sequencing that remembers the first run. *)
Lemma stops_bind_run {A B} (m : M A) (f : A -> M B) s (P : B -> Store -> Prop) (Q : A -> Store -> Prop) :
  safe m s Q -> (forall a s1, m s = (Ok a, s1) -> claim_rel s s1 -> Q a s1 -> safe (f a) s1 (fun b s2 => claim_rel s s2 -> P b s2)) ->
  safe (m ≫= f) s P.
Proof using Type.
  intros Hm Hf. unfold stops, mbind, M_bind in *. destruct (m s) as [[a|e|] s1] eqn:Hr; [|done|done].
  destruct Hm as (_ & HR & HQ). specialize (Hf a s1 eq_refl HR HQ). destruct (f a s1) as [[b|e|] s2]; [| |done].
  - destruct Hf as (_ & HR2 & HP). split; [done|]. assert (claim_rel s s2) by by etrans. auto.
  - destruct Hf as (_ & HR2). split; [done|]. by etrans.
Qed.

Lemma runClaimOps_safe s os :
  (forall claim, OpRelease claim ∈ os ->
    ~ (sourceLockKey (clSourceObject claim) = key /\ clClaimID claim = clClaimID c)) ->
  sweeps_read key os s ->
  safe (runClaimOps os) s (fun outs s' => claimed s -> clAcquiredAt c <= clock s ->
    clock s' - clAcquiredAt c <= sourceIngestClaimTTL ->
    Forall2 (fun o out => forall ref claim, o = OpAcquire ref -> sourceLockKey ref = key ->
      out <> OutAcquire (Some claim)) os outs).
Proof using Type*.
  revert s. induction os as [|o os IH]; intros s Ho Hrd; cbn [runClaimOps].
  - sret; [done|]. intros. constructor.
  - destruct Hrd as [Hrd1 Hrd]. eapply stops_bind_run; [apply runClaimOp_safe; [intros claim ->; apply Ho; left|done]|].
    intros x s1 Hrun HR1 Hx. rewrite Hrun in Hrd.
    sbind; [apply IH; [intros claim Hin; apply Ho; by right|done]|]. intros xs s2 _ HR2 Hxs. sret; [done|].
    intros _ Hc Ha Ht. destruct HR1 as [Hc1 _ Hk1], HR2 as [Hc2 _ _]. constructor.
    + intros ref claim -> Hkey ->. specialize (Hx ref claim eq_refl eq_refl Hkey Hc). lia.
    + apply Hxs; [apply Hk1; [done|lia|done]|lia|done].
Qed.

End claims.

(** C5: at most one writer ingests a source object at a time.  After
    [TryAcquireSourceIngest] granted a claim, no later attempt on the same object
    is granted until the claim itself is released or its 15 minutes are over,
    whatever acquisitions, releases and deletions of a sweep run in between: the
    sweep may come to the claim's key at any time, with whatever it has seen when it
    scanned, since it looks again before it deletes.  Any I/O step may fail, save
    the read of that second look at this key, whose failure the code takes for an
    expired claim ([sweep_read_error_frees_claim]). *)
Theorem ingest_claim_exclusive {E : Ext} `{!ExtLaws E} (ref : SourceObjectRef) (claim : SourceIngestClaim)
    (s0 s1 s2 : Store) (os : list claimOp) (outs : list claimOut) :
  TryAcquireSourceIngest ref s0 = (Ok (Some claim), s1) ->
  runClaimOps os s1 = (Ok outs, s2) ->
  (forall c, OpRelease c ∈ os ->
    ~ (sourceLockKey (clSourceObject c) = sourceLockKey ref /\ clClaimID c = clClaimID claim)) ->
  sweeps_read (sourceLockKey ref) os s1 ->
  clock s2 - clAcquiredAt claim <= sourceIngestClaimTTL ->
  Forall2 (fun o out => forall ref' claim', o = OpAcquire ref' -> sourceLockKey ref' = sourceLockKey ref ->
    out <> OutAcquire (Some claim')) os outs.
Proof.
  intros H0 H1 Hno Hrd Ht. pose proof (acquire_safe (sourceLockKey ref) claim s0 ref) as Ha.
  unfold stops in Ha. rewrite H0 in Ha. destruct Ha as (_ & _ & Ha). destruct (Ha claim eq_refl) as (_ & Hc & Hle).
  pose proof (runClaimOps_safe (sourceLockKey ref) claim s1 os Hno Hrd) as Hr. unfold stops in Hr. rewrite H1 in Hr.
  destruct Hr as (_ & _ & Hr). by apply Hr.
Qed.

(** ** Claims come back *)

Section claim_live.
Context {E : Ext} `{!ExtLaws E}.

Lemma metaApply_later ws s :
  runs (metaApply ws) s (fun _ => True) later
    (fun _ s' => (forall k, dbGet (db s') k = writesAt ws k (dbGet (db s) k)) /\ legacy s' = legacy s).
Proof using Type*.
  unfold metaApply. rbind; [by apply (runs_io _ _)|]. intros [] s1 _ _ Hs1. destruct (same_eq _ _ Hs1) as (Hd & _).
  unfold runs, modify. split; [done|]. split; [split; [simpl; lia|done]|]. simpl. split; [|by apply same_legacy].
  intros k. by rewrite dbGet_apply, Hd.
Qed.

Lemma acquire_grants s ref : validateSourceObjectRef ref = None ->
  (forall v, dbGet (db s) (sourceLockKey ref) = Some v -> exists c, v = VClaim c /\
     isZero (clAcquiredAt c) = false /\ sourceIngestClaimTTL < clock s - clAcquiredAt c) ->
  lgLocks (legacy s) !! sourceObjectRefKey ref = None ->
  runs (TryAcquireSourceIngest ref) s (fun _ => True) later (fun r s' => legacy s' = legacy s /\
    exists t, clock s <= t /\ let claim := MkClaim t ref (sourceObjectLockID ref t) in
      r = Some claim /\ dbGet (db s') (sourceLockKey ref) = Some (VClaim claim)).
Proof using Type*.
  intros Hv Hold Hleg. unfold TryAcquireSourceIngest, ctxErr.
  rbind; [by apply (runs_io _ _)|]. intros [] s1 _ _ Hs1.
  rbind; [by apply (runs_check _ _ _ _)|]. intros [] s2 _ _ ->.
  rbind; [by apply (runs_now _ _)|]. intros t s3 _ _ [Hs3 ->].
  assert (same s s3) as Hs by by etrans. destruct (same_eq _ _ Hs) as (Hd & _).
  pose proof (same_legacy _ _ Hs) as Hl. pose proof (same_clock _ _ Hs) as Hc.
  rbind. { apply (metaGet_spec _ _ _ _ _); [done|]. rewrite Hd. intros v Hvv. destruct (Hold v Hvv) as (c & -> & _).
    by eexists. }
  intros found s4 _ _ [Hs4 ->]. rewrite Hd. pose proof (same_legacy _ _ Hs4) as Hl4.
  assert (match dbGet (db s) (sourceLockKey ref) ≫= asClaim with
    Some existing => sourceClaimLive existing (clock s3) | None => false end = false) as ->.
  { destruct (dbGet (db s) (sourceLockKey ref)) as [v|]; [|done].
    destruct (Hold v eq_refl) as (c & -> & Hz & Ht). simpl. unfold sourceClaimLive. rewrite Hz.
    apply Z.leb_gt. unfold Sub, sourceIngestClaimTTL in *. lia. }
  rbind.
  { instantiate (1 := fun r s' => r = false /\ legacy s' = legacy s).
    destruct (dbGet (db s) (sourceLockKey ref) ≫= asClaim); [rret; [done|]; split; [done|congruence]|].
    unfold legacyClaimHeld. rbind; [by apply (runs_io _ _)|]. intros [] s5 _ _ Hs5. rgets.
    pose proof (same_legacy _ _ Hs5) as Hl5.
    assert (legacy s5 = legacy s) as -> by congruence. rewrite Hleg. rret; [done|]. split; [done|congruence]. }
  intros r s5 _ _ [-> Hl5]. rbind; [apply metaApply_later|]. intros [] s6 _ _ [Hk Hl6]. rret; [done|].
  split; [congruence|]. exists (clock s3). split; [done|]. split; [done|]. rewrite Hk. simpl. by rewrite bool_decide_true.
Qed.

Lemma lockID_not_blank ref t : blank (sourceObjectLockID ref t) = false.
Proof using Type*. apply digest_not_blank, sha256_digest. Qed.

Lemma release_frees s claim : validateSourceObjectRef (clSourceObject claim) = None ->
  blank (clClaimID claim) = false -> dbGet (db s) (sourceLockKey (clSourceObject claim)) = Some (VClaim claim) ->
  runs (ReleaseSourceIngest claim) s (fun _ => True) later (fun _ s' => legacy s' = legacy s /\
    dbGet (db s') (sourceLockKey (clSourceObject claim)) = None).
Proof using Type*.
  intros Hv Hb Hc. unfold ReleaseSourceIngest, ctxErr.
  rbind; [by apply (runs_io _ _)|]. intros [] s1 _ _ Hs1. destruct (same_eq _ _ Hs1) as (Hd & _).
  pose proof (same_legacy _ _ Hs1) as Hl1.
  rbind; [by apply (runs_check _ _ _ _)|]. intros [] s2 _ _ ->. rewrite Hb.
  rbind. { apply (metaGet_spec _ _ _ _ _); [done|]. rewrite Hd, Hc. intros v [= <-]. by eexists. }
  intros found s3 _ _ [Hs3 ->]. rewrite Hd, Hc. cbn [mbind option_bind asClaim]. rewrite String.eqb_refl. cbn [negb].
  destruct (same_eq _ _ Hs3) as (Hd3 & _). pose proof (same_legacy _ _ Hs3) as Hl3.
  eapply runs_post; [apply metaApply_later|]. intros [] s4 _ _ [Hk Hl4]. split; [congruence|].
  rewrite Hk. simpl. by rewrite bool_decide_true.
Qed.

End claim_live.

(** Claims are never stuck.  With a valid reference, no old lock file and
    no I/O faults, an object whose recorded claim (if any) is older than the time
    to live is granted; and releasing a granted claim frees the object, so the
    next attempt is granted at once. *)
Theorem ingest_claim_reacquired {E : Ext} `{!ExtLaws E} (s : Store) (ref : SourceObjectRef) :
  faults s = [] -> validateSourceObjectRef ref = None ->
  lgLocks (legacy s) !! sourceObjectRefKey ref = None ->
  (forall v, dbGet (db s) (sourceLockKey ref) = Some v -> exists c, v = VClaim c /\
     isZero (clAcquiredAt c) = false /\ sourceIngestClaimTTL < clock s - clAcquiredAt c) ->
  exists c1 s1 s2 c2 s3,
    TryAcquireSourceIngest ref s = (Ok (Some c1), s1) /\
    ReleaseSourceIngest c1 s1 = (Ok tt, s2) /\
    TryAcquireSourceIngest ref s2 = (Ok (Some c2), s3).
Proof.
  intros Hf Hv Hl Hold.
  destruct (runs_ok _ _ _ _ _ (acquire_grants s ref Hv Hold Hl) Hf) as (r & s1 & H1 & _ & HR1 & Hl1 & t & _ & -> & Hd1).
  assert (faults s1 = []) as Hf1 by by apply (lt_faults _ _ HR1).
  set (c1 := MkClaim t ref (sourceObjectLockID ref t)) in *.
  destruct (runs_ok _ _ _ _ _ (release_frees s1 c1 Hv (lockID_not_blank ref t) Hd1) Hf1)
    as ([] & s2 & H2 & _ & HR2 & Hl2 & Hd2).
  destruct (runs_ok _ _ _ _ _ (acquire_grants s2 ref Hv ltac:(simpl in Hd2; rewrite Hd2; done)
    ltac:(by rewrite Hl2, Hl1)) ltac:(by apply (lt_faults _ _ HR2))) as (r & s3 & H3 & _ & _ & _ & t' & _ & -> & _).
  eexists _, s1, s2, _, s3. split_and!; [exact H1|exact H2|exact H3].
Qed.

(** ** Lookup *)

Section lookup.
Context {E : Ext}.

Lemma ReadManifest_stops s d :
  stops (ReadManifest d) s (fun _ => True) same (fun m _ => dbGet (db s) (manifestKey d) = Some (VManifest m)).
Proof.
  unfold ReadManifest, ctxErr. sbind; [by apply runs_stops, (runs_io _ _)|]. intros [] s1 _ _ Hs1.
  destruct (same_eq _ _ Hs1) as (Hd & _).
  sbind; [by apply (stops_check _ _ _ _)|]. intros [] s2 _ _ [-> _].
  sbind; [by apply (metaGet_stops _ _ _ _ _)|]. intros r s3 _ _ [_ ->]. rewrite Hd.
  destruct (dbGet (db s) (manifestKey d)) as [v|]; [|by apply (stops_fail _ _ _ _)].
  destruct v; try (by apply (stops_fail _ _ _ _)). by sret.
Qed.

Lemma readManifestOr_stops {A} d (absent : A) k s (P : A -> Store -> Prop) :
  (forall s', P absent s') ->
  (forall m s1, same s s1 -> dbGet (db s) (manifestKey d) = Some (VManifest m) ->
    stops (k m) s1 (fun _ => True) same P) ->
  stops (readManifestOr d absent k) s (fun _ => True) same P.
Proof.
  intros Ha Hk. unfold readManifestOr. sbind; [apply stops_try, ReadManifest_stops|].
  intros [e|m] s1 _ HR Hm.
  - destruct (isNotExist e); [by sret|by apply (stops_fail _ _ _ _)].
  - by apply Hk.
Qed.

(** A manifest that carries a matching provenance entry. *)
Definition observed (s : Store) (d : ObjectDigest) (ref : SourceObjectRef) : Prop :=
  exists m p, dbGet (db s) (manifestKey d) = Some (VManifest m) /\ p ∈ mProvenance m /\
    pSourceKind p = rSourceKind ref /\ pSourceName p = rSourceName ref /\ pExternalID p = rExternalID ref.

Lemma observed_same s s' d ref : same s s' -> observed s' d ref -> observed s d ref.
Proof. intros Hs. unfold observed. by destruct (same_eq _ _ Hs) as (-> & _). Qed.

Lemma lookupViaAlias_stops s ref : stops (lookupSourceObjectViaAlias ref) s (fun _ => True) same
  (fun r _ => forall d, r = Some d -> observed s d ref).
Proof.
  unfold lookupSourceObjectViaAlias, readPackedSourceAlias, ctxErr.
  sbind.
  { instantiate (1 := fun _ s' => same s s'). sbind; [by apply runs_stops, (runs_io _ _)|]. intros [] s1 _ _ Hs1.
    sbind; [by apply (metaGet_stops _ _ _ _ _)|]. intros r s2 _ _ [Hs2 _]. sret; [done|by etrans]. }
  intros [d|] s1 _ _ Hs1; [|by sret]. sbind; [by apply (stops_check _ _ _ _)|]. intros [] s2 _ _ [-> _].
  apply readManifestOr_stops; [done|]. intros m s3 Hs3 Hm. sret; [done|].
  destruct (existsb (aliasMatches ref) (mProvenance m)) eqn:He; [|done]. intros d' [= <-].
  apply (observed_same s s1); [done|]. apply existsb_exists in He as (p & Hin & Hp). unfold aliasMatches in Hp.
  rewrite !andb_true_iff, !String.eqb_eq in Hp. exists m, p. rewrite list_elem_of_In. tauto.
Qed.

Lemma LookupSourceObject_stops s ref : stops (LookupSourceObject ref) s (fun _ => True) same
  (fun r _ => forall d, r = Some d -> observed s d ref).
Proof.
  unfold LookupSourceObject, readPackedSourceObjectIndex, ctxErr.
  sbind; [by apply runs_stops, (runs_io _ _)|]. intros [] s1 _ _ Hs1.
  sbind; [by apply (stops_check _ _ _ _)|]. intros [] s2 _ _ [-> _].
  sbind.
  { instantiate (1 := fun _ s' => same s s'). sbind; [by apply runs_stops, (runs_io _ _)|]. intros [] s3 _ _ Hs3.
    eapply stops_mono; [by apply (metaGet_stops _ _ _ _ _)|]. intros r s4 _ _ [Hs4 _]. etrans; [exact Hs1|]. by etrans. }
  intros found s3 _ _ Hs3.
  sbind.
  { instantiate (1 := fun _ s' => same s s'). destruct found as [e|]; [by sret|].
    sbind; [by apply runs_stops, (runs_io _ _)|]. intros [] s4 _ _ Hs4. sgets.
    destruct (lgIndex _ !! _) as [[e|]|]; [sret; [done|by etrans]|by apply (stops_fail _ _ _ _)|sret; [done|by etrans]]. }
  intros [e|] s4 _ _ Hs4.
  - destruct (sourceObjectRefsEqual (siSourceObject e) ref) eqn:Heq; cbn [negb]; [|by apply (stops_fail _ _ _ _)].
    sbind; [by apply (stops_check _ _ _ _)|]. intros [] s5 _ _ [-> _].
    apply readManifestOr_stops; [done|]. intros m s6 Hs6 Hm. sret; [done|].
    destruct (existsb (fun p => sourceRefMatches p ref) (mProvenance m)) eqn:He; [|done]. intros d [= <-].
    apply (observed_same s s4); [done|]. apply existsb_exists in He as (p & Hin & Hp).
    unfold sourceRefMatches in Hp. apply sourceObjectRefsEqual_eq in Hp. subst ref.
    exists m, p. rewrite list_elem_of_In. done.
  - eapply stops_mono; [apply lookupViaAlias_stops|]. intros r s5 _ _ Hr d Hd. eapply observed_same; [exact Hs4|auto].
Qed.

End lookup.

(** C32: a source lookup is never wrong: whatever the store and its indexes hold
    (stale rows after a re-ingest, rows left by a deletion, old index files) and
    whichever reads fail, an object returned for a source reference has a
    manifest that carries provenance of that source object. *)
Theorem lookup_sound {E : Ext} (s s' : Store) (ref : SourceObjectRef) (d : ObjectDigest) :
  LookupSourceObject ref s = (Ok (Some d), s') -> observed s d ref.
Proof.
  intros H. pose proof (LookupSourceObject_stops s ref) as Hs. unfold stops in Hs. rewrite H in Hs.
  destruct Hs as (_ & _ & Hs). by apply Hs.
Qed.

(** ** The compound-parent index *)

Lemma edgeKey_inj a b : looksLikeDigest (edParentDigest a) = true -> looksLikeDigest (edParentDigest b) = true ->
  compoundParentEdgeKey a = compoundParentEdgeKey b -> edParentDigest a = edParentDigest b /\ edRole a = edRole b.
Proof.
  unfold looksLikeDigest, compoundParentEdgeKey. rewrite !andb_true_iff, !Nat.eqb_eq. intros [Ha _] [Hb _].
  assert (String.length (edParentDigest a) = String.length (edParentDigest b)) as Hl by congruence. clear Ha Hb.
  revert Hl. generalize (edParentDigest a) (edParentDigest b). induction s as [|c p IH]; intros [|d q] Hl H; try done.
  - injection H as H. exact (conj eq_refl H).
  - injection H as -> H. destruct (IH q) as [-> ?]; [by injection Hl|done|done].
Qed.

Section fold_insert.
Context {A : Type} (key : A -> string).

Definition insertAll (m : gmap string A) (l : list A) : gmap string A := foldl (fun m e => <[key e := e]> m) m l.

Lemma insertAll_some l m k e : insertAll m l !! k = Some e -> m !! k = Some e \/ e ∈ l /\ key e = k.
Proof.
  revert m. induction l as [|x l IH]; intros m H; [by left|]. simpl in H.
  destruct (IH _ H) as [Hm|[? ?]]; [|right; split; [by right|done]].
  apply lookup_insert_Some in Hm as [[<- <-]|[_ ?]]; [right; split; [by left|done]|by left].
Qed.

Lemma insertAll_mono l m k : is_Some (m !! k) -> is_Some (insertAll m l !! k).
Proof.
  revert m. induction l as [|x l IH]; intros m H; [done|]. simpl. apply IH.
  destruct (decide (key x = k)) as [<-|]; [by rewrite lookup_insert_eq|by rewrite lookup_insert_ne].
Qed.

Lemma insertAll_elem l m e : e ∈ l -> is_Some (insertAll m l !! key e).
Proof.
  intros H. revert m. induction H as [e l|e x l _ IH]; intros m; simpl; [|apply IH].
  apply insertAll_mono. by rewrite lookup_insert_eq.
Qed.

Lemma insertAll_filter (P : A -> bool) l m :
  foldl (fun m e => if P e then <[key e := e]> m else m) m l = insertAll m (List.filter P l).
Proof. revert m. induction l as [|x l IH]; intros m; simpl; [done|]. rewrite IH. by destruct (P x). Qed.

End fold_insert.

Definition validEdge (e : compoundParentEdge) : bool := looksLikeDigest (edParentDigest e).

Lemma mergeEdges_eq old new : mergeEdges old new =
  insertAll compoundParentEdgeKey ∅ (List.filter validEdge old ++ new).
Proof.
  unfold mergeEdges. rewrite (insertAll_filter compoundParentEdgeKey validEdge). unfold insertAll. by rewrite foldl_app.
Qed.

Lemma mergeEdges_source old new e :
  e ∈ List.filter validEdge old ++ new <-> e ∈ new \/ e ∈ old /\ looksLikeDigest (edParentDigest e) = true.
Proof. rewrite elem_of_app, !list_elem_of_In, filter_In. unfold validEdge. tauto. Qed.

Lemma mergeEdges_lookup old new e :
  e ∈ new \/ e ∈ old /\ looksLikeDigest (edParentDigest e) = true ->
  is_Some (mergeEdges old new !! compoundParentEdgeKey e).
Proof. rewrite <- mergeEdges_source, mergeEdges_eq. apply insertAll_elem. Qed.

Lemma mergeEdges_key old new k e : mergeEdges old new !! k = Some e ->
  compoundParentEdgeKey e = k /\ (e ∈ new \/ e ∈ old /\ looksLikeDigest (edParentDigest e) = true).
Proof.
  rewrite <- mergeEdges_source, mergeEdges_eq. intros [H|[? ?]]%insertAll_some; [by rewrite lookup_empty in H|done].
Qed.

(** What the index says about a child: the packed row, else the old file. *)
Definition storedEdges {E : Ext} (s : Store) (child : ObjectDigest) : list compoundParentEdge :=
  match dbGet (db s) (compoundParentKey child) ≫= asParents with
  | Some e => cpiParents e
  | None => match lgParents (legacy s) !! child with Some (Some r) => r.2 | _ => [] end
  end.

Definition edge_is (e : compoundParentEdge) (parent : ObjectDigest) (role : string) : Prop :=
  edParentDigest e = parent /\ edRole e = role.

Definition has_parent {E : Ext} (s : Store) (child parent : ObjectDigest) (role : string) : Prop :=
  exists e, e ∈ storedEdges s child /\ edge_is e parent role.

(** The merged list names a parent and role iff one of its two sources does. *)
Lemma mergeEdges_has old new p r : looksLikeDigest p = true ->
  (forall e, e ∈ new -> looksLikeDigest (edParentDigest e) = true) ->
  (exists e, e ∈ sortCompoundParentEdges (map_to_list (mergeEdges old new)).*2 /\ edge_is e p r) <->
  (exists e, e ∈ old /\ edge_is e p r) \/ (exists e, e ∈ new /\ edge_is e p r).
Proof.
  intros Hp Hnew. unfold sortCompoundParentEdges. setoid_rewrite sortStable_perm.
  setoid_rewrite list_elem_of_fmap. split.
  - intros (e & ([k e'] & -> & Hin%elem_of_map_to_list) & He).
    apply mergeEdges_key in Hin as (_ & [?|[? _]]); simpl in *; eauto.
  - intros Hor.
    assert (exists e, edge_is e p r /\ (e ∈ new \/ e ∈ old /\ looksLikeDigest (edParentDigest e) = true))
      as (e & [<- <-] & Hin).
    { destruct Hor as [(e & ? & He)|(e & ? & He)]; exists e; split; [done| |done|by left].
      right. split; [done|]. by destruct He as [-> _]. }
    destruct (mergeEdges_lookup old new e Hin) as [e' He'].
    exists e'. split. { exists (compoundParentEdgeKey e, e'). split; [done|]. by apply elem_of_map_to_list. }
    apply mergeEdges_key in He' as [Hk Hin']. apply edgeKey_inj in Hk; [done|by destruct Hin' as [?%Hnew|[_ ?]]|done].
Qed.

Section parents.
Context {E : Ext} `{!ExtLaws E}.

Lemma validate_digest_ok d : validateObjectDigest d = None -> looksLikeDigest d = true.
Proof using Type.
  unfold validateObjectDigest. by destruct (looksLikeDigest d).
Qed.

Lemma readLegacyParents_stops s child : stops (readLegacyParents child) s (fun _ => True) later
  (fun r s' => same s s' /\ match r with Some r => lgParents (legacy s) !! child = Some (Some r)
                            | None => lgParents (legacy s) !! child = None end).
Proof using Type.
  unfold readLegacyParents. sbind; [by apply runs_stops, (runs_io _ _)|]. intros [] s1 _ _ Hs1. sgets.
  pose proof (same_legacy _ _ Hs1) as Hl. rewrite Hl.
  destruct (lgParents (legacy s) !! child) as [[e|]|] eqn:He; [|by apply (stops_fail _ _ _ _)|]; by sret.
Qed.

Lemma mergeCompoundParentIndex_stops s child edges :
  stops (mergeCompoundParentIndex child edges) s (fun _ => True) later (fun _ s' =>
    forall c p r, looksLikeDigest p = true -> has_parent s' c p r <->
      has_parent s c p r \/ c = child /\ exists e, e ∈ edges /\ edge_is e p r).
Proof using Type*.
  unfold mergeCompoundParentIndex, readPackedCompoundParentIndex, ctxErr.
  sbind; [by apply runs_stops, (runs_io _ _)|]. intros [] s1 _ _ Hs1.
  sbind; [by apply (stops_check _ _ _ _)|]. intros [] s2 _ _ [-> _].
  sbind.
  { instantiate (1 := fun r s' => same s s' /\ r = (fun e => (cpiChildDigest e, cpiParents e)) <$>
      (dbGet (db s) (compoundParentKey child) ≫= asParents)).
    sbind; [by apply runs_stops, (runs_io _ _)|]. intros [] s3 _ _ Hs3.
    sbind; [by apply (metaGet_stops _ _ _ _ _)|]. intros r s4 _ _ [Hs4 ->].
    assert (same s s3) as Hs by by etrans. destruct (same_eq _ _ Hs) as (-> & _). sret; [done|].
    split; [by etrans|done]. }
  intros packed s3 _ _ [Hs3 ->].
  sbind.
  { instantiate (1 := fun r s' => same s s' /\ r.2 = storedEdges s child). unfold storedEdges.
    destruct (dbGet (db s) (compoundParentKey child) ≫= asParents) as [e|]; [by sret|]. simpl.
    sbind; [apply readLegacyParents_stops|]. intros r s4 _ _ [Hs4 Hr].
    rewrite (same_legacy _ _ Hs3) in Hr. sret; [done|]. split; [by etrans|]. by destruct r; rewrite Hr. }
  intros record s4 _ _ [Hs4 Hrec].
  destruct (_ && _); [by apply (stops_fail _ _ _ _)|].
  sbind.
  { apply (stops_forM edges tt _ s4 _ _ (fun done _ s' => s' = s4 /\
      forall e, e ∈ done -> looksLikeDigest (edParentDigest e) = true)); [done|split; [done|by intros ? ?%elem_of_nil]|].
    intros done [] e s' _ _ [-> Hd]. eapply stops_mono; [by apply (stops_check _ _ _ _)|].
    intros [] s'' _ _ [-> Hv]. split; [done|]. intros e'. rewrite elem_of_app, list_elem_of_singleton.
    intros [?| ->]; [by apply Hd|by apply validate_digest_ok]. }
  intros [] s5 _ _ [-> Hval]. unfold writePackedCompoundParentIndex, ctxErr, metaPut.
  sbind; [by apply runs_stops, (runs_io _ _)|]. intros [] s5 _ _ Hs5.
  sbind; [by apply runs_stops, (runs_now _ _)|]. intros t s6 _ _ [Hs6 _].
  eapply stops_mono; [by apply runs_stops, metaApply_later|]. intros [] s7 _ _ [Hk Hl] c p r Hp.
  assert (same s s6) as Hs by (etrans; [exact Hs4|by etrans]). destruct (same_eq _ _ Hs) as (Hd & _).
  pose proof (same_legacy _ _ Hs) as Hl6. unfold has_parent. unfold storedEdges at 1. rewrite Hk, Hl, Hl6, Hd.
  cbn [writesAt fst snd]. destruct (decide (c = child)) as [->|Hne].
  - rewrite bool_decide_true by done. cbn [mbind option_bind asParents cpiParents]. rewrite mergeEdges_has by done.
    rewrite Hrec. naive_solver.
  - rewrite bool_decide_false by (intros ?%str_app_inj_l; done). unfold storedEdges. naive_solver.
Qed.

Lemma byChild_stops s parent t parts :
  stops (forM parts (∅ : gmap string (list compoundParentEdge)) (fun byChild part =>
      _ ← check (validateCompoundPart part);
      mret (<[cpDigest part := default [] (byChild !! cpDigest part) ++ [MkEdge parent (cpRole part) t]]> byChild)))
    s (fun _ => True) later (fun m s' => s' = s /\ forall c p r,
      (exists es e, m !! c = Some es /\ e ∈ es /\ edge_is e p r) <->
      p = parent /\ exists part, part ∈ parts /\ cpDigest part = c /\ cpRole part = r).
Proof using Type.
  apply (stops_forM parts ∅ _ s _ _ (fun done (m : gmap string (list compoundParentEdge)) s' => s' = s /\ forall c p r,
      (exists es e, m !! c = Some es /\ e ∈ es /\ edge_is e p r) <->
      p = parent /\ exists part, part ∈ done /\ cpDigest part = c /\ cpRole part = r)); [done|..].
  - split; [done|]. intros c p r. rewrite lookup_empty. split; [by intros (? & ? & ? & _)|by intros (_ & ? & ?%elem_of_nil & _)].
  - intros done m part s1 _ _ [-> Hm]. sbind; [by apply (stops_check _ _ _ _)|]. intros [] s2 _ _ [-> _]. sret; [done|].
    split; [done|]. intros c p r. setoid_rewrite elem_of_app. setoid_rewrite list_elem_of_singleton.
    destruct (decide (cpDigest part = c)) as [<-|Hne].
    + rewrite lookup_insert_eq. split.
      * intros (? & e & [= <-] & [He|He]%elem_of_app & Hi).
        -- destruct (m !! cpDigest part) as [es|] eqn:Hes; [|by apply elem_of_nil in He].
           destruct (proj1 (Hm (cpDigest part) p r)) as (? & q & ? & ? & ?); [by eexists _, _|]. eauto 8.
        -- apply list_elem_of_singleton in He as ->. destruct Hi as [<- <-]. simpl. eauto 8.
      * intros (-> & q & [Hq| ->] & Hqd & <-).
        -- destruct (proj2 (Hm (cpDigest part) parent (cpRole q))) as (es & e & Hes & He & Hi); [eauto|].
           rewrite Hes. eexists _, e. split; [done|]. split; [apply elem_of_app; by left|done].
        -- eexists _, _. split; [done|]. split; [apply elem_of_app; right; by apply list_elem_of_singleton|done].
    + rewrite lookup_insert_ne by done. rewrite Hm. naive_solver.
Qed.

End parents.

(** The compound-parent index holds exactly the recorded relations.  When
    [recordCompoundParentIndexes] returns without an error, whichever steps were
    slow or retried before, a child lists a parent in a role iff it did before or
    the compound just recorded has a part with that child and role: nothing is
    lost from earlier compounds, nothing is invented. *)
Theorem compound_parents_exact {E : Ext} `{!ExtLaws E} (s s' : Store) (parent : ObjectDigest) (parts : list CompoundPart)
    (child p : ObjectDigest) (role : string) :
  recordCompoundParentIndexes parent parts s = (Ok tt, s') -> looksLikeDigest p = true ->
  has_parent s' child p role <->
  has_parent s child p role \/
  p = parent /\ exists part, part ∈ parts /\ cpDigest part = child /\ cpRole part = role.
Proof.
  intros H Hp. revert child p role Hp.
  cut (stops (recordCompoundParentIndexes parent parts) s (fun _ => True) later (fun _ s' => forall child p role,
    looksLikeDigest p = true -> has_parent s' child p role <-> has_parent s child p role \/
      p = parent /\ exists part, part ∈ parts /\ cpDigest part = child /\ cpRole part = role)).
  { unfold stops. rewrite H. by intros (_ & _ & ?). }
  clear H s'. unfold recordCompoundParentIndexes, ctxErr.
  assert (forall s s', same s s' -> forall c p r, has_parent s' c p r <-> has_parent s c p r) as Hsame.
  { intros s0 s1 Hs c p r. unfold has_parent, storedEdges. destruct (same_eq _ _ Hs) as (-> & _).
    by rewrite (same_legacy _ _ Hs). }
  sbind; [by apply runs_stops, (runs_io _ _)|]. intros [] s1 _ _ Hs1.
  destruct parts as [|part0 parts']; [sret; [done|]; intros; rewrite (Hsame _ _ Hs1);
    split; [by left|]; by intros [?|(_ & ? & ?%elem_of_nil & _)]|].
  set (parts := part0 :: parts').
  sbind; [by apply (stops_check _ _ _ _)|]. intros [] s2 _ _ [-> _].
  sbind; [by apply runs_stops, (runs_now _ _)|]. intros t s3 _ _ [Hs3 _].
  sbind; [apply byChild_stops|]. intros byChild s4 _ _ [-> Hby].
  eapply stops_mono.
  { apply (stops_forM (map_to_list byChild) tt _ s3 _ _ (fun done _ s' => forall c p r, looksLikeDigest p = true ->
      has_parent s' c p r <-> has_parent s3 c p r \/ exists es e, (c, es) ∈ done /\ e ∈ es /\ edge_is e p r)); [done|..].
    - intros c p r _. split; [by left|]. by intros [?|(? & ? & ?%elem_of_nil & _)].
    - intros done [] [c es] s4 _ _ Hdone. eapply stops_mono; [apply mergeCompoundParentIndex_stops|].
      intros [] s5 _ _ H5 c' p r Hp. rewrite H5, Hdone by done. setoid_rewrite elem_of_app.
      setoid_rewrite list_elem_of_singleton. simpl. naive_solver. }
  intros [] s5 _ _ H5 c p r Hp. cbv beta in H5. rewrite H5 by done. rewrite <- Hby.
  setoid_rewrite elem_of_map_to_list. rewrite (Hsame s s3); [done|by etrans].
Qed.

(** ** The hypotheses hold together: runs on a concrete store *)

Definition exRef : SourceObjectRef := MkRef "imap" "inbox" "42" "7".
Definition exClaim : SourceIngestClaim := MkClaim 1000 exRef (sourceObjectLockID exRef 1000).
Definition exClaimed : Store := (TryAcquireSourceIngest exRef emptyStore).2.
Definition exOps : list claimOp := [OpAcquire exRef; OpSweep (sourceLockKey exRef); OpAcquire exRef].
Definition exOuts : list claimOut := [OutAcquire None; OutDone; OutAcquire None].

Lemma exClaim_run : TryAcquireSourceIngest exRef emptyStore = (Ok (Some exClaim), exClaimed).
Proof. apply run_eq. vm_compute. reflexivity. Qed.

Lemma exOps_run : runClaimOps exOps exClaimed = (Ok exOuts, (runClaimOps exOps exClaimed).2).
Proof. apply run_eq. vm_compute. reflexivity. Qed.

Lemma ingest_claim_exclusive_witness :
  Forall2 (fun o out => forall ref' claim', o = OpAcquire ref' -> sourceLockKey ref' = sourceLockKey exRef ->
    out <> OutAcquire (Some claim')) exOps exOuts.
Proof.
  apply (ingest_claim_exclusive exRef exClaim emptyStore exClaimed (runClaimOps exOps exClaimed).2 exOps exOuts).
  - exact exClaim_run.
  - exact exOps_run.
  - intros c Hc. apply list_elem_of_In in Hc. simpl in Hc. destruct Hc as [Hc|[Hc|[Hc|[]]]]; discriminate Hc.
  - vm_compute. split_and!; trivial.
  - vm_compute. discriminate.
Defined.

(** Another writer asks for the object, the sweep comes to its key, and the writer
    asks again; the read of the sweep's second look fails. *)
Definition exSwept : list claimOut * Store :=
  match runClaimOps [OpSweep (sourceLockKey exRef); OpAcquire exRef] (set_faults [FOk; FErr "read"] exClaimed) with
  | (Ok outs, s) => (outs, s)
  | (_, s) => ([], s)
  end.

(** A sweep whose second look at a claim cannot be read deletes the claim: a second
    writer is granted the object while the first still holds it. *)
Theorem sweep_read_error_frees_claim : exists claim, exSwept.1 = [OutDone; OutAcquire (Some claim)] /\
  sourceClaimLive exClaim (clock exSwept.2) = true.
Proof. vm_compute. by eexists. Qed.

Lemma ingest_claim_reacquired_witness :
  exists c1 s1 s2 c2 s3,
    TryAcquireSourceIngest exRef emptyStore = (Ok (Some c1), s1) /\
    ReleaseSourceIngest c1 s1 = (Ok tt, s2) /\
    TryAcquireSourceIngest exRef s2 = (Ok (Some c2), s3).
Proof.
  apply (ingest_claim_reacquired emptyStore exRef).
  - reflexivity.
  - reflexivity.
  - reflexivity.
  - intros v Hv. vm_compute in Hv. discriminate Hv.
Defined.

(** An object observed in the source [exRef]. *)
Definition exDigest : ObjectDigest := toyDigest [Byte.x41].
Definition exProvenance : Provenance := MkProvenance 900 ∅ ∅ "inbox" "imap" "42" "7" [].
Definition exManifest : Manifest :=
  baseManifest 900 exDigest "" "blake3" "text/plain" 1 [] [] [exProvenance] [] (MkCompound [] false).
Definition exIndexed : Store :=
  (recordSourceObjectIndexes exDigest [exProvenance]
    (set_db (dbApply [WSet (manifestKey exDigest) (VManifest exManifest)] (db emptyStore)) emptyStore)).2.

Lemma exLookup_run : LookupSourceObject exRef exIndexed =
  (Ok (Some exDigest), (LookupSourceObject exRef exIndexed).2).
Proof. apply run_eq. vm_compute. reflexivity. Qed.

Lemma lookup_sound_witness : observed exIndexed exDigest exRef.
Proof. exact (lookup_sound exIndexed _ exRef exDigest exLookup_run). Defined.

Definition exParts : list CompoundPart :=
  [MkPart ∅ (toyDigest [Byte.x42]) "body" 0 true; MkPart ∅ (toyDigest [Byte.x43]) "attachment" 1 false].

Lemma exParts_run : recordCompoundParentIndexes exDigest exParts emptyStore =
  (Ok tt, (recordCompoundParentIndexes exDigest exParts emptyStore).2).
Proof. apply run_eq. vm_compute. reflexivity. Qed.

Lemma compound_parents_exact_witness :
  has_parent (recordCompoundParentIndexes exDigest exParts emptyStore).2 (toyDigest [Byte.x43]) exDigest "attachment".
Proof.
  apply (compound_parents_exact emptyStore _ exDigest exParts (toyDigest [Byte.x43]) exDigest "attachment").
  - exact exParts_run.
  - reflexivity.
  - right. split; [reflexivity|]. exists (MkPart ∅ (toyDigest [Byte.x43]) "attachment" 1 false).
    split; [by right; left|]. split; reflexivity.
Defined.
