(* ===== verification/Annotations.v ===== *)
(** * Object annotations and the change index: [filestore/object_annotations.go],
    [filestore/projection.go] (change records), [filestore/packed_store.go]
    (recovery sidecars)

    Annotations are records of the metadata store; a payload over the inline
    limit goes to the chunk store and is referenced by its digest.  Every change
    of an object moves its entry in the time-ordered change index.  Writers take
    a [metaSink]: the synced store or a commit batch; [sink_ok] and [sview] treat
    the two alike. *)

From stdpp Require Import options.
From S2P Require Import Prelude GoLib GoText Contracts Lru Chunker Manifest Meta Concrete DictionaryFamily Dictionary ChunkStore SourceIngest.

Open Scope Z_scope.

(** ** Change keys *)

(** [Time.UnixNano] is an [int64]. *)
Definition wrap64 (z : Z) : Z := (z + 2 ^ 63) mod 2 ^ 64 - 2 ^ 63.

Definition padLeft (width : nat) (s : string) : string :=
  bytes_str (replicate (width - String.length s) (byteN 48) ++ str_bytes s).

(** [fmt.Sprintf("%020d", z)]. *)
Definition sprintf020d (z : Z) : string :=
  if z <? 0 then "-" +:+ padLeft 19 (FormatUint (Z.to_N (- z))) else padLeft 20 (FormatUint (Z.to_N z)).

Definition projectionChangeKey (digest : ObjectDigest) (changedAt : Time) : string :=
  "pc/" +:+ sprintf020d (wrap64 changedAt) +:+ "/" +:+ digest.

Definition projectionChangeLatestKey (digest : ObjectDigest) : string := "pc-latest/" +:+ digest.

Definition projectionChangeScanLowerBound (since : Time) : string :=
  "pc/" +:+ sprintf020d (wrap64 (wrap64 since + 1)) +:+ "/".

(** [path.Base]. *)
Fixpoint dropSlashes (l : list Ascii.ascii) : list Ascii.ascii :=
  match l with
  | c :: r => if Ascii.eqb c (byteN 47) then dropSlashes r else l
  | [] => []
  end.
Fixpoint takeToSlash (l : list Ascii.ascii) : list Ascii.ascii :=
  match l with
  | c :: r => if Ascii.eqb c (byteN 47) then [] else c :: takeToSlash r
  | [] => []
  end.
Definition pathBase (p : string) : string :=
  match str_bytes p with
  | [] => "."
  | l => match dropSlashes (rev l) with
         | [] => "/"
         | r => bytes_str (rev (takeToSlash r))
         end
  end.

Definition projectionChangeDigestFromKey (key : string) : ObjectDigest :=
  if negb (HasPrefix key "pc/") then "" else pathBase key.

Definition annotationInlineMaxBytes : Z := 4096.

Section annotations.
Context {E : Ext}.

Definition recordProjectionChangeTo (sink : metaSink) (digest : ObjectDigest) (changedAt : Time) : M metaSink :=
  if String.eqb digest "" || isZero changedAt then mret sink else
  let latestKey := projectionChangeLatestKey digest in
  previous ← metaGet asChange latestKey;
  sink ← match previous with
    | Some p => if negb (String.eqb (pcKey p) "") then sinkDelete sink (pcKey p) else mret sink
    | None => mret sink
    end;
  let entry := MkChange (projectionChangeKey digest changedAt) digest changedAt in
  sink ← sinkSet sink (pcKey entry) (VChange entry);
  sinkSet sink latestKey (VChange entry).

(** ** Manifests *)

Definition writeManifestTo (sink : metaSink) (digest : ObjectDigest) (manifest : Manifest) : M metaSink :=
  sink ← sinkSet sink (manifestKey digest) (VManifest manifest);
  recordProjectionChangeTo sink digest (mUpdatedAt manifest).

Definition writeManifest (digest : ObjectDigest) (manifest : Manifest) : M unit :=
  _ ← writeManifestTo SyncSink digest manifest; mret tt.

(** ** Recovery sidecars *)

Definition writePackedRecoveryTo (sink : metaSink) (digest : ObjectDigest) (recovery : recoverySidecar) :
    M metaSink :=
  _ ← ctxErr;
  t ← now;
  sinkSet sink (recoveryKey digest) (VRecovery (MkRecEntry digest recovery t)).

Definition writePackedRecovery (digest : ObjectDigest) (recovery : recoverySidecar) : M unit :=
  _ ← writePackedRecoveryTo SyncSink digest recovery; mret tt.

Definition readPackedRecovery (digest : ObjectDigest) : M (option recoverySidecar) :=
  _ ← ctxErr;
  e ← metaGet asRecovery (recoveryKey digest);
  mret (prRecovery <$> e).

(** ** Annotations *)

Definition writePackedAnnotation (annotation : Annotation) : M unit :=
  _ ← ctxErr;
  let encoded := annotationJSON annotation in
  t ← now;
  payload ← (if blen encoded <=? annotationInlineMaxBytes then mret (Some annotation, EmptyString) else
    let contentDigest := blake3 encoded in
    _ ← storeBlobContent contentDigest encoded "application/json" [];
    mret (None, contentDigest));
  let entry := MkAnnEntry t payload.1 (aObjectDigest annotation) (aKind annotation)
    (aAnalyzerName annotation) payload.2 in
  sink ← sinkSet SyncSink
    (annotationKey (aObjectDigest annotation) (aKind annotation) (aAnalyzerName annotation)) (VAnnotation entry);
  _ ← recordProjectionChangeTo sink (aObjectDigest annotation) (aGeneratedAt annotation);
  mret tt.

Definition resolvePackedAnnotation (entry : packedObjectAnnotationEntry) : M Annotation :=
  match anInline entry with
  | Some annotation => mret annotation
  | None =>
      if String.eqb (anExternalDigest entry) ""
      then fail (ErrMsg "packed annotation has neither inline nor external payload") else
      content ← readBlobContent (anExternalDigest entry);
      match content with
      | None => fail (ErrMsg "external annotation payload missing from chunk store")
      | Some content =>
          match parseAnnotation content with
          | Some annotation => mret annotation
          | None => fail (ErrMsg "decode external annotation payload")
          end
      end
  end.

Definition readPackedAnnotation (digest : ObjectDigest) (kind analyzerName : string) : M (option Annotation) :=
  e ← metaGet asAnnotation (annotationKey digest kind analyzerName);
  match e with
  | None => mret None
  | Some entry => annotation ← resolvePackedAnnotation entry; mret (Some annotation)
  end.

Definition annotationLess : Annotation -> Annotation -> bool :=
  lexBy aKind str_ltb (lexBy aAnalyzerName str_ltb (keyLess aAnalyzerVer str_ltb)).

Definition readPackedAnnotations (digest : ObjectDigest) : M (list Annotation) :=
  annotations ← metaIterPrefix (annotationPrefix digest) [] (fun annotations kv =>
    entry ← unmarshal asAnnotation kv.2;
    annotation ← resolvePackedAnnotation entry;
    mret (annotations ++ [annotation]));
  mret (sortStable annotationLess annotations).

End annotations.

(** ** Writing through a sink *)

Section sinks.
Context {E : Ext}.

Definition batched (sink : metaSink) : bool := match sink with SyncSink => false | BatchSink _ => true end.

(** The metadata the sink's reader will see: committed, or with the batch. *)
Definition sview (s : Store) (sink : metaSink) (k : string) : option Value :=
  match sink with SyncSink => dbGet (db s) k | BatchSink cb => vget s cb k end.

Definition sink_ok (s : Store) (sink : metaSink) : Prop :=
  match sink with SyncSink => store_ok s | BatchSink cb => batch_ok s cb end.

(** A batch leaves the committed metadata alone. *)
Definition srel (b : bool) (s s' : Store) : Prop := extends s s' /\ (b = true -> quiet s s').

#[export] Instance srel_rel b : StoreRel (srel b).
Proof.
  split.
  - intros s. split; [reflexivity|intros _; reflexivity].
  - intros s1 s2 s3 [H1 H2] [K1 K2]. split; [by etrans|]. intros Hb. etrans; [by apply H2|by apply K2].
  - intros s s' [[H _] _]. apply (gr_faults _ _ H).
Qed.

#[export] Instance srel_env b : EnvRel (srel b).
Proof. intros s s' Hs. split; [by apply extends_env|intros _; by apply quiet_env]. Qed.

Lemma srel_quiet b s s' : quiet s s' -> srel b s s'.
Proof. intros Hq. split; [by apply quiet_extends|done]. Qed.

Lemma sink_ok_store s sink : sink_ok s sink -> store_ok s.
Proof. destruct sink; [done|]. intros []. done. Qed.

Lemma sink_ok_view s sink : sink_ok s sink -> exists t, db_ok s (sview s sink) t.
Proof. destruct sink as [|cb]; [intros [_ ?]; by exists ∅|]. intros []. by exists (cbTouched cb). Qed.

(** The writes [ws] went through the sink. *)
Record wrote (s : Store) (sink : metaSink) (s' : Store) (sink' : metaSink) (ws : list write) : Prop := {
  wr_kind : batched sink' = batched sink;
  wr_ok : sink_ok s' sink';
  wr_grows : grows s s';
  wr_view : forall k, sview s' sink' k = writesAt ws k (sview s sink k) }.

Lemma sview_quiet s s' sink k : quiet s s' -> sview s' sink k = sview s sink k.
Proof. intros Hq. destruct sink; simpl; [by rewrite (proj2 Hq)|by apply vget_quiet]. Qed.

Lemma sink_ok_quiet s s' sink : quiet s s' -> phys_ok s' -> sink_ok s sink -> sink_ok s' sink.
Proof. intros Hq Hp. destruct sink as [|cb]; [intros Hs; by eapply store_ok_quiet|by apply batch_ok_quiet]. Qed.

Lemma wrote_quiet s s' sink : quiet s s' -> phys_ok s' -> sink_ok s sink -> wrote s sink s' sink [].
Proof.
  intros Hq Hp Ho. split; [done|by eapply sink_ok_quiet|apply Hq|]. intros k. by apply sview_quiet.
Qed.

Lemma wrote_same s s' sink : same s s' -> sink_ok s sink -> wrote s sink s' sink [].
Proof.
  intros Hs Ho. apply wrote_quiet; [by apply quiet_env| |done].
  apply (env_inv s s' Hs). by apply sink_ok_store in Ho as [? _].
Qed.

Lemma wrote_trans s sink s1 sink1 s2 sink2 ws1 ws2 :
  wrote s sink s1 sink1 ws1 -> wrote s1 sink1 s2 sink2 ws2 -> wrote s sink s2 sink2 (ws1 ++ ws2).
Proof.
  intros [H1 H2 H3 H4] [K1 K2 K3 K4]. split; [congruence|done|by etrans|]. intros k. by rewrite writesAt_app, K4, H4.
Qed.

Definition meta_key (k : string) : Prop := HasPrefix k "c/" = false /\ HasPrefix k "r/" = false.

Context `{!ExtLaws E}.

Lemma metaWrite_spec s k ov : store_ok s -> meta_key k -> (forall v, ov = Some v -> typed k v = true) ->
  let w := match ov with Some v => WSet k v | None => WDel k end in
  runs (metaApply [w]) s store_ok extends
    (fun _ s' => grows s s' /\ forall k', dbGet (db s') k' = writesAt [w] k' (dbGet (db s) k')).
Proof using Type*.
  intros HI [Hc Hr] Hv w. apply metaApply_spec; [done|..].
  - eapply db_ok_ext; [|apply (db_ok_other s (dbGet (db s)) ∅ k ov); [apply HI|done..]]. intros k'. unfold upd. by destruct ov.
  - intros h v Hh. unfold w. destruct ov; simpl; (case_bool_decide as Hk; [|done]); subst k;
      by rewrite HasPrefix_chunk in Hc.
Qed.

Lemma sinkWrite_spec s sink k ov : sink_ok s sink -> meta_key k -> (forall v, ov = Some v -> typed k v = true) ->
  runs (match ov with Some v => sinkSet sink k v | None => sinkDelete sink k end) s store_ok (srel (batched sink))
    (fun sink' s' => wrote s sink s' sink' [match ov with Some v => WSet k v | None => WDel k end]).
Proof using Type*.
  intros Ho Hk Hv. destruct sink as [|cb].
  - pose proof (metaWrite_spec s k ov Ho Hk Hv) as H. cbv zeta in H.
    destruct ov; simpl; (eapply runs_bind; [apply _|eapply runs_mono; [exact H|..]|]);
      try (intros s' ? ?; split; [done|split; [done|by intros [=]]]);
      try (intros a s' ? ? Hp; exact Hp);
      intros [] s' HI _ [Hg Hw]; (rret; [done|split; [done|done|done|exact Hw]]).
  - destruct Hk as [Hc Hr].
    assert (batch_ok s (match ov with Some v => cbSet k v cb | None => cbDelete k cb end)) as Hb.
    { destruct ov; [|by apply batch_ok_delete]. apply batch_ok_set; [done|done|]. apply db_ok_other; [apply Ho|done..]. }
    pose proof (sink_ok_store _ _ Ho) as HI.
    destruct ov; simpl; (rret; [done|]); (split; [done|done|reflexivity|]); intros k'; simpl;
      [rewrite vget_set|rewrite vget_delete]; unfold upd; by case_bool_decide.
Qed.

Lemma sinkSet_spec s sink k v : sink_ok s sink -> meta_key k -> typed k v = true ->
  runs (sinkSet sink k v) s store_ok (srel (batched sink)) (fun sink' s' => wrote s sink s' sink' [WSet k v]).
Proof using Type*. intros Ho Hk Hv. apply (sinkWrite_spec s sink k (Some v) Ho Hk). by intros ? [= <-]. Qed.

Lemma sinkDelete_spec s sink k : sink_ok s sink -> meta_key k ->
  runs (sinkDelete sink k) s store_ok (srel (batched sink)) (fun sink' s' => wrote s sink s' sink' [WDel k]).
Proof using Type*. intros Ho Hk. by apply (sinkWrite_spec s sink k None Ho Hk). Qed.

End sinks.

(** Concrete keys: outside the content namespaces, and of the document's type. *)
Ltac solve_prefix := apply HasPrefix_spec; eexists; reflexivity.
Ltac solve_key := solve
  [split; reflexivity
  |apply andb_true_iff; split; first [reflexivity|solve_prefix]].

(** ** The change index under writes *)

(** What [recordProjectionChangeTo] writes: the object's previous entry goes,
    the new one is filed under its time and noted as the latest. *)
Definition changeWrites (get : string -> option Value) (digest : ObjectDigest) (t : Time) : list write :=
  if String.eqb digest "" || isZero t then [] else
  let e := MkChange (projectionChangeKey digest t) digest t in
  match get (projectionChangeLatestKey digest) ≫= asChange with
  | Some p => [WDel (pcKey p)]
  | None => []
  end ++ [WSet (pcKey e) (VChange e); WSet (projectionChangeLatestKey digest) (VChange e)].

Lemma pc_meta_key k : HasPrefix k "pc/" = true -> meta_key k.
Proof. rewrite HasPrefix_spec. by intros [r ->]. Qed.

Lemma latest_typed d v : typed (projectionChangeLatestKey d) v = true -> exists e, v = VChange e /\ HasPrefix (pcKey e) "pc/" = true.
Proof. destruct v; try done. unfold typed. rewrite andb_true_iff. intros [_ ?]. eauto. Qed.

Lemma changeWrites_get get get' d t :
  get (projectionChangeLatestKey d) = get' (projectionChangeLatestKey d) -> changeWrites get d t = changeWrites get' d t.
Proof. unfold changeWrites. by intros ->. Qed.

(** They touch nothing but the change index. *)
Lemma changeWrites_other get d t k old : (forall k v, get k = Some v -> typed k v = true) ->
  HasPrefix k "pc" = false -> writesAt (changeWrites get d t) k old = old.
Proof.
  intros Ht Hk. unfold changeWrites. destruct (_ || _); [done|].
  assert (forall k', HasPrefix k' "pc" = true -> bool_decide (k' = k) = false) as Hne
    by (intros k' ?; apply bool_decide_false; intros ->; congruence).
  destruct (get (projectionChangeLatestKey d)) as [v|] eqn:Hv; simpl; [|by rewrite !Hne].
  destruct (latest_typed d v) as (e & -> & [r He]%HasPrefix_spec); [by apply Ht|]. simpl.
  by rewrite !Hne by (rewrite ?He; done).
Qed.

Section writers.
Context {E : Ext} `{!ExtLaws E}.

Lemma recordProjectionChangeTo_spec s sink d t : sink_ok s sink ->
  runs (recordProjectionChangeTo sink d t) s store_ok (srel (batched sink))
    (fun sink' s' => wrote s sink s' sink' (changeWrites (dbGet (db s)) d t)).
Proof using Type*.
  intros Ho. pose proof (sink_ok_store _ _ Ho) as HI. unfold recordProjectionChangeTo, changeWrites.
  destruct (String.eqb d "" || isZero t); [rret; [done|]; by apply wrote_same|].
  rbind.
  { apply (metaGet_spec _ _ _ _ _); [done|]. intros v Hv.
    destruct (latest_typed d v) as (e & -> & _); [by eapply do_typed, Hv; apply HI|by eexists]. }
  intros prev s1 HI1 HR1 [Hs1 ->]. pose proof (wrote_same _ _ _ Hs1 Ho) as Hw1.
  set (prev := dbGet (db s) (projectionChangeLatestKey d) ≫= asChange).
  rbind.
  { instantiate (1 := fun sink' s' => wrote s sink s' sink' (match prev with Some p => [WDel (pcKey p)] | None => [] end)).
    destruct prev as [p|] eqn:Hp; [|by rret].
    assert (HasPrefix (pcKey p) "pc/" = true) as Hpc.
    { unfold prev in Hp. destruct (dbGet (db s) _) as [v|] eqn:Hv; [|done].
      destruct (latest_typed d v) as (e & -> & ?); [by eapply do_typed, Hv; apply HI|]. simpl in Hp. by simplify_eq. }
    replace (String.eqb (pcKey p) "") with false; [|by destruct (pcKey p)]. cbn [negb].
    eapply runs_post; [apply sinkDelete_spec; [apply Hw1|by apply pc_meta_key]|].
    intros sink2 s2 _ _ Hw2. exact (wrote_trans _ _ _ _ _ _ _ _ Hw1 Hw2). }
  intros sink2 s2 HI2 HR2 Hw2. rewrite <- (wr_kind _ _ _ _ _ Hw2).
  rbind; [apply sinkSet_spec; [apply Hw2|solve_key|solve_key]|]. intros sink3 s3 HI3 HR3 Hw3.
  pose proof (wrote_trans _ _ _ _ _ _ _ _ Hw2 Hw3) as Hw. rewrite <- (wr_kind _ _ _ _ _ Hw3).
  eapply runs_post; [apply sinkSet_spec; [apply Hw3|solve_key|solve_key]|]. intros sink4 s4 _ _ Hw4.
  pose proof (wrote_trans _ _ _ _ _ _ _ _ Hw Hw4) as Hw'. by rewrite <- app_assoc in Hw'.
Qed.

(** The committed entry of a key a batch or an earlier write did not touch. *)
Lemma wrote_committed s sink s' sink' ws k : wrote s sink s' sink' ws -> srel (batched sink) s s' ->
  (forall old, writesAt ws k old = old) -> dbGet (db s') k = dbGet (db s) k.
Proof using Type.
  intros Hw [_ Hq] Hk. destruct sink as [|cb]; [|by rewrite (proj2 (Hq eq_refl))].
  pose proof (wr_view _ _ _ _ _ Hw k) as Hv. rewrite Hk in Hv.
  pose proof (wr_kind _ _ _ _ _ Hw). by destruct sink'.
Qed.

Lemma writeManifestTo_spec s sink d m : sink_ok s sink ->
  runs (writeManifestTo sink d m) s store_ok (srel (batched sink))
    (fun sink' s' => wrote s sink s' sink'
       (WSet (manifestKey d) (VManifest m) :: changeWrites (dbGet (db s)) d (mUpdatedAt m))).
Proof using Type*.
  intros Ho. unfold writeManifestTo. rbind; [apply sinkSet_spec; [done|solve_key|solve_key]|]. intros sink1 s1 HI1 HR1 Hw1.
  rewrite <- (wr_kind _ _ _ _ _ Hw1). eapply runs_post; [apply recordProjectionChangeTo_spec, Hw1|].
  intros sink2 s2 _ _ Hw2. pose proof (wrote_trans _ _ _ _ _ _ _ _ Hw1 Hw2) as Hw. simpl in Hw.
  erewrite changeWrites_get; [exact Hw|]. symmetry. eapply wrote_committed; [exact Hw1|exact HR1|]. done.
Qed.

Lemma writePackedRecoveryTo_spec s sink d r : sink_ok s sink ->
  runs (writePackedRecoveryTo sink d r) s store_ok (srel (batched sink))
    (fun sink' s' => exists t, wrote s sink s' sink' [WSet (recoveryKey d) (VRecovery (MkRecEntry d r t))]).
Proof using Type*.
  intros Ho. pose proof (sink_ok_store _ _ Ho) as HI. unfold writePackedRecoveryTo, ctxErr.
  rbind; [by apply (runs_io _ _)|]. intros [] s1 HI1 HR1 Hs1.
  rbind; [by apply (runs_now _ _)|]. intros t s2 HI2 HR2 [Hs2 _].
  assert (same s s2) as Hs by by etrans. pose proof (wrote_same _ _ _ Hs Ho) as Hw.
  eapply runs_post; [apply sinkSet_spec; [apply Hw|solve_key|solve_key]|]. intros sink' s3 _ _ Hw3. exists t.
  exact (wrote_trans _ _ _ _ _ _ _ _ Hw Hw3).
Qed.

End writers.
