(* ===== verification/ObjectStore.v ===== *)
(** * Objects: [filestore/store.go], [filestore/compound_parent_refresh.go]

    [Put], [PutCompound], [AttachProvenance], [Open], annotations and overlays:
    the public operations that create and change objects.  [lockKey] serializes
    the manifest read-merge-writes that take it, so each is one step on the
    store. *)

From stdpp Require Import options.
From S2P Require Import Prelude GoLib GoText Contracts Lru Chunker Manifest Meta Concrete DictionaryFamily Dictionary ChunkStore SourceIngest Annotations.

Open Scope Z_scope.

Record PutRequest := MkPut {
  prReader : Reader; prMediaType : string; prSourceHint : string; prContentRoles : list string;
  prFacets : list Facet; prProvenance : list Provenance; prRelationships : list Relationship }.

Record CompoundPutRequest := MkCompoundPut {
  cpObjectID : string; cpMediaType : string; cpSourceHint : string; cpContentRoles : list string;
  cpFacets : list Facet; cpProvenance : list Provenance; cpRelationships : list Relationship;
  cpParts : list CompoundPart }.

Definition identityStrategyFileBlake3 : string := "file_blake3".
Definition identityStrategyCompoundStableID : string := "compound_stable_id".
Definition schemaVersion : string := "1".

(** What [Open] hands out: a streaming reader, or the content of an old
    whole-blob file. *)
Inductive ReadCloser := Chunked (r : chunkRecipeReader) | WholeBlob (content : bytes).

Section objects.
Context {E : Ext}.

Definition recoverySidecarForStreamed (digest : ObjectDigest) (size : Z)
    (uncompressedBlake3 uncompressedSHA256 sourceHint : string) (manifest : Manifest) : recoverySidecar :=
  MkRecovery schemaVersion digest (mObjectID manifest) (mIdentityStrategy manifest) (TrimSpace sourceHint)
    (mMediaType manifest) size 0 uncompressedBlake3 uncompressedSHA256 (blake3 []) (sha256 [])
    "zstd" (mCreatedAt manifest) schemaVersion.

Definition recoverySidecarFor (digest : ObjectDigest) (content compressed : bytes) (sourceHint : string)
    (manifest : Manifest) : recoverySidecar :=
  MkRecovery schemaVersion digest (mObjectID manifest) (mIdentityStrategy manifest) (TrimSpace sourceHint)
    (mMediaType manifest) (blen content) (blen compressed) (blake3 content) (sha256 content)
    (blake3 compressed) (sha256 compressed) "zstd" (mCreatedAt manifest) schemaVersion.

(** The stored manifest merged with the incoming one, or the incoming one. *)
Definition mergeWithStored (digest : ObjectDigest) (incoming : Manifest) : M Manifest :=
  r ← try (ReadManifest digest);
  match r with
  | inr existing => t ← now; mret (mergeManifest t existing incoming)
  | inl e => if isNotExist e then mret incoming else fail (ErrWrap "read existing manifest" e)
  end.

(** [Put] up to the commit: everything is buffered in one batch. *)
Definition preparePut (request : PutRequest) : M (ObjectDigest * metaSink) :=
  _ ← ctxErr;
  _ ← check (validateFacets (prFacets request));
  stored ← storeBlobReaderBatched newCommitBatch (prReader request) (prMediaType request) (prContentRoles request);
  let '(digest, uncompressedSHA256, size, cb) := stored in
  t ← now;
  let incoming := baseManifest t digest digest identityStrategyFileBlake3 (prMediaType request) size
    (prContentRoles request) (prFacets request) (prProvenance request) (prRelationships request)
    (MkCompound [] false) in
  manifest ← mergeWithStored digest incoming;
  sink ← wrapErr "write manifest" (writeManifestTo (BatchSink cb) digest manifest);
  sink ← wrapErr "write packed recovery sidecar" (writePackedRecoveryTo sink digest
    (recoverySidecarForStreamed digest size digest uncompressedSHA256 (prSourceHint request) manifest));
  sink ← recordSourceObjectIndexesTo sink digest (prProvenance request);
  mret (digest, sink).

(** [cb.commit()] of the batch behind the sink. *)
Definition commitSink (sink : metaSink) : M unit :=
  match sink with SyncSink => mret tt | BatchSink cb => commit cb end.

Definition Put (request : PutRequest) : M ObjectDigest :=
  p ← preparePut request;
  _ ← wrapErr "commit object" (commitSink p.2);
  mret p.1.

Definition AttachProvenance (digest : ObjectDigest) (provenance : list Provenance) : M bool :=
  _ ← ctxErr;
  _ ← check (validateObjectDigest digest);
  match provenance with
  | [] => fail (ErrMsg "provenance is required")
  | _ =>
      _ ← forM provenance tt (fun _ item => check (validateSourceObjectRef (sourceObjectRefFromProvenance item)));
      manifest ← wrapErr "read provenance target manifest" (ReadManifest digest);
      if negb (provenanceAddsNew (mProvenance manifest) provenance) then mret false else
      t ← now;
      _ ← writeManifest digest (withProvenance (mergeProvenance (mProvenance manifest) provenance) t manifest);
      _ ← recordSourceObjectIndexes digest provenance;
      mret true
  end.

Definition compoundEnvelopeBytes (manifest : Manifest) : bytes :=
  envelopeJSON (mObjectID manifest) (mIdentityStrategy manifest) (mProvenance manifest)
    (cParts (mCompound manifest)).

Definition commitNewObject (cb : commitBatch) (digest : ObjectDigest) (content : bytes) (sourceHint : string)
    (manifest : Manifest) : M metaSink :=
  _ ← ctxErr;
  cb ← wrapErr "store blob content" (storeBlobContentBatched cb digest content (mMediaType manifest)
         (mContentRoles manifest));
  sink ← wrapErr "write manifest" (writeManifestTo (BatchSink cb) digest manifest);
  wrapErr "write packed recovery sidecar" (writePackedRecoveryTo sink digest
    (recoverySidecarFor digest content [] sourceHint manifest)).

Definition writeObject (cb : commitBatch) (digest : ObjectDigest) (content : bytes) (sourceHint : string)
    (incoming : Manifest) : M metaSink :=
  _ ← ctxErr;
  manifest ← mergeWithStored digest incoming;
  blobExists ← wrapErr "check object recipe" (hasRecipe digest);
  if negb blobExists then
    let compound := bool_decide (mIdentityStrategy manifest = identityStrategyCompoundStableID) in
    let content' := if compound then compoundEnvelopeBytes manifest else content in
    let manifest' := if compound then withSize (blen content') manifest else manifest in
    commitNewObject cb digest content' sourceHint manifest'
  else writeManifestTo (BatchSink cb) digest manifest.

Definition compoundDigest (objectID : string) : ObjectDigest :=
  blake3 (String.list_byte_of_string ("compound:" +:+ objectID)).

Definition preparePutCompound (request : CompoundPutRequest) : M (ObjectDigest * list CompoundPart * metaSink) :=
  _ ← ctxErr;
  let objectID := TrimSpace (cpObjectID request) in
  if String.eqb objectID "" then fail (ErrMsg "compound object_id is required") else
  _ ← check (validateFacets (cpFacets request));
  let parts := normalizedParts (cpParts request) in
  _ ← check (validateCompoundParts parts);
  let digest := compoundDigest objectID in
  let relationships := relationshipsWithCompoundParts digest (cpRelationships request) parts in
  let envelope := envelopeJSON objectID identityStrategyCompoundStableID (cpProvenance request) parts in
  t ← now;
  let manifest := baseManifest t digest objectID identityStrategyCompoundStableID
    (firstNonEmpty [cpMediaType request; "application/vnd.gmeow.compound+json"]) (blen envelope)
    (cpContentRoles request) (cpFacets request) (cpProvenance request) relationships (MkCompound parts true) in
  sink ← writeObject newCommitBatch digest envelope (cpSourceHint request) manifest;
  sink ← recordSourceObjectIndexesTo sink digest (cpProvenance request);
  mret (digest, parts, sink).

Definition PutCompound (request : CompoundPutRequest) : M ObjectDigest :=
  p ← preparePutCompound request;
  let '(digest, parts, sink) := p in
  _ ← wrapErr "commit compound object" (commitSink sink);
  _ ← recordCompoundParentIndexes digest parts;
  mret digest.

(** [readZstdFile] of the old [blob.zstd]. *)
Definition readLegacyBlob (digest : ObjectDigest) : M bytes :=
  _ ← io;
  lg ← gets legacy;
  match lgBlobs lg !! digest with
  | None => fail ErrNotExist
  | Some None => fail (ErrMsg "decompress zstd")
  | Some (Some content) => mret content
  end.

Definition Open (digest : ObjectDigest) : M ReadCloser :=
  _ ← ctxErr;
  _ ← check (validateObjectDigest digest);
  r ← try (ReadManifest digest);
  strategy ← match r with
    | inr manifest => mret (mIdentityStrategy manifest)
    | inl e => if isNotExist e then mret EmptyString else fail e
    end;
  let verifyDigest := if bool_decide (strategy = identityStrategyCompoundStableID) then EmptyString else digest in
  reader ← openBlobReader digest verifyDigest;
  match reader with
  | Some reader => mret (Chunked reader)
  | None => content ← readLegacyBlob digest; mret (WholeBlob content)
  end.

(** ** Annotations and overlays *)

Definition isReservedAnnotationKind (kind : string) : bool :=
  oneOf (ToLower kind) ["blob"; "recovery"; "manifest"].

Definition kindChar (c : Ascii.ascii) : bool :=
  isLower c || isUpper c || isDigit c || Ascii.eqb c (byteN 95) || Ascii.eqb c (byteN 45).

Definition analysisAnnotationFilename (analyzerName : string) : GoError + string :=
  let trimmed := TrimSpace analyzerName in
  if String.eqb trimmed "" then inl (ErrMsg "analysis analyzer name is required")
  else inr ("analysis-" +:+ sha256 (String.list_byte_of_string trimmed) +:+ ".json.zst").

Definition annotationFilename (annotation : Annotation) : GoError + string :=
  let trimmed := TrimSpace (aKind annotation) in
  if String.eqb trimmed "" then inl (ErrMsg "annotation kind is required")
  else if isReservedAnnotationKind trimmed then inl (ErrMsg "annotation kind is reserved")
  else if negb (forallb kindChar (str_bytes trimmed)) then inl (ErrMsg "invalid annotation kind")
  else if String.eqb trimmed "analysis" && negb (blank (aAnalyzerName annotation))
  then analysisAnnotationFilename (aAnalyzerName annotation)
  else inr (trimmed +:+ ".json.zst").

Definition HasAnalysisAnnotation (digest : ObjectDigest) (analyzerName analyzerVersion : string) : M bool :=
  _ ← ctxErr;
  _ ← check (validateObjectDigest digest);
  if blank analyzerName then fail (ErrMsg "analysis analyzer name is required") else
  a ← readPackedAnnotation digest "analysis" analyzerName;
  mret (match a with
    | None => false
    | Some a => String.eqb (aKind a) "analysis" && String.eqb (aAnalyzerName a) analyzerName &&
                String.eqb (aAnalyzerVer a) analyzerVersion && analysisAnnotationSatisfied a
    end).

Definition readObjectAnnotations (digest : ObjectDigest) : M (list Annotation) :=
  wrapErr "read annotations" (readPackedAnnotations digest).

(** [m[k] = v] on a decoded JSON object. *)
Definition amapSet (k : string) (v : Any) (m : list (string * Any)) : list (string * Any) :=
  base.filter (fun p => p.1 <> k) m ++ [(k, v)].

Definition annotationSummary (annotation : Annotation) : Any :=
  AMap [("analyzer_name", AStr (aAnalyzerName annotation));
        ("analyzer_version", AStr (aAnalyzerVer annotation));
        ("generated_at", ATime (aGeneratedAt annotation));
        ("status", AStr (firstNonEmpty [stringFromAny (aData annotation !! "status"); "complete"]))].

Definition refreshIndexedParentForSubobject (parentDigest childDigest : ObjectDigest) (summaries : list Any) : M unit :=
  readManifestOr parentDigest tt (fun manifest =>
    if negb (manifestContainsPart manifest childDigest) then mret tt else
    let partAnalysis := match mAnalysis manifest !! "part_analysis" with Some (AMap m) => m | _ => [] end in
    refreshedAt ← now;
    let partAnalysis := amapSet childDigest
      (AMap [("refreshed_at", ATime refreshedAt); ("annotations", AList summaries)]) partAnalysis in
    updatedAt ← now;
    writeManifest parentDigest
      (withAnalysis (<["part_analysis" := AMap partAnalysis]> (mAnalysis manifest)) updatedAt manifest)).

Definition refreshIndexedParentsForSubobject (childDigest : ObjectDigest) : M unit :=
  parents ← compoundParentsForChild childDigest;
  match parents with
  | [] => mret tt
  | _ =>
      childAnnotations ← readObjectAnnotations childDigest;
      let summaries := map annotationSummary
        (List.filter (fun a => String.eqb (aKind a) "analysis") childAnnotations) in
      match summaries with
      | [] => mret tt
      | _ =>
          _ ← forM parents (∅ : gset string) (fun seen parent =>
            if bool_decide (edParentDigest parent ∈ seen) then mret seen else
            _ ← refreshIndexedParentForSubobject (edParentDigest parent) childDigest summaries;
            mret ({[edParentDigest parent]} ∪ seen));
          mret tt
      end
  end.

(** The fields [WriteAnnotation] fills in. *)
Definition stampAnnotation (t : Time) (a : Annotation) : Annotation :=
  MkAnnotation (if isZero (aGeneratedAt a) then t else aGeneratedAt a) (aData a) (aObjectDigest a)
    (aAnalyzerName a) (aAnalyzerVer a) (aKind a) SchemaVersionPhase00.

Definition WriteAnnotation (annotation : Annotation) : M unit :=
  _ ← ctxErr;
  if blank (aObjectDigest annotation) then fail (ErrMsg "annotation object digest is required") else
  _ ← check (validateObjectDigest (aObjectDigest annotation));
  _ ← wrapErr "read annotation target manifest" (ReadManifest (aObjectDigest annotation));
  _ ← match annotationFilename annotation with inl e => fail e | inr _ => mret tt end;
  t ← (if isZero (aGeneratedAt annotation) then now else mret zeroTime);
  let annotation := stampAnnotation t annotation in
  existing ← wrapErr "read existing annotation"
    (readPackedAnnotation (aObjectDigest annotation) (aKind annotation) (aAnalyzerName annotation));
  let annotation := match existing with Some e => mergeAnnotation e annotation | None => annotation end in
  _ ← writePackedAnnotation annotation;
  if String.eqb (aKind annotation) "analysis"
  then refreshIndexedParentsForSubobject (aObjectDigest annotation) else mret tt.

Definition WriteOverlays (digest : ObjectDigest) (overlays : anyMap) : M unit :=
  _ ← ctxErr;
  _ ← check (validateObjectDigest digest);
  manifest ← wrapErr "read overlay target manifest" (ReadManifest digest);
  t ← now;
  let manifest := withOverlays (mergeMaps (mOverlays manifest) overlays) t manifest in
  _ ← writeManifest digest manifest;
  writePackedAnnotation (MkAnnotation t (mOverlays manifest) digest "" "" "overlays" SchemaVersionPhase00).

End objects.

(** ** Reading the stored manifest *)

Lemma manifest_typed d v : typed (manifestKey d) v = true -> exists m, v = VManifest m.
Proof. destruct v; try done; eauto. Qed.

Section reads.
Context {E : Ext}.

Definition storedManifest (s : Store) (d : ObjectDigest) : option Manifest := dbGet (db s) (manifestKey d) ≫= asManifest.

(** [io] fails only by a fault, and never with [ErrNotExist]. *)
Lemma io_cases s : match io s with
  | (Ok _, s') => same s s'
  | (Err e, s') => same s s' /\ isNotExist e = false /\ faults s <> []
  | (Panic, _) => False
  end.
Proof.
  pose proof (same_io s) as H. unfold io. destruct (faults s) as [|[|e|n e] r]; simpl in *; [reflexivity|done|done|done].
Qed.

Lemma ReadManifest_cases s d : store_ok s -> looksLikeDigest d = true ->
  match ReadManifest d s with
  | (Ok m, s') => same s s' /\ storedManifest s d = Some m
  | (Err e, s') => same s s' /\
      (isNotExist e = true /\ storedManifest s d = None \/ isNotExist e = false /\ faults s <> [])
  | (Panic, _) => False
  end.
Proof.
  intros [_ Hd] Hl. unfold ReadManifest, ctxErr, storedManifest.
  pose proof (io_cases s) as Hio. destruct (io s) as [[[]|e|] s1] eqn:Hi; [|rewrite (bind_err _ _ _ _ _ Hi); tauto|done].
  rewrite (bind_ok _ _ _ _ _ Hi). unfold validateObjectDigest. rewrite Hl. cbn [check].
  destruct (same_eq _ _ Hio) as (Hdb & _). unfold metaGet.
  pose proof (io_cases s1) as Hio1. destruct (io s1) as [[[]|e|] s2] eqn:Hi1; [..|done].
  - unfold mbind, M_bind, mret, M_ret. rewrite Hi1. unfold gets. destruct (same_eq _ _ Hio1) as (Hdb1 & _).
    assert (same s s2) as Hs by by etrans. rewrite Hdb1, Hdb.
    destruct (dbGet (db s) (manifestKey d)) as [v|] eqn:Hv; [|simpl; split; [done|by left]].
    destruct (manifest_typed d v) as [m ->]; [by eapply do_typed|]. done.
  - unfold mbind, M_bind, mret, M_ret. rewrite Hi1. destruct Hio1 as (Hs & He & Hf). split; [by etrans|]. right.
    split; [done|]. intros Hn. apply Hf. by eapply same_faults.
Qed.

(** A lookup whose absence is not an error. *)
Lemma readManifestOr_spec {A} d (absent : A) k s R `{!StoreRel R, !EnvRel R} (P : A -> Store -> Prop) :
  store_ok s -> looksLikeDigest d = true ->
  (forall s', same s s' -> store_ok s' -> storedManifest s d = None -> P absent s') ->
  (forall m s', same s s' -> store_ok s' -> storedManifest s d = Some m -> runs (k m) s' store_ok R P) ->
  runs (readManifestOr d absent k) s store_ok R P.
Proof.
  intros HI Hl Habs Hk. pose proof (ReadManifest_cases s d HI Hl) as Hc.
  unfold runs, readManifestOr, mbind, M_bind, try. destruct (ReadManifest d s) as [[m|e|] s1]; [..|done].
  - destruct Hc as [Hs Hm]. pose proof (env_inv (Inv:=store_ok) _ _ Hs HI) as HI1.
    specialize (Hk m s1 Hs HI1 Hm). unfold runs in Hk. destruct (k m s1) as [[a|e|] s2]; [..|done];
      destruct Hk as (? & ? & H); (split; [done|]; split; [etrans; [by apply env_rel|done]|]); [done|].
    intros Hf. apply H. by eapply same_faults.
  - destruct Hc as [Hs Hc]. pose proof (env_inv (Inv:=store_ok) _ _ Hs HI) as HI1.
    destruct Hc as [[He Hm]|[He Hf]]; rewrite He; simpl; (split; [done|]; split; [by apply env_rel|]); [|done].
    by apply Habs.
Qed.

Lemma mergeWithStored_spec d inc s R `{!StoreRel R, !EnvRel R} : store_ok s -> looksLikeDigest d = true ->
  runs (mergeWithStored d inc) s store_ok R (fun m s' => same s s' /\
    match storedManifest s d with Some ex => exists t, m = mergeManifest t ex inc | None => m = inc end).
Proof.
  intros HI Hl. pose proof (ReadManifest_cases s d HI Hl) as Hc.
  unfold runs, mergeWithStored, mbind, M_bind, try. destruct (ReadManifest d s) as [[m|e|] s1]; [..|done].
  - destruct Hc as [Hs Hm]. pose proof (env_inv (Inv:=store_ok) _ _ Hs HI) as HI1.
    pose proof (runs_now store_ok R s1 HI1) as Ht. unfold runs in Ht.
    destruct (now s1) as [[t|e|] s2] eqn:Hn; [|by unfold now in Hn; destruct (ticks s1)|done].
    destruct Ht as (HI2 & HR2 & Hs2 & _). simpl. split; [done|]. split; [etrans; [by apply env_rel|done]|].
    split; [by etrans|]. rewrite Hm. eauto.
  - destruct Hc as [Hs Hc]. pose proof (env_inv (Inv:=store_ok) _ _ Hs HI) as HI1.
    destruct Hc as [[He Hm]|[He Hf]]; rewrite He; simpl; (split; [done|]; split; [by apply env_rel|]); [|done].
    by rewrite Hm.
Qed.

End reads.

(** ** Source indexes *)

Section indexes.
Context {E : Ext}.

Abbreviation refOf := sourceObjectRefFromProvenance (only parsing).

(** Provenance with all three parts of a source reference gets an index row. *)
Definition indexed (p : Provenance) : bool :=
  negb (String.eqb (rSourceKind (refOf p)) "" || String.eqb (rSourceName (refOf p)) "" ||
        String.eqb (rExternalID (refOf p)) "").

(** A row would be refused: a part is only white space. *)
Definition bad_provenance (l : list Provenance) : Prop :=
  exists p, p ∈ l /\ indexed p = true /\ validateSourceObjectRef (refOf p) <> None.

Record index_writes (digest : ObjectDigest) (l : list Provenance) (ws : list write) : Prop := {
  iw_other : forall k old, HasPrefix k "si/" = false -> HasPrefix k "sa/" = false -> writesAt ws k old = old;
  iw_index : forall p, p ∈ l -> indexed p = true -> exists q t, q ∈ l /\
    sourceObjectRefKey (refOf q) = sourceObjectRefKey (refOf p) /\
    forall old, writesAt ws ("si/" +:+ sourceObjectRefKey (refOf p)) old = Some (VSource (MkSourceIndex (refOf q) digest t)) }.

Lemma index_writes_nil digest : index_writes digest [] [].
Proof. split; [done|]. by intros p ?%elem_of_nil. Qed.

Lemma index_writes_skip digest l ws p : indexed p = false -> index_writes digest l ws -> index_writes digest (l ++ [p]) ws.
Proof.
  intros Hi [H1 H2]. split; [done|]. intros q. rewrite elem_of_app, list_elem_of_singleton.
  intros [Hq| ->] Hqi; [|congruence]. destruct (H2 q Hq Hqi) as (q' & t & ? & ?). exists q', t.
  split; [apply elem_of_app; by left|done].
Qed.

Lemma index_writes_snoc digest l ws p t v : index_writes digest l ws ->
  index_writes digest (l ++ [p]) (ws ++ [WSet ("si/" +:+ sourceObjectRefKey (refOf p)) (VSource (MkSourceIndex (refOf p) digest t));
    WSet ("sa/" +:+ sourceAliasKey (refOf p)) v]).
Proof.
  intros [H1 H2]. split.
  - intros k old Hi Ha. rewrite writesAt_app, H1 by done. simpl. rewrite !bool_decide_false; [done|..].
    + intros <-. by rewrite HasPrefix_app in Hi.
    + intros <-. by rewrite HasPrefix_app in Ha.
  - intros q. rewrite elem_of_app, list_elem_of_singleton. intros Hq Hqi.
    destruct (decide (sourceObjectRefKey (refOf p) = sourceObjectRefKey (refOf q))) as [He|Hne].
    + exists p, t. split; [apply elem_of_app; right; by apply list_elem_of_singleton|]. split; [done|].
      intros old. rewrite writesAt_app. simpl. by rewrite He, bool_decide_true.
    + destruct Hq as [Hq| ->]; [|done]. destruct (H2 q Hq Hqi) as (q' & t' & Hq' & Hk & Hw).
      exists q', t'. split; [apply elem_of_app; by left|]. split; [done|]. intros old. rewrite writesAt_app, Hw. simpl.
      rewrite bool_decide_false; [done|]. intros ?%(str_app_inj_l "si/"). done.
Qed.

Context `{!ExtLaws E}.

Lemma recordSourceObjectIndexesTo_spec s sink digest l : sink_ok s sink -> looksLikeDigest digest = true ->
  runs_unless (bad_provenance l) (recordSourceObjectIndexesTo sink digest l) s store_ok (srel (batched sink))
    (fun sink' s' => exists ws, wrote s sink s' sink' ws /\ index_writes digest l ws).
Proof using Type*.
  intros Ho Hl. pose proof (sink_ok_store _ _ Ho) as HI. unfold recordSourceObjectIndexesTo, ctxErr.
  ubind; [by apply runs_unless_intro, (runs_io _ _)|]. intros [] s1 HI1 HR1 Hs1.
  destruct l as [|p0 l']; [uret; [done|]; exists []; split; [by apply wrote_same|apply index_writes_nil]|].
  set (l := p0 :: l').
  ubind; [apply (unless_check _ _ _ _ _); [done|]; unfold validateObjectDigest; by rewrite Hl|]. intros [] s2 _ _ [-> _].
  ubind; [by apply runs_unless_intro, (runs_now _ _)|]. intros t s3 HI3 HR3 [Hs3 _].
  assert (same s s3) as Hs by by etrans.
  eapply (unless_forM _ l sink _ s3 _ _ (fun done sink' s' =>
    exists ws, wrote s sink s' sink' ws /\ index_writes digest done ws));
    [done|exists []; split; [by apply wrote_same|apply index_writes_nil]|].
  intros done sink' p s4 Hpre HI4 HR4 (ws & Hw & Hiw). cbv zeta. pose proof (wr_kind _ _ _ _ _ Hw) as Hb.
  match goal with |- context [if ?c then _ else _] => destruct c eqn:Hc end.
  { uret; [done|]. exists ws. split; [done|]. apply index_writes_skip; [|done]. unfold indexed. by rewrite Hc. }
  ubind. { apply (unless_check _ _ _ _ _); [done|]. intros Hv. exists p. split; [|split; [|exact Hv]].
    - destruct Hpre as [r ->]. rewrite !elem_of_app, list_elem_of_singleton. by left; right.
    - unfold indexed. by rewrite Hc. }
  intros [] s5 _ _ [-> _]. apply runs_unless_intro. unfold writePackedSourceObjectIndexTo, writePackedSourceAliasTo, ctxErr.
  rewrite <- Hb. apply runs_assoc. rbind; [by apply (runs_io _ _)|]. intros [] s5 HI5 HR5 Hs5.
  pose proof (wrote_trans _ _ _ _ _ _ _ _ Hw (wrote_same _ _ _ Hs5 (wr_ok _ _ _ _ _ Hw))) as Hw5.
  rbind; [apply sinkSet_spec; [apply Hw5|solve_key|solve_key]|]. intros sink6 s6 HI6 HR6 Hw6.
  pose proof (wrote_trans _ _ _ _ _ _ _ _ Hw5 Hw6) as Hw6'.
  rbind; [by apply (runs_io _ _)|]. intros [] s7 HI7 HR7 Hs7.
  rbind; [by apply (runs_now _ _)|]. intros t' s8 HI8 HR8 [Hs8 _]. assert (same s6 s8) as Hs68 by by etrans.
  pose proof (wrote_trans _ _ _ _ _ _ _ _ Hw6' (wrote_same _ _ _ Hs68 (wr_ok _ _ _ _ _ Hw6))) as Hw8.
  rewrite <- (wr_kind _ _ _ _ _ Hw6).
  eapply runs_post; [apply sinkSet_spec; [apply Hw8|solve_key|solve_key]|]. intros sink9 s9 _ _ Hw9.
  pose proof (wrote_trans _ _ _ _ _ _ _ _ Hw8 Hw9) as Hw9'.
  eexists. split; [exact Hw9'|]. rewrite !app_nil_r, <- app_assoc. by apply index_writes_snoc.
Qed.

End indexes.

(** ** Putting an object *)

Section put.
Context {E : Ext}.

(** What a fresh object's manifest says. *)
Definition putManifest (t : Time) (request : PutRequest) (content : bytes) : Manifest :=
  baseManifest t (blake3 content) (blake3 content) identityStrategyFileBlake3 (prMediaType request) (blen content)
    (prContentRoles request) (prFacets request) (prProvenance request) (prRelationships request) (MkCompound [] false).

(** The stored manifest, or its merge with the one that was there. *)
Definition merged_manifest (s : Store) (d : ObjectDigest) (inc m : Manifest) : Prop :=
  match storedManifest s d with Some ex => exists t, m = mergeManifest t ex inc | None => m = inc end.

Definition bad_put (request : PutRequest) : Prop :=
  validateFacets (prFacets request) <> None \/ firstErr (script (prReader request)) <> None \/
  bad_provenance (prProvenance request).

(** The metadata [get'] is that of [s] with the object of [request] added. *)
Definition put_view (s : Store) (request : PutRequest) (s' : Store) (get' : string -> option Value) : Prop :=
  let content := delivered (script (prReader request)) in
  let d := blake3 content in
  exists get1 t m rt iws,
    stored_object s (dbGet (db s)) s' get1 d content /\
    merged_manifest s d (putManifest t request content) m /\
    index_writes d (prProvenance request) iws /\
    forall k, get' k = writesAt (WSet (manifestKey d) (VManifest m) :: changeWrites (dbGet (db s)) d (mUpdatedAt m) ++
      WSet (recoveryKey d) (VRecovery (MkRecEntry d (recoverySidecarForStreamed d (blen content) d (sha256 content)
        (prSourceHint request) m) rt)) :: iws) k (get1 k).

(** The writes besides the content leave it alone. *)
Lemma put_writes_other get d t m v iws l k old : (forall k v, get k = Some v -> typed k v = true) ->
  index_writes d l iws -> HasPrefix k "pc" = false -> HasPrefix k "si/" = false -> HasPrefix k "sa/" = false ->
  k <> recoveryKey d ->
  writesAt (WSet (manifestKey d) m :: changeWrites get d t ++ WSet (recoveryKey d) v :: iws) k old =
  if bool_decide (manifestKey d = k) then Some m else old.
Proof.
  intros Ht Hiw Hpc Hsi Hsa Hne. cbn [writesAt]. rewrite writesAt_app, changeWrites_other by done.
  cbn [writesAt]. rewrite (iw_other _ _ _ Hiw) by done. by rewrite (bool_decide_false (recoveryKey d = k)).
Qed.

Lemma put_writes_chunk get d t m v iws l h old : (forall k v, get k = Some v -> typed k v = true) ->
  index_writes d l iws ->
  writesAt (WSet (manifestKey d) m :: changeWrites get d t ++ WSet (recoveryKey d) v :: iws) (chunkIndexKey h) old = old.
Proof. intros Ht Hiw. by rewrite (put_writes_other _ _ _ _ _ _ l). Qed.

Lemma stored_object_grows s get s1 s2 get1 get2 d c t : stored_object s get s1 get1 d c ->
  grows s1 s2 -> db_ok s1 get1 t -> (forall k, get2 k = get1 k) -> stored_object s get s2 get2 d c.
Proof.
  intros [H1 H2 H3 H4 H5] Hg Hd Hk. split.
  - intros h v Hv. rewrite Hk. by apply H1.
  - intros k Hc Hne. rewrite Hk. by apply H2.
  - intros h x (e & He & Hx). rewrite Hk in He. apply H3. exists e. split; [done|].
    destruct (do_chunks _ _ _ Hd h e He) as (_ & [c0 Hc0] & _).
    by rewrite <- (entry_at_fun s2 e c0 x); [|eapply entry_at_grows|].
  - destruct H4 as (t' & cs & Hcs & Hr). exists t', cs. split; [done|]. by rewrite Hk.
  - intros e. rewrite Hk. apply H5.
Qed.

Lemma stored_object_same s s1 s' get' d c : same s s1 ->
  stored_object s1 (dbGet (db s1)) s' get' d c -> stored_object s (dbGet (db s)) s' get' d c.
Proof.
  intros Hs [H1 H2 H3 H4 H5]. destruct (same_eq _ _ Hs) as (Hd & Hp & _ & _ & Hx & _). rewrite Hd in *.
  split; [done|done| |done|intros e He; etrans; [apply Hs|by apply H5]]. intros h x Hh. destruct (H3 h x Hh) as [(e & He & Hat)|?]; [left|by right].
  exists e. split; [done|]. unfold entry_at in *. by rewrite Hp, Hx in Hat.
Qed.

Context `{!ExtLaws E}.

Lemma unless_wrap {A} Bad msg (m : M A) s Inv R P : runs_unless Bad m s Inv R P -> runs_unless Bad (wrapErr msg m) s Inv R P.
Proof using Type. unfold runs_unless, wrapErr. by destruct (m s) as [[a|e|] s']. Qed.

Lemma runs_batch {A} (m : M A) s P : store_ok s -> runs m s phys_ok quiet P -> runs m s store_ok (srel true) P.
Proof using Type.
  intros HI H. eapply runs_mono; [exact H| |done]. intros s' Hp Hq. split; [by eapply store_ok_quiet|by apply srel_quiet].
Qed.

Lemma preparePut_spec s request : store_ok s ->
  runs_unless (bad_put request) (preparePut request) s store_ok (srel true) (fun r s' =>
    r.1 = blake3 (delivered (script (prReader request))) /\
    exists cb, r.2 = BatchSink cb /\ batch_ok s' cb /\ put_view s request s' (vget s' cb)).
Proof using Type*.
  intros HI. set (content := delivered (script (prReader request))). unfold preparePut, ctxErr.
  ubind; [by apply runs_unless_intro, (runs_io _ _)|]. intros [] s1 HI1 HR1 Hs1.
  ubind; [apply (unless_check _ _ _ _ _); [done|by left]|]. intros [] s2 _ _ [-> _].
  ubind.
  { instantiate (1 := fun r s' => r.1 = (blake3 content, sha256 content, blen content) /\ batch_ok s' r.2 /\
      stored_object s1 (vget s1 newCommitBatch) s' (vget s' r.2) (blake3 content) content).
    pose proof (newCommitBatch_ok s1 HI1) as Hb.
    destruct (firstErr (script (prReader request))) as [e|] eqn:He.
    - destruct (storeBlobReaderBatched_failed s1 _ _ (prMediaType request) (prContentRoles request) e Hb He)
        as (e' & s' & Hrun & HI' & Hq). unfold runs_unless. rewrite Hrun. split; [done|]. split; [by apply srel_quiet|].
      right. right. left. by rewrite He.
    - apply runs_unless_intro, runs_batch; [done|]. by apply storeBlobReaderBatched_spec. }
  intros [[[d sha] size] cb] s3 HI3 HR3 (Heq & Hb3 & Hst). cbn [fst snd] in *. injection Heq as -> -> ->. cbv beta iota.
  ubind; [by apply runs_unless_intro, (runs_now _ _)|]. intros t s4 HI4 HR4 [Hs4 _].
  pose proof (blake3_digest content) as Hdig.
  ubind; [apply runs_unless_intro, (mergeWithStored_spec _ _ _ _); done|]. intros m s5 HI5 HR5 [Hs5 Hm].
  assert (same s3 s5) as Hs35 by by etrans. pose proof (wrote_same _ _ (BatchSink cb) Hs35 Hb3) as Hw5.
  assert (forall k, dbGet (db s5) k = dbGet (db s) k) as Hdb.
  { intros k. assert (srel true s s5) as [_ Hq] by (repeat (etrans; [eassumption|]); reflexivity).
    by rewrite (proj2 (Hq eq_refl)). }
  ubind; [apply unless_wrap, runs_unless_intro, (writeManifestTo_spec s5 (BatchSink cb)), Hw5|].
  intros sink6 s6 HI6 HR6 Hw6. pose proof (wrote_trans _ _ _ _ _ _ _ _ Hw5 Hw6) as Hw56.
  pose proof (wr_kind _ _ _ _ _ Hw56) as Hk6. simpl in Hk6.
  ubind; [apply unless_wrap, runs_unless_intro; rewrite <- Hk6; apply writePackedRecoveryTo_spec, Hw6|].
  intros sink7 s7 HI7 HR7 [rt Hw7]. pose proof (wrote_trans _ _ _ _ _ _ _ _ Hw56 Hw7) as Hw57.
  pose proof (wr_kind _ _ _ _ _ Hw57) as Hk7. simpl in Hk7.
  ubind.
  { rewrite <- Hk7. unfold runs_unless.
    pose proof (recordSourceObjectIndexesTo_spec s7 sink7 (blake3 content) (prProvenance request) (wr_ok _ _ _ _ _ Hw7) Hdig) as H.
    unfold runs_unless in H. destruct (recordSourceObjectIndexesTo _ _ _ s7) as [[a|e|] s8]; [exact H| |done].
    destruct H as (? & ? & [?|?]); (split; [done|split; [done|]]); [by left|right; right; by right]. }
  intros sink8 s8 HI8 HR8 (iws & Hw8 & Hiw). pose proof (wrote_trans _ _ _ _ _ _ _ _ Hw57 Hw8) as Hw.
  uret; [done|]. split; [done|]. cbn [snd]. pose proof (wr_kind _ _ _ _ _ Hw) as Hk. destruct sink8 as [|cb8]; [done|].
  exists cb8. split; [done|]. split; [apply Hw|].
  exists (vget s3 cb), t, m, rt, iws. split_and!; [..|done|].
  - eapply stored_object_grows; [by eapply stored_object_same|apply Hw|apply Hb3|done].
  - unfold merged_manifest, storedManifest in *. assert (db s4 = db s5) as Hd by by destruct (same_eq _ _ Hs5).
    rewrite Hd, Hdb in Hm. exact Hm.
  - intros k. pose proof (wr_view _ _ _ _ _ Hw k) as Hv. simpl in Hv. rewrite Hv, <- app_assoc. simpl.
    by rewrite (changeWrites_get (dbGet (db s5)) (dbGet (db s))).
Qed.


(** The last step: packs are synced, then the batch applies as a whole. *)
Lemma commit_atomic s cb : batch_ok s cb ->
  match commit cb s with
  | (Ok _, s') => store_ok s' /\ extends s s' /\ grows s s' /\ forall k, dbGet (db s') k = vget s cb k
  | (Err _, s') => store_ok s' /\ quiet s s' /\ faults s <> []
  | (Panic, _) => False
  end.
Proof using Type*.
  intros Hb. pose proof (commit_spec s cb Hb) as H. unfold runs in H.
  destruct (commit cb s) as [[[]|e|] s'] eqn:Hc; [tauto| |done]. destruct H as (HI & _ & Hf). split; [done|].
  split; [|done]. unfold commit in Hc. destruct (bo_store _ _ Hb) as [Hp Hd].
  pose proof (syncTouchedPacks_spec s (cbTouched cb) Hp (bo_touched _ _ Hb)) as Hsy. unfold runs in Hsy.
  destruct (syncTouchedPacks (cbTouched cb) s) as [[[]|e1|] s1] eqn:Hs; [|rewrite (bind_err _ _ _ _ _ Hs) in Hc|done].
  - rewrite (bind_ok _ _ _ _ _ Hs) in Hc. unfold metaApply in Hc. pose proof (io_cases s1) as Hio.
    destruct (io s1) as [[[]|e1|] s2] eqn:Hi; [by rewrite (bind_ok _ _ _ _ _ Hi) in Hc| |done].
    rewrite (bind_err _ _ _ _ _ Hi) in Hc. injection Hc as _ <-. destruct Hsy as (_ & Hq & _).
    etrans; [exact Hq|]. apply quiet_env. tauto.
  - injection Hc as _ <-. tauto.
Qed.

Lemma put_outcome s request : store_ok s ->
  match Put request s with
  | (Ok d, s') => store_ok s' /\ grows s s' /\ d = blake3 (delivered (script (prReader request))) /\
      put_view s request s' (dbGet (db s'))
  | (Err _, s') => store_ok s' /\ quiet s s' /\ (faults s <> [] \/ bad_put request)
  | (Panic, _) => False
  end.
Proof using Type*.
  intros HI. pose proof (preparePut_spec s request HI) as H. unfold runs_unless in H.
  unfold Put, mbind, M_bind, wrapErr, mret, M_ret. destruct (preparePut request s) as [[[d sink]|e|] s1]; [..|done].
  - destruct H as (HI1 & [_ Hq] & Hd & cb & Hcb & Hb & Hv). specialize (Hq eq_refl). cbn [fst snd] in *. subst d sink.
    cbn [commitSink]. pose proof (commit_atomic s1 cb Hb) as Hc. destruct (commit cb s1) as [[[]|e|] s2]; [..|done].
    + destruct Hc as (HI2 & _ & Hg & Hk). split; [done|]. split; [etrans; [apply Hq|done]|]. split; [done|].
      destruct Hv as (get1 & t & m & rt & iws & Hst & Hm & Hi & Hw). exists (get1), t, m, rt, iws.
      split_and!; [|done|done|intros k; by rewrite Hk, Hw].
      destruct Hst as [K1 K2 K3 K4 K5]. split; [done|done| |done|done]. intros h c (e & He & Hat). apply K3. exists e. split; [done|].
      assert (vget s1 cb (chunkIndexKey h) = Some (VChunk e)) as Hve.
      { rewrite Hw, (put_writes_chunk _ _ _ _ _ _ (prProvenance request)); [exact He|apply (do_typed _ _ _ (proj2 HI))|done]. }
      destruct (do_chunks _ _ _ (bo_view _ _ Hb) h e Hve) as (_ & [c0 Hc0] & _).
      by rewrite <- (entry_at_fun s2 e c0 c); [|eapply entry_at_grows|].
    + destruct Hc as (HI2 & Hq2 & Hf). split; [done|]. split; [by etrans|]. left. intros Hn. apply Hf.
      by apply (gr_faults _ _ (proj1 Hq)).
  - destruct H as (HI1 & [_ Hq] & Hbad). auto.
Qed.

End put.


(** C4: [Put] is atomic.  From any consistent store, with any I/O faults, any
    request and a reader that may fail, it either returns an error, and then no
    metadata changed at all, or it returns the content's BLAKE3 digest, and then
    the manifest (merged with the one that was there) and the recipe of the
    object are there, no chunk entry and no other manifest or recipe changed.
    Without faults, an error means that the request was invalid.  The store is
    consistent in every case. *)
Theorem put_atomic {E : Ext} `{!ExtLaws E} (s : Store) (request : PutRequest) :
  store_ok s ->
  let content := delivered (script (prReader request)) in
  let d := blake3 content in
  match Put request s with
  | (Ok r, s') => store_ok s' /\ r = d /\
      (exists t m, dbGet (db s') (manifestKey d) = Some (VManifest m) /\
         merged_manifest s d (putManifest t request content) m) /\
      (exists t cs, chunkContent content = Some cs /\
         dbGet (db s') (objectRecipeKey d) = Some (VRecipe (MkRecipe t d (map blake3 cs) (blen content)))) /\
      (forall h v, dbGet (db s) (chunkIndexKey h) = Some v -> dbGet (db s') (chunkIndexKey h) = Some v) /\
      (forall d', d' <> d -> dbGet (db s') (manifestKey d') = dbGet (db s) (manifestKey d') /\
         dbGet (db s') (objectRecipeKey d') = dbGet (db s) (objectRecipeKey d'))
  | (Err _, s') => store_ok s' /\ (forall k, dbGet (db s') k = dbGet (db s) k) /\
      (faults s <> [] \/ bad_put request)
  | (Panic, _) => False
  end.
Proof.
  intros HI content d. pose proof (put_outcome s request HI) as H.
  destruct (Put request s) as [[r|e|] s']; [..|done].
  - destruct H as (HI' & _ & Hr & get1 & t & m & rt & iws & Hst & Hm & Hiw & Hk).
    fold content in Hr, Hst, Hm, Hiw, Hk. fold d in Hr, Hst, Hm, Hiw, Hk.
    pose proof (do_typed _ _ _ (proj2 HI)) as Hty.
    split; [done|]. split; [done|]. split_and!.
    + exists t, m. split; [|done]. rewrite Hk, (put_writes_other _ _ _ _ _ _ (prProvenance request)) by done.
      by rewrite bool_decide_true.
    + destruct (st_recipe _ _ _ _ _ _ Hst) as (t' & cs & Hcs & Hrec). exists t', cs. split; [done|].
      by rewrite Hk, (put_writes_other _ _ _ _ _ _ (prProvenance request)).
    + intros h v Hv. rewrite Hk, (put_writes_chunk _ _ _ _ _ _ (prProvenance request)) by done.
      by apply (st_keep _ _ _ _ _ _ Hst).
    + intros d' Hne. rewrite !Hk, !(put_writes_other _ _ _ _ _ _ (prProvenance request)) by done.
      rewrite bool_decide_false by (intros ?%(str_app_inj_l "m/"); done).
      split; apply (st_other _ _ _ _ _ _ Hst); try done. intros ?%(str_app_inj_l "r/"). done.
  - destruct H as (HI' & [_ Hd] & Hbad). rewrite Hd. done.
Qed.

(** ** Opening an object *)

Section opening.
Context {E : Ext}.

Lemma io_nil s : faults s = [] -> io s = (Ok tt, s).
Proof. intros Hf. unfold io. by rewrite Hf. Qed.

Lemma ReadManifest_ok s d m : store_ok s -> faults s = [] -> looksLikeDigest d = true -> storedManifest s d = Some m ->
  exists s', ReadManifest d s = (Ok m, s') /\ same s s'.
Proof.
  intros HI Hf Hl Hm. pose proof (ReadManifest_cases s d HI Hl) as H.
  destruct (ReadManifest d s) as [[m'|e|] s']; [|by destruct H as [_ [[_ ?]|[_ ?]]]; congruence|done].
  destruct H as [Hs Hm']. exists s'. split; [congruence|done].
Qed.

Lemma Open_chunked s d e m : store_ok s -> faults s = [] -> looksLikeDigest d = true -> storedManifest s d = Some m ->
  dbGet (db s) (objectRecipeKey d) = Some (VRecipe e) ->
  exists vd r s1 s2, Open d s = (Ok (Chunked r), s2) /\ same s s1 /\ (vd = EmptyString \/ vd = d) /\
    openBlobReader d vd s1 = (Ok (Some r), s2).
Proof.
  intros HI Hf Hl Hm He. destruct (ReadManifest_ok s d m HI Hf Hl Hm) as (s1 & Hr & Hs).
  unfold Open, ctxErr. rewrite (bind_ok _ _ _ _ _ (io_nil s Hf)). unfold validateObjectDigest. rewrite Hl. cbn [check].
  unfold mbind, M_bind, try, mret, M_ret. rewrite Hr.
  set (vd := if bool_decide (mIdentityStrategy m = identityStrategyCompoundStableID) then EmptyString else d).
  assert (faults s1 = []) as Hf1 by by eapply same_faults. destruct (same_eq _ _ Hs) as (Hd & _).
  assert (openBlobReader d vd s1 = (Ok (Some (MkCRR [] [] (reChunkHashes e) vd 0 false)), s1)) as Ho.
  { unfold openBlobReader, readRecipe, metaGet, mbind, M_bind, gets. rewrite (io_nil s1 Hf1), Hd, He. reflexivity. }
  eexists vd, _, s1, s1. rewrite Ho. split; [reflexivity|]. split; [done|]. split; [|done].
  unfold vd. case_bool_decide; auto.
Qed.

Lemma same_collision_free s s' cs : same s s' -> collision_free s cs -> collision_free s' cs.
Proof.
  intros Hs Hc c c' Hin Hb Hk. apply Hc; [done|done|]. destruct Hk as [Hk|?]; [left|by right].
  destruct (same_eq _ _ Hs) as (Hd & Hp & _ & _ & Hx & Hcc). unfold known, holds, entry_at in *. by rewrite Hd, Hp, Hx, Hcc in Hk.
Qed.

(** A stored object as its readers find it. *)
Record put_done (s : Store) (request : PutRequest) (content : bytes) (s1 : Store) : Prop := {
  pd_ok : store_ok s1;
  pd_faults : faults s = [] -> faults s1 = [];
  pd_chunks : forall h c, holds s (dbGet (db s)) h c -> holds s1 (dbGet (db s1)) h c;
  pd_grows : grows s s1;
  pd_manifest : exists t m, storedManifest s1 (blake3 content) = Some m /\
    merged_manifest s (blake3 content) (putManifest t request content) m;
  pd_recipe : exists t cs, chunkContent content = Some cs /\
    dbGet (db s1) (objectRecipeKey (blake3 content)) = Some (VRecipe (MkRecipe t (blake3 content) (map blake3 cs) (blen content)));
  pd_new : forall h c, holds s1 (dbGet (db s1)) h c -> holds s (dbGet (db s)) h c \/
    exists cs, chunkContent content = Some cs /\ c ∈ cs /\ h = blake3 c;
  pd_index : forall p, p ∈ prProvenance request -> indexed p = true -> exists q t, q ∈ prProvenance request /\
    sourceObjectRefKey (sourceObjectRefFromProvenance q) = sourceObjectRefKey (sourceObjectRefFromProvenance p) /\
    dbGet (db s1) ("si/" +:+ sourceObjectRefKey (sourceObjectRefFromProvenance p)) =
      Some (VSource (MkSourceIndex (sourceObjectRefFromProvenance q) (blake3 content) t)) }.

Lemma put_ok_done `{!ExtLaws E} s request d s1 : store_ok s -> Put request s = (Ok d, s1) ->
  let content := delivered (script (prReader request)) in d = blake3 content /\ put_done s request content s1.
Proof.
  intros HI Hput content. pose proof (put_outcome s request HI) as H. rewrite Hput in H.
  destruct H as (HI1 & Hg & -> & get1 & t & m & rt & iws & Hst & Hm & Hiw & Hk). fold content in Hst, Hm, Hiw, Hk.
  pose proof (do_typed _ _ _ (proj2 HI)) as Hty. split; [done|]. split.
  - done.
  - apply (gr_faults _ _ Hg).
  - intros h c (e & He & Hat). exists e. split; [|by eapply entry_at_grows].
    rewrite Hk, (put_writes_chunk _ _ _ _ _ _ (prProvenance request)) by done. by apply (st_keep _ _ _ _ _ _ Hst).
  - done.
  - exists t, m. split; [|done]. unfold storedManifest.
    rewrite Hk, (put_writes_other _ _ _ _ _ _ (prProvenance request)) by done. by rewrite bool_decide_true.
  - destruct (st_recipe _ _ _ _ _ _ Hst) as (tr & cs & Hcs & Hrec). exists tr, cs. split; [done|].
    by rewrite Hk, (put_writes_other _ _ _ _ _ _ (prProvenance request)).
  - intros h c (e & He & Hat). apply (st_new _ _ _ _ _ _ Hst). exists e. split; [|done].
    by rewrite Hk, (put_writes_chunk _ _ _ _ _ _ (prProvenance request)) in He.
  - intros p Hp Hi. destruct (iw_index _ _ _ Hiw p Hp Hi) as (q & t' & Hq & Hkey & Hw). exists q, t'.
    split; [done|]. split; [done|]. rewrite Hk. cbn [writesAt]. rewrite writesAt_app. cbn [writesAt]. apply Hw.
Qed.

Lemma put_succeeds `{!ExtLaws E} s request : store_ok s -> faults s = [] -> ~ bad_put request ->
  let content := delivered (script (prReader request)) in
  exists s1, Put request s = (Ok (blake3 content), s1) /\ put_done s request content s1.
Proof.
  intros HI Hf Hok content. pose proof (put_outcome s request HI) as H.
  destruct (Put request s) as [[d|e|] s1] eqn:Hput; [|by destruct H as (_ & _ & [?|?])|done].
  destruct (put_ok_done _ _ _ _ HI Hput) as [-> Hd]. by exists s1.
Qed.

(** An object with a manifest and a recipe is delivered whole. *)
Lemma open_delivers `{!ExtLaws E} s content m t cs sizes : store_ok s -> faults s = [] ->
  storedManifest s (blake3 content) = Some m -> chunkContent content = Some cs ->
  dbGet (db s) (objectRecipeKey (blake3 content)) = Some (VRecipe (MkRecipe t (blake3 content) (map blake3 cs) (blen content))) ->
  collision_free s cs -> Forall (fun n => (0 < n)%nat) sizes -> (length content < length sizes)%nat ->
  exists r s1 s2, Open (blake3 content) s = (Ok (Chunked r), s1) /\ crReadAll sizes r [] s1 = (Ok (content, EOF), s2).
Proof.
  intros HI Hf Hm Hcs He Hc Hpos Hlen.
  destruct (Open_chunked s (blake3 content) _ m HI Hf (blake3_digest content) Hm He) as (vd & r & s' & s1 & Ho & Hs1 & Hvd & Hob).
  destruct (chunks_concat content) as (cs' & Hcs' & Hcat). assert (cs' = cs) as -> by congruence.
  assert (exists s2, crReadAll sizes r [] s1 = (Ok (concat cs, EOF), s2)) as [s2 Hr].
  { destruct (same_eq _ _ Hs1) as (Hd & _). rewrite <- Hd in He.
    apply (opened_complete s' s1 (blake3 content) vd _ r cs sizes) with (3 := He); try done.
    - by apply (env_inv s).
    - by apply (same_faults _ _ Hs1).
    - by apply (same_collision_free s s' cs Hs1).
    - rewrite Hcat. destruct Hvd as [->| ->]; auto.
    - by rewrite Hcat. }
  rewrite Hcat in Hr. by exists r, s1, s2.
Qed.

End opening.

(** C3: what was put can be read back.  From a consistent store without faults,
    a valid request whose stream can be read is stored under its content's
    digest, [Open] of that digest returns a streaming reader, and reading it to
    the end with any sequence of non-empty buffers gives exactly the content. *)
Theorem put_open_roundtrip {E : Ext} `{!ExtLaws E} (s : Store) (request : PutRequest) (sizes : list nat) :
  let content := delivered (script (prReader request)) in
  store_ok s -> faults s = [] -> ~ bad_put request ->
  (forall cs, chunkContent content = Some cs -> collision_free s cs) ->
  Forall (fun n => (0 < n)%nat) sizes -> (length content < length sizes)%nat ->
  exists s1 r s2 s3, Put request s = (Ok (blake3 content), s1) /\ Open (blake3 content) s1 = (Ok (Chunked r), s2) /\
    crReadAll sizes r [] s2 = (Ok (content, EOF), s3).
Proof.
  intros content HI Hf Hok Hc Hpos Hlen. destruct (put_succeeds s request HI Hf Hok) as (s1 & Hput & Hp).
  destruct Hp as [HI1 Hf1 _ Hg [t [m [Hm _]]] (tr & cs & Hcs & He) Hnew _]. fold content in Hput, Hm, Hcs, He, Hnew.
  destruct (open_delivers s1 content m tr cs sizes) as (r & s2 & s3 & Ho & Hr); try done; [by apply Hf1| |by exists s1, r, s2, s3].
  by eapply (new_collision_free s s1 content); auto.
Qed.

(** C2: an acknowledged [Put] survives a crash, and a failed one does no harm.
    Whatever I/O steps fail during a put and wherever it stops, when the machine
    then loses power (unsynced bytes of a pack may be lost, the caches are) the
    store is consistent again and serves every chunk it served before the put;
    and if the put had returned a digest, the object's manifest is there and
    [Open] delivers exactly its content, read with any non-empty buffers, if its
    chunks collide under BLAKE3 with none the store has. *)
Theorem put_durable {E : Ext} `{!ExtLaws E} (s s1 s2 : Store) (request : PutRequest) (r : res ObjectDigest) :
  let content := delivered (script (prReader request)) in
  store_ok s -> Put request s = (r, s1) -> crash s1 s2 ->
  store_ok s2 /\ (forall h c, holds s (dbGet (db s)) h c -> holds s2 (dbGet (db s2)) h c) /\
  (forall d sizes, r = Ok d -> faults s2 = [] -> (forall cs, chunkContent content = Some cs -> collision_free s cs) ->
    Forall (fun n => (0 < n)%nat) sizes -> (length content < length sizes)%nat ->
    exists m rd s3 s4, storedManifest s2 d = Some m /\ Open d s2 = (Ok (Chunked rd), s3) /\
      crReadAll sizes rd [] s3 = (Ok (content, EOF), s4)).
Proof.
  intros content HI Hput Hc. pose proof (put_outcome s request HI) as H. rewrite Hput in H. destruct r as [d|e|]; [..|done].
  - destruct (put_ok_done _ _ _ _ HI Hput) as [Hd [HI1 _ Hold Hg [t [m [Hm _]]] (tr & cs & Hcs & He) Hnew _]]. clear H. subst d.
    fold content in Hm, Hcs, He, Hnew |- *. split; [by eapply crash_store_ok|]. split; [intros; by eapply crash_holds; auto|].
    intros d sizes [= <-] Hf Hcf Hpos Hlen.
    assert (storedManifest s2 (blake3 content) = Some m) as Hm2.
    { unfold storedManifest. by rewrite (ch_db _ _ Hc). }
    destruct (open_delivers s2 content m tr cs sizes) as (rd & s3 & s4 & Ho & Hr); try done.
    + by eapply crash_store_ok.
    + by rewrite (ch_db _ _ Hc).
    + eapply crash_collision_free; [done|done|]. by eapply (new_collision_free s s1 content); auto.
    + by exists m, rd, s3, s4.
  - destruct H as (HI1 & [Hg Hd] & _). split; [by eapply crash_store_ok|]. split; [|done].
    intros h c (e' & He & Hat). eapply crash_holds; [done|done|]. exists e'. split; [by rewrite Hd|by eapply entry_at_grows].
Qed.

(** ** Finding an object by its source *)

Section finding.
Context {E : Ext} `{!ExtLaws E}.

Lemma source_typed k v : typed ("si/" +:+ k) v = true -> exists e, v = VSource e.
Proof using Type. destruct v; try done; eauto. Qed.

Lemma LookupSourceObject_found s ref e m :
  store_ok s -> validateSourceObjectRef ref = None ->
  dbGet (db s) ("si/" +:+ sourceObjectRefKey ref) = Some (VSource e) -> siSourceObject e = ref ->
  looksLikeDigest (siObjectDigest e) = true -> storedManifest s (siObjectDigest e) = Some m ->
  (exists p, p ∈ mProvenance m /\ sourceObjectRefFromProvenance p = ref) ->
  runs (LookupSourceObject ref) s store_ok same (fun r _ => r = Some (siObjectDigest e)).
Proof using Type.
  intros HI Hv He Href Hl Hm (p & Hp & Hpr). unfold LookupSourceObject, readPackedSourceObjectIndex, ctxErr.
  rbind; [by apply (runs_io _ _)|]. intros [] s1 HI1 _ Hs1.
  rbind; [by apply (runs_check _ _ _ _)|]. intros [] s2 _ _ ->.
  apply runs_assoc. rbind; [by apply (runs_io _ _)|]. intros [] s2 HI2 _ Hs2.
  assert (same s s2) as Hs by by etrans. destruct (same_eq _ _ Hs) as (Hd & _).
  rbind. { apply (metaGet_spec _ _ _ _ _); [done|]. rewrite Hd, He. intros v [= <-]. by eexists. }
  intros r s3 HI3 _ [Hs3 ->]. rewrite Hd, He. cbn [mbind option_bind asSource]. apply runs_ret_bind.
  assert (sourceObjectRefsEqual (siSourceObject e) ref = true) as -> by by apply sourceObjectRefsEqual_eq. cbn [negb].
  rbind; [apply (runs_check _ _ _ _); [done|]; unfold validateObjectDigest; by rewrite Hl|]. intros [] s4 _ _ ->.
  assert (same s s3) as Hs' by by etrans. destruct (same_eq _ _ Hs') as (Hd' & _).
  apply (readManifestOr_spec _ _ _ _ _); [done|done|..].
  - intros s' _ _ Hn. unfold storedManifest in *. by rewrite Hd', Hm in Hn.
  - intros m' s' _ HI' Hm'. unfold storedManifest in *. rewrite Hd', Hm in Hm'. injection Hm' as <-. rret; [done|].
    assert (existsb (fun p => sourceRefMatches p ref) (mProvenance m) = true) as ->; [|done].
    apply existsb_exists. exists p. split; [by apply list_elem_of_In|]. by apply sourceObjectRefsEqual_eq.
Qed.

(** The merged manifest knows every incoming source reference. *)
Lemma merged_provenance s d inc m p : merged_manifest s d inc m -> p ∈ mProvenance inc ->
  exists q, q ∈ mProvenance m /\ provenanceMergeKey q = provenanceMergeKey p /\
    (q ∈ mProvenance inc \/ exists ex, storedManifest s d = Some ex /\ q ∈ mProvenance ex).
Proof using Type.
  unfold merged_manifest. destruct (storedManifest s d) as [ex|]; [intros [t ->]|intros ->; eauto 8]. intros Hp. simpl.
  assert (provenanceMergeKey p ∈ map provenanceMergeKey (mergeProvenance (mProvenance ex) (mProvenance inc))) as H.
  { apply mergeProvenance_keys. right. apply list_elem_of_In, in_map. by apply list_elem_of_In. }
  apply list_elem_of_In, in_map_iff in H as (q & Hk & Hq%list_elem_of_In). exists q. split; [done|]. split; [done|].
  rewrite mergeProvenance_perm in Hq. apply dedupBy_elem in Hq as [Hq _]. apply elem_of_app in Hq as [?|?]; eauto.
Qed.

End finding.

(** C39: a put object is found again by its source.  On a consistent store
    and without I/O faults, [Put] of a valid request succeeds, and looking up the
    reference of any of its provenance entries that names a source object then
    returns its digest, so that the next ingest of that source object finds it.
    References are told apart by the SHA-256 of their fields, so the entries of the
    request and of the manifest it is merged with must not collide. *)
Theorem put_lookup {E : Ext} `{!ExtLaws E} (s : Store) (request : PutRequest) (p : Provenance) :
  let content := delivered (script (prReader request)) in
  let ref := sourceObjectRefFromProvenance p in
  store_ok s -> faults s = [] -> ~ bad_put request -> p ∈ prProvenance request -> indexed p = true ->
  (forall q, q ∈ prProvenance request \/
     (exists m, storedManifest s (blake3 content) = Some m /\ q ∈ mProvenance m) ->
     sourceObjectRefKey (sourceObjectRefFromProvenance q) = sourceObjectRefKey ref ->
     sourceObjectRefFromProvenance q = ref) ->
  exists s1 s2, Put request s = (Ok (blake3 content), s1) /\
    LookupSourceObject ref s1 = (Ok (Some (blake3 content)), s2).
Proof.
  intros content ref HI Hf Hok Hp Hi Huniq. destruct (put_succeeds s request HI Hf Hok) as (s1 & Hput & Hd).
  fold content in Hput, Hd. destruct Hd as [HI1 Hf1 _ _ (t & m & Hm & Hmm) _ _ Hix]. specialize (Hf1 Hf).
  destruct (Hix p Hp Hi) as (q & t' & Hq & Hkey & Hrow). fold ref in Hkey, Hrow. rewrite (Huniq q (or_introl Hq) Hkey) in Hrow.
  assert (p ∈ mProvenance (putManifest t request content)) as Hpm by (simpl; unfold normalizeProvenance; by rewrite sortStable_perm).
  destruct (merged_provenance _ _ _ _ p Hmm Hpm) as (q' & Hq' & Hk' & Hsrc).
  assert (sourceObjectRefFromProvenance q' = ref) as Hr'.
  { apply Huniq; [|unfold sourceObjectRefKey, hashStrings; by rewrite <- (f_equal (fun k => sha256 (String.list_byte_of_string k)) Hk')].
    destruct Hsrc as [Hsrc|?]; [left|by right]. simpl in Hsrc. unfold normalizeProvenance in Hsrc. by rewrite sortStable_perm in Hsrc. }
  assert (validateSourceObjectRef ref = None) as Hv.
  { destruct (validateSourceObjectRef ref) eqn:He; [|done]. destruct Hok. right. right. exists p. split; [done|]. split; [done|]. fold ref. by rewrite He. }
  destruct (runs_ok _ _ _ _ _ (LookupSourceObject_found s1 ref (MkSourceIndex ref (blake3 content) t') m HI1 Hv Hrow eq_refl
    (blake3_digest content) Hm (ex_intro _ q' (conj Hq' Hr'))) Hf1) as (r & s2 & Hl & _ & _ & ->).
  by exists s1, s2.
Qed.

(** ** Runs on a concrete store *)

Definition exPut : PutRequest := MkPut helloReader "text/plain" "imap" [] [MkFacet ∅ ∅ "document" "" ""] [exProvenance] [].

Lemma exPut_ok : ~ bad_put exPut.
Proof.
  intros [H|[H|(p & Hp & _ & H)]]; [| |apply list_elem_of_singleton in Hp as ->]; apply H; vm_compute; reflexivity.
Qed.

Lemma put_open_roundtrip_witness :
  exists s1 r s2 s3, Put exPut emptyStore = (Ok (blake3 helloBytes), s1) /\ Open (blake3 helloBytes) s1 = (Ok (Chunked r), s2) /\
    crReadAll (replicate 12 1%nat) r [] s2 = (Ok (helloBytes, EOF), s3).
Proof.
  apply (put_open_roundtrip emptyStore exPut (replicate 12 1%nat)).
  - exact emptyStore_ok.
  - reflexivity.
  - exact exPut_ok.
  - exact hello_collision_free.
  - apply Forall_replicate. lia.
  - vm_compute. lia.
Defined.

Lemma put_durable_witness :
  exists s1 m rd s3 s4, Put exPut emptyStore = (Ok (blake3 helloBytes), s1) /\
    storedManifest (restart s1) (blake3 helloBytes) = Some m /\ Open (blake3 helloBytes) (restart s1) = (Ok (Chunked rd), s3) /\
    crReadAll (replicate 12 1%nat) rd [] s3 = (Ok (helloBytes, EOF), s4).
Proof.
  destruct (put_succeeds emptyStore exPut emptyStore_ok eq_refl exPut_ok) as (s1 & Hput & Hd).
  destruct (put_durable emptyStore s1 (restart s1) exPut (Ok (blake3 helloBytes)) emptyStore_ok Hput
    (restart_crash _ (pd_ok _ _ _ _ Hd))) as (_ & _ & H).
  destruct (H (blake3 helloBytes) (replicate 12 1%nat) eq_refl) as (m & rd & s3 & s4 & Hm & Ho & Hr).
  - reflexivity.
  - exact hello_collision_free.
  - apply Forall_replicate. lia.
  - vm_compute. lia.
  - exists s1, m, rd, s3, s4. exact (conj Hput (conj Hm (conj Ho Hr))).
Defined.

Lemma put_lookup_witness :
  exists s1 s2, Put exPut emptyStore = (Ok (blake3 helloBytes), s1) /\
    LookupSourceObject exRef s1 = (Ok (Some (blake3 helloBytes)), s2).
Proof.
  apply (put_lookup emptyStore exPut exProvenance).
  - exact emptyStore_ok.
  - reflexivity.
  - exact exPut_ok.
  - by left.
  - reflexivity.
  - intros q [Hq|(m & Hm & _)] _; [by apply list_elem_of_singleton in Hq as ->|discriminate Hm].
Defined.

Lemma put_atomic_witness : store_ok (Put exPut emptyStore).2 /\ (Put exPut emptyStore).1 = Ok (blake3 helloBytes).
Proof.
  assert ((Put exPut emptyStore).1 = Ok (blake3 helloBytes)) as Hr by (vm_compute; reflexivity).
  pose proof (put_atomic emptyStore exPut emptyStore_ok) as H. cbv zeta in H.
  destruct (Put exPut emptyStore) as [r s'] eqn:Hp. simpl in *. subst r. split; [apply H|reflexivity].
Defined.

(** ** Attaching provenance *)

Section attach.
Context {E : Ext} `{!ExtLaws E}.

Lemma ReadManifest_spec s d m R `{!StoreRel R, !EnvRel R} : store_ok s -> looksLikeDigest d = true ->
  storedManifest s d = Some m -> runs (ReadManifest d) s store_ok R (fun r s' => r = m /\ same s s').
Proof using Type.
  intros HI Hl Hm. pose proof (ReadManifest_cases s d HI Hl) as H. unfold runs.
  destruct (ReadManifest d s) as [[r|e|] s']; [..|done]; destruct H as [Hs H]; pose proof (env_inv (Inv:=store_ok) _ _ Hs HI);
    (split; [done|split; [by apply env_rel|]]).
  - split; [congruence|done].
  - destruct H as [[_ H]|[_ H]]; [congruence|done].
Qed.

Lemma writeManifest_spec s d m : store_ok s ->
  runs (writeManifest d m) s store_ok extends (fun _ s' => grows s s' /\ forall k,
    dbGet (db s') k = writesAt (WSet (manifestKey d) (VManifest m) :: changeWrites (dbGet (db s)) d (mUpdatedAt m)) k (dbGet (db s) k)).
Proof using Type*.
  intros HI. unfold writeManifest. rbind.
  { eapply runs_mono; [exact (writeManifestTo_spec s SyncSink d m HI)|..]; [intros s' ? [? _]; done|].
    intros sink' s' _ _ Hw. exact Hw. }
  intros sink' s1 HI1 HR Hw. rret; [done|]. pose proof (wr_kind _ _ _ _ _ Hw). destruct sink'; [|done].
  split; [apply Hw|apply (wr_view _ _ _ _ _ Hw)].
Qed.

(** [storedManifest] after a manifest write, with other records behind it. *)
Lemma storedManifest_written s d m t s' ws : store_ok s -> (forall d' old, writesAt ws (manifestKey d') old = old) ->
  (forall k, dbGet (db s') k = writesAt (WSet (manifestKey d) (VManifest m) :: changeWrites (dbGet (db s)) d t ++ ws) k (dbGet (db s) k)) ->
  forall d', storedManifest s' d' = if bool_decide (d = d') then Some m else storedManifest s d'.
Proof using Type.
  intros [_ Hd] Hws Hk d'. unfold storedManifest. rewrite Hk, app_comm_cons, writesAt_app, Hws. cbn [writesAt].
  rewrite changeWrites_other by (done || apply (do_typed _ _ _ Hd)). case_bool_decide as Hm.
  - apply (str_app_inj_l "m/") in Hm as ->. by rewrite bool_decide_true.
  - by rewrite bool_decide_false by (intros ->; done).
Qed.

Lemma AttachProvenance_spec s d prov m : store_ok s -> looksLikeDigest d = true -> storedManifest s d = Some m ->
  prov <> [] -> (forall p, p ∈ prov -> validateSourceObjectRef (sourceObjectRefFromProvenance p) = None) ->
  runs (AttachProvenance d prov) s store_ok extends (fun r s' =>
    r = provenanceAddsNew (mProvenance m) prov /\
    if r then exists t ws iws, index_writes d prov iws /\ clock s <= t <= clock s' /\
        let m' := withProvenance (mergeProvenance (mProvenance m) prov) t m in
        ws = WSet (manifestKey d) (VManifest m') :: changeWrites (dbGet (db s)) d t ++ iws /\
        forall k, dbGet (db s') k = writesAt ws k (dbGet (db s) k)
    else db s' = db s).
Proof using Type*.
  intros HI Hl Hm Hne Hval. unfold AttachProvenance, ctxErr.
  rbind; [by apply (runs_io _ _)|]. intros [] s1 HI1 _ Hs1.
  rbind; [apply (runs_check _ _ _ _); [done|]; unfold validateObjectDigest; by rewrite Hl|]. intros [] s2 _ _ ->.
  destruct prov as [|p0 prov']; [done|]. set (prov := p0 :: prov') in *.
  rbind. { apply (runs_forM_inv prov tt _ s1 _ _ (fun _ s' => s' = s1)); [done|done|]. intros [] p s' Hp _ _ ->.
    eapply runs_post; [apply (runs_check _ _ _ _); [done|by apply Hval]|done]. }
  intros [] s2 _ _ ->. destruct (same_eq _ _ Hs1) as (Hd1 & _).
  rbind. { apply wrapErr_spec, (ReadManifest_spec _ _ m _); [done|done|]. unfold storedManifest. by rewrite Hd1. }
  intros m0 s3 HI3 _ [-> Hs3]. assert (same s s3) as Hs by by etrans. destruct (same_eq _ _ Hs) as (Hd & _).
  destruct (provenanceAddsNew (mProvenance m) prov) eqn:Hadd; cbn [negb]; [|by rret].
  rbind; [by apply (runs_now _ _)|]. intros t s4 HI4 _ [Hs4 Ht].
  assert (same s s4) as Hs' by by etrans. destruct (same_eq _ _ Hs') as (Hd' & _).
  rbind; [by apply writeManifest_spec|]. intros [] s5 HI5 HR5 [Hg5 Hk5].
  rbind.
  { instantiate (1 := fun _ s' => grows s5 s' /\ exists iws, index_writes d prov iws /\
      forall k, dbGet (db s') k = writesAt iws k (dbGet (db s5) k)).
    unfold recordSourceObjectIndexes. pose proof (recordSourceObjectIndexesTo_spec s5 SyncSink d prov HI5 Hl) as H.
    unfold runs_unless in H. unfold runs, mbind, M_bind. destruct (recordSourceObjectIndexesTo SyncSink d prov s5) as [[a|e|] s6]; [..|done].
    - destruct H as (HI6 & [He _] & iws & Hw & Hiw). simpl. split; [done|]. split; [done|]. split; [apply Hw|].
      exists iws. split; [done|]. pose proof (wr_kind _ _ _ _ _ Hw). destruct a; [|done]. apply (wr_view _ _ _ _ _ Hw).
    - destruct H as (HI6 & [He _] & [Hf|Hbad]); [done|]. destruct Hbad as (p & Hp & _ & Hv). by destruct Hv; apply Hval. }
  intros [] s6 HI6 _ [Hg6 (iws & Hiw & Hk6)]. rret; [done|]. split; [done|].
  eexists t, _, iws. split; [done|]. split.
  { pose proof (same_clock _ _ Hs'). pose proof (gr_clock _ _ Hg5). pose proof (gr_clock _ _ Hg6). lia. }
  cbv zeta. split; [reflexivity|]. intros k. rewrite Hk6, Hk5, Hd'. cbn [writesAt mUpdatedAt withProvenance].
  by rewrite writesAt_app.
Qed.

End attach.

(** [AttachProvenance] does what it reports.  On a stored object, with valid
    references and no faults, it returns whether a reference is new.  If none is,
    nothing at all is written; if one is, the manifest keeps every other field,
    its provenance becomes the merge and its time moves forward, and no other
    object's manifest changes. *)
Theorem attach_provenance_exact {E : Ext} `{!ExtLaws E} (s : Store) (d : ObjectDigest) (prov : list Provenance) (m : Manifest) :
  store_ok s -> faults s = [] -> looksLikeDigest d = true -> storedManifest s d = Some m -> prov <> [] ->
  (forall p, p ∈ prov -> validateSourceObjectRef (sourceObjectRefFromProvenance p) = None) ->
  exists s', AttachProvenance d prov s = (Ok (provenanceAddsNew (mProvenance m) prov), s') /\ store_ok s' /\
    if provenanceAddsNew (mProvenance m) prov
    then (exists t, clock s <= t /\ storedManifest s' d = Some (withProvenance (mergeProvenance (mProvenance m) prov) t m)) /\
         (forall d', d' <> d -> storedManifest s' d' = storedManifest s d')
    else db s' = db s.
Proof.
  intros HI Hf Hl Hm Hne Hval.
  destruct (runs_ok _ _ _ _ _ (AttachProvenance_spec s d prov m HI Hl Hm Hne Hval) Hf) as (r & s' & Hrun & HI' & _ & -> & Hr).
  exists s'. split; [done|]. split; [done|]. destruct (provenanceAddsNew _ _); [|done].
  destruct Hr as (t & ws & iws & Hiw & Ht & -> & Hk).
  pose proof (storedManifest_written s d _ t s' iws HI ltac:(intros; by apply (iw_other _ _ _ Hiw)) Hk) as Hs'.
  split; [exists t; split; [lia|]; by rewrite Hs', bool_decide_true|]. intros d' Hd'. by rewrite Hs', bool_decide_false by done.
Qed.

Definition exProvenance2 : Provenance := MkProvenance 950 ∅ ∅ "archive" "imap" "99" "1" [].
Definition exStored : Store := (Put exPut emptyStore).2.

Lemma exStored_ok : store_ok exStored.
Proof.
  pose proof (put_outcome emptyStore exPut emptyStore_ok) as H. unfold exStored.
  destruct (Put exPut emptyStore) as [[r|e|] s']; [by destruct H..|done].
Qed.

Lemma attach_provenance_exact_witness :
  exists m s', storedManifest exStored (blake3 helloBytes) = Some m /\
    AttachProvenance (blake3 helloBytes) [exProvenance2] exStored = (Ok true, s') /\ store_ok s'.
Proof.
  assert (exists m, storedManifest exStored (blake3 helloBytes) = Some m /\ provenanceAddsNew (mProvenance m) [exProvenance2] = true)
    as (m & Hm & Ha) by (eexists; vm_compute; split; reflexivity).
  destruct (attach_provenance_exact exStored (blake3 helloBytes) [exProvenance2] m) as (s' & Hr & HI & _).
  - exact exStored_ok.
  - vm_compute. reflexivity.
  - vm_compute. reflexivity.
  - exact Hm.
  - discriminate.
  - intros p Hp. apply list_elem_of_singleton in Hp as ->. vm_compute. reflexivity.
  - exists m, s'. rewrite Ha in Hr. split; [exact Hm|]. split; [exact Hr|exact HI].
Defined.

(** ** A failed attachment is not repaired by retrying it *)

Definition attachFaults : list fault := replicate 9 FOk ++ [FErr "disk full"].
Definition exFailed : Store := (AttachProvenance (blake3 helloBytes) [exProvenance2] (set_faults attachFaults exStored)).2.
Definition exRetried : Store := (AttachProvenance (blake3 helloBytes) [exProvenance2] exFailed).2.

(** An attachment that fails half-way is lost for lookups.  With a disk
    error after the manifest was written and before the source index was,
    [AttachProvenance] returns an error; retrying it finds nothing new in the
    manifest, so it reports success without writing the index, and the source
    object stays unknown to [LookupSourceObject]. *)
Theorem attach_retry_loses_index :
  (AttachProvenance (blake3 helloBytes) [exProvenance2] (set_faults attachFaults exStored)).1 = Err (ErrMsg "disk full") /\
  (AttachProvenance (blake3 helloBytes) [exProvenance2] exFailed).1 = Ok false /\
  (LookupSourceObject (sourceObjectRefFromProvenance exProvenance2) exRetried).1 = Ok None.
Proof. split_and!; vm_compute; reflexivity. Qed.

(** ** Annotations *)

Section annotation_rules.
Context {E : Ext} `{!ExtLaws E}.

(** The record written for [a]. *)
Definition annotation_entry (a : Annotation) (e : packedObjectAnnotationEntry) : Prop :=
  if blen (annotationJSON a) <=? annotationInlineMaxBytes
  then anInline e = Some a
  else anInline e = None /\ anExternalDigest e = blake3 (annotationJSON a).

(** What writing an annotation leaves behind. *)
Record annotated (s : Store) (a : Annotation) (s' : Store) : Prop := {
  at_grows : grows s s';
  at_entry : exists e, dbGet (db s') (annotationKey (aObjectDigest a) (aKind a) (aAnalyzerName a)) = Some (VAnnotation e) /\
    annotation_entry a e;
  at_payload : (blen (annotationJSON a) <=? annotationInlineMaxBytes) = false ->
    (exists t cs, chunkContent (annotationJSON a) = Some cs /\ dbGet (db s') (objectRecipeKey (blake3 (annotationJSON a))) =
       Some (VRecipe (MkRecipe t (blake3 (annotationJSON a)) (map blake3 cs) (blen (annotationJSON a))))) /\
    forall h c, holds s' (dbGet (db s')) h c -> holds s (dbGet (db s)) h c \/
      exists cs, chunkContent (annotationJSON a) = Some cs /\ c ∈ cs /\ h = blake3 c;
  at_manifests : forall d, dbGet (db s') (manifestKey d) = dbGet (db s) (manifestKey d) }.

Lemma sync_wrote s s' sink' ws : wrote s SyncSink s' sink' ws ->
  sink' = SyncSink /\ forall k, dbGet (db s') k = writesAt ws k (dbGet (db s) k).
Proof using Type. intros Hw. pose proof (wr_kind _ _ _ _ _ Hw). destruct sink'; [|done]. split; [done|apply (wr_view _ _ _ _ _ Hw)]. Qed.

Lemma runs_sync {A} (m : M A) s P : runs m s store_ok (srel false) P -> runs m s store_ok extends P.
Proof using Type. intros H. eapply runs_mono; [exact H| |done]. by intros s' ? [? _]. Qed.

Lemma writePackedAnnotation_spec s a : store_ok s ->
  runs (writePackedAnnotation a) s store_ok extends (fun _ s' => annotated s a s').
Proof using Type*.
  intros HI. unfold writePackedAnnotation, ctxErr.
  rbind; [by apply (runs_io _ _)|]. intros [] s1 HI1 _ Hs1.
  rbind; [by apply (runs_now _ _)|]. intros t s2 HI2 _ [Hs2 _].
  assert (same s s2) as Hs by by etrans. destruct (same_eq _ _ Hs) as (Hd & _).
  set (inl := blen (annotationJSON a) <=? annotationInlineMaxBytes).
  rbind.
  { instantiate (1 := fun payload s' => grows s s' /\
      (if inl then payload = (Some a, EmptyString) /\ db s' = db s
       else payload = (None, blake3 (annotationJSON a)) /\
         stored_object s (dbGet (db s)) s' (dbGet (db s')) (blake3 (annotationJSON a)) (annotationJSON a))).
    destruct inl; [rret; [done|]; split; [by apply same_grows|done]|].
    rbind; [by apply storeBlobContent_spec|]. intros [] s3 HI3 HR3 Hst. rret; [done|].
    split; [etrans; [by apply same_grows|apply HR3]|]. split; [done|]. by eapply stored_object_same. }
  intros payload s3 HI3 _ [Hg3 Hpay].
  rbind; [apply runs_sync, (sinkSet_spec s3 SyncSink); [done|solve_key|solve_key]|]. intros sink4 s4 HI4 _ Hw4.
  destruct (sync_wrote _ _ _ _ Hw4) as [-> Hk4].
  rbind; [by apply runs_sync, (recordProjectionChangeTo_spec s4 SyncSink)|]. intros sink5 s5 HI5 _ Hw5.
  destruct (sync_wrote _ _ _ _ Hw5) as [-> Hk5]. rret; [done|].
  assert (forall k, HasPrefix k "pc" = false -> dbGet (db s5) k = dbGet (db s4) k) as Hother.
  { intros k Hk. rewrite Hk5. apply changeWrites_other; [apply (do_typed _ _ _ (proj2 HI4))|done]. }
  assert (grows s3 s5) as Hg35 by (etrans; [apply Hw4|apply Hw5]).
  assert (forall k, HasPrefix k "a/" = false -> HasPrefix k "pc" = false -> dbGet (db s5) k = dbGet (db s3) k) as Hkeep.
  { intros k Ha Hk. rewrite Hother, Hk4 by done. cbn [writesAt]. rewrite bool_decide_false; [done|]. intros <-.
    unfold annotationKey in Ha. by rewrite HasPrefix_app in Ha. }
  split.
  - by etrans.
  - eexists. rewrite Hother, Hk4 by done. cbn [writesAt]. rewrite bool_decide_true by done. split; [reflexivity|].
    unfold annotation_entry. fold inl. destruct inl; [by destruct Hpay as [-> _]|by destruct Hpay as [-> _]].
  - fold inl. intros Hi. rewrite Hi in Hpay. destruct Hpay as [_ Hst]. split.
    + destruct (st_recipe _ _ _ _ _ _ Hst) as (t' & cs & Hcs & Hr). exists t', cs. split; [done|]. by rewrite Hkeep.
    + intros h c (e & He & Hat). apply (st_new _ _ _ _ _ _ Hst). rewrite Hkeep in He by done. exists e. split; [done|].
      destruct (do_chunks _ _ _ (proj2 HI3) h e He) as (_ & [c0 Hc0] & _).
      by rewrite <- (entry_at_fun s5 e c0 c); [|eapply entry_at_grows|].
  - intros d. rewrite Hkeep by done. destruct inl; [by destruct Hpay as [_ ->]|]. destruct Hpay as [_ Hst].
    by apply (st_other _ _ _ _ _ _ Hst).
Qed.

Lemma annotation_typed d k n v : typed (annotationKey d k n) v = true -> exists e, v = VAnnotation e.
Proof using Type. destruct v; try done; eauto. Qed.

Lemma resolvePackedAnnotation_spec s a e : store_ok s -> annotation_entry a e ->
  ((blen (annotationJSON a) <=? annotationInlineMaxBytes) = false -> parseAnnotation (annotationJSON a) = Some a /\
    exists t cs, chunkContent (annotationJSON a) = Some cs /\ collision_free s cs /\
      dbGet (db s) (objectRecipeKey (blake3 (annotationJSON a))) =
       Some (VRecipe (MkRecipe t (blake3 (annotationJSON a)) (map blake3 cs) (blen (annotationJSON a))))) ->
  runs (resolvePackedAnnotation e) s store_ok reading (fun r _ => r = a).
Proof using Type*.
  intros HI He Hext. unfold resolvePackedAnnotation, annotation_entry in *.
  destruct (blen (annotationJSON a) <=? annotationInlineMaxBytes); [rewrite He; by rret|].
  destruct He as [-> Hd]. destruct (Hext eq_refl) as [Hp (t & cs & Hcs & Hc & Hr)].
  assert (String.eqb (anExternalDigest e) "" = false) as ->.
  { apply String.eqb_neq. rewrite Hd. intros Hn. pose proof (blake3_digest (annotationJSON a)) as Hl. by rewrite Hn in Hl. }
  rewrite Hd. rbind; [by eapply readBlobContent_spec|]. intros r s1 HI1 _ (cs' & -> & Hf). simpl in Hf.
  rewrite (known_unique s cs cs') by done. destruct (chunks_concat (annotationJSON a)) as (cs1 & Hcs1 & Hcat).
  assert (cs1 = cs) as -> by congruence. rewrite Hcat, Hp. by rret.
Qed.

End annotation_rules.

(** Annotations survive storage, inline or not.  Writing an annotation and
    reading it by object, kind and analyzer returns it, also when its encoding is
    over the inline limit and goes through the chunk store; for such a payload
    the JSON decoder must invert the encoder on it, and its chunks must not
    collide with stored ones. *)
Theorem annotation_roundtrip {E : Ext} `{!ExtLaws E} (s : Store) (a : Annotation) :
  store_ok s -> faults s = [] ->
  (annotationInlineMaxBytes < blen (annotationJSON a) -> parseAnnotation (annotationJSON a) = Some a /\
     forall cs, chunkContent (annotationJSON a) = Some cs -> collision_free s cs) ->
  exists s1 s2, writePackedAnnotation a s = (Ok tt, s1) /\
    readPackedAnnotation (aObjectDigest a) (aKind a) (aAnalyzerName a) s1 = (Ok (Some a), s2).
Proof.
  intros HI Hf Hext. destruct (runs_ok _ _ _ _ _ (writePackedAnnotation_spec s a HI) Hf) as ([] & s1 & Hw & HI1 & _ & Ha).
  destruct (at_entry _ _ _ Ha) as (e & He & Hent).
  assert (runs (readPackedAnnotation (aObjectDigest a) (aKind a) (aAnalyzerName a)) s1 store_ok reading
    (fun r _ => r = Some a)) as Hrun.
  { unfold readPackedAnnotation. rbind.
    { apply (metaGet_spec _ _ _ _ _); [done|]. rewrite He. intros v [= <-]. by eexists. }
    intros r s2 HI2 _ [Hs2 ->]. rewrite He. cbn [mbind option_bind asAnnotation].
    rbind; [apply (resolvePackedAnnotation_spec s2 a e); [done|done|]|intros r s3 HI3 _ ->; by rret]. intros Hbig.
    destruct (at_payload _ _ _ Ha Hbig) as [(t & cs & Hcs & Hr) Hnew]. destruct Hext as [Hp Hc]; [by apply Z.leb_gt|].
    split; [done|]. exists t, cs. split; [done|]. destruct (same_eq _ _ Hs2) as (-> & _). split; [|done].
    apply (same_collision_free s1 s2 cs Hs2). eapply (new_collision_free s s1); [done|by apply Hc|apply Ha|done]. }
  destruct (runs_ok _ _ _ _ _ Hrun) as (r & s2 & Hr & _ & _ & ->); [by apply (gr_faults _ _ (at_grows _ _ _ Ha))|].
  by exists s1, s2.
Qed.

(** Too large to be inlined. *)
Definition bigAnnotation : Annotation := toyAnnotationOf (replicate (N.to_nat 4097) Byte.x41).

Lemma big_chunks cs : chunkContent (annotationJSON bigAnnotation) = Some cs -> collision_free emptyStore cs.
Proof.
  intros Hcs. assert (length cs = 1%nat) as Hl.
  { assert (match chunkContent (annotationJSON bigAnnotation) with Some cs => length cs | None => 0%nat end = 1%nat) as H
      by (vm_compute; reflexivity). rewrite Hcs in H. exact H. }
  clear Hcs. destruct cs as [|c [|c' cs']]; [discriminate Hl| |discriminate Hl].
  intros x y Hx%list_elem_of_singleton _ [Hk|Hy%list_elem_of_singleton]; [|congruence].
  by apply emptyStore_known in Hk.
Qed.

Lemma annotation_roundtrip_witness :
  annotationInlineMaxBytes < blen (annotationJSON bigAnnotation) /\
  exists s1 s2, writePackedAnnotation bigAnnotation emptyStore = (Ok tt, s1) /\
    readPackedAnnotation (aObjectDigest bigAnnotation) (aKind bigAnnotation) (aAnalyzerName bigAnnotation) s1 =
      (Ok (Some bigAnnotation), s2).
Proof.
  split; [vm_compute; reflexivity|]. apply (annotation_roundtrip emptyStore bigAnnotation).
  - exact emptyStore_ok.
  - reflexivity.
  - intros _. split; [|exact big_chunks]. exact (f_equal (fun b => Some (toyAnnotationOf b)) (String.list_byte_of_string_of_list_byte _)).
Defined.
