(* ===== verification/Gc.v ===== *)
(** * Deletion and garbage collection: [filestore/gc.go]

    Deleting an object or the contribution of a source removes metadata; [Gc]
    then removes recipes no manifest and no annotation refers to, and chunk
    entries no kept recipe names.  The collector is cut into its steps at the points
    where it lets go of the store ([gcPoint], [gcResume]): other writers run there,
    as functions of the store in [gcRun] and as a relation in [gc_run];
    [gcWithGrace] is the collector with nobody in between. *)

From stdpp Require Import options.
From S2P Require Import Prelude GoLib GoText Contracts Lru Chunker Manifest Meta Concrete DictionaryFamily Dictionary ChunkStore SourceIngest Annotations ObjectStore.

Open Scope Z_scope.

Record GCReport := MkGCReport {
  gScannedChunks : Z; gSweptChunks : Z; gRetainedChunks : Z; gSweptRecipes : Z }.

Record DeleteImportReport := MkDeleteImportReport {
  dObjectsScanned : Z; dObjectsDeleted : Z; dProvenanceDetached : Z }.

Definition gcGracePeriod : Z := 15 * 60 * 10 ^ 9.

Section gc.
Context {E : Ext}.

(** ** Deleting *)

(** The source and alias rows of [ref] that still point at [digest]. *)
Definition ownedIndexKeys (digest : ObjectDigest) (keys : list string) (ref : SourceObjectRef) : M (list string) :=
  match validateSourceObjectRef ref with
  | Some _ => mret keys
  | None =>
      row ← readPackedSourceObjectIndex ref;
      let keys := match row with
        | Some e => if String.eqb (siObjectDigest e) digest then keys ++ ["si/" +:+ sourceObjectRefKey ref] else keys
        | None => keys
        end in
      alias ← readPackedSourceAlias ref;
      mret (match alias with
        | Some d => if String.eqb d digest then keys ++ ["sa/" +:+ sourceAliasKey ref] else keys
        | None => keys
        end)
  end.

Definition DeleteObject (digest : ObjectDigest) : M unit :=
  _ ← ctxErr;
  _ ← check (validateObjectDigest digest);
  let keys := [manifestKey digest; objectRecipeKey digest; recoveryKey digest; compoundParentKey digest] in
  keys ← readManifestOr digest keys (fun manifest =>
    forM (mProvenance manifest) keys (fun keys provenance =>
      ownedIndexKeys digest keys (sourceObjectRefFromProvenance provenance)));
  keys ← metaIterPrefix (annotationPrefix digest) keys (fun keys kv => mret (keys ++ [kv.1]));
  metaDeleteKeys keys.

Definition fromSource (sourceKind sourceName : string) (p : Provenance) : bool :=
  bool_decide (pSourceKind p = sourceKind) && bool_decide (pSourceName p = sourceName).

(** Whether provenance was detached, and whether the object was deleted. *)
Definition detachSourceFromObject (digest : ObjectDigest) (sourceKind sourceName : string) : M (bool * bool) :=
  readManifestOr digest (false, false) (fun manifest =>
    let kept := List.filter (fun p => negb (fromSource sourceKind sourceName p)) (mProvenance manifest) in
    let removed := map sourceObjectRefFromProvenance
      (List.filter (fromSource sourceKind sourceName) (mProvenance manifest)) in
    match removed with
    | [] => mret (false, false)
    | _ =>
        match kept with
        | [] => _ ← DeleteObject digest; mret (true, true)
        | _ =>
            t ← now;
            _ ← writeManifest digest (withProvenance kept t manifest);
            indexKeys ← forM removed [] (ownedIndexKeys digest);
            _ ← match indexKeys with [] => mret tt | _ => metaDeleteKeys indexKeys end;
            mret (true, false)
        end
    end).

Definition DeleteImport (sourceKind sourceName : string) : M DeleteImportReport :=
  _ ← ctxErr;
  if blank sourceKind || blank sourceName then fail (ErrMsg "source kind and name are required") else
  scan ← metaIterPrefix "m/" (0, []) (fun acc kv =>
    manifest ← unmarshal asManifest kv.2;
    mret (acc.1 + 1, if manifestHasSource manifest sourceKind sourceName
                     then acc.2 ++ [TrimPrefix kv.1 "m/"] else acc.2));
  forM scan.2 (MkDeleteImportReport scan.1 0 0) (fun report digest =>
    r ← detachSourceFromObject digest sourceKind sourceName;
    mret (if r.2 : bool then MkDeleteImportReport (dObjectsScanned report) (dObjectsDeleted report + 1) (dProvenanceDetached report)
          else if r.1 : bool then MkDeleteImportReport (dObjectsScanned report) (dObjectsDeleted report) (dProvenanceDetached report + 1)
          else report)).

(** ** Collecting *)

(** Digests of externalized annotation payloads.  Only annotation records carry
    the field. *)
Definition gcPayloads (snapshot : DB) : M (gset string) :=
  snapshotIterPrefix snapshot "a/" ∅ (fun payloads kv =>
    mret (match asAnnotation kv.2 with
      | Some entry => if String.eqb (anExternalDigest entry) "" then payloads
                      else {[anExternalDigest entry]} ∪ payloads
      | None => payloads
      end)).

Definition addHashes (hashes : list string) (live : gset string) : gset string := list_to_set hashes ∪ live.

(** Live chunk hashes, and the recipes to sweep. *)
Definition gcMark (snapshot : DB) (payloads : gset string) (graceCutoff : Time) :
    M (gset string * gmap string ObjectDigest) :=
  snapshotIterPrefix snapshot "r/" (∅, ∅) (fun acc kv =>
    recipe ← unmarshal asRecipe kv.2;
    let digest := TrimPrefix kv.1 "r/" in
    reachable ← snapshotHas snapshot (manifestKey digest);
    let reachable := reachable || bool_decide (digest ∈ payloads) in
    mret (if reachable || negb (Before (reUpdatedAt recipe) graceCutoff)
          then (addHashes (reChunkHashes recipe) acc.1, acc.2)
          else (acc.1, <[kv.1 := digest]> acc.2))).

(** Recipes committed since the start may name older chunks. *)
Definition gcRescan (gcStart : Time) (live : gset string) : M (gset string) :=
  metaIterPrefix "r/" live (fun live kv =>
    recipe ← unmarshal asRecipe kv.2;
    mret (if negb (Before (reUpdatedAt recipe) gcStart) then addHashes (reChunkHashes recipe) live else live)).

(** The number of chunk entries, and the keys of the dead ones. *)
Definition gcDead (snapshot : DB) (live : gset string) (graceCutoff : Time) : M (Z * list string) :=
  snapshotIterPrefix snapshot "c/" (0, []) (fun acc kv =>
    entry ← unmarshal asChunk kv.2;
    mret (acc.1 + 1,
      if bool_decide (ceChunkHash entry ∈ live) then acc.2
      else if negb (Before (ceUpdatedAt entry) graceCutoff) then acc.2
      else acc.2 ++ [kv.1])).

(** Orphan recipes whose object was not re-created meanwhile. *)
Definition gcOrphans (orphans : gmap string ObjectDigest) : M (list string) :=
  forM (map_to_list orphans) [] (fun swept kv =>
    exists_ ← metaHas (manifestKey kv.2);
    mret (if exists_ : bool then swept else swept ++ [kv.1])).

(** Where a collection is: at its start; with the recipes of its snapshot marked,
    before the second look at the recipes; with the live chunks known, before the
    chunk entries are swept; before the orphan recipes are checked again; before they
    are removed; and at its end. *)
Inductive gcPoint :=
  | AtStart
  | AtRescan (gcStart : Time) (snapshot : DB) (live : gset string) (orphans : gmap string ObjectDigest)
  | AtSweep (graceCutoff : Time) (snapshot : DB) (live : gset string) (orphans : gmap string ObjectDigest)
  | AtRecheck (scanned : Z) (dead : list string) (orphans : gmap string ObjectDigest)
  | AtRemove (scanned : Z) (dead swept : list string)
  | AtEnd (report : GCReport).

(** From one point to the next. *)
Definition gcResume (grace : Z) (p : gcPoint) : M gcPoint :=
  match p with
  | AtStart =>
      _ ← ctxErr;
      gcStart ← now;
      snapshot ← metaSnapshot;
      payloads ← gcPayloads snapshot;
      marks ← gcMark snapshot payloads (gcStart - grace);
      mret (AtRescan gcStart snapshot marks.1 marks.2)
  | AtRescan gcStart snapshot live orphans =>
      live ← gcRescan gcStart live;
      mret (AtSweep (gcStart - grace) snapshot live orphans)
  | AtSweep graceCutoff snapshot live orphans =>
      dead ← gcDead snapshot live graceCutoff;
      _ ← metaDeleteKeys dead.2;
      mret (AtRecheck dead.1 dead.2 orphans)
  | AtRecheck scanned dead orphans =>
      swept ← gcOrphans orphans;
      mret (AtRemove scanned dead swept)
  | AtRemove scanned dead swept =>
      _ ← metaDeleteKeys swept;
      mret (AtEnd (MkGCReport scanned (Z.of_nat (length dead)) (scanned - Z.of_nat (length dead)) (Z.of_nat (length swept))))
  | AtEnd report => mret (AtEnd report)
  end.

Definition gcReport (p : gcPoint) : M GCReport := match p with AtEnd report => mret report | _ => liftPanic None end.

(** A collection, with what others do to the store at its four inner points. *)
Definition gcRun (env : nat -> Store -> Store) (grace : Z) : M GCReport :=
  p ← gcResume grace AtStart;
  _ ← modify (env 0%nat);
  p ← gcResume grace p;
  _ ← modify (env 1%nat);
  p ← gcResume grace p;
  _ ← modify (env 2%nat);
  p ← gcResume grace p;
  _ ← modify (env 3%nat);
  p ← gcResume grace p;
  gcReport p.

Definition gcWithGrace (grace : Z) : M GCReport := gcRun (fun _ s => s) grace.

Definition Gc : M GCReport := gcWithGrace gcGracePeriod.

End gc.

(** ** What the scans find *)

(** [x] is the payload digest of some annotation. *)
Definition payload_of {E : Ext} (d : DB) (x : ObjectDigest) : Prop :=
  x <> EmptyString /\ exists k e, dbGet d k = Some (VAnnotation e) /\ HasPrefix k "a/" = true /\ anExternalDigest e = x.

(** A recipe in use: of an object with a manifest, or of an annotation payload. *)
Definition reachable {E : Ext} (d : DB) (x : ObjectDigest) : Prop :=
  is_Some (dbGet d (manifestKey x)) \/ payload_of d x.

(** A recipe the collector keeps. *)
Definition keeps_recipe {E : Ext} (d : DB) (cutoff : Time) (x : ObjectDigest) (e : objectRecipeEntry) : Prop :=
  reachable d x \/ cutoff <= reUpdatedAt e.

Definition deadChunk (live : gset string) (cutoff : Time) (kv : string * Value) : bool :=
  match kv.2 with
  | VChunk e => negb (bool_decide (ceChunkHash e ∈ live)) && Before (ceUpdatedAt e) cutoff
  | _ => false
  end.

Lemma recipe_key k : HasPrefix k "r/" = true -> exists x, k = objectRecipeKey x.
Proof. apply HasPrefix_spec. Qed.

Section scans.
Context {E : Ext} `{!ExtLaws E}.

Lemma gcPayloads_spec s d : store_ok s ->
  runs (gcPayloads d) s store_ok same (fun P s' => same s s' /\ forall x, x ∈ P <-> payload_of d x).
Proof using Type*.
  intros HI. unfold gcPayloads, snapshotIterPrefix.
  eapply runs_post; [apply (scan_spec _ _ _ _ _ _ _ _ (fun done P => forall x, x ∈ P <-> x <> EmptyString /\
      exists k e, (k, VAnnotation e) ∈ done /\ anExternalDigest e = x)); [done|..]|].
  - intros x. rewrite elem_of_empty. split; [done|]. by intros (_ & k & e & ?%elem_of_nil & _).
  - intros done P [k v] s' _ _ HI' HP. rret; [done|]. split; [done|]. intros x. cbn [snd].
    setoid_rewrite elem_of_app. setoid_rewrite list_elem_of_singleton.
    destruct v; cbn [asAnnotation]; try (rewrite HP; naive_solver).
    destruct (String.eqb_spec (anExternalDigest e) "") as [He|He]; [rewrite HP; naive_solver|].
    rewrite elem_of_union, elem_of_singleton, HP. naive_solver.
  - intros P s' _ _ [Hs HP]. split; [done|]. intros x. rewrite HP. unfold payload_of.
    setoid_rewrite prefixRange_elem. naive_solver.
Qed.

Lemma unmarshal_spec {T} (as_ : Value -> option T) v x s R `{!StoreRel R} : store_ok s -> as_ v = Some x ->
  runs (unmarshal as_ v) s store_ok R (fun r s' => r = x /\ s' = s).
Proof using Type. intros HI Hx. unfold unmarshal. rewrite Hx. by rret. Qed.

Lemma range_recipe s kv done : store_ok s -> done ++ [kv] `prefix_of` dbRange (db s) "r/" (prefixUpperBound "r/") ->
  exists x e, kv = (objectRecipeKey x, VRecipe e) /\ dbGet (db s) (objectRecipeKey x) = Some (VRecipe e).
Proof using Type*.
  intros [_ Hd] [r Hr]. destruct kv as [k v].
  assert ((k, v) ∈ dbRange (db s) "r/" (prefixUpperBound "r/")) as Hin by (rewrite Hr; set_solver).
  apply prefixRange_elem in Hin as [Hg [x ->]%recipe_key]. destruct (typed_recipe x v) as [e ->]; [by eapply do_typed|]. eauto.
Qed.

Lemma gcMark_spec s P cutoff : store_ok s -> (forall x, x ∈ P <-> payload_of (db s) x) ->
  runs (gcMark (db s) P cutoff) s store_ok same (fun r s' => same s s' /\
    (forall h, h ∈ r.1 <-> exists x e, dbGet (db s) (objectRecipeKey x) = Some (VRecipe e) /\
       keeps_recipe (db s) cutoff x e /\ h ∈ reChunkHashes e) /\
    (forall k x, r.2 !! k = Some x <-> k = objectRecipeKey x /\
       exists e, dbGet (db s) k = Some (VRecipe e) /\ ~ keeps_recipe (db s) cutoff x e)).
Proof using Type*.
  intros HI HP. unfold gcMark, snapshotIterPrefix.
  eapply runs_post; [apply (scan_spec _ _ _ _ _ _ _ _ (fun done (r : gset string * gmap string ObjectDigest) =>
    (forall h, h ∈ r.1 <-> exists x e, (objectRecipeKey x, VRecipe e) ∈ done /\ keeps_recipe (db s) cutoff x e /\ h ∈ reChunkHashes e) /\
    (forall k x, r.2 !! k = Some x <-> k = objectRecipeKey x /\
       exists e, (k, VRecipe e) ∈ done /\ ~ keeps_recipe (db s) cutoff x e))); [done|..]|].
  - split.
    + intros h. cbn [fst]; rewrite elem_of_empty. split; [done|]. by intros (x & e & ?%elem_of_nil & _).
    + intros k x. cbn [snd]; rewrite lookup_empty. split; [done|]. by intros (_ & e & ?%elem_of_nil & _).
  - intros done [L O] kv s' Hpre Hs' HI' [HL HO]. cbn [fst snd] in HL, HO.
    destruct (range_recipe s kv done HI Hpre) as (x & e & -> & Hx). cbn [fst snd].
    rbind; [by apply (unmarshal_spec asRecipe _ e _ _)|]. intros e' s1 _ _ [-> ->].
    rewrite (TrimPrefix_app "r/" x : TrimPrefix (objectRecipeKey x) "r/" = x). cbv zeta. unfold snapshotHas. apply runs_assoc.
    rbind; [by apply (runs_io _ _)|]. intros [] s1 HI1 _ Hs1. apply runs_ret_bind. rret; [done|]. split; [done|].
    set (c := bool_decide (is_Some (dbGet (db s) (manifestKey x))) || bool_decide (x ∈ P) || negb (Before (reUpdatedAt e) cutoff)).
    assert (c = true <-> keeps_recipe (db s) cutoff x e) as Hc.
    { unfold c, keeps_recipe, reachable, Before. rewrite !orb_true_iff, !bool_decide_eq_true, HP, negb_true_iff, Z.ltb_ge. tauto. }
    destruct c; cbn [fst snd]; split.
    + intros h. unfold addHashes. rewrite elem_of_union, elem_of_list_to_set, HL. setoid_rewrite elem_of_app.
      setoid_rewrite list_elem_of_singleton. split.
      * intros [Hh|(x' & e' & ? & ? & ?)]; [exists x, e; tauto|exists x', e'; tauto].
      * intros (x' & e' & [Hin|Heq] & ? & ?); [right; eauto|]. injection Heq as _ ->. by left.
    + intros k y. rewrite HO. setoid_rewrite elem_of_app. setoid_rewrite list_elem_of_singleton. split.
      * intros (-> & e' & ? & ?). eauto 8.
      * intros (-> & e' & [?|Heq] & Hk); [eauto 8|]. injection Heq as Hxy ->. destruct Hk. assert (y = x) as -> by exact Hxy. tauto.
    + intros h. rewrite HL. setoid_rewrite elem_of_app. setoid_rewrite list_elem_of_singleton. split.
      * intros (x' & e' & ? & ? & ?). eauto 8.
      * intros (x' & e' & [?|Heq] & Hk & ?); [eauto 8|]. injection Heq as Hxy ->.
        assert (x' = x) as -> by exact Hxy. apply Hc in Hk. done.
    + intros k y. setoid_rewrite elem_of_app. setoid_rewrite list_elem_of_singleton.
      rewrite lookup_insert_Some, HO. split.
      * intros [[<- <-]|[Hne (-> & e' & ? & ?)]]; [|eauto 8]. split; [done|]. exists e. split; [by right|]. intros Hk%Hc. done.
      * intros (-> & e' & [Hin|Heq] & Hk).
        -- destruct (decide (objectRecipeKey x = objectRecipeKey y)) as [Heq|]; [left|right; eauto 8].
           split; [done|]. by apply (str_app_inj_l "r/") in Heq.
        -- injection Heq as Hxy ->. assert (y = x) as -> by exact Hxy. by left.
  - intros r s' _ _ [Hs [HL HO]]. split; [done|]. split.
    + intros h. rewrite HL. setoid_rewrite prefixRange_elem. split; [naive_solver|].
      intros (x & e & ? & ? & ?). exists x, e. split; [|done]. split; [done|apply HasPrefix_app].
    + intros k x. rewrite HO. setoid_rewrite prefixRange_elem. split; [naive_solver|].
      intros (-> & e & ? & ?). split; [done|]. exists e. split; [|done]. split; [done|apply HasPrefix_app].
Qed.


Lemma gcRescan_spec s start live : store_ok s ->
  runs (gcRescan start live) s store_ok same (fun L s' => same s s' /\ forall h, h ∈ L <-> h ∈ live \/
    exists x e, dbGet (db s) (objectRecipeKey x) = Some (VRecipe e) /\ start <= reUpdatedAt e /\ h ∈ reChunkHashes e).
Proof using Type*.
  intros HI. unfold gcRescan, metaIterPrefix, snapshotIterPrefix. rgets.
  eapply runs_post; [apply (scan_spec _ _ _ _ _ _ _ _ (fun done L => forall h, h ∈ L <-> h ∈ live \/
    exists x e, (objectRecipeKey x, VRecipe e) ∈ done /\ start <= reUpdatedAt e /\ h ∈ reChunkHashes e)); [done|..]|].
  - intros h. split; [by left|]. intros [?|(x & e & ?%elem_of_nil & _)]; done.
  - intros done L kv s' Hpre Hs' HI' HL. destruct (range_recipe s kv done HI Hpre) as (x & e & -> & Hx). cbn [fst snd].
    rbind; [by apply (unmarshal_spec asRecipe _ e _ _)|]. intros e' s1 _ _ [-> ->]. rret; [done|]. split; [done|]. intros h.
    setoid_rewrite elem_of_app. setoid_rewrite list_elem_of_singleton. unfold Before. destruct (Z.ltb_spec (reUpdatedAt e) start); cbn [negb].
    + rewrite HL. split; [intros [?|(x' & e' & ? & ?)]; eauto 8|].
      intros [?|(x' & e' & [?|Heq] & ? & ?)]; [by left|eauto 8|]. injection Heq as _ ->. lia.
    + unfold addHashes. rewrite elem_of_union, elem_of_list_to_set, HL. split.
      * intros [?|[?|(x' & e' & ? & ?)]]; [right; exists x, e; tauto|by left|eauto 8].
      * intros [?|(x' & e' & [?|Heq] & ? & ?)]; [auto|eauto 8|]. injection Heq as _ ->. by left.
  - intros L s' _ _ [Hs HL]. split; [done|]. intros h. rewrite HL. setoid_rewrite prefixRange_elem. split; [naive_solver|].
    intros [?|(x & e & ? & ?)]; [by left|]. right. exists x, e. split; [|done]. split; [done|apply HasPrefix_app].
Qed.

Lemma range_chunk s kv done : store_ok s -> done ++ [kv] `prefix_of` dbRange (db s) "c/" (prefixUpperBound "c/") ->
  exists e, kv = (chunkIndexKey (ceChunkHash e), VChunk e).
Proof using Type*.
  intros [_ Hd] [r Hr]. destruct kv as [k v].
  assert ((k, v) ∈ dbRange (db s) "c/" (prefixUpperBound "c/")) as Hin by (rewrite Hr; set_solver).
  apply prefixRange_elem in Hin as [Hg [h ->]%HasPrefix_spec]. destruct (typed_chunk h v) as [e ->]; [by eapply do_typed|].
  destruct (do_chunks _ _ _ Hd h e Hg) as [<- _]. by exists e.
Qed.

Definition chunkRange (d : DB) : list (string * Value) := dbRange d "c/" (prefixUpperBound "c/").

Lemma gcDead_spec s s' live cutoff : store_ok s -> store_ok s' ->
  runs (gcDead (db s) live cutoff) s' store_ok same (fun r s'' => same s' s'' /\
    r = (Z.of_nat (length (chunkRange (db s))), (List.filter (deadChunk live cutoff) (chunkRange (db s))).*1)).
Proof using Type*.
  intros HI HI'. unfold gcDead, snapshotIterPrefix.
  apply (scan_spec _ _ _ _ _ _ _ _ (fun done r => r = (Z.of_nat (length done), (List.filter (deadChunk live cutoff) done).*1)));
    [done|done|].
  intros done r kv s1 Hpre Hs1 HI1 ->. destruct (range_chunk s kv done HI Hpre) as (e & ->). cbn [fst snd].
  rbind; [by apply (unmarshal_spec asChunk _ e _ _)|]. intros e' s2 _ _ [-> ->]. rret; [done|]. split; [done|].
  rewrite List.filter_app, fmap_app, length_app. f_equal; [cbn [length]; lia|]. cbn [List.filter deadChunk snd].
  destruct (bool_decide (ceChunkHash e ∈ live)); cbn [negb andb]; [by rewrite app_nil_r|].
  destruct (Before (ceUpdatedAt e) cutoff); [done|by rewrite app_nil_r].
Qed.

Lemma gcOrphans_spec s orphans : runs (gcOrphans orphans) s (fun _ => True) same (fun l s' => same s s' /\
  forall k, k ∈ l <-> exists x, orphans !! k = Some x /\ dbGet (db s) (manifestKey x) = None).
Proof using Type*.
  unfold gcOrphans. eapply runs_post; [apply (runs_forM _ [] _ s _ _ (fun done l s' => same s s' /\
    forall k, k ∈ l <-> exists x, (k, x) ∈ done /\ dbGet (db s) (manifestKey x) = None)); [done|..]|].
  - split; [done|]. intros k. split; [by intros ?%elem_of_nil|]. by intros (x & ?%elem_of_nil & _).
  - intros done l [k x] s1 _ _ _ [Hs1 Hl]. cbn [fst snd]. rbind; [by apply (metaHas_spec _ _ _ _)|].
    intros b s2 _ _ [Hs2 ->]. destruct (same_eq _ _ Hs1) as (-> & _). rret; [done|]. split; [by etrans|]. intros k'.
    setoid_rewrite elem_of_app. setoid_rewrite list_elem_of_singleton.
    case_bool_decide as Hb; [|rewrite elem_of_app, list_elem_of_singleton]; rewrite Hl.
    + split; [intros (x' & ? & ?); eauto|]. intros (x' & [?|Heq] & Hn); [eauto|]. injection Heq as -> ->. rewrite Hn in Hb. by destruct Hb.
    + apply eq_None_not_Some in Hb. split.
      * intros [(x' & ? & ?)| ->]; eauto.
      * intros (x' & [?|Heq] & Hn); [eauto|]. injection Heq as -> ->. by right.
  - intros l s' _ _ [Hs Hl]. split; [done|]. intros k. rewrite Hl. by setoid_rewrite elem_of_map_to_list.
Qed.

End scans.

(** ** What the collector removes *)

Section garbage.
Context {E : Ext}.

Definition live_hash (d : DB) (cutoff : Time) (h : string) : Prop :=
  exists x e, dbGet d (objectRecipeKey x) = Some (VRecipe e) /\ keeps_recipe d cutoff x e /\ h ∈ reChunkHashes e.

Inductive garbage (d : DB) (cutoff : Time) : string -> Prop :=
  | garbage_chunk e : dbGet d (chunkIndexKey (ceChunkHash e)) = Some (VChunk e) ->
      ~ live_hash d cutoff (ceChunkHash e) -> ceUpdatedAt e < cutoff -> garbage d cutoff (chunkIndexKey (ceChunkHash e))
  | garbage_recipe x e : dbGet d (objectRecipeKey x) = Some (VRecipe e) ->
      ~ keeps_recipe d cutoff x e -> garbage d cutoff (objectRecipeKey x).

Lemma keeps_mono d c c' x e : c <= c' -> keeps_recipe d c' x e -> keeps_recipe d c x e.
Proof. intros Hc [?|?]; [by left|right; lia]. Qed.

Lemma garbage_mono d c c' k : c <= c' -> garbage d c k -> garbage d c' k.
Proof.
  intros Hc [e He Hl Hu|x e He Hk]; [apply garbage_chunk; [done| |lia]|by eapply garbage_recipe; [done|]; intros ?%(keeps_mono _ c)].
  intros (x & r & ? & ? & ?). apply Hl. exists x, r. split; [done|]. split; [by eapply keeps_mono|done].
Qed.

(** Only metadata changes. *)
Record meta_only (s s' : Store) : Prop := {
  mo_packs : packs s' = packs s; mo_dir : packsDir s' = packsDir s; mo_active : activePack s' = activePack s;
  mo_dicts : dicts s' = dicts s; mo_cache : chunkCache s' = chunkCache s; mo_legacy : legacy s' = legacy s;
  mo_clock : clock s <= clock s'; mo_faults : faults s = [] -> faults s' = [] }.

#[export] Instance meta_only_rel : StoreRel meta_only.
Proof.
  split.
  - intros s. by split.
  - intros s1 s2 s3 [] []. split; try congruence; [lia|auto].
  - by intros s s' [].
Qed.

#[export] Instance meta_only_env : EnvRel meta_only.
Proof.
  intros s s' Hs. destruct (same_eq _ _ Hs) as (_ & ? & ? & ? & ? & ?). pose proof (same_legacy _ _ Hs).
  destruct Hs. by split.
Qed.

(** Nothing but garbage went away, so far. *)
Definition gc_inv (s : Store) (grace : Z) (s' : Store) : Prop :=
  forall k, dbGet (db s') k = dbGet (db s) k \/ dbGet (db s') k = None /\ garbage (db s) (clock s' - grace) k.

#[export] Instance gc_inv_env s grace : EnvInv (gc_inv s grace).
Proof.
  intros s1 s2 Hs HI k. destruct (same_eq _ _ Hs) as (-> & _). pose proof (same_clock _ _ Hs).
  destruct (HI k) as [?|[? ?]]; [by left|right]. split; [done|]. eapply garbage_mono; [|done]. lia.
Qed.

Lemma runs_gc {A} (m : M A) s s1 grace P : gc_inv s grace s1 -> runs m s1 store_ok same P ->
  runs m s1 (gc_inv s grace) meta_only P.
Proof.
  intros HI H. eapply runs_mono; [exact H| |done]. intros s' _ Hs. split; [by eapply gc_inv_env|by apply meta_only_env].
Qed.

Context `{!ExtLaws E}.

Lemma metaDeleteKeys_spec s s1 grace keys cutoff : gc_inv s grace s1 -> cutoff <= clock s1 - grace ->
  (forall k, k ∈ keys -> garbage (db s) cutoff k) ->
  runs (metaDeleteKeys keys) s1 (gc_inv s grace) meta_only (fun _ s' =>
    forall k, dbGet (db s') k = if bool_decide (k ∈ keys) then None else dbGet (db s1) k).
Proof using Type*.
  intros HI Hc Hk. unfold metaDeleteKeys, metaApply. rbind; [by apply (runs_io _ _)|]. intros [] s2 HI2 _ Hs2.
  destruct (same_eq _ _ Hs2) as (Hd & _). pose proof (same_clock _ _ Hs2).
  assert (forall k, dbGet (dbApply (map WDel keys) (db s2)) k = if bool_decide (k ∈ keys) then None else dbGet (db s1) k) as Hw.
  { intros k. by rewrite dbGet_apply, writesAt_dels, Hd. }
  unfold runs, modify. split; [|split; [by split; simpl; try done; lia|done]].
  intros k. simpl. rewrite Hw. case_bool_decide as Hin; [|rewrite <- Hd; apply HI2]. right. split; [done|].
  eapply garbage_mono; [|by apply Hk]. lia.
Qed.

Lemma deadKeys_spec s L cutoff : store_ok s -> (forall h, h ∈ L <-> live_hash (db s) cutoff h) ->
  forall k, k ∈ (List.filter (deadChunk L cutoff) (chunkRange (db s))).*1 <->
    exists e, k = chunkIndexKey (ceChunkHash e) /\ dbGet (db s) k = Some (VChunk e) /\
      ~ live_hash (db s) cutoff (ceChunkHash e) /\ ceUpdatedAt e < cutoff.
Proof using Type*.
  intros HI Hlive k. rewrite list_elem_of_fmap. setoid_rewrite list_elem_of_In. setoid_rewrite filter_In.
  setoid_rewrite <- list_elem_of_In. unfold chunkRange, deadChunk, Before. split.
  - intros ([k' v] & -> & Hin & Hdd). apply prefixRange_elem in Hin as [Hk' Hpre].
    destruct v; try done. cbn [snd] in Hdd.
    rewrite andb_true_iff, negb_true_iff, bool_decide_eq_false, Z.ltb_lt, Hlive in Hdd. destruct Hdd as [? ?].
    apply HasPrefix_spec in Hpre as [h ->]. destruct (do_chunks _ _ _ (proj2 HI) h e Hk') as [<- _]. by exists e.
  - intros (e & -> & Hk & Hnl & Hu). exists (chunkIndexKey (ceChunkHash e), VChunk e). split; [done|]. split.
    + apply prefixRange_elem. split; [done|apply HasPrefix_chunk].
    + cbn [snd]. rewrite andb_true_iff, negb_true_iff, bool_decide_eq_false, Z.ltb_lt, Hlive. done.
Qed.

(** The entries counted as swept are those that are gone. *)
Lemma deadKeys_gone (d d' : DB) (f : string * Value -> bool) :
  (forall k, HasPrefix k "c/" = true -> dbGet d' k = if bool_decide (k ∈ (List.filter f (chunkRange d)).*1) then None else dbGet d k) ->
  List.filter f (chunkRange d) = List.filter (fun kv => bool_decide (dbGet d' kv.1 = None)) (chunkRange d).
Proof using Type*.
  intros Hd'. apply List.filter_ext_in. intros [k v] Hin%list_elem_of_In. cbn [fst].
  pose proof Hin as Hin0. apply prefixRange_elem in Hin as [Hv Hpre]. rewrite (Hd' k Hpre).
  destruct (decide (k ∈ (List.filter f (chunkRange d)).*1)) as [H1|H1];
    [rewrite (bool_decide_true (k ∈ _)) by done|rewrite (bool_decide_false (k ∈ _)) by done].
  - rewrite bool_decide_true by done. apply list_elem_of_fmap in H1 as ([k' v'] & Heq & Hin'). cbn [fst] in Heq. subst k'.
    apply list_elem_of_In, filter_In in Hin' as [Hin' Hf]. apply list_elem_of_In, prefixRange_elem in Hin' as [Hv' _]. congruence.
  - rewrite bool_decide_false by by rewrite Hv. destruct (f (k, v)) eqn:Hf; [|done]. destruct H1.
    apply list_elem_of_fmap. exists (k, v). split; [done|]. apply list_elem_of_In, filter_In. by rewrite <- list_elem_of_In.
Qed.

(** What the first step finds. *)
Record marked (s : Store) (cutoff : Time) (live : gset string) (orphans : gmap string ObjectDigest) : Prop := {
  mk_live : forall h, h ∈ live <-> live_hash (db s) cutoff h;
  mk_orphans : forall k x, orphans !! k = Some x <-> k = objectRecipeKey x /\
    exists e, dbGet (db s) k = Some (VRecipe e) /\ ~ keeps_recipe (db s) cutoff x e;
  mk_keeps : forall x e, keeps_recipe (db s) cutoff x e \/ ~ keeps_recipe (db s) cutoff x e }.

Lemma start_spec s grace : store_ok s ->
  runs (gcResume grace AtStart) s store_ok same (fun p s' => same s s' /\ exists start live orphans,
    p = AtRescan start (db s) live orphans /\ clock s <= start <= clock s' /\ marked s (start - grace) live orphans).
Proof using Type*.
  intros HI. cbn [gcResume]. unfold ctxErr.
  rbind; [by apply (runs_io _ _)|]. intros [] s1 HI1 _ Hs1.
  rbind; [by apply (runs_now _ _)|]. intros start s2 HI2 _ [Hs2 ->].
  assert (same s s2) as Hs by by etrans. destruct (same_eq _ _ Hs) as (Hd & _). pose proof (same_clock _ _ Hs) as Hc2.
  unfold metaSnapshot. rgets. rewrite Hd.
  rbind; [by apply gcPayloads_spec|]. intros P s3 HI3 _ [Hs3 HP].
  assert (db s3 = db s) as Hd3 by by destruct (same_eq _ _ Hs3) as (-> & _).
  rbind; [rewrite <- Hd3; apply gcMark_spec; [done|by rewrite Hd3]|].
  intros [L O] s4 HI4 _ (Hs4 & HL & HO). rewrite Hd3 in HL, HO. cbn [fst snd] in *. rret; [done|].
  assert (same s2 s4) as Hs24 by by etrans. split; [by etrans|]. exists (clock s2), L, O. split; [done|].
  split; [pose proof (same_clock _ _ Hs24); lia|]. split; [exact HL|exact HO|].
  intros x e. unfold keeps_recipe, reachable. rewrite <- HP. destruct (dbGet (db s) (manifestKey x)); [left; left; left; by eexists|].
  destruct (decide (x ∈ P)); [left; left; by right|].
  destruct (decide (clock s2 - grace <= reUpdatedAt e)); [left; by right|right; intros [[[? ?]|?]|?]; done].
Qed.

Lemma runs_modify_id {A} (k : unit -> M A) s Inv R P : runs (k tt) s Inv R P -> runs (modify (fun s => s) ≫= k) s Inv R P.
Proof using Type. done. Qed.

(** The collector, on its own: what is gone is exactly the garbage. *)
Lemma gc_spec s grace : store_ok s -> 0 <= grace ->
  runs (gcWithGrace grace) s (gc_inv s grace) meta_only (fun rep s' => exists cutoff dead,
    clock s - grace <= cutoff <= clock s' - grace /\
    (forall h, live_hash (db s) cutoff h \/ ~ live_hash (db s) cutoff h) /\
    (forall x e, keeps_recipe (db s) cutoff x e \/ ~ keeps_recipe (db s) cutoff x e) /\
    (forall k, dbGet (db s') k = None /\ garbage (db s) cutoff k \/ dbGet (db s') k = dbGet (db s) k /\ ~ garbage (db s) cutoff k) /\
    dead = List.filter (fun kv => bool_decide (dbGet (db s') kv.1 = None)) (chunkRange (db s)) /\
    gScannedChunks rep = Z.of_nat (length (chunkRange (db s))) /\ gSweptChunks rep = Z.of_nat (length dead) /\
    gRetainedChunks rep = gScannedChunks rep - gSweptChunks rep).
Proof using Type*.
  intros HI Hg. unfold gcWithGrace, gcRun. assert (gc_inv s grace s) as H0 by (intros k; by left).
  rbind; [apply runs_gc; [done|by apply start_spec]|].
  intros p s4 HG4 _ (Hs4 & start & L & O & -> & Hst & [HL HO Hdk]). apply runs_modify_id. cbn [gcResume].
  assert (store_ok s4) as HI4 by by apply (env_inv s). assert (db s4 = db s) as Hd4 by by destruct (same_eq _ _ Hs4) as (-> & _).
  set (cutoff := start - grace) in *.
  apply runs_assoc. rbind; [apply runs_gc; [done|by apply gcRescan_spec]|]. intros L' s5 HG5 _ (Hs5 & HL').
  assert (store_ok s5) as HI5 by by apply (env_inv s4). apply runs_ret_bind, runs_modify_id. cbn [gcResume].
  assert (forall h, h ∈ L' <-> live_hash (db s) cutoff h) as Hlive.
  { intros h. rewrite HL', HL, Hd4. split; [|by left]. intros [?|(x & e & ? & ? & ?)]; [done|]. exists x, e.
    split; [done|]. split; [|done]. right. unfold cutoff. lia. }
  apply runs_assoc. rbind; [apply runs_gc; [done|by apply gcDead_spec]|]. intros dead s6 HG6 _ (Hs6 & ->). cbn [fst snd].
  set (deads := List.filter (deadChunk L' cutoff) (chunkRange (db s))).
  assert (same s4 s6) as Hs46 by by etrans.
  pose proof (same_clock _ _ Hs46). assert (db s6 = db s) as Hd6 by (destruct (same_eq _ _ Hs46) as (-> & _); done).
  pose proof (deadKeys_spec s L' cutoff HI Hlive) as Hdead. fold deads in Hdead.
  apply runs_assoc. rbind. { apply (metaDeleteKeys_spec s s6 grace _ cutoff); [done|unfold cutoff; lia|].
    intros k (e & -> & ? & ? & ?)%Hdead. by apply garbage_chunk. }
  intros [] s7 HG7 HR7 Hk7. apply runs_ret_bind, runs_modify_id. cbn [gcResume].
  apply runs_assoc. rbind. { eapply runs_mono; [apply gcOrphans_spec|..]; [|intros a s' _ _ Hp; exact Hp].
    intros s' _ Hs'. split; [by eapply gc_inv_env|by apply meta_only_env]. }
  intros swept s8 HG8 _ (Hs8 & Hsw). apply runs_ret_bind, runs_modify_id. cbn [gcResume]. destruct (same_eq _ _ Hs8) as (Hd8 & _).
  assert (clock s6 <= clock s8) by (pose proof (mo_clock _ _ HR7); pose proof (same_clock _ _ Hs8); lia).
  assert (forall k, k ∈ swept <-> exists x e, k = objectRecipeKey x /\ dbGet (db s) k = Some (VRecipe e) /\ ~ keeps_recipe (db s) cutoff x e) as Hsw'.
  { intros k. rewrite Hsw. split.
    - intros (x & [-> (e & ? & ?)]%HO & _). eauto.
    - intros (x & e & -> & He & Hk). exists x. split; [apply HO; eauto|]. rewrite Hk7, Hd6.
      rewrite bool_decide_false by (intros (e' & ? & _)%Hdead; done).
      destruct (dbGet (db s) (manifestKey x)) eqn:Hm; [|done]. destruct Hk. left. left. by rewrite Hm. }
  apply runs_assoc. rbind. { apply (metaDeleteKeys_spec s s8 grace _ cutoff); [done|unfold cutoff; lia|].
    intros k (x & e & -> & ? & ?)%Hsw'. by eapply garbage_recipe. }
  intros [] s9 HG9 HR9 Hk9.
  assert (forall k, dbGet (db s9) k = None /\ garbage (db s) cutoff k \/ dbGet (db s9) k = dbGet (db s) k /\ ~ garbage (db s) cutoff k) as Hall.
  { intros k. rewrite Hk9, Hd8, Hk7, Hd6. case_bool_decide as Hin1.
    - left. split; [done|]. apply Hsw' in Hin1 as (x & e & -> & ? & ?). by eapply garbage_recipe.
    - case_bool_decide as Hin2.
      + left. split; [done|]. apply Hdead in Hin2 as (e & -> & ? & ? & ?). by apply garbage_chunk.
      + right. split; [done|]. intros Hgb. destruct Hgb as [e He Hl Hu|x e He Hk].
        * apply Hin2, Hdead. exists e. split_and!; [reflexivity|exact He|exact Hl|exact Hu].
        * apply Hin1, Hsw'. exists x, e. split_and!; [reflexivity|exact He|exact Hk]. }
  apply runs_ret_bind. cbn [gcReport]. rret; [done|]. exists cutoff, deads. split; [pose proof (mo_clock _ _ HR9); unfold cutoff; lia|].
  split; [intros h; rewrite <- Hlive; destruct (decide (h ∈ L')); auto|]. split; [exact Hdk|].
  split; [done|]. cbn [gScannedChunks gSweptChunks gRetainedChunks]. rewrite length_fmap. split; [|done].
  apply deadKeys_gone. intros k Hpre. fold deads. rewrite Hk9, Hd8, Hk7, Hd6. rewrite bool_decide_false; [done|].
  intros (x & e & -> & _)%Hsw'. done.
Qed.

End garbage.

(** ** Properties of the collector *)

Lemma phys_ok_meta {E : Ext} s s' : meta_only s s' -> phys_ok s -> phys_ok s'.
Proof.
  intros [H1 H2 H3 H4 H5 _ _ _] [K1 K2 K3 K4 K5]. split.
  - intros id pk. rewrite H1. apply K1.
  - rewrite H1, H2. apply K2.
  - intros id size. rewrite H3, H1. apply K3.
  - by rewrite H5.
  - by rewrite H4.
Qed.

(** Dropping documents keeps a view consistent as long as recipes keep their chunks. *)
Lemma store_ok_shrink {E : Ext} s s' : store_ok s -> meta_only s s' ->
  (forall k, dbGet (db s') k = dbGet (db s) k \/ dbGet (db s') k = None) ->
  (forall x e h, dbGet (db s') (objectRecipeKey x) = Some (VRecipe e) -> h ∈ reChunkHashes e ->
     dbGet (db s') (chunkIndexKey h) = dbGet (db s) (chunkIndexKey h)) -> store_ok s'.
Proof.
  intros [Hp [D1 D2 D3]] Hm Hk Hr. pose proof (phys_ok_meta _ _ Hm Hp) as Hp'. split; [done|].
  assert (forall k v, dbGet (db s') k = Some v -> dbGet (db s) k = Some v) as Hsub by (intros k v; destruct (Hk k); congruence).
  split.
  - intros k v Hv. apply D1. auto.
  - intros h e He. destruct (D2 h e (Hsub _ _ He)) as (H1 & [c H2] & H3). destruct Hm as [Hpk _ _ Hdc _ _ _ _].
    split; [done|]. unfold entry_at, durable in *. rewrite Hpk, Hdc. split; [by exists c|done].
  - intros x e He. apply Forall_forall. intros h Hh. rewrite (Hr x e h He Hh).
    pose proof (D3 x e (Hsub _ _ He)) as Hf. rewrite Forall_forall in Hf. by apply Hf.
Qed.

(** The chunk entries left are those that were not removed. *)
Lemma chunkRange_left {E : Ext} `{!ExtLaws E} s s' : store_ok s ->
  (forall k, dbGet (db s') k = dbGet (db s) k \/ dbGet (db s') k = None) ->
  length (chunkRange (db s)) = (length (List.filter (fun kv => bool_decide (dbGet (db s') kv.1 = None)) (chunkRange (db s))) +
    length (chunkRange (db s')))%nat.
Proof.
  intros HI Hk. set (f := fun kv : string * Value => bool_decide (dbGet (db s') kv.1 = None)).
  assert (chunkRange (db s') ≡ₚ List.filter (fun kv => negb (f kv)) (chunkRange (db s))) as Hp.
  { apply NoDup_Permutation.
    - apply (NoDup_fmap_1 fst), dbRange_nodup.
    - apply NoDup_ListNoDup, List.NoDup_filter, NoDup_ListNoDup, (NoDup_fmap_1 fst), dbRange_nodup.
    - intros [k v]. unfold chunkRange. rewrite !list_elem_of_In, filter_In, <- !list_elem_of_In, !prefixRange_elem.
      unfold f. cbn [fst]. rewrite negb_true_iff, bool_decide_eq_false. destruct (Hk k) as [Hk'|Hk']; rewrite Hk' in *; naive_solver. }
  rewrite Hp. clear Hp. induction (chunkRange (db s)) as [|kv l IH]; [done|]. simpl. destruct (f kv); simpl; lia.
Qed.

(** What a completed collection leaves is consistent. *)
Lemma gc_consistent {E : Ext} `{!ExtLaws E} s s' cutoff : store_ok s -> meta_only s s' ->
  (forall x e, keeps_recipe (db s) cutoff x e \/ ~ keeps_recipe (db s) cutoff x e) ->
  (forall k, dbGet (db s') k = None /\ garbage (db s) cutoff k \/ dbGet (db s') k = dbGet (db s) k /\ ~ garbage (db s) cutoff k) ->
  store_ok s'.
Proof.
  intros HI HM Hdk Hall. apply (store_ok_shrink s s' HI HM).
  - intros k. destruct (Hall k) as [[? _]|[? _]]; auto.
  - intros x e h He Hh. destruct (Hall (chunkIndexKey h)) as [[_ Hgb]|[? _]]; [|done]. exfalso.
    inversion Hgb as [e' He' Hl Hu Heq|]. assert (ceChunkHash e' = h) as Hce by exact Heq. rewrite Hce in Hl.
    destruct (Hall (objectRecipeKey x)) as [[Hn _]|[Hsm Hng]]; [congruence|]. rewrite Hsm in He.
    destruct (Hdk x e) as [Hk|Hk]; [apply Hl; by exists x, e|]. apply Hng. by eapply garbage_recipe.
Qed.

(** ** The collector among other writers *)

Section racing.
Context {E : Ext}.

(** The chunks of the recipe are there. *)
Definition complete (d : DB) (e : objectRecipeEntry) : Prop :=
  Forall (fun h => is_Some (dbGet d (chunkIndexKey h))) (reChunkHashes e).

(** What a writer does to the store: no chunk entry and no recipe goes away, a recipe
    it writes is [fresh] and has its chunks, and a manifest it creates comes with
    such a recipe.  [Put] and everything that only adds documents does so. *)
Record writes (fresh : objectRecipeEntry -> Prop) (s s' : Store) : Prop := {
  ws_clock : clock s <= clock s';
  ws_chunks : forall h v, dbGet (db s) (chunkIndexKey h) = Some v -> dbGet (db s') (chunkIndexKey h) = Some v;
  ws_kept : forall x e, dbGet (db s) (objectRecipeKey x) = Some (VRecipe e) -> exists e', dbGet (db s') (objectRecipeKey x) = Some (VRecipe e');
  ws_recipes : forall x e, dbGet (db s') (objectRecipeKey x) = Some (VRecipe e) ->
    dbGet (db s) (objectRecipeKey x) = Some (VRecipe e) \/ fresh e /\ complete (db s') e;
  ws_manifests : forall x, is_Some (dbGet (db s') (manifestKey x)) -> is_Some (dbGet (db s) (manifestKey x)) \/
    exists e, dbGet (db s') (objectRecipeKey x) = Some (VRecipe e) /\ fresh e /\ complete (db s') e }.

(** Which writers may run where.  Before the second look, writers whose recipes
    are as young as the collection; before the orphans are checked again, all;
    between each of these looks and the removal it is for, only writers that commit
    no recipe and create no manifest. *)
Definition allowed (p : gcPoint) (s s' : Store) : Prop :=
  match p with
  | AtRescan start _ _ _ => writes (fun e => start <= reUpdatedAt e) s s' /\ store_ok s'
  | AtSweep _ _ _ _ => writes (fun _ => False) s s' /\ store_ok s'
  | AtRecheck _ _ _ => writes (fun _ => True) s s'
  | AtRemove _ _ _ => writes (fun _ => False) s s'
  | _ => False
  end.

(** A collection that started on [s] is at a point, or ([None]) has returned an
    error, with the store as it is then. *)
Inductive gc_run (grace : Z) (s : Store) : option gcPoint -> Store -> Prop :=
  | run_start : gc_run grace s (Some AtStart) s
  | run_step p s1 p' s2 : gc_run grace s (Some p) s1 -> gcResume grace p s1 = (Ok p', s2) -> gc_run grace s (Some p') s2
  | run_fail p s1 e s2 : gc_run grace s (Some p) s1 -> gcResume grace p s1 = (Err e, s2) -> gc_run grace s None s2
  | run_write p s1 s2 : gc_run grace s (Some p) s1 -> allowed p s1 s2 -> gc_run grace s (Some p) s2.

Lemma complete_more d d' e : (forall h v, dbGet d (chunkIndexKey h) = Some v -> dbGet d' (chunkIndexKey h) = Some v) ->
  complete d e -> complete d' e.
Proof. intros Hd He. eapply Forall_impl; [exact He|]. intros h [v Hv]. eexists. by apply Hd. Qed.

Lemma complete_ok s x e : store_ok s -> dbGet (db s) (objectRecipeKey x) = Some (VRecipe e) -> complete (db s) e.
Proof. intros [_ Hd] He. exact (do_recipes _ _ _ Hd x e He). Qed.

Section invariant.
Context (s0 : Store) (grace : Z).
Local Abbreviation d0 := (db s0).

(** What was in use at the start is there with its chunks, and so is the recipe of
    every manifest that is new. *)
Record in_use (cutoff : Time) (fresh : objectRecipeEntry -> Prop) (s : Store) : Prop := {
  iu_cutoff : clock s0 - grace <= cutoff <= clock s - grace;
  iu_kept : forall x e, dbGet d0 (objectRecipeKey x) = Some (VRecipe e) -> keeps_recipe d0 cutoff x e ->
    exists e', dbGet (db s) (objectRecipeKey x) = Some (VRecipe e') /\ complete (db s) e';
  iu_chunks : forall h, live_hash d0 cutoff h -> dbGet (db s) (chunkIndexKey h) = dbGet d0 (chunkIndexKey h);
  iu_new : forall x, is_Some (dbGet (db s) (manifestKey x)) -> is_Some (dbGet d0 (manifestKey x)) \/
    exists e, dbGet (db s) (objectRecipeKey x) = Some (VRecipe e) /\ fresh e /\ complete (db s) e }.

(** Before the chunks are swept: recipes are old or fresh, and have their chunks. *)
Record unswept (cutoff : Time) (fresh : objectRecipeEntry -> Prop) (s : Store) : Prop := {
  us_use : in_use cutoff fresh s;
  us_ok : store_ok s;
  us_recipes : forall x e, dbGet (db s) (objectRecipeKey x) = Some (VRecipe e) ->
    dbGet d0 (objectRecipeKey x) = Some (VRecipe e) \/ fresh e }.

Definition orphan (cutoff : Time) (x : ObjectDigest) : Prop :=
  exists e, dbGet d0 (objectRecipeKey x) = Some (VRecipe e) /\ ~ keeps_recipe d0 cutoff x e.

(** The invariant of a collection. *)
Definition gc_ok (p : gcPoint) (s : Store) : Prop :=
  match p with
  | AtStart => s = s0
  | AtRescan start snapshot live orphans => clock s0 <= start <= clock s /\ snapshot = d0 /\ marked s0 (start - grace) live orphans /\
      unswept (start - grace) (fun e => start <= reUpdatedAt e) s
  | AtSweep cutoff snapshot live orphans => snapshot = d0 /\ (exists live', marked s0 cutoff live' orphans /\ live' ⊆ live) /\
      unswept cutoff (fun e => forall h, h ∈ reChunkHashes e -> h ∈ live) s
  | AtRecheck _ _ orphans => exists cutoff live, marked s0 cutoff live orphans /\ in_use cutoff (fun _ => True) s /\
      (forall x e, dbGet (db s) (objectRecipeKey x) = Some (VRecipe e) -> complete (db s) e \/ orphan cutoff x)
  | AtRemove _ _ swept => exists cutoff, in_use cutoff (fun _ => True) s /\
      (forall k, k ∈ swept -> exists x, k = objectRecipeKey x /\ orphan cutoff x /\ dbGet (db s) (manifestKey x) = None) /\
      (forall x e, dbGet (db s) (objectRecipeKey x) = Some (VRecipe e) -> objectRecipeKey x ∉ swept -> complete (db s) e)
  | AtEnd _ => (exists cutoff, in_use cutoff (fun _ => True) s) /\
      (forall x e, dbGet (db s) (objectRecipeKey x) = Some (VRecipe e) -> complete (db s) e)
  end.

Lemma in_use_weaken cutoff (F G : objectRecipeEntry -> Prop) s : (forall e, F e -> G e) -> in_use cutoff F s -> in_use cutoff G s.
Proof. intros HFG [H1 H2 H3 H4]. split; [done|done|done|]. intros x Hx. destruct (H4 x Hx) as [?|(e & ? & ? & ?)]; [by left|right; eauto 6]. Qed.

(** Every point keeps what is in use. *)
Lemma gc_ok_use p s : store_ok s0 -> 0 <= grace -> gc_ok p s -> exists cutoff, in_use cutoff (fun _ => True) s.
Proof.
  intros H0 Hg. destruct p; cbn [gc_ok].
  - intros ->. exists (clock s0 - grace). split; [lia| |done|by left]. intros x e He _. exists e. split; [done|by eapply complete_ok].
  - intros (_ & _ & _ & [Hu _ _]). eexists. by eapply in_use_weaken.
  - intros (_ & _ & [Hu _ _]). eexists. by eapply in_use_weaken.
  - intros (cutoff & _ & _ & Hu & _). eauto.
  - intros (cutoff & Hu & _). eauto.
  - by intros [? _].
Qed.

Lemma in_use_same cutoff F s s' : same s s' -> in_use cutoff F s -> in_use cutoff F s'.
Proof.
  intros Hs [H1 H2 H3 H4]. destruct (same_eq _ _ Hs) as (Hd & _). pose proof (same_clock _ _ Hs). split; rewrite ?Hd; [lia|done..].
Qed.

(** *** Writers keep the invariant *)

Lemma in_use_writes cutoff (F G : objectRecipeEntry -> Prop) s s' : (forall e, G e -> F e) -> writes G s s' ->
  (forall h, live_hash d0 cutoff h -> is_Some (dbGet d0 (chunkIndexKey h))) -> in_use cutoff F s -> in_use cutoff F s'.
Proof.
  intros HGF [W1 W2 W3 W4 W5] Hlive [H1 H2 H3 H4]. split.
  - lia.
  - intros x e He Hk. destruct (H2 x e He Hk) as (e1 & He1 & Hc1). destruct (W3 x e1 He1) as [e2 He2]. exists e2. split; [done|].
    destruct (W4 x e2 He2) as [Hold|[_ Hc]]; [|done]. assert (e2 = e1) as -> by congruence. by eapply complete_more.
  - intros h Hh. destruct (Hlive h Hh) as [v Hv]. rewrite Hv. apply W2. by rewrite H3.
  - intros x Hx. destruct (W5 x Hx) as [Hold|(e & He & Hf & Hc)]; [|right; eauto]. destruct (H4 x Hold) as [?|(e & He & Hf & Hc)]; [by left|right].
    destruct (W3 x e He) as [e2 He2]. exists e2. split; [done|]. destruct (W4 x e2 He2) as [Ho|[? ?]]; [|auto].
    assert (e2 = e) as -> by congruence. split; [done|]. by eapply complete_more.
Qed.

Lemma live_there cutoff h : store_ok s0 -> live_hash d0 cutoff h -> is_Some (dbGet d0 (chunkIndexKey h)).
Proof. intros H0 (x & e & He & _ & Hh). pose proof (complete_ok s0 x e H0 He) as Hc. unfold complete in Hc. rewrite Forall_forall in Hc. auto. Qed.

Lemma unswept_writes cutoff F s s' : store_ok s0 -> writes F s s' -> store_ok s' -> unswept cutoff F s -> unswept cutoff F s'.
Proof.
  intros H0 HW Hok' [U1 U2 U3]. split; [|done|].
  - eapply in_use_writes; [|exact HW| |done]; [done|]. intros h. by eapply live_there.
  - intros x e He. destruct (ws_recipes _ _ _ HW x e He) as [?|[? _]]; [by apply U3|by right].
Qed.

Lemma writes_less (F G : objectRecipeEntry -> Prop) s s' : (forall e, F e -> G e) -> writes F s s' -> writes G s s'.
Proof.
  intros HFG [W1 W2 W3 W4 W5]. split; [done|done|done| |].
  - intros x e He. destruct (W4 x e He) as [?|[? ?]]; auto.
  - intros x Hx. destruct (W5 x Hx) as [?|(e & ? & ? & ?)]; [by left|right; eauto 6].
Qed.

Lemma writer_ok p s s' : store_ok s0 -> gc_ok p s -> allowed p s s' -> gc_ok p s'.
Proof.
  intros H0. assert (forall cutoff h, live_hash d0 cutoff h -> is_Some (dbGet d0 (chunkIndexKey h))) as Hlive by (intros; by eapply live_there).
  destruct p; cbn [gc_ok allowed]; try done.
  - intros (Hst & -> & Hm & Hu) [HW Hok]. split; [pose proof (ws_clock _ _ _ HW); lia|]. split; [done|]. split; [done|]. by eapply unswept_writes.
  - intros (-> & Hm & Hu) [HW Hok]. split; [done|]. split; [done|]. eapply unswept_writes; [done| |done|done]. by eapply writes_less; [|exact HW].
  - intros (cutoff & live & Hm & Hu & Hr) HW. exists cutoff, live. split; [done|]. split; [eapply in_use_writes; [|exact HW|apply Hlive|done]; done|].
    intros x e He. destruct (ws_recipes _ _ _ HW x e He) as [Hold|[_ ?]]; [|by left]. destruct (Hr x e Hold) as [Hc|?]; [left|by right].
    eapply complete_more; [|exact Hc]. apply HW.
  - intros (cutoff & Hu & Hsw & Hr) HW. exists cutoff. split; [eapply in_use_writes; [|exact HW|apply Hlive|done]; done|]. split.
    + intros k Hk. destruct (Hsw k Hk) as (x & -> & Ho & Hn). exists x. split; [done|]. split; [done|].
      destruct (dbGet (db s') (manifestKey x)) eqn:Hx; [|done]. destruct (ws_manifests _ _ _ HW x) as [[? ?]|(e & _ & [] & _)]; [by eexists|congruence].
    + intros x e He Hk. destruct (ws_recipes _ _ _ HW x e He) as [Hold|[[] _]]. eapply complete_more; [|by eapply Hr]. apply HW.
Qed.

(** *** The collector keeps the invariant *)

Context `{!ExtLaws E}.
Hypothesis start_ok : store_ok s0.

(** Deleting keys, or failing to. *)
Definition deleted (keys : list string) (s s' : Store) : Prop :=
  clock s <= clock s' /\ forall k, dbGet (db s') k = if bool_decide (k ∈ keys) then None else dbGet (db s) k.

Lemma delete_run keys s : match metaDeleteKeys keys s with
  | (Ok _, s') => deleted keys s s'
  | (Err _, s') => same s s'
  | (Panic, _) => False
  end.
Proof using Type*.
  unfold metaDeleteKeys, metaApply, mbind, M_bind, modify. pose proof (io_same s) as Hio. unfold runs in Hio.
  destruct (io s) as [[[]|e|] s1]; [|apply Hio|done]. destruct Hio as (_ & Hs & _). destruct (same_eq _ _ Hs) as (Hd & _).
  split; [apply Hs|]. intros k. cbn. by rewrite dbGet_apply, writesAt_dels, Hd.
Qed.

(** Where the next step leads; an error leaves the store as it was. *)
Definition steps_to (p : gcPoint) (s1 : Store) : Prop :=
  match gcResume grace p s1 with
  | (Ok p', s2) => gc_ok p' s2
  | (Err _, s2) => same s1 s2
  | (Panic, _) => False
  end.

Lemma steps_same (m : M gcPoint) s1 Inv (P : gcPoint -> Store -> Prop) : runs m s1 Inv same P ->
  (forall p s2, same s1 s2 -> P p s2 -> gc_ok p s2) ->
  match m s1 with (Ok p', s2) => gc_ok p' s2 | (Err _, s2) => same s1 s2 | (Panic, _) => False end.
Proof using Type. unfold runs. destruct (m s1) as [[p|e|] s2]; intros H HP; [destruct H as (_ & ? & ?); auto|apply H|done]. Qed.

Lemma steps_bind {A} (m : M A) (f : A -> M gcPoint) s1 Inv (P : A -> Store -> Prop) : runs m s1 Inv same P ->
  (forall a s2, same s1 s2 -> P a s2 ->
     match f a s2 with (Ok p', s3) => gc_ok p' s3 | (Err _, s3) => same s2 s3 | (Panic, _) => False end) ->
  match (m ≫= f) s1 with (Ok p', s2) => gc_ok p' s2 | (Err _, s2) => same s1 s2 | (Panic, _) => False end.
Proof using Type.
  unfold runs, mbind, M_bind. destruct (m s1) as [[a|e|] s2]; intros H Hf; [|apply H|done]. destruct H as (_ & Hs & HP).
  specialize (Hf a s2 Hs HP). destruct (f a s2) as [[p|e|] s3]; [done|by etrans|done].
Qed.

Lemma step_start : steps_to AtStart s0.
Proof using start_ok ExtLaws0.
  eapply (steps_same _ s0); [by apply start_spec|]. intros p s2 Hs (_ & start & live & orphans & -> & Hst & Hm). cbn [gc_ok].
  destruct (same_eq _ _ Hs) as (Hd & _). split; [done|]. split; [done|]. split; [done|].
  assert (store_ok s2) as Hok by by apply (env_inv s0). split; [|done|by rewrite Hd; left].
  split; rewrite ?Hd; [lia| |done|by left]. intros x e He _. exists e. split; [done|]. by eapply complete_ok.
Qed.

Lemma step_rescan start snapshot live orphans s1 : gc_ok (AtRescan start snapshot live orphans) s1 -> steps_to (AtRescan start snapshot live orphans) s1.
Proof using start_ok ExtLaws0.
  intros (Hst & -> & Hm & [Hu Hok Hr]). eapply steps_bind; [by apply gcRescan_spec|]. intros live' s2 Hs [_ HL]. cbn [gc_ok].
  destruct (same_eq _ _ Hs) as (Hd & _). split; [done|].
  assert (forall x e, dbGet (db s1) (objectRecipeKey x) = Some (VRecipe e) -> start <= reUpdatedAt e -> forall h, h ∈ reChunkHashes e -> h ∈ live') as Hf.
  { intros x e He Hse h Hh. apply HL. right. by exists x, e. }
  split; [exists live; split; [done|]; intros h Hh; apply HL; by left|]. split.
  - destruct (in_use_same _ _ _ _ Hs Hu) as [H1 H2 H3 H4]. split; [done|done|done|]. intros x Hx.
    destruct (H4 x Hx) as [?|(e & He & Hse & Hc)]; [by left|right]. exists e. split; [done|]. split; [|done]. rewrite Hd in He. by eapply Hf.
  - by apply (env_inv s1).
  - intros x e He. rewrite Hd in He. destruct (Hr x e He) as [?|?]; [by left|right]. by eapply Hf.
Qed.

(** The keys swept are those of chunks that are not live. *)
Lemma dead_chunk live cutoff k : k ∈ (List.filter (deadChunk live cutoff) (chunkRange d0)).*1 -> exists h, k = chunkIndexKey h /\ h ∉ live.
Proof using start_ok ExtLaws0.
  rewrite list_elem_of_fmap. intros ([k' v] & -> & Hin%list_elem_of_In). apply filter_In in Hin as [Hin%list_elem_of_In Hd].
  unfold chunkRange in Hin. apply prefixRange_elem in Hin as [Hk [h ->]%HasPrefix_spec]. unfold deadChunk in Hd. cbn [snd fst] in *.
  destruct v; try done. apply andb_true_iff in Hd as [Hd _]. apply negb_true_iff, bool_decide_eq_false in Hd.
  destruct (do_chunks _ _ _ (proj2 start_ok) h e Hk) as [Hh _]. exists h. by rewrite <- Hh.
Qed.

Lemma recipe_key_inj x y : objectRecipeKey x = objectRecipeKey y -> x = y.
Proof using Type. apply (str_app_inj_l "r/"). Qed.

Lemma step_sweep cutoff snapshot live orphans s1 : gc_ok (AtSweep cutoff snapshot live orphans) s1 -> steps_to (AtSweep cutoff snapshot live orphans) s1.
Proof using start_ok ExtLaws0.
  intros (-> & (live' & Hm & Hsub) & [Hu Hok Hr]). eapply steps_bind; [by apply gcDead_spec|]. intros dead s2 Hs [_ ->]. cbn [fst snd].
  set (keys := (List.filter (deadChunk live cutoff) (chunkRange d0)).*1). pose proof (delete_run keys s2) as Hdel.
  unfold mbind, M_bind. destruct (metaDeleteKeys keys s2) as [[[]|e|] s3]; [|done|done]. destruct Hdel as [Hc3 Hdel]. cbn.
  destruct (same_eq _ _ Hs) as (Hd & _). rewrite Hd in Hdel. destruct (in_use_same _ _ _ _ Hs Hu) as [H1 H2 H3 H4]. rewrite Hd in *.
  assert (forall h, h ∈ live -> dbGet (db s3) (chunkIndexKey h) = dbGet (db s1) (chunkIndexKey h)) as Hlive.
  { intros h Hh. rewrite Hdel, bool_decide_false; [done|]. intros (h' & Heq & Hn)%dead_chunk.
    assert (h = h') as -> by exact (str_app_inj_l "c/" _ _ Heq). done. }
  assert (forall k, HasPrefix k "c/" = false -> dbGet (db s3) k = dbGet (db s1) k) as Hother.
  { intros k Hk. rewrite Hdel, bool_decide_false; [done|]. intros (h & -> & _)%dead_chunk. by rewrite HasPrefix_chunk in Hk. }
  assert (forall e, complete (db s1) e -> (forall h, h ∈ reChunkHashes e -> h ∈ live) -> complete (db s3) e) as Hcomp.
  { intros e Hc He. apply Forall_forall. intros h Hh. rewrite Hlive by auto. unfold complete in Hc. rewrite Forall_forall in Hc. auto. }
  assert (forall x e, dbGet (db s1) (objectRecipeKey x) = Some (VRecipe e) -> complete (db s1) e) as Hcs by (intros; by eapply complete_ok).
  assert (forall x e, dbGet (db s1) (objectRecipeKey x) = Some (VRecipe e) -> complete (db s3) e \/ orphan cutoff x) as Hrec.
  { intros x e He. destruct (Hr x e He) as [Ho|Hf]; [|left; by eapply Hcomp; [eapply Hcs|]].
    destruct (mk_keeps _ _ _ _ Hm x e) as [Hk|Hk]; [left|right; by exists e]. eapply Hcomp; [by eapply Hcs|]. intros h Hh. apply Hsub, Hm. by exists x, e. }
  exists cutoff, live'. split; [done|]. split; [|intros x e; rewrite (Hother (objectRecipeKey x)) by done; apply Hrec].
  split.
  - lia.
  - intros x e He Hk. destruct (H2 x e He Hk) as (e' & He' & _). exists e'. rewrite Hother by done. split; [done|].
    destruct (Hrec x e' He') as [?|(e1 & He1 & Hn)]; [done|]. assert (e1 = e) as -> by congruence. done.
  - intros h Hh. rewrite Hlive; [by apply H3|]. apply Hsub, Hm, Hh.
  - intros x. rewrite (Hother (manifestKey x)), (Hother (objectRecipeKey x)) by done. intros Hx. destruct (H4 x Hx) as [?|(e & He & Hf & Hc)]; [by left|right].
    exists e. split; [done|]. split; [done|]. by apply Hcomp.
Qed.

Lemma step_recheck scanned dead orphans s1 : gc_ok (AtRecheck scanned dead orphans) s1 -> steps_to (AtRecheck scanned dead orphans) s1.
Proof using start_ok ExtLaws0.
  intros (cutoff & live & Hm & Hu & Hr). eapply steps_bind; [apply gcOrphans_spec|]. intros swept s2 Hs [_ Hsw].
  destruct (same_eq _ _ Hs) as (Hd & _). exists cutoff. split; [by eapply in_use_same|]. rewrite Hd. split.
  - intros k Hk. apply Hsw in Hk as (x & [-> Ho]%Hm & Hx). by exists x.
  - intros x e He Hk. destruct (Hr x e He) as [?|Ho]; [done|]. destruct (dbGet (db s1) (manifestKey x)) eqn:Hx.
    + destruct (iu_new _ _ _ Hu x) as [Hx0|(e' & He' & _ & ?)]; [by eexists| |by assert (e' = e) as -> by congruence].
      destruct Ho as (e1 & _ & Hn). destruct Hn. left. by left.
    + destruct Hk. apply Hsw. exists x. split; [|done]. by apply Hm.
Qed.

Lemma step_remove scanned dead swept s1 : gc_ok (AtRemove scanned dead swept) s1 -> steps_to (AtRemove scanned dead swept) s1.
Proof using start_ok ExtLaws0.
  intros (cutoff & [H1 H2 H3 H4] & Hsw & Hr). unfold steps_to. cbn [gcResume]. pose proof (delete_run swept s1) as Hdel.
  unfold mbind, M_bind. destruct (metaDeleteKeys swept s1) as [[[]|e|] s2]; [|done|done]. destruct Hdel as [Hc Hdel]. cbn.
  assert (forall k, HasPrefix k "r/" = false -> dbGet (db s2) k = dbGet (db s1) k) as Hother.
  { intros k Hk. rewrite Hdel, bool_decide_false; [done|]. intros (x & -> & _)%Hsw. unfold objectRecipeKey in Hk. by rewrite HasPrefix_app in Hk. }
  assert (forall e, complete (db s1) e -> complete (db s2) e) as Hcomp.
  { intros e. apply complete_more. intros h v Hv. by rewrite Hother. }
  split; [exists cutoff; split|].
  - lia.
  - intros x e He Hk. destruct (H2 x e He Hk) as (e' & He' & Hc'). exists e'. split; [|auto]. rewrite Hdel, bool_decide_false; [done|].
    intros (y & Heq & (e1 & He1 & Hn) & _)%Hsw. apply recipe_key_inj in Heq as <-. assert (e1 = e) as -> by congruence. done.
  - intros h Hh. rewrite Hother by done. by apply H3.
  - intros x. rewrite (Hother (manifestKey x)) by done. intros Hx. destruct (H4 x Hx) as [?|(e & He & _ & Hc')]; [by left|right]. exists e.
    split; [|auto]. rewrite Hdel, bool_decide_false; [done|]. intros (y & Heq & _ & Hn)%Hsw. apply recipe_key_inj in Heq as <-.
    rewrite Hn in Hx. by destruct Hx.
  - intros x e He. rewrite Hdel in He. case_bool_decide; [done|]. apply Hcomp. by eapply Hr.
Qed.

Lemma collector_ok p s1 : gc_ok p s1 -> steps_to p s1.
Proof using start_ok ExtLaws0.
  destruct p; [intros ->; apply step_start|apply step_rescan|apply step_sweep|apply step_recheck|apply step_remove|].
  intros H. exact H.
Qed.

Lemma gc_run_ok p s : gc_run grace s0 p s -> match p with
  | Some p => gc_ok p s
  | None => exists p s1, gc_ok p s1 /\ same s1 s
  end.
Proof using start_ok ExtLaws0.
  induction 1 as [|p s1 p' s2 _ IH Hrun|p s1 e s2 _ IH Hrun|p s1 s2 _ IH Hw].
  - done.
  - pose proof (collector_ok p s1 IH) as H. unfold steps_to in H. by rewrite Hrun in H.
  - pose proof (collector_ok p s1 IH) as H. unfold steps_to in H. rewrite Hrun in H. by exists p, s1.
  - by eapply writer_ok.
Qed.

End invariant.
End racing.

(** The collector on its own, from [gc_spec]. *)
Lemma gc_alone {E : Ext} `{!ExtLaws E} (s : Store) (grace : Z) :
  store_ok s -> 0 <= grace ->
  let '(r, s') := gcWithGrace grace s in
  packs s' = packs s /\
  (forall k, HasPrefix k "c/" = false -> HasPrefix k "r/" = false -> dbGet (db s') k = dbGet (db s) k) /\
  (forall x e, dbGet (db s) (objectRecipeKey x) = Some (VRecipe e) ->
     reachable (db s) x \/ clock s' - grace <= reUpdatedAt e ->
     dbGet (db s') (objectRecipeKey x) = Some (VRecipe e) /\
     Forall (fun h => dbGet (db s') (chunkIndexKey h) = dbGet (db s) (chunkIndexKey h)) (reChunkHashes e)) /\
  (forall rep, r = Ok rep -> store_ok s').
Proof.
  intros HI Hg. pose proof (gc_spec s grace HI Hg) as H. unfold runs in H.
  destruct (gcWithGrace grace s) as [r s'].
  assert (gc_inv s grace s' /\ meta_only s s') as [HG HM] by (destruct r; tauto).
  split; [apply HM|]. split; [|split].
  - intros k Hc Hr. destruct (HG k) as [?|[_ Hgb]]; [done|].
    destruct Hgb; [by rewrite HasPrefix_chunk in Hc|unfold objectRecipeKey in Hr; by rewrite HasPrefix_app in Hr].
  - intros x e He Hk. split.
    + destruct (HG (objectRecipeKey x)) as [->|[_ Hgb]]; [done|]. inversion Hgb as [|y e' He' Hk' Heq].
      assert (y = x) as -> by exact Heq. assert (e' = e) as -> by congruence. done.
    + apply Forall_forall. intros h Hh. destruct (HG (chunkIndexKey h)) as [?|[_ Hgb]]; [done|].
      inversion Hgb as [e' He' Hl Hu Heq|]. assert (ceChunkHash e' = h) as Hce by exact Heq. destruct Hl. rewrite Hce.
      exists x, e. done.
  - intros rep ->. destruct H as (_ & _ & cutoff & dead & _ & _ & Hdk & Hall & _). by eapply gc_consistent.
Qed.

(** [Put] is a writer as the collector expects it, with recipes not older than its
    start. *)
Lemma put_writes {E : Ext} `{!ExtLaws E} (request : PutRequest) (s : Store) : store_ok s ->
  writes (fun e => clock s <= reUpdatedAt e) s (Put request s).2 /\ store_ok (Put request s).2.
Proof.
  intros HI. pose proof (put_outcome s request HI) as H. destruct (Put request s) as [[r|e|] s']; [| |done]; cbn [snd].
  - destruct H as (HI' & Hg & _ & get1 & t & m & rt & iws & Hst & _ & Hiw & Hk). split; [|done].
    set (content := delivered (script (prReader request))) in *. set (d := blake3 content) in *.
    pose proof (do_typed _ _ _ (proj2 HI)) as Hty.
    assert (forall x, dbGet (db s') (objectRecipeKey x) = get1 (objectRecipeKey x)) as Hr.
    { intros x. by rewrite Hk, (put_writes_other _ _ _ _ _ _ (prProvenance request)). }
    assert (forall x, x <> d -> get1 (objectRecipeKey x) = dbGet (db s) (objectRecipeKey x)) as Hr0.
    { intros x Hx. apply (st_other _ _ _ _ _ _ Hst); [done|]. by intros ?%recipe_key_inj. }
    assert (exists e, dbGet (db s') (objectRecipeKey d) = Some (VRecipe e) /\ clock s <= reUpdatedAt e /\ complete (db s') e) as Hd.
    { destruct (st_recipe _ _ _ _ _ _ Hst) as (t' & cs & _ & He). rewrite <- Hr in He. eexists. split; [exact He|].
      split; [|by eapply complete_ok]. rewrite Hr in He. by apply (st_time _ _ _ _ _ _ Hst). }
    split.
    + apply Hg.
    + intros h v Hv. rewrite Hk, (put_writes_chunk _ _ _ _ _ _ (prProvenance request)) by done. by apply (st_keep _ _ _ _ _ _ Hst).
    + intros x e He. destruct (decide (x = d)) as [->|Hx]; [destruct Hd as (e' & ? & _); eauto|]. exists e. by rewrite Hr, Hr0.
    + intros x e He. destruct (decide (x = d)) as [->|Hx]; [right|left; by rewrite <- Hr0, <- Hr].
      split; [|by eapply complete_ok]. rewrite Hr in He. by apply (st_time _ _ _ _ _ _ Hst).
    + intros x Hx. destruct (decide (x = d)) as [->|Hne]; [by right|left]. rewrite Hk, (put_writes_other _ _ _ _ _ _ (prProvenance request)) in Hx by done.
      rewrite bool_decide_false in Hx by (intros ?%(str_app_inj_l "m/"); done).
      by rewrite (st_other _ _ _ _ _ _ Hst) in Hx.
  - destruct H as (HI' & [Hg Hd] & _). split; [|done]. split; rewrite ?Hd; [apply Hg|done|eauto|by left|by left].
Qed.

(** C6: garbage collection keeps what is in use, with writers in the two windows its
    guards are for.  A collection runs with other writers between its steps; any I/O
    step may fail and it may be looked at anywhere.  Before it looks at the recipes
    a second time, writers may commit recipes not older than its start, and before it
    checks the orphans again any recipe, each with its chunks there; in the short
    stretches from either look to the removal that follows it they commit no recipe
    and create no manifest, and nobody deletes ([allowed]; outside of this it can lose
    data: [gc_race_dangling_recipe], [gc_race_payload_lost], [gc_race_inflight_put]).
    Then at every moment: a recipe that at the start belonged to an object with a
    manifest or to an annotation payload, or is younger than the grace period, is
    there with all its chunks, and the chunk entries it named have not changed; an
    object that got its manifest meanwhile has its recipe and all its chunks; and when
    the collection has completed, no recipe names a missing chunk.  On its own the
    collector changes nothing but recipes and chunk entries, and no pack, and leaves a
    recipe in use as it is; when it completes, the store is consistent. *)
Theorem gc_safe {E : Ext} `{!ExtLaws E} (s : Store) (grace : Z) :
  store_ok s -> 0 <= grace ->
  (forall p s', gc_run grace s p s' ->
     (forall x e, dbGet (db s) (objectRecipeKey x) = Some (VRecipe e) ->
        reachable (db s) x \/ clock s' - grace <= reUpdatedAt e ->
        (exists e', dbGet (db s') (objectRecipeKey x) = Some (VRecipe e') /\ complete (db s') e') /\
        Forall (fun h => dbGet (db s') (chunkIndexKey h) = dbGet (db s) (chunkIndexKey h)) (reChunkHashes e)) /\
     (forall x, is_Some (dbGet (db s') (manifestKey x)) -> is_Some (dbGet (db s) (manifestKey x)) \/
        exists e, dbGet (db s') (objectRecipeKey x) = Some (VRecipe e) /\ complete (db s') e) /\
     (forall report x e, p = Some (AtEnd report) -> dbGet (db s') (objectRecipeKey x) = Some (VRecipe e) -> complete (db s') e)) /\
  let '(r, s') := gcWithGrace grace s in
  packs s' = packs s /\
  (forall k, HasPrefix k "c/" = false -> HasPrefix k "r/" = false -> dbGet (db s') k = dbGet (db s) k) /\
  (forall x e, dbGet (db s) (objectRecipeKey x) = Some (VRecipe e) ->
     reachable (db s) x \/ clock s' - grace <= reUpdatedAt e ->
     dbGet (db s') (objectRecipeKey x) = Some (VRecipe e) /\
     Forall (fun h => dbGet (db s') (chunkIndexKey h) = dbGet (db s) (chunkIndexKey h)) (reChunkHashes e)) /\
  (forall rep, r = Ok rep -> store_ok s').
Proof.
  intros HI Hg. split; [|by apply gc_alone]. intros p s' Hrun. pose proof (gc_run_ok s grace HI p s' Hrun) as H.
  assert (exists cutoff, in_use s grace cutoff (fun _ => True) s') as [cutoff [H1 H2 H3 H4]].
  { destruct p as [p|]; [by eapply gc_ok_use|]. destruct H as (p & s1 & Hp & Hs).
    destruct (gc_ok_use s grace p s1 HI Hg Hp) as [cutoff Hu]. exists cutoff. by eapply in_use_same. }
  split_and!.
  - intros x e He Hx. assert (keeps_recipe (db s) cutoff x e) as Hk by (destruct Hx; [by left|right; lia]). split; [by eapply H2|].
    apply Forall_forall. intros h Hh. apply H3. by exists x, e.
  - intros x Hx. destruct (H4 x Hx) as [?|(e & ? & _ & ?)]; eauto.
  - intros report x e -> He. by apply (proj2 H x e).
Qed.

(** C7: and it takes everything else.  Without faults the collector completes;
    every recipe left is in use or younger than the grace period, every chunk
    entry left is named by such a recipe or young itself, and the report counts
    the entries before, removed and left. *)
Theorem gc_complete {E : Ext} `{!ExtLaws E} (s : Store) (grace : Z) :
  store_ok s -> 0 <= grace -> faults s = [] ->
  exists rep s', gcWithGrace grace s = (Ok rep, s') /\
    (forall x e, dbGet (db s') (objectRecipeKey x) = Some (VRecipe e) ->
       reachable (db s) x \/ clock s - grace <= reUpdatedAt e) /\
    (forall h e, dbGet (db s') (chunkIndexKey h) = Some (VChunk e) ->
       clock s - grace <= ceUpdatedAt e \/
       exists x r, dbGet (db s') (objectRecipeKey x) = Some (VRecipe r) /\ h ∈ reChunkHashes r) /\
    gScannedChunks rep = Z.of_nat (length (chunkRange (db s))) /\
    gRetainedChunks rep = Z.of_nat (length (chunkRange (db s'))) /\
    gSweptChunks rep = gScannedChunks rep - gRetainedChunks rep.
Proof.
  intros HI Hg Hf. destruct (runs_ok _ _ _ _ _ (gc_spec s grace HI Hg) Hf) as (rep & s' & Hrun & _ & _ & cutoff & dead & Hcut & Hdl & Hdk & Hall & -> & Hsc & Hsw & Hre).
  exists rep, s'. split; [done|].
  assert (forall k v, dbGet (db s') k = Some v -> dbGet (db s) k = Some v /\ ~ garbage (db s) cutoff k) as Hleft.
  { intros k v Hv. destruct (Hall k) as [[? _]|[? ?]]; [congruence|]. split; [congruence|done]. }
  split_and!.
  - intros x e He. destruct (Hleft _ _ He) as [He0 Hng]. destruct (Hdk x e) as [[?|?]|?]; [by left|right; lia|].
    destruct Hng. by eapply garbage_recipe.
  - intros h e He. destruct (Hleft _ _ He) as [He0 Hng]. destruct (do_chunks _ _ _ (proj2 HI) h e He0) as [<- _].
    destruct (Hdl (ceChunkHash e)) as [(x & r & Hr & Hk & Hin)|Hl].
    + right. exists x, r. split; [|done]. destruct (Hall (objectRecipeKey x)) as [[_ Hgb]|[-> _]]; [|done].
      inversion Hgb as [|y e' He' Hk' Heq]. assert (y = x) as -> by exact Heq. congruence.
    + left. destruct (decide (ceUpdatedAt e < cutoff)); [|lia]. destruct Hng. by apply garbage_chunk.
  - done.
  - rewrite Hre, Hsc, Hsw, (chunkRange_left s s'); [lia|done|]. intros k. destruct (Hall k) as [[? _]|[? _]]; auto.
  - lia.
Qed.

(** ** Runs on a concrete store *)

(** Long after the object was stored. *)
Definition exLater : Store := set_clock (10 ^ 18) [] exStored.

Lemma set_clock_ok (s : Store) t ts : clock s <= t -> store_ok s -> store_ok (set_clock t ts s).
Proof. intros Ht. apply env_inv. by split. Qed.

Lemma exLater_ok : store_ok exLater.
Proof. apply set_clock_ok; [apply Z.leb_le; vm_compute; reflexivity|exact exStored_ok]. Qed.

Definition recipeChunks (st : Store) (d : string) : option (list string) :=
  match dbGet (db st) (objectRecipeKey d) with Some (VRecipe e) => Some (reChunkHashes e) | _ => None end.

Lemma recipeChunks_some st d l :
  recipeChunks st d = Some l -> exists e, dbGet (db st) (objectRecipeKey d) = Some (VRecipe e) /\ reChunkHashes e = l.
Proof. unfold recipeChunks. intros H. repeat case_match; naive_solver. Qed.

Definition hasKey (st : Store) (k : string) : bool := match dbGet (db st) k with Some _ => true | None => false end.

Lemma hasKey_some st k : hasKey st k = true -> is_Some (dbGet (db st) k).
Proof. unfold hasKey. case_match; eauto || discriminate. Qed.

(** The object is gone, its chunk not yet. *)
Definition exDeleted : Store := set_clock (10 ^ 18) [] (DeleteObject (blake3 helloBytes) exStored).2.

Lemma gc_complete_witness :
  exists rep s', gcWithGrace 0 exLater = (Ok rep, s') /\ gScannedChunks rep = 1 /\
    gSweptChunks rep = gScannedChunks rep - gRetainedChunks rep.
Proof.
  destruct (gc_complete exLater 0 exLater_ok ltac:(lia) ltac:(vm_compute; reflexivity)) as (rep & s' & Hr & _ & _ & Hs & _ & Hw).
  exists rep, s'. split; [exact Hr|]. split; [|exact Hw]. rewrite Hs. vm_compute. reflexivity.
Defined.

(** ** Races with unlocked writers *)

(** Another writer at one of the collector's unlocked points. *)
Definition at_point {E : Ext} {A} (n : nat) (m : M A) (i : nat) (s : Store) : Store :=
  if Nat.eqb i n then (m s).2 else s.

Definition raced : res GCReport * Store := gcRun (at_point 1 (Put exPut)) gcGracePeriod exDeleted.

(** The collector can take a chunk a concurrent [Put] relies on.  When a put
    of content whose chunk is old and unreferenced commits after the recipes were
    scanned a second time and before the sweep, it reuses the chunk without
    touching its entry; the sweep then removes it: manifest and recipe are there,
    the chunk is not, and reading the object fails. *)
Theorem gc_race_dangling_recipe :
  raced.1 = Ok (MkGCReport 1 1 0 0) /\
  hasKey raced.2 (manifestKey (blake3 helloBytes)) = true /\
  hasKey raced.2 (objectRecipeKey (blake3 helloBytes)) = true /\
  hasKey raced.2 (chunkIndexKey (blake3 helloBytes)) = false /\
  (readBlobContent (blake3 helloBytes) raced.2).1 = Err (ErrMsg "chunk not found in index").
Proof. split_and!; vm_compute; reflexivity. Qed.

(** A payload stored long ago that no annotation refers to. *)
Definition exPayload : Store :=
  set_clock (10 ^ 18) [] (storeBlobContent (blake3 (annotationJSON bigAnnotation)) (annotationJSON bigAnnotation)
    "application/json" [] emptyStore).2.

Definition racedPayload : res GCReport * Store :=
  gcRun (at_point 0 (writePackedAnnotation bigAnnotation)) gcGracePeriod exPayload.

(** The collector can take the payload of a fresh annotation.  An annotation
    whose large payload was stored before, written during the collection, makes
    the payload's recipe current again, but the final check of the recipes to
    sweep only asks for a manifest: the recipe is removed, and the annotation can
    no longer be read. *)
Theorem gc_race_payload_lost :
  racedPayload.1 = Ok (MkGCReport 1 0 1 1) /\
  (readPackedAnnotation (aObjectDigest bigAnnotation) (aKind bigAnnotation) (aAnalyzerName bigAnnotation) racedPayload.2).1 =
    Err (ErrMsg "external annotation payload missing from chunk store").
Proof. split; vm_compute; reflexivity. Qed.

(** A [Put] under way: it has everything in its batch but the commit. *)
Definition inflight : M metaSink := p ← preparePut exPut; mret p.2.

Definition racedInflight : res GCReport * Store :=
  match inflight exDeleted with
  | (Ok sink, s) => gcRun (at_point 0 (commitSink sink)) gcGracePeriod (set_clock (clock s + 1) [] s)
  | (_, s) => (Panic, s)
  end.

(** The collector can take a chunk of a put that was under way when it started.
    The put has found the chunk and dated its recipe before the collection starts,
    and commits after the snapshot; the second look passes over the recipe because
    it is older than the start of the collection, although younger than the grace
    period, and the chunk is swept. *)
Theorem gc_race_inflight_put :
  racedInflight.1 = Ok (MkGCReport 1 1 0 0) /\
  hasKey racedInflight.2 (manifestKey (blake3 helloBytes)) = true /\
  hasKey racedInflight.2 (chunkIndexKey (blake3 helloBytes)) = false /\
  (readBlobContent (blake3 helloBytes) racedInflight.2).1 = Err (ErrMsg "chunk not found in index").
Proof. split_and!; vm_compute; reflexivity. Qed.
