(* ===== verification/Preserve.v ===== *)
(** * What every operation keeps

    Every operation of [FilesystemStore] that the other files model, seen as a
    step of one transition system: what each of them keeps, whatever it returns
    and wherever it fails.  [observes] says which part of the store an operation never touches,
    by a syntactic argument; [preserves] that the store's invariant survives it. *)

From stdpp Require Import options.
From S2P Require Import Prelude GoLib Contracts Lru Manifest Meta Concrete Dictionary ChunkStore SourceIngest Annotations ObjectStore Gc.

Local Open Scope Z_scope.

(** ** What an operation never touches *)

Section observing.
Context {E : Ext} {X : Type} (f : Store -> X).

(** [m] leaves the part [f] of the store alone, also when it fails. *)
Definition observes {A} (m : M A) : Prop := forall s, f (m s).2 = f s.

Lemma observes_bind {A B} (m : M A) (k : A -> M B) : observes m -> (forall a, observes (k a)) -> observes (m ≫= k).
Proof using Type.
  intros Hm Hk s. unfold mbind, M_bind. specialize (Hm s). destruct (m s) as [[a|e|] s1]; [|done..].
  cbn in *. by rewrite Hk.
Qed.

Lemma observes_try {A} (m : M A) : observes m -> observes (try m).
Proof using Type. intros Hm s. unfold try. specialize (Hm s). by destruct (m s) as [[a|e|] s1]. Qed.

Lemma observes_wrap {A} msg (m : M A) : observes m -> observes (wrapErr msg m).
Proof using Type. intros Hm s. unfold wrapErr. specialize (Hm s). by destruct (m s) as [[a|e|] s1]. Qed.

Lemma observes_onError {A} (m : M A) h : (forall s, f (h s) = f s) -> observes m -> observes (onError m h).
Proof using Type.
  intros Hh Hm s. unfold onError. specialize (Hm s). destruct (m s) as [[a|e|] s1]; [done| |done]. cbn in *. by rewrite Hh.
Qed.

Lemma observes_forM {A B} (l : list A) (k : B -> A -> M B) : (forall acc x, observes (k acc x)) -> forall acc, observes (forM l acc k).
Proof using Type. intros Hf. induction l as [|x l IH]; intros acc; cbn [forM]; [done|]. by apply observes_bind. Qed.

Lemma observes_modify h : (forall s, f (h s) = f s) -> observes (modify h).
Proof using Type. intros H s. apply H. Qed.

Lemma observes_liftPanic {A} (o : option A) : observes (liftPanic o).
Proof using Type. intros s. by destruct o. Qed.

Lemma observes_check e : observes (check e).
Proof using Type. by destruct e. Qed.

(** [f] does not look at the environment. *)
Class Timeless : Prop := {
  tl_faults : forall l s, f (set_faults l s) = f s;
  tl_clock : forall t ts s, f (set_clock t ts s) = f s }.

Context `{!Timeless}.

Lemma observes_io : observes io.
Proof using Type*. intros s. unfold io. destruct (faults s) as [|[| |]]; [done|apply tl_faults..]. Qed.

Lemma observes_ios n : observes (ios n).
Proof using Type*. induction n as [|n IH]; cbn [ios]; [done|]. apply observes_bind; [apply observes_io|done]. Qed.

Lemma observes_now : observes now.
Proof using Type*. intros s. unfold now. destruct (ticks s); [done|apply tl_clock]. Qed.

Lemma observes_readMarkerDir : observes readMarkerDir.
Proof using Type*.
  intros s. unfold readMarkerDir. pose proof (observes_io s) as H1. destruct (io s) as [[[]|e|] s1]; cbn in H1.
  - pose proof (observes_io s1) as H2. destruct (dsMarkers (dicts s)), (io s1) as [[[]|e|] s2]; cbn in *; congruence.
  - pose proof (observes_io s1) as H2. destruct (dsMarkers (dicts s)), (io s1) as [[[]|e'|] s2]; cbn in *; congruence.
  - by destruct (dsMarkers (dicts s)).
Qed.

End observing.

#[export] Instance timeless_key {E : Ext} k : Timeless (fun s => dbGet (db s) k).
Proof. by split. Qed.
#[export] Instance timeless_active {E : Ext} : Timeless activePack.
Proof. by split. Qed.

Lemma observes_apply {E : Ext} `{!ExtLaws E} k ws :
  Forall (fun w => match w with WSet k' _ | WDel k' => k' end <> k) ws -> observes (fun s => dbGet (db s) k) (metaApply ws).
Proof.
  intros Hw. unfold metaApply. apply observes_bind; [apply (observes_io _)|]. intros _ s. cbn. rewrite dbGet_apply.
  generalize (dbGet (db s) k). induction Hw as [|w ws Hw _ IH]; intros old; [done|].
  destruct w; cbn [writesAt]; (rewrite bool_decide_false; [apply IH|done]).
Qed.

Lemma observes_put {E : Ext} `{!ExtLaws E} k k' v : k' <> k -> observes (fun s => dbGet (db s) k) (metaPut k' v).
Proof. intros Hk. apply observes_apply. by apply Forall_singleton. Qed.

(** Goes through the definition of an operation. *)
Ltac observe_step :=
  first
  [ apply observes_bind; [|intros ?]
  | apply (observes_io _) | apply (observes_ios _) | apply (observes_now _) | apply observes_check | apply observes_liftPanic
  | apply (observes_readMarkerDir _)
  | apply observes_try | apply observes_wrap
  | apply observes_onError; [intros ?; reflexivity|]
  | apply observes_modify; intros ?; reflexivity
  | apply observes_forM; intros ? ?
  | intros ?; reflexivity
  | case_match ].

Ltac observe_unfold :=
  match goal with |- observes _ ?m =>
    let rec head t := lazymatch t with ?f _ => head f | _ => t end in
    let h := head m in
    first [constr_eq h @writePack; intros ?; unfold writePack; repeat case_match; reflexivity|unfold h]
  end.

Ltac observe := repeat first [observe_step | progress cbn zeta | observe_unfold].

(** ** Operations that keep the invariant *)

Section preserving.
Context {E : Ext} (R : Store -> Store -> Prop) `{!StoreRel R, !EnvRel R}.

Definition preserves {A} (m : M A) : Prop := forall s, store_ok s -> stops m s store_ok R (fun _ _ => True).

Lemma preserves_bind {A B} (m : M A) (f : A -> M B) : preserves m -> (forall a, preserves (f a)) -> preserves (m ≫= f).
Proof using Type*. intros Hm Hf s Hs. sbind; [by apply Hm|]. intros a s1 H1 _ _. by apply Hf. Qed.

Lemma preserves_ret {A} (a : A) : preserves (mret a).
Proof using Type*. intros s Hs. by sret. Qed.

Lemma preserves_fail {A} e : preserves (fail (A := A) e).
Proof using Type*. intros s Hs. by apply (stops_fail _ _ _ _). Qed.

Lemma preserves_gets {A} (f : Store -> A) : preserves (gets f).
Proof using Type*. intros s Hs. apply runs_stops. eapply runs_post; [by apply (runs_gets _ _ _ _)|done]. Qed.

Lemma preserves_check e : preserves (check e).
Proof using Type*. destruct e; [apply preserves_fail|apply preserves_ret]. Qed.

Lemma preserves_io : preserves io.
Proof using Type*. intros s Hs. apply runs_stops. eapply runs_post; [by apply (runs_io _ _)|done]. Qed.

Lemma preserves_now : preserves now.
Proof using Type*. intros s Hs. apply runs_stops. eapply runs_post; [by apply (runs_now _ _)|done]. Qed.

Lemma preserves_metaGet {T} (as_ : Value -> option T) key : preserves (metaGet as_ key).
Proof using Type*. intros s Hs. eapply stops_mono; [by apply (metaGet_stops _ _ _ _ _)|done]. Qed.

Lemma preserves_metaHas key : preserves (metaHas key).
Proof using Type*. intros s Hs. apply runs_stops. eapply runs_post; [by apply (metaHas_spec _ _ _ _)|done]. Qed.

Lemma preserves_try {A} (m : M A) : preserves m -> preserves (try m).
Proof using Type*. intros Hm s Hs. eapply stops_mono; [by apply stops_try, Hm|done]. Qed.

Lemma preserves_wrap {A} msg (m : M A) : preserves m -> preserves (wrapErr msg m).
Proof using Type*. intros Hm s Hs. specialize (Hm s Hs). unfold stops, wrapErr in *. by destruct (m s) as [[a|e|] s1]. Qed.

Lemma preserves_forM {A B} (l : list A) (acc : B) f : (forall acc x, preserves (f acc x)) -> preserves (forM l acc f).
Proof using Type*.
  intros Hf s Hs. apply (stops_forM_inv _ _ _ _ _ _ _); [done|done|]. intros acc' x s' _ Hs' _ _. by apply Hf.
Qed.

Lemma preserves_iter {B} prefix (acc : B) f : (forall acc x, preserves (f acc x)) -> preserves (metaIterPrefix prefix acc f).
Proof using Type*.
  intros Hf. unfold metaIterPrefix, snapshotIterPrefix, iterRange. apply preserves_bind; [apply preserves_gets|]. intros d.
  apply preserves_bind; [apply preserves_io|]. intros _. apply preserves_bind; [by apply preserves_forM|]. intros r.
  apply preserves_bind; [apply preserves_io|]. intros _. apply preserves_ret.
Qed.

End preserving.

Create HintDb keep discriminated.
#[export] Hint Resolve preserves_ret preserves_fail preserves_gets preserves_check preserves_io preserves_now
  preserves_metaGet preserves_metaHas : keep.

Ltac keep_step :=
  first
  [ solve [eauto with keep typeclass_instances]
  | apply preserves_bind; [apply _|..|intros ?]
  | apply preserves_try; [apply _|..]
  | apply preserves_wrap
  | apply preserves_forM; [apply _|..|intros ? ?]
  | apply preserves_iter; [apply _..|intros ? ?]
  | case_match ].

Ltac keep := repeat first [keep_step | progress cbn zeta].

Section observed_ops.
Context {E : Ext}.

Lemma observes_compress k chunk family : observes (fun s => dbGet (db s) k) (compressChunkContent chunk family).
Proof. observe. Qed.

Lemma observes_append k b : observes (fun s => dbGet (db s) k) (appendToActivePack b).
Proof. observe. Qed.

Lemma observes_readChunk k h : observes (fun s => dbGet (db s) k) (readChunk h).
Proof. observe. Qed.

Lemma observes_readBlobContent k d : observes (fun s => dbGet (db s) k) (readBlobContent d).
Proof. unfold readBlobContent. repeat first [apply observes_readChunk|observe_step|observe_unfold]. Qed.

End observed_ops.

(** ** Metadata operations

    Reads, and writes outside the annotations and the content namespaces, keep
    any relation that allows a single such write. *)

Class MetaRel {E : Ext} (R : Store -> Store -> Prop) : Prop := {
  mr_put : forall k v, meta_key k -> HasPrefix k "a/" = false -> typed k v = true -> preserves R (metaPut k v);
  mr_delete : forall k, meta_key k -> HasPrefix k "a/" = false -> preserves R (metaDelete k);
  mr_read : forall d, preserves R (readBlobContent d) }.

Section metadata_ops.
Context {E : Ext} {R : Store -> Store -> Prop} `{!StoreRel R, !EnvRel R, !MetaRel R}.

Definition stays_sync (m : M metaSink) : Prop :=
  forall s, store_ok s -> stops m s store_ok R (fun sink _ => sink = SyncSink).

Lemma sync_bind {A} (m : M metaSink) (f : metaSink -> M A) :
  stays_sync m -> preserves R (f SyncSink) -> preserves R (m ≫= f).
Proof using Type*. intros Hm Hf s Hs. sbind; [by apply Hm|]. intros sink s1 H1 _ ->. by apply Hf. Qed.

Lemma sync_set k v : meta_key k -> HasPrefix k "a/" = false -> typed k v = true -> stays_sync (sinkSet SyncSink k v).
Proof using Type*. intros Hk Ha Hv s Hs. cbn [sinkSet]. sbind; [by apply mr_put|]. intros [] s1 H1 _ _. by sret. Qed.

Lemma sync_record d t : stays_sync (recordProjectionChangeTo SyncSink d t).
Proof using Type*.
  intros s Hs. unfold recordProjectionChangeTo. destruct (_ || _); [by sret|].
  sbind; [by apply (metaGet_stops _ _ _ _ _)|]. intros prev s1 H1 _ [Hs1 Hp].
  sbind.
  { instantiate (1 := fun sink _ => sink = SyncSink). destruct prev as [p|]; [|by sret].
    destruct (negb _); [|by sret]. cbn [sinkDelete].
    assert (HasPrefix (pcKey p) "pc/" = true) as Hpc.
    { destruct (dbGet (db s) (projectionChangeLatestKey d)) as [v|] eqn:Hv; [|done].
      destruct (latest_typed d v) as (e & -> & ?); [by eapply do_typed, Hv; apply Hs|]. cbn in Hp. by injection Hp as ->. }
    sbind; [apply mr_delete; [by apply pc_meta_key| |done]|intros [] s2 H2 _ _; by sret].
    apply HasPrefix_spec in Hpc as [r ->]. done. }
  intros sink s2 H2 _ ->. sbind; [apply sync_set; [solve_key|done|solve_key|done]|]. intros sink s3 H3 _ ->.
  apply sync_set; [solve_key|done|solve_key|done].
Qed.

Lemma sync_manifest d m : stays_sync (writeManifestTo SyncSink d m).
Proof using Type*.
  intros s Hs. unfold writeManifestTo. sbind; [apply sync_set; [solve_key|done|solve_key|done]|]. intros sink s1 H1 _ ->. by apply sync_record.
Qed.

Lemma preserves_writeManifest d m : preserves R (writeManifest d m).
Proof using Type*. apply sync_bind; [apply sync_manifest|apply (preserves_ret _)]. Qed.

Lemma preserves_ReadManifest d : preserves R (ReadManifest d).
Proof using Type*. unfold ReadManifest, ctxErr. keep. Qed.

Lemma preserves_readManifestOr {A} d (absent : A) k :
  (forall m, preserves R (k m)) -> preserves R (readManifestOr d absent k).
Proof using Type*. intros Hk. unfold readManifestOr. pose proof (preserves_ReadManifest d). keep. all: auto. Qed.

Lemma preserves_resolve e : preserves R (resolvePackedAnnotation e).
Proof using Type*. unfold resolvePackedAnnotation. pose proof (mr_read (R := R)). keep. all: auto. Qed.

Lemma preserves_readPackedAnnotation d k n : preserves R (readPackedAnnotation d k n).
Proof using Type*. unfold readPackedAnnotation. pose proof preserves_resolve. keep. all: auto. Qed.

Lemma preserves_unmarshal {T} (as_ : Value -> option T) v : preserves R (unmarshal as_ v).
Proof using Type*. unfold unmarshal. keep. Qed.

Lemma preserves_readPackedAnnotations d : preserves R (readPackedAnnotations d).
Proof using Type*. unfold readPackedAnnotations. pose proof preserves_resolve. keep. all: auto using preserves_unmarshal. Qed.

Lemma preserves_ios n : preserves R (ios n).
Proof using Type*. induction n; cbn [ios]; keep; auto. Qed.

Lemma preserves_compoundParentsForChild d : preserves R (compoundParentsForChild d).
Proof using Type*. unfold compoundParentsForChild, readPackedCompoundParentIndex, readLegacyParents, ctxErr. keep. Qed.

Lemma preserves_refreshParent p c l : preserves R (refreshIndexedParentForSubobject p c l).
Proof using Type*.
  unfold refreshIndexedParentForSubobject. apply preserves_readManifestOr. intros m. pose proof preserves_writeManifest. keep. all: auto.
Qed.

Lemma preserves_refreshParents d : preserves R (refreshIndexedParentsForSubobject d).
Proof using Type*.
  unfold refreshIndexedParentsForSubobject, readObjectAnnotations.
  pose proof preserves_compoundParentsForChild. pose proof preserves_readPackedAnnotations. pose proof preserves_refreshParent.
  keep. all: auto.
Qed.

Lemma preserves_HasAnalysisAnnotation d n v : preserves R (HasAnalysisAnnotation d n v).
Proof using Type*. unfold HasAnalysisAnnotation, ctxErr. pose proof preserves_readPackedAnnotation. keep. all: auto. Qed.

Lemma sync_forM {A} (l : list A) (f : metaSink -> A -> M metaSink) :
  (forall x, stays_sync (f SyncSink x)) -> stays_sync (forM l SyncSink f).
Proof using Type*.
  intros Hf s Hs. apply (stops_forM_inv _ _ _ _ _ _ (fun sink _ => sink = SyncSink)); [done|done|].
  intros sink x s' _ Hs' _ ->. by apply Hf.
Qed.

Lemma sync_ret : stays_sync (mret SyncSink).
Proof using Type*. intros s Hs. by sret. Qed.

Lemma sync_step {A} (m : M A) (f : A -> M metaSink) :
  preserves R m -> (forall a, stays_sync (f a)) -> stays_sync (m ≫= f).
Proof using Type*. intros Hm Hf s Hs. sbind; [by apply Hm|]. intros a s1 H1 _ _. by apply Hf. Qed.

Lemma sync_sink (m : M metaSink) (f : metaSink -> M metaSink) :
  stays_sync m -> stays_sync (f SyncSink) -> stays_sync (m ≫= f).
Proof using Type*. intros Hm Hf s Hs. sbind; [by apply Hm|]. intros a s1 H1 _ ->. by apply Hf. Qed.

End metadata_ops.

(** ** Recorded annotations stay *)

Section annotating.
Context {E : Ext} `{!ExtLaws E}.

Definition annotation_key (k : string) : Prop := HasPrefix k "a/" = true.

(** Time goes on, and no annotation disappears. *)
Record annotates (s s' : Store) : Prop := {
  an_later : later s s';
  an_keep : forall k, annotation_key k -> is_Some (dbGet (db s) k) -> is_Some (dbGet (db s') k) }.

#[export] Instance annotates_rel : StoreRel annotates.
Proof.
  split.
  - intros s. split; [reflexivity|done].
  - intros a b c [H1 H2] [K1 K2]. split; [by etrans|auto].
  - intros s s' [H _]. apply H.
Qed.

#[export] Instance annotates_env : EnvRel annotates.
Proof. intros s s' Hs. split; [by apply later_env|]. intros k _. by destruct (same_eq _ _ Hs) as (-> & _). Qed.

Lemma extends_later s s' : extends s s' -> later s s'.
Proof using Type. intros [[_ _ H1 H2 _] _]. by split. Qed.

Lemma reading_later s s' : reading s s' -> later s s'.
Proof using Type. intros [_ _ _ H1 H2]. by split. Qed.

Lemma preserves_weaken {A} (R R' : Store -> Store -> Prop) (m : M A) :
  (forall s s', R s s' -> R' s s') -> preserves R m -> preserves R' m.
Proof using Type.
  intros HR Hm s Hs. eapply stops_mono; [eapply stops_rel; [by apply Hm|auto]|done].
Qed.

Lemma preserves_runs {A} (R : Store -> Store -> Prop) (m : M A) :
  (forall s, store_ok s -> exists P, runs m s store_ok R P) -> preserves R m.
Proof using Type. intros H s Hs. destruct (H s Hs) as [P HP]. eapply stops_mono; [apply runs_stops, HP|done]. Qed.

(** An operation that never touches annotation keys. *)
Lemma preserves_framed {A} (R : Store -> Store -> Prop) (m : M A) :
  (forall s s', R s s' -> later s s') -> (forall k, annotation_key k -> observes (fun s => dbGet (db s) k) m) ->
  preserves R m -> preserves annotates m.
Proof using Type.
  intros HR Hf' Hm s Hs. specialize (Hm s Hs). pose proof (fun k Hk => Hf' k Hk s) as Hf. unfold stops in *. destruct (m s) as [[a|e|] s1]; [..|done]; cbn in Hf.
  - destruct Hm as (H1 & H2 & _). split; [done|]. split; [|done]. split; [auto|]. intros k Hk. by rewrite Hf.
  - destruct Hm as (H1 & H2). split; [done|]. split; [auto|]. intros k Hk. by rewrite Hf.
Qed.

Lemma observes_storeBlobContent k d content mediaType roles : annotation_key k ->
  observes (fun s => dbGet (db s) k) (storeBlobContent d content mediaType roles).
Proof using Type*.
  intros Hk. assert (forall h, chunkIndexKey h <> k) as Hc by (intros h <-; done).
  assert (forall h, objectRecipeKey h <> k) as Hr by (intros h <-; done).
  repeat first [apply observes_put; solve [auto]|apply observes_compress|apply observes_append|observe_step|progress cbn zeta|observe_unfold].
Qed.

Lemma preserves_storeBlobContent d content mediaType roles : preserves annotates (storeBlobContent d content mediaType roles).
Proof using Type*.
  apply (preserves_framed extends); [apply extends_later|intros k; apply observes_storeBlobContent|].
  apply preserves_runs. intros s Hs. eexists. by apply storeBlobContent_spec.
Qed.

Lemma preserves_readBlobContent d : preserves annotates (readBlobContent d).
Proof using Type*.
  apply (preserves_framed reading); [apply reading_later|intros k _; apply observes_readBlobContent|].
  intros s Hs. destruct (dbGet (db s) (objectRecipeKey d)) as [v|] eqn:Hv.
  - pose proof (do_typed _ _ _ (proj2 Hs) _ _ Hv) as Ht. assert (exists e, v = VRecipe e) as [e ->] by (destruct v; try done; eauto).
    eapply stops_mono; [apply runs_stops; by eapply readBlobContent_spec|done].
  - unfold readBlobContent, readRecipe. sbind; [by apply (metaGet_stops _ _ _ _ _)|]. intros r s1 H1 _ [_ ->]. rewrite Hv. by sret.
Qed.

(** One document, outside the content namespaces. *)
Lemma preserves_write k ov :
  meta_key k -> (forall v, ov = Some v -> typed k v = true) -> (ov = None -> HasPrefix k "a/" = false) ->
  preserves annotates (metaApply [match ov with Some v => WSet k v | None => WDel k end]).
Proof using Type*.
  intros Hk Hv Hd s Hs. pose proof (metaWrite_spec s k ov Hs Hk Hv) as H. unfold stops, runs in *. cbv zeta in H.
  destruct (metaApply _ s) as [[a|e|] s1] eqn:Ha; [..|done].
  - destruct H as (H1 & H2 & _ & H3). split; [done|]. split; [|done]. split; [by apply extends_later|]. intros k' Hk' Hs'. rewrite H3.
    destruct ov as [v|]; cbn [writesAt]; (case_bool_decide as Heq; [|done]); [done|]. subst k'. unfold annotation_key in Hk'. by rewrite Hd in Hk'.
  - destruct H as (H1 & H2 & _). split; [done|]. split; [by apply extends_later|].
    assert (db s1 = db s) as ->; [|done]. unfold metaApply, mbind, M_bind in Ha. pose proof (io_cases s) as Hio.
    destruct (io s) as [[[]|e'|] s2]; [done| |done]. injection Ha as _ <-. by destruct Hio as [Hio _]; destruct (same_eq _ _ Hio).
Qed.

Lemma preserves_put k v : meta_key k -> typed k v = true -> preserves annotates (metaPut k v).
Proof using Type*. intros Hk Hv. apply (preserves_write k (Some v)); [done|by intros ? [= <-]|done]. Qed.

Lemma preserves_delete k : meta_key k -> HasPrefix k "a/" = false -> preserves annotates (metaDelete k).
Proof using Type*. intros Hk Ha. by apply (preserves_write k None). Qed.

#[export] Instance annotates_meta : MetaRel annotates.
Proof using Type*. split; [intros; by apply preserves_put|apply preserves_delete|apply preserves_readBlobContent]. Qed.

Lemma sync_annotation k v : meta_key k -> typed k v = true -> stays_sync (R := annotates) (sinkSet SyncSink k v).
Proof using Type*. intros Hk Hv s Hs. cbn [sinkSet]. sbind; [by apply preserves_put|]. intros [] s1 H1 _ _. by sret. Qed.

Lemma preserves_writePackedAnnotation a :
  forall s, store_ok s -> stops (writePackedAnnotation a) s store_ok annotates (fun _ s' =>
    is_Some (dbGet (db s') (annotationKey (aObjectDigest a) (aKind a) (aAnalyzerName a)))).
Proof using Type*.
  intros s Hs. pose proof (writePackedAnnotation_spec s a Hs) as Hsp.
  assert (preserves annotates (writePackedAnnotation a)) as Hp.
  { unfold writePackedAnnotation, ctxErr. apply (preserves_bind _); [apply (preserves_io _)|intros _].
    apply (preserves_bind _); [apply (preserves_now _)|intros t]. cbn zeta. apply (preserves_bind _); [|intros payload].
    - pose proof preserves_storeBlobContent. keep. all: auto.
    - apply sync_bind; [apply sync_annotation; solve_key|]. apply sync_bind; [apply sync_record|apply (preserves_ret _)]. }
  specialize (Hp s Hs). unfold stops, runs in *. destruct (writePackedAnnotation a s) as [[[]|e|] s1]; [..|done]; [|done].
  destruct Hsp as (H1 & _ & Ha). destruct Hp as (_ & H2 & _). split; [done|]. split; [done|].
  destruct (at_entry _ _ _ Ha) as (e & -> & _). eauto.
Qed.

Lemma preserves_legacy f :
  (forall s, core (f s) = (db s, packs s, packsDir s, activePack s, dicts s, chunkCache s, legacy (f s)) /\
     clock (f s) = clock s /\ faults (f s) = faults s) ->
  preserves annotates (modify f).
Proof using Type.
  intros Hf s Hs. unfold stops, modify. destruct (Hf s) as (Hc & Ht & Hx). unfold core in Hc. injection Hc as H1 H2 H3 H4 H5 H6.
  split; [|split; [|done]].
  - split; [by eapply phys_ok_eq; [..|apply Hs]|]. rewrite H1. eapply (db_ok_grows s); [|apply Hs].
    split; [rewrite H2; intros id pk ?; exists pk; auto|by rewrite H5|lia|by rewrite Hx|done].
  - split; [split; [lia|by rewrite Hx]|]. by rewrite H1.
Qed.

Lemma preserves_writeAnnotation a : preserves annotates (writePackedAnnotation a).
Proof using Type*. intros s Hs. eapply stops_mono; [by apply preserves_writePackedAnnotation|done]. Qed.

Lemma preserves_WriteAnnotation a : preserves annotates (WriteAnnotation a).
Proof using Type*.
  unfold WriteAnnotation, ctxErr. pose proof (preserves_ReadManifest (R := annotates)). pose proof (preserves_readPackedAnnotation (R := annotates)).
  pose proof preserves_writeAnnotation. pose proof (preserves_refreshParents (R := annotates)). keep. all: auto.
Qed.

(** *** What is stored under an annotation key *)

(** The entry under [k] is [x]: inline, or as a recipe whose chunks have the
    hashes of an encoding of [x]. *)
Definition storedAnnotation (s : Store) (k : string) (x : Annotation) : Prop :=
  exists e, dbGet (db s) k = Some (VAnnotation e) /\
    (anInline e = Some x \/ anInline e = None /\ exists r cs,
       dbGet (db s) (objectRecipeKey (anExternalDigest e)) = Some (VRecipe r) /\ reChunkHashes r = map blake3 cs /\
       (concat cs = annotationJSON x \/ parseAnnotation (concat cs) = Some x)).

(** Annotations and recipes are left alone. *)
Record steady (s s' : Store) : Prop := {
  sy_later : later s s';
  sy_keys : forall k, HasPrefix k "a/" = true \/ HasPrefix k "r/" = true -> dbGet (db s') k = dbGet (db s) k }.

#[export] Instance steady_rel : StoreRel steady.
Proof.
  split.
  - intros s. split; [reflexivity|done].
  - intros a b c [H1 H2] [K1 K2]. split; [by etrans|]. intros k Hk. by rewrite K2, H2.
  - intros s s' [H _]. apply H.
Qed.

#[export] Instance steady_env : EnvRel steady.
Proof. intros s s' Hs. split; [by apply later_env|]. intros k _. by destruct (same_eq _ _ Hs) as (-> & _). Qed.

Lemma steady_framed {A} (R : Store -> Store -> Prop) (m : M A) : (forall s s', R s s' -> later s s') ->
  (forall k, HasPrefix k "a/" = true \/ HasPrefix k "r/" = true -> observes (fun s => dbGet (db s) k) m) ->
  preserves R m -> preserves steady m.
Proof using Type.
  intros HR Hf Hm s Hs. specialize (Hm s Hs). unfold stops in *. pose proof (fun k Hk => Hf k Hk s) as Hk.
  destruct (m s) as [[a|e|] s1]; [..|done]; cbn in Hk; destruct Hm as [H1 H2]; (split; [done|]).
  - split; [|done]. split; [apply HR, H2|done].
  - split; [by apply HR|done].
Qed.

#[export] Instance steady_meta : MetaRel steady.
Proof using Type*.
  assert (forall k, HasPrefix k "r/" = false -> HasPrefix k "a/" = false -> forall k', HasPrefix k' "a/" = true \/ HasPrefix k' "r/" = true -> k <> k') as Hne
    by (intros k H1 H2 k' [H|H] ->; congruence).
  split.
  - intros k v [Hc Hr] Ha Hv. apply (steady_framed annotates); [by intros ? ? []| |by apply preserves_put].
    intros k' Hk'. apply observes_put. by apply Hne.
  - intros k [Hc Hr] Ha. apply (steady_framed annotates); [by intros ? ? []| |by apply preserves_delete].
    intros k' Hk'. apply observes_apply, Forall_singleton. by apply Hne.
  - intros d. apply (steady_framed annotates); [by intros ? ? []|intros k _; apply observes_readBlobContent|apply preserves_readBlobContent].
Qed.

Lemma stored_steady s s' k x : HasPrefix k "a/" = true -> steady s s' -> storedAnnotation s k x -> storedAnnotation s' k x.
Proof using Type.
  intros Hk [_ H] (e & He & Hx). exists e. split; [by rewrite H; [|left]|]. destruct Hx as [Hx|(Hx & r & cs & Hr & Hcs)]; [by left|].
  right. split; [done|]. exists r, cs. split; [|done]. rewrite H; [done|]. right. solve_prefix.
Qed.

(** Reading an entry gives what is stored. *)
Lemma readPackedAnnotation_stored d k n s : store_ok s -> stops (readPackedAnnotation d k n) s store_ok annotates
  (fun r s' => forall x, r = Some x -> storedAnnotation s' (annotationKey d k n) x).
Proof using Type*.
  intros Hs. unfold readPackedAnnotation. sbind; [by apply (metaGet_stops _ _ _ _ _)|]. intros e s1 H1 _ [Hs1 He].
  destruct e as [e|]; [|by sret]. destruct (same_eq _ _ Hs1) as (Hd & _).
  assert (dbGet (db s1) (annotationKey d k n) = Some (VAnnotation e)) as Hk.
  { rewrite Hd. destruct (dbGet (db s) _) as [v|] eqn:Hv; [|done]. destruct v; try done. cbn in He. by injection He as ->. }
  sbind; [|intros a s2 H2 _ Ha; sret; [done|]; intros x [= <-]; exact Ha].
  unfold resolvePackedAnnotation. destruct (anInline e) as [a|] eqn:Hi; [sret; [done|]; exists e; auto|].
  destruct (String.eqb _ _); [by apply (stops_fail _ _ _ _)|].
  sbind.
  { instantiate (1 := fun r s' => forall content, r = Some content -> exists re cs, content = concat cs /\
      dbGet (db s') (annotationKey d k n) = Some (VAnnotation e) /\
      dbGet (db s') (objectRecipeKey (anExternalDigest e)) = Some (VRecipe re) /\ reChunkHashes re = map blake3 cs).
    destruct (dbGet (db s1) (objectRecipeKey (anExternalDigest e))) as [v|] eqn:Hv.
    - pose proof (do_typed _ _ _ (proj2 H1) _ _ Hv) as Ht. assert (exists re, v = VRecipe re) as [re ->] by (destruct v; try done; eauto).
      pose proof (preserves_readBlobContent (anExternalDigest e) s1 H1) as Hp.
      pose proof (readBlobContent_spec s1 (anExternalDigest e) re H1 Hv) as Hr. unfold stops, runs in *.
      destruct (readBlobContent _ s1) as [[r|?|] s2]; [..|done]; [|done]. destruct Hr as (K1 & K2 & cs & -> & Hf).
      split; [done|]. split; [apply Hp|]. intros content [= <-]. pose proof (rd_core _ _ K2) as [= -> _ _ _].
      exists re, cs. split_and!; try done. clear -Hf. induction Hf as [|h c hs cs [_ <-] _ IH]; cbn; congruence.
    - unfold readBlobContent, readRecipe. sbind; [by apply (metaGet_stops _ _ _ _ _)|]. intros r s2 H2 _ [_ ->]. rewrite Hv. by sret. }
  intros [content|] s2 H2 _ Hc; [|by apply (stops_fail _ _ _ _)]. destruct (Hc content eq_refl) as (re & cs & -> & K1 & K2 & K3).
  destruct (parseAnnotation (concat cs)) as [a|] eqn:Hp; [|by apply (stops_fail _ _ _ _)]. sret; [done|].
  exists e. split; [done|]. right. split; [done|]. exists re, cs. auto.
Qed.

(** Writing one leaves it stored. *)
Lemma writePackedAnnotation_stored a s : store_ok s -> stops (writePackedAnnotation a) s store_ok annotates
  (fun _ s' => storedAnnotation s' (annotationKey (aObjectDigest a) (aKind a) (aAnalyzerName a)) a).
Proof using Type*.
  intros Hs. pose proof (preserves_writePackedAnnotation a s Hs) as Hp. pose proof (writePackedAnnotation_spec s a Hs) as Hsp.
  unfold stops, runs in *. destruct (writePackedAnnotation a s) as [[[]|e|] s1]; [..|done]; [|done].
  destruct Hsp as (H1 & _ & Ha). destruct Hp as (_ & H2 & _). split; [done|]. split; [done|].
  destruct (at_entry _ _ _ Ha) as (e & He & Hx). exists e. split; [done|]. unfold annotation_entry in Hx.
  pose proof (at_payload _ _ _ Ha) as Hpay. destruct (_ <=? _); [by left|]. destruct Hx as [Hi Hd]. right. split; [done|].
  destruct (Hpay eq_refl) as [(t & cs & Hcs & Hr) _]. rewrite Hd. do 2 eexists. split; [exact Hr|]. split; [reflexivity|]. left.
  destruct (Chunker.chunks_concat (annotationJSON a)) as (cs' & Hcs' & <-). by simplify_eq.
Qed.

Lemma stops_wrap {A} msg (m : M A) s Inv R P : stops m s Inv R P -> stops (wrapErr msg m) s Inv R P.
Proof using Type. unfold stops, wrapErr. by destruct (m s) as [[]]. Qed.

Lemma firstNonEmpty_trimmed v old : TrimSpace v = v -> v <> "" -> firstNonEmpty [v; old] = v.
Proof using Type. intros Ht Hn. unfold firstNonEmpty, blank. rewrite !Ht. by destruct v. Qed.

(** What is written for [a], over what was there. *)
Definition writtenFor (existing : option Annotation) (t : Time) (a : Annotation) : Annotation :=
  match existing with Some e => mergeAnnotation e (stampAnnotation t a) | None => stampAnnotation t a end.

Lemma writtenFor_fields existing t a : TrimSpace (aAnalyzerName a) = aAnalyzerName a -> aAnalyzerName a <> "" ->
  TrimSpace (aAnalyzerVer a) = aAnalyzerVer a -> aAnalyzerVer a <> "" -> let x := writtenFor existing t a in
  aObjectDigest x = aObjectDigest a /\ aKind x = aKind a /\ aAnalyzerName x = aAnalyzerName a /\
  aAnalyzerVer x = aAnalyzerVer a /\ aData a ⊆ aData x.
Proof using Type.
  intros Hn1 Hn2 Hv1 Hv2. destruct existing as [e|]; cbn -[firstNonEmpty]; [|done].
  rewrite !firstNonEmpty_trimmed by done. split_and!; [done..|]. unfold mergeMaps. apply map_union_subseteq_l.
Qed.

(** A successful write leaves the annotation stored, for its object, analyzer and
    version and with all its data. *)
Lemma WriteAnnotation_records a s : store_ok s -> TrimSpace (aAnalyzerName a) = aAnalyzerName a -> aAnalyzerName a <> "" ->
  TrimSpace (aAnalyzerVer a) = aAnalyzerVer a -> aAnalyzerVer a <> "" ->
  stops (WriteAnnotation a) s store_ok annotates (fun _ s' => exists existing t,
    storedAnnotation s' (annotationKey (aObjectDigest a) (aKind a) (aAnalyzerName a)) (writtenFor existing t a)).
Proof using Type*.
  intros Hs Hn1 Hn2 Hv1 Hv2. unfold WriteAnnotation, ctxErr. sbind; [by apply (preserves_io _)|]. intros [] s1 H1 _ _.
  destruct (blank _); [by apply (stops_fail _ _ _ _)|]. sbind; [by apply (preserves_check _)|]. intros [] s2 H2 _ _.
  sbind; [by apply (preserves_wrap _ _ _ (preserves_ReadManifest _))|]. intros m s3 H3 _ _.
  sbind; [destruct (annotationFilename a); [by apply (preserves_fail _)|by apply (preserves_ret _)]|]. intros [] s4 H4 _ _.
  sbind; [destruct (isZero _); [by apply (preserves_now _)|by apply (preserves_ret _)]|]. intros t s5 H5 _ _. cbn zeta.
  sbind; [apply (preserves_wrap _ _ _ (preserves_readPackedAnnotation _ _ _)), H5|]. intros existing s6 H6 _ _.
  fold (writtenFor existing t a). destruct (writtenFor_fields existing t a Hn1 Hn2 Hv1 Hv2) as (Fd & Fk & Fn & _).
  sbind; [by apply writePackedAnnotation_stored|]. rewrite Fd, Fk, Fn. intros [] s7 H7 _ Ha.
  destruct (String.eqb _ _); [|sret; [done|by exists existing, t]].
  pose proof (preserves_refreshParents (R := annotates) (aObjectDigest a) s7 H7) as H.
  pose proof (preserves_refreshParents (R := steady) (aObjectDigest a) s7 H7) as Hst.
  unfold stops in *. destruct (refreshIndexedParentsForSubobject _ s7) as [[[]|?|] s8]; [..|done]; [|done].
  destruct H as (K1 & K2 & _), Hst as (_ & K3 & _). split; [done|]. split; [done|]. exists existing, t.
  eapply stored_steady; [unfold annotationKey; solve_prefix|done|done].
Qed.

Lemma status_satisfied x : analysisAnnotationSatisfied x = true ->
  aData x !! "status" = Some (AStr "complete") \/ aData x !! "status" = Some (AStr "skipped").
Proof using Type.
  unfold analysisAnnotationSatisfied. destruct (aData x !! "status") as [[]|]; try done. cbn.
  rewrite orb_true_iff, !bool_decide_eq_true. intros [->| ->]; auto.
Qed.

(** A positive answer shows a complete annotation of that analyzer version. *)
Lemma HasAnalysis_stored d n v s : store_ok s -> stops (HasAnalysisAnnotation d n v) s store_ok annotates
  (fun b s' => b = true -> exists x, storedAnnotation s' (annotationKey d "analysis" n) x /\ aKind x = "analysis" /\
     aAnalyzerName x = n /\ aAnalyzerVer x = v /\
     (aData x !! "status" = Some (AStr "complete") \/ aData x !! "status" = Some (AStr "skipped"))).
Proof using Type*.
  intros Hs. unfold HasAnalysisAnnotation, ctxErr. sbind; [by apply (preserves_io _)|]. intros [] s1 H1 _ _.
  sbind; [by apply (preserves_check _)|]. intros [] s2 H2 _ _. destruct (blank n); [by apply (stops_fail _ _ _ _)|].
  sbind; [by apply readPackedAnnotation_stored|]. intros a s3 H3 _ Ha. sret; [done|]. destruct a as [x|]; [|done].
  rewrite !andb_true_iff, !String.eqb_eq. intros [[[Hk Hn] Hv] Hsat]. exists x. split; [by apply Ha|].
  split_and!; [done..|by apply status_satisfied].
Qed.

Lemma io_err s e s' : io s = (Err e, s') -> faults s <> [] /\ isNotExist e = false.
Proof using Type. unfold io. destruct (faults s) as [|[| |]]; intros [= <- _]; done. Qed.

Lemma validateObjectDigest_err d e : validateObjectDigest d = Some e -> isNotExist e = false.
Proof using Type. unfold validateObjectDigest. repeat case_match; by intros [= <-]. Qed.

(** Only an absent manifest is reported as not existing. *)
Lemma ReadManifest_gone d s e : (ReadManifest d s).1 = Err e -> isNotExist e = true ->
  dbGet (db (ReadManifest d s).2) (manifestKey d) = None.
Proof using Type.
  unfold ReadManifest, ctxErr, metaGet, gets, mbind, M_bind. destruct (io s) as [[[]|e1|] s1] eqn:Hio.
  - destruct (validateObjectDigest d) as [e2|] eqn:Hv; cbn.
    + intros [= <-] He. by rewrite (validateObjectDigest_err d e2 Hv) in He.
    + destruct (io s1) as [[[]|e1|] s2] eqn:Hio2; cbn; [|intros [= <-] He; apply io_err in Hio2 as [_ ?]; congruence|done].
      destruct (dbGet (db s2) (manifestKey d)) as [v|] eqn:Hg; [|done]. destruct (asManifest v); cbn; [done|by intros [= <-]].
  - intros [= <-] He. apply io_err in Hio as [_ ?]. congruence.
  - done.
Qed.

Lemma preserves_WriteOverlays d o : preserves annotates (WriteOverlays d o).
Proof using Type*.
  unfold WriteOverlays, ctxErr. pose proof (preserves_ReadManifest (R := annotates)). pose proof (preserves_writeManifest (R := annotates)). pose proof preserves_writeAnnotation.
  keep. all: auto.
Qed.

(** Source indexes, claims and compound parents. *)
Lemma preserves_recordSourceObjectIndexes d l : preserves annotates (recordSourceObjectIndexes d l).
Proof using Type*.
  apply sync_bind; [|apply (preserves_ret _)]. unfold recordSourceObjectIndexesTo, ctxErr.
  apply sync_step; [apply (preserves_io _)|intros _]. destruct l as [|p l]; [apply sync_ret|].
  apply sync_step; [apply (preserves_check _)|intros _]. apply sync_step; [apply (preserves_now _)|intros t].
  apply sync_forM. intros item. cbn zeta. destruct (_ || _); [apply sync_ret|].
  apply sync_step; [apply (preserves_check _)|intros _]. unfold writePackedSourceObjectIndexTo, writePackedSourceAliasTo, ctxErr.
  apply sync_sink.
  - apply sync_step; [apply (preserves_io _)|intros _]. apply sync_set; solve_key.
  - apply sync_step; [apply (preserves_io _)|intros _]. apply sync_step; [apply (preserves_now _)|intros t']. apply sync_set; solve_key.
Qed.

Lemma preserves_AttachProvenance d l : preserves annotates (AttachProvenance d l).
Proof using Type*.
  unfold AttachProvenance, ctxErr. pose proof (preserves_ReadManifest (R := annotates)). pose proof (preserves_writeManifest (R := annotates)).
  pose proof preserves_recordSourceObjectIndexes. keep. all: auto.
Qed.

Lemma preserves_recordCompoundParentIndexes d parts : preserves annotates (recordCompoundParentIndexes d parts).
Proof using Type*.
  unfold recordCompoundParentIndexes, mergeCompoundParentIndex, readPackedCompoundParentIndex, readLegacyParents,
    writePackedCompoundParentIndex, ctxErr.
  assert (forall d v, preserves annotates (metaPut (compoundParentKey d) (VParents v))) by (intros; apply preserves_put; solve_key).
  keep. all: auto.
Qed.

Lemma preserves_TryAcquire ref : preserves annotates (TryAcquireSourceIngest ref).
Proof using Type*.
  unfold TryAcquireSourceIngest, legacyClaimHeld, ctxErr.
  assert (forall r c, preserves annotates (metaPutNoSync (sourceLockKey r) (VClaim c))) by (intros; apply preserves_put; solve_key).
  assert (forall x, preserves annotates (modify (fun s => set_legacy (x s) s))) by (intros; by apply preserves_legacy).
  keep. all: auto.
Qed.

Lemma preserves_Release c : preserves annotates (ReleaseSourceIngest c).
Proof using Type*.
  unfold ReleaseSourceIngest, ctxErr.
  assert (forall r, preserves annotates (metaDeleteNoSync (sourceLockKey r))) by (intros; by apply preserves_delete).
  pose proof (preserves_ios (R := annotates)).
  keep. all: auto. by apply preserves_legacy.
Qed.

End annotating.

(** ** Deleting *)

Section deleting.
Context {E : Ext} `{!ExtLaws E}.

(** A scan whose callback only sees keys of the prefix. *)
Lemma stops_scan {B} (R : Store -> Store -> Prop) `{!StoreRel R, !EnvRel R} prefix (acc : B) f (Q : B -> Prop) s :
  store_ok s -> Q acc ->
  (forall acc k v s', Q acc -> HasPrefix k prefix = true -> store_ok s' ->
     stops (f acc (k, v)) s' store_ok R (fun acc' _ => Q acc')) ->
  stops (metaIterPrefix prefix acc f) s store_ok R (fun acc' _ => Q acc').
Proof using Type*.
  intros Hs Hq Hf. unfold metaIterPrefix, snapshotIterPrefix, iterRange. sgets.
  sbind; [by apply (preserves_io _)|]. intros [] s1 H1 _ _.
  sbind.
  { apply (stops_forM_inv _ _ _ _ _ _ (fun acc _ => Q acc)); [done|done|]. intros acc' [k v] s' Hin Hs' _ Hq'.
    apply Hf; [done| |done]. by apply prefixRange_elem in Hin as [_ ?]. }
  intros acc' s2 H2 _ Hq2. sbind; [by apply (preserves_io _)|]. intros [] s3 H3 _ _. by sret.
Qed.

Definition no_chunk (k : string) : Prop := HasPrefix k "c/" = false.

(** Documents other than chunk entries can be dropped. *)
Lemma preserves_deleteKeys keys : Forall no_chunk keys -> preserves later (metaDeleteKeys keys).
Proof using Type*.
  intros Hk s Hs. unfold metaDeleteKeys, metaApply. sbind; [by apply runs_stops, (runs_io _ _)|]. intros [] s1 H1 _ _.
  unfold stops, modify. split; [|split; [by split|done]].
  assert (forall k, dbGet (dbApply (map WDel keys) (db s1)) k = if bool_decide (k ∈ keys) then None else dbGet (db s1) k) as Hw
    by (intros k; by rewrite dbGet_apply, writesAt_dels).
  apply (store_ok_shrink s1); [done|by split; cbn; try lia|..]; cbn; intros; rewrite Hw; case_bool_decide as Hin; auto.
  rewrite Forall_forall in Hk. apply Hk in Hin. unfold no_chunk in Hin. by rewrite HasPrefix_chunk in Hin.
Qed.

Lemma later_of_annotates {A} (m : M A) : preserves annotates m -> preserves later m.
Proof using Type. apply preserves_weaken. by intros s s' []. Qed.

Lemma ownedIndexKeys_stops digest keys ref s : store_ok s -> Forall no_chunk keys ->
  stops (ownedIndexKeys digest keys ref) s store_ok later (fun keys' _ => Forall no_chunk keys').
Proof using Type*.
  intros Hs Hk. unfold ownedIndexKeys, readPackedSourceObjectIndex, readPackedSourceAlias, ctxErr.
  assert (forall p x, (HasPrefix (p +:+ x) "c/" = false) -> Forall no_chunk (keys ++ [p +:+ x])) as Hadd
    by (intros; apply Forall_app; split; [done|by apply Forall_singleton]).
  destruct (validateSourceObjectRef ref); [by sret|].
  sbind. { sbind; [by apply (preserves_io _)|]. intros [] s1 H1 _ _. by apply (preserves_metaGet _). }
  intros row s1 H1 _ _. set (keys1 := match row with Some e => _ | None => keys end).
  assert (Forall no_chunk keys1) as Hk1 by (unfold keys1; destruct row; [case_match|]; auto).
  sbind. { instantiate (1 := fun _ _ => True). sbind; [by apply (preserves_io _)|]. intros [] s2 H2 _ _.
    sbind; [by apply (preserves_metaGet _)|]. intros e s3 H3 _ _. by sret. }
  intros alias s2 H2 _ _. sret; [done|]. destruct alias; [case_match|]; try done.
  apply Forall_app. split; [done|by apply Forall_singleton].
Qed.

Lemma readManifestOr_post {A} d (absent : A) k (Q : A -> Prop) s : store_ok s -> Q absent ->
  (forall m s', store_ok s' -> stops (k m) s' store_ok later (fun a _ => Q a)) ->
  stops (readManifestOr d absent k) s store_ok later (fun a _ => Q a).
Proof using Type*.
  intros Hs Ha Hk. unfold readManifestOr. sbind; [apply (later_of_annotates _ (preserves_try _ _ (preserves_ReadManifest d))), Hs|].
  intros [e|m] s1 H1 _ _; [destruct (isNotExist e); [by sret|by apply (stops_fail _ _ _ _)]|by apply Hk].
Qed.

Lemma preserves_DeleteObject d : preserves later (DeleteObject d).
Proof using Type*.
  intros s Hs. unfold DeleteObject, ctxErr. sbind; [by apply (preserves_io _)|]. intros [] s1 H1 _ _.
  sbind; [by apply (preserves_check _)|]. intros [] s2 H2 _ _. cbn zeta.
  sbind.
  { apply (readManifestOr_post _ _ _ (Forall no_chunk)); [done|by repeat constructor|]. intros m s' Hs'.
    apply (stops_forM_inv _ _ _ _ _ _ (fun keys _ => Forall no_chunk keys)); [done|by repeat constructor|].
    intros keys p s'' _ Hs'' _ Hk. by apply ownedIndexKeys_stops. }
  intros keys s3 H3 _ Hk. sbind.
  { apply (stops_scan later _ _ _ (Forall no_chunk)); [done|done|]. intros keys' k v s' Hk' Hp Hs'. sret; [done|].
    apply Forall_app. split; [done|]. apply Forall_singleton. cbn. unfold annotationPrefix in Hp. apply HasPrefix_spec in Hp as [r ->]. done. }
  intros keys' s4 H4 _ Hk'. by apply preserves_deleteKeys.
Qed.

Lemma preserves_detach d kind name : preserves later (detachSourceFromObject d kind name).
Proof using Type*.
  intros s Hs. apply (readManifestOr_post _ _ _ (fun _ => True)); [done|done|]. intros m s1 H1.
  destruct (map _ _) as [|ref removed]; [by sret|]. destruct (List.filter _ (mProvenance m)) as [|p kept].
  { sbind; [by apply preserves_DeleteObject|]. intros [] s2 H2 _ _. by sret. }
  sbind; [by apply (preserves_now _)|]. intros t s2 H2 _ _. sbind; [apply (later_of_annotates _ (preserves_writeManifest _ _)), H2|].
  intros [] s3 H3 _ _. sbind.
  { apply (stops_forM_inv _ _ _ _ _ _ (fun keys _ => Forall no_chunk keys)); [done|done|].
    intros keys x s' _ Hs' _ Hk. by apply ownedIndexKeys_stops. }
  intros keys s4 H4 _ Hk. sbind; [|intros [] s5 H5 _ _; by sret].
  destruct keys; [by apply (preserves_ret _)|by apply preserves_deleteKeys].
Qed.

Lemma preserves_DeleteImport kind name : preserves later (DeleteImport kind name).
Proof using Type*.
  unfold DeleteImport, ctxErr, unmarshal. pose proof preserves_detach. keep. all: auto.
Qed.

Lemma preserves_cleanup : preserves later cleanupSourceLockKeys.
Proof using Type*.
  intros s Hs. unfold cleanupSourceLockKeys, ctxErr. sbind; [by apply (preserves_now _)|]. intros t s1 H1 _ _.
  sbind.
  { apply (stops_scan later _ _ _ (Forall (fun k => HasPrefix k "lk/" = true))); [done|done|]. intros ks k v s' Hk Hp Hs'.
    sbind; [by apply (preserves_io _)|]. intros [] s2 H2 _ _. sret; [done|].
    repeat case_match; try done; (apply Forall_app; split; [done|by apply Forall_singleton]). }
  intros expired s2 H2 _ Hk. rewrite Forall_forall in Hk.
  apply (stops_forM_inv _ _ _ _ _ _ _); [done|done|]. intros n k s3 Hin H3 _ _. apply Hk in Hin.
  assert (no_chunk k /\ HasPrefix k "r/" = false /\ HasPrefix k "a/" = false) as (Hc & Hr & Ha)
    by (apply HasPrefix_spec in Hin as [r ->]; done).
  sbind; [|intros b s4 H4 _ _; by sret].
  assert (preserves annotates (deleteExpiredLockKey k)) as Hd; [|by apply (later_of_annotates _ Hd)].
  unfold deleteExpiredLockKey. pose proof (preserves_delete k (conj Hc Hr) Ha). keep. all: auto.
Qed.

End deleting.

(** ** A collection with a put in its first window *)

Lemma exDeleted_ok : store_ok exDeleted.
Proof.
  apply set_clock_ok; [apply Z.leb_le; vm_compute; reflexivity|].
  pose proof (preserves_DeleteObject (blake3 helloBytes) exStored exStored_ok) as H. unfold stops in H.
  destruct (DeleteObject (blake3 helloBytes) exStored) as [[a|e|] s']; [apply H|apply H|done].
Qed.

Definition pointOf (r : res gcPoint) : gcPoint := match r with Ok p => p | _ => AtStart end.
Definition stepOf (p : gcPoint) (s : Store) : res gcPoint * Store := gcResume gcGracePeriod p s.

Lemma stepOf_run p s p' s' : gc_run gcGracePeriod exDeleted (Some p) s -> pointOf (stepOf p s).1 = p' -> (stepOf p s).2 = s' ->
  match (stepOf p s).1 with Ok _ => true | _ => false end = true -> gc_run gcGracePeriod exDeleted (Some p') s'.
Proof.
  intros Hr <- <- Hok. eapply run_step; [exact Hr|]. unfold stepOf in *. by destruct (gcResume gcGracePeriod p s) as [[]].
Qed.

Definition exMarked : res gcPoint * Store := stepOf AtStart exDeleted.
Definition exPutMeanwhile : Store := (Put exPut exMarked.2).2.
Definition exLooked : res gcPoint * Store := stepOf (pointOf exMarked.1) exPutMeanwhile.
Definition exSweptChunks : res gcPoint * Store := stepOf (pointOf exLooked.1) exLooked.2.
Definition exChecked : res gcPoint * Store := stepOf (pointOf exSweptChunks.1) exSweptChunks.2.
Definition exCollected : res gcPoint * Store := stepOf (pointOf exChecked.1) exChecked.2.

Lemma exMarked_run : gc_run gcGracePeriod exDeleted (Some (pointOf exMarked.1)) exMarked.2.
Proof. eapply stepOf_run; [apply run_start|done|done|]. vm_compute. reflexivity. Qed.

Lemma exMarked_allows : allowed (pointOf exMarked.1) exMarked.2 exPutMeanwhile.
Proof.
  pose proof (start_spec exDeleted gcGracePeriod exDeleted_ok) as H. unfold runs in H.
  assert (match exMarked.1 with Ok _ => true | _ => false end = true) as Hok by (vm_compute; reflexivity).
  unfold exPutMeanwhile, exMarked, stepOf in *. destruct (gcResume gcGracePeriod AtStart exDeleted) as [[p|e|] s1]; [|done|done].
  destruct H as (H1 & _ & _ & start & live & orphans & -> & Hst & _). cbn [fst snd pointOf allowed].
  destruct (put_writes exPut s1 H1) as [Hw Hs]. split; [|exact Hs]. eapply writes_less; [|exact Hw]. intros e He. cbn beta in He. lia.
Qed.

Lemma exCollected_run : gc_run gcGracePeriod exDeleted (Some (pointOf exCollected.1)) exCollected.2.
Proof.
  pose proof (run_write _ _ _ _ _ exMarked_run exMarked_allows) as H.
  apply (stepOf_run (pointOf exChecked.1) exChecked.2); [|reflexivity|reflexivity|vm_compute; reflexivity].
  apply (stepOf_run (pointOf exSweptChunks.1) exSweptChunks.2); [|reflexivity|reflexivity|vm_compute; reflexivity].
  apply (stepOf_run (pointOf exLooked.1) exLooked.2); [|reflexivity|reflexivity|vm_compute; reflexivity].
  apply (stepOf_run (pointOf exMarked.1) exPutMeanwhile); [exact H|reflexivity|reflexivity|vm_compute; reflexivity].
Qed.

(** The object was put again while the collection ran; its chunk, old and referred
    to by nothing when the collection started, is kept. *)
Lemma gc_safe_witness : hasKey exDeleted (manifestKey (blake3 helloBytes)) = false /\
  exists e, dbGet (db exCollected.2) (objectRecipeKey (blake3 helloBytes)) = Some (VRecipe e) /\ complete (db exCollected.2) e.
Proof.
  assert (hasKey exDeleted (manifestKey (blake3 helloBytes)) = false) as Hn by (vm_compute; reflexivity). split; [exact Hn|].
  destruct (gc_safe exDeleted gcGracePeriod exDeleted_ok ltac:(vm_compute; discriminate)) as [H _].
  destruct (H _ _ exCollected_run) as (_ & Hnew & _). destruct (Hnew (blake3 helloBytes)) as [Hx|Hx].
  - apply hasKey_some. vm_compute. reflexivity.
  - unfold hasKey in Hn. destruct Hx as [v Hv]. rewrite Hv in Hn. discriminate Hn.
  - exact Hx.
Defined.
