(* ===== verification/Projection.v ===== *)
(** * Projection: [filestore/projection.go]

    What the scheduler and the query index see of the store: every object with
    its manifest and annotations, in digest order, or only the objects changed
    after some moment, found through the time-ordered change index. *)

From stdpp Require Import options.
From Stdlib Require Import Sorted.
From S2P Require Import Prelude GoLib GoText Contracts Lru Chunker Manifest Meta Concrete DictionaryFamily Dictionary ChunkStore SourceIngest Annotations ObjectStore Gc Preserve.

Local Open Scope Z_scope.

(** [if object.Manifest.ObjectDigest == "" { ... = digest }]. *)
Definition fillDigest (digest : ObjectDigest) (m : Manifest) : Manifest :=
  if String.eqb (mObjectDigest m) "" then
    MkManifest (mTimestamps m) (mUpdatedAt m) (mCreatedAt m) (mOverlays m) (mAnalysis m) digest (mObjectID m)
      (mIdentityStrategy m) (mMediaType m) (mCompression m) (mCompound m) (mGraph m) (mRelationships m)
      (mProvenance m) (mTitles m) (mKeywords m) (mEmbeddings m) (mFacets m) (mContentRoles m) (mSchemaVersion m) (mSize m)
  else m.

Definition fillAnnotation (digest : ObjectDigest) (a : Annotation) : Annotation :=
  if String.eqb (aObjectDigest a) "" then
    MkAnnotation (aGeneratedAt a) (aData a) digest (aAnalyzerName a) (aAnalyzerVer a) (aKind a) (aSchemaVersion a)
  else a.

(** A manifest that did not decode stays the zero value. *)
Definition zeroManifest : Manifest :=
  MkManifest (MkTimestamps zeroTime zeroTime zeroTime) zeroTime zeroTime ∅ ∅ "" "" "" "" "" (MkCompound [] false) [] [] [] [] [] [] [] [] 0 0.

Definition projectionObjectChangedAt (object : ProjectionObject) : Time :=
  let changedAt := mUpdatedAt (poManifest object) in
  let changedAt := if After (mCreatedAt (poManifest object)) changedAt then mCreatedAt (poManifest object) else changedAt in
  foldl (fun changedAt a => if After (aGeneratedAt a) changedAt then aGeneratedAt a else changedAt) changedAt (poAnnotations object).

Definition projectionObjectChangedAfter (object : ProjectionObject) (since : Time) : bool :=
  isZero since || After (mUpdatedAt (poManifest object)) since || After (mCreatedAt (poManifest object)) since ||
  existsb (fun a => After (aGeneratedAt a) since) (poAnnotations object).

Section projection.
Context {E : Ext}.

Definition attachProjectionAnnotations (object : ProjectionObject) : M ProjectionObject :=
  r ← try (readPackedAnnotations (poDigest object));
  mret (match r with
    | inl e => MkProjection (poDigest object) (poManifest object) (poAnnotations object)
                 (poFindings object ++ [MkFinding (poDigest object) "annotation_read_failed" e])
    | inr annotations => MkProjection (poDigest object) (poManifest object)
                 (poAnnotations object ++ map (fillAnnotation (poDigest object)) annotations) (poFindings object)
    end).

Definition projectionObject (digest : ObjectDigest) : M (option ProjectionObject) :=
  _ ← ctxErr;
  _ ← check (validateObjectDigest digest);
  readManifestOr digest None (fun manifest =>
    object ← attachProjectionAnnotations (MkProjection digest (fillDigest digest manifest) [] []);
    mret (Some object)).

Definition WalkProjection {B} (acc : B) (fn : B -> ProjectionObject -> M B) : M B :=
  metaIterPrefix "m/" acc (fun acc kv =>
    _ ← ctxErr;
    let digest := TrimPrefix kv.1 "m/" in
    match asManifest kv.2 with
    | None => fn acc (MkProjection digest zeroManifest [] [MkFinding digest "manifest_read_failed" (ErrMsg "decode metadata record")])
    | Some manifest =>
        object ← attachProjectionAnnotations (MkProjection digest (fillDigest digest manifest) [] []);
        fn acc object
    end).

(** One entry of the change index; the state is the accumulator, the number of
    entries and the digests seen. *)
Definition changedEntry {B} (since : Time) (fn : B -> ProjectionObject -> M B) (acc : B * Z * gset string)
    (kv : string * Value) : M (B * Z * gset string) :=
  let '(acc, indexed, seen) := acc in
  _ ← ctxErr;
  let digest := projectionChangeDigestFromKey kv.1 in
  if String.eqb digest "" then mret (acc, indexed, seen) else
  if bool_decide (digest ∈ seen) then mret (acc, indexed + 1, seen) else
  found ← projectionObject digest;
  acc ← match found with
    | None => mret acc
    | Some object =>
        if negb (bool_decide (poFindings object = [])) || projectionObjectChangedAfter object since
        then fn acc object else mret acc
    end;
  mret (acc, indexed + 1, {[digest]} ∪ seen).

(** Nothing is indexed: look at every object, and index what changed. *)
Definition changedObject {B} (since : Time) (fn : B -> ProjectionObject -> M B) (acc : B) (object : ProjectionObject) : M B :=
  let findings := negb (bool_decide (poFindings object = [])) in
  if findings || projectionObjectChangedAfter object since then
    _ ← (if findings then mret SyncSink
         else recordProjectionChangeTo SyncSink (poDigest object) (projectionObjectChangedAt object));
    fn acc object
  else mret acc.

Definition WalkChangedProjection {B} (since : Time) (acc : B) (fn : B -> ProjectionObject -> M B) : M B :=
  if isZero since then WalkProjection acc fn else
  d ← gets db;
  r ← iterRange d (projectionChangeScanLowerBound since) (prefixUpperBound "pc/") (acc, 0, ∅) (changedEntry since fn);
  if 0 <? r.1.2 then mret r.1.1 else WalkProjection r.1.1 (changedObject since fn).

End projection.

(** ** What a walk delivers *)

Lemma Forall2_in {A B} (P : A -> B -> Prop) l k y : Forall2 P l k -> y ∈ k -> exists x, x ∈ l /\ P x y.
Proof.
  induction 1 as [|x z l k Hx _ IH]; [by intros ?%elem_of_nil|]. intros [->|Hy]%elem_of_cons; [exists x; split; [by left|done]|].
  destruct (IH Hy) as (x' & ? & ?). exists x'. split; [by right|done].
Qed.

Section walking.
Context {E : Ext} `{!ExtLaws E}.

(** A callback that lists what it is given. *)
Definition collect (acc : list ProjectionObject) (object : ProjectionObject) : M (list ProjectionObject) := mret (acc ++ [object]).

Lemma readPackedAnnotations_try d s : store_ok s -> runs (try (readPackedAnnotations d)) s store_ok annotates (fun _ _ => True).
Proof using Type*.
  intros Hs. pose proof (preserves_readPackedAnnotations (R := annotates) d s Hs) as H. unfold stops, runs, try in *.
  destruct (readPackedAnnotations d s) as [[a|e|] s1]; tauto.
Qed.

Lemma attach_spec o s : store_ok s -> runs (attachProjectionAnnotations o) s store_ok annotates
  (fun o' _ => poDigest o' = poDigest o /\ poManifest o' = poManifest o).
Proof using Type*.
  intros Hs. unfold attachProjectionAnnotations. rbind; [by apply readPackedAnnotations_try|]. intros r s1 H1 _ _.
  rret; [done|]. by destruct r.
Qed.

Lemma range_manifest s kv done : store_ok s -> done ++ [kv] `prefix_of` dbRange (db s) "m/" (prefixUpperBound "m/") ->
  exists d m, kv = (manifestKey d, VManifest m) /\ dbGet (db s) (manifestKey d) = Some (VManifest m).
Proof using Type*.
  intros [_ Hd] [r Hr]. destruct kv as [k v].
  assert ((k, v) ∈ dbRange (db s) "m/" (prefixUpperBound "m/")) as Hin by (rewrite Hr; set_solver).
  apply prefixRange_elem in Hin as [Hg [d ->]%HasPrefix_spec]. destruct (manifest_typed d v) as [m ->]; [by eapply do_typed|]. eauto.
Qed.

(** The object of one manifest key. *)
Definition object_of (kv : string * Value) (o : ProjectionObject) : Prop := exists m,
  kv = (manifestKey (poDigest o), VManifest m) /\ poManifest o = fillDigest (poDigest o) m.

Lemma walk_spec s : store_ok s -> runs (WalkProjection [] collect) s store_ok annotates
  (fun os _ => Forall2 object_of (dbRange (db s) "m/" (prefixUpperBound "m/")) os).
Proof using Type*.
  intros Hs. unfold WalkProjection, metaIterPrefix, snapshotIterPrefix, iterRange, ctxErr. rgets.
  rbind; [by apply (runs_io _ _)|]. intros [] s1 H1 _ _.
  rbind; [apply (runs_forM _ _ _ _ _ _ (fun done os _ => Forall2 object_of done os)); [done|constructor|]|].
  - intros done os kv s2 Hpre H2 _ Hf. destruct (range_manifest s kv done Hs Hpre) as (d & m & -> & _).
    rbind; [by apply (runs_io _ _)|]. intros [] s3 H3 _ _. cbn [asManifest fst snd].
    rewrite (TrimPrefix_app "m/" d : TrimPrefix (manifestKey d) "m/" = d).
    rbind; [by apply attach_spec|]. intros o s4 H4 _ [Hd Hm]. cbn in Hd, Hm. rret; [done|]. apply Forall2_app; [done|].
    constructor; [|constructor]. exists m. by rewrite Hd, Hm.
  - intros os s2 H2 _ Hf. rbind; [by apply (runs_io _ _)|]. intros [] s3 H3 _ _. by rret.
Qed.

Lemma str_ltb_app_l p a b : str_ltb (p +:+ a) (p +:+ b) = str_ltb a b.
Proof using Type.
  induction p as [|c p IH]; [done|]. change (ascii_ltb c c || (Ascii.eqb c c && str_ltb (p +:+ a) (p +:+ b)) = str_ltb a b).
  rewrite IH. unfold ascii_ltb. by rewrite N.ltb_irrefl, Ascii.eqb_refl.
Qed.

End walking.

(** C33: a walk shows every object once, in digest order.  On a consistent store,
    whatever I/O steps fail, a walk does not panic and keeps the store
    consistent; without faults it delivers one object per manifest of the store,
    in strictly increasing digest order, with the stored manifest. *)
Theorem walk_projection_exact {E : Ext} `{!ExtLaws E} (s : Store) :
  store_ok s ->
  let '(r, s') := WalkProjection [] collect s in
  r <> Panic /\ store_ok s' /\ (faults s = [] -> exists objects, r = Ok objects) /\
  forall objects, r = Ok objects ->
    StronglySorted (fun a b => str_ltb a b = true) (poDigest <$> objects) /\
    (forall d, d ∈ poDigest <$> objects <-> is_Some (dbGet (db s) (manifestKey d))) /\
    (forall o, o ∈ objects -> exists m, dbGet (db s) (manifestKey (poDigest o)) = Some (VManifest m) /\
       poManifest o = fillDigest (poDigest o) m).
Proof.
  intros Hs. pose proof (walk_spec s Hs) as H. unfold runs in H.
  destruct (WalkProjection [] collect s) as [[os|e|] s']; [..|done]; destruct H as (H1 & _ & Hf); (split; [done|]); (split; [done|]);
    [|done]. split; [eauto|]. intros _ [= <-]. set (l := dbRange (db s) "m/" (prefixUpperBound "m/")) in *.
  assert (l.*1 = manifestKey <$> (poDigest <$> os)) as Hk.
  { clear -Hf. induction Hf as [|kv o l os [m [-> _]] _ IH]; [done|]. cbn. by rewrite IH. }
  split; [|split].
  - pose proof (dbRange_ordered (db s) "m/" (prefixUpperBound "m/")) as Ho. pose proof (dbRange_nodup (db s) "m/" (prefixUpperBound "m/")) as Hn.
    fold l in Ho, Hn. rewrite Hk in Ho, Hn. clear -Ho Hn. induction (poDigest <$> os) as [|d ds IH]; [constructor|].
    cbn in Ho, Hn. apply NoDup_cons in Hn as [Hd Hn]. apply StronglySorted_inv in Ho as [Ho Hall]. constructor; [by apply IH|].
    apply Forall_forall. intros d' Hd'. rewrite Forall_forall in Hall. specialize (Hall (manifestKey d') ltac:(by apply list_elem_of_fmap_2)).
    unfold manifestKey in Hall. rewrite str_ltb_app_l in Hall. destruct (str_ltb d d') eqn:Hlt; [done|].
    destruct Hd. rewrite (str_ltb_total d d' Hlt Hall). by apply list_elem_of_fmap_2.
  - intros d. split.
    + intros (o & -> & Ho)%list_elem_of_fmap. apply (Forall2_in _ _ _ _ Hf) in Ho as ([k v] & Hin & m & [= -> ->] & _).
      apply prefixRange_elem in Hin as [-> _]. by eexists.
    + intros [v Hv]. assert (manifestKey d ∈ l.*1) as Hin.
      { apply list_elem_of_fmap. exists (manifestKey d, v). split; [done|]. apply prefixRange_elem. split; [done|apply HasPrefix_app]. }
      rewrite Hk in Hin. apply list_elem_of_fmap in Hin as (d' & Heq & Hin). by apply (str_app_inj_l "m/") in Heq as ->.
  - intros o Ho. apply (Forall2_in _ _ _ _ Hf) in Ho as ([k v] & Hin & m & [= -> ->] & Hm).
    apply prefixRange_elem in Hin as [Hin _]. eauto.
Qed.

(** ** Runs on a concrete store *)

Definition listed (r : res (list ProjectionObject) * Store) : option (list ObjectDigest) :=
  match r.1 with Ok os => Some (map poDigest os) | _ => None end.

Lemma walk_projection_exact_witness : listed (WalkProjection [] collect exStored) = Some [blake3 helloBytes] /\
  store_ok (WalkProjection [] collect exStored).2.
Proof.
  split; [vm_compute; reflexivity|].
  pose proof (walk_projection_exact exStored exStored_ok) as H. destruct (WalkProjection [] collect exStored) as [r s']. apply H.
Defined.

(** A second object. *)
Definition otherBytes : bytes := [Byte.x62; Byte.x79; Byte.x65].
Definition exPut2 : PutRequest :=
  MkPut (MkReader [(otherBytes, EOF)] []) "text/plain" "imap" [] [MkFacet ∅ ∅ "document" "" ""] [exProvenance2] [].

(** Both objects were put at time 1000; then the first gets an annotation that
    was generated at time 5. *)
Definition exTwo : Store := (Put exPut2 exStored).2.
Definition exBackdated : Store :=
  (WriteAnnotation (MkAnnotation 5 ∅ (blake3 helloBytes) "ocr" "1" "analysis" 1) exTwo).2.

Definition changedSince (since : Time) (r : res (list ProjectionObject) * Store) : list (ObjectDigest * bool) :=
  match r.1 with Ok os => map (fun o => (poDigest o, projectionObjectChangedAfter o since)) os | _ => [] end.

(** An annotation with an old generation time hides a change.  Two objects
    were put after time 500 and an incremental walk from 500 shows both.  Writing
    an annotation that says it was generated at time 5 moves the object's only
    change entry back to 5: from then on the same walk no longer shows the object,
    although it did change after 500 and a full walk says so. *)
Theorem backdated_annotation_hides_change :
  listed (WalkChangedProjection 500 [] collect exTwo) = Some [blake3 helloBytes; blake3 otherBytes] /\
  (WriteAnnotation (MkAnnotation 5 ∅ (blake3 helloBytes) "ocr" "1" "analysis" 1) exTwo).1 = Ok tt /\
  listed (WalkChangedProjection 500 [] collect exBackdated) = Some [blake3 otherBytes] /\
  changedSince 500 (WalkProjection [] collect exBackdated) = [(blake3 helloBytes, true); (blake3 otherBytes, true)].
Proof. split_and!; vm_compute; reflexivity. Qed.
