(* ===== verification/Repack.v ===== *)
(** * Repacking: [filestore/repack.go]

    Copies the live chunks of every sealed pack with dead space into the active
    pack, points the index at the copies and removes the old pack.  The pack
    directory holds pack files only; its listing is in id order, as the padded
    file names are. *)

From stdpp Require Import options.
From S2P Require Import Prelude GoLib Contracts Lru Manifest Meta Concrete Dictionary ChunkStore SourceIngest Annotations ObjectStore Gc Preserve.

Local Open Scope Z_scope.

Record RepackReport := MkRepackReport {
  rpPacksScanned : Z; rpPacksRepacked : Z; rpPacksRemoved : Z; rpChunksMoved : Z;
  rpBytesBefore : Z; rpBytesAfter : Z }.

Section repack.
Context {E : Ext}.

(** [os.ReadDir(packsDir)]. *)
Definition listPacks (s : Store) : list N := sortStable N.ltb (packIds s).

(** [dirEntry.Info()], its size. *)
Definition packSize (id : N) : M Z :=
  _ ← io;
  ps ← gets packs;
  match ps !! id with None => fail ErrNotExist | Some pk => mret (blen (pkData pk)) end.

Definition totalPackBytes : M Z :=
  _ ← io;
  dir ← gets packsDir;
  if negb dir then mret 0 else
  ids ← gets listPacks;
  forM ids 0 (fun total id => size ← packSize id; mret (total + size)).

(** Live entries and live bytes, by pack. *)
Definition groupLive : M (gmap N (list chunkIndexEntry) * gmap N Z) :=
  metaIterPrefix "c/" (∅, ∅) (fun acc kv =>
    entry ← unmarshal asChunk kv.2;
    mret (<[cePackID entry := default [] (acc.1 !! cePackID entry) ++ [entry]]> acc.1,
          <[cePackID entry := default 0 (acc.2 !! cePackID entry) + ceLength entry]> acc.2)).

(** One round of [relocateLiveChunks]. *)
Definition relocateChunk (moved : Z) (entry : chunkIndexEntry) : M Z :=
  _ ← ctxErr;
  raw ← readPackBytes (cePackID entry) (ceOffset entry) (ceLength entry);
  p ← appendToActivePack raw;
  present ← metaHas (chunkIndexKey (ceChunkHash entry));
  if negb present then mret moved else
  t ← now;
  _ ← metaPut (chunkIndexKey (ceChunkHash entry)) (VChunk (MkChunkEntry t (ceChunkHash entry)
        (ceDictID entry) (ceDictFamily entry) p.1 p.2 (ceLength entry)));
  mret (moved + 1).

Definition relocateLiveChunks (live : list chunkIndexEntry) : M Z := forM live 0 relocateChunk.

(** [os.Remove]; a file that is already gone is fine. *)
Definition removePack (id : N) : M unit :=
  _ ← io; modify (fun s => set_packs (delete id (packs s)) s).

(** The copying part of a round. *)
Definition evacuate (report : RepackReport) (live : list chunkIndexEntry) : M RepackReport :=
  if bool_decide (live = []) then mret report else
  moved ← relocateLiveChunks live;
  mret (MkRepackReport (rpPacksScanned report) (rpPacksRepacked report + 1) (rpPacksRemoved report)
    (rpChunksMoved report + moved) (rpBytesBefore report) (rpBytesAfter report)).

Definition repackOne (activeID : N) (livePerPack : gmap N (list chunkIndexEntry)) (liveBytes : gmap N Z)
    (report : RepackReport) (id : N) : M RepackReport :=
  _ ← ctxErr;
  let report := MkRepackReport (rpPacksScanned report + 1) (rpPacksRepacked report) (rpPacksRemoved report)
    (rpChunksMoved report) (rpBytesBefore report) (rpBytesAfter report) in
  if (id =? activeID)%N then mret report else
  size ← packSize id;
  let live := default [] (livePerPack !! id) in
  if negb (bool_decide (live = [])) && (size <=? default 0 (liveBytes !! id)) then mret report else
  report ← evacuate report live;
  _ ← removePack id;
  mret (MkRepackReport (rpPacksScanned report) (rpPacksRepacked report) (rpPacksRemoved report + 1)
    (rpChunksMoved report) (rpBytesBefore report) (rpBytesAfter report)).

Definition Repack : M RepackReport :=
  _ ← ctxErr;
  r ← try readActivePack;
  match r with
  | inl e => if isNotExist e then mret (MkRepackReport 0 0 0 0 0 0) else fail e
  | inr (activeID, _) =>
      live ← groupLive;
      _ ← io;
      entries ← gets listPacks;
      before ← totalPackBytes;
      report ← forM entries (MkRepackReport 0 0 0 0 before 0) (repackOne activeID live.1 live.2);
      after ← totalPackBytes;
      mret (MkRepackReport (rpPacksScanned report) (rpPacksRepacked report) (rpPacksRemoved report)
        (rpChunksMoved report) (rpBytesBefore report) after)
  end.

End repack.

(** ** What repacking keeps *)

Section moving.
Context {E : Ext}.

(** Only chunk entries change, and only where they point: every chunk is
    served as before. *)
Record moves (s s' : Store) : Prop := {
  mv_later : later s s';
  mv_other : forall k, HasPrefix k "c/" = false -> dbGet (db s') k = dbGet (db s) k;
  mv_holds : forall h c, holds s (dbGet (db s)) h c -> holds s' (dbGet (db s')) h c;
  mv_back : forall h, is_Some (dbGet (db s') (chunkIndexKey h)) -> is_Some (dbGet (db s) (chunkIndexKey h));
  mv_max : forall id, is_Some (packs s !! id) -> exists id', (id <= id')%N /\ is_Some (packs s' !! id') }.

#[export] Instance moves_rel : StoreRel moves.
Proof.
  split.
  - intros s. split; try done. intros id Hid. exists id. split; [lia|done].
  - intros a b c [H1 H2 H3 H4 H5] [K1 K2 K3 K4 K5]. split; [by etrans|intros k Hk; by rewrite K2, H2|auto|auto|].
    intros id (i1 & Hl & Hi)%H5. destruct (K5 _ Hi) as (i2 & ? & ?). exists i2. split; [lia|done].
  - intros s s' [H _ _ _ _]. apply H.
Qed.

Lemma moves_grows s s' : grows s s' -> db s' = db s -> moves s s'.
Proof.
  intros Hg Hd. split; rewrite ?Hd; try done.
  - destruct Hg. by split.
  - intros h c (e & He & Hc). exists e. split; [done|]. by eapply entry_at_grows.
  - intros id [pk Hpk]. destruct (gr_packs _ _ Hg _ _ Hpk) as (pk' & ? & _). exists id. split; [lia|by eexists].
Qed.

#[export] Instance moves_env : EnvRel moves.
Proof. intros s s' Hs. apply moves_grows; [by apply same_grows|by destruct (same_eq _ _ Hs)]. Qed.

Lemma runs_quiet {A} (m : M A) s P : store_ok s -> runs m s phys_ok quiet P ->
  runs m s store_ok moves (fun a s' => quiet s s' /\ P a s').
Proof.
  intros Hs. unfold runs. destruct (m s) as [[a|e|] s1]; [..|done]; intros (Hp & Hq & HP);
    pose proof (store_ok_quiet _ _ Hs Hp Hq); pose proof (moves_grows _ _ (proj1 Hq) (proj2 Hq)); auto.
Qed.

Lemma reading_moves s s' : reading s s' -> moves s s'.
Proof.
  intros Hr. pose proof Hr as [Hc _ _ _ _]. injection Hc as Hd Hp _ _. split; rewrite ?Hd, ?Hp; try done.
  - by apply reading_later.
  - intros h c (e & Hh & Hat). exists e. split; [done|]. by apply (entry_at_reading s).
  - intros id Hid. exists id. split; [lia|done].
Qed.

Lemma runs_reading {A} (m : M A) s P : runs m s store_ok reading P -> runs m s store_ok moves P.
Proof. intros H. eapply runs_mono; [exact H|..]; [|done]. intros s' Hs Hr. split; [done|by apply reading_moves]. Qed.

(** A successful operation, step by step. *)
Lemma bind_inv {A B} (m : M A) (f : A -> M B) s b s2 :
  (m ≫= f) s = (Ok b, s2) -> exists a s1, m s = (Ok a, s1) /\ f a s1 = (Ok b, s2).
Proof. unfold mbind, M_bind. destruct (m s) as [[a|e|] s1]; naive_solver. Qed.

Lemma onError_inv {A} (m : M A) h s a s' : onError m h s = (Ok a, s') -> m s = (Ok a, s').
Proof. unfold onError. by destruct (m s) as [[]]. Qed.

Lemma sync_active ids : observes activePack (syncTouchedPacks ids).
Proof. observe. Qed.

(** What is appended goes to the highest pack. *)
Lemma append_highest b s p s' : phys_ok s -> appendToActivePack b s = (Ok p, s') ->
  forall id, is_Some (packs s !! id) -> (id <= p.1)%N.
Proof.
  intros Hs Hrun id [pk Hpk]. pose proof (appendToActivePack_spec s b Hs) as H. unfold runs in H. rewrite Hrun in H.
  destruct H as (Hs' & [Hg _] & pk1 & Hp1 & _).
  assert (exists z, activePack s' = Some (p.1, z)) as [z Ha].
  { apply bind_inv in Hrun as (q & s1 & H1 & ([] & s2 & H2%onError_inv & H3)%bind_inv). injection H3 as -> <-.
    pose proof (sync_active {[p.1]} s1) as Hk. rewrite H2 in Hk. cbn in Hk. rewrite Hk.
    apply bind_inv in H1 as (_ & t1 & _ & (_ & t2 & _ & (q & t3 & _ & H1)%bind_inv)%bind_inv).
    destruct (if packTargetBytes <=? q.2 then ((q.1 + 1)%N, 0) else q) as [i z]. apply bind_inv in H1 as (_ & t4 & _ & (_ & t5 & _ & ([] & t6 & H6 & H7)%bind_inv)%bind_inv).
    injection H6 as <-. injection H7 as <- <-. by eexists. }
  destruct (po_active _ Hs' _ _ Ha) as [(pk2 & _ & _ & Hmax)|[Hn _]]; [|by rewrite Hn in Hp1].
  apply Hmax. destruct (gr_packs _ _ Hg _ _ Hpk) as (pk' & ? & _). by eexists.
Qed.

(** An append leaves the bytes of the other packs. *)
Definition packData (id : N) (s : Store) : option bytes := pkData <$> packs s !! id.

#[export] Instance timeless_packData id : Timeless (packData id).
Proof. by split. Qed.

Lemma sync_packData id ids : observes (packData id) (syncTouchedPacks ids).
Proof.
  assert (forall f ps i, (forall pk, pkData (f pk) = pkData pk) -> pkData <$> (alter f i ps !! id : option pack) = pkData <$> (ps : gmap N pack) !! id) as Halt.
  { intros f ps i Hf. destruct (decide (i = id)) as [->|]; [rewrite lookup_alter_eq|by rewrite lookup_alter_ne].
    destruct (ps !! id); cbn; [by rewrite Hf|done]. }
  unfold syncTouchedPacks, syncPack, fsyncPacksDir. observe; intros s; unfold modify, packData; cbn.
  - by apply Halt.
  - rewrite lookup_fmap. by destruct (packs s !! id).
Qed.

Lemma append_others b s p s' id : appendToActivePack b s = (Ok p, s') -> id <> p.1 -> packData id s' = packData id s.
Proof.
  intros (q & s1 & H1 & ([] & s2 & H2%onError_inv & H3)%bind_inv)%bind_inv Hid. injection H3 as -> <-.
  pose proof (sync_packData id {[p.1]} s1) as Hk. rewrite H2 in Hk. cbn in Hk. rewrite Hk. clear Hk H2.
  apply bind_inv in H1 as (v1 & t1 & K1 & (v2 & t2 & K2 & (q & t3 & K3 & H1)%bind_inv)%bind_inv).
  pose proof (observes_io (packData id) s) as O1. rewrite K1 in O1. injection K2 as _ <-.
  assert (observes (packData id) cachedActivePack) as O3 by (unfold cachedActivePack, readActivePack; observe).
  specialize (O3 (set_packsDir true t1)). rewrite K3 in O3. cbn in O1, O3.
  destruct (if packTargetBytes <=? q.2 then ((q.1 + 1)%N, 0) else q) as [i z].
  apply bind_inv in H1 as (v4 & t4 & (v5 & u1 & K4 & K4')%bind_inv & (v6 & t5 & K5%onError_inv & ([] & t6 & H6 & H7)%bind_inv)%bind_inv).
  injection H6 as <-. injection H7 as <- <-. cbn in Hid.
  pose proof (observes_io (packData id) t3) as O4. rewrite K4 in O4. cbn in O4. injection K4' as _ <-.
  assert (packData id (openEffect i u1) = packData id u1) as O5.
  { unfold packData, openEffect. cbn. destruct (packs u1 !! i); [done|]. by rewrite lookup_insert_ne. }
  assert (packData id t5 = packData id (openEffect i u1)) as O6.
  { assert (forall fs, packData id (appendBytes i b (set_faults fs (openEffect i u1))) = packData id (openEffect i u1)) as Ha.
    { intros fs. unfold packData, appendBytes. cbn. by rewrite lookup_alter_ne. }
    revert K5. unfold writePack. destruct (faults _) as [|[| |]]; intros [= _ <-]; [exact (Ha (faults (openEffect i u1)))|apply Ha]. }
  unfold packData in *. cbn. cbn in *. congruence.
Qed.

End moving.

(** ** Moving one chunk *)

Section relocating.
Context {E : Ext} `{!ExtLaws E}.

Lemma entry_raw s e c : entry_at s e c -> exists pk, packs s !! cePackID e = Some pk /\ 0 <= ceOffset e /\ 0 <= ceLength e /\
  ceOffset e + ceLength e <= blen (pkData pk) /\ blen (slice (ceOffset e) (ceLength e) (pkData pk)) = ceLength e.
Proof using Type.
  intros (pk & d & H1 & H2 & H3 & H4 & _). exists pk. split_and!; try done. unfold slice. apply blen_ztake.
  unfold blen, zdrop in *. rewrite length_drop. lia.
Qed.

(** The copy in another pack is the same chunk. *)
Lemma entry_copy s e c pk t id off pk' : entry_at s e c -> packs s !! cePackID e = Some pk ->
  packs s !! id = Some pk' -> 0 <= off -> off + ceLength e <= blen (pkData pk') ->
  slice off (ceLength e) (pkData pk') = slice (ceOffset e) (ceLength e) (pkData pk) ->
  entry_at s (MkChunkEntry t (ceChunkHash e) (ceDictID e) (ceDictFamily e) id off (ceLength e)) c.
Proof using Type.
  intros (pk0 & d & H1 & H2 & H3 & H4 & H5 & H6 & H7 & H8) Hp Hp' Ho Hl Hs. assert (pk0 = pk) as -> by congruence.
  exists pk', d. cbn. rewrite Hs. split_and!; done.
Qed.

(** Pointing an entry at a durable copy. *)
Lemma metaPut_moves s h e e' c : store_ok s -> dbGet (db s) (chunkIndexKey h) = Some (VChunk e) -> entry_at s e c ->
  entry_at s e' c -> ceChunkHash e' = h -> durable s e' ->
  runs (metaPut (chunkIndexKey h) (VChunk e')) s store_ok moves (fun _ s' => grows s s' /\ packs s' = packs s /\
    forall k, dbGet (db s') k = if bool_decide (k = chunkIndexKey h) then Some (VChunk e') else dbGet (db s) k).
Proof using Type*.
  intros Hs He Hc Hc' Hh Hdu. unfold metaPut, metaApply. rbind; [by apply (runs_io _ _)|]. intros [] s1 H1 _ Hs1.
  destruct (same_eq _ _ Hs1) as (Hd & Hp & _). pose proof (same_grows _ _ Hs1) as Hg.
  set (s2 := set_db (dbApply [WSet (chunkIndexKey h) (VChunk e')] (db s1)) s1).
  assert (forall k, dbGet (db s2) k = if bool_decide (k = chunkIndexKey h) then Some (VChunk e') else dbGet (db s) k) as Hk.
  { intros k. cbn. rewrite dbGet_apply, Hd. cbn. destruct (decide (k = chunkIndexKey h)) as [->|Hn].
    - by rewrite !bool_decide_true.
    - by rewrite !bool_decide_false. }
  assert (grows s1 s2) as Hg2 by apply grows_db. assert (grows s s2) as Hg02 by by etrans.
  assert (db_ok s2 (dbGet (db s2)) ∅) as Hok.
  { destruct (db_ok_grows _ _ _ _ Hg02 (proj2 Hs)) as [D1 D2 D3]. split.
    - intros k v. rewrite Hk. case_bool_decide as Hx; [intros [= <-]; subst k; solve_key|apply D1].
    - intros h' e0. rewrite Hk. case_bool_decide as Hx; [|apply D2]. intros [= <-]. assert (h' = h) as -> by (injection Hx as Hx; exact Hx).
      split; [done|]. split; [exists c; by eapply entry_at_grows|left; by eapply durable_grows].
    - intros d r. rewrite Hk. rewrite bool_decide_false by done. intros Hr. eapply Forall_impl; [by eapply D3|].
      intros h' Hh'. cbn. rewrite Hk. case_bool_decide; [by eexists|done]. }
  unfold runs, modify. fold s2. split; [split; [|done]|split; [|done]].
  - by apply (phys_ok_eq s1), (proj1 H1).
  - split.
    + split; [done|]. by intros ?.
    + intros k Hc0. rewrite Hk, Hd. rewrite bool_decide_false; [done|]. intros ->. by rewrite HasPrefix_chunk in Hc0.
    + intros h' c' (e0 & He0 & Hat). rewrite Hd in He0. unfold holds. setoid_rewrite Hk. case_bool_decide as Hx.
      * assert (h' = h) as -> by (injection Hx as Hx; exact Hx). exists e'. split; [done|]. assert (e0 = e) as -> by congruence.
        rewrite <- (entry_at_fun s1 e c c'); [by apply (entry_at_grows s)|by apply (entry_at_grows s)|done].
      * exists e0. split; [done|]. by apply (entry_at_grows s1).
    + intros h'. rewrite Hk, Hd. case_bool_decide as Hx; [|done]. intros _. injection Hx as Hx. assert (h' = h) as -> by exact Hx. by eexists.
    + intros id Hid. exists id. split; [lia|done].
Qed.

Lemma readPackBytes_spec s e c pk : store_ok s -> entry_at s e c -> packs s !! cePackID e = Some pk ->
  runs (readPackBytes (cePackID e) (ceOffset e) (ceLength e)) s store_ok moves
    (fun r s' => same s s' /\ r = slice (ceOffset e) (ceLength e) (pkData pk)).
Proof using Type.
  intros Hs Hc Hp. destruct (entry_raw s e c Hc) as (pk' & Hp' & H1 & H2 & H3 & _). assert (pk' = pk) as -> by congruence.
  unfold readPackBytes. rbind; [by apply runs_reading, openPack_spec|]. intros data s1 I1 _ [-> Hs1].
  eapply runs_post; [by apply runs_reading, wrapErr_spec, readAt_spec|]. intros r s2 _ _ [-> Hs2]. split; [by etrans|done].
Qed.

Lemma append_moves s b : store_ok s ->
  runs (appendToActivePack b) s store_ok moves (fun p s' => quiet s s' /\
    (forall id, is_Some (packs s !! id) -> (id <= p.1)%N) /\ (forall id, id <> p.1 -> packData id s' = packData id s) /\
    exists pk, packs s' !! p.1 = Some pk /\ 0 <= p.2 /\ p.2 + blen b <= Z.of_nat (pkSynced pk) /\
      pkLinked pk = true /\ p.2 + blen b <= blen (pkData pk) /\ slice p.2 (blen b) (pkData pk) = b).
Proof using Type.
  intros Hs. pose proof (runs_quiet _ _ _ Hs (appendToActivePack_spec s b (proj1 Hs))) as H.
  pose proof (append_highest b s) as Hhigh. unfold runs in *. destruct (appendToActivePack b s) as [[p|err|] s3] eqn:Hrun; [|exact H|done].
  destruct H as (K1 & K2 & K3 & K4). split; [done|]. split; [done|]. split; [done|]. split; [|split; [|done]].
  - by apply (Hhigh p s3); [apply Hs|].
  - intros id. by eapply append_others.
Qed.

(** The index after the entries of [live] were moved to packs from [A] on. *)
Definition relocated (A : N) (live : list chunkIndexEntry) (s s' : Store) : Prop :=
  forall k, (dbGet (db s') k = dbGet (db s) k /\ forall e, e ∈ live -> k <> chunkIndexKey (ceChunkHash e)) \/
    exists e e', e ∈ live /\ k = chunkIndexKey (ceChunkHash e) /\ dbGet (db s') k = Some (VChunk e') /\ (A <= cePackID e')%N.

Lemma relocateChunk_spec s A n e : store_ok s -> is_Some (packs s !! A) ->
  dbGet (db s) (chunkIndexKey (ceChunkHash e)) = Some (VChunk e) ->
  runs (relocateChunk n e) s store_ok moves (fun n' s' => n' = n + 1 /\ grows s s' /\
    (forall id, (id < A)%N -> packData id s' = packData id s) /\ relocated A [e] s s').
Proof using Type*.
  intros Hs HA He. destruct (do_chunks _ _ _ (proj2 Hs) _ _ He) as (_ & [c Hc] & _).
  destruct (entry_raw s e c Hc) as (pk & Hp & H1 & H2 & H3 & Hlen).
  unfold relocateChunk, ctxErr. rbind; [by apply (runs_io _ _)|]. intros [] s1 I1 _ Hs1.
  assert (grows s s1) as Hg1 by by apply same_grows. destruct (same_eq _ _ Hs1) as (Hd1 & Hp1 & _).
  rbind; [apply (readPackBytes_spec s1 e c pk); [done|by eapply entry_at_grows|by rewrite Hp1]|]. intros raw s2 I2 _ [Hs2 ->].
  assert (grows s s2) as Hg2 by (etrans; [done|by apply same_grows]). destruct (same_eq _ _ Hs2) as (Hd2 & Hp2 & _).
  rbind; [by apply append_moves|].
  intros p s3 I3 _ ([Hg3 Hd3] & Hhigh & Hoth & pk' & Hpk' & Ho & Hsy & Hlk & Hle & Hsl). rewrite Hlen in *.
  assert (A <= p.1)%N as HpA by (apply Hhigh; by rewrite Hp2, Hp1).
  assert (grows s s3) as Hg03 by by etrans. assert (db s3 = db s) as Hd by congruence.
  rbind; [by apply (metaHas_spec _ _ _ _)|]. intros present s4 I4 _ [Hs4 ->]. rewrite Hd, He, bool_decide_true by by eexists. cbn [negb].
  rbind; [by apply (runs_now _ _)|]. intros t s5 I5 _ [Hs5 _]. assert (same s3 s5) as Hs35 by by etrans.
  destruct (same_eq _ _ Hs35) as (Hd5 & Hp5 & _). assert (grows s s5) as Hg05 by (etrans; [done|by apply same_grows]).
  assert (entry_at s5 e c) as Hc5 by by apply (entry_at_grows s).
  destruct (gr_packs _ _ Hg03 _ _ Hp) as (pk3 & Hpk3 & Hpre & _).
  rbind; [apply (metaPut_moves s5 (ceChunkHash e) e _ c); [done|by rewrite Hd5, Hd|done| |done|]|].
  - eapply (entry_copy s5 e c pk3); rewrite ?Hp5; try done. rewrite Hsl. symmetry. by apply prefix_slice.
  - exists pk'. cbn. rewrite Hp5. done.
  - intros [] s6 I6 _ (Hg6 & Hp6 & Hk). rret; [done|]. split; [done|]. split; [by etrans|].
    split. { intros id Hid. unfold packData in *. by rewrite Hp6, Hp5, Hoth, Hp2, Hp1 by lia. } intros k. rewrite Hk, Hd5, Hd.
    case_bool_decide as Hx.
    + right. exists e. eexists. split; [by apply list_elem_of_singleton|]. split; [done|]. split; [done|done].
    + left. split; [done|]. by intros e' ->%list_elem_of_singleton.
Qed.

Lemma relocated_app A l1 l2 s s1 s2 : relocated A l1 s s1 -> relocated A l2 s1 s2 -> relocated A (l1 ++ l2) s s2.
Proof using Type.
  intros H1 H2 k. destruct (H2 k) as [[Heq Hn]|(e & e' & ? & ? & ? & ?)]; [|right; exists e, e'; rewrite elem_of_app; auto].
  rewrite Heq. destruct (H1 k) as [[-> Hn']|(e & e' & ? & ? & ? & ?)]; [left|right; exists e, e'; rewrite elem_of_app; auto].
  split; [done|]. intros e [?|?]%elem_of_app; auto.
Qed.

Lemma relocate_spec s A live : store_ok s -> is_Some (packs s !! A) -> NoDup (ceChunkHash <$> live) ->
  (forall e, e ∈ live -> dbGet (db s) (chunkIndexKey (ceChunkHash e)) = Some (VChunk e)) ->
  runs (relocateLiveChunks live) s store_ok moves (fun n s' => n = Z.of_nat (length live) /\ grows s s' /\
    (forall id, (id < A)%N -> packData id s' = packData id s) /\ relocated A live s s').
Proof using Type*.
  intros Hs HA Hnd Hl. unfold relocateLiveChunks.
  apply (runs_forM _ _ _ _ _ _ (fun done n s' => n = Z.of_nat (length done) /\ grows s s' /\
    (forall id, (id < A)%N -> packData id s' = packData id s) /\ relocated A done s s')); [done|..].
  - split; [done|]. split; [done|]. split; [done|]. intros k. left. split; [done|]. by intros e ?%elem_of_nil.
  - intros done n e s1 [rest Hpre] I1 _ (-> & Hg & Hoth & Hrel).
    assert (dbGet (db s1) (chunkIndexKey (ceChunkHash e)) = Some (VChunk e)) as He.
    { rewrite Hpre, fmap_app, fmap_app in Hnd. destruct (Hrel (chunkIndexKey (ceChunkHash e))) as [[-> _]|(e1 & e1' & Hin & Hk & _)].
      - apply Hl. rewrite Hpre, !elem_of_app, list_elem_of_singleton. auto.
      - apply NoDup_app in Hnd as [(_ & Hdis & _)%NoDup_app _]. injection Hk as Hk. destruct (Hdis (ceChunkHash e)).
        + apply list_elem_of_fmap. exists e1. split; [exact Hk|done].
        + cbn. by left. }
    destruct HA as [pkA HA]. destruct (gr_packs _ _ Hg _ _ HA) as (pkA' & HA' & _).
    eapply runs_post; [apply (relocateChunk_spec s1 A); [done|by eexists|done]|]. intros n' s2 _ _ (-> & Hg2 & Hoth2 & Hrel2).
    split; [rewrite length_app; cbn; lia|]. split; [by etrans|]. split; [intros id Hid; by rewrite Hoth2, Hoth|]. by eapply relocated_app.
Qed.

(** A pack nothing refers to, below the highest one. *)
Lemma removePack_spec s id A : store_ok s -> is_Some (packs s !! A) -> (id < A)%N ->
  (forall h e, dbGet (db s) (chunkIndexKey h) = Some (VChunk e) -> cePackID e <> id) ->
  runs (removePack id) s store_ok moves (fun _ s' => db s' = db s /\ packs s' = delete id (packs s)).
Proof using Type.
  intros Hs HA Hid Hno. unfold removePack. rbind; [by apply (runs_io _ _)|]. intros [] s1 I1 _ Hs1.
  destruct (same_eq _ _ Hs1) as (Hd & Hp & _). rewrite <- Hp in HA. rewrite <- Hd in Hno.
  set (s2 := set_packs (delete id (packs s1)) s1).
  assert (forall h e c, dbGet (db s1) (chunkIndexKey h) = Some (VChunk e) -> entry_at s1 e c -> entry_at s2 e c) as Hat.
  { intros h e c He (pk & d & H1 & H2). exists pk, d. cbn. rewrite lookup_delete_ne by (symmetry; by eapply Hno). done. }
  assert (phys_ok s2) as Hph.
  { destruct (proj1 I1) as [P1 P2 P3 P4 P5]. split; cbn; try done.
    - intros i pk [_ Hpk]%lookup_delete_Some. by apply (P1 i).
    - intros Hne. apply P2. intros He. apply Hne. by rewrite He, delete_empty.
    - intros i size Ha. destruct (P3 i size Ha) as [(pk & Hpk & Hz & Hmax)|[He _]]; [left|destruct HA as [? HA]; by rewrite He in HA].
      exists pk. specialize (Hmax A HA) as HmA. rewrite lookup_delete_ne by lia. split; [done|]. split; [done|].
      intros i' [x Hx]. apply lookup_delete_Some in Hx as [_ Hx]. apply Hmax. by eexists. }
  assert (store_ok s2) as I2.
  { split; [done|]. destruct (proj2 I1) as [D1 D2 D3]. split; [done| |done]. intros h e He. destruct (D2 h e He) as (Hh & [c Hc] & Hdu).
    split; [done|]. split; [exists c; by eapply Hat|]. destruct Hdu as [(pk & H1 & H2)|Hdu]; [left|by right].
    exists pk. cbn. rewrite lookup_delete_ne by (symmetry; by eapply Hno). done. }
  unfold runs, modify. fold s2. split; [done|]. split; [|cbn; by rewrite Hp].
  split; try done.
  - intros h c (e & He & Hc). exists e. split; [done|]. by eapply Hat.
  - intros i [pk Hi]. destruct (decide (i = id)) as [->|Hn]; [exists A|exists i]; (split; [lia|]); cbn.
    + by rewrite lookup_delete_ne by lia.
    + rewrite lookup_delete_ne by done. by eexists.
Qed.

End relocating.

(** ** The whole run *)

Section repacking.
Context {E : Ext} `{!ExtLaws E}.

(** The entries of one pack, and the bytes they take. *)
Definition packLive (kvs : list (string * Value)) (id : N) : list chunkIndexEntry :=
  List.filter (fun e => (cePackID e =? id)%N) (omap asChunk kvs.*2).
Definition liveSize (l : list chunkIndexEntry) : Z := foldr Z.add 0 (ceLength <$> l).

Lemma liveSize_app l e : liveSize (l ++ [e]) = liveSize l + ceLength e.
Proof using Type. unfold liveSize. induction l; cbn in *; lia. Qed.

Lemma groupLive_spec s : store_ok s -> runs groupLive s store_ok same (fun r s' => same s s' /\
  forall id, default [] (r.1 !! id) = packLive (chunkRange (db s)) id /\
    default 0 (r.2 !! id) = liveSize (packLive (chunkRange (db s)) id)).
Proof using Type*.
  intros HI. unfold groupLive, metaIterPrefix, snapshotIterPrefix. rgets.
  apply (scan_spec _ _ _ _ _ _ _ _ (fun done (r : gmap N (list chunkIndexEntry) * gmap N Z) =>
    forall id, default [] (r.1 !! id) = packLive done id /\ default 0 (r.2 !! id) = liveSize (packLive done id))); [done|..].
  - intros id. cbn [fst snd]. by rewrite !lookup_empty.
  - intros done r kv s' Hpre Hs' HI' Hr. destruct (range_chunk s kv done HI Hpre) as (e & ->). cbn [fst snd].
    rbind; [by apply (unmarshal_spec asChunk _ e _ _)|]. intros e' s1 _ _ [-> ->]. rret; [done|]. split; [done|].
    intros id. cbn [fst snd]. destruct (Hr id) as [H1 H2]. unfold packLive in *. rewrite fmap_app, omap_app, List.filter_app. cbn.
    destruct (N.eqb_spec (cePackID e) id) as [->|Hn].
    + rewrite !lookup_insert_eq. cbn. by rewrite H1, H2, liveSize_app.
    + by rewrite !lookup_insert_ne, app_nil_r by done.
Qed.

Lemma packLive_elem s id e : store_ok s ->
  e ∈ packLive (chunkRange (db s)) id <-> dbGet (db s) (chunkIndexKey (ceChunkHash e)) = Some (VChunk e) /\ cePackID e = id.
Proof using Type*.
  intros HI. unfold packLive. rewrite list_elem_of_In, filter_In, N.eqb_eq, <- list_elem_of_In, list_elem_of_omap.
  setoid_rewrite list_elem_of_fmap. split.
  - intros [(v & ([k v'] & -> & Hin) & Hv) Hid]. split; [|done]. unfold chunkRange in Hin.
    apply list_elem_of_split in Hin as (l1 & l2 & Hl). cbn in Hv.
    destruct (range_chunk s (k, v') l1 HI) as (e' & Heq); [exists l2; by rewrite Hl, <- app_assoc|].
    injection Heq as -> ->. injection Hv as ->.
    assert ((chunkIndexKey (ceChunkHash e), VChunk e) ∈ chunkRange (db s)) as Hin by (unfold chunkRange; rewrite Hl; set_solver).
    by apply prefixRange_elem in Hin as [? _].
  - intros [Hg Hid]. split; [|done]. exists (VChunk e). split; [|done]. eexists (_, _). split; [done|].
    apply prefixRange_elem. split; [exact Hg|apply HasPrefix_app].
Qed.

Lemma packLive_nodup s id : store_ok s -> NoDup (ceChunkHash <$> packLive (chunkRange (db s)) id).
Proof using Type*.
  intros HI. assert (NoDup (chunkRange (db s)).*1) as Hnd by apply dbRange_nodup.
  assert (forall l, l `prefix_of` chunkRange (db s) -> l.*1 = chunkIndexKey <$> (ceChunkHash <$> omap asChunk l.*2)) as Hl.
  { intros l. induction l as [|kv l IH] using rev_ind; [done|]. intros Hpre. destruct (range_chunk s kv l HI Hpre) as (e & ->).
    rewrite !fmap_app, omap_app, !fmap_app, IH; [done|]. etrans; [by apply prefix_app_r|exact Hpre]. }
  rewrite (Hl _ ltac:(done)) in Hnd. apply NoDup_fmap_1 in Hnd. unfold packLive. revert Hnd. generalize (omap asChunk (chunkRange (db s)).*2).
  induction l as [|e l IH]; [done|]. cbn. intros [Hn Hnd]%NoDup_cons. destruct (cePackID e =? id)%N; [|auto]. cbn. constructor; [|auto].
  contradict Hn. apply list_elem_of_fmap in Hn as (e' & -> & Hin). apply list_elem_of_fmap. exists e'. split; [done|].
  apply list_elem_of_In, filter_In in Hin as [? _]. by apply list_elem_of_In.
Qed.

Lemma packSize_spec s id data : store_ok s -> packData id s = Some data ->
  runs (packSize id) s store_ok moves (fun z s' => same s s' /\ z = blen data).
Proof using Type.
  intros HI (pk & Hp & ->)%fmap_Some. unfold packSize. rbind; [by apply (runs_io _ _)|]. intros [] s1 HI1 _ Hs1.
  destruct (same_eq _ _ Hs1) as (_ & Hp1 & _). rgets. rewrite Hp1, Hp. by rret.
Qed.

Lemma listPacks_elem s id : id ∈ listPacks s <-> is_Some (packs s !! id).
Proof using Type. unfold listPacks. by rewrite sortStable_perm, elem_of_packIds. Qed.

Lemma totalPackBytes_spec s : store_ok s ->
  runs totalPackBytes s store_ok moves (fun z s' => same s s').
Proof using Type.
  intros HI. unfold totalPackBytes. rbind; [by apply (runs_io _ _)|]. intros [] s1 HI1 _ Hs1. rgets.
  destruct (negb (packsDir s1)); [by rret|]. rgets.
  apply (runs_forM_inv _ _ _ _ _ _ (fun _ s' => same s s')); [done|done|].
  intros total id s2 [pk Hid]%listPacks_elem HI2 _ Hs2. destruct (same_eq _ _ Hs1) as (_ & Hp1 & _). destruct (same_eq _ _ Hs2) as (_ & Hp2 & _).
  rbind; [apply (packSize_spec s2 id (pkData pk)); [done|]; unfold packData; by rewrite Hp2, <- Hp1, Hid|].
  intros z s3 HI3 _ [Hs3 _]. rret; [done|]. by etrans.
Qed.

(** The entries that point into pack [id] are the same. *)
Definition same_entries (id : N) (s s' : Store) : Prop := forall h e, cePackID e = id ->
  dbGet (db s') (chunkIndexKey h) = Some (VChunk e) <-> dbGet (db s) (chunkIndexKey h) = Some (VChunk e).

(** A pack without dead space: distinct chunks of the index fill it. *)
Definition fully_live (s : Store) (id : N) : Prop := exists data live, packData id s = Some data /\ live <> [] /\
  NoDup (ceChunkHash <$> live) /\ blen data <= liveSize live /\
  forall e, e ∈ live -> dbGet (db s) (chunkIndexKey (ceChunkHash e)) = Some (VChunk e) /\ cePackID e = id.

Lemma fully_live_same s s' id : packData id s' = packData id s -> same_entries id s s' -> fully_live s id -> fully_live s' id.
Proof using Type.
  intros Hd Hs (data & live & H1 & H2 & H3 & H4 & H5). exists data, live. rewrite Hd. split_and!; try done.
  intros e He. destruct (H5 e He) as [Hg Hid]. split; [by apply Hs|done].
Qed.

(** Half-way through: packs still to come are as at the start, packs dealt with
    are gone or full. *)
Record midway (A : N) (s : Store) (done : list N) (s' : Store) : Prop := {
  mw_active : is_Some (packs s' !! A);
  mw_todo : forall id, id ∉ done -> (id < A)%N -> packData id s' = packData id s /\ same_entries id s s';
  mw_done : forall id, id ∈ done -> (id < A)%N -> packs s' !! id = None \/ fully_live s' id }.

(** Only the pack dealt with changes. *)
Lemma midway_step A s done id s1 s2 : midway A s done s1 -> is_Some (packs s2 !! A) ->
  (forall i, i <> id -> (i < A)%N -> packData i s2 = packData i s1 /\ same_entries i s1 s2) ->
  ((id < A)%N -> packs s2 !! id = None \/ fully_live s2 id) -> midway A s (done ++ [id]) s2.
Proof using Type.
  intros [M1 M2 M3] HA Hoth Hid. split; [done|..].
  - intros i [Hi Hn]%not_elem_of_app HiA. destruct (M2 i Hi HiA) as [K1 K2].
    destruct (Hoth i) as [L1 L2]; [intros ->; apply Hn; by apply list_elem_of_singleton|done|]. split; [congruence|].
    intros h e He. by rewrite (L2 h e He), (K2 h e He).
  - intros i Hi HiA. destruct (decide (i = id)) as [->|Hn]; [auto|].
    apply elem_of_app in Hi as [Hi| ->%list_elem_of_singleton]; [|done]. destruct (Hoth i Hn HiA) as [L1 L2].
    destruct (M3 i Hi HiA) as [He|Hf]; [left|right; by eapply fully_live_same].
    unfold packData in L1. rewrite He in L1. by apply fmap_None in L1.
Qed.

Lemma relocated_entries A live id i s s' : relocated A live s s' -> (i < A)%N -> i <> id ->
  (forall e, e ∈ live -> dbGet (db s) (chunkIndexKey (ceChunkHash e)) = Some (VChunk e) /\ cePackID e = id) -> same_entries i s s'.
Proof using Type.
  intros Hr Hi Hn Hl h e He. destruct (Hr (chunkIndexKey h)) as [[-> _]|(e1 & e2 & Hin & Hk & Hg & HA)]; [done|].
  rewrite Hg. destruct (Hl e1 Hin) as [Hg1 Hid]. rewrite Hk, Hg1. split; intros [= ->]; [lia|congruence].
Qed.

(** Afterwards nothing points into the pack. *)
Lemma evacuate_spec s A id report live : store_ok s -> is_Some (packs s !! A) -> (id < A)%N -> NoDup (ceChunkHash <$> live) ->
  (forall e, e ∈ live <-> dbGet (db s) (chunkIndexKey (ceChunkHash e)) = Some (VChunk e) /\ cePackID e = id) ->
  runs (evacuate report live) s store_ok moves (fun _ s' => is_Some (packs s' !! A) /\
    (forall i, i <> id -> (i < A)%N -> packData i s' = packData i s /\ same_entries i s s') /\
    (forall h e, dbGet (db s') (chunkIndexKey h) = Some (VChunk e) -> cePackID e <> id)).
Proof using Type*.
  intros HI HA Hlt Hnd Hlive. unfold evacuate. case_bool_decide as Hnil.
  - rret; [done|]. split; [done|]. split; [done|]. intros h e He Hce.
    destruct (do_chunks _ _ _ (proj2 HI) h e He) as [Hh _]. rewrite <- Hh in He. apply (not_elem_of_nil e). rewrite <- Hnil. by apply Hlive.
  - rbind; [apply (relocate_spec s A live); [done|done|done|]|].
    { intros e He. by apply Hlive. }
    intros moved s3 I3 _ (-> & Hg3 & Hp3 & Hrel). rret; [done|]. destruct HA as [pa HA].
    destruct (gr_packs _ _ Hg3 _ _ HA) as (pa' & ? & _). split; [by eexists|]. split.
    + intros i Hi HiA. split; [by apply Hp3|]. eapply relocated_entries; [done|done|done|]. intros e He. by apply Hlive.
    + intros h e He Hce. destruct (Hrel (chunkIndexKey h)) as [[Heq Hn]|(e1 & e2 & _ & _ & He2 & HA')].
      * rewrite Heq in He. destruct (do_chunks _ _ _ (proj2 HI) h e He) as [Hh _]. apply (Hn e).
        -- apply Hlive. by rewrite Hh.
        -- by rewrite Hh.
      * assert (e2 = e) as -> by congruence. lia.
Qed.

Lemma repackOne_spec A L B s0 s done report id : store_ok s0 -> store_ok s -> midway A s0 done s -> id ∉ done ->
  (id <= A)%N -> is_Some (packs s0 !! id) ->
  default [] (L !! id) = packLive (chunkRange (db s0)) id -> default 0 (B !! id) = liveSize (packLive (chunkRange (db s0)) id) ->
  runs (repackOne A L B report id) s store_ok moves (fun _ s' => midway A s0 (done ++ [id]) s').
Proof using Type*.
  intros HI0 HI Hm Hid HidA Hpk HL HB. unfold repackOne, ctxErr. rbind; [by apply (runs_io _ _)|]. intros [] s1 I1 _ Hs1.
  destruct (same_eq _ _ Hs1) as (Hd1 & Hp1 & _).
  assert (forall i, packData i s1 = packData i s /\ same_entries i s s1) as Hs.
  { intros i. unfold packData, same_entries. by rewrite Hp1, Hd1. }
  assert (is_Some (packs s1 !! A)) as HA by (rewrite Hp1; apply Hm). cbv zeta. cbn [rpPacksScanned rpPacksRepacked].
  destruct (N.eqb_spec id A) as [->|Hne].
  { rret; [done|]. eapply midway_step; [done|done|intros i _ _; apply Hs|lia]. }
  assert (id < A)%N as Hlt by lia. destruct (mw_todo _ _ _ _ Hm id Hid Hlt) as [Hdata Hent].
  destruct Hpk as [pk Hpk]. assert (packData id s1 = Some (pkData pk)) as Hdata1.
  { destruct (Hs id) as [-> _]. rewrite Hdata. unfold packData. by rewrite Hpk. }
  rbind; [by apply (packSize_spec s1 id (pkData pk))|]. intros z s2 I2 _ [Hs2 ->].
  destruct (same_eq _ _ Hs2) as (Hd2 & Hp2 & _). rewrite HL, HB. set (live := packLive _ _).
  assert (forall e, e ∈ live <-> dbGet (db s2) (chunkIndexKey (ceChunkHash e)) = Some (VChunk e) /\ cePackID e = id) as Hlive.
  { intros e. unfold live. rewrite packLive_elem by done. rewrite Hd2, Hd1. specialize (Hent (ceChunkHash e) e). naive_solver. }
  assert (NoDup (ceChunkHash <$> live)) as Hnd by by apply packLive_nodup.
  assert (forall i, packData i s2 = packData i s /\ same_entries i s s2) as Hs02.
  { intros i. unfold packData, same_entries. by rewrite Hp2, Hd2, Hp1, Hd1. }
  assert (is_Some (packs s2 !! A)) as HA2 by by rewrite Hp2.
  destruct (negb (bool_decide (live = [])) && (blen (pkData pk) <=? liveSize live)) eqn:Hfull.
  { apply andb_true_iff in Hfull as [Hne'%negb_true_iff%bool_decide_eq_false Hle%Z.leb_le]. rret; [done|].
    eapply midway_step; [done|done|intros i _ _; apply Hs02|]. intros _. right. exists (pkData pk), live. split_and!; try done.
    - destruct (Hs02 id) as [-> _]. rewrite Hdata. unfold packData. by rewrite Hpk.
    - intros e. apply Hlive. }
  clear Hfull. rbind; [by apply (evacuate_spec s2 A id)|].
  intros report' s3 I3 _ (HA3 & Hoth & Hno).
  rbind; [by apply (removePack_spec s3 id A)|]. intros [] s4 I4 _ [Hd4 Hp4]. rret; [done|].
  eapply midway_step; [done|rewrite Hp4, lookup_delete_ne by lia; done| |intros _; left; by rewrite Hp4, lookup_delete_eq].
  intros i Hi HiA. destruct (Hoth i Hi HiA) as [L1 L2]. destruct (Hs02 i) as [K1 K2]. split.
  - unfold packData in *. rewrite Hp4, lookup_delete_ne by done. by rewrite L1, K1.
  - intros h e He. rewrite Hd4. by rewrite (L2 h e He), (K2 h e He).
Qed.

#[local] Instance timeless_dir : Timeless (fun s => (packsDir s, packs s)).
Proof using Type. by split. Qed.

Lemma readActivePack_err s e s' : packsDir s = true -> readActivePack s = (Err e, s') -> isNotExist e = false.
Proof using Type.
  intros Hd. unfold readActivePack, mbind, M_bind, gets. destruct (io s) as [[[]|e1|] s1] eqn:H1; [|by apply io_err in H1 as [_ ?]; intros [= <- _]|done].
  pose proof (observes_io (fun s => (packsDir s, packs s)) s) as Ho. rewrite H1 in Ho. injection Ho as Hd1 Hp1. rewrite Hd1, Hd. cbn [negb].
  pose proof (maxPackId_spec (packIds s1)) as Hm. destruct (maxPackId (packIds s1)) as [m|]; [|done]. destruct Hm as [[pk Hm]%elem_of_packIds _].
  destruct (io s1) as [[[]|e2|] s2] eqn:H2; [|by apply io_err in H2 as [_ ?]; intros [= <- _]|done].
  pose proof (observes_io (fun s => (packsDir s, packs s)) s1) as Ho. rewrite H2 in Ho. injection Ho as Hd2 Hp2. by rewrite Hp2, Hm.
Qed.

(** No pack was ever written. *)
Lemma readActivePack_none {A} s (k : GoError + N * Z -> M A) P : store_ok s -> packsDir s = false ->
  (forall s', store_ok s' -> same s s' -> runs (k (inl ErrNotExist)) s' store_ok moves P) ->
  (forall e s', isNotExist e = false -> k (inl e) s' = (Err e, s')) -> runs (try readActivePack ≫= k) s store_ok moves P.
Proof using Type.
  intros HI Hd Hk Hf. eapply (runs_mono _ _ store_ok store_ok moves moves P P); [|done..].
  assert (runs io s store_ok moves (fun _ s' => same s s')) as Hio by by apply (runs_io _ _).
  unfold runs, try, mbind, M_bind, readActivePack, gets in *. unfold mbind, M_bind.
  destruct (io s) as [[[]|e|] s1] eqn:H1; [|..|done].
  - destruct Hio as (I1 & R1 & Hs1). destruct (same_eq _ _ Hs1) as (_ & _ & Hpd & _). rewrite Hpd, Hd. cbn [negb fail].
    specialize (Hk s1 I1 Hs1). destruct (k (inl ErrNotExist) s1) as [[a|e|] s2]; [..|done]; destruct Hk as (K1 & K2 & K3).
    + split; [done|]. split; [by etrans|done].
    + split; [done|]. split; [by etrans|]. contradict K3. by eapply srel_faults.
  - apply io_err in H1 as [_ He]. rewrite Hf by done. done.
Qed.

(** The outcome of a run: everything is served as before, and a pack below the
    active one is full. *)
Lemma Repack_spec s : store_ok s -> runs Repack s store_ok moves (fun _ s' =>
  forall id, is_Some (packs s' !! id) -> (exists i, is_Some (packs s !! i) /\ (id < i)%N) -> fully_live s' id).
Proof using Type*.
  intros HI. unfold Repack, ctxErr. rbind; [by apply (runs_io _ _)|]. intros [] s1 I1 _ Hs1.
  destruct (same_eq _ _ Hs1) as (Hd1 & Hp1 & _). rewrite <- Hp1. destruct (packsDir s1) eqn:Hdir.
  2:{ apply readActivePack_none; [done|done|..].
    - intros s2 I2 Hs2. cbn [isNotExist]. rret; [done|]. intros id _ (i & [pk Hi] & _).
      assert (packs s1 = ∅) as He; [|by rewrite He in Hi]. destruct (decide (packs s1 = ∅)) as [|Hn]; [done|].
      apply (po_dir _ (proj1 I1)) in Hn. congruence.
    - intros e s2 He. by rewrite He. }
  eapply runs_try_bind; [apply _|apply (runs_quiet readActivePack); [done|apply readActivePack_spec; [apply I1|done]]|..].
  2:{ intros e s2 Hrun I2 R2. apply readActivePack_err in Hrun as ->; done. }
  intros [A z] s2 I2 _ (_ & Hs2 & Hact). destruct (same_eq _ _ Hs2) as (Hd2 & Hp2 & _).
  rbind; [eapply runs_mono; [by apply groupLive_spec|..]; [|done]; intros s' ? ?%(env_rel (R:=moves)); done|].
  intros [L B] s3 I3 _ [Hs3 HLB]. rbind; [by apply (runs_io _ _)|]. intros [] s4 I4 _ Hs4. rgets.
  rbind; [by apply totalPackBytes_spec|]. intros before s5 I5 _ Hs5.
  assert (packs s4 = packs s1 /\ packs s5 = packs s1 /\ db s5 = db s2) as (Hp4 & Hp5 & Hd5).
  { destruct (same_eq _ _ Hs3) as (? & ? & _), (same_eq _ _ Hs4) as (? & ? & _), (same_eq _ _ Hs5) as (? & ? & _). split_and!; congruence. }
  rbind; [apply (runs_forM _ _ _ _ _ _ (fun done _ s' => packs s5 <> ∅ -> midway A s5 done s')); [done|..]|].
  - intros Hne. split; [|done|by intros ? ?%elem_of_nil]. destruct Hact as [(pk & Hpk & _)|[He _]].
    + exists pk. cbn in Hpk. by rewrite Hp5.
    + by rewrite Hp5, He in Hne.
  - intros done report id s6 Hpre I6 _ Hmid.
    assert (id ∈ listPacks s4) as Hin by (destruct Hpre as [r ->]; set_solver).
    assert (id ∉ done) as Hnid.
    { assert (NoDup (listPacks s4)) as Hnd by (unfold listPacks; rewrite sortStable_perm; apply NoDup_fst_map_to_list).
      destruct Hpre as [r Hr]. rewrite Hr in Hnd. apply NoDup_app in Hnd as [(_ & Hd & _)%NoDup_app _].
      intros Hx. apply (Hd id Hx). by apply list_elem_of_singleton. }
    apply listPacks_elem in Hin as [pk Hid]. rewrite Hp4 in Hid.
    assert (packs s5 <> ∅) as Hne by (intros He; rewrite <- Hp5, He in Hid; done).
    assert (id <= A)%N as HidA.
    { destruct Hact as [(pk' & _ & _ & Hmax)|[He _]]; [apply Hmax; by eexists|]. by rewrite He in Hid. }
    destruct (HLB id) as [HL HB]. rewrite <- Hd5 in HL, HB. cbn [fst snd] in *.
    eapply runs_post; [apply (repackOne_spec A L B s5 s6 done); try done; [by apply Hmid|by rewrite Hp5; eexists]|]. by intros.
  - intros report s6 I6 _ Hmid. rbind; [by apply totalPackBytes_spec|]. intros after s7 I7 _ Hs7. rret; [done|].
    intros id Hid (i & [pk Hi] & Hlt). destruct (same_eq _ _ Hs7) as (Hd7 & Hp7 & _).
    assert (packs s5 <> ∅) as Hne by (intros He; rewrite <- Hp5, He in Hi; done). specialize (Hmid Hne).
    assert (id < A)%N as HidA.
    { destruct Hact as [(pk' & _ & _ & Hmax)|[He _]]; [|by rewrite He in Hi]. assert (i <= A)%N by (apply Hmax; by eexists). lia. }
    rewrite Hp7 in Hid. apply (fully_live_same s6); [unfold packData; by rewrite Hp7|unfold same_entries; by rewrite Hd7|].
    destruct (decide (id ∈ listPacks s4)) as [Hin|Hin].
    + destruct (mw_done _ _ _ _ Hmid id Hin HidA) as [He|?]; [|done]. rewrite He in Hid. by destruct Hid.
    + destruct (mw_todo _ _ _ _ Hmid id Hin HidA) as [Hpd _]. destruct Hin. apply listPacks_elem. rewrite Hp4, <- Hp5.
      unfold packData in Hpd. destruct Hid as [pk' Hid]. rewrite Hid in Hpd. symmetry in Hpd. apply fmap_Some in Hpd as (pk2 & ? & _). by eexists.
Qed.

End repacking.

Lemma moves_holds {E : Ext} s s' h c : store_ok s -> moves s s' -> holds s' (dbGet (db s')) h c -> holds s (dbGet (db s)) h c.
Proof.
  intros HI Hm Hh. destruct (db_ok_holds s (dbGet (db s)) ∅ h (proj2 HI)) as (c' & Hc' & _).
  - apply (mv_back _ _ Hm). destruct Hh as (e & He & _). by eexists.
  - by rewrite (holds_fun _ _ _ _ _ Hh (mv_holds _ _ Hm _ _ Hc')).
Qed.

(** C8: repacking changes where chunks are, never what is stored.  Whatever I/O
    steps fail and wherever it stops, it does not panic, every document other
    than chunk entries is untouched, every hash is served with the content it was
    served with before and no other, from synced bytes, and the store is
    consistent.  Without faults it completes, and a pack below one that existed
    before is left only when distinct live chunks fill it. *)
Theorem repack_preserves {E : Ext} `{!ExtLaws E} (s : Store) :
  store_ok s ->
  let '(r, s') := Repack s in
  r <> Panic /\ store_ok s' /\
  (forall k, HasPrefix k "c/" = false -> dbGet (db s') k = dbGet (db s) k) /\
  (forall h c, holds s' (dbGet (db s')) h c <-> holds s (dbGet (db s)) h c) /\
  (faults s = [] -> exists rep, r = Ok rep) /\
  (forall rep, r = Ok rep -> forall id i, is_Some (packs s' !! id) -> is_Some (packs s !! i) -> (id < i)%N -> fully_live s' id).
Proof.
  intros HI. pose proof (Repack_spec s HI) as H. unfold runs in H.
  destruct (Repack s) as [[rep|err|] s']; [..|done]; destruct H as (HI' & Hm & HP);
    (split; [done|]; split; [done|]; split; [apply Hm|]; split; [split; [by apply moves_holds|apply Hm]|]).
  - split; [eauto|]. intros _ _ id i Hid Hi Hlt. apply HP; eauto.
  - done.
Qed.

(** ** A run on a concrete store *)

(** Pack 0 has dead bytes at its end, and pack 7 was started. *)
Definition withDeadBytes (s : Store) : Store :=
  set_activePack None (set_packs (<[7%N := MkPack [] 0 true]> (packs (appendBytes 0 helloBytes s))) s).

Lemma withDeadBytes_ok s : packs s !! 7%N = None -> packsDir s = true -> store_ok s -> store_ok (withDeadBytes s).
Proof.
  intros H7 Hdir HI. assert (forall id pk, packs s !! id = Some pk -> exists pk', packs (withDeadBytes s) !! id = Some pk' /\
    pkData pk `prefix_of` pkData pk' /\ pkSynced pk = pkSynced pk' /\ pkLinked pk = pkLinked pk') as Hp.
  { intros id pk Hpk. cbn. rewrite lookup_insert_ne by congruence. destruct (decide (0%N = id)) as [<-|].
    - rewrite lookup_alter_eq, Hpk. eexists. split; [done|]. cbn. split; [by eexists|done].
    - rewrite lookup_alter_ne, Hpk by done. eauto. }
  apply (store_ok_quiet s); [done|..].
  - destruct (proj1 HI) as [P1 P2 P3 P4 P5]. split; try done. cbn. intros id pk [[<- <-]|[_ Hpk]]%lookup_insert_Some; [cbn; lia|].
    destruct (decide (0%N = id)) as [<-|]; [|rewrite lookup_alter_ne in Hpk by done; eauto].
    rewrite lookup_alter_eq in Hpk. apply fmap_Some in Hpk as (pk0 & Hpk & ->). cbn. rewrite length_app. specialize (P1 _ _ Hpk). lia.
  - split; [|done]. split; try done. intros id pk Hpk. destruct (Hp id pk Hpk) as (pk' & ? & ? & Hs & Hl). exists pk'.
    rewrite Hs, Hl. done.
Qed.

Definition exSplit : Store := withDeadBytes exStored.

Definition chunkPlace (s : Store) (h : string) : option (N * Z) :=
  match dbGet (db s) (chunkIndexKey h) with Some (VChunk e) => Some (cePackID e, ceOffset e) | _ => None end.

(** The live chunk moves from pack 0 to pack 7, and pack 0 goes. *)
Lemma repack_preserves_witness : chunkPlace exSplit (blake3 helloBytes) = Some (0%N, 0) /\
  chunkPlace (Repack exSplit).2 (blake3 helloBytes) = Some (7%N, 0) /\ packData 0 (Repack exSplit).2 = None /\
  store_ok (Repack exSplit).2.
Proof.
  split; [vm_compute; reflexivity|]. split; [vm_compute; reflexivity|]. split; [vm_compute; reflexivity|].
  pose proof (repack_preserves exSplit (withDeadBytes_ok exStored ltac:(vm_compute; reflexivity) ltac:(vm_compute; reflexivity) exStored_ok)) as H.
  destruct (Repack exSplit) as [r s']. apply H.
Defined.
