(* ===== verification/KeyLock.v ===== *)
(** * Locks on keys: [filestore/key_lock.go]

    The operations on one object hold its lock; the locks are made on demand and
    dropped with their last user.  A lock section of [locksMu] is one step, and so
    is taking or freeing a lock; goroutines run in any order. *)

From stdpp Require Import options.
From S2P Require Import Prelude.

Module Keys.

(** [filesystemKeyLock]; [klHeld] is the state of its mutex. *)
Record filesystemKeyLock := MkLock { klRefs : Z; klHeld : bool }.

(** The map of the store, and the locks that were ever made. *)
Record locks := MkLocks { keyLocks : gmap string nat; lockHeap : list filesystemKeyLock }.

Local Open Scope Z_scope.

Definition setLock (p : nat) (l : filesystemKeyLock) (s : locks) : locks := MkLocks (keyLocks s) (<[p := l]> (lockHeap s)).

(** The first section of [lockKey]: the lock of the key, with one more user. *)
Definition lockFor (key : string) (s : locks) : nat * locks :=
  match keyLocks s !! key with
  | Some p => (p, match lockHeap s !! p with Some l => setLock p (MkLock (klRefs l + 1) (klHeld l)) s | None => s end)
  | None => (length (lockHeap s), MkLocks (<[key := length (lockHeap s)]> (keyLocks s)) (lockHeap s ++ [MkLock 1 false]))
  end.

(** [lock.mu.Lock()]; [None] while another goroutine has it. *)
Definition take (p : nat) (s : locks) : option locks :=
  match lockHeap s !! p with
  | Some l => if klHeld l then None else Some (setLock p (MkLock (klRefs l) true) s)
  | None => None
  end.

(** [lock.mu.Unlock()]. *)
Definition free (p : nat) (s : locks) : locks :=
  match lockHeap s !! p with Some l => setLock p (MkLock (klRefs l) false) s | None => s end.

(** The last section of the function [lockKey] returns. *)
Definition drop (key : string) (p : nat) (s : locks) : locks :=
  match lockHeap s !! p with
  | Some l =>
      let s := setLock p (MkLock (klRefs l - 1) (klHeld l)) s in
      if klRefs l - 1 =? 0 then MkLocks (delete key (keyLocks s)) (lockHeap s) else s
  | None => s
  end.

(** ** Goroutines *)

Inductive routine :=
  | Outside
  | Waiting (key : string) (p : nat)
  | Inside (key : string) (p : nat)
  | Leaving (key : string) (p : nat).

#[export] Instance routine_eq_dec : EqDecision routine.
Proof. solve_decision. Defined.

Inductive step : locks * list routine -> locks * list routine -> Prop :=
  | step_lock s key l1 l2 : step (s, l1 ++ Outside :: l2) ((lockFor key s).2, l1 ++ Waiting key (lockFor key s).1 :: l2)
  | step_take s s' key p l1 l2 : take p s = Some s' -> step (s, l1 ++ Waiting key p :: l2) (s', l1 ++ Inside key p :: l2)
  | step_free s key p l1 l2 : step (s, l1 ++ Inside key p :: l2) (free p s, l1 ++ Leaving key p :: l2)
  | step_drop s key p l1 l2 : step (s, l1 ++ Leaving key p :: l2) (drop key p s, l1 ++ Outside :: l2).

Definition initial (n : nat) : locks * list routine := (MkLocks ∅ [], replicate n Outside).

(** ** Invariant *)

Definition uses (key : string) (p : nat) (r : routine) : bool :=
  match r with
  | Outside => false
  | Waiting k q | Inside k q | Leaving k q => bool_decide (k = key) && bool_decide (q = p)
  end.
Definition inside (key : string) (p : nat) (r : routine) : bool :=
  match r with Inside k q => bool_decide (k = key) && bool_decide (q = p) | _ => false end.

(** A lock has as many users as routines that know it, it is in the map just while
    it has any, and it is held just while one of them is inside. *)
Record consistent (s : locks) (l : list routine) : Prop := {
  co_map : forall key p, keyLocks s !! key = Some p ->
    exists lk, lockHeap s !! p = Some lk /\ klRefs lk = tally (uses key p) l /\ 0 < klRefs lk /\
      tally (inside key p) l = (if klHeld lk then 1 else 0);
  co_inj : forall key key' p, keyLocks s !! key = Some p -> keyLocks s !! key' = Some p -> key' = key;
  co_used : forall key p r, r ∈ l -> uses key p r = true -> keyLocks s !! key = Some p }.

Lemma elem_of_swap (l1 : list routine) r r' l2 x : x ∈ l1 ++ r' :: l2 -> x = r' \/ x ∈ l1 ++ r :: l2.
Proof. rewrite !elem_of_app, !elem_of_cons. naive_solver. Qed.

Lemma inside_uses key p r : inside key p r = true -> uses key p r = true.
Proof. by destruct r. Qed.

Lemma uses_of key p r k q : uses key p r = true -> uses k q r = true -> k = key /\ q = p.
Proof. destruct r; cbn; try done; rewrite !andb_true_iff, !bool_decide_eq_true; naive_solver. Qed.

(** A step on the lock of a key leaves every other lock alone. *)
Definition only (key : string) (p : nat) (r : routine) : Prop := forall k q, uses k q r = true -> k = key /\ q = p.

Lemma only_other key p r k q : only key p r -> k <> key -> uses k q r = false /\ inside k q r = false.
Proof.
  intros Ho Hk. assert (uses k q r = false) as Hu by (destruct (uses k q r) eqn:E; [apply Ho in E; naive_solver|done]).
  split; [done|]. destruct (inside k q r) eqn:E; [apply inside_uses in E; congruence|done].
Qed.

Lemma only_self key p r : uses key p r = true -> only key p r.
Proof. intros Hu k q. by apply uses_of. Qed.

Lemma only_outside key p : only key p Outside.
Proof. done. Qed.

Lemma consistent_set s l1 r r' l2 key p lk lk' :
  consistent s (l1 ++ r :: l2) -> keyLocks s !! key = Some p -> lockHeap s !! p = Some lk -> only key p r -> only key p r' ->
  klRefs lk' = klRefs lk - (if uses key p r then 1 else 0) + (if uses key p r' then 1 else 0) -> 0 < klRefs lk' ->
  (if klHeld lk' then 1 else 0) = (if klHeld lk then 1 else 0) - (if inside key p r then 1 else 0) + (if inside key p r' then 1 else 0) ->
  consistent (setLock p lk' s) (l1 ++ r' :: l2).
Proof.
  intros [Hmap Hinj Hused] Hk Hp Ho Ho' Hrefs Hpos Hheld. split; cbn.
  - intros k q Hq. destruct (Hmap k q Hq) as (l & Hl & Hr & Hn & Hi).
    destruct (decide (k = key)) as [->|Hne].
    + assert (q = p) as -> by congruence. assert (l = lk) as -> by congruence.
      exists lk'. rewrite list_lookup_insert_eq by (by eapply lookup_lt_Some). rewrite !(tally_swap _ l1 r r' l2). split_and!; [done|lia..].
    + assert (q <> p) by (intros ->; apply Hne; by eapply Hinj).
      exists l. rewrite list_lookup_insert_ne by done. destruct (only_other key p r k q Ho Hne) as [E1 E2], (only_other key p r' k q Ho' Hne) as [E3 E4].
      rewrite !(tally_swap _ l1 r r' l2), E1, E2, E3, E4. split_and!; [done|lia..].
  - done.
  - intros k q x Hx Hu. destruct (elem_of_swap l1 r r' l2 x Hx) as [->|Hin]; [|by eapply Hused]. apply Ho' in Hu as [-> ->]. done.
Qed.

Lemma initial_consistent n : consistent (initial n).1 (initial n).2.
Proof. split; cbn; try done. intros key p r [-> _]%elem_of_replicate. done. Qed.

(** A key without a lock is used by nobody. *)
Lemma fresh_consistent s l1 l2 key :
  consistent s (l1 ++ Outside :: l2) -> keyLocks s !! key = None ->
  consistent (lockFor key s).2 (l1 ++ Waiting key (lockFor key s).1 :: l2).
Proof.
  intros [Hmap Hinj Hused] Hk. unfold lockFor. rewrite Hk. cbn. set (p := length (lockHeap s)).
  assert (forall k q, keyLocks s !! k = Some q -> q <> p) as Hold.
  { intros k q Hq ->. destruct (Hmap k p Hq) as (lk & Hl%lookup_lt_Some & _). lia. }
  assert (forall f, (forall r, f r = true -> uses key p r = true) -> tally f (l1 ++ Outside :: l2) = 0) as Hzero.
  { intros f Hf. eapply tally_unused; [exact Hf|]. intros r Hr. destruct (uses key p r) eqn:E; [|done]. rewrite (Hused _ _ _ Hr E) in Hk. done. }
  split; cbn.
  - intros k q. rewrite lookup_insert_Some. intros [[<- <-]|[Hne Hq]].
    + exists (MkLock 1 false). rewrite lookup_app_r, Nat.sub_diag by done. rewrite !(tally_swap _ l1 Outside (Waiting key p)).
      rewrite (Hzero (uses key p)), (Hzero (inside key p)) by auto using inside_uses. cbn. rewrite !bool_decide_eq_true_2 by done. done.
    + destruct (Hmap k q Hq) as (lk & Hl & Hr & Hn & Hi). exists lk. rewrite lookup_app_l by (by eapply lookup_lt_Some).
      rewrite !(tally_swap _ l1 Outside (Waiting key p)). cbn. rewrite (bool_decide_eq_false_2 (key = k)) by done. cbn. split_and!; [done|lia..].
  - intros k k' q. rewrite !lookup_insert_Some. intros [[<- <-]|[? Hq]] [[<- E]|[? Hq']]; try done; [by apply Hold in Hq'|subst q; by apply Hold in Hq|by eapply Hinj].
  - intros k q x Hx Hu. destruct (elem_of_swap l1 Outside _ l2 x Hx) as [->|Hin].
    + cbn in Hu. apply andb_true_iff in Hu as [<-%bool_decide_eq_true <-%bool_decide_eq_true]. by rewrite lookup_insert_eq.
    + pose proof (Hused _ _ _ Hin Hu) as Hq. rewrite lookup_insert_ne by congruence. done.
Qed.

(** The last user takes the lock out of the map. *)
Lemma last_consistent s l1 l2 key p lk :
  consistent s (l1 ++ Leaving key p :: l2) -> keyLocks s !! key = Some p -> lockHeap s !! p = Some lk -> klRefs lk = 1 ->
  consistent (MkLocks (delete key (keyLocks s)) (<[p := MkLock 0 (klHeld lk)]> (lockHeap s))) (l1 ++ Outside :: l2).
Proof.
  intros [Hmap Hinj Hused] Hk Hp H1. split; cbn.
  - intros k q. rewrite lookup_delete_Some. intros [Hne Hq]. destruct (Hmap k q Hq) as (l & Hl & Hr & Hn & Hi).
    assert (q <> p) by (intros ->; apply Hne; by eapply Hinj). exists l. rewrite list_lookup_insert_ne by done.
    rewrite !(tally_swap _ l1 (Leaving key p) Outside). cbn. rewrite (bool_decide_eq_false_2 (key = k)) by done. cbn. split_and!; [done|lia..].
  - intros k k' q. rewrite !lookup_delete_Some. intros [_ Hq] [_ Hq']. by eapply Hinj.
  - intros k q x Hx Hu. destruct (elem_of_swap l1 (Leaving key p) _ l2 x Hx) as [->|Hin]; [done|].
    pose proof (Hused _ _ _ Hin Hu) as Hq. rewrite lookup_delete_ne; [done|]. intros <-.
    assert (q = p) as -> by congruence. destruct (Hmap key p Hk) as (l & Hl & Hr & _). assert (l = lk) as -> by congruence.
    pose proof (tally_pos _ _ _ Hx Hu) as Hc. rewrite (tally_swap _ l1 (Leaving key p) Outside), <- Hr in Hc. cbn in Hc. rewrite !bool_decide_eq_true_2 in Hc by done. cbn in Hc. lia.
Qed.

Lemma used_lock s l r key p : consistent s l -> r ∈ l -> uses key p r = true -> exists lk, keyLocks s !! key = Some p /\
  lockHeap s !! p = Some lk /\ klRefs lk = tally (uses key p) l /\ tally (inside key p) l = (if klHeld lk then 1 else 0).
Proof. intros [Hmap Hinj Hused] Hr Hu. pose proof (Hused _ _ _ Hr Hu) as Hk. destruct (Hmap _ _ Hk) as (lk & ? & ? & ? & ?). eauto 6. Qed.

Ltac this_key := cbn; rewrite ?bool_decide_eq_true_2 by done; cbn.

Lemma step_consistent x y : step x y -> consistent x.1 x.2 -> consistent y.1 y.2.
Proof.
  assert (forall (k : string) (q : nat), bool_decide (k = k) && bool_decide (q = q) = true) as Hself by (intros; by this_key).
  destruct 1 as [s key l1 l2|s s' key p l1 l2 Ht|s key p l1 l2|s key p l1 l2]; cbn [fst snd]; intros Hc.
  - destruct (keyLocks s !! key) as [p|] eqn:Hk; [|by apply fresh_consistent]. unfold lockFor. rewrite Hk. cbn.
    destruct (co_map _ _ Hc _ _ Hk) as (lk & Hl & Hr & Hn & Hi). rewrite Hl.
    eapply (consistent_set _ _ Outside); [done|exact Hk|exact Hl|apply only_outside|apply only_self, Hself|..]; this_key; lia.
  - destruct (used_lock _ _ (Waiting key p) key p Hc) as (lk & Hk & Hl & Hr & Hi); [set_solver|apply Hself|].
    unfold take in Ht. rewrite Hl in Ht. destruct (klHeld lk) eqn:Eh; [done|]. injection Ht as <-.
    eapply (consistent_set _ _ (Waiting key p)); [done|exact Hk|exact Hl|apply only_self, Hself|apply only_self, Hself|..]; this_key; rewrite ?Eh; try done; [lia|].
    rewrite Hr. eapply tally_pos; [|apply (Hself key p : uses key p (Waiting key p) = true)]. set_solver.
  - destruct (used_lock _ _ (Inside key p) key p Hc) as (lk & Hk & Hl & Hr & Hi); [set_solver|apply Hself|].
    assert (0 < tally (inside key p) (l1 ++ Inside key p :: l2)) by (eapply (tally_pos _ (Inside key p)); [set_solver|apply Hself]).
    unfold free. rewrite Hl. destruct (klHeld lk) eqn:Eh; [|lia].
    eapply (consistent_set _ _ (Inside key p)); [done|exact Hk|exact Hl|apply only_self, Hself|apply only_self, Hself|..]; this_key; rewrite ?Eh; try done; [lia|].
    rewrite Hr. eapply (tally_pos _ (Inside key p)); [set_solver|apply Hself].
  - destruct (used_lock _ _ (Leaving key p) key p Hc) as (lk & Hk & Hl & Hr & Hi); [set_solver|apply Hself|].
    assert (0 < tally (uses key p) (l1 ++ Leaving key p :: l2)) by (eapply (tally_pos _ (Leaving key p)); [set_solver|apply Hself]).
    unfold drop. rewrite Hl. destruct (Z.eqb_spec (klRefs lk - 1) 0) as [E|E].
    + rewrite E. cbn. eapply last_consistent; eauto. lia.
    + eapply (consistent_set _ _ (Leaving key p)); [done|exact Hk|exact Hl|apply only_self, Hself|apply only_outside|..]; this_key; lia.
Qed.

Lemma reach_consistent n x : rtc step (initial n) x -> consistent x.1 x.2.
Proof.
  intros Hr. eapply (rtc_ind_r (fun y => consistent y.1 y.2) (initial n)); [apply initial_consistent| |exact Hr].
  intros y z _ Hs Hc. by eapply step_consistent.
Qed.

(** C10: Whatever order any number of goroutines lock and unlock keys in: two of them
    are never between [lockKey] and its unlock for one key; a waiting goroutine gets
    its lock at once unless another is inside for the same key, so nobody waits
    for a lock that was dropped; and the map holds a lock for a key just while some
    goroutine has asked for it, so that it is empty again when all are done. *)
Theorem keys_are_exclusive n s l : rtc step (initial n) (s, l) ->
  (forall key p q i j, l !! i = Some (Inside key p) -> l !! j = Some (Inside key q) -> i = j) /\
  (forall key p, Waiting key p ∈ l -> is_Some (take p s) \/ Inside key p ∈ l) /\
  (forall key, is_Some (keyLocks s !! key) <-> exists r p, r ∈ l /\ uses key p r = true) /\
  ((forall r, r ∈ l -> r = Outside) -> keyLocks s = ∅).
Proof.
  intros Hc%reach_consistent. cbn in Hc.
  assert (forall key, is_Some (keyLocks s !! key) <-> exists r p, r ∈ l /\ uses key p r = true) as Huse.
  { intros key. split; [|intros (r & p & Hr & Hu); eexists; by eapply co_used].
    intros [p Hp]. destruct (co_map _ _ Hc _ _ Hp) as (lk & _ & Hr & Hn & _). rewrite Hr in Hn. apply tally_some in Hn. naive_solver. }
  split_and!; [| |done|].
  - intros key p q i j Hi Hj. assert (forall p, uses key p (Inside key p) = true) as Hself by (intros; by this_key).
    destruct (used_lock _ _ _ key p Hc (list_elem_of_lookup_2 _ _ _ Hi) (Hself p)) as (lk & Hk & _ & _ & Hcnt).
    destruct (used_lock _ _ _ key q Hc (list_elem_of_lookup_2 _ _ _ Hj) (Hself q)) as (_ & Hk' & _). assert (q = p) as -> by congruence.
    eapply (tally_unique (inside key p)); [|exact Hi|exact Hj|exact (Hself p)..]. destruct (klHeld lk); lia.
  - intros key p Hw. destruct (used_lock _ _ _ key p Hc Hw) as (lk & Hk & Hl & _ & Hcnt); [by this_key|]. unfold take. rewrite Hl.
    destruct (klHeld lk); [right|left; eauto]. destruct (tally_some (inside key p) l) as (r & Hin & Hi); [lia|].
    destruct r; try done. cbn in Hi. apply andb_true_iff in Hi as [->%bool_decide_eq_true ->%bool_decide_eq_true]. done.
  - intros Hout. apply map_empty. intros key. destruct (keyLocks s !! key) eqn:E; [|done].
    destruct (proj1 (Huse key)) as (r & p & Hr & Hu); [by eexists|]. apply Hout in Hr as ->. done.
Qed.

(** Two goroutines ask for one key: the second waits while the first is inside. *)
Definition contended : locks := MkLocks {["k" := 0%nat]} [MkLock 2 true].

Lemma contended_run : rtc step (initial 2) (contended, [Inside "k" 0; Waiting "k" 0]).
Proof.
  eapply rtc_l; [apply (step_lock _ "k" [] [Outside])|]. eapply rtc_l; [eapply (step_take _ _ "k" _ [] [Outside]); reflexivity|].
  eapply rtc_l; [apply (step_lock _ "k" [Inside "k" 0] [])|]. apply rtc_refl.
Qed.

Lemma keys_are_exclusive_witness : take 0 contended = None /\
  forall key p q i j, [Inside "k" 0; Waiting "k" 0] !! i = Some (Inside key p) ->
    [Inside "k" 0; Waiting "k" 0] !! j = Some (Inside key q) -> i = j.
Proof. split; [reflexivity|]. exact (proj1 (keys_are_exclusive 2 contended [Inside "k" 0; Waiting "k" 0] contended_run)). Defined.
End Keys.
