(* ===== verification/PackCache.v ===== *)
(** * Handles of pack files: [filestore/packcache.go]

    The cache of open pack files, shared by the goroutines that read chunks.  A
    section under [cache.mu] is one step, and so are opening a file and closing one
    outside of the lock; goroutines run in any order.  Descriptors are numbered in
    the order in which they are opened, and count how often they were closed. *)

From stdpp Require Import options.
From S2P Require Import Prelude.

Module Handles.
Local Open Scope Z_scope.

(** ** Data *)

Definition defaultPackCacheSize : Z := 128.

(** [packCacheEntry]; its [elem] is the place of its pointer in [lru]. *)
Record packCacheEntry := MkEntry { pcId : Z; pcFile : nat; pcRefs : Z; pcEvicted : bool }.

Record packCache := MkCache { pcMax : Z; pcEntries : gmap Z nat; pcLru : list nat }.

(** An open file: its pack, and how often it was closed. *)
Record descriptor := MkFd { fdPack : Z; fdCloses : nat }.

(** The cache, the entries ever made and the files ever opened. *)
Record world := MkWorld { theCache : packCache; entryHeap : list packCacheEntry; files : list descriptor }.

Definition newPackCache (max : Z) : packCache := MkCache (if max <=? 0 then defaultPackCacheSize else max) ∅ [].

(** ** Operations *)

Definition setEntry (p : nat) (e : packCacheEntry) (w : world) : world := MkWorld (theCache w) (<[p := e]> (entryHeap w)) (files w).
Definition setCache (c : packCache) (w : world) : world := MkWorld c (entryHeap w) (files w).

(** [file.Close()]. *)
Definition closeFile (f : nat) (w : world) : world :=
  MkWorld (theCache w) (entryHeap w) (alter (fun d => MkFd (fdPack d) (S (fdCloses d))) f (files w)).

(** [lru.Remove] and [lru.MoveToFront]. *)
Definition lruRemove (p : nat) (c : packCache) : packCache := MkCache (pcMax c) (pcEntries c) (filter (fun q => q <> p) (pcLru c)).
Definition lruMoveToFront (p : nat) (c : packCache) : packCache :=
  if bool_decide (p ∈ pcLru c) then MkCache (pcMax c) (pcEntries c) (p :: filter (fun q => q <> p) (pcLru c)) else c.

(** A section of [acquire] that finds the pack: its entry has one more reader. *)
Definition acquireHit (id : Z) (w : world) : option (nat * nat * world) :=
  p ← pcEntries (theCache w) !! id;
  e ← entryHeap w !! p;
  Some (p, pcFile e, setCache (lruMoveToFront p (theCache w)) (setEntry p (MkEntry (pcId e) (pcFile e) (pcRefs e + 1) (pcEvicted e)) w)).

(** The steps [evictLocked], [invalidate] and [closeAll] share: the entry leaves
    the list and the map, and is closed when nobody reads it. *)
Definition dropEntry (id : Z) (p : nat) (w : world) : world :=
  match entryHeap w !! p with
  | Some e =>
      let c := lruRemove p (theCache w) in
      let w := setEntry p (MkEntry (pcId e) (pcFile e) (pcRefs e) true) (setCache (MkCache (pcMax c) (delete id (pcEntries c)) (pcLru c)) w) in
      if pcRefs e =? 0 then closeFile (pcFile e) w else w
  | None => w
  end.

(** [evictLocked]; every turn takes one entry off the list. *)
Fixpoint evictLoop (fuel : nat) (w : world) : world :=
  match fuel with
  | O => w
  | S fuel =>
      if pcMax (theCache w) <? Z.of_nat (size (pcEntries (theCache w))) then
        match last (pcLru (theCache w)) with
        | Some p => match entryHeap w !! p with Some e => evictLoop fuel (dropEntry (pcId e) p w) | None => w end
        | None => w
        end
      else w
  end.
Definition evictLocked (w : world) : world := evictLoop (S (length (pcLru (theCache w)))) w.

(** The last section of [acquire], for a pack that is not in the cache. *)
Definition insertEntry (id : Z) (f : nat) (w : world) : nat * world :=
  let p := length (entryHeap w) in let c := theCache w in
  (p, evictLocked (MkWorld (MkCache (pcMax c) (<[id := p]> (pcEntries c)) (p :: pcLru c)) (entryHeap w ++ [MkEntry id f 1 false]) (files w))).

(** [releaser]. *)
Definition release (p : nat) (w : world) : world :=
  match entryHeap w !! p with
  | Some e =>
      let w := setEntry p (MkEntry (pcId e) (pcFile e) (pcRefs e - 1) (pcEvicted e)) w in
      if (pcRefs e - 1 =? 0) && pcEvicted e then closeFile (pcFile e) w else w
  | None => w
  end.

Definition invalidate (id : Z) (w : world) : world :=
  match pcEntries (theCache w) !! id with Some p => dropEntry id p w | None => w end.

(** The loop of [closeAll], for the order in which the map gives its keys. *)
Definition closeAll (order : list Z) (w : world) : world := fold_left (fun w id => invalidate id w) order w.

(** [openPack] of a file that opens. *)
Definition openFile (id : Z) (w : world) : nat * world :=
  (length (files w), MkWorld (theCache w) (entryHeap w) (files w ++ [MkFd id 0%nat])).

(** ** Readers *)

(** A goroutine outside of [acquire]; in it, between its sections; with the file it
    opened for nothing; and with a handle it has not released. *)
Inductive reader :=
  | Idle
  | Opening (id : Z)
  | Opened (id : Z) (f : nat)
  | Spare (id : Z) (p g f : nat)
  | Reading (id : Z) (p g : nat).

Inductive step : world * list reader -> world * list reader -> Prop :=
  | step_hit w w' l i id p g : l !! i = Some Idle -> acquireHit id w = Some (p, g, w') -> step (w, l) (w', <[i := Reading id p g]> l)
  | step_miss w l i id : l !! i = Some Idle -> acquireHit id w = None -> step (w, l) (w, <[i := Opening id]> l)
  | step_open w l i id : l !! i = Some (Opening id) -> step (w, l) ((openFile id w).2, <[i := Opened id (openFile id w).1]> l)
  | step_open_error w l i id : l !! i = Some (Opening id) -> step (w, l) (w, <[i := Idle]> l)
  | step_raced w w' l i id p g f : l !! i = Some (Opened id f) -> acquireHit id w = Some (p, g, w') -> step (w, l) (w', <[i := Spare id p g f]> l)
  | step_close_spare w l i id p g f : l !! i = Some (Spare id p g f) -> step (w, l) (closeFile f w, <[i := Reading id p g]> l)
  | step_insert w l i id f : l !! i = Some (Opened id f) -> acquireHit id w = None ->
      step (w, l) ((insertEntry id f w).2, <[i := Reading id (insertEntry id f w).1 f]> l)
  | step_release w l i id p g : l !! i = Some (Reading id p g) -> step (w, l) (release p w, <[i := Idle]> l)
  | step_invalidate w l id : step (w, l) (invalidate id w, l)
  | step_close_all w l order : order ≡ₚ (map_to_list (pcEntries (theCache w))).*1 -> step (w, l) (closeAll order w, l).

Definition start (max : Z) (n : nat) : world * list reader := (MkWorld (newPackCache max) [] [], replicate n Idle).

(** ** Invariant *)

Local Notation "# b" := (if b then 1 else 0) (at level 9, b at level 9, format "# b").

(** Whether the reader counts in the references of entry [p], and whether it alone
    has descriptor [f]. *)
Definition reads (p : nat) (r : reader) : bool :=
  match r with Spare _ q _ _ | Reading _ q _ => (q =? p)%nat | _ => false end.
Definition holds (f : nat) (r : reader) : bool :=
  match r with Opened _ g | Spare _ _ _ g => (g =? f)%nat | _ => false end.

(** An entry has its file until it is evicted and nobody reads it. *)
Definition live (e : packCacheEntry) : bool := negb (pcEvicted e && (pcRefs e =? 0)).
Definition owns (f : nat) (e : packCacheEntry) : bool := live e && (pcFile e =? f)%nat.

(** How often [f] was closed; a file that was never opened counts as closed. *)
Definition closed (f : nat) (w : world) : Z := match files w !! f with Some d => Z.of_nat (fdCloses d) | None => 1 end.
Definition packOf (f : nat) (w : world) : option Z := fdPack <$> files w !! f.

Definition entryIs (id : Z) (p g : nat) (w : world) : Prop := exists e, entryHeap w !! p = Some e /\ pcId e = id /\ pcFile e = g.
Definition knows (w : world) (r : reader) : Prop :=
  match r with
  | Idle | Opening _ => True
  | Opened id f => packOf f w = Some id
  | Spare id p g _ | Reading id p g => entryIs id p g w
  end.

(** The map and the list hold the entries that are not evicted, an entry counts its
    readers, and a descriptor is closed once, or a reader has it, or one entry. *)
Record inv (w : world) (l : list reader) : Prop := {
  i_max : 0 < pcMax (theCache w);
  i_entry : forall id p, pcEntries (theCache w) !! id = Some p <-> exists e, entryHeap w !! p = Some e /\ pcId e = id /\ pcEvicted e = false;
  i_nodup : NoDup (pcLru (theCache w));
  i_lru : forall p, p ∈ pcLru (theCache w) <-> exists e, entryHeap w !! p = Some e /\ pcEvicted e = false;
  i_len : length (pcLru (theCache w)) = size (pcEntries (theCache w));
  i_refs : forall p e, entryHeap w !! p = Some e -> pcRefs e = tally (reads p) l;
  i_files : forall f, closed f w + tally (holds f) l + tally (owns f) (entryHeap w) = 1;
  i_pack : forall p e, entryHeap w !! p = Some e -> packOf (pcFile e) w = Some (pcId e);
  i_knows : forall r, r ∈ l -> knows w r }.

(** What a reader knows stays true: entries keep their pack and file. *)
Definition keeps (w w' : world) : Prop :=
  (forall f id, packOf f w = Some id -> packOf f w' = Some id) /\
  (forall id p g, entryIs id p g w -> entryIs id p g w').

Lemma keeps_knows w w' r : keeps w w' -> knows w r -> knows w' r.
Proof. intros [Hf He]. destruct r; cbn; auto. Qed.

Lemma elem_of_insert_swap (l : list reader) i r' x : x ∈ <[i := r']> l -> x = r' \/ x ∈ l.
Proof.
  intros (j & Hj)%list_elem_of_lookup. destruct (decide (j = i)) as [->|Hne].
  - apply list_lookup_insert_Some in Hj as [(_ & <- & _)|(? & _)]; [by left|done].
  - rewrite list_lookup_insert_ne in Hj by done. right. by eapply list_elem_of_lookup_2.
Qed.

(** A reader goes on without the entries. *)
Lemma inv_reader w w' l i r r' :
  inv w l -> l !! i = Some r -> theCache w' = theCache w -> entryHeap w' = entryHeap w -> (forall p, reads p r' = reads p r) ->
  (forall f, closed f w' + #(holds f r') = closed f w + #(holds f r)) -> (forall f id, packOf f w = Some id -> packOf f w' = Some id) ->
  knows w' r' -> inv w' (<[i := r']> l).
Proof.
  intros Hi Hl Hc Hh Hr Hf Hp Hk. destruct Hi as [i1 i2 i3 i4 i5 i6 i7 i8 i9].
  assert (keeps w w') as Hkeep by (split; [done|unfold entryIs; rewrite Hh; naive_solver]).
  split; rewrite ?Hc, ?Hh; try done.
  - intros p e He. rewrite (tally_insert _ _ _ _ _ Hl), Hr, (i6 p e He). lia.
  - intros f. rewrite (tally_insert _ _ _ _ _ Hl). specialize (Hf f). specialize (i7 f). lia.
  - intros p e He. by apply Hp, (i8 p).
  - intros x [->|Hx]%elem_of_insert_swap; [done|]. eapply keeps_knows; eauto.
Qed.

Lemma alive w l p e : inv w l -> entryHeap w !! p = Some e -> tally (reads p) l <> 0 -> live e = true.
Proof. intros Hi He Hn. unfold live. rewrite (i_refs _ _ Hi _ _ He). destruct (Z.eqb_spec (tally (reads p) l) 0); [done|]. by rewrite andb_false_r. Qed.

(** Entry [p] changed only in its references. *)
Lemma insert_old (h : list packCacheEntry) (p : nat) e e' : h !! p = Some e -> pcId e' = pcId e -> pcFile e' = pcFile e -> pcEvicted e' = pcEvicted e ->
  forall q x, <[p := e']> h !! q = Some x -> exists y, h !! q = Some y /\ pcId x = pcId y /\
    pcFile x = pcFile y /\ pcEvicted x = pcEvicted y /\ pcRefs x - pcRefs y = (if decide (q = p) then pcRefs e' - pcRefs e else 0).
Proof.
  intros He Hid Hfile Hev q x. rewrite list_lookup_insert_Some.
  intros [(<- & -> & _)|(Hne & Hx)]; [exists e|exists x]; rewrite ?decide_True, ?decide_False by done; split_and!; try done; lia.
Qed.
Lemma insert_new (h : list packCacheEntry) (p : nat) e e' : h !! p = Some e -> pcId e' = pcId e -> pcFile e' = pcFile e -> pcEvicted e' = pcEvicted e ->
  forall q y, h !! q = Some y -> exists x, <[p := e']> h !! q = Some x /\ pcId x = pcId y /\ pcFile x = pcFile y /\ pcEvicted x = pcEvicted y.
Proof.
  intros He Hid Hfile Hev q y Hy. destruct (decide (q = p)) as [->|Hne].
  - exists e'. rewrite list_lookup_insert_eq by (by eapply lookup_lt_Some). assert (y = e) as -> by congruence. done.
  - exists y. rewrite list_lookup_insert_ne by done. done.
Qed.

(** A reader takes or leaves entry [p]. *)
Lemma inv_move w w' l i r r' p e e' :
  inv w l -> l !! i = Some r -> entryHeap w !! p = Some e -> entryHeap w' = <[p := e']> (entryHeap w) ->
  pcId e' = pcId e -> pcFile e' = pcFile e -> pcEvicted e' = pcEvicted e ->
  pcMax (theCache w') = pcMax (theCache w) -> pcEntries (theCache w') = pcEntries (theCache w) -> pcLru (theCache w') ≡ₚ pcLru (theCache w) ->
  (forall q, #(reads q r') - #(reads q r) = if decide (q = p) then pcRefs e' - pcRefs e else 0) ->
  (forall f, closed f w' + #(holds f r') + #(owns f e') = closed f w + #(holds f r) + #(owns f e)) ->
  (forall f id, packOf f w = Some id -> packOf f w' = Some id) -> (keeps w w' -> knows w' r') -> inv w' (<[i := r']> l).
Proof.
  intros Hi Hl He Hh Hid Hfile Hev Hmax Hent Hlru Hr Hf Hp Hk. destruct Hi as [i1 i2 i3 i4 i5 i6 i7 i8 i9].
  pose proof (lookup_lt_Some _ _ _ He) as Hlt.
  pose proof (insert_old _ _ _ e' He Hid Hfile Hev) as Hold. pose proof (insert_new _ _ _ e' He Hid Hfile Hev) as Hnew.
  assert (keeps w w') as Hkeep.
  { split; [done|]. unfold entryIs. rewrite Hh. intros id q g (y & Hy & <- & <-). destruct (Hnew q y Hy) as (x & Hx & <- & <- & _). eauto. }
  split; rewrite ?Hmax, ?Hent, ?Hlru, ?Hh; try done.
  - intros id q. rewrite i2. split; intros (x & Hx & <- & Hx').
    + destruct (Hnew q x Hx) as (y & Hy & E1 & E2 & E3). exists y. rewrite E1, E3. done.
    + destruct (Hold q x Hx) as (y & Hy & E1 & E2 & E3 & _). exists y. rewrite <- E3. done.
  - intros q. rewrite Hlru, i4. split; intros (x & Hx & Hx').
    + destruct (Hnew q x Hx) as (y & Hy & E1 & E2 & E3). exists y. rewrite E3. done.
    + destruct (Hold q x Hx) as (y & Hy & E1 & E2 & E3 & _). exists y. rewrite <- E3. done.
  - intros q x Hx. destruct (Hold q x Hx) as (y & Hy & _ & _ & _ & E). rewrite (tally_insert _ _ _ _ _ Hl), <- (i6 q y Hy).
    specialize (Hr q). lia.
  - intros f. rewrite (tally_insert _ _ _ _ _ Hl), (tally_insert _ _ _ _ _ He). specialize (Hf f). specialize (i7 f). lia.
  - intros q x Hx. destruct (Hold q x Hx) as (y & Hy & -> & -> & _). by apply Hp, (i8 q).
  - intros x [->|Hx]%elem_of_insert_swap; [by apply Hk|]. eapply keeps_knows; eauto.
Qed.

Lemma closed_closeFile f g w id : packOf g w = Some id -> closed f (closeFile g w) = closed f w + #(g =? f)%nat.
Proof.
  unfold packOf, closed, closeFile. cbn. intros Hg. destruct (Nat.eqb_spec g f) as [<-|Hne].
  - rewrite list_lookup_alter_eq. destruct (files w !! g); [cbn; lia|done].
  - rewrite list_lookup_alter_ne by done. lia.
Qed.
Lemma packOf_closeFile f g w : packOf f (closeFile g w) = packOf f w.
Proof. unfold packOf, closeFile. cbn. rewrite list_lookup_alter. case_decide; [subst|done]. by destruct (files w !! f). Qed.

Lemma move_front_perm p c : NoDup (pcLru c) -> pcLru (lruMoveToFront p c) ≡ₚ pcLru c.
Proof.
  intros Hn. unfold lruMoveToFront. case_bool_decide as Hp; [|done]. cbn. apply NoDup_Permutation; [|done|].
  - constructor; [rewrite list_elem_of_filter; naive_solver|by apply NoDup_filter].
  - intros q. rewrite elem_of_cons, list_elem_of_filter. destruct (decide (q = p)); naive_solver.
Qed.
Lemma move_front_same p c : pcMax (lruMoveToFront p c) = pcMax c /\ pcEntries (lruMoveToFront p c) = pcEntries c.
Proof. unfold lruMoveToFront. by destruct (bool_decide _). Qed.

Lemma hit_entry id w p g w' : acquireHit id w = Some (p, g, w') -> exists e, pcEntries (theCache w) !! id = Some p /\
  entryHeap w !! p = Some e /\ g = pcFile e /\
  w' = setCache (lruMoveToFront p (theCache w)) (setEntry p (MkEntry (pcId e) (pcFile e) (pcRefs e + 1) (pcEvicted e)) w).
Proof.
  unfold acquireHit. destruct (pcEntries (theCache w) !! id) as [q|]; [cbn|done].
  destruct (entryHeap w !! q) as [e|] eqn:E; cbn; [|done]. intros [= <- <- <-]. eauto.
Qed.

Lemma miss_entry id w l : inv w l -> acquireHit id w = None -> pcEntries (theCache w) !! id = None.
Proof.
  intros Hi. unfold acquireHit. destruct (pcEntries (theCache w) !! id) as [p|] eqn:E; cbn; [|done].
  apply (i_entry _ _ Hi) in E as (e & -> & _). done.
Qed.

(** A hit, from a reader that has no entry yet. *)
Lemma inv_hit w w' l i r r' id p g :
  inv w l -> l !! i = Some r -> acquireHit id w = Some (p, g, w') -> (forall q, reads q r = false) -> (forall q, reads q r' = (p =? q)%nat) ->
  (forall f, holds f r' = holds f r) -> (knows w r -> entryIs id p g w' -> knows w' r') -> inv w' (<[i := r']> l).
Proof.
  intros Hi Hl Hh Hr Hr' Hf Hk. destruct (hit_entry _ _ _ _ _ Hh) as (e & Hent & He & -> & ->).
  pose proof (proj1 (i_entry _ _ Hi _ _) Hent) as (e2 & He2 & Hid & Hev). assert (e2 = e) as -> by congruence.
  destruct (move_front_same p (theCache w)) as [E1 E2].
  eapply (inv_move _ _ _ _ r r' p e (MkEntry (pcId e) (pcFile e) (pcRefs e + 1) (pcEvicted e))); try done.
  - apply move_front_perm, (i_nodup _ _ Hi).
  - intros q. cbn. rewrite Hr, Hr'. destruct (Nat.eqb_spec p q), (decide (q = p)); congruence || lia.
  - intros f. rewrite Hf. unfold owns, live. cbn. rewrite Hev. cbn. unfold closed. cbn. lia.
  - intros _. apply Hk; [|exists (MkEntry (pcId e) (pcFile e) (pcRefs e + 1) (pcEvicted e)); cbn; by rewrite list_lookup_insert_eq by (by eapply lookup_lt_Some)].
    apply (i_knows _ _ Hi). by eapply list_elem_of_lookup_2.
Qed.

Lemma inv_release w l i id p g : inv w l -> l !! i = Some (Reading id p g) -> inv (release p w) (<[i := Idle]> l).
Proof.
  intros Hi Hl. pose proof (list_elem_of_lookup_2 _ _ _ Hl) as Hin. destruct (i_knows _ _ Hi _ Hin) as (e & He & Hid & Hg).
  assert (0 < tally (reads p) l) as Hpos by (eapply (tally_lookup _ _ _ _ Hl); cbn; by rewrite Nat.eqb_refl).
  pose proof (i_refs _ _ Hi _ _ He) as Hrefs. pose proof (i_pack _ _ Hi _ _ He) as Hpack.
  unfold release. rewrite He. set (e' := MkEntry (pcId e) (pcFile e) (pcRefs e - 1) (pcEvicted e)).
  assert (forall f, closed f (if (pcRefs e - 1 =? 0) && pcEvicted e then closeFile (pcFile e) (setEntry p e' w) else setEntry p e' w) =
    closed f w + #(owns f e) - #(owns f e')) as Hclosed.
  { intros f. unfold owns, live. cbn. destruct (Z.eqb_spec (pcRefs e) 0); [lia|]. rewrite andb_false_r. cbn.
    destruct (pcRefs e - 1 =? 0), (pcEvicted e); cbn; rewrite ?(closed_closeFile _ _ _ (pcId e)) by done; unfold closed; cbn; lia. }
  eapply (inv_move _ _ _ _ (Reading id p g) Idle p e e'); try done; try (destruct ((pcRefs e - 1 =? 0) && pcEvicted e); done).
  - intros q. cbn. destruct (Nat.eqb_spec p q), (decide (q = p)); congruence || lia.
  - intros f. rewrite Hclosed. cbn. lia.
  - intros f x Hx. destruct ((pcRefs e - 1 =? 0) && pcEvicted e); rewrite ?packOf_closeFile; done.
Qed.

Lemma remove_length p c : NoDup (pcLru c) -> p ∈ pcLru c -> length (pcLru c) = S (length (pcLru (lruRemove p c))).
Proof. intros Hn Hp. pose proof (move_front_perm p c Hn) as Hm. unfold lruMoveToFront in Hm. rewrite bool_decide_eq_true_2 in Hm by done. by rewrite <- Hm. Qed.

(** What [dropEntry] does to an entry of the cache. *)
Lemma drop_parts w id p e : entryHeap w !! p = Some e ->
  let e' := MkEntry (pcId e) (pcFile e) (pcRefs e) true in
  entryHeap (dropEntry id p w) = <[p := e']> (entryHeap w) /\
  theCache (dropEntry id p w) = MkCache (pcMax (theCache w)) (delete id (pcEntries (theCache w))) (filter (fun q => q <> p) (pcLru (theCache w))) /\
  (forall f, packOf f (dropEntry id p w) = packOf f w) /\
  (packOf (pcFile e) w = Some (pcId e) -> pcEvicted e = false ->
     forall f, closed f (dropEntry id p w) + #(owns f e') = closed f w + #(owns f e)).
Proof.
  intros He. unfold dropEntry. rewrite He. split_and!; [by destruct (pcRefs e =? 0)..| |].
  - intros f. destruct (pcRefs e =? 0); rewrite ?packOf_closeFile; done.
  - intros Hp Hev f. unfold owns, live. cbn. rewrite Hev. cbn.
    destruct (pcRefs e =? 0); cbn; rewrite ?(closed_closeFile _ _ _ (pcId e)) by done; unfold closed; cbn; lia.
Qed.

Lemma inv_drop w l id p : inv w l -> pcEntries (theCache w) !! id = Some p -> inv (dropEntry id p w) l.
Proof.
  intros Hi Hent. destruct (proj1 (i_entry _ _ Hi _ _) Hent) as (e & He & Hid & Hev).
  destruct (drop_parts w id p e He) as (Hh & Hc & Hp & Hf). specialize (Hf (i_pack _ _ Hi _ _ He) Hev).
  pose proof (lookup_lt_Some _ _ _ He) as Hlt. assert (p ∈ pcLru (theCache w)) as Hin by (apply (i_lru _ _ Hi); eauto).
  set (e' := MkEntry (pcId e) (pcFile e) (pcRefs e) true) in *.
  assert (keeps w (dropEntry id p w)) as Hkeep.
  { split; [intros f x; by rewrite Hp|]. unfold entryIs. rewrite Hh. intros k q g (x & Hx & <- & <-).
    destruct (decide (q = p)) as [->|Hne]; [exists e'; rewrite list_lookup_insert_eq by done; simplify_eq; done|exists x; by rewrite list_lookup_insert_ne]. }
  pose proof Hi as [i1 i2 i3 i4 i5 i6 i7 i8 i9]. split; rewrite ?Hc, ?Hh; cbn; try done.
  - intros k q. rewrite lookup_delete_Some, i2. split.
    + intros (Hne & x & Hx & <- & Hx'). exists x. rewrite list_lookup_insert_ne; [done|]. intros <-. simplify_eq.
    + intros (x & Hx & <- & Hx'). apply list_lookup_insert_Some in Hx as [(<- & <- & _)|(Hne & Hx)]; [done|].
      split; [|eauto]. intros E. assert (pcEntries (theCache w) !! pcId x = Some q) by (apply i2; eauto). congruence.
  - by apply NoDup_filter.
  - intros q. rewrite list_elem_of_filter, i4. split.
    + intros (Hne & x & Hx & Hx'). exists x. by rewrite list_lookup_insert_ne by done.
    + intros (x & Hx & Hx'). apply list_lookup_insert_Some in Hx as [(<- & <- & _)|(Hne & Hx)]; [done|]. eauto.
  - rewrite map_size_delete_Some by (by eexists). pose proof (remove_length p (theCache w) i3 Hin) as Hlen. cbn in Hlen. lia.
  - intros q x Hx. apply list_lookup_insert_Some in Hx as [(<- & <- & _)|(Hne & Hx)]; [by apply (i6 p e)|by apply i6].
  - intros f. rewrite (tally_insert _ _ _ _ _ He). specialize (Hf f). specialize (i7 f). lia.
  - intros q x Hx. rewrite Hp. apply list_lookup_insert_Some in Hx as [(<- & <- & _)|(Hne & Hx)]; [by apply (i8 p e)|by apply (i8 q)].
  - intros r Hr. eapply keeps_knows; eauto.
Qed.

Lemma drop_size w l id p : inv w l -> pcEntries (theCache w) !! id = Some p ->
  size (pcEntries (theCache w)) = S (size (pcEntries (theCache (dropEntry id p w)))) /\ pcMax (theCache (dropEntry id p w)) = pcMax (theCache w).
Proof.
  intros Hi Hent. destruct (proj1 (i_entry _ _ Hi _ _) Hent) as (e & He & _).
  destruct (drop_parts w id p e He) as (_ & -> & _). cbn. split; [|done].
  pose proof (map_size_non_empty_iff (pcEntries (theCache w))). rewrite map_size_delete_Some by (by eexists).
  assert (size (pcEntries (theCache w)) <> 0%nat); [|lia]. intros E%map_size_empty_iff. rewrite E in Hent. done.
Qed.

(** The loop has enough turns, and ends within the bound. *)
Lemma inv_evict fuel w l : inv w l -> Z.of_nat (size (pcEntries (theCache w))) <= pcMax (theCache w) + Z.of_nat fuel ->
  inv (evictLoop fuel w) l /\ Z.of_nat (size (pcEntries (theCache (evictLoop fuel w)))) <= pcMax (theCache (evictLoop fuel w)) /\
  pcMax (theCache (evictLoop fuel w)) = pcMax (theCache w).
Proof.
  revert w. induction fuel as [|fuel IH]; intros w Hi Hb; cbn [evictLoop]; [split_and!; [done|lia|done]|].
  destruct (Z.ltb_spec (pcMax (theCache w)) (Z.of_nat (size (pcEntries (theCache w))))) as [Hlt|Hle]; [|done].
  destruct (last (pcLru (theCache w))) as [p|] eqn:El.
  - apply last_Some_elem_of, (i_lru _ _ Hi) in El as (e & He & Hev). rewrite He.
    assert (pcEntries (theCache w) !! pcId e = Some p) as Hent by (apply (i_entry _ _ Hi); eauto).
    destruct (drop_size w l (pcId e) p Hi Hent) as [Hs Hm]. rewrite <- Hm. apply IH; [by apply inv_drop|]. lia.
  - apply last_None in El. pose proof (i_len _ _ Hi) as Hlen. rewrite El in Hlen. cbn in Hlen. pose proof (i_max _ _ Hi). lia.
Qed.

(** The world after the new entry is pushed, before the eviction. *)
Definition pushed (id : Z) (f : nat) (w : world) : world :=
  let p := length (entryHeap w) in let c := theCache w in
  MkWorld (MkCache (pcMax c) (<[id := p]> (pcEntries c)) (p :: pcLru c)) (entryHeap w ++ [MkEntry id f 1 false]) (files w).

Lemma heap_new_entry (h : list packCacheEntry) e q x : (h ++ [e]) !! q = Some x <-> h !! q = Some x \/ (q = length h /\ x = e).
Proof. rewrite lookup_app_Some, list_lookup_singleton_Some. pose proof (lookup_lt_Some h q x). split; [naive_solver lia|]. intros [?|[-> ->]]; [by left|right; split; [lia|split; [lia|done]]]. Qed.

Lemma unread w l : inv w l -> tally (reads (length (entryHeap w))) l = 0.
Proof.
  intros Hi. eapply tally_unused; [eauto|]. intros r Hr. pose proof (i_knows _ _ Hi r Hr) as Hk.
  destruct r; cbn in *; try done; destruct Hk as (e & He%lookup_lt_Some & _); apply Nat.eqb_neq; lia.
Qed.

Lemma inv_push w l i id f : inv w l -> l !! i = Some (Opened id f) -> pcEntries (theCache w) !! id = None ->
  inv (pushed id f w) (<[i := Reading id (length (entryHeap w)) f]> l).
Proof.
  intros Hi Hl Hnone. pose proof (unread w l Hi) as Hun. pose proof Hi as [i1 i2 i3 i4 i5 i6 i7 i8 i9]. set (p := length (entryHeap w)) in *.
  assert (entryHeap w !! p = None) as Hfresh by (by apply lookup_ge_None).
  assert (keeps w (pushed id f w)) as Hkeep.
  { split; [done|]. intros k q g (x & Hx & <- & <-). exists x. cbn. rewrite heap_new_entry. eauto. }
  split; cbn; fold p; try done.
  - intros k q. rewrite lookup_insert_Some, i2. split.
    + intros [[<- <-]|(Hne & x & Hx & Hx')]; eexists; rewrite heap_new_entry; [by split; [right|]|by split; [left|]].
    + intros (x & Hx & <- & Hx'). apply heap_new_entry in Hx as [Hx|[-> ->]]; [right|by left].
      split; [|eauto]. intros ->. assert (pcEntries (theCache w) !! pcId x = Some q) by (apply i2; eauto). congruence.
  - constructor; [|done]. rewrite i4. intros (x & Hx & _). congruence.
  - intros q. rewrite elem_of_cons, i4. split.
    + intros [->|(x & Hx & Hx')]; eexists; rewrite heap_new_entry; [by split; [right|]|by split; [left|]].
    + intros (x & Hx & Hx'). apply heap_new_entry in Hx as [Hx|[-> ->]]; [right; eauto|by left].
  - rewrite map_size_insert_None by done. by rewrite i5.
  - intros q x Hx. rewrite (tally_insert _ _ _ _ _ Hl). cbn. apply heap_new_entry in Hx as [Hx|[-> ->]].
    + rewrite (i6 q x Hx). destruct (Nat.eqb_spec p q); [congruence|lia].
    + fold p. rewrite Hun, Nat.eqb_refl. done.
  - intros g. rewrite (tally_insert _ _ _ _ _ Hl), tally_app, tally_cons. specialize (i7 g). change (tally (owns g) []) with 0.
    change (closed g (pushed id f w)) with (closed g w). change (owns g (MkEntry id f 1 false)) with (f =? g)%nat. cbn [holds]. lia.
  - intros q x Hx. apply heap_new_entry in Hx as [Hx|[-> ->]]; [by apply (i8 q)|]. apply (i9 (Opened id f)). by eapply list_elem_of_lookup_2.
  - intros r [->|Hr]%elem_of_insert_swap; [|eapply keeps_knows; eauto].
    exists (MkEntry id f 1 false). cbn. split; [|done]. apply heap_new_entry. by right.
Qed.

Lemma closed_nonneg f w : 0 <= closed f w.
Proof. unfold closed. destruct (files w !! f); lia. Qed.

(** A file that a reader or an entry has is open. *)
Lemma open_file f w : closed f w <= 0 -> exists d, files w !! f = Some d /\ fdCloses d = 0%nat.
Proof. unfold closed. destruct (files w !! f) as [d|]; [|lia]. exists d. split; [done|lia]. Qed.
Lemma held_open w l i r f : inv w l -> l !! i = Some r -> holds f r = true -> closed f w <= 0.
Proof.
  intros Hi Hl Hh. pose proof (i_files _ _ Hi f). pose proof (tally_lookup _ _ _ _ Hl Hh). pose proof (tally_nonneg (owns f) (entryHeap w)). lia.
Qed.
Lemma owned_open w l p e : inv w l -> entryHeap w !! p = Some e -> live e = true -> closed (pcFile e) w <= 0.
Proof.
  intros Hi He Hv. pose proof (i_files _ _ Hi (pcFile e)). pose proof (tally_nonneg (holds (pcFile e)) l).
  assert (0 < tally (owns (pcFile e)) (entryHeap w)) by (eapply tally_lookup; [done|]; unfold owns; by rewrite Hv, Nat.eqb_refl). lia.
Qed.

(** ** Runs *)

Definition good (max : Z) (x : world * list reader) : Prop :=
  inv x.1 x.2 /\ Z.of_nat (size (pcEntries (theCache x.1))) <= pcMax (theCache x.1) /\ pcMax (theCache x.1) = max.

Lemma good_invalidate max id w l : good max (w, l) -> good max (invalidate id w, l).
Proof.
  intros (Hi & Hs & Hm). unfold invalidate. cbn in *. destruct (pcEntries (theCache w) !! id) as [p|] eqn:E; [|done].
  destruct (drop_size w l id p Hi E) as [Hs' Hm']. split_and!; cbn; [by apply inv_drop|lia|lia].
Qed.

Lemma good_closeAll max order w l : good max (w, l) -> good max (closeAll order w, l).
Proof. unfold closeAll. revert w. induction order as [|id order IH]; intros w Hg; [done|]. cbn. by apply IH, good_invalidate. Qed.

Lemma good_insert max w l i id f : good max (w, l) -> l !! i = Some (Opened id f) -> acquireHit id w = None ->
  good max ((insertEntry id f w).2, <[i := Reading id (insertEntry id f w).1 f]> l).
Proof.
  intros (Hi & Hs & Hm) Hl Hmiss. cbn in *. pose proof (inv_push w l i id f Hi Hl (miss_entry _ _ _ Hi Hmiss)) as Hpush.
  destruct (inv_evict (S (length (pcLru (theCache (pushed id f w))))) (pushed id f w) _ Hpush) as (Hinv & Hsize & Hmax).
  { pose proof (i_len _ _ Hpush). pose proof (i_max _ _ Hpush). lia. }
  split; [exact Hinv|]. split; [exact Hsize|]. etransitivity; [exact Hmax|exact Hm].
Qed.

Lemma hit_cache id w p g w' : acquireHit id w = Some (p, g, w') ->
  pcMax (theCache w') = pcMax (theCache w) /\ pcEntries (theCache w') = pcEntries (theCache w).
Proof. intros (e & _ & _ & _ & ->)%hit_entry. apply move_front_same. Qed.

Lemma release_cache p w : theCache (release p w) = theCache w.
Proof. unfold release. destruct (entryHeap w !! p); [|done]. by destruct (_ && _). Qed.

Lemma closed_open f id w : closed f (openFile id w).2 = closed f w - #(length (files w) =? f)%nat.
Proof.
  unfold closed. cbn. destruct (Nat.eqb_spec (length (files w)) f) as [<-|Hne].
  - rewrite lookup_app_r, Nat.sub_diag, (proj2 (lookup_ge_None (files w) _)) by done. done.
  - destruct (files w !! f) as [d|] eqn:E; [rewrite (lookup_app_l_Some _ _ _ _ E); lia|].
    rewrite lookup_app_r by (by apply lookup_ge_None). apply lookup_ge_None in E. rewrite (proj2 (lookup_ge_None _ _)); [done|]. cbn. lia.
Qed.

Lemma step_good max x y : step x y -> good max x -> good max y.
Proof.
  destruct 1 as [w w' l i id p g Hl Hh|w l i id Hl Hh|w l i id Hl|w l i id Hl|w w' l i id p g f Hl Hh|w l i id p g f Hl|w l i id f Hl Hh|w l i id p g Hl|w l id|w l order _];
    intros Hg; pose proof Hg as (Hi & Hs & Hm); cbn [fst snd] in *.
  - destruct (hit_cache _ _ _ _ _ Hh) as [E1 E2]. split; [|split; cbn; rewrite ?E1, ?E2; done]. by eapply (inv_hit _ _ _ _ Idle).
  - split; [|done]. by eapply (inv_reader _ _ _ _ Idle).
  - split; [|done]. eapply (inv_reader _ _ _ _ (Opening id)); try done.
    + intros f. cbn [fst snd]. rewrite closed_open. cbn. lia.
    + intros f k Hk. unfold packOf in *. cbn. destruct (files w !! f) as [d|] eqn:E; [|done]. by rewrite (lookup_app_l_Some _ _ _ _ E).
    + cbn. unfold packOf. cbn. by rewrite lookup_app_r, Nat.sub_diag by done.
  - split; [|done]. by eapply (inv_reader _ _ _ _ (Opening id)).
  - destruct (hit_cache _ _ _ _ _ Hh) as [E1 E2]. split; [|split; cbn; rewrite ?E1, ?E2; done]. by eapply (inv_hit _ _ _ _ (Opened id f)).
  - split; [|done]. eapply (inv_reader _ _ _ _ (Spare id p g f)); try done.
    + intros h. destruct (open_file f w) as (d & Hd & _); [by eapply (held_open _ _ _ _ _ Hi Hl), Nat.eqb_refl|].
      cbn [fst]. rewrite (closed_closeFile _ _ _ (fdPack d)) by (unfold packOf; by rewrite Hd). cbn. lia.
    + intros h k. cbn [fst]. by rewrite packOf_closeFile.
    + apply (i_knows _ _ Hi (Spare id p g f)). by eapply list_elem_of_lookup_2.
  - by apply good_insert.
  - split; [|cbn [fst]; by rewrite release_cache]. by eapply inv_release.
  - by apply good_invalidate.
  - by apply good_closeAll.
Qed.

Definition bound (max : Z) : Z := if max <=? 0 then defaultPackCacheSize else max.

Lemma start_good max n : good (bound max) (start max n).
Proof.
  assert (forall f : reader -> bool, f Idle = false -> tally f (replicate n Idle) = 0) as Hidle.
  { intros f Hf. eapply (tally_unused f f); [done|]. by intros r [-> _]%elem_of_replicate. }
  assert (0 < bound max) as Hb by (unfold bound, defaultPackCacheSize; destruct (Z.leb_spec max 0); lia).
  unfold good, start. cbn [fst snd]. split; [|split; [|done]].
  - split; cbn; try done.
    + intros id p. rewrite lookup_empty. split; [done|]. by intros (e & He & _).
    + apply NoDup_nil_2.
    + intros p. rewrite elem_of_nil. split; [done|]. by intros (e & He & _).
    + intros f. unfold closed. cbn. rewrite Hidle by done. done.
    + by intros r [-> _]%elem_of_replicate.
  - cbn. change (0 <= bound max). lia.
Qed.

Lemma reach_good max n x : rtc step (start max n) x -> good (bound max) x.
Proof.
  intros Hr. eapply (rtc_ind_r (good (bound max)) (start max n)); [apply start_good| |exact Hr]. intros y z _ Hs Hg. by eapply step_good.
Qed.

(** ** What the readers rely on *)

Definition isOpen (w : world) (f : nat) : bool := match files w !! f with Some d => (fdCloses d =? 0)%nat | None => false end.
Definition openFiles (w : world) : list nat := filter (fun f => isOpen w f) (seq 0 (length (files w))).

(** The descriptors a reader has in hand. *)
Definition inHand (r : reader) : list nat :=
  match r with Idle | Opening _ => [] | Opened _ f => [f] | Spare _ _ g f => [g; f] | Reading _ _ g => [g] end.

(** A reader's entry is live, whatever was evicted meanwhile. *)
Lemma handle_open w l r p : inv w l -> r ∈ l -> reads p r = true -> exists e, entryHeap w !! p = Some e /\ pcFile e ∈ inHand r /\ closed (pcFile e) w <= 0.
Proof.
  intros Hi Hr Hp. assert (exists e, entryHeap w !! p = Some e /\ pcFile e ∈ inHand r) as (e & He & Hin).
  { pose proof (i_knows _ _ Hi r Hr) as Hk. destruct r; cbn in *; try done; apply Nat.eqb_eq in Hp as ->; destruct Hk as (e & He & _ & <-); exists e; set_solver. }
  exists e. split_and!; [done..|]. eapply owned_open; [done..|]. eapply alive; [done..|]. pose proof (tally_pos _ _ _ Hr Hp). lia.
Qed.

(** An open descriptor is in a reader's hand or belongs to a cached entry. *)
Lemma open_accounted w l f : inv w l -> closed f w <= 0 ->
  f ∈ (l ≫= inHand) \/ exists p e, p ∈ pcLru (theCache w) /\ entryHeap w !! p = Some e /\ pcFile e = f.
Proof.
  intros Hi Hc. pose proof (i_files _ _ Hi f) as Hf. pose proof (closed_nonneg f w).
  destruct (decide (0 < tally (holds f) l)) as [Hh|Hh].
  - apply tally_some in Hh as (r & Hr & Hh). left. apply list_elem_of_bind. exists r. split; [|done].
    destruct r; cbn in *; try done; apply Nat.eqb_eq in Hh as ->; set_solver.
  - destruct (tally_some (owns f) (entryHeap w)) as (e & He & Ho); [lia|]. apply list_elem_of_lookup in He as [p He].
    unfold owns in Ho. apply andb_true_iff in Ho as [Hv <-%Nat.eqb_eq]. destruct (pcEvicted e) eqn:Hev.
    + left. unfold live in Hv. rewrite Hev, (i_refs _ _ Hi _ _ He) in Hv. cbn in Hv. apply negb_true_iff, Z.eqb_neq in Hv.
      destruct (tally_some (reads p) l) as (r & Hr & Hp); [pose proof (tally_nonneg (reads p) l); lia|].
      destruct (handle_open w l r p Hi Hr Hp) as (e2 & He2 & Hin & _). simplify_eq. apply list_elem_of_bind. eauto.
    + right. exists p, e. split; [|done]. apply (i_lru _ _ Hi). eauto.
Qed.

Lemma isOpen_closed w f : isOpen w f = true -> closed f w <= 0.
Proof. unfold isOpen, closed. destruct (files w !! f); [|done]. intros ->%Nat.eqb_eq. lia. Qed.

Lemma open_count w l : inv w l -> (length (openFiles w) <= size (pcEntries (theCache w)) + length (l ≫= inHand))%nat.
Proof.
  intros Hi. rewrite <- (i_len _ _ Hi).
  assert (length (openFiles w) <= length (((fun p => from_option pcFile 0%nat (entryHeap w !! p)) <$> pcLru (theCache w)) ++ (l ≫= inHand)))%nat as H.
  { apply submseteq_length, NoDup_submseteq; [apply NoDup_filter, NoDup_seq|]. intros f. unfold openFiles.
    rewrite list_elem_of_filter, elem_of_app, list_elem_of_fmap. intros [Ho%Is_true_true%isOpen_closed _].
    destruct (open_accounted w l f Hi Ho) as [?|(p & e & Hp & He & <-)]; [by right|left]. exists p. by rewrite He. }
  rewrite length_app, length_fmap in H. done.
Qed.

Lemma invalidate_lookup w l id k : inv w l -> pcEntries (theCache (invalidate id w)) !! k = if decide (k = id) then None else pcEntries (theCache w) !! k.
Proof.
  intros Hi. unfold invalidate. destruct (pcEntries (theCache w) !! id) as [p|] eqn:E.
  - destruct (proj1 (i_entry _ _ Hi _ _) E) as (e & He & _). destruct (drop_parts w id p e He) as (_ & -> & _). cbn.
    case_decide; [subst; apply lookup_delete_eq|by apply lookup_delete_ne].
  - case_decide; [by subst|done].
Qed.

Lemma closeAll_lookup max order w l k : good max (w, l) -> k ∈ order \/ pcEntries (theCache w) !! k = None -> pcEntries (theCache (closeAll order w)) !! k = None.
Proof.
  unfold closeAll. revert w. induction order as [|id order IH]; intros w Hg Hk; cbn; [by destruct Hk as [?%elem_of_nil|?]|].
  apply IH; [by apply good_invalidate|]. rewrite (invalidate_lookup w l) by apply Hg. case_decide; [by right|]. set_solver.
Qed.

Lemma closeAll_empty max order w l : good max (w, l) -> order ≡ₚ (map_to_list (pcEntries (theCache w))).*1 -> pcEntries (theCache (closeAll order w)) = ∅.
Proof.
  intros Hg Ho. apply map_empty. intros k. eapply closeAll_lookup; [done|]. destruct (pcEntries (theCache w) !! k) as [p|] eqn:E; [left|by right].
  rewrite Ho. apply list_elem_of_fmap. exists (k, p). split; [done|]. by apply elem_of_map_to_list.
Qed.

(** C9: Whatever order the goroutines, evictions, invalidations and shutdowns of the
    cache run in: a goroutine that has a handle reads an open file of the pack it
    asked for; no file is closed twice; the cache holds at most its bound, and the
    files open are at most that many and those in the readers' hands; and when no
    reader is left, [closeAll] leaves every file that was ever opened closed, once. *)
Theorem handles_stay_open max n w l : rtc step (start max n) (w, l) ->
  (forall id p g, Reading id p g ∈ l -> exists d, files w !! g = Some d /\ fdPack d = id /\ fdCloses d = 0%nat) /\
  (forall f d, files w !! f = Some d -> (fdCloses d <= 1)%nat) /\
  Z.of_nat (size (pcEntries (theCache w))) <= bound max /\
  Z.of_nat (length (openFiles w)) <= bound max + Z.of_nat (length (l ≫= inHand)) /\
  (forall order, l ≫= inHand = [] -> order ≡ₚ (map_to_list (pcEntries (theCache w))).*1 ->
     forall f d, files (closeAll order w) !! f = Some d -> fdCloses d = 1%nat).
Proof.
  intros Hr. pose proof (reach_good _ _ _ Hr) as Hg. pose proof Hg as (Hi & Hs & Hm). cbn in Hi, Hs, Hm. split_and!.
  - intros id p g Hin. destruct (handle_open w l _ p Hi Hin (Nat.eqb_refl p)) as (e & He & Hg' & Ho).
    destruct (i_knows _ _ Hi _ Hin) as (e2 & He2 & Hid & Hf). simplify_eq. destruct (open_file _ _ Ho) as (d & Hd & Hz).
    exists d. split_and!; [done| |done]. pose proof (i_pack _ _ Hi _ _ He) as Hp. unfold packOf in Hp. rewrite Hd in Hp. by injection Hp.
  - intros f d Hf. pose proof (i_files _ _ Hi f) as Hsum. unfold closed in Hsum. rewrite Hf in Hsum.
    pose proof (tally_nonneg (holds f) l). pose proof (tally_nonneg (owns f) (entryHeap w)). lia.
  - lia.
  - pose proof (open_count w l Hi). lia.
  - intros order Hempty Ho f d Hf. pose proof (good_closeAll _ order _ _ Hg) as (Hi' & _). cbn in Hi'.
    pose proof (closeAll_empty _ _ _ _ Hg Ho) as Hnone. pose proof (i_len _ _ Hi') as Hlen. rewrite Hnone, map_size_empty in Hlen. apply length_zero_iff_nil in Hlen.
    pose proof (i_files _ _ Hi' f) as Hsum. pose proof (tally_nonneg (holds f) l). pose proof (tally_nonneg (owns f) (entryHeap (closeAll order w))).
    destruct (decide (closed f (closeAll order w) <= 0)) as [Hc|Hc].
    + destruct (open_accounted _ _ f Hi' Hc) as [Hh|(p & e & Hp & _)]; [rewrite Hempty in Hh|rewrite Hlen in Hp]; by apply elem_of_nil in Hh || apply elem_of_nil in Hp.
    + unfold closed in Hc, Hsum. rewrite Hf in Hc, Hsum. lia.
Qed.

(** Three readers of a cache of one handle. *)
Definition crowded : world :=
  MkWorld (MkCache 1 {[1 := 2%nat]} [2%nat]) [MkEntry 1 0 1 true; MkEntry 2 1 1 true; MkEntry 1 2 1 false] [MkFd 1 0; MkFd 2 0; MkFd 1 0].
Definition crowd : list reader := [Reading 1 0 0; Reading 2 1 1; Reading 1 2 2].

(** A reader that misses, opens its file and caches it. *)
Lemma run_miss w l i id : l !! i = Some Idle -> acquireHit id w = None ->
  let (f, w1) := openFile id w in let (p, w2) := insertEntry id f w1 in rtc step (w, l) (w2, <[i := Reading id p f]> l).
Proof.
  intros Hl Hm. cbn [openFile insertEntry]. pose proof (lookup_lt_Some _ _ _ Hl) as Hlt.
  eapply rtc_l; [by eapply (step_miss w l i id)|]. eapply rtc_l; [eapply (step_open _ _ i id); by apply list_lookup_insert_eq|].
  eapply rtc_l; [eapply (step_insert _ _ i id)|]; [by rewrite list_lookup_insert_eq by (by rewrite length_insert)| |].
  { revert Hm. unfold acquireHit. cbn. destruct (pcEntries (theCache w) !! id) as [q|]; cbn; [|done]. by destruct (entryHeap w !! q). }
  rewrite !list_insert_insert_eq. apply rtc_refl.
Qed.

Lemma crowded_run : rtc step (start 1 3) (crowded, crowd).
Proof.
  etransitivity; [exact (run_miss (MkWorld (newPackCache 1) [] []) [Idle; Idle; Idle] 0 1 eq_refl eq_refl)|].
  etransitivity; [exact (run_miss (MkWorld (MkCache 1 {[1 := 0%nat]} [0%nat]) [MkEntry 1 0 1 false] [MkFd 1 0]) [Reading 1 0 0; Idle; Idle] 1 2 eq_refl eq_refl)|].
  exact (run_miss (MkWorld (MkCache 1 {[2 := 1%nat]} [1%nat]) [MkEntry 1 0 1 true; MkEntry 2 1 1 false] [MkFd 1 0; MkFd 2 0])
    [Reading 1 0 0; Reading 2 1 1; Idle] 2 1 eq_refl eq_refl).
Qed.

Lemma handles_stay_open_witness : openFiles crowded = [0; 1; 2]%nat /\
  (exists d, files crowded !! 0%nat = Some d /\ fdPack d = 1 /\ fdCloses d = 0%nat) /\ Z.of_nat (length (openFiles crowded)) <= bound 1 + 3.
Proof.
  destruct (handles_stay_open 1 3 crowded crowd crowded_run) as (H1 & _ & _ & H2 & _).
  split_and!; [reflexivity|apply (H1 1 0%nat 0%nat); left|exact H2].
Defined.

(** An entry in use is not skipped: it leaves the cache, so that a pack is opened
    again while it is open, and more files are open than the cache may hold. *)
Theorem entries_in_use_evicted : exists w l, rtc step (start 1 3) (w, l) /\ pcMax (theCache w) = 1 /\
  length (openFiles w) = 3%nat /\ packOf 0 w = Some 1 /\ packOf 2 w = Some 1.
Proof. exists crowded, crowd. split; [apply crowded_run|done]. Qed.
End Handles.
