(* ===== verification/System.v ===== *)
(** * The object store as a transition system

    The store's operations in any order, with any arguments, I/O faults at any
    step, crashes and restarts between operations: what holds in every state that
    can be reached.  Operations are serialised, as the store's locks serialise
    those on one object (a collection among other writers is in Gc.v); a collection
    that fails between its two deletions is left out, since it can leave recipes
    without their chunks. *)

From stdpp Require Import options.
From S2P Require Import Prelude GoLib GoText Contracts Lru Chunker Manifest Meta Concrete DictionaryFamily Dictionary ChunkStore SourceIngest Annotations ObjectStore Gc Preserve Projection Repack.

Local Open Scope Z_scope.

(** ** Compound objects *)

Section compound.
Context {E : Ext} `{!ExtLaws E}.

(** The sink is a batch that can be committed. *)
Definition good_batch (sink : metaSink) (s : Store) : Prop := sink_ok s sink /\ batched sink = true.

Lemma wrote_batch s sink s' sink' ws : good_batch sink s -> wrote s sink s' sink' ws -> good_batch sink' s'.
Proof using Type. intros [_ Hb] Hw. split; [apply Hw|]. by rewrite (wr_kind _ _ _ _ _ Hw). Qed.

Lemma writeManifestTo_batch s sink d m : good_batch sink s ->
  runs (writeManifestTo sink d m) s store_ok (srel true) (fun sink' s' => good_batch sink' s').
Proof using Type*.
  intros Hb. rewrite <- (proj2 Hb). eapply runs_post; [apply writeManifestTo_spec, Hb|]. intros sink' s' _ _ Hw. exact (wrote_batch _ _ _ _ _ Hb Hw).
Qed.

Lemma writePackedRecoveryTo_batch s sink d r : good_batch sink s ->
  runs (writePackedRecoveryTo sink d r) s store_ok (srel true) (fun sink' s' => good_batch sink' s').
Proof using Type*.
  intros Hb. rewrite <- (proj2 Hb). eapply runs_post; [apply writePackedRecoveryTo_spec, Hb|]. intros sink' s' _ _ [rt Hw]. exact (wrote_batch _ _ _ _ _ Hb Hw).
Qed.

Lemma wrapErr_runs {A} msg (m : M A) s Inv R P : runs m s Inv R P -> runs (wrapErr msg m) s Inv R P.
Proof using Type. unfold runs, wrapErr. by destruct (m s) as [[a|e|] s']. Qed.

Lemma commitNewObject_batch s cb d content hint m : store_ok s -> batch_ok s cb ->
  runs (commitNewObject cb d content hint m) s store_ok (srel true) (fun sink s' => good_batch sink s').
Proof using Type*.
  intros HI Hb. unfold commitNewObject, ctxErr. rbind; [by apply (runs_io _ _)|]. intros [] s1 H1 HR1 Hs1.
  assert (batch_ok s1 cb) as Hb1 by (apply (batch_ok_quiet s); [by apply quiet_env|apply H1|done]).
  rbind; [apply wrapErr_runs, runs_batch; [done|by apply storeBlobContentBatched_spec]|]. intros cb2 s2 H2 HR2 [Hb2 _].
  rbind; [by apply wrapErr_runs, (writeManifestTo_batch s2 (BatchSink cb2))|]. intros sink s3 H3 HR3 Hb3.
  by apply wrapErr_runs, writePackedRecoveryTo_batch.
Qed.

Lemma writeObject_batch s d content hint m : store_ok s -> looksLikeDigest d = true ->
  runs (writeObject newCommitBatch d content hint m) s store_ok (srel true) (fun sink s' => good_batch sink s').
Proof using Type*.
  intros HI Hd. unfold writeObject, ctxErr. rbind; [by apply (runs_io _ _)|]. intros [] s1 H1 _ _.
  rbind; [by apply (mergeWithStored_spec _ _ _ _)|]. intros m' s2 H2 _ _.
  rbind; [by apply wrapErr_runs, (metaHas_spec _ _ _ _)|]. intros b s3 H3 _ _. destruct (negb b).
  - apply commitNewObject_batch; [done|by apply newCommitBatch_ok].
  - apply writeManifestTo_batch. split; [by apply newCommitBatch_ok|done].
Qed.

Lemma preparePutCompound_batch s request : store_ok s ->
  stops (preparePutCompound request) s store_ok (srel true) (fun r s' => good_batch r.2 s').
Proof using Type*.
  intros HI. unfold preparePutCompound, ctxErr. sbind; [by apply runs_stops, (runs_io _ _)|]. intros [] s1 H1 _ _. cbv zeta.
  destruct (String.eqb _ ""); [by apply (stops_fail _ _ _ _)|]. sbind; [by apply (stops_check _ _ _ _)|]. intros [] s2 _ _ [-> _].
  sbind; [by apply (stops_check _ _ _ _)|]. intros [] s3 _ _ [-> _].
  sbind; [by apply runs_stops, (runs_now _ _)|]. intros t s4 H4 _ _.
  sbind; [apply runs_stops, writeObject_batch; [done|apply blake3_digest]|]. intros sink s5 H5 _ Hb5.
  sbind.
  { rewrite <- (proj2 Hb5). eapply unless_stops, (recordSourceObjectIndexesTo_spec s5 sink); [apply Hb5|apply blake3_digest]. }
  intros sink' s6 H6 _ (ws & Hw & _). sret; [done|]. exact (wrote_batch _ _ _ _ _ Hb5 Hw).
Qed.

End compound.

(** ** Operations *)

Inductive op :=
  | OPut (request : PutRequest)
  | OPutCompound (request : CompoundPutRequest)
  | OAttachProvenance (digest : ObjectDigest) (provenance : list Provenance)
  | OWriteAnnotation (annotation : Annotation)
  | OWriteOverlays (digest : ObjectDigest) (overlays : anyMap)
  | OTryAcquire (ref : SourceObjectRef)
  | ORelease (claim : SourceIngestClaim)
  | OCleanup
  | ODeleteObject (digest : ObjectDigest)
  | ODeleteImport (kind name : string)
  | ORepack
  | OOpen (digest : ObjectDigest)
  | OReadManifest (digest : ObjectDigest)
  | OHasAnalysis (digest : ObjectDigest) (analyzer version : string)
  | OLookup (ref : SourceObjectRef)
  | OWalk.

Section system.
Context {E : Ext}.

Definition void {A} (m : M A) : M unit := _ ← m; mret tt.

Definition exec (o : op) : M unit :=
  match o with
  | OPut request => void (Put request)
  | OPutCompound request => void (PutCompound request)
  | OAttachProvenance digest provenance => void (AttachProvenance digest provenance)
  | OWriteAnnotation annotation => WriteAnnotation annotation
  | OWriteOverlays digest overlays => WriteOverlays digest overlays
  | OTryAcquire ref => void (TryAcquireSourceIngest ref)
  | ORelease claim => ReleaseSourceIngest claim
  | OCleanup => void cleanupSourceLockKeys
  | ODeleteObject digest => DeleteObject digest
  | ODeleteImport kind name => void (DeleteImport kind name)
  | ORepack => void Repack
  | OOpen digest => void (Open digest)
  | OReadManifest digest => void (ReadManifest digest)
  | OHasAnalysis digest analyzer version => void (HasAnalysisAnnotation digest analyzer version)
  | OLookup ref => void (LookupSourceObject ref)
  | OWalk => void (WalkProjection [] collect)
  end.

(** An operation, with whatever outcome; a collection that completed, or failed
    before it removed anything; the clock moves on and the disk's future changes; a
    crash. *)
Inductive step : Store -> Store -> Prop :=
  | step_op o s : step s (exec o s).2
  | step_gc grace rep s s' : 0 <= grace -> gcWithGrace grace s = (Ok rep, s') -> step s s'
  | step_gc_failed grace e s s' : 0 <= grace -> gcWithGrace grace s = (Err e, s') ->
      (forall k, dbGet (db s') k = dbGet (db s) k) -> step s s'
  | step_env t ts fs s : clock s <= t -> step s (set_faults fs (set_clock t ts s))
  | step_crash s s' : crash s s' -> step s s'.

Inductive reachable_from (s0 : Store) : Store -> Prop :=
  | reach_start : reachable_from s0 s0
  | reach_step s s' : reachable_from s0 s -> step s s' -> reachable_from s0 s'.

(** A store opened on an empty directory. *)
Record opened (s : Store) : Prop := {
  op_db : forall k, dbGet (db s) k = None;
  op_packs : packs s = ∅;
  op_active : activePack s = None;
  op_cache : cache_ok (chunkCache s);
  op_dicts : dict_ok (dicts s) }.

(** [m] does not panic and keeps the store consistent. *)
Definition safe {A} (m : M A) : Prop := forall s, store_ok s ->
  match m s with (Panic, _) => False | (_, s') => store_ok s' end.

Lemma safe_stops {A} (m : M A) R : (forall s, store_ok s -> exists P, stops m s store_ok R P) -> safe m.
Proof. intros H s Hs. destruct (H s Hs) as [P HP]. unfold stops in HP. destruct (m s) as [[a|e|] s']; tauto. Qed.

Lemma safe_preserves {A} R (m : M A) : preserves R m -> safe m.
Proof. intros H. apply (safe_stops _ R). eauto. Qed.

Lemma safe_bind {A B} (m : M A) (f : A -> M B) : safe m -> (forall a, safe (f a)) -> safe (m ≫= f).
Proof.
  intros Hm Hf s Hs. specialize (Hm s Hs). unfold mbind, M_bind. destruct (m s) as [[a|e|] s1]; [by apply Hf|done..].
Qed.

Lemma safe_void {A} (m : M A) : safe m -> safe (void m).
Proof. intros Hm. apply safe_bind; [done|]. by intros a s Hs. Qed.

Context `{!ExtLaws E}.

Lemma safe_Put request : safe (Put request).
Proof using Type*. intros s Hs. pose proof (put_outcome s request Hs) as H. destruct (Put request s) as [[d|e|] s']; tauto. Qed.

Lemma safe_PutCompound request : safe (PutCompound request).
Proof using Type*.
  intros s Hs. unfold PutCompound. pose proof (preparePutCompound_batch s request Hs) as H. unfold stops in H.
  unfold mbind at 1, M_bind. destruct (preparePutCompound request s) as [[[[d parts] sink]|e|] s1]; [|tauto|done].
  destruct H as (H1 & _ & Hok & Hb). cbn [snd] in *. destruct sink as [|cb]; [done|].
  assert (safe (recordCompoundParentIndexes d parts)) as Hrec by eapply safe_preserves, preserves_recordCompoundParentIndexes.
  pose proof (commit_atomic s1 cb Hok) as Hc. unfold mbind at 1, M_bind, wrapErr, commitSink.
  destruct (commit cb s1) as [[[]|e|] s2]; [|tauto|done].
  apply (safe_bind _ (fun _ => mret d) Hrec); [by intros a s3 Hs3|apply Hc].
Qed.

Lemma safe_Open d : safe (Open d).
Proof using Type*.
  apply (safe_preserves annotates). unfold Open, ctxErr, openBlobReader, readRecipe, readLegacyBlob. pose proof (preserves_ReadManifest (R := annotates) d). keep. all: auto.
Qed.

Lemma safe_Lookup ref : safe (LookupSourceObject ref).
Proof using Type*.
  apply (safe_preserves annotates). unfold LookupSourceObject, lookupSourceObjectViaAlias, readPackedSourceObjectIndex, readPackedSourceAlias, ctxErr.
  pose proof (fun d k => preserves_readManifestOr (R := annotates) (A:=option ObjectDigest) d None k). keep. all: auto.
Qed.

Lemma safe_exec o : safe (exec o).
Proof using Type*.
  destruct o; cbn [exec]; try apply safe_void.
  - apply safe_Put.
  - apply safe_PutCompound.
  - apply (safe_preserves annotates), preserves_AttachProvenance.
  - apply (safe_preserves annotates), preserves_WriteAnnotation.
  - apply (safe_preserves annotates), preserves_WriteOverlays.
  - apply (safe_preserves annotates), preserves_TryAcquire.
  - apply (safe_preserves annotates), preserves_Release.
  - apply (safe_preserves later), preserves_cleanup.
  - apply (safe_preserves later), preserves_DeleteObject.
  - apply (safe_preserves later), preserves_DeleteImport.
  - apply (safe_stops _ moves). intros s Hs. eexists. by apply runs_stops, Repack_spec.
  - apply safe_Open.
  - apply (safe_preserves annotates), preserves_ReadManifest.
  - apply (safe_preserves annotates), preserves_HasAnalysisAnnotation.
  - apply safe_Lookup.
  - apply (safe_stops _ annotates). intros s Hs. eexists. by apply runs_stops, walk_spec.
Qed.

Lemma opened_ok s : opened s -> store_ok s.
Proof using Type.
  intros [H1 H2 H3 H4 H5]. split; split; try done.
  - intros id pk. by rewrite H2.
  - intros id size Ha. by rewrite H3 in Ha.
  - intros k v. by rewrite H1.
  - intros h e. by rewrite H1.
  - intros d e. by rewrite H1.
Qed.

Lemma system_step_ok s s' : store_ok s -> step s s' -> store_ok s'.
Proof using Type*.
  intros Hs Hst. destruct Hst as [o s|grace rep s s' Hg Hr|grace e s s' Hg Hr Hsame|t ts fs s Ht|s s' Hc].
  - pose proof (safe_exec o s Hs) as H. by destruct (exec o s) as [[a|e|] s'].
  - pose proof (gc_spec s grace Hs Hg) as H. unfold runs in H. rewrite Hr in H.
    destruct H as (_ & HM & cutoff & dead & _ & _ & Hdk & Hall & _). by eapply gc_consistent.
  - pose proof (gc_spec s grace Hs Hg) as H. unfold runs in H. rewrite Hr in H. destruct H as (_ & HM & _).
    apply (store_ok_shrink s s' Hs HM); [by left|]. intros x e0 h _ _. apply Hsame.
  - destruct Hs as [[P1 P2 P3 P4 P5] [D1 D2 D3]]. split; split; done.
  - by eapply crash_store_ok.
Qed.

End system.

(** C1: every reachable store is consistent.  Starting from an empty directory,
    after any sequence of operations (puts of objects and compounds, provenance,
    annotations and overlays, claims and sweeps, deletions, repacking, reads, lookups
    and walks) with any arguments and any I/O failures, of clock changes, of crashes
    and of collections that complete or fail before they have removed anything:
    every document has its key's type, every chunk entry locates durable bytes that
    decode to content with its hash, every recipe's chunks are there; no operation
    panics (a put has a reader to read from); and every recipe can be read back when
    the disk works.  A collection that fails between its two deletions is not among
    the steps: it can leave recipes of nothing in use whose chunks are gone (gc.go:404). *)
Theorem reachable_consistent {E : Ext} `{!ExtLaws E} (s0 s : Store) :
  opened s0 -> reachable_from s0 s ->
  store_ok s /\ (forall o, (exec o s).1 <> Panic) /\
  (forall d e, dbGet (db s) (objectRecipeKey d) = Some (VRecipe e) -> faults s = [] ->
    exists cs s', readBlobContent d s = (Ok (Some (concat cs)), s') /\ map blake3 cs = reChunkHashes e).
Proof.
  intros H0 Hr. assert (store_ok s) as Hs.
  { induction Hr as [|s s' _ IH Hst]; [by apply opened_ok|]. by eapply system_step_ok. }
  split; [done|]. split.
  - intros o. pose proof (safe_exec o s Hs) as H. by destruct (exec o s) as [[]].
  - intros d e He Hf. destruct (runs_ok _ _ _ _ _ (readBlobContent_spec s d e Hs He) Hf) as (r & s' & Hrun & _ & _ & cs & -> & Hcs).
    exists cs, s'. split; [done|]. clear -Hcs. induction Hcs as [|h c hs cs [_ <-] _ IH]; [done|]. cbn. by rewrite IH.
Qed.

(** ** A run: an object is put, and the machine loses power. *)

Lemma emptyStore_opened : opened emptyStore.
Proof. split; [done|done|done|apply NewSizedLRU_ok|apply emptyDicts_ok]. Qed.

Definition exPutDone : Store := (exec (OPut exPut) emptyStore).2.

Lemma reachable_consistent_witness : hasKey exPutDone (manifestKey (blake3 helloBytes)) = true /\ store_ok (restart exPutDone).
Proof.
  split; [vm_compute; reflexivity|].
  assert (reachable_from emptyStore exPutDone) as H1 by (eapply reach_step; [apply reach_start|apply (step_op (OPut exPut))]).
  assert (store_ok exPutDone) as Hs by (eapply system_step_ok; [apply opened_ok, emptyStore_opened|apply (step_op (OPut exPut))]).
  apply (reachable_consistent emptyStore (restart exPutDone) emptyStore_opened).
  eapply reach_step; [exact H1|]. apply step_crash, restart_crash, Hs.
Defined.
