(* ===== verification/Jobs.v ===== *)
(** * Analysis jobs and the interfaces around them

    The analyzer and scheduler structs of [contracts/contracts.go], and the
    [ObjectStore] interface of [analysis/interfaces.go] as a class: its
    operations on a store of any kind (the in-process [FilesystemStore] or the
    gRPC client), and in [ObjectStoreLaws] what the worker relies on. *)

From stdpp Require Import options.
From S2P Require Import Prelude GoLib Contracts Meta.

Local Open Scope Z_scope.

(** ** [contracts/contracts.go] *)

Definition PriorityInteractive : string := "interactive".
Definition PriorityForced : string := "forced".
Definition PriorityFreshIngest : string := "fresh_ingest".
Definition PriorityRepair : string := "repair".
Definition PriorityBackground : string := "background".

Record AnalyzerSpec := MkSpec {
  spName : string; spVersion : string; spIdempotencyFormula : string; spWorkerKind : string;
  spMediaTypes : list string; spContentRoles : list string; spRequiredInputs : list string;
  spOutputSections : list string; spDependencies : list string; spPriority : Z; spDeterministic : bool }.

Record AnalyzerJob := MkJob {
  jCreatedAt : Time; jDeadline : Time; jAnalyzer : AnalyzerSpec; jRequestedBy : string;
  jObjectDigest : ObjectDigest; jPriorityClass : string; jReason : string; jTraceID : string;
  jFailure : string; jIdempotencyKey : string; jJobID : string; jSchemaVersion : Z;
  jAttempt : Z; jPriority : Z; jForced : bool }.

Record SchedulerScanRequest := MkScanRequest {
  sqPriorityClass : string; sqRequestedBy : string; sqReason : string; sqTraceID : string;
  sqSchemaVersion : Z; sqForced : bool }.

Record SchedulerScanResponse := MkScanResponse {
  ssSchemaVersion : Z; ssScanned : Z; ssEnqueued : Z; ssSkipped : Z; ssFailed : Z }.

Record ObjectChangeRequest := MkChange {
  ocPriorityClass : string; ocRequestedBy : string; ocReason : string; ocTraceID : string;
  ocSchemaVersion : Z; ocObjectDigests : list ObjectDigest; ocProjectionOnly : bool }.

Record SchedulerStatus := MkStatus {
  stSchemaVersion : Z; stPending : Z; stRetry : Z; stFailed : Z; stDeadLetter : Z }.

Record AnalyzerQueueDepth := MkQueueDepth { qdAnalyzer : string; qdPending : Z; qdRetry : Z }.

Record DeadLetterRequest := MkDeadLetterRequest { dlqSchemaVersion : Z; dlqLimit : Z }.
Record DeadLetterResponse := MkDeadLetterResponse { dlrJobs : list AnalyzerJob; dlrSchemaVersion : Z }.

Record RequeueRequest := MkRequeueRequest { rqSchemaVersion : Z; rqLimit : Z }.
Record RequeueResponse := MkRequeueResponse { rrSchemaVersion : Z; rrRequeued : Z }.

Record ReconcilePendingResponse := MkReconcile {
  rcSchemaVersion : Z; rcChecked : Z; rcDroppedSatisfied : Z; rcDroppedDuplicate : Z; rcRepublished : Z; rcKept : Z;
  rcKeptJobs : list AnalyzerJob }.

#[export] Instance AnalyzerSpec_eq_dec : EqDecision AnalyzerSpec.
Proof. solve_decision. Defined.
#[export] Instance AnalyzerJob_eq_dec : EqDecision AnalyzerJob.
Proof. solve_decision. Defined.

(** ** A state monad over any state, with the results of the store's own *)

Definition SM (S A : Type) : Type := S -> res A * S.

#[global] Instance SM_ret {S} : MRet (SM S) := fun A a s => (Ok a, s).
#[global] Instance SM_bind {S} : MBind (SM S) := fun A B f m s =>
  match m s with
  | (Ok a, s') => f a s'
  | (Err e, s') => (Err e, s')
  | (Panic, s') => (Panic, s')
  end.

Definition sfail {S A} (e : GoError) : SM S A := fun s => (Err e, s).
Definition sget {S A} (f : S -> A) : SM S A := fun s => (Ok (f s), s).
Definition smodify {S} (f : S -> S) : SM S unit := fun s => (Ok tt, f s).
Definition scheck {S} (e : option GoError) : SM S unit :=
  match e with None => mret tt | Some e => sfail e end.

(** The caller looks at the error itself. *)
Definition stry {S A} (m : SM S A) : SM S (GoError + A) := fun s =>
  match m s with
  | (Ok a, s') => (Ok (inr a), s')
  | (Err e, s') => (Ok (inl e), s')
  | (Panic, s') => (Panic, s')
  end.

(** [fmt.Errorf("msg: %w", err)] on the error path. *)
Definition swrap {S A} (msg : string) (m : SM S A) : SM S A := fun s =>
  match m s with
  | (Err e, s') => (Err (ErrWrap msg e), s')
  | r => r
  end.

(** A pure component that may panic. *)
Definition spanic {S A} (o : option A) : SM S A := fun s =>
  match o with Some a => (Ok a, s) | None => (Panic, s) end.

(** [for _, x := range l] with an accumulator. *)
Fixpoint sforM {S A B} (l : list A) (acc : B) (f : B -> A -> SM S B) : SM S B :=
  match l with
  | [] => mret acc
  | x :: r => acc ← f acc x; sforM r acc f
  end.

(** ** [analysis.ObjectStore] *)

Class ObjectStore (S : Type) := {
  osReadManifest : ObjectDigest -> SM S Manifest;
  osHasAnalysisAnnotation : ObjectDigest -> string -> string -> SM S bool;
  osWriteAnnotation : Annotation -> SM S unit }.

(** An operation keeps the invariant and every recorded analysis, whatever it
    returns, and does not panic. *)
Definition keeps {S A} (inv : S -> Prop) (recorded : S -> ObjectDigest -> string -> Prop)
    (m : SM S A) (P : A -> S -> Prop) : Prop :=
  forall s, inv s ->
    let s' := (m s).2 in
    inv s' /\ (forall d n, recorded s d n -> recorded s' d n) /\
    match (m s).1 with Ok a => P a s' | Err _ => True | Panic => False end.

(** A complete analysis of one analyzer version: the annotation names the
    analyzer and the version and carries a status that needs no further run. *)
Definition complete (n v : string) (x : Annotation) : Prop :=
  aKind x = "analysis" /\ aAnalyzerName x = n /\ aAnalyzerVer x = v /\
  (aData x !! "status" = Some (AStr "complete") \/ aData x !! "status" = Some (AStr "skipped")).

(** [x] is what the store made of [a]: for the same object, analyzer and version,
    and with all of its data, each value as [value] leaves it, when the data can
    be [sent]. *)
Record stored_as (sent : anyMap -> Prop) (value : Any -> Any) (a x : Annotation) : Prop := {
  sa_digest : aObjectDigest x = aObjectDigest a;
  sa_kind : aKind x = aKind a;
  sa_name : aAnalyzerName x = aAnalyzerName a;
  sa_version : aAnalyzerVer x = aAnalyzerVer a;
  sa_data : sent (aData a) -> value <$> aData a ⊆ aData x }.

(** Names the store does not trim to something else. *)
Definition trimmed (s : string) : Prop := TrimSpace s = s /\ s <> "".

(** What the worker relies on.  Some analysis of an analyzer, once recorded, is
    never removed; a positive answer means that a complete annotation of the
    version asked for is there, and a successful write that the annotation
    written is; and [ErrNotExist] for a manifest means that the object is gone. *)
Class ObjectStoreLaws (S : Type) `{!ObjectStore S} := {
  os_inv : S -> Prop;
  recorded : S -> ObjectDigest -> string -> Prop;
  annotation : S -> ObjectDigest -> string -> Annotation -> Prop;
  sent : anyMap -> Prop;
  value : Any -> Any;
  gone : S -> ObjectDigest -> Prop;
  os_text : forall t, value (AStr t) = AStr t;
  os_recorded : forall s d n x, annotation s d n x -> recorded s d n;
  os_has : forall d n v, keeps os_inv recorded (osHasAnalysisAnnotation d n v)
    (fun b s => b = true -> exists x, annotation s d n x /\ complete n v x);
  os_write : forall a, aKind a = "analysis" -> trimmed (aAnalyzerName a) -> trimmed (aAnalyzerVer a) ->
    keeps os_inv recorded (osWriteAnnotation a)
      (fun _ s => exists x, annotation s (aObjectDigest a) (aAnalyzerName a) x /\ stored_as sent value a x);
  os_read : forall d, keeps os_inv recorded (osReadManifest d) (fun _ _ => True);
  os_read_gone : forall d s e, os_inv s -> (osReadManifest d s).1 = Err e -> isNotExist e = true ->
    gone (osReadManifest d s).2 d }.
Arguments sent S {_ _} _.
Arguments value S {_ _} _.

(** ** Postconditions of [SM] programs *)

(** [m] from [s] does not panic, and its result and final state satisfy [Q]. *)
Definition post {S A} (m : SM S A) (s : S) (Q : GoError + A -> S -> Prop) : Prop :=
  match m s with
  | (Ok a, s') => Q (inr a) s'
  | (Err e, s') => Q (inl e) s'
  | (Panic, _) => False
  end.

Section post.
Context {S : Type}.

Lemma post_mono {A} (m : SM S A) s (P Q : GoError + A -> S -> Prop) :
  post m s P -> (forall r s', P r s' -> Q r s') -> post m s Q.
Proof. unfold post. destruct (m s) as [[a|e|] s']; auto. Qed.

Lemma post_bind {A B} (m : SM S A) (k : A -> SM S B) s Q :
  post m s (fun r s' => match r with inl e => Q (inl e) s' | inr a => post (k a) s' Q end) ->
  post (m ≫= k) s Q.
Proof. unfold post, mbind, SM_bind. destruct (m s) as [[a|e|] s']; auto. Qed.

Lemma post_ret {A} (a : A) s (Q : GoError + A -> S -> Prop) : Q (inr a) s -> post (mret a) s Q.
Proof. done. Qed.

Lemma post_try {A} (m : SM S A) s Q : post m s (fun r s' => Q (inr r) s') -> post (stry m) s Q.
Proof. unfold post, stry. destruct (m s) as [[a|e|] s']; auto. Qed.

Lemma post_wrap {A} msg (m : SM S A) s Q :
  post m s (fun r s' => match r with inl e => Q (inl (ErrWrap msg e)) s' | inr a => Q (inr a) s' end) ->
  post (swrap msg m) s Q.
Proof. unfold post, swrap. destruct (m s) as [[a|e|] s']; auto. Qed.

Lemma post_check e s (Q : GoError + unit -> S -> Prop) :
  (forall x, e = Some x -> Q (inl x) s) -> (e = None -> Q (inr tt) s) -> post (scheck e) s Q.
Proof. destruct e; cbn; auto. Qed.

Lemma post_and {A} (m : SM S A) s P Q : post m s P -> post m s Q -> post m s (fun r s' => P r s' /\ Q r s').
Proof. unfold post. destruct (m s) as [[a|e|] s']; auto. Qed.

Lemma post_sforM {A B} (l : list A) (acc : B) (f : B -> A -> SM S B) s (I : list A -> B -> S -> Prop) Q :
  I [] acc s ->
  (forall done acc x s', done ++ [x] `prefix_of` l -> I done acc s' ->
     post (f acc x) s' (fun r s'' => match r with inr acc' => I (done ++ [x]) acc' s'' | inl e => Q (inl e) s'' end)) ->
  (forall acc s', I l acc s' -> Q (inr acc) s') -> post (sforM l acc f) s Q.
Proof.
  intros HI Hf HQ. cut (forall rest done acc s', l = done ++ rest -> I done acc s' -> post (sforM rest acc f) s' Q).
  { intros H. by apply (H l []). }
  clear HI acc. induction rest as [|x rest IH]; intros done acc s' Hl HI; cbn [sforM].
  - apply post_ret, HQ. by rewrite Hl, app_nil_r.
  - apply post_bind. eapply post_mono; [apply (Hf done); [exists rest; by rewrite Hl, <- app_assoc|done]|].
    intros [e|acc'] s2 H2; [done|]. apply (IH (done ++ [x])); [by rewrite Hl, <- app_assoc|done].
Qed.

Lemma post_run {A} (m : SM S A) s Q : post m s Q ->
  exists r, match r with inl e => m s = (Err e, (m s).2) | inr a => m s = (Ok a, (m s).2) end /\ Q r (m s).2.
Proof. unfold post. destruct (m s) as [[a|e|] s']; [exists (inr a)|exists (inl e)|]; done. Qed.

End post.

(** ** Inverting successful runs *)

Lemma sm_bind_ok {S A B} (m : SM S A) (k : A -> SM S B) s b s2 :
  (m ≫= k) s = (Ok b, s2) -> exists a s1, m s = (Ok a, s1) /\ k a s1 = (Ok b, s2).
Proof. unfold mbind, SM_bind. destruct (m s) as [[a|e|] s1]; naive_solver. Qed.

Lemma ret_ok {S A} (a b : A) (s s' : S) : (mret a : SM S A) s = (Ok b, s') -> a = b /\ s = s'.
Proof. unfold mret, SM_ret. by intros [= <- <-]. Qed.

Lemma wrap_ok {S A} msg (m : SM S A) s a s' : swrap msg m s = (Ok a, s') -> m s = (Ok a, s').
Proof. unfold swrap. by destruct (m s) as [[]]. Qed.

Lemma check_ok {S} e (s s' : S) u : scheck e s = (Ok u, s') -> e = None /\ s = s'.
Proof. destruct e; [done|]. by intros [_ ->]%ret_ok. Qed.
