(* ===== verification/PackedShard.v ===== *)
(** * Packed shards: the framing and scanning of [filestore/packed_store.go] and
    the compaction and repair of one shard ([maintenance.go], [verify.go])

    A shard is a file of records, one per line, each with the length of its
    payload.  [json.Valid] is an argument, and so is what the reader of a shard
    does with a payload.  Files live on a disk whose every operation can fail. *)

From stdpp Require Import options.
From S2P Require Import Prelude GoLib GoText Contracts Chunker Meta Jobs.
From Stdlib Require Import Strings.Byte.

Module Shard.
Local Open Scope Z_scope.

Definition packedShardMaxLineBytes : Z := 2 * 1048576.
Definition packedRecordLengthPrefixWidth : Z := 8.

(** The buffer [bufio.NewReaderSize] gets. *)
Definition shardBuffer : Z := 64 * 1024.

Definition nl : byte := x0a.
Definition tab : byte := x09.

#[export] Instance byte_dec : EqDecision byte := Byte.byte_eq_dec.

(** ** Lines *)

Definition hexDigit (n : N) : byte :=
  from_option id x00 (Byte.of_N (if n <? 10 then 48 + n else 87 + n)%N).

Definition hexVal (b : byte) : option N :=
  let c := Byte.to_N b in
  if (48 <=? c)%N && (c <=? 57)%N then Some (c - 48)%N
  else if (97 <=? c)%N && (c <=? 102)%N then Some (c - 87)%N
  else if (65 <=? c)%N && (c <=? 70)%N then Some (c - 55)%N
  else None.

Fixpoint hexLoop (fuel : nat) (n : N) (acc : bytes) : bytes :=
  match fuel with
  | O => acc
  | S fuel => let acc := hexDigit (n mod 16) :: acc in if (n <? 16)%N then acc else hexLoop fuel (n / 16) acc
  end.

(** [fmt.Sprintf] of a number, in eight hexadecimal digits or more. *)
Definition hex8 (n : N) : bytes :=
  let digits := hexLoop (S (N.size_nat n)) n [] in replicate (8 - length digits) x30 ++ digits.

Fixpoint parseHexLoop (l : bytes) (acc : N) : option N :=
  match l with [] => Some acc | b :: r => d ← hexVal b; parseHexLoop r (acc * 16 + d)%N end.

(** [strconv.ParseUint(prefix, 16, 32)]. *)
Definition ParseHex32 (l : bytes) : option N :=
  match l with [] => None | _ => n ← parseHexLoop l 0; if (n <? 2 ^ 32)%N then Some n else None end.

Definition encodePackedShardLine (payload : bytes) : bytes :=
  hex8 (N.of_nat (length payload)) ++ [tab] ++ payload ++ [nl].

(** ** Reading *)

(** [bufio.Reader.ReadSlice('\n')]: a line, a full buffer, or the rest. *)
Inductive readStatus := Delim | BufferFull | AtEnd.

Fixpoint cutLine (data : bytes) : option (bytes * bytes) :=
  match data with
  | [] => None
  | b :: r => if decide (b = nl) then Some ([], r) else p ← cutLine r; Some (b :: p.1, p.2)
  end.

Definition ReadSlice (data : bytes) : bytes * readStatus * bytes :=
  let full := if shardBuffer <=? blen data then (ztake shardBuffer data, BufferFull, zdrop shardBuffer data) else (data, AtEnd, []) in
  match cutLine data with
  | Some (line, rest) => if blen line + 1 <=? shardBuffer then (line ++ [nl], Delim, rest) else full
  | None => full
  end.

Record packedShardScanResult := MkScan { scRecords : Z; scLastIntactEnd : Z; scTornTailBytes : Z; scTornTailErr : option GoError }.

Definition noScan : packedShardScanResult := MkScan 0 0 0 None.

(** How the file ends: [None] at its end, or with an error of [Read]. *)
Definition fileEnd : Type := option GoError.

(** [drainPackedLongLine]: the line, whether it ended, whether it is too large, its
    length and what is left; nobody looks at a line that is too large. *)
Fixpoint drainPackedLongLine (fuel : nat) (fend : fileEnd) (collected : bytes) (spanLen : Z) (tooLarge : bool) (data : bytes) :
    GoError + (bytes * bool * bool * Z * bytes) :=
  match fuel with
  | O => inl (ErrMsg "out of fuel")
  | S fuel =>
      let '(chunk, status, rest) := ReadSlice data in
      let spanLen := spanLen + blen chunk in
      let collected := if tooLarge then collected else collected ++ chunk in
      let tooLarge := tooLarge || (packedShardMaxLineBytes <? spanLen) in
      match status with
      | BufferFull => drainPackedLongLine fuel fend collected spanLen tooLarge rest
      | Delim => inr (collected, true, tooLarge, spanLen, rest)
      | AtEnd => match fend with Some e => inl e | None => inr (collected, false, tooLarge, spanLen, rest) end
      end
  end.

Fixpoint splitLines (data : bytes) : list bytes * bytes :=
  match data with
  | [] => ([], [])
  | b :: r =>
      let '(lines, rest) := splitLines r in
      if decide (b = nl) then ([] :: lines, rest)
      else match lines with [] => ([], b :: rest) | l :: lines => ((b :: l) :: lines, rest) end
  end.

(** ** Framing *)

Lemma hexDigit_val n : (n < 16)%N -> hexVal (hexDigit n) = Some n.
Proof.
  intros Hn. assert (n ∈ (N.of_nat <$> seq 0 16)) as Hin.
  { apply list_elem_of_fmap. exists (N.to_nat n). rewrite elem_of_seq. lia. }
  clear Hn. revert n Hin. apply (Forall_forall (fun n => hexVal (hexDigit n) = Some n)). repeat constructor.
Qed.

Lemma parseHexLoop_app l1 l2 acc : parseHexLoop (l1 ++ l2) acc = n ← parseHexLoop l1 acc; parseHexLoop l2 n.
Proof. revert acc. induction l1 as [|b l IH]; intros acc; cbn; [done|]. destruct (hexVal b); cbn; [apply IH|done]. Qed.

Lemma hexLoop_app fuel n acc : hexLoop fuel n acc = hexLoop fuel n [] ++ acc.
Proof.
  revert n acc. induction fuel as [|f IH]; intros n acc; cbn; [done|]. destruct (n <? 16)%N; [done|].
  rewrite IH, (IH _ [_]), <- app_assoc. done.
Qed.

Lemma hexLoop_S fuel n acc : hexLoop (S fuel) n acc =
  if (n <? 16)%N then hexDigit (n mod 16) :: acc else hexLoop fuel (n / 16) (hexDigit (n mod 16) :: acc).
Proof. done. Qed.

Lemma parse_hexLoop fuel n : (n < 2 ^ N.of_nat fuel)%N -> parseHexLoop (hexLoop (S fuel) n []) 0 = Some n.
Proof.
  revert n. induction fuel as [|f IH]; intros n Hn; rewrite hexLoop_S.
  - assert (n = 0)%N as -> by (cbn in Hn; lia). reflexivity.
  - destruct (N.ltb_spec n 16) as [Hs|Hs].
    + cbn [parseHexLoop]. rewrite hexDigit_val by (apply N.mod_lt; lia). cbn -[N.modulo]. by rewrite N.mod_small.
    + rewrite hexLoop_app, parseHexLoop_app, IH.
      * cbn [mbind option_bind parseHexLoop]. rewrite hexDigit_val by (apply N.mod_lt; lia). cbn [mbind option_bind]. f_equal.
        rewrite (N.mul_comm _ 16), <- N.div_mod by lia. done.
      * apply N.Div0.div_lt_upper_bound. rewrite Nat2N.inj_succ, N.pow_succ_r' in Hn. lia.
Qed.

Lemma hexLoop_length k fuel n : (n < 16 ^ N.of_nat (S k))%N -> (length (hexLoop fuel n []) <= S k)%nat.
Proof.
  revert k n. induction fuel as [|f IH]; intros k n Hn; [cbn; lia|]. cbn [hexLoop]. destruct (N.ltb_spec n 16) as [Hs|Hs]; [cbn; lia|].
  rewrite hexLoop_app, length_app. destruct k as [|k]; [cbn in Hn; lia|].
  specialize (IH k (n / 16)%N). cbn [length]. assert (length (hexLoop f (n / 16) []) <= S k)%nat; [|lia]. apply IH.
  apply N.Div0.div_lt_upper_bound. rewrite (Nat2N.inj_succ (S k)), N.pow_succ_r' in Hn. lia.
Qed.

Lemma parse_zeros k l : parseHexLoop (replicate k x30 ++ l) 0 = parseHexLoop l 0.
Proof. induction k as [|k IH]; [done|]. exact IH. Qed.

Lemma hex8_ok n : (n < 2 ^ 32)%N -> length (hex8 n) = 8%nat /\ ParseHex32 (hex8 n) = Some n.
Proof.
  intros Hn. unfold hex8. set (d := hexLoop _ n []).
  assert (length d <= 8)%nat as Hlen by (apply (hexLoop_length 7); exact Hn).
  assert (length (replicate (8 - length d) x30 ++ d) = 8%nat) as H8 by (rewrite length_app, length_replicate; lia).
  split; [done|]. unfold ParseHex32. destruct (replicate (8 - length d) x30 ++ d) as [|b r] eqn:E; [done|]. rewrite <- E, parse_zeros.
  unfold d. rewrite parse_hexLoop by apply size_nat_bound. cbn.
  by rewrite (proj2 (N.ltb_lt _ _) Hn).
Qed.

(** A line without its newline. *)
Definition body (payload : bytes) : bytes := hex8 (N.of_nat (length payload)) ++ tab :: payload.

Lemma encode_body p : encodePackedShardLine p = body p ++ [nl].
Proof. unfold encodePackedShardLine, body. by rewrite <- app_assoc. Qed.

Lemma hexLoop_no_nl fuel n : nl ∉ hexLoop fuel n [].
Proof.
  revert n. induction fuel as [|f IH]; intros n; [set_solver|]. rewrite hexLoop_S.
  assert (hexDigit (n mod 16) <> nl) as Hd.
  { intros E. assert (n mod 16 < 16)%N as H%hexDigit_val by (apply N.mod_lt; lia). rewrite E in H. discriminate. }
  destruct (n <? 16)%N; [set_solver|]. rewrite hexLoop_app, not_elem_of_app. split; [apply IH|set_solver].
Qed.

Lemma body_no_nl p : nl ∉ p -> nl ∉ body p.
Proof.
  intros Hp. unfold body, hex8. rewrite !not_elem_of_app, not_elem_of_cons. split_and!; [|apply hexLoop_no_nl|done|done].
  intros [E _]%elem_of_replicate. done.
Qed.

Lemma body_length p : Z.of_nat (length p) < 2 ^ 32 -> blen (body p) = blen p + 9.
Proof. intros Hp. destruct (hex8_ok (N.of_nat (length p)) ltac:(lia)) as [H8 _]. unfold body, blen. rewrite length_app, H8. cbn. lia. Qed.

(** ** Reading lines *)

Lemma buffer_facts : 0 < shardBuffer /\ shardBuffer <= packedShardMaxLineBytes.
Proof. done. Qed.
#[local] Opaque shardBuffer packedShardMaxLineBytes.

Lemma cutLine_app p d : nl ∉ p -> cutLine (p ++ d) = (fun q => (p ++ q.1, q.2)) <$> cutLine d.
Proof.
  induction p as [|b p IH]; intros Hp; cbn; [by destruct (cutLine d) as [[]|]|]. rewrite decide_False by set_solver.
  rewrite IH by set_solver. by destruct (cutLine d) as [[]|].
Qed.
Lemma cutLine_line line rest : nl ∉ line -> cutLine (line ++ nl :: rest) = Some (line, rest).
Proof. intros Hl. rewrite cutLine_app by done. cbn. rewrite decide_True by done. cbn. by rewrite app_nil_r. Qed.
Lemma cutLine_inv data : match cutLine data with Some (line, rest) => data = line ++ nl :: rest /\ (nl ∉ line) | None => nl ∉ data end.
Proof.
  induction data as [|b data IH]; cbn; [set_solver|]. case_decide as Hb; [subst; split; [done|set_solver]|].
  destruct (cutLine data) as [[line rest]|]; cbn; [|set_solver]. destruct IH as [-> Hn]. split; [done|set_solver].
Qed.

Lemma splitLines_app p d : nl ∉ p ->
  splitLines (p ++ d) = match splitLines d with ([], rest) => ([], p ++ rest) | (l :: ls, rest) => ((p ++ l) :: ls, rest) end.
Proof.
  induction p as [|b p IH]; intros Hp; cbn; [by destruct (splitLines d) as [[]]|]. rewrite IH by set_solver.
  destruct (splitLines d) as [[|l ls] rest]; by rewrite decide_False by set_solver.
Qed.
Lemma splitLines_line line rest : nl ∉ line -> splitLines (line ++ nl :: rest) = (line :: (splitLines rest).1, (splitLines rest).2).
Proof. intros Hl. rewrite splitLines_app by done. cbn. destruct (splitLines rest). rewrite decide_True by done. cbn. by rewrite app_nil_r. Qed.
Lemma splitLines_rest data : nl ∉ data -> splitLines data = ([], data).
Proof. intros Hd. rewrite <- (app_nil_r data) at 1. rewrite splitLines_app by done. cbn. by rewrite app_nil_r. Qed.

Lemma ReadSlice_cases data :
  (exists line rest, data = line ++ nl :: rest /\ (nl ∉ line) /\ blen line + 1 <= shardBuffer /\ ReadSlice data = (line ++ [nl], Delim, rest)) \/
  (exists p d, data = p ++ d /\ (nl ∉ p) /\ blen p = shardBuffer /\ ReadSlice data = (p, BufferFull, d)) \/
  ((nl ∉ data) /\ blen data < shardBuffer /\ ReadSlice data = (data, AtEnd, [])).
Proof.
  destruct buffer_facts as [Hb _]. unfold ReadSlice. pose proof (cutLine_inv data) as Hc.
  assert (shardBuffer <= blen data -> nl ∉ ztake shardBuffer data -> exists p d, data = p ++ d /\ (nl ∉ p) /\ blen p = shardBuffer /\
    (ztake shardBuffer data, BufferFull, zdrop shardBuffer data) = (p, BufferFull, d)) as Hfull.
  { intros Hl Hn. exists (ztake shardBuffer data), (zdrop shardBuffer data). split_and!; [|done| |done].
    - unfold ztake, zdrop. by rewrite take_drop.
    - unfold ztake, blen in *. rewrite length_take. lia. }
  destruct (cutLine data) as [[line rest]|].
  - destruct Hc as [-> Hn]. destruct (Z.leb_spec (blen line + 1) shardBuffer) as [Hs|Hs]; [left; eauto 8|right; left].
    assert (shardBuffer <= blen (line ++ nl :: rest)) as Hl by (unfold blen in *; rewrite length_app; cbn; lia).
    rewrite (proj2 (Z.leb_le _ _) Hl). apply Hfull; [done|]. unfold ztake, blen in *. rewrite take_app_le by lia. intros Hin%elem_of_take_sub. done.
  - destruct (Z.leb_spec shardBuffer (blen data)) as [Hl|Hl]; right; [left|by right]. apply Hfull; [done|]. unfold ztake. intros Hin%elem_of_take_sub. done.
Qed.

(** [drainPackedLongLine] has the rest of the line, and knows whether it is too long. *)
Lemma drain_ok fuel collected data : (length data < fuel)%nat -> forall large span, large = (packedShardMaxLineBytes <? span) ->
  match cutLine data with
  | Some (line, rest) => exists c, drainPackedLongLine fuel None collected span large data =
      inr (c, true, packedShardMaxLineBytes <? span + blen line + 1, span + blen line + 1, rest) /\
      ((packedShardMaxLineBytes <? span + blen line + 1) = false -> c = collected ++ line ++ [nl])
  | None => exists c, drainPackedLongLine fuel None collected span large data =
      inr (c, false, packedShardMaxLineBytes <? span + blen data, span + blen data, [])
  end.
Proof.
  destruct buffer_facts as [Hb _].
  assert (forall a b, a <= b -> (packedShardMaxLineBytes <? a) || (packedShardMaxLineBytes <? b) = (packedShardMaxLineBytes <? b)) as Hmono.
  { intros a b Hab. destruct (Z.ltb_spec packedShardMaxLineBytes a), (Z.ltb_spec packedShardMaxLineBytes b); cbn; try done; lia. }
  revert collected data. induction fuel as [|fuel IH]; intros collected data Hf large span ->; [lia|]. cbn [drainPackedLongLine].
  destruct (ReadSlice_cases data) as [(line & rest & -> & Hn & Hs & ->)|[(p & d & -> & Hn & Hs & ->)|(Hn & Hs & ->)]].
  - rewrite cutLine_line by done. assert (blen (line ++ [nl]) = blen line + 1) as -> by (unfold blen; rewrite length_app; cbn; lia).
    rewrite Z.add_assoc, Hmono by (unfold blen; lia). eexists. split; [done|]. intros E.
    destruct (Z.ltb_spec packedShardMaxLineBytes span); [|done]. apply Z.ltb_ge in E. unfold blen in E. lia.
  - rewrite Hmono by (unfold blen; lia). rewrite cutLine_app by done.
    assert (length d < fuel)%nat as Hd by (rewrite length_app in Hf; unfold blen in Hs; lia).
    specialize (IH (if packedShardMaxLineBytes <? span then collected else collected ++ p) d Hd _ (span + blen p) eq_refl).
    destruct (cutLine d) as [[line rest]|]; cbn.
    + destruct IH as (c & -> & Hc). exists c. assert (blen (p ++ line) = blen p + blen line) as -> by (unfold blen; rewrite length_app; lia).
      rewrite !Z.add_assoc. split; [done|]. intros E. rewrite (Hc E). apply Z.ltb_ge in E.
      destruct (Z.ltb_spec packedShardMaxLineBytes span); [unfold blen in E; lia|]. by rewrite <- !app_assoc.
    + destruct IH as (c & ->). exists c. assert (blen (p ++ d) = blen p + blen d) as -> by (unfold blen; rewrite length_app; lia). by rewrite !Z.add_assoc.
  - pose proof (cutLine_inv data) as Hc. destruct (cutLine data) as [[line rest]|]; [destruct Hc as [-> _]; set_solver|].
    rewrite Hmono by (unfold blen; lia). eauto.
Qed.
Section lines.
Variable Valid : bytes -> bool.

Definition decodeBare (line : bytes) : GoError + bytes :=
  if Valid line then inr line else inl (ErrMsg "line is neither length-prefixed nor valid JSON").

Definition decodePackedShardLine (line : bytes) : GoError + bytes :=
  if (packedRecordLengthPrefixWidth + 1 <=? blen line) && bool_decide (line !! Z.to_nat packedRecordLengthPrefixWidth = Some tab) then
    match ParseHex32 (take (Z.to_nat packedRecordLengthPrefixWidth) line) with
    | Some length =>
        let payload := drop (Z.to_nat (packedRecordLengthPrefixWidth + 1)) line in
        if negb (blen payload =? Z.of_N length) then inl (ErrMsg "length prefix does not match payload bytes")
        else if negb (Valid payload) then inl (ErrMsg "payload is not valid JSON")
        else inr payload
    | None => decodeBare line
    end
  else decodeBare line.

(** ** Scanning *)

Section scan.
Context {A : Type}.
Variable handle : A -> bytes -> option GoError * A.

(** The variables of [scanPackedShard], and what [handle] has done. *)
Record scanning := MkScanning { sgResult : packedShardScanResult; sgPending : option ((GoError + bytes) * Z); sgCursor : Z; sgAcc : A }.

Definition commitPending (asLast : bool) (s : scanning) : option GoError * scanning :=
  match sgPending s with
  | None => (None, s)
  | Some (inl e, rawLen) =>
      if asLast : bool then
        (None, MkScanning (MkScan (scRecords (sgResult s)) (scLastIntactEnd (sgResult s)) rawLen (Some e)) None (sgCursor s) (sgAcc s))
      else (Some (ErrWrap "decode packed record" e), s)
  | Some (inr payload, rawLen) =>
      match handle (sgAcc s) payload with
      | (Some e, a) => (Some e, MkScanning (sgResult s) (sgPending s) (sgCursor s) a)
      | (None, a) =>
          let cursor := sgCursor s + rawLen in let r := sgResult s in
          (None, MkScanning (MkScan (scRecords r + 1) cursor (scTornTailBytes r) (scTornTailErr r)) None cursor a)
      end
  end.

Definition answer : Type := (GoError + packedShardScanResult) * A.

(** [if err := commitPending(asLast); err != nil { return packedShardScanResult{}, err }]. *)
Definition committed (asLast : bool) (s : scanning) (k : scanning -> answer) : answer :=
  match commitPending asLast s with (Some e, s) => (inl e, sgAcc s) | (None, s) => k s end.

Definition withPending (payload : bytes) (rawLen : Z) (s : scanning) : scanning :=
  MkScanning (sgResult s) (Some (decodePackedShardLine payload, rawLen)) (sgCursor s) (sgAcc s).

Definition torn (bytes : Z) (e : GoError) (s : scanning) : answer :=
  (inr (MkScan (scRecords (sgResult s)) (scLastIntactEnd (sgResult s)) bytes (Some e)), sgAcc s).

Definition notTerminated : GoError := ErrMsg "packed record not terminated by newline".
Definition tornTooLarge : GoError := ErrMsg "torn tail exceeds the line limit".
Definition recordTooLarge : GoError := ErrMsg "packed record exceeds the line limit".

Fixpoint scanLoop (fuel : nat) (fend : fileEnd) (data : bytes) (s : scanning) : answer :=
  match fuel with
  | O => (inl (ErrMsg "out of fuel"), sgAcc s)
  | S fuel =>
      let '(copied, status, rest) := ReadSlice data in
      match status, fend with
      | AtEnd, Some e => (inl e, sgAcc s)
      | BufferFull, _ =>
          match drainPackedLongLine (S (length rest)) fend copied (blen copied) (packedShardMaxLineBytes <? blen copied) rest with
          | inl e => (inl e, sgAcc s)
          | inr (fullLine, terminated, tooLarge, spanLen, rest) =>
              committed false s (fun s =>
                if (tooLarge : bool) && (terminated : bool) then (inl recordTooLarge, sgAcc s)
                else if negb terminated then torn spanLen (if tooLarge then tornTooLarge else notTerminated) s
                else scanLoop fuel fend rest (withPending (ztake (blen fullLine - 1) fullLine) (blen fullLine) s))
          end
      | AtEnd, None =>
          match copied with
          | [] => committed true s (fun s => (inr (sgResult s), sgAcc s))
          | _ =>
              committed false s (fun s =>
                torn (blen copied) (match decodePackedShardLine copied with inl e => e | inr _ => notTerminated end) s)
          end
      | Delim, _ =>
          let rawLen := blen copied in
          let payload := ztake (rawLen - 1) copied in
          match payload with
          | [] =>
              committed false s (fun s =>
                let r := sgResult s in let cursor := sgCursor s + rawLen in
                scanLoop fuel fend rest (MkScanning (MkScan (scRecords r) cursor (scTornTailBytes r) (scTornTailErr r)) (sgPending s) cursor (sgAcc s)))
          | _ => committed false s (fun s => scanLoop fuel fend rest (withPending payload rawLen s))
          end
      end
  end.

Definition scanPackedShard (fend : fileEnd) (data : bytes) (a : A) : answer :=
  scanLoop (S (length data)) fend data (MkScanning noScan None 0 a).

(** The same on the lines of the file. *)
Fixpoint scanLines (lines : list bytes) (rest : bytes) (s : scanning) : answer :=
  match lines with
  | [] =>
      match rest with
      | [] => committed true s (fun s => (inr (sgResult s), sgAcc s))
      | _ =>
          committed false s (fun s =>
            torn (blen rest)
              (if blen rest <? shardBuffer then match decodePackedShardLine rest with inl e => e | inr _ => notTerminated end
               else if packedShardMaxLineBytes <? blen rest then tornTooLarge else notTerminated) s)
      end
  | line :: lines =>
      committed false s (fun s =>
        if packedShardMaxLineBytes <? blen line + 1 then (inl recordTooLarge, sgAcc s)
        else match line with
             | [] =>
                 let r := sgResult s in let cursor := sgCursor s + 1 in
                 scanLines lines rest (MkScanning (MkScan (scRecords r) cursor (scTornTailBytes r) (scTornTailErr r)) (sgPending s) cursor (sgAcc s))
             | _ => scanLines lines rest (withPending line (blen line + 1) s)
             end)
  end.

(** ** Scanning is by lines *)

Lemma committed_ext b s k k' : (forall s, k s = k' s) -> committed b s k = committed b s k'.
Proof using Type. intros Hk. unfold committed. destruct (commitPending b s) as [[e|] s']; [done|apply Hk]. Qed.

Lemma scanLines_cons line lines rest s : line <> [] -> blen line + 1 <= packedShardMaxLineBytes ->
  scanLines (line :: lines) rest s = committed false s (fun s => scanLines lines rest (withPending line (blen line + 1) s)).
Proof using Type. intros Hne Hm. cbn. apply committed_ext. intros s'. rewrite (proj2 (Z.ltb_ge _ _)) by lia. by destruct line. Qed.

Lemma scan_full fuel p d s : nl ∉ p -> blen p = shardBuffer ->
  (forall data s, (length data < length (p ++ d))%nat -> scanLoop fuel None data s = scanLines (splitLines data).1 (splitLines data).2 s) ->
  match drainPackedLongLine (S (length d)) None p (blen p) (packedShardMaxLineBytes <? blen p) d with
  | inl e => (inl e, sgAcc s)
  | inr (fullLine, terminated, tooLarge, spanLen, rest) =>
      committed false s (fun s =>
        if (tooLarge : bool) && (terminated : bool) then (inl recordTooLarge, sgAcc s)
        else if negb terminated then torn spanLen (if tooLarge then tornTooLarge else notTerminated) s
        else scanLoop fuel None rest (withPending (ztake (blen fullLine - 1) fullLine) (blen fullLine) s))
  end = scanLines (splitLines (p ++ d)).1 (splitLines (p ++ d)).2 s.
Proof using Type.
  intros Hn Hp IH. destruct buffer_facts as [Hb Hm].
  pose proof (drain_ok (S (length d)) p d (Nat.lt_succ_diag_r _) _ (blen p) eq_refl) as Hd. pose proof (cutLine_inv d) as Hc.
  destruct (cutLine d) as [[line rest]|].
  - destruct Hd as (c & -> & Hl), Hc as [-> Hnl]. rewrite app_assoc, splitLines_line by set_solver. cbn [fst snd].
    assert (blen (p ++ line) = blen p + blen line) as Hlen by (unfold blen; rewrite length_app; lia).
    cbn [scanLines]. apply committed_ext. intros s'. rewrite Hlen. destruct (packedShardMaxLineBytes <? blen p + blen line + 1) eqn:E; [done|]. cbn.
    rewrite (Hl eq_refl). assert (blen (p ++ line ++ [nl]) = blen p + blen line + 1) as -> by (unfold blen in *; rewrite !length_app; cbn; lia).
    assert (ztake (blen p + blen line + 1 - 1) (p ++ line ++ [nl]) = p ++ line) as ->.
    { unfold ztake. rewrite app_assoc, take_app_le by (unfold blen in *; lia). apply take_ge. unfold blen in *. lia. }
    rewrite IH by (rewrite !length_app; cbn; lia). destruct (p ++ line) eqn:Epl; [|done]. cbn in Hlen. unfold blen in *. cbn in Hlen. lia.
  - destruct Hd as (c & ->). rewrite splitLines_rest by set_solver. cbn [fst snd scanLines].
    assert (blen (p ++ d) = blen p + blen d) as Hlen by (unfold blen; rewrite length_app; lia).
    destruct (p ++ d) eqn:Epd; [unfold blen in *; cbn in Hlen; lia|]. apply committed_ext. intros s'. rewrite andb_false_r, Hlen. cbn.
    by rewrite (proj2 (Z.ltb_ge (blen p + blen d) shardBuffer)) by (unfold blen in *; lia).
Qed.

(** The buffer of the reader does not show. *)
Lemma scan_by_lines fuel data s : (length data < fuel)%nat -> scanLoop fuel None data s = scanLines (splitLines data).1 (splitLines data).2 s.
Proof using Type.
  revert data s. induction fuel as [|fuel IH]; intros data s Hf; [lia|]. cbn [scanLoop]. destruct buffer_facts as [Hb Hm].
  destruct (ReadSlice_cases data) as [(line & rest & -> & Hn & Hs & ->)|[(p & d & -> & Hn & Hs & ->)|(Hn & Hs & ->)]].
  - assert (blen (line ++ [nl]) = blen line + 1) as -> by (unfold blen; rewrite length_app; cbn; lia).
    assert (ztake (blen line + 1 - 1) (line ++ [nl]) = line) as ->.
    { unfold ztake. rewrite take_app_le by (unfold blen; lia). apply take_ge. unfold blen. lia. }
    assert (length rest < fuel)%nat as Hr by (rewrite length_app in Hf; cbn in Hf; lia).
    rewrite splitLines_line by done. cbn [fst snd scanLines]. destruct line as [|b line]; apply committed_ext; intros s'; rewrite (proj2 (Z.ltb_ge _ _)) by lia; by rewrite IH.
  - apply scan_full; [done..|]. intros data s' Hd. apply IH. lia.
  - rewrite splitLines_rest by done. cbn [fst snd scanLines]. destruct data as [|b data]; [done|]. apply committed_ext. intros s'.
    by rewrite (proj2 (Z.ltb_lt _ _)) by lia.
Qed.

(** A file that cannot be read to its end is not scanned. *)
Definition refused (r : answer) : Prop := exists e, r.1 = inl e.

Lemma committed_refused b s k : (forall s, refused (k s)) -> refused (committed b s k).
Proof using Type. intros Hk. unfold committed. destruct (commitPending b s) as [[e|] s']; [by exists e|apply Hk]. Qed.

Lemma drain_terminated fuel e collected span large data c term large' span' rest :
  drainPackedLongLine fuel (Some e) collected span large data = inr (c, term, large', span', rest) -> term = true.
Proof using Type.
  revert collected span large data. induction fuel as [|fuel IH]; intros collected span large data; cbn; [done|].
  destruct (ReadSlice data) as [[chunk []] rest']; [by intros [= ? <-]|apply IH|done].
Qed.

Lemma scan_read_error e data a : refused (scanPackedShard (Some e) data a).
Proof using Type.
  unfold scanPackedShard. generalize (S (length data)), (MkScanning noScan None 0 a). intros fuel. revert data. induction fuel as [|fuel IH]; intros data s; [by eexists|].
  cbn [scanLoop]. destruct (ReadSlice data) as [[copied []] rest]; [| |by exists e].
  - destruct (ztake (blen copied - 1) copied); apply committed_refused; intros s'; apply IH.
  - destruct (drainPackedLongLine _ _ _ _ _ _) as [e'|[[[[c term] large] span] rest']] eqn:E; [by exists e'|]. apply drain_terminated in E as ->.
    apply committed_refused. intros s'. destruct large; cbn; [by eexists|apply IH].
Qed.

(** ** Intact records *)

Definition intact (p : bytes) : Prop := Valid p = true /\ (nl ∉ p) /\ blen p + 10 <= packedShardMaxLineBytes.

Definition at_ (n c : Z) (a : A) : scanning := MkScanning (MkScan n c 0 None) None c a.
Definition before (n c : Z) (a : A) (q : bytes) (r : Z) : scanning := MkScanning (MkScan n c 0 None) (Some (inr q, r)) c a.

(** The reader takes every payload. *)
Definition taken (a : A) (ps : list bytes) : A := foldl (fun a p => (handle a p).2) a ps.
Definition takes (ps : list bytes) : Prop := forall a p, p ∈ ps -> (handle a p).1 = None.

Lemma intact_small p : intact p -> Z.of_nat (length p) < 2 ^ 32.
Proof using Type. intros (_ & _ & Hm). unfold blen in Hm. assert (packedShardMaxLineBytes < 2 ^ 32) by done. lia. Qed.

Lemma decode_line p : Valid p = true -> Z.of_nat (length p) < 2 ^ 32 -> decodePackedShardLine (body p) = inr p.
Proof using Type.
  intros Hv Hs. destruct (hex8_ok (N.of_nat (length p)) ltac:(lia)) as [H8 Hp]. pose proof (body_length p Hs) as Hlen.
  unfold decodePackedShardLine, packedRecordLengthPrefixWidth. rewrite Hlen, (proj2 (Z.leb_le _ _)) by (unfold blen; lia).
  unfold body. rewrite bool_decide_eq_true_2 by (rewrite lookup_app_r, H8 by (rewrite H8; cbn; lia); done). cbn [andb].
  rewrite take_app_length' by (rewrite H8; done). rewrite Hp. change (Z.to_nat (8 + 1)) with 9%nat.
  change (hex8 (N.of_nat (length p)) ++ tab :: p) with (hex8 (N.of_nat (length p)) ++ [tab] ++ p). rewrite app_assoc.
  rewrite drop_app_length' by (rewrite length_app, H8; done). rewrite nat_N_Z. unfold blen. rewrite Z.eqb_refl, Hv. done.
Qed.

Lemma commit_before b n c a q r : (handle a q).1 = None ->
  commitPending b (before n c a q r) = (None, at_ (n + 1) (c + r) (handle a q).2).
Proof using Type. intros Hq. unfold commitPending, before. cbn. destruct (handle a q) as [e a']. cbn in Hq. by subst e. Qed.

Lemma pending_at n c a p r : intact p -> withPending (body p) r (at_ n c a) = before n c a p r.
Proof using Type. intros Hp. unfold withPending, before. by rewrite decode_line by (apply intact_small || apply Hp; done). Qed.

Lemma scan_before ps rest n c a q : Forall intact ps -> takes (q :: ps) -> forall r,
  scanLines (body <$> ps) rest (before n c a q r) =
  scanLines [] rest (at_ (n + 1 + Z.of_nat (length ps)) (c + r + blen (concat (encodePackedShardLine <$> ps))) (taken a (q :: ps))).
Proof using Type.
  revert n c a q. induction ps as [|p ps IH]; intros n c a q Hps Ht r.
  - cbn. rewrite !Z.add_0_r. destruct rest; unfold committed; rewrite commit_before by (apply Ht; by left); done.
  - apply Forall_cons in Hps as [Hp Hps]. pose proof Hp as (_ & _ & Hm). rewrite fmap_cons, scanLines_cons.
    2:{ unfold body. by destruct (hex8 _). }
    2:{ rewrite body_length by (apply intact_small; done). lia. }
    unfold committed. rewrite commit_before by (apply Ht; by left). rewrite pending_at by done.
    rewrite (IH (n + 1) (c + r)) by (done || (intros x y Hy; apply Ht; set_solver)).
    f_equal. cbn [length taken foldl]. rewrite fmap_cons. cbn [concat]. f_equal; [lia|].
    rewrite encode_body. unfold blen. rewrite !length_app. cbn [length]. lia.
Qed.

Lemma scan_at ps rest a : Forall intact ps -> takes ps -> scanLines (body <$> ps) rest (at_ 0 0 a) =
  scanLines [] rest (at_ (Z.of_nat (length ps)) (blen (concat (encodePackedShardLine <$> ps))) (taken a ps)).
Proof using Type.
  intros Hps Ht. destruct ps as [|p ps]; [done|]. pose proof Hps as [Hp Hps']%Forall_cons. pose proof Hp as (_ & _ & Hm). rewrite fmap_cons, scanLines_cons.
  2:{ unfold body. by destruct (hex8 _). }
  2:{ rewrite body_length by (apply intact_small; done). lia. }
  unfold committed. cbn [commitPending at_ sgPending]. fold (at_ 0 0 a). rewrite pending_at by done.
  rewrite (scan_before ps rest 0 0) by done. f_equal. rewrite fmap_cons, encode_body. unfold blen. cbn [concat length]. rewrite !length_app. cbn [length].
  f_equal; lia.
Qed.

Lemma split_shard ps rest : Forall intact ps -> nl ∉ rest -> splitLines (concat (encodePackedShardLine <$> ps) ++ rest) = (body <$> ps, rest).
Proof using Type.
  intros Hps Hr. induction Hps as [|p ps (Hv & Hn & Hm) Hps IH]; [by apply splitLines_rest|].
  rewrite !fmap_cons. cbn [concat]. rewrite encode_body, <- !app_assoc. cbn [app]. rewrite splitLines_line by (by apply body_no_nl). by rewrite IH.
Qed.

(** A shard of intact records and an unfinished line. *)
Lemma scan_shard ps rest a : Forall intact ps -> takes ps -> nl ∉ rest -> exists e,
  scanPackedShard None (concat (encodePackedShardLine <$> ps) ++ rest) a =
  (inr (MkScan (Z.of_nat (length ps)) (blen (concat (encodePackedShardLine <$> ps))) (blen rest) e), taken a ps) /\ (rest = [] <-> e = None).
Proof using Type.
  intros Hps Ht Hr. unfold scanPackedShard. rewrite scan_by_lines, split_shard by (done || lia). cbn [fst snd].
  change (MkScanning noScan None 0 a) with (at_ 0 0 a). rewrite scan_at by done. cbn [scanLines].
  destruct rest as [|b rest]; eexists; (split; [reflexivity|done]).
Qed.
End scan.

End lines.
End Shard.
