(* ===== verification/ShardFiles.v ===== *)
(** * Compaction and repair of packed shards: [filestore/maintenance.go],
    [filestore/verify.go] and the end of [filestore/packed_store.go]

    One shard at a time, on a disk whose every operation can fail, with a read or a
    write that stops half-way; the messages of findings are left empty.  [json.Valid] and the key of a record
    ([dedupKeyFunc]) are arguments, as in [compactOneShard]. *)

From stdpp Require Import options.
From S2P Require Import Prelude GoLib GoText Contracts Chunker Meta Jobs PackedShard.
From Stdlib Require Import Strings.Byte.

Module ShardFiles.
Import Shard.
Local Open Scope Z_scope.

(** ** Data *)

Record CompactReport := MkCompact {
  coSourceIndexes : Z; coCompoundParentIndexes : Z; coRecoverySidecars : Z; coRemovedFiles : Z; coRemovedDirs : Z;
  coShardsCompacted : Z; coDuplicatesRemoved : Z; coDryRun : bool }.

Record VerifyFinding := MkFinding { vfDigest : ObjectDigest; vfPath : string; vfCode : string; vfMessage : string }.
Record VerifyReport := MkVerify { vrStatus : string; vrFindings : list VerifyFinding; vrChecked : Z; vrRepaired : Z }.

(** The files, what the disk will do, and the two reports. *)
Record shards := MkShards { shFiles : gmap string bytes; shFaults : list fault; shCompact : CompactReport; shVerify : VerifyReport }.

Definition setFiles (f : gmap string bytes) (w : shards) : shards := MkShards f (shFaults w) (shCompact w) (shVerify w).
Definition setCompact (c : CompactReport) (w : shards) : shards := MkShards (shFiles w) (shFaults w) c (shVerify w).
Definition setVerify (v : VerifyReport) (w : shards) : shards := MkShards (shFiles w) (shFaults w) (shCompact w) v.

(** ** Files *)

Definition nextFault : SM shards fault := fun w =>
  match shFaults w with [] => (Ok FOk, w) | f :: r => (Ok f, MkShards (shFiles w) r (shCompact w) (shVerify w)) end.

(** An operation without a result: [Close], [Sync], [fsyncDir], [flockExclusive]. *)
Definition dio : SM shards unit := f ← nextFault; match f with FOk => mret tt | FErr m | FShort _ m => sfail (ErrMsg m) end.

(** [os.OpenFile] of a file that must be there. *)
Definition openExisting (path : string) : SM shards bytes :=
  _ ← dio; files ← sget shFiles;
  match files !! path with Some data => mret data | None => sfail ErrNotExist end.

(** Opening a file and reading it to its end, or to the first error. *)
Definition readShard (path : string) : SM shards (bytes * fileEnd) :=
  data ← openExisting path; f ← nextFault;
  mret (match f with FOk => (data, None) | FErr m => ([], Some (ErrMsg m)) | FShort n m => (take n data, Some (ErrMsg m)) end).

Definition truncateTo (path : string) (size : Z) : SM shards unit :=
  _ ← dio; smodify (fun w => setFiles (alter (ztake size) path (shFiles w)) w).

(** [os.OpenFile] with [O_CREATE] and [O_TRUNC]. *)
Definition createFile (path : string) : SM shards unit := _ ← dio; smodify (fun w => setFiles (<[path := []]> (shFiles w)) w).

(** [file.Write]; how much of it a failing disk took shows in the new file only. *)
Definition writeTo (path : string) (data : bytes) : SM shards unit :=
  f ← nextFault;
  let append d := smodify (fun w => setFiles (alter (fun old => old ++ d) path (shFiles w)) w) in
  match f with FOk => append data | FErr m => sfail (ErrMsg m) | FShort n m => _ ← append (take n data); sfail (ErrMsg m) end.

(** [bufio.Writer]: what does not fit fills the buffer and empties it into the
    file; with an empty buffer a large write goes there directly. *)
Definition bufioSize : Z := 4096.

Definition bufWrite (path : string) (buf data : bytes) : SM shards bytes :=
  if blen data <=? bufioSize - blen buf then mret (buf ++ data) else
  match buf with
  | [] => _ ← writeTo path data; mret []
  | _ =>
      let room := bufioSize - blen buf in
      _ ← writeTo path (buf ++ ztake room data);
      let data := zdrop room data in
      if blen data <=? bufioSize then mret data else _ ← writeTo path data; mret []
  end.

Definition bufFlush (path : string) (buf : bytes) : SM shards unit :=
  match buf with [] => mret tt | _ => writeTo path buf end.

Definition renameFile (from to : string) : SM shards unit :=
  _ ← dio; files ← sget shFiles;
  match files !! from with
  | Some data => smodify (fun w => setFiles (<[to := data]> (delete from files)) w)
  | None => sfail ErrNotExist
  end.

Definition removeFile (path : string) : SM shards unit := _ ← dio; smodify (fun w => setFiles (delete path (shFiles w)) w).

(** ** Deduplication *)

Section dedup.
Variable keyFn : bytes -> GoError + string.

(** [seen], [ordered] and [seq]. *)
Record dedup := MkDedup { ddSeen : gmap string (bytes * Z); ddOrdered : list string; ddSeq : Z }.

Definition dedupRecord (d : dedup) (payload : bytes) : option GoError * dedup :=
  match keyFn payload with
  | inl e => (Some e, d)
  | inr key =>
      let line := encodePackedShardLine payload in
      (None, match ddSeen d !! key with
             | Some prev => MkDedup (<[key := (line, prev.2)]> (ddSeen d)) (ddOrdered d) (ddSeq d)
             | None => MkDedup (<[key := (line, ddSeq d)]> (ddSeen d)) (ddOrdered d ++ [key]) (ddSeq d + 1)
             end)
  end.

Definition recordLine (d : dedup) (key : string) : bytes := from_option fst [] (ddSeen d !! key).

Definition keyOf (payload : bytes) : string := match keyFn payload with inr k => k | inl _ => "" end.
Definition lastOf (k : string) (ps : list bytes) : option bytes := last (filter (fun p => keyOf p = k) ps).

Record dedup_inv (ps : list bytes) (d : dedup) : Prop := {
  dd_seen : forall k, fst <$> ddSeen d !! k = encodePackedShardLine <$> lastOf k ps;
  dd_nodup : NoDup (ddOrdered d);
  dd_ordered : forall k, k ∈ ddOrdered d <-> is_Some (lastOf k ps);
  dd_size : size (ddSeen d) = length (ddOrdered d) }.

Lemma lastOf_snoc k ps p : lastOf k (ps ++ [p]) = if decide (keyOf p = k) then Some p else lastOf k ps.
Proof using Type. unfold lastOf. rewrite filter_app, filter_cons, filter_nil. case_decide; [by rewrite last_snoc|by rewrite app_nil_r]. Qed.

Lemma lastOf_key k ps p : lastOf k ps = Some p -> keyOf p = k /\ p ∈ ps.
Proof using Type. unfold lastOf. intros [Hk Hp]%last_Some_elem_of%list_elem_of_filter. done. Qed.

Lemma lastOf_Some p ps : lastOf (keyOf p) ps = Some p <-> exists ps1 ps2, ps = ps1 ++ p :: ps2 /\ forall q, q ∈ ps2 -> keyOf q <> keyOf p.
Proof using Type.
  split.
  - induction ps as [|x ps IH] using rev_ind; [done|]. rewrite lastOf_snoc. case_decide as Hx.
    + intros [= ->]. exists ps, []. split; [done|set_solver].
    + intros (ps1 & ps2 & -> & H2)%IH. exists ps1, (ps2 ++ [x]). split; [by rewrite <- app_assoc|]. intros q [Hq| ->%list_elem_of_singleton]%elem_of_app; [by apply H2|done].
  - intros (ps1 & ps2 & -> & H2). induction ps2 as [|x ps2 IH] using rev_ind; [by rewrite lastOf_snoc, decide_True|].
    change (ps1 ++ p :: ps2 ++ [x]) with (ps1 ++ (p :: ps2) ++ [x]). rewrite app_assoc, lastOf_snoc, decide_False by (apply H2; set_solver). apply IH. set_solver.
Qed.

Lemma dedup_step ps d p : dedup_inv ps d -> keyFn p = inr (keyOf p) -> dedup_inv (ps ++ [p]) (dedupRecord d p).2.
Proof using Type.
  intros [Hs Hn Ho Hz] Hk. unfold dedupRecord. rewrite Hk. set (k := keyOf p). cbn [snd].
  pose proof (Hs k) as Hsk. destruct (ddSeen d !! k) as [[line i]|] eqn:E; cbn in Hsk.
  - assert (is_Some (lastOf k ps)) as Hl by (destruct (lastOf k ps); [eauto|done]). split; cbn.
    + intros x. rewrite lastOf_snoc. fold k. case_decide as Hx; [subst x; by rewrite lookup_insert_eq|by rewrite lookup_insert_ne by done].
    + done.
    + intros x. rewrite lastOf_snoc, Ho. fold k. case_decide as Hx; [subst x; split; eauto|done].
    + by rewrite map_size_insert_Some by eauto.
  - assert (lastOf k ps = None) as Hl by (destruct (lastOf k ps); done). split; cbn.
    + intros x. rewrite lastOf_snoc. fold k. case_decide as Hx; [subst x; by rewrite lookup_insert_eq|by rewrite lookup_insert_ne by done].
    + apply NoDup_app. split_and!; [done| |apply NoDup_singleton]. intros x Hx ->%list_elem_of_singleton. apply Ho in Hx as [? ?]. congruence.
    + intros x. rewrite lastOf_snoc, elem_of_app, list_elem_of_singleton, Ho. fold k. case_decide as Hx; [subst x; split; eauto|]. split; [intros [?|?]; [done|congruence]|by left].
    + rewrite map_size_insert_None, Hz, length_app by done. cbn. lia.
Qed.

Definition keyed (ps : list bytes) : Prop := forall p, p ∈ ps -> keyFn p = inr (keyOf p).

Lemma dedup_run ps : keyed ps -> dedup_inv ps (taken dedupRecord (MkDedup ∅ [] 0) ps).
Proof using Type.
  induction ps as [|p ps IH] using rev_ind; intros Hk.
  - split; cbn; [done|apply NoDup_nil_2| |done]. intros k. rewrite elem_of_nil. split; [done|by intros [? ?]].
  - unfold taken. rewrite foldl_app. cbn [foldl]. apply dedup_step; [|apply Hk; set_solver]. apply IH. intros q Hq. apply Hk. set_solver.
Qed.

(** What a compacted shard holds: the last record of every key. *)
Definition latest (ps : list bytes) (out : list bytes) : Prop :=
  NoDup (keyOf <$> out) /\ forall p, p ∈ out <-> exists ps1 ps2, ps = ps1 ++ p :: ps2 /\ forall q, q ∈ ps2 -> keyOf q <> keyOf p.

Definition compactedBytes (d : dedup) : bytes := concat (recordLine d <$> ddOrdered d).

Lemma dedup_latest ps d : dedup_inv ps d -> exists out, latest ps out /\ compactedBytes d = concat (encodePackedShardLine <$> out) /\
  length out = length (ddOrdered d).
Proof using Type.
  intros [Hs Hn Ho _]. exists (omap (fun k => lastOf k ps) (ddOrdered d)).
  assert (forall l, (forall k, k ∈ l -> is_Some (lastOf k ps)) -> keyOf <$> omap (fun k => lastOf k ps) l = l /\
    concat (recordLine d <$> l) = concat (encodePackedShardLine <$> omap (fun k => lastOf k ps) l)) as Hl.
  { induction l as [|k l IH]; intros Hk; [done|]. destruct (Hk k) as [p Hp]; [by left|]. destruct IH as [IH1 IH2]; [intros x Hx; apply Hk; by right|].
    cbn. rewrite Hp. cbn. rewrite IH1, IH2. destruct (lastOf_key _ _ _ Hp) as [-> _]. split; [done|]. f_equal.
    unfold recordLine. pose proof (Hs k) as Hsk. rewrite Hp in Hsk. destruct (ddSeen d !! k); by simplify_eq/=. }
  destruct (Hl (ddOrdered d)) as [H1 H2]; [by intros k Hk%Ho|]. split_and!; [|done|].
  - split; [by rewrite H1|]. intros p. rewrite <- lastOf_Some, list_elem_of_omap. split.
    + intros (k & Hk & Hp). by destruct (lastOf_key _ _ _ Hp) as [-> _].
    + intros Hp. exists (keyOf p). split; [|done]. apply Ho. eauto.
  - apply (f_equal length) in H1. by rewrite length_fmap in H1.
Qed.

(** A shard in which every key has one record is compact already. *)
Lemma distinct_latest ps d : dedup_inv ps d -> (length ps <= length (ddOrdered d))%nat -> latest ps ps.
Proof using Type.
  intros [Hs Hn Ho _] Hlen. assert (NoDup (keyOf <$> ps)) as Hnd.
  { apply NoDup_ListNoDup. eapply NoDup_incl_NoDup with (l := ddOrdered d); [by apply NoDup_ListNoDup|by rewrite length_fmap|].
    intros k Hk%list_elem_of_In. apply Ho in Hk as [p [<- Hp]%lastOf_key]. apply list_elem_of_In. by apply list_elem_of_fmap_2. }
  split; [done|]. intros p. split; [|intros (ps1 & ps2 & -> & _); set_solver].
  intros (ps1 & ps2 & ->)%list_elem_of_split. exists ps1, ps2. split; [done|]. intros q Hq E.
  rewrite fmap_app, fmap_cons in Hnd. apply NoDup_app in Hnd as (_ & _ & Hnd%NoDup_cons). destruct Hnd as [Hnot _]. apply Hnot. rewrite <- E. by apply list_elem_of_fmap_2.
Qed.
End dedup.

(** ** Operations *)

Section operations.
Variable Valid : bytes -> bool.

Definition addFinding (digest : ObjectDigest) (path code message : string) : SM shards unit :=
  smodify (fun w => let v := shVerify w in
    setVerify (MkVerify (vrStatus v) (vrFindings v ++ [MkFinding digest path code message]) (vrChecked v) (vrRepaired v)) w).
Definition addChecked (n : Z) : SM shards unit :=
  smodify (fun w => let v := shVerify w in setVerify (MkVerify (vrStatus v) (vrFindings v) (vrChecked v + n) (vrRepaired v)) w).
Definition addRepaired : SM shards unit :=
  smodify (fun w => let v := shVerify w in setVerify (MkVerify (vrStatus v) (vrFindings v) (vrChecked v) (vrRepaired v + 1)) w).

Definition truncatePackedShardTornTail (path : string) (lastIntactEnd : Z) : SM shards unit :=
  _ ← openExisting path;
  _ ← dio;
  _ ← truncateTo path lastIntactEnd;
  _ ← dio;
  dio.

(** [scanPackedShard] on the disk; [handle] has run also when the scan fails. *)
Definition scanFile {A} (handle : A -> bytes -> option GoError * A) (path : string) (a : A) :
    SM shards ((GoError + packedShardScanResult) * A) :=
  r ← stry (readShard path);
  mret (match r with inl e => (inl e, a) | inr (data, fend) => scanPackedShard Valid handle fend data a end).

Definition countRecord (n : Z) (payload : bytes) : option GoError * Z := (None, n + 1).

Definition verifyOnePackedShard (repair : bool) (path tier : string) : SM shards unit :=
  r ← scanFile countRecord path 0;
  _ ← addChecked r.2;
  match r.1 with
  | inl e => addFinding "" path (tier +:+ "_shard_corrupt") ""
  | inr result =>
      if 0 <? scTornTailBytes result then
        _ ← addFinding "" path (tier +:+ "_torn_tail") "";
        if repair : bool then
          t ← stry (truncatePackedShardTornTail path (scLastIntactEnd result));
          match t with inl e => addFinding "" path (tier +:+ "_repair_failed") "" | inr _ => addRepaired end
        else mret tt
      else mret tt
  end.

Variable keyFn : bytes -> GoError + string.

(** [defer] while [cleanup] is set. *)
Definition cleaning (nextPath : string) (m : SM shards unit) : SM shards unit :=
  r ← stry m;
  match r with inl e => _ ← stry dio; _ ← stry (removeFile nextPath); sfail e | inr _ => mret tt end.

Definition countCompacted (duplicates : Z) : SM shards unit :=
  smodify (fun w => let c := shCompact w in setCompact (MkCompact (coSourceIndexes c) (coCompoundParentIndexes c) (coRecoverySidecars c)
    (coRemovedFiles c) (coRemovedDirs c) (coShardsCompacted c + 1) (coDuplicatesRemoved c + duplicates) (coDryRun c)) w).

Definition compactOneShard (path : string) (dryRun : bool) : SM shards unit :=
  _ ← (if dryRun then mret tt else _ ← openExisting path; dio);
  r ← scanFile (dedupRecord keyFn) path (MkDedup ∅ [] 0);
  match r.1 with
  | inl e => sfail e
  | inr result =>
      let duplicates := scRecords result - Z.of_nat (size (ddSeen r.2)) in
      if (duplicates <=? 0) && (scTornTailBytes result =? 0) then mret tt else
      _ ← countCompacted duplicates;
      if dryRun : bool then mret tt else
      let nextPath := path +:+ ".next" in
      _ ← swrap "create compacted shard" (createFile nextPath);
      _ ← cleaning nextPath (
        buf ← sforM (ddOrdered r.2) [] (fun buf key => swrap "write compacted record" (bufWrite nextPath buf (recordLine r.2 key)));
        _ ← swrap "flush compacted shard" (bufFlush nextPath buf);
        _ ← swrap "fsync compacted shard" dio;
        swrap "close compacted shard" dio);
      _ ← swrap "rename compacted shard" (renameFile nextPath path);
      dio
  end.


(** ** Faults *)

(** Nothing on the disk changed, and a good disk stays good. *)
Definition quiet (w w' : shards) : Prop :=
  shFiles w' = shFiles w /\ shCompact w' = shCompact w /\ shVerify w' = shVerify w /\ (shFaults w = [] -> shFaults w' = []).

Lemma quiet_refl w : quiet w w.
Proof using Type. done. Qed.
Lemma quiet_trans w1 w2 w3 : quiet w1 w2 -> quiet w2 w3 -> quiet w1 w3.
Proof using Type. intros (A1 & B1 & C1 & D1) (A2 & B2 & C2 & D2). split_and!; [congruence..|auto]. Qed.

Lemma fault_post w (Q : GoError + fault -> shards -> Prop) :
  (forall f w', quiet w w' -> (shFaults w = [] -> f = FOk) -> Q (inr f) w') -> post nextFault w Q.
Proof using Type. intros H. unfold post, nextFault. destruct (shFaults w) as [|f r] eqn:E; (apply H; [split_and!|]); try done; congruence. Qed.

Lemma dio_post w (Q : GoError + unit -> shards -> Prop) :
  (forall r w', quiet w w' -> (shFaults w = [] -> r = inr tt) -> Q r w') -> post dio w Q.
Proof using Type.
  intros H. apply post_bind, fault_post. intros f w' Hq Hf. destruct f; apply H; try done; intros E; by apply Hf in E.
Qed.

Lemma post_get {X B} (f : shards -> X) (k : X -> SM shards B) w Q : post (k (f w)) w Q -> post (sget f ≫= k) w Q.
Proof using Type. done. Qed.

Lemma post_modify {B} (f : shards -> shards) (k : unit -> SM shards B) w Q : post (k tt) (f w) Q -> post (smodify f ≫= k) w Q.
Proof using Type. done. Qed.

Lemma open_post w path data (Q : GoError + bytes -> shards -> Prop) : shFiles w !! path = Some data ->
  (forall r w', quiet w w' -> (forall d, r = inr d -> d = data) -> (shFaults w = [] -> r = inr data) -> Q r w') -> post (openExisting path) w Q.
Proof using Type.
  intros Hd H. apply post_bind, dio_post. intros [e|[]] w' Hq Hf; [apply H; try done; intros E; by apply Hf in E|].
  apply post_get. rewrite (proj1 Hq), Hd. apply post_ret, H; [done| |done]. by intros d [= <-].
Qed.

Lemma read_post w path data (Q : GoError + (bytes * fileEnd) -> shards -> Prop) : shFiles w !! path = Some data ->
  (forall r w', quiet w w' -> (forall d, r = inr (d, None) -> d = data) -> (shFaults w = [] -> r = inr (data, None)) -> Q r w') -> post (readShard path) w Q.
Proof using Type.
  intros Hd H. apply post_bind, (open_post w path data); [done|]. intros [e|d] w' Hq Hr Hf; [apply H; try done; intros E; by apply Hf in E|].
  rewrite (Hr d eq_refl). apply post_bind, fault_post. intros f w2 Hq2 Hf2. apply post_ret, H.
  - by eapply quiet_trans.
  - intros d'. destruct f; by intros [= <-].
  - intros E. by rewrite Hf2 by (by apply Hq).
Qed.

Lemma scan_post {A} (handle : A -> bytes -> option GoError * A) w path a data (Q : GoError + ((GoError + packedShardScanResult) * A) -> shards -> Prop) :
  shFiles w !! path = Some data ->
  (forall r w', quiet w w' -> (refused r \/ r = scanPackedShard Valid handle None data a) -> (shFaults w = [] -> r = scanPackedShard Valid handle None data a) -> Q (inr r) w') ->
  post (scanFile handle path a) w Q.
Proof using Type.
  intros Hd H. apply post_bind, post_try, (read_post w path data); [done|]. intros [e|[d fend]] w' Hq Hr Hf; apply post_ret, H; try done.
  - left. by exists e.
  - intros E. by apply Hf in E.
  - destruct fend as [e|]; [left; apply scan_read_error|right; by rewrite (Hr d eq_refl)].
  - intros E. by injection (Hf E) as -> ->.
Qed.

(** Only file [nx] changed. *)
Definition near (nx : string) (w w' : shards) : Prop :=
  (forall q, q <> nx -> shFiles w' !! q = shFiles w !! q) /\ (shFaults w = [] -> shFaults w' = []).

Lemma near_trans nx w1 w2 w3 : near nx w1 w2 -> near nx w2 w3 -> near nx w1 w3.
Proof using Type. intros [A1 D1] [A2 D2]. split; [|auto]. intros q Hq. by rewrite A2, A1. Qed.
Lemma quiet_near nx w w' : quiet w w' -> near nx w w'.
Proof using Type. intros (A & _ & _ & D). split; [|done]. intros q _. by rewrite A. Qed.
Lemma near_files nx f w w' : quiet w w' -> (forall q, q <> nx -> f !! q = shFiles w !! q) -> near nx w (setFiles f w').
Proof using Type. intros (A & _ & _ & D) Hf. by split. Qed.

Lemma create_post nx w (Q : GoError + unit -> shards -> Prop) :
  (forall r w', near nx w w' -> (r = inr tt -> shFiles w' !! nx = Some []) -> (shFaults w = [] -> r = inr tt) -> Q r w') -> post (createFile nx) w Q.
Proof using Type.
  intros H. apply post_bind, dio_post. intros [e|[]] w' Hq Hf; [apply H; [by apply quiet_near|done|done]|].
  apply H; [|cbn; by rewrite lookup_insert_eq|done]. apply near_files; [done|]. intros q Hne. rewrite lookup_insert_ne by done. by rewrite (proj1 Hq).
Qed.

Lemma append_near nx d w w' : quiet w w' -> near nx w (setFiles (alter (fun old => old ++ d) nx (shFiles w')) w').
Proof using Type. intros Hq. apply near_files; [done|]. intros q Hne. rewrite lookup_alter_ne by done. by rewrite (proj1 Hq). Qed.

Lemma write_post nx data old w (Q : GoError + unit -> shards -> Prop) : shFiles w !! nx = Some old ->
  (forall r w', near nx w w' -> (r = inr tt -> shFiles w' !! nx = Some (old ++ data)) -> (shFaults w = [] -> r = inr tt) -> Q r w') -> post (writeTo nx data) w Q.
Proof using Type.
  intros Ho H. apply post_bind, fault_post. intros f w' Hq Hf. destruct f as [|m|n m].
  - apply H; [by apply append_near| |done]. intros _. cbn. by rewrite lookup_alter_eq, (proj1 Hq), Ho.
  - apply H; [by apply quiet_near|done|]. intros E. by apply Hf in E.
  - apply H; [by apply append_near|done|]. intros E. by apply Hf in E.
Qed.

Lemma quiet_io_post msg nx w0 w (Q : GoError + unit -> shards -> Prop) : near nx w0 w ->
  (forall r w', near nx w0 w' -> shFiles w' = shFiles w -> (shFaults w0 = [] -> r = inr tt) -> Q r w') -> post (swrap msg dio) w Q.
Proof using Type.
  intros Hn H. apply post_wrap, dio_post. intros [e|[]] w' Hq Hf; apply H; try (apply (near_trans _ _ _ _ Hn), quiet_near, Hq); try apply Hq; [|done].
  intros E. apply Hn in E. by apply Hf in E.
Qed.

(** The file and the buffer together grow by the data. *)
Lemma bufWrite_post nx buf data old w (Q : GoError + bytes -> shards -> Prop) : shFiles w !! nx = Some old ->
  (forall r w', near nx w w' -> (forall buf', r = inr buf' -> exists new, shFiles w' !! nx = Some new /\ new ++ buf' = old ++ buf ++ data) ->
     (shFaults w = [] -> exists buf', r = inr buf') -> Q r w') -> post (bufWrite nx buf data) w Q.
Proof using Type.
  intros Ho H. unfold bufWrite. destruct (_ <=? _); [|destruct buf as [|x buf]].
  - apply post_ret, H; [apply quiet_near, quiet_refl| |eauto]. intros ? [= <-]. by exists old.
  - apply post_bind, (write_post _ _ _ _ _ Ho). intros [e|[]] w1 Hn1 Hok Hf; [apply H; [done|done|intros E; by apply Hf in E]|].
    apply post_ret, H; [done| |eauto]. intros ? [= <-]. exists (old ++ data). split; [by apply Hok|]. by rewrite app_nil_r.
  - set (room := bufioSize - _). apply post_bind, (write_post _ _ _ _ _ Ho).
    intros [e|[]] w1 Hn1 Hok Hf; [apply H; [done|done|intros E; by apply Hf in E]|]. specialize (Hok eq_refl).
    assert (ztake room data ++ zdrop room data = data) as Hsplit by apply take_drop.
    destruct (_ <=? _).
    + apply post_ret, H; [done| |eauto]. intros ? [= <-]. eexists. split; [exact Hok|]. by rewrite <- !app_assoc, Hsplit.
    + apply post_bind, (write_post _ _ _ _ _ Hok). intros [e|[]] w2 Hn2 Hok2 Hf2.
      { apply H; [by eapply near_trans|done|]. intros E. apply Hn1 in E. by apply Hf2 in E. }
      apply post_ret, H; [by eapply near_trans| |eauto]. intros ? [= <-]. eexists. split; [by apply Hok2|].
      by rewrite app_nil_r, <- !app_assoc, Hsplit.
Qed.

Lemma bufFlush_post nx buf old w (Q : GoError + unit -> shards -> Prop) : shFiles w !! nx = Some old ->
  (forall r w', near nx w w' -> (r = inr tt -> shFiles w' !! nx = Some (old ++ buf)) -> (shFaults w = [] -> r = inr tt) -> Q r w') ->
  post (bufFlush nx buf) w Q.
Proof using Type.
  intros Ho H. destruct buf as [|x buf]; [|by apply (write_post _ _ _ _ _ Ho)].
  apply post_ret, H; [apply quiet_near, quiet_refl|by rewrite app_nil_r|done].
Qed.

(** The loop that writes the new file, and what follows it. *)
Lemma write_new_post nx (line : string -> bytes) keys w (Q : GoError + unit -> shards -> Prop) : shFiles w !! nx = Some [] ->
  (forall r w', near nx w w' -> (r = inr tt -> shFiles w' !! nx = Some (concat (line <$> keys))) -> (shFaults w = [] -> r = inr tt) -> Q r w') ->
  post (cleaning nx (buf ← sforM keys [] (fun buf key => swrap "write compacted record" (bufWrite nx buf (line key)));
    _ ← swrap "flush compacted shard" (bufFlush nx buf); _ ← swrap "fsync compacted shard" dio; swrap "close compacted shard" dio)) w Q.
Proof using Type.
  intros Hw H. apply post_bind, post_try.
  assert (forall e w', near nx w w' -> (shFaults w = [] -> False) -> post (_ ← stry dio; _ ← stry (removeFile nx); sfail e) w' Q) as Hfail.
  { intros e w' Hn Hf. apply post_bind, post_try, dio_post. intros r1 w1 Hq1 _. apply post_bind, post_try, post_bind, dio_post.
    intros r2 w2 Hq2 _. pose proof (quiet_trans _ _ _ Hq1 Hq2) as Hq. destruct r2 as [e2|[]]; (apply H; [|done|by intros E%Hf]).
    - by apply (near_trans _ _ _ _ Hn), quiet_near.
    - apply (near_trans _ _ _ _ Hn), near_files; [done|]. intros q Hne. rewrite lookup_delete_ne by done. by rewrite (proj1 Hq). }
  apply post_bind. eapply (post_sforM _ _ _ _ (fun done buf w' => near nx w w' /\
    exists new, shFiles w' !! nx = Some new /\ new ++ buf = concat (line <$> done))).
  - split; [apply quiet_near, quiet_refl|by exists []].
  - intros ls buf key w1 _ [Hn (new & Hc & Hcat)]. apply post_wrap, (bufWrite_post _ _ _ _ _ _ Hc). intros [e|buf'] w2 Hn2 Hok Hf.
    + apply Hfail; [by eapply near_trans|]. intros E. apply Hn in E. by destruct (Hf E).
    + split; [by eapply near_trans|]. destruct (Hok buf' eq_refl) as (new' & Hc' & Hcat'). exists new'. split; [done|].
      rewrite Hcat', app_assoc, Hcat, fmap_app, concat_app. cbn. by rewrite app_nil_r.
  - intros buf w1 [Hn (new & Hc & Hcat)]. apply post_bind, post_wrap, (bufFlush_post _ _ _ _ _ Hc). rewrite Hcat.
    intros [e|[]] w2 Hn2' Hs2 Hf2; [apply Hfail; [by eapply near_trans|intros E; apply Hn in E; by apply Hf2 in E]|].
    assert (near nx w w2) as Hn2 by by eapply near_trans.
    apply post_bind, (quiet_io_post _ nx w); [done|]. intros [e|[]] w3 Hn3 Hs3 Hf3; [apply Hfail; [done|intros E; by apply Hf3 in E]|].
    apply (quiet_io_post _ nx w); [done|]. intros [e|[]] w4 Hn4 Hs4 Hf4; [apply Hfail; [done|intros E; by apply Hf4 in E]|].
    apply H; [done| |done]. intros _. rewrite Hs4, Hs3. by apply Hs2.
Qed.

Lemma rename_post from to data w0 w (Q : GoError + unit -> shards -> Prop) : from <> to -> near from w0 w -> shFiles w !! from = Some data ->
  (forall r w', (forall q, q <> from -> q <> to -> shFiles w' !! q = shFiles w0 !! q) ->
     (shFiles w' !! to = shFiles w0 !! to \/ shFiles w' !! to = Some data) ->
     (r = inr tt -> shFiles w' !! to = Some data) -> (shFaults w0 = [] -> r = inr tt /\ shFaults w' = []) -> Q r w') ->
  post (renameFile from to) w Q.
Proof using Type.
  intros Hne Hn Hd H. apply post_bind, dio_post. intros [e|[]] w' Hq Hf.
  - apply H; [|left|done|]; rewrite ?(proj1 Hq).
    + intros q Hq1 _. by apply Hn.
    + by apply Hn.
    + intros E. apply Hn in E. by apply Hf in E.
  - apply post_get. rewrite (proj1 Hq), Hd. apply H; cbn.
    + intros q Hq1 Hq2. rewrite lookup_insert_ne, lookup_delete_ne by done. by apply Hn.
    + right. by rewrite lookup_insert_eq.
    + intros _. by rewrite lookup_insert_eq.
    + intros E. split; [done|]. by apply Hq, Hn.
Qed.

(** ** Compaction *)

Lemma next_ne (path : string) : path +:+ ".next" <> path.
Proof using Type.
  induction path as [|c path IH]; [done|]. intros [= E]. by apply IH.
Qed.

(** From the count to the end, on a shard that needs it. *)
Lemma rewrite_post path d w (Q : GoError + unit -> shards -> Prop) :
  (forall r w', (forall q, q <> path +:+ ".next" -> q <> path -> shFiles w' !! q = shFiles w !! q) ->
     (shFiles w' !! path = shFiles w !! path \/ shFiles w' !! path = Some (compactedBytes d)) ->
     (r = inr tt -> shFiles w' !! path = Some (compactedBytes d)) -> (shFaults w = [] -> r = inr tt) -> Q r w') ->
  post (
    let nextPath := path +:+ ".next" in
    _ ← swrap "create compacted shard" (createFile nextPath);
    _ ← cleaning nextPath (
      buf ← sforM (ddOrdered d) [] (fun buf key => swrap "write compacted record" (bufWrite nextPath buf (recordLine d key)));
      _ ← swrap "flush compacted shard" (bufFlush nextPath buf);
      _ ← swrap "fsync compacted shard" dio;
      swrap "close compacted shard" dio);
    _ ← swrap "rename compacted shard" (renameFile nextPath path);
    dio) w Q.
Proof using Type.
  intros H. cbn zeta. set (nx := path +:+ ".next") in *. assert (nx <> path) as Hne by apply next_ne.
  assert (forall r w', near nx w w' -> (r = inr tt -> False) -> (shFaults w = [] -> r = inr tt) -> Q r w') as Hkeep.
  { intros r w' Hn Hr Hf. apply H; [intros q Hq _; by apply Hn|left; by apply Hn|done|done]. }
  apply post_bind, post_wrap, create_post. intros [e|[]] w1 Hn1 Hc Hf1; [apply Hkeep; [done|done|intros E; by apply Hf1 in E]|].
  apply post_bind, write_new_post; [by apply Hc|]. intros [e|[]] w2 Hn2 Hd Hf2.
  { apply Hkeep; [by eapply near_trans|done|]. intros E. apply Hn1 in E. by apply Hf2 in E. }
  apply post_bind, post_wrap, (rename_post _ _ (compactedBytes d) w); [done|by eapply near_trans|by apply Hd|].
  intros [e|[]] w3 Hq Ho Hr Hf3; [apply H; try done; intros E; by destruct (Hf3 E)|].
  apply dio_post. intros r w4 Hquiet Hf4. apply H; rewrite ?(proj1 Hquiet); try done.
  - intros _. by apply Hr.
  - intros E. apply Hf4. by apply Hf3.
Qed.

(** A file is replaced or left alone, whole: replaced without an error, which there
    is none of on a good disk, and no other file changes but the one beside it. *)
Definition replaced (path : string) (new : bytes) (w : shards) (r : GoError + unit) (w' : shards) : Prop :=
  (shFiles w' !! path = shFiles w !! path \/ shFiles w' !! path = Some new) /\
  (r = inr tt -> shFiles w' !! path = Some new) /\
  (forall q, q <> path +:+ ".next" -> q <> path -> shFiles w' !! q = shFiles w !! q) /\
  (shFaults w = [] -> r = inr tt).

Lemma replaced_fail path new w e w' : quiet w w' -> (shFaults w = [] -> False) -> replaced path new w (inl e) w'.
Proof using Type. intros Hq Hf. unfold replaced. rewrite (proj1 Hq). split_and!; [by left|done|done|by intros E%Hf]. Qed.

(** Whether there is anything to do, and what the shard holds afterwards. *)
Definition settled (ps : list bytes) (rest : bytes) (d : dedup) : bool :=
  (Z.of_nat (length ps) - Z.of_nat (size (ddSeen d)) <=? 0) && (blen rest =? 0).

Lemma compacted_latest ps rest d : dedup_inv keyFn ps d -> exists out, latest keyFn ps out /\
  concat (encodePackedShardLine <$> out) = if settled ps rest d then concat (encodePackedShardLine <$> ps) ++ rest else compactedBytes d.
Proof using Type.
  intros Hdd. pose proof (dd_size _ _ _ Hdd) as Hsize. destruct (dedup_latest _ _ _ Hdd) as (out & Hout & Hc & _). unfold settled.
  destruct (Z.leb_spec (Z.of_nat (length ps) - Z.of_nat (size (ddSeen d))) 0) as [Hz|Hz]; cbn; [|by exists out].
  destruct rest; cbn; [|by exists out]. exists ps. split; [apply (distinct_latest _ _ _ Hdd); lia|by rewrite app_nil_r].
Qed.

(** C34: Compacting a shard of intact records and perhaps an unfinished line,
    whatever the disk does: the shard is what it was, or holds exactly the last
    record of every key; it is compacted when no error is returned, and none is on
    a good disk; no other file changes but the new one beside it, and a dry run
    changes none. *)
Theorem shard_compacted w path ps rest :
  Forall (intact Valid) ps -> keyed keyFn ps -> nl ∉ rest -> shFiles w !! path = Some (concat (encodePackedShardLine <$> ps) ++ rest) ->
  exists out, latest keyFn ps out /\
    post (compactOneShard path false) w (replaced path (concat (encodePackedShardLine <$> out)) w) /\
    post (compactOneShard path true) w (fun _ w' => shFiles w' = shFiles w).
Proof using Type.
  intros Hps Hk Hrest Hfile. set (d := taken (dedupRecord keyFn) (MkDedup ∅ [] 0) ps).
  assert (dedup_inv keyFn ps d) as Hdd by (by apply dedup_run).
  destruct (scan_shard Valid (dedupRecord keyFn) ps rest (MkDedup ∅ [] 0)) as (e & Hscan & _); [done| |done|].
  { intros a p Hp. unfold dedupRecord. by rewrite (Hk p Hp). }
  fold d in Hscan. destruct (compacted_latest ps rest d Hdd) as (out & Hout & Hb). exists out. split_and!; [done| |].
  - apply post_bind, post_bind, (open_post _ _ _ _ Hfile). intros [x|dat] w1 Hq1 _ Hf1; [apply replaced_fail; [done|intros E; by apply Hf1 in E]|].
    apply dio_post. intros [x|[]] w2 Hq2 Hf2; pose proof (quiet_trans _ _ _ Hq1 Hq2) as Hq; [apply replaced_fail; [done|intros E; apply Hq1 in E; by apply Hf2 in E]|].
    rewrite <- (proj1 Hq) in Hfile. apply post_bind, (scan_post _ _ _ _ _ _ Hfile). intros r w3 Hq3 Hr Hf3.
    pose proof (quiet_trans _ _ _ Hq Hq3) as Hq'. destruct Hr as [[x Hx]| ->].
    + rewrite Hx. apply replaced_fail; [done|]. intros E. apply Hq in E. rewrite (Hf3 E), Hscan in Hx. done.
    + rewrite Hscan. cbn [fst snd scRecords scTornTailBytes]. fold (settled ps rest d). rewrite (proj1 Hq) in Hfile. destruct (settled ps rest d).
      * apply post_ret. unfold replaced. rewrite (proj1 Hq'), Hfile, Hb. split_and!; eauto.
      * rewrite Hb. apply post_modify, rewrite_post. cbn. rewrite (proj1 Hq').
        intros r' w' H1 H2 H3 H4. split_and!; try done. intros E. by apply H4, Hq'.
  - apply post_bind, post_ret, post_bind, (scan_post _ _ _ _ _ _ Hfile). intros r w3 Hq3 Hr Hf3. destruct Hr as [[x Hx]| ->].
    + rewrite Hx. apply Hq3.
    + rewrite Hscan. cbn [fst snd scRecords scTornTailBytes]. by destruct (_ && _); apply Hq3.
Qed.

(** ** Repair *)

Lemma truncate_post path data size w (Q : GoError + unit -> shards -> Prop) : shFiles w !! path = Some data ->
  (forall r w', (forall q, q <> path -> shFiles w' !! q = shFiles w !! q) -> shVerify w' = shVerify w ->
     (shFiles w' !! path = Some data \/ shFiles w' !! path = Some (ztake size data)) ->
     (shFaults w = [] -> r = inr tt /\ shFiles w' !! path = Some (ztake size data)) -> Q r w') ->
  post (truncatePackedShardTornTail path size) w Q.
Proof using Type.
  intros Hd H. assert (forall e w', quiet w w' -> (shFaults w = [] -> False) -> Q (inl e) w') as Hkeep.
  { intros e w' Hq Hf. apply H; [by rewrite (proj1 Hq)|apply Hq|left; by rewrite (proj1 Hq)|by intros E%Hf]. }
  apply post_bind, (open_post _ _ _ _ Hd). intros [e|dat] w1 Hq1 _ Hf1; [apply Hkeep; [done|intros E; by apply Hf1 in E]|].
  apply post_bind, dio_post. intros [e|[]] w2 Hq2 Hf2; pose proof (quiet_trans _ _ _ Hq1 Hq2) as Hq; [apply Hkeep; [done|intros E; apply Hq1 in E; by apply Hf2 in E]|].
  apply post_bind, post_bind, dio_post. intros [e|[]] w3 Hq3 Hf3; pose proof (quiet_trans _ _ _ Hq Hq3) as Hq'; [apply Hkeep; [done|intros E; apply Hq in E; by apply Hf3 in E]|].
  set (w4 := setFiles (alter (ztake size) path (shFiles w3)) w3).
  assert (forall r w', quiet w4 w' -> (shFaults w = [] -> r = inr tt) -> Q r w') as Hcut.
  { intros r w' Hq4 Hf. assert (shFiles w' !! path = Some (ztake size data)) as Hc by (rewrite (proj1 Hq4); cbn; by rewrite lookup_alter_eq, (proj1 Hq'), Hd).
    apply H; [|rewrite (proj1 (proj2 (proj2 Hq4))); apply Hq'|by right|auto].
    intros q Hne. rewrite (proj1 Hq4). cbn. rewrite lookup_alter_ne by done. by rewrite (proj1 Hq'). }
  assert (shFaults w = [] -> shFaults w4 = []) as H4 by apply Hq'.
  unfold post. change (post (dio ≫= (fun _ => dio)) w4 Q). apply post_bind, dio_post. intros [e|[]] w5 Hq5 Hf5; [apply Hcut; [done|auto]|].
  apply dio_post. intros r w6 Hq6 Hf6. apply Hcut; [by eapply quiet_trans|]. intros E. by apply Hf6, Hq5, H4.
Qed.

Lemma count_taken ps n : taken countRecord n ps = n + Z.of_nat (length ps).
Proof using Type. unfold taken. revert n. induction ps as [|p ps IH]; intros n; cbn [foldl length]; [cbn; lia|]. rewrite IH. cbn [countRecord snd]. lia. Qed.

(** What the report gains on a shard that ends with [rest]. *)
Definition noted (path tier : string) (ps : list bytes) (rest : bytes) (v : VerifyReport) : VerifyReport :=
  match rest with
  | [] => MkVerify (vrStatus v) (vrFindings v) (vrChecked v + Z.of_nat (length ps)) (vrRepaired v)
  | _ => MkVerify (vrStatus v) (vrFindings v ++ [MkFinding "" path (tier +:+ "_torn_tail") ""]) (vrChecked v + Z.of_nat (length ps)) (vrRepaired v + 1)
  end.

(** C35: Verifying a shard of intact records and perhaps an unfinished line, with
    repair: on a good disk every record is counted, the unfinished line is reported
    and cut off, and nothing else; so that a second run reports nothing.  Whatever
    the disk does, no intact record is lost and no other file changes; without
    repair no file does. *)
Theorem torn_tail_repaired w path tier ps rest :
  Forall (intact Valid) ps -> nl ∉ rest -> shFiles w !! path = Some (concat (encodePackedShardLine <$> ps) ++ rest) ->
  post (verifyOnePackedShard true path tier) w (fun _ w' =>
    (shFiles w' !! path = shFiles w !! path \/ shFiles w' !! path = Some (concat (encodePackedShardLine <$> ps))) /\
    (forall q, q <> path -> shFiles w' !! q = shFiles w !! q) /\
    (shFaults w = [] -> shFiles w' !! path = Some (concat (encodePackedShardLine <$> ps)) /\ shVerify w' = noted path tier ps rest (shVerify w))) /\
  post (verifyOnePackedShard false path tier) w (fun _ w' => shFiles w' = shFiles w).
Proof using Type.
  intros Hps Hrest Hfile. destruct (scan_shard Valid countRecord ps rest 0) as (e & Hscan & He); [done|done|done|].
  rewrite count_taken, Z.add_0_l in Hscan. split.
  - apply post_bind, (scan_post _ _ _ _ _ _ Hfile). intros r w1 Hq1 Hr Hf1. destruct Hr as [[x Hx]| ->].
    + apply post_modify. rewrite Hx. unfold post. cbn [addFinding smodify setVerify shFiles]. rewrite (proj1 Hq1). split_and!; [by left|done|]. intros E. rewrite (Hf1 E), Hscan in Hx. done.
    + rewrite Hscan. apply post_modify. cbn [fst snd scTornTailBytes scLastIntactEnd].
      destruct rest as [|b rest].
      * apply post_ret. cbn [setVerify shFiles shVerify]. rewrite (proj1 Hq1), Hfile, app_nil_r. split_and!; [by left|done|]. intros _. split; [done|]. cbn. by rewrite (proj1 (proj2 (proj2 Hq1))).
      * rewrite (proj2 (Z.ltb_lt 0 _)) by (unfold blen; cbn; lia). apply post_modify, post_bind, post_try. rewrite <- (proj1 Hq1) in Hfile. eapply truncate_post; [exact Hfile|]. intros r w2 Ho Hv Hc Hf2.
        assert (ztake (blen (concat (encodePackedShardLine <$> ps))) (concat (encodePackedShardLine <$> ps) ++ b :: rest) = concat (encodePackedShardLine <$> ps)) as Ecut.
        { unfold ztake, blen. rewrite Nat2Z.id. by apply take_app_length. }
        rewrite Ecut in *. cbn [setVerify shFiles shVerify shFaults] in Ho, Hv, Hf2. rewrite (proj1 Hq1) in Ho, Hfile.
        destruct r as [x|[]]; unfold post; cbn; rewrite Hfile; split_and!; try done; intros E; destruct (Hf2 (proj2 (proj2 (proj2 Hq1)) E)) as [Hok Hcut]; [done|].
        split; [done|]. rewrite Hv. cbn. by rewrite (proj1 (proj2 (proj2 Hq1))).
  - apply post_bind, (scan_post _ _ _ _ _ _ Hfile). intros r w1 Hq1 Hr _. apply post_modify. destruct (r.1); [apply Hq1|]. destruct (0 <? _); apply Hq1.
Qed.
End operations.

(** ** A shard with a superseded record and an unfinished line *)

Definition braced (p : bytes) : bool := bool_decide (head p = Some x7b) && bool_decide (last p = Some x7d).
Definition shortKey (p : bytes) : GoError + string := inr (String.string_of_list_byte (take 2 p)).

Definition records : list bytes := String.list_byte_of_string <$> ["{a:1}"; "{b:2}"; "{a:3}"].
Definition unfinished : bytes := String.list_byte_of_string "00000005".
Definition noReport : VerifyReport := MkVerify "ok" [] 0 0.
Definition worn (faults : list fault) : shards :=
  MkShards {["s" := concat (encodePackedShardLine <$> records) ++ unfinished]} faults (MkCompact 0 0 0 0 0 0 0 false) noReport.

Lemma records_intact : Forall (intact braced) records.
Proof. unfold records. repeat constructor; try (vm_compute; discriminate); apply (bool_decide_unpack _); vm_compute; exact I. Qed.
Lemma unfinished_line : nl ∉ unfinished.
Proof. apply (bool_decide_unpack _). vm_compute. exact I. Qed.

Lemma shard_compacted_witness :
  shFiles (compactOneShard braced shortKey "s" false (worn [])).2 !! "s" =
    Some (concat (encodePackedShardLine <$> (String.list_byte_of_string <$> ["{a:3}"; "{b:2}"]))) /\
  exists out, latest shortKey records out /\
    post (compactOneShard braced shortKey "s" false) (worn [FOk; FOk; FOk; FOk; FOk; FShort 3 "full"])
      (replaced "s" (concat (encodePackedShardLine <$> out)) (worn [FOk; FOk; FOk; FOk; FOk; FShort 3 "full"])) /\
    post (compactOneShard braced shortKey "s" true) (worn [FOk; FOk; FOk; FOk; FOk; FShort 3 "full"])
      (fun _ w' => shFiles w' = shFiles (worn [FOk; FOk; FOk; FOk; FOk; FShort 3 "full"])).
Proof.
  split; [vm_compute; reflexivity|].
  apply (shard_compacted braced shortKey (worn [FOk; FOk; FOk; FOk; FOk; FShort 3 "full"]) "s" records unfinished records_intact);
    [by intros p _|exact unfinished_line|reflexivity].
Defined.

Lemma torn_tail_repaired_witness :
  shVerify (verifyOnePackedShard braced true "s" "recovery" (worn [])).2 =
    MkVerify "ok" [MkFinding "" "s" "recovery_torn_tail" ""] 3 1 /\
  post (verifyOnePackedShard braced false "s" "recovery") (worn []) (fun _ w' => shFiles w' = shFiles (worn [])).
Proof.
  split; [vm_compute; reflexivity|].
  exact (proj2 (torn_tail_repaired braced (worn []) "s" "recovery" records unfinished records_intact unfinished_line eq_refl)).
Defined.
End ShardFiles.
