(* ===== verification/Mbox.v ===== *)
(** * Reading mbox files: [source/archive_mbox.go]

    The three readers of an mbox: the enumeration of message offsets the queued
    import publishes jobs from, the sequential reader of the direct import, and
    the reader of one message by its offset.  [bufio.Scanner] delivers the lines
    of what could be read, until a line fills its buffer.  The parser of a
    message is an argument. *)

From stdpp Require Import options.
From S2P Require Import Prelude GoLib Contracts Meta Jobs.

Local Open Scope Z_scope.

(** ** [bufio.Scanner] with [bufio.ScanLines] *)

(** What reading a file gives: bytes, and the error that ended it early. *)
Record mfile := MkFile { mfBytes : string; mfErr : option GoError }.

Definition newline : Ascii.ascii := Ascii.ascii_of_N 10.
Definition carriageReturn : Ascii.ascii := Ascii.ascii_of_N 13.

Fixpoint rawLines (s : string) : list string :=
  match s with
  | EmptyString => []
  | String c r =>
      if Ascii.eqb c newline then EmptyString :: rawLines r
      else match rawLines r with
           | [] => [String c EmptyString]
           | l :: ls => String c l :: ls
           end
  end.

Fixpoint dropCR (s : string) : string :=
  match s with
  | EmptyString => EmptyString
  | String c EmptyString => if Ascii.eqb c carriageReturn then EmptyString else s
  | String c r => String c (dropCR r)
  end.

Definition slen (s : string) : Z := Z.of_nat (String.length s).

(** The tokens, and [scanner.Err()]. *)
Fixpoint scanTokens (max : Z) (raw : list string) (err : option GoError) : list string * option GoError :=
  match raw with
  | [] => ([], err)
  | l :: r =>
      if max <=? slen l then ([], Some (ErrVar "bufio.ErrTooLong"))
      else let '(ls, e) := scanTokens max r err in (dropCR l :: ls, e)
  end.

Definition mboxMaxToken : Z := 32 * 1024 * 1024.

Definition scanLines (f : mfile) : list string * option GoError :=
  scanTokens mboxMaxToken (rawLines (mfBytes f)) (mfErr f).

(** ** The readers *)

Section readers.
Context {S Msg : Type}.

(** [parseArchiveMessage(raw, path, root, ArchiveImportFormatMbox, offset)]. *)
Variable parse : string -> Z -> GoError + Msg.

Definition isFrom (line : string) : bool := HasPrefix line "From ".

Definition mboxOffsetStep (fn : Z -> Z -> SM S unit) (acc : Z * Z * bool) (line : string) : SM S (Z * Z * bool) :=
  let '(offset, size, inMessage) := acc in
  if isFrom line then
    if inMessage : bool then _ ← fn offset size; mret (offset + 1, 0, true)
    else mret (offset, size, true)
  else mret (offset, if inMessage then size + (slen line + 1) else size, inMessage).

Definition forEachMboxMessageOffset (file : GoError + mfile) (fn : Z -> Z -> SM S unit) : SM S unit :=
  match file with
  | inl e => sfail e
  | inr f =>
      let '(lines, err) := scanLines f in
      acc ← sforM lines (0, 0, false) (mboxOffsetStep fn);
      _ ← scheck err;
      let '(offset, size, inMessage) := acc in
      if inMessage : bool then fn offset size else mret tt
  end.

Definition unquoteFrom (line : string) : string :=
  if HasPrefix line ">From " then TrimPrefix line ">" else line.

Definition writeLine (current line : string) : string :=
  current +:+ unquoteFrom line +:+ String newline EmptyString.

Definition deliver (fn : Msg -> SM S unit) (current : string) (offset : Z) : SM S unit :=
  match parse current offset with
  | inl e => sfail (ErrWrap "parse mbox message" e)
  | inr message => fn message
  end.

Definition mboxStep (fn : Msg -> SM S unit) (acc : string * Z) (line : string) : SM S (string * Z) :=
  let '(current, offset) := acc in
  if isFrom line then
    if 0 <? slen current then _ ← deliver fn current offset; mret (EmptyString, offset + 1)
    else mret acc
  else mret (writeLine current line, offset).

Definition forEachMboxMessage (file : GoError + mfile) (fn : Msg -> SM S unit) : SM S unit :=
  match file with
  | inl e => sfail e
  | inr f =>
      let '(lines, err) := scanLines f in
      acc ← sforM lines (EmptyString, 0) (mboxStep fn);
      _ ← scheck err;
      if 0 <? slen acc.1 then deliver fn acc.1 acc.2 else mret tt
  end.

(** The loop of [parseMboxMessageAt]: the message it returns from inside, or its
    variables at the end. *)
Fixpoint mboxAtLoop (wanted : Z) (lines : list string) (offset : Z) (current : string) :
    (GoError + Msg) + (Z * string) :=
  match lines with
  | [] => inr (offset, current)
  | line :: r =>
      if isFrom line then
        if (offset =? wanted) && (0 <? slen current) then inl (parse current wanted)
        else mboxAtLoop wanted r (offset + 1) EmptyString
      else if negb (offset =? wanted) then mboxAtLoop wanted r offset current
      else mboxAtLoop wanted r offset (writeLine current line)
  end.

Definition parseMboxMessageAt (file : GoError + mfile) (wanted : Z) : GoError + Msg :=
  match file with
  | inl e => inl e
  | inr f =>
      let '(lines, err) := scanLines f in
      match mboxAtLoop wanted lines (-1) EmptyString with
      | inl r => r
      | inr (offset, current) =>
          match err with
          | Some e => inl e
          | None =>
              if (offset =? wanted) && (0 <? slen current) then parse current wanted
              else inl (ErrMsg "mbox message offset not found")
          end
      end
  end.

End readers.

(** [parseMboxFile]: the messages read before the first error, and the error. *)
Definition parseMboxFile {Msg} (parse : string -> Z -> GoError + Msg) (file : GoError + mfile) :
    list Msg * option GoError :=
  match forEachMboxMessage parse file (fun m => smodify (fun ms => ms ++ [m])) [] with
  | (Ok _, ms) => (ms, None)
  | (Err e, ms) => (ms, Some e)
  | (Panic, ms) => (ms, None)
  end.

(** ** What an mbox holds *)

(** The lines before the first separator, and the lines after each one. *)
Fixpoint splitFrom (lines : list string) : list string * list (list string) :=
  match lines with
  | [] => ([], [])
  | l :: r =>
      let '(pre, segs) := splitFrom r in
      if isFrom l then ([], pre :: segs) else (l :: pre, segs)
  end.

Fixpoint segSize (seg : list string) : Z :=
  match seg with [] => 0 | l :: r => slen l + 1 + segSize r end.

Definition segBody (seg : list string) : string := foldl writeLine EmptyString seg.

(** [l] numbered from [o]. *)
Fixpoint numbered {A} (o : Z) (l : list A) : list (Z * A) :=
  match l with [] => [] | x :: r => (o, x) :: numbered (o + 1) r end.

(** ** Strings and lines *)

Lemma slen_nonneg s : 0 <= slen s.
Proof. unfold slen. lia. Qed.

Lemma slen_app a b : slen (a +:+ b) = slen a + slen b.
Proof. unfold slen. induction a as [|x a IH]; [done|]. change (String x a +:+ b) with (String x (a +:+ b)). cbn [String.length]. lia. Qed.

Lemma str_app_assoc (a b c : string) : (a +:+ b) +:+ c = a +:+ (b +:+ c).
Proof. induction a as [|x a IH]; [done|]. exact (f_equal (String x) IH). Qed.

Lemma str_app_nil (a : string) : a +:+ EmptyString = a.
Proof. induction a as [|x a IH]; [done|]. exact (f_equal (String x) IH). Qed.

Lemma writeLine_pos current line : (0 <? slen (writeLine current line)) = true.
Proof.
  unfold writeLine. rewrite !slen_app. pose proof (slen_nonneg current). pose proof (slen_nonneg (unquoteFrom line)).
  assert (slen (String newline EmptyString) = 1) as -> by done. apply Z.ltb_lt. lia.
Qed.

Lemma foldl_writeLine_pos seg c : seg <> [] -> (0 <? slen (foldl writeLine c seg)) = true.
Proof.
  destruct seg as [|l seg _] using rev_ind; [done|]. intros _. rewrite foldl_app. apply writeLine_pos.
Qed.

Lemma segBody_pos seg : (0 <? slen (segBody seg)) = negb (bool_decide (seg = [])).
Proof. destruct seg as [|l seg]; [done|]. unfold segBody. by rewrite foldl_writeLine_pos. Qed.

Lemma sm_assoc {S A B C} (m : SM S A) (f : A -> SM S B) (g : B -> SM S C) s :
  ((m ≫= f) ≫= g) s = (m ≫= (fun a => f a ≫= g)) s.
Proof. unfold mbind, SM_bind. by destruct (m s) as [[a|e|] s']. Qed.

Lemma sm_bind_ext {S A B} (m : SM S A) (f g : A -> SM S B) s : (forall a s', f a s' = g a s') -> (m ≫= f) s = (m ≫= g) s.
Proof. intros H. unfold mbind, SM_bind. destruct (m s) as [[a|e|] s']; auto. Qed.

Lemma sm_bind_cong {S A B} (m m' : SM S A) (f : A -> SM S B) s : m s = m' s -> (m ≫= f) s = (m' ≫= f) s.
Proof. intros H. unfold mbind, SM_bind. by rewrite H. Qed.

Lemma sforM_app {S A B} (l1 l2 : list A) (acc : B) (f : B -> A -> SM S B) s :
  sforM (l1 ++ l2) acc f s = (acc' ← sforM l1 acc f; sforM l2 acc' f) s.
Proof.
  revert acc s. induction l1 as [|x l1 IH]; intros acc s; [done|]. cbn [sforM app]. rewrite sm_assoc.
  apply sm_bind_ext. intros a s'. apply IH.
Qed.

Lemma numbered_app {A} o (l1 l2 : list A) :
  numbered o (l1 ++ l2) = numbered o l1 ++ numbered (o + Z.of_nat (length l1)) l2.
Proof.
  revert o. induction l1 as [|x l1 IH]; intros o; cbn [numbered app length].
  - f_equal. lia.
  - rewrite IH. do 3 f_equal. lia.
Qed.

Lemma numbered_lookup {A} o (l : list A) (i : nat) : numbered o l !! i = (fun x => (o + Z.of_nat i, x)) <$> l !! i.
Proof.
  revert o i. induction l as [|x l IH]; intros o i; [done|]. destruct i as [|i]; cbn [numbered].
  - cbn. by rewrite Z.add_0_r.
  - etransitivity; [apply IH|]. change ((x :: l) !! S i) with (l !! i). destruct (l !! i); cbn; [|done]. do 2 f_equal. lia.
Qed.

(** ** The offsets *)

Section offsets.
Context {S : Type} (fn : Z -> Z -> SM S unit).

Definition callAll (l : list (Z * Z)) : SM S unit := sforM l tt (fun _ p => fn p.1 p.2).

Lemma offsetStep_from o z b l : isFrom l = true -> mboxOffsetStep fn (o, z, b) l =
  if b : bool then _ ← fn o z; mret (o + 1, 0, true) else mret (o, z, true).
Proof. unfold mboxOffsetStep. by intros ->. Qed.

Lemma offsetStep_line o z b l : isFrom l = false ->
  mboxOffsetStep fn (o, z, b) l = mret (o, if b : bool then z + (slen l + 1) else z, b).
Proof. unfold mboxOffsetStep. by intros ->. Qed.

(** Inside a message, every segment but the last is reported. *)
Lemma offset_loop lines o z s :
  let '(pre, segs) := splitFrom lines in
  let calls := numbered o ((z + segSize pre) :: map segSize segs) in
  sforM lines (o, z, true) (mboxOffsetStep fn) s =
  (_ ← callAll (take (length segs) calls);
   mret (match last calls with Some (o', z') => (o', z', true) | None => (o, z, true) end)) s.
Proof.
  revert o z s. induction lines as [|l lines IH]; intros o z s.
  - cbn. by rewrite Z.add_0_r.
  - cbn [splitFrom]. destruct (splitFrom lines) as [pre segs] eqn:Hsp. destruct (isFrom l) eqn:Hl.
    + cbn [sforM]. rewrite offsetStep_from by done.
      cbn [segSize map length numbered take]. unfold callAll. cbn [sforM fst snd]. rewrite Z.add_0_r, !sm_assoc.
      apply sm_bind_ext. intros [] s1. specialize (IH (o + 1) 0 s1). cbn [numbered] in IH.
      rewrite Z.add_0_l in IH. etransitivity; [exact IH|]. apply sm_bind_ext. intros [] s2. rewrite !last_cons.
      by destruct (last (numbered _ _)) as [[]|].
    + cbn [sforM]. rewrite offsetStep_line by done. specialize (IH o (z + (slen l + 1)) s).
      etransitivity; [exact IH|]. cbn [segSize numbered].
      replace (z + (slen l + 1) + segSize pre) with (z + (slen l + 1 + segSize pre)) by lia.
      apply sm_bind_ext. intros [] s2. rewrite !last_cons. by destruct (last (numbered _ _)) as [[]|].
Qed.

(** Before the first separator nothing is. *)
Lemma offset_start lines s :
  let segs := (splitFrom lines).2 in
  let calls := numbered 0 (map segSize segs) in
  sforM lines (0, 0, false) (mboxOffsetStep fn) s =
  (_ ← callAll (take (length segs - 1) calls);
   mret (match last calls with Some (o', z') => (o', z', true) | None => (0, 0, false) end)) s.
Proof.
  revert s. induction lines as [|l lines IH]; intros s; [done|]. cbn [splitFrom].
  destruct (splitFrom lines) as [pre segs] eqn:Hsp. destruct (isFrom l) eqn:Hl.
  - cbn [sforM]. rewrite offsetStep_from by done. pose proof (offset_loop lines 0 0 s) as H. rewrite Hsp in H.
    cbn [snd length map]. rewrite Nat.sub_succ, Nat.sub_0_r. etransitivity; [exact H|]. rewrite Z.add_0_l.
    apply sm_bind_ext. intros [] s1. cbn [numbered]. rewrite last_cons. by destruct (last (numbered _ _)) as [[]|].
  - cbn [sforM]. rewrite offsetStep_line by done. etransitivity; [apply IH|]. done.
Qed.

(** The offset reader calls [fn] once per separator line, in order, with the
    size of the lines that follow; after a read error the message that was cut
    short is left out. *)
Lemma forEachMboxMessageOffset_spec f s :
  let '(lines, err) := scanLines f in
  let segs := (splitFrom lines).2 in
  let calls := numbered 0 (map segSize segs) in
  forEachMboxMessageOffset (inr f) fn s =
  match err with
  | None => callAll calls s
  | Some e => (_ ← callAll (take (length segs - 1) calls); sfail e) s
  end.
Proof.
  unfold forEachMboxMessageOffset. destruct (scanLines f) as [lines err]. cbn zeta.
  erewrite sm_bind_cong by apply offset_start. rewrite sm_assoc. set (segs := (splitFrom lines).2).
  destruct err as [e|]; [apply sm_bind_ext; by intros []|]. cbn [scheck].
  destruct segs as [|seg segs _] using rev_ind; [done|].
  assert (numbered 0 (map segSize (segs ++ [seg])) = numbered 0 (map segSize segs) ++ [(Z.of_nat (length segs), segSize seg)]) as Hn.
  { rewrite map_app, numbered_app, length_map. cbn. by rewrite Z.add_0_l. }
  rewrite Hn, last_snoc, length_app. replace (length segs + length [seg] - 1)%nat with (length segs) by (cbn; lia).
  assert (length (numbered 0 (map segSize segs)) = length segs) as Hlen.
  { clear. generalize 0. induction segs as [|x l IH]; intros o; cbn; auto. }
  rewrite take_app_le, take_ge by lia. unfold callAll at 2. rewrite sforM_app. unfold callAll.
  apply sm_bind_ext. intros [] s1. cbn [sforM fst snd]. unfold mbind, SM_bind, mret, SM_ret. by destruct (fn _ _ s1) as [[[]|e|] s2].
Qed.

End offsets.

(** ** One message by its offset *)

Section at_offset.
Context {Msg : Type} (parse : string -> Z -> GoError + Msg).

(** From inside segment [offset] with [current] read so far: the wanted segment
    is returned when a separator follows it, and is what is left otherwise. *)
Lemma atLoop_inside wanted lines current :
  let '(pre, segs) := splitFrom lines in
  mboxAtLoop parse wanted lines wanted current =
  match segs with
  | [] => inr (wanted, foldl writeLine current pre)
  | _ =>
      if 0 <? slen (foldl writeLine current pre) then inl (parse (foldl writeLine current pre) wanted)
      else mboxAtLoop parse wanted (drop (S (length pre)) lines) (wanted + 1) EmptyString
  end.
Proof.
  revert current. induction lines as [|l lines IH]; intros current; [done|]. cbn [splitFrom mboxAtLoop].
  destruct (splitFrom lines) as [pre segs]. destruct (isFrom l) eqn:Hl.
  - rewrite Z.eqb_refl. done.
  - rewrite Z.eqb_refl. cbn [negb foldl length drop]. apply IH.
Qed.

(** Past the wanted segment nothing is found any more. *)
Lemma atLoop_past wanted lines offset : wanted < offset -> exists offset',
  wanted < offset' /\ mboxAtLoop parse wanted lines offset EmptyString = inr (offset', EmptyString).
Proof.
  revert offset. induction lines as [|l lines IH]; intros offset Hlt; cbn [mboxAtLoop]; [by exists offset|].
  assert ((offset =? wanted) = false) as -> by (apply Z.eqb_neq; lia). cbn [negb andb].
  destruct (isFrom l); apply IH; lia.
Qed.

(** Where the loop is after it has seen the separators before the wanted one. *)
Lemma atLoop_before (n : nat) wanted lines offset : offset + Z.of_nat n + 1 = wanted ->
  let segs := (splitFrom lines).2 in
  match segs !! n with
  | None => exists offset', offset' < wanted /\ mboxAtLoop parse wanted lines offset EmptyString = inr (offset', EmptyString)
  | Some seg => exists rest, splitFrom rest = (seg, drop (S n) segs) /\
      mboxAtLoop parse wanted lines offset EmptyString = mboxAtLoop parse wanted rest wanted EmptyString
  end.
Proof.
  revert n offset. induction lines as [|l lines IH]; intros n offset Hn; cbn [splitFrom mboxAtLoop].
  { exists offset. split; [lia|done]. }
  assert ((offset =? wanted) = false) as -> by (apply Z.eqb_neq; lia). cbn [negb andb].
  destruct (splitFrom lines) as [pre segs] eqn:Hsp. destruct (isFrom l) eqn:Hl; cbn [snd].
  - destruct n as [|n].
    + change ((pre :: segs) !! 0%nat) with (Some pre). exists lines. replace (offset + 1) with wanted by lia. by rewrite Hsp.
    + cbn [lookup list_lookup]. specialize (IH n (offset + 1) ltac:(lia)). cbn [snd] in IH. exact IH.
  - specialize (IH n offset ltac:(lia)). exact IH.
Qed.

(** Reading by offset gives the wanted message, if it is there and not empty;
    after a read error the message that was cut short is not returned. *)
Lemma parseMboxMessageAt_spec f (n : nat) :
  let '(lines, err) := scanLines f in
  let segs := (splitFrom lines).2 in
  parseMboxMessageAt parse (inr f) (Z.of_nat n) =
  match segs !! n, err with
  | Some (l :: seg), None => parse (segBody (l :: seg)) (Z.of_nat n)
  | Some (l :: seg), Some e => if bool_decide (S n = length segs) then inl e else parse (segBody (l :: seg)) (Z.of_nat n)
  | _, Some e => inl e
  | _, None => inl (ErrMsg "mbox message offset not found")
  end.
Proof.
  unfold parseMboxMessageAt. destruct (scanLines f) as [lines err]. cbn zeta.
  pose proof (atLoop_before n (Z.of_nat n) lines (-1) ltac:(lia)) as H. cbn zeta in H.
  destruct ((splitFrom lines).2 !! n) as [seg|] eqn:Hseg.
  - destruct H as (rest & Hr & ->). pose proof (atLoop_inside (Z.of_nat n) rest EmptyString) as Hi. rewrite Hr in Hi.
    rewrite Hi. change (foldl writeLine EmptyString seg) with (segBody seg). rewrite !segBody_pos.
    apply lookup_lt_Some in Hseg. destruct (drop (S n) (splitFrom lines).2) as [|x r] eqn:Hd.
    + assert (length (splitFrom lines).2 <= S n)%nat.
      { pose proof (length_drop (splitFrom lines).2 (S n)) as Hl. rewrite Hd in Hl. cbn in Hl. lia. }
      rewrite Z.eqb_refl. cbn [andb]. rewrite segBody_pos.
      rewrite (bool_decide_true (S n = length (splitFrom lines).2)) by lia. destruct err, seg; done.
    + assert (S n < length (splitFrom lines).2)%nat.
      { pose proof (length_drop (splitFrom lines).2 (S n)) as Hl. rewrite Hd in Hl. cbn in Hl. lia. }
      destruct seg as [|l seg]; cbn [negb bool_decide]; [|rewrite (bool_decide_false (S n = _)) by lia; by destruct err].
      destruct (atLoop_past (Z.of_nat n) (drop (S (length (A := string) [])) rest) (Z.of_nat n + 1) ltac:(lia)) as (o' & Ho & Hp).
      cbn [length] in Hp |- *. rewrite (bool_decide_true ([] = [])) by done. cbn [negb]. rewrite Hp.
      rewrite (proj2 (Z.eqb_neq o' (Z.of_nat n))) by lia. by destruct err.
  - destruct H as (o' & Ho & ->). rewrite (proj2 (Z.eqb_neq o' (Z.of_nat n))) by lia. by destruct err.
Qed.

End at_offset.

(** ** All messages in sequence *)

Section sequence.
Context {S Msg : Type} (parse : string -> Z -> GoError + Msg) (fn : Msg -> SM S unit).

Definition nonEmpty (s : string) : Prop := (0 <? slen s) = true.

Definition deliverAll (l : list (Z * string)) : SM S unit := sforM l tt (fun _ p => deliver parse fn p.2 p.1).

Lemma mboxStep_from current o l : isFrom l = true -> mboxStep parse fn (current, o) l =
  if 0 <? slen current then _ ← deliver parse fn current o; mret (EmptyString, o + 1) else mret (current, o).
Proof. unfold mboxStep. by intros ->. Qed.

Lemma mboxStep_line current o l : isFrom l = false -> mboxStep parse fn (current, o) l = mret (writeLine current l, o).
Proof. unfold mboxStep. by intros ->. Qed.

Lemma slen_zero s : (0 <? slen s) = false -> s = EmptyString.
Proof. destruct s as [|c s]; [done|]. unfold slen. cbn [String.length]. intros H%Z.ltb_ge. lia. Qed.

(** Every piece but the last is delivered when it is not empty. *)
Lemma seq_loop lines current o s :
  let '(pre, segs) := splitFrom lines in
  let all := foldl writeLine current pre :: map segBody segs in
  let before := filter nonEmpty (take (length segs) all) in
  sforM lines (current, o) (mboxStep parse fn) s =
  (_ ← deliverAll (numbered o before); mret (default EmptyString (last all), o + Z.of_nat (length before))) s.
Proof.
  revert current o s. induction lines as [|l lines IH]; intros current o s.
  { cbn. by rewrite Z.add_0_r. }
  cbn [splitFrom]. destruct (splitFrom lines) as [pre segs] eqn:Hsp. destruct (isFrom l) eqn:Hl; cbn [sforM].
  - rewrite mboxStep_from by done. specialize (IH EmptyString). fold (segBody pre) in IH.
    cbn [foldl map length take]. destruct (0 <? slen current) eqn:Hc.
    + rewrite filter_cons_True by done. cbn [numbered length]. unfold deliverAll at 1. cbn [sforM snd fst].
      rewrite !sm_assoc. apply sm_bind_ext. intros [] s1. etransitivity; [apply IH|]. apply sm_bind_ext. intros [] s2.
      rewrite (last_cons current), !last_cons. cbn [default].
      set (n := length (filter _ _)). replace (o + 1 + Z.of_nat n) with (o + Z.of_nat (Datatypes.S n)) by lia.
      by destruct (last (map segBody segs)).
    + rewrite filter_cons_False by (unfold nonEmpty; congruence). apply slen_zero in Hc as ->.
      etransitivity; [apply IH|]. apply sm_bind_ext. intros [] s2. rewrite (last_cons EmptyString), !last_cons.
      by destruct (last (map segBody segs)).
  - rewrite mboxStep_line by done. etransitivity; [apply IH|]. done.
Qed.

(** The pieces of an mbox the sequential reader takes for messages. *)
Definition mboxPieces (lines : list string) : list string :=
  let '(pre, segs) := splitFrom lines in filter nonEmpty (map segBody (pre :: segs)).

Lemma forEachMboxMessage_spec f lines s : scanLines f = (lines, None) ->
  forEachMboxMessage parse (inr f) fn s = deliverAll (numbered 0 (mboxPieces lines)) s.
Proof.
  intros Hs. unfold forEachMboxMessage, mboxPieces. rewrite Hs. pose proof (seq_loop lines EmptyString 0 s) as H.
  destruct (splitFrom lines) as [pre segs]. erewrite sm_bind_cong by exact H. rewrite sm_assoc. clear H.
  change (foldl writeLine EmptyString pre :: map segBody segs) with (map segBody (pre :: segs)). cbn [scheck].
  set (all := map segBody (pre :: segs)). assert (length segs = length all - 1)%nat as -> by (unfold all; cbn; rewrite length_map; lia).
  destruct all as [|x all _] using rev_ind; [done|].
  rewrite length_app, last_snoc. replace (length all + length [x] - 1)%nat with (length all) by (cbn; lia).
  rewrite take_app_le, take_ge by lia. rewrite filter_app, numbered_app. unfold deliverAll. rewrite sforM_app.
  apply sm_bind_ext. intros [] s1. rewrite Z.add_0_l. cbn [default]. unfold mbind, SM_bind, mret, SM_ret. cbn [fst snd].
  change (id x) with x. destruct (0 <? slen x) eqn:Hx.
  - rewrite filter_cons_True by done. change (filter nonEmpty ([] : list string)) with ([] : list string).
    cbn [numbered sforM fst snd]. unfold mbind, SM_bind, mret, SM_ret. by destruct (deliver _ _ _ _ s1) as [[[]|e|] s2].
  - by rewrite filter_cons_False by (unfold nonEmpty; congruence).
Qed.

End sequence.

(** The messages before the first that could not be parsed, and its error. *)
Fixpoint untilError {Msg} (rs : list (GoError + Msg)) : list Msg * option GoError :=
  match rs with
  | [] => ([], None)
  | inl e :: _ => ([], Some (ErrWrap "parse mbox message" e))
  | inr m :: r => let '(ms, e) := untilError r in (m :: ms, e)
  end.

Lemma parseMboxFile_spec {Msg} (parse : string -> Z -> GoError + Msg) f lines : scanLines f = (lines, None) ->
  parseMboxFile parse (inr f) = untilError (map (fun p => parse p.2 p.1) (numbered 0 (mboxPieces lines))).
Proof.
  intros Hs. unfold parseMboxFile. rewrite (forEachMboxMessage_spec _ _ f lines) by done.
  generalize (numbered 0 (mboxPieces lines)). intros l.
  assert (forall ms, (match deliverAll parse (fun m => smodify (fun ms => ms ++ [m])) l ms with
    | (Ok _, ms) => (ms, None) | (Err e, ms) => (ms, Some e) | (Panic, ms) => (ms, None) end : list Msg * option GoError) =
    (ms ++ (untilError (map (fun p => parse p.2 p.1) l)).1, (untilError (map (fun p => parse p.2 p.1) l)).2)) as H.
  { induction l as [|[o raw] l IH]; intros ms; [by rewrite app_nil_r|]. unfold deliverAll. cbn [sforM fst snd map untilError].
    unfold mbind, SM_bind, deliver. destruct (parse raw o) as [e|m]; cbn; [by rewrite app_nil_r|].
    etransitivity; [apply (IH (ms ++ [m]))|]. destruct (untilError _) as [ms' e']. cbn. by rewrite <- app_assoc. }
  rewrite H. by destruct (untilError _).
Qed.

(** ** Main properties *)

(** The offsets the queued import enumerates. *)
Definition mboxOffsets (file : GoError + mfile) : list Z :=
  (forEachMboxMessageOffset file (fun o _ => smodify (fun os => os ++ [o])) []).2.

Lemma mboxOffsets_spec f lines : scanLines f = (lines, None) ->
  mboxOffsets (inr f) = map fst (numbered 0 (splitFrom lines).2).
Proof.
  intros Hs. unfold mboxOffsets.
  pose proof (forEachMboxMessageOffset_spec (fun o _ => smodify (fun os => os ++ [o])) f []) as H. rewrite Hs in H.
  rewrite H. generalize (splitFrom lines).2 as segs. intros segs.
  assert (forall o os, (callAll (fun o _ => smodify (fun os => os ++ [o])) (numbered o (map segSize segs)) os).2 =
    os ++ map fst (numbered o segs)) as Hall.
  { induction segs as [|seg segs IH]; intros o os; [by rewrite app_nil_r|]. unfold callAll. cbn [map numbered sforM fst snd].
    etransitivity; [apply (IH (o + 1) (os ++ [o]))|]. by rewrite <- app_assoc. }
  by rewrite Hall.
Qed.

(** The direct and the queued import read the same messages from an mbox.
    For a file that can be read to its end, starts with a separator and has no
    empty message, the sequential reader delivers exactly what the reader by
    offset returns for the enumerated offsets, in order and up to the first
    message that does not parse. *)
Theorem mbox_readers_agree {Msg} (parse : string -> Z -> GoError + Msg) (f : mfile) (lines : list string)
    (segs : list (list string)) :
  scanLines f = (lines, None) -> splitFrom lines = ([], segs) -> Forall (fun seg => seg <> []) segs ->
  parseMboxFile parse (inr f) = untilError (map (parseMboxMessageAt parse (inr f)) (mboxOffsets (inr f))) /\
  length (mboxOffsets (inr f)) = length segs.
Proof.
  intros Hs Hsp Hne. rewrite (parseMboxFile_spec parse f lines Hs), (mboxOffsets_spec f lines Hs). unfold mboxPieces. rewrite Hsp.
  cbn [map snd]. rewrite filter_cons_False by done.
  assert (filter nonEmpty (map segBody segs) = map segBody segs) as ->.
  { clear -Hne. induction Hne as [|seg segs Hseg _ IH]; [done|]. cbn [map]. rewrite filter_cons_True; [by rewrite IH|].
    unfold nonEmpty. by rewrite segBody_pos, bool_decide_false. }
  split; [f_equal|rewrite length_map; clear; generalize 0; induction segs as [|x l IH]; intros o; cbn; auto].
  apply list_eq. intros i. rewrite !list_lookup_fmap, !numbered_lookup, list_lookup_fmap.
  destruct (segs !! i) as [seg|] eqn:Hi; [|done]. cbn [fmap option_fmap option_map fst snd]. rewrite !Z.add_0_l. f_equal.
  pose proof (parseMboxMessageAt_spec parse f i) as Hat. rewrite Hs, Hsp in Hat. cbn [snd] in Hat. rewrite Hi in Hat. rewrite Hat.
  rewrite Forall_forall in Hne. specialize (Hne seg (list_elem_of_lookup_2 _ _ _ Hi)). by destruct seg.
Qed.

(** ** Writing an mbox *)

Definition quoteFrom (line : string) : string := if isFrom line then ">" +:+ line else line.

Fixpoint unlines (ls : list string) : string :=
  match ls with [] => EmptyString | l :: r => l +:+ String newline (unlines r) end.

(** Messages, given by their lines, in the format's usual spelling. *)
Definition mboxLines (msgs : list (list string)) : list string :=
  concat (map (fun msg => "From gmeow" :: map quoteFrom msg) msgs).

Definition mboxWrite (msgs : list (list string)) : string := unlines (mboxLines msgs).

(** Lines the format can hold: without line ends, not starting with a quoted
    separator, and fitting the scanner's buffer when quoted. *)
Definition mbox_line (l : string) : Prop :=
  (newline ∉ str_bytes l) /\ dropCR l = l /\ HasPrefix l ">From " = false /\ slen l + 1 < mboxMaxToken.

Lemma rawLines_line l r : newline ∉ str_bytes l -> rawLines (l +:+ String newline r) = l :: rawLines r.
Proof.
  induction l as [|c l IH]; intros Hl; [done|]. change (String c l +:+ String newline r) with (String c (l +:+ String newline r)).
  cbn [rawLines]. change (str_bytes (String c l)) with (c :: str_bytes l) in Hl.
  apply not_elem_of_cons in Hl as [Hc Hl]. rewrite (proj2 (Ascii.eqb_neq c newline)) by congruence. by rewrite IH.
Qed.

Lemma rawLines_unlines ls : Forall (fun l => newline ∉ str_bytes l) ls -> rawLines (unlines ls) = ls.
Proof. induction 1 as [|l ls Hl _ IH]; [done|]. cbn [unlines]. by rewrite rawLines_line, IH. Qed.

Lemma scanTokens_ok max ls : Forall (fun l => dropCR l = l /\ slen l < max) ls -> scanTokens max ls None = (ls, None).
Proof.
  induction 1 as [|l ls [Hd Hl] _ IH]; [done|]. cbn [scanTokens]. rewrite (proj2 (Z.leb_gt max (slen l))) by done. by rewrite IH, Hd.
Qed.

#[local] Abbreviation gt := (Ascii.ascii_of_N 62).

Lemma unquote_quote l : HasPrefix l ">From " = false -> unquoteFrom (quoteFrom l) = l.
Proof.
  intros Hq. unfold quoteFrom, unquoteFrom, isFrom in *. destruct (HasPrefix l "From ") eqn:Hf; [|by rewrite Hq].
  change (">" +:+ l) with (String gt l). unfold HasPrefix in *. unfold TrimPrefix.
  change (String.prefix ">From " (String gt l)) with (String.prefix "From " l). rewrite Hf.
  assert (String.prefix ">" (String gt l) = true) as -> by (by destruct l). cbn [String.length]. change (S (String.length l) - 1)%nat with (String.length l - 0)%nat.
  rewrite Nat.sub_0_r. cbn [String.substring]. apply substring_all.
Qed.

Lemma isFrom_quote l : isFrom (quoteFrom l) = false.
Proof. unfold quoteFrom. by destruct (isFrom l) eqn:Hl. Qed.

Lemma splitFrom_lines ls rest : Forall (fun l => isFrom l = false) ls ->
  splitFrom (ls ++ rest) = let '(pre, segs) := splitFrom rest in (ls ++ pre, segs).
Proof.
  induction 1 as [|l ls Hl _ IH]; cbn [app splitFrom]; [by destruct (splitFrom rest)|]. rewrite IH.
  destruct (splitFrom rest). by rewrite Hl.
Qed.

Lemma splitFrom_mbox msgs : splitFrom (mboxLines msgs) = ([], map (map quoteFrom) msgs).
Proof.
  induction msgs as [|m msgs IH]; [done|]. unfold mboxLines in *. cbn [map concat app splitFrom].
  rewrite splitFrom_lines, IH.
  - by rewrite app_nil_r.
  - apply Forall_map, Forall_true. intros l. apply isFrom_quote.
Qed.

Lemma segBody_quote msg : Forall mbox_line msg -> segBody (map quoteFrom msg) = unlines msg.
Proof.
  intros H. unfold segBody. assert (forall c, foldl writeLine c (map quoteFrom msg) = c +:+ unlines msg) as Hc; [|apply Hc].
  induction H as [|l msg (_ & _ & Hq & _) _ IH]; intros c; cbn [map foldl unlines]; [by rewrite str_app_nil|].
  rewrite IH. unfold writeLine. rewrite unquote_quote by done. by rewrite !str_app_assoc.
Qed.

Lemma quote_line l : mbox_line l -> (newline ∉ str_bytes (quoteFrom l)) /\ dropCR (quoteFrom l) = quoteFrom l /\ slen (quoteFrom l) < mboxMaxToken.
Proof.
  intros (Hn & Hd & _ & Hl). unfold quoteFrom. destruct (isFrom l) eqn:Hf; [|split_and!; [done|done|lia]].
  change (">" +:+ l) with (String gt l). destruct l as [|c l]; [done|]. split_and!.
  - change (str_bytes (String gt (String c l))) with (gt :: str_bytes (String c l)). apply not_elem_of_cons. by split.
  - change (dropCR (String gt (String c l))) with (String gt (dropCR (String c l))). by rewrite Hd.
  - unfold slen in *. cbn [String.length] in *. lia.
Qed.

Lemma mbox_scan msgs : Forall (Forall mbox_line) msgs -> scanLines (MkFile (mboxWrite msgs) None) = (mboxLines msgs, None).
Proof.
  intros H. assert (Forall (fun l => (newline ∉ str_bytes l) /\ dropCR l = l /\ slen l < mboxMaxToken) (mboxLines msgs)) as Hok.
  { unfold mboxLines. apply Forall_concat, Forall_map. eapply Forall_impl; [exact H|]. intros m Hm. constructor.
    - split_and!; [|done|done]. apply (bool_decide_unpack _). by vm_compute.
    - apply Forall_map. eapply Forall_impl; [exact Hm|]. apply quote_line. }
  unfold scanLines, mboxWrite. cbn [mfBytes mfErr]. rewrite rawLines_unlines, scanTokens_ok; [done|..];
    (eapply Forall_impl; [exact Hok|]); naive_solver.
Qed.

(** Writing messages as an mbox and reading them back gives them again,
    numbered in order.  Lines that start with a separator are quoted and
    unquoted; a line that already starts with a quoted separator, ends in a
    carriage return or fills the scanner's 32 MiB cannot be represented. *)
Theorem mbox_roundtrip (msgs : list (list string)) :
  Forall (Forall mbox_line) msgs -> Forall (fun msg => msg <> []) msgs ->
  parseMboxFile (fun raw o => inr (o, raw)) (inr (MkFile (mboxWrite msgs) None)) = (numbered 0 (map unlines msgs), None).
Proof.
  intros Hl Hne. rewrite (parseMboxFile_spec _ _ _ (mbox_scan msgs Hl)). unfold mboxPieces. rewrite splitFrom_mbox.
  assert (filter nonEmpty (map segBody ([] :: map (map quoteFrom) msgs)) = map unlines msgs) as ->.
  { cbn [map]. rewrite filter_cons_False by done. induction Hl as [|m msgs Hm _ IH]; [done|]. cbn [map].
    apply Forall_cons in Hne as [Hm0 Hne]. rewrite filter_cons_True.
    - by rewrite segBody_quote, IH.
    - unfold nonEmpty. rewrite segBody_pos. by destruct m. }
  generalize (map unlines msgs), 0. intros l. induction l as [|x l IH]; intros o; [done|]. cbn [numbered map untilError fst snd].
  by rewrite IH.
Qed.

(** ** Runs *)

Definition exMsgs : list (list string) := [["Subject: one"; ""; "From here on"]; ["Subject: two"; ""; "bye"]].

Lemma exMsgs_ok : Forall (Forall mbox_line) exMsgs /\ Forall (fun msg => msg <> []) exMsgs.
Proof.
  split; [|by repeat constructor].
  repeat constructor; try done; apply (bool_decide_unpack _); by vm_compute.
Qed.

Lemma mbox_roundtrip_witness :
  parseMboxFile (fun raw o => inr (o, raw)) (inr (MkFile (mboxWrite exMsgs) None)) = (numbered 0 (map unlines exMsgs), None).
Proof. apply (mbox_roundtrip exMsgs); apply exMsgs_ok. Defined.

Lemma mbox_readers_agree_witness :
  parseMboxFile (fun raw o => inr (o, raw)) (inr (MkFile (mboxWrite exMsgs) None)) =
    untilError (map (parseMboxMessageAt (fun raw o => inr (o, raw)) (inr (MkFile (mboxWrite exMsgs) None)))
      (mboxOffsets (inr (MkFile (mboxWrite exMsgs) None)))) /\
  length (mboxOffsets (inr (MkFile (mboxWrite exMsgs) None))) = 2%nat.
Proof.
  apply (mbox_readers_agree _ (MkFile (mboxWrite exMsgs) None) (mboxLines exMsgs) (map (map quoteFrom) exMsgs)).
  - vm_compute. reflexivity.
  - vm_compute. reflexivity.
  - repeat constructor; discriminate.
Defined.

(** A separator directly followed by another one. *)
Definition exGap : mfile := MkFile (unlines ["From a"; "From b"; "Subject: one"]) None.

(** With an empty message the two imports disagree: the queued import has two
    jobs, of which the first can never be read and the second reads the only
    message as number 1, the direct import reads that message as number 0; its
    external id, and with it its provenance, depends on the import. *)
Theorem mbox_empty_message_diverges :
  mboxOffsets (inr exGap) = [0; 1] /\
  parseMboxMessageAt (fun raw o => inr (o, raw)) (inr exGap) 0 = inl (ErrMsg "mbox message offset not found") /\
  parseMboxMessageAt (fun raw o => inr (o, raw)) (inr exGap) 1 = inr (1, unlines ["Subject: one"]) /\
  parseMboxFile (fun raw o => inr (o, raw)) (inr exGap) = ([(0, unlines ["Subject: one"])], None).
Proof. vm_compute. done. Qed.
