(* ===== verification/GoPath.v ===== *)
(** * Slash-separated paths: Go's [path/filepath] on Unix

    [Clean], [Join], [Base], [Dir], [Ext] and [Rel] on the text of a path, with
    the facts the import of archives needs: on the paths a directory walk
    produces, joining a name appends it and [Rel] gives back what was joined. *)

From stdpp Require Import options.
From S2P Require Import Prelude GoLib.

Definition slash : Ascii.ascii := Ascii.ascii_of_N 47.
Definition dot : Ascii.ascii := Ascii.ascii_of_N 46.

(** ** Text *)

(** [strings.Split(s, c)] for a one-byte separator. *)
Fixpoint splitOn (c : Ascii.ascii) (s : string) : list string :=
  match s with
  | EmptyString => [EmptyString]
  | String d r =>
      if Ascii.eqb d c then EmptyString :: splitOn c r
      else match splitOn c r with
           | l :: ls => String d l :: ls
           | [] => [String d EmptyString]
           end
  end.

(** [strings.Join(l, c)]. *)
Fixpoint joinWith (c : Ascii.ascii) (l : list string) : string :=
  match l with
  | [] => EmptyString
  | [x] => x
  | x :: r => x +:+ String c (joinWith c r)
  end.

(** ** [path/filepath] *)

(** One component read by [Clean]: the components kept so far, the last one first. *)
Definition cleanStep (rooted : bool) (stack : list string) (comp : string) : list string :=
  if bool_decide (comp = "") || bool_decide (comp = ".") then stack
  else if bool_decide (comp = "..") then
    match stack with
    | [] => if rooted then [] else [".."]
    | top :: rest => if bool_decide (top = "..") then ".." :: stack else rest
    end
  else comp :: stack.

(** The text of a path from its components. *)
Definition render (rooted : bool) (comps : list string) : string :=
  if rooted then String slash (joinWith slash comps)
  else match comps with [] => "." | _ => joinWith slash comps end.

Definition isRooted (path : string) : bool := HasPrefix path "/".

Definition Clean (path : string) : string :=
  render (isRooted path) (rev (foldl (cleanStep (isRooted path)) [] (splitOn slash path))).

(** [filepath.Join(a, b)]. *)
Definition Join (a b : string) : string :=
  if bool_decide (a = "") then (if bool_decide (b = "") then "" else Clean b)
  else Clean (a +:+ String slash b).

(** [filepath.Join(a, b, c)]. *)
Definition Join3 (a b c : string) : string :=
  if bool_decide (a = "") then Join b c else Clean (a +:+ String slash (b +:+ String slash c)).

(** The components of [l] without empty ones at its end. *)
Fixpoint dropTrailingEmpty (l : list string) : list string :=
  match l with
  | [] => []
  | x :: r => match dropTrailingEmpty r with
              | [] => if bool_decide (x = "") then [] else [x]
              | r' => x :: r'
              end
  end.

Definition Base (path : string) : string :=
  if bool_decide (path = "") then "."
  else match last (dropTrailingEmpty (splitOn slash path)) with Some b => b | None => "/" end.

(** [path[:i+1]] for the last separator [i], cleaned. *)
Definition Dir (path : string) : string :=
  match removelast (splitOn slash path) with
  | [] => "."
  | l => Clean (joinWith slash l +:+ "/")
  end.

(** The suffix from the last dot of the last element. *)
Fixpoint lastDot (s : string) : option string :=
  match s with
  | EmptyString => None
  | String c r =>
      match lastDot r with
      | Some e => Some e
      | None => if Ascii.eqb c dot then Some s else None
      end
  end.

Definition Ext (path : string) : string := default "" (last (splitOn slash path) ≫= lastDot).

(** [filepath.ToSlash] is the identity where the separator is a slash. *)
Definition ToSlash (path : string) : string := path.

(** The elements [Rel] compares. *)
Definition relElements (path : string) : list string :=
  if bool_decide (path = "") then [] else if bool_decide (path = "/") then [""] else splitOn slash path.

Fixpoint stripCommon (base targ : list string) : list string * list string :=
  match base, targ with
  | b :: base', t :: targ' => if bool_decide (b = t) then stripCommon base' targ' else (base, targ)
  | _, _ => (base, targ)
  end.

Definition Rel (basepath targpath : string) : option string :=
  let base := Clean basepath in
  let targ := Clean targpath in
  if bool_decide (targ = base) then Some "." else
  let base := if bool_decide (base = ".") then "" else base in
  if negb (Bool.eqb (isRooted base) (isRooted targ)) then None else
  match stripCommon (relElements base) (relElements targ) with
  | (".." :: _, _ :: _) => None
  | ([], t) => Some (joinWith slash t)
  | (b, t) => Some (joinWith slash (map (fun _ => "..") b ++ t))
  end.

(** ** Splitting and joining *)

Definition free (c : Ascii.ascii) (s : string) : bool := forallb (fun d => negb (Ascii.eqb d c)) (str_bytes s).

Lemma splitOn_ne c s : splitOn c s <> [].
Proof. destruct s as [|d s]; cbn; [done|]. destruct (Ascii.eqb d c), (splitOn c s); done. Qed.

Lemma splitOn_free c s : free c s = true -> splitOn c s = [s].
Proof.
  induction s as [|d s IH]; [done|]. unfold free. cbn. intros [Hd Hs]%andb_true_iff. apply negb_true_iff in Hd. by rewrite Hd, IH.
Qed.

Lemma splitOn_app c a b : free c a = true -> splitOn c (a +:+ String c b) = a :: splitOn c b.
Proof.
  induction a as [|d a IH]; intros Ha.
  - change (EmptyString +:+ String c b) with (String c b). cbn. by rewrite Ascii.eqb_refl.
  - unfold free in Ha. cbn in Ha. apply andb_true_iff in Ha as [Hd%negb_true_iff Ha].
    change (String d a +:+ String c b) with (String d (a +:+ String c b)). cbn. by rewrite Hd, IH.
Qed.

Lemma joinWith_cons c x y l : joinWith c (x :: y :: l) = x +:+ String c (joinWith c (y :: l)).
Proof. done. Qed.

Lemma splitOn_join c l : l <> [] -> Forall (fun x => free c x = true) l -> splitOn c (joinWith c l) = l.
Proof.
  induction l as [|x l IH]; intros Hne Hl; [done|]. inversion Hl as [|? ? Hx Hr]; subst.
  destruct l as [|y l]; [by apply splitOn_free|]. rewrite joinWith_cons, splitOn_app by done. by rewrite IH.
Qed.

Lemma joinWith_app c a b : a <> [] -> b <> [] -> joinWith c (a ++ b) = joinWith c a +:+ String c (joinWith c b).
Proof.
  intros Ha Hb. induction a as [|x a IH]; [done|]. destruct a as [|y a]; [by destruct b|].
  change ((x :: y :: a) ++ b) with (x :: y :: (a ++ b)). rewrite !joinWith_cons. change (y :: a ++ b) with ((y :: a) ++ b).
  rewrite IH by done. set (r := joinWith c (y :: a)). clear. induction x as [|d x IH]; [done|]. exact (f_equal (String d) IH).
Qed.

Lemma splitOn_free_all c s : Forall (fun x => free c x = true) (splitOn c s).
Proof.
  induction s as [|d s IH]; cbn; [by repeat constructor|]. destruct (Ascii.eqb d c) eqn:Hd; [by constructor|].
  destruct (splitOn c s) as [|l ls]; inversion IH; subst; repeat constructor; try done; unfold free in *; cbn; by rewrite Hd.
Qed.

(** ** Clean paths *)

(** A name a directory can hold. *)
Definition plain (name : string) : Prop :=
  free slash name = true /\ name <> "" /\ name <> "." /\ name <> "..".

(** The components of a clean path: going up, then down. *)
Definition norm (rooted : bool) (comps : list string) : Prop :=
  exists k names, comps = replicate k ".." ++ names /\ Forall plain names /\ (rooted = true -> k = 0).

Lemma norm_app rooted comps names : norm rooted comps -> Forall plain names -> norm rooted (comps ++ names).
Proof.
  intros (k & ns & -> & Hns & Hk) H. exists k, (ns ++ names). rewrite app_assoc. split; [done|]. split; [by apply Forall_app|done].
Qed.

Lemma norm_free rooted comps : norm rooted comps -> Forall (fun x => free slash x = true /\ x <> "" /\ x <> ".") comps.
Proof.
  intros (k & ns & -> & Hns & _). apply Forall_app. split; [by apply Forall_replicate|].
  eapply Forall_impl; [exact Hns|]. by intros x (? & ? & ? & ?).
Qed.

(** Cleaning reads normal components back as they are. *)
Lemma cleanStep_norm rooted stack comp : norm rooted (rev stack ++ [comp]) -> cleanStep rooted stack comp = comp :: stack.
Proof.
  intros (k & ns & He & Hns & Hk). unfold cleanStep. destruct ns as [|n ns _] using rev_ind.
  - rewrite app_nil_r in He. destruct k as [|k]; [by destruct (rev stack)|]. rewrite replicate_S_end in He.
    apply app_inj_tail in He as [Hs ->]. destruct rooted; [by specialize (Hk eq_refl)|]. cbn.
    destruct stack as [|top rest]; [done|]. cbn in Hs. destruct k as [|k]; [by destruct (rev rest)|].
    rewrite replicate_S_end in Hs. by apply app_inj_tail in Hs as [_ ->].
  - rewrite app_assoc in He. apply app_inj_tail in He as [_ ->]. apply Forall_app in Hns as [_ Hn].
    inversion Hn as [|? ? (_ & H1 & H2 & H3) _]; subst. by rewrite !bool_decide_false.
Qed.

Lemma norm_prefix rooted a b : norm rooted (a ++ b) -> norm rooted a.
Proof.
  revert a. induction b as [|x b IH] using rev_ind; intros a; [by rewrite app_nil_r|]. rewrite app_assoc.
  intros (k & ns & He & Hns & Hk). apply IH. destruct ns as [|n ns _] using rev_ind.
  - rewrite app_nil_r in He. destruct k as [|k]; [by destruct (a ++ b)|]. rewrite replicate_S_end in He.
    apply app_inj_tail in He as [-> _]. exists k, []. rewrite app_nil_r. split; [done|]. split; [done|]. intros H. by specialize (Hk H).
  - rewrite app_assoc in He. apply app_inj_tail in He as [-> _]. apply Forall_app in Hns as [Hns _]. by exists k, ns.
Qed.

Lemma cleanFold_norm rooted comps : norm rooted comps -> forall stack, norm rooted (rev stack ++ comps) ->
  foldl (cleanStep rooted) stack comps = rev comps ++ stack.
Proof.
  intros _. induction comps as [|c comps IH]; intros stack Hn; [done|]. cbn [foldl].
  assert (norm rooted ((rev stack ++ [c]) ++ comps)) as Hn' by by rewrite <- app_assoc.
  rewrite cleanStep_norm by by eapply norm_prefix. rewrite IH; [cbn; by rewrite <- app_assoc|].
  cbn. by rewrite <- app_assoc.
Qed.

Lemma isRooted_slash s : isRooted (String slash s) = true.
Proof. by destruct s. Qed.

Lemma isRooted_ne d s : Ascii.eqb d slash = false -> isRooted (String d s) = false.
Proof.
  intros Hd%Ascii.eqb_neq. unfold isRooted, HasPrefix. cbn [String.prefix]. destruct (Ascii.ascii_dec _ d) as [<-|]; [|done].
  by destruct Hd.
Qed.

Lemma render_rooted rooted comps : norm rooted comps -> isRooted (render rooted comps) = rooted.
Proof.
  intros Hn. destruct rooted; [apply isRooted_slash|]. destruct comps as [|c comps]; [done|]. apply norm_free in Hn. inversion Hn as [|? ? (Hf & Hne & _) _]; subst.
  destruct c as [|d c]; [done|]. unfold free in Hf. cbn in Hf. apply andb_true_iff in Hf as [Hd%negb_true_iff _].
  assert (render false (String d c :: comps) = String d (match comps with [] => c | _ => c +:+ String slash (joinWith slash comps) end)) as ->
    by by destruct comps.
  by apply isRooted_ne.
Qed.

(** What [Clean] reads of a rendered path. *)
Lemma cleanFold_render rooted comps rest : norm rooted comps ->
  foldl (cleanStep rooted) [] (splitOn slash (render rooted comps) ++ rest) = foldl (cleanStep rooted) (rev comps) rest.
Proof.
  intros Hn. rewrite foldl_app. f_equal. assert (Forall (fun x => free slash x = true) comps) as Hf.
  { eapply Forall_impl; [by eapply norm_free|]. by intros x []. }
  assert (foldl (cleanStep rooted) [] comps = rev comps) as Hc by (rewrite cleanFold_norm by done; by rewrite app_nil_r).
  destruct comps as [|c comps]; [by destruct rooted|]. destruct rooted; unfold render.
  - cbn [splitOn]. rewrite Ascii.eqb_refl, splitOn_join by done. exact Hc.
  - by rewrite splitOn_join.
Qed.

Lemma Clean_render rooted comps : norm rooted comps -> Clean (render rooted comps) = render rooted comps.
Proof.
  intros Hn. unfold Clean. rewrite render_rooted by done. pose proof (cleanFold_render rooted comps [] Hn) as H.
  rewrite app_nil_r in H. rewrite H. cbn [foldl]. by rewrite rev_involutive.
Qed.

Lemma cleanStep_keeps rooted stack comp : norm rooted (rev stack) -> free slash comp = true -> norm rooted (rev (cleanStep rooted stack comp)).
Proof.
  intros Hn Hf. unfold cleanStep. destruct (bool_decide (comp = "")) eqn:E1; [done|]. destruct (bool_decide (comp = ".")) eqn:E2; [done|].
  apply bool_decide_eq_false in E1, E2. cbn [orb]. case_bool_decide as E3.
  - destruct stack as [|top rest]; [destruct rooted; [done|by exists 1, []]|]. case_bool_decide as E4; [|cbn in Hn; by eapply norm_prefix].
    subst. destruct Hn as (k & ns & He & Hns & Hk). destruct ns as [|n ns _] using rev_ind.
    + exists (S k), []. rewrite replicate_S_end, app_nil_r. rewrite app_nil_r in He. cbn [rev] in *. rewrite He. split; [done|]. split; [done|].
      intros H. specialize (Hk H). subst k. by destruct (rev rest).
    + cbn in He. rewrite app_assoc in He. apply app_inj_tail in He as [_ <-]. apply Forall_app in Hns as [_ Hn].
      inversion Hn as [|? ? (_ & _ & _ & ?) _]; subst. done.
  - cbn [rev]. by apply norm_app; [|repeat constructor].
Qed.

Lemma cleanFold_keeps rooted path : norm rooted (rev (foldl (cleanStep rooted) [] (splitOn slash path))).
Proof.
  assert (forall l stack, Forall (fun x => free slash x = true) l -> norm rooted (rev stack) ->
    norm rooted (rev (foldl (cleanStep rooted) stack l))) as H.
  { induction l as [|x l IH]; intros stack Hl Hs; [done|]. inversion Hl; subst. apply IH; [done|]. by apply cleanStep_keeps. }
  apply H; [apply splitOn_free_all|]. by exists 0, [].
Qed.

Lemma Clean_norm path : exists comps, norm (isRooted path) comps /\ Clean path = render (isRooted path) comps.
Proof.
  unfold Clean. eexists. split; [|reflexivity]. apply cleanFold_keeps.
Qed.

(** [Clean] is idempotent. *)
Lemma Clean_idem path : Clean (Clean path) = Clean path.
Proof. destruct (Clean_norm path) as (comps & Hn & ->). by apply Clean_render. Qed.

Lemma splitOn_sep c a b : splitOn c (a +:+ String c b) = splitOn c a ++ splitOn c b.
Proof.
  induction a as [|d a IH].
  - change (EmptyString +:+ String c b) with (String c b). cbn. by rewrite Ascii.eqb_refl.
  - change (String d a +:+ String c b) with (String d (a +:+ String c b)). cbn. rewrite IH. destruct (Ascii.eqb d c); [done|].
    pose proof (splitOn_ne c a). by destruct (splitOn c a).
Qed.

Lemma render_ne rooted comps : norm rooted comps -> render rooted comps <> "".
Proof.
  intros Hn. destruct rooted; [done|]. destruct comps as [|x comps]; [done|]. apply norm_free in Hn.
  inversion Hn as [|? ? (_ & Hx & _) _]; subst. destruct x; [done|]. by destruct comps.
Qed.

Lemma render_inj rooted a b : norm rooted a -> norm rooted b -> render rooted a = render rooted b -> a = b.
Proof.
  intros Ha Hb He. pose proof (cleanFold_render rooted a [] Ha) as H. rewrite He, cleanFold_render in H by done.
  cbn in H. rewrite <- (rev_involutive a), <- H. by rewrite rev_involutive.
Qed.

(** Joining a name to a clean path appends it. *)
Lemma Join_render rooted comps name : norm rooted comps -> plain name ->
  Join (render rooted comps) name = render rooted (comps ++ [name]).
Proof.
  intros Hn Hp. unfold Join. rewrite bool_decide_false by by apply render_ne. unfold Clean.
  assert (isRooted (render rooted comps +:+ String slash name) = rooted) as ->.
  { rewrite <- (render_rooted rooted comps) at 2 by done. pose proof (render_ne rooted comps Hn).
    destruct (render rooted comps) as [|d s]; [done|]. change (String d s +:+ String slash name) with (String d (s +:+ String slash name)).
    destruct (Ascii.eqb d slash) eqn:Hd; [apply Ascii.eqb_eq in Hd as ->; by rewrite !isRooted_slash|by rewrite !isRooted_ne]. }
  rewrite splitOn_sep, cleanFold_render by done. rewrite splitOn_free by apply Hp. cbn [foldl].
  rewrite cleanStep_norm by (rewrite rev_involutive; apply norm_app; [done|by constructor]). cbn [rev]. by rewrite rev_involutive.
Qed.

Lemma relElements_render rooted comps : norm rooted comps -> (rooted = true \/ comps <> []) ->
  relElements (render rooted comps) = if rooted then "" :: comps else comps.
Proof.
  intros Hn Hne. unfold relElements. rewrite bool_decide_false by by apply render_ne.
  assert (Forall (fun x => free slash x = true) comps) as Hf.
  { eapply Forall_impl; [by eapply norm_free|]. by intros x []. }
  destruct comps as [|x comps]; [destruct Hne as [->|]; done|]. rewrite bool_decide_false.
  - destruct rooted; unfold render; [cbn [splitOn]; rewrite Ascii.eqb_refl|]; by rewrite splitOn_join.
  - intros He. change "/" with (render true []) in He. destruct rooted.
    + apply render_inj in He; [done|done|by exists 0, []].
    + pose proof (render_rooted false _ Hn) as Hr. rewrite He in Hr. done.
Qed.

Lemma stripCommon_app p a b : stripCommon (p ++ a) (p ++ b) = stripCommon a b.
Proof. induction p as [|x p IH]; [done|]. cbn. by rewrite bool_decide_true. Qed.

(** [Rel] gives back what was joined. *)
Lemma Rel_render rooted comps names : norm rooted comps -> Forall plain names ->
  Rel (render rooted comps) (render rooted (comps ++ names)) = Some (render false names).
Proof.
  intros Hn Hp. pose proof (norm_app _ _ _ Hn Hp) as Hn'. unfold Rel. rewrite !Clean_render by done.
  destruct names as [|n names]; [rewrite app_nil_r, bool_decide_true; done|].
  rewrite bool_decide_false.
  2:{ intros He%render_inj; [|done|done]. apply (f_equal length) in He. rewrite length_app in He. cbn in He. lia. }
  case_bool_decide as Hdot.
  - change "." with (render false []) in Hdot. destruct rooted; [done|]. apply render_inj in Hdot as ->; [|done|by exists 0, []].
    cbn [app] in *. rewrite render_rooted by done. cbn [isRooted negb Bool.eqb]. rewrite (relElements_render false) by (try done; by right). done.
  - rewrite !render_rooted, Bool.eqb_reflx by done. cbn [negb].
    assert (rooted = true \/ comps <> []) as Hc by (destruct rooted; [by left|right; by intros ->]).
    rewrite !relElements_render by (try done; right; by destruct comps). destruct rooted; cbn [stripCommon].
    + rewrite bool_decide_true by done. rewrite <- (app_nil_r comps) at 1. by rewrite stripCommon_app.
    + rewrite <- (app_nil_r comps) at 1. by rewrite stripCommon_app.
Qed.

Lemma joinWith_split c s : joinWith c (splitOn c s) = s.
Proof.
  induction s as [|d s IH]; [done|]. cbn [splitOn]. pose proof (splitOn_ne c s). destruct (Ascii.eqb d c) eqn:Hd.
  - apply Ascii.eqb_eq in Hd as ->. destruct (splitOn c s) as [|l ls]; [done|]. rewrite joinWith_cons, IH. done.
  - destruct (splitOn c s) as [|l ls]; [done|]. rewrite <- IH. by destruct ls.
Qed.

Lemma splitOn_inj c s t : splitOn c s = splitOn c t -> s = t.
Proof. intros H. by rewrite <- (joinWith_split c s), H, joinWith_split. Qed.

Lemma free_app c a b : free c (a +:+ b) = free c a && free c b.
Proof.
  induction a as [|d a IH]; [done|]. change (String d a +:+ b) with (String d (a +:+ b)). unfold free in *. cbn. by rewrite IH, andb_assoc.
Qed.

Lemma free_render c rooted comps : Ascii.eqb slash c = false -> Ascii.eqb dot c = false ->
  Forall (fun x => free c x = true) comps -> free c (render rooted comps) = true.
Proof.
  intros Hs Hd Hc. assert (free c (joinWith slash comps) = true) as Hj.
  { induction Hc as [|x l Hx _ IH]; [done|]. destruct l as [|y l]; [done|]. rewrite joinWith_cons, free_app, Hx.
    unfold free in *. cbn [str_bytes forallb]. by rewrite Hs. }
  destruct rooted; unfold render.
  - unfold free in *. cbn [str_bytes forallb]. by rewrite Hs.
  - destruct comps; [|done]. unfold free. cbn [str_bytes forallb]. change (Ascii.Ascii false true true true false true false false) with dot. by rewrite Hd.
Qed.

Lemma isRooted_app a b : a <> "" -> isRooted (a +:+ b) = isRooted a.
Proof.
  destruct a as [|d s]; [done|]. intros _. change (String d s +:+ b) with (String d (s +:+ b)).
  destruct (Ascii.eqb d slash) eqn:Hd; [apply Ascii.eqb_eq in Hd as ->; by rewrite !isRooted_slash|by rewrite !isRooted_ne].
Qed.

(** Cleaning the front of a path first makes no difference. *)
Lemma Clean_front a b : a <> "" -> Clean (Clean a +:+ String slash b) = Clean (a +:+ String slash b).
Proof.
  intros Ha. destruct (Clean_norm a) as (comps & Hn & Hc). pose proof Hc as Hst. unfold Clean in Hst at 1.
  assert (rev (foldl (cleanStep (isRooted a)) [] (splitOn slash a)) = comps) as Hf.
  { apply (render_inj (isRooted a)); [apply cleanFold_keeps|done|done]. }
  unfold Clean at 1 3. rewrite isRooted_app by (rewrite Hc; by apply render_ne). rewrite isRooted_app by done.
  rewrite Hc, render_rooted by done. do 2 f_equal. rewrite !splitOn_sep, cleanFold_render, foldl_app by done.
  by rewrite <- Hf, rev_involutive.
Qed.

Lemma str_sep_assoc a b c : (a +:+ String slash b) +:+ String slash c = a +:+ String slash (b +:+ String slash c).
Proof. induction a as [|d a IH]; [done|]. exact (f_equal (String d) IH). Qed.

Lemma Join3_Join a b c : a <> "" -> Join3 a b c = Join (Join a b) c.
Proof.
  intros Ha. unfold Join3, Join. rewrite !(bool_decide_false (a = "")) by done.
  destruct (Clean_norm (a +:+ String slash b)) as (comps & Hn & Hc).
  rewrite bool_decide_false by (rewrite Hc; by apply render_ne). rewrite Clean_front by by destruct a.
  by rewrite str_sep_assoc.
Qed.

Lemma last_dropTrailing l x : x <> "" -> last (dropTrailingEmpty (l ++ [x])) = Some x.
Proof.
  intros Hx. assert (dropTrailingEmpty (l ++ [x]) = l ++ [x]) as ->; [|apply last_snoc].
  induction l as [|y l IH]; cbn; [by rewrite bool_decide_false|]. rewrite IH. by destruct (l ++ [x]) eqn:E; [destruct l|].
Qed.

(** The last element of a clean path. *)
Lemma Base_render rooted comps name : norm rooted comps -> plain name -> Base (render rooted (comps ++ [name])) = name.
Proof.
  intros Hn Hp. assert (norm rooted (comps ++ [name])) as Hn' by (apply norm_app; [done|by constructor]).
  unfold Base. rewrite bool_decide_false by by apply render_ne.
  assert (Forall (fun x => free slash x = true) (comps ++ [name])) as Hf.
  { eapply Forall_impl; [by eapply norm_free|]. by intros x []. }
  assert (exists l, splitOn slash (render rooted (comps ++ [name])) = l ++ [name]) as [l ->].
  { destruct rooted; unfold render.
    - cbn [splitOn]. rewrite Ascii.eqb_refl, splitOn_join by (try done; by destruct comps). by exists ("" :: comps).
    - exists comps. destruct (comps ++ [name]) eqn:E; [by destruct comps|]. rewrite <- E in *. rewrite splitOn_join; [done|by destruct comps|done]. }
  by rewrite last_dropTrailing by apply Hp.
Qed.

Lemma Base_Join dir name : dir <> "" -> plain name -> Base (Join (Clean dir) name) = name.
Proof.
  intros Hd Hp. destruct (Clean_norm dir) as (comps & Hn & ->). rewrite Join_render by done. by apply Base_render.
Qed.
