(* ===== verification/ArchiveFiles.v ===== *)
(** * Mail archives on disk: the file rules of [source/archive_import.go]

    Which files of an archive hold mail and in which format, the walk over a
    directory, how a message is named after its file, and the count of messages
    the progress display starts from.  The file system is what [os.Stat],
    [os.ReadDir] and reading a file answer during a run; it has no symbolic
    links.  The parser of a mail message ([mailmessage.Parse]) is an argument. *)

From stdpp Require Import options.
From S2P Require Import Prelude GoLib GoText Contracts Meta Jobs Mbox GoPath.

Local Open Scope Z_scope.

(** ** The file system *)

(** A file, or a directory with the entries [os.ReadDir] returns, in the order of
    their names, and its error. *)
#[warnings="-register-all"]
Inductive tree := TFile | TDir (entries : list (string * tree)) (err : option GoError).

Record FileSystem := MkFS { fsStat : string -> GoError + tree; fsOpen : string -> GoError + mfile }.

Definition isDir (t : tree) : bool := match t with TDir _ _ => true | TFile => false end.

(** [filepath.WalkDir] from an entry of the tree.  The function is given the
    path, the name, whether it is a directory, and an error of [os.ReadDir]; it
    returns true for [filepath.SkipDir]. *)
Fixpoint walkDir {S} (fn : string -> string -> bool -> option GoError -> SM S bool) (path name : string) (t : tree) : SM S bool :=
  match t with
  | TFile => fn path name false None
  | TDir entries err =>
      skip ← fn path name true None;
      if skip : bool then mret false else
      skip ← (match err with Some e => fn path name true (Some e) | None => mret false end);
      if skip : bool then mret false else
      (fix go (l : list (string * tree)) : SM S bool :=
         match l with
         | [] => mret false
         | (n, t') :: r => skip ← walkDir fn (Join path n) n t'; if skip : bool then mret false else go r
         end) entries
  end.

Definition WalkDir {S} (fn : string -> string -> bool -> option GoError -> SM S bool) (root : string) (t : tree) : SM S unit :=
  _ ← walkDir fn root (Base root) t; mret tt.

(** ** Formats *)

Definition ArchiveImportFormatAuto : string := "auto".
Definition ArchiveImportFormatMaildir : string := "maildir".
Definition ArchiveImportFormatMbox : string := "mbox".
Definition ArchiveImportFormatNNML : string := "nnml".
Definition ArchiveImportFormatMH : string := "mh".
Definition ArchiveImportFormatEMLDir : string := "eml-dir".

(** [strings.Contains(s, p)]. *)
Fixpoint Contains (s p : string) : bool :=
  HasPrefix s p || match s with EmptyString => false | String _ r => Contains r p end.

Definition shouldSkipArchiveDir (name : string) : bool :=
  bool_decide (name = "tmp") || bool_decide (name = ".git").

Definition shouldSkipArchiveFile (name : string) : bool :=
  let lower := ToLower name in
  HasPrefix name "." || HasSuffix lower ".msf" || Contains lower ".ibex." || HasSuffix lower ".cmeta" ||
  HasSuffix lower ".ev-summary" || HasSuffix lower ".ev-summary-meta" || HasSuffix lower ".index" ||
  HasSuffix lower ".index.ids" || HasSuffix lower ".index.sorted" || HasSuffix lower ".xml".

(** The regular expression [^[0-9]+$]. *)
Definition numberedMailFilePattern (name : string) : bool :=
  negb (bool_decide (name = "")) && forallb isDigit (str_bytes name).

(** The lines [bufio.Reader.ReadString('\n')] returns without an error. *)
Fixpoint completeLines (s : string) : list string :=
  match s with
  | EmptyString => []
  | String c r =>
      if Ascii.eqb c newline then String c EmptyString :: completeLines r
      else match completeLines r with
           | [] => []
           | l :: ls => String c l :: ls
           end
  end.

Section rules.
Context (fs : FileSystem).

Definition hasSiblingDir (path name : string) : bool :=
  match fsStat fs (Join path name) with inr t => isDir t | inl _ => false end.

Definition looksLikeMboxPath (path : string) : bool :=
  let name := Base path in
  if Contains name "." || HasSuffix name "~" then false else
  match fsOpen fs path with
  | inl _ => false
  | inr file => match completeLines (mfBytes file) with line :: _ => HasPrefix line "From " | [] => false end
  end.

Fixpoint rfc822Loop (n : nat) (lines : list string) : bool :=
  match n, lines with
  | S n, line :: r =>
      let lower := ToLower line in
      if HasPrefix lower "message-id:" || HasPrefix lower "from:" || HasPrefix lower "subject:" then true
      else if blank line then false else rfc822Loop n r
  | _, _ => false
  end.

Definition looksLikeRFC822File (path : string) : bool :=
  match fsOpen fs path with
  | inl _ => false
  | inr file => rfc822Loop 20 (completeLines (mfBytes file))
  end.

Definition detectArchiveFileFormat (path requested : string) : string :=
  if negb (bool_decide (requested = "")) && negb (bool_decide (requested = ArchiveImportFormatAuto)) then requested else
  let name := Base path in
  if HasPrefix name "." then "" else
  if HasSuffix (ToLower name) ".eml" then ArchiveImportFormatEMLDir else
  let parent := Base (Dir path) in
  if (bool_decide (parent = "cur") || bool_decide (parent = "new")) && hasSiblingDir (Dir (Dir path)) "tmp"
  then ArchiveImportFormatMaildir else
  if numberedMailFilePattern name then ArchiveImportFormatNNML else
  if looksLikeMboxPath path then ArchiveImportFormatMbox else
  if looksLikeRFC822File path then ArchiveImportFormatEMLDir else "".

End rules.

(** ** Names of messages *)

Definition archiveExternalID (relative : string) (offset : Z) : string :=
  if 0 <? offset then ToSlash relative +:+ "#" +:+ FormatUint (Z.to_N offset) else ToSlash relative.

Definition TrimSuffix (s suffix : string) : string :=
  if HasSuffix s suffix then String.substring 0 (String.length s - String.length suffix) s else s.

Definition archiveMailbox (relative format : string) : string :=
  let clean := ToSlash (Clean relative) in
  if bool_decide (format = ArchiveImportFormatMaildir) then
    let dir := Dir (Dir clean) in if bool_decide (dir = ".") then "maildir" else dir
  else if bool_decide (format = ArchiveImportFormatMbox) then TrimSuffix clean (Ext clean)
  else let dir := Dir clean in if bool_decide (dir = ".") then format else dir.

Definition sourceNameFromRoot (root : string) : string :=
  let base := TrimSpace (Base (Clean root)) in
  if bool_decide (base = "") || bool_decide (base = ".") || bool_decide (base = "/") then "archive" else base.

(** ** Messages *)

Record archiveMessage (Mail : Type) := MkArchiveMessage {
  amMessage : Mail; amObservedAt : Time; amSourcePath : string; amMailbox : string; amFormat : string;
  amExternalID : string; amExternalVersion : string }.
Arguments MkArchiveMessage {Mail} _ _ _ _ _ _ _.
Arguments amMessage {Mail} _.
Arguments amObservedAt {Mail} _.
Arguments amSourcePath {Mail} _.
Arguments amMailbox {Mail} _.
Arguments amFormat {Mail} _.
Arguments amExternalID {Mail} _.
Arguments amExternalVersion {Mail} _.

Section parse.
Context {Mail : Type} (mailParse : string -> string -> GoError + Mail) (sha256Hex : string -> string).

Definition parseArchiveMessage (now : Time) (raw path root format : string) (offset : Z) : GoError + archiveMessage Mail :=
  match mailParse raw path with
  | inl e => inl (ErrWrap "parse archive mail message" e)
  | inr canonical =>
      match Rel root path with
      | None => inl (ErrWrap "resolve archive message path" (ErrMsg "Rel: can't make path relative"))
      | Some rel => inr (MkArchiveMessage canonical now (Clean path) (archiveMailbox rel format) format
                           (archiveExternalID rel offset) (sha256Hex raw))
      end
  end.

Definition parseArchiveFile (fs : FileSystem) (now : Time) (path root format : string) (offset : Z) : GoError + archiveMessage Mail :=
  match fsOpen fs path with
  | inl e => inl e
  | inr file =>
      match mfErr file with
      | Some e => inl e
      | None => parseArchiveMessage now (mfBytes file) path root format offset
      end
  end.

End parse.

(** ** Counting *)

Section count.
Context {W : Type} (fs : FileSystem) (ctxErr : SM W unit).

Definition countArchiveFileMessages (path format : string) : Z * option GoError :=
  if bool_decide (format = "") then (0, None)
  else if bool_decide (format = ArchiveImportFormatMbox) then
    match forEachMboxMessageOffset (fsOpen fs path) (fun _ _ => smodify (fun n => n + 1)) 0 with
    | (Err e, n) => (n, Some e)
    | (_, n) => (n, None)
    end
  else (1, None).

(** The state of the walk: the world and the total. *)
Definition onFst {A} (m : SM W A) : SM (W * Z) A := fun s => let '(r, w) := m s.1 in (r, (w, s.2)).

Definition countEntry (requestedFormat path name : string) (dir : bool) (err : option GoError) : SM (W * Z) bool :=
  _ ← scheck err;
  _ ← onFst ctxErr;
  if dir then mret (shouldSkipArchiveDir name)
  else if shouldSkipArchiveFile name then mret false
  else
    let '(count, err) := countArchiveFileMessages path (detectArchiveFileFormat fs path requestedFormat) in
    _ ← smodify (fun s : W * Z => (s.1, s.2 + count));
    _ ← scheck err;
    mret false.

(** The total so far, and the error. *)
Definition countArchiveRootMessages (root requestedFormat : string) : SM W (Z * option GoError) := fun w =>
  match fsStat fs root with
  | inl e => (Ok (0, Some e), w)
  | inr TFile =>
      let format := detectArchiveFileFormat fs root requestedFormat in
      (Ok (if bool_decide (format = "") then (1, None) else countArchiveFileMessages root format), w)
  | inr t =>
      match WalkDir (countEntry requestedFormat) root t (w, 0) with
      | (Ok _, (w', n)) => (Ok (n, None), w')
      | (Err e, (w', n)) => (Ok (n, Some e), w')
      | (Panic, (w', _)) => (Panic, w')
      end
  end.

Definition countArchiveImportMessages (roots : list string) (format : string) : SM W Z :=
  sforM roots 0 (fun total root =>
    r ← countArchiveRootMessages (Clean root) format;
    _ ← (match r.2 with Some _ => ctxErr | None => mret tt end);
    mret (total + r.1)).

End count.

(** ** The files of a walk *)

(** Induction over directories. *)
Lemma tree_rect' (P : tree -> Prop) : P TFile -> (forall es err, Forall (fun e => P e.2) es -> P (TDir es err)) -> forall t, P t.
Proof.
  intros Hf Hd. fix IH 1. intros [|es err]; [exact Hf|]. apply Hd. induction es as [|[n t] es IHes]; constructor; [apply IH|apply IHes].
Qed.

(** The files the walk looks at, in its order. *)
Fixpoint walkedFiles (path name : string) (t : tree) : list string :=
  match t with
  | TFile => if shouldSkipArchiveFile name then [] else [path]
  | TDir entries _ =>
      if shouldSkipArchiveDir name then [] else
      (fix go (l : list (string * tree)) : list string :=
         match l with
         | [] => []
         | (n, t') :: r => walkedFiles (Join path n) n t' ++ go r
         end) entries
  end.

(** Every name of the tree satisfies [P]. *)
Fixpoint namesAll (P : string -> Prop) (t : tree) : Prop :=
  match t with
  | TFile => True
  | TDir entries _ =>
      (fix go (l : list (string * tree)) : Prop :=
         match l with
         | [] => True
         | (n, t') :: r => P n /\ namesAll P t' /\ go r
         end) entries
  end.

(** The paths of the walk are below its root, by names of the tree. *)
Lemma walkedFiles_below P rooted comps name t : (forall n, P n -> plain n) -> norm rooted comps -> namesAll P t ->
  Forall (fun p => exists names, Forall P names /\ p = render rooted (comps ++ names)) (walkedFiles (render rooted comps) name t).
Proof.
  intros HP. revert comps name. induction t as [|es err IH] using tree_rect'; intros comps name Hn Ht; cbn [walkedFiles].
  - destruct (shouldSkipArchiveFile name); constructor; [|constructor]. exists []. by rewrite app_nil_r.
  - destruct (shouldSkipArchiveDir name); [constructor|]. cbn [namesAll] in Ht. induction IH as [|[n t] es Ht' _ IH]; [constructor|].
    destruct Ht as (Hpn & Hpt & Hes). apply Forall_app. split; [|by apply IH].
    rewrite Join_render by auto. eapply Forall_impl; [apply (Ht' (comps ++ [n]) n); [apply norm_app; [done|by repeat constructor; apply HP]|done]|].
    cbn beta. intros p (names & Hns & ->). exists (n :: names). split; [by constructor|]. by rewrite <- app_assoc.
Qed.

Definition hashMark : Ascii.ascii := Ascii.ascii_of_N 35.

Lemma FormatUint_inj a b : FormatUint a = FormatUint b -> a = b.
Proof.
  intros H. apply (f_equal (fun s => parseDigits (str_bytes s) 0)) in H. unfold FormatUint in H.
  rewrite !String.list_ascii_of_string_of_list_ascii in H. rewrite !parse_format in H by apply size_nat_bound. by injection H.
Qed.

Lemma externalID_inj r1 r2 o1 o2 : free hashMark r1 = true -> free hashMark r2 = true -> 0 <= o1 -> 0 <= o2 ->
  archiveExternalID r1 o1 = archiveExternalID r2 o2 -> r1 = r2 /\ o1 = o2.
Proof.
  intros H1 H2 Ho1 Ho2 He. unfold archiveExternalID, ToSlash in He.
  assert (forall r o, r +:+ "#" +:+ FormatUint (Z.to_N o) = r +:+ String hashMark (FormatUint (Z.to_N o))) as Hh by done.
  rewrite !Hh in He. apply (f_equal (splitOn hashMark)) in He.
  destruct (0 <? o1) eqn:E1, (0 <? o2) eqn:E2; rewrite ?splitOn_app, ?(splitOn_free _ r1), ?(splitOn_free _ r2) in He by done.
  - injection He as -> He%splitOn_inj%FormatUint_inj. split; [done|]. lia.
  - apply (f_equal tail) in He. by destruct (splitOn_ne hashMark (FormatUint (Z.to_N o1))).
  - apply (f_equal tail) in He. by destruct (splitOn_ne hashMark (FormatUint (Z.to_N o2))).
  - injection He as ->. apply Z.ltb_ge in E1, E2. split; [done|lia].
Qed.

(** Within one archive no two messages share an external id.  For any
    directory whose names have no hash mark, any two messages parsed from files
    of the walk under the same root, mbox messages by their offset, have the same
    external id only when they are the same message of the same file. *)
Theorem external_ids_distinct {Mail} (mailParse : string -> string -> GoError + Mail) (sha256Hex : string -> string)
    (root : string) (t : tree) (p1 p2 : string) (t1 t2 : Time) (raw1 raw2 f1 f2 : string) (o1 o2 : Z) m1 m2 :
  let dir := Clean root in
  namesAll (fun n => plain n /\ free hashMark n = true) t ->
  p1 ∈ walkedFiles dir (Base dir) t -> p2 ∈ walkedFiles dir (Base dir) t -> 0 <= o1 -> 0 <= o2 ->
  parseArchiveMessage mailParse sha256Hex t1 raw1 p1 dir f1 o1 = inr m1 ->
  parseArchiveMessage mailParse sha256Hex t2 raw2 p2 dir f2 o2 = inr m2 ->
  amExternalID m1 = amExternalID m2 -> p1 = p2 /\ o1 = o2.
Proof.
  intros dir Ht Hp1 Hp2 Ho1 Ho2 H1 H2 He. subst dir. destruct (Clean_norm root) as (comps & Hn & Hc). rewrite Hc in *.
  set (rooted := isRooted root) in *. unfold parseArchiveMessage in H1, H2.
  pose proof (walkedFiles_below (fun n => plain n /\ free hashMark n = true) rooted comps (Base (render rooted comps)) t ltac:(by intros n [? _]) Hn Ht) as Hall.
  rewrite Forall_forall in Hall. destruct (Hall p1 Hp1) as (n1 & Hn1 & ->), (Hall p2 Hp2) as (n2 & Hn2 & ->).
  apply Forall_and in Hn1 as [Hn1 Hf1], Hn2 as [Hn2 Hf2]. rewrite Rel_render in H1, H2 by done.
  destruct (mailParse raw1 _), (mailParse raw2 _); try done. injection H1 as <-. injection H2 as <-. change (archiveExternalID (render false n1) o1 = archiveExternalID (render false n2) o2) in He.
  apply externalID_inj in He as [He ->]; [|by apply free_render..|done|done]. split; [|done].
  apply render_inj in He as ->; [done|by exists 0%nat, n1|by exists 0%nat, n2].
Qed.

(** Two mail directories and a mailbox under "/mail". *)
Definition exTree : tree := TDir [("foo", TDir [("1", TFile)] None); ("foo-bar", TDir [("1", TFile)] None); ("inbox", TFile)] None.

Lemma external_ids_distinct_witness :
  let m o := MkArchiveMessage tt 0 "/mail/inbox" "inbox" "mbox" (archiveExternalID "inbox" o) "v" in
  amExternalID (m 1) = amExternalID (m 1) /\ "/mail/inbox" = "/mail/inbox" /\ 1 = 1.
Proof.
  intros m. split; [done|]. apply (external_ids_distinct (fun _ _ => inr tt) (fun _ => "v") "/mail/" exTree "/mail/inbox" "/mail/inbox"
    0 0 "raw" "raw" "mbox" "mbox" 1 1 (m 1) (m 1)); try done; try (vm_compute; by repeat constructor).
Defined.
