(* ===== verification/ArchiveState.v ===== *)
(** * Files of an archive import run: [source/archive_import_runs.go] and the
    state of [source/archive_import_queue.go]

    The resume state of a queued import and the registry of runs, both replaced
    by writing a temporary file and renaming it.  The file operations are any
    with the behaviour of package [os]; every one of them can fail. *)

From stdpp Require Import options.
From S2P Require Import Prelude GoLib GoText Contracts Meta Jobs GoPath.

Local Open Scope Z_scope.

(** ** Data *)

Record archiveImportRunState := MkRunState {
  isUpdatedAt : Time; isRunID : string; isSourceName : string; isLastPath : string; isLastOffset : Z; isScanned : Z;
  isParsed : Z; isEnqueued : Z; isProcessed : Z; isFailures : Z; isDiscoveryDone : bool; isLowNoise : bool; isDryRun : bool }.

Definition zeroRunState : archiveImportRunState := MkRunState zeroTime "" "" "" 0 0 0 0 0 0 false false false.

Definition touchRunState (t : Time) (s : archiveImportRunState) : archiveImportRunState :=
  MkRunState t (isRunID s) (isSourceName s) (isLastPath s) (isLastOffset s) (isScanned s) (isParsed s) (isEnqueued s)
    (isProcessed s) (isFailures s) (isDiscoveryDone s) (isLowNoise s) (isDryRun s).

Record ImportRunRecord := MkRunRecord {
  irRunID : string; irSourceName : string; irSourceKind : string; irRoots : list string; irFormat : string; irStatus : string;
  irStartedAt : Time; irFinishedAt : Time; irUpdatedAt : Time; irScanned : Z; irParsed : Z; irImported : Z; irDuplicates : Z;
  irFailures : Z; irLowNoise : bool; irDryRun : bool }.

Definition touchRunRecord (t : Time) (r : ImportRunRecord) : ImportRunRecord :=
  MkRunRecord (irRunID r) (irSourceName r) (irSourceKind r) (irRoots r) (irFormat r) (irStatus r) (irStartedAt r) (irFinishedAt r) t
    (irScanned r) (irParsed r) (irImported r) (irDuplicates r) (irFailures r) (irLowNoise r) (irDryRun r).

Definition ImportRunStatusRunning : string := "running".
Definition ImportRunStatusEnqueued : string := "enqueued".
Definition ImportRunStatusCompleted : string := "completed".
Definition ImportRunStatusCompletedWithFailures : string := "completed_with_failures".
Definition ImportRunStatusFailed : string := "failed".
Definition ImportRunStatusDeleted : string := "deleted".

Definition archiveImportStateFile : string := "state.json".
Definition archiveImportRunFile : string := "run.json".

(** ** Files *)

(** Package [os] on small files, and the clock. *)
Class StateFiles (W : Type) := {
  sfNow : SM W Time;
  sfMkdirAll : string -> SM W unit;
  sfCreateTemp : string -> string -> SM W string;
  sfWrite : string -> string -> SM W unit;
  sfSync : string -> SM W unit;
  sfClose : string -> SM W unit;
  sfRename : string -> string -> SM W unit;
  sfRemove : string -> SM W unit;
  sfReadFile : string -> SM W string;
  sfReadDir : string -> SM W (list (string * bool));
  sfFile : W -> string -> option string }.          (* what a file holds *)

(** [encoding/json] on the two records. *)
Class RunJSON := {
  encodeState : archiveImportRunState -> GoError + string;
  decodeState : string -> GoError + archiveImportRunState;
  encodeRecord : ImportRunRecord -> GoError + string;
  decodeRecord : string -> GoError + ImportRunRecord }.

Class RunJSONLaws (J : RunJSON) : Prop := {
  decode_encodeState : forall s b, encodeState s = inr b -> decodeState b = inr s;
  decode_encodeRecord : forall r b, encodeRecord r = inr b -> decodeRecord b = inr r }.

Section operations.
Context {W : Type} `{!StateFiles W} {J : RunJSON}.

Definition fromSum {A} (r : GoError + A) : SM W A := match r with inl e => sfail e | inr a => mret a end.

(** An error after which the file is closed. *)
Definition orClose (name : string) (m : SM W unit) : SM W unit :=
  r ← stry m;
  match r with inl e => _ ← stry (sfClose name); sfail e | inr _ => mret tt end.

(** [defer] while [cleanup] is set. *)
Definition orRemove (name : string) (m : SM W unit) : SM W unit :=
  r ← stry m;
  match r with inl e => _ ← stry (sfRemove name); sfail e | inr _ => mret tt end.

Definition saveArchiveImportState (stateDir : string) (state : archiveImportRunState) : SM W unit :=
  if blank stateDir then mret tt else
  t ← sfNow;
  let state := touchRunState t state in
  let dir := Join stateDir (isRunID state) in
  _ ← sfMkdirAll dir;
  encoded ← fromSum (encodeState state);
  let path := Join dir archiveImportStateFile in
  tmp ← sfCreateTemp dir ".state.";
  orRemove tmp (
    _ ← orClose tmp (sfWrite tmp encoded);
    _ ← orClose tmp (sfSync tmp);
    _ ← sfClose tmp;
    sfRename tmp path).

Definition loadArchiveImportState (stateDir runID : string) : SM W archiveImportRunState :=
  if blank stateDir then mret zeroRunState else
  let path := Join3 stateDir runID archiveImportStateFile in
  r ← stry (sfReadFile path);
  match r with
  | inl e => if isNotExist e then mret zeroRunState else sfail e
  | inr content => swrap "decode archive import state" (fromSum (decodeState content))
  end.

Definition WriteImportRunRecord (stateDir : string) (record : ImportRunRecord) : SM W unit :=
  if blank stateDir || blank (irRunID record) then mret tt else
  t ← sfNow;
  let record := touchRunRecord t record in
  let dir := Join stateDir (irRunID record) in
  _ ← sfMkdirAll dir;
  encoded ← fromSum (encodeRecord record);
  temp ← sfCreateTemp dir ".run.";
  orRemove temp (
    _ ← orClose temp (sfWrite temp encoded);
    _ ← sfClose temp;
    sfRename temp (Join dir archiveImportRunFile)).

Definition LoadImportRunRecord (stateDir runID : string) : SM W (option ImportRunRecord) :=
  if blank stateDir || blank runID then mret None else
  r ← stry (sfReadFile (Join3 stateDir runID archiveImportRunFile));
  match r with
  | inl e => if isNotExist e then mret None else sfail e
  | inr content => swrap "decode import run record" (record ← fromSum (decodeRecord content); mret (Some record))
  end.

Definition listRunEntry (stateDir : string) (records : list ImportRunRecord) (entry : string * bool) : SM W (list ImportRunRecord) :=
  if negb entry.2 then mret records else
  found ← LoadImportRunRecord stateDir entry.1;
  mret (match found with Some record => records ++ [record] | None => records end).

(** Runs started at the same time are listed in the order of their names. *)
Definition ListImportRunRecords (stateDir : string) : SM W (list ImportRunRecord) :=
  if blank stateDir then mret [] else
  r ← stry (sfReadDir stateDir);
  match r with
  | inl e => if isNotExist e then mret [] else sfail e
  | inr entries =>
      records ← sforM entries [] (listRunEntry stateDir);
      mret (sortStable (fun a b => After (irStartedAt a) (irStartedAt b)) records)
  end.

End operations.

(** ** What package [os] promises *)

(** Only the files in [P] can change. *)
Definition touches {W} `{!StateFiles W} (P : string -> Prop) (w w' : W) : Prop := forall p, ~ P p -> sfFile w' p = sfFile w p.

Class StateFilesLaws (W : Type) `{!StateFiles W} : Prop := {
  fl_now : forall w, post sfNow w (fun _ w' => touches (fun _ => False) w w');
  fl_mkdir : forall d w, post (sfMkdirAll d) w (fun _ w' => touches (fun _ => False) w w');
  fl_sync : forall f w, post (sfSync f) w (fun _ w' => touches (fun _ => False) w w');
  fl_close : forall f w, post (sfClose f) w (fun _ w' => touches (fun _ => False) w w');
  fl_readDir : forall d w, post (sfReadDir d) w (fun _ w' => touches (fun _ => False) w w');
  (** a new file, its name starting with the pattern *)
  fl_temp : forall dir pat w, post (sfCreateTemp dir pat) w (fun r w' =>
    match r with
    | inl _ => touches (fun _ => False) w w'
    | inr name => HasPrefix (Base name) pat = true /\ sfFile w name = None /\ sfFile w' name = Some EmptyString /\
        touches (eq name) w w'
    end);
  fl_write : forall f c w, post (sfWrite f c) w (fun r w' => touches (eq f) w w' /\
    (r = inr tt -> sfFile w' f = (fun old => old +:+ c) <$> sfFile w f));
  fl_remove : forall f w, post (sfRemove f) w (fun _ w' => touches (eq f) w w');
  fl_rename : forall a b w, post (sfRename a b) w (fun r w' =>
    match r with
    | inl _ => touches (fun _ => False) w w'
    | inr _ => touches (fun p => p = a \/ p = b) w w' /\ sfFile w' b = sfFile w a
    end);
  fl_read : forall f w, post (sfReadFile f) w (fun r w' => touches (fun _ => False) w w' /\
    match r with
    | inr c => sfFile w f = Some c
    | inl e => isNotExist e = true -> sfFile w f = None
    end) }.

Section proofs.
Context {W : Type} `{!StateFiles W, !StateFilesLaws W} {J : RunJSON}.

Lemma touches_refl (P : string -> Prop) (w : W) : touches P w w.
Proof using Type. done. Qed.

Lemma touches_trans (P Q : string -> Prop) (w1 w2 w3 : W) : (forall p, P p -> Q p) -> touches P w1 w2 -> touches Q w2 w3 -> touches Q w1 w3.
Proof using Type. intros HPQ H1 H2 p Hp. rewrite H2 by done. apply H1. auto. Qed.

Lemma touches_trans_r (P Q : string -> Prop) (w1 w2 w3 : W) : (forall p, P p -> Q p) -> touches Q w1 w2 -> touches P w2 w3 -> touches Q w1 w3.
Proof using Type. intros HPQ H1 H2 p Hp. rewrite H2 by auto. by apply H1. Qed.

Lemma touches_mono (P Q : string -> Prop) (w1 w2 : W) : (forall p, P p -> Q p) -> touches P w1 w2 -> touches Q w1 w2.
Proof using Type. intros HPQ Ht p Hp. apply Ht. auto. Qed.

Lemma unchanged_trans (w1 w2 w3 : W) : touches (fun _ => False) w1 w2 -> touches (fun _ => False) w2 w3 -> touches (fun _ => False) w1 w3.
Proof using Type. by apply touches_trans. Qed.

Lemma fromSum_post {A} (r : GoError + A) (w : W) Q : Q r w -> post (fromSum r) w Q.
Proof using Type. by destruct r. Qed.

(** Errors on the way lose at most the temporary file. *)
Lemma orClose_post name (m : SM W unit) w Q : post m w (fun r w' =>
    match r with inr _ => Q (inr tt) w' | inl e => forall w'', touches (fun _ => False) w' w'' -> Q (inl e) w'' end) ->
  post (orClose name m) w Q.
Proof using Type*.
  intros Hm. unfold orClose. apply post_bind, post_try. eapply post_mono; [exact Hm|]. cbn beta. intros [e|[]] w' HQ; [|by apply post_ret].
  apply post_bind, post_try. eapply post_mono; [apply fl_close|]. cbn beta. intros _ w'' Ht. cbn. auto.
Qed.

Lemma orRemove_post name (m : SM W unit) w Q : post m w (fun r w' =>
    match r with inr _ => Q (inr tt) w' | inl e => forall w'', touches (eq name) w' w'' -> Q (inl e) w'' end) ->
  post (orRemove name m) w Q.
Proof using Type*.
  intros Hm. unfold orRemove. apply post_bind, post_try. eapply post_mono; [exact Hm|]. cbn beta. intros [e|[]] w' HQ; [|by apply post_ret].
  apply post_bind, post_try. eapply post_mono; [apply fl_remove|]. cbn beta. intros _ w'' Ht. cbn. auto.
Qed.

(** What replacing [path] can do: the file is replaced, or nothing has happened
    but to temporary files. *)
Definition replaced (pattern path content : string) (w : W) (r : GoError + unit) (w' : W) : Prop :=
  touches (fun p => HasPrefix (Base p) pattern = true \/ p = path) w w' /\
  sfFile w' path = match r with inr _ => Some content | inl _ => sfFile w path end.

Lemma replace_post (sync : bool) dir pattern path content (w : W) : HasPrefix (Base path) pattern = false ->
  post (tmp ← sfCreateTemp dir pattern;
        orRemove tmp (
          _ ← orClose tmp (sfWrite tmp content);
          _ ← (if sync then orClose tmp (sfSync tmp) else mret tt);
          _ ← sfClose tmp;
          sfRename tmp path)) w (replaced pattern path content w).
Proof using Type*.
  intros Hp. apply post_bind. eapply post_mono; [apply fl_temp|]. cbn beta. intros [e|tmp] w1; cbn beta iota.
  { intros H1. split; [by apply (touches_mono (fun _ => False))|apply H1; tauto]. }
  intros (Hpre & _ & Hnew & H1). assert (tmp <> path) as Hne by (intros ->; congruence).
  assert (forall w2, touches (eq tmp) w w2 -> touches (fun p => HasPrefix (Base p) pattern = true \/ p = path) w w2 /\ sfFile w2 path = sfFile w path) as Hold.
  { intros w2 H2. split; [intros p Hq; apply H2; intros ->; auto|by apply H2]. }
  assert (forall e w2 w3, touches (eq tmp) w w2 -> touches (eq tmp) w2 w3 -> replaced pattern path content w (inl e) w3) as Hfail.
  { intros e w2 w3 H2 H3. apply Hold. by eapply touches_trans. }
  apply orRemove_post, post_bind, orClose_post. eapply post_mono; [apply fl_write|]. cbn beta. intros [e|[]] w2 [H2 Hw2].
  { intros w3 H3 w4 H4. eapply (Hfail _ w3); [|done]. eapply (touches_trans_r (fun _ => False)); [done|by eapply touches_trans|done]. }
  specialize (Hw2 eq_refl). rewrite Hnew in Hw2. assert (sfFile w2 tmp = Some content) as Hw by exact Hw2. clear Hw2.
  assert (touches (eq tmp) w w2) as H02 by by eapply touches_trans.
  assert (forall w3, touches (fun _ => False) w2 w3 -> post (_ ← sfClose tmp; sfRename tmp path) w3
    (fun r w' => match r with inr _ => replaced pattern path content w (inr tt) w'
                 | inl e => forall w'', touches (eq tmp) w' w'' -> replaced pattern path content w (inl e) w'' end)) as Hend.
  { intros w3 H3. apply post_bind. eapply post_mono; [apply fl_close|]. cbn beta. intros rc w4 H4.
    assert (touches (eq tmp) w w4) as H04 by (do 2 (eapply (touches_trans_r (fun _ => False)); [done| |done]); done).
    destruct rc as [e|[]]; [intros w5 H5; by eapply Hfail|]. eapply post_mono; [apply fl_rename|]. cbn beta. intros [e|[]] w5; cbn beta iota.
    - intros H5 w6 H6. eapply Hfail; [|done]. by eapply (touches_trans_r (fun _ => False)).
    - intros [H5 Hb]. split.
      + intros p Hq. rewrite H5 by naive_solver. apply H04. naive_solver.
      + rewrite Hb, H4, H3 by tauto. done. }
  apply post_bind. destruct sync; [|apply post_ret, Hend, touches_refl].
  apply orClose_post. eapply post_mono; [apply fl_sync|]. cbn beta. intros [e|[]] w3 H3; [|by apply Hend].
  intros w4 H4 w5 H5. eapply Hfail; [|done]. do 2 (eapply (touches_trans_r (fun _ => False)); [done| |done]). done.
Qed.


(** What a run's files hold. *)
Definition storedState (w : W) (stateDir runID : string) : GoError + archiveImportRunState :=
  match sfFile w (Join3 stateDir runID archiveImportStateFile) with
  | None => inr zeroRunState
  | Some content => match decodeState content with inl e => inl (ErrWrap "decode archive import state" e) | inr s => inr s end
  end.

Definition storedRecord (w : W) (stateDir runID : string) : GoError + option ImportRunRecord :=
  if blank runID then inr None else
  match sfFile w (Join3 stateDir runID archiveImportRunFile) with
  | None => inr None
  | Some content => match decodeRecord content with inl e => inl (ErrWrap "decode import run record" e) | inr r => inr (Some r) end
  end.

Lemma blank_ne d : blank d = false -> d <> "".
Proof using Type. by intros H ->. Qed.

Lemma file_base dir run file : dir <> "" -> plain file -> Base (Join3 dir run file) = file.
Proof using Type.
  intros Hd Hf. rewrite Join3_Join by done. unfold Join at 2. rewrite bool_decide_false by done. by apply Base_Join; [destruct dir|].
Qed.

Lemma save_post dir st (w : W) : blank dir = false ->
  post (saveArchiveImportState dir st) w (fun r w' =>
    let path := Join3 dir (isRunID st) archiveImportStateFile in
    touches (fun p => HasPrefix (Base p) ".state." = true \/ p = path) w w' /\
    match r with
    | inr _ => exists t b, encodeState (touchRunState t st) = inr b /\ sfFile w' path = Some b
    | inl _ => sfFile w' path = sfFile w path
    end).
Proof using Type*.
  intros Hd. pose proof (blank_ne _ Hd) as Hne. unfold saveArchiveImportState. rewrite Hd. cbv zeta.
  set (P := fun p => HasPrefix (Base p) ".state." = true \/ p = Join3 dir (isRunID st) archiveImportStateFile).
  assert (forall w', touches (fun _ => False) w w' -> touches P w w' /\ sfFile w' (Join3 dir (isRunID st) archiveImportStateFile) =
    sfFile w (Join3 dir (isRunID st) archiveImportStateFile)) as Hsame.
  { intros w' H'. split; [by apply (touches_mono (fun _ => False))|apply H'; tauto]. }
  apply post_bind. eapply post_mono; [apply fl_now|]. cbn beta. intros [e|t] w1 H1; [by apply Hsame|].
  apply post_bind. eapply post_mono; [apply fl_mkdir|]. cbn beta. intros [e|[]] w2 H2; [apply Hsame; by eapply unchanged_trans|].
  assert (touches (fun _ => False) w w2) as H02 by by eapply unchanged_trans.
  apply post_bind, fromSum_post. destruct (encodeState (touchRunState t st)) as [e|b] eqn:Hb; [by apply Hsame|].
  rewrite <- Join3_Join by done. cbn [isRunID touchRunState].
  eapply post_mono; [apply (replace_post true); by rewrite file_base|]. cbn beta. intros r w3 [H3 Hf].
  destruct (Hsame w2 H02) as [_ Hs]. split; [by apply (touches_trans (fun _ => False) _ w w2)|]. destruct r as [e|[]]; [congruence|]. eauto.
Qed.

Lemma load_post dir run (w : W) : blank dir = false ->
  post (loadArchiveImportState dir run) w (fun r w' => touches (fun _ => False) w w' /\ forall st, r = inr st -> storedState w dir run = inr st).
Proof using Type*.
  intros Hd. unfold loadArchiveImportState, storedState. rewrite Hd. cbv zeta. apply post_bind, post_try.
  eapply post_mono; [apply fl_read|]. cbn beta. intros [e|content] w1 [H1 Hc].
  - destruct (isNotExist e) eqn:He; [|by split]. apply post_ret. split; [done|]. rewrite Hc by done. by intros st [= <-].
  - rewrite Hc. destruct (decodeState content); cbn; (split; [done|]); [done|]. by intros st [= <-].
Qed.

Lemma loadRecord_post dir run (w : W) : blank dir = false ->
  post (LoadImportRunRecord dir run) w (fun r w' => touches (fun _ => False) w w' /\ forall found, r = inr found -> storedRecord w dir run = inr found).
Proof using Type*.
  intros Hd. unfold LoadImportRunRecord, storedRecord. rewrite Hd. cbn [orb]. destruct (blank run); [apply post_ret; split; [done|]; by intros f [= <-]|].
  apply post_bind, post_try. eapply post_mono; [apply fl_read|]. cbn beta. intros [e|content] w1 [H1 Hc].
  - destruct (isNotExist e) eqn:He; [|by split]. apply post_ret. split; [done|]. rewrite Hc by done. by intros st [= <-].
  - rewrite Hc. destruct (decodeRecord content); cbn; (split; [done|]); [done|]. by intros st [= <-].
Qed.

(** The records of the directories of a listing. *)
Definition recordsOf (w : W) (stateDir : string) (entries : list (string * bool)) : list ImportRunRecord :=
  omap (fun e : string * bool => if e.2 then match storedRecord w stateDir e.1 with inr found => found | inl _ => None end else None) entries.

Lemma storedRecord_same (w w' : W) dir run : touches (fun _ => False) w w' -> storedRecord w' dir run = storedRecord w dir run.
Proof using Type. intros Ht. unfold storedRecord. by rewrite Ht by tauto. Qed.

Definition startedLater (a b : ImportRunRecord) : bool := After (irStartedAt a) (irStartedAt b).

Lemma started_ordered l : ordered startedLater (sortStable startedLater l).
Proof using Type. apply sortStable_ordered; unfold startedLater, After; intros; rewrite ?Z.ltb_lt, ?Z.ltb_ge in *; lia. Qed.

Definition listed (w : W) (stateDir : string) (entries : list (string * bool)) (records : list ImportRunRecord) : Prop :=
  records ≡ₚ recordsOf w stateDir entries /\ ordered startedLater records /\
  Forall (fun e => e.2 = true -> exists found, storedRecord w stateDir e.1 = inr found) entries.

Lemma listLoop_post dir entries (w w1 : W) : blank dir = false -> touches (fun _ => False) w w1 ->
  post (records ← sforM entries [] (listRunEntry dir); mret (sortStable startedLater records)) w1
    (fun r w' => touches (fun _ => False) w w' /\ forall records, r = inr records -> listed w dir entries records).
Proof using Type*.
  intros Hd Hr. apply post_bind. apply (post_sforM _ _ _ _ (fun done rs w' => touches (fun _ => False) w w' /\ rs = recordsOf w dir done /\
    Forall (fun e => e.2 = true -> exists found, storedRecord w dir e.1 = inr found) done)); [by split_and!| |].
  - intros done rs [run isdir] w2 _ (Ht & -> & Hall). unfold listRunEntry. cbn [fst snd]. unfold recordsOf. rewrite omap_app.
    destruct isdir; cbn [negb]; [|apply post_ret; cbn; rewrite app_nil_r; split_and!; [done|done|apply Forall_app; by repeat constructor]].
    apply post_bind. eapply post_mono; [by apply loadRecord_post|]. cbn beta. intros [e|found] w3 [H3 Hf].
    + split; [by eapply unchanged_trans|done].
    + apply post_ret. specialize (Hf _ eq_refl). rewrite (storedRecord_same _ _ _ _ Ht) in Hf. cbn. rewrite Hf.
      split_and!; [by eapply unchanged_trans|by destruct found; [|rewrite app_nil_r]|]. apply Forall_app. split; [done|]. constructor; [by eexists|done].
  - intros rs w2 (Ht & -> & Hall). apply post_ret. split; [done|]. intros records [= <-]. split_and!; [apply sortStable_perm|apply started_ordered|done].
Qed.

End proofs.

(** ** Main properties *)

(** A save replaces the resume state or leaves it alone.  Whatever fails on
    the way (creating the directory, the temporary file, writing, syncing,
    closing, renaming), what is loaded afterwards is the saved state when the
    save succeeded, and what was stored before when it did not; no file but the
    run's own state and temporary files is touched. *)
Theorem state_saved_or_kept {W} `{!StateFiles W, !StateFilesLaws W} {J : RunJSON} `{!RunJSONLaws J} (stateDir : string)
    (state : archiveImportRunState) (w : W) :
  blank stateDir = false ->
  let '(r, w') := saveArchiveImportState stateDir state w in
  r <> Panic /\
  touches (fun p => HasPrefix (Base p) ".state." = true \/ p = Join3 stateDir (isRunID state) archiveImportStateFile) w w' /\
  forall loaded, (loadArchiveImportState stateDir (isRunID state) w').1 = Ok loaded ->
    match r with
    | Ok _ => exists t, loaded = touchRunState t state
    | _ => storedState w stateDir (isRunID state) = inr loaded
    end.
Proof.
  intros Hd. pose proof (save_post stateDir state w Hd) as H. unfold post in H.
  destruct (saveArchiveImportState stateDir state w) as [r w']. cbv zeta in H.
  assert (forall loaded, (loadArchiveImportState stateDir (isRunID state) w').1 = Ok loaded -> storedState w' stateDir (isRunID state) = inr loaded) as Hload.
  { intros loaded Hl. pose proof (load_post stateDir (isRunID state) w' Hd) as Hp. unfold post in Hp.
    destruct (loadArchiveImportState _ _ _) as [[l|e|] w2]; try done. cbn in Hl. injection Hl as ->. by apply Hp. }
  destruct r as [u|e|]; [| |done]; destruct H as [Ht Hf]; (split; [done|]); (split; [done|]); intros loaded Hl; specialize (Hload _ Hl).
  - destruct Hf as (t & b & Hb & Hf). unfold storedState in Hload. rewrite Hf, (decode_encodeState _ _ Hb) in Hload. exists t. by injection Hload.
  - unfold storedState in *. by rewrite Hf in Hload.
Qed.

(** The list of runs is the registry, newest first.  When the listing
    succeeds, it holds exactly the records stored under the directories of the
    state directory, each once, in the order of their start times, latest first;
    nothing is written, and a record that cannot be decoded makes the listing
    fail. *)
Theorem runs_listed {W} `{!StateFiles W, !StateFilesLaws W} {J : RunJSON} (stateDir : string) (w : W) (records : list ImportRunRecord) (w' : W) :
  blank stateDir = false -> ListImportRunRecords stateDir w = (Ok records, w') ->
  touches (fun _ => False) w w' /\
  match (sfReadDir stateDir w).1 with
  | Ok entries => listed w stateDir entries records
  | _ => records = []
  end.
Proof.
  intros Hd Hr. unfold ListImportRunRecords in Hr. rewrite Hd in Hr. unfold mbind, SM_bind, stry in Hr.
  pose proof (fl_readDir stateDir w) as Hp. unfold post in Hp. destruct (sfReadDir stateDir w) as [[entries|e|] w1]; [| |done].
  - pose proof (listLoop_post stateDir entries w w1 Hd Hp) as Hl. unfold post, mbind, SM_bind in Hl. cbn beta iota in Hr.
    change (fun a b => After (irStartedAt a) (irStartedAt b)) with startedLater in Hr. rewrite Hr in Hl. destruct Hl as [Ht Hl]. split; [done|]. by apply Hl.
  - cbn beta iota in Hr. destruct (isNotExist e); [|done]. by injection Hr as <- <-.
Qed.

(** ** A concrete disk *)

(** Files by path; after [dkBudget] operations the disk fails. *)
Record Disk := MkDisk { dkFiles : gmap string string; dkBudget : nat }.

Definition diskOp {A} (f : gmap string string -> res A * gmap string string) : SM Disk A := fun d =>
  match dkBudget d with
  | O => (Err (ErrMsg "input/output error"), d)
  | S n => let '(r, files) := f (dkFiles d) in (r, MkDisk files n)
  end.

(** Longer than every path. *)
Definition longest (files : gmap string string) : nat := foldr Nat.max O (map (fun kv => String.length kv.1) (map_to_list files)).

Fixpoint zeros (n : nat) : string := match n with O => EmptyString | S n => String (Ascii.ascii_of_N 48) (zeros n) end.

Definition tempName (files : gmap string string) (dir pattern : string) : string :=
  dir +:+ String slash (pattern +:+ zeros (S (longest files))).

#[export] Instance diskFiles : StateFiles Disk := {|
  sfNow := fun d => (Ok 7, d);
  sfMkdirAll _ := diskOp (fun fs => (Ok tt, fs));
  sfCreateTemp dir pat := diskOp (fun fs =>
    if free slash pat then (Ok (tempName fs dir pat), <[tempName fs dir pat := EmptyString]> fs) else (Err (ErrMsg "pattern contains path separator"), fs));
  sfWrite f c := diskOp (fun fs => (Ok tt, alter (fun old => old +:+ c) f fs));
  sfSync _ := diskOp (fun fs => (Ok tt, fs));
  sfClose _ := diskOp (fun fs => (Ok tt, fs));
  sfRename a b := diskOp (fun fs => match fs !! a with Some c => (Ok tt, <[b := c]> (delete a fs)) | None => (Err ErrNotExist, fs) end);
  sfRemove f := diskOp (fun fs => (Ok tt, delete f fs));
  sfReadFile f := diskOp (fun fs => (match fs !! f with Some c => Ok c | None => Err ErrNotExist end, fs));
  sfReadDir dir := diskOp (fun fs => (Ok (map (fun kv => (Base (Dir kv.1), true)) (map_to_list fs)), fs));
  sfFile d p := dkFiles d !! p |}.

Lemma zeros_length n : String.length (zeros n) = n.
Proof. induction n; cbn; auto. Qed.

Lemma length_append a b : String.length (a +:+ b) = (String.length a + String.length b)%nat.
Proof. induction a as [|c a IH]; [done|]. exact (f_equal S IH). Qed.

Lemma longest_le files p c : files !! p = Some c -> (String.length p <= longest files)%nat.
Proof.
  intros Hp%elem_of_map_to_list. unfold longest. induction (map_to_list files) as [|kv l IH]; [by apply elem_of_nil in Hp|].
  cbn. apply elem_of_cons in Hp as [<-|Hp]; cbn; [lia|]. specialize (IH Hp). lia.
Qed.

Lemma tempName_fresh files dir pat : files !! tempName files dir pat = None.
Proof.
  destruct (files !! _) as [c|] eqn:He; [|done]. apply longest_le in He. unfold tempName in He at 1.
  rewrite length_append in He. cbn [String.length] in He. rewrite length_append, zeros_length in He. lia.
Qed.

Lemma free_zeros n : free slash (zeros n) = true.
Proof. unfold free. induction n; cbn; auto. Qed.

Lemma tempName_base files dir pat : free slash pat = true -> HasPrefix (Base (tempName files dir pat)) pat = true.
Proof.
  intros Hp. assert (Base (tempName files dir pat) = pat +:+ zeros (S (longest files))) as ->; [|apply HasPrefix_app].
  unfold Base, tempName. rewrite bool_decide_false by by destruct dir. rewrite splitOn_sep, (splitOn_free _ (pat +:+ _)) by (rewrite free_app, Hp; apply free_zeros).
  rewrite last_dropTrailing; [done|]. by destruct pat.
Qed.

Lemma diskOp_post {A} (f : gmap string string -> res A * gmap string string) d (Q : GoError + A -> Disk -> Prop) :
  Q (inl (ErrMsg "input/output error")) d ->
  (forall n, match f (dkFiles d) with (Ok a, fs) => Q (inr a) (MkDisk fs n) | (Err e, fs) => Q (inl e) (MkDisk fs n) | _ => False end) ->
  post (diskOp f) d Q.
Proof.
  intros He HQ. unfold post, diskOp. destruct (dkBudget d); [exact He|]. specialize (HQ n). destruct (f (dkFiles d)) as [[a|e|] fs]; done.
Qed.

#[export] Instance diskLaws : StateFilesLaws Disk.
Proof.
  split; intros; try (unfold post; done); apply diskOp_post; try (by intros); try (by intros n; cbn).
  - intros n. destruct (free slash pat) eqn:Hp; [|done]. split; [by apply tempName_base|]. split; [apply tempName_fresh|].
    cbn. rewrite lookup_insert_eq. split; [done|]. intros p Hne. cbn. by rewrite lookup_insert_ne.
  - intros n. split; [intros p Hne; cbn; by rewrite lookup_alter_ne|]. intros _. cbn. by rewrite lookup_alter_eq.
  - intros n p Hne. cbn. by rewrite lookup_delete_ne.
  - intros n. cbn. destruct (dkFiles w !! a) as [c|] eqn:Ha; [|done]. split.
    + intros p Hne. cbn. rewrite lookup_insert_ne, lookup_delete_ne by naive_solver. done.
    + cbn. by rewrite lookup_insert_eq.
  - intros n. cbn. destruct (dkFiles w !! f) as [c|]; done.
Qed.

(** JSON by numbering the records. *)
#[local] Instance runState_eq_dec : EqDecision archiveImportRunState.
Proof. solve_decision. Defined.

#[local] Instance runState_countable : Countable archiveImportRunState.
Proof.
  refine (inj_countable' (fun s => (isUpdatedAt s, isRunID s, isSourceName s, isLastPath s, isLastOffset s, isScanned s,
      isParsed s, isEnqueued s, isProcessed s, isFailures s, (isDiscoveryDone s, isLowNoise s, isDryRun s)))
    (fun '(a, b, c, d, e, f, g, h, i, j, (k, l, m)) => MkRunState a b c d e f g h i j k l m) _). by intros [].
Defined.

#[local] Instance runRecord_eq_dec : EqDecision ImportRunRecord.
Proof. solve_decision. Defined.

#[local] Instance runRecord_countable : Countable ImportRunRecord.
Proof.
  refine (inj_countable' (fun r => (irRunID r, irSourceName r, irSourceKind r, irRoots r, irFormat r, irStatus r, irStartedAt r,
      irFinishedAt r, irUpdatedAt r, irScanned r, irParsed r, irImported r, irDuplicates r, irFailures r, irLowNoise r, irDryRun r))
    (fun '(a, b, c, d, e, f, g, h, i, j, k, l, m, n, o, p) => MkRunRecord a b c d e f g h i j k l m n o p) _). by intros [].
Defined.

Definition toText {A} `{Countable A} (a : A) : string := FormatUint (Npos (encode a)).
Definition fromText {A} `{Countable A} (s : string) : GoError + A :=
  match parseDigits (str_bytes s) 0 with
  | Some (Npos p) => match decode p with Some a => inr a | None => inl (ErrMsg "json") end
  | _ => inl (ErrMsg "json")
  end.

Lemma fromText_toText {A} `{Countable A} (a : A) : fromText (toText a) = inr a.
Proof.
  unfold fromText, toText, FormatUint. rewrite String.list_ascii_of_string_of_list_ascii, parse_format by apply size_nat_bound.
  by rewrite decode_encode.
Qed.

#[export] Instance textJSON : RunJSON := {|
  encodeState s := inr (toText s); decodeState := fromText; encodeRecord r := inr (toText r); decodeRecord := fromText |}.

#[export] Instance textJSONLaws : RunJSONLaws textJSON.
Proof. split; cbn [encodeState decodeState encodeRecord decodeRecord textJSON]; intros x b [= <-]; apply fromText_toText. Qed.

Definition exRunState : archiveImportRunState := MkRunState 0 "run" "mail" "/mail/inbox" 3 1 4 4 0 0 false false false.

Lemma state_saved_or_kept_witness :
  let '(r, w') := saveArchiveImportState "/state" exRunState (MkDisk ∅ 100) in
  r <> Panic /\
  touches (fun p => HasPrefix (Base p) ".state." = true \/ p = Join3 "/state" "run" archiveImportStateFile) (MkDisk ∅ 100) w' /\
  forall loaded, (loadArchiveImportState "/state" "run" w').1 = Ok loaded ->
    match r with
    | Ok _ => exists t, loaded = touchRunState t exRunState
    | _ => storedState (MkDisk ∅ 100) "/state" "run" = inr loaded
    end.
Proof. apply (state_saved_or_kept "/state" exRunState (MkDisk ∅ 100)). reflexivity. Defined.

Definition exRunRecord : ImportRunRecord := MkRunRecord "run" "m" "k" [] "" "running" 1 0 2 0 0 0 0 0 false false.
Definition exRunDisk (n : nat) : Disk := MkDisk {["/state/run/run.json" := "run"]} n.
Definition exJSON : RunJSON := {|
  encodeState _ := inl (ErrMsg "json"); decodeState _ := inl (ErrMsg "json"); encodeRecord r := inr (irRunID r);
  decodeRecord b := if bool_decide (b = "run") then inr exRunRecord else inl (ErrMsg "json") |}.

Lemma runs_listed_witness :
  touches (fun _ => False) (exRunDisk 5) (exRunDisk 3) /\
  match (sfReadDir "/state" (exRunDisk 5)).1 with
  | Ok entries => listed (J := exJSON) (exRunDisk 5) "/state" entries [exRunRecord]
  | _ => [exRunRecord] = []
  end.
Proof. apply (runs_listed (J := exJSON) "/state" (exRunDisk 5) [exRunRecord] (exRunDisk 3)); vm_compute; reflexivity. Defined.
