(* ===== verification/ArchiveQueue.v ===== *)
(** * Queued archive imports: [source/archive_import_queue.go]

    Discovery walks the roots of an archive and publishes one job per message,
    remembering in the run's state file how far it got; the run then receives the
    jobs, ingests their messages and settles them.  The queue, ingestion of one
    message, the mail parser and the context are any with the stated behaviour.
    Loops that wait (for queue capacity, for jobs) run for a given number of
    rounds; a run that is still waiting then has no result. *)

From Stdlib Require Import Sorting.Sorted.
From stdpp Require Import options.
From S2P Require Import Prelude GoLib GoText Contracts Meta Jobs Mbox GoPath ArchiveFiles ArchiveState.

Local Open Scope Z_scope.

(** ** Data *)

Record SourceImportJob := MkImportJob {
  ijCreatedAt : Time; ijDeadline : Time; ijRunID : string; ijSourceName : string; ijRoot : string; ijPath : string;
  ijRelativePath : string; ijFormat : string; ijRequestedBy : string; ijPriorityClass : string; ijTraceID : string;
  ijFailure : string; ijIdempotencyKey : string; ijJobID : string;
  ijSchemaVersion : Z; ijOffset : Z; ijLimit : Z; ijAttempt : Z; ijPriority : Z; ijDryRun : bool; ijLowNoise : bool }.

Record SourceImportQueueStatus := MkQueueStatus {
  qsSchemaVersion : Z; qsPending : Z; qsRetry : Z; qsFailed : Z; qsDeadLetter : Z }.

Record ArchiveImportRequest := MkImportRequest {
  aqSourceName : string; aqFormat : string; aqRoots : list string; aqRunID : string; aqStateDir : string; aqDryRun : bool;
  aqLowNoise : bool; aqResume : bool; aqQueueHighWater : Z }.

Record ArchiveImportReport := MkReport {
  arSourceName : string; arRunID : string; arScanned : Z; arParsed : Z; arEnqueued : Z; arProcessed : Z; arImported : Z;
  arExactDuplicates : Z; arMessageIDDuplicates : Z; arGeneratedMessageIDs : Z; arLowNoiseSkipped : Z; arTrivialSkipped : Z;
  arMinorVersions : Z; arMajorVersions : Z; arPromoted : Z; arCollisions : Z; arParseFailures : Z; arSkipped : Z;
  arSkippedMessageIDs : list string; arFailures : list GoError; arFatalFailures : list GoError }.

(** A received job; receipts are told apart by their tags. *)
Record ArchiveImportJobReceipt := MkReceipt { rcJob : SourceImportJob; rcTag : Z }.

Definition errSourceImportDeadLettered : GoError := ErrVar "errSourceImportDeadLettered".
Definition errSourceImportOtherRunJob : GoError := ErrVar "errSourceImportOtherRunJob".
Definition ErrArchiveMessageRejected : GoError := ErrVar "ErrArchiveMessageRejected".

Definition defaultArchiveImportQueueHighWater : Z := 10000.
Definition sourceImportFailureProcessLimit : Z := 100.
Definition MailArchiveSourceKind : string := "mail_archive".

(** ** Changes of the report and the state *)

Definition setCounts (scanned parsed enqueued processed skipped parseFailures : Z) (r : ArchiveImportReport) : ArchiveImportReport :=
  MkReport (arSourceName r) (arRunID r) scanned parsed enqueued processed (arImported r) (arExactDuplicates r)
    (arMessageIDDuplicates r) (arGeneratedMessageIDs r) (arLowNoiseSkipped r) (arTrivialSkipped r) (arMinorVersions r)
    (arMajorVersions r) (arPromoted r) (arCollisions r) parseFailures skipped (arSkippedMessageIDs r) (arFailures r)
    (arFatalFailures r).

Definition addScanned (r : ArchiveImportReport) : ArchiveImportReport :=
  setCounts (arScanned r + 1) (arParsed r) (arEnqueued r) (arProcessed r) (arSkipped r) (arParseFailures r) r.
Definition addParsed (r : ArchiveImportReport) : ArchiveImportReport :=
  setCounts (arScanned r) (arParsed r + 1) (arEnqueued r) (arProcessed r) (arSkipped r) (arParseFailures r) r.
Definition addEnqueued (r : ArchiveImportReport) : ArchiveImportReport :=
  setCounts (arScanned r) (arParsed r) (arEnqueued r + 1) (arProcessed r) (arSkipped r) (arParseFailures r) r.
Definition addProcessed (r : ArchiveImportReport) : ArchiveImportReport :=
  setCounts (arScanned r) (arParsed r) (arEnqueued r) (arProcessed r + 1) (arSkipped r) (arParseFailures r) r.
Definition addSkipped (r : ArchiveImportReport) : ArchiveImportReport :=
  setCounts (arScanned r) (arParsed r) (arEnqueued r) (arProcessed r) (arSkipped r + 1) (arParseFailures r) r.
Definition addParseFailure (r : ArchiveImportReport) : ArchiveImportReport :=
  setCounts (arScanned r) (arParsed r) (arEnqueued r) (arProcessed r) (arSkipped r) (arParseFailures r + 1) r.

Definition setFailures (failures fatal : list GoError) (r : ArchiveImportReport) : ArchiveImportReport :=
  MkReport (arSourceName r) (arRunID r) (arScanned r) (arParsed r) (arEnqueued r) (arProcessed r) (arImported r)
    (arExactDuplicates r) (arMessageIDDuplicates r) (arGeneratedMessageIDs r) (arLowNoiseSkipped r) (arTrivialSkipped r)
    (arMinorVersions r) (arMajorVersions r) (arPromoted r) (arCollisions r) (arParseFailures r) (arSkipped r)
    (arSkippedMessageIDs r) failures fatal.

Definition appendArchiveFailure (err : GoError) (r : ArchiveImportReport) : ArchiveImportReport :=
  setFailures (arFailures r ++ [err]) (arFatalFailures r) r.

Definition appendArchiveFatalFailure (err : GoError) (r : ArchiveImportReport) : ArchiveImportReport :=
  setFailures (arFailures r ++ [err]) (arFatalFailures r ++ [err]) r.

Definition newReport (sourceName runID : string) (scanned parsed enqueued processed : Z) : ArchiveImportReport :=
  MkReport sourceName runID scanned parsed enqueued processed 0 0 0 0 0 0 0 0 0 0 0 0 [] [] [].

Definition archiveImportRunStatus (report : ArchiveImportReport) : string :=
  if 0 <? Z.of_nat (length (arFatalFailures report)) then ImportRunStatusFailed
  else if 0 <? Z.of_nat (length (arFailures report)) then ImportRunStatusCompletedWithFailures
  else ImportRunStatusCompleted.

Definition stScanned (n : Z) (s : archiveImportRunState) : archiveImportRunState :=
  MkRunState (isUpdatedAt s) (isRunID s) (isSourceName s) (isLastPath s) (isLastOffset s) n (isParsed s) (isEnqueued s)
    (isProcessed s) (isFailures s) (isDiscoveryDone s) (isLowNoise s) (isDryRun s).
Definition stParsed (n : Z) (s : archiveImportRunState) : archiveImportRunState :=
  MkRunState (isUpdatedAt s) (isRunID s) (isSourceName s) (isLastPath s) (isLastOffset s) (isScanned s) n (isEnqueued s)
    (isProcessed s) (isFailures s) (isDiscoveryDone s) (isLowNoise s) (isDryRun s).
Definition stEnqueued (n : Z) (path : string) (offset : Z) (s : archiveImportRunState) : archiveImportRunState :=
  MkRunState (isUpdatedAt s) (isRunID s) (isSourceName s) path offset (isScanned s) (isParsed s) n
    (isProcessed s) (isFailures s) (isDiscoveryDone s) (isLowNoise s) (isDryRun s).
Definition stProcessed (n : Z) (s : archiveImportRunState) : archiveImportRunState :=
  MkRunState (isUpdatedAt s) (isRunID s) (isSourceName s) (isLastPath s) (isLastOffset s) (isScanned s) (isParsed s)
    (isEnqueued s) n (isFailures s) (isDiscoveryDone s) (isLowNoise s) (isDryRun s).
Definition stFailed (s : archiveImportRunState) : archiveImportRunState :=
  MkRunState (isUpdatedAt s) (isRunID s) (isSourceName s) (isLastPath s) (isLastOffset s) (isScanned s) (isParsed s)
    (isEnqueued s) (isProcessed s) (isFailures s + 1) (isDiscoveryDone s) (isLowNoise s) (isDryRun s).
Definition stDone (b : bool) (s : archiveImportRunState) : archiveImportRunState :=
  MkRunState (isUpdatedAt s) (isRunID s) (isSourceName s) (isLastPath s) (isLastOffset s) (isScanned s) (isParsed s)
    (isEnqueued s) (isProcessed s) (isFailures s) b (isLowNoise s) (isDryRun s).

(** ** What a run works with *)

Class QueueEnv (W Mail : Type) := {
  qeFS : FileSystem;
  qeParse : string -> string -> GoError + Mail;          (* mailmessage.Parse *)
  qeSha256 : string -> string;                           (* hex of crypto/sha256 *)
  qeNow : SM W Time;
  qeCtxErr : SM W unit;                                  (* ctx.Err() *)
  qePublish : SourceImportJob -> SM W unit;
  qeProcessFailures : Z -> SM W Z;
  qeStatus : SM W SourceImportQueueStatus;
  qeReceive : SM W ArchiveImportJobReceipt;
  qeAck : ArchiveImportJobReceipt -> SM W unit;
  qeRelease : ArchiveImportJobReceipt -> SM W unit;
  qeRetry : ArchiveImportJobReceipt -> GoError -> SM W unit;
  qeWait : SM W unit;                                    (* a timer, or ctx.Done() *)
  qeFailureError : SM W (option GoError);                (* RunSourceImportFailureQueues, when the run ends *)
  (** [ingestArchiveMessage]: the report it leaves, and its error *)
  qeIngest : ArchiveImportRequest -> string -> archiveMessage Mail -> ArchiveImportReport ->
             SM W (ArchiveImportReport * option GoError) }.

(** What a run has done, in order. *)
Inductive qevent :=
  | EPublished (job : SourceImportJob)
  | EReceived (r : ArchiveImportJobReceipt)
  | EHandled (r : ArchiveImportJobReceipt) (err : option GoError)
  | EAck (r : ArchiveImportJobReceipt) (ok : bool)
  | ERelease (r : ArchiveImportJobReceipt)
  | ERetry (r : ArchiveImportJobReceipt) (err : GoError).

Record Run (W : Type) := MkRun {
  rnWorld : W; rnState : archiveImportRunState; rnReport : ArchiveImportReport; rnTrace : list qevent }.
Arguments MkRun {W} _ _ _ _.
Arguments rnWorld {W} _.
Arguments rnState {W} _.
Arguments rnReport {W} _.
Arguments rnTrace {W} _.

(** ** Names *)

Definition archiveImportSourceName (request : ArchiveImportRequest) : string :=
  let sourceName := TrimSpace (aqSourceName request) in
  if negb (bool_decide (sourceName = "")) then sourceName else
  match aqRoots request with [] => "" | root :: _ => sourceNameFromRoot root end.

Definition nulByte : Ascii.ascii := Ascii.ascii_of_N 0.
Definition formatBool (b : bool) : string := if b then "true" else "false".

(** [strconv.FormatInt(n, 10)]. *)
Definition FormatInt (n : Z) : string := if n <? 0 then "-" +:+ FormatUint (Z.to_N (- n)) else FormatUint (Z.to_N n).

(** [sha256Hex] is the hex digest of [crypto/sha256]. *)
Definition archiveImportRunID (sha256Hex : string -> string) (request : ArchiveImportRequest) (sourceName : string) : string :=
  if negb (blank (aqRunID request)) then TrimSpace (aqRunID request) else
  let input := joinWith nulByte ([sourceName; aqFormat request; "low_noise=" +:+ formatBool (aqLowNoise request);
    "dry_run=" +:+ formatBool (aqDryRun request)] ++ map Clean (aqRoots request)) in
  "archive-" +:+ String.substring 0 16 (sha256Hex input).

Section queue.
Context {W Mail : Type} `{!QueueEnv W Mail, !StateFiles W} {J : RunJSON}.

Abbreviation Q := (SM (Run W)).

Definition set_world (w : W) (s : Run W) : Run W := MkRun w (rnState s) (rnReport s) (rnTrace s).
Definition set_state (f : archiveImportRunState -> archiveImportRunState) (s : Run W) : Run W :=
  MkRun (rnWorld s) (f (rnState s)) (rnReport s) (rnTrace s).
Definition set_report (f : ArchiveImportReport -> ArchiveImportReport) (s : Run W) : Run W :=
  MkRun (rnWorld s) (rnState s) (f (rnReport s)) (rnTrace s).
Definition add_event (e : qevent) (s : Run W) : Run W := MkRun (rnWorld s) (rnState s) (rnReport s) (rnTrace s ++ [e]).

Definition onWorld {A} (m : SM W A) : Q A := fun s => let '(r, w) := m (rnWorld s) in (r, set_world w s).
Definition log (e : qevent) : Q unit := smodify (add_event e).

(** No result yet. *)
Definition stillWaiting {A} : Q A := fun s => (Panic, s).


Definition sourceImportJobKey (job : SourceImportJob) : string :=
  qeSha256 (joinWith nulByte [ijRunID job; ijSourceName job; Clean (ijRoot job); Clean (ijPath job); ijFormat job; FormatInt (ijOffset job)]).

Definition saveState (request : ArchiveImportRequest) : Q unit :=
  st ← sget rnState; onWorld (saveArchiveImportState (aqStateDir request) st).

(** ** One job *)

Definition parseArchiveJobMessage (now : Time) (job : SourceImportJob) : GoError + archiveMessage Mail :=
  if bool_decide (ijFormat job = ArchiveImportFormatMbox) then
    parseMboxMessageAt (fun raw offset => parseArchiveMessage qeParse qeSha256 now raw (ijPath job) (ijRoot job) ArchiveImportFormatMbox offset)
      (fsOpen qeFS (ijPath job)) (ijOffset job)
  else parseArchiveFile qeParse qeSha256 qeFS now (ijPath job) (ijRoot job) (ijFormat job) 0.

Definition ProcessSourceImportJob (sourceName : string) (job : SourceImportJob) (request : ArchiveImportRequest) : Q unit :=
  t ← onWorld qeNow;
  match parseArchiveJobMessage t job with
  | inl e => _ ← smodify (set_report addParseFailure); sfail (ErrJoin ErrArchiveMessageRejected e)
  | inr message =>
      report ← sget rnReport;
      r ← onWorld (qeIngest request sourceName message report);
      _ ← smodify (set_report (fun _ => r.1));
      scheck r.2
  end.

Definition receiveSourceImportJob : Q ArchiveImportJobReceipt :=
  r ← swrap "receive source import job" (onWorld qeReceive); _ ← log (EReceived r); mret r.

(** The job is acknowledged and counted. *)
Definition ackJob (request : ArchiveImportRequest) (receipt : ArchiveImportJobReceipt) : Q unit :=
  r ← stry (onWorld (qeAck receipt));
  _ ← log (EAck receipt (match r with inr _ => true | inl _ => false end));
  _ ← fromSum r;
  _ ← smodify (set_report addProcessed);
  report ← sget rnReport;
  _ ← smodify (set_state (stProcessed (arProcessed report)));
  saveState request.

(** A failed job is rejected for good, or goes to the retry queue. *)
Definition failJob (request : ArchiveImportRequest) (receipt : ArchiveImportJobReceipt) (err : GoError) : Q unit :=
  _ ← smodify (set_state stFailed);
  if isVar "ErrArchiveMessageRejected" err then
    _ ← smodify (set_report (appendArchiveFailure err));
    ackJob request receipt
  else
    _ ← log (ERetry receipt err);
    _ ← onWorld (qeRetry receipt err);
    _ ← swrap "process source import failures" (onWorld (qeProcessFailures sourceImportFailureProcessLimit));
    status ← swrap "inspect source import queue status" (onWorld qeStatus);
    if (qsPending status =? 0) && (qsRetry status =? 0) && (0 <? qsDeadLetter status) then
      sfail (ErrWrap "job(s)" errSourceImportDeadLettered)
    else saveState request.

Definition drainOne (request : ArchiveImportRequest) (sourceName : string) : Q unit :=
  receipt ← receiveSourceImportJob;
  runID ← sget (fun s => arRunID (rnReport s));
  if negb (bool_decide (ijRunID (rcJob receipt) = runID)) then
    _ ← log (ERelease receipt);
    _ ← onWorld (qeRelease receipt);
    sfail (ErrWrap "got another run's job" errSourceImportOtherRunJob)
  else
    r ← stry (ProcessSourceImportJob sourceName (rcJob receipt) request);
    match r with
    | inl err => _ ← log (EHandled receipt (Some err)); failJob request receipt err
    | inr _ => _ ← log (EHandled receipt None); ackJob request receipt
    end.

(** The loop of [drain], for at most [fuel] jobs. *)
Fixpoint drain (fuel : nat) (request : ArchiveImportRequest) (sourceName : string) : Q unit :=
  report ← sget rnReport;
  if arEnqueued report <=? arProcessed report then mret tt else
  match fuel with
  | O => stillWaiting
  | S fuel =>
      r ← stry (drainOne request sourceName);
      match r with
      | inl err =>
          if isVar "errSourceImportOtherRunJob" err then
            _ ← swrap "wait for other source import run" (onWorld qeWait);
            drain fuel request sourceName
          else sfail err
      | inr _ => drain fuel request sourceName
      end
  end.

(** ** Discovery *)

Section discovery.
Context (fuel : nat) (request : ArchiveImportRequest) (sourceName runID : string).

(** [request.CapacityDrainer]. *)
Context (drainer : option (Q unit)).

Fixpoint waitForArchiveImportCapacity (fuel : nat) (highWater : Z) : Q unit :=
  status ← onWorld qeStatus;
  if qsPending status + qsRetry status <? highWater then mret tt else
  match fuel with
  | O => stillWaiting
  | S fuel =>
      _ ← (match drainer with Some drain => drain | None => onWorld qeWait end);
      waitForArchiveImportCapacity fuel highWater
  end.

Definition archiveImportLocalBacklog (report : ArchiveImportReport) : Z := Z.max 0 (arEnqueued report - arProcessed report).

Definition shouldSkipArchivePath (path format : string) (state : archiveImportRunState) : bool :=
  if bool_decide (isLastPath state = "") then false
  else if str_ltb path (isLastPath state) then true
  else bool_decide (path = isLastPath state) && negb (bool_decide (format = ArchiveImportFormatMbox)).

Definition newImportJob (t : Time) (root path format : string) (offset limit : Z) : SourceImportJob :=
  let relative := default "" (Rel root path) in
  let job key := MkImportJob t zeroTime runID sourceName root path (ToSlash relative) format "gmeow-admin source import"
    PriorityBackground "" "" key key SchemaVersionPhase00 offset limit 0 0 (aqDryRun request) (aqLowNoise request) in
  job (sourceImportJobKey (job "")).

Definition publishArchiveImportJob (root path format : string) (offset limit highWater : Z) : Q unit :=
  report ← sget rnReport;
  _ ← (if highWater <=? archiveImportLocalBacklog report then waitForArchiveImportCapacity fuel highWater else mret tt);
  t ← onWorld qeNow;
  let job := newImportJob t root path format offset limit in
  _ ← onWorld (qePublish job);
  _ ← log (EPublished job);
  _ ← smodify (set_report addEnqueued);
  report ← sget rnReport;
  _ ← smodify (set_state (stEnqueued (arEnqueued report) path offset));
  saveState request.

(** A message was found. *)
Definition countParsed : Q unit :=
  _ ← smodify (set_report addParsed);
  report ← sget rnReport;
  smodify (set_state (stParsed (arParsed report))).

Definition enqueueMboxMessage (root path : string) (highWater : Z) (offset size : Z) : Q unit :=
  state ← sget rnState;
  if bool_decide (path = isLastPath state) && (offset <=? isLastOffset state) then mret tt else
  _ ← countParsed;
  publishArchiveImportJob root path ArchiveImportFormatMbox offset size highWater.

Definition enqueueArchiveFileJobs (root path : string) (highWater : Z) : Q unit :=
  let format := detectArchiveFileFormat qeFS path (aqFormat request) in
  if bool_decide (format = "") then smodify (set_report addSkipped) else
  state ← sget rnState;
  if shouldSkipArchivePath path format state then mret tt else
  _ ← smodify (set_report addScanned);
  report ← sget rnReport;
  _ ← smodify (set_state (stScanned (arScanned report)));
  if bool_decide (format = ArchiveImportFormatMbox) then
    forEachMboxMessageOffset (fsOpen qeFS path) (enqueueMboxMessage root path highWater)
  else
    _ ← countParsed;
    publishArchiveImportJob root path format 0 0 highWater.

(** The function [walkArchiveJobs] walks with. *)
Definition enqueueEntry (root : string) (highWater : Z) (path name : string) (dir : bool) (err : option GoError) : Q bool :=
  match err with
  | Some e => _ ← smodify (set_report (appendArchiveFatalFailure e)); mret false
  | None =>
      _ ← onWorld qeCtxErr;
      if dir then mret (shouldSkipArchiveDir name)
      else if shouldSkipArchiveFile name then _ ← smodify (set_report addSkipped); mret false
      else _ ← enqueueArchiveFileJobs root path highWater; mret false
  end.

Definition walkArchiveJobs (root : string) (highWater : Z) : Q unit :=
  let root := Clean root in
  match fsStat qeFS root with
  | inl e => sfail e
  | inr TFile => enqueueArchiveFileJobs root root highWater
  | inr t => WalkDir (enqueueEntry root highWater) root t
  end.

Definition enqueueArchiveImportJobs : Q unit :=
  let highWater := if aqQueueHighWater request <=? 0 then defaultArchiveImportQueueHighWater else aqQueueHighWater request in
  _ ← sforM (aqRoots request) tt (fun _ root =>
    r ← stry (walkArchiveJobs root highWater);
    match r with inl e => smodify (set_report (appendArchiveFatalFailure e)) | inr _ => mret tt end);
  report ← sget rnReport;
  if 0 <? Z.of_nat (length (arFatalFailures report)) then sfail (ErrMsg "archive import discovery completed with failure(s)") else mret tt.

End discovery.

(** ** Runs *)

Definition withRunID (runID : string) (r : ArchiveImportRequest) : ArchiveImportRequest :=
  MkImportRequest (aqSourceName r) (aqFormat r) (aqRoots r) runID (aqStateDir r) (aqDryRun r) (aqLowNoise r) (aqResume r)
    (aqQueueHighWater r).

Definition freshRunState (request : ArchiveImportRequest) (sourceName runID : string) : archiveImportRunState :=
  MkRunState zeroTime runID sourceName "" 0 0 0 0 0 0 false (aqLowNoise request) (aqDryRun request).

Definition startRecord (request : ArchiveImportRequest) (sourceName runID : string) (t : Time) : ImportRunRecord :=
  MkRunRecord runID sourceName MailArchiveSourceKind (aqRoots request) (aqFormat request) ImportRunStatusRunning t zeroTime zeroTime
    0 0 0 0 0 (aqLowNoise request) false.

Definition finishRecord (status : string) (t : Time) (report : ArchiveImportReport) (r : ImportRunRecord) : ImportRunRecord :=
  MkRunRecord (irRunID r) (irSourceName r) (irSourceKind r) (irRoots r) (irFormat r) status (irStartedAt r) t (irUpdatedAt r)
    (arScanned report) (arParsed report) (arImported report) (arExactDuplicates report + arMessageIDDuplicates report)
    (Z.of_nat (length (arFailures report))) (irLowNoise r) (irDryRun r).

(** The record is written before and after the run, when it can be. *)
Definition withRecord (request : ArchiveImportRequest) (sourceName runID : string) (status : ArchiveImportReport -> string)
    (body : Q (option GoError)) : Q (option GoError) :=
  if aqDryRun request then body else
  t ← onWorld qeNow;
  let record := startRecord request sourceName runID t in
  _ ← stry (onWorld (WriteImportRunRecord (aqStateDir request) record));
  r ← body;
  report ← sget rnReport;
  t ← onWorld qeNow;
  _ ← stry (onWorld (WriteImportRunRecord (aqStateDir request) (finishRecord (status report) t report record)));
  mret r.

Definition fatal (m : Q unit) : Q unit :=
  r ← stry m; match r with inl e => smodify (set_report (appendArchiveFatalFailure e)) | inr _ => mret tt end.

(** An error the caller of the run sees. *)
Definition fatalError : Q (option GoError) :=
  report ← sget rnReport;
  mret (if 0 <? Z.of_nat (length (arFatalFailures report)) then Some (ErrMsg "archive import completed with fatal failure(s)") else None).

(** Discovery, unless it was done before; the error when its state cannot be saved. *)
Definition discover (fuel : nat) (request : ArchiveImportRequest) (sourceName runID : string) : Q (option GoError) :=
  state ← sget rnState;
  if isDiscoveryDone state then mret None else
  r ← stry (enqueueArchiveImportJobs fuel request sourceName runID (Some (drainOne request sourceName)));
  match r with
  | inl e => _ ← smodify (set_report (appendArchiveFatalFailure e)); mret None
  | inr _ =>
      _ ← smodify (set_state (stDone true));
      r ← stry (saveState request);
      match r with inl e => mret (Some e) | inr _ => mret None end
  end.

Definition runBody (fuel : nat) (request : ArchiveImportRequest) (sourceName runID : string) : Q (option GoError) :=
  err ← discover fuel request sourceName runID;
  match err with
  | Some e => mret (Some e)
  | None =>
      report ← sget rnReport;
      _ ← (if bool_decide (arFailures report = []) then fatal (drain fuel request sourceName) else mret tt);
      failure ← onWorld qeFailureError;
      _ ← (match failure with Some e => smodify (set_report (appendArchiveFatalFailure e)) | None => mret tt end);
      fatalError
  end.

(** [ArchiveImportQueuedRun.Run]: the report, and the error. *)
Definition QueuedRun (fuel : nat) (request : ArchiveImportRequest) (w : W) : res (ArchiveImportReport * option GoError) * W :=
  let sourceName := archiveImportSourceName request in
  let runID := archiveImportRunID qeSha256 request sourceName in
  match (if aqResume request then loadArchiveImportState (aqStateDir request) runID w else (Ok zeroRunState, w)) with
  | (Ok loaded, w) =>
      let state := if bool_decide (isRunID loaded = "") then freshRunState request sourceName runID else loaded in
      let report := newReport sourceName runID (isScanned state) (isParsed state) (isEnqueued state) (isProcessed state) in
      match withRecord request sourceName runID archiveImportRunStatus (runBody fuel (withRunID runID request) sourceName runID)
              (MkRun w state report []) with
      | (Ok err, s) => (Ok (rnReport s, err), rnWorld s)
      | (Err e, s) => (Ok (rnReport s, Some e), rnWorld s)
      | (Panic, s) => (Panic, rnWorld s)
      end
  | (Err e, w) => (Ok (newReport "" "" 0 0 0 0, Some e), w)
  | (Panic, w) => (Panic, w)
  end.

Definition enqueueOnlyBody (fuel : nat) (request : ArchiveImportRequest) (sourceName runID : string) : Q (option GoError) :=
  _ ← fatal (enqueueArchiveImportJobs fuel request sourceName runID None);
  report ← sget rnReport;
  _ ← smodify (set_state (stDone (bool_decide (arFatalFailures report = []))));
  r ← stry (saveState request);
  match r with inl e => mret (Some e) | inr _ => fatalError end.

Definition EnqueueOnly (fuel : nat) (request : ArchiveImportRequest) (w : W) : res (ArchiveImportReport * option GoError) * W :=
  let sourceName := archiveImportSourceName request in
  let runID := archiveImportRunID qeSha256 request sourceName in
  match withRecord request sourceName runID
          (fun report => if bool_decide (arFatalFailures report = []) then ImportRunStatusEnqueued else ImportRunStatusFailed)
          (enqueueOnlyBody fuel (withRunID runID request) sourceName runID)
          (MkRun w (freshRunState request sourceName runID) (newReport sourceName runID 0 0 0 0) []) with
  | (Ok err, s) => (Ok (rnReport s, err), rnWorld s)
  | (Err e, s) => (Ok (rnReport s, Some e), rnWorld s)
  | (Panic, s) => (Panic, rnWorld s)
  end.

End queue.

(** ** Postconditions of runs that may be waiting *)

(** What holds when [m] from [s] has a result, and while it has none. *)
Definition upto {S A} (m : SM S A) (s : S) (P : option (GoError + A) -> S -> Prop) : Prop :=
  match m s with
  | (Ok a, s') => P (Some (inr a)) s'
  | (Err e, s') => P (Some (inl e)) s'
  | (Panic, s') => P None s'
  end.

Section upto.
Context {S : Type}.

Lemma upto_mono {A} (m : SM S A) s (P P' : option (GoError + A) -> S -> Prop) :
  upto m s P -> (forall r s', P r s' -> P' r s') -> upto m s P'.
Proof. unfold upto. destruct (m s) as [[a|e|] s']; auto. Qed.

Lemma upto_bind {A B} (m : SM S A) (k : A -> SM S B) s P :
  upto m s (fun r s' => match r with Some (inr a) => upto (k a) s' P | Some (inl e) => P (Some (inl e)) s' | None => P None s' end) ->
  upto (m ≫= k) s P.
Proof. unfold upto, mbind, SM_bind. destruct (m s) as [[a|e|] s']; auto. Qed.

Lemma upto_ret {A} (a : A) s (P : option (GoError + A) -> S -> Prop) : P (Some (inr a)) s -> upto (mret a) s P.
Proof. done. Qed.

Lemma upto_get {A} (f : S -> A) s (P : option (GoError + A) -> S -> Prop) : P (Some (inr (f s))) s -> upto (sget f) s P.
Proof. done. Qed.

Lemma upto_modify (f : S -> S) s (P : option (GoError + unit) -> S -> Prop) : P (Some (inr tt)) (f s) -> upto (smodify f) s P.
Proof. done. Qed.

Lemma upto_fail {A} e s (P : option (GoError + A) -> S -> Prop) : P (Some (inl e)) s -> upto (sfail e) s P.
Proof. done. Qed.

Lemma upto_try {A} (m : SM S A) s P :
  upto m s (fun r s' => match r with Some x => P (Some (inr x)) s' | None => P None s' end) -> upto (stry m) s P.
Proof. unfold upto, stry. destruct (m s) as [[a|e|] s']; auto. Qed.

Lemma upto_wrap {A} msg (m : SM S A) s P :
  upto m s (fun r s' => match r with Some (inl e) => P (Some (inl (ErrWrap msg e))) s' | r => P r s' end) -> upto (swrap msg m) s P.
Proof. unfold upto, swrap. destruct (m s) as [[a|e|] s']; auto. Qed.

Lemma upto_check e s (P : option (GoError + unit) -> S -> Prop) :
  (forall x, e = Some x -> P (Some (inl x)) s) -> (e = None -> P (Some (inr tt)) s) -> upto (scheck e) s P.
Proof. destruct e; cbn; auto. Qed.

End upto.

(** ** What a run relies on *)

(** The queue and the ingestion of messages leave the run's files alone. *)
Definition apart {W A} `{!StateFiles W} (m : SM W A) : Prop := forall w, post m w (fun _ w' => touches (fun _ => False) w w').

Class QueueLaws (W Mail : Type) `{!QueueEnv W Mail, !StateFiles W} : Prop := {
  ql_now : apart qeNow;
  ql_ctx : apart qeCtxErr;
  ql_publish : forall j, apart (qePublish j);
  ql_failures : forall n, apart (qeProcessFailures n);
  ql_status : apart qeStatus;
  ql_receive : apart qeReceive;
  ql_ack : forall r, apart (qeAck r);
  ql_release : forall r, apart (qeRelease r);
  ql_retry : forall r e, apart (qeRetry r e);
  ql_wait : apart qeWait;
  ql_failureError : apart qeFailureError;
  ql_ingest : forall rq name m rep, apart (qeIngest rq name m rep);
  (** ingestion counts messages; the counters of the queue are not its own *)
  ql_ingest_report : forall rq name m rep w rep' err w', qeIngest rq name m rep w = (Ok (rep', err), w') ->
    arRunID rep' = arRunID rep /\ arEnqueued rep' = arEnqueued rep /\ arProcessed rep' = arProcessed rep }.

(** The jobs a trace shows as published. *)
Definition published (tr : list qevent) : list SourceImportJob :=
  omap (fun e => match e with EPublished j => Some j | _ => None end) tr.

(** How far discovery is. *)
Definition pos (st : archiveImportRunState) : string * Z := (isLastPath st, isLastOffset st).

Section discovery_proofs.
Context {W Mail : Type} `{!QueueEnv W Mail, !StateFiles W, !StateFilesLaws W, !QueueLaws W Mail} {J : RunJSON} `{!RunJSONLaws J}.
Context (request : ArchiveImportRequest) (sourceName runID : string).
#[local] Set Default Proof Using "Type*".

Abbreviation Q := (SM (Run W)).

(** The state file holds position [p]. *)
Definition onDisk (w : W) (p : string * Z) : Prop :=
  blank (aqStateDir request) = false -> exists st, storedState w (aqStateDir request) runID = inr st /\ pos st = p.

(** What drops nothing and publishes nothing. *)
Record stays (s s' : Run W) : Prop := {
  sy_run : isRunID (rnState s) = runID -> isRunID (rnState s') = runID;
  sy_pos : pos (rnState s') = pos (rnState s);
  sy_id : arRunID (rnReport s') = arRunID (rnReport s);
  sy_enqueued : arEnqueued (rnReport s') = arEnqueued (rnReport s);
  sy_published : published (rnTrace s') = published (rnTrace s);
  sy_disk : isRunID (rnState s) = runID -> onDisk (rnWorld s) (pos (rnState s)) -> onDisk (rnWorld s') (pos (rnState s)) }.

Lemma stays_refl s : stays s s.
Proof. by split. Qed.

Lemma stays_trans s1 s2 s3 : stays s1 s2 -> stays s2 s3 -> stays s1 s3.
Proof.
  intros [A1 A2 A3 A4 A5 A6] [B1 B2 B3 B4 B5 B6]. split; try congruence; [auto|]. intros Hr Hd. rewrite <- A2. apply B6; [auto|]. rewrite A2. auto.
Qed.

Lemma onDisk_same w w' p : touches (fun _ => False) w w' -> onDisk w p -> onDisk w' p.
Proof using Type. intros Ht Hd Hb. destruct (Hd Hb) as (st & Hs & Hp). exists st. split; [|done]. unfold storedState in *. by rewrite Ht by tauto. Qed.

Lemma stays_world w s : touches (fun _ => False) (rnWorld s) w -> stays s (set_world w s).
Proof. intros Ht. split; try done. intros _. by apply onDisk_same. Qed.

Lemma call_upto {A} (m : SM W A) s (P : option (GoError + A) -> Run W -> Prop) : apart m ->
  (forall r s', stays s s' -> match r with inl e => m (rnWorld s) = (Err e, rnWorld s') | inr a => m (rnWorld s) = (Ok a, rnWorld s') end ->
     P (Some r) s') -> upto (onWorld m) s P.
Proof.
  intros Hm HP. unfold upto, onWorld. specialize (Hm (rnWorld s)). unfold post in Hm. destruct (m (rnWorld s)) as [[a|e|] w] eqn:Hr; [| |done].
  - apply HP; [by apply stays_world|done].
  - apply HP; [by apply stays_world|done].
Qed.

(** Events that publish nothing. *)
Lemma stays_event e s : published [e] = [] -> stays s (add_event e s).
Proof. intros He. split; try done. cbn. unfold published in *. by rewrite omap_app, He, app_nil_r. Qed.

Lemma stays_state f s : (forall st, pos (f st) = pos st /\ isRunID (f st) = isRunID st) -> stays s (set_state f s).
Proof. intros Hf. destruct (Hf (rnState s)) as [H1 H2]. split; try done; cbn; by rewrite ?H2. Qed.

Lemma stays_report f s : (forall r, arRunID (f r) = arRunID r /\ arEnqueued (f r) = arEnqueued r) -> stays s (set_report f s).
Proof. intros Hf. destruct (Hf (rnReport s)) as [H1 H2]. by split. Qed.

(** Saving: the state file follows, or keeps what it had. *)
Lemma saveState_upto s (P : option (GoError + unit) -> Run W -> Prop) : isRunID (rnState s) = runID ->
  (forall r s', rnState s' = rnState s -> rnReport s' = rnReport s -> rnTrace s' = rnTrace s ->
     (r = inr tt -> onDisk (rnWorld s') (pos (rnState s))) ->
     (forall e, r = inl e -> forall p, onDisk (rnWorld s) p -> onDisk (rnWorld s') p) -> P (Some r) s') ->
  upto (saveState request) s P.
Proof.
  intros Hid HP. unfold saveState. apply upto_bind, upto_get. unfold upto, onWorld. destruct (blank (aqStateDir request)) eqn:Hb.
  - unfold saveArchiveImportState. rewrite Hb. cbn. apply HP; try done; unfold onDisk; congruence.
  - pose proof (save_post (aqStateDir request) (rnState s) (rnWorld s) Hb) as H. unfold post in H.
    destruct (saveArchiveImportState _ _ _) as [[[]|e|] w]; [| |done]; cbv zeta in H; destruct H as [_ H]; rewrite Hid in H.
    + destruct H as (t & b & Hb' & Hf). apply HP; try done. intros _ _. exists (touchRunState t (rnState s)).
      split; [|done]. unfold storedState. cbn. rewrite Hf. by rewrite (decode_encodeState _ _ Hb').
    + apply HP; try done. intros ? _ p Hp _. destruct (Hp Hb) as (st & Hs & Hpos). exists st. split; [|done].
      unfold storedState in *. cbn. by rewrite H.
Qed.

Lemma stays_save s s' r : rnState s' = rnState s -> rnReport s' = rnReport s -> rnTrace s' = rnTrace s ->
  (r = inr tt -> onDisk (rnWorld s') (pos (rnState s))) ->
  (forall e : GoError, r = inl e -> forall p, onDisk (rnWorld s) p -> onDisk (rnWorld s') p) -> stays s s'.
Proof.
  intros H1 H2 H3 Hok Herr. split; try congruence. intros _ Hd. destruct r as [e|[]]; [by eapply Herr|auto].
Qed.

(** Lift what a step keeps over the steps before it. *)
Ltac stay_on H := apply (stays_trans _ _ _ H).

Lemma saveState_stays s : isRunID (rnState s) = runID -> upto (saveState request) s (fun _ s' => stays s s').
Proof. intros Hid. apply saveState_upto; [done|]. intros r s' H1 H2 H3 H4 H5. by eapply stays_save. Qed.

Lemma ackJob_stays receipt s : isRunID (rnState s) = runID -> upto (ackJob request receipt) s (fun _ s' => stays s s').
Proof.
  intros Hid. unfold ackJob. apply upto_bind, upto_try, call_upto; [apply ql_ack|]. intros r s0 H0 _.
  apply upto_bind, upto_modify. set (s1 := add_event _ s0). assert (stays s s1) as H1 by (stay_on H0; by apply stays_event).
  apply upto_bind. destruct r as [e|[]]; [by apply upto_fail|]. apply upto_ret.
  apply upto_bind, upto_modify, upto_bind, upto_get, upto_bind, upto_modify.
  set (s2 := set_state _ _). assert (stays s s2) as H2.
  { stay_on H1. apply (stays_trans _ (set_report addProcessed s1)); [by apply stays_report|by apply stays_state]. }
  eapply upto_mono; [apply saveState_stays; by apply H2|]. intros r s' H'. by stay_on H2.
Qed.

Lemma failJob_stays receipt err s : isRunID (rnState s) = runID -> upto (failJob request receipt err) s (fun _ s' => stays s s').
Proof.
  intros Hid. unfold failJob. apply upto_bind, upto_modify. set (s0 := set_state _ s). assert (stays s s0) as H0 by by apply stays_state.
  destruct (isVar _ err).
  - apply upto_bind, upto_modify. set (s1 := set_report _ s0). assert (stays s s1) as H1 by (stay_on H0; by apply stays_report).
    eapply upto_mono; [apply ackJob_stays; by apply H1|]. intros r s' H'. by stay_on H1.
  - apply upto_bind, upto_modify. set (s1 := add_event _ s0). assert (stays s s1) as H1 by (stay_on H0; by apply stays_event).
    apply upto_bind, call_upto; [apply ql_retry|]. intros [e|[]] s2 H2 _; [by stay_on H1|].
    apply upto_bind, upto_wrap, call_upto; [apply ql_failures|]. intros [e|n] s3 H3 _; [stay_on H1; by stay_on H2|].
    apply upto_bind, upto_wrap, call_upto; [apply ql_status|]. intros [e|st] s4 H4 _; [stay_on H1; stay_on H2; by stay_on H3|].
    assert (stays s s4) as Hs4 by (stay_on H1; stay_on H2; by stay_on H3).
    destruct (_ && _); [by apply upto_fail|]. eapply upto_mono; [apply saveState_stays; by apply Hs4|]. intros r s' H'. by stay_on Hs4.
Qed.

Lemma process_stays name job s : upto (ProcessSourceImportJob name job request) s (fun _ s' => stays s s').
Proof.
  unfold ProcessSourceImportJob. apply upto_bind, call_upto; [apply ql_now|]. intros [e|t] s1 H1 _; [done|].
  destruct (parseArchiveJobMessage t job) as [e|message].
  - apply upto_bind, upto_modify, upto_fail. stay_on H1. by apply stays_report.
  - apply upto_bind, upto_get, upto_bind, call_upto; [apply ql_ingest|]. intros [e|[rep err]] s2 H2 Hi; [by stay_on H1|].
    destruct (ql_ingest_report _ _ _ _ _ _ _ _ Hi) as (Hr1 & Hr2 & Hr3).
    apply upto_bind, upto_modify. assert (stays s (set_report (fun _ => rep) s2)) as H3.
    { stay_on H1. stay_on H2. destruct H2. split; try done; cbn; congruence. }
    apply upto_check; intros; exact H3.
Qed.

Lemma drainOne_stays name s : isRunID (rnState s) = runID -> upto (drainOne request name) s (fun _ s' => stays s s').
Proof.
  intros Hid. unfold drainOne, receiveSourceImportJob. apply upto_bind, upto_bind, upto_wrap, call_upto; [apply ql_receive|].
  intros [e|receipt] s1 H1 _; [done|]. apply upto_bind, upto_modify, upto_ret, upto_bind, upto_get.
  set (s2 := add_event _ s1). assert (stays s s2) as H2 by (stay_on H1; by apply stays_event). destruct (negb _).
  - apply upto_bind, upto_modify. set (s3 := add_event _ s2). assert (stays s s3) as H3 by (stay_on H2; by apply stays_event).
    apply upto_bind, call_upto; [apply ql_release|]. intros [e|[]] s4 H4 _; [by stay_on H3|]. apply upto_fail. by stay_on H3.
  - apply upto_bind, upto_try. eapply upto_mono; [apply process_stays|]. cbn beta. intros [[e|[]]|] s3 H3; [| |by stay_on H2].
    all: apply upto_bind, upto_modify; set (s4 := add_event _ s3); assert (stays s s4) as H04 by (stay_on H2; stay_on H3; by apply stays_event).
    + eapply upto_mono; [apply failJob_stays; by apply H04|]. intros r s' H'. by stay_on H04.
    + eapply upto_mono; [apply ackJob_stays; by apply H04|]. intros r s' H'. by stay_on H04.
Qed.

(** *** Publishing *)

(** A message of a file. *)
Record message := MkMessage { msPath : string; msFormat : string; msOffset : Z; msSize : Z }.

Definition msPos (m : message) : string * Z := (msPath m, msOffset m).

(** Position after the messages [l]. *)
Definition after (p : string * Z) (l : list message) : string * Z := default p (msPos <$> last l).

Lemma after_app p a b : after p (a ++ b) = after (after p a) b.
Proof using Type. unfold after. rewrite last_app. by destruct (last b). Qed.

(** Exactly the jobs of [l] were published from [s] to [s'], and the state shows
    it; when the step [ok]ayed, so does the state file, otherwise it may be one
    job behind. *)
Record did (root : string) (l : list message) (ok : bool) (s s' : Run W) : Prop := {
  dd_run : isRunID (rnState s) = runID -> isRunID (rnState s') = runID;
  dd_pos : pos (rnState s') = after (pos (rnState s)) l;
  dd_id : arRunID (rnReport s') = arRunID (rnReport s);
  dd_enqueued : arEnqueued (rnReport s') = arEnqueued (rnReport s) + Z.of_nat (length l);
  dd_published : exists jobs, published (rnTrace s') = published (rnTrace s) ++ jobs /\
    Forall2 (fun m j => exists t, j = newImportJob request sourceName runID t root (msPath m) (msFormat m) (msOffset m) (msSize m)) l jobs;
  dd_disk : isRunID (rnState s) = runID -> onDisk (rnWorld s) (pos (rnState s)) ->
    onDisk (rnWorld s') (after (pos (rnState s)) l) \/
    ok = false /\ onDisk (rnWorld s') (after (pos (rnState s)) (removelast l)) }.

Lemma did_stays root ok s s' : stays s s' -> did root [] ok s s'.
Proof.
  intros [H1 H2 H3 H4 H5 H6]. split; try done; [rewrite H4; cbn [length]; lia| |intros Hr Hd; left; auto].
  exists []. split; [by rewrite app_nil_r|constructor].
Qed.

Lemma did_trans root a b ok s1 s2 s3 : did root a true s1 s2 -> did root b ok s2 s3 -> did root (a ++ b) ok s1 s3.
Proof.
  intros [A1 A2 A3 A4 (ja & A5 & A5') A6] [B1 B2 B3 B4 (jb & B5 & B5') B6]. split.
  - auto.
  - by rewrite B2, A2, after_app.
  - congruence.
  - rewrite B4, A4, length_app. lia.
  - exists (ja ++ jb). split; [by rewrite B5, A5, app_assoc|by apply Forall2_app].
  - intros Hr Hd. destruct (A6 Hr Hd) as [Ha|[? _]]; [|done]. rewrite A2 in B6. destruct (B6 (A1 Hr) Ha) as [Hb|[-> Hb]].
    + left. by rewrite after_app.
    + destruct b as [|x b]; [left; by rewrite app_nil_r|right]. split; [done|]. by rewrite removelast_app, after_app.
Qed.

Lemma did_weaken root l ok s s' : did root l true s s' -> did root l ok s s'.
Proof. intros [A1 A2 A3 A4 A5 A6]. split; try done. intros Hr Hd. destruct (A6 Hr Hd) as [?|[? _]]; [by left|done]. Qed.

Lemma did_report root l ok s s' f : (forall r, arRunID (f r) = arRunID r /\ arEnqueued (f r) = arEnqueued r) -> did root l ok s s' ->
  did root l ok s (set_report f s').
Proof. intros Hf [A1 A2 A3 A4 A5 A6]. destruct (Hf (rnReport s')) as [F1 F2]. split; try done; cbn; congruence. Qed.

Lemma did_after root l ok s0 s s' : stays s0 s -> did root l ok s s' -> did root l ok s0 s'.
Proof. intros Hs Hd. apply (did_trans root [] l ok s0 s s'); [by apply did_stays|done]. Qed.

(** *** Progress *)

Definition isOk {A} (r : option (GoError + A)) : bool := match r with Some (inr _) => true | _ => false end.

(** A part of [todo] was published from its start, all of it when the step
    returned without an error. *)
Definition progress {A} (root : string) (todo : list message) (s : Run W) (r : option (GoError + A)) (s' : Run W) : Prop :=
  exists l, l `prefix_of` todo /\ did root l (isOk r) s s' /\ (isOk r = true -> l = todo).

Lemma progress_stays {A} root s (r : option (GoError + A)) s' : stays s s' -> progress root [] s r s'.
Proof. intros Hs. exists []. split; [done|]. split; [by apply did_stays|done]. Qed.

Lemma progress_stop {A} root todo s (r : option (GoError + A)) s' : stays s s' -> isOk r = false -> progress root todo s r s'.
Proof. intros Hs Hr. exists []. split; [apply prefix_nil|]. split; [by apply did_stays|congruence]. Qed.

Lemma progress_before {A} root todo s0 s (r : option (GoError + A)) s' : stays s0 s -> progress root todo s r s' -> progress root todo s0 r s'.
Proof. intros Hs (l & Hl & Hd & He). exists l. split; [done|]. split; [by eapply did_after|done]. Qed.

Lemma progress_ok {A} root todo s (a : A) s' : progress root todo s (Some (inr a)) s' -> did root todo true s s'.
Proof. intros (l & _ & Hd & He). by rewrite <- (He eq_refl). Qed.

Lemma progress_res {A B} root todo s (r : option (GoError + A)) (r' : option (GoError + B)) s' :
  progress root todo s r s' -> isOk r = isOk r' -> progress root todo s r' s'.
Proof. unfold progress. by intros Hp <-. Qed.

Lemma progress_join {A} root t1 t2 s s1 (r : option (GoError + A)) s2 : did root t1 true s s1 -> progress root t2 s1 r s2 ->
  progress root (t1 ++ t2) s r s2.
Proof.
  intros Hd (l & Hl & Hd2 & He). exists (t1 ++ l). split; [by apply prefix_app|]. split; [by eapply did_trans|]. intros H. by rewrite He.
Qed.

Lemma progress_cut {A B} root t1 t2 s (r : option (GoError + A)) (r' : option (GoError + B)) s' : progress root t1 s r s' ->
  isOk r = false -> isOk r' = false -> progress root (t1 ++ t2) s r' s'.
Proof.
  intros (l & Hl & Hd & _) Hr Hr'. exists l. split; [by apply prefix_app_r|]. rewrite Hr in Hd. rewrite Hr'. by split.
Qed.

Lemma progress_bind {A B} root t1 t2 (m : Q A) (k : A -> Q B) s : upto m s (progress root t1 s) ->
  (forall a s', did root t1 true s s' -> upto (k a) s' (progress root t2 s')) -> upto (m ≫= k) s (progress root (t1 ++ t2) s).
Proof.
  intros Hm Hk. apply upto_bind. eapply upto_mono; [exact Hm|]. cbn beta. intros [[e|a]|] s' Hp; [by eapply progress_cut| |by eapply progress_cut].
  pose proof (progress_ok _ _ _ _ _ Hp) as Hd. eapply upto_mono; [by apply Hk|]. intros r s2 Hp2. by eapply progress_join.
Qed.

(** Steps that publish nothing, in front. *)
Lemma progress_skip {A B} root todo (m : Q A) (k : A -> Q B) s : upto m s (fun _ s' => stays s s') ->
  (forall a s', stays s s' -> upto (k a) s' (progress root todo s')) -> upto (m ≫= k) s (progress root todo s).
Proof.
  intros Hm Hk. apply upto_bind. eapply upto_mono; [exact Hm|]. cbn beta. intros [[e|a]|] s' Hs; [by apply progress_stop| |by apply progress_stop].
  eapply upto_mono; [by apply Hk|]. intros r s2 Hp. by eapply progress_before.
Qed.

Lemma call_stays {A} (m : SM W A) s : apart m -> upto (onWorld m) s (fun _ s' => stays s s').
Proof. intros Hm. apply call_upto; auto. Qed.

Lemma modify_stays f s : stays s (f s) -> upto (smodify f) s (fun _ s' => stays s s').
Proof. done. Qed.

Section walk.
Context (fuel : nat) (drainer : option (Q unit)).
Hypothesis drainer_stays : forall d, drainer = Some d -> forall s, isRunID (rnState s) = runID -> upto d s (fun _ s' => stays s s').

Lemma wait_stays n hw s : isRunID (rnState s) = runID -> upto (waitForArchiveImportCapacity drainer n hw) s (fun _ s' => stays s s').
Proof.
  revert s. induction n as [|n IH]; intros s Hid; cbn [waitForArchiveImportCapacity]; apply upto_bind, call_upto; try apply ql_status;
    intros [e|st] s1 H1 _; try done; destruct (_ <? _); try done.
  apply upto_bind. assert (upto (match drainer with Some d => d | None => onWorld qeWait end) s1 (fun _ s' => stays s1 s')) as Hd.
  { destruct drainer as [d|]; [apply (drainer_stays d eq_refl); by apply H1|apply call_stays, ql_wait]. }
  eapply upto_mono; [exact Hd|]. cbn beta. intros [[e|[]]|] s2 H2; [by stay_on H1| |by stay_on H1].
  assert (stays s s2) as H02 by by stay_on H1. eapply upto_mono; [apply IH; by apply H02|]. intros r s' H'. by stay_on H02.
Qed.

Lemma publish_progress root path format o z hw s : isRunID (rnState s) = runID ->
  upto (publishArchiveImportJob fuel request sourceName runID drainer root path format o z hw) s
    (progress root [MkMessage path format o z] s).
Proof.
  intros Hid. unfold publishArchiveImportJob. apply progress_skip; [done|]. intros rep s1 H1. assert (isRunID (rnState s1) = runID) as Hid1 by by apply H1.
  apply progress_skip; [destruct (_ <=? _); [by apply wait_stays|apply upto_ret, stays_refl]|]. intros _ s2 H2.
  assert (isRunID (rnState s2) = runID) as Hid2 by by apply H2.
  apply progress_skip; [apply call_stays, ql_now|]. intros t s3 H3. apply progress_skip; [apply call_stays, ql_publish|]. intros _ s4 H4.
  assert (isRunID (rnState s4) = runID) as Hid4 by (apply H4, H3, Hid2).
  apply upto_bind, upto_modify, upto_bind, upto_modify, upto_bind, upto_get, upto_bind, upto_modify.
  set (s5 := set_state _ _). set (job := newImportJob _ _ _ _ _ _ _ _ _) in *. apply saveState_upto; [done|].
  intros r s' E1 E2 E3 Hok Herr. exists [MkMessage path format o z]. split; [done|]. split; [|done].
  split.
  - intros _. by rewrite E1.
  - by rewrite E1.
  - by rewrite E2.
  - by rewrite E2.
  - exists [job]. rewrite E3. cbn. unfold published. rewrite omap_app. split; [done|]. constructor; [by exists t|constructor].
  - intros _ Hd. destruct r as [e|[]]; [right|left; by apply Hok]. split; [done|]. by apply (Herr e eq_refl).
Qed.

(** *** One file *)

Definition mboxMessages (path : string) (calls : list (Z * Z)) : list message :=
  map (fun c => MkMessage path ArchiveImportFormatMbox c.1 c.2) calls.

(** The messages discovery sees in a file: those before the first read error. *)
Definition fileMessages (path : string) : list message :=
  let format := detectArchiveFileFormat qeFS path (aqFormat request) in
  if bool_decide (format = "") then []
  else if bool_decide (format = ArchiveImportFormatMbox) then
    match fsOpen qeFS path with
    | inl _ => []
    | inr f =>
        let '(lines, err) := scanLines f in
        let segs := (splitFrom lines).2 in
        mboxMessages path
          (match err with
           | None => numbered 0 (map segSize segs)
           | Some _ => take (length segs - 1) (numbered 0 (map segSize segs))
           end)
    end
  else [MkMessage path format 0 0].

(** Those that are left at position [p]. *)
Definition pending (p : string * Z) (m : message) : Prop :=
  p.1 = "" \/ str_ltb p.1 (msPath m) = true \/ (p.1 = msPath m /\ p.2 < msOffset m).

#[local] Instance pending_dec p m : Decision (pending p m).
Proof using Type. unfold pending. apply _. Defined.

Lemma pending_all p path (l : list message) : (forall m, m ∈ l -> msPath m = path) -> p.1 = "" \/ str_ltb p.1 path = true -> filter (pending p) l = l.
Proof using Type.
  intros Hl Hp. induction l as [|m l IH]; [done|]. rewrite filter_cons_True.
  - f_equal. apply IH. intros m' Hm'. apply Hl. by constructor.
  - unfold pending. rewrite (Hl m) by by constructor. tauto.
Qed.

Lemma pending_later p path (l : list message) : (forall m, m ∈ l -> msPath m = path /\ p.2 < msOffset m) -> p.1 = path -> filter (pending p) l = l.
Proof using Type.
  intros Hl Hp. induction l as [|m l IH]; [done|]. destruct (Hl m) as [H1 H2]; [by constructor|]. rewrite filter_cons_True.
  - f_equal. apply IH. intros m' Hm'. apply Hl. by constructor.
  - right. right. by rewrite H1.
Qed.

(** Messages of one mbox, by increasing offsets. *)
Definition increasing (o : Z) (calls : list (Z * Z)) : Prop := Forall (fun c => o < c.1) calls /\ StronglySorted (fun a b => a.1 < b.1) calls.

Lemma increasing_cons o c calls : increasing o (c :: calls) -> o < c.1 /\ increasing c.1 calls.
Proof using Type. intros [Hf Hs]. inversion Hf; subst. inversion Hs; subst. done. Qed.

Lemma numbered_increasing {A} (f : A -> Z) o (l : list A) : increasing (o - 1) (numbered o (map f l)).
Proof using Type.
  revert o. induction l as [|x l IH]; intros o; [by split; constructor|]. destruct (IH (o + 1)) as [Hf Hs].
  assert (Forall (fun c : Z * Z => o < c.1) (numbered (o + 1) (map f l))) as Hf' by (eapply Forall_impl; [exact Hf|]; cbn; lia).
  cbn [map numbered]. split; constructor; cbn; [lia|eapply Forall_impl; [exact Hf'|]; cbn; lia|done|done].
Qed.

Lemma increasing_take o n calls : increasing o calls -> increasing o (take n calls).
Proof using Type.
  intros [Hf Hs]. split; [by apply Forall_take|]. revert n. induction Hs as [|c calls Hs IH Hc]; intros [|n]; cbn; constructor; [apply IH|by apply Forall_take].
  by inversion Hf.
Qed.

Lemma countParsed_stays s : upto countParsed s (fun _ s' => stays s s').
Proof.
  unfold countParsed. apply upto_bind, upto_modify, upto_bind, upto_get, upto_modify.
  apply (stays_trans _ (set_report addParsed s)); [by apply stays_report|by apply stays_state].
Qed.

Lemma mboxMessages_later path o calls m : increasing o calls -> m ∈ mboxMessages path calls -> msPath m = path /\ o < msOffset m.
Proof using Type.
  intros [Hf _] Hm. unfold mboxMessages in Hm. apply list_elem_of_fmap in Hm as (c & -> & Hc). rewrite Forall_forall in Hf. split; [done|by apply Hf].
Qed.

(** The filter looks at messages after the first one only when it skipped it. *)
Lemma pending_rest p path o z calls : increasing o calls -> pending p (MkMessage path ArchiveImportFormatMbox o z) ->
  filter (pending p) (mboxMessages path calls) = mboxMessages path calls.
Proof using Type.
  intros Hinc Hp. assert (forall m, m ∈ mboxMessages path calls -> msPath m = path /\ o < msOffset m) as Hl by (intros; by eapply mboxMessages_later).
  destruct Hp as [He|[He|[He1 He2]]]; cbn in *.
  - eapply (pending_all _ path); [|by left]. intros m Hm. by apply Hl.
  - eapply (pending_all _ path); [|by right]. intros m Hm. by apply Hl.
  - eapply (pending_later _ path); [|done]. intros m Hm. destruct (Hl m Hm). split; [done|lia].
Qed.

Lemma callAll_progress root path hw calls o s : isRunID (rnState s) = runID -> path <> "" ->
  str_ltb path (pos (rnState s)).1 = false \/ (pos (rnState s)).1 = "" -> increasing o calls ->
  upto (callAll (enqueueMboxMessage fuel request sourceName runID drainer root path hw) calls) s
    (progress root (filter (pending (pos (rnState s))) (mboxMessages path calls)) s).
Proof.
  intros Hid Hp. revert o s Hid. induction calls as [|[o1 z1] calls IH]; intros o s Hid Hpos Hinc.
  { apply upto_ret, progress_stays, stays_refl. }
  destruct (increasing_cons _ _ _ Hinc) as [Ho Hinc']. cbn [fst] in Ho, Hinc'. unfold callAll. cbn [sforM fst snd].
  fold (callAll (enqueueMboxMessage fuel request sourceName runID drainer root path hw) calls).
  change (mboxMessages path ((o1, z1) :: calls)) with (MkMessage path ArchiveImportFormatMbox o1 z1 :: mboxMessages path calls).
  set (m1 := MkMessage path ArchiveImportFormatMbox o1 z1). destruct (decide (pending (pos (rnState s)) m1)) as [Hl|Hl].
  - rewrite filter_cons_True by done. rewrite (pending_rest _ path o1 z1) by done.
    assert (bool_decide (path = isLastPath (rnState s)) && (o1 <=? isLastOffset (rnState s)) = false) as Hs.
    { destruct Hl as [He|[He|[He1 He2]]]; cbn in *.
      - by rewrite He, bool_decide_false.
      - rewrite bool_decide_false; [done|]. intros Hpe. rewrite <- Hpe in He. by rewrite (tl_irrefl path) in He.
      - rewrite (proj2 (Z.leb_gt _ _) He2). apply andb_false_r. }
    apply (progress_bind root [m1]).
    + unfold enqueueMboxMessage. apply upto_bind, upto_get. rewrite Hs. apply progress_skip; [apply countParsed_stays|].
      intros _ s1 H1. apply publish_progress. by apply H1.
    + intros [] s1 Hd. assert (pos (rnState s1) = (path, o1)) as Hps by by rewrite (dd_pos _ _ _ _ _ Hd).
      assert (filter (pending (pos (rnState s1))) (mboxMessages path calls) = mboxMessages path calls) as He.
      { rewrite Hps. apply (pending_later _ path); [|done]. intros m Hm. by eapply mboxMessages_later. }
      rewrite <- He at 1. apply (IH o1); [by apply Hd| |done]. left. rewrite Hps. apply tl_irrefl.
  - rewrite filter_cons_False by done. apply progress_skip.
    + unfold enqueueMboxMessage. apply upto_bind, upto_get. rewrite bool_decide_true, (proj2 (Z.leb_le _ _)); [apply upto_ret, stays_refl| |].
      all: unfold pending in Hl; cbn in *; destruct Hpos as [Hpos|Hpos]; [|tauto].
      all: destruct (str_ltb (isLastPath (rnState s)) path) eqn:E; [tauto|]; pose proof (tl_total _ _ Hpos E) as Heq.
      * assert (~ isLastOffset (rnState s) < o1); [|lia]. intros ?. apply Hl. auto.
      * done.
    + intros [] s1 H1. rewrite <- (sy_pos _ _ H1). apply (IH o1); [by apply H1| |done]. by rewrite (sy_pos _ _ H1).
Qed.

Lemma fileMessages_path path m : m ∈ fileMessages path -> msPath m = path /\ 0 <= msOffset m.
Proof using Type.
  unfold fileMessages. case_bool_decide; [by intros ?%elem_of_nil|]. case_bool_decide.
  - destruct (fsOpen qeFS path) as [e|f]; [by intros ?%elem_of_nil|]. destruct (scanLines f) as [lines err]. intros Hm.
    assert (msPath m = path /\ -1 < msOffset m) as [? ?]; [|split; [done|lia]].
    eapply mboxMessages_later; [|exact Hm]. destruct err; [apply increasing_take|]; apply (numbered_increasing _ 0).
  - intros ->%list_elem_of_singleton. cbn. split; [done|lia].
Qed.

Lemma after_nonneg p path l : 0 <= p.2 -> (forall m, m ∈ l -> msPath m = path /\ 0 <= msOffset m) -> 0 <= (after p l).2.
Proof using Type.
  intros Hp Hl. unfold after. destruct (last l) as [m|] eqn:E; [|done]. cbn. apply Hl. by apply last_Some_elem_of.
Qed.

Lemma skip_none path st : 0 <= isLastOffset st ->
  shouldSkipArchivePath path (detectArchiveFileFormat qeFS path (aqFormat request)) st = true -> filter (pending (pos st)) (fileMessages path) = [].
Proof using Type.
  intros Hnn Hskip. unfold shouldSkipArchivePath in Hskip. destruct (bool_decide (isLastPath st = "")) eqn:E0; [done|]. apply bool_decide_eq_false in E0.
  destruct (filter _ _) as [|m l] eqn:El; [done|exfalso]. assert (m ∈ filter (pending (pos st)) (fileMessages path)) as [Hm Hin]%list_elem_of_filter
    by (rewrite El; constructor). clear El. destruct (fileMessages_path path m Hin) as [Hmp _].
  unfold pending in Hm. cbn in Hm. rewrite Hmp in Hm. destruct (str_ltb path (isLastPath st)) eqn:E1.
  - rewrite (tl_asym _ _ _ E1) in Hm. destruct Hm as [?|[?|[Heq _]]]; [done|done|]. rewrite Heq in E1. by rewrite (tl_irrefl path) in E1.
  - apply andb_true_iff in Hskip as [Heq%bool_decide_eq_true Hf]. rewrite <- Heq, (tl_irrefl path) in Hm. destruct Hm as [?|[?|[_ Hlt]]]; [congruence|done|].
    unfold fileMessages in Hin. destruct (bool_decide (_ = "")); [by apply elem_of_nil in Hin|]. destruct (bool_decide (_ = ArchiveImportFormatMbox)); [done|].
    apply list_elem_of_singleton in Hin as ->. cbn in Hlt. lia.
Qed.

Lemma scan_stays n s : stays s (set_state (stScanned n) (set_report addScanned s)).
Proof. apply (stays_trans _ (set_report addScanned s)); [by apply stays_report|by apply stays_state]. Qed.

Lemma upto_ext {S A} (m m' : SM S A) s P : m s = m' s -> upto m' s P -> upto m s P.
Proof using Type. unfold upto. by intros ->. Qed.

Lemma mbox_progress root path hw s : isRunID (rnState s) = runID -> path <> "" ->
  str_ltb path (pos (rnState s)).1 = false \/ (pos (rnState s)).1 = "" ->
  bool_decide (detectArchiveFileFormat qeFS path (aqFormat request) = "") = false ->
  bool_decide (detectArchiveFileFormat qeFS path (aqFormat request) = ArchiveImportFormatMbox) = true ->
  upto (forEachMboxMessageOffset (fsOpen qeFS path) (enqueueMboxMessage fuel request sourceName runID drainer root path hw)) s
    (progress root (filter (pending (pos (rnState s))) (fileMessages path)) s).
Proof.
  intros Hid Hp Hpos E0 E1. unfold fileMessages. rewrite E0, E1. destruct (fsOpen qeFS path) as [e|f]; [by apply upto_fail, progress_stop; [apply stays_refl|]|].
  pose proof (forEachMboxMessageOffset_spec (enqueueMboxMessage fuel request sourceName runID drainer root path hw) f s) as Hsp.
  destruct (scanLines f) as [lines [e|]]; cbv zeta in Hsp; eapply upto_ext; try exact Hsp.
  - rewrite <- (app_nil_r (filter _ _)). eapply progress_bind.
    + apply (callAll_progress root path hw _ (-1)); [done..|]. apply increasing_take, (numbered_increasing _ 0).
    + intros _ s1 _. apply upto_fail. apply progress_stop; [apply stays_refl|done].
  - apply (callAll_progress root path hw _ (-1)); [done..|]. apply (numbered_increasing _ 0).
Qed.

Lemma file_progress root path hw s : isRunID (rnState s) = runID -> path <> "" -> 0 <= (pos (rnState s)).2 ->
  upto (enqueueArchiveFileJobs fuel request sourceName runID drainer root path hw) s
    (progress root (filter (pending (pos (rnState s))) (fileMessages path)) s).
Proof.
  intros Hid Hp Hnn. unfold enqueueArchiveFileJobs. destruct (bool_decide (detectArchiveFileFormat _ _ _ = "")) eqn:E0.
  { unfold fileMessages. rewrite E0. apply upto_modify, progress_stays. by apply stays_report. }
  apply upto_bind, upto_get. destruct (shouldSkipArchivePath _ _ _) eqn:Hskip.
  { rewrite skip_none by done. apply upto_ret, progress_stays, stays_refl. }
  assert (str_ltb path (isLastPath (rnState s)) = false \/ isLastPath (rnState s) = "") as Hpos.
  { unfold shouldSkipArchivePath in Hskip. case_bool_decide; [by right|]. left. by destruct (str_ltb _ _). }
  apply upto_bind, upto_modify, upto_bind, upto_get, upto_bind, upto_modify. set (s1 := set_state _ _). pose proof (scan_stays (arScanned (rnReport (set_report addScanned s))) s : stays s s1) as H1.
  destruct (bool_decide (detectArchiveFileFormat _ _ _ = ArchiveImportFormatMbox)) eqn:E1.
  - eapply upto_mono; [by apply mbox_progress|]. intros r s' Hpr. by eapply progress_before.
  - unfold fileMessages. rewrite E0, E1. rewrite filter_cons_True; [rewrite filter_nil|].
    + match goal with |- upto ?m s1 (progress root ?l s) => cut (upto m s1 (progress root l s1)) end.
      { intros Hu. eapply upto_mono; [exact Hu|]. intros r s' Hpr. by eapply progress_before. }
      apply progress_skip; [apply countParsed_stays|]. intros _ s2 H2. apply publish_progress. apply H2, H1, Hid.
    + unfold pending. cbn. unfold shouldSkipArchivePath in Hskip. destruct Hpos as [Hpos|?]; [|by left]. rewrite Hpos, E1 in Hskip.
      destruct (bool_decide (isLastPath (rnState s) = "")) eqn:E3; [left; by apply bool_decide_eq_true in E3|right].
      destruct (str_ltb (isLastPath (rnState s)) path) eqn:E2; [by left|].
      rewrite bool_decide_true in Hskip by exact (tl_total _ _ Hpos E2). done.
Qed.

(** *** The walk *)

(** What discovery publishes of files from position [p] on. *)
Fixpoint discovered (p : string * Z) (files : list string) : list message :=
  match files with
  | [] => []
  | f :: r => let l := filter (pending p) (fileMessages f) in l ++ discovered (after p l) r
  end.

Lemma discovered_app p a b : discovered p (a ++ b) = discovered p a ++ discovered (after p (discovered p a)) b.
Proof using Type.
  revert p. induction a as [|f a IH]; intros p; [done|]. cbn [app discovered]. rewrite IH, after_app. by rewrite app_assoc.
Qed.

Lemma discovered_nonneg p files : 0 <= p.2 -> 0 <= (after p (discovered p files)).2.
Proof using Type.
  revert p. induction files as [|f files IH]; intros p Hp; [done|]. cbn [discovered]. rewrite after_app. apply IH.
  apply (after_nonneg p f); [done|]. intros m [_ Hm]%list_elem_of_filter. by apply fileMessages_path.
Qed.

Lemma Join_ne a b : a <> "" -> Join a b <> "".
Proof using Type.
  intros Ha. unfold Join. rewrite bool_decide_false by done. destruct (Clean_norm (a +:+ String slash b)) as (comps & Hn & ->). by apply render_ne.
Qed.

Lemma walk_progress root hw t path name s : isRunID (rnState s) = runID -> path <> "" -> 0 <= (pos (rnState s)).2 ->
  upto (walkDir (enqueueEntry fuel request sourceName runID drainer root hw) path name t) s (fun r s' =>
    progress root (discovered (pos (rnState s)) (walkedFiles path name t)) s r s' /\ r <> Some (inr true)).
Proof.
  revert path name s. induction t as [|es err IH] using tree_rect'; intros path name s Hid Hp Hnn; cbn [walkDir walkedFiles].
  - unfold enqueueEntry. apply upto_bind, call_upto; [apply ql_ctx|]. intros [e|[]] s1 H1 _; [split; [by apply progress_stop|done]|].
    destruct (shouldSkipArchiveFile name).
    + apply upto_bind, upto_modify, upto_ret. split; [|done]. apply progress_stays. stay_on H1. by apply stays_report.
    + cbn [discovered]. rewrite app_nil_r. apply upto_bind. eapply upto_mono.
      { apply file_progress; [by apply H1|done|by rewrite (sy_pos _ _ H1)]. }
      cbn beta. rewrite (sy_pos _ _ H1). intros [[e|[]]|] s2 Hpr; (split; [|done]); eapply progress_before; try exact H1; done.
  - unfold enqueueEntry at 1. apply upto_bind, upto_bind, call_upto; [apply ql_ctx|]. intros [e|[]] s1 H1 _; [split; [by apply progress_stop|done]|].
    apply upto_ret. destruct (shouldSkipArchiveDir name); [apply upto_ret; split; [by apply progress_stays|done]|].
    apply upto_bind. assert (exists s2, (match err with Some e => enqueueEntry fuel request sourceName runID drainer root hw path name true (Some e)
      | None => mret false end) s1 = (Ok false, s2) /\ stays s s2) as (s2 & Herr & H2).
    { destruct err as [e|]; eexists; (split; [reflexivity|]); [|done]. stay_on H1. by apply stays_report. }
    unfold upto at 1. rewrite Herr. clear Herr s1 H1. rewrite <- (sy_pos _ _ H2) in Hnn |- *.
    assert (isRunID (rnState s2) = runID) as Hid2 by by apply H2.
    match goal with |- upto ?m s2 (fun r s' => progress root ?l s r s' /\ _) => cut (upto m s2 (fun r s' => progress root l s2 r s' /\ r <> Some (inr true))) end.
    { intros Hu. eapply upto_mono; [exact Hu|]. intros r s' [Hpr Hr]. split; [by eapply progress_before|done]. }
    clear s Hid H2. revert s2 Hid2 Hnn. induction IH as [|[n t] es Ht _ IHes]; intros s Hid Hnn; cbn [fst snd] in *.
    { apply upto_ret. split; [apply progress_stays, stays_refl|done]. }
    rewrite discovered_app. apply upto_bind. eapply upto_mono; [apply (Ht (Join path n) n s Hid); [by apply Join_ne|done]|].
    cbn beta. intros [[e|[]]|] s1 [Hpr Hr]; [split; [by eapply progress_cut|done]|done| |split; [by eapply progress_cut|done]].
    apply progress_ok in Hpr. assert (pos (rnState s1) = after (pos (rnState s)) (discovered (pos (rnState s)) (walkedFiles (Join path n) n t))) as Hps by apply Hpr.
    rewrite <- Hps. eapply upto_mono; [apply IHes; [by apply Hpr|rewrite Hps; by apply discovered_nonneg]|].
    cbn beta. intros r s2 [Hp2 Hr2]. split; [by eapply progress_join|done].
Qed.

(** The files of a root. *)
Definition rootFiles (root : string) : list string :=
  match fsStat qeFS (Clean root) with
  | inl _ => []
  | inr TFile => [Clean root]
  | inr t => walkedFiles (Clean root) (Base (Clean root)) t
  end.

Lemma root_progress root hw s : isRunID (rnState s) = runID -> 0 <= (pos (rnState s)).2 ->
  upto (walkArchiveJobs fuel request sourceName runID drainer root hw) s
    (progress (Clean root) (discovered (pos (rnState s)) (rootFiles root)) s).
Proof.
  intros Hid Hnn. assert (Clean root <> "") as Hne by (destruct (Clean_norm root) as (comps & Hn & ->); by apply render_ne).
  unfold walkArchiveJobs, rootFiles. destruct (fsStat qeFS (Clean root)) as [e|[|es err]].
  - apply upto_fail, progress_stays, stays_refl.
  - cbn [discovered]. rewrite app_nil_r. by apply file_progress.
  - unfold WalkDir. apply upto_bind. eapply upto_mono; [by apply walk_progress|]. cbn beta. intros [[e|b]|] s' [Hp _]; by eapply progress_res.
Qed.

(** *** Without errors *)

Definition sure {A} (m : SM W A) : Prop := forall w, exists a w', m w = (Ok a, w').

(** The directories of the tree can be listed. *)
Fixpoint listable (t : tree) : Prop :=
  match t with
  | TFile => True
  | TDir entries err => err = None /\
      (fix go (l : list (string * tree)) : Prop := match l with [] => True | (_, t') :: r => listable t' /\ go r end) entries
  end.

(** The disk, the publisher and the context work, and the queue has room. *)
Record reliable (root : string) (highWater : Z) : Prop := {
  re_now : sure qeNow;
  re_ctx : sure qeCtxErr;
  re_publish : forall j, sure (qePublish j);
  re_save : forall st, sure (saveArchiveImportState (aqStateDir request) st);
  re_room : forall w, exists st w', qeStatus w = (Ok st, w') /\ qsPending st + qsRetry st < highWater;
  re_root : exists t, fsStat qeFS (Clean root) = inr t /\ listable t;
  re_files : forall path, exists f, fsOpen qeFS path = inr f /\ (scanLines f).2 = None }.

(** [m] succeeds, and reports nothing fatal. *)
Definition fine {A} (m : Q A) : Prop := forall s, exists a s', m s = (Ok a, s') /\ arFatalFailures (rnReport s') = arFatalFailures (rnReport s).

Lemma fine_bind {A B} (m : Q A) (k : A -> Q B) : fine m -> (forall a, fine (k a)) -> fine (m ≫= k).
Proof using Type.
  intros Hm Hk s. destruct (Hm s) as (a & s1 & H1 & F1). destruct (Hk a s1) as (b & s2 & H2 & F2). exists b, s2.
  unfold mbind, SM_bind. rewrite H1. split; [done|congruence].
Qed.

Lemma fine_world {A} (m : SM W A) : sure m -> fine (onWorld m).
Proof using Type. intros Hm s. destruct (Hm (rnWorld s)) as (a & w & H). exists a, (set_world w s). unfold onWorld. by rewrite H. Qed.

Lemma fine_get {A} (f : Run W -> A) : fine (sget f).
Proof using Type. intros s. by eexists _, _. Qed.

Lemma fine_modify f : (forall s, arFatalFailures (rnReport (f s)) = arFatalFailures (rnReport s)) -> fine (smodify f).
Proof using Type. intros Hf s. by eexists _, _. Qed.

Lemma fine_ret {A} (a : A) : fine (mret a).
Proof using Type. intros s. by eexists _, _. Qed.

Lemma fine_forM {A B} (l : list A) (acc : B) (f : B -> A -> Q B) : (forall acc x, fine (f acc x)) -> fine (sforM l acc f).
Proof using Type. intros Hf. revert acc. induction l as [|x l IH]; intros acc; cbn [sforM]; [apply fine_ret|]. by apply fine_bind. Qed.

Lemma publish_fine root0 root path format o z hw : reliable root0 hw ->
  fine (publishArchiveImportJob fuel request sourceName runID drainer root path format o z hw).
Proof using Type.
  intros HR. unfold publishArchiveImportJob, saveState. apply fine_bind; [apply fine_get|intros report]. apply fine_bind.
  { destruct (_ <=? _); [|apply fine_ret]. intros s. destruct (re_room _ _ HR (rnWorld s)) as (st & w & Hs & Hr).
    exists tt, (set_world w s). assert (forall n, waitForArchiveImportCapacity drainer n hw s = (Ok tt, set_world w s)) as H; [|split; [apply H|done]].
    intros [|n]; cbn [waitForArchiveImportCapacity]; unfold mbind, SM_bind, onWorld; rewrite Hs; by rewrite (proj2 (Z.ltb_lt _ _) Hr). }
  intros _. apply fine_bind; [apply fine_world, (re_now _ _ HR)|intros t]. apply fine_bind; [apply fine_world, (re_publish _ _ HR)|intros _].
  apply fine_bind; [by apply fine_modify|intros _]. apply fine_bind; [by apply fine_modify|intros _]. apply fine_bind; [apply fine_get|intros r].
  apply fine_bind; [by apply fine_modify|intros _]. apply fine_bind; [apply fine_get|intros st]. apply fine_world, (re_save _ _ HR).
Qed.

Lemma countParsed_fine : fine countParsed.
Proof using Type. unfold countParsed. apply fine_bind; [by apply fine_modify|intros _]. apply fine_bind; [apply fine_get|intros r]. by apply fine_modify. Qed.

Lemma file_fine root0 root path hw : reliable root0 hw ->
  fine (enqueueArchiveFileJobs fuel request sourceName runID drainer root path hw).
Proof using Type.
  intros HR. pose proof (fun format o z => publish_fine root0 root path format o z hw HR) as Hpub. unfold enqueueArchiveFileJobs. destruct (bool_decide _); [by apply fine_modify|]. apply fine_bind; [apply fine_get|intros st].
  destruct (shouldSkipArchivePath _ _ _); [apply fine_ret|]. apply fine_bind; [by apply fine_modify|intros _]. apply fine_bind; [apply fine_get|intros r].
  apply fine_bind; [by apply fine_modify|intros _]. destruct (bool_decide _); [|apply fine_bind; [apply countParsed_fine|done]].
  destruct (re_files _ _ HR path) as (f & -> & Hf). intros s.
  pose proof (forEachMboxMessageOffset_spec (enqueueMboxMessage fuel request sourceName runID drainer root path hw) f s) as Hsp.
  destruct (scanLines f) as [lines err]. cbn in Hf. subst err. cbv zeta in Hsp. rewrite Hsp. apply (fine_forM _ tt). intros [] [o z].
  unfold enqueueMboxMessage. apply fine_bind; [apply fine_get|intros st']. destruct (_ && _); [apply fine_ret|]. apply fine_bind; [apply countParsed_fine|done].
Qed.

Lemma walk_fine root0 root hw t path name : reliable root0 hw -> listable t ->
  fine (walkDir (enqueueEntry fuel request sourceName runID drainer root hw) path name t).
Proof using Type.
  intros HR. revert path name. induction t as [|es err IH] using tree_rect'; intros path name Ht; cbn [walkDir].
  - unfold enqueueEntry. apply fine_bind; [apply fine_world, (re_ctx _ _ HR)|intros _]. destruct (shouldSkipArchiveFile name).
    + apply fine_bind; [by apply fine_modify|intros _; apply fine_ret].
    + apply fine_bind; [by eapply file_fine|intros _; apply fine_ret].
  - destruct Ht as [-> Ht]. apply fine_bind.
    { unfold enqueueEntry. apply fine_bind; [apply fine_world, (re_ctx _ _ HR)|intros _; apply fine_ret]. }
    intros [|]; [apply fine_ret|]. apply fine_bind; [apply fine_ret|intros [|]; [apply fine_ret|]].
    induction IH as [|[n t] es H _ IHes]; [apply fine_ret|]. destruct Ht as [Ht Hes]. apply fine_bind; [by apply H|]. intros [|]; [apply fine_ret|by apply IHes].
Qed.

Lemma root_fine root hw : reliable root hw -> fine (walkArchiveJobs fuel request sourceName runID drainer root hw).
Proof using Type.
  intros HR. unfold walkArchiveJobs. destruct (re_root _ _ HR) as (t & -> & Ht). destruct t as [|es err]; [by eapply file_fine|].
  unfold WalkDir. apply fine_bind; [by eapply walk_fine|intros _; apply fine_ret].
Qed.

(** *** Positions *)

Definition before (m m' : message) : Prop :=
  str_ltb (msPath m) (msPath m') = true \/ (msPath m = msPath m' /\ msOffset m < msOffset m').

Lemma pending_before m m' : before m m' -> pending (msPos m) m'.
Proof using Type. unfold pending. cbn. by destruct 1; auto. Qed.

Lemma pending_trans p m m' : pending p m -> before m m' -> pending p m'.
Proof using Type.
  intros [?|[Hp|[Hp1 Hp2]]] Hb; [by left|right; left|right]; destruct Hb as [Hb|[Hb1 Hb2]].
  - by eapply tl_trans.
  - by rewrite <- Hb1.
  - left. by rewrite Hp1.
  - right. split; [congruence|lia].
Qed.

Lemma pending_not p m : p.1 <> "" -> (before m (MkMessage p.1 "" p.2 0) \/ msPos m = p) -> ~ pending p m.
Proof using Type.
  intros Hp Hb Hpe. destruct p as [path o]. unfold pending, before in *. cbn in *. destruct Hpe as [?|[Hpe|[Hpe1 Hpe2]]]; [done| |].
  - destruct Hb as [[Hb|[Hb1 Hb2]]|Hb].
    + by rewrite (tl_asym _ _ _ Hpe) in Hb.
    + rewrite Hb1, (tl_irrefl path) in Hpe. done.
    + injection Hb as <- <-. by rewrite (tl_irrefl (msPath m)) in Hpe.
  - destruct Hb as [[Hb|[Hb1 Hb2]]|Hb].
    + rewrite Hpe1, (tl_irrefl (msPath m)) in Hb. done.
    + lia.
    + injection Hb as _ <-. lia.
Qed.

(** The messages of a list of files. *)
Definition archiveMessages (files : list string) : list message := concat (map fileMessages files).

(** The files come in the order of their paths. *)
Definition inOrder (files : list string) : Prop :=
  StronglySorted (fun a b => str_ltb a b = true) (filter (fun f => fileMessages f <> []) files).

Lemma fileMessages_sorted f : StronglySorted before (fileMessages f).
Proof using Type.
  unfold fileMessages. case_bool_decide; [constructor|]. case_bool_decide; [|repeat constructor].
  destruct (fsOpen qeFS f) as [e|file]; [constructor|]. destruct (scanLines file) as [lines err].
  match goal with |- context [mboxMessages f ?c] => set (calls := c) end.
  assert (increasing (-1) calls) as [_ Hs] by (unfold calls; destruct err; [apply increasing_take|]; apply (numbered_increasing _ 0)).
  unfold mboxMessages. induction Hs as [|c l Hs IH Hc]; cbn; constructor; [done|]. apply Forall_map. eapply Forall_impl; [exact Hc|]. intros c' ?. by right.
Qed.

Lemma archiveMessages_sorted files : inOrder files -> StronglySorted before (archiveMessages files).
Proof using Type.
  unfold inOrder, archiveMessages. induction files as [|f files IH]; [constructor|]. cbn [map concat]. intros Hs.
  assert (StronglySorted before (concat (map fileMessages files)) /\ forall m m', m ∈ fileMessages f -> m' ∈ concat (map fileMessages files) -> before m m') as [H1 H2].
  { destruct (decide (fileMessages f <> [])) as [Hne|He].
    - rewrite filter_cons_True in Hs by done. inversion Hs as [|? ? Hs' Hall]; subst. split; [by apply IH|]. intros m m' Hm Hm'. left.
      apply list_elem_of_In, in_concat in Hm' as (l & Hl & Hm'). apply in_map_iff in Hl as (g & <- & Hg). apply list_elem_of_In in Hm', Hg.
      rewrite (proj1 (fileMessages_path _ _ Hm)), (proj1 (fileMessages_path _ _ Hm')). rewrite Forall_forall in Hall. apply Hall.
      apply list_elem_of_filter. split; [|done]. intros E. rewrite E in Hm'. by apply elem_of_nil in Hm'.
    - rewrite filter_cons_False in Hs by done. split; [by apply IH|]. intros m m' Hm. destruct He. intros E. rewrite E in Hm. by apply elem_of_nil in Hm. }
  clear Hs IH. pose proof (fileMessages_sorted f) as Hf. induction Hf as [|m l Hf IH Hall]; [done|]. cbn [app]. constructor.
  - apply IH. intros x y Hx. apply H2. by right.
  - apply Forall_app. split; [done|]. apply Forall_forall. intros y Hy. apply H2; [by left|done].
Qed.

Lemma sorted_app (a b : list message) : StronglySorted before (a ++ b) ->
  StronglySorted before b /\ forall m m', m ∈ a -> m' ∈ b -> before m m'.
Proof using Type.
  induction a as [|x a IH]; [by split; [|intros ? ? ?%elem_of_nil]|]. cbn [app]. intros Hs. inversion Hs as [|? ? Hs' Hx]; subst.
  destruct (IH Hs') as [H1 H2]. split; [done|]. intros m m' [->|Hm]%elem_of_cons Hm'; [|by apply H2].
  rewrite Forall_forall in Hx. apply Hx. apply elem_of_app. by right.
Qed.

Lemma filter_all (p : string * Z) (l : list message) : (forall m, m ∈ l -> pending p m) -> filter (pending p) l = l.
Proof using Type.
  induction l as [|m l IH]; intros H; [done|]. rewrite filter_cons_True by (apply H; by left). f_equal. apply IH. intros m' Hm'. apply H. by right.
Qed.

Lemma filter_none (p : string * Z) (l : list message) : (forall m, m ∈ l -> ~ pending p m) -> filter (pending p) l = [].
Proof using Type.
  induction l as [|m l IH]; intros H; [done|]. rewrite filter_cons_False by (apply H; by left). apply IH. intros m' Hm'. apply H. by right.
Qed.

(** In order, nothing is passed over. *)
Lemma discovered_filter p files : StronglySorted before (archiveMessages files) ->
  discovered p files = filter (pending p) (archiveMessages files).
Proof using Type.
  revert p. induction files as [|f files IH]; intros p Hs; [done|]. unfold archiveMessages in *. cbn [map concat discovered] in *.
  destruct (sorted_app _ _ Hs) as [Hs' Hb]. rewrite filter_app. f_equal. rewrite IH by done. unfold after.
  destruct (last (filter (pending p) (fileMessages f))) as [m|] eqn:Hl; [|done]. cbn.
  apply last_Some_elem_of, list_elem_of_filter in Hl as [Hpm Hm].
  rewrite (filter_all (msPos m)), (filter_all p); [done| |].
  - intros m' Hm'. eapply pending_trans; [exact Hpm|]. by apply Hb.
  - intros m' Hm'. apply pending_before. by apply Hb.
Qed.

Lemma pending_drop (all : list message) (k : nat) : StronglySorted before all -> (forall m, m ∈ all -> msPath m <> "") -> (k <= length all)%nat ->
  filter (pending (after ("", 0) (take k all))) all = drop k all.
Proof using Type.
  intros Hs Hne Hk. destruct k as [|k]; [apply filter_all; intros; by left|].
  destruct (lookup_lt_is_Some_2 all k Hk) as [m Hm]. rewrite (take_S_r _ _ _ Hm). unfold after. rewrite last_snoc. cbn.
  assert (all = take k all ++ m :: drop (S k) all) as Hsplit by (by rewrite take_drop_middle).
  rewrite Hsplit at 1. rewrite Hsplit in Hs. destruct (sorted_app _ _ Hs) as [Hs' Hb]. inversion Hs' as [|? ? _ Hall]; subst.
  assert ((msPos m).1 <> "") as Hmne by (apply Hne; rewrite Hsplit; apply elem_of_app; right; by left).
  rewrite filter_app, filter_cons_False, filter_none, filter_all; [done| | |].
  - intros m' Hm'. apply pending_before. rewrite Forall_forall in Hall. by apply Hall.
  - intros m' Hm'. apply pending_not; [done|]. left. by apply (Hb m' m Hm'); left.
  - apply pending_not; [done|by right].
Qed.

Lemma after_take_nonneg files k : 0 <= (after ("", 0) (take k (archiveMessages files))).2.
Proof using Type.
  unfold after. destruct (last _) as [m|] eqn:E; [|done]. cbn. apply last_Some_elem_of, elem_of_take in E as (i & Hi & _).
  apply list_elem_of_lookup_2, list_elem_of_In, in_concat in Hi as (l & Hl & Hm). apply in_map_iff in Hl as (f & <- & _).
  apply list_elem_of_In in Hm. by apply fileMessages_path in Hm as [_ ?].
Qed.

Lemma walkedFiles_ne t path name f : path <> "" -> f ∈ walkedFiles path name t -> f <> "".
Proof using Type.
  revert path name. induction t as [|es err IH] using tree_rect'; intros path name Hp; cbn [walkedFiles].
  - destruct (shouldSkipArchiveFile name); [by intros ?%elem_of_nil|]. by intros ->%list_elem_of_singleton.
  - destruct (shouldSkipArchiveDir name); [by intros ?%elem_of_nil|]. induction IH as [|[n t] es Ht _ IHes]; [by intros ?%elem_of_nil|].
    intros [Hf|Hf]%elem_of_app; [|by apply IHes]. eapply Ht; [|exact Hf]. by apply Join_ne.
Qed.

Lemma rootFiles_ne root m : m ∈ archiveMessages (rootFiles root) -> msPath m <> "".
Proof using Type.
  intros Hm. apply list_elem_of_In, in_concat in Hm as (l & Hl & Hm). apply in_map_iff in Hl as (f & <- & Hf). apply list_elem_of_In in Hm, Hf.
  rewrite (proj1 (fileMessages_path _ _ Hm)). assert (Clean root <> "") as Hne by (destruct (Clean_norm root) as (comps & Hn & ->); by apply render_ne).
  unfold rootFiles in Hf. destruct (fsStat qeFS (Clean root)) as [e|[|es err]]; [by apply elem_of_nil in Hf|by apply list_elem_of_singleton in Hf as ->|].
  by eapply walkedFiles_ne.
Qed.

(** Discovery from position [k] gets to some position [j], to the end when it
    returns without an error. *)
Lemma enqueue_progress root s (k : nat) :
  let all := archiveMessages (rootFiles root) in
  aqRoots request = [root] -> inOrder (rootFiles root) -> isRunID (rnState s) = runID -> (k <= length all)%nat ->
  pos (rnState s) = after ("", 0) (take k all) -> 0 <= isLastOffset (rnState s) ->
  upto (enqueueArchiveImportJobs fuel request sourceName runID drainer) s (progress (Clean root) (drop k all) s).
Proof.
  intros all Hroots Hord Hid Hk Hpos Hnn. unfold enqueueArchiveImportJobs. rewrite Hroots. cbn [sforM].
  pose proof (archiveMessages_sorted _ Hord) as Hs. assert (discovered (pos (rnState s)) (rootFiles root) = drop k all) as Hd.
  { rewrite discovered_filter by done. rewrite Hpos. apply pending_drop; [done|apply rootFiles_ne|done]. }
  apply upto_bind, upto_bind, upto_bind, upto_try. eapply upto_mono; [by apply root_progress|]. rewrite Hd.
  cbn beta. intros [[e|[]]|] s1 Hp; [|apply upto_ret, upto_ret, upto_bind, upto_get; destruct (_ <? _); [|done]|by eapply progress_res].
  - apply upto_modify, upto_ret, upto_bind, upto_get. cbn [rnReport set_report arFatalFailures appendArchiveFatalFailure setFailures].
    rewrite length_app, (proj2 (Z.ltb_lt 0 _)) by (cbn; lia). apply upto_fail. destruct Hp as (l & Hl & Hd' & _). exists l. split; [done|]. split; [|by intros [=]].
    by apply did_report.
  - apply upto_fail. apply progress_ok in Hp. exists (drop k all). split; [done|]. split; [by apply did_weaken|done].
Qed.

Lemma enqueue_fine root s : let hw := if aqQueueHighWater request <=? 0 then defaultArchiveImportQueueHighWater else aqQueueHighWater request in
  aqRoots request = [root] -> reliable root hw -> arFatalFailures (rnReport s) = [] ->
  exists s', enqueueArchiveImportJobs fuel request sourceName runID drainer s = (Ok tt, s').
Proof using Type.
  intros hw Hroots HR Hf. unfold enqueueArchiveImportJobs. rewrite Hroots. cbn [sforM]. unfold mbind, SM_bind, stry.
  destruct (root_fine root hw HR s) as ([] & s1 & H1 & F1). unfold hw in H1. rewrite H1. cbn. rewrite F1, Hf. cbn. by exists s1.
Qed.

End walk.
End discovery_proofs.

(** ** Main properties *)

Lemma prefix_take {A} (l l' : list A) : l `prefix_of` l' -> (length l <= length l')%nat /\ l = take (length l) l'.
Proof. intros [r ->]. rewrite length_app, take_app_length. split; [lia|done]. Qed.

(** C23: an interrupted discovery resumes where it stopped, and loses or repeats
    nothing.  For one root whose files come in the order of their paths, from
    the position after [k] messages (a fresh run: [k] = 0), whatever the queue, the
    disk and the context do: discovery publishes one job for each message from
    [k] up to some [j], in order, counts them, and its state is the position after
    [j]; the state file holds that position, or the one before it when saving
    failed, so that a resumed run repeats at most one job, under the same key.
    When it returns without an error all messages are published; it does when
    the disk, the publisher and the context work and the queue has room. *)
Theorem discovery_resumes {W Mail} `{!QueueEnv W Mail, !StateFiles W, !StateFilesLaws W, !QueueLaws W Mail} {J : RunJSON} `{!RunJSONLaws J}
    (fuel : nat) (request : ArchiveImportRequest) (sourceName runID root : string) (s : Run W) (k : nat) :
  let all := archiveMessages request (rootFiles root) in
  let hw := if aqQueueHighWater request <=? 0 then defaultArchiveImportQueueHighWater else aqQueueHighWater request in
  aqRoots request = [root] -> inOrder request (rootFiles root) ->
  isRunID (rnState s) = runID -> (k <= length all)%nat -> pos (rnState s) = after ("", 0) (take k all) ->
  onDisk request runID (rnWorld s) (pos (rnState s)) ->
  let '(r, s') := enqueueArchiveImportJobs fuel request sourceName runID (Some (drainOne request sourceName)) s in
  exists (j : nat) jobs, (k <= j <= length all)%nat /\
    published (rnTrace s') = published (rnTrace s) ++ jobs /\
    Forall2 (fun m job => exists t, job = newImportJob request sourceName runID t (Clean root) (msPath m) (msFormat m) (msOffset m) (msSize m))
      (drop k (take j all)) jobs /\
    arEnqueued (rnReport s') = arEnqueued (rnReport s) + Z.of_nat (j - k) /\
    pos (rnState s') = after ("", 0) (take j all) /\
    (onDisk request runID (rnWorld s') (after ("", 0) (take j all)) \/
     r <> Ok tt /\ (k < j)%nat /\ onDisk request runID (rnWorld s') (after ("", 0) (take (j - 1) all))) /\
    (r = Ok tt -> j = length all) /\
    (reliable request root hw -> arFatalFailures (rnReport s) = [] -> r = Ok tt).
Proof.
  intros all hw Hroots Hord Hid Hk Hpos Hdisk.
  assert (0 <= isLastOffset (rnState s)) as Hnn.
  { apply (f_equal snd) in Hpos. cbn in Hpos. rewrite Hpos. apply after_take_nonneg. }
  pose proof (enqueue_progress request sourceName runID fuel (Some (drainOne request sourceName))
    ltac:(intros d [= <-] s0 H0; by apply drainOne_stays) root s k Hroots Hord Hid Hk Hpos Hnn) as H.
  pose proof (enqueue_fine request sourceName runID fuel (Some (drainOne request sourceName)) root s Hroots) as Hfine. fold hw in Hfine.
  unfold upto in H. fold all in H.
  destruct (enqueueArchiveImportJobs _ _ _ _ _ s) as [r s'].
  assert (exists ok : option (GoError + unit), progress request sourceName runID (Clean root) (drop k all) s ok s' /\ (isOk ok = true <-> r = Ok tt)) as (ok & (l & Hl & Hd & Hall) & Hok).
  { destruct r as [[]|e|]; eexists; (split; [exact H|]); done. }
  destruct (prefix_take _ _ Hl) as [Hle Htake]. rewrite length_drop in Hle. destruct (dd_published _ _ _ _ _ _ _ _ Hd) as (jobs & Hpub & Hjobs).
  assert (take (k + length l) all = take k all ++ l) as Htk by (rewrite Htake at 2; by rewrite take_take_drop).
  exists (k + length l)%nat, jobs. split_and!.
  - lia.
  - lia.
  - done.
  - rewrite Htk, drop_app_length' by (rewrite length_take; lia). done.
  - rewrite (dd_enqueued _ _ _ _ _ _ _ _ Hd). lia.
  - rewrite (dd_pos _ _ _ _ _ _ _ _ Hd), Hpos, Htk. by rewrite after_app.
  - destruct (dd_disk _ _ _ _ _ _ _ _ Hd Hid Hdisk) as [Hdk|[Hno Hdk]]; rewrite Hpos in Hdk; [left; by rewrite Htk, after_app|].
    destruct l as [|x l _] using rev_ind; [left; by rewrite Htk, app_nil_r|right]. split; [intros Hr%Hok; congruence|].
    rewrite length_app in *. split; [cbn; lia|]. rewrite removelast_last, <- after_app in Hdk.
    assert (take (k + (length l + length [x]) - 1) all = take k all ++ l) as ->; [|done].
    cbn [length]. replace (k + (length l + 1) - 1)%nat with (k + length l)%nat by lia.
    apply (f_equal (take (k + length l))) in Htk. rewrite take_take, Nat.min_l, app_assoc in Htk by (cbn; lia).
    rewrite Htk. rewrite take_app_le by (rewrite length_app, length_take; lia). apply take_ge. rewrite length_app, length_take. lia.
  - intros Hr%Hok. rewrite (Hall Hr), length_drop. lia.
  - intros HR Hf. destruct (Hfine HR Hf) as [s2 [= -> _]]. done.
Qed.

(** ** Draining *)

(** What became of a job: its message was parsed and ingested without an error;
    it could not be parsed, which is reported as a rejection; or the importer
    returned an error for it (or the clock did). *)
Inductive outcome (W Mail : Type) `{!QueueEnv W Mail} (request : ArchiveImportRequest) (sourceName : string) (job : SourceImportJob) :
    option GoError -> Prop :=
  | was_ingested t message report report' w w' : parseArchiveJobMessage t job = inr message ->
      qeIngest (W := W) request sourceName message report w = (Ok (report', None), w') -> outcome W Mail request sourceName job None
  | was_unparsable t e : parseArchiveJobMessage t job = inl e ->
      outcome W Mail request sourceName job (Some (ErrJoin ErrArchiveMessageRejected e))
  | was_refused t message report report' e w w' : parseArchiveJobMessage t job = inr message ->
      qeIngest (W := W) request sourceName message report w = (Ok (report', Some e), w') -> outcome W Mail request sourceName job (Some e)
  | was_broken t message report e w w' : parseArchiveJobMessage t job = inr message ->
      qeIngest (W := W) request sourceName message report w = (Err e, w') -> outcome W Mail request sourceName job (Some e)
  | was_undated e (w w' : W) : qeNow w = (Err e, w') -> outcome W Mail request sourceName job (Some e).

(** What a run did with the jobs it received, one after another, and how many it
    counted: another run's job is released; a job is acknowledged when it was
    ingested or its error is a rejection, and counted when the broker took the
    acknowledgement; otherwise it is retried. *)
Inductive settles (W Mail : Type) `{!QueueEnv W Mail} (request : ArchiveImportRequest) (sourceName run : string) : list qevent -> Z -> Prop :=
  | settles_none : settles W Mail request sourceName run [] 0
  | settles_other r cs n : ijRunID (rcJob r) <> run -> settles W Mail request sourceName run cs n ->
      settles W Mail request sourceName run (EReceived r :: ERelease r :: cs) n
  | settles_ack r err (ok : bool) cs n : ijRunID (rcJob r) = run -> outcome W Mail request sourceName (rcJob r) err ->
      (forall e, err = Some e -> isVar "ErrArchiveMessageRejected" e = true) ->
      settles W Mail request sourceName run cs n ->
      settles W Mail request sourceName run (EReceived r :: EHandled r err :: EAck r ok :: cs) (if ok then n + 1 else n)
  | settles_retry r e cs n : ijRunID (rcJob r) = run -> outcome W Mail request sourceName (rcJob r) (Some e) ->
      isVar "ErrArchiveMessageRejected" e = false ->
      settles W Mail request sourceName run cs n ->
      settles W Mail request sourceName run (EReceived r :: EHandled r (Some e) :: ERetry r e :: cs) n.

Lemma settles_app {W Mail} `{!QueueEnv W Mail} request name run a m b n :
  settles W Mail request name run a m -> settles W Mail request name run b n -> settles W Mail request name run (a ++ b) (m + n).
Proof.
  intros Ha Hb. induction Ha as [|r cs k Hr _ IH|r err ok cs k Hr Ho He _ IH|r e cs k Hr Ho He _ IH]; [done|by constructor| |by constructor].
  replace ((if ok then k + 1 else k) + n) with (if ok then (k + n) + 1 else k + n) by (destruct ok; lia). by constructor.
Qed.

Section drain_proofs.
Context {W Mail : Type} `{!QueueEnv W Mail, !StateFiles W, !StateFilesLaws W, !QueueLaws W Mail} {J : RunJSON}.
Context (request : ArchiveImportRequest).
#[local] Set Default Proof Using "Type*".

(** The run made the calls [cs] and counted [n] jobs. *)
Record drained (cs : list qevent) (n : Z) (s s' : Run W) : Prop := {
  dr_trace : rnTrace s' = rnTrace s ++ cs;
  dr_run : arRunID (rnReport s') = arRunID (rnReport s);
  dr_enqueued : arEnqueued (rnReport s') = arEnqueued (rnReport s);
  dr_processed : arProcessed (rnReport s') = arProcessed (rnReport s) + n }.

Lemma drained_refl s : drained [] 0 s s.
Proof using Type. split; [by rewrite app_nil_r|done|done|lia]. Qed.

Lemma drained_trans a m b n s1 s2 s3 : drained a m s1 s2 -> drained b n s2 s3 -> drained (a ++ b) (m + n) s1 s3.
Proof using Type. intros [] []. split; [by rewrite dr_trace1, dr_trace0, app_assoc|congruence|congruence|lia]. Qed.

Lemma drained_next b n s1 s2 s3 : drained [] 0 s1 s2 -> drained b n s2 s3 -> drained b n s1 s3.
Proof using Type. apply drained_trans. Qed.

Lemma drained_then a n s1 s2 s3 : drained a n s1 s2 -> drained [] 0 s2 s3 -> drained a n s1 s3.
Proof using Type. intros H1 H2. rewrite <- (app_nil_r a), <- (Z.add_0_r n). by eapply drained_trans. Qed.

Lemma drained_world {A} (m : SM W A) s : apart m -> upto (onWorld m) s (fun r s' => drained [] 0 s s' /\ r <> None /\
  match r with Some (inr a) => exists w, m (rnWorld s) = (Ok a, w) | Some (inl e) => exists w, m (rnWorld s) = (Err e, w) | None => True end).
Proof using Type.
  intros Hm. unfold upto, onWorld. specialize (Hm (rnWorld s)). unfold post in Hm. destruct (m (rnWorld s)) as [[a|e|] w]; [| |done].
  all: split; [split; [by rewrite app_nil_r|done|done|cbn; lia]|]; split; eauto.
Qed.

Lemma drained_log e s : drained [e] 0 s (add_event e s).
Proof using Type. split; [done|done|done|cbn; lia]. Qed.

Lemma drained_save s : upto (saveState request) s (fun r s' => drained [] 0 s s' /\ r <> None).
Proof.
  unfold saveState. apply upto_bind, upto_get. unfold upto, onWorld. destruct (blank (aqStateDir request)) eqn:Hb.
  - unfold saveArchiveImportState. rewrite Hb. cbn. split; [|done]. split; [by rewrite app_nil_r|done|done|cbn; lia].
  - pose proof (save_post (aqStateDir request) (rnState s) (rnWorld s) Hb) as H. unfold post in H.
    destruct (saveArchiveImportState _ _ _) as [[[]|e|] w]; [| |done]; (split; [|done]); split; try done; cbn; rewrite ?app_nil_r; try done; lia.
Qed.

Lemma ackJob_drained receipt s : upto (ackJob request receipt) s (fun r s' => exists ok : bool,
  drained [EAck receipt ok] (if ok then 1 else 0) s s' /\ r <> None).
Proof.
  unfold ackJob. apply upto_bind, upto_try. eapply upto_mono; [apply drained_world, ql_ack|]. cbn beta. intros [r|] s1 (H1 & Hr & _); [clear Hr|done].
  apply upto_bind, upto_modify. set (ok := match r with inr _ => true | inl _ => false end). set (s2 := add_event _ s1).
  assert (drained [EAck receipt ok] 0 s s2) as H2 by (eapply drained_next; [exact H1|apply drained_log]).
  apply upto_bind. destruct r as [e|[]]; [apply upto_fail; by exists false|]. apply upto_ret, upto_bind, upto_modify, upto_bind, upto_get, upto_bind, upto_modify.
  match goal with |- upto _ ?s3 _ => assert (drained [EAck receipt true] 1 s s3) as H3 by (destruct H2 as [? ? ? Hp]; split; try done; cbn in Hp |- *; lia) end.
  eapply upto_mono; [apply drained_save|]. cbn beta. intros r s' [H' Hr]. exists true. split; [by eapply drained_then|done].
Qed.

Lemma process_drained name job s : upto (ProcessSourceImportJob name job request) s (fun r s' => drained [] 0 s s' /\
  exists x, r = Some x /\ outcome W Mail request name job match x with inl e => Some e | inr _ => None end).
Proof.
  unfold ProcessSourceImportJob. apply upto_bind. eapply upto_mono; [apply drained_world, ql_now|]. cbn beta.
  intros [[e|t]|] s1 (H1 & Hr & Hnow); [destruct Hnow; split; [done|]; eexists; split; [done|by econstructor]| |done].
  destruct (parseArchiveJobMessage t job) as [e|message] eqn:Hparse.
  - apply upto_bind, upto_modify, upto_fail. split; [|eexists; split; [done|by econstructor]].
    eapply drained_next; [exact H1|]. split; [by rewrite app_nil_r|done|done|cbn; lia].
  - apply upto_bind, upto_get, upto_bind. eapply upto_mono; [apply drained_world, ql_ingest|]. cbn beta.
    intros [[e|[rep err]]|] s2 (H2 & Hr2 & Hi); [destruct Hi as [w Hi]..|done].
    { split; [by eapply drained_next|]. eexists. split; [done|by eapply was_broken]. }
    destruct (ql_ingest_report _ _ _ _ _ _ _ _ Hi) as (Hr1 & Hre & Hrp). apply upto_bind, upto_modify.
    assert (drained [] 0 s (set_report (fun _ => rep) s2)) as H3.
    { eapply drained_next; [exact H1|]. destruct H2 as [Ht _ _ _]. split; [done|by cbn|by cbn|cbn; lia]. }
    cbn [snd]. apply upto_check; [intros e -> |intros ->]; (split; [done|]; eexists; split; [done|]); [by eapply was_refused|by eapply was_ingested].
Qed.

(** After an error of a job: retried, or rejected and acknowledged. *)
Lemma failJob_drained name receipt err s : outcome W Mail request name (rcJob receipt) (Some err) ->
  upto (failJob request receipt err) s (fun r s' => r <> None /\ exists cs n, drained cs n s s' /\
  forall run, ijRunID (rcJob receipt) = run -> settles W Mail request name run (EReceived receipt :: EHandled receipt (Some err) :: cs) n).
Proof.
  intros Hout. unfold failJob. apply upto_bind, upto_modify. set (s0 := set_state _ s).
  assert (drained [] 0 s s0) as H0 by (split; [by rewrite app_nil_r|done|done|cbn; lia]). destruct (isVar _ err) eqn:Hv.
  - apply upto_bind, upto_modify. set (s1 := set_report _ s0). assert (drained [] 0 s s1) as H1 by (split; [by rewrite app_nil_r|done|done|cbn; lia]).
    eapply upto_mono; [apply ackJob_drained|]. cbn beta. intros r s' (ok & Hd & Hr). split; [done|]. exists [EAck receipt ok], (if ok then 1 else 0).
    split; [by eapply drained_next|]. intros run Hrun. apply (settles_ack W Mail request name run receipt (Some err) ok [] 0); [done|done| |constructor]. by intros e [= <-].
  - apply upto_bind, upto_modify. set (s1 := add_event _ s0).
    assert (drained [ERetry receipt err] 0 s s1) as H1 by (eapply drained_next; [exact H0|apply drained_log]).
    assert (forall s2 (r : option (GoError + unit)), drained [] 0 s1 s2 -> r <> None -> r <> None /\ exists cs n, drained cs n s s2 /\
      forall run, ijRunID (rcJob receipt) = run -> settles W Mail request name run (EReceived receipt :: EHandled receipt (Some err) :: cs) n) as Hend.
    { intros s2 r H2 Hr. split; [done|]. exists [ERetry receipt err], 0. split; [by eapply drained_then|]. intros run Hrun. by apply settles_retry; [| | |constructor]. }
    apply upto_bind. eapply upto_mono; [apply drained_world, ql_retry|]. cbn beta. intros [[e|[]]|] s2 (H2 & Hr & _); [by apply Hend| |done].
    apply upto_bind, upto_wrap. eapply upto_mono; [apply drained_world, ql_failures|]. cbn beta.
    intros [[e|m]|] s3 (H3 & Hr3 & _); [apply Hend; [by eapply drained_next|done]| |done].
    apply upto_bind, upto_wrap. eapply upto_mono; [apply drained_world, ql_status|]. cbn beta. pose proof (drained_next _ _ _ _ _ H2 H3) as H03.
    intros [[e|st]|] s4 (H4 & Hr4 & _); [apply Hend; [by eapply drained_next|done]| |done]. pose proof (drained_next _ _ _ _ _ H03 H4) as H04.
    destruct (_ && _); [apply upto_fail; by apply Hend|]. eapply upto_mono; [apply drained_save|]. cbn beta. intros r s' [H' Hr'].
    apply Hend; [by eapply drained_next|done].
Qed.

Lemma drainOne_drained name s : upto (drainOne request name) s (fun r s' => r <> None /\ exists cs n, drained cs n s s' /\
  settles W Mail request name (arRunID (rnReport s)) cs n).
Proof.
  unfold drainOne, receiveSourceImportJob. apply upto_bind, upto_bind, upto_wrap. eapply upto_mono; [apply drained_world, ql_receive|]. cbn beta.
  intros [[e|receipt]|] s1 (H1 & Hr & _); [|clear Hr|done].
  { split; [done|]. exists [], 0. split; [done|constructor]. }
  apply upto_bind, upto_modify, upto_ret, upto_bind, upto_get. set (s2 := add_event _ s1).
  assert (drained [EReceived receipt] 0 s s2) as H2 by (eapply drained_next; [exact H1|apply drained_log]).
  assert (arRunID (rnReport s2) = arRunID (rnReport s)) as Hid by apply H2. rewrite Hid. case_bool_decide as Hrun; cbn [negb].
  - apply upto_bind, upto_try. eapply upto_mono; [apply process_drained|]. cbn beta. intros _r s3 (H3 & r & -> & Hout).
    pose proof (drained_then _ _ _ _ _ H2 H3) as H03. destruct r as [err|[]]; apply upto_bind, upto_modify; set (s4 := add_event _ s3).
    + pose proof (drained_trans _ _ _ _ _ _ _ H03 (drained_log (EHandled receipt (Some err)) s3) : drained _ _ s s4) as H04.
      eapply upto_mono; [by apply failJob_drained|]. cbn beta. intros r s' (Hr & cs & n & Hd & Hs). split; [done|].
      eexists _, _. split; [by eapply drained_trans|]. by apply Hs.
    + pose proof (drained_trans _ _ _ _ _ _ _ H03 (drained_log (EHandled receipt None) s3) : drained _ _ s s4) as H04.
      eapply upto_mono; [apply ackJob_drained|]. cbn beta. intros r s' (ok & Hd & Hr). split; [done|].
      eexists _, _. split; [by eapply drained_trans|]. cbn [app]. apply (settles_ack W Mail request name _ receipt None ok [] 0); [done|done|done|constructor].
  - apply upto_bind, upto_modify. set (s3 := add_event _ s2).
    pose proof (drained_trans _ _ _ _ _ _ _ H2 (drained_log (ERelease receipt) s2) : drained _ _ s s3) as H03.
    assert (forall s4 (r : option (GoError + unit)), drained [] 0 s3 s4 -> r <> None -> r <> None /\ exists cs n, drained cs n s s4 /\
      settles W Mail request name (arRunID (rnReport s)) cs n) as Hend.
    { intros s4 r H4 Hr. split; [done|]. eexists _, _. split; [by eapply drained_then|]. cbn [app]. by constructor; [|constructor]. }
    apply upto_bind. eapply upto_mono; [apply drained_world, ql_release|]. cbn beta. intros [[e|[]]|] s4 (H4 & Hr & _); [by apply Hend| |done].
    apply upto_fail. by apply Hend.
Qed.

Lemma drain_drained fuel name s : upto (drain fuel request name) s (fun r s' => exists cs n, drained cs n s s' /\
  settles W Mail request name (arRunID (rnReport s)) cs n /\ (isOk r = true -> arEnqueued (rnReport s') <= arProcessed (rnReport s'))).
Proof.
  revert s. induction fuel as [|fuel IH]; intros s; cbn [drain]; apply upto_bind, upto_get; destruct (_ <=? _) eqn:Hle.
  1,3: apply upto_ret; exists [], 0; split; [apply drained_refl|]; split; [constructor|]; intros _; by apply Z.leb_le.
  { exists [], 0. split; [apply drained_refl|]. split; [constructor|done]. }
  apply upto_bind, upto_try. eapply upto_mono; [apply drainOne_drained|]. cbn beta. intros [r|] s1 (Hr & cs & n & Hd & Hs); [clear Hr|done].
  assert (forall s2, drained [] 0 s1 s2 -> upto (drain fuel request name) s2 (fun r s' => exists cs n, drained cs n s s' /\
    settles W Mail request name (arRunID (rnReport s)) cs n /\ (isOk r = true -> arEnqueued (rnReport s') <= arProcessed (rnReport s')))) as Hgo.
  { intros s2 H2. pose proof (drained_then _ _ _ _ _ Hd H2) as H02. eapply upto_mono; [apply IH|]. cbn beta. intros r' s' (cs' & n' & Hd' & Hs' & Hle').
    exists (cs ++ cs'), (n + n'). split; [by eapply drained_trans|]. split; [|done]. apply settles_app; [done|]. by rewrite <- (dr_run _ _ _ _ H02). }
  destruct r as [err|[]]; [|apply Hgo, drained_refl]. destruct (isVar _ err); [|apply upto_fail; by exists cs, n].
  apply upto_bind, upto_wrap. eapply upto_mono; [apply drained_world, ql_wait|]. cbn beta. intros [[e|[]]|] s2 (H2 & Hr & _); [|by apply Hgo|done].
  exists cs, n. split; [by eapply drained_then|]. by split.
Qed.

(** *** When everything goes well *)

(** [m] succeeds and keeps [I]. *)
Definition smooth {A} (I : W -> Prop) (m : SM W A) : Prop := forall w, I w -> exists a w', m w = (Ok a, w') /\ I w'.

(** [avail n w]: at least [n] more jobs of this run can be received.  They are
    received, acknowledgements and saves work, and messages are ingested or
    rejected for good. *)
Record orderly (run : string) (avail : nat -> W -> Prop) : Prop := {
  or_receive : forall n w, avail (S n) w -> exists r w', qeReceive w = (Ok r, w') /\ ijRunID (rcJob r) = run /\ avail n w';
  or_now : forall n, smooth (avail n) qeNow;
  or_ack : forall n r, smooth (avail n) (qeAck r);
  or_save : forall n st, smooth (avail n) (saveArchiveImportState (aqStateDir request) st);
  or_ingest : forall n name m rep w, avail n w -> exists rep' err w', qeIngest request name m rep w = (Ok (rep', err), w') /\ avail n w' /\
    forall e, err = Some e -> isVar "ErrArchiveMessageRejected" e = true }.

Lemma smooth_world {A} I (m : SM W A) s : apart m -> smooth I m -> I (rnWorld s) ->
  upto (onWorld m) s (fun r s' => exists a, r = Some (inr a) /\ drained [] 0 s s' /\ I (rnWorld s')).
Proof using Type.
  intros Ha Hm HI. pose proof (drained_world m s Ha) as H. unfold upto, onWorld in *. destruct (Hm (rnWorld s) HI) as (a & w & Hr & HI'). rewrite Hr in *.
  exists a. split; [done|]. by split; [apply H|].
Qed.

Lemma smooth_save I s : (forall st, smooth I (saveArchiveImportState (aqStateDir request) st)) -> I (rnWorld s) ->
  upto (saveState request) s (fun r s' => r = Some (inr tt) /\ drained [] 0 s s' /\ I (rnWorld s')).
Proof.
  intros Hm HI. pose proof (drained_save s) as H. unfold saveState, upto, mbind, SM_bind, sget, onWorld in *.
  destruct (Hm (rnState s) (rnWorld s) HI) as ([] & w & Hr & HI'). rewrite Hr in *. split; [done|]. by split; [apply H|].
Qed.

Lemma ackJob_orderly run avail n receipt s : orderly run avail -> avail n (rnWorld s) ->
  upto (ackJob request receipt) s (fun r s' => r = Some (inr tt) /\ (exists cs, drained cs 1 s s') /\ avail n (rnWorld s')).
Proof.
  intros HO HI. unfold ackJob. apply upto_bind, upto_try.
  eapply upto_mono; [apply (smooth_world (avail n)); [apply ql_ack|apply (or_ack _ _ HO)|done]|]. cbn beta. intros r s1 (a & -> & H1 & HI1).
  apply upto_bind, upto_modify, upto_bind, upto_ret, upto_bind, upto_modify, upto_bind, upto_get, upto_bind, upto_modify.
  match goal with |- upto _ ?s3 _ => assert (drained [EAck receipt true] 1 s s3) as H3 by (destruct H1 as [Ht ? ? Hp]; split; try done; cbn in Ht, Hp |- *; [by rewrite Ht, app_nil_r|lia]) end.
  eapply upto_mono; [apply (smooth_save (avail n)); [apply (or_save _ _ HO)|done]|]. cbn beta. intros r s' (-> & H' & HI').
  split; [done|]. split; [|done]. eexists. by eapply drained_then.
Qed.

Lemma process_orderly run avail n name job s : orderly run avail -> avail n (rnWorld s) ->
  upto (ProcessSourceImportJob name job request) s (fun r s' => drained [] 0 s s' /\ r <> None /\
    (forall e, r = Some (inl e) -> isVar "ErrArchiveMessageRejected" e = true) /\ avail n (rnWorld s')).
Proof.
  intros HO HI. pose proof (process_drained name job s) as Hpd. unfold ProcessSourceImportJob, upto, mbind, SM_bind, onWorld in *.
  destruct (or_now _ _ HO n (rnWorld s) HI) as (t & w2 & Ht & HI2). rewrite Ht in *. destruct (parseArchiveJobMessage t job) as [e|message]; cbn in Hpd |- *.
  - destruct Hpd as [Hd _]. split_and!; try done. by intros ? [= <-].
  - destruct (or_ingest _ _ HO n name message (rnReport s) w2 HI2) as (rep & err & w3 & Hi & HI3 & Hrej). rewrite Hi in *.
    destruct err as [e|]; cbn in Hpd |- *; destruct Hpd as [Hd _]; split_and!; try done. intros ? [= <-]. by apply Hrej.
Qed.

Lemma drainOne_orderly avail n name s : orderly (arRunID (rnReport s)) avail -> avail (S n) (rnWorld s) ->
  upto (drainOne request name) s (fun r s' => r = Some (inr tt) /\ (exists cs, drained cs 1 s s') /\ avail n (rnWorld s')).
Proof.
  intros HO HI. unfold drainOne, receiveSourceImportJob. apply upto_bind, upto_bind, upto_wrap.
  pose proof (drained_world qeReceive s ql_receive) as Hrc. unfold upto in Hrc |- * at 1. unfold onWorld in *.
  destruct (or_receive _ _ HO n (rnWorld s) HI) as (receipt & w & Hr & Hrun & HI1). rewrite Hr in *. destruct Hrc as [H1 _]. set (s1 := set_world w s) in *.
  apply upto_bind, upto_modify, upto_ret, upto_bind, upto_get. set (s2 := add_event _ s1).
  assert (drained [EReceived receipt] 0 s s2) as H2 by (eapply drained_next; [exact H1|apply drained_log]).
  assert (arRunID (rnReport s2) = arRunID (rnReport s)) as Hid by apply H2. rewrite Hid, bool_decide_true by done. cbn [negb].
  apply upto_bind, upto_try. eapply upto_mono; [by eapply (process_orderly _ avail n)|]. cbn beta. intros [r|] s3 (H3 & Hn & Hrej & HI3); [clear Hn|done].
  pose proof (drained_then _ _ _ _ _ H2 H3) as H03.
  assert (forall e s4, drained [] 0 (add_event e s3) s4 -> avail n (rnWorld s4) ->
    upto (ackJob request receipt) s4 (fun r s' => r = Some (inr tt) /\ (exists cs, drained cs 1 s s') /\ avail n (rnWorld s'))) as Hend.
  { intros e s4 H4 HI4. pose proof (drained_then _ _ _ _ _ (drained_trans _ _ _ _ _ _ _ H03 (drained_log e s3)) H4) as H04.
    eapply upto_mono; [by eapply ackJob_orderly|]. cbn beta. intros r' s' (-> & [cs' H'] & HI'). split; [done|]. split; [|done].
    eexists. apply (drained_trans _ 0 _ 1 _ _ _ H04 H'). }
  destruct r as [err|[]]; apply upto_bind, upto_modify.
  - unfold failJob. apply upto_bind, upto_modify. rewrite (Hrej err eq_refl). apply upto_bind, upto_modify. eapply Hend; [|done].
    split; [by rewrite app_nil_r|done|done|cbn; lia].
  - eapply Hend; [apply drained_refl|done].
Qed.

Lemma drain_orderly avail fuel name s : orderly (arRunID (rnReport s)) avail ->
  avail (Z.to_nat (arEnqueued (rnReport s) - arProcessed (rnReport s))) (rnWorld s) ->
  arEnqueued (rnReport s) - arProcessed (rnReport s) <= Z.of_nat fuel -> upto (drain fuel request name) s (fun r _ => r = Some (inr tt)).
Proof.
  revert s. induction fuel as [|fuel IH]; intros s HO HI Hle; cbn [drain]; apply upto_bind, upto_get; destruct (_ <=? _) eqn:E; try by apply upto_ret.
  - apply Z.leb_gt in E. lia.
  - apply Z.leb_gt in E. apply upto_bind, upto_try. set (n := Z.to_nat (arEnqueued (rnReport s) - arProcessed (rnReport s) - 1)).
    eapply upto_mono; [apply (drainOne_orderly avail n); [done|]|].
    { replace (S n) with (Z.to_nat (arEnqueued (rnReport s) - arProcessed (rnReport s))) by lia. done. }
    cbn beta. intros r s1 (-> & [cs H1] & HI1).
    apply IH; rewrite ?(dr_run _ _ _ _ H1), ?(dr_enqueued _ _ _ _ H1), ?(dr_processed _ _ _ _ H1); [done| |lia].
    replace (Z.to_nat _) with n by lia. done.
Qed.

End drain_proofs.

(** C24: draining settles every job it receives, exactly once, by what became of
    it, and only ends when the jobs are done.  Whatever the queue and the disk do,
    the calls of [drain] are, job after job: another run's job is released; a job is
    acknowledged when its message was parsed and the importer's ingestion of it
    returned without an error, or when the error is a rejection (the message cannot
    be parsed, or the importer calls it rejected); any other error, of the parser's
    clock or of the ingestion, sends the job to the retry queue.  [Processed] grows
    by the acknowledged jobs; [drain] returns without an error only when it has
    reached [Enqueued], and gets there when as many jobs of the run are available and
    no call fails.  (It is about the loop [drain]; [Run] enters it only when discovery
    has reported no failure: [rejected_message_stops_drain].) *)
Theorem drain_settles {W Mail} `{!QueueEnv W Mail, !StateFiles W, !StateFilesLaws W, !QueueLaws W Mail} {J : RunJSON}
    (fuel : nat) (request : ArchiveImportRequest) (sourceName : string) (s : Run W) :
  let '(r, s') := drain fuel request sourceName s in
  (exists cs n, rnTrace s' = rnTrace s ++ cs /\ settles W Mail request sourceName (arRunID (rnReport s)) cs n /\
    arProcessed (rnReport s') = arProcessed (rnReport s) + n) /\
  (r = Ok tt -> arEnqueued (rnReport s') <= arProcessed (rnReport s')) /\
  (forall avail, orderly request (arRunID (rnReport s)) avail ->
    avail (Z.to_nat (arEnqueued (rnReport s) - arProcessed (rnReport s))) (rnWorld s) ->
    arEnqueued (rnReport s) - arProcessed (rnReport s) <= Z.of_nat fuel -> r = Ok tt).
Proof.
  pose proof (drain_drained request fuel sourceName s) as H.
  pose proof (fun avail => drain_orderly request avail fuel sourceName s) as Ho. unfold upto in *.
  destruct (drain fuel request sourceName s) as [[[]|e|] s']; destruct H as (cs & n & [Ht _ _ Hp] & Hs & Hle);
    (split; [by exists cs, n|]); (split; [|intros avail HO Ha Hf; by specialize (Ho avail HO Ha Hf)]); [by intros _; apply Hle|done|done].
Qed.

(** ** A concrete queue *)

(** A disk, the work queue, and the paths whose next publication fails. *)
Record Toy := MkToyQueue { tqDisk : Disk; tqJobs : list SourceImportJob; tqFailing : list string }.

Definition onToyDisk {A} (m : SM Disk A) : SM Toy A := fun w => let '(r, d) := m (tqDisk w) in (r, MkToyQueue d (tqJobs w) (tqFailing w)).

#[local] Instance toyFiles : StateFiles Toy := {|
  sfNow := onToyDisk sfNow; sfMkdirAll d := onToyDisk (sfMkdirAll d); sfCreateTemp d p := onToyDisk (sfCreateTemp d p);
  sfWrite f c := onToyDisk (sfWrite f c); sfSync f := onToyDisk (sfSync f); sfClose f := onToyDisk (sfClose f);
  sfRename a b := onToyDisk (sfRename a b); sfRemove f := onToyDisk (sfRemove f); sfReadFile f := onToyDisk (sfReadFile f);
  sfReadDir d := onToyDisk (sfReadDir d); sfFile w := sfFile (tqDisk w) |}.

Lemma onToyDisk_post {A} (m : SM Disk A) w (P : GoError + A -> Disk -> Prop) : post m (tqDisk w) P ->
  post (onToyDisk m) w (fun r w' => P r (tqDisk w')).
Proof. unfold post, onToyDisk. by destruct (m (tqDisk w)) as [[a|e|] d]. Qed.

#[local] Instance toyFilesLaws : StateFilesLaws Toy.
Proof.
  split; intros.
  - exact (onToyDisk_post _ w _ (fl_now _)).
  - exact (onToyDisk_post _ w _ (fl_mkdir _ _)).
  - exact (onToyDisk_post _ w _ (fl_sync _ _)).
  - exact (onToyDisk_post _ w _ (fl_close _ _)).
  - exact (onToyDisk_post _ w _ (fl_readDir _ _)).
  - exact (onToyDisk_post _ w _ (fl_temp _ _ _)).
  - exact (onToyDisk_post _ w _ (fl_write _ _ _)).
  - exact (onToyDisk_post _ w _ (fl_remove _ _)).
  - exact (onToyDisk_post _ w _ (fl_rename _ _ _)).
  - exact (onToyDisk_post _ w _ (fl_read _ _)).
Qed.

Definition toyJobs (f : list SourceImportJob -> list SourceImportJob) : SM Toy unit := fun w =>
  (Ok tt, MkToyQueue (tqDisk w) (f (tqJobs w)) (tqFailing w)).

(** Mail that says "bad" does not parse; ingestion counts. *)
Definition toyQueue (fs : FileSystem) : QueueEnv Toy unit := {|
  qeFS := fs; qeParse raw _ := if bool_decide (raw = "bad") then inl (ErrMsg "no header") else inr tt;
  qeSha256 s := "0123456789abcdef" +:+ s; qeNow := fun w => (Ok 7, w); qeCtxErr := fun w => (Ok tt, w);
  qePublish j := fun w =>
    if bool_decide (ijPath j ∈ tqFailing w) then (Err (ErrMsg "broker"), MkToyQueue (tqDisk w) (tqJobs w) (filter (fun p => p <> ijPath j) (tqFailing w)))
    else toyJobs (fun js => js ++ [j]) w;
  qeProcessFailures _ := fun w => (Ok 0, w);
  qeStatus := fun w => (Ok (MkQueueStatus 1 (Z.of_nat (length (tqJobs w))) 0 0 0), w);
  qeReceive := fun w => match tqJobs w with
    | j :: r => (Ok (MkReceipt j 0), MkToyQueue (tqDisk w) r (tqFailing w))
    | [] => (Err (ErrMsg "closed"), w) end;
  qeAck _ := fun w => (Ok tt, w); qeRelease r := toyJobs (fun js => js ++ [rcJob r]); qeRetry r _ := toyJobs (fun js => js ++ [rcJob r]);
  qeWait := fun w => (Ok tt, w); qeFailureError := fun w => (Ok None, w);
  qeIngest _ _ _ rep := fun w => (Ok (rep, None), w) |}.

Lemma toyQueueLaws fs : @QueueLaws Toy unit (toyQueue fs) _.
Proof.
  split; intros; try (intros w; done).
  - intros w. unfold post, qePublish, toyQueue, toyJobs. by destruct (decide (ijPath j ∈ tqFailing w)); [rewrite bool_decide_true|rewrite bool_decide_false].
  - intros w. unfold post, qeReceive, toyQueue. by destruct (tqJobs w).
  - cbn in *. by simplify_eq.
Qed.

(** An archive: directories of numbered mail, with their content by path. *)
Definition toyFS (tree : tree) (content : string -> string) : FileSystem := MkFS (fun _ => inr tree) (fun p => inr (MkFile (content p) None)).

Definition toyRequest (roots : list string) (highWater : Z) : ArchiveImportRequest :=
  MkImportRequest "mail" "" roots "run" "" false false false highWater.

Definition emptyQueue : Toy := MkToyQueue (MkDisk ∅ 100) [] [].

(** Enqueued, processed, failures, the error, and the paths still queued. *)
Definition runResult (fs : FileSystem) (request : ArchiveImportRequest) (w : Toy) : option (Z * Z * list GoError * option GoError * list string) :=
  match @QueuedRun Toy unit (toyQueue fs) _ textJSON 20 request w with
  | (Ok (rep, err), w') => Some (arEnqueued rep, arProcessed rep, arFailures rep, err, map ijPath (tqJobs w'))
  | _ => None
  end.

(** A walk in another order than its paths loses mail.  Discovery
    compares whole paths with the last one published, but a walk goes directory
    by directory: the mail of "foo-bar" comes after that of "foo", and its path
    before it.  A fresh run over both publishes the mail of one of them and
    succeeds. *)
Theorem walk_order_loses_mail :
  let fs := toyFS (TDir [("foo", TDir [("1", TFile)] None); ("foo-bar", TDir [("1", TFile)] None)] None) (fun _ => "") in
  @rootFiles Toy unit (toyQueue fs) "/mail" = ["/mail/foo/1"; "/mail/foo-bar/1"] /\
  runResult fs (toyRequest ["/mail"] 100) emptyQueue = Some (1, 1, [], None, []).
Proof. vm_compute. done. Qed.

(** A rejected message that discovery drains for room keeps the run from draining
    the rest: the last job stays in the queue, and the run reports no error.
    With room for all jobs the same archive is drained to the end. *)
Theorem rejected_message_stops_drain :
  let fs := toyFS (TDir [("1", TFile); ("2", TFile); ("3", TFile)] None) (fun p => if bool_decide (p = "/mail/1") then "bad" else "") in
  let rejected := ErrJoin ErrArchiveMessageRejected (ErrWrap "parse archive mail message" (ErrMsg "no header")) in
  runResult fs (toyRequest ["/mail"] 1) emptyQueue = Some (3, 2, [rejected], None, ["/mail/3"]) /\
  runResult fs (toyRequest ["/mail"] 100) emptyQueue = Some (3, 3, [rejected], None, []).
Proof. vm_compute. done. Qed.

(** Another run's job in the shared queue is waited out by [drain], but ends a
    discovery that drains for room. *)
Theorem other_run_stops_discovery :
  let fs := toyFS (TDir [("1", TFile); ("2", TFile)] None) (fun _ => "") in
  let other := @newImportJob Toy unit (toyQueue fs) (toyRequest ["/x"] 1) "mail" "other" 0 "/x" "/x/1" "nnml" 0 0 in
  exists failures e, runResult fs (toyRequest ["/mail"] 1) (MkToyQueue (MkDisk ∅ 100) [other] []) =
    Some (1, 0, failures, Some e, ["/mail/1"; "/x/1"]).
Proof. vm_compute. by eexists _, _. Qed.

(** A root directory called "tmp" holds no mail. *)
Theorem tmp_root_is_skipped :
  let fs := toyFS (TDir [("1", TFile)] None) (fun _ => "") in
  runResult fs (toyRequest ["/tmp"] 100) emptyQueue = Some (0, 0, [], None, []) /\
  runResult fs (toyRequest ["/mail"] 100) emptyQueue = Some (1, 1, [], None, []).
Proof. vm_compute. done. Qed.

(** A root that fails half-way is not made up for when a later root goes on: the
    second root moves the position past the first, and a resumed discovery skips
    what is left there.  Here "/a/2" is never published, and the resumed run
    succeeds. *)
Theorem failed_root_lost_on_resume :
  let fs := toyFS (TDir [("1", TFile); ("2", TFile)] None) (fun _ => "") in
  let request := toyRequest ["/a"; "/b"] 100 in
  let enqueue := @enqueueArchiveImportJobs Toy unit (toyQueue fs) _ textJSON 20 request "mail" "run" None in
  let first := enqueue (MkRun (MkToyQueue (MkDisk ∅ 100) [] ["/a/2"]) (freshRunState request "mail" "run") (newReport "mail" "run" 0 0 0 0) []) in
  let second := enqueue (MkRun (rnWorld first.2) (rnState first.2) (newReport "mail" "run" 0 0 0 0) []) in
  first.1 = Err (ErrMsg "archive import discovery completed with failure(s)") /\
  map ijPath (tqJobs (rnWorld first.2)) = ["/a/1"; "/b/1"; "/b/2"] /\
  second.1 = Ok tt /\ map ijPath (tqJobs (rnWorld second.2)) = ["/a/1"; "/b/1"; "/b/2"].
Proof. vm_compute. done. Qed.

(** ** Runs on a concrete archive *)

(** A numbered message and a mailbox of two. *)
Definition exLine (s : string) : string := s +:+ String newline EmptyString.
Definition exFS : FileSystem := toyFS (TDir [("1", TFile); ("inbox", TFile)] None)
  (fun p => if bool_decide (p = "/mail/inbox") then exLine "From a" +:+ exLine "A: b" +:+ exLine "From c" +:+ exLine "D: e" else "").

Definition exRequest : ArchiveImportRequest := MkImportRequest "mail" "" ["/mail"] "run" "/state" false false false 100.

Definition exRun : Run Toy := MkRun emptyQueue (freshRunState exRequest "mail" "run") (newReport "mail" "run" 0 0 0 0) [].

#[local] Instance exQueue : QueueEnv Toy unit := toyQueue exFS.
#[local] Instance exQueueLaws : QueueLaws Toy unit := toyQueueLaws exFS.

Lemma exFiles_in_order : inOrder exRequest (rootFiles "/mail").
Proof.
  assert (filter (fun f => fileMessages exRequest f <> []) (rootFiles "/mail") = ["/mail/1"; "/mail/inbox"]) as He by (vm_compute; reflexivity).
  unfold inOrder. rewrite He. repeat constructor.
Qed.

Lemma discovery_resumes_witness :
  let all := [MkMessage "/mail/1" "nnml" 0 0; MkMessage "/mail/inbox" "mbox" 0 5; MkMessage "/mail/inbox" "mbox" 1 5] in
  archiveMessages exRequest (rootFiles "/mail") = all /\
  let '(r, s') := enqueueArchiveImportJobs 10 exRequest "mail" "run" (Some (drainOne exRequest "mail")) exRun in
  exists (j : nat) jobs, (0 <= j <= 3)%nat /\ published (rnTrace s') = jobs /\
    Forall2 (fun m job => exists t, job = newImportJob exRequest "mail" "run" t "/mail" (msPath m) (msFormat m) (msOffset m) (msSize m))
      (take j all) jobs /\ (r = Ok tt -> j = 3%nat).
Proof.
  intros all. assert (archiveMessages exRequest (rootFiles "/mail") = all) as Hall by (vm_compute; reflexivity). split; [exact Hall|].
  pose proof (discovery_resumes (J := textJSON) 10 exRequest "mail" "run" "/mail" exRun 0 eq_refl exFiles_in_order eq_refl (Nat.le_0_l _) eq_refl) as H.
  cbv zeta in H. rewrite Hall in H.
  destruct (enqueueArchiveImportJobs 10 exRequest "mail" "run" (Some (drainOne exRequest "mail")) exRun) as [r s'].
  destruct H as (j & jobs & Hj & Hp & Hf & _ & _ & _ & Hr & _).
  - intros _. exists zeroRunState. split; reflexivity.
  - exists j, jobs. split; [exact Hj|]. split; [exact Hp|]. split; [exact Hf|exact Hr].
Defined.

(** One job of the run is queued. *)
Definition exJob : SourceImportJob := newImportJob (toyRequest ["/mail"] 100) "mail" "run" 0 "/mail" "/mail/1" "nnml" 0 0.
Definition exDrain : Run Toy :=
  MkRun (MkToyQueue (MkDisk ∅ 100) [exJob] []) (freshRunState exRequest "mail" "run") (newReport "mail" "run" 1 1 1 0) [].

Lemma exOrderly : orderly (J := textJSON) (toyRequest ["/mail"] 100) "run" (fun n w => (n <= length (tqJobs w))%nat /\ Forall (fun j => ijRunID j = "run") (tqJobs w)).
Proof.
  split; intros; try (intros w Hw; by eexists _, _).
  - destruct H as [Hn Hf]. cbn. destruct (tqJobs w) as [|j js]; [cbn in Hn; lia|]. inversion Hf; subst. eexists _, _. split; [done|]. split; [done|]. split; [cbn in *; lia|done].
  - eexists _, _, _. split; [done|]. by split.
Qed.

Lemma drain_settles_witness :
  let '(r, s') := drain (J := textJSON) 5 (toyRequest ["/mail"] 100) "mail" exDrain in
  (exists cs n, rnTrace s' = cs /\ settles Toy unit (toyRequest ["/mail"] 100) "mail" "run" cs n /\ arProcessed (rnReport s') = 0 + n) /\ r = Ok tt.
Proof.
  pose proof (drain_settles (J := textJSON) 5 (toyRequest ["/mail"] 100) "mail" exDrain) as H.
  destruct (drain 5 (toyRequest ["/mail"] 100) "mail" exDrain) as [r s'].
  destruct H as ((cs & n & Ht & Hs & Hp) & _ & Hok). split; [exists cs, n; split; [exact Ht|]; split; [exact Hs|exact Hp]|].
  apply (Hok _ exOrderly); [|vm_compute; discriminate]. split; [apply le_n|]. repeat constructor.
Defined.
