(* ===== verification/SourceService.v ===== *)
(** * The source service: [source/interfaces.go]

    [Ingest] takes an object from a source to FILESTORE once, under a claim;
    [RunBackfill] pulls pages from an adapter, ingests them and keeps the cursor
    the next run resumes from.  FILESTORE is any [FilestoreClient] (the service
    talks to it over gRPC); the clock, the scheduler's answers and how far a
    cancelled page was fed are up to the world.  Workers of a page run one after
    another. *)

From stdpp Require Import options.
From S2P Require Import Prelude Lru GoLib Contracts Chunker Manifest Meta ChunkStore ObjectStore Jobs.

Local Open Scope Z_scope.

Module Source.
Import Lru.

(** ** Structs *)

(** [rpc.PutRequest], [rpc.CompoundPutRequest]: the store's with a priority class. *)
Record RpcPut := MkRpcPut { rpPut : PutRequest; rpPriorityClass : string }.
Record RpcCompoundPut := MkRpcCompoundPut { rcPut : CompoundPutRequest; rcPriorityClass : string }.

Record IngestObject := MkIngest {
  ioObservedAt : Time; ioReader : option Reader; ioCompound : option RpcCompoundPut; ioMediaType : string;
  ioSourceKind : string; ioSourceName : string; ioExternalID : string; ioExternalVer : string;
  ioSourceHint : string; ioPriorityClass : string; ioContentRoles : list string; ioFacets : list Facet;
  ioProvenance : list Provenance; ioRelationships : list Relationship }.

Record SourceCursor := MkCursor {
  scUpdatedAt : Time; scCursor : anyMap; scSourceKind : string; scSourceName : string; scSchemaVersion : Z }.

Record SourceCursorRef := MkCursorRef { srSourceKind : string; srSourceName : string }.

Record BackfillRequest := MkBackfill {
  bqCursor : anyMap; bqPriorityClass : string; bqCursorKey : string; bqPageSize : Z; bqMaxPages : Z; bqResume : bool }.

Record BackfillReport := MkBackfillReport {
  brFinalCursor : SourceCursor; brFailedMessageIDs : list string; brProcessed : Z; brCreated : Z; brSkipped : Z;
  brFailed : Z; brPages : Z; brCompleted : bool }.

Definition noCursor : SourceCursor := MkCursor zeroTime ∅ "" "" 0.
Definition noReport : BackfillReport := MkBackfillReport noCursor [] 0 0 0 0 0 false.

(** ** The interfaces the service talks to *)

Class FilestoreClient (W : Type) := {
  fcLookupSourceObject : SourceObjectRef -> SM W (option ObjectDigest);
  fcTryAcquireSourceIngest : SourceObjectRef -> SM W (option SourceIngestClaim);
  fcReleaseSourceIngest : SourceIngestClaim -> SM W unit;
  fcPut : RpcPut -> SM W ObjectDigest;
  fcPutCompound : RpcCompoundPut -> SM W ObjectDigest;
  fcReadManifest : ObjectDigest -> SM W Manifest;
  fcWriteSourceCursor : SourceCursor -> SM W unit;
  fcReadSourceCursor : SourceCursorRef -> SM W (option SourceCursor) }.

Class SourceEnv (W : Type) := {
  seNow : SM W Time;
  seFormatTime : Time -> string;                    (* Format(time.RFC3339Nano) *)
  seNotify : ObjectDigest -> SM W unit;             (* notifier.NotifyObjectsChanged *)
  sePressured : SM W bool;
  seWait : SM W unit;                               (* the poll timer, or ctx.Err() *)
  seDone : W -> bool;                               (* ctx.Done() is closed *)
  seFeed : SM W bool }.                             (* the producer's select took the object *)

(** What the service has done, in order. *)
Inductive event :=
  | EAcquired (claim : SourceIngestClaim)
  | EReleasing (claim : SourceIngestClaim)
  | EWrote (stored : option ObjectDigest)       (* what the write returned *)
  | ENotified (digest : ObjectDigest)
  | EPulled (cursor : anyMap) (objects : list IngestObject)
  | EIngested (object : IngestObject)
  | ECursor (cursor : SourceCursor).

Record Service (W : Type) := MkService {
  svWorld : W; svHasNotifier : bool; svHasPressure : bool;
  svLookup : LRU string ObjectDigest; svTrace : list event }.
Arguments MkService {W} _ _ _ _ _.
Arguments svWorld {W} _.
Arguments svHasNotifier {W} _.
Arguments svHasPressure {W} _.
Arguments svLookup {W} _.
Arguments svTrace {W} _.

Definition sourceLookupCacheSize : Z := 200000.

Record Adapter (W : Type) := MkAdapter {
  adKind : string; adName : string; adCapabilities : list string;
  adPull : anyMap -> Z -> SM (Service W) (list IngestObject * SourceCursor * option GoError) }.
Arguments MkAdapter {W} _ _ _ _.
Arguments adKind {W} _.
Arguments adName {W} _.
Arguments adCapabilities {W} _.
Arguments adPull {W} _ _ _.

Section service.
Context {W : Type} `{!FilestoreClient W, !SourceEnv W}.

Abbreviation Svc := (SM (Service W)).

Definition set_world (w : W) (s : Service W) : Service W :=
  MkService w (svHasNotifier s) (svHasPressure s) (svLookup s) (svTrace s).
Definition set_lookup (c : LRU string ObjectDigest) (s : Service W) : Service W :=
  MkService (svWorld s) (svHasNotifier s) (svHasPressure s) c (svTrace s).
Definition add_event (e : event) (s : Service W) : Service W :=
  MkService (svWorld s) (svHasNotifier s) (svHasPressure s) (svLookup s) (svTrace s ++ [e]).

Definition NewService (w : W) (notifier pressure : bool) : Service W :=
  MkService w notifier pressure (NewLRU sourceLookupCacheSize) [].

Definition onWorld {A} (m : SM W A) : Svc A := fun s => let '(r, w) := m (svWorld s) in (r, set_world w s).

Definition log (e : event) : Svc unit := smodify (add_event e).

(** ** Ingest *)

Definition sourceRefKey (ref : SourceObjectRef) : string :=
  let nul := String (Ascii.ascii_of_N 0) EmptyString in
  rSourceKind ref +:+ nul +:+ rSourceName ref +:+ nul +:+ rExternalID ref +:+ nul +:+ rExternalVersion ref.

Definition lookupSourceObject (ref : SourceObjectRef) : Svc (option ObjectDigest) :=
  let key := sourceRefKey ref in
  c ← sget svLookup;
  r ← spanic (Get key c);
  _ ← smodify (set_lookup r.2);
  match r.1 with
  | Some digest => mret (Some digest)
  | None =>
      found ← onWorld (fcLookupSourceObject ref);
      match found with
      | Some digest =>
          c ← sget svLookup;
          c' ← spanic (Put key digest c);
          _ ← smodify (set_lookup c');
          mret (Some digest)
      | None => mret None
      end
  end.

(** The reference of an object, when it names a source object at all. *)
Definition sourceRef (object : IngestObject) : GoError + option SourceObjectRef :=
  let ref := MkRef (TrimSpace (ioSourceKind object)) (TrimSpace (ioSourceName object))
    (TrimSpace (ioExternalID object)) (TrimSpace (ioExternalVer object)) in
  let empty := fun x => bool_decide (x = EmptyString) in
  if empty (rSourceKind ref) && empty (rSourceName ref) && empty (rExternalID ref) then inr None
  else if empty (rSourceKind ref) || empty (rSourceName ref) || empty (rExternalID ref) then
    inl (ErrMsg "source identity requires source_kind, source_name, and external_id")
  else inr (Some ref).

Definition provenanceFor (object : IngestObject) : Svc (list Provenance) :=
  match sourceRef object with
  | inr (Some ref) =>
      observed ← (if isZero (ioObservedAt object) then onWorld seNow else mret (ioObservedAt object));
      mret [MkProvenance observed ∅ ∅ (rSourceName ref) (rSourceKind ref) (rExternalID ref) (rExternalVersion ref)
              (ioContentRoles object)]
  | _ => mret []
  end.

Definition provenanceKey (item : Provenance) : string := sourceRefKey (sourceObjectRefFromProvenance item).

Definition mergeProvenance (first second : list Provenance) : list Provenance :=
  (foldl (fun acc item =>
     let key := provenanceKey item in
     if bool_decide (key ∈ acc.2) then acc else (acc.1 ++ [item], {[key]} ∪ acc.2))
   (first, list_to_set (map provenanceKey first) : gset string) second).1.

Definition notifyChanged (digest : ObjectDigest) : Svc unit :=
  b ← sget svHasNotifier;
  if b : bool then
    _ ← log (ENotified digest);
    _ ← stry (onWorld (seNotify digest));
    mret tt
  else mret tt.

Definition releaseSourceIngest (claim : SourceIngestClaim) : Svc unit :=
  _ ← log (EReleasing claim);
  onWorld (fcReleaseSourceIngest claim).

(** [defer releaseClaim] while the claim is held: [body] says with its result
    whether it still is. *)
Definition withClaim {A} (claim : option SourceIngestClaim) (body : Svc (A * bool)) : Svc A :=
  r ← stry body;
  _ ← (match claim, r with
       | Some claim, inl _ | Some claim, inr (_, true) => _ ← stry (releaseSourceIngest claim); mret tt
       | _, _ => mret tt
       end);
  match r with inl e => sfail e | inr (a, _) => mret a end.

(** After the write: the claim is released, the scheduler told. *)
Definition finishIngest (claim : option SourceIngestClaim) (digest : ObjectDigest) : Svc (ObjectDigest * bool * bool) :=
  _ ← (match claim with Some claim => releaseSourceIngest claim | None => mret tt end);
  _ ← notifyChanged digest;
  mret (digest, true, false).

(** A write error is none when someone else has stored the object. *)
Definition afterWrite (ref : option SourceObjectRef) (claim : option SourceIngestClaim) (r : GoError + ObjectDigest) :
    Svc (ObjectDigest * bool * bool) :=
  match r with
  | inr digest => finishIngest claim digest
  | inl err =>
      found ← (match ref with Some ref => lookupSourceObject ref | None => mret None end);
      match found with Some digest => mret (digest, false, true) | None => sfail err end
  end.

Definition withCompound (c : RpcCompoundPut) (provenance : list Provenance) (class : string) : RpcCompoundPut :=
  let p := rcPut c in
  MkRpcCompoundPut (MkCompoundPut (cpObjectID p) (cpMediaType p) (cpSourceHint p) (cpContentRoles p) (cpFacets p)
      (mergeProvenance (cpProvenance p) provenance) (cpRelationships p) (cpParts p))
    (if bool_decide (class = EmptyString) then rcPriorityClass c else class).

Definition answered (r : GoError + ObjectDigest) : option ObjectDigest := match r with inr d => Some d | inl _ => None end.

Definition writeIngest (object : IngestObject) (provenance : list Provenance) (ref : option SourceObjectRef)
    (claim : option SourceIngestClaim) : Svc (ObjectDigest * bool * bool) :=
  match ioCompound object, ioReader object with
  | Some compound, _ =>
      r ← stry (onWorld (fcPutCompound (withCompound compound provenance (ioPriorityClass object))));
      _ ← log (EWrote (answered r));
      afterWrite ref claim r
  | None, None => sfail (ErrMsg "source ingest object reader is required")
  | None, Some reader =>
      r ← stry (onWorld (fcPut (MkRpcPut (MkPut reader (ioMediaType object) (ioSourceHint object) (ioContentRoles object)
             (ioFacets object) (mergeProvenance (ioProvenance object) provenance) (ioRelationships object))
             (ioPriorityClass object))));
      _ ← log (EWrote (answered r));
      afterWrite ref claim r
  end.

(** Under the claim: a second look at the store, and the write. *)
Definition ingestClaimed (object : IngestObject) (provenance : list Provenance) (ref : SourceObjectRef)
    (claim : SourceIngestClaim) : Svc (ObjectDigest * bool * bool) :=
  found ← lookupSourceObject ref;
  match found with
  | Some digest => _ ← releaseSourceIngest claim; mret (digest, false, false)
  | None => writeIngest object provenance (Some ref) (Some claim)
  end.

(** The digest, and whether the object is new. *)
Definition Ingest (object : IngestObject) : Svc (ObjectDigest * bool) :=
  match sourceRef object with
  | inl e => sfail e
  | inr None =>
      provenance ← provenanceFor object;
      withClaim None (writeIngest object provenance None None)
  | inr (Some ref) =>
      provenance ← provenanceFor object;
      found ← lookupSourceObject ref;
      match found with
      | Some digest => mret (digest, false)
      | None =>
          acquired ← onWorld (fcTryAcquireSourceIngest ref);
          match acquired with
          | None => sfail (ErrWrap "source ingest" (ErrVar "ErrSourceIngestInProgress"))
          | Some claim =>
              _ ← log (EAcquired claim);
              withClaim (Some claim) (ingestClaimed object provenance ref claim)
          end
      end
  end.

(** ** Cursors *)

(** The defaults of [WriteCursor]. *)
Definition fillCursor (adapter : Adapter W) (updated : Time) (cursor : SourceCursor) : SourceCursor :=
  MkCursor updated (scCursor cursor)
    (if bool_decide (scSourceKind cursor = EmptyString) then adKind adapter else scSourceKind cursor)
    (if bool_decide (scSourceName cursor = EmptyString) then adName adapter else scSourceName cursor)
    (if scSchemaVersion cursor =? 0 then SchemaVersionPhase00 else scSchemaVersion cursor).

Definition WriteCursor (adapter : Adapter W) (cursor : SourceCursor) : Svc unit :=
  updated ← (if isZero (scUpdatedAt cursor) then onWorld seNow else mret (scUpdatedAt cursor));
  let cursor := fillCursor adapter updated cursor in
  _ ← onWorld (fcWriteSourceCursor cursor);
  log (ECursor cursor).

Definition ReadCursor (adapter : Adapter W) : Svc (option SourceCursor) :=
  onWorld (fcReadSourceCursor (MkCursorRef (adKind adapter) (adName adapter))).

Definition namespacedCursor (t : Time) (stored next : SourceCursor) (key : string) : SourceCursor :=
  let wrapped := <[key +:+ "_updated_at" := AStr (seFormatTime t)]> (<[key := AMap (map_to_list (scCursor next))]> (scCursor stored)) in
  MkCursor (scUpdatedAt next) wrapped (scSourceKind next) (scSourceName next) (scSchemaVersion next).

Definition mapCursorValue (cursor : anyMap) (key : string) : option anyMap :=
  match cursor !! key with
  | Some (AMap l) => Some (list_to_map l)
  | _ => None
  end.

Definition boolCursorValue (cursor : anyMap) (key : string) : bool := boolFromAny (cursor !! key).

Definition mergeBackfillCounts (cursor : anyMap) (report : BackfillReport) : anyMap :=
  <["failed_message_ids" := AList (map AStr (brFailedMessageIDs report))]>
  (<["failed_count" := AInt (brFailed report)]>
  (<["skipped_count" := AInt (brSkipped report)]>
  (<["created_count" := AInt (brCreated report)]>
  (<["processed_count" := AInt (brProcessed report)]> cursor)))).

Definition writeBackfillCursor (adapter : Adapter W) (stored next : SourceCursor) (key : string) : Svc unit :=
  if bool_decide (key = EmptyString) then WriteCursor adapter next else
  latest ← ReadCursor adapter;
  let stored := default stored latest in
  t ← onWorld seNow;
  WriteCursor adapter (namespacedCursor t stored next key).

(** ** Backfill *)

(** The loop of [awaitPressureRelief], for at most [fuel] polls: [None] while it
    still waits. *)
Fixpoint awaitPressureRelief (fuel : nat) : Svc (option unit) :=
  b ← sget svHasPressure;
  if negb b then mret (Some tt) else
  r ← stry (onWorld sePressured);
  match r with
  | inl _ | inr false => mret (Some tt)
  | inr true =>
      match fuel with
      | O => mret None
      | S fuel => _ ← onWorld seWait; awaitPressureRelief fuel
      end
  end.

Definition withPriority (class : string) (o : IngestObject) : IngestObject :=
  MkIngest (ioObservedAt o) (ioReader o) (ioCompound o) (ioMediaType o) (ioSourceKind o) (ioSourceName o)
    (ioExternalID o) (ioExternalVer o) (ioSourceHint o) class (ioContentRoles o) (ioFacets o) (ioProvenance o)
    (ioRelationships o).

Definition countIngest (report : BackfillReport) (messageID : string) (r : GoError + (ObjectDigest * bool)) : BackfillReport :=
  let '(MkBackfillReport c ids processed created skipped failed pages completed) := report in
  match r with
  | inl e =>
      if isVar "ErrSourceIngestInProgress" e then MkBackfillReport c ids (processed + 1) created (skipped + 1) failed pages completed
      else MkBackfillReport c (ids ++ [messageID]) (processed + 1) created skipped (failed + 1) pages completed
  | inr (_, true) => MkBackfillReport c ids (processed + 1) (created + 1) skipped failed pages completed
  | inr (_, false) => MkBackfillReport c ids (processed + 1) created (skipped + 1) failed pages completed
  end.

(** One object of a page; a cancelled context may keep it from being fed, and
    with it the rest. *)
Definition ingestPageObject (class : string) (acc : BackfillReport * bool) (object : IngestObject) :
    Svc (BackfillReport * bool) :=
  if negb acc.2 then mret acc else
  fed ← onWorld seFeed;
  if negb fed then mret (acc.1, false) else
  r ← stry (Ingest (withPriority class object));
  _ ← log (EIngested object);
  mret (countIngest acc.1 (ioExternalID object) r, true).

Definition ingestBackfillPage (objects : list IngestObject) (class : string) : Svc BackfillReport :=
  acc ← sforM objects (noReport, true) (ingestPageObject class);
  mret acc.1.

Definition hasCapability (adapter : Adapter W) (capability : string) : bool :=
  bool_decide (capability ∈ adCapabilities adapter).

Definition MaxPagesNotReached (report : BackfillReport) (maxPages : Z) : bool :=
  (maxPages <=? 0) || (brPages report <? maxPages).

Definition withFinal (c : SourceCursor) (completed : bool) (r : BackfillReport) : BackfillReport :=
  MkBackfillReport c (brFailedMessageIDs r) (brProcessed r) (brCreated r) (brSkipped r) (brFailed r) (brPages r) completed.

Definition addPage (r p : BackfillReport) : BackfillReport :=
  MkBackfillReport (brFinalCursor r) (brFailedMessageIDs r ++ brFailedMessageIDs p) (brProcessed r + brProcessed p)
    (brCreated r + brCreated p) (brSkipped r + brSkipped p) (brFailed r + brFailed p) (brPages r + 1) (brCompleted r).

Definition withMap (m : anyMap) (c : SourceCursor) : SourceCursor :=
  MkCursor (scUpdatedAt c) m (scSourceKind c) (scSourceName c) (scSchemaVersion c).

(** How a page ends: the run returns, or goes on with a cursor. *)
Inductive pageEnd :=
  | Return (report : BackfillReport) (err : option GoError)
  | Continue (report : BackfillReport) (cursor : anyMap).

Definition returnAfter (report : BackfillReport) (m : Svc unit) (k : Svc pageEnd) : Svc pageEnd :=
  r ← stry m;
  match r with inl e => mret (Return report (Some e)) | inr _ => k end.

(** One iteration of the loop, after the throttle. *)
Definition backfillPage (adapter : Adapter W) (request : BackfillRequest) (stored : SourceCursor) (pageSize : Z)
    (report : BackfillReport) (cursor : anyMap) : Svc pageEnd :=
  let write c := writeBackfillCursor adapter stored c (bqCursorKey request) in
  p ← adPull adapter cursor pageSize;
  let '(objects, next, err) := p in
  match err with
  | Some e =>
      let report := withFinal next (brCompleted report) report in
      _ ← (if bool_decide (scSourceKind next <> EmptyString) && bool_decide (scSourceName next <> EmptyString)
           then _ ← stry (write next); mret tt else mret tt);
      mret (Return report (Some e))
  | None =>
      if bool_decide (objects = []) && boolCursorValue (scCursor next) "completed" then
        let report := withFinal next true report in
        returnAfter report (write next) (mret (Return report None))
      else
        _ ← log (EPulled cursor objects);
        page ← ingestBackfillPage objects (bqPriorityClass request);
        let report := addPage report page in
        let next := withMap (mergeBackfillCounts (scCursor next) report) next in
        let report := withFinal next (boolCursorValue (scCursor next) "completed") report in
        returnAfter report (write next)
          (mret (if 0 <? brFailed page then Return report (Some (ErrMsg "source backfill failed"))
                 else if brCompleted report then Return report None
                 else Continue report (scCursor next)))
  end.

(** At most [fuel] pages, each waiting for at most [fuel] polls; [None] when the
    run is not over then. *)
Fixpoint backfillLoop (fuel : nat) (adapter : Adapter W) (request : BackfillRequest) (stored : SourceCursor)
    (pageSize : Z) (report : BackfillReport) (cursor : anyMap) : Svc (option (BackfillReport * option GoError)) :=
  if negb (MaxPagesNotReached report (bqMaxPages request)) then mret (Some (report, None)) else
  match fuel with
  | O => mret None
  | S f =>
      r ← stry (if bool_decide (bqPriorityClass request = PriorityBackground) then awaitPressureRelief fuel else mret (Some tt));
      match r with
      | inl e => mret (Some (report, Some e))
      | inr None => mret None
      | inr (Some _) =>
          e ← backfillPage adapter request stored pageSize report cursor;
          match e with
          | Return report err => mret (Some (report, err))
          | Continue report cursor => backfillLoop f adapter request stored pageSize report cursor
          end
      end
  end.

(** The cursor a run starts from. *)
Definition startCursor (request : BackfillRequest) (stored : option SourceCursor) : anyMap :=
  match (st ← stored; mapCursorValue (scCursor st) (bqCursorKey request)) with
  | Some c => if bqResume request then c else bqCursor request
  | None => bqCursor request
  end.

(** The run, from the stored cursor when there is one. *)
Definition backfillFrom (fuel : nat) (adapter : Adapter W) (request : BackfillRequest) (stored : option SourceCursor) :
    Svc (option (BackfillReport * option GoError)) :=
  let pageSize := if bqPageSize request <=? 0 then 100 else bqPageSize request in
  let cursor := startCursor request stored in
  let stored := default noCursor stored in
  if boolCursorValue cursor "completed" then
    t ← onWorld seNow;
    let final := MkCursor t cursor (adKind adapter) (adName adapter) SchemaVersionPhase00 in
    final ← (if bool_decide (bqCursorKey request = EmptyString) then mret final
             else t ← onWorld seNow; mret (namespacedCursor t stored final (bqCursorKey request)));
    mret (Some (withFinal final true noReport, None))
  else backfillLoop fuel adapter request stored pageSize noReport cursor.

Definition RunBackfill (fuel : nat) (adapter : Adapter W) (request : BackfillRequest) :
    Svc (option (BackfillReport * option GoError)) :=
  if negb (hasCapability adapter "backfill") then
    mret (Some (noReport, Some (ErrWrap "does not support backfill" (ErrVar "ErrUnsupportedOperation")))) else
  r ← (if bool_decide (bqCursorKey request = EmptyString) then mret (inr None) else stry (ReadCursor adapter));
  match r with
  | inl e => mret (Some (noReport, Some e))
  | inr stored => backfillFrom fuel adapter request stored
  end.

(** ** Actions *)

Definition actionProvenance (manifest : Manifest) (adapter : Adapter W) : option Provenance :=
  list_find (fun p => pSourceKind p = adKind adapter /\ pSourceName p = adName adapter /\ blank (pExternalID p) = false)
    (mProvenance manifest) ≫= (fun r => Some r.2).

Definition actionFacetAllowed (manifest : Manifest) (adapter : Adapter W) : bool :=
  if negb (bool_decide (adKind adapter = "gmail")) then negb (bool_decide (mFacets manifest = []))
  else existsb (fun facet => bool_decide (FacetKind facet = "mail_message")) (mFacets manifest).

(** The parameters the adapter is called with. *)
Definition ApplyAction (adapter : Adapter W) (parameters : anyMap) (digest : ObjectDigest) : Svc anyMap :=
  if negb (hasCapability adapter "actions") then
    sfail (ErrWrap "does not support actions" (ErrVar "ErrUnsupportedOperation")) else
  if blank digest then sfail (ErrMsg "source action object_digest is required") else
  manifest ← onWorld (fcReadManifest digest);
  match actionProvenance manifest adapter with
  | None => sfail (ErrWrap "no provenance for source" (ErrVar "ErrUnsupportedOperation"))
  | Some provenance =>
      if negb (actionFacetAllowed manifest adapter) then
        sfail (ErrWrap "facets do not allow actions" (ErrVar "ErrUnsupportedOperation"))
      else mret (if bool_decide (adKind adapter = "gmail") && blank (stringFromAny (parameters !! "message_id"))
                 then <["message_id" := AStr (pExternalID provenance)]> parameters else parameters)
  end.

End service.
(** ** What the cache holds *)

Section cache.
Context {K V : Type} `{Countable K}.

(** The cache represents a recency list whose entries satisfy [P]. *)
Definition entries (P : K -> V -> Prop) (c : LRU K V) : Prop := exists l, repr c l /\ Forall (fun kv => P kv.1 kv.2) l.

Lemma aremove_Forall (P : K * V -> Prop) k l : Forall P l -> Forall P (Recency.aremove k l).
Proof. unfold Recency.aremove. rewrite !Forall_forall. intros HP x [_ Hx]%list_elem_of_filter. auto. Qed.

Lemma Get_entries P k c : entries P c -> exists r c', Get k c = Some (r, c') /\ entries P c' /\ (forall v, r = Some v -> P k v).
Proof.
  intros (l & Hl & HP). destruct (Lru.step_refines _ _ _ (Lru.OGet k) Hl eq_refl) as (c' & Hst & Hr & _). cbn in Hst, Hr.
  destruct (Get k c) as [[r c1]|]; cbn in Hst; [|done]. unfold spec_get in Hst, Hr. injection Hst as Hrr <-.
  destruct (Recency.alookup k l) as [v|] eqn:Ha; cbn in Hrr, Hr; injection Hrr as ->.
  - exists (Some v), c1. apply Recency.alookup_Some_elem in Ha. rewrite Forall_forall in HP. specialize (HP _ Ha) as Hv.
    split; [done|]. split; [|by intros ? [= <-]]. eexists. split; [done|]. constructor; [done|]. apply aremove_Forall.
    by apply Forall_forall.
  - exists None, c1. split; [done|]. split; [by exists l|done].
Qed.

Lemma Put_entries (P : K -> V -> Prop) k v c : entries P c -> P k v -> exists c', Put k v c = Some c' /\ entries P c'.
Proof.
  intros (l & Hl & HP) Hv. destruct (Lru.step_refines _ _ _ (Lru.OPut k v) Hl eq_refl) as (c' & Hst & Hr & _). cbn in Hst, Hr.
  destruct (Put k v c) as [c1|]; cbn in Hst; [|done]. injection Hst as <-. exists c1. split; [done|]. eexists. split; [done|].
  unfold spec_put. apply Forall_take. constructor; [done|by apply aremove_Forall].
Qed.

Lemma New_entries P cap : entries P (NewLRU cap : LRU K V).
Proof. exists []. split; [apply repr_NewLRU|done]. Qed.

End cache.

(** ** What the service relies on *)

(** An operation of the world does not panic and cannot undo a cancellation. *)
Definition calm {W} `{!SourceEnv W} {A} (m : SM W A) : Prop :=
  forall w, (m w).1 <> Panic /\ (seDone w = true -> seDone (m w).2 = true).

Class SourceLaws (W : Type) `{!FilestoreClient W, !SourceEnv W} : Prop := {
  sl_lookup : forall ref, calm (fcLookupSourceObject ref);
  sl_acquire : forall ref, calm (fcTryAcquireSourceIngest ref);
  sl_release : forall c, calm (fcReleaseSourceIngest c);
  sl_put : forall r, calm (fcPut r);
  sl_putCompound : forall r, calm (fcPutCompound r);
  sl_readManifest : forall d, calm (fcReadManifest d);
  sl_writeCursor : forall c, calm (fcWriteSourceCursor c);
  sl_readCursor : forall r, calm (fcReadSourceCursor r);
  sl_now : calm seNow;
  sl_now_total : forall w e, (seNow w).1 <> Err e;
  sl_notify : forall d, calm (seNotify d);
  sl_pressured : calm sePressured;
  sl_wait : calm seWait;
  sl_feed : calm seFeed;
  sl_feed_total : forall w e, (seFeed w).1 <> Err e;
  (** objects are kept back, and cursors refused, only after a cancellation *)
  sl_feed_done : forall w, (seFeed w).1 = Ok false -> seDone (seFeed w).2 = true;
  sl_cursor_done : forall c w, seDone w = true -> (fcWriteSourceCursor c w).1 <> Ok tt }.

Section proofs.
Context {W : Type} `{!FilestoreClient W, !SourceEnv W, !SourceLaws W}.
#[local] Set Default Proof Using "Type*".

Abbreviation Svc := (SM (Service W)).

(** The service got from [s] to [s'] by the calls [cs]. *)
Record went (cs : list event) (s s' : Service W) : Prop := {
  wt_trace : svTrace s' = svTrace s ++ cs;
  wt_cache : entries (fun _ _ => True) (svLookup s');
  wt_notifier : svHasNotifier s' = svHasNotifier s;
  wt_pressure : svHasPressure s' = svHasPressure s;
  wt_done : seDone (svWorld s) = true -> seDone (svWorld s') = true }.

Definition cache_ok (s : Service W) : Prop := entries (fun _ _ => True) (svLookup s).

Lemma went_refl s : cache_ok s -> went [] s s.
Proof. intros H. split; [by rewrite app_nil_r|done..]. Qed.

Lemma went_trans a b s1 s2 s3 : went a s1 s2 -> went b s2 s3 -> went (a ++ b) s1 s3.
Proof.
  intros [] []. split; [by rewrite wt_trace1, wt_trace0, app_assoc|done|congruence|congruence|auto].
Qed.

Lemma went_nil b s1 s2 s3 : went [] s1 s2 -> went b s2 s3 -> went b s1 s3.
Proof. apply went_trans. Qed.

Lemma went_nil_r a s1 s2 s3 : went a s1 s2 -> went [] s2 s3 -> went a s1 s3.
Proof. intros H1 H2. rewrite <- (app_nil_r a). by eapply went_trans. Qed.

Lemma call_post {A} (m : SM W A) s (Q : GoError + A -> Service W -> Prop) : calm m -> cache_ok s ->
  (forall r s', went [] s s' ->
     match r with inl e => m (svWorld s) = (Err e, svWorld s') | inr a => m (svWorld s) = (Ok a, svWorld s') end -> Q r s') ->
  post (onWorld m) s Q.
Proof.
  intros Hm Hc HQ. unfold post, onWorld. destruct (Hm (svWorld s)) as [Hp Hd]. destruct (m (svWorld s)) as [r w] eqn:Hr. cbn in Hp, Hd.
  assert (went [] s (set_world w s)) by (split; [cbn; by rewrite app_nil_r|done..]). destruct r; [by apply HQ|by apply HQ|done].
Qed.

Lemma log_post e s (Q : GoError + unit -> Service W -> Prop) : cache_ok s ->
  (forall s', went [e] s s' -> svWorld s' = svWorld s -> Q (inr tt) s') -> post (log e) s Q.
Proof. intros Hc HQ. unfold post, log, smodify. by apply HQ. Qed.

Lemma now_total_post s (Q : GoError + Time -> Service W -> Prop) : cache_ok s ->
  (forall t s', went [] s s' -> Q (inr t) s') -> post (onWorld seNow) s Q.
Proof.
  intros Hc HQ. apply call_post; [apply sl_now|done|]. intros [e|t] s' Ht Hr; [|by apply HQ].
  destruct (sl_now_total (svWorld s) e). by rewrite Hr.
Qed.

Lemma lookup_post ref s (Q : GoError + option ObjectDigest -> Service W -> Prop) : cache_ok s ->
  (forall r s', went [] s s' -> Q r s') -> post (lookupSourceObject ref) s Q.
Proof.
  intros Hc HQ. unfold lookupSourceObject. apply post_bind. unfold post at 1, sget.
  destruct (Get_entries _ (sourceRefKey ref) _ Hc) as (r & c' & Hg & He & _).
  apply post_bind. unfold post at 1, spanic. rewrite Hg. apply post_bind. unfold post at 1, smodify. cbn [fst snd].
  assert (went [] s (set_lookup c' s)) as Hw by (split; [cbn; by rewrite app_nil_r|done..]).
  destruct r as [d|]; [apply post_ret; by apply HQ|]. apply post_bind, call_post; [apply sl_lookup|done|].
  intros [e|[d|]] s1 Hw1 _; [apply HQ; by eapply went_nil| |apply post_ret, HQ; by eapply went_nil].
  apply post_bind. unfold post at 1, sget. destruct (Put_entries (fun _ _ => True) (sourceRefKey ref) d _ (wt_cache _ _ _ Hw1) I) as (c2 & Hp & He2).
  apply post_bind. unfold post at 1, spanic. rewrite Hp. apply post_bind. unfold post at 1, smodify. apply post_ret, HQ.
  apply (went_nil _ _ _ _ Hw), (went_nil _ _ _ _ Hw1). split; [cbn; by rewrite app_nil_r|done..].
Qed.

Lemma release_post claim s (Q : GoError + unit -> Service W -> Prop) : cache_ok s ->
  (forall r s', went [EReleasing claim] s s' -> Q r s') -> post (releaseSourceIngest claim) s Q.
Proof.
  intros Hc HQ. unfold releaseSourceIngest. apply post_bind, log_post; [done|]. intros s1 H1 _.
  apply call_post; [apply sl_release|apply H1|]. intros r s2 H2 _. apply HQ. by eapply went_nil_r.
Qed.

(** The notification of a new object, when there is a scheduler to tell. *)
Definition notes (s : Service W) (d : ObjectDigest) : list event := if svHasNotifier s then [ENotified d] else [].

Lemma notify_post d s (Q : GoError + unit -> Service W -> Prop) : cache_ok s ->
  (forall s', went (notes s d) s s' -> Q (inr tt) s') -> post (notifyChanged d) s Q.
Proof.
  intros Hc HQ. unfold notifyChanged, notes in *. apply post_bind. unfold post at 1, sget. destruct (svHasNotifier s).
  - apply post_bind, log_post; [done|]. intros s1 H1 _. apply post_bind, post_try, call_post; [apply sl_notify|apply H1|].
    intros r s2 H2 _. apply post_ret, HQ. by eapply went_nil_r.
  - apply post_ret, HQ. by apply went_refl.
Qed.

(** *** Ingest *)

Definition releases (claim : option SourceIngestClaim) : list event :=
  match claim with Some c => [EReleasing c] | None => [] end.

(** What the write phase does. *)
Definition wrote (claim : option SourceIngestClaim) (s : Service W) (r : GoError + (ObjectDigest * bool * bool)) (cs : list event) : Prop :=
  match r with
  | inr (d, true, held) => held = false /\ cs = EWrote (Some d) :: releases claim ++ notes s d
  | inr (d, false, held) => held = true /\ cs = [EWrote None]
  | inl _ => cs = [] \/ cs = [EWrote None] \/ exists c d, claim = Some c /\ cs = EWrote (Some d) :: releases claim
  end.

Lemma went_notes cs s s' d : went cs s s' -> notes s' d = notes s d.
Proof. intros [_ _ Hn _ _]. unfold notes. by rewrite Hn. Qed.

Lemma afterWrite_post ref claim w s s1 : went [EWrote (answered w)] s s1 ->
  post (afterWrite ref claim w) s1 (fun r s' => exists cs, went cs s s' /\ wrote claim s r cs).
Proof.
  intros H1. pose proof (wt_cache _ _ _ H1) as Hc. destruct w as [e|d]; cbn [afterWrite].
  - apply post_bind. destruct ref as [ref|].
    + apply lookup_post; [done|]. intros [e'|[d|]] s2 H2; [|apply post_ret|]; exists [EWrote None];
        (split; [by eapply went_nil_r|]); cbn; auto.
    + apply post_ret. exists [EWrote None]. split; [done|]. cbn. auto.
  - unfold finishIngest. apply post_bind.
    assert (forall s2, went (releases claim) s1 s2 -> post (_ ← notifyChanged d; mret (d, true, false)) s2
      (fun r s' => exists cs, went cs s s' /\ wrote claim s r cs)) as Hn.
    { intros s2 H2. apply post_bind, notify_post; [apply H2|]. intros s3 H3. apply post_ret.
      exists (EWrote (Some d) :: releases claim ++ notes s d). split; [|done].
      rewrite (went_notes _ _ _ _ H2), (went_notes _ _ _ _ H1) in H3. apply (went_trans [EWrote (Some d)] _ s s1 s3); [done|by eapply went_trans]. }
    destruct claim as [c|].
    + apply release_post; [done|]. intros [e|[]] s2 H2; [|by apply Hn]. exists (EWrote (Some d) :: releases (Some c)).
      split; [by apply (went_trans [EWrote (Some d)] _ s s1 s2)|]. cbn. right. right. by exists c, d.
    + apply post_ret, Hn. by apply went_refl.
Qed.

Lemma writeIngest_post object prov ref claim s : cache_ok s ->
  post (writeIngest object prov ref claim) s (fun r s' => exists cs, went cs s s' /\ wrote claim s r cs).
Proof.
  intros Hc. unfold writeIngest.
  assert (forall m, calm m -> post (r ← stry (onWorld m); _ ← log (EWrote (answered r)); afterWrite ref claim r) s
    (fun r s' => exists cs, went cs s s' /\ wrote claim s r cs)) as Hw.
  { intros m Hm. apply post_bind, post_try, call_post; [done|done|]. intros r s1 H1 _. apply post_bind, log_post; [apply H1|].
    intros s2 H2 _. apply afterWrite_post. by eapply went_nil. }
  destruct (ioCompound object) as [c|]; [apply Hw, sl_putCompound|]. destruct (ioReader object); [apply Hw, sl_put|].
  exists []. split; [by apply went_refl|cbn; auto].
Qed.

(** The claim is given back whatever happened under it. *)
Lemma withClaim_post {A} claim (body : Svc (A * bool)) s (Q : GoError + A -> Service W -> Prop) :
  post body s (fun r s1 => cache_ok s1 /\ forall s2,
    match r with
    | inl e => went (releases claim) s1 s2 -> Q (inl e) s2
    | inr (a, true) => went (releases claim) s1 s2 -> Q (inr a) s2
    | inr (a, false) => went [] s1 s2 -> Q (inr a) s2
    end) -> post (withClaim claim body) s Q.
Proof.
  intros Hb. unfold withClaim. apply post_bind, post_try. eapply post_mono; [exact Hb|]. cbn beta. intros r s1 [Hc HQ]. apply post_bind.
  destruct claim as [c|], r as [e|[a []]]; cbn [releases] in HQ;
    first [ apply post_bind, post_try, release_post; [done|]; intros r s2 H2; apply post_ret; by apply HQ
          | apply post_ret; apply HQ; by apply went_refl ].
Qed.

(** What the scheduler hears: new objects only. *)
Definition created (r : GoError + (ObjectDigest * bool)) : Prop := exists d, r = inr (d, true).
Definition told (s : Service W) (r : GoError + (ObjectDigest * bool)) : list event :=
  match r with inr (d, true) => notes s d | _ => [] end.

(** Under a claim: at most one write, the claim's release, the notification.  A
    write that stored [d] makes the ingest return [d] as created, unless the claim
    could not be given back: then the release is tried again and the error
    returned. *)
Definition under_claim (s : Service W) (claim : SourceIngestClaim) (r : GoError + (ObjectDigest * bool)) (cs : list event) : Prop :=
  exists w k, cs = w ++ replicate (S k) (EReleasing claim) ++ told s r /\
    ((w = [] \/ w = [EWrote None]) /\ ~ created r \/
     exists d, w = [EWrote (Some d)] /\ (r = inr (d, true) /\ k = 0%nat \/ (exists e, r = inl e) /\ k = 1%nat)).

(** The calls of one ingest: without a reference at most the write; with one
    nothing, or a claim and what happens under it. *)
Definition ingest_calls (object : IngestObject) (s : Service W) (r : GoError + (ObjectDigest * bool)) (cs : list event) : Prop :=
  match sourceRef object with
  | inl _ => cs = [] /\ ~ created r
  | inr None => (cs = [] \/ cs = [EWrote None]) /\ ~ created r \/ exists d, r = inr (d, true) /\ cs = EWrote (Some d) :: told s r
  | inr (Some _) => (cs = [] /\ ~ created r) \/ exists claim cs', cs = EAcquired claim :: cs' /\ under_claim s claim r cs'
  end.

Lemma not_created_err e : ~ created (inl e).
Proof. by intros [d ?]. Qed.

Lemma not_created_found d : ~ created (inr (d, false)).
Proof. by intros [d' [=]]. Qed.

#[local] Hint Resolve not_created_err not_created_found : gm.

Lemma claimed_post object prov ref claim s : cache_ok s ->
  post (withClaim (Some claim) (ingestClaimed object prov ref claim)) s
    (fun r s' => exists cs, went cs s s' /\ under_claim s claim r cs).
Proof.
  intros Hc. apply withClaim_post. unfold ingestClaimed. apply post_bind, lookup_post; [done|]. intros r s1 H1.
  assert (forall cs s', went cs s1 s' -> went cs s s') as Hs by (intros cs s'; by apply went_nil). destruct r as [e|[d|]].
  - split; [apply H1|]. intros s2 H2. exists [EReleasing claim]. split; [auto|]. exists [], 0%nat. auto with gm.
  - apply post_bind, release_post; [apply H1|]. intros [e|[]] s2 H2.
    + split; [apply H2|]. intros s3 H3. exists [EReleasing claim; EReleasing claim].
      split; [apply Hs; by apply (went_trans [EReleasing claim] _ s1 s2 s3)|]. exists [], 1%nat. auto with gm.
    + apply post_ret. split; [apply H2|]. intros s3 H3. exists [EReleasing claim]. split; [apply Hs; by eapply went_nil_r|].
      exists [], 0%nat. auto with gm.
  - eapply post_mono; [apply writeIngest_post, H1|]. cbn beta. intros r s2 (cs & H2 & Hw). split; [apply H2|]. intros s3.
    assert (forall cs', went cs' s2 s3 -> went (cs ++ cs') s s3) as Hall by (intros cs' H3; apply Hs; by eapply went_trans).
    destruct r as [e|[[d []] held]]; cbn [wrote] in Hw.
    + intros H3. eexists. split; [by apply Hall|]. destruct Hw as [->|[->|(c & d & [= <-] & ->)]].
      * exists [], 0%nat. auto with gm.
      * exists [EWrote None], 0%nat. auto with gm.
      * exists [EWrote (Some d)], 1%nat. split; [done|]. right. exists d. split; [done|]. right. split; [by exists e|done].
    + destruct Hw as [-> ->]. intros H3. eexists. split; [by apply Hall|]. exists [EWrote (Some d)], 0%nat.
      split; [|right; exists d; auto]. cbn. by rewrite app_nil_r, (went_notes _ _ _ _ H1).
    + destruct Hw as [-> ->]. intros H3. eexists. split; [by apply Hall|]. exists [EWrote None], 0%nat. auto with gm.
Qed.

Lemma provenanceFor_post object s (Q : GoError + list Provenance -> Service W -> Prop) : cache_ok s ->
  (forall p s', went [] s s' -> Q (inr p) s') -> post (provenanceFor object) s Q.
Proof.
  intros Hc HQ. unfold provenanceFor. destruct (sourceRef object) as [|[ref|]]; [by apply post_ret, HQ, went_refl| |by apply post_ret, HQ, went_refl].
  apply post_bind. destruct (isZero _).
  - apply now_total_post; [done|]. intros t s1 H1. by apply post_ret, HQ.
  - apply post_ret, post_ret, HQ. by apply went_refl.
Qed.

Lemma Ingest_post object s : cache_ok s ->
  post (Ingest object) s (fun r s' => exists cs, went cs s s' /\ ingest_calls object s r cs).
Proof.
  intros Hc. unfold Ingest, ingest_calls. destruct (sourceRef object) as [e|[ref|]].
  - exists []. split; [by apply went_refl|]. auto with gm.
  - apply post_bind, provenanceFor_post; [done|]. intros prov s0 H0. apply post_bind, lookup_post; [apply H0|]. intros r s1 H1.
    assert (went [] s s1) as H01 by by eapply went_nil.
    destruct r as [e|[d|]]; [exists []; auto with gm|apply post_ret; exists []; auto with gm|].
    apply post_bind, call_post; [apply sl_acquire|apply H1|]. intros r s2 H2 _.
    assert (went [] s s2) as H02 by by eapply went_nil. destruct r as [e|[claim|]]; [exists []; auto with gm| |exists []; auto with gm].
    apply post_bind, log_post; [apply H02|]. intros s3 H3 _.
    eapply post_mono; [apply (claimed_post object prov ref claim), H3|]. cbn beta. intros r s4 (cs & H4 & Hu).
    exists (EAcquired claim :: cs). split; [eapply went_nil; [exact H02|]; by apply (went_trans [EAcquired claim] _ s2 s3 s4)|].
    right. exists claim, cs. split; [done|]. destruct Hu as (w & k & -> & Hw). exists w, k. split; [|done]. do 2 f_equal.
    destruct r as [e|[d []]]; cbn [told]; [done| |done].
    by rewrite (went_notes _ _ _ _ H3), (went_notes _ _ _ _ H02).
  - apply post_bind, provenanceFor_post; [done|]. intros prov s0 H0. apply withClaim_post.
    eapply post_mono; [apply writeIngest_post, H0|]. cbn beta. intros r s1 (cs & H1 & Hw). split; [apply H1|]. intros s2.
    assert (went [] s1 s2 -> went cs s s2) as Hall by (intros H2; eapply went_nil; [exact H0|]; by eapply went_nil_r).
    destruct r as [e|[[d []] held]]; cbn [wrote releases] in Hw.
    + intros H2. exists cs. split; [by apply Hall|]. destruct Hw as [->|[->|(c & d & [=] & _)]]; auto with gm.
    + destruct Hw as [-> ->]. intros H2. eexists. split; [by apply Hall|]. right. exists d. split; [done|]. cbn. by rewrite (went_notes _ _ _ _ H0).
    + destruct Hw as [-> ->]. intros H2. eexists. split; [by apply Hall|]. left. auto with gm.
Qed.

(** *** Backfill *)

(** The events of the backfill itself. *)
Definition backfillEvent (e : event) : bool :=
  match e with EPulled _ _ | EIngested _ | ECursor _ => true | _ => false end.
Definition visible (cs : list event) : list event := filter (fun e => backfillEvent e = true) cs.

Lemma visible_app a b : visible (a ++ b) = visible a ++ visible b.
Proof. apply filter_app. Qed.

Lemma visible_ingest object s r cs : ingest_calls object s r cs -> visible cs = [].
Proof.
  unfold ingest_calls, visible. assert (filter (fun e => backfillEvent e = true) (told s r) = []) as Ht.
  { unfold told, notes. destruct r as [e|[d []]]; [done| |done]. by destruct (svHasNotifier s). }
  assert (forall claim k, filter (fun e => backfillEvent e = true) (replicate k (EReleasing claim)) = []) as Hr.
  { intros claim. induction k as [|k IH]; [done|]. cbn [replicate]. by rewrite filter_cons_False. }
  destruct (sourceRef object) as [e|[ref|]]; [by intros [-> _]|intros [[-> _]|H]; [done|]|intros [[[-> | ->] _]|(d & -> & ->)]; [done|done|]].
  - destruct H as (claim & cs' & -> & w & k & -> & Hw). rewrite filter_cons_False, !filter_app, Hr, Ht by done.
    by destruct Hw as [[[-> | ->] _]|(d & -> & _)].
  - by rewrite filter_cons_False.
Qed.

(** An adapter pulls without writing cursors, and reports failure in its result. *)
Definition adapter_ok (adapter : Adapter W) : Prop := forall cursor n s, cache_ok s ->
  post (adPull adapter cursor n) s (fun r s' => (exists p, r = inr p) /\ exists cs, went cs s s' /\ visible cs = []).

(** [s] to [s'] with the visible events [vs]. *)
Definition saw (vs : list event) (s s' : Service W) : Prop := exists cs, went cs s s' /\ visible cs = vs.

Lemma saw_went cs s s' : went cs s s' -> saw (visible cs) s s'.
Proof. intros H. by exists cs. Qed.

Lemma saw_nil cs s s' : went cs s s' -> visible cs = [] -> saw [] s s'.
Proof. intros H Hv. by exists cs. Qed.

Lemma saw_trans a b s1 s2 s3 : saw a s1 s2 -> saw b s2 s3 -> saw (a ++ b) s1 s3.
Proof. intros (x & Hx & <-) (y & Hy & <-). exists (x ++ y). split; [by eapply went_trans|apply visible_app]. Qed.

Lemma saw_cache vs s s' : saw vs s s' -> cache_ok s'.
Proof. intros (cs & H & _). apply H. Qed.

Lemma saw_done vs s s' : saw vs s s' -> seDone (svWorld s) = true -> seDone (svWorld s') = true.
Proof. intros (cs & H & _). apply H. Qed.

(** Counters of a report: every attempt is counted once. *)
Definition counted (r : BackfillReport) (n : Z) : Prop :=
  brProcessed r = n /\ brCreated r + brSkipped r + brFailed r = n /\ 0 <= brFailed r /\
  Z.of_nat (length (brFailedMessageIDs r)) = brFailed r.

Lemma countIngest_counted r id o n : counted r n -> counted (countIngest r id o) (n + 1).
Proof.
  destruct r as [c ids p cr sk fl pg co]. unfold counted, countIngest. cbn. intros (-> & H & H0 & Hl).
  destruct o as [e|[d []]]; [destruct (isVar _ e)|..]; cbn; rewrite ?length_app; cbn; lia.
Qed.

(** A page: a prefix of its objects is ingested in order, the whole of it unless
    the run was cancelled. *)
Lemma page_post objects class s : cache_ok s ->
  post (ingestBackfillPage objects class) s (fun r s' => exists rep done rest, r = inr rep /\ objects = done ++ rest /\
    saw (map EIngested done) s s' /\ counted rep (Z.of_nat (length done)) /\
    (rest <> [] -> seDone (svWorld s') = true)).
Proof.
  intros Hc. unfold ingestBackfillPage. apply post_bind.
  eapply (post_sforM objects (noReport, true) _ s (fun past acc s' => exists ing rest, past = ing ++ rest /\
    saw (map EIngested ing) s s' /\ counted acc.1 (Z.of_nat (length ing)) /\
    (if acc.2 : bool then rest = [] else seDone (svWorld s') = true))).
  - exists [], []. split; [done|]. split; [apply (saw_nil []); [by apply went_refl|done]|]. split; [by split_and!|done].
  - intros past [rep go] o s1 _ (ing & rest & -> & Hs & Hn & Hg). unfold ingestPageObject. cbn [fst snd] in *. destruct go; cbn [negb].
    + subst rest. rewrite app_nil_r. apply post_bind, call_post; [apply sl_feed|by eapply saw_cache|]. intros [e|fed] s2 H2 Hf.
      { destruct (sl_feed_total (svWorld s1) e). by rewrite Hf. }
      assert (saw (map EIngested ing) s s2) as Hs2 by (rewrite <- (app_nil_r (map _ _)); eapply saw_trans; [done|by eapply saw_nil]).
      destruct fed; cbn [negb].
      * apply post_bind, post_try. eapply post_mono; [apply Ingest_post; by eapply saw_cache|]. cbn beta. intros r s3 (cs & H3 & Hi).
        apply post_bind, log_post; [apply H3|]. intros s4 H4 _. apply post_ret. exists (ing ++ [o]), [].
        split; [by rewrite app_nil_r|]. split; [|split; [|done]].
        -- rewrite map_app. eapply saw_trans; [exact Hs2|]. apply (saw_trans [] [EIngested o] s2 s3 s4).
           ++ eapply saw_nil; [done|]. by eapply visible_ingest.
           ++ by apply (saw_went [EIngested o]).
        -- cbn [fst]. rewrite length_app. cbn [length]. replace (Z.of_nat (length ing + 1)) with (Z.of_nat (length ing) + 1) by lia.
           by apply countIngest_counted.
      * apply post_ret. exists ing, [o]. split; [done|]. split; [done|]. split; [done|]. cbn.
        pose proof (sl_feed_done (svWorld s1)) as Hfd. rewrite Hf in Hfd. by apply Hfd.
    + apply post_ret. exists ing, (rest ++ [o]). by rewrite app_assoc.
  - intros [rep go] s1 (ing & rest & -> & Hs & Hn & Hg). apply post_ret. exists rep, ing, rest. split; [done|].
    split; [done|]. split; [done|]. split; [done|]. cbn in Hg. intros Hr. by destruct go.
Qed.

(** The cursor [c] has the map [m] at the place [key] names. *)
Definition cursor_at (key : string) (m : anyMap) (c : SourceCursor) : Prop :=
  if bool_decide (key = EmptyString) then scCursor c = m else scCursor c !! key = Some (AMap (map_to_list m)).

Lemma WriteCursor_post adapter cursor s (Q : GoError + unit -> Service W -> Prop) : cache_ok s ->
  (forall e s', saw [] s s' -> Q (inl e) s') ->
  (forall c s', saw [ECursor c] s s' -> scCursor c = scCursor cursor -> seDone (svWorld s) = false -> Q (inr tt) s') ->
  post (WriteCursor adapter cursor) s Q.
Proof.
  intros Hc He HQ. unfold WriteCursor. apply post_bind.
  assert (forall t s1, saw [] s s1 -> post (onWorld (fcWriteSourceCursor (fillCursor adapter t cursor)) ≫= fun _ =>
    log (ECursor (fillCursor adapter t cursor))) s1 Q) as Hw.
  { intros t s1 H1. apply post_bind, call_post; [apply sl_writeCursor|by eapply saw_cache|]. intros [e|[]] s2 H2 Hr.
    - apply He. apply (saw_trans [] [] s s1 s2); [done|by eapply saw_nil].
    - apply log_post; [apply H2|]. intros s3 H3 _. apply (HQ (fillCursor adapter t cursor)); [|done|].
      + apply (saw_trans [] [_] s s1 s3); [done|]. eapply (saw_trans [] [_] s1 s2 s3); [by eapply saw_nil|]. exact (saw_went _ _ _ H3).
      + destruct (seDone (svWorld s)) eqn:Hd; [|done]. eapply saw_done in Hd; [|exact H1].
        destruct (sl_cursor_done (fillCursor adapter t cursor) (svWorld s1) Hd). by rewrite Hr. }
  destruct (isZero _).
  - apply now_total_post; [done|]. intros t s1 H1. apply Hw. by eapply saw_nil.
  - apply post_ret, Hw. apply (saw_nil []); [by apply went_refl|done].
Qed.

Lemma updated_at_ne key : key +:+ "_updated_at" <> key.
Proof. induction key as [|c key IH]; [done|]. intros H. apply IH. by injection H. Qed.

Lemma writeCursor_post adapter stored next key s (Q : GoError + unit -> Service W -> Prop) : cache_ok s ->
  (forall e s', saw [] s s' -> Q (inl e) s') ->
  (forall c s', saw [ECursor c] s s' -> cursor_at key (scCursor next) c -> seDone (svWorld s) = false -> Q (inr tt) s') ->
  post (writeBackfillCursor adapter stored next key) s Q.
Proof.
  intros Hc He HQ. unfold writeBackfillCursor, cursor_at in *. destruct (bool_decide (key = EmptyString)) eqn:Hk.
  - apply WriteCursor_post; [done|done|]. eauto.
  - apply post_bind. unfold ReadCursor. apply call_post; [apply sl_readCursor|done|]. intros r s1 H1 _.
    assert (saw [] s s1) as Hs1 by by eapply saw_nil. destruct r as [e|latest]; [by apply He|].
    apply post_bind, now_total_post; [apply H1|]. intros t s2 H2. assert (saw [] s s2) as Hs2.
    { apply (saw_trans [] [] s s1 s2); [done|by eapply saw_nil]. }
    apply WriteCursor_post; [by eapply saw_cache|..].
    + intros e s3 H3. apply He. by apply (saw_trans [] [] s s2 s3).
    + intros c s3 H3 Hm Hd. eapply HQ; [by apply (saw_trans [] [ECursor c] s s2 s3)|..].
      * rewrite Hm. cbn. rewrite lookup_insert_ne by apply updated_at_ne. by rewrite lookup_insert_eq.
      * destruct (seDone (svWorld s)) eqn:Hds; [|done]. eapply saw_done in Hds; [|exact Hs2]. congruence.
Qed.

(** The visible events of a run that starts at cursor [m], and the number of
    objects that went through [Ingest]: pages pulled at the cursor that was
    written last, each followed by its cursor once all of its objects were
    ingested; at the end a cursor without a page, or a page that was cut short. *)
Inductive backfill_run (key : string) : anyMap -> Z -> list event -> Prop :=
  | run_end m : backfill_run key m 0 []
  | run_cursor m c : backfill_run key m 0 [ECursor c]
  | run_cut m ing rest : backfill_run key m (Z.of_nat (length ing)) (EPulled m (ing ++ rest) :: map EIngested ing)
  | run_page m m' c objects n vs : cursor_at key m' c -> backfill_run key m' n vs ->
      backfill_run key m (Z.of_nat (length objects) + n) (EPulled m objects :: map EIngested objects ++ ECursor c :: vs).

Lemma counted_final r n c b : counted r n -> counted (withFinal c b r) n.
Proof. done. Qed.

Lemma counted_add r p n k : counted r n -> counted p k -> counted (addPage r p) (n + k).
Proof. unfold counted. cbn. rewrite length_app. lia. Qed.

(** One iteration. *)
Definition page_outcome (key : string) (m : anyMap) (report : BackfillReport) (n : Z) (e : pageEnd) (vs : list event) : Prop :=
  match e with
  | Return r err => exists k, counted r (n + k) /\ backfill_run key m k vs /\ (err = None -> brCompleted r = true)
  | Continue r m' => exists objects c, vs = EPulled m objects :: map EIngested objects ++ [ECursor c] /\ cursor_at key m' c /\
      counted r (n + Z.of_nat (length objects)) /\ brPages r = brPages report + 1
  end.

Lemma backfillPage_post adapter request stored size report m n s : adapter_ok adapter -> cache_ok s -> counted report n ->
  post (backfillPage adapter request stored size report m) s (fun e s' => exists vs e', e = inr e' /\ saw vs s s' /\
    page_outcome (bqCursorKey request) m report n e' vs).
Proof.
  intros Ha Hc Hn. unfold backfillPage. apply post_bind. eapply post_mono; [by apply Ha|]. cbn beta.
  intros r s1 ([[[objects next] err] ->] & cs & H1 & Hv). assert (saw [] s s1) as Hs1 by by eapply saw_nil.
  assert (forall vs s', saw vs s1 s' -> saw vs s s') as Hfrom by (intros vs s'; by apply (saw_trans [])).
  destruct err as [e|].
  - set (rep := withFinal next (brCompleted report) report). apply post_bind.
    assert (forall vs s', saw vs s s' -> backfill_run (bqCursorKey request) m 0 vs -> exists vs e', (inr (Return rep (Some e)) : GoError + pageEnd) = inr e' /\
      saw vs s s' /\ page_outcome (bqCursorKey request) m report n e' vs) as Hend.
    { intros vs s' Hs Hr. exists vs, (Return rep (Some e)). split; [done|]. split; [done|]. exists 0. rewrite Z.add_0_r. done. }
    destruct (_ && _).
    + apply post_bind, post_try, writeCursor_post; [apply H1|..].
      * intros e' s2 H2. apply post_ret, post_ret. eapply Hend; [by apply Hfrom|constructor].
      * intros c s2 H2 _ _. apply post_ret, post_ret. eapply Hend; [by apply Hfrom|constructor].
    + apply post_ret, post_ret. eapply Hend; [done|constructor].
  - destruct (_ && _); unfold returnAfter.
    + apply post_bind, post_try, writeCursor_post; [apply H1|..].
      * intros e s2 H2. apply post_ret. exists [], (Return (withFinal next true report) (Some e)). split; [done|]. split; [auto|].
        exists 0. rewrite Z.add_0_r. split; [done|]. split; [constructor|done].
      * intros c s2 H2 _ _. apply post_ret. exists [ECursor c], (Return (withFinal next true report) None). split; [done|]. split; [auto|].
        exists 0. rewrite Z.add_0_r. split; [done|]. split; [constructor|done].
    + apply post_bind, log_post; [apply H1|]. intros s2 H2 _. assert (saw [EPulled m objects] s s2) as Hs2 by (apply Hfrom; exact (saw_went _ _ _ H2)).
      apply post_bind. eapply post_mono; [apply page_post; by eapply saw_cache|]. cbn beta.
      intros r s3 (rep & ing & rest & -> & -> & H3 & Hcnt & Hdone). pose proof (saw_trans _ _ _ _ _ Hs2 H3) as Hs3.
      assert (counted (addPage report rep) (n + Z.of_nat (length ing))) as Hadd by by apply counted_add.
      apply post_bind, post_try, writeCursor_post; [by eapply saw_cache|..].
      * intros e s4 H4. apply post_ret. eexists _, _. split; [done|]. split; [by eapply saw_trans|]. rewrite app_nil_r.
        exists (Z.of_nat (length ing)). split; [done|]. split; [constructor|done].
      * intros c s4 H4 Hat Hnd. destruct rest as [|o rest]; [|by rewrite Hdone in Hnd]. rewrite app_nil_r in Hs3.
        apply post_ret. eexists _, _. split; [done|]. split; [by eapply saw_trans|]. rewrite <- app_comm_cons.
        assert (backfill_run (bqCursorKey request) m (Z.of_nat (length ing)) (EPulled m ing :: map EIngested ing ++ [ECursor c])) as Hbr.
        { rewrite <- (Z.add_0_r (Z.of_nat (length ing))). econstructor; [exact Hat|constructor]. }
        destruct (0 <? brFailed rep); [by exists (Z.of_nat (length ing))|].
        destruct (brCompleted _) eqn:Hcp; [by exists (Z.of_nat (length ing))|]. by exists ing, c.
Qed.

Lemma await_post fuel s (Q : GoError + option unit -> Service W -> Prop) : cache_ok s ->
  (forall r s', saw [] s s' -> (svHasPressure s = false -> r = inr (Some tt)) -> Q r s') -> post (awaitPressureRelief fuel) s Q.
Proof.
  revert s Q. induction fuel as [|fuel IH]; intros s Q Hc HQ; cbn [awaitPressureRelief].
  all: apply post_bind; unfold post at 1, sget; destruct (svHasPressure s) eqn:Hp; cbn [negb];
    [|apply post_ret, HQ; [apply (saw_nil []); [by apply went_refl|done]|done]];
    apply post_bind, post_try, call_post; [apply sl_pressured|done|]; intros r s1 H1 _;
    assert (saw [] s s1) as Hs1 by (by eapply saw_nil); destruct r as [e|[]]; try (apply post_ret, HQ; congruence).
  apply post_bind, call_post; [apply sl_wait|apply H1|]. intros [e|[]] s2 H2 _.
  - apply HQ; [apply (saw_trans [] [] s s1 s2); [done|by eapply saw_nil]|congruence].
  - apply IH; [apply H2|]. intros r s3 H3 _. apply HQ; [|congruence]. apply (saw_trans [] [] s s1 s3); [done|].
    apply (saw_trans [] [] s1 s2 s3); [by eapply saw_nil|done].
Qed.

(** How a run may end: with all of its events accounted for. *)
Definition run_outcome (key : string) (m : anyMap) (maxPages : Z) (report0 : BackfillReport) (n : Z)
    (r : option (BackfillReport * option GoError)) (vs : list event) : Prop :=
  exists k, backfill_run key m k vs /\
    forall report err, r = Some (report, err) -> counted report (n + k) /\
      (err = None -> brCompleted report = true \/ MaxPagesNotReached report maxPages = false).

Lemma loop_post fuel adapter request stored size report m n s : adapter_ok adapter -> cache_ok s -> counted report n ->
  post (backfillLoop fuel adapter request stored size report m) s (fun r s' => exists vs r', r = inr r' /\ saw vs s s' /\
    run_outcome (bqCursorKey request) m (bqMaxPages request) report n r' vs).
Proof.
  intros Ha. revert report m n s. induction fuel as [|fuel IH]; intros report m n s Hc Hn; cbn [backfillLoop].
  all: assert (saw [] s s) as Hs0 by (apply (saw_nil []); [by apply went_refl|done]).
  all: assert (forall s' r, saw [] s s' -> (forall rep err, r = Some (rep, err) -> rep = report /\ (err = None -> MaxPagesNotReached rep (bqMaxPages request) = false)) ->
    exists vs r', (inr r : GoError + _) = inr r' /\ saw vs s s' /\ run_outcome (bqCursorKey request) m (bqMaxPages request) report n r' vs) as Hstop
    by (intros s' r Hs' Hr; exists [], r; split; [done|]; split; [done|]; exists 0; split; [constructor|];
        intros rep err Heq; destruct (Hr rep err Heq) as [-> Hm]; rewrite Z.add_0_r; auto).
  all: destruct (MaxPagesNotReached report (bqMaxPages request)) eqn:Hm; cbn [negb];
    [|apply post_ret, Hstop; [done|]; intros ? ? [= <- <-]; auto].
  - apply post_ret, Hstop; [done|]. done.
  - apply post_bind, post_try.
    assert (forall s1, saw [] s s1 -> post (e ← backfillPage adapter request stored size report m;
      match e with Return report err => mret (Some (report, err))
      | Continue report cursor => backfillLoop fuel adapter request stored size report cursor end) s1
      (fun r s' => exists vs r', r = inr r' /\ saw vs s s' /\ run_outcome (bqCursorKey request) m (bqMaxPages request) report n r' vs)) as Hpage.
    { intros s1 H1. apply post_bind. eapply post_mono; [apply (backfillPage_post adapter request stored size report m n); [done|by eapply saw_cache|done]|].
      cbn beta. intros r s2 (vs & e & -> & H2 & Ho). assert (saw vs s s2) as H02 by by apply (saw_trans [] vs s s1 s2).
      destruct e as [rep err|rep m']; cbn [page_outcome] in Ho.
      - apply post_ret. destruct Ho as (k & Hk & Hr & He). exists vs, (Some (rep, err)). split; [done|]. split; [done|]. exists k.
        split; [done|]. intros ? ? [= <- <-]. auto.
      - destruct Ho as (objects & c & -> & Hat & Hk & _). eapply post_mono; [apply (IH rep m' (n + Z.of_nat (length objects))); [by eapply saw_cache|done]|].
        cbn beta. intros r s3 (vs & r' & -> & H3 & k & Hr & Hend). eexists _, r'. split; [done|]. split; [by eapply saw_trans|].
        exists (Z.of_nat (length objects) + k). split; [cbn [app]; rewrite <- app_assoc; by econstructor|]. intros rep' err Heq.
        rewrite Z.add_assoc. by apply Hend. }
    destruct (bool_decide _).
    + apply await_post; [done|]. intros [e|[[]|]] s1 H1 _; [apply post_ret, Hstop; [done|]; by intros ? ? [= <- <-]|by apply Hpage|by apply post_ret, Hstop].
    + apply post_ret. by apply Hpage.
Qed.

(** Without a throttle, [fuel] pages are enough for [fuel] pages. *)
Lemma loop_total fuel adapter request stored size report m n s : adapter_ok adapter -> cache_ok s -> counted report n ->
  bqPriorityClass request <> PriorityBackground -> 0 < bqMaxPages request -> bqMaxPages request <= brPages report + Z.of_nat fuel ->
  post (backfillLoop fuel adapter request stored size report m) s (fun r _ => exists out, r = inr (Some out)).
Proof.
  intros Ha Hc Hn Hp Hmax Hle. revert report m n s Hc Hn Hle. induction fuel as [|fuel IH]; intros report m n s Hc Hn Hle; cbn [backfillLoop].
  all: destruct (MaxPagesNotReached report (bqMaxPages request)) eqn:Hm; cbn [negb]; [|apply post_ret; by eexists].
  - unfold MaxPagesNotReached in Hm. apply orb_true_iff in Hm as [?%Z.leb_le|?%Z.ltb_lt]; lia.
  - rewrite (bool_decide_false (bqPriorityClass request = _)) by done. apply post_bind, post_try, post_ret, post_bind.
    eapply post_mono; [by apply (backfillPage_post adapter request stored size report m n)|].
    cbn beta. intros r s2 (vs & e & -> & H2 & Ho). destruct e as [rep err|rep m']; [apply post_ret; by eexists|].
    destruct Ho as (objects & c & _ & _ & Hk & Hpg). eapply IH; [by eapply saw_cache|done|lia].
Qed.

(** A whole run: it starts at the request's cursor or at the stored one. *)
Definition backfill_outcome (request : BackfillRequest) (r : option (BackfillReport * option GoError)) (vs : list event) : Prop :=
  exists stored, (bqCursorKey request = EmptyString -> stored = None) /\
    run_outcome (bqCursorKey request) (startCursor request stored) (bqMaxPages request) noReport 0 r vs.

Lemma outcome_stop request rep err : counted rep 0 -> (err = None -> brCompleted rep = true) ->
  backfill_outcome request (Some (rep, err)) [].
Proof.
  intros Hr He. exists None. split; [done|]. exists 0. split; [constructor|]. intros ? ? [= <- <-]. auto.
Qed.

Lemma from_post fuel adapter request stored s : adapter_ok adapter -> cache_ok s -> (bqCursorKey request = EmptyString -> stored = None) ->
  post (backfillFrom fuel adapter request stored) s (fun r s' => exists vs r', r = inr r' /\ saw vs s s' /\ backfill_outcome request r' vs).
Proof.
  intros Ha Hc Hk. unfold backfillFrom. destruct (boolCursorValue (startCursor request stored) "completed").
  - apply post_bind, now_total_post; [done|]. intros t s2 H2. assert (saw [] s s2) as Hs2 by by eapply saw_nil.
    apply post_bind. destruct (bool_decide _).
    + apply post_ret, post_ret. eexists [], _. split; [done|]. split; [done|]. by apply outcome_stop.
    + apply post_bind, now_total_post; [apply H2|]. intros t' s3 H3. apply post_ret, post_ret. eexists [], _. split; [done|].
      split; [apply (saw_trans [] [] s s2 s3); [done|by eapply saw_nil]|]. by apply outcome_stop.
  - eapply post_mono; [by apply (loop_post fuel adapter request _ _ noReport _ 0)|]. cbn beta.
    intros r s2 (vs & r' & -> & H2 & Ho). exists vs, r'. split; [done|]. split; [done|]. by exists stored.
Qed.

Lemma run_post fuel adapter request s : adapter_ok adapter -> cache_ok s ->
  post (RunBackfill fuel adapter request) s (fun r s' => exists vs r', r = inr r' /\ saw vs s s' /\ backfill_outcome request r' vs).
Proof.
  intros Ha Hc. unfold RunBackfill. assert (saw [] s s) as Hs0 by (apply (saw_nil []); [by apply went_refl|done]).
  destruct (hasCapability _ _); cbn [negb]; [|apply post_ret; eexists [], _; split; [done|]; split; [done|]; by apply outcome_stop].
  apply post_bind. destruct (bool_decide _) eqn:Hk; [apply post_ret; by apply from_post|]. apply bool_decide_eq_false in Hk.
  apply post_try. unfold ReadCursor. apply call_post; [apply sl_readCursor|done|]. intros [e|stored] s1 H1 _.
  - apply post_ret. eexists [], _. split; [done|]. split; [by eapply saw_nil|]. by apply outcome_stop.
  - eapply post_mono; [by apply (from_post fuel adapter request stored s1); [|apply H1|]|]. cbn beta.
    intros r s2 (vs & r' & -> & H2 & Ho). exists vs, r'. split; [done|]. split; [|done].
    apply (saw_trans [] vs s s1 s2); [by eapply saw_nil|done].
Qed.

End proofs.

(** ** Main properties *)

(** The value of a run that does not panic. *)
Definition outcome {A} (r : res A) : option (GoError + A) :=
  match r with Ok a => Some (inr a) | Err e => Some (inl e) | Panic => None end.


(** A backfill never moves its cursor past an object it has not tried, and
    its counters add up.  Whatever the adapter pulls, FILESTORE answers and the
    scheduler says, [RunBackfill] does not panic; a cursor is written after a
    page only when every object of the page went through [Ingest], and the next
    page is pulled from exactly that cursor; the report counts every attempt once,
    as created, skipped or failed; it returns without an error only when the
    source is exhausted or the page limit reached.  Without a throttle, a run
    with a page limit ends. *)
Theorem backfill_accounts {W} `{!FilestoreClient W, !SourceEnv W, !SourceLaws W} (fuel : nat) (adapter : Adapter W)
    (request : BackfillRequest) (s : Service W) :
  adapter_ok adapter -> cache_ok s ->
  exists r s' cs, RunBackfill fuel adapter request s = (Ok r, s') /\ cache_ok s' /\ svTrace s' = svTrace s ++ cs /\
    backfill_outcome request r (visible cs) /\
    (bqPriorityClass request <> PriorityBackground -> 0 < bqMaxPages request <= Z.of_nat fuel -> is_Some r).
Proof.
  intros Ha Hc. pose proof (run_post fuel adapter request s Ha Hc) as H.
  assert (bqPriorityClass request <> PriorityBackground -> 0 < bqMaxPages request <= Z.of_nat fuel ->
    post (RunBackfill fuel adapter request) s (fun r _ => exists out, r = inr (Some out))) as Ht.
  { intros Hp Hm. unfold RunBackfill. destruct (hasCapability _ _); cbn [negb]; [|apply post_ret; by eexists]. apply post_bind.
    assert (forall stored s1, cache_ok s1 -> post (backfillFrom fuel adapter request stored) s1 (fun r _ => exists out, r = inr (Some out))) as Hf.
    { intros stored s1 H1. unfold backfillFrom. destruct (boolCursorValue _ _).
      - apply post_bind, now_total_post; [done|]. intros t s2 H2. apply post_bind. destruct (bool_decide _).
        + apply post_ret, post_ret. by eexists.
        + apply post_bind, now_total_post; [apply H2|]. intros. apply post_ret, post_ret. by eexists.
      - apply (loop_total _ _ _ _ _ _ _ 0); try done; cbn; lia. }
    destruct (bool_decide _); [apply post_ret; by apply Hf|]. apply post_try. unfold ReadCursor.
    apply call_post; [apply sl_readCursor|done|]. intros [e|stored] s1 H1 _; [apply post_ret; by eexists|]. apply Hf, H1. }
  unfold post in H, Ht. destruct (RunBackfill fuel adapter request s) as [[r|e|] s']; [|by destruct H as (? & ? & ? & _)|done].
  destruct H as (vs & r' & [= <-] & (cs & [Htr Hc' _ _ _] & <-) & Ho). exists r, s', cs. split_and!; try done.
  intros Hp Hm. destruct (Ht Hp Hm) as [out [= ->]]. done.
Qed.

(** ** A concrete world *)

(** Digests by reference, the external ids whose writes fail, the stored cursor. *)
Record Toy := MkToy { tyObjects : gmap string ObjectDigest; tyFailing : list string; tyCursor : option SourceCursor }.

#[local] Instance toyClient : FilestoreClient Toy := {|
  fcLookupSourceObject ref := fun w => (Ok (tyObjects w !! rExternalID ref), w);
  fcTryAcquireSourceIngest ref := fun w => (Ok (Some (MkClaim 0 ref "claim")), w);
  fcReleaseSourceIngest _ := fun w => (Ok tt, w);
  fcPut r := fun w => let id := default "" (pExternalID <$> head (prProvenance (rpPut r))) in
    if bool_decide (id ∈ tyFailing w) then (Err (ErrMsg "put"), w)
    else (Ok id, MkToy (<[id := id]> (tyObjects w)) (tyFailing w) (tyCursor w));
  fcPutCompound _ := fun w => (Err (ErrMsg "put"), w);
  fcReadManifest _ := fun w => (Err ErrNotExist, w);
  fcWriteSourceCursor c := fun w => (Ok tt, MkToy (tyObjects w) (tyFailing w) (Some c));
  fcReadSourceCursor _ := fun w => (Ok (tyCursor w), w) |}.

#[local] Instance toyEnv : SourceEnv Toy := {|
  seNow := fun w => (Ok 7, w); seFormatTime _ := "t"; seNotify _ := fun w => (Ok tt, w);
  sePressured := fun w => (Ok false, w); seWait := fun w => (Ok tt, w); seDone _ := false;
  seFeed := fun w => (Ok true, w) |}.

#[local] Instance toyLaws : SourceLaws Toy.
Proof. split; intros; try done; intros w; try done. cbn. by case_bool_decide. Qed.

Definition toyObject (id : string) : IngestObject :=
  MkIngest 5 (Some (MkReader [] [])) None "text/plain" "kind" "name" id "" "" "" [] [] [] [].

(** Two pages: "a" and "b", then "c". *)
Definition toyAdapter : Adapter Toy := MkAdapter "kind" "name" ["backfill"] (fun cursor _ => mret
  (if intFromAny (cursor !! "page") =? 0
   then ([toyObject "a"; toyObject "b"], MkCursor 6 {["page" := AInt 1]} "kind" "name" 1, None)
   else ([toyObject "c"], MkCursor 6 (<["completed" := ABool true]> {["page" := AInt 2]}) "kind" "name" 1, None))).

Lemma toyAdapter_ok : adapter_ok toyAdapter.
Proof. intros cursor n s Hc. apply post_ret. split; [by eexists|]. exists []. split; [by apply went_refl|done]. Qed.

Definition toyRequest : BackfillRequest := MkBackfill ∅ PriorityFreshIngest "backfill" 10 10 true.

Definition toyService (failing : list string) (cursor : option SourceCursor) : Service Toy :=
  NewService (MkToy ∅ failing cursor) true false.


(** Releasing a claim fails. *)
Definition stuckClient : FilestoreClient Toy := {|
  fcLookupSourceObject := fcLookupSourceObject (FilestoreClient := toyClient);
  fcTryAcquireSourceIngest := fcTryAcquireSourceIngest (FilestoreClient := toyClient);
  fcReleaseSourceIngest _ := fun w => (Err (ErrMsg "release"), w);
  fcPut := fcPut (FilestoreClient := toyClient); fcPutCompound := fcPutCompound (FilestoreClient := toyClient);
  fcReadManifest := fcReadManifest (FilestoreClient := toyClient);
  fcWriteSourceCursor := fcWriteSourceCursor (FilestoreClient := toyClient);
  fcReadSourceCursor := fcReadSourceCursor (FilestoreClient := toyClient) |}.

(** A stored object can go unannounced: the write has succeeded, giving the claim
    back fails, and [Ingest] returns that error without telling the scheduler.  A
    second ingest finds the object and does not tell it either. *)
Theorem stored_but_untold :
  let first := Ingest (FilestoreClient0 := stuckClient) (toyObject "a") (toyService [] None) in
  let second := Ingest (FilestoreClient0 := stuckClient) (toyObject "a") first.2 in
  first.1 = Err (ErrMsg "release") /\ is_Some (tyObjects (svWorld first.2) !! "a") /\
  (exists d, second.1 = Ok (d, false)) /\ forall d, ENotified d ∉ svTrace second.2.
Proof.
  cbv zeta. split; [vm_compute; reflexivity|]. split; [vm_compute; by eexists|]. split; [vm_compute; by eexists|].
  intros d. vm_compute. intros Hd. repeat (apply elem_of_cons in Hd as [Hd|Hd]; [discriminate Hd|]). by apply elem_of_nil in Hd.
Qed.

Lemma backfill_accounts_witness :
  exists r s' cs, RunBackfill 10 toyAdapter toyRequest (toyService [] None) = (Ok r, s') /\ cache_ok s' /\ svTrace s' = cs /\
    backfill_outcome toyRequest r (visible cs) /\
    (bqPriorityClass toyRequest <> PriorityBackground -> 0 < bqMaxPages toyRequest <= Z.of_nat 10 -> is_Some r).
Proof. apply (backfill_accounts 10 toyAdapter toyRequest (toyService [] None)); [apply toyAdapter_ok|apply New_entries]. Defined.

(** The objects that went through [Ingest] with an error. *)
Definition report_of (s : Service Toy) : option (Z * Z * bool * option GoError) :=
  match (RunBackfill 10 toyAdapter toyRequest s).1 with
  | Ok (Some (r, err)) => Some (brProcessed r, brFailed r, brCompleted r, err)
  | _ => None
  end.

(** A message that could not be stored is never tried again.  Object "b" fails on
    the first page: the run returns an error, but the cursor it has written is
    the second page's.  The next run, with the failure gone, resumes there and
    completes without an error; "b" is not in the store. *)
Theorem backfill_forgets_failed :
  let s1 := (RunBackfill 10 toyAdapter toyRequest (toyService ["b"] None)).2 in
  let s2 := toyService [] (tyCursor (svWorld s1)) in
  report_of (toyService ["b"] None) = Some (2, 1, false, Some (ErrMsg "source backfill failed")) /\
  report_of s2 = Some (1, 0, true, None) /\
  tyObjects (svWorld (RunBackfill 10 toyAdapter toyRequest s2).2) !! "b" = None.
Proof. vm_compute. done. Qed.

End Source.
