(* ===== verification/MailMessage.v ===== *)
(** * Mail messages: [facets/mailmessage/mailmessage.go]

    What the importers read from a raw message: its body, its attachments, its
    identifiers and the people it names.  Go's parsers of mail, MIME and
    addresses, its Unicode case tables and SHA-256 are the class [MimeLib]; a
    reader is the bytes it gives and the error it ends with. *)

From stdpp Require Import options.
From S2P Require Import Prelude GoLib GoText Contracts Meta Jobs GoPath Mbox Manifest.

Local Open Scope Z_scope.

Module Mail.

(** ** Structs and constants *)

Definition MediaType : string := "application/vnd.gmeow.mail-message+json".
Definition MailGeneratedMessageIDHost : string := "gmeow.local".
Definition AnalysisScopeCanonical : string := "canonical".

Record Attachment := MkAttachment { atID : string; atFileName : string; atMediaType : string; atContent : string }.

Record Message := MkMessage {
  mgHeaders : gmap string string; mgSubject : string; mgBodyMediaType : string; mgMessageID : string;
  mgFingerprint : string; mgBodyLineHash : string; mgDate : string; mgFrom : string; mgTo : string;
  mgBody : string; mgAttachments : list Attachment; mgRaw : string; mgGeneratedMessage : bool }.

Record Participant := MkParticipant {
  paRole : string; paDisplayName : string; paAddress : string; paRawValue : string; paOrdinal : Z }.

(** [mail.Header], by canonical key; [mail.Address]. *)
Abbreviation Header := (gmap string (list string)).

Record Address := MkAddress { adrName : string; adrAddress : string }.

(** ** The standard library *)

Class MimeLib := {
  (** [mail.ReadMessage]: the header and the rest. *)
  mlReadMessage : string -> GoError + (Header * string);
  (** [mime.ParseMediaType]: the type and the parameters, also next to an error. *)
  mlParseMediaType : string -> string * gmap string string * option GoError;
  (** The parts [multipart.Reader.NextPart] hands out, and the error other than
      [io.EOF] it ends with. *)
  mlParts : mfile -> string -> list (Header * mfile) * option GoError;
  (** [io.ReadAll] of a base64 and of a quoted-printable decoder. *)
  mlBase64 : mfile -> GoError + string;
  mlQuotedPrintable : mfile -> GoError + string;
  (** [strings.ToLower]; [hex.EncodeToString] of [sha256.Sum256]. *)
  mlToLower : string -> string;
  mlSha256 : string -> string;
  mlParseAddressList : string -> GoError + list Address;
  mlParseAddress : string -> GoError + Address;
  mlAddressString : Address -> string;
  (** The order in which [range] visits a header. *)
  mlVisit : list (string * list string) -> list (string * list string) }.

(** A part lies between two boundary lines of the body it is read from. *)
Class MimeLaws `{!MimeLib} : Prop :=
  ml_parts_shorter : forall body boundary h p, (h, p) ∈ (mlParts body boundary).1 ->
    (String.length (mfBytes p) < String.length (mfBytes body))%nat.

(** ** Text *)

(** [strings.Fields]: the runs of bytes between white space. *)
Fixpoint fieldsLoop (fuel : nat) (s cur : list Ascii.ascii) : list (list Ascii.ascii) :=
  let flush := match cur with [] => [] | _ => [cur] end in
  match fuel, s with
  | S f, c :: r =>
      match stripAny spaceEncodings s with
      | Some r' => flush ++ fieldsLoop f r' []
      | None => fieldsLoop f r (cur ++ [c])
      end
  | _, _ => flush
  end.

Definition Fields (s : string) : list string :=
  map bytes_str (fieldsLoop (String.length s) (str_bytes s) []).

Definition collapseWhitespace (value : string) : string := joinWith (Ascii.ascii_of_N 32) (Fields value).

Definition firstNonEmpty (values : list string) : string :=
  default EmptyString (List.find (fun v => negb (blank v)) values).

(** [strings.ReplaceAll(s, "\r\n", "\n")]. *)
Fixpoint replaceCRLF (s : string) : string :=
  match s with
  | String a (String b r as r') =>
      if Ascii.eqb a carriageReturn && Ascii.eqb b newline then String newline (replaceCRLF r) else String a (replaceCRLF r')
  | _ => s
  end.

(** [strings.Trim(s, "<>")]. *)
Definition angle (c : Ascii.ascii) : bool := Ascii.eqb c (Ascii.ascii_of_N 60) || Ascii.eqb c (Ascii.ascii_of_N 62).

Fixpoint dropAngles (s : list Ascii.ascii) : list Ascii.ascii :=
  match s with c :: r => if angle c then dropAngles r else s | [] => [] end.

Definition TrimAngles (s : string) : string := bytes_str (rev (dropAngles (rev (dropAngles (str_bytes s))))).

(** [header.Get(key)] for a canonical key. *)
Definition Get (h : Header) (key : string) : string :=
  match h !! key with Some (v :: _) => v | _ => "" end.

Section mail.
Context {mlib : MimeLib}.

(** ** Identity *)

Definition NormalizeMessageID (value : string) : string :=
  let trimmed := TrimSpace value in
  if bool_decide (trimmed = "") then "" else
  let trimmed := TrimAngles trimmed in
  if bool_decide (trimmed = "") then "" else "<" +:+ mlToLower trimmed +:+ ">".

Definition header (headers : gmap string string) (key : string) : string := default "" (headers !! key).

Definition shortHash (s : string) : string := String.substring 0 32 (mlSha256 s).

Definition Fingerprint (message : Message) : string :=
  shortHash (joinWith newline
    [NormalizeMessageID (header (mgHeaders message) "message-id");
     mlToLower (TrimSpace (mgSubject message));
     mlToLower (TrimSpace (mgFrom message));
     mlToLower (TrimSpace (mgTo message));
     collapseWhitespace (mgBody message)]).

(** The lines [BodyLineFingerprint] hashes. *)
Definition bodyLines (body : string) : list string :=
  List.filter (fun l => negb (bool_decide (l = EmptyString))) (map collapseWhitespace (splitOn newline (replaceCRLF body))).

Definition BodyLineFingerprint (body : string) : string := shortHash (joinWith newline (bodyLines body)).

(** ** Headers *)

Definition HeaderMap (h : Header) : gmap string string :=
  foldl (fun result kv => <[mlToLower kv.1 := joinWith newline kv.2]> result) ∅ (mlVisit (map_to_list h)).

Definition SortedHeaderRows (headers : gmap string string) : list (string * string) :=
  map (fun name => (name, header headers name)) (sortStable str_ltb (map fst (map_to_list headers))).

(** ** Body and attachments *)

(** What [extractPart] is handed pointers to. *)
Record Extract := MkExtract { exMediaType : string; exTexts : list string; exAttachments : list Attachment }.

Definition readAllPart (body : mfile) (context : string) : GoError + string :=
  match mfErr body with Some e => inl (ErrWrap context e) | None => inr (mfBytes body) end.

Definition wrapPart (context : string) (r : GoError + string) : GoError + string :=
  match r with inl e => inl (ErrWrap context e) | inr content => inr content end.

Definition readDecodedPart (h : Header) (body : mfile) : GoError + string :=
  let encoding := mlToLower (TrimSpace (Get h "Content-Transfer-Encoding")) in
  if bool_decide (encoding ∈ [""; "7bit"; "8bit"; "binary"]) then readAllPart body "read unencoded mail part"
  else if bool_decide (encoding = "base64") then wrapPart "decode base64 mail part" (mlBase64 body)
  else if bool_decide (encoding = "quoted-printable") then wrapPart "decode quoted-printable mail part" (mlQuotedPrintable body)
  else readAllPart body "read unknown-encoded mail part".

Definition param (params : gmap string string) (key : string) : string := default "" (params !! key).

Definition partFilename (h : Header) : string :=
  let '(_, params, err) := mlParseMediaType (Get h "Content-Disposition") in
  if bool_decide (err = None) && negb (bool_decide (param params "filename" = "")) then param params "filename" else
  let '(_, params, err) := mlParseMediaType (Get h "Content-Type") in
  if bool_decide (err = None) then param params "name" else "".

Definition extractLeafPart (h : Header) (body : mfile) (mediaType : string) (x : Extract) : GoError + Extract :=
  match readDecodedPart h body with
  | inl e => inl (ErrWrap "read mail part" e)
  | inr content =>
      let '(parsedDisposition, _, err) := mlParseMediaType (Get h "Content-Disposition") in
      let disposition := if bool_decide (err = None) then parsedDisposition else "" in
      let fileName := partFilename h in
      if bool_decide (disposition = "attachment") || negb (bool_decide (fileName = "")) then
        inr (MkExtract (exMediaType x) (exTexts x)
          (exAttachments x ++ [MkAttachment "" fileName (firstNonEmpty [mediaType; "application/octet-stream"]) content]))
      else if bool_decide (mediaType = "text/plain") || bool_decide (mediaType = "") then
        let texts := if bool_decide (exMediaType x = "text/plain") then exTexts x else [] in
        inr (MkExtract "text/plain" (texts ++ [content]) (exAttachments x))
      else if HasPrefix mediaType "text/" && negb (bool_decide (exMediaType x = "text/plain")) then
        let bodyMediaType := if bool_decide (exMediaType x = "") then mediaType else exMediaType x in
        inr (MkExtract bodyMediaType
          (if bool_decide (bodyMediaType = mediaType) then exTexts x ++ [content] else exTexts x) (exAttachments x))
      else inr x
  end.

(** The loop over the parts of a multipart body; [None] from [f] when it is out
    of fuel. *)
Fixpoint partLoop (f : Header -> mfile -> Extract -> option (GoError + Extract)) (parts : list (Header * mfile))
    (err : option GoError) (x : Extract) : option (GoError + Extract) :=
  match parts with
  | [] => Some (match err with Some e => inl (ErrWrap "read multipart mail part" e) | None => inr x end)
  | (h, body) :: r =>
      match f h body x with
      | Some (inr x) => partLoop f r err x
      | res => res
      end
  end.

Definition isLeaf (h : Header) : bool :=
  let '(mediaType, _, err) := mlParseMediaType (Get h "Content-Type") in
  negb (bool_decide (err = None)) || negb (HasPrefix mediaType "multipart/").

Definition mediaTypeOf (h : Header) : string := (mlParseMediaType (Get h "Content-Type")).1.1.
Definition partsOf (h : Header) (body : mfile) : list (Header * mfile) * option GoError :=
  mlParts body (param (mlParseMediaType (Get h "Content-Type")).1.2 "boundary").

Fixpoint extractPart (fuel : nat) (h : Header) (body : mfile) (x : Extract) : option (GoError + Extract) :=
  match fuel with
  | O => None
  | S f =>
      if isLeaf h then Some (extractLeafPart h body (mediaTypeOf h) x)
      else let '(parts, err) := partsOf h body in partLoop (extractPart f) parts err x
  end.

(** Parts shrink at every level, so the length of the body bounds the depth. *)
Definition extractBodyAndAttachments (h : Header) (body : string) : option (GoError + (string * string * list Attachment)) :=
  match extractPart (S (String.length body)) h (MkFile body None) (MkExtract "" [] []) with
  | Some (inr x) => Some (inr (joinWith newline (exTexts x), exMediaType x, exAttachments x))
  | Some (inl e) => Some (inl e)
  | None => None
  end.

Definition Parse (raw sourceHint : string) : option (GoError + Message) :=
  match mlReadMessage raw with
  | inl e => Some (inl (ErrWrap "parse mail" e))
  | inr (h, rest) =>
      match extractBodyAndAttachments h rest with
      | None => None
      | Some (inl e) => Some (inl e)
      | Some (inr (body, bodyMediaType, attachments)) =>
          let headers := HeaderMap h in
          let message messageID fingerprint generated := MkMessage headers (header headers "subject")
            (firstNonEmpty [bodyMediaType; "text/plain"]) messageID fingerprint (BodyLineFingerprint body)
            (header headers "date") (header headers "from") (header headers "to") body attachments raw generated in
          let id := NormalizeMessageID (header headers "message-id") in
          let fingerprint := Fingerprint (message id "" false) in
          Some (inr (if bool_decide (id = "")
            then message ("<gmeow-generated-" +:+ fingerprint +:+ "@" +:+ MailGeneratedMessageIDHost +:+ ">") fingerprint true
            else message id fingerprint false))
      end
  end.

(** ** Metadata *)

Definition Metadata (message : Message) (collision : bool) (maxScale : string) (versionCount : Z) (canonicalVersionID : string) : anyMap :=
  list_to_map [
    ("rfc_message_id", AStr (mgMessageID message)); ("subject", AStr (mgSubject message)); ("date", AStr (mgDate message));
    ("from", AStr (mgFrom message)); ("sender", AStr (header (mgHeaders message) "sender"));
    ("reply_to", AStr (header (mgHeaders message) "reply-to")); ("to", AStr (mgTo message));
    ("cc", AStr (header (mgHeaders message) "cc")); ("bcc", AStr (header (mgHeaders message) "bcc"));
    ("generated_message_id", ABool (mgGeneratedMessage message)); ("canonical_fingerprint", AStr (mgFingerprint message));
    ("body_line_fingerprint", AStr (mgBodyLineHash message)); ("canonical_version_id", AStr canonicalVersionID);
    ("version_count", AInt versionCount); ("max_scale", AStr maxScale); ("message_id_collision", ABool collision);
    ("analysis_scope", AStr AnalysisScopeCanonical); ("analysis_input_body_line", AStr (mgBodyLineHash message))].

Definition attachmentRow (index : nat) (attachment : Attachment) : Any :=
  AMap [("id", AStr (firstNonEmpty [atID attachment; "raw:" +:+ FormatUint (N.of_nat index)]));
        ("filename", AStr (atFileName attachment)); ("media_type", AStr (atMediaType attachment));
        ("size", AInt (slen (atContent attachment)))].

Definition MIMEStructure (bodyMediaType : string) (attachments : list Attachment) : anyMap :=
  list_to_map [("body_media_type", AStr (firstNonEmpty [bodyMediaType; "text/plain"]));
               ("attachments", AList (imap attachmentRow attachments))].

(** ** Participants *)

Record addressListSplitState := MkSplit { spQuoted : bool; spEscaped : bool; spCommentDepth : Z }.

Definition splitStart : addressListSplitState := MkSplit false false 0.

Definition comma : Ascii.ascii := Ascii.ascii_of_N 44.
Definition backslash : Ascii.ascii := Ascii.ascii_of_N 92.
Definition quote : Ascii.ascii := Ascii.ascii_of_N 34.
Definition openParen : Ascii.ascii := Ascii.ascii_of_N 40.
Definition closeParen : Ascii.ascii := Ascii.ascii_of_N 41.

(** Each returns whether it took the character, and the state after it. *)
Definition consumeEscaped (st : addressListSplitState) : option addressListSplitState :=
  if spEscaped st then Some (MkSplit (spQuoted st) false (spCommentDepth st)) else None.

Definition startEscape (c : Ascii.ascii) (st : addressListSplitState) : option addressListSplitState :=
  if Ascii.eqb c backslash then Some (MkSplit (spQuoted st) true (spCommentDepth st)) else None.

Definition toggleQuote (c : Ascii.ascii) (st : addressListSplitState) : option addressListSplitState :=
  if negb (Ascii.eqb c quote) || negb (spCommentDepth st =? 0) then None
  else Some (MkSplit (negb (spQuoted st)) (spEscaped st) (spCommentDepth st)).

Definition updateComment (c : Ascii.ascii) (st : addressListSplitState) : option addressListSplitState :=
  if spQuoted st then None
  else if Ascii.eqb c openParen then Some (MkSplit (spQuoted st) (spEscaped st) (spCommentDepth st + 1))
  else if Ascii.eqb c closeParen && (0 <? spCommentDepth st) then Some (MkSplit (spQuoted st) (spEscaped st) (spCommentDepth st - 1))
  else None.

Definition segmentBoundary (c : Ascii.ascii) (st : addressListSplitState) : bool * addressListSplitState :=
  match consumeEscaped st, startEscape c st, toggleQuote c st, updateComment c st with
  | Some st, _, _, _ => (false, st)
  | None, Some st, _, _ => (false, st)
  | None, None, Some st, _ => (false, st)
  | None, None, None, Some st => (false, st)
  | None, None, None, None => (Ascii.eqb c comma && negb (spQuoted st) && (spCommentDepth st =? 0), st)
  end.

Definition appendAddressListSegment (segments : list string) (value : string) : list string :=
  let value := TrimSpace value in if bool_decide (value = "") then segments else segments ++ [value].

(** The loop over the characters.  A character outside ASCII never matters, so
    it may be seen as its bytes; [cur] is the text since [start]. *)
Fixpoint splitLoop (s : list Ascii.ascii) (st : addressListSplitState) (segments : list string) (cur : list Ascii.ascii) : list string :=
  match s with
  | [] => appendAddressListSegment segments (bytes_str cur)
  | c :: r =>
      let '(boundary, st) := segmentBoundary c st in
      if boundary then splitLoop r st (appendAddressListSegment segments (bytes_str cur)) []
      else splitLoop r st segments (cur ++ [c])
  end.

Definition splitAddressListSegments (value : string) : list string := splitLoop (str_bytes value) splitStart [] [].

Definition parseAddressListSegments (value : string) : list Address :=
  omap (fun segment => match mlParseAddress segment with inr a => Some a | inl _ => None end) (splitAddressListSegments value).

Definition participantsFromHeader (role value : string) : list Participant :=
  let value := TrimSpace value in
  if bool_decide (value = "") then [] else
  let addresses := match mlParseAddressList value with inr l => l | inl _ => parseAddressListSegments value end in
  omap (fun ia : nat * Address =>
    if bool_decide (TrimSpace (adrAddress ia.2) = "") then None
    else Some (MkParticipant role (TrimSpace (adrName ia.2)) (TrimSpace (adrAddress ia.2)) (TrimSpace (mlAddressString ia.2))
                 (Z.of_nat ia.1))) (imap pair addresses).

Definition stringMetadata (metadata : anyMap) (key : string) : string := stringFromAny (metadata !! key).

Definition ParticipantsFromMetadata (metadata : anyMap) : list Participant :=
  flat_map (fun key => participantsFromHeader key (stringMetadata metadata key)) ["from"; "sender"; "reply_to"; "to"; "cc"; "bcc"].

(** ** Extraction is a function of the leaves *)

(** The leaves of a message in their order, up to the first broken multipart
    body, and that body's error. *)
Fixpoint leafLoop (f : Header -> mfile -> option (list (Header * mfile) * option GoError)) (parts : list (Header * mfile))
    (err : option GoError) : option (list (Header * mfile) * option GoError) :=
  match parts with
  | [] => Some ([], ErrWrap "read multipart mail part" <$> err)
  | (h, body) :: r =>
      match f h body with
      | Some (ls, None) => '(ls', e) ← leafLoop f r err; Some (ls ++ ls', e)
      | res => res
      end
  end.

Fixpoint leaves (fuel : nat) (h : Header) (body : mfile) : option (list (Header * mfile) * option GoError) :=
  match fuel with
  | O => None
  | S f => if isLeaf h then Some ([(h, body)], None)
           else let '(parts, err) := partsOf h body in leafLoop (leaves f) parts err
  end.

(** What a leaf is to the message. *)
Inductive leafKind := KAttachment (a : Attachment) | KText (mediaType content : string) | KDropped.

Definition classify (l : Header * mfile) : GoError + leafKind :=
  let '(h, body) := l in
  let '(disposition, _, err) := mlParseMediaType (Get h "Content-Disposition") in
  match readDecodedPart h body with
  | inl e => inl (ErrWrap "read mail part" e)
  | inr content => inr (
      if (bool_decide (err = None) && bool_decide (disposition = "attachment")) || negb (bool_decide (partFilename h = "")) then
        KAttachment (MkAttachment "" (partFilename h) (firstNonEmpty [mediaTypeOf h; "application/octet-stream"]) content)
      else if bool_decide (mediaTypeOf h = "") then KText "text/plain" content
      else if HasPrefix (mediaTypeOf h) "text/" then KText (mediaTypeOf h) content
      else KDropped)
  end.

Definition attachmentsIn (ks : list leafKind) : list Attachment :=
  omap (fun k => match k with KAttachment a => Some a | _ => None end) ks.
Definition textsIn (ks : list leafKind) : list (string * string) :=
  omap (fun k => match k with KText mt c => Some (mt, c) | _ => None end) ks.
Definition textsOf (mt : string) (ks : list leafKind) : list string :=
  omap (fun t => if bool_decide (t.1 = mt) then Some t.2 else None) (textsIn ks).

(** The body is made of the plain texts, and without any, of the texts that have
    the media type of the first one. *)
Definition bodyType (ks : list leafKind) : string :=
  match textsOf "text/plain" ks, textsIn ks with
  | _ :: _, _ => "text/plain"
  | [], (mt, _) :: _ => mt
  | [], [] => ""
  end.

Definition extracted (ks : list leafKind) : Extract := MkExtract (bodyType ks) (textsOf (bodyType ks) ks) (attachmentsIn ks).

(** Left to right, up to the first error. *)
Fixpoint traverse {A B} (f : A -> GoError + B) (l : list A) : GoError + list B :=
  match l with
  | [] => inr []
  | a :: r => match f a with inl e => inl e | inr b => match traverse f r with inl e => inl e | inr bs => inr (b :: bs) end end
  end.

Definition extractSpec (ls : list (Header * mfile)) (err : option GoError) : GoError + (string * string * list Attachment) :=
  match traverse classify ls, err with
  | inl e, _ => inl e
  | inr _, Some e => inl e
  | inr ks, None => inr (joinWith newline (textsOf (bodyType ks) ks), bodyType ks, attachmentsIn ks)
  end.

Fixpoint foldLeaves (ls : list (Header * mfile)) (err : option GoError) (x : Extract) : GoError + Extract :=
  match ls with
  | [] => match err with Some e => inl e | None => inr x end
  | (h, body) :: r => match extractLeafPart h body (mediaTypeOf h) x with inl e => inl e | inr x => foldLeaves r err x end
  end.

Lemma foldLeaves_app ls1 ls2 err x :
  foldLeaves (ls1 ++ ls2) err x = match foldLeaves ls1 None x with inl e => inl e | inr x => foldLeaves ls2 err x end.
Proof. revert x. induction ls1 as [|[h b] ls1 IH]; intros x; cbn; [done|]. destruct (extractLeafPart h b (mediaTypeOf h) x); auto. Qed.

Lemma foldLeaves_err ls e x : foldLeaves ls (Some e) x = match foldLeaves ls None x with inl e' => inl e' | inr _ => inl e end.
Proof. rewrite <- (app_nil_r ls), foldLeaves_app. by rewrite app_nil_r. Qed.

Lemma extract_leaves fuel h body ls err x :
  leaves fuel h body = Some (ls, err) -> extractPart fuel h body x = Some (foldLeaves ls err x).
Proof.
  revert h body ls err x. induction fuel as [|f IH]; intros h body ls err x; [done|]. cbn. destruct (isLeaf h).
  { intros [= <- <-]. cbn. by destruct (extractLeafPart h body (mediaTypeOf h) x). }
  destruct (partsOf h body) as [parts perr]. clear h body. revert ls err x.
  induction parts as [|[h b] parts IHp]; intros ls err x; cbn.
  { intros [= <- <-]. by destruct perr. }
  destruct (leaves f h b) as [[ls1 [e|]]|] eqn:Hl; [|destruct (leafLoop (leaves f) parts perr) as [[ls2 e]|] eqn:Hr|]; cbn; try done.
  - intros [= <- <-]. rewrite (IH _ _ _ _ x Hl), foldLeaves_err. by destruct (foldLeaves ls1 None x).
  - intros [= <- <-]. rewrite (IH _ _ _ _ x Hl), foldLeaves_app. destruct (foldLeaves ls1 None x); [done|]. by apply IHp.
Qed.

(** The length of the body is enough fuel. *)
Lemma leaves_total `{!MimeLaws} fuel h body : (String.length (mfBytes body) < fuel)%nat -> is_Some (leaves fuel h body).
Proof.
  revert h body. induction fuel as [|f IH]; intros h body Hf; [lia|]. cbn. destruct (isLeaf h); [by eexists|].
  pose proof (ml_parts_shorter body (param (mlParseMediaType (Get h "Content-Type")).1.2 "boundary")) as Hs.
  unfold partsOf. destruct (mlParts _ _) as [parts err]. cbn in Hs.
  assert (forall h' b', (h', b') ∈ parts -> is_Some (leaves f h' b')) as Hp by (intros h' b' Hb; apply IH; specialize (Hs _ _ Hb); lia).
  clear Hs. induction parts as [|[h1 b1] parts IHp]; cbn; [by eexists|].
  destruct (Hp h1 b1) as [[ls [e|]] ->]; [left|by eexists|].
  destruct IHp as [[ls' e'] ->]; [intros h' b' Hb; apply Hp; by right|]. cbn. by eexists.
Qed.

Lemma textsOf_snoc mt ks k :
  textsOf mt (ks ++ [k]) = textsOf mt ks ++ match k with KText mt' c => if bool_decide (mt' = mt) then [c] else [] | _ => [] end.
Proof.
  unfold textsOf, textsIn. rewrite !omap_app. f_equal. destruct k; cbn; try done. by case_bool_decide.
Qed.

Lemma textsOf_nil mt ks : textsIn ks = [] -> textsOf mt ks = [].
Proof. unfold textsOf. by intros ->. Qed.

Lemma classify_text l mt c : classify l = inr (KText mt c) -> HasPrefix mt "text/" = true.
Proof.
  destruct l as [h body]. cbn. destruct (mlParseMediaType (Get h "Content-Disposition")) as [[d ps] err].
  destruct (readDecodedPart h body) as [e|content]; [done|]. destruct (_ || _); [done|]. case_bool_decide; [by intros [= <- <-]|].
  destruct (HasPrefix (mediaTypeOf h) "text/") eqn:Hp; [|done]. by intros [= <- <-].
Qed.

Definition wf_texts (ks : list leafKind) : Prop := Forall (fun t => t.1 <> "") (textsIn ks).

Lemma bodyType_cases ks : wf_texts ks ->
  (textsIn ks = [] /\ bodyType ks = "") \/
  (textsOf "text/plain" ks <> [] /\ bodyType ks = "text/plain") \/
  (textsOf "text/plain" ks = [] /\ bodyType ks <> "text/plain" /\ bodyType ks <> "" /\ exists c r, textsIn ks = (bodyType ks, c) :: r).
Proof.
  unfold wf_texts, bodyType. destruct (textsOf "text/plain" ks) as [|p ps] eqn:Hp; [|intros _; by right; left].
  destruct (textsIn ks) as [|[mt c] r] eqn:Ht; [intros _; by left|]. intros Hw. inversion Hw as [|? ? Hmt _]; subst. right. right.
  split; [done|]. split; [|split; [done|by eauto]]. intros ->. unfold textsOf in Hp. rewrite Ht in Hp. cbn in Hp. done.
Qed.

Lemma bodyType_snoc ks k : wf_texts ks ->
  bodyType (ks ++ [k]) =
    match k with
    | KText mt _ => if bool_decide (mt = "text/plain") then "text/plain"
                    else if bool_decide (bodyType ks = "") then mt else bodyType ks
    | _ => bodyType ks
    end.
Proof.
  intros Hw. pose proof (bodyType_cases ks Hw) as Hc. unfold bodyType at 1. rewrite textsOf_snoc.
  assert (textsIn (ks ++ [k]) = textsIn ks ++ match k with KText mt c => [(mt, c)] | _ => [] end) as ->
    by (unfold textsIn; rewrite omap_app; by destruct k).
  destruct k as [a|mt c|]; rewrite ?app_nil_r; try done. case_bool_decide as Hmt; [by destruct (textsOf "text/plain" ks)|].
  rewrite app_nil_r. destruct Hc as [[Ht ->]|[[Hp ->]|(Hp & H1 & H2 & c' & r & Ht)]].
  - by rewrite (textsOf_nil _ _ Ht), Ht.
  - by destruct (textsOf "text/plain" ks).
  - rewrite Hp, Ht. by rewrite bool_decide_false by done.
Qed.

(** One leaf more. *)
Lemma leaf_step ks h body : wf_texts ks ->
  extractLeafPart h body (mediaTypeOf h) (extracted ks) =
    match classify (h, body) with inl e => inl e | inr k => inr (extracted (ks ++ [k])) end.
Proof.
  intros Hw. pose proof (bodyType_cases ks Hw) as Hc. unfold extractLeafPart, extracted, classify.
  destruct (mlParseMediaType (Get h "Content-Disposition")) as [[d ps] err]. destruct (readDecodedPart h body) as [e|content]; [done|].
  assert (bool_decide ((if bool_decide (err = None) then d else "") = "attachment") =
          bool_decide (err = None) && bool_decide (d = "attachment")) as -> by (by destruct err).
  set (mt := mediaTypeOf h). rewrite bodyType_snoc by done. destruct (_ || _).
  { rewrite textsOf_snoc, app_nil_r. unfold attachmentsIn. by rewrite omap_app. }
  assert (forall k, (forall a, k <> KAttachment a) -> attachmentsIn (ks ++ [k]) = attachmentsIn ks) as Ha
    by (intros k Hk; unfold attachmentsIn; rewrite omap_app; destruct k as [a| |]; [by destruct (Hk a)|by rewrite app_nil_r..]).
  assert (bodyType ks <> "text/plain" -> textsOf "text/plain" ks = []) as Hnp.
  { destruct Hc as [[Ht _]|[[_ Hb]|(Hp & _)]]; [intros _; by apply textsOf_nil|by intros []|done]. }
  assert (inr (MkExtract "text/plain" ((if bool_decide (bodyType ks = "text/plain") then textsOf (bodyType ks) ks else []) ++ [content]) (attachmentsIn ks))
    = inr (A := GoError) (MkExtract "text/plain" (textsOf "text/plain" (ks ++ [KText "text/plain" content])) (attachmentsIn (ks ++ [KText "text/plain" content])))) as Hplain.
  { rewrite textsOf_snoc, Ha by done. rewrite (bool_decide_true ("text/plain" = "text/plain")) by done. case_bool_decide as Hb; [by rewrite Hb|by rewrite Hnp]. }
  cbn [exMediaType exTexts exAttachments]. destruct (decide (mt = "text/plain")) as [Hmt|Hmt]; [rewrite Hmt; exact Hplain|].
  destruct (decide (mt = "")) as [Hmt0|Hmt0]; [rewrite Hmt0; exact Hplain|].
  rewrite (bool_decide_false (mt = "text/plain")), (bool_decide_false (mt = "")) by done. cbn [orb].
  destruct (HasPrefix mt "text/"); cbn [andb].
  2: { by rewrite textsOf_snoc, Ha, app_nil_r. }
  rewrite (bool_decide_false (mt = "text/plain")) by done. destruct Hc as [[Ht Hb]|[[Hp Hb]|(Hp & H1 & H2 & _)]].
  - rewrite Hb. change (bool_decide ("" = "")) with true. change (bool_decide ("" = "text/plain")) with false. cbn [negb].
    rewrite textsOf_snoc, Ha, !(textsOf_nil _ _ Ht) by done. by rewrite (bool_decide_true (mt = mt)).
  - rewrite Hb. change (bool_decide ("text/plain" = "text/plain")) with true. change (bool_decide ("text/plain" = "")) with false. cbn [negb].
    rewrite textsOf_snoc, Ha by done. rewrite (bool_decide_false (mt = "text/plain")) by done. by rewrite app_nil_r.
  - rewrite (bool_decide_false (bodyType ks = "text/plain")) by done. cbn [negb]. rewrite (bool_decide_false (bodyType ks = "")) by done.
    rewrite textsOf_snoc, Ha by done. do 2 f_equal. destruct (decide (mt = bodyType ks)) as [<-|Hne]; [by rewrite !bool_decide_true|].
    rewrite !bool_decide_false by congruence. by rewrite app_nil_r.
Qed.

Lemma fold_spec ls err ks : wf_texts ks ->
  foldLeaves ls err (extracted ks) =
    match traverse classify ls, err with
    | inl e, _ => inl e
    | inr _, Some e => inl e
    | inr ks', None => inr (extracted (ks ++ ks'))
    end.
Proof.
  revert ks. induction ls as [|[h b] ls IH]; intros ks Hw; cbn [foldLeaves traverse].
  { rewrite app_nil_r. by destruct err. }
  rewrite leaf_step by done. destruct (classify (h, b)) as [e|k] eqn:Hk; [done|]. rewrite IH.
  2: { unfold wf_texts, textsIn in *. rewrite omap_app. apply Forall_app. split; [done|]. destruct k as [|mt c|]; cbn; repeat constructor.
       apply classify_text in Hk. cbn. by intros ->. }
  destruct (traverse classify ls) as [e|ks']; [done|]. by rewrite <- app_assoc.
Qed.

Lemma extraction_spec `{!MimeLaws} h body :
  exists ls err, leaves (S (String.length body)) h (MkFile body None) = Some (ls, err) /\
    extractBodyAndAttachments h body = Some (extractSpec ls err).
Proof.
  destruct (leaves_total (S (String.length body)) h (MkFile body None)) as [[ls err] Hl]; [cbn; lia|]. exists ls, err. split; [done|].
  unfold extractBodyAndAttachments, extractSpec. rewrite (extract_leaves _ _ _ _ _ _ Hl).
  change (MkExtract "" [] []) with (extracted []). rewrite fold_spec by constructor. by destruct (traverse classify ls), err.
Qed.

(** C26: the body and the attachments of a message depend on its leaves alone, and
    extraction always returns: the attachments are those leaves that say so or
    have a file name, in order; the body is made of the plain texts, or, without
    any, of the texts of the first one's type; a leaf that cannot be decoded or a
    broken multipart body makes the message an error. *)
Theorem body_extraction_exact `{!MimeLaws} (h : Header) (body : string) :
  exists ls err, leaves (S (String.length body)) h (MkFile body None) = Some (ls, err) /\
    extractBodyAndAttachments h body = Some (extractSpec ls err).
Proof. apply extraction_spec. Qed.

(** Parsing returns for every message. *)
Lemma Parse_total `{!MimeLaws} raw hint : is_Some (Parse raw hint).
Proof.
  unfold Parse. destruct (mlReadMessage raw) as [|[h rest]]; [by eexists|].
  destruct (extraction_spec h rest) as (ls & err & _ & ->). destruct (extractSpec ls err) as [|[[] ]]; by eexists.
Qed.

(** ** Address lists *)

(** A text without a boundary, and the state it leaves the scanner in. *)
Fixpoint runs (s : list Ascii.ascii) (st : addressListSplitState) : option addressListSplitState :=
  match s with
  | [] => Some st
  | c :: r => let '(boundary, st) := segmentBoundary c st in if boundary then None else runs r st
  end.

(** Quotes, comments and escapes are closed, and no comma is outside of them. *)
Definition closed (s : string) : Prop := runs (str_bytes s) splitStart = Some splitStart.

Lemma splitLoop_run s st st' rest segments cur :
  runs s st = Some st' -> splitLoop (s ++ rest) st segments cur = splitLoop rest st' segments (cur ++ s).
Proof.
  revert st cur. induction s as [|c s IH]; intros st cur; cbn; [intros [= ->]; by rewrite app_nil_r|].
  destruct (segmentBoundary c st) as [[] st1]; [done|]. intros Hr. rewrite (IH _ _ Hr). by rewrite <- app_assoc.
Qed.

Lemma append_trimmed segments s : TrimSpace s = s -> s <> "" -> appendAddressListSegment segments s = segments ++ [s].
Proof. intros Ht Hs. unfold appendAddressListSegment. rewrite Ht. by rewrite bool_decide_false. Qed.

(** The separator [", "] and what an address list is written as. *)
Fixpoint joinAddresses (l : list string) : string :=
  match l with [] => "" | [x] => x | x :: r => x +:+ ", " +:+ joinAddresses r end.

Lemma str_bytes_app (a b : string) : str_bytes (a +:+ b) = str_bytes a ++ str_bytes b.
Proof. induction a as [|c a IH]; [done|]. change (c :: str_bytes (a +:+ b) = c :: str_bytes a ++ str_bytes b). by rewrite IH. Qed.

Lemma trim_space_front s : TrimSpace s = s -> s <> "" -> TrimSpace (" " +:+ s) = s.
Proof.
  intros Ht Hs. unfold TrimSpace in *. set (b := str_bytes s) in *.
  assert (trimLeft spaceEncodings (str_bytes (" " +:+ s)) = trimLeft spaceEncodings b) as ->; [|done].
  unfold trimLeft. change (str_bytes (" " +:+ s)) with (Ascii.ascii_of_N 32 :: b). reflexivity.
Qed.

Lemma splitLoop_segments l segments pre :
  Forall (fun s => closed s /\ TrimSpace s = s /\ s <> "") l -> l <> [] -> (pre = "" \/ pre = " ") ->
  splitLoop (str_bytes (joinAddresses l)) splitStart segments (str_bytes pre) = segments ++ l.
Proof.
  intros Hl. revert segments pre. induction Hl as [|s l (Hc & Ht & Hs) Hl IH]; intros segments pre Hne Hpre; [done|].
  assert (forall seg, appendAddressListSegment seg (bytes_str (str_bytes pre ++ str_bytes s)) = seg ++ [s]) as Happ.
  { intros seg. rewrite <- str_bytes_app, String.string_of_list_ascii_of_string. destruct Hpre as [-> | ->]; [by apply append_trimmed|].
    unfold appendAddressListSegment. rewrite trim_space_front by done. by rewrite bool_decide_false. }
  destruct l as [|s2 l].
  - cbn [joinAddresses]. rewrite <- (app_nil_r (str_bytes s)), (splitLoop_run _ _ _ _ _ _ Hc). cbn [splitLoop]. by rewrite Happ.
  - change (joinAddresses (s :: s2 :: l)) with (s +:+ ", " +:+ joinAddresses (s2 :: l)). rewrite !str_bytes_app.
    rewrite (splitLoop_run _ _ _ _ _ _ Hc). cbn -[joinAddresses TrimSpace appendAddressListSegment]. rewrite Happ.
    refine (eq_trans (IH (segments ++ [s]) " " _ _) _); [done|by right|by rewrite <- app_assoc].
Qed.

(** An address list is taken apart where it was put together: commas inside
    quoted names and comments separate nothing. *)
Theorem address_split_roundtrip (segs : list string) :
  Forall (fun s => closed s /\ TrimSpace s = s /\ s <> "") segs -> splitAddressListSegments (joinAddresses segs) = segs.
Proof.
  intros H. destruct segs as [|s segs]; [done|]. exact (splitLoop_segments (s :: segs) [] "" H ltac:(done) ltac:(by left)).
Qed.

(** ** Body lines *)

Lemma fields_free f s cur : forallb (fun c => negb (Ascii.eqb c newline)) cur = true ->
  Forall (fun w => forallb (fun c => negb (Ascii.eqb c newline)) w = true /\ w <> []) (fieldsLoop f s cur).
Proof.
  assert (forall cur, forallb (fun c => negb (Ascii.eqb c newline)) cur = true ->
    Forall (fun w => forallb (fun c => negb (Ascii.eqb c newline)) w = true /\ w <> []) (match cur with [] => [] | _ => [cur] end)) as Hf.
  { intros [|c cur'] Hcur; constructor; [done|constructor]. }
  revert s cur. induction f as [|f IH]; intros [|c s] cur Hcur; cbn [fieldsLoop]; try by apply Hf.
  destruct (stripAny spaceEncodings (c :: s)) as [r|] eqn:Hs.
  - apply Forall_app. split; [by apply Hf|]. by apply IH.
  - apply IH. rewrite forallb_app, Hcur. cbn [forallb andb]. rewrite andb_true_r. destruct (Ascii.eqb c newline) eqn:Hc; [|done].
    apply Ascii.eqb_eq in Hc as ->. exfalso. revert Hs. destruct s; done.
Qed.

Lemma free_bytes c w : free c (bytes_str w) = forallb (fun d => negb (Ascii.eqb d c)) w.
Proof. unfold free. by rewrite String.list_ascii_of_string_of_list_ascii. Qed.

Lemma collapse_free value : free newline (collapseWhitespace value) = true.
Proof.
  unfold collapseWhitespace, Fields. pose proof (fields_free (String.length value) (str_bytes value) [] eq_refl) as H.
  induction H as [|w ws [Hw _] _ IH]; [done|]. cbn [map]. destruct (map bytes_str ws) as [|x xs]; [by rewrite <- Hw, <- free_bytes|].
  rewrite joinWith_cons, free_app, (free_bytes newline w), Hw. exact IH.
Qed.

Lemma bodyLines_ok body : Forall (fun l => free newline l = true /\ l <> "") (bodyLines body).
Proof.
  unfold bodyLines. induction (splitOn newline (replaceCRLF body)) as [|l ls IH]; cbn; [constructor|].
  case_bool_decide as Hl; cbn; [done|]. constructor; [|done]. split; [apply collapse_free|done].
Qed.

Lemma joinLines_inj a b :
  Forall (fun l => free newline l = true /\ l <> "") a -> Forall (fun l => free newline l = true /\ l <> "") b ->
  joinWith newline a = joinWith newline b -> a = b.
Proof.
  assert (forall l, Forall (fun l => free newline l = true /\ l <> "") l -> joinWith newline l = "" -> l = []) as Hnil.
  { intros [|x [|y l]] Hl; inversion Hl as [|? ? [_ Hx] _]; subst; [done|done|]. rewrite joinWith_cons. by destruct x. }
  assert (forall l, Forall (fun l => free newline l = true /\ l <> "") l -> Forall (fun l => free newline l = true) l) as Hfree
    by (intros l Hl; eapply Forall_impl; [exact Hl|naive_solver]).
  intros Ha Hb He. destruct (decide (a = [])) as [->|Hna]; [symmetry; by apply Hnil|].
  destruct (decide (b = [])) as [->|Hnb]; [by apply Hnil|].
  rewrite <- (splitOn_join newline a), <- (splitOn_join newline b) by auto. by f_equal.
Qed.

(** The body line fingerprint tells bodies apart by their lines, and by nothing
    else: line ends, blank lines and the width of white space do not count. *)
Theorem body_fingerprint_exact (a b : string) :
  (let '(x, y) := (joinWith newline (bodyLines a), joinWith newline (bodyLines b)) in shortHash x = shortHash y -> x = y) ->
  BodyLineFingerprint a = BodyLineFingerprint b <-> bodyLines a = bodyLines b.
Proof.
  intros Hinj. unfold BodyLineFingerprint. split; [|by intros ->]. intros H. apply joinLines_inj; auto using bodyLines_ok.
Qed.
End mail.

(** ** Examples *)

(** A library for one-letter MIME: the first line of a body is its first byte, a
    part per line follows; the header of a part is named by that line. *)
Definition exHeader (line : string) : Header :=
  list_to_map (("Content-Type", [line]) :: (if HasPrefix line "image/" then [("Content-Disposition", ["attachment"])] else [])).

#[local] Instance exMime : MimeLib := {|
  mlReadMessage raw := inr (exHeader "multipart/mixed", raw);
  mlParseMediaType v := (v, ∅, if bool_decide (v = "") then Some (ErrMsg "mime: no media type") else None);
  mlParts body _ := (map (fun l => (exHeader l, MkFile l None)) (tl (splitOn newline (mfBytes body))), None);
  mlBase64 f := inr (mfBytes f); mlQuotedPrintable f := inr (mfBytes f); mlToLower s := ToLower s; mlSha256 s := s;
  mlParseAddressList s := inl (ErrMsg "mail"); mlParseAddress s := inr (MkAddress "" s); mlAddressString := adrAddress;
  mlVisit l := l |}.

Lemma exMime_laws : MimeLaws.
Proof.
  intros body boundary h p Hp. cbn [mlParts exMime fst] in Hp. apply list_elem_of_fmap in Hp as (l & [= -> ->] & Hl). cbn [mfBytes]. revert l Hl. generalize (mfBytes body). clear.
  assert (forall s l, l ∈ splitOn newline s -> (String.length l <= String.length s)%nat) as Hle.
  { induction s as [|c s IH]; intros l; cbn [splitOn String.length]; [intros [-> | []%not_elem_of_nil]%elem_of_cons; done|]. destruct (Ascii.eqb c newline).
    - intros [-> | Hl]%elem_of_cons; [cbn; lia|]. specialize (IH _ Hl). lia.
    - destruct (splitOn newline s) as [|x xs] eqn:Hx.
      + intros [-> | []%not_elem_of_nil]%elem_of_cons. cbn. lia.
      + intros [-> | Hl]%elem_of_cons; [|specialize (IH l ltac:(by right)); lia]. cbn. specialize (IH x ltac:(by left)). lia. }
  induction s as [|c s IH]; intros l; cbn [splitOn tl String.length]; [by intros ?%not_elem_of_nil|]. destruct (Ascii.eqb c newline).
  - cbn [tl]. intros Hl%Hle. lia.
  - destruct (splitOn newline s) as [|x xs]; cbn [tl] in *; [by intros ?%not_elem_of_nil|]. intros Hl%IH. lia.
Qed.

Definition exBody : string := "preamble" +:+ String newline ("text/html" +:+ String newline ("image/png" +:+ String newline ("text/plain"))).

Lemma body_extraction_exact_witness :
  (exists ls err, leaves (S (String.length exBody)) (exHeader "multipart/mixed") (MkFile exBody None) = Some (ls, err) /\
    extractBodyAndAttachments (exHeader "multipart/mixed") exBody = Some (extractSpec ls err)) /\
  extractBodyAndAttachments (exHeader "multipart/mixed") exBody =
    Some (inr ("text/plain", "text/plain", [MkAttachment "" "" "image/png" "image/png"])).
Proof. split; [exact (@body_extraction_exact exMime exMime_laws (exHeader "multipart/mixed") exBody)|vm_compute; reflexivity]. Defined.

Definition quoted (s : string) : string := String quote (s +:+ String quote EmptyString).

Lemma address_split_roundtrip_witness :
  splitAddressListSegments (joinAddresses [quoted "Doe, Jane" +:+ " <j@x>"; "k@y (late, again)"]) =
    [quoted "Doe, Jane" +:+ " <j@x>"; "k@y (late, again)"].
Proof. apply address_split_roundtrip. repeat constructor; done. Defined.

Lemma body_fingerprint_exact_witness :
  let a := "one  two" +:+ String carriageReturn (String newline (String newline "three")) in
  let b := "one two " +:+ String newline "three" in
  BodyLineFingerprint a = BodyLineFingerprint b <-> bodyLines a = bodyLines b.
Proof. cbv zeta. apply body_fingerprint_exact. intros _. vm_compute. reflexivity. Defined.

End Mail.
