(* ===== verification/ArchiveImport.v ===== *)
(** * Direct archive imports: [source/archive_import.go], [archive_membership.go]

    [Import] walks the roots of an archive, parses its messages and ingests each:
    as a new message with its parts, as a duplicate, or as a variant of the
    message that has its Message-ID already.  FILESTORE is reached through the
    [Source] service, as in the code.  The ingest workers of a root take the
    messages one after another, each into its own report; which worker takes
    which message is up to the world.  The report is part of the state: what was
    counted before an error stays counted. *)

From stdpp Require Import options.
From S2P Require Import Prelude GoLib GoText Contracts Chunker Manifest Meta ObjectStore Jobs Mbox GoPath ArchiveFiles ArchiveState ArchiveQueue SourceService MailMessage.

Local Open Scope Z_scope.

Module Archive.
Import Mail.

(** ** Constants *)

Definition MailIdentitySourceKind : string := "mail_identity".
Definition MailIdentitySourceName : string := "rfc_message_id".
Definition MailVariantFacetKind : string := "mail_message_variant".
Definition MailArchiveMembershipFacetKind : string := "mail_archive_membership".
Definition MailPatchDiffRole : string := "patch_diff".
Definition MailArchiveMetadataRole : string := "archive_data".
Definition MailMessageIdentityRole : string := "mail_identity".
Definition MailMessageVariantRole : string := "mail_variant".
Definition MailArchiveMembershipRole : string := "mail_archive_membership".
Definition MailMessageContentRole : string := "mail_message".
Definition MailMessageContainerRole : string := "container".
Definition MailHeadersRole : string := "rfc822_headers".
Definition MailBodyRole : string := "email_body".
Definition MailAttachmentRole : string := "attachment".
Definition MailMIMEStructureRole : string := "mime_structure".
Definition MailVersionSetDomain : string := "mail_message".
Definition MailBodyLineFingerprint : string := "body_line".
Definition MailSemanticFingerprint : string := "semantic".
Definition VersionSetFacetKind : string := "version_set".
Definition VersionRecordFacetKind : string := "version_record".
Definition VersionDeltaFacetKind : string := "version_delta".
Definition VersionRecordRole : string := "version_record".
Definition VersionRepresentationFull : string := "full".
Definition VersionRepresentationDelta : string := "delta".

Abbreviation message := (archiveMessage Message).

(** ** The report *)

Inductive counter :=
  | Imported | ExactDuplicates | MessageIDDuplicates | GeneratedMessageIDs | LowNoiseSkipped | TrivialSkipped
  | MinorVersions | MajorVersions | Promoted | Collisions.

#[export] Instance counter_eq_dec : EqDecision counter.
Proof. solve_decision. Defined.

(** [report.X++]. *)
Definition count (c : counter) (r : ArchiveImportReport) : ArchiveImportReport :=
  let up x := if decide (c = x) then 1 else 0 in
  MkReport (arSourceName r) (arRunID r) (arScanned r) (arParsed r) (arEnqueued r) (arProcessed r)
    (arImported r + up Imported) (arExactDuplicates r + up ExactDuplicates) (arMessageIDDuplicates r + up MessageIDDuplicates)
    (arGeneratedMessageIDs r + up GeneratedMessageIDs) (arLowNoiseSkipped r + up LowNoiseSkipped)
    (arTrivialSkipped r + up TrivialSkipped) (arMinorVersions r + up MinorVersions) (arMajorVersions r + up MajorVersions)
    (arPromoted r + up Promoted) (arCollisions r + up Collisions) (arParseFailures r) (arSkipped r)
    (arSkippedMessageIDs r) (arFailures r) (arFatalFailures r).

Definition appendSkippedMessageID (messageID : string) (r : ArchiveImportReport) : ArchiveImportReport :=
  if 20 <=? Z.of_nat (length (arSkippedMessageIDs r)) then r else
  MkReport (arSourceName r) (arRunID r) (arScanned r) (arParsed r) (arEnqueued r) (arProcessed r) (arImported r)
    (arExactDuplicates r) (arMessageIDDuplicates r) (arGeneratedMessageIDs r) (arLowNoiseSkipped r) (arTrivialSkipped r)
    (arMinorVersions r) (arMajorVersions r) (arPromoted r) (arCollisions r) (arParseFailures r) (arSkipped r)
    (arSkippedMessageIDs r ++ [messageID]) (arFailures r) (arFatalFailures r).

Definition mergeArchiveIngestReport (dst src : ArchiveImportReport) : ArchiveImportReport :=
  MkReport (arSourceName dst) (arRunID dst) (arScanned dst) (arParsed dst) (arEnqueued dst) (arProcessed dst)
    (arImported dst + arImported src) (arExactDuplicates dst + arExactDuplicates src)
    (arMessageIDDuplicates dst + arMessageIDDuplicates src) (arGeneratedMessageIDs dst + arGeneratedMessageIDs src)
    (arLowNoiseSkipped dst + arLowNoiseSkipped src) (arTrivialSkipped dst + arTrivialSkipped src)
    (arMinorVersions dst + arMinorVersions src) (arMajorVersions dst + arMajorVersions src)
    (arPromoted dst + arPromoted src) (arCollisions dst + arCollisions src) (arParseFailures dst) (arSkipped dst)
    (arSkippedMessageIDs dst ++ arSkippedMessageIDs src) (arFailures dst ++ arFailures src)
    (arFatalFailures dst ++ arFatalFailures src).

(** ** Pure helpers *)

Definition facet (kind : string) (metadata : anyMap) : Facet := MkFacet metadata ∅ kind "" "".

Definition textMap (l : list (string * string)) : anyMap := list_to_map (map (fun kv => (kv.1, AStr kv.2)) l).

Definition identityRef (messageID : string) : SourceObjectRef := MkRef MailIdentitySourceKind MailIdentitySourceName messageID "".

Definition archiveProvenance (sourceName : string) (m : message) : Provenance :=
  MkProvenance (amObservedAt m)
    (textMap [("format", amFormat m); ("source_path", amSourcePath m); ("mailbox", amMailbox m)]) ∅
    sourceName MailArchiveSourceKind (amExternalID m) (amExternalVersion m)
    [MailMessageContentRole; MailHeadersRole; MailBodyRole].

Definition identityProvenance (m : message) : Provenance :=
  MkProvenance (amObservedAt m) ∅ ∅ MailIdentitySourceName MailIdentitySourceKind (mgMessageID (amMessage m)) ""
    [MailMessageIdentityRole].

Definition archiveMailMetadata (m : message) (collision : bool) (maxScale : string) (versionCount : Z) (canonicalVersionID : string) : anyMap :=
  <["archive_source_path" := AStr (amSourcePath m)]> (<["archive_mailbox" := AStr (amMailbox m)]>
    (<["archive_format" := AStr (amFormat m)]> (Metadata (amMessage m) collision maxScale versionCount canonicalVersionID))).

Definition mailFacetMetadata (manifest : Manifest) : anyMap :=
  default ∅ (fMetadata <$> List.find (fun f => bool_decide (FacetKind f = MailMessageFacetKind)) (mFacets manifest)).

Definition promotedCanonicalVersionID (promote : bool) (m : message) : string := if promote then mgFingerprint (amMessage m) else "".

Definition firstNonEmptyDigest (values : list ObjectDigest) : ObjectDigest :=
  default "" (List.find (fun v => negb (bool_decide (v = ""))) values).

Definition versionCount (manifest : Manifest) : Z :=
  let count := intFromAny (mailFacetMetadata manifest !! "version_count") in
  if 0 <? count then count else
  let count := Z.of_nat (length (List.filter (fun p => bool_decide (cpRole p = VersionRecordRole)) (cParts (mCompound manifest)))) in
  if count =? 0 then 1 else count.

Definition versionRank (scale : string) : Z :=
  if bool_decide (scale = VersionScaleMajor) then 2 else if bool_decide (scale = VersionScaleMinor) then 1 else 0.

Definition maxVersionScale (left right : string) : string :=
  if versionRank left <? versionRank right then right else if negb (bool_decide (left = "")) then left else right.

Definition linePatch (base target : string) : string :=
  let signed sign lines := foldl (fun out line => if bool_decide (line = "") then out
    else out +:+ sign +:+ line +:+ String newline "") "" lines in
  "gmeow-patch-v1" +:+ String newline ("--- canonical" +:+ String newline ("+++ variant" +:+ String newline
    (signed "-" (splitOn newline base) +:+ signed "+" (splitOn newline target)))).

(** [bytes.NewReader]. *)
Definition newReader (payload : string) : Reader :=
  MkReader (if bool_decide (payload = "") then [] else [(String.list_byte_of_string payload, NoErr)]) [].

(** ** What an import works with *)

Class ArchiveEnv (W : Type) := {
  aeAttachProvenanceWithPriority : ObjectDigest -> list Provenance -> string -> SM W unit;
  aeReadAll : ObjectDigest -> SM W string;          (* store.Open, and io.ReadAll *)
  aeAcquire : SM W unit;                            (* acquireIngest(ctx): a slot, or ctx.Err() *)
  aeCtxErr : SM W unit;
  aeWorker : W -> nat * W;                          (* the worker that receives from the channel *)
  aeFS : FileSystem;
  aeJSON : Any -> string;                           (* encoding/json *)
  aeSprint : Any -> string;                         (* fmt.Sprint of a value that is no string *)
  aeEqualFold : string -> string -> bool }.

(** The wrapped store of [NewArchiveImporter]: every write has a priority class. *)
Definition archivePriorityClient {W} (store : Source.FilestoreClient W) (priorityClass : string) : Source.FilestoreClient W :=
  let prioritised class := if bool_decide (class = "") then priorityClass else class in
  {| Source.fcLookupSourceObject := Source.fcLookupSourceObject; Source.fcTryAcquireSourceIngest := Source.fcTryAcquireSourceIngest;
     Source.fcReleaseSourceIngest := Source.fcReleaseSourceIngest;
     Source.fcPut r := Source.fcPut (Source.MkRpcPut (Source.rpPut r) (prioritised (Source.rpPriorityClass r)));
     Source.fcPutCompound r := Source.fcPutCompound (Source.MkRpcCompoundPut (Source.rcPut r) (prioritised (Source.rcPriorityClass r)));
     Source.fcReadManifest := Source.fcReadManifest; Source.fcWriteSourceCursor := Source.fcWriteSourceCursor;
     Source.fcReadSourceCursor := Source.fcReadSourceCursor |}.

(** The service, and the report a message is counted in. *)
Record Ingesting (W : Type) := MkIng { igService : Source.Service W; igReport : ArchiveImportReport }.
Arguments MkIng {W} _ _.
Arguments igService {W} _.
Arguments igReport {W} _.

Section ingest.
Context {W : Type} {store : Source.FilestoreClient W} {senv : Source.SourceEnv W} {aenv : ArchiveEnv W} {mlib : MimeLib}.

#[local] Instance prioritized : Source.FilestoreClient W := archivePriorityClient store PriorityRepair.

Abbreviation Imp := (SM (Ingesting W)).

Definition counting (f : ArchiveImportReport -> ArchiveImportReport) : Imp unit :=
  smodify (fun s => MkIng (igService s) (f (igReport s))).
Definition service {A} (m : SM (Source.Service W) A) : Imp A := fun s => let '(r, v) := m (igService s) in (r, MkIng v (igReport s)).
Definition world {A} (m : SM W A) : Imp A := service (Source.onWorld m).

Definition ingest (object : Source.IngestObject) : Imp (ObjectDigest * bool) := service (Source.Ingest object).

(** [importer.store.AttachProvenance]. *)
Definition AttachProvenance (digest : ObjectDigest) (provenance : list Provenance) : Imp unit :=
  world (aeAttachProvenanceWithPriority digest provenance PriorityRepair).

Definition stringValue (v : option Any) : string :=
  match v with None | Some ANil => "" | Some (AStr s) => s | Some a => aeSprint a end.

Definition sha256Hex (content : string) : string := mlSha256 content.

(** An object the importer stores next to a message, under an identifier of its own. *)
Definition sideObject (sourceName : string) (m : message) (suffix payload mediaType hint : string) (roles : list string)
    (facets : list Facet) : Source.IngestObject :=
  Source.MkIngest (amObservedAt m) (Some (newReader payload)) None mediaType MailArchiveSourceKind sourceName
    (amExternalID m +:+ suffix) (amExternalVersion m) hint "" roles facets [] [].

Definition compoundObject (sourceName : string) (m : message) (suffix hint : string) (c : CompoundPutRequest) : Source.IngestObject :=
  Source.MkIngest (amObservedAt m) None (Some (Source.MkRpcCompoundPut c "")) "" MailArchiveSourceKind sourceName
    (amExternalID m +:+ suffix) (amExternalVersion m) hint "" [] [] [] [].

(** *** Parts *)

Record partIngestJob := MkPartJob { pjObject : Source.IngestObject; pjPart : CompoundPart }.

Definition part (role : string) (order : Z) (metadata : anyMap) : CompoundPart := MkPart metadata "" role order false.
Definition withDigest (d : ObjectDigest) (p : CompoundPart) : CompoundPart := MkPart (cpMetadata p) d (cpRole p) (cpOrder p) (cpRequired p).

(** One job: the slot, the ingest; an error is kept next to the parts. *)
Definition ingestMessagePart (acc : list CompoundPart * option GoError) (job : partIngestJob) : Imp (list CompoundPart * option GoError) :=
  r ← stry (world aeAcquire);
  match r with
  | inl e => mret (acc.1, Some (default e acc.2))
  | inr _ =>
      r ← stry (ingest (pjObject job));
      match r with
      | inl e => mret (acc.1, Some (default e acc.2))
      | inr (digest, _) => mret (acc.1 ++ [withDigest digest (pjPart job)], acc.2)
      end
  end.

Definition ingestMessageParts (jobs : list partIngestJob) : Imp (list CompoundPart) :=
  r ← sforM jobs ([], None) ingestMessagePart;
  match r.2 with Some e => sfail e | None => mret r.1 end.

Definition headerRows (m : message) : string :=
  aeJSON (AList (map (fun kv => AMap [("name", AStr kv.1); ("value", AStr kv.2)]) (SortedHeaderRows (mgHeaders (amMessage m))))).

Definition archiveData (m : message) (variant : bool) : string :=
  aeJSON (AMap [("canonical_fingerprint", AStr (mgFingerprint (amMessage m))); ("external_id", AStr (amExternalID m));
    ("external_version", AStr (amExternalVersion m)); ("format", AStr (amFormat m));
    ("generated_message_id", ABool (mgGeneratedMessage (amMessage m))); ("mailbox", AStr (amMailbox m));
    ("message_id", AStr (mgMessageID (amMessage m))); ("source_path", AStr (amSourcePath m)); ("variant", ABool variant)]).

(** [`{"source":"archive_import"}`]. *)
Definition mimeStructure : string :=
  let q := String quote "" in "{" +:+ q +:+ "source" +:+ q +:+ ":" +:+ q +:+ "archive_import" +:+ q +:+ "}".

Definition inputJob (sourceName : string) (m : message) (i : string * string * string * Z * string) : partIngestJob :=
  let '(role, mediaType, payload, order, kind) := i in
  MkPartJob (sideObject sourceName m (":" +:+ role) payload mediaType role [role] [facet kind ∅]) (part role order ∅).

Definition attachmentJob (sourceName : string) (m : message) (index : nat) (a : Attachment) : partIngestJob :=
  MkPartJob
    (sideObject sourceName m (":attachment:" +:+ FormatUint (N.of_nat index) +:+ ":" +:+ atFileName a) (atContent a)
       (firstNonEmpty [atMediaType a; "application/octet-stream"]) (atFileName a) [MailAttachmentRole]
       [facet "file" (textMap [("display_name", atFileName a)])])
    (part MailAttachmentRole (10 + Z.of_nat index) (textMap [("filename", atFileName a)])).

Definition messageJobs (sourceName : string) (m : message) (variant : bool) : list partIngestJob :=
  map (inputJob sourceName m)
    [(MailHeadersRole, "text/rfc822-headers", headerRows m, 0, "email_part");
     (MailBodyRole, firstNonEmpty [mgBodyMediaType (amMessage m); "text/plain"], mgBody (amMessage m), 1, "email_part");
     (MailArchiveMetadataRole, "application/json", archiveData m variant, 2, "file");
     (MailMIMEStructureRole, "application/vnd.gmeow.mime-structure+json", mimeStructure, 3, "email_part")] ++
  imap (attachmentJob sourceName m) (mgAttachments (amMessage m)).

Definition writeArchiveMessageParts (sourceName : string) (m : message) (variant : bool) : Imp (list CompoundPart) :=
  ingestMessageParts (messageJobs sourceName m variant).

(** *** Version records and patches *)

Definition omitEmpty (key value : string) : list (string * Any) := if bool_decide (value = "") then [] else [(key, AStr value)].

Definition writeVersionRecord (sourceName : string) (m : message) (representation scale : string) (canonical : bool)
    (baseVersionID : string) (baseDigest deltaDigest : ObjectDigest) : Imp ObjectDigest :=
  let mail := amMessage m in
  let promoted := canonical && negb (bool_decide (baseVersionID = "")) in
  let fullDigest := if bool_decide (representation = VersionRepresentationFull) then baseDigest else "" in
  let versionSetID := "mail_message:" +:+ mgMessageID mail in
  let payload := aeJSON (AMap (omitEmpty "observed_at" (Source.seFormatTime (amObservedAt m)) ++
    [("representation", AStr representation); ("version_id", AStr (mgFingerprint mail)); ("version_set_id", AStr versionSetID);
     ("domain_kind", AStr MailVersionSetDomain); ("logical_id", AStr (mgMessageID mail))] ++
    omitEmpty "base_version_id" baseVersionID ++ omitEmpty "base_digest" baseDigest ++ omitEmpty "full_digest" fullDigest ++
    omitEmpty "delta_digest" deltaDigest ++
    [("target_hash", AStr (mgFingerprint mail)); ("canonicalization_version", AStr "mail-archive-v1"); ("scale", AStr scale);
     ("canonical", ABool canonical)] ++ (if promoted then [("promoted", ABool true)] else []) ++
    [("input_fingerprints", AMap [(MailBodyLineFingerprint, AStr (mgBodyLineHash mail)); (MailSemanticFingerprint, AStr (mgFingerprint mail))])])) in
  let metadata := <["canonical" := ABool canonical]> (<["promoted" := ABool promoted]> (<["generated_msg_id" := ABool (mgGeneratedMessage mail)]>
    (textMap [("version_id", mgFingerprint mail); ("version_set_id", versionSetID); ("domain_kind", MailVersionSetDomain);
      ("logical_id", mgMessageID mail); ("representation", representation); ("scale", scale); ("target_hash", mgFingerprint mail);
      ("body_line_hash", mgBodyLineHash mail); ("base_version_id", baseVersionID); ("base_digest", baseDigest);
      ("delta_digest", deltaDigest); ("source_path", amSourcePath m); ("source_format", amFormat m); ("source_mailbox", amMailbox m)]))) in
  r ← ingest (sideObject sourceName m ":version_record" payload "application/vnd.gmeow.version-record+json" "version record"
    [VersionRecordRole] [facet VersionRecordFacetKind metadata]);
  mret r.1.

Definition canonicalPartContent (manifest : Manifest) (role : string) : Imp string :=
  match List.find (fun p => bool_decide (cpRole p = role)) (cParts (mCompound manifest)) with
  | Some p => world (aeReadAll (cpDigest p))
  | None => mret ""
  end.

Definition patchFacet (canonical : Manifest) (target role : string) : Facet :=
  facet VersionDeltaFacetKind (textMap [("base_digest", mObjectDigest canonical); ("target_sha256", sha256Hex target);
    ("codec", "gmeow-patch-v1"); ("role", role)]).

Definition writeVariantPatches (sourceName : string) (canonical : Manifest) (m : message) : Imp (ObjectDigest * ObjectDigest) :=
  canonicalHeaders ← canonicalPartContent canonical MailHeadersRole;
  canonicalBody ← canonicalPartContent canonical MailBodyRole;
  let headerTarget := headerRows m in
  let body := mgBody (amMessage m) in
  h ← ingest (sideObject sourceName m ":header_patch" (linePatch canonicalHeaders headerTarget) "text/x-gmeow-patch" "header patch"
    [MailPatchDiffRole] [patchFacet canonical headerTarget MailHeadersRole]);
  b ← ingest (sideObject sourceName m ":body_patch" (linePatch canonicalBody body) "text/x-gmeow-patch" "body patch"
    [MailPatchDiffRole] [patchFacet canonical body MailBodyRole]);
  mret (h.1, b.1).

(** The part of the canonical body. *)
Definition canonicalBody (manifest : Manifest) : option CompoundPart :=
  List.find (fun p => bool_decide (cpRole p = MailBodyRole) && (cpOrder p =? 1)) (cParts (mCompound manifest)).

Definition canonicalBodyOrder (manifest : Manifest) (incomingSize : Z) : Imp Z :=
  match canonicalBody manifest with
  | Some p =>
      r ← stry (world (Source.fcReadManifest (cpDigest p)));
      mret (match r with inr bodyManifest => if mSize bodyManifest <? incomingSize then 1 else 1000 | inl _ => 1000 end)
  | None => mret 1
  end.

Definition shouldPromoteCanonical (manifest : Manifest) (m : message) : Imp bool :=
  match canonicalBody manifest with
  | Some p =>
      r ← stry (world (Source.fcReadManifest (cpDigest p)));
      mret (match r with inr bodyManifest => mSize bodyManifest <? slen (mgBody (amMessage m)) | inl _ => false end)
  | None => mret false
  end.

(** The body part gets the order, the first of them only. *)
Fixpoint setBodyOrder (order : Z) (parts : list CompoundPart) : list CompoundPart :=
  match parts with
  | [] => []
  | p :: r => if bool_decide (cpRole p = MailBodyRole) then MkPart (cpMetadata p) (cpDigest p) (cpRole p) order (cpRequired p) :: r
              else p :: setBodyOrder order r
  end.

Definition archiveVersionScale (metadata : anyMap) (m : message) : string :=
  let mail := amMessage m in
  if bool_decide (stringValue (metadata !! "body_line_fingerprint") = mgBodyLineHash mail) then VersionScaleTrivial
  else if aeEqualFold (stringValue (metadata !! "subject")) (mgSubject mail) && aeEqualFold (stringValue (metadata !! "from")) (mgFrom mail)
    && aeEqualFold (stringValue (metadata !! "to")) (mgTo mail) then VersionScaleMinor
  else VersionScaleMajor.

(** *** Messages *)

Definition versionSetFacet (m : message) (canonicalVersionID : string) (versions : Z) (maxScale : string) : Facet :=
  facet VersionSetFacetKind (<["version_count" := AInt versions]> (textMap [("domain_kind", MailVersionSetDomain);
    ("logical_id", mgMessageID (amMessage m)); ("canonical_version_id", canonicalVersionID); ("max_scale", maxScale);
    ("updated_at", Source.seFormatTime (amObservedAt m))])).

Definition messagePut (m : message) (mailMetadata : anyMap) (versionSet : Facet) (provenance : list Provenance) (parts : list CompoundPart) :
    CompoundPutRequest :=
  MkCompoundPut ("mail_message:" +:+ mgMessageID (amMessage m)) MediaType (mgSubject (amMessage m))
    [MailMessageContentRole; MailMessageContainerRole] [facet MailMessageFacetKind mailMetadata; versionSet; facet "container" ∅]
    provenance [] parts.

Definition ingestCanonicalMessage (sourceName : string) (m : message) : Imp (ObjectDigest * bool) :=
  parts ← writeArchiveMessageParts sourceName m false;
  recordDigest ← writeVersionRecord sourceName m VersionRepresentationFull VersionScaleMinor true "" "" "";
  let parts := parts ++ [withDigest recordDigest (part VersionRecordRole 100 ∅)] in
  let fingerprint := mgFingerprint (amMessage m) in
  ingest (compoundObject sourceName m "" (mgSubject (amMessage m))
    (messagePut m (archiveMailMetadata m false VersionScaleMinor 1 fingerprint) (versionSetFacet m fingerprint 1 VersionScaleMinor)
       [archiveProvenance sourceName m; identityProvenance m] parts)).

(** The compound a variant is recorded as. *)
Definition variantObject (sourceName : string) (m : message) (scale : string) (versions : Z) (parts : list CompoundPart) : Source.IngestObject :=
  compoundObject sourceName m ":variant" ("variant " +:+ mgSubject (amMessage m))
    (MkCompoundPut ("mail_message_variant:" +:+ mgFingerprint (amMessage m)) "application/vnd.gmeow.mail-message-variant+json" ""
       [MailMessageVariantRole] [facet MailVariantFacetKind (archiveMailMetadata m true scale versions (mgFingerprint (amMessage m)))]
       [archiveProvenance sourceName m] [] parts).

Definition ingestVariantMessage (sourceName : string) (canonical : ObjectDigest) (manifest : Manifest) (m : message) (scale : string) : Imp unit :=
  let mail := amMessage m in
  let known := mailFacetMetadata manifest in
  parts ← writeArchiveMessageParts sourceName m true;
  bodyOrder ← canonicalBodyOrder manifest (slen (mgBody mail));
  let parts := setBodyOrder bodyOrder parts in
  promote ← shouldPromoteCanonical manifest m;
  patches ← writeVariantPatches sourceName manifest m;
  let '(headerPatch, bodyPatch) := patches in
  recordDigest ← writeVersionRecord sourceName m VersionRepresentationDelta scale promote (stringValue (known !! "canonical_version_id"))
    canonical (firstNonEmptyDigest [bodyPatch; headerPatch]);
  let canonicalParts := withDigest recordDigest (part VersionRecordRole (100 + versionCount manifest) ∅) :: (if promote : bool then parts else []) in
  let maxScale := maxVersionScale (stringValue (known !! "max_scale")) scale in
  let nextVersionCount := versionCount manifest + 1 in
  let canonicalVersionID := firstNonEmpty [promotedCanonicalVersionID promote m; stringValue (known !! "canonical_version_id")] in
  let canonicalMailMetadata := if promote : bool then archiveMailMetadata m true maxScale nextVersionCount canonicalVersionID else
    <["canonical_version_id" := AStr canonicalVersionID]> (<["max_scale" := AStr maxScale]>
      (<["version_count" := AInt nextVersionCount]> (<["message_id_collision" := ABool true]> known))) in
  _ ← ingest (compoundObject sourceName m "" (mgSubject mail)
    (messagePut m canonicalMailMetadata (versionSetFacet m canonicalVersionID nextVersionCount maxScale)
       [archiveProvenance sourceName m] canonicalParts));
  _ ← (if promote : bool then counting (count Promoted) else mret tt);
  let variantParts := (if bool_decide (headerPatch = "") then [] else [withDigest headerPatch (part MailPatchDiffRole 0 ∅)]) ++
    (if bool_decide (bodyPatch = "") then [] else [withDigest bodyPatch (part MailPatchDiffRole 1 ∅)]) in
  if bool_decide (variantParts = []) then mret tt else
  _ ← ingest (variantObject sourceName m scale nextVersionCount variantParts);
  mret tt.

Definition writeArchiveMembershipRecord (sourceName : string) (m : message) (canonical : ObjectDigest) : Imp unit :=
  let mail := amMessage m in
  let payload := aeJSON (AMap [("body_line_fingerprint", AStr (mgBodyLineHash mail)); ("canonical_digest", AStr canonical);
    ("external_id", AStr (amExternalID m)); ("external_version", AStr (amExternalVersion m)); ("format", AStr (amFormat m));
    ("mailbox", AStr (amMailbox m)); ("message_id", AStr (mgMessageID mail)); ("source_path", AStr (amSourcePath m))]) in
  let metadata := <["generated_message_id" := ABool (mgGeneratedMessage mail)]> (<["version_count" := AInt 0]>
    (textMap [("rfc_message_id", mgMessageID mail); ("canonical_digest", canonical); ("body_line_fingerprint", mgBodyLineHash mail);
      ("archive_format", amFormat m); ("archive_mailbox", amMailbox m); ("archive_source_path", amSourcePath m);
      ("max_scale", VersionScaleTrivial)])) in
  _ ← ingest (sideObject sourceName m ":membership" payload "application/vnd.gmeow.mail-archive-membership+json" "archive membership"
    [MailArchiveMembershipRole] [facet MailArchiveMembershipFacetKind metadata]);
  mret tt.

(** A message of a known Message-ID that is kept as a membership record only. *)
Definition skipLowNoise (sourceName : string) (m : message) (canonical : ObjectDigest) : Imp unit :=
  _ ← counting (count LowNoiseSkipped);
  _ ← counting (count TrivialSkipped);
  _ ← counting (appendSkippedMessageID (mgMessageID (amMessage m)));
  writeArchiveMembershipRecord sourceName m canonical.

Definition ingestDuplicateOrVariant (sourceName : string) (canonical : ObjectDigest) (m : message) (lowNoise : bool) : Imp unit :=
  manifest ← world (Source.fcReadManifest canonical);
  let metadata := mailFacetMetadata manifest in
  if bool_decide (stringValue (metadata !! "body_line_fingerprint") = mgBodyLineHash (amMessage m)) then
    _ ← counting (count MessageIDDuplicates);
    if lowNoise then skipLowNoise sourceName m canonical
    else AttachProvenance canonical [archiveProvenance sourceName m]
  else
    let scale := archiveVersionScale metadata m in
    if lowNoise && bool_decide (scale = VersionScaleTrivial) then skipLowNoise sourceName m canonical else
    _ ← counting (count Collisions);
    _ ← counting (count (if bool_decide (scale = VersionScaleMajor) then MajorVersions else MinorVersions));
    ingestVariantMessage sourceName canonical manifest m scale.

(** Under the lock of the Message-ID. *)
Definition ingestArchiveMessage (sourceName : string) (m : message) (dryRun lowNoise : bool) : Imp unit :=
  _ ← (if mgGeneratedMessage (amMessage m) then counting (count GeneratedMessageIDs) else mret tt);
  if dryRun then counting (count Imported) else
  existing ← world (Source.fcLookupSourceObject (identityRef (mgMessageID (amMessage m))));
  match existing with
  | Some canonical => ingestDuplicateOrVariant sourceName canonical m lowNoise
  | None =>
      r ← ingestCanonicalMessage sourceName m;
      let '(digest, created) := r in
      _ ← counting (count (if created : bool then Imported else ExactDuplicates));
      if bool_decide (digest = "") then sfail (ErrMsg "archive import produced empty digest") else mret tt
  end.

(** *** Roots *)

(** The service, the shared report, and a report per ingest worker. *)
Record Importer := MkImporter { imService : Source.Service W; imReport : ArchiveImportReport; imLocals : list ArchiveImportReport }.

Abbreviation Run := (SM Importer).

Definition reporting (f : ArchiveImportReport -> ArchiveImportReport) : Run unit :=
  smodify (fun s => MkImporter (imService s) (f (imReport s)) (imLocals s)).
Definition onWorld {A} (m : SM W A) : Run A := fun s =>
  let '(r, v) := Source.onWorld m (imService s) in (r, MkImporter v (imReport s) (imLocals s)).

(** One message into a report: an error is a failure in it. *)
Definition ingestInto (sourceName : string) (m : message) (request : ArchiveImportRequest) : Imp unit :=
  r ← stry (ingestArchiveMessage sourceName m (aqDryRun request) (aqLowNoise request));
  match r with inl e => counting (appendArchiveFailure e) | inr _ => mret tt end.

(** The message of a root that is a file goes to the shared report. *)
Definition ingestShared (sourceName : string) (m : message) (request : ArchiveImportRequest) : Run unit := fun s =>
  let '(r, i) := ingestInto sourceName m request (MkIng (imService s) (imReport s)) in
  (r, MkImporter (igService i) (igReport i) (imLocals s)).

Definition noReport : ArchiveImportReport := newReport "" "" 0 0 0 0.

(** A worker takes a message. *)
Definition receive (sourceName : string) (request : ArchiveImportRequest) (m : message) (worker : nat) : Run unit := fun s =>
  let k := (worker mod length (imLocals s))%nat in
  let '(r, i) := ingestInto sourceName m request (MkIng (imService s) (default noReport (imLocals s !! k))) in
  (r, MkImporter (igService i) (imReport s) (<[k := igReport i]> (imLocals s))).

(** [messages <- message]. *)
Definition send (sourceName : string) (request : ArchiveImportRequest) (m : message) : Run unit :=
  worker ← onWorld (fun w => (Ok (aeWorker w).1, (aeWorker w).2)); receive sourceName request m worker.

Definition stamp (now : Time) (m : message) : message :=
  MkArchiveMessage (amMessage m) now (amSourcePath m) (amMailbox m) (amFormat m) (amExternalID m) (amExternalVersion m).

(** [mailmessage.Parse] returns for every message ([Parse_total]). *)
Definition mailParse (raw hint : string) : GoError + Message := default (inl (ErrMsg "mail")) (Parse raw hint).

Definition parseMessageFile (path root format : string) : Run (GoError + message) :=
  t ← onWorld Source.seNow;
  mret (parseArchiveFile mailParse sha256Hex aeFS t path root format 0).

Definition importEntry (request : ArchiveImportRequest) (sourceName root path name : string) (dir : bool) (err : option GoError) : Run bool :=
  match err with
  | Some e => _ ← reporting (appendArchiveFatalFailure e); mret false
  | None =>
      _ ← onWorld aeCtxErr;
      if dir then mret (shouldSkipArchiveDir name)
      else if shouldSkipArchiveFile name then _ ← reporting addSkipped; mret false
      else
        let format := detectArchiveFileFormat aeFS path (aqFormat request) in
        if bool_decide (format = "") then _ ← reporting addSkipped; mret false else
        _ ← reporting addScanned;
        r ← (if bool_decide (format = ArchiveImportFormatMbox) then
               stry (forEachMboxMessage
                 (fun raw offset => parseArchiveMessage mailParse sha256Hex zeroTime raw path root ArchiveImportFormatMbox offset)
                 (fsOpen aeFS path)
                 (fun m => t ← onWorld Source.seNow; _ ← reporting addParsed; send sourceName request (stamp t m)))
             else
               r ← parseMessageFile path root format;
               match r with
               | inl e => mret (inl e)
               | inr m => _ ← reporting addParsed; _ ← send sourceName request m; mret (inr tt)
               end);
        _ ← (match r with
             | inl e => _ ← reporting addParseFailure; reporting (appendArchiveFailure e)
             | inr _ => mret tt
             end);
        mret false
  end.

Definition mergeLocals : Run unit :=
  smodify (fun s => MkImporter (imService s) (foldl mergeArchiveIngestReport (imReport s) (imLocals s)) []).

(** The workers of a root end before the root does. *)
Definition importRoot (concurrency : Z) (request : ArchiveImportRequest) (sourceName root : string) : Run unit :=
  let root := Clean root in
  match fsStat aeFS root with
  | inl e => sfail e
  | inr TFile =>
      r ← parseMessageFile root root (aqFormat request);
      match r with
      | inl e => _ ← reporting addParseFailure; reporting (appendArchiveFailure e)
      | inr m => _ ← reporting addScanned; _ ← reporting addParsed; ingestShared sourceName m request
      end
  | inr t =>
      let workers := Z.to_nat (Z.max 1 concurrency) in
      _ ← smodify (fun s => MkImporter (imService s) (imReport s) (replicate workers noReport));
      r ← stry (WalkDir (importEntry request sourceName root) root t);
      _ ← mergeLocals;
      match r with inl e => sfail e | inr _ => mret tt end
  end.

Definition importRoots (concurrency : Z) (request : ArchiveImportRequest) (sourceName : string) : Run unit :=
  sforM (aqRoots request) tt (fun _ root =>
    r ← stry (importRoot concurrency request sourceName root);
    match r with inl e => reporting (appendArchiveFatalFailure e) | inr _ => mret tt end).

Section import.
Context {files : StateFiles W} {J : RunJSON}.

(** The messages are counted first when someone watches the progress. *)
Definition importBody (concurrency : Z) (progress : bool) (request : ArchiveImportRequest) (sourceName : string) : Run (option GoError) :=
  r ← (if progress then stry (onWorld (countArchiveImportMessages aeFS aeCtxErr (aqRoots request) (aqFormat request))) else mret (inr 0));
  match r with
  | inl e => _ ← reporting (appendArchiveFatalFailure e); mret (Some e)
  | inr _ =>
      _ ← importRoots concurrency request sourceName;
      report ← sget imReport;
      mret (if bool_decide (arFatalFailures report = []) then None
            else Some (ErrMsg "archive import completed with fatal failure(s)"))
  end.

(** The run record is written before and, by the deferred function, after. *)
Definition withRunRecord (request : ArchiveImportRequest) (sourceName runID : string) (body : Run (option GoError)) : Run (option GoError) :=
  if aqDryRun request then body else
  t ← onWorld Source.seNow;
  let record := startRecord request sourceName runID t in
  _ ← stry (onWorld (WriteImportRunRecord (aqStateDir request) record));
  r ← body;
  report ← sget imReport;
  t ← onWorld Source.seNow;
  _ ← stry (onWorld (WriteImportRunRecord (aqStateDir request) (finishRecord (archiveImportRunStatus report) t report record)));
  mret r.

(** The report and the error of [ArchiveImporter.Import]. *)
Definition Import (concurrency : Z) (progress : bool) (request : ArchiveImportRequest) (v : Source.Service W) :
    res (ArchiveImportReport * option GoError) * Source.Service W :=
  let sourceName := TrimSpace (aqSourceName request) in
  match (if bool_decide (sourceName = "") then head (aqRoots request) ≫= (fun root => Some (sourceNameFromRoot root)) else Some sourceName) with
  | None => (Ok (noReport, Some (ErrMsg "archive import root is required")), v)
  | Some sourceName =>
      let runID := archiveImportRunID sha256Hex request sourceName in
      match withRunRecord request sourceName runID (importBody concurrency progress request sourceName)
              (MkImporter v (newReport sourceName runID 0 0 0 0) []) with
      | (Ok err, s) => (Ok (imReport s, err), imService s)
      | (Err e, s) => (Ok (imReport s, Some e), imService s)
      | (Panic, s) => (Panic, imService s)
      end
  end.

End import.
End ingest.
Arguments Importer : clear implicits.

(** ** Programs that keep an invariant and follow a relation *)

Section safe.
Context {S : Type} (I : S -> Prop) (T : S -> S -> Prop) `{!PreOrder T}.
#[local] Set Default Proof Using "Type*".

Definition safe {A} (m : SM S A) : Prop := forall s, I s -> post m s (fun _ s' => I s' /\ T s s').

Lemma safe_ret {A} (a : A) : safe (mret a).
Proof. intros s Hs. by split. Qed.

Lemma safe_fail {A} e : safe (sfail e : SM S A).
Proof. intros s Hs. by split. Qed.

Lemma safe_get {A} (f : S -> A) : safe (sget f).
Proof. intros s Hs. by split. Qed.

Lemma safe_modify (f : S -> S) : (forall s, I s -> I (f s) /\ T s (f s)) -> safe (smodify f).
Proof. intros Hf s Hs. by apply Hf. Qed.

Lemma safe_seq {A B} (m : SM S A) (k : A -> SM S B) : safe m -> (forall a, safe (k a)) -> safe (m ≫= k).
Proof.
  intros Hm Hk s Hs. apply post_bind. eapply post_mono; [by apply Hm|]. cbn beta. intros [e|a] s1 [H1 HT1]; [done|].
  eapply post_mono; [by apply Hk|]. cbn beta. intros r s2 [H2 HT2]. split; [done|by etrans].
Qed.

Lemma safe_try {A} (m : SM S A) : safe m -> safe (stry m).
Proof using Type. intros Hm s Hs. apply post_try. by apply Hm. Qed.

Lemma safe_sforM {A B} (l : list A) (acc : B) (f : B -> A -> SM S B) : (forall b a, safe (f b a)) -> safe (sforM l acc f).
Proof.
  intros Hf. revert acc. induction l as [|a l IH]; intros acc; cbn [sforM]; [apply safe_ret|]. apply safe_seq; [apply Hf|intros; apply IH].
Qed.

Lemma safe_assoc {A B C} (m : SM S A) (k : A -> SM S B) (h : B -> SM S C) : safe ((m ≫= k) ≫= h) -> safe (m ≫= fun a => k a ≫= h).
Proof using Type. intros H s Hs. specialize (H s Hs). unfold post, mbind, SM_bind in *. by destruct (m s) as [[]]. Qed.

(** One step more at the front of a postcondition. *)
Lemma safe_post {A B} (m : SM S A) (k : A -> SM S B) s Q : safe m -> I s ->
  (forall e s', I s' -> T s s' -> Q (inl e) s') -> (forall a s', I s' -> T s s' -> post (k a) s' Q) -> post (m ≫= k) s Q.
Proof. intros Hm Hs He Hk. apply post_bind. eapply post_mono; [by apply Hm|]. cbn beta. intros [e|a] s' [H1 H2]; auto. Qed.

End safe.

#[export] Hint Resolve safe_ret safe_fail safe_get safe_seq safe_try safe_sforM : gm.

(** ** What the calls of an import keep *)

Section obey.
Context {W : Type} {store : Source.FilestoreClient W} {senv : Source.SourceEnv W} {aenv : ArchiveEnv W} {mlib : MimeLib}.

(** [R] is a relation between worlds, [okp] the provenance that may be written. *)
Context (R : W -> W -> Prop) `{!PreOrder R} (okp : Provenance -> Prop).

Definition ok {A} (m : SM W A) : Prop := safe (fun _ => True) R m.

Record obeys : Prop := {
  ob_lookup : forall ref, ok (Source.fcLookupSourceObject ref);
  ob_acquire : forall ref, ok (Source.fcTryAcquireSourceIngest ref);
  ob_release : forall c, ok (Source.fcReleaseSourceIngest c);
  ob_put : forall r, Forall okp (prProvenance (Source.rpPut r)) -> ok (Source.fcPut r);
  ob_putCompound : forall r, Forall okp (cpProvenance (Source.rcPut r)) -> ok (Source.fcPutCompound r);
  ob_readManifest : forall d, ok (Source.fcReadManifest d);
  ob_now : ok Source.seNow;
  ob_notify : forall d, ok (Source.seNotify d);
  ob_attach : forall d ps c, Forall okp ps -> ok (aeAttachProvenanceWithPriority d ps c);
  ob_readAll : forall d, ok (aeReadAll d);
  ob_slot : ok aeAcquire;
  ob_ctx : ok aeCtxErr;
  ob_worker : forall w, R w (aeWorker w).2 }.

(** Provenance of the archive itself may be written. *)
Definition archive_ok : Prop := forall p, pSourceKind p = MailArchiveSourceKind -> okp p.

Context (Hob : obeys) (Harch : archive_ok).
#[local] Set Default Proof Using "Type*".

Definition svT (s s' : Source.Service W) : Prop := R (Source.svWorld s) (Source.svWorld s').

#[export] Instance svT_pre : PreOrder svT.
Proof. split; [intros s; unfold svT; reflexivity|]. intros s1 s2 s3 H1 H2. unfold svT in *. by etrans. Qed.

Definition sv_ok {A} (m : SM (Source.Service W) A) : Prop := safe Source.cache_ok svT m.

Lemma sv_world {A} (m : SM W A) : ok m -> sv_ok (Source.onWorld m).
Proof using Type.
  intros Hm s Hs. specialize (Hm (Source.svWorld s) I). unfold post, Source.onWorld in *.
  by destruct (m (Source.svWorld s)) as [[a|e|] w]; [destruct Hm as [_ Hm]..|].
Qed.

Lemma sv_log e : sv_ok (Source.log e).
Proof. apply safe_modify; [apply _|]. intros s Hs. split; [exact Hs|]. unfold svT. reflexivity. Qed.

Lemma sv_lookup ref : sv_ok (Source.lookupSourceObject ref).
Proof.
  intros s Hs. unfold Source.lookupSourceObject. apply post_bind. unfold post at 1, sget.
  destruct (Source.Get_entries _ (Source.sourceRefKey ref) _ Hs) as (r & c' & Hg & He & _).
  apply post_bind. unfold post at 1, spanic. rewrite Hg. apply post_bind. unfold post at 1, smodify. cbn [fst snd].
  assert (Source.cache_ok (Source.set_lookup c' s) /\ svT s (Source.set_lookup c' s)) as [Hc1 HT1] by (split; [exact He|unfold svT; reflexivity]).
  destruct r as [d|]; [by apply post_ret|]. eapply post_bind, post_mono; [apply sv_world; [apply (ob_lookup Hob)|exact Hc1]|].
  cbn beta. intros [e|[d|]] s2 [Hc2 HT2]; [split; [done|by etrans]| |apply post_ret; split; [done|by etrans]].
  apply post_bind. unfold post at 1, sget. destruct (Source.Put_entries (fun _ _ => True) (Source.sourceRefKey ref) d _ Hc2 I) as (c2 & Hp & He2).
  apply post_bind. unfold post at 1, spanic. rewrite Hp. apply post_bind. unfold post at 1, smodify. apply post_ret.
  split; [exact He2|]. etrans; [exact HT1|]. etrans; [exact HT2|]. unfold svT. reflexivity.
Qed.

Lemma sv_release c : sv_ok (Source.releaseSourceIngest c).
Proof. apply safe_seq; [apply _|apply sv_log|intros _; apply sv_world, Hob]. Qed.

Lemma sv_notify d : sv_ok (Source.notifyChanged d).
Proof.
  apply safe_seq; [apply _|by apply safe_get; apply _|]. intros []; [|apply safe_ret, _]. apply safe_seq; [apply _|apply sv_log|intros _].
  apply safe_seq; [apply _|apply safe_try, sv_world, Hob|intros _; apply safe_ret, _].
Qed.

Lemma merge_ok first second : Forall okp first -> Forall okp second -> Forall okp (Source.mergeProvenance first second).
Proof.
  intros H1 H2. unfold Source.mergeProvenance. set (acc := (first, _)). assert (Forall okp acc.1) as Ha by done. clearbody acc. revert acc Ha.
  induction H2 as [|p l Hp _ IH]; intros acc Ha; cbn [foldl]; [done|]. apply IH. case_bool_decide; [done|]. cbn. apply Forall_app. auto.
Qed.

(** What an object writes: its own provenance, and that of its source. *)
Definition object_ok (o : Source.IngestObject) : Prop :=
  TrimSpace (Source.ioSourceKind o) = MailArchiveSourceKind /\ Forall okp (Source.ioProvenance o) /\
  match Source.ioCompound o with Some c => Forall okp (cpProvenance (Source.rcPut c)) | None => True end.

Lemma sv_afterWrite ref claim r : sv_ok (Source.afterWrite ref claim r).
Proof.
  destruct r as [e|d]; cbn [Source.afterWrite].
  - apply safe_seq; [apply _|destruct ref; [apply sv_lookup|apply safe_ret, _]|]. intros [d|]; [apply safe_ret, _|apply safe_fail, _].
  - apply safe_seq; [apply _|destruct claim; [apply sv_release|apply safe_ret, _]|]. intros _.
    apply safe_seq; [apply _|apply sv_notify|intros _; apply safe_ret, _].
Qed.

Lemma sv_write object prov ref claim : object_ok object -> Forall okp prov -> sv_ok (Source.writeIngest object prov ref claim).
Proof.
  intros (_ & Ho & Hc) Hp. unfold Source.writeIngest. destruct (Source.ioCompound object) as [c|].
  - apply safe_seq; [apply _| |intros r; apply safe_seq; [apply _|apply sv_log|intros _; apply sv_afterWrite]].
    apply safe_try, sv_world, (ob_putCompound Hob). by apply merge_ok.
  - destruct (Source.ioReader object) as [reader|]; [|apply safe_fail, _].
    apply safe_seq; [apply _| |intros r; apply safe_seq; [apply _|apply sv_log|intros _; apply sv_afterWrite]].
    apply safe_try, sv_world, (ob_put Hob). by apply merge_ok.
Qed.

Lemma sv_withClaim {A} claim (body : SM (Source.Service W) (A * bool)) : sv_ok body -> sv_ok (Source.withClaim claim body).
Proof.
  intros Hb. apply safe_seq; [apply _|by apply safe_try|]. intros r. apply safe_seq; [apply _| |].
  - destruct claim as [c|], r as [e|[a []]]; try apply safe_ret, _;
      (apply safe_seq; [apply _|apply safe_try, sv_release|intros _; apply safe_ret, _]).
  - intros _. destruct r as [e|[a b]]; [apply safe_fail, _|apply safe_ret, _].
Qed.

(** Provenance of the source, as a step that knows what it returns. *)
Lemma sv_provenance {B} object (k : list Provenance -> SM (Source.Service W) B) : object_ok object ->
  (forall prov, Forall okp prov -> sv_ok (k prov)) -> sv_ok (Source.provenanceFor object ≫= k).
Proof.
  intros (Hk & _) Hkk. unfold Source.provenanceFor. destruct (Source.sourceRef object) as [e|[ref|]] eqn:Hr.
  - intros s. apply (Hkk []). done.
  - intros s Hs. eapply post_bind, post_bind, post_mono.
    { instantiate (1 := fun _ s' => Source.cache_ok s' /\ svT s s'). destruct (isZero _); [by apply sv_world; [apply Hob|]|by split]. }
    cbn beta. intros [e|t] s1 [H1 HT1]; [done|]. apply post_ret. eapply post_mono; [apply Hkk; [|done]|].
    + repeat constructor. apply Harch. cbn. revert Hr. unfold Source.sourceRef. repeat case_match; try done. intros [= <-]. exact Hk.
    + cbn beta. intros r s2 [H2 HT2]. split; [done|by etrans].
  - intros s. apply (Hkk []). done.
Qed.

Lemma sv_Ingest object : object_ok object -> sv_ok (Source.Ingest object).
Proof.
  intros Ho. unfold Source.Ingest. destruct (Source.sourceRef object) as [e|[ref|]]; [apply safe_fail, _| |].
  - apply sv_provenance; [done|]. intros prov Hp. apply safe_seq; [apply _|apply sv_lookup|]. intros [d|]; [apply safe_ret, _|].
    apply safe_seq; [apply _|apply sv_world, Hob|]. intros [claim|]; [|apply safe_fail, _].
    apply safe_seq; [apply _|apply sv_log|intros _]. apply sv_withClaim. apply safe_seq; [apply _|apply sv_lookup|].
    intros [d|]; [|by apply sv_write]. apply safe_seq; [apply _|apply sv_release|intros _; apply safe_ret, _].
  - apply sv_provenance; [done|]. intros prov Hp. apply sv_withClaim. by apply sv_write.
Qed.

End obey.

Lemma obeys_prioritized {W} {store : Source.FilestoreClient W} {senv : Source.SourceEnv W} {aenv : ArchiveEnv W} R okp :
  obeys R okp -> obeys (store := prioritized) R okp.
Proof.
  intros [H1 H2 H3 H4 H5 H6 H7 H8 H9 H10 H11 H12 H13]. split; try done; intros r Hr; [by apply H4|by apply H5].
Qed.

(** ** What happens to a message *)

(** How it is counted. *)
Inductive verdict := VNone | VImported | VExact | VDuplicate | VSkipped | VVariant (major promoted : bool).

Definition judge (messageID : string) (v : verdict) (r : ArchiveImportReport) : ArchiveImportReport :=
  match v with
  | VNone => r
  | VImported => count Imported r
  | VExact => count ExactDuplicates r
  | VDuplicate => count MessageIDDuplicates r
  | VSkipped => appendSkippedMessageID messageID (count TrivialSkipped (count LowNoiseSkipped (count MessageIDDuplicates r)))
  | VVariant major promoted =>
      let r := count (if major then MajorVersions else MinorVersions) (count Collisions r) in
      if promoted then count Promoted r else r
  end.

Definition generatedReport (m : message) (r : ArchiveImportReport) : ArchiveImportReport :=
  if mgGeneratedMessage (amMessage m) then count GeneratedMessageIDs r else r.

Section message_proofs.
Context {W : Type} {store : Source.FilestoreClient W} {senv : Source.SourceEnv W} {aenv : ArchiveEnv W} {mlib : MimeLib}.
Context (R : W -> W -> Prop) `{!PreOrder R} (okp : Provenance -> Prop) (Hob : obeys R okp) (Harch : archive_ok okp).
#[local] Set Default Proof Using "Type*".

Definition imI (s : Ingesting W) : Prop := Source.cache_ok (igService s).
Definition imW (s : Ingesting W) : W := Source.svWorld (igService s).
Definition imT (s s' : Ingesting W) : Prop := R (imW s) (imW s') /\ igReport s' = igReport s.

#[export] Instance imT_pre : PreOrder imT.
Proof using PreOrder0.
  split; [intros s; split; reflexivity|]. intros s1 s2 s3 [H1 H2] [H3 H4]. split; [by etrans|congruence].
Qed.

Definition im_ok {A} (m : SM (Ingesting W) A) : Prop := safe imI imT m.

Lemma im_ret {A} (a : A) : im_ok (mret a).
Proof using PreOrder0. apply safe_ret, _. Qed.
Lemma im_fail {A} e : im_ok (sfail e : SM (Ingesting W) A).
Proof using PreOrder0. apply safe_fail, _. Qed.
Lemma im_bind {A B} (m : SM (Ingesting W) A) (k : A -> SM (Ingesting W) B) : im_ok m -> (forall a, im_ok (k a)) -> im_ok (m ≫= k).
Proof using PreOrder0. apply safe_seq, _. Qed.
Lemma im_try {A} (m : SM (Ingesting W) A) : im_ok m -> im_ok (stry m).
Proof using Type. apply safe_try. Qed.

Lemma im_service {A} (m : SM (Source.Service W) A) : sv_ok R m -> im_ok (service m).
Proof using Type.
  intros Hm s Hs. specialize (Hm (igService s) Hs). unfold post, service in *.
  destruct (m (igService s)) as [[a|e|] v]; [destruct Hm as [Hc HT]; split; [exact Hc|by split]..|done].
Qed.

Lemma im_world {A} (m : SM W A) : ok R m -> im_ok (world m).
Proof using Type. intros Hm. by apply im_service, sv_world. Qed.

Lemma im_ingest o : object_ok okp o -> im_ok (ingest o).
Proof. intros Ho. apply im_service, (sv_Ingest (store := prioritized) R okp); [by apply obeys_prioritized|done|done]. Qed.

Lemma side_ok sourceName m suffix payload mediaType hint roles facets :
  object_ok okp (sideObject sourceName m suffix payload mediaType hint roles facets).
Proof. split; [done|]. split; [constructor|done]. Qed.

Lemma compound_ok sourceName m suffix hint c : Forall okp (cpProvenance c) -> object_ok okp (compoundObject sourceName m suffix hint c).
Proof. intros Hc. split; [done|]. split; [constructor|exact Hc]. Qed.

Lemma archiveProvenance_ok sourceName m : okp (archiveProvenance sourceName m).
Proof. by apply Harch. Qed.

#[local] Hint Resolve im_ret im_fail im_bind im_try im_world im_ingest side_ok compound_ok archiveProvenance_ok : core.

Lemma im_parts jobs : Forall (fun j => object_ok okp (pjObject j)) jobs -> im_ok (ingestMessageParts jobs).
Proof.
  intros Hj. apply im_bind; [|intros r; destruct r.2; auto]. generalize (([] : list CompoundPart), (None : option GoError)).
  induction Hj as [|j jobs Hj _ IH]; intros acc; cbn [sforM]; [auto|]. apply im_bind; [|intros; apply IH].
  apply im_bind; [apply im_try, im_world, Hob|]. intros [e|_]; [auto|]. apply im_bind; [auto|]. intros [e|[d b]]; auto.
Qed.

Lemma im_messageParts sourceName m variant : im_ok (writeArchiveMessageParts sourceName m variant).
Proof.
  apply im_parts. apply Forall_app. split; [repeat constructor|]. apply Forall_lookup. intros i j. rewrite list_lookup_imap.
  destruct (_ !! i); [|done]. intros [= <-]. apply side_ok.
Qed.

Lemma im_record sourceName m rep scale canonical base d1 d2 : im_ok (writeVersionRecord sourceName m rep scale canonical base d1 d2).
Proof. unfold writeVersionRecord. cbv zeta. auto. Qed.

Lemma im_content manifest role : im_ok (canonicalPartContent manifest role).
Proof. unfold canonicalPartContent. destruct (List.find _ _); [apply im_world, Hob|auto]. Qed.

Lemma im_patches sourceName manifest m : im_ok (writeVariantPatches sourceName manifest m).
Proof. apply im_bind; [apply im_content|intros h]. apply im_bind; [apply im_content|intros b]. cbv zeta. auto. Qed.

Lemma im_bodyOrder manifest n : im_ok (canonicalBodyOrder manifest n).
Proof. unfold canonicalBodyOrder. destruct (canonicalBody manifest); [|auto]. apply im_bind; [apply im_try, im_world, Hob|auto]. Qed.

Lemma im_promote manifest m : im_ok (shouldPromoteCanonical manifest m).
Proof. unfold shouldPromoteCanonical. destruct (canonicalBody manifest); [|auto]. apply im_bind; [apply im_try, im_world, Hob|auto]. Qed.

Lemma im_membership sourceName m canonical : im_ok (writeArchiveMembershipRecord sourceName m canonical).
Proof. unfold writeArchiveMembershipRecord. cbv zeta. auto. Qed.

Lemma im_canonical sourceName m : okp (identityProvenance m) -> im_ok (ingestCanonicalMessage sourceName m).
Proof.
  intros Hid. apply im_bind; [apply im_messageParts|intros parts]. apply im_bind; [apply im_record|intros d]. cbv zeta.
  apply im_ingest, compound_ok. repeat constructor; auto.
Qed.

(** After a part of the handler that counts nothing. *)
Lemma im_step {A B} (m : SM (Ingesting W) A) (k : A -> SM (Ingesting W) B) s0 s Q : im_ok m -> imI s -> imT s0 s ->
  (forall e s', imI s' -> imT s0 s' -> Q (inl e) s') -> (forall a s', imI s' -> imT s0 s' -> post (k a) s' Q) -> post (m ≫= k) s Q.
Proof using PreOrder0.
  intros Hm Hs H0 He Hk. apply (safe_post imI imT); [done|done|intros e s' H1 H2; apply He; [done|by etrans]|].
  intros a s' H1 H2. apply Hk; [done|by etrans].
Qed.

(** The state after counting. *)
Definition judged (messageID : string) (s : Ingesting W) (v : verdict) (s' : Ingesting W) : Prop :=
  imI s' /\ R (imW s) (imW s') /\ igReport s' = judge messageID v (igReport s).

Lemma variant_post sourceName canonical manifest m scale s : imI s ->
  post (ingestVariantMessage sourceName canonical manifest m scale) s (fun _ s' => imI s' /\ R (imW s) (imW s') /\
    exists promoted : bool, igReport s' = if promoted then count Promoted (igReport s) else igReport s).
Proof.
  intros Hs. unfold ingestVariantMessage. cbv zeta.
  assert (forall (r : GoError + unit) s', imI s' -> imT s s' -> imI s' /\ R (imW s) (imW s') /\
    exists promoted : bool, igReport s' = if promoted then count Promoted (igReport s) else igReport s) as Hdone
    by (intros r s' H1 [H2 H3]; split; [done|]; split; [done|]; by exists false).
  apply (im_step _ _ s); [apply im_messageParts|done|reflexivity|auto|intros parts s1 H1 T1].
  apply (im_step _ _ s); [apply im_bodyOrder|done|done|auto|intros order s2 H2 T2].
  apply (im_step _ _ s); [apply im_promote|done|done|auto|intros promote s3 H3 T3].
  apply (im_step _ _ s); [apply im_patches|done|done|auto|intros [hp bp] s4 H4 T4].
  apply (im_step _ _ s); [apply im_record|done|done|auto|intros d s5 H5 T5].
  apply (im_step _ _ s); [apply im_ingest, compound_ok; repeat constructor; auto|done|done|auto|intros _ s6 H6 T6].
  set (last := if bool_decide _ then _ else _). assert (im_ok last) as Hlast.
  { unfold last. destruct (bool_decide _); [auto|]. apply im_bind; [apply im_ingest, compound_ok; repeat constructor; auto|auto]. }
  clearbody last. destruct promote.
  - apply post_bind. unfold post at 1, counting, smodify. eapply post_mono; [apply Hlast; exact H6|]. cbn beta.
    intros r s7 [H7 [T7 E7]]. destruct T6 as [T6 E6]. split; [done|]. split; [etrans; [exact T6|exact T7]|]. exists true.
    rewrite E7. cbn [igReport]. by rewrite E6.
  - apply post_bind, post_ret. eapply post_mono; [by apply Hlast|]. cbn beta. intros r s7 [H7 T7]. apply (Hdone r); [done|by etrans].
Qed.

(** The message goes to a Message-ID that is known. *)
Definition known_verdict (v : verdict) : Prop := match v with VDuplicate | VSkipped | VVariant _ _ => True | _ => False end.

Lemma duplicate_post sourceName canonical m lowNoise s : imI s ->
  post (ingestDuplicateOrVariant sourceName canonical m lowNoise) s (fun r s' =>
    exists v, judged (mgMessageID (amMessage m)) s v s' /\ (known_verdict v \/ v = VNone /\ exists e, r = inl e)).
Proof.
  intros Hs. unfold ingestDuplicateOrVariant. apply (im_step _ _ s); [apply im_world, Hob|done|reflexivity| |].
  { intros e s' H1 [H2 H3]. exists VNone. split; [by repeat split|]. right. split; [done|by exists e]. }
  intros manifest s1 H1 [T1 E1]. cbv zeta. unfold archiveVersionScale. case_bool_decide as Hb.
  - apply post_bind. unfold post at 1, counting, smodify. destruct lowNoise.
    + unfold skipLowNoise. do 3 (apply post_bind; unfold post at 1, counting, smodify).
      eapply post_mono; [apply im_membership; exact H1|]. cbn beta. intros r s2 [H2 [T2 E2]]. exists VSkipped. split; [|by left].
      split; [done|]. split; [by etrans|]. rewrite E2. cbn [igReport igService]. by rewrite E1.
    + eapply post_mono; [apply im_world; [apply (ob_attach _ _ Hob); repeat constructor; apply archiveProvenance_ok|exact H1]|].
      cbn beta. intros r s2 [H2 [T2 E2]]. exists VDuplicate. split; [|by left]. split; [done|]. split; [by etrans|]. rewrite E2. cbn. by rewrite E1.
  - set (scale := if _ : bool then VersionScaleMinor else VersionScaleMajor).
    rewrite (bool_decide_false (scale = VersionScaleTrivial)) by (unfold scale; by case_match). rewrite andb_false_r.
    do 2 (apply post_bind; unfold post at 1, counting, smodify).
    eapply post_mono; [apply variant_post; exact H1|]. cbn beta. intros r s2 (H2 & T2 & promoted & E2).
    exists (VVariant (bool_decide (scale = VersionScaleMajor)) promoted). split; [|by left]. split; [done|]. split; [by etrans|].
    rewrite E2. cbn [igReport igService judge]. by rewrite E1.
Qed.

(** A message gets a verdict, and only an error leaves it without one; a dry run
    imports every message and calls nothing. *)
Lemma message_post sourceName m dryRun lowNoise s : imI s -> okp (identityProvenance m) ->
  post (ingestArchiveMessage sourceName m dryRun lowNoise) s (fun r s' =>
    exists v, imI s' /\ R (imW s) (imW s') /\ igReport s' = judge (mgMessageID (amMessage m)) v (generatedReport m (igReport s)) /\
      (v = VNone -> exists e, r = inl e) /\ (dryRun = true -> v = VImported /\ r = inr tt /\ igService s' = igService s)).
Proof.
  intros Hs Hid. unfold ingestArchiveMessage. apply post_bind.
  set (s0 := MkIng (igService s) (generatedReport m (igReport s))).
  assert (post (if mgGeneratedMessage (amMessage m) then counting (count GeneratedMessageIDs) else mret tt) s (fun r s' => r = inr tt /\ s' = s0)) as Hg.
  { unfold s0, generatedReport. destruct (mgGeneratedMessage (amMessage m)); [done|]. apply post_ret. split; [done|]. by destruct s. }
  eapply post_mono; [exact Hg|]. cbn beta. intros _r _s [-> ->]. destruct dryRun.
  { unfold post, counting, smodify. exists VImported. by repeat split. }
  assert (imI s0) as H0 by exact Hs.
  apply (im_step _ _ s0); [apply im_world, Hob|done|reflexivity| |].
  { intros e s1 H1 [T1 E1]. exists VNone. repeat split; try done. by exists e. }
  intros [canonical|] s1 H1 [T1 E1].
  - eapply post_mono; [by apply duplicate_post|]. cbn beta. intros r s2 (v & (H2 & T2 & E2) & Hv). exists v. rewrite E2, E1.
    split; [done|]. split; [by etrans|]. split; [done|]. split; [|done]. intros ->. destruct Hv as [[]|[_ He]]. done.
  - apply (im_step _ _ s0); [by apply im_canonical|done|by split| |].
    { intros e s2 H2 [T2 E2]. exists VNone. repeat split; try done. by exists e. }
    intros [d created] s2 H2 [T2 E2]. apply post_bind. unfold post at 1, counting, smodify.
    assert (forall r : GoError + unit, exists v, imI (MkIng (igService s2) (count (if created then Imported else ExactDuplicates) (igReport s2))) /\
      R (imW s) (imW (MkIng (igService s2) (count (if created then Imported else ExactDuplicates) (igReport s2)))) /\
      count (if created then Imported else ExactDuplicates) (igReport s2) = judge (mgMessageID (amMessage m)) v (generatedReport m (igReport s)) /\
      (v = VNone -> exists e, r = inl e) /\ (false = true -> v = VImported /\ r = inr tt /\ igService s2 = igService s)) as Hend.
    { intros r. exists (if created then VImported else VExact). rewrite E2. repeat split; try done; by destruct created. }
    destruct (bool_decide (d = "")); [apply (Hend (inl _))|apply (Hend (inr tt))].
Qed.

End message_proofs.

(** ** The ledger of an import *)

(** What is added up over the workers. *)
Inductive field := FCount (c : counter) | FFailures | FFatal.

#[export] Instance field_eq_dec : EqDecision field.
Proof. solve_decision. Defined.

Definition get (f : field) (r : ArchiveImportReport) : Z :=
  match f with
  | FCount Imported => arImported r
  | FCount ExactDuplicates => arExactDuplicates r
  | FCount MessageIDDuplicates => arMessageIDDuplicates r
  | FCount GeneratedMessageIDs => arGeneratedMessageIDs r
  | FCount LowNoiseSkipped => arLowNoiseSkipped r
  | FCount TrivialSkipped => arTrivialSkipped r
  | FCount MinorVersions => arMinorVersions r
  | FCount MajorVersions => arMajorVersions r
  | FCount Promoted => arPromoted r
  | FCount Collisions => arCollisions r
  | FFailures => Z.of_nat (length (arFailures r))
  | FFatal => Z.of_nat (length (arFatalFailures r))
  end.

(** The ways a message can end. *)
Definition outcomes (T : field -> Z) : Z :=
  T (FCount Imported) + T (FCount ExactDuplicates) + T (FCount MessageIDDuplicates) + T (FCount Collisions).

(** Of [parsed] messages each has one outcome, or is among the failures that are
    neither unparsed messages nor fatal; variants are minor or major, and the
    promoted are among them; what is skipped is a duplicate. *)
Record ledger (dry : bool) (T : field -> Z) (parsed parseFailures : Z) : Prop := {
  lg_pos : forall f, 0 <= T f;
  lg_most : outcomes T <= parsed;
  lg_least : parsed <= outcomes T + (T FFailures - parseFailures - T FFatal);
  lg_versions : T (FCount Collisions) = T (FCount MinorVersions) + T (FCount MajorVersions);
  lg_promoted : T (FCount Promoted) <= T (FCount Collisions);
  lg_noise : T (FCount LowNoiseSkipped) = T (FCount TrivialSkipped) /\ T (FCount TrivialSkipped) <= T (FCount MessageIDDuplicates);
  lg_generated : T (FCount GeneratedMessageIDs) <= parsed;
  lg_dry : dry = true -> T (FCount Imported) = parsed }.

Lemma ledger_add dry T1 p1 f1 T2 p2 f2 T p f : ledger dry T1 p1 f1 -> ledger dry T2 p2 f2 ->
  (forall x, T x = T1 x + T2 x) -> p = p1 + p2 -> f = f1 + f2 -> ledger dry T p f.
Proof.
  intros [A1 A2 A3 A4 A5 [A6 A6'] A7 A8] [B1 B2 B3 B4 B5 [B6 B6'] B7 B8] HT -> ->. unfold outcomes in *.
  split; [intros x; rewrite HT; specialize (A1 x); specialize (B1 x); lia|unfold outcomes; rewrite !HT; lia..| |].
  - rewrite !HT. lia.
  - intros Hd. rewrite HT, A8, B8 by done. done.
Qed.

Lemma ledger_ext dry T T' p f : (forall x, T' x = T x) -> ledger dry T p f -> ledger dry T' p f.
Proof. intros HT []. split; unfold outcomes in *; rewrite ?HT; try done; intros x; rewrite HT; auto. Qed.

(** What a step adds to a report. *)
Definition delta (r r' : ArchiveImportReport) (f : field) : Z := get f r' - get f r.

Definition uncounted (r r' : ArchiveImportReport) : Prop :=
  arSourceName r' = arSourceName r /\ arRunID r' = arRunID r /\ arScanned r' = arScanned r /\ arParsed r' = arParsed r /\
  arEnqueued r' = arEnqueued r /\ arProcessed r' = arProcessed r /\ arParseFailures r' = arParseFailures r /\ arSkipped r' = arSkipped r.

Lemma appendSkipped_get id r f : get f (appendSkippedMessageID id r) = get f r.
Proof. unfold appendSkippedMessageID. destruct (_ <=? _); [done|]. by destruct f as [[]| |]. Qed.

Lemma count_get c r f : get f (count c r) = get f r + (if decide (f = FCount c) then 1 else 0).
Proof. destruct f as [[]| |], c; cbn; destruct (decide _); try done; cbn; lia. Qed.

Lemma imported_other c r : c <> Imported -> arImported (count c r) = arImported r.
Proof. intros Hc. cbn. rewrite decide_False by done. lia. Qed.

Lemma judge_imported id v r : v <> VImported -> arImported (judge id v r) = arImported r.
Proof.
  assert (forall r', arImported (appendSkippedMessageID id r') = arImported r') as Hs by (intros r'; apply (appendSkipped_get id r' (FCount Imported))).
  intros Hv. destruct v as [| | | | |[] []]; cbn [judge]; rewrite ?Hs, ?imported_other by done; done.
Qed.

Lemma judge_uncounted id v m r : uncounted r (judge id v (generatedReport m r)).
Proof.
  assert (forall r', uncounted r' (appendSkippedMessageID id r')) as Hs by (intros r'; unfold appendSkippedMessageID; by destruct (_ <=? _)).
  unfold generatedReport. destruct v as [| | | | |[] []], (mgGeneratedMessage (amMessage m)); cbn [judge];
    try done; match goal with |- uncounted _ (appendSkippedMessageID _ ?x) => exact (Hs x) end.
Qed.

(** One message, with its error as a failure. *)
Lemma judge_ledger (dry : bool) id v m (r : ArchiveImportReport) (failed : bool) (e : GoError) :
  (v = VNone -> failed = true) -> (dry = true -> v = VImported) ->
  let r' := judge id v (generatedReport m r) in
  ledger dry (delta r (if failed then appendArchiveFailure e r' else r')) 1 0.
Proof.
  intros Hn Hd r'.
  assert (forall f, delta r r' f = get f (judge id v (generatedReport m noReport))) as Hr.
  { intros f. unfold delta, r', generatedReport. destruct v as [| | | | |[] []], (mgGeneratedMessage (amMessage m)); cbn [judge];
      rewrite ?appendSkipped_get, ?count_get; destruct f as [[]| |]; cbn; lia. }
  assert (forall f, delta r (if failed then appendArchiveFailure e r' else r') f =
    get f (judge id v (generatedReport m noReport)) + (if failed then match f with FFailures => 1 | _ => 0 end else 0)) as HD.
  { intros f. rewrite <- Hr. unfold delta. destruct failed; [|lia]. destruct f as [[]| |]; cbn; rewrite ?length_app; cbn; lia. }
  apply (ledger_ext _ _ _ _ _ HD). clear HD Hr r'. unfold generatedReport.
  destruct v as [| | | | |[] []], (mgGeneratedMessage (amMessage m)), failed; try (specialize (Hn eq_refl); discriminate);
    (split; [by intros [[]| |]|done..|done|done|intros Hx; specialize (Hd Hx); done]).
Qed.

(** ** Walks that keep an invariant *)

Lemma walkDir_safe {S} (I : S -> Prop) T `{!PreOrder T} fn path name t :
  (forall path name dir err, safe I T (fn path name dir err)) -> safe I T (walkDir fn path name t).
Proof.
  intros Hfn. revert path name. induction t as [|es err IH] using tree_rect'; intros path name; cbn [walkDir]; [apply Hfn|].
  apply safe_seq; [done|apply Hfn|]. intros []; [by apply safe_ret|]. apply safe_seq; [done|destruct err; [apply Hfn|by apply safe_ret]|].
  intros []; [by apply safe_ret|]. induction IH as [|[n t] es Ht _ IHes]; [by apply safe_ret|].
  apply safe_seq; [done|apply Ht|]. intros []; [by apply safe_ret|apply IHes].
Qed.

Lemma forEachMbox_safe {S Msg} (I : S -> Prop) T `{!PreOrder T} (parse : string -> Z -> GoError + Msg) file (fn : Msg -> SM S unit) :
  (forall m, safe I T (fn m)) -> safe I T (forEachMboxMessage parse file fn).
Proof.
  intros Hfn. unfold forEachMboxMessage. destruct file as [e|f]; [by apply safe_fail|]. destruct (scanLines f) as [lines err].
  assert (forall current offset, safe I T (deliver parse fn current offset)) as Hd.
  { intros current offset. unfold deliver. destruct (parse current offset); [by apply safe_fail|apply Hfn]. }
  apply safe_seq; [done| |].
  - apply safe_sforM; [done|]. intros [current offset] line. unfold mboxStep. destruct (isFrom line); [|by apply safe_ret].
    destruct (0 <? slen current); [|by apply safe_ret]. apply safe_seq; [done|apply Hd|intros _; by apply safe_ret].
  - intros acc. apply safe_seq; [done|destruct err; [by apply safe_fail|by apply safe_ret]|]. intros _.
    destruct (0 <? slen acc.1); [apply Hd|by apply safe_ret].
Qed.

(** ** Sums over the workers *)

Definition sumZ (l : list Z) : Z := foldr Z.add 0 l.

Lemma sumZ_insert {A} (g : A -> Z) (l : list A) k x y : l !! k = Some x -> sumZ (map g (<[k := y]> l)) = sumZ (map g l) + g y - g x.
Proof.
  revert k. induction l as [|a l IH]; intros [|k]; cbn; [done|done|intros [= ->]; lia|]. intros Hk. specialize (IH _ Hk).
  change (g a + sumZ (map g (<[k := y]> l)) = g a + sumZ (map g l) + g y - g x). lia.
Qed.

Definition total {W} (s : Importer W) (f : field) : Z := get f (imReport s) + sumZ (map (get f) (imLocals s)).

Lemma merge_get dst src f : get f (mergeArchiveIngestReport dst src) = get f dst + get f src.
Proof. destruct f as [[]| |]; cbn; rewrite ?length_app; lia. Qed.

Lemma merge_all r ls f : get f (foldl mergeArchiveIngestReport r ls) = get f r + sumZ (map (get f) ls).
Proof. revert r. induction ls as [|l ls IH]; intros r; cbn; [lia|]. rewrite IH, merge_get. cbn. change (foldr Z.add 0) with sumZ. lia. Qed.

Lemma merge_uncounted r ls : uncounted r (foldl mergeArchiveIngestReport r ls).
Proof. revert r. induction ls as [|l ls IH]; intros r; cbn [foldl]; [done|]. exact (IH (mergeArchiveIngestReport r l)). Qed.

Section import_proofs.
Context {W : Type} {store : Source.FilestoreClient W} {senv : Source.SourceEnv W} {aenv : ArchiveEnv W} {mlib : MimeLib}.
Context (Hob : obeys (fun _ _ => True) (fun _ => True)).
Context (dry : bool) (trace : list Source.event).
#[local] Set Default Proof Using "Type*".

#[local] Instance true_pre {A} : PreOrder (fun _ _ : A => True).
Proof using Type. done. Qed.

(** A run's books are right, and a dry run has called nothing. *)
Record books (s : Importer W) : Prop := {
  bk_cache : Source.cache_ok (imService s);
  bk_ledger : ledger dry (total s) (arParsed (imReport s)) (arParseFailures (imReport s));
  bk_trace : dry = true -> Source.svTrace (imService s) = trace }.

(** During a walk there are workers. *)
Definition walking (s : Importer W) : Prop := books s /\ (0 < length (imLocals s))%nat.
Definition idle (s : Importer W) : Prop := books s /\ imLocals s = [].

Lemma ingestInto_post sourceName m request i : imI i -> aqDryRun request = dry ->
  post (ingestInto sourceName m request) i (fun r i' => r = inr tt /\ imI i' /\ uncounted (igReport i) (igReport i') /\
    ledger dry (delta (igReport i) (igReport i')) 1 0 /\ (dry = true -> igService i' = igService i)).
Proof.
  intros Hi Hd. apply post_bind, post_try. eapply post_mono; [by apply (message_post (fun _ _ => True) (fun _ => True))|].
  cbn beta. intros r i' (v & Hi' & _ & Hr & Hn & Hdry). rewrite Hd in Hdry.
  destruct r as [e|[]].
  - unfold post, counting, smodify. cbn [igReport igService]. rewrite Hr. split; [done|]. split; [exact Hi'|].
    split; [exact (judge_uncounted _ v m (igReport i))|]. split; [|naive_solver].
    apply (judge_ledger dry _ v m (igReport i) true e); [done|naive_solver].
  - apply post_ret. rewrite Hr. split; [done|]. split; [exact Hi'|]. split; [exact (judge_uncounted _ v m (igReport i))|].
    split; [|naive_solver]. apply (judge_ledger dry _ v m (igReport i) false (ErrMsg "")); [naive_solver|naive_solver].
Qed.

Lemma bk_world {A} (m : SM W A) (I : Importer W -> Prop) : ok (fun _ _ => True) m ->
  (forall s v, I s -> Source.cache_ok v -> Source.svTrace v = Source.svTrace (imService s) -> I (MkImporter v (imReport s) (imLocals s))) ->
  (forall s, I s -> Source.cache_ok (imService s)) -> safe I (fun _ _ => True) (onWorld m).
Proof using Type.
  intros Hm HI Hc s Hs. specialize (Hm (Source.svWorld (imService s)) Logic.I). unfold post, onWorld, Source.onWorld in *.
  destruct (m (Source.svWorld (imService s))) as [[a|e|] w]; [split; [|done]; apply HI; [done|exact (Hc s Hs)|done]..|done].
Qed.

Lemma books_service s v : books s -> Source.cache_ok v -> Source.svTrace v = Source.svTrace (imService s) ->
  books (MkImporter v (imReport s) (imLocals s)).
Proof using Type. intros [H1 H2 H3] Hc Ht. split; [exact Hc|exact H2|]. intros Hd. cbn. rewrite Ht. auto. Qed.

Lemma idle_world {A} (m : SM W A) : ok (fun _ _ => True) m -> safe idle (fun _ _ => True) (onWorld m).
Proof using Type.
  intros Hm. apply bk_world; [done| |intros s [H _]; apply H]. intros s v [H1 H2] Hc Ht. split; [by apply books_service|done].
Qed.

Lemma walking_world {A} (m : SM W A) : ok (fun _ _ => True) m -> safe walking (fun _ _ => True) (onWorld m).
Proof using Type.
  intros Hm. apply bk_world; [done| |intros s [H _]; apply H]. intros s v [H1 H2] Hc Ht. split; [by apply books_service|done].
Qed.

(** A change of the shared report that keeps the books. *)
Lemma books_report s r p f : books s -> ledger dry (delta (imReport s) r) p f ->
  arParsed r = arParsed (imReport s) + p -> arParseFailures r = arParseFailures (imReport s) + f ->
  books (MkImporter (imService s) r (imLocals s)).
Proof using Type.
  intros [H1 H2 H3] Hl Hp Hf. split; [exact H1| |exact H3]. eapply ledger_add; [exact H2|exact Hl| |exact Hp|exact Hf].
  intros x. unfold total, delta. cbn [imReport imLocals]. lia.
Qed.

Lemma walking_report (g : ArchiveImportReport -> ArchiveImportReport) p f :
  (forall r, ledger dry (delta r (g r)) p f /\ arParsed (g r) = arParsed r + p /\ arParseFailures (g r) = arParseFailures r + f) ->
  safe walking (fun _ _ => True) (reporting g) /\ safe idle (fun _ _ => True) (reporting g).
Proof using Type.
  intros Hg. assert (forall s, books s -> books (MkImporter (imService s) (g (imReport s)) (imLocals s))) as Hb
    by (intros s Hs; destruct (Hg (imReport s)) as (H1 & H2 & H3); by eapply books_report).
  split; intros s [Hs Hw]; (split; [|done]); (split; [by apply Hb|done]).
Qed.

Lemma report_plain g : (forall r f, get f (g r) = get f r) -> (forall r, arParsed (g r) = arParsed r /\ arParseFailures (g r) = arParseFailures r) ->
  safe walking (fun _ _ => True) (reporting g).
Proof using Type.
  intros Hg Hu. apply (walking_report g 0 0). intros r. destruct (Hu r) as [-> ->]. rewrite !Z.add_0_r. split; [|done].
  apply (ledger_ext dry (fun _ => 0)); [intros x; unfold delta; rewrite Hg; lia|]. by split.
Qed.

(** Failures of a parse, and those that end a root. *)
Definition parseFailure (e : GoError) (r : ArchiveImportReport) : ArchiveImportReport := appendArchiveFailure e (addParseFailure r).

Lemma failure_delta (fatal : bool) e r x :
  delta r (if fatal then appendArchiveFatalFailure e r else parseFailure e r) x =
    match x with FFailures => 1 | FFatal => if fatal then 1 else 0 | _ => 0 end.
Proof using Type. destruct x as [[]| |], fatal; unfold delta; cbn; rewrite ?length_app; cbn; lia. Qed.

Lemma failure_safe (fatal : bool) e :
  let g r := if fatal then appendArchiveFatalFailure e r else parseFailure e r in
  safe walking (fun _ _ => True) (reporting g) /\ safe idle (fun _ _ => True) (reporting g).
Proof using Type.
  intros g. apply (walking_report g 0 (if fatal then 0 else 1)). intros r. split; [|destruct fatal; cbn; lia].
  apply (ledger_ext _ _ _ _ _ (failure_delta fatal e r)). split; destruct fatal; unfold outcomes; try done; try lia; by intros [[]| |].
Qed.

Lemma reporting_twice f g (s : Importer W) : (_ ← reporting f; reporting g : SM (Importer W) unit) s = reporting (fun r => g (f r)) s.
Proof using Type. done. Qed.

Lemma parseFailure_safe (I : Importer W -> Prop) e : safe I (fun _ _ => True) (reporting (parseFailure e)) ->
  safe I (fun _ _ => True) (_ ← reporting addParseFailure; reporting (appendArchiveFailure e)).
Proof using Type. intros H s Hs. unfold post. rewrite reporting_twice. by apply H. Qed.

(** A parsed message, and its ingestion by a worker. *)
Lemma send_safe sourceName request m : aqDryRun request = dry ->
  safe walking (fun _ _ => True) (_ ← reporting addParsed; send sourceName request m).
Proof.
  intros Hd s [Hs Hw]. unfold post, send, receive, mbind, SM_bind, reporting, smodify, onWorld, Source.onWorld. cbn [imService imReport imLocals].
  destruct (aeWorker (Source.svWorld (imService s))) as [worker w]. cbn [fst snd]. set (v := Source.set_world w (imService s)).
  set (k := (worker mod length (imLocals s))%nat). destruct (lookup_lt_is_Some_2 (imLocals s) k) as [r Hr]; [unfold k; apply Nat.mod_upper_bound; lia|].
  rewrite Hr. change (default noReport (Some r)) with r. assert (imI (MkIng v r)) as Hi by exact (bk_cache _ Hs).
  pose proof (ingestInto_post sourceName m request (MkIng v r) Hi Hd) as Hp. unfold post in Hp.
  destruct (ingestInto sourceName m request (MkIng v r)) as [[[]|e|] i]; [|by destruct Hp|done].
  destruct Hp as (_ & Hi' & Hu & Hl & Hdry). cbn [igReport igService] in *. destruct Hs as [H1 H2 H3]. split; [|done].
  split; [|cbn [imLocals]; by rewrite length_insert]. split; [exact Hi'| |intros Hy; cbn [imService]; rewrite Hdry by done; by apply H3].
  eapply ledger_add; [exact H2|exact Hl| |cbn; lia|cbn; lia]. intros x. unfold total, delta. cbn [imReport imLocals].
  rewrite (sumZ_insert _ _ _ _ _ Hr). assert (get x (addParsed (imReport s)) = get x (imReport s)) as -> by (by destruct x as [[]| |]). lia.
Qed.

Lemma parsed_file_safe path root format : safe walking (fun _ _ => True) (parseMessageFile path root format) /\
  safe idle (fun _ _ => True) (parseMessageFile path root format).
Proof.
  split; (apply safe_seq; [apply _| |intros t; by apply safe_ret]); [apply walking_world, Hob|apply idle_world, Hob].
Qed.

#[local] Hint Resolve safe_ret safe_fail safe_seq safe_try walking_world idle_world true_pre : core.

Lemma entry_safe request sourceName root path name dir err : aqDryRun request = dry ->
  safe walking (fun _ _ => True) (importEntry request sourceName root path name dir err).
Proof.
  intros Hd. unfold importEntry. destruct err as [e|].
  { apply safe_seq; [auto|apply (failure_safe true e)|auto]. }
  apply safe_seq; [auto|apply walking_world, Hob|intros _]. destruct dir; [auto|].
  assert (safe walking (fun _ _ => True) (reporting addSkipped)) as Hskip by (apply report_plain; [by intros r [[]| |]|done]).
  assert (safe walking (fun _ _ => True) (reporting addScanned)) as Hscan by (apply report_plain; [by intros r [[]| |]|done]).
  destruct (shouldSkipArchiveFile name); [auto|]. cbv zeta. destruct (bool_decide (_ = "")); [auto|].
  apply safe_seq; [auto|done|intros _]. apply safe_seq; [auto| |].
  - destruct (bool_decide _).
    + apply safe_try, forEachMbox_safe; [auto|]. intros m. apply safe_seq; [auto|apply walking_world, Hob|intros t; by apply send_safe].
    + apply safe_seq; [auto|apply parsed_file_safe|]. intros [e|m]; [auto|].
      apply safe_assoc, safe_seq; [auto|by apply send_safe|auto].
  - intros [e|[]]; (apply safe_seq; [auto| |auto]); [apply parseFailure_safe, (failure_safe false e)|auto].
Qed.

Lemma shared_safe sourceName m request : aqDryRun request = dry ->
  safe idle (fun _ _ => True) (_ ← reporting addScanned; _ ← reporting addParsed; ingestShared sourceName m request).
Proof.
  intros Hd s [[H1 H2 H3] Hn]. unfold post, ingestShared, mbind, SM_bind, reporting, smodify. cbn [imService imReport imLocals].
  set (r := addParsed (addScanned (imReport s))). assert (imI (MkIng (imService s) r)) as Hi by exact H1.
  pose proof (ingestInto_post sourceName m request _ Hi Hd) as Hp. unfold post in Hp.
  destruct (ingestInto sourceName m request (MkIng (imService s) r)) as [[[]|e|] i]; [|by destruct Hp|done].
  destruct Hp as (_ & Hi' & (_ & _ & _ & Hu1 & _ & _ & Hu2 & _) & Hl & Hdry). cbn [igReport igService] in *.
  split; [|done]. split; [|exact Hn]. split; [exact Hi'| |intros Hy; cbn [imService]; rewrite Hdry by done; by apply H3]. cbn [imReport]. rewrite Hu1, Hu2.
  eapply ledger_add; [exact H2|exact Hl| |unfold r; cbn; lia|unfold r; cbn; lia]. intros x. unfold total, delta. cbn [imReport imLocals].
  assert (get x r = get x (imReport s)) as -> by (by destruct x as [[]| |]). lia.
Qed.

Lemma sumZ_zero f n : sumZ (map (get f) (replicate n noReport)) = 0.
Proof using Type. induction n as [|n IH]; cbn; [done|]. unfold sumZ in IH. rewrite IH. by destruct f as [[]| |]. Qed.

(** The books of a root: its workers start with empty reports, and their reports
    are merged at the end. *)
Lemma root_safe concurrency request sourceName root : aqDryRun request = dry ->
  safe idle (fun _ _ => True) (importRoot concurrency request sourceName root).
Proof.
  intros Hd. unfold importRoot. destruct (fsStat aeFS (Clean root)) as [e|[|es err]]; [auto| |].
  { apply safe_seq; [auto|apply parsed_file_safe|]. intros [e|m]; [apply parseFailure_safe, (failure_safe false e)|by apply shared_safe]. }
  cbv zeta. intros s [Hs Hn]. apply post_bind. unfold post at 1, smodify. set (s1 := MkImporter _ _ _).
  assert (walking s1) as H1.
  { destruct Hs as [H1 H2 H3]. split; [|unfold s1; cbn; rewrite length_replicate; lia]. split; [done| |done].
    eapply ledger_ext; [|exact H2]. intros x. unfold s1, total. cbn [imReport imLocals]. by rewrite sumZ_zero, Hn. }
  clearbody s1. apply post_bind, post_try. eapply post_mono.
  { apply (safe_seq walking (fun _ _ => True)); [apply (walkDir_safe walking); [auto|]; intros; by apply entry_safe|auto|exact H1]. }
  cbn beta. intros r s2 [[[H2 H3 H4] _] _]. apply post_bind. unfold post at 1, mergeLocals, smodify.
  set (s3 := MkImporter _ _ _). assert (idle s3) as Hs3.
  { split; [|done]. pose proof (merge_uncounted (imReport s2) (imLocals s2)) as (_ & _ & _ & Hp & _ & _ & Hf & _).
    split; [done| |done]. cbn [s3 imReport]. rewrite Hp, Hf. eapply ledger_ext; [|exact H3]. intros x. unfold total. cbn [s3 imReport imLocals].
    rewrite merge_all. cbn. lia. }
  destruct r; by split.
Qed.

Lemma roots_safe concurrency request sourceName : aqDryRun request = dry ->
  safe idle (fun _ _ => True) (importRoots concurrency request sourceName).
Proof.
  intros Hd. apply safe_sforM; [auto|]. intros _ root. apply safe_seq; [auto|by apply safe_try, root_safe|].
  intros [e|_]; [apply (failure_safe true e)|auto].
Qed.

(** *** Counting and run records *)

Abbreviation calm m := (ok (fun _ _ => True) m).

Lemma calm_of_post {A} (m : SM W A) (Q : W -> GoError + A -> W -> Prop) : (forall w, post m w (Q w)) -> calm m.
Proof using Type. intros H w _. eapply post_mono; [apply H|done]. Qed.

Lemma calm_count request : calm (countArchiveImportMessages aeFS aeCtxErr (aqRoots request) (aqFormat request)).
Proof.
  assert (calm aeCtxErr) as Hc by apply Hob. apply safe_sforM; [auto|]. intros n root. apply safe_seq; [auto| |].
  2: { intros [k err]. cbn [fst snd]. apply safe_seq; [auto|destruct err; auto|auto]. }
  intros w _. unfold countArchiveRootMessages. destruct (fsStat aeFS (Clean root)) as [e|[|es err]]; [done|done|].
  assert (forall format, safe (fun _ : W * Z => True) (fun _ _ => True) (WalkDir (countEntry aeFS aeCtxErr format) (Clean root) (TDir es err))) as Hw.
  { intros format. apply safe_seq; [auto| |auto]. apply (walkDir_safe (fun _ => True)); [auto|]. intros path name dir e.
    unfold countEntry. apply safe_seq; [auto|by destruct e; [apply safe_fail|apply safe_ret]|intros _]. apply safe_seq; [auto| |].
    - intros [w1 n1] _. specialize (Hc w1 Logic.I). unfold post, onFst in *. cbn [fst]. by destruct (aeCtxErr w1) as [[]].
    - intros _. destruct dir; [auto|]. destruct (shouldSkipArchiveFile name); [auto|]. destruct (countArchiveFileMessages _ _ _) as [c e'].
      apply safe_seq; [auto|done|intros _]. apply safe_seq; [auto|by destruct e'; [apply safe_fail|apply safe_ret]|auto]. }
  specialize (Hw (aqFormat request) (w, 0) Logic.I). unfold post in *. by destruct (WalkDir _ _ _ (w, 0)) as [[] []].
Qed.

Lemma calm_record `{!StateFiles W, !StateFilesLaws W} {J : RunJSON} dir record : calm (WriteImportRunRecord dir record).
Proof using Type.
  unfold ok, WriteImportRunRecord. destruct (_ || _); [auto|].
  apply safe_seq; [auto|eapply calm_of_post, fl_now|intros t]. cbv zeta. apply safe_seq; [auto|eapply calm_of_post, fl_mkdir|intros _].
  apply safe_seq; [auto|unfold fromSum; destruct (encodeRecord _); auto|intros c].
  apply safe_seq; [auto|eapply calm_of_post, fl_temp|intros name]. unfold orRemove, orClose.
  apply safe_seq; [auto| |].
  - apply safe_try. apply safe_seq; [auto| |intros _].
    + apply safe_seq; [auto|apply safe_try; eapply calm_of_post, fl_write|]. intros [e|_]; [|auto].
      apply safe_seq; [auto|apply safe_try; eapply calm_of_post, fl_close|auto].
    + apply safe_seq; [auto|eapply calm_of_post, fl_close|intros _]. eapply calm_of_post, fl_rename.
  - intros [e|_]; [|auto]. apply safe_seq; [auto|apply safe_try; eapply calm_of_post, fl_remove|auto].
Qed.

Lemma body_safe concurrency progress request sourceName : aqDryRun request = dry ->
  safe idle (fun _ _ => True) (importBody concurrency progress request sourceName).
Proof.
  intros Hd. unfold importBody. apply safe_seq; [auto|destruct progress; [apply safe_try, idle_world, calm_count|auto]|].
  intros [e|_]; [apply safe_seq; [auto|apply (failure_safe true e)|auto]|].
  apply safe_seq; [auto|by apply roots_safe|intros _]. apply safe_seq; [auto|by apply safe_get|auto].
Qed.

Lemma run_safe `{!StateFiles W, !StateFilesLaws W} {J : RunJSON} concurrency progress request sourceName runID : aqDryRun request = dry ->
  safe idle (fun _ _ => True) (withRunRecord request sourceName runID (importBody concurrency progress request sourceName)).
Proof.
  intros Hd. pose proof (body_safe concurrency progress request sourceName Hd) as Hb. unfold withRunRecord. destruct (aqDryRun request); [done|].
  apply safe_seq; [auto|apply idle_world, Hob|intros t]. cbv zeta. apply safe_seq; [auto|apply safe_try, idle_world, calm_record|intros _].
  apply safe_seq; [auto|done|intros r]. apply safe_seq; [auto|by apply safe_get|intros report].
  apply safe_seq; [auto|apply idle_world, Hob|intros t']. apply safe_seq; [auto|apply safe_try, idle_world, calm_record|auto].
Qed.

End import_proofs.

(** The calls an import makes return. *)
Definition responsive {W} (store : Source.FilestoreClient W) (senv : Source.SourceEnv W) (aenv : ArchiveEnv W) : Prop :=
  obeys (fun _ _ => True) (fun _ => True).

Lemma ledger_empty dry name runID : ledger dry (fun f => get f (newReport name runID 0 0 0 0)) 0 0.
Proof. split; try done. by intros [[]| |]. Qed.

(** C21: an import accounts for every message it parsed: over all roots, workers and
    failures, each parsed message is counted once (as imported, as an exact or a
    Message-ID duplicate, or as a collision), or its failure is in the report;
    collisions are minor or major versions, promotions are among them, what
    low-noise mode skips is a duplicate; a dry run counts every message as
    imported and calls nothing. *)
Theorem import_accounts {W} {store : Source.FilestoreClient W} {senv : Source.SourceEnv W} {aenv : ArchiveEnv W} {mlib : MimeLib}
    `{!StateFiles W, !StateFilesLaws W} {J : RunJSON} (concurrency : Z) (progress : bool) (request : ArchiveImportRequest) (v : Source.Service W) :
  responsive store senv aenv -> Source.cache_ok v ->
  exists report err v', Import concurrency progress request v = (Ok (report, err), v') /\
    ledger (aqDryRun request) (fun f => get f report) (arParsed report) (arParseFailures report) /\
    (aqDryRun request = true -> Source.svTrace v' = Source.svTrace v).
Proof.
  intros Hob Hv. unfold Import. cbv zeta. destruct (if bool_decide _ then _ else _) as [name|].
  2: { do 3 eexists. split; [done|]. split; [apply ledger_empty|done]. }
  set (s0 := MkImporter v _ []). assert (idle (aqDryRun request) (Source.svTrace v) s0) as H0.
  { split; [|done]. split; [done| |done]. eapply ledger_ext; [|apply (ledger_empty _ name (archiveImportRunID sha256Hex request name))].
    intros x. unfold total. cbn. lia. }
  pose proof (run_safe Hob (aqDryRun request) (Source.svTrace v) concurrency progress request name (archiveImportRunID sha256Hex request name) eq_refl s0 H0) as H.
  unfold post in H. destruct (withRunRecord _ _ _ _ s0) as [[err|e|] s1]; [| |done];
    destruct H as [[[_ Hl Ht] Hn] _]; do 3 eexists; (split; [done|]); (split; [|done]);
    (eapply ledger_ext; [|exact Hl]; intros x; unfold total; rewrite Hn; cbn [map sumZ foldr]; lia).
Qed.

(** ** One object per Message-ID *)

(** Provenance that names a Message-ID, and what may change when only those of
    [S] are named. *)
Definition names (S : string -> Prop) (p : Provenance) : Prop := pSourceKind p = MailIdentitySourceKind -> S (pExternalID p).

Definition changes {W} (canon : W -> string -> option ObjectDigest) (S : string -> Prop) (w w' : W) : Prop :=
  forall id, ~ S id -> canon w' id = canon w id.

#[export] Instance changes_pre {W} (canon : W -> string -> option ObjectDigest) S : PreOrder (changes canon S).
Proof. split; [by intros w id _|]. intros w1 w2 w3 H1 H2 id Hid. by rewrite H2, H1. Qed.

(** What FILESTORE keeps of Message-IDs: the object a lookup finds; an operation
    changes it only for the identifiers it names, and a compound that was put is
    found under those it names. *)
Class IdentityLaws (W : Type) {store : Source.FilestoreClient W} {senv : Source.SourceEnv W} {aenv : ArchiveEnv W} := {
  canon : W -> string -> option ObjectDigest;
  id_frame : forall S, obeys (changes canon S) (names S);
  id_lookup : forall id w r w', Source.fcLookupSourceObject (identityRef id) w = (Ok r, w') -> r = canon w id;
  id_put : forall r w d w' p, Source.fcPutCompound r w = (Ok d, w') -> p ∈ cpProvenance (Source.rcPut r) ->
    pSourceKind p = MailIdentitySourceKind -> canon w' (pExternalID p) = Some d }.

Section identity.
Context {W : Type} {store : Source.FilestoreClient W} {senv : Source.SourceEnv W} {aenv : ArchiveEnv W} {mlib : MimeLib} {laws : IdentityLaws W}.
#[local] Set Default Proof Using "Type*".

Lemma archive_names S : archive_ok (names S).
Proof using Type. intros p Hp Hk. rewrite Hp in Hk. discriminate. Qed.

Definition nobody (id : string) : Prop := False.

(** Nothing is written: every Message-ID keeps its object. *)
Lemma quiet_frame : obeys (store := prioritized) (changes canon nobody) (names nobody).
Proof. apply obeys_prioritized, id_frame. Qed.

Lemma sv_quiet {A} (m : SM (Source.Service W) A) s (Q : GoError + A -> Source.Service W -> Prop) : sv_ok (changes canon nobody) m -> Source.cache_ok s ->
  (forall r s', Source.cache_ok s' -> (forall id, canon (Source.svWorld s') id = canon (Source.svWorld s) id) -> Q r s') -> post m s Q.
Proof.
  intros Hm Hs HQ. eapply post_mono; [by apply Hm|]. cbn beta. intros r s' [H1 H2]. apply HQ; [done|]. intros id. apply H2. by intros [].
Qed.

Section created.
Context (object : Source.IngestObject) (c : Source.RpcCompoundPut) (p : Provenance).
Context (Hobj : Source.ioCompound object = Some c) (Hp : p ∈ cpProvenance (Source.rcPut c)) (Hk : pSourceKind p = MailIdentitySourceKind).

(** FILESTORE has answered [d] to a put of the compound [objectID] that names [p]. *)
Definition put_as (objectID : string) (d : ObjectDigest) : Prop :=
  exists request w w', Source.fcPutCompound (FilestoreClient := store) request w = (Ok d, w') /\
    cpObjectID (Source.rcPut request) = objectID /\ p ∈ cpProvenance (Source.rcPut request).

Definition stored (r : GoError + (ObjectDigest * bool * bool)) (s : Source.Service W) : Prop :=
  Source.cache_ok s /\ forall d b, r = inr (d, true, b) -> b = false /\ canon (Source.svWorld s) (pExternalID p) = Some d /\
    put_as (cpObjectID (Source.rcPut c)) d.

Lemma merge_keeps first second : p ∈ first -> p ∈ Source.mergeProvenance first second.
Proof using Type.
  intros H. unfold Source.mergeProvenance. set (acc := (first, _)). assert (p ∈ acc.1) as Ha by done. clearbody acc. revert acc Ha.
  induction second as [|q l IH]; intros acc Ha; cbn [foldl]; [done|]. apply IH. case_bool_decide; [done|]. cbn. apply elem_of_app. by left.
Qed.

Lemma write_stored prov ref claim s : Source.cache_ok s ->
  post (Source.writeIngest (FilestoreClient0 := prioritized) object prov ref claim) s stored.
Proof.
  intros Hs. unfold Source.writeIngest. rewrite Hobj. apply post_bind, post_try.
  set (s1 := s). assert (Source.cache_ok s1) as H1 by done. unfold post, Source.onWorld.
  set (r := Source.withCompound c prov (Source.ioPriorityClass object)).
  assert (forall d w', Source.fcPutCompound (FilestoreClient := prioritized) r (Source.svWorld s1) = (Ok d, w') ->
    canon w' (pExternalID p) = Some d /\ put_as (cpObjectID (Source.rcPut c)) d) as Hput.
  { intros d w' Hr. split; [eapply id_put; [exact Hr| |exact Hk]; by apply merge_keeps|]. do 3 eexists. split; [exact Hr|].
    split; [done|by apply merge_keeps]. }
  pose proof (ob_putCompound _ _ (id_frame (fun _ => True)) (Source.MkRpcCompoundPut (Source.rcPut r)
    (if bool_decide (Source.rcPriorityClass r = "") then PriorityRepair else Source.rcPriorityClass r))) as Hcalm.
  specialize (Hcalm ltac:(by apply Forall_forall) (Source.svWorld s1) Logic.I). unfold post in Hcalm.
  change (Source.fcPutCompound _) with (Source.fcPutCompound (FilestoreClient := prioritized) r) in Hcalm.
  destruct (Source.fcPutCompound (FilestoreClient := prioritized) r (Source.svWorld s1)) as [[d|e|] w]; [| |done].
  - specialize (Hput d w eq_refl) as [Hput Has]. cbn [Source.afterWrite]. unfold Source.finishIngest.
    set (s2 := Source.add_event (Source.EWrote (Some d)) (Source.set_world w s1)). assert (Source.cache_ok s2) as H2 by done.
    change (post (_ ← match claim with Some claim => Source.releaseSourceIngest claim | None => mret tt end;
      _ ← Source.notifyChanged d; mret (d, true, false)) s2 stored).
    apply post_bind, sv_quiet; [destruct claim; [apply (sv_release _ _ quiet_frame (archive_names _))|apply safe_ret, _]|done|].
    intros [e|_] s3 H3 E3; [by split|]. apply post_bind, sv_quiet; [apply (sv_notify _ _ quiet_frame (archive_names _))|done|].
    intros [e|_] s4 H4 E4; [by split|]. apply post_ret. split; [done|]. intros d' b [= <- <-]. split; [done|]. split; [rewrite E4, E3; exact Hput|done].
  - change (post (Source.afterWrite (FilestoreClient0 := prioritized) ref claim (inl e))
      (Source.add_event (Source.EWrote None) (Source.set_world w s1)) stored). cbn [Source.afterWrite].
    apply post_bind, sv_quiet; [destruct ref; [apply (sv_lookup _ _ quiet_frame (archive_names _))|apply safe_ret, _]|done|].
    intros [e'|[d|]] s3 H3 _; by split.
Qed.

(** A compound that is new is what its Message-ID stands for. *)
Definition found (r : GoError + (ObjectDigest * bool)) (s : Source.Service W) : Prop :=
  Source.cache_ok s /\ forall d, r = inr (d, true) -> canon (Source.svWorld s) (pExternalID p) = Some d /\
    put_as (cpObjectID (Source.rcPut c)) d.

Lemma claim_stored claim (body : SM (Source.Service W) (ObjectDigest * bool * bool)) s :
  post body s stored -> post (Source.withClaim (FilestoreClient0 := prioritized) claim body) s found.
Proof.
  intros Hb. unfold Source.withClaim. apply post_bind, post_try. eapply post_mono; [exact Hb|]. cbn beta. intros r s1 [H1 Hr].
  set (back := (match claim with Some _ => _ | None => _ end) r).
  assert (sv_ok (changes canon nobody) back) as Hok.
  { unfold back. destruct claim as [cl|], r as [e|[a []]]; try apply safe_ret, _;
      (apply safe_seq; [apply _|apply safe_try, (sv_release _ _ quiet_frame (archive_names _))|intros _; apply safe_ret, _]). }
  clearbody back. apply post_bind, sv_quiet; [exact Hok|done|]. intros [e|_] s2 H2 E2; [by split|].
  destruct r as [e|[[d []] b]]; [by split| |apply post_ret; by split]. apply post_ret. split; [done|]. intros d' [= <-]. rewrite E2.
  by destruct (Hr d b eq_refl) as (_ & ? & ?).
Qed.

Lemma Ingest_found s : Source.cache_ok s -> TrimSpace (Source.ioSourceKind object) = MailArchiveSourceKind ->
  post (Source.Ingest (FilestoreClient0 := prioritized) object) s found.
Proof.
  intros Hs Hkind. unfold Source.Ingest.
  assert (forall B (k : list Provenance -> SM (Source.Service W) B) Q s0, Source.cache_ok s0 ->
    (forall prov s', Source.cache_ok s' -> post (k prov) s' Q) -> (forall e s', Source.cache_ok s' -> Q (inl e) s') ->
    post (Source.provenanceFor object ≫= k) s0 Q) as Hprov.
  { intros B k Q s0 H0 Hkk He. apply post_bind. unfold Source.provenanceFor.
    destruct (Source.sourceRef object) as [e|[ref|]]; [by apply Hkk| |by apply Hkk]. apply post_bind. destruct (isZero _); [|by apply Hkk].
    eapply post_mono; [apply sv_world; [apply (ob_now _ _ (id_frame nobody))|done]|]. cbn beta. intros [e|t] s1 [H1 _]; [by apply He|by apply Hkk]. }
  destruct (Source.sourceRef object) as [e|[ref|]]; [by split| |].
  - apply Hprov; [done| |by split]. intros prov s0 H0. apply post_bind, sv_quiet; [apply (sv_lookup _ _ quiet_frame (archive_names _))|done|].
    intros [e|[d|]] s1 H1 _; [by split|by apply post_ret|]. apply post_bind, sv_quiet; [apply sv_world, (ob_acquire _ _ quiet_frame)|done|].
    intros [e|[claim|]] s2 H2 _; [by split| |by split]. apply post_bind. unfold post at 1, Source.log, smodify.
    apply claim_stored. unfold Source.ingestClaimed. apply post_bind, sv_quiet; [apply (sv_lookup _ _ quiet_frame (archive_names _))|done|].
    intros [e|[d|]] s3 H3 _; [by split| |by apply write_stored].
    apply post_bind, sv_quiet; [apply (sv_release _ _ quiet_frame (archive_names _))|done|]. intros [e|_] s4 H4 _; by split.
  - apply Hprov; [done| |by split]. intros prov s0 H0. by apply claim_stored, write_stored.
Qed.

End created.

Lemma canonical_post sourceName m s : imI s ->
  post (ingestCanonicalMessage sourceName m) s (fun r s' => let id := mgMessageID (amMessage m) in
    (imI s' /\ imT (changes canon (eq id)) s s') /\
    forall d, r = inr (d, true) -> canon (imW s') id = Some d /\ put_as (identityProvenance m) ("mail_message:" +:+ id) d).
Proof.
  intros Hs. apply post_and.
  { apply (im_canonical _ _ (id_frame _) (archive_names _)); [by intros _|done]. }
  unfold ingestCanonicalMessage. pose proof (id_frame (fun _ => True)) as Hob.
  apply (im_step (changes canon (fun _ => True)) _ _ s); [apply (im_messageParts _ _ Hob (archive_names _))|done|reflexivity|done|intros parts s1 H1 _].
  apply (im_step (changes canon (fun _ => True)) _ _ s1); [apply (im_record _ _ Hob (archive_names _))|done|reflexivity|done|intros d s2 H2 _].
  cbv zeta. set (o := compoundObject _ _ _ _ _). unfold ingest, service, post.
  pose proof (Ingest_found o _ (identityProvenance m) eq_refl ltac:(by right; left) eq_refl (igService s2) H2 eq_refl) as H. unfold post in H.
  by destruct (Source.Ingest o (igService s2)) as [[[d' b]|e|] v]; [destruct H as [_ H]|..].
Qed.


End identity.
(** ** A small store *)

(** A store that keeps what Message-IDs stand for. *)
Abbreviation Box := (gmap string ObjectDigest).

Definition identities (ps : list Provenance) : list string :=
  map pExternalID (List.filter (fun p => bool_decide (pSourceKind p = MailIdentitySourceKind)) ps).

#[local] Instance boxClient : Source.FilestoreClient Box := {|
  Source.fcLookupSourceObject ref := fun w => (Ok (if bool_decide (rSourceKind ref = MailIdentitySourceKind) then w !! rExternalID ref else None), w);
  Source.fcTryAcquireSourceIngest ref := mret (Some (MkClaim 0 ref "claim"));
  Source.fcReleaseSourceIngest _ := mret tt; Source.fcPut _ := mret "part";
  Source.fcPutCompound r := fun w => (Ok "canonical", foldr (fun id (w : Box) => <[id := "canonical"]> w) w (identities (cpProvenance (Source.rcPut r))));
  Source.fcReadManifest _ := sfail ErrNotExist; Source.fcWriteSourceCursor _ := mret tt; Source.fcReadSourceCursor _ := mret None |}.

#[local] Instance boxEnv : Source.SourceEnv Box := {|
  Source.seNow := mret 7; Source.seFormatTime _ := "now"; Source.seNotify _ := mret tt; Source.sePressured := mret false;
  Source.seWait := mret tt; Source.seDone _ := false; Source.seFeed := mret true |}.

Definition boxFS : FileSystem :=
  MkFS (fun _ => inr (TDir [("1", TFile); ("2", TFile); ("x.xml", TFile)] None)) (fun path => inr (MkFile ("Subject: " +:+ path) None)).

#[local] Instance boxArchive : ArchiveEnv Box := {|
  aeAttachProvenanceWithPriority _ _ _ := mret tt; aeReadAll _ := mret ""; aeAcquire := mret tt; aeCtxErr := mret tt;
  aeWorker w := (1%nat, w); aeFS := boxFS; aeJSON _ := "{}"; aeSprint _ := ""; aeEqualFold a b := bool_decide (a = b) |}.

(** Its run records cannot be written. *)
#[local] Instance boxFiles : StateFiles Box := {|
  sfNow := mret 7; sfMkdirAll _ := sfail ErrNotExist; sfCreateTemp _ _ := sfail ErrNotExist; sfWrite _ _ := sfail ErrNotExist;
  sfSync _ := sfail ErrNotExist; sfClose _ := sfail ErrNotExist; sfRename _ _ := sfail ErrNotExist; sfRemove _ := sfail ErrNotExist;
  sfReadFile _ := sfail ErrNotExist; sfReadDir _ := sfail ErrNotExist; sfFile _ _ := None |}.

#[local] Instance boxFilesLaws : StateFilesLaws Box.
Proof. split; intros; cbn; repeat split; try done. Qed.

#[local] Instance boxJSON : RunJSON := {|
  encodeState _ := inr ""; decodeState _ := inr zeroRunState; encodeRecord _ := inl (ErrMsg "json"); decodeRecord _ := inl (ErrMsg "json") |}.

#[local] Existing Instance exMime.

Lemma insert_ids (ids : list string) (w : Box) id : ~ (id ∈ ids) -> foldr (fun id (w : Box) => <[id := "canonical"]> w) w ids !! id = w !! id.
Proof.
  induction ids as [|x ids IH]; intros Hid; cbn [foldr]; [done|]. rewrite lookup_insert_ne by (intros ->; apply Hid; by left). apply IH. intros H. apply Hid. by right.
Qed.

Lemma inserted_ids (ids : list string) (w : Box) id : id ∈ ids -> foldr (fun id (w : Box) => <[id := "canonical"]> w) w ids !! id = Some "canonical".
Proof.
  induction ids as [|x ids IH]; [by intros ?%not_elem_of_nil|]. intros [->|H]%elem_of_cons; cbn [foldr]; [by rewrite lookup_insert_eq|].
  destruct (decide (x = id)) as [->|]; [by rewrite lookup_insert_eq|]. rewrite lookup_insert_ne by done. auto.
Qed.

Lemma elem_identities p ps : p ∈ ps -> pSourceKind p = MailIdentitySourceKind -> pExternalID p ∈ identities ps.
Proof.
  intros Hp Hk. apply list_elem_of_In, in_map, filter_In. split; [by apply list_elem_of_In|]. by apply bool_decide_eq_true_2.
Qed.

#[local] Instance boxLaws : IdentityLaws Box.
Proof.
  refine {| canon := fun (w : Box) id => w !! id |}.
  - intros S. split; [intros ref w _; by split|intros ref w _; by split|intros c w _; by split|intros r Hr w _; by split|
      |intros d w _; by split|intros w _; by split|intros d w _; by split|intros d ps c H w _; by split|intros d w _; by split|
      intros w _; by split|intros w _; by split|by intros w].
    intros r Hr w _. split; [done|]. intros id Hid. apply insert_ids. intros H. apply Hid. apply list_elem_of_In, in_map_iff in H as (p & <- & [Hp Hk]%filter_In).
    rewrite Forall_forall in Hr. apply (Hr p); [by apply list_elem_of_In|by apply bool_decide_eq_true_1 in Hk].
  - intros id w r w' [= <- <-]. done.
  - intros r w d w' p [= <- <-] Hp Hk. apply inserted_ids. by apply elem_identities.
Defined.

Definition boxRequest : ArchiveImportRequest := MkImportRequest "box" "" ["/box"] "run" "/state" false false false 0.

Lemma import_accounts_witness :
  (exists report err v', Import 4 true boxRequest (Source.NewService (∅ : Box) false false) = (Ok (report, err), v') /\
    ledger false (fun f => get f report) (arParsed report) (arParseFailures report) /\
    (false = true -> Source.svTrace v' = Source.svTrace (Source.NewService (∅ : Box) false false))) /\
  match (Import 4 true boxRequest (Source.NewService (∅ : Box) false false)).1 with
  | Ok (r, _) => (arScanned r, arParsed r, arImported r, arExactDuplicates r, arMessageIDDuplicates r, length (arFailures r)) = (2, 2, 1, 0, 0, 1%nat)
  | _ => False
  end.
Proof.
  split; [|vm_compute; reflexivity].
  apply (import_accounts 4 true boxRequest (Source.NewService (∅ : Box) false false)); [|apply Source.New_entries].
  split; intros; by split.
Defined.

Definition boxMessage : message :=
  MkArchiveMessage (MkMessage ∅ "hello" "text/plain" "<a@b>" "fp" "bl" "" "me" "you" "body" [] "" false) 5 "/box/1" "box" "nnml" "1" "v".


End Archive.
