(* ===== verification/ArchiveStore.v ===== *)
(** * An archive import into a [FilesystemStore]

    The importer's interfaces on the store of Meta.v, and runs of it: what a
    second import of the same messages writes. *)

From stdpp Require Import options.
From S2P Require Import Prelude Lru GoLib GoText Contracts Chunker Manifest Meta Concrete ChunkStore SourceIngest ObjectStore Jobs Mbox ArchiveFiles ArchiveQueue SourceService MailMessage ArchiveImport.

Local Open Scope Z_scope.

Module Run.
Import Archive.

(** ** The store as the importer sees it *)

Section instances.
Context {E : Ext}.

(** The source cursors are kept by another table; an import has none. *)
#[export] Instance filesystem_client : Source.FilestoreClient Store := {|
  Source.fcLookupSourceObject := SourceIngest.LookupSourceObject;
  Source.fcTryAcquireSourceIngest := SourceIngest.TryAcquireSourceIngest;
  Source.fcReleaseSourceIngest := SourceIngest.ReleaseSourceIngest;
  Source.fcPut r := ObjectStore.Put (Source.rpPut r);
  Source.fcPutCompound r := ObjectStore.PutCompound (Source.rcPut r);
  Source.fcReadManifest := SourceIngest.ReadManifest;
  Source.fcWriteSourceCursor _ := sfail (ErrMsg "no cursors");
  Source.fcReadSourceCursor _ := mret None |}.

#[export] Instance filesystem_env : Source.SourceEnv Store := {|
  Source.seNow := now; Source.seFormatTime := formatTime; Source.seNotify _ := mret tt; Source.sePressured := mret false;
  Source.seWait := mret tt; Source.seDone _ := false; Source.seFeed := mret true |}.

(** The content of an object, read with a buffer of 512 bytes. *)
Definition readObject (d : ObjectDigest) : SM Store string :=
  r ← (ObjectStore.Open d : SM Store ReadCloser);
  match r with
  | WholeBlob content => mret (String.string_of_list_byte content)
  | Chunked r =>
      x ← (crReadAll (replicate 64 512%nat) r [] : SM Store (bytes * readErr));
      match x.2 with EOF => mret (String.string_of_list_byte x.1) | _ => sfail (ErrMsg "read") end
  end.

End instances.

(** ** A concrete machine *)

(** A polynomial digest, so that the objects of a run are told apart. *)
Fixpoint hexDigits (n : nat) (z : N) (acc : list Ascii.ascii) : list Ascii.ascii :=
  match n with O => acc | S n => hexDigits n (z / 16)%N (hexDigit (z mod 16)%N :: acc) end.

Definition polyDigest (b : bytes) : string :=
  bytes_str (replicate 54 (hexDigit 0) ++ hexDigits 10 (foldl (fun h x => (h * 257 + Byte.to_N x + 1) mod 2 ^ 40)%N 7%N b) []).

#[local] Instance RunExt : Ext := {|
  DB := gmap string Value; dbGet d k := d !! k; dbApply := applyWrites; dbRange := toyRange; blake3 := polyDigest; sha256 := polyDigest;
  zEncode d b := toyTag d :: b;
  zDecode d z := match z with t :: b => if Byte.eqb t (toyTag d) then Some b else None | [] => None end;
  parseMediaType m := Some m; formatTime t := if (t <? 0)%Z then "-" else FormatUint (Z.to_N t);
  annotationJSON a := String.list_byte_of_string (aKind a); parseAnnotation b := Some (toyAnnotationOf b);
  envelopeJSON s i p q := String.list_byte_of_string (s +:+ i) |}.

Definition freshStore : Store := @MkStore RunExt ∅ ∅ false None emptyDicts (SizedLru.NewSizedLRU 1024) (MkLegacy ∅ ∅ ∅ ∅) 1000 [] [].

Fixpoint printAny (v : Any) : string :=
  match v with
  | ANil => "null"
  | ABool b => if b then "true" else "false"
  | AInt z => FormatInt z
  | AFloat n d => FormatInt n
  | AStr s => s
  | ATime t => FormatInt t
  | AList l => "[" +:+ (fix go l := match l with [] => "]" | x :: r => printAny x +:+ "," +:+ go r end) l
  | AMap m => "{" +:+ (fix go m := match m with [] => "}" | (k, x) :: r => k +:+ ":" +:+ printAny x +:+ "," +:+ go r end) m
  end.

#[local] Instance runEnv : ArchiveEnv Store := {|
  aeAttachProvenanceWithPriority d ps _ := _ ← (ObjectStore.AttachProvenance d ps : SM Store bool); mret tt;
  aeReadAll := readObject; aeAcquire := mret tt; aeCtxErr := mret tt; aeWorker w := (0%nat, w);
  aeFS := MkFS (fun _ => inl ErrNotExist) (fun _ => inl ErrNotExist); aeJSON := printAny; aeSprint := printAny; aeEqualFold a b := EqualFold a b |}.

#[local] Existing Instance Mail.exMime.

(** A message of the archive "box" with a given body. *)
Definition mail (path body : string) : archiveMessage Mail.Message :=
  MkArchiveMessage (Mail.MkMessage ∅ "hello" "text/plain" "<a@b>" ("fp-" +:+ body) (Mail.BodyLineFingerprint body) "" "me" "you" body [] "" false)
    5 path "box" "nnml" path ("v-" +:+ body).

Definition ingestOne (m : archiveMessage Mail.Message) (s : Ingesting Store) : Ingesting Store :=
  (ingestArchiveMessage "box" m false false s).2.

Definition started : Ingesting Store := MkIng (Source.NewService freshStore false false) noReport.

Definition ingestAll (ms : list (archiveMessage Mail.Message)) : Ingesting Store := foldl (fun s m => ingestOne m s) started ms.

Definition withAttachment (a : Mail.Attachment) (m : archiveMessage Mail.Message) : archiveMessage Mail.Message :=
  let t := amMessage m in
  MkArchiveMessage (Mail.MkMessage (Mail.mgHeaders t) (Mail.mgSubject t) (Mail.mgBodyMediaType t) (Mail.mgMessageID t) (Mail.mgFingerprint t)
      (Mail.mgBodyLineHash t) (Mail.mgDate t) (Mail.mgFrom t) (Mail.mgTo t) (Mail.mgBody t) [a] (Mail.mgRaw t) (Mail.mgGeneratedMessage t))
    (amObservedAt m) (amSourcePath m) (amMailbox m) (amFormat m) (amExternalID m) (amExternalVersion m).

(** What the source object of the archive is stored as. *)
Definition stored (s : Ingesting Store) (externalID version : string) : res (option ObjectDigest) :=
  (SourceIngest.LookupSourceObject (MkRef MailArchiveSourceKind "box" externalID version) (imW s)).1.

(** Importing an archive again is not always free.  Two messages share a
    Message-ID.  When the longer one comes first, a second import writes nothing.
    When it comes second it is promoted; then the first message no longer matches
    the canonical body, and a second import stores patches and a variant for the
    message the archive started with, and reports a collision. *)
Theorem reimport_writes_again :
  let short := mail "1" "a" in let long := mail "2" "ab" in
  let kept := ingestAll [long; short] in let twice := ingestOne short (ingestOne long kept) in
  let promoted := ingestAll [short; long] in let again := ingestOne short promoted in
  size (db (imW twice)) = size (db (imW kept)) /\
  arPromoted (igReport promoted) = 1 /\ stored promoted "1:variant" "v-a" = Ok None /\
  (exists d, stored again "1:variant" "v-a" = Ok (Some d)) /\
  arCollisions (igReport again) = arCollisions (igReport promoted) + 1.
Proof. vm_compute. repeat split. by eexists. Qed.

(** A message that repeats a Message-ID and a body is a duplicate whatever else it
    carries: an attachment only it has is stored nowhere, and the import reports
    no failure. *)
Theorem duplicate_drops_attachment :
  let first := mail "1" "see attachment" in
  let second := withAttachment (Mail.MkAttachment "" "plan.pdf" "application/pdf" "PDF") (mail "2" "see attachment") in
  let s := ingestAll [first; second] in
  arMessageIDDuplicates (igReport s) = 1 /\ arFailures (igReport s) = [] /\
  stored s "2:attachment:0:plan.pdf" "v-see attachment" = Ok None /\
  dbGet (db (imW s)) (manifestKey (blake3 (String.list_byte_of_string "PDF"))) = None.
Proof. vm_compute. repeat split. Qed.

End Run.
