(* ===== verification/Breaker.v ===== *)
(** * The per-analyzer circuit breaker: [analysis/circuitbreaker.go]

    The breaker's state, its five operations, and the three-phase machine
    (closed, open, half-open) they implement.  Every method runs under the
    breaker's mutex, so calls of concurrent workers are a sequence of
    operations; [breaker.now()] is the time carried by the operation.
    Durations are [int64] nanoseconds with wrap-around; the counters, which
    grow by one per failed job, are unbounded. *)

From stdpp Require Import options.
From S2P Require Import Prelude GoLib Contracts.

Local Open Scope Z_scope.

(** Wrap-around of [int64] arithmetic. *)
Definition int64 (z : Z) : Z := (z + 2 ^ 63) mod 2 ^ 64 - 2 ^ 63.

Definition Second : Z := 10 ^ 9.
Definition Minute : Z := 60 * Second.

(** ** State *)

Definition defaultBreakerThreshold : Z := 5.
Definition defaultBreakerBaseBackoff : Z := 15 * Second.
Definition defaultBreakerMaxBackoff : Z := 10 * Minute.

Record breakerState := MkBState {
  openUntil : Time; failures : Z; openSequence : Z; halfOpen : bool }.

Record circuitBreaker := MkBreaker {
  states : gmap string breakerState; threshold : Z; baseBackoff : Z; maxBackoff : Z }.

Definition newCircuitBreaker : circuitBreaker :=
  MkBreaker ∅ defaultBreakerThreshold defaultBreakerBaseBackoff defaultBreakerMaxBackoff.

Definition set_states (m : gmap string breakerState) (b : circuitBreaker) : circuitBreaker :=
  MkBreaker m (threshold b) (baseBackoff b) (maxBackoff b).

(** ** Operations *)

(** [for range sequence - 1]: [inl] is the early return. *)
Fixpoint backoffLoop (n : nat) (max backoff : Z) : Z + Z :=
  match n with
  | O => inr backoff
  | S n => let backoff := int64 (backoff * 2) in
           if max <=? backoff then inl max else backoffLoop n max backoff
  end.

Definition backoffFor (b : circuitBreaker) (sequence : Z) : Z :=
  match backoffLoop (Z.to_nat (sequence - 1)) (maxBackoff b) (baseBackoff b) with
  | inl r => r
  | inr backoff => if maxBackoff b <? backoff then maxBackoff b else backoff
  end.

Definition allow (key : string) (now : Time) (b : circuitBreaker) : bool * circuitBreaker :=
  match states b !! key with
  | None => (true, b)
  | Some state =>
      if failures state <? threshold b then (true, b)
      else if Before now (openUntil state) then (false, b)
      else if halfOpen state then (false, b)
      else (true, set_states (<[key := MkBState (openUntil state) (failures state)
              (openSequence state) true]> (states b)) b)
  end.

Definition recordSuccess (key : string) (b : circuitBreaker) : circuitBreaker :=
  set_states (delete key (states b)) b.

Definition recordFailure (key : string) (now : Time) (b : circuitBreaker) : circuitBreaker :=
  let state := default (MkBState zeroTime 0 0 false) (states b !! key) in
  let failures' := failures state + 1 in
  let state' :=
    if halfOpen state || (threshold b <=? failures')
    then let sequence := openSequence state + 1 in
         MkBState (now + backoffFor b sequence) failures' sequence false
    else MkBState (openUntil state) failures' (openSequence state) (halfOpen state) in
  set_states (<[key := state']> (states b)) b.

Definition isOpen (key : string) (now : Time) (b : circuitBreaker) : bool :=
  match states b !! key with
  | None => false
  | Some state => if failures state <? threshold b then false else Before now (openUntil state)
  end.

(** ** Runs: the calls in the order the mutex grants them *)

Inductive op :=
  | OAllow (key : string) (now : Time)
  | OSuccess (key : string)
  | OFailure (key : string) (now : Time)
  | OIsOpen (key : string) (now : Time).

(** The answer of [allow] and [isOpen]; [None] for the two records. *)
Definition step (o : op) (b : circuitBreaker) : option bool * circuitBreaker :=
  match o with
  | OAllow k t => let '(r, b') := allow k t b in (Some r, b')
  | OSuccess k => (None, recordSuccess k b)
  | OFailure k t => (None, recordFailure k t b)
  | OIsOpen k t => (Some (isOpen k t b), b)
  end.

Fixpoint run (os : list op) (b : circuitBreaker) : list (option bool) * circuitBreaker :=
  match os with
  | [] => ([], b)
  | o :: r => let '(a, b1) := step o b in
              let '(l, b2) := run r b1 in (a :: l, b2)
  end.

(** ** The machine it implements *)

(** A circuit is closed and counts consecutive failures, is open for the
    [trips]-th time until some moment, or has one probe in flight. *)
Inductive circuit :=
  | Closed (fails : nat)
  | Open (trips : nat) (until : Time)
  | HalfOpen (trips : nat) (until : Time).

(** The window doubles with every trip, from 15 seconds up to 10 minutes. *)
Definition window (trips : nat) : Z :=
  Z.min defaultBreakerMaxBackoff (defaultBreakerBaseBackoff * 2 ^ (Z.of_nat trips - 1)).

Definition spec_allow (now : Time) (c : circuit) : bool * circuit :=
  match c with
  | Closed n => (true, Closed n)
  | Open n u => if now <? u then (false, Open n u) else (true, HalfOpen n u)
  | HalfOpen n u => (false, HalfOpen n u)
  end.

Definition spec_failure (now : Time) (c : circuit) : circuit :=
  match c with
  | Closed n => if (n <? 4)%nat then Closed (S n) else Open 1 (now + window 1)
  | Open n _ | HalfOpen n _ => Open (S n) (now + window (S n))
  end.

Definition spec_isOpen (now : Time) (c : circuit) : bool :=
  match c with Closed _ => false | Open _ u | HalfOpen _ u => now <? u end.

Definition spec_set (k : string) (c : circuit) (cs : string -> circuit) : string -> circuit :=
  fun k' => if bool_decide (k' = k) then c else cs k'.

Definition spec_step (o : op) (cs : string -> circuit) : option bool * (string -> circuit) :=
  match o with
  | OAllow k t => let '(r, c) := spec_allow t (cs k) in (Some r, spec_set k c cs)
  | OSuccess k => (None, spec_set k (Closed 0) cs)
  | OFailure k t => (None, spec_set k (spec_failure t (cs k)) cs)
  | OIsOpen k t => (Some (spec_isOpen t (cs k)), cs)
  end.

Fixpoint spec_run (os : list op) (cs : string -> circuit) : list (option bool) * (string -> circuit) :=
  match os with
  | [] => ([], cs)
  | o :: r => let '(a, c1) := spec_step o cs in
              let '(l, c2) := spec_run r c1 in (a :: l, c2)
  end.

(** ** The backoff *)

Lemma int64_id z : - 2 ^ 63 <= z < 2 ^ 63 -> int64 z = z.
Proof. intros H. unfold int64. rewrite Z.mod_small; lia. Qed.

Lemma backoffLoop_spec n max backoff :
  0 < backoff <= max -> max < 2 ^ 62 ->
  match backoffLoop n max backoff with
  | inl r => r = max /\ max <= backoff * 2 ^ Z.of_nat n
  | inr r => r = backoff * 2 ^ Z.of_nat n /\ r <= max
  end.
Proof.
  revert backoff. induction n as [|n IH]; intros backoff Hb Hm; [simpl; lia|].
  rewrite Nat2Z.inj_succ, Z.pow_succ_r by lia. cbn [backoffLoop]. rewrite int64_id by lia.
  pose proof (Z.pow_pos_nonneg 2 (Z.of_nat n) ltac:(lia) ltac:(lia)).
  destruct (Z.leb_spec max (backoff * 2)) as [Hc|Hc]; [split; [done|nia]|].
  specialize (IH (backoff * 2) ltac:(lia) Hm). case_match; nia.
Qed.

(** The settings every breaker of the program has. *)
Definition settings (b : circuitBreaker) : Prop :=
  threshold b = 5 /\ baseBackoff b = defaultBreakerBaseBackoff /\ maxBackoff b = defaultBreakerMaxBackoff.

Lemma backoffFor_window b trips :
  settings b -> (1 <= trips)%nat -> backoffFor b (Z.of_nat trips) = window trips.
Proof.
  intros (_ & Hb & Hm) Ht. unfold backoffFor, window. rewrite Hb, Hm.
  pose proof (backoffLoop_spec (Z.to_nat (Z.of_nat trips - 1)) defaultBreakerMaxBackoff
    defaultBreakerBaseBackoff ltac:(vm_compute; intuition congruence) ltac:(vm_compute; reflexivity)) as H.
  rewrite Z2Nat.id in H by lia. destruct (backoffLoop _ _ _) as [r|r]; destruct H as [-> H]; [lia|].
  destruct (Z.ltb_spec defaultBreakerMaxBackoff (defaultBreakerBaseBackoff * 2 ^ (Z.of_nat trips - 1))); lia.
Qed.

Lemma window_bounds trips :
  (1 <= trips)%nat -> defaultBreakerBaseBackoff <= window trips <= defaultBreakerMaxBackoff.
Proof.
  intros Ht. unfold window. pose proof (Z.pow_pos_nonneg 2 (Z.of_nat trips - 1) ltac:(lia) ltac:(lia)).
  assert (defaultBreakerBaseBackoff <= defaultBreakerMaxBackoff) by (vm_compute; congruence).
  assert (0 < defaultBreakerBaseBackoff) by (vm_compute; reflexivity). nia.
Qed.

(** ** Simulation *)

(** A concrete state and the phase it is in. *)
Definition abstracts (s : option breakerState) (c : circuit) : Prop :=
  match s, c with
  | None, Closed O => True
  | Some s, Closed n => failures s = Z.of_nat n /\ (0 < n < 5)%nat /\ openSequence s = 0 /\ halfOpen s = false
  | Some s, Open n u => 5 <= failures s /\ openSequence s = Z.of_nat n /\ (1 <= n)%nat /\ openUntil s = u /\ halfOpen s = false
  | Some s, HalfOpen n u => 5 <= failures s /\ openSequence s = Z.of_nat n /\ (1 <= n)%nat /\ openUntil s = u /\ halfOpen s = true
  | _, _ => False
  end.

(** Every key is in the phase the machine has it in. *)
Definition refines (b : circuitBreaker) (cs : string -> circuit) : Prop :=
  settings b /\ forall k, abstracts (states b !! k) (cs k).

Lemma refines_new : refines newCircuitBreaker (fun _ => Closed 0).
Proof. split; [done|]. intros k. unfold newCircuitBreaker. cbn. by rewrite lookup_empty. Qed.

Lemma refines_set b cs k s c :
  refines b cs -> abstracts (Some s) c -> refines (set_states (<[k := s]> (states b)) b) (spec_set k c cs).
Proof.
  intros [Hs Hb] Hc. split; [done|]. intros k'. unfold spec_set. cbn [states set_states].
  case_bool_decide; [subst; by rewrite lookup_insert_eq|]. by rewrite lookup_insert_ne by done.
Qed.

Lemma refines_same b cs k : refines b cs -> refines b (spec_set k (cs k) cs).
Proof. intros [Hs Hb]. split; [done|]. intros k'. unfold spec_set. case_bool_decide; [by subst|done]. Qed.

Lemma allow_refines b cs k t :
  refines b cs ->
  (allow k t b).1 = (spec_allow t (cs k)).1 /\ refines (allow k t b).2 (spec_set k (spec_allow t (cs k)).2 cs).
Proof.
  intros HR. pose proof HR as [(Ht & _) Hb]. pose proof (refines_same b cs k HR) as Hsame. specialize (Hb k).
  unfold allow, spec_allow, Before. rewrite Ht.
  destruct (states b !! k) as [s|], (cs k) as [[|n]|n u|n u] eqn:Hc; cbn in Hb |- *;
    try done; try (destruct Hb as (Hf & Hb)).
  - lia.
  - rewrite (proj2 (Z.ltb_lt _ _)) by lia. done.
  - rewrite (proj2 (Z.ltb_ge _ _)) by lia. destruct Hb as (Hq & Hn & -> & ->).
    destruct (t <? u); [done|]. split; [done|]. apply refines_set; done.
  - rewrite (proj2 (Z.ltb_ge _ _)) by lia. destruct Hb as (Hq & Hn & -> & ->). by destruct (t <? u).
Qed.

Lemma failure_refines b cs k t :
  refines b cs -> refines (recordFailure k t b) (spec_set k (spec_failure t (cs k)) cs).
Proof.
  intros HR. pose proof HR as [Hset Hb]. specialize (Hb k). unfold recordFailure. apply refines_set; [done|].
  rewrite (proj1 Hset).
  destruct (states b !! k) as [s|], (cs k) as [[|n]|n u|n u] eqn:Hc; cbn -[Nat.ltb Z.of_nat Z.add] in Hb |- *; try done;
    try (destruct Hb as (Hf & Hb)); [lia|..].
  - destruct Hb as (Hn & Hq & ->). cbn [orb]. rewrite Hf, Hq.
    destruct (Nat.ltb_spec (S n) 4) as [Hlt|Hge].
    + rewrite (proj2 (Z.leb_gt _ _)) by lia. cbn -[Z.of_nat Z.add]. lia.
    + rewrite (proj2 (Z.leb_le _ _)) by lia. cbn -[Z.of_nat Z.add]. change (0 + 1) with (Z.of_nat 1). rewrite (backoffFor_window b 1) by (done || lia). lia.
  - destruct Hb as (Hq & Hn & _ & ->). cbn [orb]. rewrite (proj2 (Z.leb_le _ _)) by lia. cbn -[Z.of_nat Z.add].
    replace (openSequence s + 1) with (Z.of_nat (S n)) by lia. rewrite backoffFor_window by (done || lia). lia.
  - destruct Hb as (Hq & Hn & _ & ->). cbn -[Z.of_nat Z.add].
    replace (openSequence s + 1) with (Z.of_nat (S n)) by lia. rewrite backoffFor_window by (done || lia). lia.
  - change (5 <=? 0 + 1) with false. cbn. lia.
Qed.

Lemma breaker_step_refines o b cs :
  refines b cs -> (step o b).1 = (spec_step o cs).1 /\ refines (step o b).2 (spec_step o cs).2.
Proof.
  intros HR. destruct o as [k t|k|k t|k t]; cbn [step spec_step].
  - destruct (allow_refines b cs k t HR) as [H1 H2]. destruct (allow k t b), (spec_allow t (cs k)). cbn in *. by subst.
  - split; [done|]. destruct HR as [Hs Hb]. split; [done|]. intros k'. cbn. unfold spec_set. case_bool_decide.
    + subst. by rewrite lookup_delete_eq.
    + by rewrite lookup_delete_ne by done.
  - split; [done|]. by apply failure_refines.
  - cbn [fst snd]. split; [|done]. f_equal. destruct HR as [(Ht & _) Hb]. specialize (Hb k). unfold isOpen, spec_isOpen, Before.
    rewrite Ht. destruct (states b !! k) as [s|], (cs k) as [[|n]|n u|n u]; cbn in Hb; try done.
    + lia.
    + by rewrite (proj2 (Z.ltb_lt _ _)) by lia.
    + rewrite (proj2 (Z.ltb_ge _ _)) by lia. by destruct Hb as (_ & _ & _ & -> & _).
    + rewrite (proj2 (Z.ltb_ge _ _)) by lia. by destruct Hb as (_ & _ & _ & -> & _).
Qed.

Lemma breaker_run_refines os b cs :
  refines b cs -> (run os b).1 = (spec_run os cs).1 /\ refines (run os b).2 (spec_run os cs).2.
Proof.
  revert b cs. induction os as [|o os IH]; intros b cs HR; [done|]. cbn [run spec_run].
  destruct (breaker_step_refines o b cs HR) as [Ha Hr]. destruct (step o b) as [a b1], (spec_step o cs) as [a' c1]. cbn in Ha, Hr.
  destruct (IH b1 c1 Hr) as [Hl Hr2]. destruct (run os b1), (spec_run os c1). cbn in *. by subst.
Qed.

(** ** What the machine promises *)

(** An operation that reports the outcome of a job of [k]. *)
Definition reports (k : string) (o : op) : bool :=
  match o with
  | OSuccess k' | OFailure k' _ => bool_decide (k' = k)
  | _ => false
  end.

(** How many calls of [allow k] in [os] answered true. *)
Fixpoint admitted (k : string) (os : list op) (answers : list (option bool)) : nat :=
  match os, answers with
  | OAllow k' _ :: os, Some true :: answers => (if bool_decide (k' = k) then 1 else 0) + admitted k os answers
  | _ :: os, _ :: answers => admitted k os answers
  | _, _ => 0
  end.

Definition probing (c : circuit) : Prop := match c with HalfOpen _ _ => True | _ => False end.
Definition tripped (c : circuit) : Prop := match c with Closed _ => False | _ => True end.

Lemma spec_step_quiet o k cs :
  reports k o = false ->
  (probing (cs k) -> probing ((spec_step o cs).2 k)) /\ (tripped (cs k) -> tripped ((spec_step o cs).2 k)).
Proof.
  intros Ho. destruct o as [k' t|k'|k' t|k' t]; cbn in Ho |- *; try (unfold spec_set); try done.
  - destruct (spec_allow t (cs k')) as [r c] eqn:Ha. cbn. unfold spec_set. case_bool_decide; [subst|done].
    destruct (cs k') as [n|n u|n u]; cbn in Ha; [by simplify_eq| |by simplify_eq].
    destruct (t <? u); by simplify_eq.
  - apply bool_decide_eq_false in Ho. rewrite bool_decide_false by congruence. done.
  - apply bool_decide_eq_false in Ho. rewrite bool_decide_false by congruence. done.
Qed.

(** Until the outcome of a job is reported, a circuit with a probe in flight
    admits nobody, and an open one admits at most one. *)
Lemma spec_admits k os cs :
  Forall (fun o => reports k o = false) os -> tripped (cs k) ->
  (admitted k os (spec_run os cs).1 <= 1)%nat /\ (probing (cs k) -> admitted k os (spec_run os cs).1 = 0%nat).
Proof.
  intros Hos. revert cs. induction Hos as [|o os Ho Hos IH]; intros cs Ht; [cbn; lia|].
  cbn [spec_run]. destruct (spec_step_quiet o k cs Ho) as [Hp Ht'].
  destruct (spec_step o cs) as [a c1] eqn:Hst. cbn [snd] in *.
  specialize (IH c1 (Ht' Ht)). destruct (spec_run os c1) as [l c2] eqn:Hrun. cbn [fst] in *.
  destruct o as [k' t|k'|k' t|k' t]; cbn [admitted] in *; [|tauto..].
  cbn in Hst. destruct (spec_allow t (cs k')) as [r c] eqn:Ha. injection Hst as <- <-.
  destruct r; [|tauto]. case_bool_decide; [subst k'|tauto].
  assert (probing (spec_set k c cs k) /\ ~ probing (cs k)) as [Hc1 Hc0].
  { unfold spec_set. rewrite bool_decide_true by done. destruct (cs k) as [n|n u|n u]; cbn in Ha, Ht; [done|..].
    - destruct (t <? u); simplify_eq. cbn. tauto.
    - simplify_eq. }
  destruct IH as [_ IH]. rewrite IH by done. split; [lia|tauto].
Qed.

(** C20: the breaker is a circuit breaker.  For every sequence of calls, from any
    number of workers and about any number of analyzers, it answers as the
    three-phase machine does: five consecutive failures open the circuit, a
    success closes it, each reopening doubles the window from 15 seconds up to 10
    minutes ([int64] arithmetic never wraps), and one probe is let through when a
    window has passed. *)
Theorem breaker_refines (os : list op) (n : nat) :
  (run os newCircuitBreaker).1 = (spec_run os (fun _ => Closed 0)).1 /\
  backoffFor newCircuitBreaker (Z.of_nat (S n)) = window (S n) /\
  defaultBreakerBaseBackoff <= window (S n) <= defaultBreakerMaxBackoff.
Proof.
  split; [apply (breaker_run_refines os _ _ refines_new)|]. split; [|apply window_bounds; lia].
  apply backoffFor_window; [done|lia].
Qed.

(** A tripped analyzer is probed by one job at a time.  Once a circuit is
    open, whatever calls follow from whatever workers, at most one job of that
    analyzer is admitted before some job's outcome is reported. *)
Theorem breaker_single_probe (past future : list op) (k : string) (t : Time) :
  isOpen k t (run past newCircuitBreaker).2 = true ->
  Forall (fun o => reports k o = false) future ->
  (admitted k future (run future (run past newCircuitBreaker).2).1 <= 1)%nat.
Proof.
  intros Ho Hf. destruct (breaker_run_refines past _ _ refines_new) as [_ Hr].
  destruct (breaker_run_refines future _ _ Hr) as [-> _]. apply spec_admits; [done|].
  destruct (breaker_step_refines (OIsOpen k t) _ _ Hr) as [Hi _]. cbn in Hi. rewrite Ho in Hi.
  by destruct ((spec_run past (fun _ => Closed 0)).2 k).
Qed.

(** Five failed jobs, then three workers ask when the window has passed. *)
Lemma breaker_single_probe_witness :
  (admitted "ocr@1" [OAllow "ocr@1" (20 * Second); OAllow "ocr@1" (20 * Second); OAllow "ocr@1" (90 * Second)]
    (run [OAllow "ocr@1" (20 * Second); OAllow "ocr@1" (20 * Second); OAllow "ocr@1" (90 * Second)]
      (run (repeat (OFailure "ocr@1" 0) 5) newCircuitBreaker).2).1 <= 1)%nat.
Proof.
  apply (breaker_single_probe (repeat (OFailure "ocr@1" 0) 5) _ "ocr@1" Second); [vm_compute; reflexivity|].
  repeat constructor.
Defined.
