(* ===== verification/Worker.v ===== *)
(** * The analysis worker: [analysis/worker.go], [analysis/registry.go]

    One job's way through the worker, against any [ObjectStore] and any
    registered analyzers: the circuit breaker, the cache of analyses known to
    be written, the analyzer, and the one routing call the job's receipt gets. *)

From stdpp Require Import options.
From S2P Require Import Prelude Lru GoLib Contracts Manifest Meta Jobs Breaker.

Local Open Scope Z_scope.

Module Worker.

(** ** [analysis/registry.go] *)

Record Analyzer (S : Type) := MkAnalyzer { Spec : AnalyzerSpec; Analyze : AnalyzerJob -> SM S Annotation }.
Arguments MkAnalyzer {S} _ _.
Arguments Spec {S} _.
Arguments Analyze {S} _ _.

Definition Registry (S : Type) : Type := gmap string (Analyzer S).

Definition SpecKey (spec : AnalyzerSpec) : string := TrimSpace (spName spec) +:+ nul +:+ TrimSpace (spVersion spec).

Definition ValidateSpec (spec : AnalyzerSpec) : option GoError :=
  if blank (spName spec) then Some (ErrMsg "analyzer name is required")
  else if blank (spVersion spec) then Some (ErrMsg "analyzer version is required")
  else None.

(** A nil analyzer is [None]. *)
Fixpoint register {S} (analyzers : list (option (Analyzer S))) (registry : Registry S) : GoError + Registry S :=
  match analyzers with
  | [] => inr registry
  | None :: _ => inl (ErrMsg "analysis analyzer is required")
  | Some analyzer :: r =>
      match ValidateSpec (Spec analyzer) with
      | Some e => inl e
      | None =>
          let key := SpecKey (Spec analyzer) in
          match registry !! key with
          | Some _ => inl (ErrMsg "duplicate analyzer registration")
          | None => register r (<[key := analyzer]> registry)
          end
      end
  end.

Definition NewRegistry {S} (analyzers : list (option (Analyzer S))) : GoError + Registry S := register analyzers ∅.

(** ** State *)

(** What a receipt is asked to do with its job. *)
Inductive routing := Acked | Retried | Parked.

#[export] Instance routing_eq_dec : EqDecision routing.
Proof. solve_decision. Defined.

(** [JobReceipt]: the job, and what each routing call returns. *)
Record JobReceipt := MkReceipt { Job : AnalyzerJob; routes : routing -> option GoError }.

Record Runtime (S : Type) := MkRuntime {
  rtStore : S;
  rtBreaker : circuitBreaker;
  rtAnnotated : Lru.LRU string unit;
  rtParkBackoff : Z;
  rtClock : Time;
  rtTicks : list N;                          (* future clock advances *)
  rtRouted : list (AnalyzerJob * routing);   (* routing calls made so far *)
  rtSeen : list S }.                         (* the store after each call so far *)
Arguments MkRuntime {S} _ _ _ _ _ _ _ _.
Arguments rtStore {S} _.
Arguments rtBreaker {S} _.
Arguments rtAnnotated {S} _.
Arguments rtParkBackoff {S} _.
Arguments rtClock {S} _.
Arguments rtTicks {S} _.
Arguments rtRouted {S} _.
Arguments rtSeen {S} _.

Definition annotationCacheSize : Z := 200000.

Section worker.
Context {S : Type} `{!ObjectStore S}.

Definition set_store (x : S) (rt : Runtime S) : Runtime S :=
  MkRuntime x (rtBreaker rt) (rtAnnotated rt) (rtParkBackoff rt) (rtClock rt) (rtTicks rt) (rtRouted rt) (rtSeen rt ++ [x]).
Definition set_breaker (b : circuitBreaker) (rt : Runtime S) : Runtime S :=
  MkRuntime (rtStore rt) b (rtAnnotated rt) (rtParkBackoff rt) (rtClock rt) (rtTicks rt) (rtRouted rt) (rtSeen rt).
Definition set_annotated (c : Lru.LRU string unit) (rt : Runtime S) : Runtime S :=
  MkRuntime (rtStore rt) (rtBreaker rt) c (rtParkBackoff rt) (rtClock rt) (rtTicks rt) (rtRouted rt) (rtSeen rt).
Definition set_time (t : Time) (ts : list N) (rt : Runtime S) : Runtime S :=
  MkRuntime (rtStore rt) (rtBreaker rt) (rtAnnotated rt) (rtParkBackoff rt) t ts (rtRouted rt) (rtSeen rt).
Definition add_routed (x : AnalyzerJob * routing) (rt : Runtime S) : Runtime S :=
  MkRuntime (rtStore rt) (rtBreaker rt) (rtAnnotated rt) (rtParkBackoff rt) (rtClock rt) (rtTicks rt) (rtRouted rt ++ [x]) (rtSeen rt).

Definition NewRuntime (store : S) (parkBackoff : Z) (t : Time) (ts : list N) : Runtime S :=
  MkRuntime store newCircuitBreaker (Lru.NewLRU annotationCacheSize) parkBackoff t ts [] [].

Definition W (A : Type) : Type := SM (Runtime S) A.

(** [runtime.now()]. *)
Definition now : W Time := fun rt =>
  match rtTicks rt with
  | [] => (Ok (rtClock rt), rt)
  | d :: r => let t := rtClock rt + Z.of_N d in (Ok t, set_time t r rt)
  end.

Definition onStore {A} (m : SM S A) : W A := fun rt =>
  let '(r, x) := m (rtStore rt) in (r, set_store x rt).

(** ** The operations *)

Definition allowed (key : string) : W bool :=
  t ← now; b ← sget rtBreaker;
  let '(r, b') := allow key t b in
  _ ← smodify (set_breaker b'); mret r.

Definition noteSuccess (key : string) : W unit :=
  b ← sget rtBreaker; smodify (set_breaker (recordSuccess key b)).

Definition noteFailure (key : string) : W unit :=
  t ← now; b ← sget rtBreaker; smodify (set_breaker (recordFailure key t b)).

Definition circuitOpen (key : string) : W bool :=
  t ← now; b ← sget rtBreaker; mret (isOpen key t b).

Definition cached (key : string) : W bool :=
  c ← sget rtAnnotated; r ← spanic (Lru.Get key c);
  _ ← smodify (set_annotated r.2); mret (bool_decide (is_Some r.1)).

Definition remember (key : string) : W unit :=
  c ← sget rtAnnotated; c' ← spanic (Lru.Put key tt c); smodify (set_annotated c').

Definition route (receipt : JobReceipt) (r : routing) : W unit :=
  _ ← smodify (add_routed (Job receipt, r)); scheck (routes receipt r).

Definition analyzerKey (spec : AnalyzerSpec) : string := spName spec +:+ "@" +:+ spVersion spec.

Definition analyzerAnnotationKey (job : AnalyzerJob) : string :=
  jObjectDigest job +:+ nul +:+ spName (jAnalyzer job) +:+ nul +:+ spVersion (jAnalyzer job).

Definition validateJob (job : AnalyzerJob) : option GoError :=
  if negb (jSchemaVersion job =? 0) && negb (jSchemaVersion job =? SchemaVersionPhase00)
  then Some (ErrMsg "unsupported analysis job schema_version")
  else if blank (jObjectDigest job) then Some (ErrMsg "analysis job object_digest is required")
  else ValidateSpec (jAnalyzer job).

Definition normalizeAnnotation (a : Annotation) (job : AnalyzerJob) (t : Time) : Annotation :=
  let data := match aData a !! "status" with
    | Some _ => aData a
    | None => <["status" := AStr "complete"]> (aData a)
    end in
  MkAnnotation (if isZero (aGeneratedAt a) then t else aGeneratedAt a)
    (<["idempotency_key" := AStr (jIdempotencyKey job)]> data) (jObjectDigest job)
    (spName (jAnalyzer job)) (spVersion (jAnalyzer job)) "analysis" SchemaVersionPhase00.

(** Analyze, normalise, write, remember. *)
Definition analyzeAndWrite (analyzer : Analyzer S) (job : AnalyzerJob) : W unit :=
  annotation ← onStore (Analyze analyzer job);
  t ← now;
  _ ← swrap "write analysis annotation" (onStore (osWriteAnnotation (normalizeAnnotation annotation job t)));
  remember (analyzerAnnotationKey job).

(** Forced jobs bypass the cache. *)
Definition knownAnnotated (job : AnalyzerJob) : W bool :=
  if jForced job then mret false else cached (analyzerAnnotationKey job).

Definition Process (registry : Registry S) (job : AnalyzerJob) : W unit :=
  _ ← scheck (validateJob job);
  match registry !! SpecKey (jAnalyzer job) with
  | None => sfail (ErrMsg "analyzer is not registered; refusing lower-quality fallback")
  | Some analyzer =>
      hit ← knownAnnotated job;
      if hit : bool then mret tt else
      complete ← swrap "check existing analysis annotation" (onStore
        (osHasAnalysisAnnotation (jObjectDigest job) (spName (jAnalyzer job)) (spVersion (jAnalyzer job))));
      _ ← (if complete : bool then remember (analyzerAnnotationKey job) else mret tt);
      if complete && negb (jForced job) then mret tt
      else analyzeAndWrite analyzer job
  end.

(** [cancelled]: the context ends during the wait. *)
Definition sleepBeforePark (cancelled : bool) : W unit :=
  b ← sget rtParkBackoff;
  if b <=? 0 then mret tt else if cancelled then sfail ErrCtx else mret tt.

Definition park (receipt : JobReceipt) : W unit := swrap "park analysis job" (route receipt Parked).

(** The object is gone, not only something the analyzer looked for. *)
Definition bogus (job : AnalyzerJob) (err : GoError) : W bool :=
  if isNotExist err
  then r ← stry (onStore (osReadManifest (jObjectDigest job)));
       mret (match r with inl e => isNotExist e | inr _ => false end)
  else mret false.

Definition routeFailure (receipt : JobReceipt) (err : GoError) : W unit :=
  let key := analyzerKey (jAnalyzer (Job receipt)) in
  drop ← bogus (Job receipt) err;
  if drop : bool then swrap "ack bogus analysis job" (route receipt Acked) else
  _ ← noteFailure key;
  unavailable ← (if isVar "ErrAnalyzerUnavailable" err then mret true else circuitOpen key);
  if unavailable : bool then park receipt
  else swrap "route failed analysis job" (route receipt Retried).

Definition Handle (registry : Registry S) (cancelled : bool) (receipt : option JobReceipt) : W unit :=
  match receipt with
  | None => sfail (ErrMsg "analysis job receipt is required")
  | Some receipt =>
      let key := analyzerKey (jAnalyzer (Job receipt)) in
      ok ← allowed key;
      if negb ok then _ ← sleepBeforePark cancelled; park receipt else
      r ← stry (Process registry (Job receipt));
      match r with
      | inl err => routeFailure receipt err
      | inr _ => _ ← noteSuccess key; swrap "ack analysis job" (route receipt Acked)
      end
  end.

(** A worker's loop over the receipts its source delivers; it ends at an error. *)
Fixpoint runLoop (registry : Registry S) (receipts : list (bool * JobReceipt)) : W unit :=
  match receipts with
  | [] => mret tt
  | (cancelled, receipt) :: r => _ ← Handle registry cancelled (Some receipt); runLoop registry r
  end.

End worker.

(** ** What a worker maintains *)

(** No NUL in the digest and the analyzer's name, so that cache keys are
    unambiguous, and no blanks around its name and version. *)
Definition plain (s : string) : Prop := Ascii.ascii_of_N 0 ∉ str_bytes s.
Definition plain_job (job : AnalyzerJob) : Prop := plain (jObjectDigest job) /\ plain (spName (jAnalyzer job)).
Definition trimmed_spec (spec : AnalyzerSpec) : Prop := TrimSpace (spName spec) = spName spec /\ TrimSpace (spVersion spec) = spVersion spec.

Lemma split_nul a b x y : plain a -> plain b -> a +:+ nul +:+ x = b +:+ nul +:+ y -> a = b /\ x = y.
Proof.
  revert b. induction a as [|c a IH]; intros [|d b] Ha Hb H; cbn in H.
  - split; [done|]. injection H as H. exact H.
  - injection H as <- _. destruct Hb. by left.
  - injection H as -> _. destruct Ha. by left.
  - injection H as <- H. destruct (IH b) as [-> ->]; [|..|done|done]; intros Hin; [apply Ha|apply Hb]; by right.
Qed.

Lemma annotationKey_inj j j' : plain_job j -> plain_job j' -> analyzerAnnotationKey j = analyzerAnnotationKey j' ->
  jObjectDigest j = jObjectDigest j' /\ spName (jAnalyzer j) = spName (jAnalyzer j') /\
  spVersion (jAnalyzer j) = spVersion (jAnalyzer j').
Proof.
  intros [H1 H2] [H3 H4] H. apply split_nul in H as [-> H]; [|done..]. by apply split_nul in H as [-> ->].
Qed.

Section laws.
Context {S : Type} `{!ObjectStore S, !ObjectStoreLaws S}.

(** Registered analyzers only read the store, and what they return can be sent. *)
Definition analyzers_ok (registry : Registry S) : Prop :=
  forall k a job, registry !! k = Some a ->
    keeps os_inv recorded (Analyze a job) (fun x _ => sent S (aData (normalizeAnnotation x job zeroTime))).

(** The store holds an annotation of the job's object, analyzer and version: a
    complete one, or one a worker wrote (with the key the worker stamps). *)
Definition analysed_in (s : S) (job : AnalyzerJob) : Prop :=
  exists x, annotation s (jObjectDigest job) (spName (jAnalyzer job)) x /\ aKind x = "analysis" /\
    aAnalyzerName x = spName (jAnalyzer job) /\ aAnalyzerVer x = spVersion (jAnalyzer job) /\
    (complete (spName (jAnalyzer job)) (spVersion (jAnalyzer job)) x \/ exists t, aData x !! "idempotency_key" = Some (AStr t)).

(** ... at some moment of the worker's life; an analysis is still recorded. *)
Definition seen (rt : Runtime S) (job : AnalyzerJob) : Prop :=
  recorded (rtStore rt) (jObjectDigest job) (spName (jAnalyzer job)) /\ exists s, s ∈ rtSeen rt /\ analysed_in s job.

(** The store's invariant holds, and what the cache remembers was seen. *)
Definition rt_ok (rt : Runtime S) : Prop :=
  os_inv (rtStore rt) /\ 1 <= Lru.capacity (rtAnnotated rt) /\ exists l, Lru.repr (rtAnnotated rt) l /\
    forall job, plain_job job -> analyzerAnnotationKey job ∈ l.*1 -> seen rt job.

(** Recorded analyses stay, what was seen is not forgotten, and no routing call
    was made. *)
Definition rt_le (rt rt' : Runtime S) : Prop :=
  rt_ok rt' /\ (forall d n, recorded (rtStore rt) d n -> recorded (rtStore rt') d n) /\
  rtSeen rt ⊆ rtSeen rt' /\ rtRouted rt' = rtRouted rt.

Lemma seen_le rt rt' job : rt_le rt rt' -> seen rt job -> seen rt' job.
Proof. intros (_ & H1 & H2 & _) (H3 & s & Hs & Ha). split; [auto|]. exists s. auto. Qed.

(** What was seen of a job holds for every job with its cache key. *)
Lemma seen_key rt job job' : seen rt job -> jObjectDigest job' = jObjectDigest job /\
  spName (jAnalyzer job') = spName (jAnalyzer job) /\ spVersion (jAnalyzer job') = spVersion (jAnalyzer job) -> seen rt job'.
Proof. unfold seen, analysed_in. by intros H (-> & -> & ->). Qed.

Lemma rt_le_refl rt : rt_ok rt -> rt_le rt rt.
Proof. by intros H. Qed.

Lemma rt_le_trans a b c : rt_le a b -> rt_le b c -> rt_le a c.
Proof. intros (_ & H1 & H2 & H3) (H4 & H5 & H6 & H7). split; [done|]. split; [auto|]. split; [by etrans|congruence]. Qed.

Lemma rt_le_ok a b : rt_le a b -> rt_ok b.
Proof. by intros [? _]. Qed.

Lemma now_post rt Q : rt_ok rt -> (forall t rt', rt_le rt rt' -> rtBreaker rt' = rtBreaker rt -> Q (inr t) rt') -> post now rt Q.
Proof. intros H HQ. unfold post, now. destruct (rtTicks rt); apply HQ; done. Qed.

Lemma onStore_post {A} (m : SM S A) rt P Q :
  keeps os_inv recorded m P -> rt_ok rt ->
  (forall rt' e, rt_le rt rt' -> Q (inl e) rt') ->
  (forall rt' a, rt_le rt rt' -> rtStore rt' ∈ rtSeen rt' -> P a (rtStore rt') -> Q (inr a) rt') -> post (onStore m) rt Q.
Proof.
  intros Hm (Hi & Hcap & l & Hl & Hc) He Ha. unfold post, onStore. specialize (Hm _ Hi). destruct (m (rtStore rt)) as [r x]. cbn in Hm.
  destruct Hm as (Hi' & Hmono & Hr).
  assert (rtSeen rt ⊆ rtSeen (set_store x rt)) as Hsub by (cbn; set_solver).
  assert (rt_le rt (set_store x rt)) as Hle.
  { split; [|split; [done|done]]. split; [done|]. split; [done|]. exists l. split; [done|]. intros job Hp Hin.
    destruct (Hc job Hp Hin) as (H1 & s & H2 & H3). split; [cbn; auto|]. exists s. auto. }
  destruct r; [apply Ha; [done|cbn; set_solver|done]|by apply He|done].
Qed.

Lemma cached_post job rt Q :
  rt_ok rt -> plain_job job ->
  (forall rt' b, rt_le rt rt' -> (b = true -> seen rt' job) ->
    Q (inr b) rt') -> post (cached (analyzerAnnotationKey job)) rt Q.
Proof.
  intros (Hi & Hcap & l & Hl & Hc) Hp HQ. unfold cached.
  destruct (Lru.step_refines _ _ _ (Lru.OGet (analyzerAnnotationKey job)) Hl eq_refl) as (c' & Hst & Hr & Hk). cbn in Hst.
  destruct (Lru.Get _ (rtAnnotated rt)) as [[r c1]|] eqn:Hg; cbn in Hst; [|done]. injection Hst as Hrr <-.
  apply post_bind. unfold post at 1, sget. cbn -[post]. apply post_bind. unfold post at 1, spanic. rewrite Hg. cbn. apply HQ.
  - split; [|done]. split; [done|]. split; [cbn; lia|]. eexists. split; [exact Hr|]. intros job' Hp' Hin. cbn.
    apply Hc; [done|]. cbn in Hin. unfold Lru.spec_get in Hin. destruct (Recency.alookup _ l) as [u|] eqn:Ha; cbn in Hin; [|done].
    apply elem_of_cons in Hin as [->|[? _]%Lru.aremove_elem]; [|done]. apply Recency.alookup_Some_elem in Ha.
    apply list_elem_of_fmap. by exists (analyzerAnnotationKey job, u).
  - cbn in Hrr. unfold Lru.spec_get in Hrr. destruct (Recency.alookup _ l) as [u|] eqn:Ha; cbn in Hrr; injection Hrr as ->; [|done].
    intros _. cbn. apply Hc; [done|]. apply Recency.alookup_Some_elem in Ha. apply list_elem_of_fmap. by exists (analyzerAnnotationKey job, u).
Qed.

Lemma remember_post job rt Q :
  rt_ok rt -> plain_job job -> seen rt job ->
  (forall rt', rt_le rt rt' -> seen rt' job -> Q (inr tt) rt') -> post (remember (analyzerAnnotationKey job)) rt Q.
Proof.
  intros (Hi & Hcap & l & Hl & Hc) Hp Hrec HQ. unfold remember.
  destruct (Lru.step_refines _ _ _ (Lru.OPut (analyzerAnnotationKey job) tt) Hl eq_refl) as (c' & Hst & Hr & Hk). cbn in Hst.
  destruct (Lru.Put _ _ (rtAnnotated rt)) as [c1|] eqn:Hg; cbn in Hst; [|done]. injection Hst as <-.
  apply post_bind. unfold post at 1, sget. cbn -[post]. apply post_bind. unfold post at 1, spanic. rewrite Hg. cbn. apply HQ; [|done].
  split; [|done]. split; [done|]. split; [cbn; lia|]. eexists. split; [exact Hr|]. intros job' Hp' Hin. cbn in *.
  unfold Lru.spec_put in Hin. rewrite fmap_take in Hin. apply elem_of_take_sub in Hin. cbn in Hin.
  apply elem_of_cons in Hin as [Heq|[? _]%Lru.aremove_elem]; [|by apply Hc].
  by apply (seen_key rt job); [|apply annotationKey_inj].
Qed.

(** A processed job's analysis is recorded. *)
Definition processed (rt : Runtime S) (job : AnalyzerJob) (r : GoError + unit) (rt' : Runtime S) : Prop :=
  rt_le rt rt' /\ (r = inr tt -> seen rt' job).

Lemma processed_trans a b job r c : rt_le a b -> processed b job r c -> processed a job r c.
Proof. intros H [H1 H2]. split; [by eapply rt_le_trans|done]. Qed.

Lemma processed_err a job e b : rt_le a b -> processed a job (inl e) b.
Proof. intros H. by split. Qed.

(** A positive answer and a successful write show the job's analysis. *)
Lemma complete_seen rt job x : rtStore rt ∈ rtSeen rt -> annotation (rtStore rt) (jObjectDigest job) (spName (jAnalyzer job)) x ->
  complete (spName (jAnalyzer job)) (spVersion (jAnalyzer job)) x -> seen rt job.
Proof.
  intros Hs Hx Hc. split; [by eapply os_recorded|]. exists (rtStore rt). split; [done|]. exists x. split; [done|].
  pose proof Hc as (-> & -> & -> & _). auto.
Qed.

Lemma written_seen rt job ann t x : rtStore rt ∈ rtSeen rt -> annotation (rtStore rt) (jObjectDigest job) (spName (jAnalyzer job)) x ->
  sent S (aData (normalizeAnnotation ann job zeroTime)) -> stored_as (sent S) (value S) (normalizeAnnotation ann job t) x -> seen rt job.
Proof.
  intros Hs Hx Hd [_ Hk Hn Hv Hdata]. split; [by eapply os_recorded|]. exists (rtStore rt). split; [done|]. exists x.
  rewrite Hk, Hn, Hv. repeat (split; [done|]). right. exists (jIdempotencyKey job). eapply lookup_weaken; [|by apply Hdata].
  rewrite lookup_fmap. cbn [aData normalizeAnnotation]. rewrite lookup_insert_eq. cbn. by rewrite os_text.
Qed.

Lemma analyzeAndWrite_post registry k a job rt :
  analyzers_ok registry -> registry !! k = Some a -> rt_ok rt -> plain_job job ->
  trimmed (spName (jAnalyzer job)) -> trimmed (spVersion (jAnalyzer job)) ->
  post (analyzeAndWrite a job) rt (processed rt job).
Proof.
  intros Ha Hk Hrt Hp Hn Hv. unfold analyzeAndWrite. apply post_bind.
  eapply onStore_post; [by eapply Ha|done| |]; [intros rt1 e H1; by apply processed_err|]. intros rt1 ann H1 _ Hsent.
  apply post_bind, now_post; [by eapply rt_le_ok|]. intros t rt2 H2 _. cbn beta iota.
  assert (rt_le rt rt2) as H02 by by eapply rt_le_trans.
  apply post_bind, post_wrap. eapply onStore_post; [by apply os_write|by eapply rt_le_ok| |].
  { intros rt3 e H3. apply processed_err. by eapply rt_le_trans. }
  intros rt3 [] H3 Hin (x & Hx & Hst). apply remember_post; [by eapply rt_le_ok|done|by apply (written_seen rt3 job ann t x)|].
  intros rt4 H4 Hseen. split; [eapply rt_le_trans; [exact H02|by eapply rt_le_trans]|done].
Qed.

Lemma valid_trimmed job : validateJob job = None -> trimmed_spec (jAnalyzer job) ->
  trimmed (spName (jAnalyzer job)) /\ trimmed (spVersion (jAnalyzer job)).
Proof.
  unfold validateJob, ValidateSpec, trimmed. destruct (_ && _); [done|]. destruct (blank (jObjectDigest job)); [done|].
  destruct (blank (spName _)) eqn:Hn; [done|]. destruct (blank (spVersion _)) eqn:Hv; [done|]. intros _ [-> ->].
  split; (split; [done|]); [intros He; by rewrite He in Hn|intros He; by rewrite He in Hv].
Qed.

Lemma Process_post registry job rt :
  analyzers_ok registry -> rt_ok rt -> plain_job job -> trimmed_spec (jAnalyzer job) ->
  post (Process registry job) rt (processed rt job).
Proof.
  intros Ha Hrt Hp Ht. pose proof (rt_le_refl rt Hrt) as H0. unfold Process. apply post_bind.
  apply post_check; [intros e _; by apply processed_err|]. intros Hvalid. destruct (valid_trimmed job Hvalid Ht) as [Hn Hv].
  destruct (registry !! _) as [a|] eqn:Hk; [|by apply processed_err].
  apply post_bind. eapply (post_mono _ _ (fun r rt1 => exists b, r = inr b /\ rt_le rt rt1 /\ (b = true -> seen rt1 job))).
  { unfold knownAnnotated. destruct (jForced job); [by exists false|]. apply cached_post; [done|done|]. eauto. }
  intros r rt1 (hit & -> & H1 & Hhit). cbn beta iota. destruct hit; [split; [done|intros _; auto]|].
  apply post_bind, post_wrap. eapply onStore_post; [apply os_has|by eapply rt_le_ok| |].
  { intros rt2 e H2. apply processed_err. by eapply rt_le_trans. }
  intros rt2 found H2 Hin Hc. assert (rt_le rt rt2) as H02 by by eapply rt_le_trans.
  apply post_bind. eapply (post_mono _ _ (fun r rt3 => r = inr tt /\ rt_le rt rt3 /\ (found = true -> seen rt3 job))).
  { destruct found; [|done]. destruct (Hc eq_refl) as (x & Hx & Hcx).
    apply remember_post; [by eapply rt_le_ok|done|by eapply complete_seen|].
    intros rt3 H3 Hs. split; [done|]. split; [by eapply rt_le_trans|done]. }
  intros r rt3 (-> & H3 & Hrec). cbn beta iota. destruct (found && negb (jForced job)) eqn:Hcf.
  - apply andb_true_iff in Hcf as [-> _]. split; [done|auto].
  - eapply post_mono; [by eapply analyzeAndWrite_post; [..|by eapply rt_le_ok|done|done|done]|]. intros r rt4 H4. by eapply processed_trans.
Qed.

(** What a routing call may mean. *)
Definition routed_well (rt : Runtime S) (job : AnalyzerJob) (r : GoError + unit) (rt' : Runtime S) : Prop :=
  rt_ok rt' /\ (forall d n, recorded (rtStore rt) d n -> recorded (rtStore rt') d n) /\
  exists calls, rtRouted rt' = rtRouted rt ++ map (pair job) calls /\ (length calls <= 1)%nat /\
    (r = inr tt -> length calls = 1%nat) /\
    (Acked ∈ calls -> seen rt' job \/ gone (rtStore rt') (jObjectDigest job)).

Lemma routed_none rt job e rt' : rt_le rt rt' -> routed_well rt job (inl e) rt'.
Proof. intros (H1 & H2 & _ & H3). split; [done|]. split; [done|]. exists []. rewrite app_nil_r. set_solver by lia. Qed.

Lemma route_post rt0 rt receipt x msg :
  rt_le rt0 rt -> (x = Acked -> seen rt (Job receipt) \/
    gone (rtStore rt) (jObjectDigest (Job receipt))) ->
  post (swrap msg (route receipt x)) rt (routed_well rt0 (Job receipt)).
Proof.
  intros (Hok & Hmono & _ & Hr) Hx. assert (forall r, routed_well rt0 (Job receipt) r (add_routed (Job receipt, x) rt)) as H.
  { intros r. split; [done|]. split; [done|]. exists [x]. cbn. rewrite Hr. split; [done|]. split; [lia|]. split; [done|].
    intros <-%list_elem_of_singleton. auto. }
  apply post_wrap. unfold route. apply post_bind. cbn. destruct (routes receipt x); apply H.
Qed.

Lemma gone_post job err rt Q :
  rt_ok rt -> (forall rt' b, rt_le rt rt' -> (b = true -> gone (rtStore rt') (jObjectDigest job)) -> Q (inr b) rt') ->
  post (bogus job err) rt Q.
Proof.
  intros Hrt HQ. unfold bogus. destruct (isNotExist err); [|apply HQ; [by apply rt_le_refl|done]].
  apply post_bind, post_try. pose proof (fun e => os_read_gone (jObjectDigest job) (rtStore rt) e (proj1 Hrt)) as Hg.
  assert (post (onStore (osReadManifest (jObjectDigest job))) rt (fun r rt1 => rt_le rt rt1)) as Hle
    by by eapply onStore_post; [apply os_read| | |].
  unfold post, onStore in Hle |- *. destruct (osReadManifest _ (rtStore rt)) as [r x]. cbn in Hg.
  destruct r as [m|e|]; [| |done]; cbn; apply HQ; try done. intros He. by eapply Hg.
Qed.

Lemma breaker_le b rt0 rt : rt_le rt0 rt -> rt_le rt0 (set_breaker b rt).
Proof. done. Qed.

Lemma clocked_post {A} (f : Time -> circuitBreaker -> A * circuitBreaker) rt0 rt (Q : GoError + A -> Runtime S -> Prop) :
  rt_le rt0 rt -> (forall a rt', rt_le rt0 rt' -> Q (inr a) rt') ->
  post (t ← now; b ← sget rtBreaker; let '(r, b') := f t b in _ ← smodify (set_breaker b'); mret r) rt Q.
Proof.
  intros H0 HQ. apply post_bind, now_post; [by eapply rt_le_ok|]. intros t rt1 H1 _. cbn beta iota.
  apply post_bind. unfold post at 1, sget. cbn -[post]. destruct (f t (rtBreaker rt1)) as [r b]. apply HQ, breaker_le.
  by eapply rt_le_trans.
Qed.

Lemma allowed_post key rt0 rt Q :
  rt_le rt0 rt -> (forall a rt', rt_le rt0 rt' -> Q (inr a) rt') -> post (allowed key) rt Q.
Proof. apply (clocked_post (allow key)). Qed.

Lemma noteFailure_post key rt0 rt Q :
  rt_le rt0 rt -> (forall rt', rt_le rt0 rt' -> Q (inr tt) rt') -> post (noteFailure key) rt Q.
Proof. intros H HQ. apply (clocked_post (fun t b => (tt, recordFailure key t b)) rt0 rt Q H). by intros []. Qed.

Lemma circuitOpen_post key rt0 rt Q :
  rt_le rt0 rt -> (forall a rt', rt_le rt0 rt' -> Q (inr a) rt') -> post (circuitOpen key) rt Q.
Proof.
  intros H HQ. unfold circuitOpen. apply post_bind, now_post; [by eapply rt_le_ok|]. intros t rt1 H1 _. cbn beta iota.
  apply HQ. by eapply rt_le_trans.
Qed.

Lemma noteSuccess_post key rt0 rt Q :
  rt_le rt0 rt -> (forall rt', rt_le rt0 rt' -> (forall job, seen rt job -> seen rt' job) -> Q (inr tt) rt') -> post (noteSuccess key) rt Q.
Proof. intros H HQ. by apply HQ. Qed.

Lemma routeFailure_post receipt err rt0 rt :
  rt_le rt0 rt -> post (routeFailure receipt err) rt (routed_well rt0 (Job receipt)).
Proof.
  intros H0. unfold routeFailure. apply post_bind, gone_post; [by eapply rt_le_ok|]. intros rt1 drop H1 Hg. cbn beta iota.
  assert (rt_le rt0 rt1) as H01 by by eapply rt_le_trans.
  destruct drop; [apply route_post; [done|intros _; right; auto]|].
  apply post_bind, (noteFailure_post _ rt0); [done|]. intros rt2 H2. cbn beta iota. apply post_bind.
  assert (forall u rt3, rt_le rt0 rt3 -> post (if u : bool then park receipt else
    swrap "route failed analysis job" (route receipt Retried)) rt3 (routed_well rt0 (Job receipt))) as Hroute
    by (intros [] rt3 H3; by apply route_post).
  destruct (isVar _ err); [by apply (Hroute true)|]. apply (circuitOpen_post _ rt0); auto.
Qed.

Lemma Handle_post registry cancelled receipt rt :
  analyzers_ok registry -> rt_ok rt -> plain_job (Job receipt) -> trimmed_spec (jAnalyzer (Job receipt)) ->
  post (Handle registry cancelled (Some receipt)) rt (routed_well rt (Job receipt)).
Proof.
  intros Ha Hrt Hp Ht. unfold Handle. apply post_bind, (allowed_post _ rt); [by apply rt_le_refl|]. intros ok rt1 H1.
  cbn beta iota. destruct ok; cbn [negb].
  - apply post_bind, post_try. eapply post_mono; [by apply Process_post; [|eapply rt_le_ok|..]|].
    intros [err|[]] rt2 Hpr; apply (processed_trans rt) in Hpr as [H2 Hrec]; [|done|..|done].
    + by apply routeFailure_post.
    + apply post_bind, (noteSuccess_post _ rt); [done|]. intros rt3 H3 Hst. apply route_post; [done|].
      left. by apply Hst, Hrec.
  - apply post_bind. unfold sleepBeforePark. apply post_bind. unfold post at 1, sget. cbn -[post Z.leb].
    destruct (rtParkBackoff rt1 <=? 0); [by apply route_post|].
    destruct cancelled; [by apply routed_none|by apply route_post].
Qed.

Lemma rt_ok_new store parkBackoff t ts : os_inv store -> rt_ok (NewRuntime store parkBackoff t ts).
Proof.
  intros H. split; [done|]. split; [done|]. exists []. split; [apply Lru.repr_NewLRU|]. by intros job _ ?%elem_of_nil.
Qed.

End laws.

(** ** Redelivered jobs *)

Section redelivery.
Context {S : Type} `{!ObjectStore S}.

(** The cache is intact. *)
Definition cache_ok (rt : Runtime S) : Prop :=
  1 <= Lru.capacity (rtAnnotated rt) /\ exists l, Lru.repr (rtAnnotated rt) l.

(** ... and remembers [key]. *)
Definition remembers (key : string) (rt : Runtime S) : Prop :=
  1 <= Lru.capacity (rtAnnotated rt) /\ exists l, Lru.repr (rtAnnotated rt) l /\ is_Some (Recency.alookup key l).

Lemma alookup_head (key : string) (v : unit) l : is_Some (Recency.alookup key ((key, v) :: l)).
Proof. eexists. apply (Recency.alookup_app_middle [] key v l). apply not_elem_of_nil. Qed.

Lemma cached_run key rt : cache_ok rt -> exists b rt', cached key rt = (Ok b, rt') /\ rtStore rt' = rtStore rt /\
  cache_ok rt' /\ (b = true -> remembers key rt') /\ (remembers key rt -> b = true).
Proof.
  intros (Hcap & l & Hl). unfold cached.
  destruct (Lru.step_refines _ _ _ (Lru.OGet key) Hl eq_refl) as (c' & Hst & Hr & Hk). cbn in Hst.
  unfold mbind, SM_bind, sget, spanic, smodify.
  destruct (Lru.Get _ (rtAnnotated rt)) as [[r c1]|] eqn:Hg; cbn in Hst; [|done]. injection Hst as Hrr <-.
  cbn. do 2 eexists. split; [done|]. split; [done|]. split; [split; [cbn; lia|eauto]|].
  unfold Lru.spec_get in *. split.
  - destruct (Recency.alookup key l) as [u|] eqn:Ha; cbn in *; injection Hrr as ->; [|done]. intros _.
    split; [cbn; lia|]. eexists. split; [exact Hr|]. unfold Lru.spec_get. rewrite Ha. apply alookup_head.
  - intros (_ & l' & Hl' & Hs). destruct (Lru.step_refines _ _ _ (Lru.OGet key) Hl' eq_refl) as (c2 & Hst2 & _).
    cbn in Hst2. rewrite Hg in Hst2. cbn in Hst2. injection Hst2 as Hr2 _. unfold Lru.spec_get in Hr2.
    destruct (Recency.alookup key l'); [|by destruct Hs]. cbn in Hr2. by injection Hr2 as ->.
Qed.

Lemma remember_run key rt : cache_ok rt -> exists rt', remember key rt = (Ok tt, rt') /\ remembers key rt'.
Proof.
  intros (Hcap & l & Hl). unfold remember.
  destruct (Lru.step_refines _ _ _ (Lru.OPut key tt) Hl eq_refl) as (c' & Hst & Hr & Hk). cbn in Hst.
  unfold mbind, SM_bind, sget, spanic, smodify.
  destruct (Lru.Put _ _ (rtAnnotated rt)) as [c1|] eqn:Hg; cbn in Hst; [|done]. injection Hst as <-.
  eexists. split; [done|]. split; [cbn; lia|]. eexists. split; [exact Hr|]. cbn [Lru.spec_step snd]. unfold Lru.spec_put.
  destruct (Z.to_nat (Lru.capacity (rtAnnotated rt))) as [|n] eqn:Hn; [lia|]. apply alookup_head.
Qed.

Lemma remembers_ok key rt : remembers key rt -> cache_ok rt.
Proof. intros (H & l & Hl & _). split; eauto. Qed.

(** The cache changes only through [cached] and [remember]. *)
Lemma onStore_cache {A} (m : SM S A) rt : rtAnnotated (onStore m rt).2 = rtAnnotated rt.
Proof. unfold onStore. by destruct (m (rtStore rt)). Qed.

Lemma now_cache (rt : Runtime S) : rtAnnotated (now rt).2 = rtAnnotated rt.
Proof. unfold now. by destruct (rtTicks rt). Qed.

Lemma cache_ok_eq (rt rt' : Runtime S) : rtAnnotated rt' = rtAnnotated rt -> cache_ok rt -> cache_ok rt'.
Proof. unfold cache_ok. by intros ->. Qed.

Lemma analyzeAndWrite_remembers a job rt rt' :
  cache_ok rt -> analyzeAndWrite a job rt = (Ok tt, rt') -> remembers (analyzerAnnotationKey job) rt'.
Proof.
  intros Hc (ann & rt1 & H1 & (t & rt2 & H2 & ([] & rt3 & H3%wrap_ok & H4)%sm_bind_ok)%sm_bind_ok)%sm_bind_ok.
  pose proof (onStore_cache (Analyze a job) rt) as K1. rewrite H1 in K1.
  pose proof (now_cache rt1) as K2. rewrite H2 in K2.
  pose proof (onStore_cache (osWriteAnnotation (normalizeAnnotation ann job t)) rt2) as K3. rewrite H3 in K3. cbn in *.
  destruct (remember_run (analyzerAnnotationKey job) rt3) as (rt4 & Hrun & Hr); [eapply (cache_ok_eq rt); [congruence|done]|].
  rewrite Hrun in H4. by injection H4 as <-.
Qed.

Lemma knownAnnotated_run job rt : cache_ok rt -> exists b rt1, knownAnnotated job rt = (Ok b, rt1) /\
  cache_ok rt1 /\ (b = true -> remembers (analyzerAnnotationKey job) rt1).
Proof.
  intros Hc. unfold knownAnnotated. destruct (jForced job); [by exists false, rt|].
  destruct (cached_run (analyzerAnnotationKey job) rt Hc) as (b & rt1 & ? & _ & ? & ? & _). eauto.
Qed.

Lemma Process_remembers registry job rt rt' :
  cache_ok rt -> Process registry job rt = (Ok tt, rt') ->
  remembers (analyzerAnnotationKey job) rt' /\ is_Some (registry !! SpecKey (jAnalyzer job)).
Proof.
  intros Hc (_ & rt0 & [_ <-]%check_ok & H)%sm_bind_ok. destruct (registry !! _) as [a|]; [|done]. split; [|eauto].
  apply sm_bind_ok in H as (b & rt1 & H1 & H). destruct (knownAnnotated_run job rt Hc) as (b' & rt1' & Hk & Hc1 & Hb).
  rewrite Hk in H1. injection H1 as <- <-. destruct b'; [apply ret_ok in H as [_ <-]; auto|].
  apply sm_bind_ok in H as (complete & rt2 & H2%wrap_ok & H).
  pose proof (onStore_cache (osHasAnalysisAnnotation (jObjectDigest job) (spName (jAnalyzer job)) (spVersion (jAnalyzer job))) rt1') as K2.
  rewrite H2 in K2. assert (cache_ok rt2) as Hc2 by by eapply cache_ok_eq.
  apply sm_bind_ok in H as ([] & rt3 & H3 & H). destruct complete; cbn [andb] in H.
  - destruct (remember_run (analyzerAnnotationKey job) rt2 Hc2) as (rt3' & Hrun & Hr). rewrite Hrun in H3. injection H3 as <-.
    destruct (negb (jForced job)); [by apply ret_ok in H as [_ <-]|].
    eapply analyzeAndWrite_remembers; [by eapply remembers_ok|exact H].
  - apply ret_ok in H3 as [_ <-]. by eapply analyzeAndWrite_remembers.
Qed.

End redelivery.

(** C11: no job is lost and none is acknowledged early.  Handling a job makes at
    most one routing call, exactly one when it returns without an error, and
    acknowledges it only if its object is gone, or if at some moment of the
    worker's life the store held an annotation of that object by that analyzer in
    the version the job asks for: a complete one (complete or skipped), or one a
    worker wrote, whose status is then the analyzer's own.  What the cache
    remembers is so justified too, also afterwards.  Annotations of other versions
    do not count, but a later job of another version may have replaced the one
    seen: an analysis of the analyzer is then still recorded.  This is for any
    store that keeps the contract of [ObjectStoreLaws], any answers of breaker and
    receipt, and registered analyzers that only read and return data the store can
    take; digest and analyzer name must be free of NUL bytes, which separate the
    cache keys, and name and version must have no blanks around them, which the
    store would trim. *)
Theorem handle_routes_once {S} `{!ObjectStore S, !ObjectStoreLaws S} (registry : Registry S) (cancelled : bool)
    (receipt : JobReceipt) (rt : Runtime S) :
  analyzers_ok registry -> rt_ok rt -> plain_job (Job receipt) -> trimmed_spec (jAnalyzer (Job receipt)) ->
  exists r rt' calls, Handle registry cancelled (Some receipt) rt = (r, rt') /\ r <> Panic /\ rt_ok rt' /\
    rtRouted rt' = rtRouted rt ++ map (pair (Job receipt)) calls /\ (length calls <= 1)%nat /\
    (r = Ok tt -> length calls = 1%nat) /\
    (Acked ∈ calls -> seen rt' (Job receipt) \/ gone (rtStore rt') (jObjectDigest (Job receipt))).
Proof.
  intros Ha Hrt Hp Ht. pose proof (Handle_post registry cancelled receipt rt Ha Hrt Hp Ht) as H. unfold post in H.
  destruct (Handle registry cancelled (Some receipt) rt) as [[[]|e|] rt']; [| |done];
    destruct H as (Hok & _ & calls & Hr & Hl & H1 & Hack).
  - exists (Ok tt), rt', calls. auto 10.
  - exists (Err e), rt', calls. split_and!; done || auto.
Qed.

(** A redelivered job costs nothing.  Once a job went through, processing any
    later unforced job for the same object and analyzer succeeds at once: no
    analyzer runs and the store is not touched. *)
Theorem redelivery_is_free {S} `{!ObjectStore S} (registry : Registry S) (job job' : AnalyzerJob) (rt rt1 : Runtime S) :
  cache_ok rt -> Process registry job rt = (Ok tt, rt1) ->
  jObjectDigest job' = jObjectDigest job -> jAnalyzer job' = jAnalyzer job ->
  validateJob job' = None -> jForced job' = false ->
  exists rt2, Process registry job' rt1 = (Ok tt, rt2) /\ rtStore rt2 = rtStore rt1.
Proof.
  intros Hc Hrun Hd Ha Hv Hf. destruct (Process_remembers _ _ _ _ Hc Hrun) as [Hr [a Hreg]].
  assert (analyzerAnnotationKey job' = analyzerAnnotationKey job) as Hk by (unfold analyzerAnnotationKey; congruence).
  destruct (cached_run (analyzerAnnotationKey job) rt1 (remembers_ok _ _ Hr)) as (b & rt2 & Hcr & Hst & _ & _ & Hb).
  exists rt2. split; [|done]. unfold Process. rewrite Hv, Ha, Hreg. unfold knownAnnotated. rewrite Hf, Hk.
  unfold mbind, SM_bind, scheck, mret, SM_ret. rewrite Hcr, (Hb Hr). done.
Qed.

End Worker.
