(* ===== verification/WorkerStore.v ===== *)
(** * The worker on the object store

    [FilesystemStore] implements the worker's [ObjectStore] interface, so what is
    proved of the worker against the interface holds of the two together.  The
    runs at the end start from a store with one object. *)

From stdpp Require Import options.
From S2P Require Import Prelude Lru GoLib Contracts Manifest Meta Concrete Dictionary ChunkStore SourceIngest Annotations ObjectStore Gc Preserve Jobs Breaker Worker.

Local Open Scope Z_scope.

#[export] Instance filesystem_store {E : Ext} : Jobs.ObjectStore Store := {
  osReadManifest := ReadManifest;
  osHasAnalysisAnnotation := HasAnalysisAnnotation;
  osWriteAnnotation := WriteAnnotation }.

Section laws.
Context {E : Ext} `{!ExtLaws E}.

(** There is an analysis annotation of that analyzer. *)
Definition analysed (s : Store) (d : ObjectDigest) (n : string) : Prop :=
  is_Some (dbGet (db s) (annotationKey d "analysis" n)).

Lemma keeps_stops {A} (m : M A) (P : A -> Store -> Prop) :
  (forall s, store_ok s -> stops m s store_ok annotates P) -> keeps store_ok analysed m P.
Proof using Type.
  intros H s Hs. specialize (H s Hs). unfold stops in H. destruct (m s) as [[a|e|] s1]; [..|done]; cbn.
  - destruct H as (H1 & [_ H2] & H3). split; [done|]. split; [|done]. intros d n. apply H2. unfold annotation_key. solve_prefix.
  - destruct H as (H1 & [_ H2]). split; [done|]. split; [|done]. intros d n. apply H2. unfold annotation_key. solve_prefix.
Qed.

#[export] Instance filesystem_laws : ObjectStoreLaws Store.
Proof using Type*.
  refine {| os_inv := store_ok; recorded := analysed;
            annotation := fun s d n x => storedAnnotation s (annotationKey d "analysis" n) x;
            sent := fun _ => True; value := fun v => v;
            gone := fun (s : Store) (d : ObjectDigest) => dbGet (db s) (manifestKey d) = None |}.
  - done.
  - intros s d n x (e & He & _). by exists (VAnnotation e).
  - intros d n v. apply keeps_stops. intros s Hs. by apply HasAnalysis_stored.
  - intros a Ha [Hn1 Hn2] [Hv1 Hv2]. apply keeps_stops. intros s Hs.
    eapply stops_mono; [by apply WriteAnnotation_records|]. rewrite Ha. intros [] s' _ _ (existing & t & H).
    destruct (writtenFor_fields existing t a Hn1 Hn2 Hv1 Hv2) as (F1 & F2 & F3 & F4 & F5).
    exists (writtenFor existing t a). split; [done|]. split; [done..|]. intros _. by rewrite map_fmap_id.
  - intros d. apply keeps_stops. intros s Hs. by apply preserves_ReadManifest.
  - intros d s e _. apply ReadManifest_gone.
Defined.

End laws.

(** ** A probe that is never reported *)

Section stuck.
Context {S : Type} `{!Jobs.ObjectStore S}.
Import Worker.

(** A probe of [key] was let through and not reported. *)
Definition probing (key : string) (rt : Runtime S) : Prop :=
  exists st, states (rtBreaker rt) !! key = Some st /\ threshold (rtBreaker rt) <= failures st /\ halfOpen st = true.

Lemma probing_now key rt : probing key rt -> exists t rt', now rt = (Ok t, rt') /\ rtBreaker rt' = rtBreaker rt /\
  rtRouted rt' = rtRouted rt /\ rtStore rt' = rtStore rt.
Proof using Type. intros _. unfold now. destruct (rtTicks rt); eauto 6. Qed.

Lemma probing_denied key t b st : states b !! key = Some st -> threshold b <= failures st -> halfOpen st = true ->
  allow key t b = (false, b).
Proof using Type.
  intros Hs Hf Hh. unfold allow. rewrite Hs. destruct (Z.ltb_spec (failures st) (threshold b)); [lia|].
  destruct (Before t (openUntil st)); [done|]. by rewrite Hh.
Qed.

Lemma probing_handle registry cancelled receipt rt : probing (analyzerKey (jAnalyzer (Job receipt))) rt ->
  exists r rt', Handle registry cancelled (Some receipt) rt = (r, rt') /\ probing (analyzerKey (jAnalyzer (Job receipt))) rt' /\
    rtStore rt' = rtStore rt /\
    (rtRouted rt' = rtRouted rt ++ [(Job receipt, Parked)] \/ rtRouted rt' = rtRouted rt /\ exists e, r = Err e).
Proof using Type.
  intros Hp. destruct (probing_now _ _ Hp) as (t & rt1 & Hn & Hb & Hr & Hs). destruct Hp as (st & H1 & H2 & H3).
  unfold Handle, allowed, mbind, SM_bind, sget. rewrite Hn. cbn. rewrite Hb, (probing_denied _ t _ st H1 H2 H3). cbn.
  unfold sleepBeforePark, park, route, swrap, mbind, SM_bind, sget. cbn.
  destruct (rtParkBackoff rt1 <=? 0); [|destruct cancelled]; cbn; [| |];
    try (destruct (routes receipt Parked)); cbn; do 2 eexists; (split; [reflexivity|]; split; [by exists st|]; split; [done|]; cbn; rewrite Hr; eauto).
Qed.

End stuck.

Import Worker.

(** A bogus job taken as the half-open probe parks its analyzer for good.
    The handler acknowledges a job whose object is gone without telling the
    breaker; when that job was the probe, the circuit stays half-open, and from
    then on every job of the analyzer is parked, however long one waits and
    whatever the analyzer could do: none is ever processed. *)
Theorem unreported_probe_parks_all {S} `{!Jobs.ObjectStore S} (registry : Registry S) (key : string)
    (receipts : list (bool * JobReceipt)) (rt : Runtime S) :
  probing key rt -> Forall (fun r => analyzerKey (jAnalyzer (Job r.2)) = key) receipts ->
  let '(_, rt') := runLoop registry receipts rt in
  probing key rt' /\ rtStore rt' = rtStore rt /\
  exists n, rtRouted rt' = rtRouted rt ++ map (fun r => (Job r.2, Parked)) (take n receipts).
Proof.
  intros Hp Hf. revert rt Hp. induction Hf as [|[c receipt] receipts Hk Hf IH]; intros rt Hp; cbn [runLoop].
  - split; [done|]. split; [done|]. exists 0%nat. cbn. by rewrite app_nil_r.
  - cbn in Hk. subst key. destruct (probing_handle registry c receipt rt Hp) as (r & rt1 & Hh & Hp1 & Hs1 & Hr).
    unfold mbind, SM_bind. rewrite Hh. destruct r as [[]|e|].
    + destruct Hr as [Hr|[_ [e ?]]]; [|done]. specialize (IH rt1 Hp1). destruct (runLoop registry receipts rt1) as [r' rt2].
      destruct IH as (K1 & K2 & n & K3). split; [done|]. split; [congruence|]. exists (Datatypes.S n).
      rewrite K3, Hr, <- app_assoc. done.
    + split; [done|]. split; [done|]. destruct Hr as [Hr|[Hr _]]; [exists 1%nat|exists 0%nat]; rewrite Hr; cbn; [done|by rewrite app_nil_r].
    + split; [done|]. split; [done|]. destruct Hr as [Hr|[Hr _]]; [exists 1%nat|exists 0%nat]; rewrite Hr; cbn; [done|by rewrite app_nil_r].
Qed.

(** ** Runs on a concrete store *)

Definition exSpec : AnalyzerSpec := MkSpec "ocr" "1" "" "" [] [] [] [] [] 0 true.

Definition exJob (digest : ObjectDigest) : AnalyzerJob :=
  MkJob 0 0 exSpec "" digest "" "" "" "" "key" "job" 1 0 0 false.

(** Looks at the object, and finds one line of text. *)
Definition exAnalyzer : Analyzer Store := MkAnalyzer exSpec (fun job s =>
  match ReadManifest (jObjectDigest job) s with
  | (Ok _, s') => (Ok (MkAnnotation 0 {["text" := AStr "hi"]} "" "" "" "" 1), s')
  | (Err e, s') => (Err e, s')
  | (Panic, s') => (Panic, s')
  end).

Definition exRegistry : Registry Store := {[SpecKey exSpec := exAnalyzer]}.

Definition accepts (job : AnalyzerJob) : JobReceipt := MkReceipt job (fun _ => None).

Lemma exRegistry_ok : analyzers_ok exRegistry.
Proof.
  intros k a job H s Hs. pose proof (proj1 (lookup_singleton_Some (M := gmap string) (SpecKey exSpec) k exAnalyzer a) H) as [<- <-]. cbn.
  destruct (os_read (jObjectDigest job) s Hs) as (H1 & H2 & H3). cbn in H1, H2, H3.
  destruct (ReadManifest (jObjectDigest job) s) as [[m|e|] s']; done.
Qed.

Lemma exSpec_trimmed : trimmed_spec exSpec.
Proof. split; vm_compute; reflexivity. Qed.

Definition exRuntime : Runtime Store := NewRuntime exStored 0 (10 ^ 12) [].

Lemma exRuntime_ok : rt_ok exRuntime.
Proof. apply rt_ok_new. exact exStored_ok. Qed.

Lemma exJob_plain : plain_job (exJob (blake3 helloBytes)).
Proof. split; vm_compute; intros H; repeat (apply elem_of_cons in H as [H|H]; [discriminate|]); by apply elem_of_nil in H. Qed.

Definition routedTo (rt : Runtime Store) : list routing := (rtRouted rt).*2.

Lemma hasKey_none (s : Store) k : hasKey s k = true -> dbGet (db s) k = None -> False.
Proof. intros [v Hv]%hasKey_some Hn. congruence. Qed.

(** The job is analysed, acknowledged, and its analysis of this version is there. *)
Lemma handle_routes_once_witness :
  routedTo (Handle exRegistry false (Some (accepts (exJob (blake3 helloBytes)))) exRuntime).2 = [Acked] /\
  seen (Handle exRegistry false (Some (accepts (exJob (blake3 helloBytes)))) exRuntime).2 (exJob (blake3 helloBytes)).
Proof.
  assert (routedTo (Handle exRegistry false (Some (accepts (exJob (blake3 helloBytes)))) exRuntime).2 = [Acked]) as Hr
    by (vm_compute; reflexivity).
  assert (hasKey (rtStore (Handle exRegistry false (Some (accepts (exJob (blake3 helloBytes)))) exRuntime).2) (manifestKey (blake3 helloBytes)) = true) as Hm
    by (vm_compute; reflexivity).
  split; [exact Hr|].
  destruct (handle_routes_once exRegistry false (accepts (exJob (blake3 helloBytes))) exRuntime exRegistry_ok exRuntime_ok exJob_plain exSpec_trimmed)
    as (r & rt' & calls & Hh & _ & _ & Hc & _ & _ & Ha).
  rewrite Hh in *. cbn [snd] in *. unfold routedTo in Hr. rewrite Hc, fmap_app in Hr. cbn in Hr. rewrite <- list_fmap_compose in Hr.
  assert (calls = [Acked]) as -> by (rewrite <- Hr; symmetry; apply list_fmap_id).
  destruct Ha as [Ha|Ha]; [by left|exact Ha|]. destruct (hasKey_none _ _ Hm Ha).
Defined.

Definition exProcessed : Runtime Store := (Process exRegistry (exJob (blake3 helloBytes)) exRuntime).2.

Lemma redelivery_is_free_witness : exists rt2,
  Process exRegistry (exJob (blake3 helloBytes)) exProcessed = (Ok tt, rt2) /\ rtStore rt2 = rtStore exProcessed.
Proof.
  apply (redelivery_is_free exRegistry (exJob (blake3 helloBytes)) (exJob (blake3 helloBytes)) exRuntime exProcessed).
  - split; [done|]. exists []. apply Lru.repr_NewLRU.
  - assert (match (Process exRegistry (exJob (blake3 helloBytes)) exRuntime).1 with Ok _ => true | _ => false end = true) as H
      by (vm_compute; reflexivity).
    unfold exProcessed. destruct (Process exRegistry (exJob (blake3 helloBytes)) exRuntime) as [[[]|e|] rt]; [reflexivity|discriminate..].
  - reflexivity.
  - reflexivity.
  - vm_compute. reflexivity.
  - reflexivity.
Defined.

(** Five times the analyzer's service is down; ten minutes later a job for an
    object that is gone comes first. *)
Definition exDown : Registry Store :=
  {[SpecKey exSpec := MkAnalyzer exSpec (fun _ s => (Err (ErrVar "ErrAnalyzerUnavailable"), s))]}.

Definition exTripped : Runtime Store :=
  (runLoop exDown (repeat (false, accepts (exJob (blake3 helloBytes))) 5) exRuntime).2.

Definition exProbed : Runtime Store :=
  (Handle exRegistry false (Some (accepts (exJob (blake3 [])))) (set_time (10 ^ 12 + 600 * Second) [] exTripped)).2.

Definition probingb (rt : Runtime Store) : bool :=
  match states (rtBreaker rt) !! "ocr@1" with
  | Some st => (threshold (rtBreaker rt) <=? failures st) && halfOpen st
  | None => false
  end.

Lemma breaker_set_time {S} t ts (rt : Runtime S) : rtBreaker (set_time t ts rt) = rtBreaker rt.
Proof. reflexivity. Qed.

(** ... and a year later, with the service long back, the good job is parked. *)
Lemma unreported_probe_parks_all_witness :
  routedTo exProbed = [Parked; Parked; Parked; Parked; Parked; Acked] /\
  probing "ocr@1" (runLoop exRegistry [(false, accepts (exJob (blake3 helloBytes)))] (set_time (10 ^ 17) [] exProbed)).2.
Proof.
  split; [vm_compute; reflexivity|].
  pose proof (unreported_probe_parks_all exRegistry "ocr@1" [(false, accepts (exJob (blake3 helloBytes)))] (set_time (10 ^ 17) [] exProbed)) as H.
  destruct (runLoop _ _ _) as [r rt']. apply H; [|by repeat constructor].
  assert (probingb exProbed = true) as Hp by (vm_compute; reflexivity). unfold probingb in Hp.
  unfold probing. rewrite breaker_set_time.
  destruct (states (rtBreaker exProbed) !! "ocr@1") as [st|]; [|discriminate].
  apply andb_true_iff in Hp as [Hp%Z.leb_le Hh]. exists st. auto.
Defined.

(** ** Two versions of one analyzer *)

Definition exSpec2 : AnalyzerSpec := MkSpec "ocr" "2" "" "" [] [] [] [] [] 0 true.
Definition exBoth : Registry Store := <[SpecKey exSpec2 := MkAnalyzer exSpec2 (Analyze exAnalyzer)]> exRegistry.
Definition exJob2 : AnalyzerJob := MkJob 0 0 exSpec2 "" (blake3 helloBytes) "" "" "" "" "key2" "job2" 1 0 0 false.

(** An analysis is not permanently present once produced.  Annotations are filed
    by object and analyzer, so the analysis by version 2 replaces that by version
    1; the worker's cache still remembers version 1, and a job for it is
    acknowledged although the store, asked, says that there is no such analysis. *)
Theorem replaced_version_acked :
  let '(r, rt) := runLoop exBoth [(false, accepts (exJob (blake3 helloBytes))); (false, accepts exJob2);
    (false, accepts (exJob (blake3 helloBytes)))] exRuntime in
  r = Ok tt /\ routedTo rt = [Acked; Acked; Acked] /\
  (HasAnalysisAnnotation (blake3 helloBytes) "ocr" "2" (rtStore rt)).1 = Ok true /\
  (HasAnalysisAnnotation (blake3 helloBytes) "ocr" "1" (rtStore rt)).1 = Ok false.
Proof. vm_compute. split_and!; reflexivity. Qed.
