(* ===== verification/RpcConvert.v ===== *)
(** * Messages on the wire: [rpc/convert.go]

    The conversions between the structs of the program and the messages of
    proto/gmeow/v1/common.proto and filestore.proto, in both directions.  A
    message field that points to another message is an [option]; the getters of
    the generated code read a nil message as its zero value.  The JSON of
    dynamic maps and the RFC 3339 text of times are the class [Codec]. *)

From stdpp Require Import countable options.
From S2P Require Import Prelude GoLib GoText Contracts Meta Jobs SourceService.

Local Open Scope Z_scope.

Module Pb.
Import Source.

(** ** Results *)

Abbreviation Res A := (GoError + A)%type.

#[export] Instance Res_ret : MRet (sum GoError) := fun A a => inr a.
#[export] Instance Res_bind : MBind (sum GoError) := fun A B f m =>
  match m with inl e => inl e | inr a => f a end.

Definition wrap {A} (msg : string) (m : Res A) : Res A :=
  match m with inl e => inl (ErrWrap msg e) | inr a => inr a end.

(** [for _, x := range l { y, err := f(x); ...; out = append(out, y) }]. *)
Fixpoint mapE {A B} (f : A -> Res B) (l : list A) : Res (list B) :=
  match l with
  | [] => mret []
  | x :: r => y ← f x; ys ← mapE f r; mret (y :: ys)
  end.

(** ** Integers *)

(** [int32(z)] keeps the low 32 bits. *)
Definition int32 (z : Z) : Z := (z + 2 ^ 31) mod 2 ^ 32 - 2 ^ 31.

Definition clampInt32 (value : Z) : Z :=
  if 2 ^ 31 - 1 <? value then 2 ^ 31 - 1 else if value <? - 2 ^ 31 then - 2 ^ 31 else int32 value.

Definition clampNonNegativeInt32 (value : Z) : Z := if value <? 0 then 0 else clampInt32 value.

Definition fits32 (z : Z) : bool := (- 2 ^ 31 <=? z) && (z <? 2 ^ 31).

(** ** JSON values *)

(** The bytes of valid UTF-8. *)
Fixpoint validUTF8 (l : list N) : bool :=
  let cont c := (128 <=? c)%N && (c <=? 191)%N in
  let between lo b hi := (lo <=? b)%N && (b <=? hi)%N in
  match l with
  | [] => true
  | b :: r =>
      if (b <? 128)%N then validUTF8 r else
      match r with
      | [] => false
      | c1 :: r1 =>
          if between 194 b 223 then cont c1 && validUTF8 r1 else
          match r1 with
          | [] => false
          | c2 :: r2 =>
              if (b =? 224)%N then between 160 c1 191 && cont c2 && validUTF8 r2
              else if (b =? 237)%N then between 128 c1 159 && cont c2 && validUTF8 r2
              else if between 225 b 239 then cont c1 && cont c2 && validUTF8 r2 else
              match r2 with
              | [] => false
              | c3 :: r3 =>
                  ((b =? 240)%N && between 144 c1 191 || between 241 b 243 && cont c1 || (b =? 244)%N && between 128 c1 143) &&
                  cont c2 && cont c3 && validUTF8 r3
              end
          end
      end
  end%N.

Definition text (s : string) : bool := validUTF8 (map Ascii.N_of_ascii (str_bytes s)).

(** A [float64] in lowest terms. *)
Definition float64 (num : Z) (den : positive) : bool :=
  (Z.abs num <=? 2 ^ 53) && (2 ^ Z.log2 (Zpos den) =? Zpos den) && (Zpos den <=? 2 ^ 1074) && ((Zpos den =? 1) || Z.odd num).

(** The instants that RFC 3339 can write: years 0 to 9999, without the zero time. *)
Definition writable (t : Time) : bool := (-62167219200 * 10 ^ 9 <=? t) && (t <? 253402300800 * 10 ^ 9) && negb (isZero t).

Fixpoint keysAscending (keys : list string) : bool :=
  match keys with
  | a :: (b :: _) as r => str_ltb a b && keysAscending r
  | _ => true
  end.

(** The values JSON carries without loss, up to their Go type: strings of valid
    text, integers a [float64] holds, maps with ordered keys. *)
Fixpoint encodable (v : Any) : bool :=
  match v with
  | ANil | ABool _ => true
  | AInt z => Z.abs z <=? 2 ^ 53
  | AFloat n d => float64 n d
  | AStr s => text s
  | ATime t => writable t
  | AList l => (fix go (l : list Any) : bool := match l with [] => true | x :: r => encodable x && go r end) l
  | AMap m =>
      keysAscending (map fst m) &&
      (fix go (m : list (string * Any)) : bool :=
         match m with [] => true | (k, x) :: r => text k && encodable x && go r end) m
  end.

Definition encodableMap (m : anyMap) : Prop := map_Forall (fun k v => text k = true /\ encodable v = true) m.

(** [encoding/json] on [map[string]any], [time.RFC3339Nano]. *)
Class Codec := {
  marshalMap : anyMap -> Res bytes;
  unmarshalMap : bytes -> Res anyMap;
  rfc3339 : Time -> string;
  parseRFC3339 : string -> Res Time }.

Section convert.
Context `{!Codec}.

(** What a value is after it went through JSON. *)
Fixpoint jsonValue (v : Any) : Any :=
  match v with
  | AInt z => AFloat z 1
  | ATime t => AStr (rfc3339 t)
  | AList l => AList (map jsonValue l)
  | AMap m => AMap ((fix go (m : list (string * Any)) := match m with [] => [] | (k, x) :: r => (k, jsonValue x) :: go r end) m)
  | v => v
  end.

(** ** Maps and times *)

Definition encodeMap (value : anyMap) : Res bytes :=
  if bool_decide (value = ∅) then mret [] else wrap "encode dynamic metadata json" (marshalMap value).

Definition decodeMap (value : bytes) : Res anyMap :=
  match value with
  | [] => mret ∅
  | _ => wrap "decode dynamic metadata json" (unmarshalMap value)
  end.

Definition formatTime (value : Time) : string := if isZero value then "" else rfc3339 value.

Definition parseTime (value : string) : Res Time :=
  if bool_decide (value = "") then mret zeroTime else parseRFC3339 value.

Definition mustParseTime (value : string) : Time :=
  match parseTime value with inr t => t | inl _ => zeroTime end.

End convert.

(** ** Messages *)

Record PbSourceObjectRef := MkPbRef { pbrKind : string; pbrName : string; pbrExternalId : string; pbrExternalVersion : string }.
Record PbSourceIngestClaim := MkPbClaim { pbcSourceObject : option PbSourceObjectRef; pbcClaimId : string; pbcAcquiredAt : string }.
Record PbFacet := MkPbFacet { pbfKind : string; pbfName : string; pbfVersion : string; pbfMetadataJson : bytes; pbfAttributesJson : bytes }.
Record PbTitle := MkPbTitle { pbtValue : string; pbtSource : string; pbtConfidence : Any }.
Record PbTimestamps := MkPbTimestamps { pbtCreated : string; pbtModified : string; pbtObserved : string }.
Record PbProvenance := MkPbProvenance {
  pbpSourceName : string; pbpSourceKind : string; pbpExternalId : string; pbpExternalVersion : string; pbpObservedAt : string;
  pbpCapabilitiesSeen : list string; pbpMetadataJson : bytes; pbpAttributesJson : bytes }.
Record PbRelationship := MkPbRelationship {
  pblType : string; pblFrom : string; pblTo : string; pblRole : string; pblOrder : Z; pblSource : string }.
Record PbCompoundPart := MkPbPart { pbpDigest : string; pbpRole : string; pbpOrder : Z; pbpRequired : bool; pbpPartJson : bytes }.
Record PbCompound := MkPbCompound { pboIsCompound : bool; pboParts : list PbCompoundPart }.
Record PbGraphFact := MkPbGraph { pbgSubject : string; pbgPredicate : string; pbgObject : string; pbgMetadataJson : bytes }.
Record PbEmbeddingRef := MkPbEmb { pbeModel : string; pbeObjectDigest : string; pbeDimensions : Z }.
Record PbManifest := MkPbManifest {
  pbmSchemaVersion : Z; pbmDigest : string; pbmObjectId : string; pbmIdentityStrategy : string; pbmMediaType : string; pbmSize : Z;
  pbmCompression : string; pbmContentRoles : list string; pbmFacets : list PbFacet; pbmTitles : list PbTitle;
  pbmTimestamps : option PbTimestamps; pbmProvenance : list PbProvenance; pbmRelationships : list PbRelationship;
  pbmCompound : option PbCompound; pbmAnalysisJson : bytes; pbmGraph : list PbGraphFact; pbmKeywords : list string;
  pbmEmbeddings : list PbEmbeddingRef; pbmOverlaysJson : bytes; pbmCreatedAt : string; pbmUpdatedAt : string }.
Record PbAnnotation := MkPbAnnotation {
  pbaSchemaVersion : Z; pbaObjectDigest : string; pbaAnalyzerName : string; pbaAnalyzerVersion : string; pbaKind : string;
  pbaGeneratedAt : string; pbaDataJson : bytes }.
Record PbProjectionFinding := MkPbFinding { pbdDigest : string; pbdCode : string; pbdMessage : GoError }.
Record PbProjectionObject := MkPbProjection {
  pbjDigest : string; pbjManifest : option PbManifest; pbjAnnotations : list PbAnnotation; pbjFindings : list PbProjectionFinding }.
Record PbStructurePart := MkPbStructurePart {
  pbsDigest : string; pbsRole : string; pbsOrder : Z; pbsRequired : bool; pbsFacets : list string; pbsMetadataJson : bytes }.
Record PbStructureRoleParts := MkPbRoleParts { pbsByRole : string; pbsParts : list PbStructurePart }.
Record PbStructure := MkPbStructure {
  pbsSchemaVersion : Z; pbsObjectDigest : string; pbsObjectId : string; pbsObjectFacets : list string;
  pbsPartsByRole : list PbStructureRoleParts }.
Record PbAnalyzerSpec := MkPbSpec {
  pbyName : string; pbyVersion : string; pbyMediaTypes : list string; pbyContentRoles : list string; pbyRequiredInputs : list string;
  pbyOutputSections : list string; pbyDependencies : list string; pbyPriority : Z; pbyIdempotencyKeyFormula : string;
  pbyDeterministic : bool; pbyWorkerKind : string }.
Record PbAnalyzerJob := MkPbJob {
  pbbSchemaVersion : Z; pbbJobId : string; pbbIdempotencyKey : string; pbbAnalyzer : option PbAnalyzerSpec; pbbObjectDigest : string;
  pbbPriorityClass : string; pbbRequestedBy : string; pbbReason : string; pbbAttempt : Z; pbbTraceId : string; pbbDeadline : string;
  pbbForced : bool; pbbPriority : Z; pbbCreatedAt : string }.
Record PbSourceCursor := MkPbCursor {
  pbuSchemaVersion : Z; pbuSourceKind : string; pbuSourceName : string; pbuCursorJson : bytes; pbuUpdatedAt : string }.

(** Zero values of the messages, as the getters of a nil message read. *)
Definition noRef : SourceObjectRef := MkRef "" "" "" "".
Definition noClaim : SourceIngestClaim := MkClaim zeroTime noRef "".
Definition noTimestamps : Timestamps := MkTimestamps zeroTime zeroTime zeroTime.
Definition noManifest : Manifest :=
  MkManifest noTimestamps zeroTime zeroTime ∅ ∅ "" "" "" "" "" (MkCompound [] false) [] [] [] [] [] [] [] [] 0 0.
Definition noAnnotation : Annotation := MkAnnotation zeroTime ∅ "" "" "" "" 0.
Definition noSpec : AnalyzerSpec := MkSpec "" "" "" "" [] [] [] [] [] 0 false.
Definition noJob : AnalyzerJob := MkJob zeroTime zeroTime noSpec "" "" "" "" "" "" "" "" 0 0 0 false.

Section conversions.
Context `{!Codec}.

Definition ToPBSourceObjectRef (ref : SourceObjectRef) : PbSourceObjectRef :=
  MkPbRef (rSourceKind ref) (rSourceName ref) (rExternalID ref) (rExternalVersion ref).

Definition FromPBSourceObjectRef (ref : option PbSourceObjectRef) : SourceObjectRef :=
  match ref with
  | None => noRef
  | Some ref => MkRef (pbrKind ref) (pbrName ref) (pbrExternalId ref) (pbrExternalVersion ref)
  end.

Definition ToPBSourceIngestClaim (claim : SourceIngestClaim) : PbSourceIngestClaim :=
  MkPbClaim (Some (ToPBSourceObjectRef (clSourceObject claim))) (clClaimID claim) (formatTime (clAcquiredAt claim)).

Definition FromPBSourceIngestClaim (claim : option PbSourceIngestClaim) : Res SourceIngestClaim :=
  match claim with
  | None => mret noClaim
  | Some claim =>
      acquiredAt ← wrap "parse acquired_at" (parseTime (pbcAcquiredAt claim));
      mret (MkClaim acquiredAt (FromPBSourceObjectRef (pbcSourceObject claim)) (pbcClaimId claim))
  end.

Definition ToPBFacets : list Facet -> Res (list PbFacet) := mapE (fun facet =>
  metadata ← encodeMap (fMetadata facet);
  attributes ← encodeMap (fAttributes facet);
  mret (MkPbFacet (fKind facet) (fName facet) (fVersion facet) metadata attributes)).

Definition FromPBFacets : list PbFacet -> Res (list Facet) := mapE (fun facet =>
  metadata ← decodeMap (pbfMetadataJson facet);
  attributes ← decodeMap (pbfAttributesJson facet);
  mret (MkFacet metadata attributes (pbfKind facet) (pbfName facet) (pbfVersion facet))).

Definition ToPBProvenance : list Provenance -> Res (list PbProvenance) := mapE (fun item =>
  metadata ← encodeMap (pMetadata item);
  attributes ← encodeMap (pAttributes item);
  mret (MkPbProvenance (pSourceName item) (pSourceKind item) (pExternalID item) (pExternalVersion item)
    (formatTime (pObservedAt item)) (pCapabilitiesSeen item) metadata attributes)).

Definition FromPBProvenance : list PbProvenance -> Res (list Provenance) := mapE (fun item =>
  observedAt ← wrap "parse provenance observed_at" (parseTime (pbpObservedAt item));
  metadata ← decodeMap (pbpMetadataJson item);
  attributes ← decodeMap (pbpAttributesJson item);
  mret (MkProvenance observedAt metadata attributes (pbpSourceName item) (pbpSourceKind item) (pbpExternalId item)
    (pbpExternalVersion item) (pbpCapabilitiesSeen item))).

Definition ToPBRelationships : list Relationship -> list PbRelationship := map (fun r =>
  MkPbRelationship (relType r) (relFrom r) (relTo r) (relRole r) (int32 (relOrder r)) (relSource r)).

Definition FromPBRelationships : list PbRelationship -> list Relationship := map (fun r =>
  MkRel (pblType r) (pblFrom r) (pblTo r) (pblRole r) (pblSource r) (pblOrder r)).

Definition ToPBCompoundParts : list CompoundPart -> Res (list PbCompoundPart) := mapE (fun part =>
  metadata ← encodeMap (cpMetadata part);
  mret (MkPbPart (cpDigest part) (cpRole part) (int32 (cpOrder part)) (cpRequired part) metadata)).

Definition FromPBCompoundParts : list PbCompoundPart -> Res (list CompoundPart) := mapE (fun part =>
  metadata ← decodeMap (pbpPartJson part);
  mret (MkPart metadata (pbpDigest part) (pbpRole part) (pbpOrder part) (pbpRequired part))).

Definition ToPBTitles : list Title -> list PbTitle := map (fun t => MkPbTitle (tValue t) (tSource t) (tConfidence t)).
Definition FromPBTitles : list PbTitle -> list Title := map (fun t => MkTitle (pbtValue t) (pbtSource t) (pbtConfidence t)).

Definition ToPBTimestamps (t : Timestamps) : PbTimestamps :=
  MkPbTimestamps (formatTime (tsCreated t)) (formatTime (tsModified t)) (formatTime (tsObserved t)).

Definition FromPBTimestamps (t : option PbTimestamps) : Timestamps :=
  match t with
  | None => noTimestamps
  | Some t => MkTimestamps (mustParseTime (pbtCreated t)) (mustParseTime (pbtModified t)) (mustParseTime (pbtObserved t))
  end.

Definition ToPBGraphFacts : list GraphFact -> Res (list PbGraphFact) := mapE (fun fact =>
  metadata ← encodeMap (gMetadata fact);
  mret (MkPbGraph (gSubject fact) (gPredicate fact) (gObject fact) metadata)).

Definition FromPBGraphFacts : list PbGraphFact -> Res (list GraphFact) := mapE (fun fact =>
  metadata ← decodeMap (pbgMetadataJson fact);
  mret (MkGraph metadata (pbgSubject fact) (pbgPredicate fact) (pbgObject fact))).

Definition ToPBEmbeddingRefs : list EmbeddingRef -> list PbEmbeddingRef := map (fun r =>
  MkPbEmb (eModel r) (eObjectDigest r) (int32 (eDimensions r))).

Definition FromPBEmbeddingRefs : list PbEmbeddingRef -> list EmbeddingRef := map (fun r =>
  MkEmb (pbeModel r) (pbeObjectDigest r) (pbeDimensions r)).

Definition ToPBManifest (m : Manifest) : Res PbManifest :=
  analysis ← encodeMap (mAnalysis m);
  overlays ← encodeMap (mOverlays m);
  facets ← ToPBFacets (mFacets m);
  provenance ← ToPBProvenance (mProvenance m);
  let relationships := ToPBRelationships (mRelationships m) in
  parts ← ToPBCompoundParts (cParts (mCompound m));
  graph ← ToPBGraphFacts (mGraph m);
  mret (MkPbManifest (int32 (mSchemaVersion m)) (mObjectDigest m) (mObjectID m) (mIdentityStrategy m) (mMediaType m) (mSize m)
    (mCompression m) (mContentRoles m) facets (ToPBTitles (mTitles m)) (Some (ToPBTimestamps (mTimestamps m))) provenance
    relationships (Some (MkPbCompound (cIsCompound (mCompound m)) parts)) analysis graph (mKeywords m)
    (ToPBEmbeddingRefs (mEmbeddings m)) overlays (formatTime (mCreatedAt m)) (formatTime (mUpdatedAt m))).

(** [manifest.GetCompound()] of a nil message reads as an empty one. *)
Definition getCompound (m : PbManifest) : PbCompound := default (MkPbCompound false []) (pbmCompound m).

Definition FromPBManifest (m : option PbManifest) : Res Manifest :=
  match m with
  | None => mret noManifest
  | Some m =>
      analysis ← decodeMap (pbmAnalysisJson m);
      overlays ← decodeMap (pbmOverlaysJson m);
      facets ← FromPBFacets (pbmFacets m);
      provenance ← FromPBProvenance (pbmProvenance m);
      parts ← FromPBCompoundParts (pboParts (getCompound m));
      graph ← FromPBGraphFacts (pbmGraph m);
      createdAt ← wrap "parse created_at" (parseTime (pbmCreatedAt m));
      updatedAt ← wrap "parse updated_at" (parseTime (pbmUpdatedAt m));
      mret (MkManifest (FromPBTimestamps (pbmTimestamps m)) updatedAt createdAt overlays analysis (pbmDigest m) (pbmObjectId m)
        (pbmIdentityStrategy m) (pbmMediaType m) (pbmCompression m) (MkCompound parts (pboIsCompound (getCompound m))) graph
        (FromPBRelationships (pbmRelationships m)) provenance (FromPBTitles (pbmTitles m)) (pbmKeywords m)
        (FromPBEmbeddingRefs (pbmEmbeddings m)) facets (pbmContentRoles m) (pbmSchemaVersion m) (pbmSize m))
  end.

Definition ToPBAnnotation (a : Annotation) : Res PbAnnotation :=
  data ← encodeMap (aData a);
  mret (MkPbAnnotation (int32 (aSchemaVersion a)) (aObjectDigest a) (aAnalyzerName a) (aAnalyzerVer a) (aKind a)
    (formatTime (aGeneratedAt a)) data).

Definition FromPBAnnotation (a : option PbAnnotation) : Res Annotation :=
  match a with
  | None => mret noAnnotation
  | Some a =>
      generatedAt ← wrap "parse generated_at" (parseTime (pbaGeneratedAt a));
      data ← decodeMap (pbaDataJson a);
      mret (MkAnnotation generatedAt data (pbaObjectDigest a) (pbaAnalyzerName a) (pbaAnalyzerVersion a) (pbaKind a)
        (pbaSchemaVersion a))
  end.

Definition ToPBAnnotations : list Annotation -> Res (list PbAnnotation) := mapE ToPBAnnotation.
Definition FromPBAnnotations : list PbAnnotation -> Res (list Annotation) := mapE (fun a => FromPBAnnotation (Some a)).

Definition ToPBProjectionObject (o : ProjectionObject) : Res PbProjectionObject :=
  manifest ← ToPBManifest (poManifest o);
  annotations ← ToPBAnnotations (poAnnotations o);
  mret (MkPbProjection (poDigest o) (Some manifest) annotations
    (map (fun f => MkPbFinding (pfDigest f) (pfCode f) (pfMessage f)) (poFindings o))).

Definition FromPBProjectionObject (o : option PbProjectionObject) : Res ProjectionObject :=
  match o with
  | None => mret (MkProjection "" noManifest [] [])
  | Some o =>
      manifest ← FromPBManifest (pbjManifest o);
      annotations ← FromPBAnnotations (pbjAnnotations o);
      mret (MkProjection (pbjDigest o) manifest annotations
        (map (fun f => MkFinding (pbdDigest f) (pbdCode f) (pbdMessage f)) (pbjFindings o)))
  end.

Definition ToPBSourceCursor (c : SourceCursor) : Res PbSourceCursor :=
  cursorJSON ← encodeMap (scCursor c);
  mret (MkPbCursor (int32 (scSchemaVersion c)) (scSourceKind c) (scSourceName c) cursorJSON (formatTime (scUpdatedAt c))).

Definition FromPBSourceCursor (c : option PbSourceCursor) : Res SourceCursor :=
  match c with
  | None => mret (MkCursor zeroTime ∅ "" "" 0)
  | Some c =>
      cursorMap ← decodeMap (pbuCursorJson c);
      updatedAt ← wrap "parse source cursor updated_at" (parseTime (pbuUpdatedAt c));
      mret (MkCursor updatedAt cursorMap (pbuSourceKind c) (pbuSourceName c) (pbuSchemaVersion c))
  end.

Definition ToPBAnalyzerSpec (s : AnalyzerSpec) : PbAnalyzerSpec :=
  MkPbSpec (spName s) (spVersion s) (spMediaTypes s) (spContentRoles s) (spRequiredInputs s) (spOutputSections s)
    (spDependencies s) (int32 (spPriority s)) (spIdempotencyFormula s) (spDeterministic s) (spWorkerKind s).

Definition FromPBAnalyzerSpec (s : option PbAnalyzerSpec) : AnalyzerSpec :=
  match s with
  | None => noSpec
  | Some s => MkSpec (pbyName s) (pbyVersion s) (pbyIdempotencyKeyFormula s) (pbyWorkerKind s) (pbyMediaTypes s)
      (pbyContentRoles s) (pbyRequiredInputs s) (pbyOutputSections s) (pbyDependencies s) (pbyPriority s) (pbyDeterministic s)
  end.

Definition ToPBAnalyzerJob (j : AnalyzerJob) : PbAnalyzerJob :=
  MkPbJob (int32 (jSchemaVersion j)) (jJobID j) (jIdempotencyKey j) (Some (ToPBAnalyzerSpec (jAnalyzer j))) (jObjectDigest j)
    (jPriorityClass j) (jRequestedBy j) (jReason j) (int32 (jAttempt j)) (jTraceID j) (formatTime (jDeadline j)) (jForced j)
    (int32 (jPriority j)) (formatTime (jCreatedAt j)).

Definition FromPBAnalyzerJob (j : option PbAnalyzerJob) : Res AnalyzerJob :=
  match j with
  | None => mret noJob
  | Some j =>
      deadline ← wrap "parse deadline" (parseTime (pbbDeadline j));
      createdAt ← wrap "parse created_at" (parseTime (pbbCreatedAt j));
      mret (MkJob createdAt deadline (FromPBAnalyzerSpec (pbbAnalyzer j)) (pbbRequestedBy j) (pbbObjectDigest j)
        (pbbPriorityClass j) (pbbReason j) (pbbTraceId j) "" (pbbIdempotencyKey j) (pbbJobId j) (pbbSchemaVersion j)
        (pbbAttempt j) (pbbPriority j) (pbbForced j))
  end.

End conversions.

(** ** Structures *)

Record StructurePart := MkStructurePart {
  stMetadata : anyMap; stDigest : ObjectDigest; stRole : string; stFacets : list string; stOrder : Z; stRequired : bool }.

Record Structure := MkStructure {
  suPartsByRole : gmap string (list StructurePart); suObjectDigest : ObjectDigest; suObjectID : string; suFacets : list string;
  suSchemaVersion : Z }.

Section structures.
Context `{!Codec}.

Definition toPBStructurePart (part : StructurePart) : Res PbStructurePart :=
  metadata ← encodeMap (stMetadata part);
  mret (MkPbStructurePart (stDigest part) (stRole part) (int32 (stOrder part)) (stRequired part) (stFacets part) metadata).

Definition fromPBStructurePart (part : PbStructurePart) : Res StructurePart :=
  metadata ← decodeMap (pbsMetadataJson part);
  mret (MkStructurePart metadata (pbsDigest part) (pbsRole part) (pbsFacets part) (pbsOrder part) (pbsRequired part)).

(** [roles] is the map in the order the [range] loop visits it. *)
Definition ToPBStructure (roles : list (string * list StructurePart)) (s : Structure) : Res PbStructure :=
  roles ← mapE (fun rp : string * list StructurePart =>
    parts ← mapE toPBStructurePart rp.2; mret (MkPbRoleParts rp.1 parts)) roles;
  mret (MkPbStructure (int32 (suSchemaVersion s)) (suObjectDigest s) (suObjectID s) (suFacets s) roles).

Definition FromPBStructure (s : option PbStructure) : Res Structure :=
  match s with
  | None => mret (MkStructure ∅ "" "" [] 0)
  | Some s =>
      roles ← mapE (fun rp => parts ← mapE fromPBStructurePart (pbsParts rp); mret (pbsByRole rp, parts)) (pbsPartsByRole s);
      mret (MkStructure (foldl (fun m rp => <[rp.1 := rp.2]> m) ∅ roles) (pbsObjectDigest s) (pbsObjectId s)
        (pbsObjectFacets s) (pbsSchemaVersion s))
  end.

End structures.

(** ** Storage reports *)

Record StorageBreakdownFile := MkStorageFile {
  sfObjectDigest : ObjectDigest; sfRole : string; sfPath : string; sfLogicalBytes : Z; sfAllocatedBytes : Z; sfEstimated : bool;
  sfDictID : string; sfDictIDs : list string; sfDictFamily : string; sfDictFamilies : list string; sfChunkCount : Z;
  sfReferencedBy : ObjectDigest; sfCompoundRole : string; sfCompoundOrder : Z; sfRecursivePart : bool; sfPhysicalPath : string }.

Record StorageBreakdownReport := MkStorageReport {
  srFiles : list StorageBreakdownFile; srRootDigest : ObjectDigest; srTotalAllocatedBytes : Z; srTotalLogicalBytes : Z;
  srEstimatedAllocated : bool; srFileCount : Z; srReferencedObjectCount : Z; srRecursiveParts : bool }.

Record PbStorageBreakdownFile := MkPbStorageFile {
  pbkObjectDigest : string; pbkRole : string; pbkPath : string; pbkLogicalBytes : Z; pbkAllocatedBytes : Z; pbkEstimated : bool;
  pbkReferencedBy : string; pbkCompoundRole : string; pbkCompoundOrder : Z; pbkRecursivePart : bool; pbkDictId : string;
  pbkDictIds : list string; pbkChunkCount : Z; pbkDictionaryFamily : string; pbkDictionaryFamilies : list string }.

Record PbStorageBreakdownResponse := MkPbStorage {
  pbkRootDigest : string; pbkFiles : list PbStorageBreakdownFile; pbkTotalAllocatedBytes : Z; pbkTotalLogicalBytes : Z;
  pbkEstimatedAllocated : bool; pbkFileCount : Z; pbkReferencedObjectCount : Z; pbkRecursiveParts : bool }.

Definition ToPBStorageBreakdown (report : StorageBreakdownReport) : PbStorageBreakdownResponse :=
  MkPbStorage (srRootDigest report)
    (map (fun file => MkPbStorageFile (sfObjectDigest file) (sfRole file) (sfPath file) (sfLogicalBytes file)
       (sfAllocatedBytes file) (sfEstimated file) (sfReferencedBy file) (sfCompoundRole file) (clampInt32 (sfCompoundOrder file))
       (sfRecursivePart file) (sfDictID file) (sfDictIDs file) (clampNonNegativeInt32 (sfChunkCount file)) (sfDictFamily file)
       (sfDictFamilies file)) (srFiles report))
    (srTotalAllocatedBytes report) (srTotalLogicalBytes report) (srEstimatedAllocated report) (int32 (srFileCount report))
    (int32 (srReferencedObjectCount report)) (srRecursiveParts report).

Definition FromPBStorageBreakdown (r : PbStorageBreakdownResponse) : StorageBreakdownReport :=
  MkStorageReport
    (map (fun file => MkStorageFile (pbkObjectDigest file) (pbkRole file) (pbkPath file) (pbkLogicalBytes file)
       (pbkAllocatedBytes file) (pbkEstimated file) (pbkDictId file) (pbkDictIds file) (pbkDictionaryFamily file)
       (pbkDictionaryFamilies file) (pbkChunkCount file) (pbkReferencedBy file) (pbkCompoundRole file) (pbkCompoundOrder file)
       (pbkRecursivePart file) "") (pbkFiles r))
    (pbkRootDigest r) (pbkTotalAllocatedBytes r) (pbkTotalLogicalBytes r) (pbkEstimatedAllocated r) (pbkFileCount r)
    (pbkReferencedObjectCount r) (pbkRecursiveParts r).

(** ** Path reports *)

Record PathResolveRecovery := MkPathRecovery {
  pvDigest : string; pvObjectID : string; pvIdentityStrategy : string; pvMediaType : string; pvUncompressedSize : Z;
  pvCompressedSize : Z; pvUncompressedBlake3 : string; pvCompressedBlake3 : string; pvCreatedAt : Time }.
Record PathResolveParent := MkPathParent { ppParentDigest : ObjectDigest; ppRole : string; ppUpdatedAt : Time }.
Record PathResolveRecord := MkPathRecord {
  prSourceObject : option SourceObjectRef; prRecovery : option PathResolveRecovery; prParents : list PathResolveParent;
  prObjectDigest : ObjectDigest; prChildDigest : ObjectDigest; prUpdatedAt : string }.
Record PathResolveManifest := MkPathManifest {
  pnFacets : list string; pnProvenance : list Provenance; pnParts : list CompoundPart; pnObjectDigest : ObjectDigest;
  pnObjectID : string; pnMediaType : string; pnSize : Z; pnCompound : bool }.
Record PathResolveReport := MkPathReport {
  ptRecords : list PathResolveRecord; ptSourceObject : option SourceObjectRef; ptSourceCursor : option SourceCursor;
  ptIngestClaim : option SourceIngestClaim; ptManifest : option PathResolveManifest; ptKind : string; ptRole : string;
  ptInputPath : string; ptPath : string; ptPhysicalPath : string; ptObjectDigest : ObjectDigest; ptLogicalBytes : Z;
  ptAllocatedBytes : Z; ptEstimated : bool; ptRecordCount : Z; ptRecordsLimit : Z; ptTruncated : bool }.

Record PbResolvePathRecovery := MkPbPathRecovery {
  pbvDigest : string; pbvObjectId : string; pbvIdentityStrategy : string; pbvMediaType : string; pbvUncompressedSize : Z;
  pbvCompressedSize : Z; pbvUncompressedBlake3 : string; pbvCompressedBlake3 : string; pbvCreatedAt : string }.
Record PbResolvePathParent := MkPbPathParent { pbzParentDigest : string; pbzRole : string; pbzUpdatedAt : string }.
Record PbResolvePathRecord := MkPbPathRecord {
  pbxSourceObject : option PbSourceObjectRef; pbxRecovery : option PbResolvePathRecovery; pbxParents : list PbResolvePathParent;
  pbxObjectDigest : string; pbxChildDigest : string; pbxUpdatedAt : string }.
Record PbResolvePathManifest := MkPbPathManifest {
  pbnFacets : list string; pbnProvenance : list PbProvenance; pbnParts : list PbCompoundPart; pbnObjectDigest : string;
  pbnObjectId : string; pbnMediaType : string; pbnSize : Z; pbnCompound : bool }.
Record PbResolvePathResponse := MkPbPath {
  pbwRecords : list PbResolvePathRecord; pbwSourceObject : option PbSourceObjectRef; pbwSourceCursor : option PbSourceCursor;
  pbwIngestClaim : option PbSourceIngestClaim; pbwManifest : option PbResolvePathManifest; pbwKind : string; pbwRole : string;
  pbwInputPath : string; pbwPath : string; pbwPhysicalPath : string; pbwObjectDigest : string; pbwLogicalBytes : Z;
  pbwAllocatedBytes : Z; pbwEstimated : bool; pbwRecordCount : Z; pbwRecordsLimit : Z; pbwTruncated : bool }.

(** A conversion of the value behind a pointer. *)
Definition optE {A B} (f : A -> Res B) (o : option A) : Res (option B) :=
  match o with None => mret None | Some a => b ← f a; mret (Some b) end.

Section paths.
Context `{!Codec}.

Definition toPBResolvePathRecord (record : PathResolveRecord) : PbResolvePathRecord :=
  MkPbPathRecord (ToPBSourceObjectRef <$> prSourceObject record)
    ((fun r => MkPbPathRecovery (pvDigest r) (pvObjectID r) (pvIdentityStrategy r) (pvMediaType r) (pvUncompressedSize r)
        (pvCompressedSize r) (pvUncompressedBlake3 r) (pvCompressedBlake3 r) (formatTime (pvCreatedAt r))) <$> prRecovery record)
    (map (fun p => MkPbPathParent (ppParentDigest p) (ppRole p) (formatTime (ppUpdatedAt p))) (prParents record))
    (prObjectDigest record) (prChildDigest record) (prUpdatedAt record).

Definition toPBResolvePathRecords (records : list PathResolveRecord) : Res (list PbResolvePathRecord) :=
  mret (map toPBResolvePathRecord records).

Definition toPBResolvePathManifest : option PathResolveManifest -> Res (option PbResolvePathManifest) := optE (fun m =>
  provenance ← ToPBProvenance (pnProvenance m);
  parts ← ToPBCompoundParts (pnParts m);
  mret (MkPbPathManifest (pnFacets m) provenance parts (pnObjectDigest m) (pnObjectID m) (pnMediaType m) (pnSize m) (pnCompound m))).

Definition ToPBResolvePath (report : PathResolveReport) : Res PbResolvePathResponse :=
  records ← toPBResolvePathRecords (ptRecords report);
  manifest ← toPBResolvePathManifest (ptManifest report);
  cursor ← optE ToPBSourceCursor (ptSourceCursor report);
  mret (MkPbPath records (ToPBSourceObjectRef <$> ptSourceObject report) cursor (ToPBSourceIngestClaim <$> ptIngestClaim report)
    manifest (ptKind report) (ptRole report) (ptInputPath report) (ptPath report) (ptPhysicalPath report) (ptObjectDigest report)
    (ptLogicalBytes report) (ptAllocatedBytes report) (ptEstimated report) (int32 (ptRecordCount report))
    (int32 (ptRecordsLimit report)) (ptTruncated report)).

Definition fromPBResolvePathRecords : list PbResolvePathRecord -> Res (list PathResolveRecord) := mapE (fun record =>
  recovery ← optE (fun r =>
    createdAt ← wrap "parse recovery created_at" (parseTime (pbvCreatedAt r));
    mret (MkPathRecovery (pbvDigest r) (pbvObjectId r) (pbvIdentityStrategy r) (pbvMediaType r) (pbvUncompressedSize r)
      (pbvCompressedSize r) (pbvUncompressedBlake3 r) (pbvCompressedBlake3 r) createdAt)) (pbxRecovery record);
  parents ← mapE (fun p =>
    updatedAt ← wrap "parse parent updated_at" (parseTime (pbzUpdatedAt p));
    mret (MkPathParent (pbzParentDigest p) (pbzRole p) updatedAt)) (pbxParents record);
  mret (MkPathRecord ((fun ref => FromPBSourceObjectRef (Some ref)) <$> pbxSourceObject record) recovery parents
    (pbxObjectDigest record) (pbxChildDigest record) (pbxUpdatedAt record))).

Definition fromPBResolvePathManifest : option PbResolvePathManifest -> Res (option PathResolveManifest) := optE (fun m =>
  provenance ← FromPBProvenance (pbnProvenance m);
  parts ← FromPBCompoundParts (pbnParts m);
  mret (MkPathManifest (pbnFacets m) provenance parts (pbnObjectDigest m) (pbnObjectId m) (pbnMediaType m) (pbnSize m) (pbnCompound m))).

Definition FromPBResolvePath (r : PbResolvePathResponse) : Res PathResolveReport :=
  records ← fromPBResolvePathRecords (pbwRecords r);
  manifest ← fromPBResolvePathManifest (pbwManifest r);
  cursor ← optE (fun c => FromPBSourceCursor (Some c)) (pbwSourceCursor r);
  claim ← optE (fun c => FromPBSourceIngestClaim (Some c)) (pbwIngestClaim r);
  mret (MkPathReport records ((fun ref => FromPBSourceObjectRef (Some ref)) <$> pbwSourceObject r) cursor claim manifest
    (pbwKind r) (pbwRole r) (pbwInputPath r) (pbwPath r) (pbwPhysicalPath r) (pbwObjectDigest r) (pbwLogicalBytes r)
    (pbwAllocatedBytes r) (pbwEstimated r) (pbwRecordCount r) (pbwRecordsLimit r) (pbwTruncated r)).

End paths.

(** ** Operation records: [rpc/operation_pb.go] *)

Record OperationProgressEvent := MkProgress { opAt : Time; opStage : string; opMessage : string; opProgress : Any; opTotal : Any }.
Record OperationRecord := MkOperation {
  oeCreatedAt : Time; oeUpdatedAt : Time; oeCompletedAt : Time; oeProgress : list OperationProgressEvent; oeRequest : bytes;
  oeResult : bytes; oeOperationID : string; oeRequestHash : string; oeName : string; oeStatus : string; oeError : string }.

Record PbOperationProgressEvent := MkPbProgress {
  pbqAt : string; pbqStage : string; pbqMessage : string; pbqProgress : Any; pbqTotal : Any }.
Record PbOperationRecord := MkPbOperation {
  pbqOperationId : string; pbqRequestHash : string; pbqName : string; pbqRequestJson : bytes; pbqStatus : string;
  pbqProgressEvents : list PbOperationProgressEvent; pbqResultJson : bytes; pbqError : string; pbqCreatedAt : string;
  pbqUpdatedAt : string; pbqCompletedAt : string }.

Section operation_records.
Context `{!Codec}.

Definition ToPBOperationProgress : list OperationProgressEvent -> list PbOperationProgressEvent := map (fun e =>
  MkPbProgress (formatTime (opAt e)) (opStage e) (opMessage e) (opProgress e) (opTotal e)).

Definition FromPBOperationProgress : list PbOperationProgressEvent -> Res (list OperationProgressEvent) := mapE (fun e =>
  t ← parseTime (pbqAt e);
  mret (MkProgress t (pbqStage e) (pbqMessage e) (pbqProgress e) (pbqTotal e))).

Definition ToPBOperationRecord (r : OperationRecord) : PbOperationRecord :=
  MkPbOperation (oeOperationID r) (oeRequestHash r) (oeName r) (oeRequest r) (oeStatus r) (ToPBOperationProgress (oeProgress r))
    (oeResult r) (oeError r) (formatTime (oeCreatedAt r)) (formatTime (oeUpdatedAt r)) (formatTime (oeCompletedAt r)).

Definition FromPBOperationRecord (r : option PbOperationRecord) : Res OperationRecord :=
  match r with
  | None => mret (MkOperation zeroTime zeroTime zeroTime [] [] [] "" "" "" "" "")
  | Some r =>
      progress ← FromPBOperationProgress (pbqProgressEvents r);
      createdAt ← parseTime (pbqCreatedAt r);
      updatedAt ← parseTime (pbqUpdatedAt r);
      completedAt ← parseTime (pbqCompletedAt r);
      mret (MkOperation createdAt updatedAt completedAt progress (pbqRequestJson r) (pbqResultJson r) (pbqOperationId r)
        (pbqRequestHash r) (pbqName r) (pbqStatus r) (pbqError r))
  end.

End operation_records.

(** ** What the wire carries *)

(** Documented behaviour of [encoding/json] and of [time]: what was encoded is
    decoded again, numbers as [float64] and times as text. *)
Class CodecLaws `{!Codec} : Prop := {
  cl_map : forall m, m <> ∅ -> encodableMap m ->
    exists b, marshalMap m = inr b /\ b <> [] /\ unmarshalMap b = inr (jsonValue <$> m);
  cl_time : forall t, writable t = true -> rfc3339 t <> "" /\ parseRFC3339 (rfc3339 t) = inr t }.

Definition portableTime (t : Time) : bool := isZero t || writable t.

(** [from] undoes [to] up to [g] on the values that satisfy [P]. *)
Definition carries {A B C} (P : A -> Prop) (to : A -> Res B) (from : B -> Res C) (g : A -> C) : Prop :=
  forall a, P a -> exists b, to a = inr b /\ from b = inr (g a).

Lemma carries_mapE {A B C} P (to : A -> Res B) (from : B -> Res C) g :
  carries P to from g -> carries (Forall P) (mapE to) (mapE from) (map g).
Proof.
  intros H l Hl. induction Hl as [|x l Hx _ (ys & Hys & IH)]; [by eexists|]. destruct (H x Hx) as (y & Hy & Hf).
  exists (y :: ys). cbn. by rewrite Hy, Hys, Hf, IH.
Qed.

Lemma carries_optE {A B C} (P : A -> Prop) (to : A -> Res B) (from : B -> Res C) g :
  carries P to from g -> carries (fun o => forall a, o = Some a -> P a) (optE to) (optE from) (fmap g).
Proof.
  intros H [a|] Ho; [|by eexists]. destruct (H a (Ho a eq_refl)) as (b & Hb & Hf). exists (Some b). cbn. by rewrite Hb, Hf.
Qed.

Lemma map_id_Forall {A} (P : A -> Prop) f l : Forall P l -> (forall x, P x -> f x = x) -> map f l = l.
Proof. intros Hl Hf. induction Hl as [|x l Hx _ IH]; [done|]. cbn. by rewrite Hf, IH. Qed.

Lemma int32_fits z : fits32 z = true -> int32 z = z.
Proof. unfold fits32, int32. intros [?%Z.leb_le ?%Z.ltb_lt]%andb_true_iff. rewrite Z.mod_small; lia. Qed.

Lemma int32_range z : fits32 (int32 z) = true.
Proof.
  unfold fits32, int32. pose proof (Z.mod_pos_bound (z + 2 ^ 31) (2 ^ 32) ltac:(lia)).
  apply andb_true_iff. rewrite Z.leb_le, Z.ltb_lt. lia.
Qed.

Lemma clampInt32_spec z : clampInt32 z = Z.max (- 2 ^ 31) (Z.min (2 ^ 31 - 1) z).
Proof.
  unfold clampInt32. destruct (Z.ltb_spec (2 ^ 31 - 1) z); [lia|]. destruct (Z.ltb_spec z (- 2 ^ 31)); [lia|].
  rewrite int32_fits; [lia|]. unfold fits32. apply andb_true_iff. rewrite Z.leb_le, Z.ltb_lt. lia.
Qed.

Section laws.
Context {codec : Codec} {codecLaws : CodecLaws}.
#[local] Set Default Proof Using "Type*".

Lemma map_carried : carries encodableMap encodeMap decodeMap (fmap jsonValue).
Proof.
  intros m Hm. unfold encodeMap. destruct (bool_decide_reflect (m = ∅)) as [->|Hne].
  - exists []. by rewrite fmap_empty.
  - destruct (cl_map m Hne Hm) as (b & Hb & Hbne & Hu). exists b. rewrite Hb. split; [done|]. unfold decodeMap.
    destruct b; [done|]. by rewrite Hu.
Qed.

Lemma time_carried t : portableTime t = true -> parseTime (formatTime t) = inr t.
Proof.
  unfold portableTime, formatTime, parseTime. destruct (isZero t) eqn:Hz; cbn [orb]; intros Hw.
  - apply Z.eqb_eq in Hz as ->. done.
  - destruct (cl_time t Hw) as [Hne Hp]. by rewrite bool_decide_false.
Qed.

Lemma mustParse_carried t : portableTime t = true -> mustParseTime (formatTime t) = t.
Proof. intros Ht. unfold mustParseTime. by rewrite time_carried. Qed.

Lemma ref_carried ref : FromPBSourceObjectRef (Some (ToPBSourceObjectRef ref)) = ref.
Proof. by destruct ref. Qed.

(** Rewrite with everything a round trip has shown so far. *)
Ltac carry := cbn -[int32]; repeat match goal with H : _ = inr _ |- _ => rewrite H; cbn -[int32] end;
  rewrite ?int32_fits, ?time_carried, ?mustParse_carried by done; cbn -[int32].

Definition claim_ok (c : SourceIngestClaim) : Prop := portableTime (clAcquiredAt c) = true.

Lemma claim_carried c : claim_ok c -> FromPBSourceIngestClaim (Some (ToPBSourceIngestClaim c)) = inr c.
Proof. intros H. cbn. unfold mbind, Res_bind, wrap. rewrite time_carried by done. by destruct c as [? [] ?]. Qed.

Definition facet_ok (f : Facet) : Prop := encodableMap (fMetadata f) /\ encodableMap (fAttributes f).
Definition jsonFacet (f : Facet) : Facet :=
  MkFacet (jsonValue <$> fMetadata f) (jsonValue <$> fAttributes f) (fKind f) (fName f) (fVersion f).

Lemma facets_carried : carries (Forall facet_ok) ToPBFacets FromPBFacets (map jsonFacet).
Proof.
  apply carries_mapE. intros f [H1 H2]. destruct (map_carried _ H1) as (? & ? & ?), (map_carried _ H2) as (? & ? & ?).
  eexists. split; [carry; reflexivity|]. carry; reflexivity.
Qed.

Definition provenance_ok (p : Provenance) : Prop :=
  encodableMap (pMetadata p) /\ encodableMap (pAttributes p) /\ portableTime (pObservedAt p) = true.
Definition jsonProvenance (p : Provenance) : Provenance :=
  MkProvenance (pObservedAt p) (jsonValue <$> pMetadata p) (jsonValue <$> pAttributes p) (pSourceName p) (pSourceKind p)
    (pExternalID p) (pExternalVersion p) (pCapabilitiesSeen p).

Lemma provenance_carried : carries (Forall provenance_ok) ToPBProvenance FromPBProvenance (map jsonProvenance).
Proof.
  apply carries_mapE. intros p (H1 & H2 & H3). destruct (map_carried _ H1) as (? & ? & ?), (map_carried _ H2) as (? & ? & ?).
  eexists. split; [carry; reflexivity|]. carry; reflexivity.
Qed.

Definition part_ok (p : CompoundPart) : Prop := encodableMap (cpMetadata p) /\ fits32 (cpOrder p) = true.
Definition jsonPart (p : CompoundPart) : CompoundPart :=
  MkPart (jsonValue <$> cpMetadata p) (cpDigest p) (cpRole p) (cpOrder p) (cpRequired p).

Lemma parts_carried : carries (Forall part_ok) ToPBCompoundParts FromPBCompoundParts (map jsonPart).
Proof.
  apply carries_mapE. intros p (H1 & H2). destruct (map_carried _ H1) as (? & ? & ?). eexists. split; [carry; reflexivity|]. carry; reflexivity.
Qed.

Definition graph_ok (f : GraphFact) : Prop := encodableMap (gMetadata f).
Definition jsonGraph (f : GraphFact) : GraphFact := MkGraph (jsonValue <$> gMetadata f) (gSubject f) (gPredicate f) (gObject f).

Lemma graph_carried : carries (Forall graph_ok) ToPBGraphFacts FromPBGraphFacts (map jsonGraph).
Proof. apply carries_mapE. intros f H1. destruct (map_carried _ H1) as (? & ? & ?). eexists. split; [carry; reflexivity|]. carry; reflexivity. Qed.

Lemma relationships_carried l : Forall (fun r => fits32 (relOrder r) = true) l -> FromPBRelationships (ToPBRelationships l) = l.
Proof. unfold FromPBRelationships, ToPBRelationships. rewrite map_map. intros H. eapply map_id_Forall; [exact H|]. intros [] Hx. cbn -[int32]. by rewrite int32_fits. Qed.

Lemma embeddings_carried l : Forall (fun r => fits32 (eDimensions r) = true) l -> FromPBEmbeddingRefs (ToPBEmbeddingRefs l) = l.
Proof. unfold FromPBEmbeddingRefs, ToPBEmbeddingRefs. rewrite map_map. intros H. eapply map_id_Forall; [exact H|]. intros [] Hx. cbn -[int32]. by rewrite int32_fits. Qed.

Lemma titles_carried l : FromPBTitles (ToPBTitles l) = l.
Proof. unfold FromPBTitles, ToPBTitles. rewrite map_map. rewrite <- (map_id l) at 2. apply map_ext. by intros []. Qed.

(** Every map of the manifest can be written as JSON, every order as an [int32],
    every time as RFC 3339. *)
Record manifest_ok (m : Manifest) : Prop := {
  mo_analysis : encodableMap (mAnalysis m);
  mo_overlays : encodableMap (mOverlays m);
  mo_facets : Forall facet_ok (mFacets m);
  mo_provenance : Forall provenance_ok (mProvenance m);
  mo_relationships : Forall (fun r => fits32 (relOrder r) = true) (mRelationships m);
  mo_parts : Forall part_ok (cParts (mCompound m));
  mo_graph : Forall graph_ok (mGraph m);
  mo_embeddings : Forall (fun r => fits32 (eDimensions r) = true) (mEmbeddings m);
  mo_version : fits32 (mSchemaVersion m) = true;
  mo_times : forallb portableTime [tsCreated (mTimestamps m); tsModified (mTimestamps m); tsObserved (mTimestamps m);
    mCreatedAt m; mUpdatedAt m] = true }.

Definition jsonManifest (m : Manifest) : Manifest :=
  MkManifest (mTimestamps m) (mUpdatedAt m) (mCreatedAt m) (jsonValue <$> mOverlays m) (jsonValue <$> mAnalysis m)
    (mObjectDigest m) (mObjectID m) (mIdentityStrategy m) (mMediaType m) (mCompression m)
    (MkCompound (map jsonPart (cParts (mCompound m))) (cIsCompound (mCompound m))) (map jsonGraph (mGraph m)) (mRelationships m)
    (map jsonProvenance (mProvenance m)) (mTitles m) (mKeywords m) (mEmbeddings m) (map jsonFacet (mFacets m)) (mContentRoles m)
    (mSchemaVersion m) (mSize m).

Lemma manifest_carried : carries manifest_ok ToPBManifest (fun p => FromPBManifest (Some p)) jsonManifest.
Proof.
  intros m [Ha Ho Hf Hp Hr Hc Hg He Hv Ht]. cbn [forallb] in Ht. rewrite !andb_true_iff in Ht.
  destruct Ht as (T1 & T2 & T3 & T4 & T5 & _).
  destruct (map_carried _ Ha) as (? & ? & ?), (map_carried _ Ho) as (? & ? & ?), (facets_carried _ Hf) as (? & ? & ?),
    (provenance_carried _ Hp) as (? & ? & ?), (parts_carried _ Hc) as (? & ? & ?), (graph_carried _ Hg) as (? & ? & ?).
  eexists. split; [unfold ToPBManifest; carry; reflexivity|]. unfold FromPBManifest, getCompound. carry.
  rewrite relationships_carried, embeddings_carried, titles_carried by done. by destruct m as [[] ? ? ? ? ? ? ? ? ? [] ? ? ? ? ? ? ? ? ? ?].
Qed.

Definition annotation_ok (a : Annotation) : Prop :=
  encodableMap (aData a) /\ portableTime (aGeneratedAt a) = true /\ fits32 (aSchemaVersion a) = true.
Definition jsonAnnotation (a : Annotation) : Annotation :=
  MkAnnotation (aGeneratedAt a) (jsonValue <$> aData a) (aObjectDigest a) (aAnalyzerName a) (aAnalyzerVer a) (aKind a) (aSchemaVersion a).

Lemma annotation_carried : carries annotation_ok ToPBAnnotation (fun p => FromPBAnnotation (Some p)) jsonAnnotation.
Proof.
  intros a (Hd & Ht & Hv). destruct (map_carried _ Hd) as (? & ? & ?). eexists.
  split; [unfold ToPBAnnotation; carry; reflexivity|]. unfold FromPBAnnotation. carry. reflexivity.
Qed.

Definition projection_ok (o : ProjectionObject) : Prop := manifest_ok (poManifest o) /\ Forall annotation_ok (poAnnotations o).
Definition jsonProjection (o : ProjectionObject) : ProjectionObject :=
  MkProjection (poDigest o) (jsonManifest (poManifest o)) (map jsonAnnotation (poAnnotations o)) (poFindings o).

Lemma projection_carried : carries projection_ok ToPBProjectionObject (fun p => FromPBProjectionObject (Some p)) jsonProjection.
Proof.
  intros o (Hm & Ha). destruct (manifest_carried _ Hm) as (? & ? & ?), (carries_mapE _ _ _ _ annotation_carried _ Ha) as (? & ? & ?).
  eexists. split; [unfold ToPBProjectionObject, ToPBAnnotations; carry; reflexivity|].
  unfold FromPBProjectionObject, FromPBAnnotations. cbn [pbjManifest pbjAnnotations pbjFindings pbjDigest].
  unfold mbind, Res_bind. repeat match goal with H : _ = inr _ |- _ => rewrite H end. unfold mret, Res_ret, jsonProjection.
  rewrite map_map. f_equal. f_equal. rewrite <- (map_id (poFindings o)) at 2. apply map_ext. by intros [].
Qed.

Definition cursor_ok (c : SourceCursor) : Prop :=
  encodableMap (scCursor c) /\ portableTime (scUpdatedAt c) = true /\ fits32 (scSchemaVersion c) = true.
Definition jsonCursor (c : SourceCursor) : SourceCursor :=
  MkCursor (scUpdatedAt c) (jsonValue <$> scCursor c) (scSourceKind c) (scSourceName c) (scSchemaVersion c).

Lemma cursor_carried : carries cursor_ok ToPBSourceCursor (fun p => FromPBSourceCursor (Some p)) jsonCursor.
Proof.
  intros c (Hd & Ht & Hv). destruct (map_carried _ Hd) as (? & ? & ?). eexists.
  split; [unfold ToPBSourceCursor; carry; reflexivity|]. unfold FromPBSourceCursor. carry. reflexivity.
Qed.

Definition job_ok (j : AnalyzerJob) : Prop :=
  forallb fits32 [jSchemaVersion j; jAttempt j; jPriority j; spPriority (jAnalyzer j)] = true /\
  portableTime (jDeadline j) = true /\ portableTime (jCreatedAt j) = true.

(** The message has no field for the failure. *)
Definition withoutFailure (j : AnalyzerJob) : AnalyzerJob :=
  MkJob (jCreatedAt j) (jDeadline j) (jAnalyzer j) (jRequestedBy j) (jObjectDigest j) (jPriorityClass j) (jReason j) (jTraceID j) ""
    (jIdempotencyKey j) (jJobID j) (jSchemaVersion j) (jAttempt j) (jPriority j) (jForced j).

Lemma job_carried j : job_ok j -> FromPBAnalyzerJob (Some (ToPBAnalyzerJob j)) = inr (withoutFailure j).
Proof.
  intros (Hf & Hd & Hc). cbn [forallb] in Hf. rewrite !andb_true_iff in Hf. destruct Hf as (F1 & F2 & F3 & F4 & _).
  unfold FromPBAnalyzerJob, ToPBAnalyzerJob, FromPBAnalyzerSpec, ToPBAnalyzerSpec. carry. by destruct j as [? ? [] ? ? ? ? ? ? ? ? ? ? ? ?].
Qed.

Definition structurePart_ok (p : StructurePart) : Prop := encodableMap (stMetadata p) /\ fits32 (stOrder p) = true.
Definition jsonStructurePart (p : StructurePart) : StructurePart :=
  MkStructurePart (jsonValue <$> stMetadata p) (stDigest p) (stRole p) (stFacets p) (stOrder p) (stRequired p).

Lemma structurePart_carried : carries structurePart_ok toPBStructurePart fromPBStructurePart jsonStructurePart.
Proof.
  intros p (Hd & Hv). destruct (map_carried _ Hd) as (? & ? & ?). eexists.
  split; [unfold toPBStructurePart; carry; reflexivity|]. unfold fromPBStructurePart. carry. reflexivity.
Qed.

Lemma insertAll_map {A} (l : list (string * A)) (m0 : gmap string A) : NoDup (map fst l) ->
  foldl (fun m rp => <[rp.1 := rp.2]> m) m0 l = list_to_map l ∪ m0.
Proof.
  revert m0. induction l as [|[k v] l IH]; intros m0 Hn; cbn [foldl map] in *; [by rewrite list_to_map_nil, (left_id_L ∅ (∪))|].
  apply NoDup_cons in Hn as [Hk Hn]. rewrite IH by done. cbn [fst snd list_to_map foldr].
  rewrite <- insert_union_r by (by apply not_elem_of_list_to_map_1). apply insert_union_l.
Qed.

(** The order the map is visited in does not matter. *)
Lemma structure_carried (s : Structure) roles : roles ≡ₚ map_to_list (suPartsByRole s) -> fits32 (suSchemaVersion s) = true ->
  map_Forall (fun _ ps => Forall structurePart_ok ps) (suPartsByRole s) ->
  exists p, ToPBStructure roles s = inr p /\
    FromPBStructure (Some p) = inr (MkStructure (map jsonStructurePart <$> suPartsByRole s) (suObjectDigest s) (suObjectID s)
      (suFacets s) (suSchemaVersion s)).
Proof.
  intros Hr Hv Hp. set (g := fun rp : string * list StructurePart => (rp.1, map jsonStructurePart rp.2)).
  assert (carries (fun rp : string * list StructurePart => Forall structurePart_ok rp.2)
    (fun rp => parts ← mapE toPBStructurePart rp.2; mret (MkPbRoleParts rp.1 parts))
    (fun rp => parts ← mapE fromPBStructurePart (pbsParts rp); mret (pbsByRole rp, parts)) g) as Hc.
  { intros [r ps] H. destruct (carries_mapE _ _ _ _ structurePart_carried _ H) as (? & H1 & H2). eexists.
    cbn [snd fst] in *. rewrite H1. split; [reflexivity|]. cbn [pbsParts]. by rewrite H2. }
  apply carries_mapE in Hc. destruct (Hc roles) as (ps & H1 & H2).
  { rewrite Hr. apply Forall_forall. intros [r ps] Hin%elem_of_map_to_list. by apply (Hp r). }
  eexists. split; [unfold ToPBStructure; rewrite H1; reflexivity|]. unfold FromPBStructure. cbn [pbsPartsByRole].
  rewrite H2. cbn -[int32]. unfold mret, Res_ret. rewrite int32_fits by done. do 2 f_equal. rewrite insertAll_map.
  - rewrite (right_id_L ∅ (∪)). rewrite (list_to_map_proper _ (prod_map id (map jsonStructurePart) <$> map_to_list (suPartsByRole s))).
    + by rewrite list_to_map_fmap, list_to_map_to_list.
    + unfold g. rewrite map_map. cbn. rewrite Hr. apply NoDup_fst_map_to_list.
    + rewrite Hr. done.
  - unfold g. rewrite map_map. cbn. rewrite Hr. apply NoDup_fst_map_to_list.
Qed.

(** *** Reports *)

Definition storageFile_ok (f : StorageBreakdownFile) : Prop :=
  fits32 (sfCompoundOrder f) = true /\ 0 <= sfChunkCount f < 2 ^ 31 /\ sfPhysicalPath f = "".

(** Only the physical path, which is not for the reader, is left out. *)
Lemma storage_carried r : Forall storageFile_ok (srFiles r) -> fits32 (srFileCount r) = true -> fits32 (srReferencedObjectCount r) = true ->
  FromPBStorageBreakdown (ToPBStorageBreakdown r) = r.
Proof.
  intros Hf Hc Hr. unfold FromPBStorageBreakdown, ToPBStorageBreakdown. cbn -[int32]. rewrite !int32_fits by done.
  rewrite map_map. rewrite (map_id_Forall storageFile_ok); [by destruct r|done|]. intros [] (Ho & Hn & Hp). cbn in Ho, Hn, Hp |- *. subst.
  unfold clampNonNegativeInt32. destruct (Z.ltb_spec sfChunkCount0 0); [lia|]. rewrite !clampInt32_spec.
  unfold fits32 in Ho. apply andb_true_iff in Ho as [?%Z.leb_le ?%Z.ltb_lt]. f_equal; lia.
Qed.

Record record_ok (r : PathResolveRecord) : Prop := {
  ro_recovery : forall v, prRecovery r = Some v -> portableTime (pvCreatedAt v) = true;
  ro_parents : Forall (fun p => portableTime (ppUpdatedAt p) = true) (prParents r) }.

Lemma records_carried : carries (Forall record_ok) toPBResolvePathRecords fromPBResolvePathRecords id.
Proof.
  intros l Hl. exists (map toPBResolvePathRecord l). split; [done|]. unfold fromPBResolvePathRecords, id.
  induction Hl as [|r l [Hv Hp] _ IH]; [done|]. cbn [map mapE]. rewrite IH. destruct r as [src rec ps d c u]. cbn in Hv, Hp.
  assert (mapE (fun p => updatedAt ← wrap "parse parent updated_at" (parseTime (pbzUpdatedAt p));
    mret (MkPathParent (pbzParentDigest p) (pbzRole p) updatedAt))
    (map (fun p => MkPbPathParent (ppParentDigest p) (ppRole p) (formatTime (ppUpdatedAt p))) ps) = inr ps) as Hps.
  { induction Hp as [|[] ps Hx _ IHp]; [done|]. cbn [map mapE pbzUpdatedAt pbzParentDigest pbzRole ppParentDigest ppRole ppUpdatedAt].
    cbn in Hx. rewrite time_carried, IHp by done. done. }
  unfold toPBResolvePathRecord. cbn [pbxRecovery pbxParents pbxSourceObject pbxObjectDigest pbxChildDigest pbxUpdatedAt prParents prRecovery prSourceObject prObjectDigest prChildDigest prUpdatedAt].
  rewrite Hps. destruct rec as [[]|]; cbn [fmap option_fmap option_map optE pbvCreatedAt pvCreatedAt]; [rewrite time_carried by (by apply (Hv _ eq_refl))|];
    cbn [wrap]; unfold mbind, Res_bind, mret, Res_ret; by destruct src as [[]|].
Qed.

Definition pathManifest_ok (m : PathResolveManifest) : Prop := Forall provenance_ok (pnProvenance m) /\ Forall part_ok (pnParts m).
Definition jsonPathManifest (m : PathResolveManifest) : PathResolveManifest :=
  MkPathManifest (pnFacets m) (map jsonProvenance (pnProvenance m)) (map jsonPart (pnParts m)) (pnObjectDigest m) (pnObjectID m)
    (pnMediaType m) (pnSize m) (pnCompound m).

Lemma pathManifest_carried : carries (fun o => forall m, o = Some m -> pathManifest_ok m) toPBResolvePathManifest
  fromPBResolvePathManifest (fmap jsonPathManifest).
Proof.
  apply carries_optE. intros m (Hp & Hc). destruct (provenance_carried _ Hp) as (? & ? & ?), (parts_carried _ Hc) as (? & ? & ?).
  eexists. split; [carry; reflexivity|]. carry. reflexivity.
Qed.

Record path_ok (r : PathResolveReport) : Prop := {
  pk_records : Forall record_ok (ptRecords r);
  pk_manifest : forall m, ptManifest r = Some m -> pathManifest_ok m;
  pk_cursor : forall c, ptSourceCursor r = Some c -> cursor_ok c;
  pk_claim : forall c, ptIngestClaim r = Some c -> claim_ok c;
  pk_counts : fits32 (ptRecordCount r) = true /\ fits32 (ptRecordsLimit r) = true }.

Lemma path_carried r : path_ok r -> exists p, ToPBResolvePath r = inr p /\
  FromPBResolvePath p = inr (MkPathReport (ptRecords r) (ptSourceObject r) (jsonCursor <$> ptSourceCursor r) (ptIngestClaim r)
    (jsonPathManifest <$> ptManifest r) (ptKind r) (ptRole r) (ptInputPath r) (ptPath r) (ptPhysicalPath r) (ptObjectDigest r)
    (ptLogicalBytes r) (ptAllocatedBytes r) (ptEstimated r) (ptRecordCount r) (ptRecordsLimit r) (ptTruncated r)).
Proof.
  intros [Hr Hm Hc Hl [H1 H2]]. destruct (records_carried _ Hr) as (rs & R1 & R2), (pathManifest_carried _ Hm) as (ms & M1 & M2),
    (carries_optE _ _ _ _ cursor_carried _ Hc) as (cs & C1 & C2).
  eexists. unfold ToPBResolvePath, FromPBResolvePath. rewrite R1, M1, C1. split; [reflexivity|].
  cbn [pbwRecords pbwManifest pbwSourceCursor pbwIngestClaim]. rewrite R2, M2, C2. cbn -[int32 FromPBSourceIngestClaim]. rewrite !int32_fits by done.
  assert (optE (fun c => FromPBSourceIngestClaim (Some c)) (ToPBSourceIngestClaim <$> ptIngestClaim r) = inr (ptIngestClaim r)) as ->.
  { destruct (ptIngestClaim r) as [c|]; [|done]. cbn [fmap option_fmap option_map optE]. by rewrite claim_carried by auto. }
  cbn. unfold mret, Res_ret. do 2 f_equal. by destruct (ptSourceObject r) as [[]|].
Qed.

Definition operation_ok (r : OperationRecord) : Prop :=
  Forall (fun e => portableTime (opAt e) = true) (oeProgress r) /\
  forallb portableTime [oeCreatedAt r; oeUpdatedAt r; oeCompletedAt r] = true.

Lemma operation_carried r : operation_ok r -> FromPBOperationRecord (Some (ToPBOperationRecord r)) = inr r.
Proof.
  intros (Hp & Ht). cbn [forallb] in Ht. rewrite !andb_true_iff in Ht. destruct Ht as (T1 & T2 & T3 & _).
  assert (FromPBOperationProgress (ToPBOperationProgress (oeProgress r)) = inr (oeProgress r)) as Hpr.
  { induction Hp as [|[] ps Hx _ IHp]; [done|]. unfold FromPBOperationProgress, ToPBOperationProgress in *. cbn [map mapE pbqAt opAt].
    cbn in Hx. rewrite time_carried, IHp by done. done. }
  unfold FromPBOperationRecord, ToPBOperationRecord. cbn [pbqProgressEvents]. rewrite Hpr. carry. by destruct r.
Qed.

(** *** Values of JSON's own types come back as they were *)

Fixpoint native (v : Any) : bool :=
  match v with
  | AInt _ | ATime _ => false
  | AList l => (fix go (l : list Any) : bool := match l with [] => true | x :: r => native x && go r end) l
  | AMap m => (fix go (m : list (string * Any)) : bool := match m with [] => true | (_, x) :: r => native x && go r end) m
  | _ => true
  end.

Fixpoint native_json (v : Any) : native v = true -> jsonValue v = v.
Proof.
  destruct v as [| | | | | |l|m]; cbn; try done; intros H.
  - f_equal. induction l as [|x l IH]; [done|]. apply andb_true_iff in H as [Hx Hl]. cbn. by rewrite native_json, IH.
  - f_equal. induction m as [|[k x] m IH]; [done|]. apply andb_true_iff in H as [Hx Hl]. by rewrite native_json, IH.
Qed.

Definition nativeMap (m : anyMap) : Prop := map_Forall (fun _ v => native v = true) m.

Lemma nativeMap_json m : nativeMap m -> jsonValue <$> m = m.
Proof.
  intros H. apply map_eq. intros k. rewrite lookup_fmap. destruct (m !! k) as [v|] eqn:Hv; [|done]. cbn. by rewrite native_json by by apply (H k).
Qed.

(** Numbers and flags read the same after a trip. *)
Lemma int_json v : intFromAny (jsonValue <$> v) = intFromAny v.
Proof. destruct v as [[]|]; cbn; try done. apply Z.quot_1_r. Qed.

Lemma bool_json v : boolFromAny (jsonValue <$> v) = boolFromAny v.
Proof. by destruct v as [[]|]. Qed.

Record native_manifest (m : Manifest) : Prop := {
  nm_maps : Forall nativeMap [mAnalysis m; mOverlays m];
  nm_facets : Forall (fun f => nativeMap (fMetadata f) /\ nativeMap (fAttributes f)) (mFacets m);
  nm_provenance : Forall (fun p => nativeMap (pMetadata p) /\ nativeMap (pAttributes p)) (mProvenance m);
  nm_parts : Forall (fun p => nativeMap (cpMetadata p)) (cParts (mCompound m));
  nm_graph : Forall (fun f => nativeMap (gMetadata f)) (mGraph m) }.

Lemma native_jsonManifest m : native_manifest m -> jsonManifest m = m.
Proof.
  intros [Hm Hf Hp Hc Hg]. apply Forall_cons in Hm as [Ha [Ho _]%Forall_cons]. unfold jsonManifest.
  rewrite (map_id_Forall _ jsonPart _ Hc) by (intros [] H; cbv [jsonPart]; cbn; by rewrite nativeMap_json).
  rewrite (map_id_Forall _ jsonGraph _ Hg) by (intros [] H; cbv [jsonGraph]; cbn; by rewrite nativeMap_json).
  rewrite (map_id_Forall _ jsonProvenance _ Hp) by (intros [] [H1 H2]; cbv [jsonProvenance]; cbn in *; by rewrite !nativeMap_json).
  rewrite (map_id_Forall _ jsonFacet _ Hf) by (intros [] [H1 H2]; cbv [jsonFacet]; cbn in *; by rewrite !nativeMap_json).
  rewrite !nativeMap_json by done. by destruct m as [? ? ? ? ? ? ? ? ? ? [] ? ? ? ? ? ? ? ? ? ?].
Qed.

End laws.

(** ** Main properties *)


(** A dead letter says why it died; the message does not.  [ToPBAnalyzerJob]
    has no field for the failure, so a client that lists dead letters is shown
    jobs without one. *)
Theorem dead_letter_failure_lost `{!Codec, !CodecLaws} (j : AnalyzerJob) :
  job_ok j -> FromPBAnalyzerJob (Some (ToPBAnalyzerJob j)) = inr (withoutFailure j).
Proof. apply job_carried. Qed.

(** ** A concrete codec *)

(** Values as trees: a node per constructor, a node per entry of a map. *)
Fixpoint tree_of (v : Any) : gen_tree (string + Z) :=
  match v with
  | ANil => GenNode 0 []
  | ABool b => GenNode 1 [GenLeaf (inr (if b then 1 else 0))]
  | AInt z => GenNode 2 [GenLeaf (inr z)]
  | AFloat n d => GenNode 3 [GenLeaf (inr n); GenLeaf (inr (Zpos d))]
  | AStr s => GenNode 4 [GenLeaf (inl s)]
  | ATime t => GenNode 5 [GenLeaf (inr t)]
  | AList l => GenNode 6 (map tree_of l)
  | AMap m => GenNode 7 (map (fun kx => GenNode 8 [GenLeaf (inl kx.1); tree_of kx.2]) m)
  end.

Fixpoint of_tree (t : gen_tree (string + Z)) : Any :=
  match t with
  | GenNode 1 [GenLeaf (inr b)] => ABool (b =? 1)
  | GenNode 2 [GenLeaf (inr z)] => AInt z
  | GenNode 3 [GenLeaf (inr n); GenLeaf (inr (Zpos d))] => AFloat n d
  | GenNode 4 [GenLeaf (inl s)] => AStr s
  | GenNode 5 [GenLeaf (inr t)] => ATime t
  | GenNode 6 l => AList (map of_tree l)
  | GenNode 7 l => AMap (map (fun c => match c with GenNode 8 [GenLeaf (inl k); x] => (k, of_tree x) | _ => ("", ANil) end) l)
  | _ => ANil
  end.

Fixpoint of_tree_of (v : Any) : of_tree (tree_of v) = v.
Proof.
  destruct v as [|b|z|n d|s|t|l|m]; try reflexivity.
  - destruct b; reflexivity.
  - cbn. f_equal. induction l as [|x l IH]; [reflexivity|]. cbn. by rewrite of_tree_of, IH.
  - cbn. f_equal. induction m as [|[k x] m IH]; [reflexivity|]. cbn. by rewrite of_tree_of, IH.
Qed.

Fixpoint pos_bytes (p : positive) : bytes :=
  match p with xH => [Byte.x01] | xO p => Byte.x02 :: pos_bytes p | xI p => Byte.x03 :: pos_bytes p end.

Fixpoint bytes_pos (b : bytes) : positive :=
  match b with Byte.x02 :: r => xO (bytes_pos r) | Byte.x03 :: r => xI (bytes_pos r) | _ => xH end.

Lemma bytes_pos_bytes p : bytes_pos (pos_bytes p) = p.
Proof. induction p as [p IH|p IH|]; cbn; by rewrite ?IH. Qed.

#[local] Instance treeCodec : Codec := {|
  rfc3339 t := String.string_of_list_byte (pos_bytes (encode t));
  parseRFC3339 s := match decode (bytes_pos (String.list_byte_of_string s)) with Some t => inr t | None => inl (ErrMsg "time") end;
  marshalMap m := inr (pos_bytes (encode (map (prod_map id tree_of) (map_to_list ((fix go v := match v with
      | AInt z => AFloat z 1
      | ATime t => AStr (String.string_of_list_byte (pos_bytes (encode t)))
      | AList l => AList (map go l)
      | AMap m => AMap ((fix goM (m : list (string * Any)) := match m with [] => [] | (k, x) :: r => (k, go x) :: goM r end) m)
      | v => v end) <$> m)))));
  unmarshalMap b := match decode (bytes_pos b) with
    | Some l => inr (list_to_map (map (prod_map id of_tree) l)) | None => inl (ErrMsg "json") end |}.

#[local] Instance treeCodecLaws : CodecLaws.
Proof.
  split.
  - intros m _ _. eexists. split; [reflexivity|]. split; [by destruct (encode _)|]. cbn [unmarshalMap treeCodec].
    rewrite bytes_pos_bytes, decode_encode, map_map. f_equal. rewrite (map_ext _ id); [|intros [k v]; cbn; by rewrite of_tree_of].
    rewrite map_id, list_to_map_to_list. done.
  - intros t _. cbn [rfc3339 parseRFC3339 treeCodec]. rewrite String.list_byte_of_string_of_list_byte, bytes_pos_bytes, decode_encode.
    split; [by destruct (encode t)|done].
Qed.

(** A stored page with an annotation. *)
Definition exPortable : ProjectionObject :=
  MkProjection "d" (MkManifest noTimestamps 7 5 {["note" := AStr "x"]} ∅ "d" "d" "file_blake3" "text/plain" "zstd"
    (MkCompound [MkPart {["filename" := AStr "a"]} "p" "body" 1 true] true) [] [MkRel "contains" "d" "p" "body" "s" 1]
    [MkProvenance 3 ∅ ∅ "inbox" "imap" "1" "" []] [] ["k"] [] [MkFacet {["version_count" := AFloat 2 1]} ∅ "document" "" ""] ["text"] 1 4)
    [MkAnnotation 9 {["status" := AStr "complete"]} "d" "an" "1" "analysis" 1] [].

Lemma exPortable_ok : projection_ok exPortable.
Proof.
  split; [split|]; unfold facet_ok, provenance_ok, part_ok, graph_ok, annotation_ok, encodableMap;
    apply (bool_decide_unpack _); vm_compute; exact I.
Qed.


Definition exJob : AnalyzerJob := MkJob 5 zeroTime noSpec "cli" "d" "repair" "" "" "model unavailable" "key" "id" 1 3 5 false.

Lemma dead_letter_failure_lost_witness :
  job_ok exJob /\ jFailure exJob <> "" /\ FromPBAnalyzerJob (Some (ToPBAnalyzerJob exJob)) = inr (withoutFailure exJob).
Proof. split; [done|]. split; [done|]. apply (dead_letter_failure_lost exJob). done. Defined.

End Pb.
