(* ===== verification/RpcFilestore.v ===== *)
(** * FILESTORE over gRPC: [rpc/filestore_server.go], [rpc/filestore_client.go], [rpc/retry.go]

    The server hands requests to its store and queues a notice for every object
    it changed; a batcher sends the notices to the scheduler.  The client
    converts requests and answers ([RpcConvert]), retries unary calls, and keeps
    small objects in a cache.  The network may lose a request or a reply.  The
    store is any [StoreOps]; a call that never returns is [Panic]. *)

From stdpp Require Import options.
From S2P Require Import Prelude GoLib Contracts Lru Chunker Manifest Meta Concrete ChunkStore SourceIngest ObjectStore Gc Projection Preserve Jobs WorkerStore SourceService RpcConvert.

Local Open Scope Z_scope.

Module Rpc.
Import Source Pb.

(** ** Change notices *)

Definition notifyBatchMax : Z := 256.

Record changeNotice := MkNotice { cnDigest : ObjectDigest; cnPriorityClass : string; cnProjectionOnly : bool }.

(** The variables of [runNotifyBatcher]. *)
Record Batcher := MkBatcher {
  btChanged : gmap string (list ObjectDigest); btChangedCount : Z; btProjection : list ObjectDigest }.

Inductive batchEvent := BNotice (notice : changeNotice) | BTick | BClosed.

Definition newBatcher : Batcher := MkBatcher ∅ 0 [].

(** The request [flushChangeBatch] sends; a failure is only logged. *)
Definition flushChangeBatch (digests : list ObjectDigest) (projectionOnly : bool) (priorityClass : string) : ObjectChangeRequest :=
  MkChange priorityClass "filestore" (if projectionOnly then "projection_refresh" else "object_changed") "" SchemaVersionPhase00
    digests projectionOnly.

(** [flush]; [visit] is the order the [range] loop takes over the map.  The code
    reuses the array of the digests it has sent; the notifier does not keep it. *)
Definition flush (visit : list (string * list ObjectDigest) -> list (string * list ObjectDigest)) (b : Batcher) :
    Batcher * list ObjectChangeRequest :=
  let changed := map (fun cd => flushChangeBatch cd.2 false cd.1)
    (List.filter (fun cd => negb (bool_decide (cd.2 = []))) (visit (map_to_list (btChanged b)))) in
  let projection := if bool_decide (btProjection b = []) then [] else [flushChangeBatch (btProjection b) true ""] in
  (MkBatcher ∅ 0 [], changed ++ projection).

Definition addNotice (notice : changeNotice) (b : Batcher) : Batcher :=
  if cnProjectionOnly notice then MkBatcher (btChanged b) (btChangedCount b) (btProjection b ++ [cnDigest notice])
  else MkBatcher (<[cnPriorityClass notice := default [] (btChanged b !! cnPriorityClass notice) ++ [cnDigest notice]]> (btChanged b))
         (btChangedCount b + 1) (btProjection b).

(** One round of the [select] loop. *)
Definition batchStep (visit : list (string * list ObjectDigest) -> list (string * list ObjectDigest)) (b : Batcher) (e : batchEvent) :
    Batcher * list ObjectChangeRequest :=
  match e with
  | BNotice notice =>
      let b := addNotice notice b in
      if (notifyBatchMax <=? btChangedCount b) || (notifyBatchMax <=? Z.of_nat (length (btProjection b))) then flush visit b
      else (b, [])
  | BTick | BClosed => flush visit b
  end.

(** The requests of a run; it ends when the channel is closed. *)
Fixpoint runNotifyBatcher (visit : list (string * list ObjectDigest) -> list (string * list ObjectDigest)) (b : Batcher)
    (events : list batchEvent) : list ObjectChangeRequest :=
  match events with
  | [] => []
  | BClosed :: _ => (batchStep visit b BClosed).2
  | e :: r => let '(b', out) := batchStep visit b e in out ++ runNotifyBatcher visit b' r
  end.

(** *** Every notice is delivered once *)

(** The digests of the notices of a class, of the projection notices, and of the
    requests for either, in order. *)
Definition ofClass (c : string) (n : changeNotice) : bool := negb (cnProjectionOnly n) && bool_decide (cnPriorityClass n = c).
Definition noticed (p : changeNotice -> bool) (ns : list changeNotice) : list ObjectDigest := map cnDigest (List.filter p ns).
Definition requested (p : ObjectChangeRequest -> bool) (rs : list ObjectChangeRequest) : list ObjectDigest :=
  concat (map ocObjectDigests (List.filter p rs)).
Definition forClass (c : string) (r : ObjectChangeRequest) : bool := negb (ocProjectionOnly r) && bool_decide (ocPriorityClass r = c).

Definition noticesOf (es : list batchEvent) : list changeNotice :=
  omap (fun e => match e with BNotice n => Some n | _ => None end) es.

(** A request the scheduler can take: not empty, within the limit, with the
    reason of its kind. *)
Definition wellFormed (r : ObjectChangeRequest) : Prop :=
  ocObjectDigests r <> [] /\ Z.of_nat (length (ocObjectDigests r)) <= notifyBatchMax /\
  ocReason r = (if ocProjectionOnly r then "projection_refresh" else "object_changed").

(** What is waiting stays below the limit. *)
Record batch_ok (b : Batcher) : Prop := {
  bo_count : 0 <= btChangedCount b < notifyBatchMax;
  bo_projection : Z.of_nat (length (btProjection b)) < notifyBatchMax;
  bo_classes : forall c l, btChanged b !! c = Some l -> Z.of_nat (length l) <= btChangedCount b }.

Lemma new_batch_ok : batch_ok newBatcher.
Proof. split; [done..|]. intros c l. cbn. by rewrite lookup_empty. Qed.

(** A class has one entry of the map, wherever it is visited. *)
Lemma class_entry {A} (m : gmap string (list A)) l c : l ≡ₚ map_to_list m ->
  concat (map snd (List.filter (fun cd => bool_decide (cd.1 = c)) l)) = default [] (m !! c).
Proof.
  intros Hl. assert (NoDup (map fst l)) as Hn by (rewrite Hl; apply NoDup_fst_map_to_list).
  assert (forall v, m !! c = Some v <-> (c, v) ∈ l) as Hm by (intros v; rewrite Hl; by rewrite elem_of_map_to_list).
  revert Hm. generalize (m !! c) as o. clear Hl. induction l as [|[k v] l IH]; intros o Hm; cbn [List.filter map].
  - destruct o as [v|]; [|done]. assert ((c, v) ∈ []) as H by (by apply Hm). inversion H.
  - apply NoDup_cons in Hn as [Hk Hn]. cbn [fst]. case_bool_decide as Hc.
    + subst k. assert (o = Some v) as -> by (apply Hm; left). cbn. rewrite (IH Hn None), app_nil_r; [done|].
      intros v'. split; [done|]. intros Hin. destruct Hk. by apply (list_elem_of_fmap_2 fst) in Hin.
    + apply IH; [done|]. intros v'. rewrite Hm, elem_of_cons. split; [|auto]. intros [[= <- <-]|?]; done.
Qed.

Section batches.
Context (visit : list (string * list ObjectDigest) -> list (string * list ObjectDigest)) (visits : forall l, visit l ≡ₚ l).
#[local] Set Default Proof Using "Type*".

Lemma requested_app p rs1 rs2 : requested p (rs1 ++ rs2) = requested p rs1 ++ requested p rs2.
Proof using Type. unfold requested. by rewrite List.filter_app, map_app, concat_app. Qed.

Lemma flush_class c b : requested (forClass c) (flush visit b).2 = default [] (btChanged b !! c).
Proof.
  cbn [flush snd]. rewrite requested_app. transitivity (default [] (btChanged b !! c) ++ []); [f_equal|apply app_nil_r].
  - rewrite <- (class_entry (btChanged b) (visit (map_to_list (btChanged b))) c) by apply visits.
    generalize (visit (map_to_list (btChanged b))) as l. unfold requested. induction l as [|[k v] l IH]; [done|].
    cbn [List.filter snd]. case_bool_decide as Hv; cbn [negb map List.filter fst].
    + rewrite IH. case_bool_decide; [|done]. by subst.
    + unfold forClass at 1. cbn [flushChangeBatch ocProjectionOnly ocPriorityClass negb andb]. case_bool_decide; [cbn; by rewrite IH|done].
  - by destruct (bool_decide _).
Qed.

Lemma flush_projection b : requested ocProjectionOnly (flush visit b).2 = btProjection b.
Proof using Type.
  cbn [flush snd]. rewrite requested_app. transitivity ([] ++ btProjection b); [f_equal|done].
  - match goal with |- context [map _ ?cds] => induction cds as [|x l IH]; [done|exact IH] end.
  - case_bool_decide as H; [by rewrite H|]. cbn. by rewrite app_nil_r.
Qed.

Lemma flush_wellFormed b : batch_ok b \/ (exists n b0, batch_ok b0 /\ b = addNotice n b0) -> Forall wellFormed (flush visit b).2.
Proof.
  intros Hb. assert (Z.of_nat (length (btProjection b)) <= notifyBatchMax /\
    (forall c l, btChanged b !! c = Some l -> Z.of_nat (length l) <= notifyBatchMax)) as [Hp Hc].
  { destruct Hb as [[H1 H2 H3]|(n & b0 & [H1 H2 H3] & ->)].
    - split; [lia|]. intros c l Hl%H3. lia.
    - unfold addNotice. destruct (cnProjectionOnly n); cbn; rewrite ?length_app; cbn.
      + split; [lia|]. intros c l Hl%H3. lia.
      + split; [lia|]. intros c l. destruct (decide (cnPriorityClass n = c)) as [->|Hne].
        * rewrite lookup_insert_eq. intros [= <-]. rewrite length_app. cbn.
          destruct (btChanged b0 !! c) as [l'|] eqn:Hl'; cbn; [apply H3 in Hl'|]; unfold notifyBatchMax in *; lia.
        * rewrite lookup_insert_ne by done. intros Hl%H3. lia. }
  cbn [flush snd]. apply Forall_app. split.
  - apply Forall_fmap, Forall_forall. intros [c l] [Hin Hne]%list_elem_of_In%filter_In. cbn in Hne |- *.
    apply negb_true_iff, bool_decide_eq_false in Hne. split; [done|]. split; [|done]. apply (Hc c).
    apply elem_of_map_to_list. rewrite <- (visits (map_to_list _)). by apply list_elem_of_In.
  - case_bool_decide; [constructor|]. repeat constructor; done.
Qed.

Lemma flush_ok b : batch_ok (flush visit b).1.
Proof using Type. exact new_batch_ok. Qed.

Lemma addNotice_class c n b : default [] (btChanged (addNotice n b) !! c) = default [] (btChanged b !! c) ++ noticed (ofClass c) [n].
Proof using Type.
  unfold addNotice, noticed, ofClass. cbn [List.filter]. destruct (cnProjectionOnly n); cbn [negb andb map btChanged]; [by rewrite app_nil_r|].
  case_bool_decide as Hc; cbn.
  - subst c. by rewrite lookup_insert_eq.
  - rewrite lookup_insert_ne by done. by rewrite app_nil_r.
Qed.

Lemma addNotice_projection n b : btProjection (addNotice n b) = btProjection b ++ noticed cnProjectionOnly [n].
Proof using Type. unfold addNotice, noticed. cbn [List.filter]. destruct (cnProjectionOnly n); cbn; by rewrite ?app_nil_r. Qed.

Lemma addNotice_ok n b : batch_ok b -> btChangedCount (addNotice n b) < notifyBatchMax ->
  Z.of_nat (length (btProjection (addNotice n b))) < notifyBatchMax -> batch_ok (addNotice n b).
Proof using Type.
  intros [H1 H2 H3] Hc Hp. split; [|done|]; [unfold addNotice in *; destruct (cnProjectionOnly n); cbn in *; lia|]. intros c l. unfold addNotice. destruct (cnProjectionOnly n); cbn; [apply H3|].
  destruct (decide (cnPriorityClass n = c)) as [->|Hne].
  - rewrite lookup_insert_eq. intros [= <-]. rewrite length_app. cbn. destruct (btChanged b !! c) as [l'|] eqn:Hl'; cbn; [apply H3 in Hl'|]; lia.
  - rewrite lookup_insert_ne by done. intros Hl%H3. lia.
Qed.

Lemma noticed_app p ns1 ns2 : noticed p (ns1 ++ ns2) = noticed p ns1 ++ noticed p ns2.
Proof using Type. unfold noticed. by rewrite List.filter_app, map_app. Qed.

(** A round delivers what was waiting, or keeps it. *)
Lemma batchStep_round b e : batch_ok b -> e <> BClosed ->
  let '(b', out) := batchStep visit b e in
  batch_ok b' /\ Forall wellFormed out /\
  (forall c, requested (forClass c) out ++ default [] (btChanged b' !! c) = default [] (btChanged b !! c) ++ noticed (ofClass c) (noticesOf [e])) /\
  requested ocProjectionOnly out ++ btProjection b' = btProjection b ++ noticed cnProjectionOnly (noticesOf [e]).
Proof.
  intros Hb He. destruct e as [n| |]; [|..|done]; cbn [batchStep noticesOf omap list_omap].
  - destruct ((_ <=? _) || _) eqn:Hfull.
    + pose proof (flush_wellFormed (addNotice n b) ltac:(eauto)). pose proof (fun c => flush_class c (addNotice n b)) as Hcl.
      pose proof (flush_projection (addNotice n b)) as Hpr. destruct (flush visit (addNotice n b)) as [b' out] eqn:Hf.
      injection Hf as <- Hout. cbn [snd] in *. split; [exact new_batch_ok|]. split; [done|]. split.
      * intros c. rewrite Hcl. cbn [btChanged]. rewrite lookup_empty. cbn. by rewrite app_nil_r, addNotice_class.
      * rewrite Hpr. cbn. by rewrite app_nil_r, addNotice_projection.
    + apply orb_false_iff in Hfull as [?%Z.leb_gt ?%Z.leb_gt]. split; [by apply addNotice_ok|]. split; [constructor|].
      split; [intros c; apply addNotice_class|apply addNotice_projection].
  - pose proof (flush_wellFormed b ltac:(auto)). pose proof (fun c => flush_class c b) as Hcl.
    pose proof (flush_projection b) as Hpr. destruct (flush visit b) as [b' out] eqn:Hf.
    injection Hf as <- Hout. cbn [snd] in *. split; [exact new_batch_ok|]. split; [done|]. split.
    + intros c. rewrite Hcl. cbn [btChanged]. by rewrite lookup_empty.
    + by rewrite Hpr.
Qed.

Lemma run_delivers b es : batch_ok b -> Forall (fun e => e <> BClosed) es ->
  let out := runNotifyBatcher visit b (es ++ [BClosed]) in
  Forall wellFormed out /\
  (forall c, requested (forClass c) out = default [] (btChanged b !! c) ++ noticed (ofClass c) (noticesOf es)) /\
  requested ocProjectionOnly out = btProjection b ++ noticed cnProjectionOnly (noticesOf es).
Proof.
  intros Hb Hes. revert b Hb. induction Hes as [|e es He _ IH]; intros b Hb; cbn [app].
  - cbn [runNotifyBatcher batchStep noticesOf omap list_omap]. split; [apply flush_wellFormed; auto|].
    split; [intros c; rewrite flush_class; by rewrite app_nil_r|rewrite flush_projection; by rewrite app_nil_r].
  - pose proof (batchStep_round b e Hb He) as Hr. destruct (batchStep visit b e) as [b' out] eqn:Hs.
    assert (runNotifyBatcher visit b (e :: es ++ [BClosed]) = out ++ runNotifyBatcher visit b' (es ++ [BClosed])) as ->.
    { destruct e; cbn [runNotifyBatcher]; [by rewrite Hs..|done]. }
    destruct Hr as (Hb' & Hw & Hc & Hp). destruct (IH b' Hb') as (Hw' & Hc' & Hp').
    assert (noticesOf (e :: es) = noticesOf [e] ++ noticesOf es) as -> by (by destruct e).
    split; [by apply Forall_app|]. split.
    + intros c. rewrite requested_app, Hc', noticed_app, !app_assoc. f_equal. apply Hc.
    + rewrite requested_app, Hp', noticed_app, !app_assoc. f_equal. apply Hp.
Qed.

End batches.

(** ** The server *)

(** [filestore.Store], as the handlers use it. *)
Class StoreOps (W : Type) := {
  soLookupSourceObject : SourceObjectRef -> SM W (option ObjectDigest);
  soTryAcquireSourceIngest : SourceObjectRef -> SM W (option SourceIngestClaim);
  soReleaseSourceIngest : SourceIngestClaim -> SM W unit;
  soPut : PutRequest -> SM W ObjectDigest;
  soAttachProvenance : ObjectDigest -> list Provenance -> SM W bool;
  soPutCompound : CompoundPutRequest -> SM W ObjectDigest;
  soReadManifest : ObjectDigest -> SM W Manifest;
  soHasAnalysisAnnotation : ObjectDigest -> string -> string -> SM W bool;
  soWriteAnnotation : Annotation -> SM W unit;
  soWriteOverlays : ObjectDigest -> anyMap -> SM W unit;
  soProjectionObject : ObjectDigest -> SM W (option ProjectionObject);
  soDeleteObject : ObjectDigest -> SM W unit }.

(** [changes] is [None] without a notifier, else what was sent on the channel. *)
Record Server (W : Type) := MkServer { srvStore : W; srvChanges : option (list changeNotice) }.
Arguments MkServer {W} _ _.
Arguments srvStore {W} _.
Arguments srvChanges {W} _.

Definition NewFilestoreServer {W} (store : W) (notifier : bool) : Server W :=
  MkServer store (if notifier then Some [] else None).

(** [status.Error(code, ...)]; of an error only the code crosses the wire. *)
Definition status (code : string) : GoError := ErrVar ("codes." +:+ code).

Definition isStatus (e : GoError) : bool := match e with ErrVar v => HasPrefix v "codes." | _ => false end.

(** What the caller sees of the error a handler returned. *)
Definition overWire (e : GoError) : GoError :=
  if isStatus e then e else match e with ErrCtx => status "Canceled" | _ => status "Unknown" end.

Definition lift {S A} (r : Res A) : SM S A := match r with inl e => sfail e | inr a => mret a end.

Definition orInvalid {S A} (r : Res A) : SM S A := match r with inl _ => sfail (status "InvalidArgument") | inr a => mret a end.

Record PbPutCompoundRequest := MkPbPutCompound {
  pqObjectId : string; pqMediaType : string; pqSourceHint : string; pqContentRoles : list string; pqFacets : list PbFacet;
  pqProvenance : list PbProvenance; pqRelationships : list PbRelationship; pqParts : list PbCompoundPart; pqPriorityClass : string }.

Record PbPutObjectStart := MkPbPutStart {
  psMediaType : string; psSourceHint : string; psContentRoles : list string; psFacets : list PbFacet;
  psProvenance : list PbProvenance; psRelationships : list PbRelationship; psPriorityClass : string }.

Inductive PbPutObjectFrame := FStart (start : PbPutObjectStart) | FData (data : bytes) | FFinish | FEmpty.

Section server.
Context {W : Type} `{!Codec, !StoreOps W}.

Abbreviation Srv := (SM (Server W)).

Definition onStore {A} (m : SM W A) : Srv A := fun s => let '(r, w) := m (srvStore s) in (r, MkServer w (srvChanges s)).

Definition enqueueChange (notice : changeNotice) : Srv unit :=
  smodify (fun s => MkServer (srvStore s) ((fun l => l ++ [notice]) <$> srvChanges s)).

Definition enqueueObjectChanged (digest : ObjectDigest) (priorityClass : string) : Srv unit :=
  enqueueChange (MkNotice digest priorityClass false).

Definition enqueueProjectionRefresh (digest : ObjectDigest) : Srv unit := enqueueChange (MkNotice digest "" true).

Definition LookupSourceObject (ref : option PbSourceObjectRef) : Srv (option ObjectDigest) :=
  onStore (soLookupSourceObject (FromPBSourceObjectRef ref)).

Definition TryAcquireSourceIngest (ref : option PbSourceObjectRef) : Srv (PbSourceIngestClaim * bool) :=
  claim ← onStore (soTryAcquireSourceIngest (FromPBSourceObjectRef ref));
  mret (ToPBSourceIngestClaim (default noClaim claim), bool_decide (is_Some claim)).

Definition ReleaseSourceIngest (claim : option PbSourceIngestClaim) : Srv unit :=
  claim ← orInvalid (FromPBSourceIngestClaim claim);
  onStore (soReleaseSourceIngest claim).

Definition AttachProvenance (digest : ObjectDigest) (provenance : list PbProvenance) (priorityClass : string) : Srv unit :=
  provenance ← orInvalid (FromPBProvenance provenance);
  changed ← onStore (soAttachProvenance digest provenance);
  if changed : bool then enqueueObjectChanged digest priorityClass else mret tt.

Definition PutCompound (r : PbPutCompoundRequest) : Srv ObjectDigest :=
  facets ← orInvalid (FromPBFacets (pqFacets r));
  provenance ← orInvalid (FromPBProvenance (pqProvenance r));
  parts ← orInvalid (FromPBCompoundParts (pqParts r));
  digest ← onStore (soPutCompound (MkCompoundPut (pqObjectId r) (pqMediaType r) (pqSourceHint r) (pqContentRoles r) facets provenance
    (FromPBRelationships (pqRelationships r)) parts));
  _ ← enqueueObjectChanged digest (pqPriorityClass r);
  mret digest.

Definition ReadManifest (digest : ObjectDigest) : Srv PbManifest :=
  r ← stry (onStore (soReadManifest digest));
  match r with
  | inl e => if isNotExist e then sfail (status "NotFound") else sfail e
  | inr manifest => lift (ToPBManifest manifest)
  end.

Definition HasAnalysisAnnotation (digest : ObjectDigest) (analyzerName analyzerVersion : string) : Srv bool :=
  onStore (soHasAnalysisAnnotation digest analyzerName analyzerVersion).

Definition WriteAnnotation (annotation : option PbAnnotation) : Srv unit :=
  annotation ← orInvalid (FromPBAnnotation annotation);
  _ ← onStore (soWriteAnnotation annotation);
  enqueueProjectionRefresh (aObjectDigest annotation).

Definition WriteOverlays (digest : ObjectDigest) (overlaysJson : bytes) : Srv unit :=
  overlays ← orInvalid (decodeMap overlaysJson);
  _ ← onStore (soWriteOverlays digest overlays);
  enqueueProjectionRefresh digest.

Definition GetProjectionObject (digest : ObjectDigest) : Srv (option PbProjectionObject) :=
  object ← onStore (soProjectionObject digest);
  match object with
  | None => mret None
  | Some object =>
      match ToPBProjectionObject object with inl _ => sfail (status "Internal") | inr p => mret (Some p) end
  end.

Definition DeleteObject (digest : ObjectDigest) : Srv unit := onStore (soDeleteObject digest).

(** *** [PutObject]: a stream of frames feeds a pipe, [Put] reads from it *)

(** The writes to the pipe, how it is closed, and an error the handler returns
    itself; [last] is what [Recv] returns after the frames. *)
Fixpoint feedPipe (frames : list PbPutObjectFrame) (last : readErr) : list bytes * readErr * option GoError :=
  match frames with
  | [] => match last with ReadErr e => ([], ReadErr e, Some e) | _ => ([], EOF, None) end
  | FFinish :: _ => ([], EOF, None)
  | FData data :: r => let '(ws, e, err) := feedPipe r last in (data :: ws, e, err)
  | _ :: _ => ([], ReadErr (ErrMsg "PutObject frame must be data or finish"), Some (status "InvalidArgument"))
  end.

(** What a reader of the pipe gets: the writes, then how it was closed. *)
Definition pipe (writes : list bytes) (close : readErr) : Reader := MkReader (map (fun b => (b, NoErr)) writes ++ [([], close)]) [].

(** Whether [put] asks for more than the first [k] writes: with nothing but a
    broken pipe after them it fails with that break. *)
Definition asksFor (put : Reader -> SM W ObjectDigest) (writes : list bytes) (w : W) (k : nat) : bool :=
  match (put (pipe (take k writes) (ReadErr (ErrVar "broken pipe"))) w).1 with Err e => isVar "broken pipe" e | _ => false end.

Fixpoint countWhile (p : nat -> bool) (more k : nat) : nat :=
  match more with
  | O => k
  | Datatypes.S more => if p k then countWhile p more (k + 1) else k
  end.

(** How many of the writes [put] takes before it returns. *)
Definition taken (put : Reader -> SM W ObjectDigest) (writes : list bytes) (w : W) : nat :=
  countWhile (asksFor put writes w) (length writes) 0.

(** A write to the pipe waits for a reader, and nobody closes the reading end:
    one that [Put] does not take never completes. *)
Definition PutObject (frames : list PbPutObjectFrame) (last : readErr) : Srv ObjectDigest :=
  match frames with
  | [] => sfail (match last with ReadErr e => e | _ => ErrVar "io.EOF" end)
  | FStart start :: frames =>
      facets ← orInvalid (FromPBFacets (psFacets start));
      provenance ← orInvalid (FromPBProvenance (psProvenance start));
      let '(writes, close, err) := feedPipe frames last in
      let put := fun reader => soPut (MkPut reader (psMediaType start) (psSourceHint start) (psContentRoles start) facets provenance
        (FromPBRelationships (psRelationships start))) in
      reads ← sget (fun s => taken put writes (srvStore s));
      r ← stry (onStore (put (pipe writes close)));
      if (reads <? length writes)%nat then spanic None else
      match err, r with
      | Some e, _ => sfail e
      | None, inl e => sfail e
      | None, inr digest => _ ← enqueueObjectChanged digest (psPriorityClass start); mret digest
      end
  | _ :: _ => sfail (status "InvalidArgument")
  end.

End server.

(** ** The network and the retries *)

Inductive transportCode := Unavailable | DeadlineExceeded | Canceled | Internal.

Definition codeName (c : transportCode) : string :=
  match c with
  | Unavailable => "Unavailable" | DeadlineExceeded => "DeadlineExceeded" | Canceled => "Canceled" | Internal => "Internal"
  end.

(** What becomes of a call: it goes through, it does not reach the server, or the
    server runs it and the reply is lost. *)
Inductive delivery := Delivered | LostRequest (code : transportCode) | LostReply (code : transportCode).

Definition clientContentCacheBytes : Z := 64 * 2 ^ 20.
Definition clientContentMaxObjectBytes : Z := 2 ^ 20.

(** [ctWaits] says of every backoff to come whether the context ended first. *)
Record Client (W : Type) := MkClient {
  ctServer : Server W; ctNet : list delivery; ctWaits : list bool; ctContentCache : SizedLru.SizedLRU string }.
Arguments MkClient {W} _ _ _ _.
Arguments ctServer {W} _.
Arguments ctNet {W} _.
Arguments ctWaits {W} _.
Arguments ctContentCache {W} _.

Definition NewFilestoreClient {W} (server : Server W) (net : list delivery) : Client W :=
  MkClient server net [] (SizedLru.NewSizedLRU clientContentCacheBytes).

Definition grpcRetryAttempts : nat := 5.

(** [status.Code(err)] is one of the codes, or the error is a broken connection's. *)
Definition retryableGRPCError (e : GoError) : bool :=
  isVar "codes.Unavailable" e || isVar "codes.Aborted" e || isVar "codes.ResourceExhausted" e || isVar "codes.DeadlineExceeded" e ||
  isVar "io.ErrUnexpectedEOF" e || isVar "net.ErrClosed" e.

Section client.
Context {W : Type} `{!Codec, !StoreOps W}.

Abbreviation Cli := (SM (Client W)).

Definition set_server (s : Server W) (c : Client W) : Client W := MkClient s (ctNet c) (ctWaits c) (ctContentCache c).
Definition set_cache (cc : SizedLru.SizedLRU string) (c : Client W) : Client W := MkClient (ctServer c) (ctNet c) (ctWaits c) cc.
Definition set_net (l : list delivery) (c : Client W) : Client W := MkClient (ctServer c) l (ctWaits c) (ctContentCache c).

(** One attempt of a call. *)
Definition invoke {A} (handler : SM (Server W) A) : Cli A := fun c =>
  let net := tail (ctNet c) in
  let '(r, s) := handler (ctServer c) in
  match head (ctNet c), r with
  | Some (LostRequest code), _ => (Err (status (codeName code)), set_net net c)
  | _, Panic => (Panic, set_server s (set_net net c))
  | Some (LostReply code), _ => (Err (status (codeName code)), set_server s (set_net net c))
  | _, Ok a => (Ok a, set_server s (set_net net c))
  | _, Err e => (Err (overWire e), set_server s (set_net net c))
  end.

(** The [select] between the timer and the context. *)
Definition backoff : Cli unit := fun c =>
  let c' := MkClient (ctServer c) (ctNet c) (tail (ctWaits c)) (ctContentCache c) in
  match head (ctWaits c) with Some true => (Err ErrCtx, c') | _ => (Ok tt, c') end.

(** The loop of [retryUnaryClientInterceptor] with [more] attempts after this. *)
Fixpoint retryUnary {A} (more : nat) (handler : SM (Server W) A) : Cli A :=
  r ← stry (invoke handler);
  match r, more with
  | inr a, _ => mret a
  | inl e, O => sfail e
  | inl e, S more =>
      if negb (retryableGRPCError e) then sfail e else
      _ ← backoff;
      retryUnary more handler
  end.

Definition call {A} (handler : SM (Server W) A) : Cli A := retryUnary (grpcRetryAttempts - 1) handler.

(** ** The client *)

Definition clLookupSourceObject (ref : SourceObjectRef) : Cli (option ObjectDigest) :=
  call (LookupSourceObject (Some (ToPBSourceObjectRef ref))).

Definition clTryAcquireSourceIngest (ref : SourceObjectRef) : Cli (option SourceIngestClaim) :=
  response ← call (TryAcquireSourceIngest (Some (ToPBSourceObjectRef ref)));
  claim ← lift (FromPBSourceIngestClaim (Some response.1));
  mret (if response.2 : bool then Some claim else None).

Definition clReleaseSourceIngest (claim : SourceIngestClaim) : Cli unit :=
  call (ReleaseSourceIngest (Some (ToPBSourceIngestClaim claim))).

Definition clAttachProvenanceWithPriority (digest : ObjectDigest) (provenance : list Provenance) (priorityClass : string) : Cli unit :=
  converted ← lift (ToPBProvenance provenance);
  call (AttachProvenance digest converted priorityClass).

Definition clAttachProvenance (digest : ObjectDigest) (provenance : list Provenance) : Cli unit :=
  clAttachProvenanceWithPriority digest provenance "".

Definition clPutCompound (request : RpcCompoundPut) : Cli ObjectDigest :=
  let r := rcPut request in
  facets ← lift (ToPBFacets (cpFacets r));
  provenance ← lift (ToPBProvenance (cpProvenance r));
  parts ← lift (ToPBCompoundParts (cpParts r));
  call (PutCompound (MkPbPutCompound (cpObjectID r) (cpMediaType r) (cpSourceHint r) (cpContentRoles r) facets provenance
    (ToPBRelationships (cpRelationships r)) parts (rcPriorityClass request))).

Definition clReadManifest (digest : ObjectDigest) : Cli Manifest :=
  r ← stry (call (ReadManifest digest));
  match r with
  | inl e => if isVar "codes.NotFound" e then sfail (ErrWrap "NotFound" ErrNotExist) else sfail e
  | inr manifest => lift (FromPBManifest (Some manifest))
  end.

Definition clHasAnalysisAnnotation (digest : ObjectDigest) (analyzerName analyzerVersion : string) : Cli bool :=
  call (HasAnalysisAnnotation digest analyzerName analyzerVersion).

Definition clWriteAnnotation (annotation : Annotation) : Cli unit :=
  converted ← lift (ToPBAnnotation annotation);
  call (WriteAnnotation (Some converted)).

Definition clWriteOverlays (digest : ObjectDigest) (overlays : anyMap) : Cli unit :=
  encoded ← lift (encodeMap overlays);
  call (WriteOverlays digest encoded).

Definition clProjectionObject (digest : ObjectDigest) : Cli (option ProjectionObject) :=
  response ← call (GetProjectionObject digest);
  match response with
  | None => mret None
  | Some object => object ← lift (FromPBProjectionObject (Some object)); mret (Some object)
  end.

Definition clDeleteObject (digest : ObjectDigest) : Cli unit := call (DeleteObject digest).

(** The frames [Put] sends for the reads of its reader, and its read error: it
    then returns without a word, and the server sees the stream end. *)
Fixpoint putFrames (script : list (bytes * readErr)) : list PbPutObjectFrame * option GoError :=
  match script with
  | [] => ([FFinish], None)
  | (b, e) :: r =>
      let data := match b with [] => [] | _ => [FData b] end in
      match e with
      | EOF => (data ++ [FFinish], None)
      | ReadErr e => (data, Some e)
      | NoErr => let '(frames, err) := putFrames r in (data ++ frames, err)
      end
  end.

(** Streams are not retried. *)
Definition clPut (request : RpcPut) : Cli ObjectDigest :=
  let r := rpPut request in
  facets ← lift (ToPBFacets (prFacets r));
  provenance ← lift (ToPBProvenance (prProvenance r));
  let start := FStart (MkPbPutStart (prMediaType r) (prSourceHint r) (prContentRoles r) facets provenance
    (ToPBRelationships (prRelationships r)) (rpPriorityClass request)) in
  let '(frames, err) := putFrames (script (prReader r)) in
  match err with
  | Some e => _ ← stry (invoke (PutObject (start :: frames) (ReadErr (status "Canceled")))); sfail e
  | None => invoke (PutObject (start :: frames) EOF)
  end.

End client.

(** ** Uploads *)

(** The reads of plain writes. *)
Definition plainReads (writes : list bytes) : list (bytes * readErr) := map (fun b => (b, NoErr)) writes.

(** A buffer filled from the first writes is the same whatever comes after them,
    or a break after them is met. *)
Lemma fill_cut e rest ws : forall buf sn f1 f2 b1 eof r1, (length ws < f2)%nat ->
  fillLoop f1 buf false (MkReader (plainReads ws ++ rest) sn) = Some (b1, eof, r1, None) ->
  (exists ws' sn', eof = false /\ chunkMaxSize <= blen b1 /\ r1 = MkReader (plainReads ws' ++ rest) sn' /\
     (length b1 + length (concat ws') = length buf + length (concat ws))%nat /\
     fillLoop f2 buf false (MkReader (plainReads ws ++ [([], ReadErr e)]) sn) =
       Some (b1, false, MkReader (plainReads ws' ++ [([], ReadErr e)]) sn', None)) \/
  exists b2 r2, fillLoop f2 buf false (MkReader (plainReads ws ++ [([], ReadErr e)]) sn) = Some (b2, false, r2, Some e).
Proof.
  induction ws as [|w ws IH]; intros buf sn f1 f2 b1 eof r1 Hf; (destruct f2 as [|f2]; [cbn in Hf; lia|]); destruct f1 as [|f1];
    cbn [fillLoop negb andb]; rewrite ?andb_true_r; destruct (Z.ltb_spec (blen buf) chunkMaxSize) as [Hlt|Hge]; try done.
  - intros [= <- <- <-]. left. by exists [], sn.
  - intros _. right. cbn. eauto.
  - intros [= <- <- <-]. left. by exists [], sn.
  - intros [= <- <- <-]. left. by exists (w :: ws), sn.
  - cbn. intros H. destruct (IH (buf ++ w) (sn ++ w) f1 f2 b1 eof r1) as [(ws' & sn' & H1 & H2 & H3 & H4 & H5)|H1]; [cbn in Hf; lia|exact H|..].
    + left. exists ws', sn'. rewrite !length_app in *. split_and!; try done. lia.
    + by right.
  - intros [= <- <- <-]. left. by exists (w :: ws), sn.
Qed.

(** A stream that succeeds asks for every write before its end. *)
Lemma stream_cut {S} (fn : bytes -> S -> option GoError * S) (J : S -> Prop) e rest f1 : forall f2 ws buf t1 t2 sn st t r st',
  (forall c s s', fn c s = (None, s') -> J s') -> J st -> (length buf + length (concat ws) < f2)%nat ->
  streamLoop fn f1 buf false t1 (MkReader (plainReads ws ++ rest) sn) st = Some (t, None, r, st') ->
  exists t' r' st2, streamLoop fn f2 buf false t2 (MkReader (plainReads ws ++ [([], ReadErr e)]) sn) st = Some (t', Some e, r', st2) /\ J st2.
Proof.
  induction f1 as [|f1 IH]; intros f2 ws buf t1 t2 sn st t r st' HJ Hst Hf; [done|]. destruct f2 as [|f2]; [lia|]. cbn [streamLoop].
  destruct (fillLoop _ buf false (MkReader (plainReads ws ++ rest) sn)) as [[[[b1 eof] r1] err]|] eqn:Hfill; [|done]. cbn [mbind option_bind script].
  destruct err as [e1|]; [done|]. intros Hrun.
  assert (length ws < Datatypes.S (length (plainReads ws ++ [([], ReadErr e)])))%nat as Hws
    by (rewrite length_app; unfold plainReads; rewrite length_map; lia).
  destruct (fill_cut e rest ws _ _ _ _ _ _ _ Hws Hfill) as [(ws' & sn' & -> & Hb & -> & Hlen & ->)|(b2 & r2 & ->)];
    [|cbn [mbind option_bind]; eauto 10].
  cbn [mbind option_bind]. destruct (nextChunkCut_bounds b1 maskS maskL) as (Hcb & _ & Hpos).
  destruct b1 as [|x b] eqn:Eb; [unfold blen, chunkMaxSize in Hb; cbn in Hb; lia|]. rewrite <- Eb in *. specialize (Hpos ltac:(by subst)).
  destruct (fn _ st) as [[e1|] s1] eqn:Hfn; [done|]. eapply IH; [done|by eapply HJ| |exact Hrun].
  rewrite length_zdrop. unfold blen in *. lia.
Qed.

Lemma streamM_cut {E : Ext} {B} ws rest e (acc : B) fn s x s' :
  streamM (MkReader (plainReads ws ++ rest) []) acc fn s = (Ok x, s') ->
  exists s2, streamM (MkReader (plainReads ws ++ [([], ReadErr e)]) []) acc fn s = (Err e, s2).
Proof.
  unfold streamM, streamChunks. destruct (streamLoop _ _ _ _ _ (MkReader (plainReads ws ++ rest) []) _) as [[[[t [e1|]] r] [[s1 a1] b1]]|] eqn:Hrun;
    [by destruct b1| |done]. intros _.
  assert (forall c st st', streamCallback fn c st = (None, st') -> st'.2 = false) as HJ.
  { intros c [[s0 a0] b0] [[s3 a3] b3]. unfold streamCallback. destruct (fn a0 c s0) as [[]]; by intros [= <- <- <-]. }
  assert (length ([] : bytes) + length (concat ws) < streamFuel (MkReader (plainReads ws ++ [([], ReadErr e)]) []))%nat as Hf.
  { unfold streamFuel. cbn [script]. rewrite fmap_app, concat_app. cbn. rewrite app_nil_r.
    replace ((plainReads ws).*1) with ws; [lia|]. unfold plainReads. clear. induction ws as [|w l IH]; cbn; congruence. }
  destruct (stream_cut (streamCallback fn) (fun st => st.2 = false) e rest _ _ ws [] 0 0 [] (s, acc, false) _ _ _ HJ eq_refl Hf Hrun)
    as (t' & r' & [[s2 a2] b2] & -> & Hb). cbn in Hb. subst b2. eauto.
Qed.

(** A put that succeeds asks for every write. *)
Lemma put_cut {E : Ext} ws1 ws2 close e mt h cr f p rel s d s' :
  ObjectStore.Put (MkPut (pipe (ws1 ++ ws2) close) mt h cr f p rel) s = (Ok d, s') ->
  (ObjectStore.Put (MkPut (pipe ws1 (ReadErr e)) mt h cr f p rel) s).1 = Err e.
Proof.
  unfold ObjectStore.Put, preparePut, storeBlobReaderBatched. cbn [prReader prFacets prMediaType prContentRoles script pipe].
  unfold mbind, M_bind. destruct (ctxErr s) as [[[]|e1|] s1]; [|done..]. destruct (check _ s1) as [[[]|e2|] s2]; [|done..].
  destruct (ctxErr s2) as [[[]|e3|] s3]; [|done..]. cbn zeta. rewrite map_app, <- app_assoc.
  destruct (streamM _ _ _ s3) as [[x|e4|] s4] eqn:Hs; [|done..]. intros _.
  destruct (streamM_cut ws1 _ e _ _ _ _ _ Hs) as [s5 H5]. fold (plainReads ws1). by rewrite H5.
Qed.

Lemma countWhile_all p more k : (forall j, (k <= j < k + more)%nat -> p j = true) -> countWhile p more k = (k + more)%nat.
Proof.
  revert k. induction more as [|more IH]; intros k Hp; cbn [countWhile]; [lia|]. rewrite Hp by lia. rewrite IH; [lia|].
  intros j Hj. apply Hp. lia.
Qed.

Lemma put_takes_all {E : Ext} writes close mt h cr f p rel s d s' :
  ObjectStore.Put (MkPut (pipe writes close) mt h cr f p rel) s = (Ok d, s') ->
  taken (fun reader => ObjectStore.Put (MkPut reader mt h cr f p rel)) writes s = length writes.
Proof.
  intros Hput. unfold taken. rewrite countWhile_all; [done|]. intros j _. unfold asksFor.
  rewrite <- (take_drop j writes) in Hput. by rewrite (put_cut _ _ _ (ErrVar "broken pipe") _ _ _ _ _ _ _ _ _ Hput).
Qed.

(** ** The worker's contract over gRPC *)

(** [keeps] from one state. *)
Definition kept {S A} (inv : S -> Prop) (rec : S -> ObjectDigest -> string -> Prop) (m : SM S A) (P : A -> S -> Prop) (s : S) : Prop :=
  inv (m s).2 /\ (forall d n, rec s d n -> rec (m s).2 d n) /\
  match (m s).1 with Ok a => P a (m s).2 | Err _ => True | Panic => False end.

Lemma kept_ret {S A} inv rec (a : A) (P : A -> S -> Prop) (s : S) : inv s -> P a s -> kept inv rec (mret a) P s.
Proof. by split. Qed.

Lemma kept_fail {S A} inv rec e (P : A -> S -> Prop) (s : S) : inv s -> kept inv rec (sfail e) P s.
Proof. by split. Qed.

Lemma kept_bind {S A B} inv rec (m : SM S A) (f : A -> SM S B) P Q (s : S) : kept inv rec m P s ->
  (forall a s', inv s' -> P a s' -> kept inv rec (f a) Q s') -> kept inv rec (m ≫= f) Q s.
Proof.
  unfold kept, mbind, SM_bind. intros (H1 & H2 & H3) Hf. destruct (m s) as [[a|e|] s1]; cbn in *; [|done|done].
  destruct (Hf a s1 H1 H3) as (F1 & F2 & F3). split; [done|]. split; [|done]. intros d n Hr. by apply F2, H2.
Qed.

Lemma kept_try {S A} inv rec (m : SM S A) P (s : S) : kept inv rec m P s ->
  kept inv rec (stry m) (fun r s' => forall a, r = inr a -> P a s') s.
Proof.
  unfold kept, stry. intros (H1 & H2 & H3). destruct (m s) as [[a|e|] s1]; cbn in *; [| |done]; split; [done|split; [done|]| |];
    [by intros ? [= <-]|done|by split].
Qed.

Lemma kept_lift {S A} inv rec (r : Res A) (s : S) : inv s -> kept inv rec (lift r) (fun a _ => r = inr a) s.
Proof. intros H. destruct r; by split. Qed.

Lemma kept_orInvalid {S A} inv rec (r : Res A) (s : S) : inv s -> kept inv rec (orInvalid r) (fun a _ => r = inr a) s.
Proof. intros H. destruct r; by split. Qed.

(** What arrives of an annotation: its names and version as they are, and its
    data as JSON leaves it. *)
Lemma annotation_arrives `{!Codec, !CodecLaws} a p a' : ToPBAnnotation a = inr p -> FromPBAnnotation (Some p) = inr a' ->
  aObjectDigest a' = aObjectDigest a /\ aAnalyzerName a' = aAnalyzerName a /\ aAnalyzerVer a' = aAnalyzerVer a /\
  aKind a' = aKind a /\ (encodableMap (aData a) -> aData a' = jsonValue <$> aData a).
Proof.
  unfold ToPBAnnotation, FromPBAnnotation, mbind, Res_bind. destruct (encodeMap (aData a)) as [|b] eqn:Hb; [done|]. intros [= <-].
  cbn [pbaGeneratedAt pbaDataJson]. destruct (wrap _ _); [done|]. destruct (decodeMap b) as [|m] eqn:Hm; [done|]. intros [= <-]. cbn.
  split_and!; [done..|]. intros He. destruct (map_carried _ He) as (b' & Hb' & Hm'). congruence.
Qed.

(** Errors of the codec are errors of syntax. *)
Class CodecErrors `{!Codec} : Prop := {
  ce_map : forall b e, unmarshalMap b = inl e -> isNotExist e = false;
  ce_time : forall s e, parseRFC3339 s = inl e -> isNotExist e = false }.

(** Every error of [r] satisfies [P]. *)
Definition errs {A} (P : GoError -> Prop) (r : Res A) : Prop := forall e, r = inl e -> P e.

Lemma errs_ret {A} P (a : A) : errs P (mret a).
Proof. done. Qed.

Lemma errs_bind {A B} P (m : Res A) (f : A -> Res B) : errs P m -> (forall a, errs P (f a)) -> errs P (m ≫= f).
Proof. intros Hm Hf. destruct m as [e|a]; [|apply Hf]. intros e' [= <-]. by apply Hm. Qed.

Lemma errs_mapE {A B} P (f : A -> Res B) l : (forall a, errs P (f a)) -> errs P (mapE f l).
Proof. intros Hf. induction l as [|x l IH]; [done|]. cbn [mapE]. by repeat (apply errs_bind; [done|intros ?]). Qed.

Lemma encodeMap_errs `{!Codec} m : errs (fun e => isStatus e = false) (encodeMap m).
Proof. unfold encodeMap. destruct (bool_decide _); [done|]. destruct (marshalMap m); [by intros e [= <-]|done]. Qed.

Lemma ToPBManifest_errs `{!Codec} m : errs (fun e => isStatus e = false) (ToPBManifest m).
Proof.
  unfold ToPBManifest, ToPBFacets, ToPBProvenance, ToPBCompoundParts, ToPBGraphFacts.
  repeat first [apply errs_bind; [|intros ?] | apply errs_mapE; intros ? | apply encodeMap_errs | apply errs_ret].
Qed.

Section codec_errors.
Context {codec : Codec} {codecErrors : CodecErrors}.
#[local] Set Default Proof Using "Type*".

Lemma decodeMap_errs b : errs (fun e => isNotExist e = false) (decodeMap b).
Proof. unfold decodeMap. destruct b as [|x b]; [done|]. destruct (unmarshalMap _) eqn:He; [|done]. intros e [= <-]. by apply (ce_map _ _ He). Qed.

Lemma parseTime_errs msg t : errs (fun e => isNotExist e = false) (wrap msg (parseTime t)).
Proof. unfold parseTime. destruct (bool_decide _); [done|]. destruct (parseRFC3339 t) eqn:He; [|done]. intros e [= <-]. by apply (ce_time _ _ He). Qed.

Lemma FromPBManifest_errs m : errs (fun e => isNotExist e = false) (FromPBManifest m).
Proof.
  destruct m as [m|]; [|done]. unfold FromPBManifest, FromPBFacets, FromPBProvenance, FromPBCompoundParts, FromPBGraphFacts.
  repeat first [apply errs_bind; [|intros ?] | apply errs_mapE; intros ? | apply decodeMap_errs | apply parseTime_errs | apply errs_ret].
Qed.

End codec_errors.

(** Of the store's errors none is a gRPC status. *)
Class StoreErrors (W : Type) `{!StoreOps W} : Prop := {
  se_read : forall d w e, (soReadManifest d w).1 = Err e -> isStatus e = false }.

#[export] Instance opsStore {W} `{!StoreOps W} : Jobs.ObjectStore W := {
  osReadManifest := soReadManifest;
  osHasAnalysisAnnotation := soHasAnalysisAnnotation;
  osWriteAnnotation := soWriteAnnotation }.

#[export] Instance clientStore {W} `{!Codec, !StoreOps W} : Jobs.ObjectStore (Client W) := {
  osReadManifest := clReadManifest;
  osHasAnalysisAnnotation := clHasAnalysisAnnotation;
  osWriteAnnotation := clWriteAnnotation }.

Section contract.
Context {W : Type} {codec : Codec} {codecLaws : CodecLaws} {codecErrors : CodecErrors} {ops : StoreOps W}
  {storeErrors : StoreErrors W} {laws : ObjectStoreLaws W}.
#[local] Set Default Proof Using "Type*".

Definition serverInv (s : Server W) : Prop := os_inv (srvStore s).
Definition serverRec (s : Server W) : ObjectDigest -> string -> Prop := recorded (srvStore s).
Definition clientInv (c : Client W) : Prop := serverInv (ctServer c).
Definition clientRec (c : Client W) : ObjectDigest -> string -> Prop := serverRec (ctServer c).
Definition serverAnn (s : Server W) : ObjectDigest -> string -> Annotation -> Prop := annotation (srvStore s).
Definition clientAnn (c : Client W) : ObjectDigest -> string -> Annotation -> Prop := serverAnn (ctServer c).

(** Data that can be sent, and what becomes of a value. *)
Definition wireSent (m : anyMap) : Prop := encodableMap m /\ sent W (jsonValue <$> m).
Definition wireValue (v : Any) : Any := value W (jsonValue v).

Lemma kept_onStore {A} (m : SM W A) P s : keeps os_inv recorded m P -> serverInv s ->
  kept serverInv serverRec (onStore m) (fun a s' => P a (srvStore s')) s.
Proof using Type.
  intros H Hs. specialize (H _ Hs). unfold kept, onStore, serverInv, serverRec. destruct (m (srvStore s)) as [r w]. cbn in *. by destruct r.
Qed.

Lemma kept_enqueue n s : serverInv s -> kept serverInv serverRec (enqueueChange n) (fun _ s' => srvStore s' = srvStore s) s.
Proof using Type. by split. Qed.

Lemma kept_invoke {A} (h : SM (Server W) A) P c : (forall s, serverInv s -> kept serverInv serverRec h P s) -> clientInv c ->
  kept clientInv clientRec (invoke h) (fun a c' => P a (ctServer c')) c.
Proof using Type.
  intros Hh Hc. destruct (Hh (ctServer c) Hc) as (H1 & H2 & H3). unfold kept, invoke, clientInv, clientRec in *.
  destruct (h (ctServer c)) as [[a|e|] s]; cbn in H1, H2, H3; [| |done]; destruct (head (ctNet c)) as [[|code|code]|]; cbn; by split_and!.
Qed.

Lemma kept_call {A} (h : SM (Server W) A) P c : (forall s, serverInv s -> kept serverInv serverRec h P s) -> clientInv c ->
  kept clientInv clientRec (call h) (fun a c' => P a (ctServer c')) c.
Proof using Type.
  intros Hh. unfold call. generalize (grpcRetryAttempts - 1)%nat as more. intros more. revert c.
  induction more as [|more IH]; intros c Hc; cbn [retryUnary]; (eapply kept_bind; [by apply kept_try, kept_invoke|]); cbn beta;
    intros [e|a] c1 H1 Ha; try (apply kept_ret; [done|by apply Ha]).
  - by apply kept_fail.
  - destruct (negb _); [by apply kept_fail|]. eapply (kept_bind _ _ _ _ (fun _ _ => True)).
    + unfold kept, backoff. destruct (head (ctWaits c1)) as [[]|]; by split.
    + intros [] c2 H2 _. by apply IH.
Qed.

Lemma kept_has d n v c : clientInv c ->
  kept clientInv clientRec (clHasAnalysisAnnotation d n v) (fun b c' => b = true -> exists x, clientAnn c' d n x /\ complete n v x) c.
Proof using Type.
  intros Hc. apply (kept_call _ (fun b s' => b = true -> exists x, serverAnn s' d n x /\ complete n v x)); [|done]. intros s Hs.
  by apply (kept_onStore _ (fun b s' => b = true -> exists x, annotation s' d n x /\ complete n v x)); [exact (os_has d n v)|].
Qed.

Lemma stored_arrived a a' x : aObjectDigest a' = aObjectDigest a /\ aAnalyzerName a' = aAnalyzerName a /\
  aAnalyzerVer a' = aAnalyzerVer a /\ aKind a' = aKind a /\ (encodableMap (aData a) -> aData a' = jsonValue <$> aData a) ->
  stored_as (sent W) (value W) a' x -> stored_as wireSent wireValue a x.
Proof using Type.
  intros (H1 & H2 & H3 & H4 & H5) [K1 K2 K3 K4 K5]. split; [congruence..|]. intros [He Hs].
  replace (wireValue <$> aData a) with (value W <$> aData a'); [apply K5; by rewrite H5|].
  rewrite H5 by done. by rewrite <- map_fmap_compose.
Qed.

Lemma kept_write a c : aKind a = "analysis" -> trimmed (aAnalyzerName a) -> trimmed (aAnalyzerVer a) -> clientInv c ->
  kept clientInv clientRec (clWriteAnnotation a)
    (fun _ c' => exists x, clientAnn c' (aObjectDigest a) (aAnalyzerName a) x /\ stored_as wireSent wireValue a x) c.
Proof using codecLaws.
  intros Ha Hn Hv Hc. eapply kept_bind; [by apply kept_lift|]. cbn beta. intros p c1 H1 Hp.
  apply (kept_call _ (fun _ s' => exists x, serverAnn s' (aObjectDigest a) (aAnalyzerName a) x /\ stored_as wireSent wireValue a x)); [|done].
  intros s Hs. eapply kept_bind; [by apply kept_orInvalid|]. cbn beta. intros a' s1 Hs1 Ha'.
  pose proof (annotation_arrives a p a' Hp Ha') as Harr. pose proof Harr as (Hd & Hn' & Hv' & Hk & _).
  rewrite <- Hn' in Hn. rewrite <- Hv' in Hv. pose proof (os_write (S := W) a' (eq_trans Hk Ha) Hn Hv) as Hw.
  eapply kept_bind; [apply (kept_onStore _ (fun _ s' => exists x, annotation s' (aObjectDigest a') (aAnalyzerName a') x /\ stored_as (sent W) (value W) a' x)); [exact Hw|done]|].
  cbn beta. intros [] s2 Hs2 (x & Hx & Hst). split; [done|]. split; [done|]. cbn. exists x. unfold serverAnn. cbn.
  rewrite <- Hd, <- Hn'. split; [done|by eapply stored_arrived].
Qed.

Lemma kept_read d c : clientInv c -> kept clientInv clientRec (clReadManifest d) (fun _ _ => True) c.
Proof using Type.
  intros Hc. eapply kept_bind; [apply kept_try, (kept_call _ (fun _ _ => True)); [|done]|].
  - intros s Hs. eapply kept_bind; [apply kept_try, (kept_onStore _ (fun _ _ => True)); [exact (os_read d)|done]|].
    cbn beta. intros [e|m] s1 Hs1 _; [destruct (isNotExist e); by apply kept_fail|]. destruct (ToPBManifest m); by split.
  - cbn beta. intros [e|m] c1 Hc1 _; [destruct (isVar _ e); by apply kept_fail|]. destruct (FromPBManifest _); by split.
Qed.

(** A NotFound is the server's answer, and its state is the one it was given in. *)
Lemma call_notfound {A} (h : SM (Server W) A) P more c e : (forall s, serverInv s -> kept serverInv serverRec h P s) -> clientInv c ->
  (retryUnary more h c).1 = Err e -> isVar "codes.NotFound" e = true ->
  exists s e0, serverInv s /\ h s = (Err e0, ctServer (retryUnary more h c).2) /\ overWire e0 = e.
Proof using Type.
  intros Hh. assert (forall code, isVar "codes.NotFound" (status (codeName code)) = false) as Hcode by (by intros []).
  revert c. induction more as [|more IH]; intros c Hc He Hn; cbn [retryUnary] in *; unfold mbind, SM_bind, stry in *.
  all: pose proof (kept_invoke h P c Hh Hc) as (Hc1 & _ & _).
  all: destruct (invoke h c) as [[a|e1|] c1] eqn:Hi; cbn in He; try done.
  all: assert (isVar "codes.NotFound" e1 = true -> exists s e0, serverInv s /\ h s = (Err e0, ctServer c1) /\ overWire e0 = e1) as Hlast
    by (intros Hn1; unfold invoke in Hi; destruct (h (ctServer c)) as [[a|e0|] s] eqn:Hs; destruct (head (ctNet c)) as [[|code|code]|];
        simplify_eq; rewrite ?Hcode in Hn1; try done; exists (ctServer c), e0; by rewrite Hs).
  - injection He as <-. by apply Hlast.
  - destruct (negb (retryableGRPCError e1)); [injection He as <-; by apply Hlast|]. unfold backoff in *.
    destruct (head (ctWaits c1)) as [[]|]; cbn [fst snd] in *; [by injection He as <-|by apply IH..].
Qed.

Lemma kept_handler d s : serverInv s -> kept serverInv serverRec (ReadManifest d) (fun _ _ => True) s.
Proof using Type.
  intros Hs. eapply kept_bind; [apply kept_try, (kept_onStore _ (fun _ _ => True)); [exact (os_read d)|done]|].
  cbn beta. intros [e|m] s1 Hs1 _; [destruct (isNotExist e); by apply kept_fail|]. destruct (ToPBManifest m); by split.
Qed.

Lemma read_gone d c e : clientInv c -> (clReadManifest d c).1 = Err e -> isNotExist e = true ->
  gone (srvStore (ctServer (clReadManifest d c).2)) d.
Proof.
  intros Hc. unfold clReadManifest, mbind, SM_bind, stry. destruct (call (ReadManifest d) c) as [[m|e1|] c1] eqn:Hcall; [| |done].
  - intros He Hn. exfalso. destruct (FromPBManifest (Some m)) as [e2|] eqn:Hf; [|done]. cbn in He. injection He as ->.
    by rewrite (FromPBManifest_errs _ _ Hf) in Hn.
  - destruct (isVar "codes.NotFound" e1) eqn:Hnf; cbn; intros [= <-] Hn.
    + destruct (call_notfound (ReadManifest d) (fun _ _ => True) (grpcRetryAttempts - 1) c e1) as (s & e0 & Hs & Hh & He0);
        [intros; by apply kept_handler|done|by unfold call in Hcall; rewrite Hcall|done|]. unfold call in Hcall. rewrite Hcall in Hh.
      unfold ReadManifest, mbind, SM_bind, stry, onStore in Hh. destruct (soReadManifest d (srvStore s)) as [[m|e2|] w] eqn:Hr; [| |done].
      * destruct (ToPBManifest m) as [e3|] eqn:Ht; [|done]. cbn in Hh. injection Hh as <- _. unfold overWire in He0.
        rewrite (ToPBManifest_errs _ _ Ht) in He0. by destruct e3; subst e1.
      * assert (isStatus e2 = false) as Hst by (by apply (se_read d (srvStore s)); rewrite Hr).
        destruct (isNotExist e2) eqn:Hne; cbn in Hh; injection Hh as <- Hsrv.
        -- rewrite <- Hsrv. cbn. pose proof (os_read_gone d (srvStore s) e2 Hs) as Hg. cbn [osReadManifest opsStore] in Hg.
           rewrite Hr in Hg. by apply Hg.
        -- unfold overWire in He0. rewrite Hst in He0. by destruct e2; subst e1.
    + exfalso. revert Hn. clear -Hcall. unfold call in Hcall. revert c Hcall. induction (grpcRetryAttempts - 1)%nat as [|more IH]; intros c Hcall;
        cbn [retryUnary] in Hcall; unfold mbind, SM_bind, stry in Hcall; destruct (invoke (ReadManifest d) c) as [[a|e|] c2] eqn:Hi; try done.
      all: assert (isNotExist e = false) as Hw by (unfold invoke, overWire, status in Hi; destruct (ReadManifest d (ctServer c)) as [[a|e3|] s];
        destruct (head (ctNet c)) as [[|code|code]|]; simplify_eq; try done; destruct (isStatus e3) eqn:Hs; destruct e3; done).
      * injection Hcall as <- _. congruence.
      * destruct (negb _); [injection Hcall as <- _; congruence|]. unfold backoff in Hcall. destruct (head (ctWaits c2)) as [[]|]; [by injection Hcall as <- _|by eapply IH..].
Qed.

End contract.

(** With the contract of its server's store, a client has it too. *)
#[export] Instance rpc_laws {W} `{!Codec, !CodecLaws, !CodecErrors, !StoreOps W, !StoreErrors W, !ObjectStoreLaws W} : ObjectStoreLaws (Client W).
Proof.
  refine {| os_inv := clientInv; recorded := clientRec; annotation := clientAnn; sent := wireSent (W := W); value := wireValue (W := W);
            gone := fun c d => gone (srvStore (ctServer c)) d |}.
  - intros t. apply os_text.
  - intros c d n x. apply os_recorded.
  - intros d n v c Hc. by apply kept_has.
  - intros a Ha Hn Hv c Hc. by apply kept_write.
  - intros d c Hc. by apply kept_read.
  - intros d c e Hc. by apply read_gone.
Defined.

(** ** The content cache *)

(** What [Open] streams of an object: its pieces, then the end or an error. *)
Class ContentServer (W : Type) := { csOpen : ObjectDigest -> SM (Server W) (list bytes * option GoError) }.

Record objectStreamReader := MkStreamReader {
  rdChunks : list bytes; rdEnd : option GoError; rdDigest : ObjectDigest; rdAccum : bytes; rdCacheable : bool; rdClosed : bool;
  rdBuffer : bytes }.

Inductive clientReader := CachedReader (rest : bytes) | StreamReader (r : objectStreamReader).

Section content.
Context {W : Type} `{!ContentServer W}.

Abbreviation Cli := (SM (Client W)).

Definition clOpen (digest : ObjectDigest) : Cli clientReader :=
  c ← sget ctContentCache;
  hit ← spanic (SizedLru.Get digest c);
  _ ← smodify (set_cache hit.2);
  match hit.1 with
  | Some cached => mret (CachedReader cached)
  | None =>
      stream ← invoke (csOpen digest);
      mret (StreamReader (MkStreamReader stream.1 stream.2 digest [] true false []))
  end.

Definition accumulate (data : bytes) (r : objectStreamReader) : objectStreamReader :=
  if negb (rdCacheable r) then r else
  let accum := rdAccum r ++ data in
  if clientContentMaxObjectBytes <? blen accum
  then MkStreamReader (rdChunks r) (rdEnd r) (rdDigest r) [] false (rdClosed r) (rdBuffer r)
  else MkStreamReader (rdChunks r) (rdEnd r) (rdDigest r) accum true (rdClosed r) (rdBuffer r).

Definition cacheOnComplete (r : objectStreamReader) : Cli unit :=
  if rdCacheable r && negb (bool_decide (rdAccum r = [])) then
    c ← sget ctContentCache;
    c ← spanic (SizedLru.Put (rdDigest r) (rdAccum r) c);
    smodify (set_cache c)
  else mret tt.

(** The loop until something is in the buffer: [Recv] the pieces of [chunks]. *)
Fixpoint receiveUntil (chunks : list bytes) (r : objectStreamReader) : readErr * objectStreamReader :=
  match rdBuffer r with
  | _ :: _ => (NoErr, r)
  | [] =>
      match chunks with
      | [] => (match rdEnd r with None => EOF | Some e => ReadErr e end, r)
      | data :: rest =>
          let r := MkStreamReader rest (rdEnd r) (rdDigest r) (rdAccum r) (rdCacheable r) (rdClosed r) (rdBuffer r) in
          match data with
          | [] => receiveUntil rest r
          | _ =>
              let r := accumulate data r in
              receiveUntil rest (MkStreamReader (rdChunks r) (rdEnd r) (rdDigest r) (rdAccum r) (rdCacheable r) (rdClosed r) data)
          end
      end
  end.

(** [Read(target)] with a target of [n] bytes. *)
Definition streamRead (n : nat) (r : objectStreamReader) : Cli (bytes * readErr * objectStreamReader) :=
  if rdClosed r then mret ([], ReadErr (ErrVar "io.ErrClosedPipe"), r) else
  match n with
  | O => mret ([], NoErr, r)
  | S _ =>
      let '(e, r) := receiveUntil (rdChunks r) r in
      match e with
      | NoErr => mret (take n (rdBuffer r), NoErr, MkStreamReader (rdChunks r) (rdEnd r) (rdDigest r) (rdAccum r) (rdCacheable r)
                   (rdClosed r) (drop n (rdBuffer r)))
      | EOF => _ ← cacheOnComplete r; mret ([], EOF, r)
      | ReadErr e => mret ([], ReadErr e, r)
      end
  end.

Definition clRead (n : nat) (r : clientReader) : Cli (bytes * readErr * clientReader) :=
  match r with
  | CachedReader [] => mret ([], EOF, r)
  | CachedReader rest => mret (take n rest, NoErr, CachedReader (drop n rest))
  | StreamReader r => x ← streamRead n r; let '(b, e, r) := x in mret (b, e, StreamReader r)
  end.

(** The reads of a caller, up to an error or the end. *)
Fixpoint clReadAll (sizes : list nat) (r : clientReader) (acc : bytes) : Cli (bytes * readErr) :=
  match sizes with
  | [] => mret (acc, NoErr)
  | n :: sizes =>
      x ← clRead n r;
      let '(b, e, r) := x in
      match e with NoErr => clReadAll sizes r (acc ++ b) | _ => mret (acc ++ b, e) end
  end.

End content.

(** *** What is read is the object *)

#[local] Existing Instance SizedLru.sized_byteCache.

Lemma post_spanic_some {S A} (o : option A) (a : A) (s : S) Q : o = Some a -> Q (inr a) s -> post (spanic o) s Q.
Proof. by intros -> H. Qed.

Lemma post_smodify {S} (f : S -> S) (s : S) (Q : GoError + unit -> S -> Prop) : Q (inr tt) (f s) -> post (smodify f) s Q.
Proof. done. Qed.

Lemma post_sget {S A} (f : S -> A) (s : S) (Q : GoError + A -> S -> Prop) : Q (inr (f s)) s -> post (sget f) s Q.
Proof. done. Qed.

Section exact.
Context {W : Type} {server : ContentServer W} (content : ObjectDigest -> bytes).

(** The server streams the object, or a part of it and an error. *)
Definition streams (d : ObjectDigest) : Prop := forall s : Server W,
  post (csOpen d) s (fun r _ => forall chunks err, r = inr (chunks, err) ->
    (err = None -> concat chunks = content d) /\ concat chunks `prefix_of` content d).

Definition cache_sound (c : Client W) : Prop :=
  SizedLru.cache_repr (ctContentCache c) /\ forall d v, SizedLru.peek d (ctContentCache c) = Some v -> v = content d.

(** [got] was read so far. *)
Definition reader_ok (d : ObjectDigest) (got : bytes) (r : clientReader) : Prop :=
  match r with
  | CachedReader rest => got ++ rest = content d
  | StreamReader r =>
      rdDigest r = d /\ (rdEnd r = None -> got ++ rdBuffer r ++ concat (rdChunks r) = content d) /\
      got ++ rdBuffer r ++ concat (rdChunks r) `prefix_of` content d /\ (rdCacheable r = true -> rdAccum r = got ++ rdBuffer r)
  end.

Lemma receive_ok d got r e r' : reader_ok d got (StreamReader r) -> receiveUntil (rdChunks r) r = (e, r') ->
  reader_ok d got (StreamReader r') /\ rdEnd r' = rdEnd r /\
  match e with NoErr => rdBuffer r' <> [] | EOF => rdEnd r' = None /\ rdChunks r' = [] /\ rdBuffer r' = [] | ReadErr _ => True end.
Proof using Type.
  remember (rdChunks r) as chunks eqn:Hch. revert r Hch. induction chunks as [|data rest IH]; intros r Hch Hr; cbn [receiveUntil].
  - destruct (rdBuffer r) as [|x b] eqn:Hb; intros [= <- <-]; [|by rewrite Hb].
    split; [done|]. split; [done|]. by destruct (rdEnd r).
  - destruct (rdBuffer r) as [|x b] eqn:Hb; [|intros [= <- <-]; by rewrite Hb].
    cbn [reader_ok] in Hr. rewrite <- Hch, Hb in Hr. cbn [app concat] in Hr. destruct Hr as (Hd & Hall & Hpre & Hacc).
    destruct data as [|x data]; [intros H; eapply (IH (MkStreamReader _ _ _ _ _ _ _)) in H as (H1 & H2 & H3); [done|done|by cbn]|].
    intros H. eapply (IH (MkStreamReader _ _ _ _ _ _ _)) in H as (H1 & H2 & H3); cbn [rdEnd rdChunks];
      [split; [exact H1|]; split; [|exact H3]; rewrite H2; unfold accumulate; cbn; by destruct (rdCacheable r), (_ <? _)| |].
    + unfold accumulate. cbn. by destruct (rdCacheable r), (_ <? _).
    + unfold accumulate. cbn [reader_ok rdDigest rdEnd rdBuffer rdChunks rdCacheable rdAccum].
      destruct (rdCacheable r) eqn:Hc; cbn [negb]; [destruct (_ <? _)|]; cbn; (split; [done|]; split; [done|]; split; [done|]; try done).
      intros _. rewrite Hacc by done. by rewrite app_nil_r.
Qed.

Lemma prefix_app_weak (a b l : bytes) : a ++ b `prefix_of` l -> a `prefix_of` l.
Proof using Type. intros [k ->]. exists (b ++ k). by rewrite app_assoc. Qed.

Lemma read_ok d got n r c : cache_sound c -> reader_ok d got r ->
  post (clRead n r) c (fun x c' => cache_sound c' /\ exists b e r', x = inr (b, e, r') /\
    match e with NoErr => reader_ok d (got ++ b) r' | EOF => b = [] /\ got = content d | ReadErr _ => b = [] /\ got `prefix_of` content d end).
Proof using Type.
  intros Hc Hr. destruct r as [rest|r]; cbn [clRead].
  - cbn [reader_ok] in Hr. destruct rest as [|x rest]; apply post_ret; (split; [done|]); do 3 eexists; (split; [reflexivity|]).
    + split; [done|]. by rewrite app_nil_r in Hr.
    + cbn [reader_ok]. by rewrite <- app_assoc, take_drop.
  - apply post_bind. unfold streamRead. assert (got `prefix_of` content d) as Hgot by (destruct Hr as (_ & _ & ? & _); by eapply prefix_app_weak).
    destruct (rdClosed r); [apply post_ret, post_ret; split; [done|]; by do 3 eexists|].
    destruct n as [|n]; [apply post_ret, post_ret; split; [done|]; do 3 eexists; split; [reflexivity|]; by rewrite app_nil_r|].
    destruct (receiveUntil (rdChunks r) r) as [e r'] eqn:Hrec. destruct (receive_ok d got r e r' Hr Hrec) as (Hr' & _ & He).
    destruct e as [| |err].
    + apply post_ret, post_ret. split; [done|]. do 3 eexists. split; [reflexivity|]. destruct Hr' as (Hd & Hall & Hpre & Hacc).
      cbn [reader_ok rdDigest rdEnd rdBuffer rdChunks rdCacheable rdAccum]. rewrite <- !app_assoc, !(app_assoc (take _ _)), take_drop.
      split; [done|]. split; [done|]. split; [done|]. intros Hca. by rewrite Hacc.
    + destruct He as (He & Hch & Hbu). destruct Hr' as (Hd & Hall & Hpre & Hacc). specialize (Hall He). rewrite Hch, Hbu in Hall. rewrite Hbu in Hacc.
      cbn in Hall, Hacc. rewrite app_nil_r in Hall, Hacc. apply post_bind. unfold cacheOnComplete.
      destruct (rdCacheable r' && _) eqn:Hca; [|apply post_ret, post_ret, post_ret; split; [done|]; by do 3 eexists].
      apply andb_true_iff in Hca as [Hca _]. apply post_bind, post_sget, post_bind. destruct Hc as [Hrepr Hsound].
      destruct (SizedLru.bc_put (put := SizedLru.Put) (rdDigest r') (rdAccum r') (ctContentCache c) Hrepr) as (cc & Hput & Hrepr' & Hin).
      eapply post_spanic_some; [exact Hput|]. cbn beta iota. apply post_smodify, post_ret, post_ret. split; [|by do 3 eexists]. split; [done|]. cbn.
      intros d' v [Hv|[-> ->]]%Hin; [by apply Hsound|]. rewrite Hd. rewrite Hacc by done. done.
    + apply post_ret, post_ret. split; [done|]. by do 3 eexists.
Qed.

Lemma readAll_ok d sizes r got c : cache_sound c -> reader_ok d got r ->
  post (clReadAll sizes r got) c (fun x c' => cache_sound c' /\ exists b e, x = inr (b, e) /\ b `prefix_of` content d /\ (e = EOF -> b = content d)).
Proof using Type.
  revert r got c. induction sizes as [|n sizes IH]; intros r got c Hc Hr; cbn [clReadAll].
  - apply post_ret. split; [done|]. do 2 eexists. split; [reflexivity|]. split; [|done].
    destruct r as [rest|r]; cbn [reader_ok] in Hr; [rewrite <- Hr; by apply prefix_app_r|destruct Hr as (_ & _ & ? & _); by eapply prefix_app_weak].
  - apply post_bind. eapply post_mono; [by apply (read_ok d got n r)|]. cbn beta. intros x c' (Hc' & b & e & r' & -> & He). destruct e as [| |err].
    + by apply IH.
    + destruct He as [-> Hg]. apply post_ret. split; [done|]. do 2 eexists. split; [reflexivity|]. rewrite app_nil_r. by rewrite Hg.
    + destruct He as [-> Hg]. apply post_ret. split; [done|]. do 2 eexists. split; [reflexivity|]. by rewrite app_nil_r.
Qed.

Lemma open_ok d c : streams d -> cache_sound c ->
  post (clOpen d) c (fun x c' => cache_sound c' /\ forall r, x = inr r -> reader_ok d [] r).
Proof using Type.
  intros Hs [Hrepr Hsound]. unfold clOpen. apply post_bind, post_sget, post_bind.
  destruct (SizedLru.bc_get (get := SizedLru.Get) d (ctContentCache c) Hrepr) as (cc & Hget & Hrepr' & Hin).
  eapply post_spanic_some; [exact Hget|]. cbn beta iota. apply post_bind, post_smodify. cbn [fst snd].
  assert (cache_sound (set_cache cc c)) as Hc1 by (split; [done|]; cbn; intros d' v Hv; by apply Hsound, Hin).
  destruct (SizedLru.peek d (ctContentCache c)) as [v|] eqn:Hv.
  - apply post_ret. split; [done|]. intros r [= <-]. cbn. by apply Hsound.
  - apply post_bind. unfold post, invoke. specialize (Hs (ctServer (set_cache cc c))). unfold post in Hs.
    destruct (csOpen d (ctServer (set_cache cc c))) as [[[chunks err]|e|] s]; [| |done]; destruct (head (ctNet (set_cache cc c))) as [[|code|code]|]; cbn;
      (split; [done|]); try done; intros r [= <-]; cbn; (split; [done|]); destruct (Hs chunks err eq_refl) as [H1 H2]; by split.
Qed.

End exact.

(** ** A [FilesystemStore] behind the server *)

#[export] Instance filesystem_ops {E : Ext} : StoreOps Store := {
  soLookupSourceObject := SourceIngest.LookupSourceObject;
  soTryAcquireSourceIngest := SourceIngest.TryAcquireSourceIngest;
  soReleaseSourceIngest := SourceIngest.ReleaseSourceIngest;
  soPut := ObjectStore.Put;
  soAttachProvenance := ObjectStore.AttachProvenance;
  soPutCompound := ObjectStore.PutCompound;
  soReadManifest := SourceIngest.ReadManifest;
  soHasAnalysisAnnotation := ObjectStore.HasAnalysisAnnotation;
  soWriteAnnotation := ObjectStore.WriteAnnotation;
  soWriteOverlays := ObjectStore.WriteOverlays;
  soProjectionObject := Projection.projectionObject;
  soDeleteObject := Gc.DeleteObject }.

#[export] Instance filesystem_errors {E : Ext} : StoreErrors Store.
Proof.
  split. intros d s e. cbn [soReadManifest filesystem_ops]. unfold SourceIngest.ReadManifest, ctxErr, metaGet, gets, mbind, M_bind.
  destruct (io s) as [[[]|e1|] s1] eqn:Hio; cbn; [|intros [= <-]|done].
  - unfold check, validateObjectDigest. destruct (looksLikeDigest d); cbn; [|by intros [= <-]].
    destruct (io s1) as [[[]|e1|] s2] eqn:Hio2; cbn; [|intros [= <-]|done].
    + destruct (dbGet (db s2) (manifestKey d)) as [v|]; cbn; [|by intros [= <-]]. destruct (asManifest v); cbn; [done|by intros [= <-]].
    + unfold io in Hio2. by destruct (faults s1) as [|[] ?]; simplify_eq.
  - unfold io in Hio. by destruct (faults s) as [|[] ?]; simplify_eq.
Qed.

(** *** An upload *)

(** The request as it reaches the store. *)
Definition wirePut `{!Codec} (r : PutRequest) (writes : list bytes) : PutRequest :=
  MkPut (pipe writes EOF) (prMediaType r) (prSourceHint r) (prContentRoles r) (map jsonFacet (prFacets r))
    (map jsonProvenance (prProvenance r)) (prRelationships r).

(** What the wire can carry. *)
Record sendable `{!Codec} (r : PutRequest) : Prop := {
  sd_facets : Forall facet_ok (prFacets r);
  sd_provenance : Forall provenance_ok (prProvenance r);
  sd_relationships : Forall (fun x => fits32 (relOrder x) = true) (prRelationships r) }.

(** The frames of a complete read carry exactly its bytes. *)
Lemma frames_carry reads : firstErr reads = None ->
  exists writes, (putFrames reads).2 = None /\ feedPipe (putFrames reads).1 EOF = (writes, EOF, None) /\ concat writes = delivered reads.
Proof.
  induction reads as [|[b e] reads IH]; [by exists []|]. cbn [putFrames firstErr delivered]. destruct e; intros He; [..|done].
  - destruct (IH He) as (writes & H1 & H2 & H3). destruct (putFrames reads) as [frames err]. cbn in *. subst err.
    destruct b as [|x b]; [by exists writes|]. exists ((x :: b) :: writes). cbn. rewrite H2. by cbn; rewrite H3.
  - destruct b as [|x b]; [by exists []|]. exists [x :: b]. cbn. by rewrite app_nil_r.
Qed.

Lemma pipe_delivers writes : delivered (script (pipe writes EOF)) = concat writes /\ firstErr (script (pipe writes EOF)) = None.
Proof. unfold pipe. cbn [script]. induction writes as [|w l [IH1 IH2]]; [done|]. cbn. by rewrite IH1. Qed.

Lemma wire_valid `{!Codec} r writes : ~ bad_put r -> ~ bad_put (wirePut r writes).
Proof.
  intros Hr [Hb|[Hb|(p & Hp & Hi & Hb)]]; apply Hr.
  - left. intros Hv. apply Hb. clear -Hv. cbn [prFacets wirePut]. unfold validateFacets in *. destruct (prFacets r) as [|f l]; [done|].
    change (validateFacetKinds (map jsonFacet (f :: l)) = None). revert Hv. generalize (f :: l). clear. induction l as [|f l IH]; [done|].
    cbn. change (FacetKind (jsonFacet f)) with (FacetKind f). by destruct (blank _).
  - by destruct (pipe_delivers writes).
  - right. right. cbn in Hp. apply list_elem_of_fmap in Hp as (q & -> & Hq). by exists q.
Qed.

Lemma put_object_runs {E : Ext} `{!Codec} (s : Server Store) start frames writes facets provenance d w :
  FromPBFacets (psFacets start) = inr facets -> FromPBProvenance (psProvenance start) = inr provenance ->
  feedPipe frames EOF = (writes, EOF, None) ->
  ObjectStore.Put (MkPut (pipe writes EOF) (psMediaType start) (psSourceHint start) (psContentRoles start) facets provenance
    (FromPBRelationships (psRelationships start))) (srvStore s) = (Ok d, w) ->
  PutObject (FStart start :: frames) EOF s =
    (Ok d, MkServer w ((fun l => l ++ [MkNotice d (psPriorityClass start) false]) <$> srvChanges s)).
Proof.
  intros Hf Hp Hfeed Hput. pose proof (put_takes_all _ _ _ _ _ _ _ _ _ _ _ Hput) as Ht. unfold PutObject. rewrite Hf, Hp, Hfeed.
  unfold mbind, SM_bind, orInvalid, mret, SM_ret, sget, stry, onStore. cbn [soPut filesystem_ops]. rewrite Ht, Hput. cbn [fst snd].
  by rewrite Nat.ltb_irrefl.
Qed.

(** ** Main properties *)

(** C37: the change batcher loses, repeats and reorders nothing.  Whatever notices
    and ticks reach it before it is stopped, in whatever order it visits its
    classes, the requests it sends carry, class by class and for the projection,
    exactly the digests of the notices in their order; none is empty or longer
    than 256, and each names the reason the scheduler tells the two kinds apart
    by. *)
Theorem batcher_delivers (visit : list (string * list ObjectDigest) -> list (string * list ObjectDigest)) (es : list batchEvent) :
  (forall l, visit l ≡ₚ l) -> Forall (fun e => e <> BClosed) es ->
  let out := runNotifyBatcher visit newBatcher (es ++ [BClosed]) in
  Forall wellFormed out /\
  (forall c, requested (forClass c) out = noticed (ofClass c) (noticesOf es)) /\
  requested ocProjectionOnly out = noticed cnProjectionOnly (noticesOf es).
Proof.
  intros Hv Hes. destruct (run_delivers visit Hv newBatcher es new_batch_ok Hes) as (Hw & Hc & Hp). split; [done|]. split; [|done].
  intros c. rewrite Hc. cbn. by rewrite lookup_empty.
Qed.

(** C36: a worker can trust a store behind gRPC as it trusts a local one.
    Whatever the network loses and however often a call is retried, the store
    stays consistent and no recorded analysis disappears; an answer that an
    analysis exists means that the server's store holds a complete annotation of
    that analyzer in the version asked for; a write that succeeded means that it
    holds the annotation under the written digest, analyzer, version and kind,
    with all of its data as JSON leaves it (when the data is text, numbers, times
    and lists or maps of these); and an object is reported as missing only when
    the store has no manifest for it.  The server's store must keep the same
    contract, and names and version have no blanks around them. *)
Theorem rpc_keeps_contract {W} `{!Codec, !CodecLaws, !CodecErrors, !StoreOps W, !StoreErrors W, !ObjectStoreLaws W} (c : Client W) :
  clientInv c ->
  (forall d n v, kept clientInv clientRec (clHasAnalysisAnnotation d n v)
     (fun b c' => b = true -> exists x, clientAnn c' d n x /\ complete n v x) c) /\
  (forall a, aKind a = "analysis" -> trimmed (aAnalyzerName a) -> trimmed (aAnalyzerVer a) ->
     kept clientInv clientRec (clWriteAnnotation a)
       (fun _ c' => exists x, clientAnn c' (aObjectDigest a) (aAnalyzerName a) x /\ stored_as (wireSent (W := W)) (wireValue (W := W)) a x) c) /\
  (forall d, kept clientInv clientRec (clReadManifest d) (fun _ _ => True) c) /\
  (forall d e, (clReadManifest d c).1 = Err e -> isNotExist e = true -> gone (srvStore (ctServer (clReadManifest d c).2)) d).
Proof.
  intros Hc. split; [intros; by apply kept_has|]. split; [intros; by apply kept_write|]. split; [intros; by apply kept_read|].
  intros d e. by apply read_gone.
Qed.

(** What a client reads is the object, from the wire or from its cache.
    From a client whose cache is sound, opening an object and reading it in
    pieces of any sizes gives a prefix of its content, all of it when the end is
    reached, and an error otherwise; the cache stays sound: it never holds an
    object that was received in part. *)
Theorem cached_open_exact {W} `{!ContentServer W} (content : ObjectDigest -> bytes) (d : ObjectDigest) (sizes : list nat) (c : Client W) :
  streams (W := W) content d -> cache_sound content c ->
  post (r ← clOpen d; clReadAll sizes r []) c (fun x c' => cache_sound content c' /\
    forall b e, x = inr (b, e) -> b `prefix_of` content d /\ (e = EOF -> b = content d)).
Proof.
  intros Hs Hc. apply post_bind. eapply post_mono; [by apply (open_ok content)|]. cbn beta. intros [e|r] c1 [Hc1 Hr]; [done|].
  eapply post_mono; [by apply (readAll_ok content d); [|apply Hr]|]. cbn beta. intros x c2 (Hc2 & b & e & -> & Hb & He). split; [done|].
  by intros ? ? [= <- <-].
Qed.

(** C38: an upload over gRPC is a local put of the same content.  From a client
    whose stream gets through, to a server with a consistent store and no I/O
    fault, a valid request with metadata JSON can carry, however its reader splits
    the content (empty reads and data together with EOF included), returns the
    content's BLAKE3 digest: the server's store then is exactly what [Put] of that
    content, with the same media type, hint and roles and with facets and
    provenance as JSON leaves them, makes of it, the handler never blocks on its
    pipe, and one change notice for the object, with the request's priority class,
    is queued when the server has a notifier. *)
Theorem upload_is_put {E : Ext} `{!ExtLaws E, !Codec, !CodecLaws} (c : Client Store) (request : RpcPut) :
  let r := rpPut request in
  let content := delivered (script (prReader r)) in
  match head (ctNet c) with None | Some Delivered => True | _ => False end ->
  store_ok (srvStore (ctServer c)) -> faults (srvStore (ctServer c)) = [] -> ~ bad_put r -> sendable r ->
  exists writes w c', clPut request c = (Ok (blake3 content), c') /\ concat writes = content /\
    ObjectStore.Put (wirePut r writes) (srvStore (ctServer c)) = (Ok (blake3 content), w) /\
    ctServer c' = MkServer w ((fun l => l ++ [MkNotice (blake3 content) (rpPriorityClass request) false]) <$> srvChanges (ctServer c)).
Proof.
  intros r content Hnet Hs Hf Hok [S1 S2 S3]. unfold clPut. fold r.
  destruct (facets_carried _ S1) as (pf & Hpf & Hff), (provenance_carried _ S2) as (pp & Hpp & Hfp).
  assert (firstErr (script (prReader r)) = None) as He.
  { destruct (firstErr (script (prReader r))) eqn:He; [|done]. destruct Hok. right. left. by rewrite He. }
  destruct (frames_carry _ He) as (writes & Hnone & Hfeed & Hcat). fold content in Hcat.
  destruct (put_succeeds (srvStore (ctServer c)) (wirePut r writes) Hs Hf (wire_valid r writes Hok)) as (w & Hput & _).
  cbn [prReader wirePut] in Hput. rewrite (proj1 (pipe_delivers writes)), Hcat in Hput.
  rewrite Hpf, Hpp. destruct (putFrames _) as [frames err]. cbn in Hnone, Hfeed. subst err.
  unfold mbind, SM_bind, lift, mret, SM_ret. unfold invoke. exists writes, w.
  erewrite put_object_runs; [|exact Hff|exact Hfp|exact Hfeed|].
  2: { cbn. rewrite relationships_carried by done. exact Hput. }
  destruct (head (ctNet c)) as [[|code|code]|]; try done; eexists; (split; [reflexivity|]); done.
Qed.

(** A put that the store refuses early never returns.  [Put] of an object without
    facets fails before it reads anything, whatever the stream holds: it does not
    even notice that the pipe is broken.  The handler is then left writing the
    first piece of data to a pipe that nobody reads. *)
Theorem put_object_blocks {E : Ext} `{!Codec} (s : Server Store) (start : PbPutObjectStart) (data : bytes)
    (frames : list PbPutObjectFrame) (last : readErr) :
  psFacets start = [] -> faults (srvStore s) = [] ->
  (exists p, FromPBProvenance (psProvenance start) = inr p) ->
  (forall r mt h cr p rel, ObjectStore.Put (MkPut r mt h cr [] p rel) (srvStore s) =
     (Err (ErrMsg "at least one facet is required"), srvStore s)) /\
  (PutObject (FStart start :: FData data :: frames) last s).1 = Panic.
Proof.
  intros Hf Hfaults [p Hp]. assert (forall r mt h cr p rel, ObjectStore.Put (MkPut r mt h cr [] p rel) (srvStore s) =
    (Err (ErrMsg "at least one facet is required"), srvStore s)) as Hput.
  { intros. unfold ObjectStore.Put, preparePut, ctxErr, mbind, M_bind, io. rewrite Hfaults. done. }
  split; [done|]. unfold PutObject. rewrite Hf, Hp. cbn [orInvalid FromPBFacets mapE feedPipe].
  destruct (feedPipe frames last) as [[ws e] err]. unfold mbind, SM_bind, mret, SM_ret. cbn [FromPBFacets mapE].
  unfold stry, onStore, sget, taken. cbn [soPut filesystem_ops orInvalid countWhile length]. unfold mret, Res_ret, SM_ret.
  cbn [orInvalid]. unfold mret, SM_ret. unfold asksFor. cbn [soPut filesystem_ops]. cbn beta iota. rewrite !Hput. done.
Qed.

(** *** Runs on a concrete store *)

#[local] Existing Instance treeCodec.
#[local] Existing Instance treeCodecLaws.

#[local] Instance treeCodecErrors : CodecErrors.
Proof.
  split; cbn; intros x e; [destruct (decode _)|destruct (decode _)]; try done; by intros [= <-].
Qed.

(** A lost reply loses a claim for its whole time to live.  The server grants
    the claim, the reply does not arrive, and the client's retry is told that
    somebody holds it: the caller is refused a claim nobody has, and so is
    everyone after it. *)
Theorem lost_reply_loses_claim :
  let c := NewFilestoreClient (NewFilestoreServer emptyStore false) [LostReply Unavailable] in
  let '(r, c') := clTryAcquireSourceIngest exRef c in
  r = Ok None /\ is_Some (dbGet (db (srvStore (ctServer c'))) (sourceLockKey exRef)) /\
  (SourceIngest.TryAcquireSourceIngest exRef (srvStore (ctServer c'))).1 = Ok None.
Proof. vm_compute. split_and!; try done. by eexists. Qed.

Lemma batcher_delivers_witness :
  let es := [BNotice (MkNotice "a" "background" false); BNotice (MkNotice "b" "" true); BTick; BNotice (MkNotice "c" "background" false)] in
  let out := runNotifyBatcher (@rev _) newBatcher (es ++ [BClosed]) in
  Forall wellFormed out /\ (forall c, requested (forClass c) out = noticed (ofClass c) (noticesOf es)) /\
  requested ocProjectionOnly out = noticed cnProjectionOnly (noticesOf es).
Proof. apply (batcher_delivers (@rev _)); [intros l; symmetry; apply Permutation_rev|]. by repeat constructor. Defined.

Definition exClient : Client Store := NewFilestoreClient (NewFilestoreServer emptyStore true) [LostReply Unavailable; Delivered].

Lemma rpc_keeps_contract_witness :
  clientInv exClient /\
  (forall d n v, kept clientInv clientRec (clHasAnalysisAnnotation d n v)
     (fun b c' => b = true -> exists x, clientAnn c' d n x /\ complete n v x) exClient) /\
  (forall a, aKind a = "analysis" -> trimmed (aAnalyzerName a) -> trimmed (aAnalyzerVer a) ->
     kept clientInv clientRec (clWriteAnnotation a)
       (fun _ c' => exists x, clientAnn c' (aObjectDigest a) (aAnalyzerName a) x /\ stored_as (wireSent (W := Store)) (wireValue (W := Store)) a x) exClient) /\
  (forall d, kept clientInv clientRec (clReadManifest d) (fun _ _ => True) exClient) /\
  (forall d e, (clReadManifest d exClient).1 = Err e -> isNotExist e = true -> gone (srvStore (ctServer (clReadManifest d exClient).2)) d).
Proof.
  assert (clientInv exClient) as H by exact emptyStore_ok. split; [exact H|].
  destruct (rpc_keeps_contract exClient H) as (H1 & H2 & H3 & H4). split; [exact H1|]. split; [exact H2|]. split; [exact H3|exact H4].
Defined.

#[local] Instance exContent : ContentServer unit := {| csOpen d := mret ([[Byte.x01]; []; [Byte.x02; Byte.x03]], None) |}.

Definition exBytes (d : ObjectDigest) : bytes := [Byte.x01; Byte.x02; Byte.x03].

Lemma cached_open_exact_witness :
  let c := NewFilestoreClient (NewFilestoreServer tt false) [] in
  post (r ← clOpen "d"; clReadAll [2%nat; 1%nat; 5%nat; 1%nat] r []) c (fun x c' => cache_sound exBytes c' /\
    forall b e, x = inr (b, e) -> b `prefix_of` exBytes "d" /\ (e = EOF -> b = exBytes "d")).
Proof.
  apply (cached_open_exact exBytes "d").
  - intros s chunks err [= <- <-]. split; [done|]. exists []. reflexivity.
  - split; [eexists; apply SizedLru.repr_new|]. intros d v. rewrite (SizedLru.peek_alookup _ [] d) by apply SizedLru.repr_new. done.
Defined.

Definition exUpload : RpcPut :=
  MkRpcPut (MkPut (MkReader [([Byte.x61], NoErr); ([], NoErr); ([Byte.x62; Byte.x63], EOF)] []) "text/plain" "" [] [MkFacet ∅ ∅ "file" "" ""] [] []) "background".

Lemma upload_is_put_witness :
  let c := NewFilestoreClient (NewFilestoreServer emptyStore true) [] in
  exists writes w c', clPut exUpload c = (Ok (blake3 [Byte.x61; Byte.x62; Byte.x63]), c') /\ concat writes = [Byte.x61; Byte.x62; Byte.x63] /\
    ObjectStore.Put (wirePut (rpPut exUpload) writes) emptyStore = (Ok (blake3 [Byte.x61; Byte.x62; Byte.x63]), w) /\
    ctServer c' = MkServer w (Some [MkNotice (blake3 [Byte.x61; Byte.x62; Byte.x63]) "background" false]).
Proof.
  apply (upload_is_put (NewFilestoreClient (NewFilestoreServer emptyStore true) []) exUpload).
  - exact I.
  - exact emptyStore_ok.
  - reflexivity.
  - intros [H|[H|(p & Hp & _)]]; [apply H; vm_compute; reflexivity|by apply H|by apply elem_of_nil in Hp].
  - split; [|constructor|constructor]. apply Forall_singleton. split; apply map_Forall_empty.
Defined.

Definition exStart (facets : list PbFacet) : PbPutObjectStart := MkPbPutStart "text/plain" "" [] facets [] [] "".

Lemma put_object_blocks_witness :
  let s := NewFilestoreServer emptyStore false in
  (forall r mt h cr p rel, ObjectStore.Put (MkPut r mt h cr [] p rel) (srvStore s) =
     (Err (ErrMsg "at least one facet is required"), srvStore s)) /\
  (PutObject [FStart (exStart []); FData [Byte.x61]; FFinish] EOF s).1 = Panic.
Proof.
  apply (put_object_blocks (NewFilestoreServer emptyStore false) (exStart []) [Byte.x61] [FFinish] EOF);
    [reflexivity|reflexivity|by eexists].
Defined.

End Rpc.
