(* ===== verification/Scheduler.v ===== *)
(** * The scheduler: [scheduler/scheduler.go]

    Decides which analyses an object still needs and queues them, against any
    store to read and any broker to publish to.  The calls made to the broker and
    the projector are kept as a trace ([svCalls]); what they answer is up to the
    world.  The fully-annotated cache is [lruCache] of Lru.v. *)

From Stdlib Require Import Sorting.Sorted.
From stdpp Require Import options.
From S2P Require Import Prelude Lru GoLib Contracts Manifest Meta Jobs.

Local Open Scope Z_scope.

Module Scheduler.

(** ** Configuration *)

Record SchedulerPriority := MkPriorities {
  prInteractive : Z; prForced : Z; prFreshIngest : Z; prRepair : Z; prBackground : Z }.

Record Config := MkConfig {
  ScanInterval : Z; RetryBackoff : Z; SelfHealIdleThreshold : Z; Priorities : SchedulerPriority;
  BackpressureHighWater : Z; BackpressureLowWater : Z; SelfHealChunkSize : Z; FullyAnnotatedCacheSize : Z }.

Definition Second : Z := 10 ^ 9.

(** The fields of [config.AnalyzerConfig] the scheduler reads. *)
Record AnalyzerConfig := MkAnalyzerConfig {
  acName : string; acVersion : string; acWorkerKind : string; acMediaTypes : list string }.

Definition withMediaTypes (m : list string) (spec : AnalyzerSpec) : AnalyzerSpec :=
  MkSpec (spName spec) (spVersion spec) (spIdempotencyFormula spec) (spWorkerKind spec) m (spContentRoles spec)
    (spRequiredInputs spec) (spOutputSections spec) (spDependencies spec) (spPriority spec) (spDeterministic spec).

Definition withKnownAnalyzerConstraints (spec : AnalyzerSpec) : AnalyzerSpec :=
  if negb (bool_decide (spMediaTypes spec = [])) then spec
  else if String.eqb (spName spec) "text.extract" then
    withMediaTypes ["text/plain"; "text/html"; "message/rfc822"; "application/json"] spec
  else if String.eqb (spName spec) "rfc822.headers" then
    withMediaTypes ["message/rfc822"; "text/rfc822-headers"] spec
  else spec.

Definition SpecsFromConfig (analyzers : list AnalyzerConfig) : list AnalyzerSpec :=
  map (fun a => withKnownAnalyzerConstraints
    (MkSpec (acName a) (acVersion a) "" (acWorkerKind a) (acMediaTypes a) [] [] [] [] 0 true)) analyzers.

Definition trimmedSpec (spec : AnalyzerSpec) : AnalyzerSpec :=
  MkSpec (TrimSpace (spName spec)) (TrimSpace (spVersion spec)) (spIdempotencyFormula spec) (spWorkerKind spec)
    (spMediaTypes spec) (spContentRoles spec) (spRequiredInputs spec) (spOutputSections spec) (spDependencies spec)
    (spPriority spec) (spDeterministic spec).

Definition specKey (spec : AnalyzerSpec) : string := spName spec +:+ nul +:+ spVersion spec.

Fixpoint normalizeLoop (specs : list AnalyzerSpec) (seen : gset string) (normalized : list AnalyzerSpec) :
    GoError + list AnalyzerSpec :=
  match specs with
  | [] => inr normalized
  | spec :: r =>
      let spec := trimmedSpec spec in
      if String.eqb (spName spec) "" then inl (ErrMsg "analyzer spec name is required")
      else if String.eqb (spVersion spec) "" then inl (ErrMsg "analyzer version is required")
      else if bool_decide (specKey spec ∈ seen) then normalizeLoop r seen normalized
      else normalizeLoop r ({[specKey spec]} ∪ seen) (normalized ++ [spec])
  end.

Definition NormalizeSpecs (specs : list AnalyzerSpec) : GoError + list AnalyzerSpec :=
  match normalizeLoop specs ∅ [] with
  | inl e => inl e
  | inr normalized => inr (sortStable (keyLess spName str_ltb) normalized)
  end.

(** ** Jobs for an object *)

Definition containsString (values : list string) (value : string) : bool := existsb (String.eqb value) values.

Definition containsAny (wanted available : list string) : bool := existsb (containsString available) wanted.

Definition specMatchesObject (spec : AnalyzerSpec) (manifest : Manifest) : bool :=
  if negb (bool_decide (spMediaTypes spec = [])) && negb (containsString (spMediaTypes spec) (mMediaType manifest)) then false
  else if negb (bool_decide (spContentRoles spec = [])) && negb (containsAny (spContentRoles spec) (mContentRoles manifest))
  then false else true.

Definition analysisAnnotationsByName (annotations : list Annotation) : gmap string Annotation :=
  foldl (fun result a =>
    if String.eqb (aKind a) "analysis" && negb (String.eqb (aAnalyzerName a) "")
    then <[aAnalyzerName a := a]> result else result) ∅ annotations.

(** A missing annotation is the zero value, with an empty analyzer name. *)
Definition analysisReason (spec : AnalyzerSpec) (annotation : option Annotation) (request : SchedulerScanRequest) : string :=
  if sqForced request then "forced" else
  match annotation with
  | None => "missing"
  | Some a =>
      if String.eqb (aAnalyzerName a) "" then "missing"
      else if negb (String.eqb (aAnalyzerVer a) (spVersion spec)) then "stale"
      else match aData a !! "status" with
        | Some (AStr status) =>
            if String.eqb status "failed" || String.eqb status "error" || String.eqb status "invalid" then "repair" else ""
        | _ => ""
        end
  end.

Definition priorityClassForReason (reason : string) : string :=
  if String.eqb reason "forced" then PriorityForced
  else if String.eqb reason "repair" then PriorityRepair
  else PriorityBackground.

Definition priorityValue (cfg : Config) (priorityClass : string) : Z :=
  if String.eqb priorityClass PriorityInteractive then prInteractive (Priorities cfg)
  else if String.eqb priorityClass PriorityForced then prForced (Priorities cfg)
  else if String.eqb priorityClass PriorityFreshIngest then prFreshIngest (Priorities cfg)
  else if String.eqb priorityClass PriorityRepair then prRepair (Priorities cfg)
  else prBackground (Priorities cfg).

Definition objectChangeScanRequest (request : ObjectChangeRequest) : SchedulerScanRequest :=
  MkScanRequest (ocPriorityClass request) (firstNonEmpty [ocRequestedBy request; "filestore"])
    (firstNonEmpty [ocReason request; "object_changed"]) (ocTraceID request) SchemaVersionPhase00 false.

(** ** The world and the service *)

(** [scheduler.Store] and [scheduler.Broker] on a world of any kind.  A walk
    delivers its objects one after the other and may fail after them; the
    scheduler only reads the store, so the callbacks do not change what a walk
    delivers. *)
Class World (S : Type) := {
  wWalkProjection : S -> list ProjectionObject * option GoError;
  wProjectionObject : ObjectDigest -> SM S (option ProjectionObject);
  wDeclare : SM S unit;
  wPublish : AnalyzerJob -> SM S unit;
  wPublishObjectChanges : ObjectChangeRequest -> SM S unit;
  wPublishProjectionRefresh : ObjectDigest -> SM S unit;
  wProcessFailures : Z -> SM S (Z * option GoError);
  wRequeueDeadLetters : Z -> SM S (Z * option GoError);
  wDeadLetters : Z -> SM S (list AnalyzerJob * option GoError);
  wFailedJobs : Z -> SM S (list AnalyzerJob * option GoError);
  wPendingJobs : Z -> SM S (list AnalyzerJob * option GoError);
  wReconcilePending : Z -> (AnalyzerJob -> SM S bool) -> SM S (ReconcilePendingResponse * option GoError);
  wHasAnalysisAnnotation : ObjectDigest -> string -> string -> SM S bool;
  wStatus : SM S SchedulerStatus;
  wPerAnalyzerStatus : SM S (list AnalyzerQueueDepth);
  wPurgeAll : SM S Z;
  (** [projector.ProjectObject]. *)
  wProjectObject : ProjectionObject -> SM S unit;
  (** crypto/sha256, hex encoded. *)
  wSha256 : string -> string }.

(** What the scheduler asks of the broker and the projector. *)
Inductive call :=
  | Publish (job : AnalyzerJob)
  | PublishObjectChanges (request : ObjectChangeRequest)
  | PublishProjectionRefresh (digest : ObjectDigest)
  | ProjectObject (digest : ObjectDigest).

Record Service (S : Type) := MkService {
  svWorld : S;
  svFullyAnnotated : LruCache.lruCache;
  svPending : gset string;                 (* projectionPending *)
  svSweepPos : string;
  svSpecs : list AnalyzerSpec;
  svConfig : Config;
  svPressured : bool;
  svWriteSeen : bool;
  svProjector : bool;                      (* a projector was configured *)
  svClock : Time; svTicks : list N;        (* now, and future advances *)
  svCalls : list call }.
Arguments MkService {S}.
Arguments svWorld {S}. Arguments svFullyAnnotated {S}. Arguments svPending {S}. Arguments svSweepPos {S}.
Arguments svSpecs {S}. Arguments svConfig {S}. Arguments svPressured {S}. Arguments svWriteSeen {S}.
Arguments svProjector {S}. Arguments svClock {S}. Arguments svTicks {S}. Arguments svCalls {S}.

Definition objectChangeProcessLimit : Z := 100.
Definition failureProcessLimit : Z := 100.
Definition errSweepChunkDone : GoError := ErrVar "errSweepChunkDone".

Section service.
Context {S : Type} `{!World S}.

Definition W (A : Type) : Type := SM (Service S) A.

Definition set_world (x : S) (s : Service S) : Service S :=
  MkService x (svFullyAnnotated s) (svPending s) (svSweepPos s) (svSpecs s) (svConfig s) (svPressured s) (svWriteSeen s)
    (svProjector s) (svClock s) (svTicks s) (svCalls s).
Definition set_cache (x : LruCache.lruCache) (s : Service S) : Service S :=
  MkService (svWorld s) x (svPending s) (svSweepPos s) (svSpecs s) (svConfig s) (svPressured s) (svWriteSeen s)
    (svProjector s) (svClock s) (svTicks s) (svCalls s).
Definition set_pending (x : gset string) (s : Service S) : Service S :=
  MkService (svWorld s) (svFullyAnnotated s) x (svSweepPos s) (svSpecs s) (svConfig s) (svPressured s) (svWriteSeen s)
    (svProjector s) (svClock s) (svTicks s) (svCalls s).
Definition set_sweepPos (x : string) (s : Service S) : Service S :=
  MkService (svWorld s) (svFullyAnnotated s) (svPending s) x (svSpecs s) (svConfig s) (svPressured s) (svWriteSeen s)
    (svProjector s) (svClock s) (svTicks s) (svCalls s).
Definition set_pressured (x : bool) (s : Service S) : Service S :=
  MkService (svWorld s) (svFullyAnnotated s) (svPending s) (svSweepPos s) (svSpecs s) (svConfig s) x (svWriteSeen s)
    (svProjector s) (svClock s) (svTicks s) (svCalls s).
Definition set_writeSeen (x : bool) (s : Service S) : Service S :=
  MkService (svWorld s) (svFullyAnnotated s) (svPending s) (svSweepPos s) (svSpecs s) (svConfig s) (svPressured s) x
    (svProjector s) (svClock s) (svTicks s) (svCalls s).
Definition set_clock (t : Time) (ts : list N) (s : Service S) : Service S :=
  MkService (svWorld s) (svFullyAnnotated s) (svPending s) (svSweepPos s) (svSpecs s) (svConfig s) (svPressured s) (svWriteSeen s)
    (svProjector s) t ts (svCalls s).
Definition add_call (c : call) (s : Service S) : Service S :=
  MkService (svWorld s) (svFullyAnnotated s) (svPending s) (svSweepPos s) (svSpecs s) (svConfig s) (svPressured s) (svWriteSeen s)
    (svProjector s) (svClock s) (svTicks s) (svCalls s ++ [c]).

(** [service.now()]. *)
Definition now : W Time := fun s =>
  match svTicks s with
  | [] => (Ok (svClock s), s)
  | d :: r => let t := svClock s + Z.of_N d in (Ok t, set_clock t r s)
  end.

Definition onWorld {A} (m : SM S A) : W A := fun s => let '(r, x) := m (svWorld s) in (r, set_world x s).

Definition ask {A} (c : call) (m : SM S A) : W A := _ ← smodify (add_call c); onWorld m.

(** The default of a setting that is not positive. *)
Definition positiveOr (x d : Z) : Z := if x <=? 0 then d else x.

Definition NewService (world : S) (projector : bool) (t : Time) (ts : list N) (specs : list AnalyzerSpec) (cfg : Config) :
    GoError + Service S :=
  match NormalizeSpecs specs with
  | inl e => inl e
  | inr normalized =>
      let high := positiveOr (BackpressureHighWater cfg) 10000 in
      let low := positiveOr (BackpressureLowWater cfg) 5000 in
      if high <=? low then inl (ErrMsg "backpressure low-water must be below high-water") else
      inr (MkService world (LruCache.newLRUCache (positiveOr (FullyAnnotatedCacheSize cfg) 100000)) ∅ "" normalized
        (MkConfig (positiveOr (ScanInterval cfg) (30 * Second)) (positiveOr (RetryBackoff cfg) (30 * Second))
          (positiveOr (SelfHealIdleThreshold cfg) (300 * Second)) (Priorities cfg) high low
          (positiveOr (SelfHealChunkSize cfg) 500) (FullyAnnotatedCacheSize cfg))
        false false projector t ts [])
  end.

(** ** The fully-annotated cache *)

Definition cacheContains (digest : string) : W bool :=
  c ← sget svFullyAnnotated; r ← spanic (LruCache.Contains digest c); _ ← smodify (set_cache r.2); mret r.1.
Definition cacheAdd (digest : string) : W unit :=
  c ← sget svFullyAnnotated; c' ← spanic (LruCache.Add digest c); smodify (set_cache c').
Definition cacheRemove (digest : string) : W unit :=
  c ← sget svFullyAnnotated; c' ← spanic (LruCache.Remove digest c); smodify (set_cache c').

(** ** Jobs *)

Definition IdempotencyKey (job : AnalyzerJob) : string :=
  wSha256 (jObjectDigest job +:+ nul +:+ spName (jAnalyzer job) +:+ nul +:+ spVersion (jAnalyzer job) +:+
    (if jForced job then nul +:+ "forced" +:+ nul +:+ firstNonEmpty [jTraceID job; "forced"] else "")).

Definition normalizeJob (job : AnalyzerJob) : W AnalyzerJob :=
  t ← (if isZero (jCreatedAt job) then now else mret (jCreatedAt job));
  cfg ← sget svConfig;
  let key := if String.eqb (jIdempotencyKey job) "" then IdempotencyKey job else jIdempotencyKey job in
  let class := if String.eqb (jPriorityClass job) "" then PriorityBackground else jPriorityClass job in
  mret (MkJob t (jDeadline job) (jAnalyzer job) (jRequestedBy job) (jObjectDigest job) class (jReason job) (jTraceID job)
    (jFailure job) key (if String.eqb (jJobID job) "" then key else jJobID job)
    (if jSchemaVersion job =? 0 then SchemaVersionPhase00 else jSchemaVersion job) (jAttempt job)
    (if jPriority job =? 0 then priorityValue cfg class else jPriority job) (jForced job)).

Definition jobFor (cfg : Config) (spec : AnalyzerSpec) (digest : ObjectDigest) (request : SchedulerScanRequest)
    (reason : string) (t : Time) : AnalyzerJob :=
  let class := firstNonEmpty [sqPriorityClass request; priorityClassForReason reason] in
  let job := MkJob t zeroTime spec (firstNonEmpty [sqRequestedBy request; "scheduler"]) digest class
    (firstNonEmpty [sqReason request; reason]) (sqTraceID request) "" "" "" SchemaVersionPhase00 0 (priorityValue cfg class)
    (sqForced request) in
  let key := IdempotencyKey job in
  MkJob t zeroTime spec (jRequestedBy job) digest class (jReason job) (jTraceID job) "" key key SchemaVersionPhase00 0
    (jPriority job) (jForced job).

Definition jobsForObject (object : ProjectionObject) (request : SchedulerScanRequest) : W (list AnalyzerJob) :=
  specs ← sget svSpecs;
  cfg ← sget svConfig;
  let annotations := analysisAnnotationsByName (poAnnotations object) in
  sforM specs [] (fun jobs spec =>
    if negb (specMatchesObject spec (poManifest object)) then mret jobs else
    let reason := analysisReason spec (annotations !! spName spec) request in
    if String.eqb reason "" then mret jobs else
    t ← now;
    mret (jobs ++ [jobFor cfg spec (mObjectDigest (poManifest object)) request reason t])).

(** Publishes jobs until one fails; how many went out, and the error. *)
Fixpoint publishJobs (jobs : list AnalyzerJob) (enqueued : Z) : W (Z * option GoError) :=
  match jobs with
  | [] => mret (enqueued, None)
  | job :: r =>
      job ← normalizeJob job;
      res ← stry (ask (Publish job) (wPublish job));
      match res with
      | inl e => mret (enqueued, Some e)
      | inr _ => publishJobs r (enqueued + 1)
      end
  end.

Definition Enqueue (job : AnalyzerJob) : W unit :=
  job ← normalizeJob job; ask (Publish job) (wPublish job).

(** ** Walking the projection *)

(** The callback returns the new accumulator and its error; both are kept. *)
Fixpoint walkLoop {B} (objects : list ProjectionObject) (acc : B) (fn : B -> ProjectionObject -> W (B * option GoError)) :
    W (B * option GoError) :=
  match objects with
  | [] => mret (acc, None)
  | object :: r =>
      x ← fn acc object;
      match x.2 with
      | Some e => mret (x.1, Some e)
      | None => walkLoop r x.1 fn
      end
  end.

Definition walk {B} (acc : B) (fn : B -> ProjectionObject -> W (B * option GoError)) : W (B * option GoError) :=
  w ← sget (fun s => wWalkProjection (svWorld s));
  r ← walkLoop w.1 acc fn;
  mret (r.1, match r.2 with Some e => Some e | None => w.2 end).

Definition scanObject (request : SchedulerScanRequest) (response : SchedulerScanResponse) (object : ProjectionObject) :
    W (SchedulerScanResponse * option GoError) :=
  let '(MkScanResponse v scanned enqueued skipped failed) := response in
  let scanned := scanned + 1 in
  if negb (bool_decide (poFindings object = [])) then mret (MkScanResponse v scanned enqueued skipped (failed + 1), None) else
  jobs ← jobsForObject object request;
  if bool_decide (jobs = []) then
    _ ← cacheAdd (mObjectDigest (poManifest object));
    mret (MkScanResponse v scanned enqueued (skipped + 1) failed, None)
  else
    p ← publishJobs jobs enqueued;
    match p.2 with
    | Some e => mret (MkScanResponse v scanned p.1 skipped (failed + 1), Some e)
    | None =>
        let digest := mObjectDigest (poManifest object) in
        res ← stry (ask (PublishProjectionRefresh digest) (wPublishProjectionRefresh digest));
        mret (match res with
          | inl e => (MkScanResponse v scanned p.1 skipped (failed + 1), Some e)
          | inr _ => (MkScanResponse v scanned p.1 skipped failed, None)
          end)
    end.

Definition emptyResponse : SchedulerScanResponse := MkScanResponse SchemaVersionPhase00 0 0 0 0.

Definition Scan (request : SchedulerScanRequest) : W (SchedulerScanResponse * option GoError) :=
  r ← stry (onWorld wDeclare);
  match r with
  | inl e => mret (emptyResponse, Some e)
  | inr _ =>
      r ← onWorld (wProcessFailures 100);
      match r.2 with
      | Some e => mret (emptyResponse, Some e)
      | None => walk emptyResponse (scanObject request)
      end
  end.

Definition SelfHealSweep : W (SchedulerScanResponse * option GoError) :=
  _ ← smodify (set_sweepPos "");
  Scan (MkScanRequest PriorityRepair "scheduler" "self_heal_sweep" "" SchemaVersionPhase00 false).

Definition Force (digest : ObjectDigest) (analyzerNames : list string) (requestedBy traceID : string) :
    W (SchedulerScanResponse * option GoError) :=
  found ← stry (onWorld (wProjectionObject digest));
  match found with
  | inl e => mret (MkScanResponse 0 0 0 0 0, Some e)
  | inr None => mret (MkScanResponse 0 0 0 0 0, Some (ErrMsg "object not found"))
  | inr (Some object) =>
      let request := MkScanRequest PriorityForced requestedBy "forced" traceID SchemaVersionPhase00 true in
      _ ← cacheRemove digest;
      jobs ← jobsForObject object request;
      let wanted := List.filter (fun job =>
        bool_decide (analyzerNames = []) || containsString analyzerNames (spName (jAnalyzer job))) jobs in
      p ← publishJobs wanted 0;
      match p.2 with
      | Some e => mret (MkScanResponse SchemaVersionPhase00 1 p.1 0 1, Some e)
      | None => mret (MkScanResponse SchemaVersionPhase00 1 p.1 (if p.1 =? 0 then 1 else 0) 0, None)
      end
  end.

(** ** Change notifications *)

Definition noteWrite : W unit := smodify (set_writeSeen true).

Definition consumeWriteSeen : W bool :=
  seen ← sget svWriteSeen; _ ← smodify (set_writeSeen false); mret seen.

Definition clearPendingProjectionDigests (digests : list ObjectDigest) : W unit :=
  smodify (fun s => set_pending (svPending s ∖ list_to_set digests) s).

(** The loop over a request's digests: blank ones and repetitions are dropped, and
    for a projection-only request the ones already pending. *)
Record notifyState := MkNotify { nfSeen : gset string; nfDigests : list ObjectDigest; nfScanned : Z; nfSkipped : Z }.

Definition notifyDigest (projectionOnly : bool) (st : notifyState) (digest : ObjectDigest) : W notifyState :=
  let '(MkNotify seen digests scanned skipped) := st in
  if blank digest then mret st else
  if bool_decide (digest ∈ seen) then mret st else
  let seen := {[digest]} ∪ seen in
  pending ← (if projectionOnly then
    p ← sget svPending;
    _ ← (if bool_decide (digest ∈ p) then mret tt else smodify (set_pending ({[digest]} ∪ p)));
    mret (bool_decide (digest ∈ p)) else mret false);
  if pending : bool then mret (MkNotify seen digests scanned (skipped + 1))
  else mret (MkNotify seen (digests ++ [digest]) (scanned + 1) skipped).

Definition NotifyObjectsChanged (request : ObjectChangeRequest) : W (SchedulerScanResponse * option GoError) :=
  st ← sforM (ocObjectDigests request) (MkNotify ∅ [] 0 0) (notifyDigest (ocProjectionOnly request));
  if bool_decide (nfDigests st = []) then
    mret (MkScanResponse SchemaVersionPhase00 (nfScanned st) 0 (nfSkipped st) 0, None)
  else
    let normalized := MkChange (ocPriorityClass request) (ocRequestedBy request) (ocReason request) (ocTraceID request)
      SchemaVersionPhase00 (nfDigests st) (ocProjectionOnly request) in
    r ← stry (ask (PublishObjectChanges normalized) (wPublishObjectChanges normalized));
    match r with
    | inl e =>
        _ ← (if ocProjectionOnly request then clearPendingProjectionDigests (nfDigests st) else mret tt);
        mret (MkScanResponse SchemaVersionPhase00 (nfScanned st) 0 (nfSkipped st) (nfScanned st),
              Some (ErrWrap "publish object change notification" e))
    | inr _ =>
        _ ← noteWrite;
        mret (MkScanResponse SchemaVersionPhase00 (nfScanned st) (Z.of_nat (length (nfDigests st))) (nfSkipped st) 0, None)
    end.

(** The digests projected so far are threaded through. *)
Definition projectObjectChange (projected : gset string) (object : ProjectionObject) : W (gset string) :=
  let digest := mObjectDigest (poManifest object) in
  projector ← sget svProjector;
  if negb projector || bool_decide (digest ∈ projected) then mret projected else
  _ ← swrap "project changed object" (ask (ProjectObject digest) (wProjectObject object));
  mret ({[digest]} ∪ projected).

Definition enqueueObjectChangeAnalysis (object : ProjectionObject) (scanRequest : SchedulerScanRequest) : W unit :=
  jobs ← jobsForObject object scanRequest;
  if bool_decide (jobs = []) then cacheAdd (mObjectDigest (poManifest object)) else
  p ← publishJobs jobs 0;
  match p.2 with
  | Some e => sfail (ErrWrap "publish analysis job for changed object" e)
  | None => noteWrite
  end.

Definition processObjectChangeDigest (request : ObjectChangeRequest) (scanRequest : SchedulerScanRequest)
    (projected : gset string) (digest : ObjectDigest) : W (gset string) :=
  found ← swrap "load changed object" (onWorld (wProjectionObject digest));
  match found with
  | None => mret projected
  | Some object =>
      if negb (bool_decide (poFindings object = [])) then mret projected else
      projected ← projectObjectChange projected object;
      skip ← (if ocProjectionOnly request then mret true else cacheContains digest);
      if skip : bool then mret projected else
      _ ← enqueueObjectChangeAnalysis object scanRequest;
      mret projected
  end.

Definition processObjectChangeRequest (projected : gset string) (request : ObjectChangeRequest) : W (gset string) :=
  let scanRequest := objectChangeScanRequest request in
  sforM (ocObjectDigests request) projected (fun projected digest =>
    if blank digest then mret projected else processObjectChangeDigest request scanRequest projected digest).

Definition processObjectChanges (requests : list ObjectChangeRequest) : W unit :=
  r ← sforM requests (∅, []) (fun acc request =>
    projected ← processObjectChangeRequest acc.1 request;
    mret (projected, if ocProjectionOnly request then acc.2 ++ ocObjectDigests request else acc.2));
  clearPendingProjectionDigests r.2.

(** ** Backpressure *)

Definition pressureStep (high low depth : Z) (pressured : bool) : bool :=
  if pressured && (depth <=? low) then false
  else if negb pressured && (high <=? depth) then true
  else pressured.

Definition updatePressure : W unit :=
  r ← stry (onWorld wStatus);
  match r with
  | inl _ => mret tt
  | inr status =>
      smodify (fun s => set_pressured (pressureStep (BackpressureHighWater (svConfig s)) (BackpressureLowWater (svConfig s))
        (stPending status + stRetry status) (svPressured s)) s)
  end.

Definition Pressured : W bool := sget svPressured.

(** ** Self-healing *)

Record sweepState := MkSweep { swCount : Z; swStarted : bool; swLastDigest : string }.

Definition selfHealRequest : SchedulerScanRequest :=
  MkScanRequest PriorityRepair "scheduler" "self_heal" "" SchemaVersionPhase00 false.

Definition sweepObject (startPos : string) (chunkSize : Z) (st : sweepState) (object : ProjectionObject) :
    W (sweepState * option GoError) :=
  let digest := mObjectDigest (poManifest object) in
  if negb (swStarted st) && str_ltb digest startPos then mret (st, None) else
  if chunkSize <=? swCount st then mret (MkSweep (swCount st) true (swLastDigest st), Some errSweepChunkDone) else
  let st := MkSweep (swCount st + 1) true digest in
  if negb (bool_decide (poFindings object = [])) then mret (st, None) else
  jobs ← jobsForObject object selfHealRequest;
  if bool_decide (jobs = []) then _ ← cacheAdd digest; mret (st, None) else
  p ← publishJobs jobs 0;
  match p.2 with
  | Some e => mret (st, Some e)
  | None =>
      res ← stry (ask (PublishProjectionRefresh digest) (wPublishProjectionRefresh digest));
      mret (st, match res with inl e => Some e | inr _ => None end)
  end.

Definition selfHealChunk : W unit :=
  startPos ← sget svSweepPos;
  chunkSize ← sget (fun s => SelfHealChunkSize (svConfig s));
  r ← walk (MkSweep 0 false "") (sweepObject startPos chunkSize);
  smodify (set_sweepPos (if swCount r.1 <? chunkSize then "" else swLastDigest r.1)).

(** One round of [runSelfHeal]; its locals are since when the scheduler is idle
    and whether a sweep is due. *)
Definition selfHealTick (idleSince : Time) (sweepArmed : bool) : W (Time * bool) :=
  _ ← updatePressure;
  seen ← consumeWriteSeen;
  let idleSince := if seen : bool then zeroTime else idleSince in
  let sweepArmed := seen || sweepArmed in
  pressured ← Pressured;
  if negb (sweepArmed && negb pressured) then mret (idleSince, sweepArmed) else
  idleSince ← (if isZero idleSince then now else mret idleSince);
  t ← now;
  threshold ← sget (fun s => SelfHealIdleThreshold (svConfig s));
  if threshold <=? t - idleSince then _ ← selfHealChunk; mret (zeroTime, false)
  else mret (idleSince, sweepArmed).

(** ** The operator's calls *)

Definition limitOr (limit d : Z) : Z := if limit <=? 0 then d else limit.

Definition Requeue (request : RequeueRequest) : W (RequeueResponse * option GoError) :=
  r ← onWorld (wRequeueDeadLetters (limitOr (rqLimit request) 20));
  mret (MkRequeueResponse SchemaVersionPhase00 r.1, r.2).

Definition ProcessFailures (request : RequeueRequest) : W (RequeueResponse * option GoError) :=
  r ← onWorld (wProcessFailures (limitOr (rqLimit request) 20));
  mret (MkRequeueResponse SchemaVersionPhase00 r.1, r.2).

Definition DeadLetters (request : DeadLetterRequest) : W (DeadLetterResponse * option GoError) :=
  r ← onWorld (wDeadLetters (limitOr (dlqLimit request) 20)); mret (MkDeadLetterResponse r.1 SchemaVersionPhase00, r.2).

Definition FailedJobs (request : DeadLetterRequest) : W (DeadLetterResponse * option GoError) :=
  r ← onWorld (wFailedJobs (limitOr (dlqLimit request) 20)); mret (MkDeadLetterResponse r.1 SchemaVersionPhase00, r.2).

Definition PendingJobs (request : DeadLetterRequest) : W (DeadLetterResponse * option GoError) :=
  r ← onWorld (wPendingJobs (limitOr (dlqLimit request) 20)); mret (MkDeadLetterResponse r.1 SchemaVersionPhase00, r.2).

Definition ReconcilePending (request : RequeueRequest) : W (ReconcilePendingResponse * option GoError) :=
  r ← onWorld (wReconcilePending (limitOr (rqLimit request) 100) (fun job =>
    wHasAnalysisAnnotation (jObjectDigest job) (spName (jAnalyzer job)) (spVersion (jAnalyzer job))));
  let '(MkReconcile _ checked satisfied duplicate republished kept jobs) := r.1 in
  mret (MkReconcile SchemaVersionPhase00 checked satisfied duplicate republished kept jobs, r.2).

Definition Status : W SchedulerStatus := onWorld wStatus.
Definition AnalyzerStatus : W (list AnalyzerQueueDepth) := onWorld wPerAnalyzerStatus.
Definition PurgeQueues : W Z := onWorld wPurgeAll.

End service.

(** ** What the world promises *)

(** A call does not panic, and does not change what a walk delivers. *)
Definition mild {S A} `{!World S} (m : SM S A) : Prop := forall w,
  (m w).1 <> Panic /\ wWalkProjection (m w).2 = wWalkProjection w.

(** [ProcessFailures] returns its error beside the count. *)
Class WorldLaws (S : Type) `{!World S} : Prop := {
  w_declare : mild wDeclare;
  w_publish : forall job, mild (wPublish job);
  w_changes : forall request, mild (wPublishObjectChanges request);
  w_refresh : forall digest, mild (wPublishProjectionRefresh digest);
  w_failures : forall n, mild (wProcessFailures n);
  w_failures_total : forall n w e, (wProcessFailures n w).1 <> Err e;
  w_object : forall digest, mild (wProjectionObject digest);
  w_project : forall object, mild (wProjectObject object);
  w_status : mild wStatus }.

(** The broker takes every message. *)
Definition reliable (S : Type) `{!World S} : Prop :=
  (forall job w, (wPublish (S := S) job w).1 = Ok tt) /\ (forall d w, (wPublishProjectionRefresh (S := S) d w).1 = Ok tt).

(** ** The work an object needs *)

(** The analyzer takes objects of this media type and with one of these roles. *)
Definition applies (spec : AnalyzerSpec) (m : Manifest) : Prop :=
  (spMediaTypes spec = [] \/ mMediaType m ∈ spMediaTypes spec) /\
  (spContentRoles spec = [] \/ exists role, role ∈ spContentRoles spec /\ role ∈ mContentRoles m).

(** [a] is an analysis by the analyzer of this name. *)
Definition analysis_by (name : string) (a : Annotation) : Prop :=
  aKind a = "analysis" /\ aAnalyzerName a = name /\ name <> "".

(** [a] is the last analysis by that analyzer among the object's annotations. *)
Definition latest (name : string) (annotations : list Annotation) (a : Annotation) : Prop :=
  analysis_by name a /\ exists before after, annotations = before ++ a :: after /\ Forall (fun b => ~ analysis_by name b) after.

(** Why an object needs the analysis: it is asked for anyway, there is none, the
    one there is of another version, or it reports a failure. *)
Inductive needs (request : SchedulerScanRequest) (o : ProjectionObject) (spec : AnalyzerSpec) : string -> Prop :=
  | needs_forced : sqForced request = true -> needs request o spec "forced"
  | needs_missing : sqForced request = false -> Forall (fun a => ~ analysis_by (spName spec) a) (poAnnotations o) ->
      needs request o spec "missing"
  | needs_stale a : sqForced request = false -> latest (spName spec) (poAnnotations o) a -> aAnalyzerVer a <> spVersion spec ->
      needs request o spec "stale"
  | needs_repair a status : sqForced request = false -> latest (spName spec) (poAnnotations o) a -> aAnalyzerVer a = spVersion spec ->
      aData a !! "status" = Some (AStr status) -> status ∈ ["failed"; "error"; "invalid"] -> needs request o spec "repair".

(** The analyzers that have work, with the reason, in the order of the specs. *)
Inductive work (request : SchedulerScanRequest) (o : ProjectionObject) : list AnalyzerSpec -> list (AnalyzerSpec * string) -> Prop :=
  | work_nil : work request o [] []
  | work_due spec specs reason ps : applies spec (poManifest o) -> needs request o spec reason ->
      work request o specs ps -> work request o (spec :: specs) ((spec, reason) :: ps)
  | work_none spec specs ps : ~ applies spec (poManifest o) \/ (forall reason, ~ needs request o spec reason) ->
      work request o specs ps -> work request o (spec :: specs) ps.

(** ... and as the scheduler computes it. *)
Definition due (specs : list AnalyzerSpec) (request : SchedulerScanRequest) (o : ProjectionObject) : list (AnalyzerSpec * string) :=
  base.filter (fun p => p.2 <> "")
    (map (fun spec => (spec, analysisReason spec (analysisAnnotationsByName (poAnnotations o) !! spName spec) request))
      (List.filter (fun spec => specMatchesObject spec (poManifest o)) specs)).

Definition job_for (request : SchedulerScanRequest) (o : ProjectionObject) (p : AnalyzerSpec * string) (job : AnalyzerJob) : Prop :=
  jObjectDigest job = mObjectDigest (poManifest o) /\ jAnalyzer job = p.1 /\
  jReason job = firstNonEmpty [sqReason request; p.2] /\ jForced job = sqForced request /\ jTraceID job = sqTraceID request /\
  jPriorityClass job = firstNonEmpty [sqPriorityClass request; priorityClassForReason p.2].

(** The calls an object gives rise to: one job per analysis that is due, then a
    refresh of its projection. *)
Definition object_calls (specs : list AnalyzerSpec) (request : SchedulerScanRequest) (o : ProjectionObject) (cs : list call) : Prop :=
  if decide (poFindings o <> [] \/ due specs request o = []) then cs = [] else
  exists jobs, Forall2 (job_for request o) (due specs request o) jobs /\
    cs = map Publish jobs ++ [PublishProjectionRefresh (mObjectDigest (poManifest o))].

(** The calls an object gives rise to, from the work it needs. *)
Definition object_work (specs : list AnalyzerSpec) (request : SchedulerScanRequest) (o : ProjectionObject) (cs : list call) : Prop :=
  (poFindings o <> [] /\ cs = []) \/
  (poFindings o = [] /\ exists ps jobs, work request o specs ps /\ Forall2 (job_for request o) ps jobs /\
    cs = if decide (ps = []) then [] else map Publish jobs ++ [PublishProjectionRefresh (mObjectDigest (poManifest o))]).

Definition walk_work (specs : list AnalyzerSpec) (request : SchedulerScanRequest) (os : list ProjectionObject) (cs : list call) : Prop :=
  exists css, Forall2 (object_work specs request) os css /\ cs = concat css.

Lemma containsString_elem l x : containsString l x = true <-> x ∈ l.
Proof.
  unfold containsString. rewrite existsb_exists. setoid_rewrite <- list_elem_of_In. setoid_rewrite String.eqb_eq.
  split; [by intros (y & ? & ->)|eauto].
Qed.

Lemma specMatchesObject_applies spec m : specMatchesObject spec m = true <-> applies spec m.
Proof.
  assert (containsAny (spContentRoles spec) (mContentRoles m) = true <->
    exists role, role ∈ spContentRoles spec /\ role ∈ mContentRoles m) as Hany.
  { unfold containsAny. rewrite existsb_exists. setoid_rewrite <- list_elem_of_In. by setoid_rewrite containsString_elem. }
  unfold specMatchesObject, applies. rewrite <- Hany, <- containsString_elem.
  destruct (containsString _ _), (containsAny _ _); do 2 case_bool_decide; cbn; naive_solver.
Qed.

(** The table holds the last analysis under each name. *)
Lemma byName_latest annotations name :
  match analysisAnnotationsByName annotations !! name with
  | Some a => latest name annotations a
  | None => Forall (fun a => ~ analysis_by name a) annotations
  end.
Proof.
  unfold analysisAnnotationsByName. induction annotations as [|x l IH] using rev_ind; [by constructor|].
  rewrite foldl_app. cbn [foldl].
  destruct (String.eqb (aKind x) "analysis" && negb (String.eqb (aAnalyzerName x) "")) eqn:Hx.
  - apply andb_true_iff in Hx as [Hk%String.eqb_eq Hn%negb_true_iff%String.eqb_neq].
    destruct (decide (aAnalyzerName x = name)) as [<-|Hne].
    + rewrite lookup_insert_eq. split; [done|]. by exists l, [].
    + rewrite lookup_insert_ne by done. assert (~ analysis_by name x) as Hno by by intros (_ & ? & _).
      destruct (_ !! name) as [a|]; [|by apply Forall_app; repeat constructor].
      destruct IH as (Ha & before & after & -> & Haft). split; [done|]. exists before, (after ++ [x]).
      split; [by rewrite <- app_assoc|]. by apply Forall_app; repeat constructor.
  - assert (~ analysis_by name x) as Hno.
    { intros (Hk & Hn & Hne). rewrite Hk, Hn in Hx. cbn in Hx. by apply negb_false_iff, String.eqb_eq in Hx. }
    destruct (_ !! name) as [a|]; [|by apply Forall_app; repeat constructor].
    destruct IH as (Ha & before & after & -> & Haft). split; [done|]. exists before, (after ++ [x]).
    split; [by rewrite <- app_assoc|]. by apply Forall_app; repeat constructor.
Qed.

Lemma latest_unique name l a b : latest name l a -> latest name l b -> a = b.
Proof.
  intros (Ha & p1 & q1 & -> & H1) (Hb & p2 & q2 & He & H2). revert p2 He. induction p1 as [|y p1 IH]; intros [|z p2] He; cbn in He.
  - congruence.
  - injection He as <- ->. apply Forall_app in H1 as [_ [H1 _]%Forall_cons]. done.
  - injection He as -> <-. apply Forall_app in H2 as [_ [H2 _]%Forall_cons]. done.
  - injection He as _ He. by apply (IH p2).
Qed.

Lemma latest_some name l a : latest name l a -> ~ Forall (fun a => ~ analysis_by name a) l.
Proof. intros (Ha & p & q & -> & _) [_ [H _]%Forall_cons]%Forall_app. done. Qed.

Definition reasonFor (request : SchedulerScanRequest) (o : ProjectionObject) (spec : AnalyzerSpec) : string :=
  analysisReason spec (analysisAnnotationsByName (poAnnotations o) !! spName spec) request.

(** What the scheduler answers is why the analysis is needed. *)
Lemma reasonFor_needs request o spec reason : needs request o spec reason <-> reasonFor request o spec = reason /\ reason <> "".
Proof.
  unfold reasonFor, analysisReason. pose proof (byName_latest (poAnnotations o) (spName spec)) as Hl.
  destruct (sqForced request) eqn:Hf.
  { split; [by intros [| | |]; try congruence|]. intros [<- _]. by constructor. }
  destruct (analysisAnnotationsByName (poAnnotations o) !! spName spec) as [a|].
  2: { split; [|intros [<- _]; by constructor]. intros [H|H Hm|b H Hb|b st H Hb]; [congruence|done|..]; by destruct (latest_some _ _ _ Hb). }
  pose proof Hl as [(_ & Hn & Hne) _]. rewrite Hn, (proj2 (String.eqb_neq _ _) Hne).
  assert (forall b, latest (spName spec) (poAnnotations o) b -> b = a) as Hu by (intros b Hb; by eapply latest_unique).
  pose proof (latest_some _ _ _ Hl) as Hnm.
  destruct (String.eqb_spec (aAnalyzerVer a) (spVersion spec)) as [Hv|Hv]; cbn [negb].
  2: { split; [|intros [<- _]; by econstructor]. intros [H|H Hm|b H Hb|b st H Hb Hv']; [congruence|done|done|]. by rewrite (Hu b Hb) in Hv'. }
  split.
  - intros [H|H Hm|b H Hb Hv'|b st H Hb Hv' Hst Hin]; [congruence|done|by rewrite (Hu b Hb) in Hv'|].
    rewrite <- (Hu b Hb), Hst. rewrite !elem_of_cons in Hin. by destruct Hin as [->|[->|[->|?%elem_of_nil]]].
  - destruct (aData a !! "status") as [[]|] eqn:Hst; try (by intros [<- ?]).
    destruct (String.eqb_spec s "failed") as [->|]; [intros [<- _]; eapply needs_repair; eauto; set_solver|].
    destruct (String.eqb_spec s "error") as [->|]; [intros [<- _]; eapply needs_repair; eauto; set_solver|].
    destruct (String.eqb_spec s "invalid") as [->|]; [intros [<- _]; eapply needs_repair; eauto; set_solver|]. by intros [<- ?].
Qed.

Lemma due_work specs request o : work request o specs (due specs request o).
Proof.
  unfold due. induction specs as [|spec specs IH]; [constructor|]. cbn [List.filter].
  destruct (specMatchesObject spec (poManifest o)) eqn:Hm.
  - cbn [map]. fold (reasonFor request o spec). destruct (decide (reasonFor request o spec = "")) as [He|He].
    + rewrite filter_cons_False by (cbn; tauto). apply work_none; [|done]. right. intros r [Hr Hn]%reasonFor_needs. congruence.
    + rewrite filter_cons_True by done. apply work_due; [by apply specMatchesObject_applies|by apply reasonFor_needs|done].
  - apply work_none; [|done]. left. rewrite <- specMatchesObject_applies. by rewrite Hm.
Qed.

Lemma due_elem specs request o spec reason : spec ∈ specs -> applies spec (poManifest o) -> needs request o spec reason ->
  (spec, reason) ∈ due specs request o.
Proof.
  intros Hin Ha [<- Hne]%reasonFor_needs. unfold due. apply list_elem_of_filter. split; [done|].
  apply list_elem_of_fmap. exists spec. split; [done|]. apply list_elem_of_In, filter_In. split; [by apply list_elem_of_In|].
  by apply specMatchesObject_applies.
Qed.

Lemma object_calls_work specs request o cs : object_calls specs request o cs -> object_work specs request o cs.
Proof.
  unfold object_calls, object_work. intros H. destruct (decide (poFindings o = [])) as [Hf|Hf].
  - right. split; [done|]. case_decide as Hd.
    + destruct Hd as [?|Hd]; [done|]. exists [], []. rewrite <- Hd at 1. split; [apply due_work|]. by rewrite decide_True.
    + destruct H as (jobs & Hj & ->). exists (due specs request o), jobs. split; [apply due_work|]. split; [done|].
      rewrite decide_False; tauto.
  - left. rewrite decide_True in H by tauto. done.
Qed.

(** ... and the objects of a walk, one after the other. *)
Definition walk_calls (specs : list AnalyzerSpec) (request : SchedulerScanRequest) (os : list ProjectionObject) (cs : list call) : Prop :=
  exists css, Forall2 (object_calls specs request) os css /\ cs = concat css.

Lemma walk_calls_work specs request os cs : walk_calls specs request os cs -> walk_work specs request os cs.
Proof. intros (css & Hf & ->). exists css. split; [|done]. eapply Forall2_impl; [done|]. apply object_calls_work. Qed.

Section proofs.
Context {S : Type} `{!World S, !WorldLaws S}.
Implicit Types s : Service S.

Definition cache_ok s : Prop := exists k, LruCache.approximates (svFullyAnnotated s) k.

(** From [s] to [s'] the service only made the calls [cs]. *)
Record talk (cs : list call) (s s' : Service S) : Prop := {
  tk_specs : svSpecs s' = svSpecs s;
  tk_config : svConfig s' = svConfig s;
  tk_pending : svPending s' = svPending s;
  tk_sweep : svSweepPos s' = svSweepPos s;
  tk_pressured : svPressured s' = svPressured s;
  tk_walk : wWalkProjection (svWorld s') = wWalkProjection (svWorld s);
  tk_cache : cache_ok s -> cache_ok s';
  tk_calls : svCalls s' = svCalls s ++ cs }.

Lemma talk_refl s : talk [] s s.
Proof using Type. split; try done. by rewrite app_nil_r. Qed.

Lemma talk_trans a b s s1 s2 : talk a s s1 -> talk b s1 s2 -> talk (a ++ b) s s2.
Proof using Type. intros [] []. split; try congruence; [auto|]. rewrite app_assoc. congruence. Qed.

Lemma talk_nil cs s s1 s2 : talk [] s s1 -> talk cs s1 s2 -> talk cs s s2.
Proof using Type. apply (talk_trans []). Qed.

Lemma talk_end cs s s1 s2 : talk cs s s1 -> talk [] s1 s2 -> talk cs s s2.
Proof using Type. intros H1 H2. rewrite <- (app_nil_r cs). by eapply talk_trans. Qed.

Lemma svc_now_post s (Q : GoError + Time -> Service S -> Prop) : (forall t s', talk [] s s' -> Q (inr t) s') -> post now s Q.
Proof using Type.
  intros HQ. unfold post, now. destruct (svTicks s); apply HQ; [apply talk_refl|]. split; try done. cbn. by rewrite app_nil_r.
Qed.

Lemma onWorld_post {A} (m : SM S A) s Q : mild m ->
  (forall r s', talk [] s s' -> (forall e, r = inl e -> exists w, (m w).1 = Err e) -> Q r s') -> post (onWorld m) s Q.
Proof using Type.
  intros Hm HQ. unfold post, onWorld. pose proof (Hm (svWorld s)) as [Hp Hw].
  destruct (m (svWorld s)) as [r x] eqn:Hr. cbn in Hp, Hw.
  assert (talk [] s (set_world x s)) as Ht by (split; try done; cbn; by rewrite app_nil_r).
  destruct r; [by apply HQ| |done]. apply HQ; [done|]. intros e0 [= <-]. exists (svWorld s). by rewrite Hr.
Qed.

Lemma ask_post {A} c (m : SM S A) s Q : mild m ->
  (forall r s', talk [c] s s' -> (forall e, r = inl e -> exists w, (m w).1 = Err e) -> Q r s') -> post (ask c m) s Q.
Proof using Type.
  intros Hm HQ. unfold ask. apply post_bind. cbn -[post onWorld]. apply onWorld_post; [done|]. intros r s' Ht He. apply HQ; [|done].
  eapply (talk_end [c]); [|done]. by split.
Qed.

Lemma cacheAdd_post d s (Q : GoError + unit -> Service S -> Prop) : cache_ok s ->
  (forall s', talk [] s s' -> Q (inr tt) s') -> post (cacheAdd d) s Q.
Proof using Type.
  intros [k Hk] HQ. destruct (LruCache.step_ok (LruCache.OAdd d) _ _ Hk) as (b & c' & Hst & _ & Ha). cbn in Hst.
  destruct (LruCache.Add d (svFullyAnnotated s)) as [c1|] eqn:Hadd; [|done]. cbn in Hst. injection Hst as _ <-.
  unfold cacheAdd, post, mbind, SM_bind, sget, spanic, smodify. rewrite Hadd. apply HQ.
  split; try done; [|cbn; by rewrite app_nil_r]. intros _. eexists. exact Ha.
Qed.

(** ** Jobs *)

Lemma jobsForObject_post o request s (Q : GoError + list AnalyzerJob -> Service S -> Prop) :
  (forall jobs s', talk [] s s' -> Forall2 (job_for request o) (due (svSpecs s) request o) jobs -> Q (inr jobs) s') ->
  post (jobsForObject o request) s Q.
Proof using Type.
  intros HQ. unfold jobsForObject. do 2 (apply post_bind; unfold post at 1, sget; cbn -[post]).
  set (step := fun (jobs : list AnalyzerJob) spec => _). set (reason := fun spec => analysisReason spec (analysisAnnotationsByName (poAnnotations o) !! spName spec) request).
  apply (post_sforM _ _ _ _ (fun done jobs s1 => talk [] s s1 /\ Forall2 (job_for request o) (due done request o) jobs)).
  - split; [apply talk_refl|constructor].
  - intros done jobs spec s1 _ [Hs Hf].
    assert (due (done ++ [spec]) request o = due done request o ++
      (if specMatchesObject spec (poManifest o) then base.filter (fun p => p.2 <> "") [(spec, reason spec)] else [])) as Hd.
    { unfold due. rewrite List.filter_app, map_app, filter_app. f_equal. cbn. by destruct (specMatchesObject spec (poManifest o)). }
    unfold step at 1. destruct (specMatchesObject spec (poManifest o)); cbn [negb].
    + fold (reason spec). destruct (String.eqb_spec (reason spec) "") as [He|He].
      * apply post_ret. split; [done|]. rewrite Hd, filter_cons_False, app_nil_r; [done|]. cbn. tauto.
      * apply post_bind, svc_now_post. intros t s2 Ht. apply post_ret. split; [by eapply talk_nil|].
        rewrite Hd, filter_cons_True by done. apply Forall2_app; [done|]. by repeat constructor.
    + apply post_ret. split; [done|]. by rewrite Hd, app_nil_r.
  - intros jobs s' [Ht Hf]. by apply HQ.
Qed.

Lemma class_nonempty x reason : firstNonEmpty [x; priorityClassForReason reason] <> "".
Proof using Type.
  cbn. unfold blank. case_bool_decide; cbn; [|done]. unfold priorityClassForReason. by repeat case_match.
Qed.

Lemma normalizeJob_post request o p job s Q : job_for request o p job ->
  (forall job' s', talk [] s s' -> job_for request o p job' -> Q (inr job') s') -> post (normalizeJob job) s Q.
Proof using Type.
  intros (H1 & H2 & H3 & H4 & H5 & H6) HQ. unfold normalizeJob. apply post_bind.
  assert (forall t s', talk [] s s' -> post (cfg ← sget svConfig;
    let key := if String.eqb (jIdempotencyKey job) "" then IdempotencyKey job else jIdempotencyKey job in
    let class := if String.eqb (jPriorityClass job) "" then PriorityBackground else jPriorityClass job in
    mret (MkJob t (jDeadline job) (jAnalyzer job) (jRequestedBy job) (jObjectDigest job) class (jReason job) (jTraceID job)
      (jFailure job) key (if String.eqb (jJobID job) "" then key else jJobID job)
      (if jSchemaVersion job =? 0 then SchemaVersionPhase00 else jSchemaVersion job) (jAttempt job)
      (if jPriority job =? 0 then priorityValue cfg class else jPriority job) (jForced job))) s' Q) as H.
  { intros t s' Ht. apply post_bind. unfold post at 1, sget. apply post_ret, HQ; [done|].
    split_and!; cbn; try done. rewrite H6. destruct (String.eqb_spec (firstNonEmpty [sqPriorityClass request; priorityClassForReason p.2]) "") as [He|]; [|done].
    by apply class_nonempty in He. }
  destruct (isZero (jCreatedAt job)); [apply svc_now_post; intros t s' Ht; by apply H|]. apply post_ret. apply H, talk_refl.
Qed.

(** Jobs go out in order until one is refused. *)
Lemma publishJobs_post request o ps jobs n s Q : Forall2 (job_for request o) ps jobs ->
  (forall n' err sent s', talk (map Publish sent) s s' -> (reliable S -> err = None) ->
     (exists rest, Forall2 (job_for request o) ps (sent ++ rest) /\ (err = None -> rest = [])) -> Q (inr (n', err)) s') ->
  post (publishJobs jobs n) s Q.
Proof using Type*.
  intros Hf. revert n s Q. induction Hf as [|p job ps jobs Hj Hf IH]; intros n s Q HQ; cbn [publishJobs].
  - apply post_ret, (HQ _ _ []); [apply talk_refl|done|]. by exists [].
  - apply post_bind, (normalizeJob_post request o p); [done|]. intros job' s1 Ht1 Hj'. cbn beta iota.
    apply post_bind, post_try, ask_post; [apply w_publish|]. intros r s2 Ht2 He. destruct r as [e|[]].
    + apply post_ret, (HQ _ _ [job']); [by eapply talk_nil| |].
      * intros [Hr _]. destruct (He e eq_refl) as [w Hw]. by rewrite Hr in Hw.
      * exists jobs. split; [by constructor|done].
    + apply IH. intros n' err sent s3 Ht3 Hr (rest & Hrest & Hnil). apply (HQ _ _ (job' :: sent)).
      * eapply talk_nil; [done|]. by eapply (talk_trans [_]).
      * done.
      * exists rest. split; [by constructor|done].
Qed.

(** What a visit of one object comes to: all its calls, or with an error the
    first of them. *)
Definition visited (specs : list AnalyzerSpec) (request : SchedulerScanRequest) (o : ProjectionObject)
    (s : Service S) (err : option GoError) (s' : Service S) : Prop :=
  (reliable S -> err = None) /\ exists cs rest, talk cs s s' /\ object_calls specs request o (cs ++ rest) /\ (err = None -> rest = []).

Lemma visited_quiet specs request o s s' : (poFindings o <> [] \/ due specs request o = []) -> talk [] s s' ->
  visited specs request o s None s'.
Proof using Type. intros Ho Ht. split; [done|]. exists [], []. unfold object_calls. by rewrite decide_True. Qed.

Lemma due_nil specs request o jobs : Forall2 (job_for request o) (due specs request o) jobs -> jobs = [] <-> due specs request o = [].
Proof using Type. intros H. split; intros He; rewrite He in H; by inversion H. Qed.

(** The jobs, then the refresh. *)
Lemma visited_jobs request o s s1 s2 s3 jobs err rest c r : talk [] s s1 -> poFindings o = [] ->
  due (svSpecs s) request o <> [] -> talk (map Publish jobs) s1 s2 ->
  Forall2 (job_for request o) (due (svSpecs s) request o) (jobs ++ rest) -> (err = None -> rest = []) ->
  (forall e, err = Some e -> c = [] /\ s3 = s2 /\ r = Some e /\ (reliable S -> False)) ->
  (err = None -> c = [PublishProjectionRefresh (mObjectDigest (poManifest o))] /\ talk c s2 s3 /\ (reliable S -> r = None)) ->
  visited (svSpecs s) request o s r s3.
Proof using Type.
  intros Ht1 Hfi Hdue Ht2 Hf Hnil Herr Hok. assert (object_calls (svSpecs s) request o
    (map Publish (jobs ++ rest) ++ [PublishProjectionRefresh (mObjectDigest (poManifest o))])) as Hoc.
  { unfold object_calls. rewrite decide_False by tauto. eauto. }
  rewrite map_app, <- app_assoc in Hoc. destruct err as [e|].
  - destruct (Herr e eq_refl) as (-> & -> & -> & Hrel). split; [tauto|]. exists (map Publish jobs). eexists. split; [by eapply talk_nil|].
    split; [exact Hoc|done].
  - rewrite (Hnil eq_refl) in Hoc. destruct (Hok eq_refl) as (-> & Ht3 & Hr). split; [done|].
    exists (map Publish jobs ++ [PublishProjectionRefresh (mObjectDigest (poManifest o))]), []. split; [|by rewrite app_nil_r].
    eapply talk_nil; [done|]. by eapply talk_trans.
Qed.

(** The common part of a scan and a sweep. *)
Lemma visit_post {R} request o n (skip : R) (refused : Z -> GoError -> R) (refreshed : Z -> GoError + unit -> R) s :
  cache_ok s -> poFindings o = [] ->
  post (jobs ← jobsForObject o request;
    if bool_decide (jobs = []) then _ ← cacheAdd (mObjectDigest (poManifest o)); mret skip else
    p ← publishJobs jobs n;
    match p.2 with
    | Some e => mret (refused p.1 e)
    | None =>
        res ← stry (ask (PublishProjectionRefresh (mObjectDigest (poManifest o)))
                (wPublishProjectionRefresh (mObjectDigest (poManifest o))));
        mret (refreshed p.1 res)
    end) s (fun r s' => exists x err, r = inr x /\ visited (svSpecs s) request o s err s' /\
      (x = skip /\ err = None \/ (exists k e, x = refused k e /\ err = Some e) \/
       exists k res, x = refreshed k res /\ err = match res with inl e => Some e | inr _ => None end)).
Proof using Type*.
  intros Hc Hfi. apply post_bind, jobsForObject_post. intros jobs s1 Ht1 Hf. cbn beta iota.
  case_bool_decide as Hj.
  { apply post_bind, cacheAdd_post; [by apply (tk_cache _ _ _ Ht1)|]. intros s2 Ht2. apply post_ret. exists skip, None. split; [done|].
    split; [|by left]. apply visited_quiet; [right; by apply (due_nil _ _ _ _ Hf)|by eapply talk_nil]. }
  assert (due (svSpecs s) request o <> []) as Hdue by by rewrite <- (due_nil _ _ _ _ Hf).
  apply post_bind, (publishJobs_post _ _ _ _ _ _ _ Hf). intros k err sent s2 Ht2 Hrel (rest & Hrest & Hnil). cbn beta iota.
  cbn [fst snd]. destruct err as [e|].
  - apply post_ret. exists (refused k e), (Some e). split; [done|]. split; [|eauto 6].
    eapply (visited_jobs _ _ _ s1 s2 s2 sent (Some e)); try done.
    intros e' [= <-]. split_and!; [done..|]. intros H. by discriminate (Hrel H).
  - apply post_bind, post_try, ask_post; [apply w_refresh|]. intros r s3 Ht3 He. apply post_ret.
    exists (refreshed k r), (match r with inl e => Some e | inr _ => None end). split; [done|]. split; [|eauto 6].
    eapply (visited_jobs _ _ _ s1 s2 s3 sent None); try done.
    intros _. split; [done|]. split; [done|]. intros [_ Hr]. destruct r as [e|]; [|done].
    destruct (He e eq_refl) as [w Hw]. by rewrite Hr in Hw.
Qed.

Lemma scanObject_post request response o s : cache_ok s ->
  post (scanObject request response o) s (fun r s' => exists response' err, r = inr (response', err) /\
    visited (svSpecs s) request o s err s').
Proof using Type*.
  intros Hc. unfold scanObject. destruct response as [v scanned enqueued skipped failed]. cbv zeta.
  destruct (negb (bool_decide (poFindings o = []))) eqn:Hfi.
  { apply post_ret. do 2 eexists. split; [done|]. apply visited_quiet; [|apply talk_refl]. left.
    by apply negb_true_iff, bool_decide_eq_false in Hfi. }
  apply negb_false_iff, bool_decide_eq_true in Hfi.
  eapply post_mono; [apply (visit_post request o enqueued (MkScanResponse v (scanned + 1) enqueued (skipped + 1) failed, None)
    (fun k e => (MkScanResponse v (scanned + 1) k skipped (failed + 1), Some e))
    (fun k res => match res with inl e => (MkScanResponse v (scanned + 1) k skipped (failed + 1), Some e)
       | inr _ => (MkScanResponse v (scanned + 1) k skipped failed, None) end)); done|].
  intros r s' (x & err & -> & Hv & Hx). destruct Hx as [[-> ->]|[(k & e & -> & ->)|(k & [e|[]] & -> & ->)]]; eauto.
Qed.

(** Every object has its calls. *)
Lemma object_calls_exists specs request o : exists cs, object_calls specs request o cs.
Proof using World0.
  unfold object_calls. case_decide; [by eexists|].
  exists (map Publish (map (fun p => jobFor (MkConfig 0 0 0 (MkPriorities 0 0 0 0 0) 0 0 0 0) p.1 (mObjectDigest (poManifest o)) request p.2 0)
    (due specs request o)) ++ [PublishProjectionRefresh (mObjectDigest (poManifest o))]).
  eexists. split; [|done]. apply Forall2_fmap_r, Forall_Forall2_diag, Forall_forall. intros p _. by repeat split.
Qed.

Lemma walk_calls_exists specs request os : exists cs, walk_calls specs request os cs.
Proof using World0.
  induction os as [|o os (cs & css & Hf & ->)]; [by exists [], []|].
  destruct (object_calls_exists specs request o) as [c Hc]. exists (concat (c :: css)), (c :: css). split; [by constructor|done].
Qed.

Lemma walk_calls_cons specs request o os c cs :
  object_calls specs request o c -> walk_calls specs request os cs -> walk_calls specs request (o :: os) (c ++ cs).
Proof using Type. intros Ho (css & Hf & ->). exists (c :: css). split; [by constructor|done]. Qed.

(** What a walk over [os] comes to. *)
Definition walked (specs : list AnalyzerSpec) (request : SchedulerScanRequest) (os : list ProjectionObject)
    (s : Service S) (err : option GoError) (s' : Service S) : Prop :=
  exists cs rest, talk cs s s' /\ walk_calls specs request os (cs ++ rest) /\ (err = None -> rest = []).

Lemma walked_cons specs request o os s s1 s2 err :
  visited specs request o s None s1 -> walked specs request os s1 err s2 -> walked specs request (o :: os) s err s2.
Proof using Type.
  intros (_ & c & rest & Ht & Ho & Hn) (cs & rest' & Ht' & Hw & Hn'). rewrite (Hn eq_refl), app_nil_r in Ho.
  exists (c ++ cs), rest'. split; [by eapply talk_trans|]. split; [|done]. rewrite <- app_assoc. by apply walk_calls_cons.
Qed.

Lemma walked_stop specs request o os s s1 e :
  visited specs request o s (Some e) s1 -> walked specs request (o :: os) s (Some e) s1.
Proof using World0.
  intros (_ & c & rest & Ht & Ho & _). destruct (walk_calls_exists specs request os) as [cs Hcs].
  exists c, (rest ++ cs). split; [done|]. split; [|done]. rewrite app_assoc. by apply walk_calls_cons.
Qed.

Lemma walked_pre specs request os s s1 s2 err : talk [] s s1 -> walked specs request os s1 err s2 -> walked specs request os s err s2.
Proof using Type. intros Ht (cs & rest & Ht' & H). exists cs, rest. split; [by eapply talk_nil|done]. Qed.

Lemma walked_none specs request os s s1 e : talk [] s s1 -> walked specs request os s (Some e) s1.
Proof using World0. intros Ht. destruct (walk_calls_exists specs request os) as [cs Hcs]. exists [], cs. done. Qed.

Lemma scanLoop_post request os response s : cache_ok s ->
  post (walkLoop os response (scanObject request)) s (fun r s' => exists response' err, r = inr (response', err) /\
    (reliable S -> err = None) /\ walked (svSpecs s) request os s err s').
Proof using Type*.
  revert response s. induction os as [|o os IH]; intros response s Hc; cbn [walkLoop].
  - apply post_ret. do 2 eexists. split; [done|]. split; [done|]. exists [], []. split; [apply talk_refl|]. split; [|done]. by exists [].
  - apply post_bind. eapply post_mono; [by apply scanObject_post|]. intros r s1 (response' & err & -> & Hv). cbn beta iota.
    cbn [fst snd]. destruct err as [e|].
    + apply post_ret. do 2 eexists. split; [done|]. split; [intros Hr; by destruct Hv as [Hv _]; specialize (Hv Hr)|]. by apply walked_stop.
    + pose proof Hv as (_ & c & rest & Ht & _). eapply post_mono; [apply IH; by apply (tk_cache _ _ _ Ht)|].
      intros r s2 (response2 & err & -> & Hr & Hw). do 2 eexists. split; [done|]. split; [done|].
      rewrite (tk_specs _ _ _ Ht) in Hw. by eapply walked_cons.
Qed.

(** ** Sweeping *)

(** The part of the walk one chunk covers, and where the next one starts. *)
Fixpoint dropBefore (pos : string) (os : list ProjectionObject) : list ProjectionObject :=
  match os with
  | [] => []
  | o :: r => if str_ltb (mObjectDigest (poManifest o)) pos then dropBefore pos r else os
  end.

Definition chunk (pos : string) (size : Z) (os : list ProjectionObject) : list ProjectionObject :=
  take (Z.to_nat size) (dropBefore pos os).

Definition lastDigest (d : string) (os : list ProjectionObject) : string :=
  match last os with Some o => mObjectDigest (poManifest o) | None => d end.

Lemma lastDigest_cons d o os : lastDigest d (o :: os) = lastDigest (mObjectDigest (poManifest o)) os.
Proof using Type. unfold lastDigest. rewrite last_cons. by destruct (last os). Qed.

Definition nextPos (pos : string) (size : Z) (os : list ProjectionObject) : string :=
  if Z.of_nat (length (chunk pos size os)) <? size then "" else lastDigest "" (chunk pos size os).

Lemma sweepObject_post pos size st o s : cache_ok s -> swStarted st = true \/ str_ltb (mObjectDigest (poManifest o)) pos = false ->
  swCount st < size ->
  post (sweepObject pos size st o) s (fun r s' => exists err,
    r = inr (MkSweep (swCount st + 1) true (mObjectDigest (poManifest o)), err) /\ visited (svSpecs s) selfHealRequest o s err s').
Proof using Type*.
  intros Hc Hst Hlt. unfold sweepObject. cbv zeta.
  assert (negb (swStarted st) && str_ltb (mObjectDigest (poManifest o)) pos = false) as -> by (destruct Hst as [->| ->]; [done|by rewrite andb_false_r]).
  destruct (Z.leb_spec size (swCount st)); [lia|]. destruct (negb (bool_decide (poFindings o = []))) eqn:Hfi.
  { apply post_ret. eexists. split; [done|]. apply visited_quiet; [|apply talk_refl]. left.
    by apply negb_true_iff, bool_decide_eq_false in Hfi. }
  apply negb_false_iff, bool_decide_eq_true in Hfi. set (st' := MkSweep _ _ _).
  eapply post_mono; [apply (visit_post selfHealRequest o 0 (st', None) (fun _ e => (st', Some e))
    (fun _ res => (st', match res with inl e => Some e | inr _ => None end))); done|].
  intros r s' (x & err & -> & Hv & Hx). exists err. split; [|done]. destruct Hx as [[-> ->]|[(k & e & -> & ->)|(k & [e|[]] & -> & ->)]]; done.
Qed.

(** With a broker that takes everything a sweep visits its whole chunk. *)
Lemma sweepLoop_post pos size os st s : reliable S -> cache_ok s -> swStarted st = true -> 0 <= swCount st <= size ->
  post (walkLoop os st (sweepObject pos size)) s (fun r s' => exists st' err, r = inr (st', err) /\
    let seen := take (Z.to_nat (size - swCount st)) os in
    swCount st' = swCount st + Z.of_nat (length seen) /\ swLastDigest st' = lastDigest (swLastDigest st) seen /\
    walked (svSpecs s) selfHealRequest seen s None s').
Proof using Type*.
  intros Hr. revert st s. induction os as [|o os IH]; intros st s Hc Hst Hn; cbn [walkLoop].
  - apply post_ret. do 2 eexists. split; [done|]. cbv zeta. rewrite take_nil. cbn. split; [lia|]. split; [done|].
    exists [], []. split; [apply talk_refl|]. split; [|done]. by exists [].
  - destruct (decide (swCount st = size)) as [He|He].
    + apply post_bind. unfold sweepObject. rewrite Hst. cbn [negb andb]. destruct (Z.leb_spec size (swCount st)); [|lia].
      apply post_ret, post_ret. do 2 eexists. split; [done|]. cbv zeta. replace (Z.to_nat (size - swCount st)) with 0%nat by lia. cbn.
      split; [lia|]. split; [done|]. exists [], []. split; [apply talk_refl|]. split; [|done]. by exists [].
    + apply post_bind. eapply post_mono; [apply sweepObject_post; [done|by left|lia]|]. intros r s1 (err & -> & Hv). cbn beta iota.
      pose proof Hv as [Hnone _]. rewrite (Hnone Hr) in *. cbn [fst snd].
      pose proof Hv as (_ & c & rest & Ht & _). eapply post_mono; [apply IH; [by apply (tk_cache _ _ _ Ht)|done|cbn; lia]|].
      intros r s2 (st' & err' & -> & H1 & H2 & Hw). do 2 eexists. split; [done|]. cbv zeta. cbn [swCount swLastDigest] in *.
      replace (Z.to_nat (size - swCount st)) with (Datatypes.S (Z.to_nat (size - (swCount st + 1)))) by lia. cbn [take length].
      split; [lia|]. split.
      * by rewrite H2, lastDigest_cons.
      * rewrite (tk_specs _ _ _ Ht) in Hw. by eapply walked_cons.
Qed.

Lemma sweepStart_post pos size os s : reliable S -> cache_ok s -> 0 < size ->
  post (walkLoop os (MkSweep 0 false "") (sweepObject pos size)) s (fun r s' => exists st err, r = inr (st, err) /\
    swCount st = Z.of_nat (length (chunk pos size os)) /\ swLastDigest st = lastDigest "" (chunk pos size os) /\
    walked (svSpecs s) selfHealRequest (chunk pos size os) s None s').
Proof using Type*.
  intros Hr Hc Hsz. induction os as [|o os IH]; cbn [walkLoop].
  - apply post_ret. do 2 eexists. split; [done|]. unfold chunk. cbn. rewrite take_nil. split; [done|]. split; [done|].
    exists [], []. split; [apply talk_refl|]. split; [|done]. by exists [].
  - unfold chunk. cbn [dropBefore]. destruct (str_ltb (mObjectDigest (poManifest o)) pos) eqn:Hlt.
    + apply post_bind. unfold sweepObject. cbn [swStarted negb andb]. rewrite Hlt. apply post_ret. exact IH.
    + apply post_bind. eapply post_mono; [apply sweepObject_post; [done|by right|done]|]. intros r s1 (err & -> & Hv). cbn beta iota.
      pose proof Hv as [Hnone _]. rewrite (Hnone Hr) in *. cbn [fst snd swCount].
      pose proof Hv as (_ & c & rest & Ht & _). eapply post_mono; [apply sweepLoop_post; [done|by apply (tk_cache _ _ _ Ht)|done|cbn; lia]|].
      intros r s2 (st' & err' & -> & H1 & H2 & Hw). do 2 eexists. split; [done|]. cbn [swCount swLastDigest] in *.
      replace (Z.to_nat size) with (Datatypes.S (Z.to_nat (size - (0 + 1)))) by lia. cbn [take length].
      split; [lia|]. split; [by rewrite H2, lastDigest_cons|]. rewrite (tk_specs _ _ _ Ht) in Hw. by eapply walked_cons.
Qed.

(** The work of [os] was queued between [s] and [s']. *)
Record swept (os : list ProjectionObject) (pos : string) (s s' : Service S) : Prop := {
  sp_specs : svSpecs s' = svSpecs s;
  sp_config : svConfig s' = svConfig s;
  sp_walk : wWalkProjection (svWorld s') = wWalkProjection (svWorld s);
  sp_cache : cache_ok s';
  sp_pos : svSweepPos s' = pos;
  sp_calls : exists cs, svCalls s' = svCalls s ++ cs /\ walk_calls (svSpecs s) selfHealRequest os cs }.

Lemma selfHealChunk_run s : reliable S -> cache_ok s -> 0 < SelfHealChunkSize (svConfig s) ->
  let os := (wWalkProjection (svWorld s)).1 in let size := SelfHealChunkSize (svConfig s) in
  exists s', selfHealChunk s = (Ok tt, s') /\ swept (chunk (svSweepPos s) size os) (nextPos (svSweepPos s) size os) s s'.
Proof using Type*.
  intros Hr Hc Hsz os size. assert (post selfHealChunk s (fun r s' => r = inr tt /\
    swept (chunk (svSweepPos s) size os) (nextPos (svSweepPos s) size os) s s')) as H.
  { unfold selfHealChunk. do 2 (apply post_bind; unfold post at 1, sget). apply post_bind. unfold walk.
    apply post_bind; unfold post at 1, sget. apply post_bind. eapply post_mono; [by apply sweepStart_post|].
    intros r s1 (st & err & -> & Hn & Hl & cs & rest & Ht & Hw & Hnil). apply post_ret. cbn [fst].
    rewrite (Hnil eq_refl), app_nil_r in Hw. cbn. split; [done|]. destruct Ht. split; cbn; try done; [auto|..].
    - by rewrite Hn, Hl.
    - eauto. }
  unfold post in H. destruct (selfHealChunk s) as [[[]|e|] s']; [|by destruct H|done]. exists s'. by split; [|apply H].
Qed.

Fixpoint sweeps (n : nat) : W (S := S) unit :=
  match n with O => mret tt | Datatypes.S n => _ ← selfHealChunk; sweeps n end.

(** *** Where a sequence of sweeps gets to *)

Definition dig (o : ProjectionObject) : string := mObjectDigest (poManifest o).
Definition walk_order (os : list ProjectionObject) : Prop := StronglySorted (fun a b => str_ltb (dig a) (dig b) = true) os.

Fixpoint posAfter (n : nat) (pos : string) (size : Z) (os : list ProjectionObject) : string :=
  match n with O => pos | Datatypes.S n => posAfter n (nextPos pos size os) size os end.

Fixpoint covered (n : nat) (pos : string) (size : Z) (os : list ProjectionObject) : list ProjectionObject :=
  match n with O => [] | Datatypes.S n => chunk pos size os ++ covered n (nextPos pos size os) size os end.

Lemma covered_add n m pos size os : covered (n + m) pos size os = covered n pos size os ++ covered m (posAfter n pos size os) size os.
Proof using Type. revert pos. induction n as [|n IH]; intros pos; cbn; [done|]. by rewrite IH, app_assoc. Qed.

Lemma dropBefore_at os l1 o l2 : walk_order os -> os = l1 ++ o :: l2 -> dropBefore (dig o) os = o :: l2.
Proof using Type.
  intros Hs ->. induction l1 as [|x l1 IH]; cbn in *.
  - by rewrite str_ltb_irrefl.
  - apply StronglySorted_inv in Hs as [Hs Hall]. rewrite Forall_forall in Hall.
    specialize (Hall o ltac:(apply elem_of_app; right; left)). unfold dig in *. rewrite Hall. by apply IH.
Qed.

Lemma dropBefore_start os : dropBefore "" os = os.
Proof using Type. destruct os as [|o os]; [done|]. cbn. by destruct (mObjectDigest (poManifest o)). Qed.

(** From any position, what is left is covered before the cursor starts over. *)
Lemma covers_rest size os : walk_order os -> 2 <= size -> forall n pos l1 l2, os = l1 ++ l2 -> dropBefore pos os = l2 ->
  (length l2 <= n)%nat -> exists k, (k <= Datatypes.S n)%nat /\ posAfter k pos size os = "" /\ forall o, o ∈ l2 -> o ∈ covered k pos size os.
Proof using Type.
  intros Hs Hsz. induction n as [n IH] using lt_wf_ind. intros pos l1 l2 Hos Hd Hn.
  destruct (decide (Z.of_nat (length l2) < size)) as [Hlt|Hge].
  - assert (chunk pos size os = l2) as Hc by (unfold chunk; rewrite Hd; apply take_ge; lia).
    exists 1%nat. split; [lia|]. cbn. unfold nextPos. rewrite Hc. destruct (Z.ltb_spec (Z.of_nat (length l2)) size); [|lia].
    split; [done|]. intros o Ho. by rewrite app_nil_r.
  - assert (exists a y, take (Z.to_nat size) l2 = a ++ [y]) as (a & y & Hay).
    { assert (length (take (Z.to_nat size) l2) <> 0)%nat as Hl by (rewrite length_take; lia). revert Hl. clear.
      destruct (take (Z.to_nat size) l2) as [|y a _] using rev_ind; [done|eauto]. }
    assert (length a = Z.to_nat size - 1)%nat as Hla.
    { assert (length (take (Z.to_nat size) l2) = Z.to_nat size) as Hl by (rewrite length_take; lia). rewrite Hay, length_app in Hl. cbn in Hl. lia. }
    set (b := drop (Z.to_nat size) l2). assert (l2 = a ++ y :: b) as Hl2.
    { rewrite <- (take_drop (Z.to_nat size) l2), Hay, <- app_assoc. done. }
    assert (chunk pos size os = a ++ [y]) as Hc by (unfold chunk; by rewrite Hd).
    assert (nextPos pos size os = dig y) as Hnp.
    { unfold nextPos. rewrite Hc, length_app. cbn [length]. destruct (Z.ltb_spec (Z.of_nat (length a + 1)) size); [lia|].
      unfold lastDigest. by rewrite last_snoc. }
    assert (os = (l1 ++ a) ++ y :: b) as Hos' by (rewrite Hos, Hl2, app_assoc; done).
    assert (length l2 = length a + Datatypes.S (length b))%nat as Hll by (rewrite Hl2, length_app; done).
    destruct (IH (n - 1)%nat ltac:(lia) (dig y) (l1 ++ a) (y :: b) Hos') as (k & Hk & Hp & Hcov);
      [by eapply dropBefore_at|cbn; lia|].
    exists (Datatypes.S k). split; [lia|]. cbn. rewrite Hnp, Hc. split; [done|]. intros o Ho. rewrite Hl2 in Ho.
    apply elem_of_app in Ho as [Ho|Ho]; apply elem_of_app; [left; apply elem_of_app; by left|right; by apply Hcov].
Qed.

Lemma dropBefore_split pos os : exists l1, os = l1 ++ dropBefore pos os.
Proof using Type.
  induction os as [|o os [l1 IH]]; [by exists []|]. cbn. destruct (str_ltb _ _); [|by exists []]. exists (o :: l1). cbn. by f_equal.
Qed.

(** A full cycle covers everything. *)
Lemma covers_all size os pos o : walk_order os -> 2 <= size -> o ∈ os -> o ∈ covered (2 * (length os + 1)) pos size os.
Proof using Type.
  intros Hs Hsz Ho. destruct (dropBefore_split pos os) as [l1 Hl1].
  assert (length (dropBefore pos os) <= length os)%nat as Hle by (rewrite Hl1 at 2; rewrite length_app; lia).
  destruct (covers_rest size os Hs Hsz (length os) pos l1 _ Hl1 eq_refl Hle) as (k1 & Hk1 & Hp1 & _).
  destruct (covers_rest size os Hs Hsz (length os) "" [] os eq_refl (dropBefore_start os) ltac:(lia)) as (k2 & Hk2 & _ & Hc).
  replace (2 * (length os + 1))%nat with (k1 + (k2 + (2 * (length os + 1) - k1 - k2)))%nat by lia.
  rewrite covered_add, Hp1, covered_add, !elem_of_app. right. left. by apply Hc.
Qed.

Lemma walk_calls_app specs request os1 os2 cs1 cs2 :
  walk_calls specs request os1 cs1 -> walk_calls specs request os2 cs2 -> walk_calls specs request (os1 ++ os2) (cs1 ++ cs2).
Proof using Type. intros (a & Ha & ->) (b & Hb & ->). exists (a ++ b). rewrite concat_app. split; [by apply Forall2_app|done]. Qed.

Lemma sweeps_run n s : reliable S -> cache_ok s -> 0 < SelfHealChunkSize (svConfig s) ->
  let os := (wWalkProjection (svWorld s)).1 in let size := SelfHealChunkSize (svConfig s) in
  exists s', sweeps n s = (Ok tt, s') /\ swept (covered n (svSweepPos s) size os) (posAfter n (svSweepPos s) size os) s s'.
Proof using Type*.
  intros Hr. revert s. induction n as [|n IH]; intros s Hc Hsz os size.
  - exists s. split; [done|]. split; try done. exists []. rewrite app_nil_r. split; [done|]. by exists [].
  - destruct (selfHealChunk_run s Hr Hc Hsz) as (s1 & H1 & [P1 P2 P3 P4 P5 (cs & P6 & P7)]).
    destruct (IH s1) as (s2 & H2 & [K1 K2 K3 K4 K5 (cs' & K6 & K7)]); [done|by rewrite P2|].
    exists s2. cbn. unfold mbind, SM_bind. rewrite H1. split; [done|]. rewrite P2, P3, P5 in *. rewrite P1 in *.
    split; [congruence..|done|done|]. exists (cs ++ cs'). split; [rewrite K6, P6; by rewrite app_assoc|]. by apply walk_calls_app.
Qed.

(** The calls of a walk contain each object's jobs. *)
Lemma walk_calls_job specs request os cs o p : walk_calls specs request os cs -> o ∈ os -> poFindings o = [] -> p ∈ due specs request o ->
  exists job, Publish job ∈ cs /\ job_for request o p job.
Proof using Type.
  intros (css & Hf & ->) Ho Hfi Hp. induction Hf as [|o' c os css Hc Hf IH]; [by apply elem_of_nil in Ho|]. cbn.
  apply elem_of_cons in Ho as [<-|Ho].
  - unfold object_calls in Hc. rewrite decide_False in Hc by (intros [?|He]; [done|]; rewrite He in Hp; by apply elem_of_nil in Hp).
    destruct Hc as (jobs & Hj & ->). apply list_elem_of_lookup in Hp as [i Hi].
    destruct (Forall2_lookup_l _ _ _ _ _ Hj Hi) as (job & Hji & Hjob). exists job. split; [|done].
    rewrite !elem_of_app. left. left. apply list_elem_of_fmap. exists job. split; [done|]. by eapply list_elem_of_lookup_2.
  - destruct (IH Ho) as (job & Hin & Hjob). exists job. split; [|done]. apply elem_of_app. by right.
Qed.

End proofs.

(** C12: a scan queues exactly the work that is due.  Whatever the broker answers, a
    scan does not panic; the calls it makes are, in walk order, one job for every
    analyzer whose media types and roles the object has ([applies]) and of which
    the object has no analysis, whose last analysis is of another version, or
    reports [failed], [error] or [invalid] (any, when the scan is forced:
    [needs]), each object's jobs followed by one refresh of its projection, and
    nothing for an object with findings or with no work; a scan that stops with
    an error has made the first of these calls, one that returns without has
    made them all. *)
Theorem scan_exact {S} `{!World S, !WorldLaws S} (request : SchedulerScanRequest) (s : Service S) :
  cache_ok s ->
  exists response err s' cs rest, Scan request s = (Ok (response, err), s') /\ cache_ok s' /\
    svCalls s' = svCalls s ++ cs /\
    walk_work (svSpecs s) request (wWalkProjection (svWorld s)).1 (cs ++ rest) /\ (err = None -> rest = []).
Proof.
  intros Hc. assert (post (Scan request) s (fun r s' => exists response err, r = inr (response, err) /\
    walked (svSpecs s) request (wWalkProjection (svWorld s)).1 s err s')) as H.
  { unfold Scan. apply post_bind, post_try, onWorld_post; [apply w_declare|]. intros r s1 Ht1 _. destruct r as [e|[]].
    { apply post_ret. do 2 eexists. split; [done|]. by apply walked_none. }
    apply post_bind, onWorld_post; [apply w_failures|]. intros r s2 Ht2 He.
    assert (talk [] s s2) as Ht by by eapply talk_nil. destruct r as [e|[n [e|]]]; cbn [snd].
    { destruct (He e eq_refl) as [w Hw]. by destruct (w_failures_total 100 w e). }
    { apply post_ret. do 2 eexists. split; [done|]. by apply walked_none. }
    unfold walk. apply post_bind. unfold post at 1, sget. rewrite (tk_walk _ _ _ Ht). apply post_bind.
    eapply post_mono; [apply scanLoop_post; by apply (tk_cache _ _ _ Ht)|]. intros r s3 (response & err & -> & _ & Hw).
    rewrite (tk_specs _ _ _ Ht) in Hw. apply post_ret. do 2 eexists. split; [done|]. apply (walked_pre _ _ _ s s2); [done|].
    destruct Hw as (cs & rest & H1 & H2 & H3). exists cs, rest. split; [done|]. split; [done|]. cbn [snd]. destruct err; [done|auto]. }
  unfold post in H. destruct (Scan request s) as [[[response err]|e|] s']; [| |done].
  - destruct H as (response' & err' & [= <- <-] & cs & rest & Ht & Hw & Hn). exists response, err, s', cs, rest.
    split; [done|]. split; [by apply (tk_cache _ _ _ Ht)|]. split; [apply Ht|]. split; [by apply walk_calls_work|done].
  - by destruct H as (? & ? & ? & _).
Qed.

(** ** Notifications *)

(** The digests of a request that are to be published. *)
Record fresh (request : ObjectChangeRequest) (pending : gset string) (done ds : list ObjectDigest) : Prop := {
  fr_nodup : NoDup ds;
  fr_sub : ds `sublist_of` done;
  fr_elem : forall d, d ∈ ds <-> d ∈ done /\ blank d = false /\ (ocProjectionOnly request = true -> d ∉ pending) }.

Lemma fresh_skip request pending done ds d : fresh request pending done ds ->
  blank d = true \/ d ∈ done \/ (ocProjectionOnly request = true /\ d ∈ pending) -> fresh request pending (done ++ [d]) ds.
Proof.
  intros [H1 H2 H3] Hd. split; [done|by apply sublist_inserts_r|]. intros x. rewrite H3, elem_of_app, list_elem_of_singleton.
  split; [tauto|]. intros ([Hx| ->] & Hb & Hp); [tauto|]. destruct Hd as [Hd|[Hd|[Hd Hd']]]; [congruence|tauto|]. by destruct (Hp Hd).
Qed.

Lemma fresh_add request pending done ds d : fresh request pending done ds ->
  blank d = false -> d ∉ done -> (ocProjectionOnly request = true -> d ∉ pending) -> fresh request pending (done ++ [d]) (ds ++ [d]).
Proof.
  intros [H1 H2 H3] Hb Hd Hp. split.
  - apply NoDup_app. split; [done|]. split; [|apply NoDup_singleton]. intros x Hx%H3 ->%list_elem_of_singleton. tauto.
  - by apply sublist_app.
  - intros x. rewrite !elem_of_app, H3, list_elem_of_singleton. split; [|tauto]. intros [?| ->]; tauto.
Qed.

Section notify.
Context {S : Type} `{!World S}.

(** Half-way through a request's digests. *)
Definition notifying (request : ObjectChangeRequest) (s : Service S) (done : list ObjectDigest) (st : notifyState) (s' : Service S) : Prop :=
  fresh request (svPending s) done (nfDigests st) /\ nfScanned st = Z.of_nat (length (nfDigests st)) /\
  (forall d, d ∈ nfSeen st <-> d ∈ done /\ blank d = false) /\
  svPending s' = (if ocProjectionOnly request then svPending s ∪ list_to_set (nfDigests st) else svPending s) /\
  svCalls s' = svCalls s.

Lemma notifyDigest_post request s done st d s1 Q : notifying request s done st s1 ->
  (forall st' s', notifying request s (done ++ [d]) st' s' -> Q (inr st') s') ->
  post (notifyDigest (ocProjectionOnly request) st d) s1 Q.
Proof using Type*.
  intros (Hf & Hn & Hs & Hp & Hc) HQ. unfold notifyDigest. destruct st as [seen ds scanned skipped]. cbn [nfDigests nfScanned nfSeen] in *.
  destruct (blank d) eqn:Hb.
  { apply post_ret, HQ. split; [by apply fresh_skip; auto|]. split_and!; try done. intros x. cbn. rewrite Hs, elem_of_app, list_elem_of_singleton.
    split; [tauto|]. intros [[?| ->] ?]; [tauto|congruence]. }
  assert (d ∈ seen <-> d ∈ done) as Hsd by (rewrite Hs; tauto). case_bool_decide as Hin.
  { apply post_ret, HQ. split; [apply fresh_skip; [done|right; left; by apply Hsd]|]. split_and!; try done. intros x. cbn.
    rewrite Hs, elem_of_app, list_elem_of_singleton. split; [tauto|]. intros [[?| ->] ?]; tauto. }
  cbv zeta. rewrite Hsd in Hin.
  assert (forall x, x ∈ {[d]} ∪ seen <-> x ∈ done ++ [d] /\ blank x = false) as Hs'.
  { intros x. rewrite elem_of_union, elem_of_singleton, Hs, elem_of_app, list_elem_of_singleton. split; [|tauto]. intros [->|?]; tauto. }
  destruct (ocProjectionOnly request) eqn:Hpo.
  - apply post_bind. apply post_bind. unfold post at 1, sget. rewrite Hp.
    assert (d ∈ svPending s ∪ list_to_set ds <-> d ∈ svPending s) as Hpe.
    { rewrite elem_of_union, elem_of_list_to_set. split; [|tauto]. intros [?|Hds]; [done|]. apply (fr_elem _ _ _ _ Hf) in Hds. tauto. }
    case_bool_decide as Hdp.
    + apply post_bind, post_ret, post_ret, post_ret, HQ. split; [apply fresh_skip; [done|right; right; split; [done|by apply Hpe]]|].
      cbn. rewrite Hpo. done.
    + apply post_bind. unfold post at 1, smodify. apply post_ret, post_ret, HQ.
      split; [apply fresh_add; [done..|intros _; by rewrite <- Hpe]|]. cbn. rewrite Hpo. split; [rewrite length_app; cbn; lia|]. split; [done|].
      split; [|done]. rewrite list_to_set_app_L. cbn. set_solver.
  - apply post_bind, post_ret, post_ret, HQ. split; [apply fresh_add; [done..|by rewrite Hpo]|]. cbn. rewrite Hpo.
    split; [rewrite length_app; cbn; lia|done].
Qed.

End notify.

(** A notification publishes each new digest once and keeps the pending set
    honest.  Whatever the broker answers, a notification does not panic; it
    publishes one request with the distinct non-blank digests (without the
    already pending ones, for a projection-only request), or nothing when there
    are none.  A projection-only digest becomes pending exactly when it was
    published: a refused request leaves the pending set as it was, so that the
    digests are published again next time. *)
Theorem notify_exact {S} `{!World S, !WorldLaws S} (request : ObjectChangeRequest) (s : Service S) :
  exists ds response err s', fresh request (svPending s) (ocObjectDigests request) ds /\
    NotifyObjectsChanged request s = (Ok (response, err), s') /\
    svCalls s' = svCalls s ++ (if decide (ds = []) then [] else [PublishObjectChanges (MkChange (ocPriorityClass request)
      (ocRequestedBy request) (ocReason request) (ocTraceID request) SchemaVersionPhase00 ds (ocProjectionOnly request))]) /\
    svPending s' = (if ocProjectionOnly request && bool_decide (err = None) then svPending s ∪ list_to_set ds else svPending s) /\
    ssEnqueued response = (if decide (err = None) then Z.of_nat (length ds) else 0) /\
    ssScanned response = Z.of_nat (length ds) /\ ssFailed response = ssScanned response - ssEnqueued response.
Proof.
  assert (post (NotifyObjectsChanged request) s (fun r s' => exists ds response err, r = inr (response, err) /\
    fresh request (svPending s) (ocObjectDigests request) ds /\
    svCalls s' = svCalls s ++ (if decide (ds = []) then [] else [PublishObjectChanges (MkChange (ocPriorityClass request)
      (ocRequestedBy request) (ocReason request) (ocTraceID request) SchemaVersionPhase00 ds (ocProjectionOnly request))]) /\
    svPending s' = (if ocProjectionOnly request && bool_decide (err = None) then svPending s ∪ list_to_set ds else svPending s) /\
    ssEnqueued response = (if decide (err = None) then Z.of_nat (length ds) else 0) /\
    ssScanned response = Z.of_nat (length ds) /\ ssFailed response = ssScanned response - ssEnqueued response)) as H.
  2:{ unfold post in H. destruct (NotifyObjectsChanged request s) as [[[response err]|e|] s']; [| |done].
      - destruct H as (ds & response' & err' & [= <- <-] & H). exists ds, response, err, s'. tauto.
      - by destruct H as (? & ? & ? & ? & _). }
  unfold NotifyObjectsChanged. apply post_bind. apply (post_sforM _ _ _ _ (notifying request s)).
  - split; [|split; [done|split; [|split; [|done]]]].
    + split; [constructor|done|]. intros d. cbn. split; [by intros ?%elem_of_nil|]. by intros [?%elem_of_nil _].
    + intros d. cbn. rewrite elem_of_empty. split; [done|]. by intros [?%elem_of_nil _].
    + cbn. destruct (ocProjectionOnly request); set_solver.
  - intros done st d s1 _ Hn. eapply notifyDigest_post; [done|]. auto.
  - intros [seen ds scanned skipped] s1 (Hf & Hn & _ & Hp & Hc). cbn [nfDigests nfScanned nfSkipped] in *. case_bool_decide as Hnil.
    + apply post_ret. exists ds. do 2 eexists. split; [done|]. split; [done|]. rewrite decide_True by done. cbn. rewrite app_nil_r.
      subst ds. cbn in *. split; [done|]. rewrite decide_True by done. split; [|split_and!; lia]. rewrite Hp. by destruct (ocProjectionOnly request).
    + cbv zeta. apply post_bind, post_try, ask_post; [apply w_changes|]. intros r s2 Ht _.
      pose proof (tk_calls _ _ _ Ht) as Hc2. rewrite Hc in Hc2. pose proof (tk_pending _ _ _ Ht) as Hp2. rewrite Hp in Hp2. destruct r as [e|[]].
      * apply post_bind. assert (svPending s = svPending (set_pending (svPending s2 ∖ list_to_set ds) s2) \/ ocProjectionOnly request = false) as Hpen.
        { destruct (ocProjectionOnly request) eqn:Hpo; [left|by right]. cbn. rewrite Hp2. apply leibniz_equiv. intros d.
          rewrite elem_of_difference, elem_of_union, !elem_of_list_to_set, (fr_elem _ _ _ _ Hf), Hpo. split; [|tauto]. intros Hd. split; [by left|]. tauto. }
        destruct (ocProjectionOnly request) eqn:Hpo; cbn -[post];
          (apply post_ret; exists ds; do 2 eexists; split; [done|]; split; [done|]; rewrite (decide_False (P := ds = [])) by done;
           cbn; split; [done|]; split; [|rewrite decide_False by done; split_and!; lia]).
        -- by destruct Hpen as [->|?].
        -- done.
      * apply post_bind. cbn -[post]. apply post_ret. exists ds. do 2 eexists. split; [done|]. split; [done|].
        rewrite (decide_False (P := ds = [])) by done. cbn. split; [done|]. rewrite decide_True by done. split; [|split_and!; lia].
        rewrite Hp2. by destruct (ocProjectionOnly request).
Qed.

(** ** Backpressure *)

(** Backpressure is a latch with two thresholds.  The water marks a service
    runs with are in order, and after any sequence of queue depths the service is
    pressured exactly when some depth reached the high mark and none since was
    at or below the low mark. *)
Theorem pressure_latches {S} `{!World S} (world : S) (projector : bool) (t : Time) (ts : list N) (specs : list AnalyzerSpec)
    (cfg : Config) (s : Service S) (depths : list Z) :
  NewService world projector t ts specs cfg = inr s ->
  let high := BackpressureHighWater (svConfig s) in let low := BackpressureLowWater (svConfig s) in
  0 < low < high /\
  (foldl (fun p d => pressureStep high low d p) (svPressured s) depths = true <->
    exists before d after, depths = before ++ d :: after /\ high <= d /\ Forall (fun x => low < x) after).
Proof.
  unfold NewService. destruct (NormalizeSpecs specs) as [e|norm]; [done|]. cbv zeta.
  destruct (Z.leb_spec (positiveOr (BackpressureHighWater cfg) 10000) (positiveOr (BackpressureLowWater cfg) 5000)) as [|Hlt]; [done|].
  intros [= <-]. cbn. set (high := positiveOr (BackpressureHighWater cfg) 10000) in *. set (low := positiveOr (BackpressureLowWater cfg) 5000) in *.
  assert (0 < low) as Hlow by (unfold low, positiveOr; destruct (Z.leb_spec (BackpressureLowWater cfg) 0); lia).
  split; [lia|]. clearbody high low. induction depths as [|d depths IH] using rev_ind; cbn.
  - split; [done|]. by intros ([] & ? & ? & ? & _).
  - rewrite foldl_snoc. unfold pressureStep at 1. split.
    + intros H. assert (high <= d \/ foldl (fun p d => pressureStep high low d p) false depths = true /\ low < d) as [Hd|[Hp Hd]].
      { destruct (foldl _ false depths); cbn in H; destruct (Z.leb_spec d low), (Z.leb_spec high d); auto with lia; discriminate. }
      * exists depths, d, []. auto.
      * apply IH in Hp as (b & x & a & -> & Hx & Ha). exists b, x, (a ++ [d]). rewrite <- app_assoc. split; [done|]. split; [done|].
        apply Forall_app. auto.
    + intros (b & x & a & Heq & Hx & Ha). destruct a as [|y a _] using rev_ind.
      * apply app_inj_tail in Heq as [-> ->]. destruct (foldl _ false b); cbn; destruct (Z.leb_spec x low), (Z.leb_spec high x); done || lia.
      * rewrite app_comm_cons, app_assoc in Heq. apply app_inj_tail in Heq as [-> ->]. apply Forall_app in Ha as [Ha [Hy _]%Forall_cons].
        assert (foldl (fun p d => pressureStep high low d p) false (b ++ x :: a) = true) as -> by (apply IH; exists b, x, a; auto).
        cbn in Hy |- *. destruct (Z.leb_spec y low); [lia|done].
Qed.

(** C13: self-healing reaches every object.  With a projection walked in digest
    order, a broker that takes every message and a chunk size of two or more,
    twice as many sweeps as there are objects (and two) queue, from wherever the
    cursor stands, a job for every analysis any object needs (none, one of
    another version, one that failed). *)
Theorem sweeps_cover {S} `{!World S, !WorldLaws S} (s : Service S) :
  let os := (wWalkProjection (svWorld s)).1 in
  reliable S -> cache_ok s -> walk_order os -> 2 <= SelfHealChunkSize (svConfig s) ->
  exists s' cs, sweeps (2 * (length os + 1)) s = (Ok tt, s') /\ svCalls s' = svCalls s ++ cs /\
    forall o spec reason, o ∈ os -> poFindings o = [] ->
      spec ∈ svSpecs s -> applies spec (poManifest o) -> needs selfHealRequest o spec reason ->
      exists job, Publish job ∈ cs /\ job_for selfHealRequest o (spec, reason) job.
Proof.
  intros os Hr Hc Ho Hsz. destruct (sweeps_run (2 * (length os + 1)) s Hr Hc ltac:(lia)) as (s' & Hs & [_ _ _ _ _ (cs & Hcs & Hw)]).
  exists s', cs. split; [done|]. split; [done|]. intros o spec reason Hin Hfi Hsp Ha Hn.
  eapply walk_calls_job; [done| |done|by apply due_elem]. by apply covers_all.
Qed.

(** With a chunk size of one self-healing never gets past the first object.
    The cursor is the last object visited and the next chunk starts at it, so
    every sweep visits the first object of the walk again, however many follow. *)
Theorem single_chunk_sticks {S} `{!World S, !WorldLaws S} (s : Service S) (n : nat) (first : ProjectionObject) (rest : list ProjectionObject) :
  reliable S -> cache_ok s -> (wWalkProjection (svWorld s)).1 = first :: rest -> walk_order (first :: rest) ->
  SelfHealChunkSize (svConfig s) = 1 -> svSweepPos s = "" ->
  exists s' cs, sweeps n s = (Ok tt, s') /\ svCalls s' = svCalls s ++ cs /\
    walk_calls (svSpecs s) selfHealRequest (replicate n first) cs.
Proof.
  intros Hr Hc Hos Ho Hsz Hpos. destruct (sweeps_run n s Hr Hc ltac:(lia)) as (s' & Hs & [_ _ _ _ _ (cs & Hcs & Hw)]).
  exists s', cs. split; [done|]. split; [done|]. rewrite Hos, Hsz, Hpos in Hw.
  assert (forall pos, dropBefore pos (first :: rest) = first :: rest -> covered n pos 1 (first :: rest) = replicate n first) as H.
  { clear -Ho. induction n as [|n IH]; intros pos Hd; [done|]. cbn [covered replicate]. unfold nextPos, chunk. rewrite Hd. cbn -[covered].
    f_equal. apply IH. by apply (dropBefore_at _ [] first rest). }
  by rewrite H in Hw; [|apply dropBefore_start].
Qed.

(** ** A concrete world: a fixed projection, and a broker that takes everything *)

#[local] Instance exWorld : World (list ProjectionObject) := {
  wWalkProjection w := (w, None);
  wProjectionObject d w := (Ok (list_find (fun o => poDigest o = d) w ≫= fun p => Some p.2), w);
  wDeclare := mret tt;
  wPublish _ := mret tt;
  wPublishObjectChanges _ := mret tt;
  wPublishProjectionRefresh _ := mret tt;
  wProcessFailures _ := mret (0, None);
  wRequeueDeadLetters _ := mret (0, None);
  wDeadLetters _ := mret ([], None);
  wFailedJobs _ := mret ([], None);
  wPendingJobs _ := mret ([], None);
  wReconcilePending _ _ := mret (MkReconcile 0 0 0 0 0 0 [], None);
  wHasAnalysisAnnotation _ _ _ := mret false;
  wPerAnalyzerStatus := mret [];
  wPurgeAll := mret 0;
  wStatus := mret (MkStatus 1 0 0 0 0);
  wProjectObject _ := mret tt;
  wSha256 x := x }.

#[local] Instance exWorld_laws : WorldLaws (list ProjectionObject).
Proof. by split. Qed.

Lemma exWorld_reliable : reliable (list ProjectionObject).
Proof. by split. Qed.

Definition exObject (d : ObjectDigest) : ProjectionObject :=
  MkProjection d (MkManifest (MkTimestamps 0 0 0) 0 0 ∅ ∅ d "" "" "text/plain" "" (MkCompound [] false) [] [] [] [] [] [] [] [] 1 0) [] [].

Definition exObjects : list ProjectionObject := [exObject "a"; exObject "b"; exObject "c"].

Definition exSpec : AnalyzerSpec := MkSpec "text.extract" "1" "" "" ["text/plain"] [] [] [] [] 0 true.

Definition exConfig (chunkSize : Z) : Config := MkConfig 0 0 0 (MkPriorities 9 8 7 3 1) 100 50 chunkSize 0.

Definition exService (chunkSize : Z) : Service (list ProjectionObject) :=
  MkService exObjects (LruCache.newLRUCache 10) ∅ "" [exSpec] (exConfig chunkSize) false false true 1000 [] [].

Lemma exService_cache n : cache_ok (exService n).
Proof. exists ∅, []. split; [apply Lru.repr_empty|]. by intros k ?%elem_of_nil. Qed.

Lemma exObjects_order : walk_order exObjects.
Proof. by repeat constructor. Qed.

Definition published (cs : list call) : list ObjectDigest :=
  omap (fun c => match c with Publish job => Some (jObjectDigest job) | _ => None end) cs.

Lemma scan_exact_witness :
  published (svCalls (Scan selfHealRequest (exService 2)).2) = ["a"; "b"; "c"] /\ cache_ok (Scan selfHealRequest (exService 2)).2.
Proof.
  split; [vm_compute; reflexivity|].
  destruct (scan_exact selfHealRequest (exService 2) (exService_cache 2)) as (response & err & s' & cs & rest & -> & Hc & _). exact Hc.
Defined.

Lemma sweeps_cover_witness : exists s' cs, sweeps 8 (exService 2) = (Ok tt, s') /\ svCalls s' = cs /\
  exists job, Publish job ∈ cs /\ jObjectDigest job = "c".
Proof.
  destruct (sweeps_cover (exService 2) exWorld_reliable (exService_cache 2) exObjects_order ltac:(done)) as (s' & cs & Hr & Hc & Hj).
  exists s', cs. split; [exact Hr|]. split; [exact Hc|].
  destruct (Hj (exObject "c") exSpec "missing") as (job & Hin & Hd & _).
  - do 2 right. by left.
  - reflexivity.
  - by left.
  - apply specMatchesObject_applies. vm_compute. reflexivity.
  - apply needs_missing; [reflexivity|constructor].
  - exists job. split; [exact Hin|exact Hd].
Defined.

Lemma single_chunk_sticks_witness : exists s' cs, sweeps 20 (exService 1) = (Ok tt, s') /\ svCalls s' = cs /\
  walk_calls [exSpec] selfHealRequest (replicate 20 (exObject "a")) cs.
Proof.
  exact (single_chunk_sticks (exService 1) 20 (exObject "a") [exObject "b"; exObject "c"] exWorld_reliable (exService_cache 1)
    eq_refl exObjects_order eq_refl eq_refl).
Defined.

(** A projection-only notification with a repetition, of which one is pending. *)
Definition exChange : ObjectChangeRequest := MkChange "" "" "" "" 0 ["a"; " "; "b"; "a"] true.

Lemma notify_exact_witness : exists ds response err s',
  fresh exChange {["b"]} ["a"; " "; "b"; "a"] ds /\
  NotifyObjectsChanged exChange (set_pending {["b"]} (exService 2)) = (Ok (response, err), s') /\ svPending s' = {["a"; "b"]}.
Proof.
  destruct (notify_exact exChange (set_pending {["b"]} (exService 2))) as (ds & response & err & s' & Hf & Hr & _).
  exists ds, response, err, s'. split; [exact Hf|]. split; [exact Hr|].
  assert (svPending (NotifyObjectsChanged exChange (set_pending {["b"]} (exService 2))).2 = {["a"; "b"]}) as H by (vm_compute; reflexivity).
  rewrite Hr in H. exact H.
Defined.

Lemma pressure_latches_witness : exists s, NewService exObjects true 0 [] [exSpec] (exConfig 2) = inr s /\
  foldl (fun p d => pressureStep (BackpressureHighWater (svConfig s)) (BackpressureLowWater (svConfig s)) d p) (svPressured s) [20; 100; 60; 51] = true.
Proof.
  destruct (NewService exObjects true 0 [] [exSpec] (exConfig 2)) as [e|s] eqn:Hs; [vm_compute in Hs; discriminate|].
  exists s. split; [reflexivity|]. destruct (pressure_latches exObjects true 0 [] [exSpec] (exConfig 2) s [20; 100; 60; 51] Hs) as [_ H].
  apply H. exists [20], 100, [60; 51]. vm_compute in Hs. injection Hs as <-. cbn. split; [reflexivity|]. split; [lia|].
  repeat constructor; lia.
Defined.

End Scheduler.
