(* ===== verification/Broker.v ===== *)
(** * The RabbitMQ broker: [scheduler/rabbitmq/broker.go], [source_import.go]

    The scheduler's side of the message queues: the topology it declares, the
    publications it makes and has confirmed, and the loops that carry jobs from
    one queue to another.  The AMQP client and the server are any ([Amqp]): every
    call may fail, a channel may be lost at any point, messages arrive when they
    arrive.  A run keeps a trace of what it has published, received and settled.
    A call that waits for something that never comes has no result. *)

From stdpp Require Import options.
From S2P Require Import Prelude GoLib GoText Contracts Meta Jobs ArchiveQueue Breaker.

Local Open Scope Z_scope.

Module Rabbit.

(** ** Constants *)

Definition defaultQueuePrefix : string := "gmeow.".
Definition workSuffix : string := "analysis.work".
Definition reconcileSuffix : string := "analysis.reconcile".
Definition retrySuffix : string := "analysis.retry.v2".
Definition failedSuffix : string := "analysis.failed".
Definition deadLetterSuffix : string := "analysis.dead".
Definition projectionSuffix : string := "projection.refresh".
Definition sourceImportWorkSuffix : string := "source_import.work".
Definition sourceImportRetrySuffix : string := "source_import.retry".
Definition sourceImportFailedSuffix : string := "source_import.failed".
Definition sourceImportDeadLetterSuffix : string := "source_import.dead".
Definition analysisSuffix : string := "analysis".
Definition projectionExSuffix : string := "projection".
Definition sourceImportExSuffix : string := "source_import".
Definition workRoutingKey : string := "analysis.work".
Definition retryRoutingKey : string := "analysis.retry".
Definition failedRoutingKey : string := "analysis.failed".
Definition deadLetterRoutingKey : string := "analysis.dead".
Definition projectionRoutingKey : string := "projection.refresh".
Definition sourceImportWorkRoutingKey : string := "source_import.work".
Definition sourceImportRetryRoutingKey : string := "source_import.retry".
Definition sourceImportFailedRoutingKey : string := "source_import.failed".
Definition sourceImportDeadLetterRoutingKey : string := "source_import.dead".
Definition rabbitMQChannelOpenAttempts : nat := 2.
Definition rabbitMQStreamPrefetch : Z := 1000.
Definition sourceImportFailureQueueLimit : Z := 100.

Definition errBrokerClosed : GoError := ErrVar "errBrokerClosed".
Definition errObjectChangeFuncRequired : GoError := ErrVar "errObjectChangeFuncRequired".
Definition errConsumerStreamClosed : GoError := ErrVar "errConsumerStreamClosed".
Definition errRabbitMQPublishReturned : GoError := ErrVar "errRabbitMQPublishReturned".
Definition errRabbitMQPublishNacked : GoError := ErrVar "errRabbitMQPublishNacked".
Definition errRabbitMQConfirmClosed : GoError := ErrVar "errRabbitMQConfirmClosed".
Definition errRabbitMQConfirmTimeout : GoError := ErrVar "errRabbitMQConfirmTimeout".
Definition errSourceImportDeadLetter : GoError := ErrVar "errSourceImportDeadLetter".

(** ** Data *)

(** Durations are nanoseconds. *)
Record Config := MkConfig {
  cfURL : string; cfQueuePrefix : string; cfAnalyzers : list string; cfRetryLimit : Z; cfRetryBackoff : Z }.

Record topology := MkTopology {
  failedQueue : string; projectionExchange : string; sourceImportExchange : string; prefix : string; reconcileQueue : string;
  analysisExchange : string; deadLetterQueue : string; projectionQueue : string; sourceImportWorkQueue : string;
  sourceImportRetryQueue : string; sourceImportFailedQueue : string; sourceImportDeadLetterQueue : string;
  analyzers : list string }.

Record queueBinding := MkBinding { qbQueue : string; qbRoutingKey : string; qbExchange : string }.

Definition workQueueFor (top : topology) (analyzer : string) : string := prefix top +:+ workSuffix +:+ "." +:+ analyzer.
Definition workRoutingKeyFor (analyzer : string) : string := workRoutingKey +:+ "." +:+ analyzer.
Definition retryQueueFor (top : topology) (analyzer : string) : string := prefix top +:+ retrySuffix +:+ "." +:+ analyzer.
Definition retryRoutingKeyFor (analyzer : string) : string := retryRoutingKey +:+ "." +:+ analyzer.

Definition newTopology (prefix : string) (analyzers : list string) : topology :=
  MkTopology (prefix +:+ failedSuffix) (prefix +:+ projectionExSuffix) (prefix +:+ sourceImportExSuffix) prefix
    (prefix +:+ reconcileSuffix) (prefix +:+ analysisSuffix) (prefix +:+ deadLetterSuffix) (prefix +:+ projectionSuffix)
    (prefix +:+ sourceImportWorkSuffix) (prefix +:+ sourceImportRetrySuffix) (prefix +:+ sourceImportFailedSuffix)
    (prefix +:+ sourceImportDeadLetterSuffix) analyzers.

(** [amqp.Publishing]; a delivery carries the same fields, and the channel and
    the tag it is settled with. *)
Record Publishing := MkPublishing {
  pbContentType : string; pbContentEncoding : string; pbDeliveryMode : Z; pbPriority : Z; pbCorrelationId : string;
  pbReplyTo : string; pbExpiration : string; pbMessageId : string; pbTimestamp : Time; pbType : string; pbUserId : string;
  pbAppId : string; pbHeaders : anyMap; pbBody : string }.

Record Delivery := MkDelivery { dvChannel : N; dvTag : N; dvProperties : Publishing }.

Definition publishingFromDelivery (delivery : Delivery) : Publishing :=
  let d := dvProperties delivery in
  MkPublishing (pbContentType d) (pbContentEncoding d) (pbDeliveryMode d) (pbPriority d) (pbCorrelationId d) (pbReplyTo d)
    (pbExpiration d) (pbMessageId d) (pbTimestamp d) (pbType d) (pbUserId d) (pbAppId d) (pbHeaders d) (pbBody d).

Definition amqpPersistent : Z := 2.

(** A persistent JSON message; the properties the code never sets are empty. *)
Definition jsonMessage (messageID : string) (t : Time) (priority : Z) (expiration : string) (headers : anyMap) (body : string) : Publishing :=
  MkPublishing "application/json" "" amqpPersistent priority "" "" expiration messageID t "" "" "" headers body.

Definition clampPriority (priority : Z) : Z := if priority <? 0 then 0 else if 100 <? priority then 100 else priority.

Definition ClampInt32 (value : Z) : Z := if value <? 0 then 0 else if 2 ^ 31 - 1 <? value then 2 ^ 31 - 1 else value.

Definition withAttempt (attempt : Z) (j : AnalyzerJob) : AnalyzerJob :=
  MkJob (jCreatedAt j) (jDeadline j) (jAnalyzer j) (jRequestedBy j) (jObjectDigest j) (jPriorityClass j) (jReason j) (jTraceID j)
    (jFailure j) (jIdempotencyKey j) (jJobID j) (jSchemaVersion j) attempt (jPriority j) (jForced j).

Definition withImportAttempt (attempt : Z) (j : SourceImportJob) : SourceImportJob :=
  MkImportJob (ijCreatedAt j) (ijDeadline j) (ijRunID j) (ijSourceName j) (ijRoot j) (ijPath j) (ijRelativePath j) (ijFormat j)
    (ijRequestedBy j) (ijPriorityClass j) (ijTraceID j) (ijFailure j) (ijIdempotencyKey j) (ijJobID j) (ijSchemaVersion j)
    (ijOffset j) (ijLimit j) attempt (ijPriority j) (ijDryRun j) (ijLowNoise j).

(** ** The AMQP client, the context and encoding/json *)

(** What [select] finds while a publication waits for its confirmation. *)
Inductive publishEvent :=
  | Returned (reply : string) | ReturnsClosed
  | Confirmation (ack : bool) | ConfirmsClosed
  | Done (err : GoError) | TimedOut.

(** Connections, channels and streams of deliveries are told apart by numbers. *)
Class Amqp (W : Type) := {
  amCtxErr : SM W unit;                                         (* ctx.Err() *)
  amNow : SM W Time;
  amFormatTime : Time -> string;                                (* RFC 3339 with nanoseconds *)
  amDial : string -> SM W N;
  amCloseConnection : N -> SM W unit;
  amChannel : N -> SM W N;                                      (* conn.Channel(), or the time for it is over *)
  amClose : N -> SM W unit;
  amExchangeDeclare : N -> string -> SM W unit;
  amQueueDeclare : N -> string -> anyMap -> SM W unit;
  amQueueBind : N -> string -> string -> string -> SM W unit;
  amQueuePurge : N -> string -> SM W Z;
  amQueueDeclarePassive : N -> string -> SM W Z;                (* the messages that are ready *)
  amQos : N -> Z -> SM W unit;
  amConsume : N -> string -> string -> SM W N;
  amWait : N -> SM W (GoError + option Delivery);               (* the context is done, or a receive; [None]: closed *)
  amPoll : N -> SM W (option (option Delivery));                (* [None]: the default case *)
  amAck : Delivery -> SM W unit;
  amNack : Delivery -> bool -> SM W unit;
  amConfirm : N -> SM W unit;
  amPublish : N -> string -> string -> Publishing -> SM W unit; (* mandatory *)
  amSelect : N -> SM W publishEvent }.

Class BrokerJSON := {
  jsMarshalJob : AnalyzerJob -> GoError + string;
  jsUnmarshalJob : string -> GoError + AnalyzerJob;
  jsMarshalChange : ObjectChangeRequest -> GoError + string;
  jsUnmarshalChange : string -> GoError + ObjectChangeRequest;
  jsUnmarshalDigest : string -> GoError + string;               (* the field "digest" *)
  jsMarshalImport : SourceImportJob -> GoError + string;
  jsUnmarshalImport : string -> GoError + SourceImportJob }.

(** ** Runs *)

Inductive event :=
  | ExchangeDeclared (exchange : string)
  | QueueDeclared (queue : string) (args : anyMap)
  | QueueBound (b : queueBinding)
  | QueuePurged (queue : string) (messages : Z)
  | Published (exchange routingKey : string) (message : Publishing) (confirmed : bool)
  | Received (queue : string) (delivery : Delivery)
  | Judged (job : AnalyzerJob) (satisfied : bool)
  | Acked (delivery : Delivery) (sent : bool)
  | Nacked (delivery : Delivery) (requeue : bool) (sent : bool).

(** A client of the queues: its own state, the world, and what it has done. *)
Record Client (C W : Type) := MkClient { clState : C; clWorld : W; clTrace : list event }.
Arguments MkClient {C W} _ _ _.
Arguments clState {C W} _.
Arguments clWorld {C W} _.
Arguments clTrace {C W} _.

Section client.
Context {C W : Type} `{!Amqp W}.

Definition B (A : Type) : Type := SM (Client C W) A.

Definition world {A} (m : SM W A) : B A := fun s => let '(r, w) := m (clWorld s) in (r, MkClient (clState s) w (clTrace s)).
Definition log (e : event) : B unit := smodify (fun s => MkClient (clState s) (clWorld s) (clTrace s ++ [e])).
Definition state {A} (f : C -> A) : B A := sget (fun s => f (clState s)).
Definition update (f : C -> C) : B unit := smodify (fun s => MkClient (f (clState s)) (clWorld s) (clTrace s)).

(** A call whose error is not looked at. *)
Definition ignore {A} (m : B A) : B unit := _ ← stry m; mret tt.

(** A call that leaves its mark when it has returned. *)
Definition marked (e : bool -> event) (m : SM W unit) : B unit :=
  r ← stry (world m);
  _ ← log (e match r with inl _ => false | inr _ => true end);
  match r with inl err => sfail err | inr _ => mret tt end.

Definition lift {A} (r : GoError + A) : B A := match r with inl e => sfail e | inr a => mret a end.

Definition ackDelivery (d : Delivery) : B unit := swrap "ack rabbitmq delivery" (marked (Acked d) (amAck d)).

Definition nackDelivery (d : Delivery) (requeue : bool) : B unit :=
  swrap "nack rabbitmq delivery" (marked (Nacked d requeue) (amNack d requeue)).

Definition nackAfterError (d : Delivery) (cause : GoError) : B GoError :=
  r ← stry (nackDelivery d true);
  mret (match r with inl e => ErrJoin cause e | inr _ => cause end).

(** The number of acknowledged deliveries is kept when one fails. *)
Fixpoint ackFrom (processed : Z) (deliveries : list Delivery) : B (Z * option GoError) :=
  match deliveries with
  | [] => mret (processed, None)
  | d :: rest =>
      r ← stry (swrap "ack object change delivery" (marked (Acked d) (amAck d)));
      match r with inl e => mret (processed, Some e) | inr _ => ackFrom (processed + 1) rest end
  end.
Definition ackDeliveries (deliveries : list Delivery) : B (Z * option GoError) := ackFrom 0 deliveries.

Definition nackDeliveries (deliveries : list Delivery) (requeue : bool) : B (option GoError) :=
  sforM deliveries None (fun joined d =>
    r ← stry (swrap "nack object change delivery" (marked (Nacked d requeue) (amNack d requeue)));
    mret (match r with inl e => Some (match joined with Some j => ErrJoin j e | None => e end) | inr _ => joined end)).

(** A channel that was opened for nothing is closed. *)
Definition orClose {A} (channel : N) (m : B A) : B A :=
  r ← stry m;
  match r with inl e => _ ← ignore (world (amClose channel)); sfail e | inr a => mret a end.

Definition configureRabbitMQPublisher (channel : N) : B unit :=
  swrap "enable rabbitmq publisher confirms" (world (amConfirm channel)).

Definition waitRabbitMQPublishConfirmed (channel : N) : B unit :=
  e ← world (amSelect channel);
  match e with
  | ReturnsClosed | ConfirmsClosed => sfail errRabbitMQConfirmClosed
  | Returned reply => sfail (ErrWrap reply errRabbitMQPublishReturned)
  | Confirmation false => sfail errRabbitMQPublishNacked
  | Confirmation true => mret tt
  | Done err => sfail (ErrWrap "wait rabbitmq publish confirm" err)
  | TimedOut => sfail errRabbitMQConfirmTimeout
  end.

Definition closeRabbitMQChannelAsync (channel : N) : B unit := ignore (world (amClose channel)).

(** Publishing on an open channel, and what follows from a failure. *)
Definition publishOn (reset : B unit) (what : string) (channel : N) (exchange routingKey : string) (p : Publishing) : B unit :=
  r ← stry (swrap what (world (amPublish channel exchange routingKey p)));
  r ← match r with inl e => mret (inl e) | inr _ => stry (waitRabbitMQPublishConfirmed channel) end;
  _ ← log (Published exchange routingKey p match r with inl _ => false | inr _ => true end);
  match r with inl e => _ ← reset; sfail e | inr _ => mret tt end.

Definition receiveDeliveryFrom (queue : string) (deliveries : N) (wait : bool) : B (option Delivery) :=
  let closed := sfail (ErrWrap queue errConsumerStreamClosed) in
  if wait then
    r ← world (amWait deliveries);
    match r with
    | inl e => sfail (ErrWrap ("receive queue " +:+ queue) e)
    | inr None => closed
    | inr (Some d) => _ ← log (Received queue d); mret (Some d)
    end
  else
    r ← world (amPoll deliveries);
    match r with
    | None => mret None
    | Some None => closed
    | Some (Some d) => _ ← log (Received queue d); mret (Some d)
    end.

End client.
Arguments B : clear implicits.

(** ** The broker *)

(** The fields that change; [config] is fixed, and the topology is computed from
    it.  A consumer stream is a channel and its deliveries. *)
Record Broker := MkBroker {
  bkConnection : option N; bkPublishChannel : option N; bkConsumeStreams : gmap string (N * N); bkAdminChannel : option N }.

Definition set_connection (x : option N) (b : Broker) : Broker := MkBroker x (bkPublishChannel b) (bkConsumeStreams b) (bkAdminChannel b).
Definition set_publish (x : option N) (b : Broker) : Broker := MkBroker (bkConnection b) x (bkConsumeStreams b) (bkAdminChannel b).
Definition set_streams (x : gmap string (N * N)) (b : Broker) : Broker := MkBroker (bkConnection b) (bkPublishChannel b) x (bkAdminChannel b).
Definition set_admin (x : option N) (b : Broker) : Broker := MkBroker (bkConnection b) (bkPublishChannel b) (bkConsumeStreams b) x.

Definition topologyOf (config : Config) : topology := newTopology (cfQueuePrefix config) (cfAnalyzers config).

Section broker.
Context {W : Type} `{!Amqp W} {J : BrokerJSON}.
Context (config : Config).

Abbreviation Br := (B Broker W).
Local Abbreviation top := (topologyOf config).

Definition dialRabbitMQ : Br N := swrap "connect rabbitmq" (world (amDial (cfURL config))).

Definition currentConnection : Br N :=
  c ← state bkConnection;
  match c with None => sfail errBrokerClosed | Some conn => mret conn end.

Definition openRabbitMQChannel (conn : N) : Br N := swrap "open rabbitmq channel" (world (amChannel conn)).

Definition reconnect (stale : N) : Br unit :=
  _ ← swrap "reconnect rabbitmq" (world amCtxErr);
  conn ← dialRabbitMQ;
  current ← state bkConnection;
  if bool_decide (current = Some stale)
  then _ ← update (set_connection (Some conn)); ignore (world (amCloseConnection stale))
  else ignore (world (amCloseConnection conn)).

Fixpoint channelLoop (attemptsRemaining : nat) (lastErr : option GoError) : Br N :=
  match attemptsRemaining with
  | O => sfail (match lastErr with Some e => ErrWrap "open rabbitmq channel after reconnect" e
                | None => ErrMsg "open rabbitmq channel after reconnect" end)
  | S attemptsRemaining =>
      conn ← currentConnection;
      r ← stry (openRabbitMQChannel conn);
      match r with
      | inr channel => mret channel
      | inl e =>
          cancelled ← stry (world amCtxErr);
          match cancelled with
          | inl _ => sfail (ErrWrap "open rabbitmq channel" e)
          | inr _ =>
              r ← stry (reconnect conn);
              match r with inl e' => sfail (ErrJoin e e') | inr _ => channelLoop attemptsRemaining (Some e) end
          end
      end
  end.

Definition channel : Br N :=
  _ ← swrap "open rabbitmq channel" (world amCtxErr);
  channelLoop rabbitMQChannelOpenAttempts None.

Definition admin : Br N :=
  c ← state bkAdminChannel;
  match c with
  | Some channel => mret channel
  | None => channel ← channel; _ ← update (set_admin (Some channel)); mret channel
  end.

Definition resetAdmin : Br unit :=
  c ← state bkAdminChannel;
  match c with
  | None => mret tt
  | Some channel => _ ← update (set_admin None); closeRabbitMQChannelAsync channel
  end.

(** [init] is what the variables the operation assigns hold before it runs. *)
Definition withAdmin {A} (init : A) (operation : N -> Br (A * option GoError)) : Br (A * option GoError) :=
  r ← stry admin;
  match r with
  | inl e => mret (init, Some e)
  | inr channel =>
      r ← operation channel;
      match r.2 with
      | Some _ => _ ← resetAdmin; mret r
      | None => mret r
      end
  end.

Definition withConsumer {A} (init : A) (operation : Br (A * option GoError)) : Br (A * option GoError) :=
  r ← stry (swrap "use rabbitmq consumer" (world amCtxErr));
  match r with inl e => mret (init, Some e) | inr _ => operation end.

(** *** Topology *)

Definition exchangeDeclare (what : string) (channel : N) (exchange : string) : Br unit :=
  _ ← swrap what (world (amExchangeDeclare channel exchange)); log (ExchangeDeclared exchange).

Definition queueDeclare (what : string) (channel : N) (queue : string) (args : anyMap) : Br unit :=
  _ ← swrap what (world (amQueueDeclare channel queue args)); log (QueueDeclared queue args).

Definition queueBind (what : string) (channel : N) (b : queueBinding) : Br unit :=
  _ ← swrap (what +:+ qbQueue b) (world (amQueueBind channel (qbQueue b) (qbRoutingKey b) (qbExchange b)));
  log (QueueBound b).

Definition priorityArgs : anyMap := {["x-max-priority" := AInt 100]}.
Definition deadLetterArgs (exchange routingKey : string) : anyMap :=
  list_to_map [("x-dead-letter-exchange", AStr exchange); ("x-dead-letter-routing-key", AStr routingKey)].

Definition declareSourceImportQueues (channel : N) : Br unit :=
  _ ← exchangeDeclare "declare source import exchange" channel (sourceImportExchange top);
  _ ← queueDeclare "declare source import work queue" channel (sourceImportWorkQueue top)
        (priorityArgs ∪ deadLetterArgs (sourceImportExchange top) sourceImportFailedRoutingKey);
  _ ← queueDeclare "declare source import retry queue" channel (sourceImportRetryQueue top)
        (deadLetterArgs (sourceImportExchange top) sourceImportWorkRoutingKey);
  _ ← queueDeclare "declare source import failed queue" channel (sourceImportFailedQueue top) ∅;
  queueDeclare "declare source import dead-letter queue" channel (sourceImportDeadLetterQueue top) ∅.

Definition sourceImportBindings : list queueBinding :=
  [MkBinding (sourceImportWorkQueue top) sourceImportWorkRoutingKey (sourceImportExchange top);
   MkBinding (sourceImportRetryQueue top) sourceImportRetryRoutingKey (sourceImportExchange top);
   MkBinding (sourceImportFailedQueue top) sourceImportFailedRoutingKey (sourceImportExchange top);
   MkBinding (sourceImportDeadLetterQueue top) sourceImportDeadLetterRoutingKey (sourceImportExchange top)].

Definition declareAnalyzerQueues (channel : N) : Br unit :=
  sforM (analyzers top) tt (fun _ analyzer =>
    _ ← queueDeclare ("declare work queue " +:+ workQueueFor top analyzer) channel (workQueueFor top analyzer)
          (priorityArgs ∪ deadLetterArgs (analysisExchange top) failedRoutingKey);
    _ ← queueDeclare ("declare retry queue " +:+ retryQueueFor top analyzer) channel (retryQueueFor top analyzer)
          (deadLetterArgs (analysisExchange top) (workRoutingKeyFor analyzer));
    _ ← queueBind "bind work queue " channel (MkBinding (workQueueFor top analyzer) (workRoutingKeyFor analyzer) (analysisExchange top));
    queueBind "bind retry queue " channel (MkBinding (retryQueueFor top analyzer) (retryRoutingKeyFor analyzer) (analysisExchange top))).

Definition declareOn (channel : N) : Br unit :=
  _ ← exchangeDeclare "declare analysis exchange" channel (analysisExchange top);
  _ ← exchangeDeclare "declare projection exchange" channel (projectionExchange top);
  _ ← queueDeclare "declare reconcile queue" channel (reconcileQueue top) priorityArgs;
  _ ← queueDeclare "declare failed queue" channel (failedQueue top) ∅;
  _ ← queueDeclare "declare dead-letter queue" channel (deadLetterQueue top) ∅;
  _ ← queueDeclare "declare projection queue" channel (projectionQueue top) ∅;
  _ ← declareSourceImportQueues channel;
  let bindings :=
    [MkBinding (failedQueue top) failedRoutingKey (analysisExchange top);
     MkBinding (deadLetterQueue top) deadLetterRoutingKey (analysisExchange top);
     MkBinding (projectionQueue top) projectionRoutingKey (projectionExchange top)] ++ sourceImportBindings in
  _ ← sforM bindings tt (fun _ b => queueBind "bind queue " channel b);
  declareAnalyzerQueues channel.

Definition declareTopology : Br unit := channel ← admin; declareOn channel.

Definition allQueues : list string :=
  [reconcileQueue top; failedQueue top; deadLetterQueue top; projectionQueue top; sourceImportWorkQueue top;
   sourceImportRetryQueue top; sourceImportFailedQueue top; sourceImportDeadLetterQueue top] ++
  concat (map (fun a => [workQueueFor top a; retryQueueFor top a]) (analyzers top)).

Fixpoint purgeLoop (channel : N) (total : Z) (queues : list string) : Br (Z * option GoError) :=
  match queues with
  | [] => mret (total, None)
  | queue :: rest =>
      r ← stry (swrap ("purge queue " +:+ queue) (world (amQueuePurge channel queue)));
      match r with
      | inl e => mret (total, Some e)
      | inr purged => _ ← log (QueuePurged queue purged); purgeLoop channel (total + purged) rest
      end
  end.

Definition PurgeAll : Br (Z * option GoError) := withAdmin 0 (fun channel => purgeLoop channel 0 allQueues).

(** *** Publishing *)

Definition publisher : Br N :=
  c ← state bkPublishChannel;
  match c with
  | Some channel => mret channel
  | None =>
      channel ← channel;
      r ← stry (configureRabbitMQPublisher channel);
      match r with
      | inl e => _ ← ignore (world (amClose channel)); sfail e
      | inr _ => _ ← update (set_publish (Some channel)); mret channel
      end
  end.

Definition resetPublisher : Br unit :=
  c ← state bkPublishChannel;
  match c with
  | None => mret tt
  | Some channel => _ ← update (set_publish None); closeRabbitMQChannelAsync channel
  end.

Definition publishPersistent (exchange routingKey : string) (p : Publishing) : Br unit :=
  channel ← publisher;
  publishOn resetPublisher "publish rabbitmq message" channel exchange routingKey p.

Definition Publish (job : AnalyzerJob) : Br unit :=
  body ← lift (jsMarshalJob job);
  t ← world amNow;
  publishPersistent (analysisExchange top) (workRoutingKeyFor (spName (jAnalyzer job)))
    (jsonMessage (jIdempotencyKey job) t (clampPriority (jPriority job)) ""
       (list_to_map [("idempotency_key", AStr (jIdempotencyKey job)); ("attempt", AInt (ClampInt32 (jAttempt job)))]) body).

Definition PublishObjectChanges (request : ObjectChangeRequest) : Br unit :=
  body ← lift (jsMarshalChange request);
  t ← world amNow;
  let messageID := match ocObjectDigests request with [digest] => digest | _ => amFormatTime t end in
  t ← world amNow;
  publishPersistent (projectionExchange top) projectionRoutingKey (jsonMessage ("object-change:" +:+ messageID) t 0 "" ∅ body).

Definition PublishProjectionRefresh (digest : ObjectDigest) : Br unit :=
  PublishObjectChanges (MkChange "" "scheduler" "projection_refresh" "" SchemaVersionPhase00 [digest] true).

Definition PublishSourceImportJob (job : SourceImportJob) : Br unit :=
  body ← lift (jsMarshalImport job);
  t ← world amNow;
  publishPersistent (sourceImportExchange top) sourceImportWorkRoutingKey
    (jsonMessage (ijIdempotencyKey job) t (clampPriority (ijPriority job)) ""
       (list_to_map [("idempotency_key", AStr (ijIdempotencyKey job)); ("attempt", AInt (ClampInt32 (ijAttempt job)));
                     ("run_id", AStr (ijRunID job))]) body).

(** *** Queue depths *)

Definition inspectQueue (channel : N) (queue : string) : Br Z :=
  swrap ("inspect queue " +:+ queue) (world (amQueueDeclarePassive channel queue)).

(** An operation of [withAdmin] that leaves nothing behind when it fails. *)
Definition inspecting {A} (operation : N -> Br A) : Br A :=
  r ← withAdmin (inl (ErrMsg "not inspected")) (fun channel =>
        r ← stry (operation channel);
        mret (r, match r with inl e => Some e | inr _ => None end));
  match r.2 with Some e => sfail e | None => lift r.1 end.

Definition analyzerDepth (channel : N) (analyzer : string) : Br AnalyzerQueueDepth :=
  work ← inspectQueue channel (workQueueFor top analyzer);
  retry ← inspectQueue channel (retryQueueFor top analyzer);
  mret (MkQueueDepth analyzer work retry).

Definition PerAnalyzerStatus : Br (list AnalyzerQueueDepth) :=
  inspecting (fun channel => sforM (analyzers top) [] (fun depths analyzer =>
    depth ← analyzerDepth channel analyzer; mret (depths ++ [depth]))).

Definition Status : Br SchedulerStatus :=
  inspecting (fun channel =>
    p ← sforM (analyzers top) (0, 0) (fun acc analyzer =>
          depth ← analyzerDepth channel analyzer; mret (acc.1 + qdPending depth, acc.2 + qdRetry depth));
    failed ← inspectQueue channel (failedQueue top);
    dead ← inspectQueue channel (deadLetterQueue top);
    mret (MkStatus SchemaVersionPhase00 p.1 p.2 failed dead)).

Definition SourceImportStatus : Br SourceImportQueueStatus :=
  inspecting (fun channel =>
    work ← inspectQueue channel (sourceImportWorkQueue top);
    retry ← inspectQueue channel (sourceImportRetryQueue top);
    failed ← inspectQueue channel (sourceImportFailedQueue top);
    dead ← inspectQueue channel (sourceImportDeadLetterQueue top);
    mret (MkQueueStatus SchemaVersionPhase00 work retry failed dead)).

(** *** Consuming *)

Definition openConsumerStream (queue consumerTag : string) : Br (N * N) :=
  channel ← channel;
  _ ← orClose channel (swrap ("set rabbitmq consumer qos for queue " +:+ queue) (world (amQos channel rabbitMQStreamPrefetch)));
  deliveries ← orClose channel (swrap ("consume queue " +:+ queue) (world (amConsume channel queue consumerTag)));
  mret (channel, deliveries).

Definition consumerStream (queue : string) : Br N :=
  streams ← state bkConsumeStreams;
  match streams !! queue with
  | Some stream => mret stream.2
  | None =>
      stream ← openConsumerStream queue ("gmeow." +:+ queue);
      _ ← update (fun b => set_streams (<[queue := stream]> (bkConsumeStreams b)) b);
      mret stream.2
  end.

Definition resetConsumerStream (queue : string) : Br unit :=
  streams ← state bkConsumeStreams;
  match streams !! queue with
  | None => mret tt
  | Some stream =>
      _ ← update (fun b => set_streams (delete queue (bkConsumeStreams b)) b);
      closeRabbitMQChannelAsync stream.1
  end.

Definition receiveDelivery (queue : string) (wait : bool) : Br (option Delivery) :=
  deliveries ← consumerStream queue;
  r ← stry (receiveDeliveryFrom queue deliveries wait);
  match r with
  | inr d => mret d
  | inl e => _ ← (if isVar "errConsumerStreamClosed" e then resetConsumerStream queue else mret tt); sfail e
  end.

(** *** Carrying messages from queue to queue *)

(** One message: it is received, the message it becomes is published and
    confirmed, and only then it is acknowledged; when anything fails before, it is
    given back.  [false] when there is none. *)
Definition relay (queue : string) (wait : bool) (next : Delivery -> Br (string * string * Publishing)) : Br bool :=
  r ← receiveDelivery queue wait;
  match r with
  | None => mret false
  | Some d =>
      r ← stry (next d);
      match r with
      | inl e => e ← nackAfterError d e; sfail e
      | inr (exchange, routingKey, p) =>
          r ← stry (publishPersistent exchange routingKey p);
          match r with
          | inl e => e ← nackAfterError d e; sfail e
          | inr _ => _ ← ackDelivery d; mret true
          end
      end
  end.

(** [for count < limit]; the count is kept when a message fails.  Without a
    limit, the loop runs for [fuel] messages. *)
Fixpoint relayLoop (fuel : nat) (limit : option Z) (queue : string) (wait : Z -> bool)
    (next : Delivery -> Br (string * string * Publishing)) (count : Z) : Br (Z * option GoError) :=
  match fuel with
  | O => spanic None
  | S fuel =>
      if match limit with Some n => count <? n | None => true end then
        r ← stry (relay queue (wait count) next);
        match r with
        | inl e => mret (count, Some e)
        | inr false => mret (count, None)
        | inr true => relayLoop fuel limit queue wait next (count + 1)
        end
      else mret (count, None)
  end.

Definition orLimit (limit default : Z) : Z := if limit <=? 0 then default else limit.

(** [backoff *= 2], once for every attempt after the first, in 64 bits. *)
Definition retryBackoff (attempt : Z) : Z :=
  if attempt <=? 0 then cfRetryBackoff config
  else Nat.iter (Z.to_nat (attempt - 1)) (fun backoff => int64 (backoff * 2)) (cfRetryBackoff config).

Definition millisecond : Z := 1000000.

(** The header and the expiration of a message that is tried again. *)
Definition retryHeaders (attempt : Z) (headers : list (string * Any)) : anyMap :=
  list_to_map (headers ++ if 0 <? retryBackoff attempt then [("retry_backoff_ms", AInt (retryBackoff attempt ÷ millisecond))] else []).
Definition retryExpiration (attempt : Z) : string :=
  if (0 <? retryBackoff attempt) && (attempt <=? cfRetryLimit config) then FormatUint (Z.to_N (retryBackoff attempt ÷ millisecond)) else "".

Definition retryPublishing (job : AnalyzerJob) (body : string) (t : Time) : Publishing :=
  jsonMessage (jIdempotencyKey job) t (clampPriority (jPriority job)) (retryExpiration (jAttempt job))
    (retryHeaders (jAttempt job) [("idempotency_key", AStr (jIdempotencyKey job)); ("attempt", AInt (ClampInt32 (jAttempt job)))]) body.

Definition sourceImportRetryPublishing (job : SourceImportJob) (body : string) (t : Time) : Publishing :=
  jsonMessage (ijIdempotencyKey job) t (clampPriority (ijPriority job)) (retryExpiration (ijAttempt job))
    (retryHeaders (ijAttempt job) [("idempotency_key", AStr (ijIdempotencyKey job)); ("attempt", AInt (ClampInt32 (ijAttempt job)));
       ("run_id", AStr (ijRunID job))]) body.

(** Where a job goes whose attempts are counted. *)
Definition failureRoutingKey (job : AnalyzerJob) : string :=
  if cfRetryLimit config <? jAttempt job then deadLetterRoutingKey else retryRoutingKeyFor (spName (jAnalyzer job)).
Definition importFailureRoutingKey (job : SourceImportJob) : string :=
  if cfRetryLimit config <? ijAttempt job then sourceImportDeadLetterRoutingKey else sourceImportRetryRoutingKey.

(** [job.Attempt++] on a 64-bit [int]. *)
Definition retried (job : AnalyzerJob) : AnalyzerJob := withAttempt (int64 (jAttempt job + 1)) job.
Definition retriedImport (job : SourceImportJob) : SourceImportJob := withImportAttempt (int64 (ijAttempt job + 1)) job.

Definition nextFailure (d : Delivery) : Br (string * string * Publishing) :=
  job ← swrap "decode failed analyzer job" (lift (jsUnmarshalJob (pbBody (dvProperties d))));
  let job := retried job in
  body ← swrap "encode retried analyzer job" (lift (jsMarshalJob job));
  t ← world amNow;
  mret (analysisExchange top, failureRoutingKey job, retryPublishing job body t).

Definition ProcessFailures (limit : Z) : Br (Z * option GoError) :=
  let limit := orLimit limit 100 in
  withConsumer 0 (relayLoop (S (Z.to_nat limit)) (Some limit) (failedQueue top) (fun processed => processed =? 0) nextFailure 0).

Definition RouteFailure (job : AnalyzerJob) : Br unit :=
  let job := retried job in
  body ← lift (jsMarshalJob job);
  t ← world amNow;
  publishPersistent (analysisExchange top) (failureRoutingKey job) (retryPublishing job body t).

Definition nextImportFailure (d : Delivery) : Br (string * string * Publishing) :=
  job ← swrap "decode failed source import job" (lift (jsUnmarshalImport (pbBody (dvProperties d))));
  let job := retriedImport job in
  body ← swrap "encode retried source import job" (lift (jsMarshalImport job));
  t ← world amNow;
  mret (sourceImportExchange top, importFailureRoutingKey job, sourceImportRetryPublishing job body t).

Definition ProcessSourceImportFailures (limit : Z) : Br (Z * option GoError) :=
  let limit := orLimit limit 100 in
  withConsumer 0 (relayLoop (S (Z.to_nat limit)) (Some limit) (sourceImportFailedQueue top) (fun processed => processed =? 0)
    nextImportFailure 0).

(** Runs until something fails; [fuel] bounds the batches. *)
Fixpoint runSourceImportFailedQueue (fuel : nat) : Br unit :=
  match fuel with
  | O => spanic None
  | S fuel =>
      r ← ProcessSourceImportFailures sourceImportFailureQueueLimit;
      match r.2 with
      | Some e => sfail (ErrWrap "process source import failed queue" e)
      | None => runSourceImportFailedQueue fuel
      end
  end.

(** A dead letter is given back and reported.  The loop goes round only when
    waiting ends with nothing, which it never does. *)
Definition watchSourceImportDeadLetterQueue : Br unit :=
  r ← swrap "receive source import dead-letter queue" (receiveDelivery (sourceImportDeadLetterQueue top) true);
  match r with
  | None => spanic None
  | Some d =>
      match jsUnmarshalImport (pbBody (dvProperties d)) with
      | inl e => e ← nackAfterError d (ErrWrap "decode source import dead-letter job" e); sfail e
      | inr job => _ ← nackDelivery d true; sfail (ErrWrap (ijIdempotencyKey job) errSourceImportDeadLetter)
      end
  end.

Definition nextDeadLetter (d : Delivery) : Br (string * string * Publishing) :=
  job ← swrap "decode dead-letter job" (lift (jsUnmarshalJob (pbBody (dvProperties d))));
  let job := withAttempt 0 job in
  body ← swrap "encode requeued dead-letter job" (lift (jsMarshalJob job));
  t ← world amNow;
  mret (analysisExchange top, workRoutingKeyFor (spName (jAnalyzer job)),
        jsonMessage (jIdempotencyKey job) t (clampPriority (jPriority job)) "" ∅ body).

Definition RequeueDeadLetters (limit : Z) : Br (Z * option GoError) :=
  let limit := orLimit limit 20 in
  withConsumer 0 (relayLoop (S (Z.to_nat limit)) (Some limit) (deadLetterQueue top) (fun _ => false) nextDeadLetter 0).

(** *** Reconciling pending jobs *)

Definition nextReconciled (d : Delivery) : Br (string * string * Publishing) :=
  job ← swrap "decode reconcile job" (lift (jsUnmarshalJob (pbBody (dvProperties d))));
  mret (analysisExchange top, workRoutingKeyFor (spName (jAnalyzer job)), publishingFromDelivery d).

Definition drainReconcileByAnalyzer (fuel : nat) : Br (Z * option GoError) :=
  relayLoop fuel None (reconcileQueue top) (fun _ => false) nextReconciled 0.

(** The response, and the keys of the jobs that were kept. *)
Definition progress : Type := ReconcilePendingResponse * gset string.

Definition addChecked (p : progress) : progress :=
  let r := p.1 in (MkReconcile (rcSchemaVersion r) (rcChecked r + 1) (rcDroppedSatisfied r) (rcDroppedDuplicate r) (rcRepublished r) (rcKept r) (rcKeptJobs r), p.2).
Definition addSatisfied (p : progress) : progress :=
  let r := p.1 in (MkReconcile (rcSchemaVersion r) (rcChecked r) (rcDroppedSatisfied r + 1) (rcDroppedDuplicate r) (rcRepublished r) (rcKept r) (rcKeptJobs r), p.2).
Definition addDuplicate (p : progress) : progress :=
  let r := p.1 in (MkReconcile (rcSchemaVersion r) (rcChecked r) (rcDroppedSatisfied r) (rcDroppedDuplicate r + 1) (rcRepublished r) (rcKept r) (rcKeptJobs r), p.2).
Definition addRepublished (n : Z) (p : progress) : progress :=
  let r := p.1 in (MkReconcile (rcSchemaVersion r) (rcChecked r) (rcDroppedSatisfied r) (rcDroppedDuplicate r) (rcRepublished r + n) (rcKept r) (rcKeptJobs r), p.2).
Definition addSeen (job : AnalyzerJob) (p : progress) : progress :=
  let r := p.1 in (MkReconcile (rcSchemaVersion r) (rcChecked r) (rcDroppedSatisfied r) (rcDroppedDuplicate r) (rcRepublished r) (rcKept r)
    (rcKeptJobs r ++ [job]), p.2 ∪ {[jIdempotencyKey job]}).
Definition addKept (p : progress) : progress :=
  let r := p.1 in (MkReconcile (rcSchemaVersion r) (rcChecked r) (rcDroppedSatisfied r) (rcDroppedDuplicate r) (rcRepublished r) (rcKept r + 1) (rcKeptJobs r), p.2).

(** What an acknowledgement changes when it was sent. *)
Definition acking (d : Delivery) (p : progress) (f : progress -> progress) : Br (progress * option GoError) :=
  r ← stry (ackDelivery d);
  mret (match r with inl e => (p, Some e) | inr _ => (f p, None) end).

Definition giveBack (d : Delivery) (p : progress) (cause : GoError) : Br (progress * option GoError) :=
  e ← nackAfterError d cause; mret (p, Some e).

Definition reconcileJob (isSatisfied : AnalyzerJob -> SM W bool) (d : Delivery) (p : progress) : Br (progress * option GoError) :=
  match jsUnmarshalJob (pbBody (dvProperties d)) with
  | inl e => giveBack d p (ErrWrap "decode reconcile job" e)
  | inr job =>
      let p := addChecked p in
      r ← stry (world (isSatisfied job));
      match r with
      | inl e => giveBack d p e
      | inr satisfied =>
          _ ← log (Judged job satisfied);
          if satisfied : bool then acking d p addSatisfied
          else if bool_decide (jIdempotencyKey job ∈ p.2) then acking d p addDuplicate
          else
            let p := addSeen job p in
            r ← stry (publishPersistent "" (reconcileQueue top) (publishingFromDelivery d));
            match r with
            | inl e => giveBack d p e
            | inr _ => acking d p addKept
            end
      end
  end.

Fixpoint reconcileQueueLoop (fuel : nat) (isSatisfied : AnalyzerJob -> SM W bool) (limit : Z) (queue : string) (p : progress) :
    Br (progress * option GoError) :=
  match fuel with
  | O => spanic None
  | S fuel =>
      if rcChecked p.1 <? limit then
        r ← stry (receiveDelivery queue false);
        match r with
        | inl e => mret (p, Some e)
        | inr None => mret (p, None)
        | inr (Some d) =>
            r ← reconcileJob isSatisfied d p;
            match r with
            | (p, Some e) => mret (p, Some e)
            | (p, None) => reconcileQueueLoop fuel isSatisfied limit queue p
            end
        end
      else mret (p, None)
  end.

Fixpoint reconcileAnalyzers (isSatisfied : AnalyzerJob -> SM W bool) (limit : Z) (names : list string) (p : progress) :
    Br (progress * option GoError) :=
  match names with
  | [] => mret (p, None)
  | analyzer :: rest =>
      r ← reconcileQueueLoop (S (Z.to_nat limit)) isSatisfied limit (workQueueFor top analyzer) p;
      match r with
      | (p, Some e) => mret (p, Some e)
      | (p, None) => reconcileAnalyzers isSatisfied limit rest p
      end
  end.

Definition freshResponse : ReconcilePendingResponse := MkReconcile SchemaVersionPhase00 0 0 0 0 0 [].

Definition reconcile (fuel : nat) (limit : Z) (isSatisfied : AnalyzerJob -> SM W bool) : Br (progress * option GoError) :=
  moved ← drainReconcileByAnalyzer fuel;
  match moved with
  | (_, Some e) => mret ((freshResponse, ∅), Some e)
  | (moved, None) =>
      r ← reconcileAnalyzers isSatisfied limit (analyzers top) (addRepublished moved (freshResponse, ∅));
      match r with
      | (p, Some e) => mret (p, Some e)
      | (p, None) =>
          moved ← drainReconcileByAnalyzer fuel;
          match moved with
          | (_, Some e) => mret (p, Some e)
          | (moved, None) => mret (addRepublished moved p, None)
          end
      end
  end.

Definition ReconcilePending (fuel : nat) (limit : Z) (isSatisfied : option (AnalyzerJob -> SM W bool)) :
    Br (ReconcilePendingResponse * option GoError) :=
  match isSatisfied with
  | None => mret (MkReconcile 0 0 0 0 0 0 [], Some (ErrMsg "reconcile predicate is required"))
  | Some isSatisfied =>
      r ← withConsumer (freshResponse, ∅) (reconcile fuel (orLimit limit 100) isSatisfied);
      mret (r.1.1, r.2)
  end.

(** *** Looking into a queue *)

Fixpoint peekLoop (fuel : nat) (limit : Z) (queue : string) (stream : N) (jobs : list AnalyzerJob) (deliveries : list Delivery) :
    Br (list AnalyzerJob * list Delivery) :=
  match fuel with
  | O => spanic None
  | S fuel =>
      if Z.of_nat (length jobs) <? limit then
        r ← receiveDeliveryFrom queue stream false;
        match r with
        | None => mret (jobs, deliveries)
        | Some d =>
            let deliveries := deliveries ++ [d] in
            match jsUnmarshalJob (pbBody (dvProperties d)) with
            | inl e =>
                let e := ErrWrap "decode queued analyzer job" e in
                r ← nackDeliveries deliveries true;
                sfail (match r with Some e' => ErrJoin e e' | None => e end)
            | inr job => peekLoop fuel limit queue stream (jobs ++ [job]) deliveries
            end
        end
      else mret (jobs, deliveries)
  end.

Definition peekJobs (queue : string) (limit : Z) : Br (list AnalyzerJob) :=
  let limit := orLimit limit 20 in
  stream ← openConsumerStream queue ("gmeow.peek." +:+ queue);
  r ← stry (p ← peekLoop (S (Z.to_nat limit)) limit queue stream.2 [] [];
            _ ← sforM p.2 tt (fun _ d => nackDelivery d true);
            mret p.1);
  _ ← closeRabbitMQChannelAsync stream.1;
  lift r.

Definition DeadLetters (limit : Z) : Br (list AnalyzerJob) := peekJobs (deadLetterQueue top) limit.
Definition FailedJobs (limit : Z) : Br (list AnalyzerJob) := peekJobs (failedQueue top) limit.

Fixpoint pendingLoop (limit : Z) (names : list string) (jobs : list AnalyzerJob) : Br (list AnalyzerJob) :=
  match names with
  | [] => mret jobs
  | analyzer :: rest =>
      let n := Z.of_nat (length jobs) in
      if limit <=? n then mret jobs else
      batch ← peekJobs (workQueueFor top analyzer) (limit - n);
      pendingLoop limit rest (jobs ++ batch)
  end.

Definition PendingJobs (limit : Z) : Br (list AnalyzerJob) := pendingLoop (orLimit limit 20) (analyzers top) [].

(** *** Object changes *)

Definition projectionRefreshDigest (body : string) : GoError + ObjectDigest :=
  match jsUnmarshalDigest body with
  | inl e => inl e
  | inr digest =>
      let digest := TrimSpace digest in
      if bool_decide (digest = "") then inl (ErrMsg "projection refresh digest is required") else inr digest
  end.

Definition objectChangeRequest (body : string) : GoError + ObjectChangeRequest :=
  match jsUnmarshalChange body with
  | inl e => inl (ErrWrap "decode object change request" e)
  | inr r =>
      if bool_decide (ocObjectDigests r = []) then
        match projectionRefreshDigest body with
        | inl e => inl e
        | inr digest => inr (MkChange "" "scheduler" "projection_refresh" "" SchemaVersionPhase00 [digest] true)
        end
      else inr (MkChange (ocPriorityClass r) (ocRequestedBy r) (ocReason r) (ocTraceID r) SchemaVersionPhase00 (ocObjectDigests r)
                  (ocProjectionOnly r))
  end.

Fixpoint objectChangeRequests (deliveries : list Delivery) : GoError + list ObjectChangeRequest :=
  match deliveries with
  | [] => inr []
  | d :: rest =>
      match objectChangeRequest (pbBody (dvProperties d)) with
      | inl e => inl e
      | inr r => match objectChangeRequests rest with inl e => inl e | inr rs => inr (r :: rs) end
      end
  end.

Fixpoint changeLoop (fuel : nat) (limit : Z) (queue : string) (deliveries : list Delivery) : Br (list Delivery * option GoError) :=
  match fuel with
  | O => spanic None
  | S fuel =>
      if Z.of_nat (length deliveries) <? limit then
        r ← stry (receiveDelivery queue (bool_decide (deliveries = [])));
        match r with
        | inl e => mret (deliveries, Some (ErrWrap "receive object change delivery" e))
        | inr None => mret (deliveries, None)
        | inr (Some d) => changeLoop fuel limit queue (deliveries ++ [d])
        end
      else mret (deliveries, None)
  end.

Definition objectChangeDeliveries (queue : string) (limit : Z) : Br (list Delivery * option GoError) :=
  changeLoop (S (Z.to_nat limit)) limit queue [].

Definition orJoin (e : GoError) (e' : option GoError) (otherwise : GoError) : GoError :=
  match e' with Some e' => ErrJoin e e' | None => otherwise end.

Definition changeBatch (limit : Z) (process : list ObjectChangeRequest -> SM W unit) : Br (Z * option GoError) :=
  r ← objectChangeDeliveries (projectionQueue top) limit;
  match r with
  | (deliveries, Some e) => mret (Z.of_nat (length deliveries), Some (ErrWrap "read object change deliveries" e))
  | ([], None) => mret (0, None)
  | (deliveries, None) =>
      match objectChangeRequests deliveries with
      | inl e => r ← nackDeliveries deliveries false; mret (0, Some (orJoin e r e))
      | inr requests =>
          r ← stry (world (process requests));
          match r with
          | inl e => r ← nackDeliveries deliveries true; mret (0, Some (orJoin e r (ErrWrap "process object changes" e)))
          | inr _ => ackDeliveries deliveries
          end
      end
  end.

Definition ProcessObjectChanges (limit : Z) (process : option (list ObjectChangeRequest -> SM W unit)) : Br (Z * option GoError) :=
  match process with
  | None => mret (0, Some errObjectChangeFuncRequired)
  | Some process => withConsumer 0 (changeBatch (orLimit limit 100) process)
  end.

(** *** Opening and closing *)

Definition closing (joined : option GoError) (what : string) (m : SM W unit) : Br (option GoError) :=
  r ← stry (swrap what (world m));
  mret (match r, joined with inl e, Some j => Some (ErrJoin j e) | inl e, None => Some e | inr _, _ => joined end).

(** The streams are closed in the order of the map's keys; Go's order is any. *)
Definition Close : Br unit :=
  c ← state bkPublishChannel;
  joined ← match c with None => mret None | Some c => closing None "close rabbitmq publisher" (amClose c) end;
  _ ← update (set_publish None);
  streams ← state bkConsumeStreams;
  joined ← sforM (map_to_list streams) joined (fun joined p => closing joined ("close rabbitmq consumer " +:+ p.1) (amClose p.2.1));
  _ ← update (set_streams ∅);
  c ← state bkAdminChannel;
  joined ← match c with None => mret joined | Some c => closing joined "close rabbitmq admin" (amClose c) end;
  _ ← update (set_admin None);
  c ← state bkConnection;
  joined ← match c with None => mret joined | Some c => closing joined "close rabbitmq connection" (amCloseConnection c) end;
  _ ← update (set_connection None);
  scheck joined.

End broker.

Definition closedBroker : Broker := MkBroker None None ∅ None.

(** The settings a broker runs with. *)
Definition normalizeConfig (cfg : Config) : Config :=
  MkConfig (cfURL cfg) (if bool_decide (TrimSpace (cfQueuePrefix cfg) = "") then defaultQueuePrefix else cfQueuePrefix cfg)
    (cfAnalyzers cfg) (if cfRetryLimit cfg <=? 0 then 3 else cfRetryLimit cfg)
    (if cfRetryBackoff cfg <=? 0 then 30 * 1000 * millisecond else cfRetryBackoff cfg).

(** [New]: the broker and the settings it keeps. *)
Definition New {W} `{!Amqp W} (cfg : Config) : B Broker W Config :=
  if bool_decide (TrimSpace (cfURL cfg) = "") then sfail (ErrMsg "rabbitmq url is required") else
  let cfg := normalizeConfig cfg in
  conn ← swrap "connect rabbitmq" (dialRabbitMQ cfg);
  _ ← update (set_connection (Some conn));
  r ← stry (declareTopology cfg);
  match r with
  | inl e => _ ← ignore (world (amCloseConnection conn)); sfail e
  | inr _ => mret cfg
  end.

End Rabbit.
