(* ===== verification/BrokerRounds.v ===== *)
(** * The broker's loops lose no message

    What every operation of [Broker] leaves in its trace, on any AMQP server and
    with failures of every call: a message that is moved from one queue to another
    is acknowledged only after its successor was confirmed, and given back
    otherwise.  When the calls of the client return, the loops end. *)

From stdpp Require Import options.
From S2P Require Import Prelude GoLib GoText Contracts Meta Jobs ArchiveQueue Breaker Broker.

Local Open Scope Z_scope.

Module Rounds.
Import Rabbit.

(** ** What a run leaves in the trace *)

Section traces.
Context {C W : Type} `{!Amqp W}.

(** [m] leaves [tr] in the trace and ends with [r]; [None] when it is waiting. *)
Definition traces {A} (m : B C W A) (P : option (GoError + A) -> list event -> Prop) : Prop :=
  forall s, upto m s (fun r s' => exists tr, clTrace s' = clTrace s ++ tr /\ P r tr).

Definition calm {A} (m : B C W A) : Prop := forall s, clTrace (m s).2 = clTrace s.

Lemma calm_ret {A} (a : A) : calm (mret a).
Proof. done. Qed.
Lemma calm_fail {A} e : calm (A := A) (sfail e).
Proof. done. Qed.
Lemma calm_panic {A} (o : option A) : calm (spanic o).
Proof. by destruct o. Qed.
Lemma calm_lift {A} (r : GoError + A) : calm (lift r).
Proof. by destruct r. Qed.
Lemma calm_check e : calm (scheck e).
Proof. by destruct e. Qed.
Lemma calm_state {A} (f : C -> A) : calm (state f).
Proof. done. Qed.
Lemma calm_update f : calm (update f).
Proof. done. Qed.
Lemma calm_world {A} (m : SM W A) : calm (world m).
Proof. intros s. unfold world. by destruct (m (clWorld s)). Qed.
Lemma calm_try {A} (m : B C W A) : calm m -> calm (stry m).
Proof. intros H s. specialize (H s). unfold stry. by destruct (m s) as [[]]. Qed.
Lemma calm_wrap {A} what (m : B C W A) : calm m -> calm (swrap what m).
Proof. intros H s. specialize (H s). unfold swrap. by destruct (m s) as [[]]. Qed.
Lemma calm_bind {A A'} (m : B C W A) (k : A -> B C W A') : calm m -> (forall a, calm (k a)) -> calm (m ≫= k).
Proof.
  intros H Hk s. specialize (H s). unfold mbind, SM_bind. destruct (m s) as [[a|e|] s1]; [|done|done].
  cbn in H. rewrite <- H. apply Hk.
Qed.
Lemma calm_forM {A A'} (l : list A) (acc : A') (f : A' -> A -> B C W A') : (forall b a, calm (f b a)) -> calm (sforM l acc f).
Proof. intros Hf. revert acc. induction l as [|x l IH]; intros acc; [apply calm_ret|]. by apply calm_bind. Qed.

Lemma traces_mono {A} (m : B C W A) (P Q : option (GoError + A) -> list event -> Prop) :
  traces m P -> (forall r tr, P r tr -> Q r tr) -> traces m Q.
Proof. intros H HQ s. eapply upto_mono; [apply H|]. naive_solver. Qed.

Lemma traces_calm {A} (m : B C W A) : calm m -> traces m (fun _ tr => tr = []).
Proof. intros H s. specialize (H s). unfold upto. destruct (m s) as [[a|e|] s1]; exists []; by rewrite app_nil_r. Qed.

Lemma traces_ret {A} (a : A) (P : option (GoError + A) -> list event -> Prop) : P (Some (inr a)) [] -> traces (mret a) P.
Proof. intros H s. apply upto_ret. exists []. by rewrite app_nil_r. Qed.

Lemma traces_fail {A} e (P : option (GoError + A) -> list event -> Prop) : P (Some (inl e)) [] -> traces (sfail e) P.
Proof. intros H s. apply upto_fail. exists []. by rewrite app_nil_r. Qed.

Lemma traces_bind {A A'} (m : B C W A) (k : A -> B C W A') P R : traces m P ->
  (forall e tr, P (Some (inl e)) tr -> R (Some (inl e)) tr) -> (forall tr, P None tr -> R None tr) ->
  (forall a tr, P (Some (inr a)) tr -> traces (k a) (fun r tr' => R r (tr ++ tr'))) -> traces (m ≫= k) R.
Proof.
  intros Hm He Hn Hk s. apply upto_bind. eapply upto_mono; [apply Hm|]. cbn beta.
  intros [[e|a]|] s1 (tr & Ht & H1); [eauto| |eauto].
  eapply upto_mono; [apply (Hk a tr H1)|]. cbn beta. intros r s2 (tr' & Ht' & HR). exists (tr ++ tr'). split; [|done].
  by rewrite Ht', Ht, app_assoc.
Qed.

(** A step that leaves no trace. *)
Lemma traces_skip {A A'} (m : B C W A) (k : A -> B C W A') (R : option (GoError + A') -> list event -> Prop) : calm m ->
  (forall e, R (Some (inl e)) []) -> R None [] -> (forall a, traces (k a) R) -> traces (m ≫= k) R.
Proof.
  intros Hm He Hn Hk. eapply traces_bind; [by apply traces_calm|by intros e tr ->|by intros tr ->|]. intros a tr ->. apply Hk.
Qed.

Lemma traces_try {A} (m : B C W A) (P : option (GoError + A) -> list event -> Prop) (R : option (GoError + (GoError + A)) -> list event -> Prop) : traces m P ->
  (forall r tr, P (Some r) tr -> R (Some (inr r)) tr) -> (forall tr, P None tr -> R None tr) -> traces (stry m) R.
Proof. intros Hm Hr Hn s. apply upto_try. eapply upto_mono; [apply Hm|]. cbn beta. intros [r|] s1 (tr & Ht & H1); eauto. Qed.

Lemma traces_wrap {A} what (m : B C W A) (P : option (GoError + A) -> list event -> Prop) : (forall e tr, P (Some (inl e)) tr -> P (Some (inl (ErrWrap what e))) tr) ->
  traces m P -> traces (swrap what m) P.
Proof. intros He Hm s. apply upto_wrap. eapply upto_mono; [apply Hm|]. cbn beta. intros [[e|a]|] s1 (tr & Ht & H1); eauto. Qed.

Lemma traces_log e (P : option (GoError + unit) -> list event -> Prop) : P (Some (inr tt)) [e] -> traces (log e) P.
Proof. intros H s. apply upto_modify. by exists [e]. Qed.

Lemma traces_log_bind {A} e (m : B C W A) R : traces m (fun r tr => R r (e :: tr)) -> traces (_ ← log e; m) R.
Proof.
  intros H. eapply traces_bind; [apply (traces_log e (fun r tr => r = Some (inr tt) /\ tr = [e])); done|naive_solver|naive_solver|].
  intros a tr [_ ->]. exact H.
Qed.

(** An attempt always goes on, whatever came of it. *)
Lemma traces_attempt {A A'} (m : B C W A) (k : GoError + A -> B C W A') (R : option (GoError + A') -> list event -> Prop) : calm m ->
  R None [] -> (forall r, traces (k r) R) -> traces (stry m ≫= k) R.
Proof.
  intros Hm Hn Hk. eapply traces_bind; [by eapply (traces_try m _ (fun r tr => tr = [] /\ forall e, r <> Some (inl e))); [apply (traces_calm _ Hm)|..]| | |].
  - intros e tr [_ He]. by destruct (He e).
  - by intros tr [-> _].
  - intros a tr [-> _]. apply Hk.
Qed.

(** A marked call shows whether it returned an error. *)
Lemma traces_marked e (m : SM W unit) : traces (marked e m) (fun r tr => match r with
  | Some (inr _) => tr = [e true] | Some (inl _) => tr = [e false] | None => tr = [] end).
Proof.
  unfold marked. apply traces_attempt; [apply calm_world|done|].
  intros [err|u]; apply traces_log_bind; [by apply traces_fail|by apply traces_ret].
Qed.

Lemma traces_ack d : traces (ackDelivery d) (fun r tr => match r with
  | Some (inr _) => tr = [Acked d true] | Some (inl _) => tr = [Acked d false] | None => tr = [] end).
Proof. apply traces_wrap; [done|]. apply traces_marked. Qed.

Lemma traces_nack d requeue : traces (nackDelivery d requeue) (fun r tr => match r with
  | Some (inr _) => tr = [Nacked d requeue true] | Some (inl _) => tr = [Nacked d requeue false] | None => tr = [] end).
Proof. apply traces_wrap; [done|]. apply traces_marked. Qed.

Lemma traces_nackAfter d cause : traces (nackAfterError d cause) (fun r tr => match r with
  | Some (inr _) => exists b, tr = [Nacked d true b] | Some (inl _) => False | None => tr = [] end).
Proof.
  unfold nackAfterError. eapply traces_bind.
  - eapply (traces_try _ _ (fun r tr => match r with Some (inl _) => False | Some (inr _) => exists b, tr = [Nacked d true b] | None => tr = [] end));
      [apply traces_nack| |done]. intros [e|u] tr; eauto.
  - done.
  - done.
  - intros a tr [b ->]. apply traces_ret. eauto.
Qed.

End traces.
Create HintDb calm.
#[export] Hint Resolve calm_ret calm_fail calm_panic calm_lift calm_check calm_state calm_update calm_world : calm.
Ltac calm := repeat first
  [ progress intros | apply calm_try | apply calm_wrap | apply calm_bind | apply calm_forM | solve [eauto 2 with calm]
  | match goal with |- calm (match ?x with _ => _ end) => destruct x end ].

(** *** Calls that only open and close things *)

Section calm_broker.
Context {W : Type} `{!Amqp W} {J : BrokerJSON} (config : Config).

Lemma calm_ignore {C A} (m : B C W A) : calm m -> calm (ignore m).
Proof. intros Hm. unfold ignore. calm. Qed.

Lemma calm_channel : calm (channel (W := W) config).
Proof. unfold channel. calm. Qed.
Hint Resolve calm_channel calm_ignore : calm.

Lemma calm_admin : calm (admin (W := W) config).
Proof. unfold admin. calm. Qed.

Lemma calm_publisher : calm (publisher (W := W) config).
Proof. unfold publisher, configureRabbitMQPublisher, ignore. calm. Qed.

Lemma calm_resetPublisher : calm (resetPublisher (W := W)).
Proof. unfold resetPublisher, closeRabbitMQChannelAsync, ignore. calm. Qed.

Lemma calm_stream queue : calm (consumerStream (W := W) config queue).
Proof. unfold consumerStream, openConsumerStream, orClose, ignore. calm. Qed.

Lemma calm_resetStream queue : calm (resetConsumerStream (W := W) queue).
Proof. unfold resetConsumerStream, closeRabbitMQChannelAsync, ignore. calm. Qed.

(** A message that was received is in the trace. *)
Definition got (queue : string) (r : option (GoError + option Delivery)) (tr : list event) : Prop :=
  match r with Some (inr (Some d)) => tr = [Received queue d] | _ => tr = [] end.

Lemma traces_receiveFrom {C} queue stream wait : traces (C := C) (receiveDeliveryFrom queue stream wait) (got queue).
Proof.
  unfold receiveDeliveryFrom. destruct wait; (apply traces_skip; [apply calm_world|done|done|]).
  - intros [e|[d|]]; [by apply traces_fail| |by apply traces_fail]. apply traces_log_bind. by apply traces_ret.
  - intros [[d|]|]; [|by apply traces_fail|by apply traces_ret]. apply traces_log_bind. by apply traces_ret.
Qed.

Lemma traces_receive queue wait : traces (receiveDelivery config queue wait) (got queue).
Proof.
  unfold receiveDelivery. apply traces_skip; [apply calm_stream|done|done|]. intros stream. eapply traces_bind.
  - eapply (traces_try _ _ (fun r tr => match r with Some (inl _) => False | Some (inr r) => got queue (Some r) tr | None => tr = [] end));
      [apply traces_receiveFrom|done|done].
  - done.
  - done.
  - intros [e|d] tr Hg; [|apply traces_ret; by rewrite app_nil_r]. cbn in Hg. subst tr.
    apply traces_skip; [destruct (isVar _ e); [apply calm_resetStream|apply calm_ret]|done|done|]. intros _. by apply traces_fail.
Qed.

(** A publication is in the trace when it was handed over, and it is confirmed
    just when the call succeeds. *)
Definition pushed (exchange key : string) (p : Publishing) (r : option (GoError + unit)) (tr : list event) : Prop :=
  match r with
  | Some (inr _) => tr = [Published exchange key p true]
  | _ => tr = [] \/ tr = [Published exchange key p false]
  end.

Lemma traces_publishOn {C} (reset : B C W unit) what ch exchange key p : calm reset ->
  traces (publishOn reset what ch exchange key p) (pushed exchange key p).
Proof.
  intros Hreset. unfold publishOn. apply traces_attempt; [apply calm_wrap, calm_world|by left|]. intros r.
  apply traces_skip; [|by left|by left|].
  { destruct r; [apply calm_ret|]. apply calm_try. unfold waitRabbitMQPublishConfirmed. calm. }
  intros r2. apply traces_log_bind. destruct r2 as [e|u]; [|by apply traces_ret].
  apply traces_skip; [done|by right|by right|]. intros _. apply traces_fail. by right.
Qed.

Lemma traces_publish exchange key p : traces (publishPersistent config exchange key p) (pushed exchange key p).
Proof.
  unfold publishPersistent. apply traces_skip; [apply calm_publisher|by left|by left|]. intros ch.
  apply traces_publishOn, calm_resetPublisher.
Qed.

End calm_broker.
(** ** Rounds *)

(** What has become of a message that was received. *)
Inductive fate := Moved | Failed | Waiting.

Definition sent (m : string * string * Publishing) (confirmed : bool) : event := Published m.1.1 m.1.2 m.2 confirmed.

(** The trace of one message of [queue]: it is acknowledged only after the
    message it [becomes] was confirmed; else it is given back, or nothing was
    said about it and the server keeps it. *)
Inductive round (queue : string) (becomes : Delivery -> string * string * Publishing -> Prop) : fate -> list event -> Prop :=
  | round_moved d m : becomes d m -> round queue becomes Moved [Received queue d; sent m true; Acked d true]
  | round_unacked d m : becomes d m -> round queue becomes Failed [Received queue d; sent m true; Acked d false]
  | round_back d b : round queue becomes Failed [Received queue d; Nacked d true b]
  | round_refused d m b : becomes d m -> round queue becomes Failed [Received queue d; sent m false; Nacked d true b]
  | round_waiting d : round queue becomes Waiting [Received queue d]
  | round_sent d m b : becomes d m -> round queue becomes Waiting [Received queue d; sent m b].

(** A loop over the messages of [queue]: at most [limit] of them are moved, as
    many as it reports, before one fails or none is left. *)
Definition carried (queue : string) (becomes : Delivery -> string * string * Publishing -> Prop) (count : Z) (limit : option Z)
    (r : option (GoError + (Z * option GoError))) (tr : list event) : Prop :=
  exists rounds last, tr = concat rounds ++ last /\ Forall (round queue becomes Moved) rounds /\
    let n := count + Z.of_nat (length rounds) in
    match limit with Some l => rounds = [] \/ n <= l | None => True end /\
    match r with
    | Some (inr (k, None)) => k = n /\ last = []
    | Some (inr (k, Some _)) => k = n /\ (last = [] \/ round queue becomes Failed last)
    | Some (inl _) => False
    | None => last = [] \/ round queue becomes Waiting last
    end.

Definition relayed (queue : string) (becomes : Delivery -> string * string * Publishing -> Prop) (r : option (GoError + bool))
    (tr : list event) : Prop :=
  match r with
  | Some (inr true) => round queue becomes Moved tr
  | Some (inr false) => tr = []
  | Some (inl _) => tr = [] \/ round queue becomes Failed tr
  | None => tr = [] \/ round queue becomes Waiting tr
  end.

Section rounds.
Context {W : Type} `{!Amqp W} {J : BrokerJSON} (config : Config).
Context (queue : string) (next : Delivery -> B Broker W (string * string * Publishing)).
Context (becomes : Delivery -> string * string * Publishing -> Prop).
Hypothesis next_ok : forall d, traces (next d) (fun r tr => tr = [] /\ forall m, r = Some (inr m) -> becomes d m).

Lemma traces_giveBack {A} d pre cause (R : option (GoError + A) -> list event -> Prop) :
  (forall e b, R (Some (inl e)) (pre ++ [Nacked d true b])) -> R None pre ->
  traces (C := Broker) (e ← nackAfterError d cause; sfail e) (fun r tr => R r (pre ++ tr)).
Proof using Type.
  intros He Hn. eapply traces_bind; [apply traces_nackAfter|done|intros tr ->; by rewrite app_nil_r|].
  intros e tr [b ->]. apply traces_fail. rewrite app_nil_r. apply He.
Qed.

Lemma traces_relay wait : traces (relay config queue wait next) (relayed queue becomes).
Proof using next_ok.
  unfold relay. eapply traces_bind; [apply traces_receive|by intros e tr ->; left|by intros tr ->; left|].
  intros [d|] tr Hg; cbn in Hg; subst tr; [|by apply traces_ret].
  eapply traces_bind.
  { eapply (traces_try _ _ (fun r tr => tr = [] /\ match r with Some (inl _) => False | Some (inr (inr m)) => becomes d m | _ => True end)); [apply next_ok| |naive_solver].
    intros [e|m] tr [-> Hm]; split; auto. }
  { naive_solver. }
  { intros tr [-> _]. right. apply round_waiting. }
  intros [e|[[ex key] p]] tr [-> Hm].
  { apply (traces_giveBack d [Received queue d] e (relayed queue becomes)); [|right; apply round_waiting]. intros e' b. right. apply round_back. }
  cbn [app]. eapply traces_bind.
  { eapply (traces_try _ _ (fun r tr => match r with
      | Some (inl _) => False | Some (inr (inr _)) => tr = [sent (ex, key, p) true]
      | _ => tr = [] \/ tr = [sent (ex, key, p) false] end)); [apply traces_publish| |done]. by intros [e|u] tr. }
  { done. }
  { intros tr [-> | ->]; right; [apply round_waiting|by apply (round_sent _ _ _ (ex, key, p))]. }
  intros [e|u] tr Ht.
  - assert (forall b, round queue becomes Failed (Received queue d :: tr ++ [Nacked d true b])) as Hb.
    { destruct Ht as [-> | ->]; intros b; [apply round_back|by apply (round_refused _ _ _ (ex, key, p))]. }
    assert (round queue becomes Waiting (Received queue d :: tr)) as Hw.
    { destruct Ht as [-> | ->]; [apply round_waiting|by apply (round_sent _ _ _ (ex, key, p))]. }
    apply (traces_giveBack d (Received queue d :: tr) e (relayed queue becomes)); [|by right]. intros e' b. right. apply Hb.
  - subst tr. eapply traces_bind; [apply traces_ack| | |].
    + intros e tr ->. right. by apply (round_unacked _ _ _ (ex, key, p)).
    + intros tr ->. right. by apply (round_sent _ _ _ (ex, key, p)).
    + intros ? tr ->. apply traces_ret. by apply (round_moved _ _ _ (ex, key, p)).
Qed.

Lemma traces_relayLoop fuel limit wait count :
  traces (relayLoop config fuel limit queue wait next count) (carried queue becomes count limit).
Proof using next_ok.
  assert (forall r count, match r with Some (inr (k, _)) => k = count | Some (inl _) => False | None => True end ->
    carried queue becomes count limit r []) as Hstop.
  { intros r c Hr. exists [], []. split; [done|]. split; [constructor|]. cbn [length Z.of_nat]. rewrite Z.add_0_r.
    split; [destruct limit; auto|]. destruct r as [[e|[k [e|]]]|]; auto. }
  revert count. induction fuel as [|fuel IH]; intros count; cbn [relayLoop].
  { intros s. exists []. rewrite app_nil_r. split; [done|]. by apply Hstop. }
  destruct (match limit with Some n => count <? n | None => true end) eqn:Hlim; [|by apply traces_ret, Hstop].
  eapply traces_bind.
  { eapply (traces_try _ _ (fun r tr => match r with
      | Some (inl _) => False | Some (inr (inr true)) => round queue becomes Moved tr | Some (inr (inr false)) => tr = []
      | Some (inr (inl _)) => tr = [] \/ round queue becomes Failed tr | None => tr = [] \/ round queue becomes Waiting tr end));
      [apply traces_relay| |done]. by intros [e|[]] tr. }
  { done. }
  { intros tr Ht. exists [], tr. cbn. rewrite Z.add_0_r. repeat split; [constructor|destruct limit; auto|done]. }
  intros [e|[]] tr Ht.
  - apply traces_ret. rewrite app_nil_r. exists [], tr. cbn. rewrite Z.add_0_r. repeat split; [constructor|destruct limit; auto|done].
  - eapply traces_mono; [apply IH|]. intros r tr' (rounds & last & -> & Hr & Hl & Hm). exists (tr :: rounds), last.
    rewrite app_assoc. split; [done|]. split; [by constructor|]. cbn [length]. rewrite Nat2Z.inj_succ.
    replace (count + Z.succ (Z.of_nat (length rounds))) with (count + 1 + Z.of_nat (length rounds)) by lia. split; [|done].
    destruct limit as [l|]; [|done]. right. apply Z.ltb_lt in Hlim. destruct Hl as [-> | Hl]; [cbn; lia|done].
  - subst tr. by apply traces_ret, Hstop.
Qed.

Lemma traces_withConsumer {A} (init : A) (m : B Broker W (A * option GoError)) (R : option (GoError + (A * option GoError)) -> list event -> Prop) :
  (forall e, R (Some (inr (init, Some e))) []) -> R None [] -> traces m R -> traces (withConsumer init m) R.
Proof using Type.
  intros He Hn Hm. unfold withConsumer. apply traces_attempt; [apply calm_wrap, calm_world|done|].
  intros [e|u]; [by apply traces_ret|done].
Qed.
End rounds.

(** ** What the messages of a queue become *)

Section becomes.
Context {W : Type} `{!Amqp W} {J : BrokerJSON} (config : Config).
Local Abbreviation top := (topologyOf config).

(** A failed job comes back with one more attempt, or is dead. *)
Definition failure_becomes (d : Delivery) (m : string * string * Publishing) : Prop :=
  exists job body t, jsUnmarshalJob (pbBody (dvProperties d)) = inr job /\ jsMarshalJob (retried job) = inr body /\
    m = (analysisExchange top, failureRoutingKey config (retried job), retryPublishing config (retried job) body t).

Definition import_failure_becomes (d : Delivery) (m : string * string * Publishing) : Prop :=
  exists job body t, jsUnmarshalImport (pbBody (dvProperties d)) = inr job /\ jsMarshalImport (retriedImport job) = inr body /\
    m = (sourceImportExchange top, importFailureRoutingKey config (retriedImport job),
         sourceImportRetryPublishing config (retriedImport job) body t).

(** A dead letter that is requeued starts over. *)
Definition dead_letter_becomes (d : Delivery) (m : string * string * Publishing) : Prop :=
  exists job body t, jsUnmarshalJob (pbBody (dvProperties d)) = inr job /\ jsMarshalJob (withAttempt 0 job) = inr body /\
    m = (analysisExchange top, workRoutingKeyFor (spName (jAnalyzer job)),
         jsonMessage (jIdempotencyKey job) t (clampPriority (jPriority job)) "" ∅ body).

(** A job that was set aside goes back as it is. *)
Definition reconciled_becomes (d : Delivery) (m : string * string * Publishing) : Prop :=
  exists job, jsUnmarshalJob (pbBody (dvProperties d)) = inr job /\
    m = (analysisExchange top, workRoutingKeyFor (spName (jAnalyzer job)), publishingFromDelivery d).

(** The steps of a conversion leave no trace, and its result is known. *)
Lemma traces_lift {C A A'} what (x : GoError + A) (k : A -> B C W A') (P : option (GoError + A') -> list event -> Prop) :
  (forall e, P (Some (inl e)) []) -> (forall a, x = inr a -> traces (k a) P) -> traces (a ← swrap what (lift x); k a) P.
Proof using Type.
  intros He Hk. destruct x as [e|a]; intros s; [|exact (Hk a eq_refl s)]. exists []. by rewrite app_nil_r.
Qed.

Lemma traces_lifted {C A A'} (x : GoError + A) (k : A -> B C W A') (P : option (GoError + A') -> list event -> Prop) :
  (forall e, P (Some (inl e)) []) -> (forall a, x = inr a -> traces (k a) P) -> traces (a ← lift x; k a) P.
Proof using Type.
  intros He Hk. destruct x as [e|a]; intros s; [|exact (Hk a eq_refl s)]. exists []. by rewrite app_nil_r.
Qed.

Lemma traces_now {C A} (f : Time -> A) (P : option (GoError + A) -> list event -> Prop) :
  (forall e, P (Some (inl e)) []) -> P None [] -> (forall t, P (Some (inr (f t))) []) -> traces (C := C) (t ← world amNow; mret (f t)) P.
Proof using Type. intros He Hn Ht. apply traces_skip; [apply calm_world|done|done|]. intros t. apply traces_ret, Ht. Qed.

Lemma nextFailure_ok d : traces (nextFailure config d) (fun r tr => tr = [] /\ forall m, r = Some (inr m) -> failure_becomes d m).
Proof using Type.
  unfold nextFailure. apply traces_lift; [done|]. intros job Hj. apply traces_lift; [done|]. intros body Hb.
  apply traces_now; [done|done|]. intros t. split; [done|]. intros m [= <-]. by exists job, body, t.
Qed.

Lemma nextImportFailure_ok d : traces (nextImportFailure config d) (fun r tr => tr = [] /\ forall m, r = Some (inr m) -> import_failure_becomes d m).
Proof using Type.
  unfold nextImportFailure. apply traces_lift; [done|]. intros job Hj. apply traces_lift; [done|]. intros body Hb.
  apply traces_now; [done|done|]. intros t. split; [done|]. intros m [= <-]. by exists job, body, t.
Qed.

Lemma nextDeadLetter_ok d : traces (nextDeadLetter config d) (fun r tr => tr = [] /\ forall m, r = Some (inr m) -> dead_letter_becomes d m).
Proof using Type.
  unfold nextDeadLetter. apply traces_lift; [done|]. intros job Hj. apply traces_lift; [done|]. intros body Hb.
  apply traces_now; [done|done|]. intros t. split; [done|]. intros m [= <-]. by exists job, body, t.
Qed.

Lemma nextReconciled_ok d : traces (nextReconciled (W := W) config d) (fun r tr => tr = [] /\ forall m, r = Some (inr m) -> reconciled_becomes d m).
Proof using Type.
  unfold nextReconciled. apply traces_lift; [done|]. intros job Hj. apply traces_ret. split; [done|]. intros m [= <-]. by exists job.
Qed.

Lemma carried_start queue becomes limit : (forall e, carried queue becomes 0 limit (Some (inr (0, Some e))) []) /\ carried queue becomes 0 limit None [].
Proof using Type. split; [intros e|]; exists [], []; (split; [done|]; split; [constructor|]; split; [destruct limit; auto|]; auto). Qed.

Lemma failures_carried limit :
  traces (ProcessFailures config limit) (carried (failedQueue top) failure_becomes 0 (Some (orLimit limit 100))).
Proof using Type. apply traces_withConsumer; [apply carried_start..|]. apply traces_relayLoop, nextFailure_ok. Qed.

Lemma import_failures_carried limit :
  traces (ProcessSourceImportFailures config limit) (carried (sourceImportFailedQueue top) import_failure_becomes 0 (Some (orLimit limit 100))).
Proof using Type. apply traces_withConsumer; [apply carried_start..|]. apply traces_relayLoop, nextImportFailure_ok. Qed.

Lemma dead_letters_carried limit :
  traces (RequeueDeadLetters config limit) (carried (deadLetterQueue top) dead_letter_becomes 0 (Some (orLimit limit 20))).
Proof using Type. apply traces_withConsumer; [apply carried_start..|]. apply traces_relayLoop, nextDeadLetter_ok. Qed.

Lemma drain_carried fuel :
  traces (drainReconcileByAnalyzer config fuel) (carried (reconcileQueue top) reconciled_becomes 0 None).
Proof using Type. exact (traces_relayLoop config _ _ _ nextReconciled_ok _ _ _ _). Qed.

End becomes.

(** ** Runs that end *)

(** [m] returns, and does not change what [f] sees. *)
Definition steady {S X A} (f : S -> X) (m : SM S A) : Prop := forall s, (m s).1 <> Panic /\ f (m s).2 = f s.

(** Every call of the client returns; waiting for a delivery ends with one, with
    the stream or with the context. *)
Record responsive (W : Type) `{!Amqp W} {X} (f : W -> X) : Prop := {
  rs_ctx : steady f amCtxErr; rs_now : steady f amNow; rs_dial : forall u, steady f (amDial u);
  rs_closeConnection : forall c, steady f (amCloseConnection c); rs_channel : forall c, steady f (amChannel c);
  rs_close : forall c, steady f (amClose c); rs_exchange : forall c x, steady f (amExchangeDeclare c x);
  rs_queue : forall c q args, steady f (amQueueDeclare c q args); rs_bind : forall c q k x, steady f (amQueueBind c q k x);
  rs_purge : forall c q, steady f (amQueuePurge c q); rs_passive : forall c q, steady f (amQueueDeclarePassive c q);
  rs_qos : forall c n, steady f (amQos c n); rs_consume : forall c q t, steady f (amConsume c q t);
  rs_wait : forall d, steady f (amWait d); rs_poll : forall d, steady f (amPoll d); rs_ack : forall d, steady f (amAck d);
  rs_nack : forall d b, steady f (amNack d b); rs_confirm : forall c, steady f (amConfirm c);
  rs_publish : forall c x k p, steady f (amPublish c x k p); rs_select : forall c, steady f (amSelect c) }.

Section steady.
Context {C W X : Type} (f : W -> X).
Local Abbreviation ends := (steady (fun s : Client C W => f (clWorld s))).

Lemma ends_ret {A} (a : A) : ends (mret a).
Proof. done. Qed.
Lemma ends_fail {A} e : ends (sfail e : B C W A).
Proof. done. Qed.
Lemma ends_lift {A} (r : GoError + A) : ends (lift r).
Proof. by destruct r. Qed.
Lemma ends_state {A} (g : C -> A) : ends (state g).
Proof. done. Qed.
Lemma ends_update g : ends (update g).
Proof. done. Qed.
Lemma ends_log e : ends (log e).
Proof. done. Qed.
Lemma ends_world {A} (m : SM W A) : steady f m -> ends (world m).
Proof. intros H s. destruct (H (clWorld s)) as [H1 H2]. unfold world. by destruct (m (clWorld s)). Qed.
Lemma ends_try {A} (m : B C W A) : ends m -> ends (stry m).
Proof. intros H s. destruct (H s) as [H1 H2]. unfold stry. by destruct (m s) as [[]]. Qed.
Lemma ends_wrap {A} what (m : B C W A) : ends m -> ends (swrap what m).
Proof. intros H s. destruct (H s) as [H1 H2]. unfold swrap. by destruct (m s) as [[]]. Qed.
Lemma ends_bind {A A'} (m : B C W A) (k : A -> B C W A') : ends m -> (forall a, ends (k a)) -> ends (m ≫= k).
Proof.
  intros H Hk s. destruct (H s) as [Hp Hf]. unfold mbind, SM_bind. destruct (m s) as [[a|e|] s1]; [|done|done].
  cbn in Hf. rewrite <- Hf. apply Hk.
Qed.
Lemma ends_forM {A A'} (l : list A) (acc : A') (g : A' -> A -> B C W A') : (forall b a, ends (g b a)) -> ends (sforM l acc g).
Proof. intros Hg. revert acc. induction l as [|x l IH]; intros acc; [apply ends_ret|]. by apply ends_bind. Qed.
End steady.
#[export] Hint Resolve ends_ret ends_fail ends_lift ends_state ends_update ends_log : calm.
#[export] Hint Resolve rs_ctx rs_now rs_dial rs_closeConnection rs_channel rs_close rs_exchange rs_queue rs_bind rs_purge rs_passive rs_qos
  rs_consume rs_wait rs_poll rs_ack rs_nack rs_confirm rs_publish rs_select : calm.
Ltac ends := repeat first
  [ progress intros | apply ends_try | apply ends_wrap | apply ends_world | apply ends_bind | apply ends_forM | solve [eauto 2 with calm]
  | match goal with |- steady _ (match ?x with _ => _ end) => destruct x end ].

Section ends.
Context {W : Type} `{!Amqp W} {J : BrokerJSON} (config : Config) {X : Type} (f : W -> X).
Hypothesis resp : responsive W f.
Local Abbreviation ends := (steady (fun s : Client Broker W => f (clWorld s))).

Lemma channel_ends : ends (channel config).
Proof using resp. unfold channel, rabbitMQChannelOpenAttempts. cbn [channelLoop]. unfold currentConnection, openRabbitMQChannel, reconnect, dialRabbitMQ, ignore. ends. Qed.
Hint Resolve channel_ends : calm.

Lemma admin_ends : ends (admin config).
Proof using resp. unfold admin. ends. Qed.
Hint Resolve admin_ends : calm.

Lemma Declare_ends : ends (declareTopology config).
Proof using resp.
  unfold declareTopology, declareOn, declareSourceImportQueues, declareAnalyzerQueues, exchangeDeclare, queueDeclare, queueBind. ends.
Qed.

Lemma Status_ends : ends (Status config).
Proof using resp.
  unfold Status, inspecting, withAdmin, inspectQueue, analyzerDepth, resetAdmin, closeRabbitMQChannelAsync, ignore. ends.
Qed.

Lemma receive_ends queue wait : ends (receiveDelivery config queue wait).
Proof using resp.
  unfold receiveDelivery, consumerStream, openConsumerStream, orClose, receiveDeliveryFrom, resetConsumerStream,
    closeRabbitMQChannelAsync, ignore. ends.
Qed.

Lemma publish_ends exchange key p : ends (publishPersistent config exchange key p).
Proof using resp.
  unfold publishPersistent, publisher, configureRabbitMQPublisher, publishOn, waitRabbitMQPublishConfirmed, resetPublisher,
    closeRabbitMQChannelAsync, ignore. ends.
Qed.

Lemma Publish_ends job : ends (Publish config job).
Proof using resp. unfold Publish. ends. Qed.

Lemma PublishObjectChanges_ends request : ends (PublishObjectChanges config request).
Proof using resp. unfold PublishObjectChanges. ends. Qed.

Lemma relayLoop_ends fuel limit queue wait next count : (forall d, ends (next d)) -> 0 <= limit - count < Z.of_nat fuel ->
  ends (relayLoop config fuel (Some limit) queue wait next count).
Proof using resp.
  intros Hnext. revert count. induction fuel as [|fuel IH]; intros count Hf; [cbn in Hf; lia|]. cbn [relayLoop].
  destruct (Z.ltb_spec count limit) as [Hc|Hc]; [|apply ends_ret].
  apply ends_bind; [apply ends_try|].
  - unfold relay, nackAfterError, nackDelivery, ackDelivery, marked. apply ends_bind; [apply receive_ends|]. intros [d|]; [|ends].
    apply ends_bind; [by apply ends_try|]. intros [e|[[ex key] p]]; [ends|]. apply ends_bind; [apply ends_try, publish_ends|]. ends.
  - intros [e|[]]; [ends| |ends]. apply IH. lia.
Qed.

Lemma ProcessFailures_ends limit : ends (ProcessFailures config limit).
Proof using resp.
  unfold ProcessFailures, withConsumer. cbv zeta. ends. apply relayLoop_ends; [unfold nextFailure; ends|].
  unfold orLimit. destruct (Z.leb_spec limit 0); lia.
Qed.

Lemma ProcessSourceImportFailures_ends limit : ends (ProcessSourceImportFailures config limit).
Proof using resp.
  unfold ProcessSourceImportFailures, withConsumer. cbv zeta. ends. apply relayLoop_ends; [unfold nextImportFailure; ends|].
  unfold orLimit. destruct (Z.leb_spec limit 0); lia.
Qed.

Lemma RequeueDeadLetters_ends limit : ends (RequeueDeadLetters config limit).
Proof using resp.
  unfold RequeueDeadLetters, withConsumer. cbv zeta. ends. apply relayLoop_ends; [unfold nextDeadLetter; ends|].
  unfold orLimit. destruct (Z.leb_spec limit 0); lia.
Qed.
End ends.

(** ** Reconciling drops nothing that is needed *)

Section reconcile.
Context {W : Type} `{!Amqp W} {J : BrokerJSON} (config : Config).
Local Abbreviation top := (topologyOf config).

(** A job with this key was copied to the reconcile queue. *)
Definition copied (pre : list event) (key : string) : Prop :=
  exists d job, jsUnmarshalJob (pbBody (dvProperties d)) = inr job /\ jIdempotencyKey job = key /\
    Published "" (reconcileQueue top) (publishingFromDelivery d) true ∈ pre.

(** Why a delivery may be acknowledged: its job is satisfied, a job with its key
    was copied, or it was itself put back into its analyzer's queue. *)
Definition reason (pre : list event) (d : Delivery) : Prop :=
  exists job, jsUnmarshalJob (pbBody (dvProperties d)) = inr job /\
    (Judged job true ∈ pre \/ copied pre (jIdempotencyKey job) \/
     Published (analysisExchange top) (workRoutingKeyFor (spName (jAnalyzer job))) (publishingFromDelivery d) true ∈ pre).

(** After [pre], every acknowledgement of [tr] has a reason, and nothing is
    rejected for good. *)
Fixpoint justified (pre tr : list event) : Prop :=
  match tr with
  | [] => True
  | e :: tr =>
      match e with Acked d _ => reason pre d | Nacked _ requeue _ => requeue = true | _ => True end /\ justified (pre ++ [e]) tr
  end.

Lemma justified_app pre tr tr' : justified pre (tr ++ tr') <-> justified pre tr /\ justified (pre ++ tr) tr'.
Proof using Type.
  revert pre. induction tr as [|e tr IH]; intros pre; cbn; [rewrite app_nil_r; naive_solver|].
  rewrite IH, <- app_assoc. cbn. naive_solver.
Qed.

Lemma round_justified f pre tr : round (reconcileQueue top) (reconciled_becomes config) f tr -> justified pre tr.
Proof using Type.
  assert (forall d m pre, reconciled_becomes config d m -> reason (pre ++ [sent m true]) d) as Hr.
  { intros d m pre' (job & Hj & ->). exists job. split; [done|]. do 2 right. apply elem_of_app. right. left. }
  destruct 1 as [d m Hm|d m Hm| | | |]; cbn; split_and!; auto.
Qed.

Lemma carried_justified r pre tr : carried (reconcileQueue top) (reconciled_becomes config) 0 None r tr -> justified pre tr.
Proof using Type.
  intros (rounds & last & -> & Hr & _ & Hl).
  assert (justified (pre ++ concat rounds) last) as Hlast.
  { assert (last = [] \/ exists f, round (reconcileQueue top) (reconciled_becomes config) f last) as [->|[f Hf]].
    { destruct r as [[e|[k [e|]]]|]; naive_solver. }
    - done.
    - by eapply round_justified. }
  apply justified_app. split; [|done]. clear Hl Hlast. revert pre. induction Hr as [|tr rounds Htr _ IH]; intros pre; [done|].
  cbn [concat]. apply justified_app. split; [by eapply round_justified|apply IH].
Qed.

Definition seen_ok (pre : list event) (seen : gset string) : Prop := forall key, key ∈ seen -> copied pre key.

Lemma copied_mono pre tr key : copied pre key -> copied (pre ++ tr) key.
Proof using Type. intros (d & job & Hj & Hk & Hp). exists d, job. split_and!; [done|done|]. apply elem_of_app. by left. Qed.

Lemma seen_mono pre tr seen : seen_ok pre seen -> seen_ok (pre ++ tr) seen.
Proof using Type. intros H key Hk. by apply copied_mono, H. Qed.

(** What a step of the reconciliation leaves behind. *)
Definition sifted (pre : list event) (r : option (GoError + (progress * option GoError))) (tr : list event) : Prop :=
  justified pre tr /\ match r with Some (inr (p, None)) => seen_ok (pre ++ tr) p.2 | _ => True end.

Lemma sifted_seq pre tr r tr' : justified pre tr -> sifted (pre ++ tr) r tr' -> sifted pre r (tr ++ tr').
Proof using Type. intros H [H1 H2]. split; [by apply justified_app|]. by rewrite app_assoc. Qed.

Lemma traces_acking pre d p f : reason pre d -> seen_ok pre (f p).2 -> traces (acking d p f) (sifted pre).
Proof using Type.
  intros Hr Hs. unfold acking. eapply traces_bind.
  - eapply (traces_try _ _ (fun r tr => match r with Some (inl _) => False | Some (inr _) => exists b, tr = [Acked d b] | None => tr = [] end));
      [apply traces_ack| |done]. intros [e|u] tr ->; eauto.
  - done.
  - by intros tr ->.
  - intros r tr [b ->]. apply traces_ret. apply sifted_seq; [done|]. split; [done|]. rewrite app_nil_r. destruct r; [done|]. by apply seen_mono.
Qed.

Lemma traces_back pre d p cause : traces (giveBack d p cause) (sifted pre).
Proof using Type.
  unfold giveBack. eapply traces_bind; [apply traces_nackAfter|done|by intros tr ->|]. intros e tr [b ->]. by apply traces_ret.
Qed.

Lemma traces_sift isSatisfied pre d p : seen_ok pre p.2 -> traces (reconcileJob config isSatisfied d p) (sifted pre).
Proof using Type.
  intros Hs. unfold reconcileJob. destruct (jsUnmarshalJob _) as [e|job] eqn:Hj; [apply traces_back|].
  apply traces_attempt; [apply calm_world|done|]. intros [e|satisfied]; [apply traces_back|]. apply traces_log_bind.
  change (traces (if satisfied then acking d (addChecked p) addSatisfied else if bool_decide (jIdempotencyKey job ∈ (addChecked p).2) then acking d (addChecked p) addDuplicate else
    let p := addSeen job (addChecked p) in
    r ← stry (publishPersistent config "" (reconcileQueue top) (publishingFromDelivery d));
    match r with inl e => giveBack d p e | inr _ => acking d p addKept end)
    (fun r tr => sifted pre r ([Judged job satisfied] ++ tr))).
  eapply traces_mono with (P := sifted (pre ++ [Judged job satisfied])); [|intros r tr; by apply sifted_seq].
  set (pre1 := pre ++ [_]). assert (seen_ok pre1 p.2) as Hs1 by by apply seen_mono.
  destruct satisfied; [|case_bool_decide as Hk].
  - apply traces_acking; [|done]. exists job. split; [done|left]. apply elem_of_app. right. left.
  - apply traces_acking; [|done]. exists job. split; [done|]. right. left. by apply Hs1.
  - cbv zeta. eapply traces_bind.
    { eapply (traces_try _ _ (fun r tr => match r with Some (inl _) => False
        | Some (inr (inr _)) => tr = [Published "" (reconcileQueue top) (publishingFromDelivery d) true]
        | _ => tr = [] \/ tr = [Published "" (reconcileQueue top) (publishingFromDelivery d) false] end)); [apply traces_publish| |done].
      by intros [e|u] tr. }
    { done. }
    { by intros tr [-> | ->]. }
    intros [e|u] tr Ht.
    + eapply traces_mono; [apply (traces_back (pre1 ++ tr))|]. intros r tr'. apply sifted_seq. by destruct Ht as [-> | ->].
    + subst tr. eapply traces_mono with (P := sifted (pre1 ++ [_])); [|intros r tr'; by apply sifted_seq].
      assert (copied (pre1 ++ [Published "" (reconcileQueue top) (publishingFromDelivery d) true]) (jIdempotencyKey job)) as Hc.
      { exists d, job. split_and!; [done|done|]. apply elem_of_app. right. left. }
      apply traces_acking; [exists job; eauto|]. intros key Hin. cbn in Hin. apply elem_of_union in Hin as [Hin|Hin].
      * by apply copied_mono, Hs1.
      * apply elem_of_singleton in Hin. by subst.
Qed.

Lemma traces_siftQueue isSatisfied limit queue fuel pre p : seen_ok pre p.2 ->
  traces (reconcileQueueLoop config fuel isSatisfied limit queue p) (sifted pre).
Proof using Type.
  revert pre p. induction fuel as [|fuel IH]; intros pre p Hs; cbn [reconcileQueueLoop].
  { intros s. exists []. by rewrite app_nil_r. }
  assert (forall e, seen_ok pre p.2 -> sifted pre (Some (inr (p, e))) []) as Hstop.
  { intros e H. split; [done|]. rewrite app_nil_r. by destruct e. }
  destruct (_ <? _); [|by apply traces_ret, Hstop]. eapply traces_bind.
  { eapply (traces_try _ _ (fun r tr => match r with Some (inl _) => False | Some (inr r) => got queue (Some r) tr | None => tr = [] end));
      [apply traces_receive|done|done]. }
  { done. }
  { by intros tr ->. }
  intros [e|[d|]] tr Hg; cbn in Hg; subst tr; [by apply traces_ret, Hstop| |by apply traces_ret, Hstop].
  eapply traces_mono with (P := sifted (pre ++ [_])); [|intros r tr'; by apply sifted_seq].
  eapply traces_bind; [apply (traces_sift _ (pre ++ [Received queue d])); by apply seen_mono|by intros e tr [H _]; split|by intros tr [H _]; split|].
  intros [p' [e|]] tr [H1 H2]; [by apply traces_ret, sifted_seq|].
  eapply traces_mono; [by apply (IH ((pre ++ [Received queue d]) ++ tr))|]. intros r tr'. by apply sifted_seq.
Qed.

Lemma traces_siftAnalyzers isSatisfied limit names pre p : seen_ok pre p.2 ->
  traces (reconcileAnalyzers config isSatisfied limit names p) (sifted pre).
Proof using Type.
  revert pre p. induction names as [|a names IH]; intros pre p Hs; cbn [reconcileAnalyzers].
  { apply traces_ret. split; [done|]. by rewrite app_nil_r. }
  eapply traces_bind; [by apply (traces_siftQueue _ _ _ _ pre)|by intros e tr [H _]; split|by intros tr [H _]; split|].
  intros [p' [e|]] tr [H1 H2]; [by apply traces_ret, sifted_seq|].
  eapply traces_mono; [by apply (IH (pre ++ tr))|]. intros r tr'. by apply sifted_seq.
Qed.

Lemma traces_reconcile fuel limit isSatisfied : traces (reconcile config fuel limit isSatisfied) (fun _ tr => justified [] tr).
Proof using Type.
  unfold reconcile. eapply traces_bind; [apply drain_carried|intros e tr; apply carried_justified|intros tr; apply carried_justified|].
  intros [n [e|]] tr Htr%(carried_justified _ []); [by apply traces_ret; rewrite app_nil_r|].
  assert (seen_ok tr (addRepublished n (freshResponse, ∅)).2) as Hs by (intros key Hk; by apply not_elem_of_empty in Hk).
  eapply traces_bind; [by apply (traces_siftAnalyzers _ _ _ tr)|..].
  - intros e tr1 [H _]. by apply justified_app.
  - intros tr1 [H _]. by apply justified_app.
  - intros [p [e|]] tr1 [H1 H2]; [apply traces_ret; rewrite app_nil_r; by apply justified_app|].
    assert (forall r tr2, carried (reconcileQueue top) (reconciled_becomes config) 0 None r tr2 -> justified [] (tr ++ tr1 ++ tr2)) as Hd.
    { intros r tr2 H3%(carried_justified _ ((tr ++ tr1))). rewrite app_assoc. apply justified_app. split; [by apply justified_app|done]. }
    eapply traces_bind; [apply drain_carried|intros e tr2; apply Hd|intros tr2; apply Hd|].
    intros [n2 [e|]] tr2 H3; apply traces_ret; rewrite app_nil_r; by eapply Hd.
Qed.
End reconcile.

(** ** The theorems *)

(** C14: a message leaves its queue only for a confirmed successor.  Whatever the
    server and the network do, each of [ProcessFailures],
    [ProcessSourceImportFailures] and [RequeueDeadLetters] works through its queue
    one message at a time: a message is acknowledged only after the job it becomes
    (with one more attempt for the retry or the dead-letter queue, or with none for
    its analyzer's work queue) was published and the client reported the
    confirmation; when anything fails before that, the message is given back and
    the run stops with the error and the number of messages it has moved, never
    more than its limit.  With a client whose calls return, each of the three
    ends.  (What a confirmation says about a message no queue takes is the
    server's: see [unroutable_publish_confirmed].) *)
Theorem queues_lose_nothing {W} `{!Amqp W} {J : BrokerJSON} (config : Config) (limit : Z) :
  let top := topologyOf config in
  traces (W := W) (ProcessFailures config limit) (carried (failedQueue top) (failure_becomes config) 0 (Some (orLimit limit 100))) /\
  traces (W := W) (ProcessSourceImportFailures config limit)
    (carried (sourceImportFailedQueue top) (import_failure_becomes config) 0 (Some (orLimit limit 100))) /\
  traces (W := W) (RequeueDeadLetters config limit) (carried (deadLetterQueue top) (dead_letter_becomes config) 0 (Some (orLimit limit 20))) /\
  (forall s, responsive W (fun _ => tt) -> (ProcessFailures (W := W) config limit s).1 <> Panic /\
     (ProcessSourceImportFailures (W := W) config limit s).1 <> Panic /\ (RequeueDeadLetters (W := W) config limit s).1 <> Panic).
Proof.
  split; [apply failures_carried|]. split; [apply import_failures_carried|]. split; [apply dead_letters_carried|].
  intros s Hr. split; [by apply (ProcessFailures_ends config _ Hr)|].
  split; [by apply (ProcessSourceImportFailures_ends config _ Hr)|by apply (RequeueDeadLetters_ends config _ Hr)].
Qed.

(** C15: reconciling drops no work.  [ReconcilePending] acknowledges a pending job
    only when the predicate has called it satisfied, when a job with the same
    idempotency key was copied to the reconcile queue and confirmed before, or
    when it was itself put back into its own analyzer's work queue; nothing is
    rejected for good, whatever fails on the way. *)
Theorem reconcile_drops_nothing {W} `{!Amqp W} {J : BrokerJSON} (config : Config) (fuel : nat) (limit : Z)
    (isSatisfied : AnalyzerJob -> SM W bool) :
  traces (ReconcilePending config fuel limit (Some isSatisfied)) (fun _ tr => justified config [] tr).
Proof.
  unfold ReconcilePending. eapply traces_bind; [apply (traces_withConsumer _ _ (fun _ tr => justified config [] tr))|..];
    [done|done|apply traces_reconcile|done|done|].
  intros r tr Htr. apply traces_ret. by rewrite app_nil_r.
Qed.

End Rounds.
