(* ===== verification/BrokerRoutes.v ===== *)
(** * Where the broker's messages go

    The exchanges, queues and bindings [Declare] sets up, what a direct exchange
    makes of them, and the way of a job through the queues until it is dead. *)

From stdpp Require Import options.
From S2P Require Import Prelude GoLib GoText Contracts Meta Jobs ArchiveQueue Breaker Broker BrokerRounds.

Local Open Scope Z_scope.

Module Routes.
Import Rabbit Rounds.

(** ** The declared topology *)

Section topology.
Context {W : Type} `{!Amqp W} (config : Config).
Local Abbreviation top := (topologyOf config).

(** What [Declare] declares, in order. *)
Definition analyzerDeclarations (a : string) : list event :=
  [QueueDeclared (workQueueFor top a) (priorityArgs ∪ deadLetterArgs (analysisExchange top) failedRoutingKey);
   QueueDeclared (retryQueueFor top a) (deadLetterArgs (analysisExchange top) (workRoutingKeyFor a));
   QueueBound (MkBinding (workQueueFor top a) (workRoutingKeyFor a) (analysisExchange top));
   QueueBound (MkBinding (retryQueueFor top a) (retryRoutingKeyFor a) (analysisExchange top))].

Definition sharedDeclarations : list event :=
  [ExchangeDeclared (analysisExchange top); ExchangeDeclared (projectionExchange top);
   QueueDeclared (reconcileQueue top) priorityArgs; QueueDeclared (failedQueue top) ∅; QueueDeclared (deadLetterQueue top) ∅;
   QueueDeclared (projectionQueue top) ∅;
   ExchangeDeclared (sourceImportExchange top);
   QueueDeclared (sourceImportWorkQueue top) (priorityArgs ∪ deadLetterArgs (sourceImportExchange top) sourceImportFailedRoutingKey);
   QueueDeclared (sourceImportRetryQueue top) (deadLetterArgs (sourceImportExchange top) sourceImportWorkRoutingKey);
   QueueDeclared (sourceImportFailedQueue top) ∅; QueueDeclared (sourceImportDeadLetterQueue top) ∅;
   QueueBound (MkBinding (failedQueue top) failedRoutingKey (analysisExchange top));
   QueueBound (MkBinding (deadLetterQueue top) deadLetterRoutingKey (analysisExchange top));
   QueueBound (MkBinding (projectionQueue top) projectionRoutingKey (projectionExchange top))] ++ map QueueBound (sourceImportBindings config).

Definition declarations : list event := sharedDeclarations ++ concat (map analyzerDeclarations (analyzers top)).

(** [m] declares the events of [l], or stops on the way. *)
Definition declares (l : list event) (m : B Broker W unit) : Prop :=
  traces m (fun r tr => tr `prefix_of` l /\ (forall u, r = Some (inr u) -> tr = l)).

Lemma declares_one what (m : SM W unit) e : declares [e] (_ ← swrap what (world m); log e).
Proof using Type.
  apply traces_skip; [apply calm_wrap, calm_world|split; [apply prefix_nil|done]..|].
  intros _. by apply traces_log.
Qed.

Lemma declares_seq l l' (m : B Broker W unit) (k : unit -> B Broker W unit) : declares l m -> declares l' (k tt) -> declares (l ++ l') (m ≫= k).
Proof using Type.
  intros Hm Hk. eapply traces_bind; [exact Hm| | |].
  - intros e tr [Hp _]. split; [by apply prefix_app_r|done].
  - intros tr [Hp _]. split; [by apply prefix_app_r|done].
  - intros [] tr [_ Ht]. rewrite (Ht tt eq_refl). eapply traces_mono; [exact Hk|]. intros r tr' [Hp Hr].
    split; [by apply prefix_app|]. intros u Hu. by rewrite (Hr u Hu).
Qed.

Lemma declares_forM {A} (f : A -> list event) (m : A -> B Broker W unit) l : (forall a, declares (f a) (m a)) ->
  declares (concat (map f l)) (sforM l tt (fun _ a => m a)).
Proof using Type.
  intros Hm. induction l as [|a l IH]; cbn [map concat sforM]; [by apply traces_ret|]. apply declares_seq; [apply Hm|exact IH].
Qed.

Lemma Declare_spec : traces (declareTopology config) (fun r tr => tr `prefix_of` declarations /\ (forall u, r = Some (inr u) -> tr = declarations)).
Proof using Type.
  unfold declareTopology. apply traces_skip; [apply calm_admin|split; [apply prefix_nil|done]..|]. intros ch.
  change (declares declarations (declareOn config ch)). unfold declareOn, declarations, sharedDeclarations. cbn [app].
  do 6 (refine (declares_seq [_] _ _ _ _ _); [apply declares_one|]).
  refine (declares_seq [_; _; _; _; _] _ _ _ _ _).
  { do 4 (refine (declares_seq [_] _ _ _ _ _); [apply declares_one|]). apply declares_one. }
  match goal with |- declares _ (sforM ?bs _ _ ≫= _) =>
    refine (declares_seq (concat (map (fun b => [QueueBound b]) bs)) (concat (map analyzerDeclarations (analyzers top))) _ _ _ _) end;
    [apply declares_forM; intros b; apply declares_one|].
  apply declares_forM. intros a. do 3 (refine (declares_seq [_] _ _ _ _ _); [apply declares_one|]). apply declares_one.
Qed.

End topology.

(** *** Where a direct exchange sends a message *)

(** The queues bound to the exchange with the routing key; the nameless exchange
    knows every queue by its name. *)
Definition route (tr : list event) (exchange key : string) : list string :=
  omap (fun e => match e with
    | QueueBound b => if bool_decide (qbExchange b = exchange) && bool_decide (qbRoutingKey b = key) then Some (qbQueue b) else None
    | QueueDeclared queue _ => if bool_decide (exchange = "") && bool_decide (queue = key) then Some queue else None
    | _ => None
    end) tr.

(** Where a message goes that is rejected or expires in [queue]. *)
Definition deadLetterRoute (tr : list event) (queue : string) : list string :=
  concat (map (fun e => match e with
    | QueueDeclared q args =>
        if bool_decide (q = queue) then
          match args !! "x-dead-letter-exchange", args !! "x-dead-letter-routing-key" with
          | Some (AStr exchange), Some (AStr key) => route tr exchange key
          | _, _ => []
          end
        else []
    | _ => []
    end) tr).

Definition only (q : string) (l : list string) : Prop := forall q', q' ∈ l <-> q' = q.

(** Every message the code publishes has one queue to go to. *)
Record routes_ok (config : Config) (tr : list event) : Prop := {
  ro_work : forall a, a ∈ cfAnalyzers config -> only (workQueueFor (topologyOf config) a) (route tr (analysisExchange (topologyOf config)) (workRoutingKeyFor a));
  ro_retry : forall a, a ∈ cfAnalyzers config -> only (retryQueueFor (topologyOf config) a) (route tr (analysisExchange (topologyOf config)) (retryRoutingKeyFor a));
  ro_failed : only (failedQueue (topologyOf config)) (route tr (analysisExchange (topologyOf config)) failedRoutingKey);
  ro_dead : only (deadLetterQueue (topologyOf config)) (route tr (analysisExchange (topologyOf config)) deadLetterRoutingKey);
  ro_reconcile : only (reconcileQueue (topologyOf config)) (route tr "" (reconcileQueue (topologyOf config)));
  ro_projection : only (projectionQueue (topologyOf config)) (route tr (projectionExchange (topologyOf config)) projectionRoutingKey);
  ro_import_work : only (sourceImportWorkQueue (topologyOf config)) (route tr (sourceImportExchange (topologyOf config)) sourceImportWorkRoutingKey);
  ro_import_retry : only (sourceImportRetryQueue (topologyOf config)) (route tr (sourceImportExchange (topologyOf config)) sourceImportRetryRoutingKey);
  ro_import_failed : only (sourceImportFailedQueue (topologyOf config)) (route tr (sourceImportExchange (topologyOf config)) sourceImportFailedRoutingKey);
  ro_import_dead : only (sourceImportDeadLetterQueue (topologyOf config))
    (route tr (sourceImportExchange (topologyOf config)) sourceImportDeadLetterRoutingKey);
  (** a rejected job fails, an expired retry is work again *)
  ro_rejected : forall a, a ∈ cfAnalyzers config -> only (failedQueue (topologyOf config)) (deadLetterRoute tr (workQueueFor (topologyOf config) a));
  ro_expired : forall a, a ∈ cfAnalyzers config ->
    only (workQueueFor (topologyOf config) a) (deadLetterRoute tr (retryQueueFor (topologyOf config) a));
  ro_import_rejected : only (sourceImportFailedQueue (topologyOf config)) (deadLetterRoute tr (sourceImportWorkQueue (topologyOf config)));
  ro_import_expired : only (sourceImportWorkQueue (topologyOf config)) (deadLetterRoute tr (sourceImportRetryQueue (topologyOf config)));
  (** the failed and the dead stay where they are until someone moves them *)
  ro_final : forall q, q ∈ [failedQueue (topologyOf config); deadLetterQueue (topologyOf config);
    sourceImportFailedQueue (topologyOf config); sourceImportDeadLetterQueue (topologyOf config)] -> deadLetterRoute tr q = [] }.

Section routes.
Context (config : Config).
Local Abbreviation top := (topologyOf config).

Lemma elem_declarations e : e ∈ declarations config <->
  e ∈ sharedDeclarations config \/ exists a, a ∈ cfAnalyzers config /\ e ∈ analyzerDeclarations config a.
Proof.
  unfold declarations. rewrite elem_of_app, (list_elem_of_In (concat _)), in_concat. setoid_rewrite in_map_iff.
  setoid_rewrite <- list_elem_of_In.
  split; (intros [H|H]; [by left|right]); [destruct H as (l & (a & <- & Ha) & He)|destruct H as (a & Ha & He)]; eauto.
Qed.

Definition bindings : list queueBinding :=
  [MkBinding (failedQueue top) failedRoutingKey (analysisExchange top); MkBinding (deadLetterQueue top) deadLetterRoutingKey (analysisExchange top);
   MkBinding (projectionQueue top) projectionRoutingKey (projectionExchange top)] ++ sourceImportBindings config.
Definition analyzerBindings (a : string) : list queueBinding :=
  [MkBinding (workQueueFor top a) (workRoutingKeyFor a) (analysisExchange top);
   MkBinding (retryQueueFor top a) (retryRoutingKeyFor a) (analysisExchange top)].

Lemma elem_bound b : QueueBound b ∈ declarations config <->
  b ∈ bindings \/ exists a, a ∈ cfAnalyzers config /\ b ∈ analyzerBindings a.
Proof.
  rewrite elem_declarations. unfold sharedDeclarations, analyzerDeclarations, bindings, analyzerBindings, sourceImportBindings. cbn [app map].
  setoid_rewrite list_elem_of_In. cbn [In]. split; intros H; repeat (destruct H as [H|H]; [simplify_eq; naive_solver|]); naive_solver.
Qed.

Lemma route_bound ex key q : ex <> "" -> q ∈ route (declarations config) ex key <->
  exists b, (b ∈ bindings \/ exists a, a ∈ cfAnalyzers config /\ b ∈ analyzerBindings a) /\ qbExchange b = ex /\ qbRoutingKey b = key /\ qbQueue b = q.
Proof.
  intros Hx. unfold route. rewrite list_elem_of_omap. setoid_rewrite <- elem_bound. split.
  - intros (e & He & Hf). destruct e as [| |b| | | | | |]; try done.
    + by rewrite bool_decide_false in Hf.
    + exists b. split; [done|]. destruct (bool_decide_reflect (qbExchange b = ex)), (bool_decide_reflect (qbRoutingKey b = key)); naive_solver.
  - intros (b & Hb & <- & <- & <-). exists (QueueBound b). split; [done|]. by rewrite !bool_decide_true.
Qed.

(** Names with the same prefix are compared without it. *)
Ltac names := unfold workQueueFor, retryQueueFor in *; cbn [topologyOf newTopology prefix failedQueue deadLetterQueue] in *; repeat match goal with
  | H : ?p +:+ _ = ?p +:+ _ |- _ => apply str_app_inj_l in H
  | H : _ = _ :> string |- _ => progress (cbn in H)
  end; simplify_eq.

Lemma exchange_named (suffix : string) : suffix <> "" -> cfQueuePrefix config +:+ suffix <> "".
Proof. destruct (cfQueuePrefix config); [done|]. by destruct suffix. Qed.

(** A binding whose exchange and key no other has. *)
Lemma route_only b : (b ∈ bindings \/ exists a, a ∈ cfAnalyzers config /\ b ∈ analyzerBindings a) ->
  only (qbQueue b) (route (declarations config) (qbExchange b) (qbRoutingKey b)).
Proof.
  intros Hb q. assert (qbExchange b <> "") as Hx.
  { destruct Hb as [Hb|(a & _ & Hb)]; rewrite list_elem_of_In in Hb; repeat (destruct Hb as [<-|Hb]; [by apply exchange_named|]); destruct Hb. }
  rewrite route_bound by done. split; [|intros ->; eauto].
  intros (b' & Hb' & H1 & H2 & <-).
  destruct Hb as [Hb|(a & _ & Hb)], Hb' as [Hb'|(a' & _ & Hb')]; rewrite list_elem_of_In in Hb, Hb'.
  all: repeat (destruct Hb as [<-|Hb]; [repeat (destruct Hb' as [<-|Hb']; [by names|]); destruct Hb'|]); destruct Hb.
Qed.

Definition queues : list (string * anyMap) :=
  [(reconcileQueue top, priorityArgs); (failedQueue top, ∅); (deadLetterQueue top, ∅); (projectionQueue top, ∅);
   (sourceImportWorkQueue top, priorityArgs ∪ deadLetterArgs (sourceImportExchange top) sourceImportFailedRoutingKey);
   (sourceImportRetryQueue top, deadLetterArgs (sourceImportExchange top) sourceImportWorkRoutingKey);
   (sourceImportFailedQueue top, ∅); (sourceImportDeadLetterQueue top, ∅)].
Definition analyzerQueues (a : string) : list (string * anyMap) :=
  [(workQueueFor top a, priorityArgs ∪ deadLetterArgs (analysisExchange top) failedRoutingKey);
   (retryQueueFor top a, deadLetterArgs (analysisExchange top) (workRoutingKeyFor a))].

Definition declared (q : string * anyMap) : Prop := q ∈ queues \/ exists a, a ∈ cfAnalyzers config /\ q ∈ analyzerQueues a.

Lemma elem_declared q args : QueueDeclared q args ∈ declarations config <-> declared (q, args).
Proof.
  unfold declared. rewrite elem_declarations. unfold sharedDeclarations, analyzerDeclarations, queues, analyzerQueues, sourceImportBindings. cbn [app map].
  setoid_rewrite list_elem_of_In. cbn [In]. split; intros H; repeat (destruct H as [H|H]; [simplify_eq; naive_solver|]); naive_solver.
Qed.

(** A name is declared with one set of arguments. *)
Lemma declared_once q args args' : declared (q, args) -> declared (q, args') -> args' = args.
Proof.
  unfold declared. setoid_rewrite list_elem_of_In. intros [Hb|(a & _ & Hb)] [Hb'|(a' & _ & Hb')].
  all: repeat (destruct Hb as [Hb|Hb]; [injection Hb as <- <-; repeat (destruct Hb' as [Hb'|Hb']; [apply pair_equal_spec in Hb' as [Hq <-]; by names|]); destruct Hb'|]); destruct Hb.
Qed.

Lemma elem_deadLetterRoute q args q' : declared (q, args) -> q' ∈ deadLetterRoute (declarations config) q <->
  exists exchange key, args !! "x-dead-letter-exchange" = Some (AStr exchange) /\ args !! "x-dead-letter-routing-key" = Some (AStr key) /\
    q' ∈ route (declarations config) exchange key.
Proof.
  intros Hq. unfold deadLetterRoute. rewrite (list_elem_of_In (concat _)), in_concat. setoid_rewrite in_map_iff.
  setoid_rewrite <- list_elem_of_In. split.
  - intros (l & (e & <- & He) & Hl). destruct e as [|q2 args2| | | | | | |]; try by apply elem_of_nil in Hl.
    case_bool_decide as Hn; [|by apply elem_of_nil in Hl]. subst q2.
    rewrite elem_declared in He. rewrite (declared_once _ _ _ Hq He) in Hl.
    destruct (args !! "x-dead-letter-exchange") as [[]|], (args !! "x-dead-letter-routing-key") as [[]|]; try by apply elem_of_nil in Hl. eauto.
  - intros (ex & key & H1 & H2 & H3). eexists. split; [exists (QueueDeclared q args)|]; [split; [done|by apply elem_declared]|].
    by rewrite bool_decide_true, H1, H2.
Qed.

Lemma deadLetter_only q args ex key b : declared (q, args) ->
  args !! "x-dead-letter-exchange" = Some (AStr ex) -> args !! "x-dead-letter-routing-key" = Some (AStr key) ->
  only b (route (declarations config) ex key) -> only b (deadLetterRoute (declarations config) q).
Proof.
  intros Hq H1 H2 Hb q'. rewrite (elem_deadLetterRoute q args) by done. rewrite <- (Hb q'). rewrite H1, H2. split; [|eauto].
  by intros (ex' & key' & [= <-] & [= <-] & H).
Qed.

Lemma declarations_route : routes_ok config (declarations config).
Proof.
  assert (forall a, a ∈ cfAnalyzers config -> forall q, q ∈ analyzerQueues a -> declared q) as Hd by (right; eauto).
  assert (only (failedQueue top) (route (declarations config) (analysisExchange top) failedRoutingKey)) as Hf.
  { apply (route_only (MkBinding (failedQueue top) failedRoutingKey (analysisExchange top))). left. left. }
  assert (forall a, a ∈ cfAnalyzers config -> only (workQueueFor top a) (route (declarations config) (analysisExchange top) (workRoutingKeyFor a))) as Hw.
  { intros a Ha. apply (route_only (MkBinding (workQueueFor top a) (workRoutingKeyFor a) (analysisExchange top))). right. exists a. split; [done|left]. }
  assert (forall b, b ∈ sourceImportBindings config -> only (qbQueue b) (route (declarations config) (qbExchange b) (qbRoutingKey b))) as Hi.
  { intros b Hb. apply route_only. left. unfold bindings. apply elem_of_app. by right. }
  split; try done.
  - intros a Ha. apply (route_only (MkBinding (retryQueueFor top a) (retryRoutingKeyFor a) (analysisExchange top))). right. exists a. split; [done|right; left].
  - apply (route_only (MkBinding (deadLetterQueue top) deadLetterRoutingKey (analysisExchange top))). left. right; left.
  - intros q. unfold route. rewrite list_elem_of_omap. split; [|intros ->; exists (QueueDeclared (reconcileQueue top) priorityArgs)].
    + intros (e & He & Hq). destruct e as [|q2| b | | | | | |]; try done.
      * rewrite bool_decide_true in Hq by done. cbn -[topologyOf] in Hq. destruct (bool_decide_reflect (q2 = reconcileQueue top)); congruence.
      * rewrite bool_decide_false in Hq; [done|]. rewrite elem_bound in He.
        destruct He as [Hb|(a & _ & Hb)]; rewrite list_elem_of_In in Hb; repeat (destruct Hb as [<-|Hb]; [by apply exchange_named|]); destruct Hb.
    + split; [apply elem_declared; left; left|]. by rewrite !bool_decide_true.
  - apply (route_only (MkBinding (projectionQueue top) projectionRoutingKey (projectionExchange top))). left. do 2 right. left.
  - apply (Hi (MkBinding _ _ _)). left.
  - apply (Hi (MkBinding _ _ _)). right. left.
  - apply (Hi (MkBinding _ _ _)). do 2 right. left.
  - apply (Hi (MkBinding _ _ _)). do 3 right. left.
  - intros a Ha. eapply (deadLetter_only _ _ (analysisExchange top) failedRoutingKey); [eapply (Hd a Ha); left|done|done|done].
  - intros a Ha. eapply (deadLetter_only _ _ (analysisExchange top) (workRoutingKeyFor a)); [eapply (Hd a Ha); right; left|done|done|auto].
  - eapply (deadLetter_only _ _ (sourceImportExchange top) sourceImportFailedRoutingKey); [left; do 4 right; left|done|done|].
    apply (Hi (MkBinding _ _ _)). do 2 right. left.
  - eapply (deadLetter_only _ _ (sourceImportExchange top) sourceImportWorkRoutingKey); [left; do 5 right; left|done|done|].
    apply (Hi (MkBinding _ _ _)). left.
  - assert (forall q, declared (q, ∅) -> deadLetterRoute (declarations config) q = []) as Hn.
    { intros q Hq. apply elem_of_nil_inv. intros q' Hq'. apply (elem_deadLetterRoute q ∅) in Hq' as (ex & key & H1 & _); done. }
    intros q Hq. apply Hn. left. rewrite !elem_of_cons in Hq.
    destruct Hq as [->|[->|[->|[->|Hq%elem_of_nil]]]]; [right; left|do 2 right; left|do 6 right; left|do 7 right; left|done].
Qed.

(** *** The life of a failing job *)

(** A job in a queue.  A worker rejects it, its time in the retry queue is over (a
    message without an expiration has no such time), or the scheduler takes it from
    the failed queue. *)
Inductive hop : string * AnalyzerJob -> string * AnalyzerJob -> Prop :=
  | hop_rejected a job q : a ∈ cfAnalyzers config -> q ∈ deadLetterRoute (declarations config) (workQueueFor top a) ->
      hop (workQueueFor top a, job) (q, job)
  | hop_expired a job q : a ∈ cfAnalyzers config -> q ∈ deadLetterRoute (declarations config) (retryQueueFor top a) ->
      retryExpiration config (jAttempt job) <> "" -> hop (retryQueueFor top a, job) (q, job)
  | hop_failed job q : q ∈ route (declarations config) (analysisExchange top) (failureRoutingKey config (retried job)) ->
      hop (failedQueue top, job) (q, retried job).

Lemma FormatUint_nonempty n : FormatUint n <> "".
Proof using Type.
  unfold FormatUint. cbn [formatLoop]. destruct (n <? 10)%N; [done|]. rewrite formatLoop_app. by destruct (formatLoop _ _ []).
Qed.

Lemma retryBackoff_exact k : 0 < cfRetryBackoff config -> 1 <= k -> cfRetryBackoff config * 2 ^ (k - 1) < 2 ^ 63 ->
  retryBackoff config k = cfRetryBackoff config * 2 ^ (k - 1).
Proof.
  intros Hb Hk. unfold retryBackoff. destruct (Z.leb_spec k 0); [lia|]. remember (Z.to_nat (k - 1)) as n eqn:Hn.
  replace (k - 1) with (Z.of_nat n) by lia. clear Hn Hk H k. induction n as [|n IH]; intros Hlt; cbn [Nat.iter nat_rect].
  - cbn. lia.
  - rewrite Nat2Z.inj_succ, Z.pow_succ_r in * by lia. change (int64 (Nat.iter n (fun b => int64 (b * 2)) (cfRetryBackoff config) * 2) = cfRetryBackoff config * (2 * 2 ^ Z.of_nat n)).
    rewrite IH by nia. rewrite int64_id; nia.
Qed.

Context (a : string) (job : AnalyzerJob).
Hypothesis known : a ∈ cfAnalyzers config.
Hypothesis named : spName (jAnalyzer job) = a.
Hypothesis attempts : 0 <= jAttempt job < 2 ^ 63 - 1.
Hypothesis backoff : 0 < cfRetryBackoff config.
Hypothesis bounded : cfRetryBackoff config * 2 ^ cfRetryLimit config < 2 ^ 63.

Definition retriesLeft (k : Z) : nat := Z.to_nat (cfRetryLimit config - k).
Definition lastAttempt : Z := Z.max (cfRetryLimit config) (jAttempt job) + 1.

(** Where the job can be, and how many hops it has left. *)
Inductive stage : string * AnalyzerJob -> nat -> Prop :=
  | at_work k : jAttempt job <= k < lastAttempt -> stage (workQueueFor top a, withAttempt k job) (3 * retriesLeft k + 2)
  | at_failed k : jAttempt job <= k < lastAttempt -> stage (failedQueue top, withAttempt k job) (3 * retriesLeft k + 1)
  | at_retry k : jAttempt job < k <= cfRetryLimit config -> stage (retryQueueFor top a, withAttempt k job) (3 * retriesLeft k + 3)
  | at_dead : stage (deadLetterQueue top, withAttempt lastAttempt job) 0.

Lemma limit_small : cfRetryLimit config < 63.
Proof using backoff bounded.
  destruct (decide (cfRetryLimit config < 63)); [done|].
  assert (2 ^ 63 <= 2 ^ cfRetryLimit config) by (apply Z.pow_le_mono_r; lia). nia.
Qed.

(** No attempt of the job's life overflows. *)
Lemma retried_with k : jAttempt job <= k < lastAttempt -> retried (withAttempt k job) = withAttempt (k + 1) job.
Proof using attempts backoff bounded.
  intros Hk. unfold lastAttempt in Hk. pose proof limit_small. unfold retried. cbn [withAttempt jAttempt].
  rewrite int64_id by lia. done.
Qed.

Lemma failed_next k : jAttempt job <= k < lastAttempt ->
  exists q n, only q (route (declarations config) (analysisExchange top) (failureRoutingKey config (withAttempt (k + 1) job))) /\
    stage (q, withAttempt (k + 1) job) n /\ (n < 3 * retriesLeft k + 1)%nat.
Proof using known named attempts.
  intros Hk. pose proof declarations_route as Hr. unfold failureRoutingKey. cbn [withAttempt jAttempt jAnalyzer]. rewrite named.
  destruct (Z.ltb_spec (cfRetryLimit config) (k + 1)).
  - exists (deadLetterQueue top), 0%nat. split; [apply Hr|]. split; [|lia]. unfold lastAttempt in Hk.
    replace (k + 1) with lastAttempt by (unfold lastAttempt; lia). constructor.
  - exists (retryQueueFor top a), (3 * retriesLeft (k + 1) + 3)%nat. split; [by apply Hr|]. split; [constructor; lia|]. unfold retriesLeft. lia.
Qed.

Lemma stage_step p n p' : stage p n -> hop p p' -> exists n', stage p' n' /\ (n' < n)%nat.
Proof using known named attempts backoff bounded.
  pose proof declarations_route as Hr. intros [k Hk|k Hk|k Hk|] Hh; inversion Hh as [a' j q Ha Hq Hp|a' j q Ha Hq He Hp|j q Hq Hp]; subst.
  all: try by names.
  - assert (a' = a) as -> by by names. apply (ro_rejected _ _ Hr) in Hq as ->; [|done]. eexists. split; [by constructor|lia].
  - rewrite (retried_with k Hk) in *. destruct (failed_next k Hk) as (q' & n' & Ho & Hs & Hlt). apply Ho in Hq as ->. eauto.
  - assert (a' = a) as -> by by names. apply (ro_expired _ _ Hr) in Hq as ->; [|done]. eexists. split; [constructor; unfold lastAttempt; lia|lia].
Qed.

Lemma stage_progress p n : stage p n -> (0 < n)%nat -> exists p', hop p p'.
Proof using known named attempts backoff bounded.
  pose proof declarations_route as Hr. intros [k Hk|k Hk|k Hk|] Hn; [| | |lia].
  - eexists (failedQueue top, _). apply hop_rejected; [done|]. by apply (ro_rejected _ _ Hr).
  - destruct (failed_next k Hk) as (q' & n' & Ho & _). eexists (q', _). apply hop_failed. rewrite (retried_with k Hk). by apply Ho.
  - eexists (workQueueFor top a, _). apply hop_expired; [done|by apply (ro_expired _ _ Hr)|]. unfold retryExpiration. cbn [withAttempt jAttempt].
    assert (2 ^ (k - 1) <= 2 ^ cfRetryLimit config) by (apply Z.pow_le_mono_r; lia).
    rewrite retryBackoff_exact by nia. rewrite (proj2 (Z.ltb_lt _ _)) by nia. rewrite (proj2 (Z.leb_le _ _)) by lia. cbn [andb].
    apply FormatUint_nonempty.
Qed.

Lemma stage_dies p n : stage p n -> rtc hop p (deadLetterQueue top, withAttempt lastAttempt job).
Proof using known named attempts backoff bounded.
  revert p. induction (lt_wf n) as [n _ IH]. intros p Hp. destruct (decide (0 < n)%nat) as [Hn|Hn].
  - destruct (stage_progress p n Hp Hn) as [p' Hh]. destruct (stage_step p n p' Hp Hh) as (n' & Hp' & Hlt).
    eapply rtc_l; [exact Hh|]. by eapply IH.
  - destruct Hp; [lia..|]. apply rtc_refl.
Qed.

Lemma stage_bound p n m p' : stage p n -> nsteps hop m p p' -> (m <= n)%nat /\ exists n', stage p' n'.
Proof using known named attempts backoff bounded.
  intros Hp Hs. revert n Hp. induction Hs as [p|m p1 p2 p3 Hh _ IH]; intros n Hp; [split; [lia|eauto]|].
  destruct (stage_step _ _ _ Hp Hh) as (n' & Hp' & Hlt). destruct (IH n' Hp'). split; [lia|done].
Qed.
End routes.

(** ** The theorems *)

(** C17: every message has one queue to go to.  When [Declare] has succeeded, the
    exchange and routing key of every publication of the code lead to one queue and
    no other: the work and the retry key of each configured analyzer to its own work
    and retry queue, the failed, dead-letter and projection keys to the failed,
    dead-letter and projection queue, the work, retry, failed and dead-letter keys of
    source imports to the import queue of that name, and a copy for reconciliation to
    the reconcile queue; a rejected job goes to the failed queue and an expired retry
    back to the work queue, of its own analyzer or of the imports; what is in a
    failed or dead-letter queue stays there until someone moves it. *)
Theorem declared_routes {W} `{!Amqp W} (config : Config) (s s' : Client Broker W) :
  declareTopology config s = (Ok tt, s') -> exists tr, clTrace s' = clTrace s ++ tr /\ routes_ok config tr.
Proof.
  intros Hd. pose proof (Declare_spec config s) as H. unfold upto in H. rewrite Hd in H. destruct H as (tr & Ht & _ & Hr).
  exists tr. split; [done|]. rewrite (Hr tt eq_refl). apply declarations_route.
Qed.

(** C16: a job that fails every time is buried, when its backoffs fit.  Let the
    retry backoff be positive, small enough that doubling it once for every retry
    the limit allows stays within 64 bits, and the job's attempt count not negative
    and not the largest [int].  Then from the work queue of its analyzer a job that
    is rejected again and again passes the failed and the retry queue, one more
    attempt each time, and ends in the dead-letter queue after as many retries as
    the limit allows: wherever it is, it can get there, and no way is longer than
    three hops for each retry and two for the end.  (Without the bound it is false:
    [retry_never_expires].) *)
Theorem failing_job_buried (config : Config) (a : string) (job : AnalyzerJob) :
  a ∈ cfAnalyzers config -> spName (jAnalyzer job) = a -> 0 <= jAttempt job < 2 ^ 63 - 1 ->
  0 < cfRetryBackoff config -> cfRetryBackoff config * 2 ^ cfRetryLimit config < 2 ^ 63 ->
  let start := (workQueueFor (topologyOf config) a, job) in
  (forall p, rtc (hop config) start p ->
     rtc (hop config) p (deadLetterQueue (topologyOf config), withAttempt (Z.max (cfRetryLimit config) (jAttempt job) + 1) job)) /\
  (forall n p, nsteps (hop config) n start p -> (n <= 3 * Z.to_nat (cfRetryLimit config - jAttempt job) + 2)%nat).
Proof.
  intros Hk Hn Ha Hb Ho start. assert (stage config a job start (3 * Z.to_nat (cfRetryLimit config - jAttempt job) + 2)) as Hs.
  { unfold start. replace job with (withAttempt (jAttempt job) job) at 2 by (by destruct job). apply at_work. unfold lastAttempt. lia. }
  split.
  - intros p [n Hp]%rtc_nsteps. eapply stage_bound in Hp as [_ [n' Hp]]; [|done..]. by eapply stage_dies.
  - intros n p Hp. eapply stage_bound in Hp as [Hle _]; done.
Qed.

End Routes.
