(* ===== verification/BrokerSource.v ===== *)
(** * Job sources: [scheduler/rabbitmq/analysis_source.go], [source_import.go]

    The workers' side of the queues: a source of jobs with its own connection,
    and the receipts a job is settled with.  The two sources of the code, for
    analysis jobs and for import jobs, differ in their names only ([kind]). *)

From stdpp Require Import options.
From S2P Require Import Prelude GoLib GoText Contracts Meta Jobs ArchiveQueue Breaker Broker BrokerRounds.

Local Open Scope Z_scope.

Module Sources.
Import Rabbit Rounds.

(** [AnalysisJobSourceConfig]; the config of import sources has no analyzer. *)
Record SourceConfig := MkSourceConfig { scURL : string; scQueuePrefix : string; scAnalyzer : string; scPrefetch : Z }.

Definition AnalysisWorkQueue (prefix analyzer : string) : string :=
  let prefix := if bool_decide (TrimSpace prefix = "") then defaultQueuePrefix else prefix in
  if bool_decide (TrimSpace analyzer = "") then prefix +:+ workSuffix else prefix +:+ workSuffix +:+ "." +:+ analyzer.

(** [err.Error()]. *)
Fixpoint errorText (e : GoError) : string :=
  match e with
  | ErrNotExist => "file does not exist"
  | ErrCtx => "context canceled"
  | ErrVar name => name
  | ErrMsg msg => msg
  | ErrWrap msg e => msg +:+ ": " +:+ errorText e
  | ErrJoin e1 e2 => errorText e1 +:+ String (Ascii.ascii_of_nat 10) (errorText e2)
  end.

Definition withFailure (failure : string) (j : AnalyzerJob) : AnalyzerJob :=
  MkJob (jCreatedAt j) (jDeadline j) (jAnalyzer j) (jRequestedBy j) (jObjectDigest j) (jPriorityClass j) (jReason j) (jTraceID j)
    failure (jIdempotencyKey j) (jJobID j) (jSchemaVersion j) (jAttempt j) (jPriority j) (jForced j).

Definition withImportFailure (failure : string) (j : SourceImportJob) : SourceImportJob :=
  MkImportJob (ijCreatedAt j) (ijDeadline j) (ijRunID j) (ijSourceName j) (ijRoot j) (ijPath j) (ijRelativePath j) (ijFormat j)
    (ijRequestedBy j) (ijPriorityClass j) (ijTraceID j) failure (ijIdempotencyKey j) (ijJobID j) (ijSchemaVersion j)
    (ijOffset j) (ijLimit j) (ijAttempt j) (ijPriority j) (ijDryRun j) (ijLowNoise j).

(** What tells the two sources apart. *)
Record kind (Job : Type) := MkKind {
  kLabel : string; kQueue : SourceConfig -> string; kExchange : string; kFailedKey : string;
  kMarshal : Job -> GoError + string; kUnmarshal : string -> GoError + Job;
  kWithFailure : string -> Job -> Job; kKey : Job -> string; kAttempt : Job -> Z; kPriority : Job -> Z }.
Arguments MkKind {Job} _ _ _ _ _ _ _ _ _ _.
Arguments kLabel {Job} _.
Arguments kQueue {Job} _ _.
Arguments kExchange {Job} _.
Arguments kFailedKey {Job} _.
Arguments kMarshal {Job} _ _.
Arguments kUnmarshal {Job} _ _.
Arguments kWithFailure {Job} _ _ _.
Arguments kKey {Job} _ _.
Arguments kAttempt {Job} _ _.
Arguments kPriority {Job} _ _.

Definition analysisKind {J : BrokerJSON} : kind AnalyzerJob :=
  MkKind "analysis" (fun c => AnalysisWorkQueue (scQueuePrefix c) (scAnalyzer c)) analysisSuffix failedRoutingKey
    jsMarshalJob jsUnmarshalJob withFailure jIdempotencyKey jAttempt jPriority.

Definition importKind {J : BrokerJSON} : kind SourceImportJob :=
  MkKind "source import" (fun c => scQueuePrefix c +:+ sourceImportWorkSuffix) sourceImportExSuffix sourceImportFailedRoutingKey
    jsMarshalImport jsUnmarshalImport withImportFailure ijIdempotencyKey ijAttempt ijPriority.

(** The fields that change. *)
Record JobSource := MkSource {
  jsConnection : option N; jsChannel : option N; jsDeliveries : option N; jsPublishChannel : option N }.

Definition set_connection (x : option N) (s : JobSource) : JobSource := MkSource x (jsChannel s) (jsDeliveries s) (jsPublishChannel s).
Definition set_consumer (c : option N) (d : option N) (s : JobSource) : JobSource := MkSource (jsConnection s) c d (jsPublishChannel s).
Definition set_publish (x : option N) (s : JobSource) : JobSource := MkSource (jsConnection s) (jsChannel s) (jsDeliveries s) x.

(** A job and the delivery it came with. *)
Record receipt (Job : Type) := MkJobReceipt { rcptDelivery : Delivery; rcptJob : Job }.
Arguments MkJobReceipt {Job} _ _.
Arguments rcptDelivery {Job} _.
Arguments rcptJob {Job} _.

Section source.
Context {W : Type} `{!Amqp W} {J : BrokerJSON} {Job : Type} (kd : kind Job) (config : SourceConfig).

Abbreviation Src := (B JobSource W).

(** [NewAnalysisJobSource], [NewSourceImportJobSource]; the config it keeps. *)
Definition NewJobSource : Src SourceConfig :=
  if bool_decide (TrimSpace (scURL config) = "") then sfail (ErrMsg "scheduler rabbitmq url is required") else
  let config := MkSourceConfig (scURL config)
    (if bool_decide (TrimSpace (scQueuePrefix config) = "") then defaultQueuePrefix else scQueuePrefix config)
    (scAnalyzer config) (scPrefetch config) in
  _ ← world amCtxErr;
  conn ← swrap ("connect scheduler rabbitmq " +:+ kLabel kd) (world (amDial (scURL config)));
  _ ← update (set_connection (Some conn));
  mret config.

Definition ensureConsumer : Src N :=
  d ← state jsDeliveries;
  match d with
  | Some d => mret d
  | None =>
      _ ← world amCtxErr;
      c ← state jsConnection;
      match c with
      | None => sfail errBrokerClosed
      | Some conn =>
          channel ← swrap ("open scheduler rabbitmq channel: " +:+ kLabel kd) (world (amChannel conn));
          let prefetch := if scPrefetch config <=? 0 then 1 else scPrefetch config in
          _ ← orClose channel (swrap ("set scheduler rabbitmq qos: " +:+ kLabel kd) (world (amQos channel prefetch)));
          deliveries ← orClose channel (swrap ("consume work queue: " +:+ kLabel kd) (world (amConsume channel (kQueue kd config) "")));
          _ ← update (set_consumer (Some channel) (Some deliveries));
          mret deliveries
      end
  end.

Definition Receive : Src (receipt Job) :=
  deliveries ← ensureConsumer;
  r ← world (amWait deliveries);
  match r with
  | inl e => sfail e
  | inr None => sfail (ErrMsg ("scheduler rabbitmq delivery channel closed: " +:+ kLabel kd))
  | inr (Some d) =>
      _ ← log (Received (kQueue kd config) d);
      match kUnmarshal kd (pbBody (dvProperties d)) with
      | inl e => _ ← ignore (marked (Nacked d false) (amNack d false)); sfail (ErrWrap ("decode job: " +:+ kLabel kd) e)
      | inr job => mret (MkJobReceipt d job)
      end
  end.

(** The first error is kept. *)
Definition closeFirst (err : option GoError) (m : SM W unit) : Src (option GoError) :=
  r ← stry (world m);
  mret (match err, r with Some e, _ => Some e | None, inl e => Some e | None, inr _ => None end).

Definition Close : Src unit :=
  c ← state jsPublishChannel;
  err ← match c with None => mret None | Some c => closeFirst None (amClose c) end;
  _ ← update (set_publish None);
  c ← state jsChannel;
  err ← match c with None => mret err | Some c => closeFirst err (amClose c) end;
  _ ← update (fun s => set_consumer None (jsDeliveries s) s);
  c ← state jsConnection;
  err ← match c with None => mret err | Some c => closeFirst err (amCloseConnection c) end;
  _ ← update (set_connection None);
  scheck err.

Definition publisher : Src N :=
  c ← state jsPublishChannel;
  match c with
  | Some channel => mret channel
  | None =>
      _ ← swrap ("publish failure: " +:+ kLabel kd) (world amCtxErr);
      c ← state jsConnection;
      match c with
      | None => sfail errBrokerClosed
      | Some conn =>
          channel ← swrap ("open scheduler rabbitmq failure channel: " +:+ kLabel kd) (world (amChannel conn));
          _ ← orClose channel (configureRabbitMQPublisher channel);
          _ ← update (set_publish (Some channel));
          mret channel
      end
  end.

Definition resetPublisher : Src unit :=
  c ← state jsPublishChannel;
  match c with
  | None => mret tt
  | Some channel => _ ← update (set_publish None); closeRabbitMQChannelAsync channel
  end.

Definition publishFailurePersistent (exchange routingKey : string) (p : Publishing) : Src unit :=
  channel ← publisher;
  publishOn resetPublisher ("publish scheduler rabbitmq failure: " +:+ kLabel kd) channel exchange routingKey p.

Definition failureMessage (job : Job) (cause : option GoError) (body : string) (t : Time) : Publishing :=
  jsonMessage (kKey kd job) t (clampPriority (kPriority kd job)) ""
    (list_to_map (("attempt", AInt (ClampInt32 (kAttempt kd job))) :: match cause with Some e => [("failure", AStr (errorText e))] | None => [] end))
    body.

Definition failedJob (job : Job) (cause : option GoError) : Job :=
  match cause with Some e => kWithFailure kd (errorText e) job | None => job end.

Definition publishFailure (job : Job) (cause : option GoError) : Src unit :=
  let job := failedJob job cause in
  body ← lift (kMarshal kd job);
  t ← world amNow;
  publishFailurePersistent (scQueuePrefix config +:+ kExchange kd) (kFailedKey kd) (failureMessage job cause body t).

(** *** Receipts *)

Definition Ack (r : receipt Job) : Src unit := marked (Acked (rcptDelivery r)) (amAck (rcptDelivery r)).

(** [Park] of an analysis job, [Release] of an import job. *)
Definition Park (r : receipt Job) : Src unit := marked (Nacked (rcptDelivery r) true) (amNack (rcptDelivery r) true).

Definition Retry (r : receipt Job) (cause : option GoError) : Src unit :=
  p ← stry (publishFailure (rcptJob r) cause);
  match p with
  | inl e => _ ← ignore (marked (Nacked (rcptDelivery r) true) (amNack (rcptDelivery r) true)); sfail e
  | inr _ => marked (Acked (rcptDelivery r)) (amAck (rcptDelivery r))
  end.

End source.

(** ** The source of import jobs *)

Module ImportSource.
Section import.
Context {W : Type} `{!Amqp W} {J : BrokerJSON} (config : SourceConfig).

Definition NewSourceImportJobSource : B JobSource W SourceConfig := NewJobSource importKind config.
Definition ensureConsumer : B JobSource W N := ensureConsumer importKind config.
Definition Receive : B JobSource W (receipt SourceImportJob) := Receive importKind config.
Definition Close : B JobSource W unit := Close.
Definition publisher : B JobSource W N := publisher importKind.
Definition resetPublisher : B JobSource W unit := resetPublisher.
Definition publishFailure : SourceImportJob -> option GoError -> B JobSource W unit := publishFailure importKind config.
Definition publishFailurePersistent : string -> string -> Publishing -> B JobSource W unit := publishFailurePersistent importKind.
Definition Ack : receipt SourceImportJob -> B JobSource W unit := Ack.
Definition Release : receipt SourceImportJob -> B JobSource W unit := Park.
Definition Retry : receipt SourceImportJob -> option GoError -> B JobSource W unit := Retry importKind config.
End import.
End ImportSource.

(** ** What a receipt leaves in the trace *)

Section receipts.
Context {W : Type} `{!Amqp W} {J : BrokerJSON} {Job : Type} (kd : kind Job) (config : SourceConfig).

Lemma calm_source_publisher : calm (publisher (W := W) kd).
Proof using Type. unfold publisher, orClose, configureRabbitMQPublisher, ignore. calm. Qed.

Lemma calm_source_reset : calm (resetPublisher (W := W)).
Proof using Type. unfold resetPublisher, closeRabbitMQChannelAsync, ignore. calm. Qed.

Lemma calm_ensure : calm (ensureConsumer (W := W) kd config).
Proof using Type. unfold ensureConsumer, orClose, ignore. calm. Qed.

(** The message a failed job is handed over with. *)
Definition handed (job : Job) (cause : option GoError) (confirmed : bool) (e : event) : Prop :=
  exists body t, kMarshal kd (failedJob kd job cause) = inr body /\
    e = Published (scQueuePrefix config +:+ kExchange kd) (kFailedKey kd) (failureMessage kd (failedJob kd job cause) cause body t) confirmed.

Lemma traces_publishFailure job cause : traces (publishFailure kd config job cause) (fun r tr => match r with
  | Some (inr _) => exists e, tr = [e] /\ handed job cause true e
  | _ => tr = [] \/ exists e, tr = [e] /\ handed job cause false e end).
Proof using Type.
  unfold publishFailure. cbv zeta. apply traces_lifted; [by left|]. intros body Hb.
  apply traces_skip; [apply calm_world|by left|by left|]. intros t. unfold publishFailurePersistent.
  apply traces_skip; [apply calm_source_publisher|by left|by left|]. intros ch.
  eapply traces_mono; [apply traces_publishOn, calm_source_reset|]. unfold pushed.
  assert (forall b, handed job cause b (Published (scQueuePrefix config +:+ kExchange kd) (kFailedKey kd) (failureMessage kd (failedJob kd job cause) cause body t) b))
    as Hh by (intros b; by exists body, t).
  intros [[e|u]|] tr; [|eauto|]; intros [-> | ->]; eauto.
Qed.

Lemma traces_ignored {C} e (m : SM W unit) : traces (C := C) (ignore (marked e m)) (fun r tr => match r with
  | Some (inr _) => exists b, tr = [e b] | Some (inl _) => False | None => tr = [] end).
Proof using Type.
  unfold ignore. eapply traces_bind.
  - eapply (traces_try _ _ (fun r tr => match r with Some (inl _) => False | Some (inr _) => exists b, tr = [e b] | None => tr = [] end));
      [apply traces_marked| |done]. intros [x|u] tr ->; eauto.
  - done.
  - done.
  - intros a tr [b ->]. apply traces_ret. eauto.
Qed.

(** A receipt is retried: the failed job was handed over before the delivery is
    acknowledged, or the delivery goes back and the caller gets the error. *)
Definition retriedTrace (r : receipt Job) (cause : option GoError) (res : option (GoError + unit)) (tr : list event) : Prop :=
  match res with
  | Some (inr _) => exists e, handed (rcptJob r) cause true e /\ tr = [e; Acked (rcptDelivery r) true]
  | Some (inl _) => (exists e, handed (rcptJob r) cause true e /\ tr = [e; Acked (rcptDelivery r) false]) \/
      (exists b, tr = [Nacked (rcptDelivery r) true b]) \/
      (exists e b, handed (rcptJob r) cause false e /\ tr = [e; Nacked (rcptDelivery r) true b])
  | None => tr = [] \/ exists e b, handed (rcptJob r) cause b e /\ tr = [e]
  end.

Lemma traces_Retry r cause : traces (Retry kd config r cause) (retriedTrace r cause).
Proof using Type.
  unfold Retry. eapply traces_bind.
  { eapply (traces_try _ _ (fun res tr => match res with Some (inl _) => False
      | Some (inr (inr _)) => exists e, tr = [e] /\ handed (rcptJob r) cause true e
      | _ => tr = [] \/ exists e, tr = [e] /\ handed (rcptJob r) cause false e end)); [apply traces_publishFailure| |done].
    by intros [e|u] tr. }
  { done. }
  { intros tr [-> | (e & -> & Hh)]; cbn; [by left|right; eauto]. }
  intros [e|u] tr Ht.
  - eapply traces_bind; [apply traces_ignored|done|..].
    + intros tr' ->. rewrite app_nil_r. destruct Ht as [-> | (x & -> & Hh)]; cbn; [by left|right; eauto].
    + intros ? tr' [b ->]. apply traces_fail. cbn. destruct Ht as [-> | (x & -> & Hh)]; cbn; right; [left; eauto|right; eauto].
  - destruct Ht as (x & -> & Hh). eapply traces_mono; [apply traces_marked|].
    intros [[e|u']|] tr' ->; cbn; [left|..]; eauto.
Qed.

(** A message that is no job is rejected for good before the caller is told (the
    call can be under way when the run is cut off there), every job is handed to
    the caller unsettled. *)
Definition receivedTrace (res : option (GoError + receipt Job)) (tr : list event) : Prop :=
  match res with
  | Some (inr r) => tr = [Received (kQueue kd config) (rcptDelivery r)] /\ kUnmarshal kd (pbBody (dvProperties (rcptDelivery r))) = inr (rcptJob r)
  | Some (inl _) => tr = [] \/ exists d e b, kUnmarshal kd (pbBody (dvProperties d)) = inl e /\
      tr = [Received (kQueue kd config) d; Nacked d false b]
  | None => tr = [] \/ exists d e, kUnmarshal kd (pbBody (dvProperties d)) = inl e /\ tr = [Received (kQueue kd config) d]
  end.

Lemma traces_Receive : traces (Receive kd config) receivedTrace.
Proof using Type.
  unfold Receive. apply traces_skip; [apply calm_ensure|by left|by left|]. intros ds.
  apply traces_skip; [apply calm_world|by left|by left|].
  intros [e|[d|]]; [by apply traces_fail; left| |by apply traces_fail; left]. apply traces_log_bind.
  destruct (kUnmarshal kd (pbBody (dvProperties d))) as [e|job] eqn:Hj; [|by apply traces_ret].
  eapply traces_bind; [apply traces_ignored|done|..].
  - intros tr ->. right. by exists d, e.
  - intros ? tr [b ->]. apply traces_fail. right. by exists d, e, b.
Qed.

(** The delivery is settled by one call, and its result is the caller's. *)
Definition settledTrace (e : bool -> event) (res : option (GoError + unit)) (tr : list event) : Prop :=
  match res with
  | Some (inr _) => tr = [e true]
  | Some (inl _) => tr = [e false]
  | None => tr = []
  end.
End receipts.

(** C18: receipts settle their delivery, and a retry hands over first.  On both
    sources of jobs and on any server: [Ack] returns without an error only when it
    has acknowledged its delivery, [Park] (and [Release]) only when it has given it
    back, each with that one call; [Retry] first has the failed job, with the cause,
    confirmed by the failure exchange and acknowledges the delivery only then; when
    that fails the delivery is given back and the error returned.  [Receive] hands
    a job to its caller unsettled; a message that is no job it rejects without
    requeue, which is where the work queue's failed queue takes over, before it
    returns the error, and it settles nothing else. *)
Theorem receipts_hand_over {W} `{!Amqp W} {J : BrokerJSON} {Job} (kd : kind Job) (config : SourceConfig) (r : receipt Job) (cause : option GoError) :
  traces (W := W) (Retry kd config r cause) (retriedTrace kd config r cause) /\
  traces (W := W) (Receive kd config) (receivedTrace kd config) /\
  traces (W := W) (Ack r) (settledTrace (Acked (rcptDelivery r))) /\
  traces (W := W) (Park r) (settledTrace (Nacked (rcptDelivery r) true)).
Proof. split; [apply traces_Retry|]. split; [apply traces_Receive|]. split; apply traces_marked. Qed.

End Sources.
