(* ===== verification/BrokerWorld.v ===== *)
(** * The scheduler on the RabbitMQ broker

    The [scheduler.Broker] interface of [Scheduler] implemented by [Broker], beside
    any store, and proof that it keeps what the scheduler relies on. *)

From stdpp Require Import options.
From S2P Require Import Prelude GoLib Contracts Meta Jobs ArchiveQueue Projection Scheduler Broker BrokerRounds.

Local Open Scope Z_scope.

Module OnBroker.
Import Rabbit Rounds.

(** What the scheduler asks of the store and the projector, in the same world. *)
Class StoreSide (W : Type) := {
  stWalk : W -> list ProjectionObject * option GoError;
  stObject : ObjectDigest -> SM W (option ProjectionObject);
  stHasAnnotation : ObjectDigest -> string -> string -> SM W bool;
  stProject : ProjectionObject -> SM W unit;
  stSha256 : string -> string }.

Section world.
Context {W : Type} `{!Amqp W} {J : BrokerJSON} `{!StoreSide W} (config : Config) (rounds : nat).

(** The predicate of a reconciliation sees the world, not the broker. *)
Definition onWorldOnly (f : AnalyzerJob -> SM (Client Broker W) bool) (job : AnalyzerJob) : SM W bool := fun w =>
  let '(r, s) := f job (MkClient closedBroker w []) in (r, clWorld s).

(** A call that returns its error beside a value. *)
Definition beside {A} (zero : A) (m : B Broker W A) : B Broker W (A * option GoError) :=
  r ← stry m; mret (match r with inl e => (zero, Some e) | inr a => (a, None) end).

Definition total (m : B Broker W (Z * option GoError)) : B Broker W Z :=
  r ← m; match r.2 with Some e => sfail e | None => mret r.1 end.

#[local] Instance brokerWorld : Scheduler.World (Client Broker W) := {|
  Scheduler.wWalkProjection s := stWalk (clWorld s);
  Scheduler.wProjectionObject d := world (stObject d);
  Scheduler.wDeclare := declareTopology config;
  Scheduler.wPublish := Publish config;
  Scheduler.wPublishObjectChanges := PublishObjectChanges config;
  Scheduler.wPublishProjectionRefresh := PublishProjectionRefresh config;
  Scheduler.wProcessFailures := ProcessFailures config;
  Scheduler.wRequeueDeadLetters := RequeueDeadLetters config;
  Scheduler.wDeadLetters n := beside [] (DeadLetters config n);
  Scheduler.wFailedJobs n := beside [] (FailedJobs config n);
  Scheduler.wPendingJobs n := beside [] (PendingJobs config n);
  Scheduler.wReconcilePending n f := ReconcilePending config rounds n (Some (onWorldOnly f));
  Scheduler.wHasAnalysisAnnotation d k a := world (stHasAnnotation d k a);
  Scheduler.wStatus := Status config;
  Scheduler.wPerAnalyzerStatus := PerAnalyzerStatus config;
  Scheduler.wPurgeAll := total (PurgeAll config);
  Scheduler.wProjectObject o := world (stProject o);
  Scheduler.wSha256 := stSha256 |}.

(** C19: the RabbitMQ broker is a broker the scheduler is verified against.  When
    the calls of the AMQP client return and neither they nor the reads of the store
    change what a walk of the store delivers, the broker keeps the contract of the
    scheduler's interface: its operations return and leave the walk alone, and
    [ProcessFailures] reports its error beside the count. *)
Theorem broker_keeps_contract : responsive W stWalk -> (forall d, steady stWalk (stObject d)) -> (forall o, steady stWalk (stProject o)) ->
  Scheduler.WorldLaws (Client Broker W) (World0 := brokerWorld).
Proof.
  intros Hr Ho Hp. split; unfold Scheduler.mild; cbn.
  - exact (Declare_ends config _ Hr).
  - intros job. exact (Publish_ends config _ Hr job).
  - intros request. exact (PublishObjectChanges_ends config _ Hr request).
  - intros d. exact (PublishObjectChanges_ends config _ Hr _).
  - intros n. exact (ProcessFailures_ends config _ Hr n).
  - intros n s e He. pose proof (failures_carried config n s) as H. unfold upto in H.
    destruct (ProcessFailures config n s) as [[|e'|] s']; try done. destruct H as (tr & _ & (rounds' & last & _ & _ & _ & [])).
  - intros d. exact (ends_world _ _ (Ho d)).
  - intros o. exact (ends_world _ _ (Hp o)).
  - exact (Status_ends config _ Hr).
Qed.
End world.
End OnBroker.
