(* ===== verification/BrokerServer.v ===== *)
(** * The broker on a server

    An AMQP server in memory with direct exchanges, dead-lettering, consumers that
    are sent messages ahead of their acknowledgements, and publisher confirms, as
    RabbitMQ documents them: an instance of [Amqp] on which the theorems about the
    broker are applied and its faults are run. *)

From stdpp Require Import options.
From S2P Require Import Prelude GoLib GoText Contracts Meta Jobs GoPath ArchiveQueue Breaker Projection Scheduler.
From S2P Require Import Broker BrokerRounds BrokerRoutes BrokerSource BrokerWorld.

Local Open Scope Z_scope.

Module Server.
Import Rabbit Rounds Routes Sources OnBroker.

(** ** State *)

(** A stream of deliveries: its channel, its queue, what was sent and not read. *)
Record consumer := MkConsumer { csStream : N; csChannel : N; csQueue : string; csBuffer : list Delivery }.

Record server := MkServer {
  svQueues : gmap string (anyMap * list Publishing);   (* arguments, and the messages that are ready *)
  svBindings : list queueBinding;
  svConsumers : list consumer;
  svUnacked : list (Delivery * string);                (* sent and not settled, with their queues *)
  svPrefetch : gmap N Z;
  svReturns : gmap N Z;                                (* unread returns of a publishing channel *)
  svConfirms : gmap N Z;                               (* and unread confirmations *)
  svNext : N;                                          (* the next number of anything *)
  svPicks : list bool;                                 (* what select picks when both are there: the confirmation? *)
  svLate : list bool }.                                (* is the next delivery still on its way when it is polled? *)

Definition set_queues (q : gmap string (anyMap * list Publishing)) (s : server) : server :=
  MkServer q (svBindings s) (svConsumers s) (svUnacked s) (svPrefetch s) (svReturns s) (svConfirms s) (svNext s) (svPicks s) (svLate s).
Definition set_bindings (b : list queueBinding) (s : server) : server :=
  MkServer (svQueues s) b (svConsumers s) (svUnacked s) (svPrefetch s) (svReturns s) (svConfirms s) (svNext s) (svPicks s) (svLate s).
Definition set_consumers (c : list consumer) (u : list (Delivery * string)) (s : server) : server :=
  MkServer (svQueues s) (svBindings s) c u (svPrefetch s) (svReturns s) (svConfirms s) (svNext s) (svPicks s) (svLate s).
Definition set_prefetch (p : gmap N Z) (s : server) : server :=
  MkServer (svQueues s) (svBindings s) (svConsumers s) (svUnacked s) p (svReturns s) (svConfirms s) (svNext s) (svPicks s) (svLate s).
Definition set_events (r c : gmap N Z) (picks : list bool) (s : server) : server :=
  MkServer (svQueues s) (svBindings s) (svConsumers s) (svUnacked s) (svPrefetch s) r c (svNext s) picks (svLate s).
Definition set_next (n : N) (s : server) : server :=
  MkServer (svQueues s) (svBindings s) (svConsumers s) (svUnacked s) (svPrefetch s) (svReturns s) (svConfirms s) n (svPicks s) (svLate s).
Definition set_late (l : list bool) (s : server) : server :=
  MkServer (svQueues s) (svBindings s) (svConsumers s) (svUnacked s) (svPrefetch s) (svReturns s) (svConfirms s) (svNext s) (svPicks s) l.

Definition start (picks late : list bool) : server := MkServer ∅ [] [] [] ∅ ∅ ∅ 0 picks late.

(** ** Steps of the server *)

Definition readyIn (s : server) (queue : string) : list Publishing := default [] (snd <$> svQueues s !! queue).

Definition setReady (queue : string) (l : list Publishing) (s : server) : server :=
  match svQueues s !! queue with
  | Some (args, _) => set_queues (<[queue := (args, l)]> (svQueues s)) s
  | None => s
  end.

Definition routeTo (s : server) (exchange key : string) : list string :=
  if bool_decide (exchange = "") then (if bool_decide (is_Some (svQueues s !! key)) then [key] else [])
  else map qbQueue (List.filter (fun b => bool_decide (qbExchange b = exchange) && bool_decide (qbRoutingKey b = key)) (svBindings s)).

Definition enqueue (p : Publishing) (queue : string) (s : server) : server := setReady queue (readyIn s queue ++ [p]) s.

Definition outstanding (s : server) (channel : N) : Z :=
  Z.of_nat (length (List.filter (fun u => bool_decide (dvChannel u.1 = channel)) (svUnacked s))).

(** The messages of a queue are sent to its first consumer that may have more. *)
Definition pushOne (s : server) : option server :=
  match List.find (fun c => match readyIn s (csQueue c) with [] => false | _ => outstanding s (csChannel c) <? default 0 (svPrefetch s !! csChannel c) end)
          (svConsumers s) with
  | None => None
  | Some c =>
      match readyIn s (csQueue c) with
      | [] => None
      | p :: rest =>
          let d := MkDelivery (csChannel c) (svNext s) p in
          let consumers := map (fun x => if bool_decide (csStream x = csStream c) then MkConsumer (csStream x) (csChannel x) (csQueue x) (csBuffer x ++ [d]) else x)
                             (svConsumers s) in
          Some (set_next (svNext s + 1) (set_consumers consumers (svUnacked s ++ [(d, csQueue c)]) (setReady (csQueue c) rest s)))
      end
  end.

Fixpoint push (fuel : nat) (s : server) : server :=
  match fuel with
  | O => s
  | S fuel => match pushOne s with Some s => push fuel s | None => s end
  end.

(** As often as there are messages. *)
Definition pushAll (s : server) : server := push (S (sum_list (map (fun q => length q.2.2) (map_to_list (svQueues s))))) s.

Definition publishTo (exchange key : string) (p : Publishing) (s : server) : server :=
  foldl (fun s queue => enqueue p queue s) s (routeTo s exchange key).

Definition sameDelivery (d : Delivery) (u : Delivery * string) : bool := bool_decide (dvTag u.1 = dvTag d).

Definition settle (d : Delivery) (s : server) : server :=
  set_consumers (svConsumers s) (List.filter (fun u => negb (sameDelivery d u)) (svUnacked s)) s.

Definition queueOf (d : Delivery) (s : server) : option string := snd <$> List.find (sameDelivery d) (svUnacked s).

Definition deadLetter (queue : string) (p : Publishing) (s : server) : server :=
  match svQueues s !! queue with
  | Some (args, _) =>
      match args !! "x-dead-letter-exchange", args !! "x-dead-letter-routing-key" with
      | Some (AStr exchange), Some (AStr key) => publishTo exchange key p s
      | _, _ => s
      end
  | None => s
  end.

(** The oldest message of a queue has been there for its time. *)
Definition expire (queue : string) (s : server) : server :=
  match readyIn s queue with
  | [] => s
  | p :: rest => if bool_decide (pbExpiration p = "") then s else pushAll (deadLetter queue p (setReady queue rest s))
  end.

Definition closeChannel (channel : N) (s : server) : server :=
  let back := List.filter (fun u => bool_decide (dvChannel u.1 = channel)) (svUnacked s) in
  let s := set_consumers (List.filter (fun c => negb (bool_decide (csChannel c = channel))) (svConsumers s))
             (List.filter (fun u => negb (bool_decide (dvChannel u.1 = channel))) (svUnacked s)) s in
  pushAll (foldr (fun u s => setReady u.2 (dvProperties u.1 :: readyIn s u.2) s) s back).

Definition fresh : SM server N := fun s => (Ok (svNext s), set_next (svNext s + 1) s).

Definition takeFrom (stream : N) (s : server) : option Delivery * server :=
  match List.find (fun c => bool_decide (csStream c = stream)) (svConsumers s) with
  | Some c =>
      match csBuffer c with
      | d :: rest => (Some d, set_consumers (map (fun x => if bool_decide (csStream x = stream) then MkConsumer (csStream x) (csChannel x) (csQueue x) rest else x)
                                 (svConsumers s)) (svUnacked s) s)
      | [] => (None, s)
      end
  | None => (None, s)
  end.

Definition select (channel : N) : SM server publishEvent := fun s =>
  let returns := default 0 (svReturns s !! channel) in
  let confirms := default 0 (svConfirms s !! channel) in
  let returned s := (Ok (Returned "NO_ROUTE"), set_events (<[channel := returns - 1]> (svReturns s)) (svConfirms s) (svPicks s) s) in
  let confirmed s := (Ok (Confirmation true), set_events (svReturns s) (<[channel := confirms - 1]> (svConfirms s)) (svPicks s) s) in
  if (0 <? returns) && (0 <? confirms) then
    match svPicks s with
    | true :: picks => confirmed (set_events (svReturns s) (svConfirms s) picks s)
    | _ :: picks => returned (set_events (svReturns s) (svConfirms s) picks s)
    | [] => returned s
    end
  else if 0 <? returns then returned s
  else if 0 <? confirms then confirmed s
  else (Ok TimedOut, s).

(** With a context that is never done, waiting for a message that does not come
    has no end. *)
Definition serverAmqp (waits : bool) : Amqp server := {|
  amCtxErr := mret tt;
  amNow := mret 0;
  amFormatTime t := "";
  amDial _ := fresh;
  amCloseConnection _ := mret tt;
  amChannel _ := fresh;
  amClose channel := smodify (closeChannel channel);
  amExchangeDeclare _ _ := mret tt;
  amQueueDeclare _ queue args := smodify (fun s => if bool_decide (is_Some (svQueues s !! queue)) then s else set_queues (<[queue := (args, [])]> (svQueues s)) s);
  amQueueBind _ queue key exchange := smodify (fun s => set_bindings (svBindings s ++ [MkBinding queue key exchange]) s);
  amQueuePurge _ queue := fun s => (Ok (Z.of_nat (length (readyIn s queue))), setReady queue [] s);
  amQueueDeclarePassive _ queue := fun s =>
    (match svQueues s !! queue with Some (_, l) => Ok (Z.of_nat (length l)) | None => Err (ErrMsg "NOT_FOUND") end, s);
  amQos channel n := smodify (fun s => set_prefetch (<[channel := n]> (svPrefetch s)) s);
  amConsume channel queue _ := fun s =>
    if bool_decide (is_Some (svQueues s !! queue))
    then (Ok (svNext s), pushAll (set_next (svNext s + 1) (set_consumers (svConsumers s ++ [MkConsumer (svNext s) channel queue []]) (svUnacked s) s)))
    else (Err (ErrMsg "NOT_FOUND"), s);
  amWait stream := fun s =>
    match takeFrom stream s with
    | (Some d, s) => (Ok (inr (Some d)), s)
    | (None, s) => if waits then (Panic, s) else (Ok (inl ErrCtx), s)
    end;
  amPoll stream := fun s =>
    match svLate s with
    | true :: late => (Ok None, set_late late s)
    | late => let '(d, s) := takeFrom stream (set_late (tail late) s) in (Ok (Some <$> d), s)
    end;
  amAck d := smodify (fun s => pushAll (settle d s));
  amNack d requeue := smodify (fun s =>
    match queueOf d s with
    | None => s
    | Some queue =>
        let s := settle d s in
        pushAll (if requeue then setReady queue (dvProperties d :: readyIn s queue) s else deadLetter queue (dvProperties d) s)
    end);
  amConfirm _ := mret tt;
  amPublish channel exchange key p := smodify (fun s =>
    let returns := match routeTo s exchange key with [] => <[channel := default 0 (svReturns s !! channel) + 1]> (svReturns s) | _ => svReturns s end in
    let confirms := <[channel := default 0 (svConfirms s !! channel) + 1]> (svConfirms s) in
    pushAll (publishTo exchange key p (set_events returns confirms (svPicks s) s)));
  amSelect := select |}.

(** ** Messages *)

(** A job is written as its analyzer, its key and its attempts. *)
Definition sep : Ascii.ascii := Ascii.ascii_of_nat 10.
Definition spec (name : string) : AnalyzerSpec := MkSpec name "" "" "" [] [] [] [] [] 0 false.
Definition job (name key : string) (attempt : Z) : AnalyzerJob := MkJob 0 0 (spec name) "" "" "" "" "" "" key "" 0 attempt 0 false.

#[local] Instance textJSON : BrokerJSON := {|
  jsMarshalJob j := inr (joinWith sep [spName (jAnalyzer j); jIdempotencyKey j; FormatUint (Z.to_N (jAttempt j))]);
  jsUnmarshalJob s :=
    match splitOn sep s with
    | [name; key; n] => match ParseUint32 n with Some n => inr (job name key (Z.of_N n)) | None => inl (ErrMsg "attempt") end
    | _ => inl (ErrMsg "job")
    end;
  jsMarshalChange r := inr (joinWith sep (ocObjectDigests r));
  jsUnmarshalChange s := inr (MkChange "" "" "" "" 0 (splitOn sep s) false);
  jsUnmarshalDigest s := inr s;
  jsMarshalImport _ := inl (ErrMsg "no imports");
  jsUnmarshalImport _ := inl (ErrMsg "no imports") |}.

Definition config (limit backoff : Z) : Config := MkConfig "amqp://" "q." ["ocr"] limit backoff.
Definition usual : Config := config 3 (30 * 1000 * millisecond).

#[local] Instance waiting : Amqp server := serverAmqp true.

(** A broker that has connected and declared its queues. *)
Definition connected (picks late : list bool) : Client Broker server :=
  (New usual (MkClient closedBroker (start picks late) [])).2.

(** The keys and attempts of the jobs that are ready in a queue. *)
Definition jobsIn (s : server) (queue : string) : list (string * Z) :=
  omap (fun p => match jsUnmarshalJob (pbBody p) with inr j => Some (jIdempotencyKey j, jAttempt j) | inl _ => None end) (readyIn s queue).

Definition run {A} (m : B Broker server A) (s : Client Broker server) : Client Broker server := (m s).2.

(** ** The theorems hold here *)

#[local] Instance noStore : StoreSide server := {|
  stWalk _ := ([], None); stObject _ := mret None; stHasAnnotation _ _ _ := mret false; stProject _ := mret tt; stSha256 x := x |}.

(** A server on which waiting ends when the context does. *)
Lemma responsive_server {X} (x : X) : responsive (Amqp0 := serverAmqp false) server (fun _ => x).
Proof.
  assert (forall A (m : SM server A), (forall s, (m s).1 <> Panic) -> steady (fun _ => x) m) as Hm by (intros A m H s; done).
  split; intros; apply Hm; intros s; cbn; try done.
  - by destruct (svQueues s !! q) as [[]|].
  - by case_bool_decide.
  - by destruct (takeFrom d s) as [[]].
  - destruct (svLate s) as [|[] late]; cbn; [|done|]; by destruct (takeFrom _ _) as [[]].
  - unfold select. destruct (_ && _); [by destruct (svPicks s) as [|[]]|]. by repeat destruct (0 <? _).
Qed.

Lemma queues_lose_nothing_witness :
  let s := (New (Amqp0 := serverAmqp false) usual (MkClient closedBroker (start [] []) [])).2 in
  (ProcessFailures (Amqp0 := serverAmqp false) usual 10 s).1 <> Panic /\ exists e, (ProcessFailures (Amqp0 := serverAmqp false) usual 10 s).1 = Ok (0, Some e).
Proof.
  intros s. split.
  - exact (proj1 (proj2 (proj2 (proj2 (queues_lose_nothing (Amqp0 := serverAmqp false) usual 10))) s (responsive_server tt))).
  - vm_compute. by eexists.
Defined.

Definition fresh_client : Client Broker server := MkClient (MkBroker (Some 0%N) None ∅ None) (start [] []) [].

Lemma declared_routes_witness : exists tr, clTrace (declareTopology usual fresh_client).2 = tr /\ routes_ok usual tr.
Proof.
  assert (declareTopology usual fresh_client = (Ok tt, (declareTopology usual fresh_client).2)) as Hd by (vm_compute; reflexivity).
  destruct (declared_routes usual _ _ Hd) as (tr & Ht & Hr). exists tr. split; [exact Ht|exact Hr].
Defined.

Lemma failing_job_buried_witness :
  let start := (workQueueFor (topologyOf usual) "ocr", job "ocr" "k" 0) in
  rtc (hop usual) start (deadLetterQueue (topologyOf usual), job "ocr" "k" 4) /\
  (forall n p, nsteps (hop usual) n start p -> (n <= 11)%nat).
Proof.
  destruct (failing_job_buried usual "ocr" (job "ocr" "k" 0) ltac:(left) ltac:(reflexivity) ltac:(cbn; lia) ltac:(vm_compute; reflexivity)
    ltac:(vm_compute; reflexivity)) as [H1 H2].
  split; [exact (H1 _ (rtc_refl _ _))|exact H2].
Defined.

Lemma broker_keeps_contract_witness :
  Scheduler.WorldLaws (Client Broker server) (World0 := brokerWorld (Amqp0 := serverAmqp false) usual 10).
Proof.
  apply (broker_keeps_contract (Amqp0 := serverAmqp false) usual 10); [exact (responsive_server ([], None))|done|done].
Defined.

(** ** Faults *)

Definition publishJob (name key : string) (attempt : Z) (s : Client Broker server) : Client Broker server :=
  run (Publish usual (job name key attempt)) s.

Definition worker (w : server) : Client JobSource server := MkClient (MkSource (Some 0%N) None None None) w [].
Definition ocrWorker : SourceConfig := MkSourceConfig "amqp://" "q." "ocr" 1.

(** The key of the job a worker gets; [None] when it waits. *)
Definition nextJob (w : server) : option string :=
  match (Receive analysisKind ocrWorker (worker w)).1 with Ok r => Some (jIdempotencyKey (rcptJob r)) | _ => None end.

Definition scheduler (s : Client Broker server) : Scheduler.Service (Client Broker server) :=
  Scheduler.MkService s (Lru.LruCache.newLRUCache 10) ∅ "" [] (Scheduler.exConfig 2) false false true 0 [] [].

(** A scan of an idle system does not end.  [Scan] first processes the failed
    jobs, and the broker's [ProcessFailures] waits for the first one: with an empty
    failed queue and a context that is not cancelled, no scan looks at any object.
    A job that has failed sets it free. *)
Theorem scan_waits_for_failure :
  (forall request, (Scheduler.Scan (World0 := brokerWorld usual 10) request (scheduler (connected [] []))).1 = Panic) /\
  (ProcessFailures usual 100 (publishJob "ocr" "k" 0 (connected [] []))).1 = Panic /\
  (let s := run (RouteFailure usual (job "ocr" "k" 7)) (connected [] []) in
   jobsIn (clWorld s) (deadLetterQueue (topologyOf usual)) = [("k", 8)] /\ (ProcessFailures usual 100 s).1 = Panic) /\
  (let s := run (publishPersistent usual (analysisExchange (topologyOf usual)) failedRoutingKey
              (retryPublishing usual (job "ocr" "k" 0) (joinWith sep ["ocr"; "k"; "0"]) 0)) (connected [] []) in
   (ProcessFailures usual 100 s).1 = Ok (1, None)).
Proof. vm_compute. repeat split. Qed.

(** The dead letters a requeue has left over are hidden: the broker's stream has
    taken them all and keeps them, so that neither the status nor a look into the
    queue shows them, although they are as dead as before. *)
Theorem requeue_hides_dead_letters :
  let bury key s := run (RouteFailure usual (job "ocr" key 7)) s in
  let s := bury "k3" (bury "k2" (bury "k1" (connected [] []))) in
  let s' := run (RequeueDeadLetters usual 1) s in
  length (jobsIn (clWorld s) (deadLetterQueue (topologyOf usual))) = 3%nat /\
  (RequeueDeadLetters usual 1 s).1 = Ok (1, None) /\ (DeadLetters usual 10 s').1 = Ok [] /\
  match (Status usual s').1 with Ok st => stDeadLetter st = 0 | _ => False end /\
  (RequeueDeadLetters usual 10 s').1 = Ok (2, None).
Proof. vm_compute. repeat split. Qed.

(** While a broker that has reconciled is open, its streams take the jobs of the
    work queues away from the workers. *)
Theorem reconcile_withholds_jobs :
  let s := publishJob "ocr" "k2" 0 (publishJob "ocr" "k1" 0 (connected [] [])) in
  let s' := run (ReconcilePending usual 10 1 (Some (fun _ => mret false))) s in
  nextJob (clWorld s) = Some "k1" /\ nextJob (clWorld s') = None /\
  nextJob (clWorld (publishJob "ocr" "k3" 0 s')) = None /\ nextJob (clWorld (run Rabbit.Close s')) = Some "k2".
Proof. vm_compute. repeat split. Qed.

(** A publication that no queue takes can pass for a confirmed one: its return and
    its confirmation are both there when [select] looks, which picks either.  The
    return that is left over then fails the next publication, which was stored. *)
Theorem unroutable_publish_confirmed :
  let s := connected [true; false] [] in
  let s' := publishJob "unknown" "k1" 0 s in
  (Publish usual (job "unknown" "k1" 0) s).1 = Ok tt /\
  (Publish usual (job "unknown" "k1" 0) (connected [false] [])).1 <> Ok tt /\
  (Publish usual (job "ocr" "k2" 0) s').1 <> Ok tt /\
  jobsIn (clWorld (publishJob "ocr" "k2" 0 s')) (workQueueFor (topologyOf usual) "ocr") = [("k2", 0)].
Proof. vm_compute. repeat split; discriminate. Qed.

(** A look into a queue right after the stream was opened finds nothing when the
    messages are still on their way. *)
Theorem peek_sees_nothing :
  let s late := publishJob "ocr" "k" 0 (connected [] late) in
  match (PendingJobs usual 10 (s [])).1 with Ok jobs => length jobs = 1%nat | _ => False end /\ (PendingJobs usual 10 (s [true])).1 = Ok [].
Proof. vm_compute. repeat split. Qed.

(** With thirty retries the doubled backoff leaves 64 bits: the last retry has no
    expiration, and the job stays in the retry queue for ever, where no one looks
    for it. *)
Theorem retry_never_expires :
  let config := config 30 (30 * 1000 * millisecond) in
  let queue := retryQueueFor (topologyOf config) "ocr" in
  let retry attempt := clWorld (run (RouteFailure config (job "ocr" "k" attempt)) (run (declareTopology config) fresh_client)) in
  jobsIn (retry 28) queue = [("k", 29)] /\ jobsIn (expire queue (retry 28)) queue = [] /\
  jobsIn (retry 29) queue = [("k", 30)] /\ jobsIn (expire queue (retry 29)) queue = [("k", 30)].
Proof. vm_compute. repeat split. Qed.

End Server.
